(* ===== verification/_CoqProject ===== *)
-Q . S2P
Prelude.v
Arith.v
Double.v
FloatBits.v
FloatDivide.v
Target.v
Ir.v
IrFold.v
IrVerify.v
IrDefinitions.v
IrVerifySpec.v
PtrSet.v
Probe.v
Utf.v
CommandLine.v
Json.v
JsonSpec.v
Sha256.v
F16.v
WordLock.v
ObjectLock.v
LockOrder.v
LockOrderTable.v
LockOrderSpec.v
Token.v
Lexer.v
LexerRun.v
LexerSpec.v
AntlIo.v
Layout.v
LayoutPlace.v
LayoutRun.v
LayoutSpec.v
LayoutData.v
LayoutBytes.v
LayoutDataSpec.v
LayoutResolve.v
Abi.v
AbiSpec.v
IrSem.v
FloatSem.v
Optimize.v
OptimizeFloats.v
IrSim.v
OptimizeLocal.v
OptimizeBlock.v
OptimizeCopies.v
OptimizeCounts.v
OptimizeSingle.v
OptimizeMemory.v
OptimizeDead.v
OptimizeGraph.v
OptimizeMerge.v
OptimizePeephole.v
OptimizeRetarget.v
OptimizeRenumber.v
OptimizeMeasure.v
OptimizeEnds.v
OptimizeRounds.v
OptimizeOperands.v
OptimizeFunction.v
OptimizeSettled.v
Program.v
Reach.v
ReachSpec.v
OptimizeProgram.v
OptimizeUnused.v
OptimizeFailures.v
OptimizeSpec.v
OptimizeProgramSpec.v
