(* ===== verification/Prelude.v ===== *)
(** * antic: a verification library for the compiler of the Anti language

    The repository holds antic (src/antic, the compiler), its runtime (src/rt) and
    anti, the build tool (src/anti), all in C. antic reads a module with its lexer
    and parser, checks it, lowers it to an intermediate representation that is the
    same for every target, writes it to a library file, and, for one of six
    targets, lays out its aggregates, folds its symbolic values and hands it to
    LLVM. This library models the parts below as they are written and proves what
    makes them correct.

    ** Parts and files

    - Prelude.v: words as [Z] with their wrap-around, signed values, bit operations
      as arithmetic, bytes and decimal numbers, and the tactics all files share.
    - Arith.v (arith.c): the arithmetic of constants at a width of 8 to 64 bits:
      overflow, saturation, the upper half of a product, decimal numbers. Proved
      exact against the integers.
    - Double.v (arith.c): the division and the narrowing of doubles, on the values of
      IEEE 754. Proved to be its operations where those of C have no value.
    - Target.v (target.c): the table of targets and the mangling of symbols. Two
      functions share no symbol, and a symbol holds only bytes an assembler takes.
    - Ir.v (ir.h, ir.c): the types, aggregates, symbolic values, operations, operands,
      instructions, functions, constants, globals, class records and modules of the
      intermediate representation. An index of the source is a [nat].
    - IrFold.v (ir_fold.c): folding of every operation. Proved to give the exact
      result reduced to the width, or the reason that there is none.
    - IrVerify.v (ir_verify.c): the check of a module after the lowering, whole.
      IrDefinitions.v shows what its analysis of definitions computes, over arrays of
      words; IrVerifySpec.v what the runs of an accepted function may rely on.
    - PtrSet.v (ptrset.c): the open-addressing table behind pointer sets, maps and
      indices, with probing, growth and rehash. Proved to refine a finite map.
    - Utf.v (src/rt/utf.c): UTF-8 and UTF-16, repair, the names of Windows files, and
      the splitter of a command line. The lexer and the compiler call it.
      CommandLine.v proves the splitter against the quoting of Microsoft.
    - Token.v and Lexer.v (lexer.h, lexer.c): the kinds of tokens and all of the
      lexer as functions on the record [lexer]: the position, the tokens pushed,
      the diagnostics, and the nesting of interpolated strings. LexerRun.v relates a
      run to the bytes it reads; LexerSpec.v states the properties.
    - AntlIo.v (antl_io.c, and the scalars of antl_tree.c): the writer and the reader
      of the library file. The class [Codec] is what a scalar promises to the
      routines that write and read a sequence of them.
    - Layout.v (layout.c): layouts of aggregates and folding of symbolic values,
      which call each other, as a monad on the record [layouts]. LayoutPlace.v holds
      the arithmetic of one aggregate, LayoutRun.v the recursion with its
      invariant, LayoutSpec.v the properties.
    - LayoutData.v (layout.c): what the finished layouts are for, in the same monad:
      [layout_resolve] on the operands and types of a function, and [layout_data],
      which writes the bytes of constants. LayoutBytes.v reads the bytes of a global
      as one number, LayoutDataSpec.v proves which number a constant gives, and
      LayoutResolve.v what a resolved function is.
    - IrSem.v (the operations of ir.h): what a function of the intermediate
      representation does, as runs over the words of its temporaries and a memory, on a
      [machine] that stands for the target and everything outside. IrSim.v holds the
      simulations that give [refines].
    - Optimize.v (optimize.c): all passes over one function and the loop that runs them.
      OptimizeLocal.v proves the rewriting of one instruction, OptimizeBlock.v carries it
      over to functions, OptimizeCopies.v, OptimizeSingle.v, OptimizeMemory.v,
      OptimizeDead.v, OptimizeGraph.v, OptimizeMerge.v, OptimizePeephole.v,
      OptimizeRetarget.v and OptimizeRenumber.v prove the passes, OptimizeCounts.v what
      they read off the counts of temporaries and OptimizeOperands.v that they make no
      names. OptimizeMeasure.v, OptimizeEnds.v and OptimizeRounds.v prove that the rounds
      end, OptimizeFunction.v puts both together, and OptimizeSpec.v states the
      properties, with a machine whose memory is its bits.
    - Program.v (ir.h, ir.c) and Reach.v (reach.c): the names by which the functions and
      the data of a program are linked, and what its entries reach. ReachSpec.v proves
      the walk and its table of definitions.
    - OptimizeProgram.v (the end of optimize.c): a whole program, the object of one
      module, and the checks that a build drops. OptimizeUnused.v proves what the removal
      of unreached items keeps, OptimizeFailures.v what dropped checks keep, and
      OptimizeProgramSpec.v states the properties.
    - Probe.v: the search that the tables of reach.c and of lock.c share.
    - Abi.v (abi.c): the parameters and results of a function under System V,
      AAPCS64 and Microsoft x64, over the members that the layout found. AbiSpec.v
      holds the rules of the psABI and the properties.
    - Json.v (src/rt/json.c, and the strings of src/rt/object.c): the scanner of JSON
      over a cursor in a text. JsonSpec.v has the grammar and the properties.
    - Sha256.v (src/rt/digest.c): SHA-256 of an input that arrives in pieces.
    - F16.v (src/rt/f16.h): a half to a float and back.
    - WordLock.v (src/rt/platform_posix.c): the lock of one word on a futex, as a step
      relation over any number of threads.
    - ObjectLock.v (src/rt/lock.c): the hidden lock of an object with its owner and
      depth, and the pairs of locks of [sync a, b], as a step relation over it.
    - LockOrder.v (src/rt/lock.c): the record of the orders in which the threads of a
      dev build take locks. LockOrderTable.v shows that its table is a finite map,
      LockOrderSpec.v that the record refines a set of pairs.

    A step of ObjectLock.v takes a free word at once, which WordLock.v justifies; the
    functions with [_at] make the calls of LockOrder.v around the same steps. The
    layout calls the folding (IrFold.v), which calls the arithmetic (Arith.v);
    LayoutData.v and Abi.v read finished layouts; the optimizer calls the folding and
    Double.v, and relies on the types that the verifier and the lowering keep; the lexer calls Utf.v for every
    character; the names Target.v mangles are those the checker took from the lexer.
    The driver (driver.c) runs [layout_init], [layout_data] and [layout_resolve] in
    this order on one record [layouts], as the theorems compose.

    ** How the code is modelled

    A C integer is a [Z] in its range; [u8] to [u64] write the wrap-around where the
    code relies on it. A string is a list of bytes. A pointer into an array is an
    index. A struct that functions change is a record that they pass on; an error
    reported once and kept is a field of it ([failed], [ls_failed], [diags]). A
    message is a constructor, which carries what the text prints in the lexer and the
    layout, and its place alone in the verifier. Memory that cannot
    be allocated stops the program and is not modelled.

    Loops over a string or a table are recursive on the list or on a count that
    bounds them. Eleven recursions carry fuel, each with a theorem that it is enough:
    the rounds of the lexer, whose count comes from the bytes left and the errors
    allowed, as at most LEX_ERRORS_MAX rounds read nothing ([lex_tokens_in_order]);
    a probe of the pointer table, as long as the table, which is never full
    ([ptr_map_refines]); the layout, whose depth is bounded by one visit of each
    aggregate and, between two of them, one of each symbolic value ([layout_ends]);
    the loops of the JSON scanner, bounded by the bytes left, while its nesting is
    structural on the depth allowed ([json_value_exact]); the blocks of a digest,
    bounded by the bytes of a piece ([sha256_of_pieces]); the turns of the analysis of
    definitions, one for each bit it may clear and a last one ([ir_verify_exact]);
    the search for reachable blocks and the merging of blocks, bounded by the blocks of
    the function ([reachable_blocks_kept], [passes_keep_behaviour]); the rounds of the
    optimizer, for which some fuel is enough on every well-formed function and any more
    gives the same ([optimize_function_correct]); the walk over a program, one turn for
    each function and datum, and the table of its definitions, which is less than half
    full ([ir_reach_exact]); and
    the searches of the table of lock orders, as long as the table, with two nested
    insertions, as a table that has grown has room ([lock_orders_refine]).

    A double of a constant is its 64 bits, and its value the [spec_float] of the
    Standard Library, whose rounding is what C does where it has a value. The threads
    of WordLock.v and ObjectLock.v take one step at a time on a memory that all see alike, which is
    what the sequentially consistent operations of the source give; a futex sleeps
    when the word still holds the value, and wakes for a call of wake or for none. The
    meaning of the operations of the intermediate representation in IrSem.v is that of
    its documentation: an instruction that has none there, as a division by zero, a shift
    out of range or a use of what nothing defined, has no outcome, and a pass may put
    anything in its place. The facts that the emitter passes to LLVM (ranges of results,
    pointers that are not null) play no part in it. A
    call on the record of lock orders is one step, as the runtime holds its lock.

    ** What the theorems show

    - the lexer: it ends on all bytes, its tokens lie in order and apart, lines and
      columns are right, errors and success agree, the longest symbol wins, an
      integer has its value, a word its kind;
    - the library file: scalars read back as written; on any bytes the reader stays
      in the file, and what it accepts has one encoding;
    - the layout: it ends; fields are disjoint, aligned and inside, under the rule of
      System V and that of MSVC; a bitfield lies in its unit and the unit in the
      aggregate; an array has the size of its elements; a union starts at 0; a
      symbolic value means what it names;
    - after the layout: the bytes of a constant are its fields, each in the bits the
      layout gives it, zeros elsewhere and a relocation for each address; a resolved
      function has no symbolic value left and a second pass changes nothing;
    - the verifier: it ends; it accepts a module exactly when the rules hold and no run
      of a function reads what it has not defined; a run of an accepted function never
      leaves its blocks, and reads of flags follow what sets them;
    - the optimizer: it ends, and the function it leaves stands for the one it got: it
      returns the same and leaves the same memory, or runs for ever as that one does; the
      passes keep the behaviour one by one, with loads and stores as they are; nothing is
      left to do at the end; blocks go exactly when no path reaches them. What a program
      reaches is what its entries mention, and the removal of the rest keeps every name
      at its item; the object of a module defines what belongs to it; a build without
      checks does the same where they hold. Where two
      fields of a slot overlap the splitting of slots goes wrong
      ([overlapping_fields_split]);
    - calling conventions: every signature is well formed, and under System V each
      parameter takes the registers that the psABI gives it, unless a packed bitfield
      crosses an eightbyte ([packed_bits_not_passed]);
    - JSON: a text is accepted exactly when the grammar has it, the first member of a
      name is found, integers and strings read back;
    - the word lock: one owner at most in every reachable state, and every run of lock
      and unlock ends with nobody asleep;
    - the locks above it: the lock of an object excludes and counts its depth, blocks
      of [sync] never wait in a cycle, the record of orders is exact and reports each
      pair of locks once;
    - numbers and names: folding, overflow and saturation are exact; constants narrow
      to floats, and floats to halves, as IEEE 754 rounds; a digest does not depend on
      the pieces; UTF-8 is decoded exactly; file names and command lines survive;
      symbols are unique.

    The layout assumes what the checker refuses earlier, as the predicate
    [module_ok] of LayoutRun.v: no aggregate holds itself by value, a bitfield is no
    wider than its type, the lanes of a simd struct are a power of two scalars of
    one type, and an operation on symbolic values names earlier ones. [Sample] of
    LayoutSpec.v is a module that meets it on every target. The constants of
    LayoutDataSpec.v are [typed]: an item for each field, as the lowering builds
    them, but for a symbolic value in a bitfield, whose bits the source leaves zero
    ([symbolic_bitfield_lost]).

    The optimizer assumes a function that is [well_formed] (OptimizeBlock.v): its
    operands have the types that the operations ask for, its parameters are its first
    temporaries, and a block ends at its terminator, as the lowering builds it. The
    theorem on the whole of [optimize_function] is about functions without slots: a
    slot that goes takes its bytes out of the memory, which [refines] compares. The
    passes one by one, the splitting of slots and the removal of unused results
    excepted, are proved with slots too. The names of a whole program are those of its
    items ([names_in_range]): the verifier checks the operands, the lowering writes the
    data so. A build that drops the checks of overflow has branches on their flags to
    the failing blocks alone ([checks_apart]), as lower_check.c writes them. What a
    target does, how wide a pointer is and what a call does are the [machine], whose
    laws are the classes [Lawful], [FloatsFold] and [Overflows] of IrSem.v,
    OptimizeLocal.v and OptimizeFailures.v; [word_machine] meets them.

    ** Not modelled

    The parser, the checker, the lowering, the LLVM back end, the runtime's objects and
    system calls, and the build tool are not modelled: they work on the syntax tree, on
    text of LLVM, or on files and processes. strtod and the printing of diagnostics are
    left out of the parts that are. *)

From Stdlib Require Export ZArith Lia Bool Ascii.
From stdpp Require Export base tactics option list numbers strings gmap.

(** stdpp and the Standard Library both use short names for lists; lengths
    and list operations below are those of the Standard Library's [list]. *)
Declare Scope antic_scope.
Delimit Scope antic_scope with antic.

#[global] Open Scope Z_scope.
#[global] Arguments Z.pow : simpl never.
#[global] Arguments Z.shiftl : simpl never.
#[global] Arguments Z.shiftr : simpl never.
#[global] Arguments Z.land : simpl never.
#[global] Arguments Z.lor : simpl never.
#[global] Arguments Z.lxor : simpl never.
#[global] Arguments Z.modulo : simpl never.
#[global] Arguments Z.div : simpl never.

(** ** Machine integers

    A value of an unsigned C type of [n] bits is a [Z] in [0, 2^n); C's
    unsigned arithmetic reduces modulo [2^n], which [wrap] writes out. A value
    of a signed type is the [Z] itself, and no model below lets a signed
    operation leave its range, where C has no value. *)
Definition wrap (n z : Z) : Z := z mod 2 ^ n.

Abbreviation u8 := (wrap 8).
Abbreviation u16 := (wrap 16).
Abbreviation u32 := (wrap 32).
Abbreviation u64 := (wrap 64).

Abbreviation UINT64_MAX := 18446744073709551615 (only parsing).
Abbreviation INT64_MAX := 9223372036854775807 (only parsing).
Abbreviation UINT32_MAX := 4294967295 (only parsing).

(** The complement [~x] of a 64-bit unsigned value. *)
Definition not64 (x : Z) : Z := UINT64_MAX - x.

(** [x] is a value of an unsigned type of [n] bits. *)
Definition in_width (n x : Z) : Prop := 0 <= x < 2 ^ n.

#[export] Instance in_width_dec n x : Decision (in_width n x).
Proof. unfold in_width. apply _. Defined.

(** The signed value of the low [n] bits of [z], in two's complement. *)
Definition sint (n z : Z) : Z :=
  let m := z mod 2 ^ n in if m <? 2 ^ (n - 1) then m else m - 2 ^ n.

(** *** Bit operations as arithmetic *)

Lemma in_width_mono m n z : m <= n -> in_width m z -> in_width n z.
Proof. intros H [H1 H2]. split; [done|]. eapply Z.lt_le_trans; [done|]. apply Z.pow_le_mono_r; lia. Qed.

Lemma wrap_small n z : in_width n z -> wrap n z = z.
Proof. apply Z.mod_small. Qed.

Lemma wrap_bound n z : 0 <= n -> in_width n (wrap n z).
Proof. intros. apply Z.mod_pos_bound. lia. Qed.

Lemma wrap_wrap_le m n z : 0 <= m <= n -> wrap m (wrap n z) = wrap m z.
Proof.
  intros H. unfold wrap. apply Z.mod_mod_divide.
  exists (2 ^ (n - m)). rewrite <- Z.pow_add_r by lia. f_equal. lia.
Qed.

Lemma wrap_add_l n a b : wrap n (wrap n a + b) = wrap n (a + b).
Proof. apply Zplus_mod_idemp_l. Qed.

Lemma wrap_add_r n a b : wrap n (a + wrap n b) = wrap n (a + b).
Proof. apply Zplus_mod_idemp_r. Qed.

Lemma wrap_sub_l n a b : wrap n (wrap n a - b) = wrap n (a - b).
Proof. apply Zminus_mod_idemp_l. Qed.

Lemma wrap_sub_r n a b : wrap n (a - wrap n b) = wrap n (a - b).
Proof. apply Zminus_mod_idemp_r. Qed.

Lemma wrap_mul_l n a b : wrap n (wrap n a * b) = wrap n (a * b).
Proof. apply Zmult_mod_idemp_l. Qed.

Lemma wrap_mul_r n a b : wrap n (a * wrap n b) = wrap n (a * b).
Proof. apply Zmult_mod_idemp_r. Qed.

Create HintDb wrap.
#[export] Hint Rewrite wrap_add_l wrap_add_r wrap_sub_l wrap_sub_r
  wrap_mul_l wrap_mul_r : wrap.

Lemma wrap_congr n a b k : a = b + k * 2 ^ n -> wrap n a = wrap n b.
Proof. intros ->. apply Z_mod_plus_full. Qed.

Lemma land_mask a n : 0 <= n -> Z.land a (2 ^ n - 1) = a mod 2 ^ n.
Proof. intros. rewrite <- Z.land_ones by lia. f_equal. rewrite Z.ones_equiv. lia. Qed.

Lemma shiftr_div a n : 0 <= n -> Z.shiftr a n = a / 2 ^ n.
Proof. apply Z.shiftr_div_pow2. Qed.

Lemma shiftl_mul a n : 0 <= n -> Z.shiftl a n = a * 2 ^ n.
Proof. apply Z.shiftl_mul_pow2. Qed.

Lemma testbit_small x n i : in_width n x -> n <= i -> Z.testbit x i = false.
Proof.
  intros [H0 H1] Hi. destruct (Z.eq_dec x 0) as [->|]; [apply Z.bits_0|].
  apply Z.bits_above_log2; [lia|].
  apply Z.log2_lt_pow2; [lia|]. eapply Z.lt_le_trans; [eassumption|].
  apply Z.pow_le_mono_r; lia.
Qed.

Lemma in_width_bits n x :
  0 <= n -> 0 <= x -> (forall i, n <= i -> Z.testbit x i = false) -> in_width n x.
Proof.
  intros Hn Hx Hb. split; [done|].
  rewrite <- (Z.mod_small x (2 ^ n)) at 1; [apply Z.mod_pos_bound; lia|].
  split; [done|]. destruct (Z.eq_dec x 0) as [->|]; [lia|].
  destruct (Z.lt_ge_cases x (2 ^ n)) as [|Hge]; [done|exfalso].
  assert (n <= Z.log2 x) as Hlog.
  { rewrite <- (Z.log2_pow2 n) by lia. apply Z.log2_le_mono. lia. }
  specialize (Hb _ Hlog). rewrite Z.bit_log2 in Hb; [done|lia].
Qed.

Lemma land_width n a b : 0 <= n -> in_width n a -> 0 <= b -> in_width n (Z.land a b).
Proof.
  intros Hn Ha Hb. apply in_width_bits; [done|apply Z.land_nonneg; left; apply Ha|].
  intros i Hi. rewrite Z.land_spec, (testbit_small a n i) by done. done.
Qed.

Lemma lor_width n a b : 0 <= n -> in_width n a -> in_width n b -> in_width n (Z.lor a b).
Proof.
  intros Hn Ha Hb. apply in_width_bits; [done|apply Z.lor_nonneg; split; [apply Ha|apply Hb]|].
  intros i Hi. rewrite Z.lor_spec, (testbit_small a n i), (testbit_small b n i) by done. done.
Qed.

Lemma lxor_width n a b : 0 <= n -> in_width n a -> in_width n b -> in_width n (Z.lxor a b).
Proof.
  intros Hn Ha Hb. apply in_width_bits; [done| |].
  - apply Z.lxor_nonneg. split; intros _; [apply Hb|apply Ha].
  - intros i Hi. rewrite Z.lxor_spec, (testbit_small a n i), (testbit_small b n i) by done. done.
Qed.

(** A disjunction whose low part has [k] bits and whose high part is a
    multiple of [2^k] is a sum. *)
Lemma lor_disjoint h l k :
  0 <= k -> in_width k l -> Z.lor (h * 2 ^ k) l = h * 2 ^ k + l.
Proof.
  intros Hk Hl.
  enough (H : Z.land (h * 2 ^ k) l = 0)
    by (pose proof (Z.add_lor_land (h * 2 ^ k) l); lia).
  apply Z.bits_inj'. intros i Hi. rewrite Z.land_spec, Z.bits_0.
  destruct (Z.lt_ge_cases i k).
  - rewrite Z.mul_pow2_bits_low by lia. done.
  - rewrite (testbit_small l k i), andb_false_r by done. done.
Qed.

(** The top bit of a value of [k + 1] bits. *)
Lemma testbit_top x k :
  0 <= k -> in_width (k + 1) x -> Z.testbit x k = (2 ^ k <=? x).
Proof.
  intros Hk [H0 H1]. rewrite Z.pow_add_r in H1 by lia. change (2 ^ 1) with 2 in H1.
  rewrite Z.testbit_eqb by lia.
  destruct (Z.leb_spec (2 ^ k) x).
  - rewrite <- (Z.div_unique x (2 ^ k) 1 (x - 2 ^ k)); [done|left; lia|lia].
  - rewrite Z.div_small by lia. done.
Qed.

Lemma lxor_top x k :
  0 <= k -> in_width (k + 1) x ->
  Z.lxor x (2 ^ k) = if x <? 2 ^ k then x + 2 ^ k else x - 2 ^ k.
Proof.
  intros Hk Hx.
  assert (Hlow : forall y, in_width k y -> Z.lxor y (2 ^ k) = y + 2 ^ k).
  { intros y Hy. symmetry. apply Z.add_nocarry_lxor. apply Z.bits_inj'. intros i Hi.
    rewrite Z.land_spec, Z.bits_0, Z.pow2_bits_eqb by lia.
    destruct (Z.eqb_spec k i) as [->|]; [|apply andb_false_r].
    rewrite (testbit_small y i i) by (done || lia). done. }
  destruct Hx as [H0 H1]. rewrite Z.pow_add_r in H1 by lia. change (2 ^ 1) with 2 in H1.
  destruct (Z.ltb_spec x (2 ^ k)); [apply Hlow; done|].
  transitivity (Z.lxor (Z.lxor (x - 2 ^ k) (2 ^ k)) (2 ^ k)).
  - rewrite (Hlow (x - 2 ^ k)) by (split; lia). f_equal. lia.
  - rewrite Z.lxor_assoc, Z.lxor_nilpotent, Z.lxor_0_r. done.
Qed.

(** ** Bytes

    A byte is a [Z] in [0, 256) and a C string is the list of its bytes without
    the NUL. [bytes] turns a literal of the source into that list. *)
Fixpoint bytes (s : string) : list Z :=
  match s with
  | EmptyString => []
  | String c rest => Z.of_N (N_of_ascii c) :: bytes rest
  end.

Definition is_byte (b : Z) : Prop := 0 <= b < 256.

#[export] Instance is_byte_dec b : Decision (is_byte b).
Proof. unfold is_byte. apply _. Defined.

(** The digits that C's [%zu] and [%u] print, most significant first. The
    fuel bounds the count of the digits; 20 of them print any 64-bit value. *)
Fixpoint decimal_digits (fuel : nat) (z : Z) : list Z :=
  match fuel with
  | O => []
  | S f => if z <? 10 then [48 + z] else decimal_digits f (z / 10) ++ [48 + z mod 10]
  end.

Definition decimal (z : Z) : list Z := decimal_digits 20 z.

(** Evaluates the powers of two of literals. *)
Ltac pow2s :=
  repeat match goal with
  | |- context [2 ^ ?k] => let v := eval vm_compute in (2 ^ k) in
      match v with Z.pos _ => change (2 ^ k) with v end
  | H : context [2 ^ ?k] |- _ => let v := eval vm_compute in (2 ^ k) in
      match v with Z.pos _ => change (2 ^ k) with v in H end
  end.

(** ** Boolean case analysis *)
Ltac bool_to_prop :=
  repeat match goal with
  | H : (_ && _)%bool = true |- _ => apply andb_true_iff in H; destruct H
  | H : (_ || _)%bool = false |- _ => apply orb_false_iff in H; destruct H
  | H : negb _ = true |- _ => apply negb_true_iff in H
  | H : negb _ = false |- _ => apply negb_false_iff in H
  | H : (_ <? _) = true |- _ => apply Z.ltb_lt in H
  | H : (_ <? _) = false |- _ => apply Z.ltb_ge in H
  | H : (_ <=? _) = true |- _ => apply Z.leb_le in H
  | H : (_ <=? _) = false |- _ => apply Z.leb_gt in H
  | H : (_ =? _) = true |- _ => apply Z.eqb_eq in H
  | H : (_ =? _) = false |- _ => apply Z.eqb_neq in H
  end.

(** Splits on every comparison of integers in the goal, innermost first. *)
Ltac atomic_term t :=
  lazymatch t with context [if _ then _ else _] => fail | _ => idtac end.

Ltac zcases :=
  repeat match goal with
  | |- context [?a >? ?b] => rewrite (Z.gtb_ltb a b)
  | |- context [?a >=? ?b] => rewrite (Z.geb_leb a b)
  | |- context [?a <? ?b] =>
      atomic_term a; atomic_term b; destruct (Z.ltb_spec a b)
  | |- context [?a <=? ?b] =>
      atomic_term a; atomic_term b; destruct (Z.leb_spec a b)
  | |- context [?a =? ?b] =>
      atomic_term a; atomic_term b; destruct (Z.eqb_spec a b)
  end.

(** Rewrites the comparisons of the goal that linear arithmetic decides. *)
Ltac zdecide :=
  repeat match goal with
  | |- context [?a >? ?b] => rewrite (Z.gtb_ltb a b)
  | |- context [?a >=? ?b] => rewrite (Z.geb_leb a b)
  | |- context [?a <? ?b] =>
      first [rewrite (proj2 (Z.ltb_lt a b)) by lia | rewrite (proj2 (Z.ltb_ge a b)) by lia]
  | |- context [?a <=? ?b] =>
      first [rewrite (proj2 (Z.leb_le a b)) by lia | rewrite (proj2 (Z.leb_gt a b)) by lia]
  | |- context [?a =? ?b] =>
      first [rewrite (proj2 (Z.eqb_eq a b)) by lia | rewrite (proj2 (Z.eqb_neq a b)) by lia]
  end.

(** ** Decimal printing *)

Definition digit (c : Z) : Prop := 48 <= c <= 57.

#[export] Instance digit_dec c : Decision (digit c).
Proof. unfold digit. apply _. Defined.

Lemma decimal_digits_all fuel z : 0 <= z -> Forall digit (decimal_digits fuel z).
Proof.
  revert z. induction fuel as [|f IH]; intros z Hz; simpl; [constructor|].
  destruct (Z.ltb_spec z 10); [repeat constructor; lia|].
  apply Forall_app_2; [apply IH, Z.div_pos; lia|].
  pose proof (Z.mod_pos_bound z 10). repeat constructor; lia.
Qed.

Lemma decimal_digits_value fuel z v :
  0 <= z < 10 ^ Z.of_nat fuel ->
  fold_left (fun v c => v * 10 + (c - 48)) (decimal_digits fuel z) v
  = v * 10 ^ Z.of_nat (length (decimal_digits fuel z)) + z.
Proof.
  revert z. induction fuel as [|f IH]; intros z Hz.
  { change (10 ^ Z.of_nat 0) with 1 in Hz. simpl. change (10 ^ 0) with 1. lia. }
  cbn [decimal_digits]. destruct (Z.ltb_spec z 10).
  { cbn. change (Z.pow_pos 10 1) with 10. lia. }
  rewrite fold_left_app, length_app. cbn [fold_left length].
  rewrite Nat2Z.inj_succ, Z.pow_succ_r in Hz by lia.
  rewrite IH by (split; [apply Z.div_pos; lia|apply Z.div_lt_upper_bound; lia]).
  rewrite Nat2Z.inj_add, Z.pow_add_r by lia. change (10 ^ Z.of_nat 1) with 10.
  pose proof (Z.div_mod z 10). lia.
Qed.

Lemma decimal_digits_nil fuel z : (0 < fuel)%nat -> decimal_digits fuel z <> [].
Proof.
  destruct fuel; [lia|]. intros _. simpl. case_match; [done|].
  intros [_ ?]%app_eq_nil. done.
Qed.

Lemma decimal_all z : 0 <= z -> Forall digit (decimal z).
Proof. apply decimal_digits_all. Qed.

Lemma decimal_value_of z :
  0 <= z < 2 ^ 64 -> fold_left (fun v c => v * 10 + (c - 48)) (decimal z) 0 = z.
Proof.
  intros Hz. unfold decimal. rewrite decimal_digits_value; [lia|].
  change (10 ^ Z.of_nat 20) with 100000000000000000000. pow2s. lia.
Qed.

Lemma decimal_inj a b : 0 <= a < 2 ^ 64 -> 0 <= b < 2 ^ 64 -> decimal a = decimal b -> a = b.
Proof.
  intros Ha Hb E. rewrite <- (decimal_value_of a), <- (decimal_value_of b) by done.
  rewrite E. done.
Qed.

(** ** Closed decidable goals

    Evaluates the decision of a closed goal; the witnesses discharge their
    hypotheses with it. *)
Ltac vm_decide := apply (bool_decide_unpack _); vm_compute; exact I.
