(* ===== verification/Arith.v ===== *)
(** * Arith: the arithmetic on constants of n bits

    Models src/antic/arith.c: the extension of a value of [n] bits, the signed
    shift, the high half of a product, the overflow test, the saturating
    operations and the decimal reader. The functions on [double] and [float]
    are not modelled: they rest on the C library ([strtod], [signbit]). *)

From S2P Require Import Prelude.

(** ** The functions of arith.c *)

(** [extend]: the low [n] bits of [v], sign- or zero-extended to 64 bits. *)
Definition extend (v n : Z) (is_signed : bool) : Z :=
  if n =? 64 then v
  else
    let mask := u64 (u64 (Z.shiftl 1 n) - 1) in
    let sign := u64 (Z.shiftl 1 (n - 1)) in
    let v := Z.land v mask in
    if is_signed then u64 (Z.lxor v sign - sign) else v.

Definition arith_signed (v n : Z) : Z :=
  let x := extend v n true in
  if x <=? INT64_MAX then x else - not64 x - 1.

(** [a] is an [int64_t]; its conversion to [uint64_t] is [u64 a]. *)
Definition arith_shift_right (a k : Z) : Z :=
  if a <? 0 then - Z.shiftr (not64 (u64 a)) k - 1 else Z.shiftr (u64 a) k.

(** [multiply]: the pair of [*hi] and [*lo]. *)
Definition multiply (a b : Z) : Z * Z :=
  let a0 := Z.land a 0xffffffff in
  let a1 := Z.shiftr a 32 in
  let b0 := Z.land b 0xffffffff in
  let b1 := Z.shiftr b 32 in
  let p00 := u64 (a0 * b0) in
  let p01 := u64 (a0 * b1) in
  let p10 := u64 (a1 * b0) in
  let middle := u64 (u64 (Z.shiftr p00 32 + Z.land p01 0xffffffff)
                     + Z.land p10 0xffffffff) in
  let lo := Z.lor (u64 (Z.shiftl middle 32)) (Z.land p00 0xffffffff) in
  let hi := u64 (u64 (u64 (u64 (a1 * b1) + Z.shiftr p01 32) + Z.shiftr p10 32)
                 + Z.shiftr middle 32) in
  (hi, lo).

(** The correction that makes the unsigned high half [hi] the signed one. *)
Definition signed_high (hi a b : Z) : Z :=
  let hi := u64 (hi - (if negb (Z.shiftr a 63 =? 0) then b else 0)) in
  u64 (hi - (if negb (Z.shiftr b 63 =? 0) then a else 0)).

Definition arith_mul_high (a b n : Z) (is_signed : bool) : Z :=
  if n <? 64 then
    let product := u64 (extend a n is_signed * extend b n is_signed) in
    let high := if is_signed && negb (Z.shiftr product 63 =? 0)
                then not64 (Z.shiftr (not64 product) n)
                else Z.shiftr product n in
    extend high n is_signed
  else
    let '(hi, lo) := multiply a b in
    if is_signed then signed_high hi a b else hi.

Definition largest (n : Z) (is_signed : bool) : Z :=
  let k := if is_signed then n - 1 else n in
  if k =? 64 then UINT64_MAX else u64 (u64 (Z.shiftl 1 k) - 1).

Definition smallest (n : Z) (is_signed : bool) : Z :=
  if is_signed then not64 (largest n true) else 0.

(** [direction]: 1 above the largest value of [n] bits, -1 below the smallest
    and 0 inside. The operator is the character of the C call; every other
    character than ['+'] and ['-'] multiplies. Below 64 bits [x], [y] and [r]
    are of type [int64_t], and [direction_no_overflow] below says that [r]
    never leaves it. *)
Definition direction (op : ascii) (a b n : Z) (is_signed : bool) : Z :=
  if (n <? 64) && negb is_signed then
    let a := extend a n false in
    let b := extend b n false in
    if (op =? "-")%char then if a <? b then -1 else 0
    else if (if (op =? "+")%char then u64 (a + b) else u64 (a * b))
            >? largest n false then 1 else 0
  else if n <? 64 then
    let x := arith_signed a n in
    let y := arith_signed b n in
    let r := if (op =? "+")%char then x + y
             else if (op =? "-")%char then x - y else x * y in
    let top := largest n true in
    if r >? top then 1 else if r <? - top - 1 then -1 else 0
  else if negb is_signed then
    if (op =? "+")%char then if u64 (a + b) <? a then 1 else 0
    else if (op =? "-")%char then if a <? b then -1 else 0
    else let '(hi, lo) := multiply a b in if negb (hi =? 0) then 1 else 0
  else if (op =? "+")%char || (op =? "-")%char then
    let r := if (op =? "+")%char then u64 (a + b) else u64 (a - b) in
    let sign_b := if (op =? "+")%char then b else not64 b in
    if Z.shiftr (Z.land (Z.lxor a r) (Z.lxor sign_b r)) 63 =? 0 then 0
    else if negb (Z.shiftr a 63 =? 0) then -1 else 1
  else
    let '(hi, lo) := multiply a b in
    let hi := signed_high hi a b in
    if hi =? (if negb (Z.shiftr lo 63 =? 0) then UINT64_MAX else 0) then 0
    else if negb (Z.shiftr (Z.lxor a b) 63 =? 0) then -1 else 1.

Definition arith_overflows (op : ascii) (a b n : Z) (is_signed : bool) : bool :=
  negb (direction op a b n is_signed =? 0).

Definition arith_saturate (op : ascii) (a b n : Z) (is_signed : bool) : Z :=
  let d := direction op a b n is_signed in
  if d >? 0 then largest n is_signed
  else if d <? 0 then smallest n is_signed
  else
    let a := if (op =? "+")%char then u64 (a + b)
             else if (op =? "-")%char then u64 (a - b) else u64 (a * b) in
    extend a n is_signed.

(** [arith_decimal]: the bytes of the text, the value of the digits read so
    far in [value]. [None] is the result [false]. *)
Fixpoint decimal_loop (text : list Z) (value : Z) : option Z :=
  match text with
  | [] => Some value
  | c :: rest =>
      if (c <? 48) || (c >? 57) then None
      else
        let digit := c - 48 in
        if value >? (UINT64_MAX - digit) / 10 then None
        else decimal_loop rest (u64 (u64 (value * 10) + digit))
  end.

Definition arith_decimal (text : list Z) : option Z :=
  match text with [] => None | _ => decimal_loop text 0 end.

(** ** The specification: exact integers *)

Definition fixed_width (n : Z) : Prop := n = 8 \/ n = 16 \/ n = 32 \/ n = 64.

(** The value that the low [n] bits of [v] stand for. *)
Definition val (n : Z) (is_signed : bool) (v : Z) : Z :=
  if is_signed then sint n v else wrap n v.

Definition max_of (n : Z) (is_signed : bool) : Z :=
  if is_signed then 2 ^ (n - 1) - 1 else 2 ^ n - 1.

Definition min_of (n : Z) (is_signed : bool) : Z :=
  if is_signed then - 2 ^ (n - 1) else 0.

Definition in_range (n : Z) (is_signed : bool) (x : Z) : Prop :=
  min_of n is_signed <= x <= max_of n is_signed.

(** The operation of a character, on exact integers. *)
Definition exact (op : ascii) (x y : Z) : Z :=
  if (op =? "+")%char then x + y else if (op =? "-")%char then x - y else x * y.

Definition clamp (n : Z) (is_signed : bool) (x : Z) : Z :=
  Z.max (min_of n is_signed) (Z.min (max_of n is_signed) x).

Lemma fixed_width_range n : fixed_width n -> 8 <= n <= 64.
Proof. unfold fixed_width. lia. Qed.

Lemma sint_range n z : 1 <= n -> - 2 ^ (n - 1) <= sint n z < 2 ^ (n - 1).
Proof.
  intros Hn. unfold sint.
  assert (2 ^ n = 2 * 2 ^ (n - 1)) by (rewrite <- Z.pow_succ_r by lia; f_equal; lia).
  pose proof (Z.mod_pos_bound z (2 ^ n) ltac:(lia)). zcases; lia.
Qed.

Lemma sint_congr n z : exists k, sint n z = z + k * 2 ^ n.
Proof.
  unfold sint. pose proof (Z.div_mod z (2 ^ n)).
  destruct (Z.eq_dec (2 ^ n) 0) as [H0|H0].
  - rewrite H0, Z.mod_0_r_ext by done. zcases; [exists 0|exists 0]; lia.
  - specialize (H H0). zcases; [exists (- (z / 2 ^ n))|exists (- (z / 2 ^ n) - 1)]; nia.
Qed.

Lemma sint_wrap m n z : 0 <= n <= m -> sint n (wrap m z) = sint n z.
Proof.
  intros H. unfold sint. fold (wrap n (wrap m z)) (wrap n z).
  rewrite wrap_wrap_le by done. done.
Qed.

Lemma wrap_sint n z : wrap n (sint n z) = wrap n z.
Proof. destruct (sint_congr n z) as [k ->]. apply wrap_congr with k. done. Qed.

Lemma sint_unique n z x :
  1 <= n -> - 2 ^ (n - 1) <= x < 2 ^ (n - 1) -> (exists k, z = x + k * 2 ^ n) -> sint n z = x.
Proof.
  intros Hn Hx [k ->]. unfold sint.
  assert (2 ^ n = 2 * 2 ^ (n - 1)) by (rewrite <- Z.pow_succ_r by lia; f_equal; lia).
  rewrite Z_mod_plus_full. destruct (Z.lt_ge_cases x 0).
  - rewrite <- (Z.mod_unique x (2 ^ n) (-1) (x + 2 ^ n)); [|left; lia|lia]. zcases; lia.
  - rewrite Z.mod_small by lia. zcases; lia.
Qed.

Lemma sint_id n x : 1 <= n -> - 2 ^ (n - 1) <= x < 2 ^ (n - 1) -> sint n x = x.
Proof. intros. apply sint_unique; [done..|]. exists 0. lia. Qed.

Lemma val_range n s v : 1 <= n -> in_range n s (val n s v).
Proof.
  intros Hn. unfold in_range, val, min_of, max_of. destruct s.
  - pose proof (sint_range n v Hn). lia.
  - pose proof (wrap_bound n v ltac:(lia)) as []. lia.
Qed.

Lemma val_id n s x : 1 <= n -> in_range n s x -> val n s x = x.
Proof.
  unfold in_range, val, min_of, max_of. intros Hn Hx. destruct s.
  - apply sint_id; lia.
  - apply wrap_small. split; lia.
Qed.

Lemma val_wrap m n s v : 0 <= n <= m -> val n s (wrap m v) = val n s v.
Proof. unfold val. destruct s; [apply sint_wrap|apply wrap_wrap_le]. Qed.

Lemma val_congr n s v : exists k, val n s v = v + k * 2 ^ n.
Proof.
  unfold val. destruct s; [apply sint_congr|]. exists (- (v / 2 ^ n)).
  unfold wrap. destruct (Z.eq_dec (2 ^ n) 0) as [H|H].
  - rewrite H, Z.mod_0_r_ext by done. lia.
  - pose proof (Z.div_mod v (2 ^ n) H). lia.
Qed.

Lemma val_eq n s a b : (exists k, a = b + k * 2 ^ n) -> val n s a = val n s b.
Proof.
  intros [k ->]. unfold val, sint, wrap. rewrite Z_mod_plus_full. done.
Qed.

(** ** [extend] and [arith_signed] *)

Lemma mask_eq n : 0 <= n < 64 -> u64 (u64 (Z.shiftl 1 n) - 1) = 2 ^ n - 1.
Proof.
  intros. rewrite shiftl_mul, Z.mul_1_l by lia.
  assert (0 < 2 ^ n) by lia.
  assert (2 ^ n < 2 ^ 64) by (apply Z.pow_lt_mono_r; lia).
  rewrite (wrap_small 64 (2 ^ n)) by (split; lia). apply wrap_small. split; lia.
Qed.

Lemma extend_val v n s : 1 <= n <= 64 -> in_width 64 v -> extend v n s = u64 (val n s v).
Proof.
  intros Hn Hv. unfold extend. destruct (Z.eqb_spec n 64) as [->|].
  { destruct s; simpl; [rewrite wrap_sint|rewrite wrap_wrap_le by lia];
      symmetry; apply wrap_small, Hv. }
  rewrite mask_eq, land_mask by lia. fold (wrap n v).
  pose proof (wrap_bound n v ltac:(lia)) as Hw.
  assert (Hp : 2 ^ n < 2 ^ 64) by (apply Z.pow_lt_mono_r; lia).
  destruct s; simpl; [|symmetry; apply wrap_small; destruct Hw; split; lia].
  rewrite shiftl_mul, Z.mul_1_l by lia.
  assert (2 ^ n = 2 * 2 ^ (n - 1)) by (rewrite <- Z.pow_succ_r by lia; f_equal; lia).
  rewrite (wrap_small 64 (2 ^ (n - 1))) by (split; lia).
  rewrite lxor_top; [|lia|replace (n - 1 + 1) with n by lia; done].
  unfold sint. fold (wrap n v). zcases; f_equal; lia.
Qed.

Lemma arith_signed_val v n : 1 <= n <= 64 -> in_width 64 v -> arith_signed v n = sint n v.
Proof.
  intros Hn Hv. unfold arith_signed. rewrite extend_val by done. simpl.
  pose proof (sint_range n v ltac:(lia)) as Hr.
  assert (2 ^ (n - 1) <= 2 ^ 63) by (apply Z.pow_le_mono_r; lia).
  unfold not64. destruct (Z.lt_ge_cases (sint n v) 0).
  - rewrite (wrap_congr 64 (sint n v) (sint n v + 2 ^ 64) (-1)) by lia.
    rewrite wrap_small by (split; lia). zcases; lia.
  - rewrite wrap_small by (split; lia). zcases; lia.
Qed.

(** ** The product *)

(** The two words of [multiply] are the product, without a carry lost. *)
Lemma multiply_spec a b :
  in_width 64 a -> in_width 64 b ->
  let '(hi, lo) := multiply a b in
  in_width 64 hi /\ in_width 64 lo /\ a * b = hi * 2 ^ 64 + lo.
Proof.
  intros [Ha0 Ha1] [Hb0 Hb1]. unfold multiply.
  change 0xffffffff with (2 ^ 32 - 1). rewrite !land_mask, !shiftr_div, !shiftl_mul by lia.
  pose proof (Z.div_mod a (2 ^ 32)) as Ea. pose proof (Z.div_mod b (2 ^ 32)) as Eb.
  pose proof (Z.mod_pos_bound a (2 ^ 32)) as Ma. pose proof (Z.mod_pos_bound b (2 ^ 32)) as Mb.
  pow2s.
  set (a0 := a mod 4294967296) in *. set (a1 := a / 4294967296) in *.
  set (b0 := b mod 4294967296) in *. set (b1 := b / 4294967296) in *.
  assert (Ra : 0 <= a1 < 4294967296) by (subst a1; split; [apply Z.div_pos|apply Z.div_lt_upper_bound]; lia).
  assert (Rb : 0 <= b1 < 4294967296) by (subst b1; split; [apply Z.div_pos|apply Z.div_lt_upper_bound]; lia).
  specialize (Ea ltac:(lia)). specialize (Eb ltac:(lia)).
  specialize (Ma ltac:(lia)). specialize (Mb ltac:(lia)).
  assert (P : forall x y, 0 <= x < 4294967296 -> 0 <= y < 4294967296 ->
     0 <= x * y <= 18446744065119617025) by (intros; nia).
  pose proof (P a0 b0 Ma Mb). pose proof (P a0 b1 Ma Rb).
  pose proof (P a1 b0 Ra Mb). pose proof (P a1 b1 Ra Rb).
  assert (Eab : a * b = a1 * b1 * 18446744073709551616 + (a0 * b1 + a1 * b0) * 4294967296 + a0 * b0)
    by (rewrite Ea, Eb; ring).
  rewrite (wrap_small 64 (a0 * b0)), (wrap_small 64 (a0 * b1)), (wrap_small 64 (a1 * b0)),
    (wrap_small 64 (a1 * b1)) by (split; pow2s; lia).
  set (p00 := a0 * b0) in *. set (p01 := a0 * b1) in *. set (p10 := a1 * b0) in *.
  set (p11 := a1 * b1) in *. clearbody p00 p01 p10 p11 a0 a1 b0 b1.
  pose proof (Z.div_mod p00 4294967296 ltac:(lia)). pose proof (Z.mod_pos_bound p00 4294967296 ltac:(lia)).
  pose proof (Z.div_mod p01 4294967296 ltac:(lia)). pose proof (Z.mod_pos_bound p01 4294967296 ltac:(lia)).
  pose proof (Z.div_mod p10 4294967296 ltac:(lia)). pose proof (Z.mod_pos_bound p10 4294967296 ltac:(lia)).
  rewrite (wrap_small 64 (p00 / 4294967296 + _)) by (split; pow2s; lia).
  rewrite (wrap_small 64 (_ + p10 mod _)) by (split; pow2s; lia).
  set (m := p00 / 4294967296 + p01 mod 4294967296 + p10 mod 4294967296) in *.
  pose proof (Z.div_mod m 4294967296 ltac:(lia)). pose proof (Z.mod_pos_bound m 4294967296 ltac:(lia)).
  assert (El : u64 (m * 4294967296) = (m mod 4294967296) * 2 ^ 32).
  { rewrite (wrap_congr 64 _ ((m mod 4294967296) * 2 ^ 32) (m / 4294967296)) by (pow2s; lia).
    apply wrap_small. split; pow2s; lia. }
  rewrite El, lor_disjoint by (lia || (split; pow2s; lia)).
  rewrite (wrap_small 64 (p11 + _)) by (split; pow2s; lia).
  rewrite (wrap_small 64 (_ + p10 / _)) by (split; pow2s; lia).
  rewrite (wrap_small 64 (_ + m / _)) by (split; pow2s; lia).
  unfold in_width. pow2s. repeat split; lia.
Qed.

Lemma shiftr63 x : in_width 64 x -> (Z.shiftr x 63 =? 0) = (x <? 2 ^ 63).
Proof.
  intros [H0 H1]. rewrite shiftr_div by lia. destruct (Z.ltb_spec x (2 ^ 63)).
  - rewrite Z.div_small by lia. done.
  - apply Z.eqb_neq. pose proof (Z.div_le_lower_bound x (2 ^ 63) 1). lia.
Qed.

(** [signed_high] turns the unsigned high half into the signed one. *)
Lemma signed_high_spec a b hi lo :
  in_width 64 a -> in_width 64 b -> in_width 64 hi -> in_width 64 lo ->
  a * b = hi * 2 ^ 64 + lo ->
  in_width 64 (signed_high hi a b) /\
  sint 64 (signed_high hi a b) * 2 ^ 64 + lo = sint 64 a * sint 64 b.
Proof.
  intros Ha Hb Hhi Hlo E. unfold signed_high. rewrite !shiftr63 by done.
  rewrite wrap_sub_l. split; [apply wrap_bound; lia|].
  rewrite sint_wrap by lia.
  assert (S : forall x, in_width 64 x ->
    sint 64 x = x - (if negb (x <? 2 ^ 63) then 2 ^ 64 else 0)).
  { intros x [? ?]. unfold sint. rewrite Z.mod_small by lia. pow2s. zcases; simpl; lia. }
  assert (Hs : - 2 ^ 63 <= hi - (if negb (a <? 2 ^ 63) then b else 0)
      - (if negb (b <? 2 ^ 63) then a else 0)
      + (if negb (a <? 2 ^ 63) && negb (b <? 2 ^ 63) then 2 ^ 64 else 0) < 2 ^ 63 /\
     (hi - (if negb (a <? 2 ^ 63) then b else 0) - (if negb (b <? 2 ^ 63) then a else 0)
      + (if negb (a <? 2 ^ 63) && negb (b <? 2 ^ 63) then 2 ^ 64 else 0)) * 2 ^ 64 + lo
     = sint 64 a * sint 64 b).
  { rewrite !S by done. destruct Ha, Hb, Hhi, Hlo. pow2s.
    zcases; simpl; split; nia. }
  destruct Hs as [Hr He].
  set (h := hi - _ - _) in *.
  replace (sint 64 h) with
    (h + (if negb (a <? 2 ^ 63) && negb (b <? 2 ^ 63) then 2 ^ 64 else 0)); [exact He|].
  symmetry. apply sint_unique; [lia|exact Hr|].
  exists (if negb (a <? 2 ^ 63) && negb (b <? 2 ^ 63) then -1 else 0). destruct (_ && _); lia.
Qed.

Lemma div_opp_pred z d : 0 < d -> (- z - 1) / d = - (z / d) - 1.
Proof.
  intros. symmetry. apply Z.div_unique with (d - 1 - z mod d).
  - left. pose proof (Z.mod_pos_bound z d). lia.
  - pose proof (Z.div_mod z d). lia.
Qed.

Lemma not64_wrap z : u64 (- z - 1) = not64 (u64 z).
Proof.
  unfold not64. rewrite <- wrap_sub_l.
  replace (- z) with (0 - z) by lia. rewrite <- (wrap_sub_r 64 0 z), wrap_sub_l.
  pose proof (wrap_bound 64 z ltac:(lia)) as [].
  rewrite (wrap_congr 64 _ (UINT64_MAX - u64 z) (-1)) by (pow2s; lia).
  apply wrap_small. split; pow2s; lia.
Qed.

Lemma not64_width x : in_width 64 x -> in_width 64 (not64 x).
Proof. unfold not64. intros []. split; pow2s; lia. Qed.

(** The bounds of the product of two values of [n] bits, below 64. *)
Lemma product_range n s x y :
  fixed_width n -> n < 64 -> in_range n s x -> in_range n s y ->
  (if s then - 2 ^ 62 <= x * y <= 2 ^ 62 else 0 <= x * y < 2 ^ 64) /\
  in_range n s (x * y / 2 ^ n).
Proof.
  intros Hn Hlt Hx Hy.
  assert (Hb : if s then - 2 ^ (2 * n - 2) <= x * y <= 2 ^ (2 * n - 2)
               else 0 <= x * y <= (2 ^ n - 1) * (2 ^ n - 1)).
  { unfold in_range, min_of, max_of in *.
    destruct Hn as [->|[->|[->| ->]]]; [| | |lia]; destruct s; cbn [Z.sub Z.mul] in *; pow2s; nia. }
  unfold in_range, min_of, max_of in *.
  destruct Hn as [->|[->|[->| ->]]]; [| | |lia]; destruct s; pow2s;
    (split; [lia|]); generalize dependent (x * y); intros;
    match goal with |- context [?z / ?d] => pose proof (Z.div_mod z d); pose proof (Z.mod_pos_bound z d) end;
    lia.
Qed.

Lemma arith_mul_high_val a b n s :
  fixed_width n -> in_width 64 a -> in_width 64 b ->
  arith_mul_high a b n s = u64 (val n s a * val n s b / 2 ^ n).
Proof.
  intros Hn Ha Hb. pose proof (fixed_width_range n Hn) as Hr. unfold arith_mul_high.
  destruct (Z.ltb_spec n 64) as [Hlt|Hge].
  - rewrite (extend_val a), (extend_val b) by (done || lia). rewrite wrap_mul_l, wrap_mul_r.
    pose proof (product_range n s _ _ Hn Hlt (val_range n s a ltac:(lia)) (val_range n s b ltac:(lia)))
      as [Hp Hq].
    set (p := val n s a * val n s b) in *. clearbody p.
    pose proof (wrap_bound 64 p ltac:(lia)) as Hw.
    assert (Hh : (if s && negb (Z.shiftr (u64 p) 63 =? 0)
                  then not64 (Z.shiftr (not64 (u64 p)) n) else Z.shiftr (u64 p) n)
                 = u64 (p / 2 ^ n)).
    { assert (Hsmall : 0 <= p < 2 ^ 64 -> Z.shiftr (u64 p) n = u64 (p / 2 ^ n)).
      { intros Hpp. rewrite shiftr_div, (wrap_small 64 p) by (done || lia). symmetry.
        apply wrap_small. split; [apply Z.div_pos; lia|].
        apply Z.div_lt_upper_bound; [lia|]. nia. }
      destruct s; cbn [andb]; [|apply Hsmall; exact Hp].
      rewrite shiftr63 by done. destruct (Z.lt_ge_cases p 0) as [Hneg|Hpos].
      - rewrite (wrap_congr 64 p (p + 2 ^ 64) (-1)) by lia.
        rewrite (wrap_small 64 (p + _)) by (split; pow2s; lia).
        replace (p + 2 ^ 64 <? 2 ^ 63) with false by (symmetry; apply Z.ltb_ge; pow2s; lia).
        simpl. unfold not64 at 2.
        replace (UINT64_MAX - (p + 2 ^ 64)) with (- p - 1) by (pow2s; lia).
        rewrite shiftr_div, div_opp_pred by lia.
        unfold in_range, min_of, max_of in Hq. simpl in Hq.
        assert (2 ^ (n - 1) <= 2 ^ 63) by (apply Z.pow_le_mono_r; lia).
        assert (p / 2 ^ n < 0) by (apply Z.div_lt_upper_bound; lia).
        rewrite (wrap_congr 64 (p / 2 ^ n) (p / 2 ^ n + 2 ^ 64) (-1)) by lia.
        rewrite wrap_small by (split; pow2s; lia). unfold not64. pow2s. lia.
      - rewrite (wrap_small 64 p) by (split; pow2s; lia).
        replace (p <? 2 ^ 63) with true by (symmetry; apply Z.ltb_lt; pow2s; lia).
        simpl. rewrite <- (wrap_small 64 p) at 1 by (split; pow2s; lia).
        apply Hsmall. pow2s; lia. }
    rewrite Hh, extend_val by (lia || apply wrap_bound; lia).
    rewrite val_wrap, val_id by (done || lia). done.
  - assert (n = 64) as -> by lia. pose proof (multiply_spec a b Ha Hb) as Hm.
    destruct (multiply a b) as [hi lo]. destruct Hm as (Hhi & Hlo & E).
    destruct s; simpl.
    + destruct (signed_high_spec a b hi lo) as [Hw Hs]; [done..|].
      rewrite <- Hs. rewrite Z.div_add_l, Z.div_small, Z.add_0_r, wrap_sint by (done || lia).
      symmetry. apply wrap_small, Hw.
    + rewrite (wrap_small 64 a), (wrap_small 64 b), E by done.
      rewrite Z.div_add_l, Z.div_small, Z.add_0_r by (done || lia). symmetry. apply wrap_small, Hhi.
Qed.

(** ** Overflow and saturation *)

Definition classify (n : Z) (s : bool) (x : Z) : Z :=
  if x >? max_of n s then 1 else if x <? min_of n s then -1 else 0.

Lemma largest_eq n s : fixed_width n -> largest n s = max_of n s.
Proof. intros [->|[->|[->| ->]]]; destruct s; reflexivity. Qed.

Lemma smallest_eq n s : fixed_width n -> smallest n s = u64 (min_of n s).
Proof. intros [->|[->|[->| ->]]]; destruct s; reflexivity. Qed.

(** The sign test of a 64-bit word. *)
Lemma sign_bit x : in_width 64 x -> (Z.shiftr x 63 =? 0) = negb (Z.testbit x 63).
Proof.
  intros Hx. rewrite shiftr63, (testbit_top x 63) by (done || lia). zcases; done || lia.
Qed.

Lemma testbit63_sint x : in_width 64 x -> Z.testbit x 63 = (sint 64 x <? 0).
Proof.
  intros Hx. rewrite (testbit_top x 63) by (done || lia). unfold sint.
  destruct Hx. rewrite Z.mod_small by lia. pow2s. zcases; lia.
Qed.

Lemma overflow_bits a b r :
  in_width 64 a -> in_width 64 b -> in_width 64 r ->
  (Z.shiftr (Z.land (Z.lxor a r) (Z.lxor b r)) 63 =? 0) =
  negb (xorb (sint 64 a <? 0) (sint 64 r <? 0) && xorb (sint 64 b <? 0) (sint 64 r <? 0)).
Proof.
  intros Ha Hb Hr.
  assert (Hx : in_width 64 (Z.lxor a r)) by (apply lxor_width; done || lia).
  assert (Hy : in_width 64 (Z.lxor b r)) by (apply lxor_width; done || lia).
  rewrite sign_bit by (apply land_width; [lia|done|apply Hy]).
  rewrite Z.land_spec, !Z.lxor_spec, !testbit63_sint by done. done.
Qed.

Lemma sint_add_cases n x y :
  1 <= n -> in_range n true x -> in_range n true y ->
  sint n (x + y) = x + y - 2 ^ n * classify n true (x + y).
Proof.
  unfold in_range, classify, min_of, max_of. intros Hn Hx Hy.
  assert (2 ^ n = 2 * 2 ^ (n - 1)) by (rewrite <- Z.pow_succ_r by lia; f_equal; lia).
  apply sint_unique; [done| |].
  - rewrite Z.gtb_ltb. zcases; lia.
  - exists (if x + y >? 2 ^ (n - 1) - 1 then 1 else if x + y <? - 2 ^ (n - 1) then -1 else 0). ring.
Qed.

Lemma sint_not64 b : in_width 64 b -> sint 64 (not64 b) = - sint 64 b - 1.
Proof.
  intros Hb. apply sint_unique; [lia| |].
  - pose proof (sint_range 64 b ltac:(lia)). pow2s. lia.
  - destruct (sint_congr 64 b) as [k E]. exists (k + 1). unfold not64. pow2s. lia.
Qed.

(** Section for the case of 64 signed bits, where the operation wraps. *)
Lemma direction_signed64_sum (a b r : Z) :
  in_width 64 a -> in_width 64 b -> r = u64 (a + b) ->
  (if Z.shiftr (Z.land (Z.lxor a r) (Z.lxor b r)) 63 =? 0 then 0
   else if negb (Z.shiftr a 63 =? 0) then -1 else 1)
  = classify 64 true (sint 64 a + sint 64 b).
Proof.
  intros Ha Hb ->. pose proof (wrap_bound 64 (a + b) ltac:(lia)) as Hr.
  rewrite overflow_bits, sign_bit, testbit63_sint, negb_involutive by done.
  pose proof (sint_range 64 a ltac:(lia)) as Ra. pose proof (sint_range 64 b ltac:(lia)) as Rb.
  assert (E : sint 64 (u64 (a + b)) = sint 64 (sint 64 a + sint 64 b)).
  { rewrite sint_wrap by lia. destruct (sint_congr 64 a) as [i ->], (sint_congr 64 b) as [j ->].
    apply (val_eq 64 true). exists (- i - j). lia. }
  rewrite E, sint_add_cases by (lia || (unfold in_range, min_of, max_of; pow2s; lia)).
  unfold classify, min_of, max_of in *. rewrite Z.gtb_ltb. pow2s. zcases; simpl; lia || done.
Qed.

Lemma not64_congr a b : exists k, a + not64 b + 1 = a - b + k * 2 ^ 64.
Proof. exists 1. unfold not64. pow2s. lia. Qed.

(** [a - b] is [a + ~b + 1], so one lemma covers both operators. *)
Lemma direction_signed64_diff (a b r : Z) :
  in_width 64 a -> in_width 64 b -> r = u64 (a - b) ->
  (if Z.shiftr (Z.land (Z.lxor a r) (Z.lxor (not64 b) r)) 63 =? 0 then 0
   else if negb (Z.shiftr a 63 =? 0) then -1 else 1)
  = classify 64 true (sint 64 a - sint 64 b).
Proof.
  intros Ha Hb ->. pose proof (wrap_bound 64 (a - b) ltac:(lia)) as Hr.
  rewrite overflow_bits, sign_bit, testbit63_sint, negb_involutive, sint_not64
    by (done || apply not64_width; done).
  pose proof (sint_range 64 a ltac:(lia)) as Ra. pose proof (sint_range 64 b ltac:(lia)) as Rb.
  assert (E : sint 64 (u64 (a - b)) =
      sint 64 a - sint 64 b - 2 ^ 64 * classify 64 true (sint 64 a - sint 64 b)).
  { rewrite sint_wrap by lia. destruct (sint_congr 64 a) as [i Ei], (sint_congr 64 b) as [j Ej].
    apply sint_unique; [lia| |].
    - unfold classify, min_of, max_of. pow2s. zcases; lia.
    - exists (classify 64 true (sint 64 a - sint 64 b) + j - i). rewrite Ei, Ej. ring. }
  rewrite E. unfold classify, min_of, max_of in *. rewrite Z.gtb_ltb. pow2s. zcases; simpl; lia || done.
Qed.

Lemma direction_signed64_product (a b : Z) :
  in_width 64 a -> in_width 64 b ->
  (let '(hi, lo) := multiply a b in
   let hi := signed_high hi a b in
   if hi =? (if negb (Z.shiftr lo 63 =? 0) then UINT64_MAX else 0) then 0
   else if negb (Z.shiftr (Z.lxor a b) 63 =? 0) then -1 else 1)
  = classify 64 true (sint 64 a * sint 64 b).
Proof.
  intros Ha Hb. pose proof (multiply_spec a b Ha Hb) as Hm.
  destruct (multiply a b) as [hi lo]. destruct Hm as (Hhi & Hlo & E).
  destruct (signed_high_spec a b hi lo) as [Hw Hs]; [done..|].
  set (h := signed_high hi a b) in *. clearbody h.
  rewrite shiftr63 by done. rewrite sign_bit by (apply lxor_width; done || lia).
  rewrite Z.lxor_spec, !testbit63_sint, negb_involutive by done.
  pose proof (sint_range 64 a ltac:(lia)) as Ra. pose proof (sint_range 64 b ltac:(lia)) as Rb.
  assert (Hsh : sint 64 h = if h <? 2 ^ 63 then h else h - 2 ^ 64).
  { unfold sint. rewrite Z.mod_small by apply Hw. pow2s. done. }
  assert (Hsgn : (sint 64 a * sint 64 b < 0 -> xorb (sint 64 a <? 0) (sint 64 b <? 0) = true) /\
                 (0 < sint 64 a * sint 64 b -> xorb (sint 64 a <? 0) (sint 64 b <? 0) = false)).
  { generalize (sint 64 a) (sint 64 b). intros x y. split; intros; zcases; simpl; try done; nia. }
  destruct Hsgn as [Hneg Hpos]. rewrite <- Hs in *. rewrite Hsh in *.
  unfold classify, min_of, max_of. destruct Hw, Hlo. revert Hneg Hpos. pow2s.
  generalize (xorb (sint 64 a <? 0) (sint 64 b <? 0)). intros t.
  zcases; simpl; intros Hneg Hpos; zcases;
    first [lia | rewrite Hneg by lia; done | rewrite Hpos by lia; done].
Qed.

(** [direction] classifies the exact result, for every character. *)
Lemma direction_classify op a b n s :
  fixed_width n -> in_width 64 a -> in_width 64 b ->
  direction op a b n s = classify n s (exact op (val n s a) (val n s b)).
Proof.
  intros Hn Ha Hb. pose proof (fixed_width_range n Hn). unfold direction, exact.
  rewrite !extend_val, !arith_signed_val, !largest_eq by (done || lia).
  pose proof (val_range n s a ltac:(lia)) as Ra. pose proof (val_range n s b ltac:(lia)) as Rb.
  destruct (Z.ltb_spec n 64) as [Hlt|Hge]; [destruct s; simpl|].
  - change (sint n a) with (val n true a). change (sint n b) with (val n true b).
    unfold classify. set (r := if (op =? "+")%char then _ else _).
    unfold max_of, min_of. clearbody r. zcases; first [reflexivity | lia].
  - change (wrap n a) with (val n false a). change (wrap n b) with (val n false b).
    pose proof (product_range n false _ _ Hn Hlt Ra Rb) as [Hp _]. unfold in_range, min_of, max_of in *.
    assert (2 ^ n <= 2 ^ 32) by (apply Z.pow_le_mono_r; [lia|unfold fixed_width in Hn; lia]).
    rewrite !(wrap_small 64 (val n false _)) by (split; pow2s; lia).
    rewrite (wrap_small 64 (val n false a * _)) by (split; pow2s; lia).
    rewrite (wrap_small 64 (val n false a + _)) by (split; pow2s; lia).
    unfold classify, max_of, min_of.
    generalize dependent (val n false a * val n false b). generalize dependent (val n false a).
    generalize dependent (val n false b). intros y Hy x Hx p Hp.
    destruct (Ascii.eqb_spec op "+"), (Ascii.eqb_spec op "-"); subst; try discriminate;
      clear - Hx Hy Hp; pow2s; zcases; first [reflexivity | lia].
  - assert (n = 64) as -> by lia. destruct s; cbn [negb andb orb val].
    + destruct (Ascii.eqb_spec op "+"), (Ascii.eqb_spec op "-"); subst; try discriminate; cbn [orb].
      * apply direction_signed64_sum; done.
      * apply direction_signed64_diff; done.
      * apply direction_signed64_product; done.
    + rewrite (wrap_small 64 a), (wrap_small 64 b) by done.
      pose proof (multiply_spec a b Ha Hb) as Hm. destruct (multiply a b) as [hi lo].
      destruct Hm as (Hhi & Hlo & E). unfold classify, max_of, min_of.
      destruct Ha, Hb, Hhi, Hlo. pow2s.
      destruct (Ascii.eqb_spec op "+"), (Ascii.eqb_spec op "-"); subst; try done.
      * destruct (Z.lt_ge_cases (a + b) (2 ^ 64)).
        -- rewrite wrap_small by (split; lia). pow2s. zcases; lia.
        -- rewrite (wrap_congr 64 (a + b) (a + b - 2 ^ 64) 1), wrap_small by (try split; pow2s; lia).
           pow2s. zcases; lia.
      * zcases; lia.
      * rewrite E. destruct (Z.eqb_spec hi 0); simpl; zcases; lia.
Qed.

Lemma exact_congr op x y i j n :
  exists k, exact op (x + i * 2 ^ n) (y + j * 2 ^ n) = exact op x y + k * 2 ^ n.
Proof.
  unfold exact. destruct (_ =? _)%char; [exists (i + j); ring|].
  destruct (_ =? _)%char; [exists (i - j); ring|]. exists (x * j + i * y + i * j * 2 ^ n). ring.
Qed.

Lemma arith_saturate_clamp op a b n s :
  fixed_width n -> in_width 64 a -> in_width 64 b ->
  arith_saturate op a b n s = u64 (clamp n s (exact op (val n s a) (val n s b))).
Proof.
  intros Hn Ha Hb. pose proof (fixed_width_range n Hn). unfold arith_saturate.
  rewrite direction_classify, largest_eq, smallest_eq by done.
  set (x := exact op (val n s a) (val n s b)). unfold classify, clamp.
  assert (Hm : 0 <= max_of n s < 2 ^ 64 /\ min_of n s <= 0).
  { unfold max_of, min_of. destruct s; [|split; [split; [lia|]|lia]].
    - assert (2 ^ (n - 1) <= 2 ^ 63) by (apply Z.pow_le_mono_r; lia). pow2s. lia.
    - assert (2 ^ n <= 2 ^ 64) by (apply Z.pow_le_mono_r; lia). lia. }
  rewrite !Z.gtb_ltb. destruct (Z.ltb_spec (max_of n s) x); cbn [Z.compare Z.ltb].
  { rewrite Z.min_l, Z.max_r by lia. symmetry. apply wrap_small. split; lia. }
  destruct (Z.ltb_spec x (min_of n s)); cbn [Z.compare Z.ltb].
  { rewrite Z.min_r, Z.max_l by lia. done. }
  rewrite Z.min_r, Z.max_r by lia.
  replace (if (op =? "+")%char then u64 (a + b)
           else if (op =? "-")%char then u64 (a - b) else u64 (a * b))
    with (u64 (exact op a b)) by (unfold exact; destruct (_ =? _)%char; [|destruct (_ =? _)%char]; done).
  rewrite extend_val by (lia || (apply wrap_bound; lia)). f_equal.
  rewrite val_wrap by lia. rewrite <- (val_id n s x) by (lia || (split; lia)).
  destruct (val_congr n s a) as [i Ei], (val_congr n s b) as [j Ej]. apply val_eq.
  destruct (exact_congr op a b i j n) as [k Ek]. exists (- k). unfold x. rewrite Ei, Ej, Ek. ring.
Qed.

(** The [int64_t] arithmetic of [direction] below 64 bits is exact. *)
Lemma direction_no_overflow op a b n :
  fixed_width n -> n < 64 ->
  - 2 ^ 63 <= exact op (sint n a) (sint n b) < 2 ^ 63.
Proof.
  intros Hn Hlt.
  pose proof (val_range n true a) as Ra. pose proof (val_range n true b) as Rb.
  pose proof (fixed_width_range n Hn).
  pose proof (product_range n true _ _ Hn Hlt (Ra ltac:(lia)) (Rb ltac:(lia))) as [Hp _].
  specialize (Ra ltac:(lia)). specialize (Rb ltac:(lia)). unfold in_range, max_of, min_of in *.
  change (val n true) with (sint n) in *.
  assert (2 ^ (n - 1) <= 2 ^ 31) by (apply Z.pow_le_mono_r; [lia|unfold fixed_width in Hn; lia]).
  unfold exact. destruct (_ =? _)%char; [|destruct (_ =? _)%char]; pow2s; lia.
Qed.

(** ** The shift and the decimal reader *)

Lemma arith_shift_right_div a k :
  - 2 ^ 63 <= a < 2 ^ 63 -> 0 <= k < 64 -> arith_shift_right a k = a / 2 ^ k.
Proof.
  intros Ha Hk. unfold arith_shift_right. destruct (Z.ltb_spec a 0).
  - rewrite (wrap_congr 64 a (a + 2 ^ 64) (-1)), wrap_small by (try split; pow2s; lia).
    unfold not64. replace (UINT64_MAX - (a + 2 ^ 64)) with (- a - 1) by (pow2s; lia).
    rewrite shiftr_div, div_opp_pred by lia. lia.
  - rewrite wrap_small by (split; pow2s; lia). apply shiftr_div. lia.
Qed.

(** Decimal digits and the number they write, by Horner's rule. *)
Definition is_decimal (c : Z) : Prop := 48 <= c <= 57.

Definition decimal_value (text : list Z) (value : Z) : Z :=
  fold_left (fun v c => v * 10 + (c - 48)) text value.

Lemma decimal_value_ge text v : Forall is_decimal text -> 0 <= v -> v <= decimal_value text v.
Proof.
  intros H. revert v. unfold decimal_value, is_decimal in *.
  induction H as [|c l Hc _ IH]; intros v Hv; simpl; [lia|].
  specialize (IH (v * 10 + (c - 48)) ltac:(lia)). lia.
Qed.

Lemma decimal_loop_spec text value v :
  0 <= value <= UINT64_MAX ->
  decimal_loop text value = Some v <->
  Forall is_decimal text /\ decimal_value text value = v /\ v <= UINT64_MAX.
Proof.
  revert value. induction text as [|c text IH]; intros value Hv.
  { cbn. split; [intros [= <-]; split; [constructor|lia]|intros (_ & <- & _); done]. }
  cbn [decimal_loop]. destruct ((c <? 48) || (c >? 57)) eqn:Ed.
  { split; [done|]. intros (HF & _). apply Forall_cons_1 in HF as [Hc _].
    unfold is_decimal in Hc. rewrite Z.gtb_ltb in Ed. apply orb_true_iff in Ed as [?|?]; bool_to_prop; lia. }
  assert (Hc : is_decimal c).
  { unfold is_decimal. rewrite Z.gtb_ltb in Ed. bool_to_prop. lia. }
  unfold is_decimal in Hc.
  pose proof (Z.div_mod (UINT64_MAX - (c - 48)) 10 ltac:(lia)).
  pose proof (Z.mod_pos_bound (UINT64_MAX - (c - 48)) 10 ltac:(lia)).
  rewrite Z.gtb_ltb. destruct (Z.ltb_spec ((UINT64_MAX - (c - 48)) / 10) value).
  - split; [done|]. intros (HF & HE & HL). apply Forall_cons_1 in HF as [_ HF]. exfalso.
    assert (Hge := decimal_value_ge text (value * 10 + (c - 48)) HF ltac:(lia)).
    change (decimal_value (c :: text) value) with (decimal_value text (value * 10 + (c - 48))) in HE.
    lia.
  - rewrite (wrap_small 64 (value * 10)), wrap_small by (split; pow2s; lia).
    rewrite IH by lia. rewrite Forall_cons_iff. unfold decimal_value. cbn [fold_left].
    fold (is_decimal c) in Hc. tauto.
Qed.

(** ** Properties *)

(** C25. The overflow test is exact: for the four widths, both signs and every
    pair of words, [arith_overflows] holds exactly when the exact result of the
    operation on the values of the operands has no value of [n] bits, and the
    saturating operation gives the nearest value that has one. *)
Theorem overflow_and_saturation_exact op a b n s :
  fixed_width n -> in_width 64 a -> in_width 64 b ->
  (arith_overflows op a b n s = true <->
   ~ in_range n s (exact op (val n s a) (val n s b))) /\
  arith_saturate op a b n s = u64 (clamp n s (exact op (val n s a) (val n s b))).
Proof.
  intros Hn Ha Hb. split; [|apply arith_saturate_clamp; done].
  unfold arith_overflows. rewrite direction_classify by done.
  generalize (exact op (val n s a) (val n s b)). intros x.
  unfold classify, in_range. rewrite Z.gtb_ltb.
  destruct (Z.ltb_spec (max_of n s) x), (Z.ltb_spec x (min_of n s)); simpl;
    split; intros; try done; lia.
Qed.

Lemma overflow_and_saturation_exact_witness :
  (arith_overflows "+" 200 100 8 false = true <->
   ~ in_range 8 false (exact "+" (val 8 false 200) (val 8 false 100))) /\
  arith_saturate "+" 200 100 8 false = u64 (clamp 8 false (exact "+" (val 8 false 200) (val 8 false 100))).
Proof.
  apply (overflow_and_saturation_exact "+" 200 100 8 false);
    [left; reflexivity | split; [lia|reflexivity] | split; [lia|reflexivity]].
Defined.

(** [arith_mul_high] is the upper half of the full product of the two
    values, rounded down, extended to 64 bits by its sign; the halves that
    [multiply] builds from four 32-bit products carry nothing away. *)
Lemma mul_high_exact a b n s :
  fixed_width n -> in_width 64 a -> in_width 64 b ->
  arith_mul_high a b n s = u64 (val n s a * val n s b / 2 ^ n) /\
  in_range n s (val n s a * val n s b / 2 ^ n).
Proof.
  intros Hn Ha Hb. split; [apply arith_mul_high_val; done|].
  pose proof (fixed_width_range n Hn). pose proof (val_range n s a ltac:(lia)) as Ra.
  pose proof (val_range n s b ltac:(lia)) as Rb.
  destruct (Z.lt_ge_cases n 64); [apply product_range; done|].
  assert (n = 64) as -> by lia. unfold in_range, min_of, max_of in *.
  set (x := val 64 s a) in *. set (y := val 64 s b) in *. clearbody x y.
  assert (Hp : if s then - 2 ^ 126 <= x * y <= 2 ^ 126 else 0 <= x * y <= (2 ^ 64 - 1) * (2 ^ 64 - 1)).
  { destruct s; pow2s; nia. }
  generalize dependent (x * y). intros p Hp. pose proof (Z.div_mod p (2 ^ 64) ltac:(lia)).
  pose proof (Z.mod_pos_bound p (2 ^ 64) ltac:(lia)). destruct s; revert Hp; pow2s; lia.
Qed.

(** [arith_decimal] accepts exactly the nonempty runs of decimal digits
    whose number is at most [UINT64_MAX], and gives that number, so no step of
    its loop wraps. *)
Lemma decimal_exact text v :
  arith_decimal text = Some v <->
  text <> [] /\ Forall is_decimal text /\ decimal_value text 0 = v /\ v <= UINT64_MAX.
Proof.
  unfold arith_decimal. destruct text as [|c text]; [split; [done|intros [[] _]; done]|].
  rewrite decimal_loop_spec by lia. intuition discriminate.
Qed.
