(* ===== verification/Double.v ===== *)
(** * Double: the doubles of constants

    Models the functions of src/antic/arith.c on doubles: the division and the
    narrowing to a float, which C leaves undefined where the result is not finite.
    A double in memory is its 64 bits, a float its 32. Proved: both functions are
    those of IEEE 754 for every operand. *)

From Stdlib Require Import Floats.SpecFloat.
From S2P Require Import Prelude.

(** ** Bits and values *)

(** The value of the 64 bits of a double. *)
Definition double_of_bits (bits : Z) : spec_float :=
  let sign := Z.testbit bits 63 in
  let exponent := Z.land (Z.shiftr bits 52) 0x7ff in
  let mantissa := Z.land bits 0xfffffffffffff in
  if exponent =? 0x7ff then (if mantissa =? 0 then S754_infinity sign else S754_nan)
  else if exponent =? 0 then
    match mantissa with Z.pos m => S754_finite sign m (-1074) | _ => S754_zero sign end
  else match mantissa + 2 ^ 52 with Z.pos m => S754_finite sign m (exponent - 1075) | _ => S754_nan end.

(** The 32 bits of a float that is no NaN. *)
Definition bits_of_float (x : spec_float) : Z :=
  let signed (s : bool) bits := Z.lor (if s then 0x80000000 else 0) bits in
  match x with
  | S754_zero s => signed s 0
  | S754_infinity s => signed s 0x7f800000
  | S754_nan => 0x7fc00000
  | S754_finite s m e =>
      signed s (if Z.pos m <? 2 ^ 23 then Z.pos m else (e + 150) * 2 ^ 23 + (Z.pos m - 2 ^ 23))
  end.

(** [isnan]. *)
Definition is_nan (x : spec_float) : bool := match x with S754_nan => true | _ => false end.

(** C's [(float)d]: to nearest, a tie to even. *)
Definition to_float (d : spec_float) : spec_float :=
  match d with
  | S754_finite s m e => binary_normalize 24 128 (if s then Z.neg m else Z.pos m) e s
  | x => x
  end.

(** [FLT_MAX] and the constant 0x1.ffffffp+127 as doubles. *)
Definition FLT_MAX : spec_float := S754_finite false 0x1fffffe0000000 75.
Definition edge : spec_float := S754_finite false 0x1ffffff0000000 75.

(** [signbit]. *)
Definition signbit (x : spec_float) : bool :=
  match x with S754_zero s | S754_infinity s | S754_finite s _ _ => s | S754_nan => false end.

(** ** The functions *)

(** [a / b] in C is the division of IEEE 754 for a divisor that is not zero. *)
Definition arith_divide (a b : spec_float) : spec_float :=
  if negb (SFeqb b (S754_zero false)) then SFdiv 53 1024 a b
  else if is_nan a || SFeqb a (S754_zero false) then S754_nan
  else S754_infinity (negb (Bool.eqb (signbit a) (signbit b))).

(** The four comparisons of the source, and [-FLT_MAX] as a float. *)
Definition arith_to_f32 (d : spec_float) : spec_float :=
  if SFleb edge d then S754_infinity false
  else if SFleb d (SFopp edge) then S754_infinity true
  else if SFltb FLT_MAX d then S754_finite false 0xffffff 104
  else if SFltb d (SFopp FLT_MAX) then S754_finite true 0xffffff 104
  else to_float d.

(** ** Rounding to the nearest

    [shr_at m0 k r]: the record [r] is [m0] shifted right by [k] bits, with the bit
    after its last and whether one below that is set. *)
Definition shr_at (m0 k : Z) (r : shr_record) : Prop :=
  let rest := m0 - shr_m r * 2 ^ k in
  0 <= shr_m r /\ 0 <= k /\
  match shr_r r, shr_s r with
  | false, false => rest = 0
  | false, true => 0 < 2 * rest < 2 ^ k
  | true, false => 2 * rest = 2 ^ k
  | true, true => 2 ^ k < 2 * rest /\ rest < 2 ^ k
  end.

Lemma shr_at_step m0 k r : shr_at m0 k r -> shr_at m0 (k + 1) (shr_1 r).
Proof.
  unfold shr_at. destruct r as [m r s]. cbn [shr_m shr_r shr_s]. intros (Hm & Hk & H).
  rewrite Z.pow_add_r by lia. change (2 ^ 1) with 2.
  destruct m as [|[p|p|]|p], r, s; cbn [shr_1 orb shr_m shr_r shr_s] in *; split_and!; lia.
Qed.

Lemma iter_pos_shr m0 n k r : shr_at m0 k r -> shr_at m0 (k + Z.pos n) (SpecFloat.iter_pos shr_1 n r).
Proof.
  revert k r. induction n as [n IH|n IH|]; intros k r H; cbn [SpecFloat.iter_pos].
  - replace (k + Z.pos n~1) with (k + 1 + Z.pos n + Z.pos n) by lia. by apply IH, IH, shr_at_step.
  - replace (k + Z.pos n~0) with (k + Z.pos n + Z.pos n) by lia. by apply IH, IH.
  - by apply shr_at_step.
Qed.

Lemma shr_at_rest m0 k r : shr_at m0 k r -> shr_m r * 2 ^ k <= m0 < (shr_m r + 1) * 2 ^ k.
Proof. unfold shr_at. destruct (shr_r r), (shr_s r); lia. Qed.

Lemma digits2_log2 p : Z.pos (digits2_pos p) = Z.log2 (Z.pos p) + 1.
Proof.
  induction p as [p IH|p IH|]; [..|done]; cbn [digits2_pos].
  - change (Z.pos p~1) with (2 * Z.pos p + 1). rewrite Z.log2_succ_double by lia. lia.
  - change (Z.pos p~0) with (2 * Z.pos p). rewrite Z.log2_double by lia. lia.
Qed.

Lemma digits2_unique p n : 0 <= n -> 2 ^ n <= Z.pos p < 2 ^ (n + 1) -> Z.pos (digits2_pos p) = n + 1.
Proof. intros Hn Hp. by rewrite digits2_log2, (Z.log2_unique (Z.pos p) n Hn Hp). Qed.

(** A mantissa of 53 bits, as a double of at least 2^-126 has. *)
Definition normal (m : positive) : Prop := 2 ^ 52 <= Z.pos m < 2 ^ 53.

Lemma binary_round_normal s m e :
  normal m -> -149 <= e + 29 ->
  exists r, shr_at (Z.pos m) 29 r /\ 2 ^ 23 <= shr_m r < 2 ^ 24 /\
    binary_round 24 128 s m e =
    (let n := round_nearest_even (shr_m r) (loc_of_shr_record r) in
     let (n, e) := if n =? 2 ^ 24 then (2 ^ 23, e + 30) else (n, e + 29) in
     if e <=? 104 then S754_finite s (Z.to_pos n) e else S754_infinity s).
Proof.
  intros Hm He. unfold binary_round, fexp, emin, shl_align.
  rewrite (digits2_unique m 52) by (done || lia). rewrite Z.max_l by lia.
  replace (52 + 1 + e - 24 - e) with 29 by lia. cbn match.
  unfold binary_round_aux, shr_fexp, fexp, emin. cbn [Zdigits2 shr_record_of_loc].
  rewrite (digits2_unique m 52) by (done || lia). rewrite Z.max_l by lia.
  replace (52 + 1 + e - 24 - e) with 29 by lia. cbn [shr].
  set (r := SpecFloat.iter_pos shr_1 29 _). assert (shr_at (Z.pos m) 29 r) as Hr.
  { apply (iter_pos_shr _ 29 0). split; [done|]. split; [done|]. cbn. lia. }
  clearbody r. exists r. pose proof (shr_at_rest _ _ _ Hr) as Hb. unfold normal in Hm.
  change (2 ^ 29) with 536870912 in Hb. pow2s. split; [done|]. split; [lia|].
  set (n := round_nearest_even _ _). assert (8388608 <= n <= 16777216) as Hn.
  { subst n. unfold round_nearest_even. destruct (loc_of_shr_record r) as [|[]]; [lia| |lia|lia].
    destruct (Z.even _); lia. }
  clearbody n. cbv zeta. destruct (Z.eqb_spec n 16777216) as [->|Hne].
  - change (Zdigits2 16777216) with 25. rewrite Z.max_l by lia. replace (25 + (e + 29) - 24 - (e + 29)) with 1 by lia.
    cbn. replace (e + 29 + 1) with (e + 30) by lia. done.
  - destruct n as [|p|p]; [lia| |lia]. cbn [Zdigits2]. rewrite (digits2_unique p 23) by (pow2s; lia).
    rewrite Z.max_l by lia. replace (23 + 1 + (e + 29) - 24 - (e + 29)) with 0 by lia. done.
Qed.

Lemma to_float_signed s m e : to_float (S754_finite s m e) = binary_round 24 128 s m e.
Proof. by destruct s. Qed.

(** From [edge] on the nearest float is infinity. *)
Lemma binary_round_infinity s m e :
  normal m -> 75 < e \/ e = 75 /\ 0x1ffffff0000000 <= Z.pos m -> binary_round 24 128 s m e = S754_infinity s.
Proof.
  intros Hm He. destruct (binary_round_normal s m e Hm) as (r & Hr & Hb & ->); [lia|]. cbv zeta.
  set (n := round_nearest_even _ _). destruct (Z.eqb_spec n (2 ^ 24)) as [|Hn]; [by zdecide|].
  destruct He as [|[-> Hp]]; [by zdecide|]. exfalso. apply Hn. subst n. unfold normal in Hm.
  pose proof (shr_at_rest _ _ _ Hr) as Hrest. destruct Hr as (_ & _ & Hr). destruct r as [q u v]. cbn in *.
  change (2 ^ 29) with 536870912 in *. pow2s. assert (q = 16777215) as -> by lia.
  destruct u, v; cbn; lia.
Qed.

(** Between the greatest float and [edge] it is the greatest float. *)
Lemma binary_round_greatest s m :
  0x1fffffe0000000 < Z.pos m < 0x1ffffff0000000 -> binary_round 24 128 s m 75 = S754_finite s 0xffffff 104.
Proof.
  intros Hm. destruct (binary_round_normal s m 75) as (r & Hr & Hb & ->); [unfold normal; pow2s; lia|lia|]. cbv zeta.
  assert (round_nearest_even (shr_m r) (loc_of_shr_record r) = 16777215) as ->; [|done].
  pose proof (shr_at_rest _ _ _ Hr) as Hrest. destruct Hr as (_ & _ & Hr). destruct r as [q u v]. cbn in *.
  change (2 ^ 29) with 536870912 in *. pow2s. assert (q = 16777215) as -> by lia.
  destruct u, v; cbn; lia.
Qed.

Lemma double_finite bits s m e :
  in_width 64 bits -> double_of_bits bits = S754_finite s m e -> normal m \/ e = -1074.
Proof.
  intros Hb. unfold double_of_bits, normal. set (x := Z.land _ 0x7ff). set (y := Z.land bits _).
  assert (0 <= y < 2 ^ 52) as Hy.
  { subst y. change 0xfffffffffffff with (2 ^ 52 - 1). rewrite land_mask by lia. apply Z.mod_pos_bound. lia. }
  clearbody x y. destruct (Z.eqb_spec x 0x7ff); [by destruct (y =? 0)|].
  destruct (Z.eqb_spec x 0); [destruct y; intros [= <- <- <-]; by right|].
  destruct (y + 2 ^ 52) as [|p|p] eqn:E; intros [= <- <- <-]. left. rewrite <- E. pow2s. lia.
Qed.

Lemma compare_mantissas m1 m2 : Pos.compare_cont Eq m1 m2 = Z.compare (Z.pos m1) (Z.pos m2).
Proof. done. Qed.

(** The narrowing of a constant to a float is the rounding of IEEE 754 for every
    double: to the nearest float, a tie to even, and to infinity from halfway
    past the greatest float on, where the conversion of C has no value. *)
Lemma narrowing_rounds bits :
  in_width 64 bits -> arith_to_f32 (double_of_bits bits) = to_float (double_of_bits bits).
Proof.
  intros Hb. destruct (double_of_bits bits) as [s|[]| |s m e] eqn:E; [by destruct s|done|done|done|].
  apply double_finite in E; [|done]. rewrite to_float_signed. unfold arith_to_f32, FLT_MAX, edge, SFleb, SFltb, SFopp.
  destruct s; cbn [SFcompare negb]; rewrite !compare_mantissas.
  - destruct (Z.compare_spec e 75) as [->|He|He]; cbn [CompOpp].
    + destruct E as [E|E]; [|done].
      destruct (Z.compare_spec (Z.pos m) 9007198986305536); cbn [CompOpp]; try (rewrite binary_round_infinity by (done || lia); done).
      destruct (Z.compare_spec (Z.pos m) 9007198717870080); cbn [CompOpp]; try by rewrite to_float_signed.
      by rewrite binary_round_greatest by lia.
    + by rewrite to_float_signed.
    + destruct E as [E|E]; [|lia]. by rewrite binary_round_infinity by (done || lia).
  - destruct (Z.compare_spec 75 e) as [<-|He|He]; cbn [CompOpp].
    + destruct E as [E|E]; [|done].
      destruct (Z.compare_spec 9007198986305536 (Z.pos m)); try (rewrite binary_round_infinity by (done || lia); done).
      destruct (Z.compare_spec 9007198717870080 (Z.pos m)); try by rewrite to_float_signed.
      by rewrite binary_round_greatest by lia.
    + destruct E as [E|E]; [|lia]. by rewrite binary_round_infinity by (done || lia).
    + by rewrite to_float_signed.
Qed.

(** The division of constants is the division of IEEE 754 for every two
    doubles, a zero divisor among them. *)
Lemma division_is_ieee a b : arith_divide a b = SFdiv 53 1024 a b.
Proof. by destruct a as [[]|[]| |[] ? ?], b as [[]|[]| |[] ? ?]. Qed.
