(* ===== verification/FloatBits.v ===== *)
(** * FloatBits: the formats of IEEE 754

    A binary format by the widths of its fraction and its exponent: the value that the
    bits of a float write, the bits of a value, and that one undoes the other. The
    operations of the Standard Library's SpecFloat, to the nearest with ties to even,
    give values of the format. Nothing here models code; the laws of the floats of a
    target in FloatSem.v are in these terms. *)

From Stdlib Require Import Floats.SpecFloat.
From S2P Require Import Prelude Double.

(** ** Digits *)

Lemma digits2_bounds m n : 0 <= m -> 0 <= n -> m < 2 ^ n <-> Zdigits2 m <= n.
Proof.
  intros Hm Hn. destruct m as [|p|p]; [|cbn [Zdigits2]; rewrite digits2_log2|lia].
  - cbn. pose proof (Z.pow_pos_nonneg 2 n). lia.
  - rewrite <- Z.le_succ_l. split; intros H.
    + assert (Z.log2 (Z.pos p) < n); [|lia]. apply Z.log2_lt_pow2; lia.
    + assert (Z.log2 (Z.pos p) < n) as Hl by lia. apply Z.log2_lt_pow2 in Hl; lia.
Qed.

Lemma digits2_least m n : 0 <= n -> 2 ^ n <= m -> n < Zdigits2 m.
Proof.
  intros Hn Hm. apply Z.nle_gt. intros H. pose proof (Z.pow_pos_nonneg 2 n).
  apply digits2_bounds in H; lia.
Qed.

Lemma digits2_nonneg m : 0 <= Zdigits2 m.
Proof. by destruct m. Qed.

Lemma digits2_mul m n : 0 < m -> 0 <= n -> Zdigits2 (m * 2 ^ n) = Zdigits2 m + n.
Proof.
  intros Hm Hn. pose proof (Z.pow_pos_nonneg 2 n ltac:(lia) Hn) as Hp. pose proof (digits2_least m 0 ltac:(lia) ltac:(lia)) as H0.
  assert (m < 2 ^ Zdigits2 m) as Hd by (apply digits2_bounds; lia).
  assert (2 ^ (Zdigits2 m - 1) <= m) as Hl.
  { apply Z.nlt_ge. intros H. apply digits2_bounds in H; lia. }
  assert (Zdigits2 (m * 2 ^ n) <= Zdigits2 m + n).
  { apply digits2_bounds; [nia|lia|]. rewrite Z.pow_add_r by lia. nia. }
  assert (Zdigits2 m - 1 + n < Zdigits2 (m * 2 ^ n)); [|lia].
  apply digits2_least; [lia|]. rewrite Z.pow_add_r by lia. nia.
Qed.

Lemma digits2_at m : 0 < m -> 2 ^ (Zdigits2 m - 1) <= m < 2 ^ Zdigits2 m.
Proof.
  intros Hm. pose proof (digits2_least m 0 ltac:(lia) ltac:(lia)). split.
  - apply Z.nlt_ge. intros H1. apply digits2_bounds in H1; lia.
  - apply digits2_bounds; lia.
Qed.

Lemma iter_xO m d : Z.pos (Pos.iter xO m d) = Z.pos m * 2 ^ Z.pos d.
Proof.
  induction d as [|d IH] using Pos.peano_ind; [cbn; lia|].
  rewrite Pos.iter_succ, Pos2Z.inj_succ, Z.pow_succ_r by lia. change (Z.pos (Pos.iter xO m d)~0) with (2 * Z.pos (Pos.iter xO m d)). rewrite IH. lia.
Qed.

Lemma iter_shr_m n r : 0 <= shr_m r -> shr_m (SpecFloat.iter_pos shr_1 n r) = shr_m r / 2 ^ Z.pos n.
Proof.
  assert (H1 : forall r, 0 <= shr_m r -> shr_m (shr_1 r) = shr_m r / 2).
  { intros [[|[p|p|]|p] u v] H; cbn [shr_1 shr_m] in *; Z.div_mod_to_equations; lia. }
  assert (H2 : forall r, 0 <= shr_m r -> 0 <= shr_m (shr_1 r)) by (intros; rewrite H1 by done; apply Z.div_pos; lia).
  assert (forall n r, 0 <= shr_m r -> 0 <= shr_m (SpecFloat.iter_pos shr_1 n r)) as H3.
  { intros k. induction k; intros q Hq; cbn [SpecFloat.iter_pos]; eauto. }
  assert (forall a k l, 0 <= k -> 0 <= l -> a / 2 ^ k / 2 ^ l = a / 2 ^ (k + l)) as H4.
  { intros a k l Hk Hl. rewrite Z.div_div, <- Z.pow_add_r by lia. done. }
  revert r. induction n as [n IH|n IH|]; intros r Hr; cbn [SpecFloat.iter_pos].
  - rewrite !IH, H1 by eauto. change 2 with (2 ^ 1) at 1. rewrite !H4 by lia. f_equal. f_equal. lia.
  - rewrite !IH by eauto. rewrite !H4 by lia. f_equal. f_equal. lia.
  - by apply H1.
Qed.

(** ** Rounding gives a value of the format *)

Section Format.
Context (prec emax : Z) (Hprec : 1 < prec) (Hemax : prec < emax).

#[local] Notation emin := (SpecFloat.emin prec emax).
#[local] Notation fexp := (SpecFloat.fexp prec emax).
#[local] Notation valid := (valid_binary prec emax).

Lemma valid_finite s m e : valid (S754_finite s m e) = true <-> fexp (Zdigits2 (Z.pos m) + e) = e /\ e <= emax - prec.
Proof. cbn. unfold bounded, canonical_mantissa. by rewrite andb_true_iff, Z.eqb_eq, Z.leb_le. Qed.

Lemma shr_m_shift r e k : 0 <= shr_m r -> 0 <= k -> (shr r e k).2 = e + k /\ shr_m (shr r e k).1 = shr_m r / 2 ^ k.
Proof.
  intros Hr Hk. destruct k as [|k|k]; [|split; [done|by apply iter_shr_m]|lia]. cbn [shr fst snd].
  by rewrite Z.add_0_r, Z.div_1_r.
Qed.

Lemma shr_of_loc m l : shr_m (shr_record_of_loc m l) = m.
Proof. by destruct l as [|[]]. Qed.

(** A mantissa of at most [prec] bits that uses all of them unless its exponent is the
    least. *)
Definition fits (m e : Z) : Prop := 0 <= m < 2 ^ prec /\ emin <= e /\ (e = emin \/ 2 ^ (prec - 1) <= m).

Lemma fits_fexp m e : fits m e -> m <> 0 -> fexp (Zdigits2 m + e) = e.
Proof.
  intros (Hm & He & H) Hz. assert (Zdigits2 m <= prec) as Hd by (apply digits2_bounds; lia). unfold fexp.
  destruct H as [-> |H]; [lia|]. pose proof (digits2_least m (prec - 1) ltac:(lia) H). lia.
Qed.

Lemma fits_fexp_0 e : fits 0 e -> fexp (Zdigits2 0 + e) = e.
Proof. intros (_ & He & [-> |H]); [unfold fexp; cbn; lia|]. pose proof (Z.pow_pos_nonneg 2 (prec - 1)). lia. Qed.

Lemma fexp_fits m e : 0 < m -> fexp (Zdigits2 m + e) = e -> fits m e.
Proof.
  intros Hm H. destruct (digits2_at m Hm) as [H1 H2]. unfold fexp in H.
  assert (Zdigits2 m <= prec) as Hd by lia.
  split; [split; [lia|]; eapply Z.lt_le_trans; [exact H2|apply Z.pow_le_mono_r; lia]|]. split; [lia|].
  destruct (Z.eq_dec e emin) as [|Hne]; [by left|right]. assert (Zdigits2 m = prec) as <- by lia. done.
Qed.

(** The shift that rounding starts with. *)
Lemma shr_fexp_fits m e l : 0 <= m -> e <= fexp (Zdigits2 m + e) ->
  fits (shr_m (shr_fexp prec emax m e l).1) (shr_fexp prec emax m e l).2 /\
  (shr_fexp prec emax m e l).2 = fexp (Zdigits2 m + e).
Proof.
  intros Hm He. unfold shr_fexp. set (k := fexp (Zdigits2 m + e) - e).
  destruct (shr_m_shift (shr_record_of_loc m l) e k) as [-> ->]; [by rewrite shr_of_loc|lia|]. rewrite shr_of_loc.
  split; [|lia]. replace (e + k) with (fexp (Zdigits2 m + e)) by lia. pose proof (Z.pow_pos_nonneg 2 k ltac:(lia) ltac:(lia)) as Hk.
  destruct (Z.eq_dec m 0) as [->|Hz].
  - rewrite Z.div_0_l by lia. cbn [Zdigits2]. split; [pose proof (Z.pow_pos_nonneg 2 prec); lia|]. unfold fexp in *. cbn [Zdigits2] in *. lia.
  - destruct (digits2_at m ltac:(lia)) as [H1 H2]. assert (0 < Zdigits2 m) as Hd by (pose proof (digits2_least m 0); lia).
    assert (Zdigits2 m - k <= prec) as Hdk by (subst k; unfold fexp; lia).
    split; [split; [apply Z.div_pos; lia|]|split; [unfold fexp; lia|]].
    + apply Z.div_lt_upper_bound; [lia|]. rewrite <- Z.pow_add_r by lia. eapply Z.lt_le_trans; [exact H2|]. apply Z.pow_le_mono_r; lia.
    + destruct (Z.eq_dec (fexp (Zdigits2 m + e)) emin) as [|Hne]; [by left|right].
      assert (k = Zdigits2 m - prec) as Ek by (subst k; unfold fexp in *; lia).
      apply Z.div_le_lower_bound; [lia|]. rewrite <- Z.pow_add_r by lia. by replace (k + (prec - 1)) with (Zdigits2 m - 1) by lia.
Qed.

Lemma round_between m l : m <= round_nearest_even m l <= m + 1.
Proof. destruct l as [|[]]; cbn; try lia. destruct (Z.even m); lia. Qed.

Lemma round_aux_valid s m e l : 0 <= m -> e <= fexp (Zdigits2 m + e) -> valid (binary_round_aux prec emax s m e l) = true.
Proof.
  intros Hm He. unfold binary_round_aux. destruct (shr_fexp_fits m e l Hm He) as [Hf _].
  destruct (shr_fexp prec emax m e l) as [r e1]. cbn [fst snd] in Hf. set (n := round_nearest_even _ _).
  pose proof (round_between (shr_m r) (loc_of_shr_record r)) as Hn. fold n in Hn. clearbody n.
  assert (fits n e1 \/ n = 2 ^ prec /\ emin <= e1) as Hfn.
  { destruct Hf as (Hr & H1 & H2). destruct (Z.eq_dec n (2 ^ prec)); [by right|left]. unfold fits. lia. }
  assert (Hl : emin <= e1) by apply Hf. clear Hn Hf He Hm r.
  assert (exists n2 e2, fits n2 e2 /\ shr_m (shr_fexp prec emax n e1 loc_Exact).1 = n2 /\ (shr_fexp prec emax n e1 loc_Exact).2 = e2) as (n2 & e2 & H & E1 & E2).
  { destruct Hfn as [H|[-> H]].
    - eexists n, e1. split; [done|]. unfold shr_fexp. assert (fexp (Zdigits2 n + e1) = e1) as ->.
      { destruct (Z.eq_dec n 0) as [->|]; [by apply fits_fexp_0|by apply fits_fexp]. }
      by rewrite Z.sub_diag.
    - eexists _, _. split; [|done]. apply shr_fexp_fits; [apply Z.pow_nonneg; lia|].
      pose proof (digits2_least (2 ^ prec) prec ltac:(lia) ltac:(lia)). unfold fexp. lia. }
  destruct (shr_fexp prec emax n e1 loc_Exact) as [r2 e2']. cbn [fst snd] in *. subst e2'. rewrite E1.
  destruct n2 as [|p|p]; [done| |by destruct H; lia]. destruct (Z.leb_spec e2 (emax - prec)); [|done].
  apply valid_finite. split; [|done]. by apply fits_fexp.
Qed.

Lemma binary_round_valid s m e : valid (binary_round prec emax s m e) = true.
Proof.
  unfold binary_round, shl_align. set (e1 := fexp _). destruct (e1 - e) as [|d|d] eqn:E.
  1,2: apply round_aux_valid; [lia|change (Zdigits2 (Z.pos m)) with (Z.pos (digits2_pos m)); fold e1; lia].
  apply round_aux_valid; [lia|]. rewrite iter_xO, digits2_mul by lia. cbn [Zdigits2].
  replace (Z.pos (digits2_pos m) + Z.pos d + e1) with (Z.pos (digits2_pos m) + e) by lia. done.
Qed.

Lemma normalize_valid m e s : valid (binary_normalize prec emax m e s) = true.
Proof. destruct m; [done|apply binary_round_valid..]. Qed.

(** Rounding leaves a value of the format. *)
Lemma round_same s m e : valid (S754_finite s m e) = true -> binary_round prec emax s m e = S754_finite s m e.
Proof.
  intros [H He]%valid_finite. cbn [Zdigits2] in H. unfold binary_round, shl_align. rewrite H, Z.sub_diag.
  unfold binary_round_aux, shr_fexp. cbn [Zdigits2]. rewrite H, Z.sub_diag. cbn [shr shr_record_of_loc shr_m loc_of_shr_record round_nearest_even Zdigits2].
  rewrite H, Z.sub_diag. cbn [shr shr_record_of_loc shr_m]. by rewrite (proj2 (Z.leb_le _ _) He).
Qed.

Lemma normalize_same s m e : valid (S754_finite s m e) = true -> binary_normalize prec emax (if s then Z.neg m else Z.pos m) e s = S754_finite s m e.
Proof. intros H. by destruct s; apply round_same. Qed.

(** The value of another format in this one. *)
Definition rounded (x : spec_float) : spec_float :=
  match x with
  | S754_finite s m e => binary_normalize prec emax (if s then Z.neg m else Z.pos m) e s
  | x => x
  end.

Lemma rounded_valid x : valid (rounded x) = true.
Proof. destruct x; try done. apply normalize_valid. Qed.

Lemma rounded_finite s m e : rounded (S754_finite s m e) = binary_round prec emax s m e.
Proof. by destruct s. Qed.

Lemma rounded_same x : valid x = true -> rounded x = x.
Proof. destruct x; try done. intros H. rewrite rounded_finite. by apply round_same. Qed.

(** A mantissa of fewer bits fills up, where the exponents reach so far. *)
Lemma round_fills s m e : let a := prec - Zdigits2 (Z.pos m) in 0 <= a -> emin + a <= e -> e - a <= emax - prec ->
  exists m', Z.pos m' = Z.pos m * 2 ^ a /\ binary_round prec emax s m e = S754_finite s m' (e - a).
Proof.
  intros a Ha He Hm. assert (fexp (Zdigits2 (Z.pos m) + e) = e - a) as Ef by (unfold fexp; lia).
  assert (exists m', Z.pos m' = Z.pos m * 2 ^ a /\ shl_align m e (e - a) = (m', e - a)) as (m' & Em & Es).
  { unfold shl_align. destruct (e - a - e) as [|d|d] eqn:Ed; [|lia|].
    - exists m. assert (a = 0) as -> by lia. by rewrite Z.mul_1_r, Z.sub_0_r.
    - eexists. split; [|done]. rewrite iter_xO. do 2 f_equal. lia. }
  exists m'. split; [done|]. unfold binary_round. cbn [Zdigits2] in Ef. rewrite Ef, Es.
  assert (fexp (Zdigits2 (Z.pos m') + (e - a)) = e - a) as Hv by (rewrite Em, digits2_mul by lia; unfold fexp; lia).
  rewrite <- (round_same s m' (e - a)) by (by apply valid_finite). unfold binary_round, shl_align. cbn [Zdigits2] in Hv. by rewrite Hv, Z.sub_diag.
Qed.

(** ** The operations *)

Lemma add_valid x y : valid x = true -> valid y = true -> valid (SFadd prec emax x y) = true.
Proof. intros Hx Hy. destruct x as [[]|[]| |], y as [[]|[]| |]; try done; apply normalize_valid. Qed.

Lemma sub_valid x y : valid x = true -> valid y = true -> valid (SFsub prec emax x y) = true.
Proof. intros Hx Hy. destruct x as [[]|[]| |], y as [[]|[]| |]; try done; apply normalize_valid. Qed.

Lemma mul_valid x y : valid x = true -> valid y = true -> valid (SFmul prec emax x y) = true.
Proof.
  intros Hx Hy. destruct x as [|[]| |sx mx ex], y as [|[]| |sy my ey]; try done.
  apply valid_finite in Hx as [Hx _], Hy as [Hy _]. cbn [SFmul]. apply round_aux_valid; [lia|].
  apply fexp_fits in Hx as (Hx0 & Hx1 & Hx2), Hy as (Hy0 & Hy1 & Hy2); [|lia..].
  change (Z.pos (mx * my)) with (Z.pos mx * Z.pos my). unfold fexp, SpecFloat.emin in *.
  assert (ex = 3 - emax - prec /\ ey = 3 - emax - prec \/ 2 ^ (prec - 1) <= Z.pos mx * Z.pos my) as [[-> ->]|H] by nia; [lia|].
  apply digits2_least in H; lia.
Qed.

(** The exponent that the division picks is fine enough. *)
Lemma quotient_exponent m1 e1 m2 e2 : 0 < m1 -> 0 < m2 ->
  let e := Z.min (fexp (Zdigits2 m1 + e1 - (Zdigits2 m2 + e2))) (e1 - e2) in
  e <= fexp (Zdigits2 (m1 * 2 ^ (e1 - e2 - e) / m2) + e).
Proof.
  intros Hm1 Hm2. set (d1 := Zdigits2 m1). set (d2 := Zdigits2 m2). cbv zeta. set (e := Z.min _ _). set (k := e1 - e2 - e).
  assert (0 <= k) as Hk by lia. pose proof (Z.pow_pos_nonneg 2 k ltac:(lia) Hk). set (q := m1 * 2 ^ k / m2).
  assert (d1 + k - d2 <= Zdigits2 q) as Hd; [|subst e k; unfold fexp in *; lia].
  destruct (Z.le_gt_cases (d1 + k - d2) 0) as [|Hpos]; [pose proof (digits2_nonneg q); lia|]. apply Z.nlt_ge. intros Hlt.
  assert (q < 2 ^ (d1 + k - d2 - 1)) as Hq2 by (apply digits2_bounds; [apply Z.div_pos; nia|lia..]).
  destruct (digits2_at m1 Hm1) as [Hb1 _], (digits2_at m2 Hm2) as [_ Hb2]. fold d1 in Hb1. fold d2 in Hb2.
  assert (2 ^ (d1 - 1) * 2 ^ k = 2 ^ d2 * 2 ^ (d1 + k - d2 - 1)) as Ep.
  { assert (0 <= d2) by apply digits2_nonneg. assert (0 < d1) by (apply digits2_least; lia). rewrite <- !Z.pow_add_r by lia. f_equal. lia. }
  pose proof (Z.div_mod (m1 * 2 ^ k) m2 ltac:(lia)) as E. fold q in E. pose proof (Z.mod_pos_bound (m1 * 2 ^ k) m2 Hm2).
  set (p1 := 2 ^ (d1 - 1)) in *. set (p2 := 2 ^ d2) in *. set (p3 := 2 ^ (d1 + k - d2 - 1)) in *. set (pk := 2 ^ k) in *. nia.
Qed.

Lemma div_core m1 e1 m2 e2 : 0 < m1 -> 0 < m2 ->
  let e := Z.min (fexp (Zdigits2 m1 + e1 - (Zdigits2 m2 + e2))) (e1 - e2) in
  let x := m1 * 2 ^ (e1 - e2 - e) in
  SFdiv_core_binary prec emax m1 e1 m2 e2 = (x / m2, e, new_location m2 (x mod m2)).
Proof.
  intros Hm1 Hm2. unfold SFdiv_core_binary. cbv zeta. set (e := Z.min _ _). set (k := e1 - e2 - e). assert (0 <= k) as Hk by lia.
  assert (match k with Z.pos _ => Z.shiftl m1 k | 0 => m1 | Z.neg _ => 0 end = m1 * 2 ^ k) as ->.
  { destruct k; [lia|by rewrite Z.shiftl_mul_pow2 by lia|lia]. }
  unfold Z.div, Z.modulo. by destruct (Z.div_eucl _ _).
Qed.

Lemma div_valid x y : valid (SFdiv prec emax x y) = true.
Proof.
  destruct x as [|[]| |sx mx ex], y as [|[]| |sy my ey]; try done. cbn [SFdiv]. rewrite div_core by lia.
  apply round_aux_valid; [apply Z.div_pos; [|lia]|by apply quotient_exponent].
  apply Z.mul_nonneg_nonneg; [lia|]. apply Z.pow_nonneg. lia.
Qed.
End Format.

(** ** Bits *)

Section Bits.
Context (mw ew : Z).

#[local] Notation emin := (SpecFloat.emin (mw + 1) (2 ^ (ew - 1))).

(** The value of the bits of a float with a fraction of [mw] bits and an exponent of
    [ew], under the sign. *)
Definition ieee (w : Z) : spec_float :=
  let fraction := w mod 2 ^ mw in
  let exponent := w / 2 ^ mw mod 2 ^ ew in
  let sign := Z.odd (w / 2 ^ (mw + ew)) in
  if exponent =? 2 ^ ew - 1 then if fraction =? 0 then S754_infinity sign else S754_nan
  else let m := if exponent =? 0 then fraction else fraction + 2 ^ mw in
    match m with Z.pos m => S754_finite sign m (Z.max exponent 1 + emin - 1) | _ => S754_zero sign end.

(** The bits of a value; one NaN stands for all. *)
Definition ieee_bits (x : spec_float) : Z :=
  let top (s : bool) := if s then 2 ^ (mw + ew) else 0 in
  match x with
  | S754_zero s => top s
  | S754_infinity s => top s + (2 ^ ew - 1) * 2 ^ mw
  | S754_nan => (2 ^ ew - 1) * 2 ^ mw + 2 ^ (mw - 1)
  | S754_finite s m e => top s + (if Z.pos m <? 2 ^ mw then Z.pos m else (e - emin) * 2 ^ mw + Z.pos m)
  end.

Context (Hmw : 1 <= mw) (Hew : mw + 1 < 2 ^ (ew - 1)) (Hew0 : 1 < ew).

Lemma ieee_parts s e f : 0 <= e < 2 ^ ew -> 0 <= f < 2 ^ mw ->
  let w := (if s : bool then 2 ^ (mw + ew) else 0) + (e * 2 ^ mw + f) in
  in_width (mw + ew + 1) w /\ w mod 2 ^ mw = f /\ w / 2 ^ mw mod 2 ^ ew = e /\ Z.odd (w / 2 ^ (mw + ew)) = s.
Proof.
  intros He Hf w. pose proof (Z.pow_pos_nonneg 2 mw) as Hm. pose proof (Z.pow_pos_nonneg 2 ew) as Hw.
  unfold in_width. subst w. rewrite !Z.pow_add_r by lia. change (2 ^ 1) with 2.
  set (pm := 2 ^ mw) in *. set (pe := 2 ^ ew) in *. split; [destruct s; nia|].
  assert (forall b, 0 <= b <= 1 -> (b * (pm * pe) + (e * pm + f)) mod pm = f /\ (b * (pm * pe) + (e * pm + f)) / pm mod pe = e /\
    (b * (pm * pe) + (e * pm + f)) / (pm * pe) = b) as H.
  { intros b Hb. replace (b * (pm * pe) + (e * pm + f)) with ((b * pe + e) * pm + f) by lia.
    rewrite <- Z.div_div by lia. rewrite Z.add_comm, Z.mod_add, Z.mod_small, Z.div_add, Z.div_small by lia.
    rewrite Z.add_0_l, (Z.add_comm (b * pe)), Z.mod_add, Z.mod_small, Z.div_add, Z.div_small by lia. done. }
  destruct s; [destruct (H 1) as (? & ? & E)|destruct (H 0) as (? & ? & E)]; try lia.
  - rewrite Z.mul_1_l in *. by rewrite E.
  - rewrite Z.mul_0_l in *. by rewrite E.
Qed.

Lemma ieee_of_bits x : valid_binary (mw + 1) (2 ^ (ew - 1)) x = true -> in_width (mw + ew + 1) (ieee_bits x) /\ ieee (ieee_bits x) = x.
Proof.
  pose proof (Z.pow_pos_nonneg 2 mw) as Hm. pose proof (Z.pow_pos_nonneg 2 (mw - 1)) as Hm1.
  assert (2 ^ ew = 2 * 2 ^ (ew - 1)) as Ee by (rewrite <- Z.pow_succ_r by lia; f_equal; lia).
  assert (2 ^ mw = 2 * 2 ^ (mw - 1)) as Em by (rewrite <- Z.pow_succ_r by lia; f_equal; lia).
  intros Hv. destruct x as [s|s| |s m e]; unfold ieee_bits.
  - destruct (ieee_parts s 0 0) as (Hw & E1 & E2 & E3); [lia..|]. rewrite Z.mul_0_l, !Z.add_0_r in *. split; [done|].
    unfold ieee. rewrite E1, E2, E3, (Z.eqb_refl 0). by destruct (Z.eqb_spec 0 (2 ^ ew - 1)); [lia|].
  - destruct (ieee_parts s (2 ^ ew - 1) 0) as (Hw & E1 & E2 & E3); [lia..|]. rewrite !Z.add_0_r in *. split; [done|].
    unfold ieee. by rewrite E1, E2, E3, Z.eqb_refl.
  - destruct (ieee_parts false (2 ^ ew - 1) (2 ^ (mw - 1))) as (Hw & E1 & E2 & E3); [lia..|]. rewrite Z.add_0_l in *. split; [done|].
    unfold ieee. rewrite E1, E2, Z.eqb_refl. by destruct (Z.eqb_spec (2 ^ (mw - 1)) 0); [lia|].
  - apply valid_finite in Hv as [Hf He]. apply fexp_fits in Hf as (Hm2 & He1 & He2); [|lia..].
    rewrite Z.add_simpl_r in He2. unfold emin in *. assert (2 ^ (mw + 1) = 2 * 2 ^ mw) as Em2 by (rewrite <- Z.pow_succ_r by lia; f_equal; lia).
    destruct (Z.ltb_spec (Z.pos m) (2 ^ mw)) as [Hlt|Hge].
    + destruct (ieee_parts s 0 (Z.pos m)) as (Hw & E1 & E2 & E3); [lia..|]. rewrite Z.mul_0_l, Z.add_0_l in *. split; [done|].
      unfold ieee. rewrite E1, E2, E3, (Z.eqb_refl 0). destruct (Z.eqb_spec 0 (2 ^ ew - 1)); [lia|]. f_equal. unfold emin. lia.
    + destruct (ieee_parts s (e - (3 - 2 ^ (ew - 1) - (mw + 1)) + 1) (Z.pos m - 2 ^ mw)) as (Hw & E1 & E2 & E3); [lia..|].
      replace ((e - (3 - 2 ^ (ew - 1) - (mw + 1)) + 1) * 2 ^ mw + (Z.pos m - 2 ^ mw)) with ((e - (3 - 2 ^ (ew - 1) - (mw + 1))) * 2 ^ mw + Z.pos m) in * by lia.
      split; [done|]. unfold ieee. rewrite E1, E2, E3. rewrite !(proj2 (Z.eqb_neq _ _)) by lia. rewrite Z.sub_add. f_equal. unfold emin. lia.
Qed.

(** A word by its parts. *)
Lemma ieee_split w : in_width (mw + ew + 1) w ->
  w = (if Z.odd (w / 2 ^ (mw + ew)) then 2 ^ (mw + ew) else 0) + (w / 2 ^ mw mod 2 ^ ew * 2 ^ mw + w mod 2 ^ mw) /\
  0 <= w / 2 ^ mw mod 2 ^ ew < 2 ^ ew /\ 0 <= w mod 2 ^ mw < 2 ^ mw.
Proof.
  intros [H0 H1]. pose proof (Z.pow_pos_nonneg 2 mw) as Hm. pose proof (Z.pow_pos_nonneg 2 ew) as Hw.
  rewrite !Z.pow_add_r in * by lia. change (2 ^ 1) with 2 in *. set (pm := 2 ^ mw) in *. set (pe := 2 ^ ew) in *.
  split; [|split; apply Z.mod_pos_bound; lia]. rewrite <- Z.div_div by lia.
  pose proof (Z.div_mod w pm ltac:(lia)) as E1. pose proof (Z.div_mod (w / pm) pe ltac:(lia)) as E2.
  assert (0 <= w / pm / pe < 2) as Hb.
  { rewrite Z.div_div by lia. split; [apply Z.div_pos; lia|apply Z.div_lt_upper_bound; lia]. }
  assert (w / pm / pe = 0 \/ w / pm / pe = 1) as [E|E] by lia; rewrite E in *; cbn [Z.odd]; nia.
Qed.

Lemma bits_of_ieee w : in_width (mw + ew + 1) w -> is_nan (ieee w) = false -> ieee_bits (ieee w) = w.
Proof.
  intros Hw. destruct (ieee_split w Hw) as (E & He & Hf). unfold ieee. set (e := w / 2 ^ mw mod 2 ^ ew) in *. set (f := w mod 2 ^ mw) in *.
  set (s := Z.odd _) in *. clearbody e f s. subst w. destruct (Z.eqb_spec e (2 ^ ew - 1)) as [->|Hne].
  - destruct (Z.eqb_spec f 0) as [->|]; [|done]. intros _. cbn [ieee_bits]. lia.
  - intros _. cbv zeta. destruct (Z.eqb_spec e 0) as [->|Hz].
    + destruct f as [|p|p]; [..|lia]; cbn [ieee_bits]; [lia|]. destruct (Z.ltb_spec (Z.pos p) (2 ^ mw)); lia.
    + destruct (f + 2 ^ mw) as [|p|p] eqn:Ep; try lia. cbn [ieee_bits]. destruct (Z.ltb_spec (Z.pos p) (2 ^ mw)); [lia|].
      rewrite <- Ep, Z.max_l by lia. lia.
Qed.

Lemma ieee_valid w : in_width (mw + ew + 1) w -> valid_binary (mw + 1) (2 ^ (ew - 1)) (ieee w) = true.
Proof.
  intros Hw. destruct (ieee_split w Hw) as (_ & He & Hf). unfold ieee. set (e := w / 2 ^ mw mod 2 ^ ew) in *. set (f := w mod 2 ^ mw) in *.
  clearbody e f. destruct (Z.eqb_spec e (2 ^ ew - 1)) as [->|Hne]; [by destruct (f =? 0)|].
  assert (2 ^ ew = 2 * 2 ^ (ew - 1)) as Ee by (rewrite <- Z.pow_succ_r by lia; f_equal; lia).
  assert (2 ^ (mw + 1) = 2 * 2 ^ mw) as Em2 by (rewrite <- Z.pow_succ_r by lia; f_equal; lia).
  set (m := if e =? 0 then f else f + 2 ^ mw). cbv zeta. destruct m as [|p|p] eqn:Em; [done| |done].
  apply valid_finite. split; [|unfold emin; lia]. apply (fits_fexp (mw + 1) (2 ^ (ew - 1))); [lia| |lia]. unfold fits. rewrite <- Em, Z.add_simpl_r.
  subst m. destruct (Z.eqb_spec e 0) as [->|]; split_and!; lia.
Qed.
End Bits.

(** ** Between formats

    The bits of a float of one format in another: the nearest value, and a NaN keeps its
    sign and the top of its payload and gets quiet. *)
Definition convert (mw ew mw' ew' w : Z) : Z :=
  if is_nan (ieee mw ew w) then
    (if Z.odd (w / 2 ^ (mw + ew)) then 2 ^ (mw' + ew') else 0) + (2 ^ ew' - 1) * 2 ^ mw' + 2 ^ (mw' - 1) +
    w mod 2 ^ (mw - 1) * 2 ^ mw' / 2 ^ mw
  else ieee_bits mw' ew' (rounded (mw' + 1) (2 ^ (ew' - 1)) (ieee mw ew w)).

Lemma convert_width mw ew mw' ew' w : 1 <= mw' -> 1 < ew' -> mw' + 1 < 2 ^ (ew' - 1) -> 1 <= mw -> in_width (mw' + ew' + 1) (convert mw ew mw' ew' w).
Proof.
  intros Hm He Hx Hmw. unfold convert. destruct (is_nan _).
  - pose proof (Z.mod_pos_bound w (2 ^ (mw - 1)) ltac:(apply Z.pow_pos_nonneg; lia)) as Hp.
    assert (2 ^ mw' = 2 * 2 ^ (mw' - 1)) as Em' by (rewrite <- Z.pow_succ_r by lia; f_equal; lia).
    assert (2 ^ mw = 2 * 2 ^ (mw - 1)) as Em by (rewrite <- Z.pow_succ_r by lia; f_equal; lia).
    pose proof (Z.pow_pos_nonneg 2 (mw' - 1) ltac:(lia) ltac:(lia)). pose proof (Z.pow_pos_nonneg 2 ew' ltac:(lia) ltac:(lia)).
    set (s := Z.odd _). clearbody s. unfold in_width. rewrite !Z.pow_add_r by lia. change (2 ^ 1) with 2.
    set (p := w mod 2 ^ (mw - 1)) in *. set (a := 2 ^ (mw - 1)) in *. set (b := 2 ^ (mw' - 1)) in *. set (c := 2 ^ ew') in *.
    assert (0 <= p * 2 ^ mw' / 2 ^ mw < b) as Hq.
    { rewrite Em, Em'. split; [apply Z.div_pos; nia|apply Z.div_lt_upper_bound; nia]. }
    set (q := p * 2 ^ mw' / 2 ^ mw) in *. rewrite Em'. clearbody q a b c p. destruct s; nia.
  - apply ieee_of_bits; [lia..|]. apply rounded_valid. lia.
Qed.

(** The formats of a half, a float and a double. *)
Notation half := (ieee 10 5).
Notation single := (ieee 23 8).
Notation double := (ieee 52 11).
Notation half_bits := (ieee_bits 10 5).
Notation single_bits := (ieee_bits 23 8).
Notation double_bits := (ieee_bits 52 11).

Example double_1 : double 0x3ff0000000000000 = S754_finite false (2 ^ 52) (-52).
Proof. reflexivity. Qed.

Example single_of_third : convert 52 11 23 8 0x3fd5555555555555 = 0x3eaaaaab.
Proof. vm_compute. reflexivity. Qed.

Example single_of_nan : convert 52 11 23 8 0xfff4000020000001 = 0xffe00001.
Proof. vm_compute. reflexivity. Qed.
