(* ===== verification/FloatDivide.v ===== *)
(** * FloatDivide: a quotient rounded twice

    What rounding gives for a positive rational, and with it the reason that the comment
    of fold_float in src/antic/optimize.c gives for the quotient of two floats: computed
    as doubles and rounded to a float it is the quotient of the floats. *)

From Stdlib Require Import Floats.SpecFloat.
From S2P Require Import Prelude Double FloatBits.

(** ** The integer nearest to a rational, a tie to the even one *)

Definition nearest (x u : Z) : Z :=
  match 2 * (x mod u) ?= u with
  | Lt => x / u
  | Gt => x / u + 1
  | Eq => if Z.even (x / u) then x / u else x / u + 1
  end.

Lemma compare_scaled a b c : 0 < c -> (a * c ?= b * c) = (a ?= b).
Proof. intros Hc. destruct (Z.compare_spec a b), (Z.compare_spec (a * c) (b * c)); nia || done. Qed.

Lemma compare_shifted a b c d : a - b = c - d -> (a ?= b) = (c ?= d).
Proof. intros E. destruct (Z.compare_spec a b), (Z.compare_spec c d); lia || done. Qed.

Lemma nearest_scale x u c : 0 < u -> 0 < c -> nearest (x * c) (u * c) = nearest x u.
Proof.
  intros Hu Hc. unfold nearest. rewrite Z.div_mul_cancel_r, Z.mul_mod_distr_r by lia.
  replace (2 * (x mod u * c)) with (2 * (x mod u) * c) by lia.
  rewrite compare_scaled by done. done.
Qed.

(** The nearest integer by an integer below and what is left. *)
Lemma nearest_at x u q r : 0 < u -> x = q * u + r -> 0 <= r < u ->
  nearest x u = match 2 * r ?= u with Lt => q | Gt => q + 1 | Eq => if Z.even q then q else q + 1 end.
Proof.
  intros Hu E Hr. unfold nearest. assert (x / u = q) as -> by (symmetry; apply (Z.div_unique_pos x u q r); lia).
  assert (x mod u = r) as -> by (symmetry; apply (Z.mod_unique_pos x u q r); lia). done.
Qed.

Lemma nearest_exact q u : 0 < u -> nearest (q * u) u = q.
Proof. intros Hu. rewrite (nearest_at _ u q 0) by lia. by destruct (Z.compare_spec (2 * 0) u); [lia| |lia]. Qed.

(** What half units a rational lies between decides. *)
Lemma nearest_halves x u y v : 0 < u -> 0 < v -> 0 <= x -> 0 <= y ->
  (forall t, (2 * x ?= t * u) = (2 * y ?= t * v)) -> nearest x u = nearest y v.
Proof.
  intros Hu Hv Hx Hy H. pose proof (Z.div_mod x u ltac:(lia)) as Ex. pose proof (Z.mod_pos_bound x u ltac:(lia)) as Bx.
  set (q := x / u) in *. set (r := x mod u) in *. rewrite (nearest_at x u q r) by lia.
  assert (Hq : q * v <= y < (q + 1) * v).
  { pose proof (H (2 * q)) as H1. pose proof (H (2 * (q + 1))) as H2.
    destruct (Z.compare_spec (2 * x) (2 * q * u)), (Z.compare_spec (2 * x) (2 * (q + 1) * u)); try nia;
      (destruct (Z.compare_spec (2 * y) (2 * q * v)); try discriminate H1);
      (destruct (Z.compare_spec (2 * y) (2 * (q + 1) * v)); try discriminate H2); nia. }
  rewrite (nearest_at y v q (y - q * v)) by lia. pose proof (H (2 * q + 1)) as H1.
  rewrite (compare_shifted _ _ (2 * r) u) in H1 by lia. rewrite H1. by rewrite (compare_shifted _ _ (2 * (y - q * v)) v) by lia.
Qed.

(** ** The quotient of two integers, with what rounding keeps of the rest *)

(** The record [r] is [x] in units of [u], with its next bit and whether more is set. *)
Definition located (x u : Z) (r : shr_record) : Prop :=
  let rest := x - shr_m r * u in
  0 <= shr_m r /\ 0 < u /\
  match shr_r r, shr_s r with
  | false, false => rest = 0
  | false, true => 0 < 2 * rest < u
  | true, false => 2 * rest = u
  | true, true => u < 2 * rest /\ rest < u
  end.

Lemma located_step x u r : located x u r -> located x (u * 2) (shr_1 r).
Proof.
  unfold located. destruct r as [m r s]. cbn [shr_m shr_r shr_s]. intros (Hm & Hk & H).
  destruct m as [|[p|p|]|p], r, s; cbn [shr_1 orb shr_m shr_r shr_s] in *; split_and!; lia.
Qed.

Lemma located_shift x u n r : located x u r -> located x (u * 2 ^ Z.pos n) (SpecFloat.iter_pos shr_1 n r).
Proof.
  revert u r. induction n as [n IH|n IH|]; intros u r H; cbn [SpecFloat.iter_pos].
  - replace (u * 2 ^ Z.pos n~1) with (u * 2 * 2 ^ Z.pos n * 2 ^ Z.pos n); [by apply IH, IH, located_step|].
    replace (Z.pos n~1) with (1 + Z.pos n + Z.pos n) by lia. rewrite !Z.pow_add_r by lia. lia.
  - replace (u * 2 ^ Z.pos n~0) with (u * 2 ^ Z.pos n * 2 ^ Z.pos n); [by apply IH, IH|].
    replace (Z.pos n~0) with (Z.pos n + Z.pos n) by lia. rewrite !Z.pow_add_r by lia. lia.
  - by apply located_step.
Qed.

Lemma located_nearest x u r : located x u r -> round_nearest_even (shr_m r) (loc_of_shr_record r) = nearest x u.
Proof.
  unfold located. destruct r as [m r s]. cbn [shr_m shr_r shr_s]. intros (Hm & Hu & H).
  rewrite (nearest_at x u m (x - m * u)) by (destruct r, s; lia).
  destruct r, s; cbn; destruct (Z.compare_spec (2 * (x - m * u)) u); try lia; done.
Qed.

Lemma located_div x u : 0 <= x -> 0 < u -> located x u (shr_record_of_loc (x / u) (new_location u (x mod u))).
Proof.
  intros Hx Hu. pose proof (Z.mod_pos_bound x u Hu) as Hr. pose proof (Z.div_mod x u ltac:(lia)) as E.
  assert (0 <= x / u) by (apply Z.div_pos; lia). set (q := x / u) in *. set (r := x mod u) in *. clearbody q r.
  unfold located. rewrite shr_of_loc. split; [done|]. split; [done|].
  assert (new_location u r = if r =? 0 then loc_Exact
    else if Z.even u then loc_Inexact (2 * r ?= u) else loc_Inexact match 2 * r + 1 ?= u with Gt => Gt | _ => Lt end) as ->.
  { unfold new_location, new_location_even, new_location_odd. change IntDef.Z.eqb with Z.eqb. by destruct (Z.even u), (r =? 0). }
  destruct (Z.eqb_spec r 0) as [->|Hz]; [cbn [shr_record_of_loc shr_m shr_r shr_s]; lia|]. destruct (Z.even u) eqn:Ev.
  - destruct (Z.compare_spec (2 * r) u); cbn [shr_record_of_loc shr_m shr_r shr_s]; lia.
  - assert (2 * r <> u) by (intros <-; by rewrite Z.even_mul in Ev).
    destruct (Z.compare_spec (2 * r + 1) u); cbn [shr_record_of_loc shr_m shr_r shr_s]; lia.
Qed.

(** ** Rounding *)

Section Rounding.
Context (prec emax : Z) (Hprec : 1 < prec) (Hemax : prec < emax).

#[local] Notation emin := (SpecFloat.emin prec emax).
#[local] Notation fexp := (SpecFloat.fexp prec emax).

(** The value of [n] units of [2 ^ e], where [n] is at most [2 ^ prec]. *)
Definition value_at (s : bool) (n e : Z) : spec_float :=
  if n =? 0 then S754_zero s
  else let '(n, e) := if n =? 2 ^ prec then (2 ^ (prec - 1), e + 1) else (n, e) in
    if e <=? emax - prec then S754_finite s (Z.to_pos n) e else S754_infinity s.

(** [x / u] in units of [2 ^ f], rounded: the digits of the quotient say where. *)
Definition round_rat (s : bool) (x u f : Z) : spec_float :=
  let e := fexp (Zdigits2 (x / u) + f) in value_at s (nearest x (u * 2 ^ (e - f))) e.

Lemma round_located s x u m e l :
  located x u (shr_record_of_loc m l) -> e <= fexp (Zdigits2 m + e) -> binary_round_aux prec emax s m e l = round_rat s x u e.
Proof.
  intros Hl He. assert (0 <= m) as Hm by (destruct Hl as [H _]; by rewrite shr_of_loc in H).
  assert (x / u = m) as Eq.
  { destruct Hl as (_ & Hu & H). rewrite shr_of_loc in H. symmetry. apply (Z.div_unique_pos x u m (x - m * u)); [|lia].
    destruct (shr_r _), (shr_s _); lia. }
  destruct (shr_fexp_fits prec emax Hprec m e l Hm He) as [Hf Ee]. unfold binary_round_aux, round_rat. rewrite Eq.
  assert (located x (u * 2 ^ (fexp (Zdigits2 m + e) - e)) (shr_fexp prec emax m e l).1) as Hr.
  { unfold shr_fexp. destruct (fexp (Zdigits2 m + e) - e) as [|k|k] eqn:Ek; [|by apply located_shift|lia].
    cbn [shr fst]. by rewrite Z.pow_0_r, Z.mul_1_r. }
  destruct (shr_fexp prec emax m e l) as [r e1]. cbn [fst snd] in *. rewrite <- Ee in *. pose proof (located_nearest _ _ _ Hr) as ->.
  assert (shr_m r <= nearest x (u * 2 ^ (e1 - e)) <= shr_m r + 1) as Hn.
  { rewrite <- (located_nearest _ _ _ Hr). apply round_between. }
  set (n := nearest _ _) in *. clearbody n. destruct Hf as (Hm1 & He1 & Hm2). unfold value_at.
  assert (n = 2 ^ prec \/ fits prec emax n e1) as [-> |Hfit] by (unfold fits; lia).
  - pose proof (Z.pow_pos_nonneg 2 prec ltac:(lia) ltac:(lia)) as Hp. rewrite (proj2 (Z.eqb_neq _ _)), Z.eqb_refl by lia.
    unfold shr_fexp. assert (fexp (Zdigits2 (2 ^ prec) + e1) - e1 = 1) as ->.
    { pose proof (digits2_mul 1 prec ltac:(lia) ltac:(lia)) as Hd. rewrite Z.mul_1_l in Hd. rewrite Hd. unfold fexp. cbn [Zdigits2 digits2_pos]. lia. }
    change (shr (shr_record_of_loc (2 ^ prec) loc_Exact) e1 1) with (SpecFloat.iter_pos shr_1 1 (shr_record_of_loc (2 ^ prec) loc_Exact), e1 + 1).
    cbv zeta match. rewrite iter_shr_m by (cbn [shr_record_of_loc shr_m]; lia). cbn [shr_record_of_loc shr_m].
    replace (2 ^ prec / 2 ^ 1) with (2 ^ (prec - 1)) by (rewrite <- Z.pow_sub_r by lia; done).
    pose proof (Z.pow_pos_nonneg 2 (prec - 1) ltac:(lia) ltac:(lia)). by destruct (2 ^ (prec - 1)).
  - unfold shr_fexp. assert (fexp (Zdigits2 n + e1) = e1) as ->.
    { destruct (Z.eq_dec n 0) as [->|]; [by apply fits_fexp_0|by apply fits_fexp]. }
    rewrite Z.sub_diag. cbn [shr shr_record_of_loc shr_m]. destruct Hfit as [Hb _].
    rewrite (proj2 (Z.eqb_neq n (2 ^ prec))) by lia. by destruct n as [|p|p]; [| |lia].
Qed.

Lemma quotient_digits x u d : 0 <= x -> 0 < u -> 0 <= d -> 0 < x / u -> Zdigits2 (x * 2 ^ d / u) = Zdigits2 (x / u) + d.
Proof.
  intros Hx Hu Hd Hq. pose proof (Z.pow_pos_nonneg 2 d ltac:(lia) Hd) as Hp. destruct (digits2_at _ Hq) as [H1 H2].
  assert (0 < Zdigits2 (x / u)) as Hpos by (pose proof (digits2_least (x / u) 0); lia).
  pose proof (Z.div_mod x u ltac:(lia)) as E. pose proof (Z.mod_pos_bound x u Hu) as B.
  assert (u * 2 ^ (Zdigits2 (x / u) - 1) <= x < u * 2 ^ Zdigits2 (x / u)) as [L U] by nia.
  assert (Zdigits2 (x * 2 ^ d / u) <= Zdigits2 (x / u) + d).
  { apply digits2_bounds; [apply Z.div_pos; nia|lia|]. apply Z.div_lt_upper_bound; [done|]. rewrite Z.pow_add_r by lia. nia. }
  assert (Zdigits2 (x / u) - 1 + d < Zdigits2 (x * 2 ^ d / u)); [|lia].
  apply digits2_least; [lia|]. apply Z.div_le_lower_bound; [done|]. rewrite Z.pow_add_r by lia. nia.
Qed.

Lemma fexp_least e : e <= emin -> fexp e = emin.
Proof. unfold fexp. lia. Qed.

(** A finer unit changes nothing. *)
Lemma round_finer s x u f d : 0 <= x -> 0 < u -> 0 <= d -> f <= fexp (Zdigits2 (x / u) + f) ->
  round_rat s (x * 2 ^ d) u (f - d) = round_rat s x u f.
Proof.
  intros Hx Hu Hd Hf. pose proof (Z.pow_pos_nonneg 2 d ltac:(lia) Hd) as Hp. unfold round_rat.
  assert (fexp (Zdigits2 (x * 2 ^ d / u) + (f - d)) = fexp (Zdigits2 (x / u) + f)) as ->.
  { assert (0 <= x / u) by (apply Z.div_pos; lia). destruct (Z.eq_dec (x / u) 0) as [E|].
    - rewrite E in *. cbn [Zdigits2] in *. assert (f <= emin) as Hle by (unfold fexp in Hf; lia).
      rewrite !fexp_least; [done|lia|]. assert (Zdigits2 (x * 2 ^ d / u) <= d); [|lia].
      apply digits2_bounds; [apply Z.div_pos; nia|lia|]. apply Z.div_lt_upper_bound; [done|].
      apply Z.div_small_iff in E; [|lia]. nia.
    - rewrite quotient_digits by lia. f_equal. lia. }
  set (e := fexp _) in *. f_equal. replace (e - (f - d)) with (e - f + d) by lia.
  rewrite Z.pow_add_r, Z.mul_assoc, nearest_scale; [done|apply Z.mul_pos_pos; [done|apply Z.pow_pos_nonneg; lia]|done|lia|done].
Qed.

Lemma round_scaled s x u f c : 0 < u -> 0 < c -> f <= fexp (Zdigits2 (x / u) + f) -> round_rat s (x * c) (u * c) f = round_rat s x u f.
Proof.
  intros Hu Hc Hf. unfold round_rat. rewrite Z.div_mul_cancel_r by lia. set (e := fexp _) in *. f_equal.
  replace (u * c * 2 ^ (e - f)) with (u * 2 ^ (e - f) * c) by lia.
  apply nearest_scale; [apply Z.mul_pos_pos; [done|apply Z.pow_pos_nonneg; lia]|done].
Qed.

(** ** Quotients and integers *)

Lemma div_round sx mx ex sy my ey f : f <= Z.min emin (ex - ey) ->
  SFdiv prec emax (S754_finite sx mx ex) (S754_finite sy my ey) = round_rat (xorb sx sy) (Z.pos mx * 2 ^ (ex - ey - f)) (Z.pos my) f.
Proof.
  intros Hf. cbn [SFdiv]. rewrite div_core by lia. pose proof (quotient_exponent prec emax Hprec (Z.pos mx) ex (Z.pos my) ey ltac:(lia) ltac:(lia)) as He.
  cbv zeta in He. set (e := Z.min (fexp _) _) in *. assert (f <= e) as Hfe by (subst e; unfold fexp in *; lia).
  pose proof (Z.pow_pos_nonneg 2 (ex - ey - e) ltac:(lia) ltac:(lia)) as Hp.
  rewrite (round_located (xorb sx sy) (Z.pos mx * 2 ^ (ex - ey - e)) (Z.pos my)) by (done || apply located_div; lia).
  rewrite <- (round_finer _ _ _ e (e - f)) by (done || lia). f_equal; [|lia]. rewrite <- Z.mul_assoc, <- Z.pow_add_r by lia. do 2 f_equal. lia.
Qed.

Lemma round_round s m e : e <= fexp (Zdigits2 (Z.pos m) + e) -> binary_round prec emax s m e = round_rat s (Z.pos m) 1 e.
Proof.
  intros He. unfold binary_round, shl_align. cbn [Zdigits2] in He. destruct (fexp _ - e) as [|d|d] eqn:Ed; [| |lia].
  1,2: apply round_located; [unfold located; cbn [shr_record_of_loc shr_m shr_r shr_s]; lia|cbn [Zdigits2]; lia].
Qed.
End Rounding.

(** ** Twice *)

(** Between two neighbours of the coarse rounding lie so many of the fine one that a
    quotient of small integers is as far from a half as its fine rounding. *)
Lemma nearest_twice a b d i w : 0 < a < 2 ^ 24 -> 0 < b < 2 ^ 24 -> 0 <= i -> i + 29 <= d -> 29 <= w ->
  let n := nearest (a * 2 ^ d) (b * 2 ^ (i + 1)) in
  nearest (a * 2 ^ d) (b * 2 ^ (i + 1 + w)) = nearest n (2 ^ w).
Proof.
  intros Ha Hb Hi Hd Hw n. set (x := a * 2 ^ d) in *. set (u := b * 2 ^ (i + 1)) in *.
  pose proof (Z.pow_pos_nonneg 2 i ltac:(lia) Hi) as Pi. assert (2 ^ (i + 1) = 2 * 2 ^ i) as Ei by (rewrite <- Z.pow_succ_r by lia; done).
  assert (0 < u) as Hu by nia. assert (0 <= x) as Hx by (subst x; pose proof (Z.pow_nonneg 2 d); nia).
  pose proof (Z.pow_pos_nonneg 2 w ltac:(lia) ltac:(lia)) as Pw.
  assert (forall t, (2 * x ?= t * 2 ^ w * u) = (2 * n ?= t * 2 ^ w)) as H.
  { intros t. pose proof (Z.div_mod x u ltac:(lia)) as E. pose proof (Z.mod_pos_bound x u Hu) as B.
    (* Both sides are multiples of 2 ^ (i + 29). *)
    assert (exists k, x - t * 2 ^ (w - 1) * u = k * 2 ^ (i + 29)) as [k Hk].
    { exists (a * 2 ^ (d - i - 29) - t * 2 ^ (w - 29) * b). subst x u. rewrite Z.mul_sub_distr_r. f_equal.
      - rewrite <- Z.mul_assoc, <- Z.pow_add_r by lia. do 2 f_equal. lia.
      - replace (t * 2 ^ (w - 1) * (b * 2 ^ (i + 1))) with (t * b * (2 ^ (w - 1) * 2 ^ (i + 1))) by lia.
        replace (t * 2 ^ (w - 29) * b * 2 ^ (i + 29)) with (t * b * (2 ^ (w - 29) * 2 ^ (i + 29))) by lia.
        rewrite <- !Z.pow_add_r by lia. do 2 f_equal. lia. }
    assert (2 ^ (i + 29) = 2 ^ 29 * 2 ^ i) as Ek by (rewrite <- Z.pow_add_r by lia; f_equal; lia).
    assert (2 ^ w = 2 * 2 ^ (w - 1)) as Ew by (rewrite <- Z.pow_succ_r by lia; f_equal; lia).
    change (2 ^ 24) with 16777216 in *. change (2 ^ 29) with 536870912 in *. set (p := 2 ^ (w - 1)) in *. rewrite Ew.
    assert (k = 0 \/ u < 2 * (x - t * p * u) \/ u < 2 * (t * p * u - x)) as Hgap by (destruct (Z.lt_total k 0) as [|[|]]; nia).
    assert (nearest x u = n) as En by done. unfold nearest in En. set (q := x / u) in *. set (r := x mod u) in *. clearbody q r n p x u.
    assert (2 * r < u /\ n = q \/ u < 2 * r /\ n = q + 1 \/ 2 * r = u /\ (n = q \/ n = q + 1)) as Hn.
    { destruct (Z.compare_spec (2 * r) u); [destruct (Z.even q)| |]; lia. }
    destruct Hgap as [-> |Hgap].
    - destruct (Z.div_mod_unique u q (t * p) r 0) as [-> ->]; [by left|left; lia|lia|]. assert (n = t * p) as -> by lia. rewrite !(proj2 (Z.compare_eq_iff _ _)) by lia. done.
    - destruct (Z.compare_spec (2 * x) (t * (2 * p) * u)), (Z.compare_spec (2 * n) (t * (2 * p))); try done; exfalso; nia. }
  replace (b * 2 ^ (i + 1 + w)) with (u * 2 ^ w) by (subst u; rewrite (Z.pow_add_r 2 (i + 1)) by lia; lia).
  apply nearest_halves; try done; [nia| |].
  - subst n. unfold nearest. assert (0 <= x / u) by (apply Z.div_pos; lia). destruct (_ ?= _); [destruct (Z.even _)| |]; lia.
  - intros t. rewrite Z.mul_assoc, (Z.mul_shuffle0 t u). apply H.
Qed.

#[local] Notation f := (-2000).

(** A mantissa of a float. *)
Lemma single_fits s m e : valid_binary 24 128 (S754_finite s m e) = true -> 0 < Z.pos m < 2 ^ 24 /\ -149 <= e <= 104.
Proof.
  intros [H He]%valid_finite. apply fexp_fits in H as ([_ Hm] & H & _); [|lia..]. change (emin 24 128) with (-149) in H. lia.
Qed.

Lemma single_fills s m e : valid_binary 24 128 (S754_finite s m e) = true ->
  exists m' a, 0 <= a <= 52 /\ Z.pos m' = Z.pos m * 2 ^ a /\ rounded 53 1024 (S754_finite s m e) = S754_finite s m' (e - a).
Proof.
  intros H. destruct (single_fits s m e H) as [Hm He].
  assert (0 < Zdigits2 (Z.pos m) <= 24) as Hd by (split; [apply digits2_least; lia|apply digits2_bounds; lia]).
  destruct (round_fills 53 1024 s m e) as (m' & Em & E); [lia|change (emin 53 1024) with (-1074); lia|lia|].
  exists m', (53 - Zdigits2 (Z.pos m)). rewrite rounded_finite. split; [lia|]. by split.
Qed.

Lemma nearest_bounds x u : x / u <= nearest x u <= x / u + 1.
Proof. unfold nearest. destruct (_ ?= _); [destruct (Z.even _)| |]; lia. Qed.

Section Twice.
Context (a b d : Z) (Ha : 0 < a < 16777216) (Hb : 0 < b < 16777216) (Hd : 1700 <= d <= 2300).

#[local] Notation x := (a * 2 ^ d).

Lemma quotient_range : d - 23 <= Zdigits2 (x / b) <= d + 24.
Proof.
  pose proof (Z.pow_pos_nonneg 2 (d - 24) ltac:(lia) ltac:(lia)) as Hp.
  assert (2 ^ d = 16777216 * 2 ^ (d - 24)) as Ed by (change 16777216 with (2 ^ 24); rewrite <- Z.pow_add_r by lia; f_equal; lia).
  assert (2 ^ (d - 24) <= x / b) as Hl by (apply Z.div_le_lower_bound; nia).
  assert (0 <= x / b) by lia. apply digits2_least in Hl; [|lia]. split; [lia|]. apply digits2_bounds; [lia|lia|].
  apply Z.div_lt_upper_bound; [lia|]. rewrite (Z.pow_add_r 2 d 24) by lia. change (2 ^ 24) with 16777216. nia.
Qed.

(** The quotient as a double. *)
Lemma double_quotient s : let e := Zdigits2 (x / b) + f - 53 in
  exists n, n = nearest x (b * 2 ^ (e - f)) /\ 2 ^ 52 <= n <= 2 ^ 53 /\ round_rat 53 1024 s x b f = value_at 53 1024 s n e /\ -400 <= e <= 400.
Proof.
  intros e. pose proof quotient_range as Hq. set (q := x / b) in *. exists (nearest x (b * 2 ^ (e - f))). split; [done|]. split.
  - pose proof (nearest_bounds x (b * 2 ^ (e - f))) as Hn. set (n := nearest _ _) in *. clearbody n.
    rewrite <- Z.div_div in Hn by (try apply Z.pow_nonzero; lia). fold q in Hn.
    destruct (digits2_at q) as [H1 H2]; [apply Z.lt_le_trans with (2 ^ (d - 24)); [apply Z.pow_pos_nonneg; lia|]|].
    { subst q. apply Z.div_le_lower_bound; [lia|]. assert (2 ^ d = 16777216 * 2 ^ (d - 24)) as -> by (change 16777216 with (2 ^ 24); rewrite <- Z.pow_add_r by lia; f_equal; lia).
      pose proof (Z.pow_pos_nonneg 2 (d - 24)). nia. }
    replace (e - f) with (Zdigits2 q - 53) in Hn by lia. set (k := Zdigits2 q - 53) in *.
    pose proof (Z.pow_pos_nonneg 2 k ltac:(lia) ltac:(lia)) as Hk.
    assert (2 ^ 52 <= q / 2 ^ k) by (apply Z.div_le_lower_bound; [lia|]; rewrite <- Z.pow_add_r by lia; by replace (k + 52) with (Zdigits2 q - 1) by lia).
    assert (q / 2 ^ k < 2 ^ 53) by (apply Z.div_lt_upper_bound; [lia|]; rewrite <- Z.pow_add_r by lia; by replace (k + 53) with (Zdigits2 q) by lia).
    lia.
  - split; [|lia]. unfold round_rat. fold q. assert (fexp 53 1024 (Zdigits2 q + f) = e) as ->; [|done].
    unfold fexp. change (emin 53 1024) with (-1074). lia.
Qed.

(** [n] units of [2 ^ e], as a double, as a float. *)
Lemma single_of_double s n e : 2 ^ 52 <= n <= 2 ^ 53 -> -400 <= e <= 400 -> rounded 24 128 (value_at 53 1024 s n e) = round_rat 24 128 s n 1 e.
Proof.
  intros Hn He. unfold value_at. rewrite (proj2 (Z.eqb_neq n 0)) by lia.
  assert (forall m k, 2 ^ 52 <= m < 2 ^ 53 -> k <= 971 -> rounded 24 128 (if k <=? 1024 - 53 then S754_finite s (Z.to_pos m) k else S754_infinity s) = round_rat 24 128 s m 1 k) as H.
  { intros m k Hm Hk. rewrite (proj2 (Z.leb_le k _)), rounded_finite by lia.
    rewrite (round_round 24 128) by (try (rewrite Z2Pos.id by lia; pose proof (digits2_least m 52 ltac:(lia) ltac:(lia)); unfold fexp); lia).
    by rewrite Z2Pos.id by lia. }
  destruct (Z.eqb_spec n (2 ^ 53)) as [->|Hne]; [|apply H; lia]. change (53 - 1) with 52. rewrite H by lia.
  rewrite <- (round_finer 24 128 ltac:(lia) s (2 ^ 52) 1 (e + 1) 1); [f_equal; lia|lia..|].
  rewrite Z.div_1_r. change (Zdigits2 (2 ^ 52)) with 53. unfold fexp. lia.
Qed.

Lemma rounded_twice s : rounded 24 128 (round_rat 53 1024 s x b f) = round_rat 24 128 s x b f.
Proof.
  pose proof quotient_range as Hq. destruct (double_quotient s) as (n & En & Hn & -> & He). set (e := Zdigits2 (x / b) + f - 53) in *.
  rewrite single_of_double by done. unfold round_rat. rewrite Z.div_1_r, Z.mul_1_l.
  set (e3 := fexp 24 128 (Zdigits2 (x / b) + f)). assert (e + 29 <= e3) as He3 by (unfold e3, fexp; lia).
  pose proof (nearest_twice a b d (e - f - 1) (e3 - e) Ha Hb ltac:(lia) ltac:(lia) ltac:(lia)) as H. cbv zeta in H.
  rewrite Z.sub_add, <- En in H. replace (e - f + (e3 - e)) with (e3 - f) in H by lia. rewrite H.
  destruct (Z.eq_dec n (2 ^ 53)) as [->|Hne].
  - change (Zdigits2 (2 ^ 53)) with 54. set (e2 := fexp 24 128 (54 + e)).
    assert (e2 = e3 \/ e3 = e + 29 /\ e2 = e + 30) as [->|[-> ->]] by (subst e2 e3 e; unfold fexp; change (emin 24 128) with (-149); lia); [done|].
    replace (e + 30 - e) with 30 by lia. replace (e + 29 - e) with 29 by lia. change (nearest (2 ^ 53) (2 ^ 30)) with (2 ^ 23).
    change (nearest (2 ^ 53) (2 ^ 29)) with (2 ^ 24). unfold value_at. change (2 ^ 23 =? 0) with false. change (2 ^ 24 =? 0) with false.
    change (2 ^ 23 =? 2 ^ 24) with false. rewrite Z.eqb_refl. change (24 - 1) with 23. by replace (e + 29 + 1) with (e + 30) by lia.
  - assert (Zdigits2 n = 53) as ->; [|by replace (53 + e) with (Zdigits2 (x / b) + f) by lia].
    pose proof (digits2_least n 52 ltac:(lia) ltac:(lia)). assert (Zdigits2 n <= 53); [|lia]. apply digits2_bounds; lia.
Qed.
End Twice.

(** A quotient of two floats computed in double and rounded to float is the float
    quotient, at every pair of floats. *)
Lemma single_quotient x y : valid_binary 24 128 x = true -> valid_binary 24 128 y = true ->
  rounded 24 128 (SFdiv 53 1024 (rounded 53 1024 x) (rounded 53 1024 y)) = SFdiv 24 128 x y.
Proof.
  assert (forall s m e, valid_binary 24 128 (S754_finite s m e) = true -> exists m' e', rounded 53 1024 (S754_finite s m e) = S754_finite s m' e') as Hfin.
  { intros s m e H. destruct (single_fills s m e H) as (m' & a & _ & _ & E). by eexists _, _. }
  intros Hx Hy. destruct x as [|[]| |sx mx ex], y as [|[]| |sy my ey]; try done;
    try solve [destruct (Hfin _ _ _ Hx) as (? & ? & ->); done|destruct (Hfin _ _ _ Hy) as (? & ? & ->); done].
  clear Hfin. destruct (single_fits _ _ _ Hx) as [Bx Ex], (single_fits _ _ _ Hy) as [By Ey].
  destruct (single_fills _ _ _ Hx) as (mx' & a & Ha & Emx & ->), (single_fills _ _ _ Hy) as (my' & b & Hb & Emy & ->).
  rewrite (div_round 24 128 ltac:(lia) _ _ _ _ _ _ f) by (change (emin 24 128) with (-149); lia).
  rewrite (div_round 53 1024 ltac:(lia) _ _ _ _ _ _ f) by (change (emin 53 1024) with (-1074); lia). rewrite Emx, Emy.
  replace (Z.pos mx * 2 ^ a * 2 ^ (ex - a - (ey - b) - f)) with (Z.pos mx * 2 ^ (ex - ey - f) * 2 ^ b).
  - rewrite (round_scaled 53 1024) by (try (unfold fexp; change (emin 53 1024) with (-1074)); try apply Z.pow_pos_nonneg; lia).
    by apply rounded_twice; [..|lia].
  - rewrite <- !Z.mul_assoc, <- !Z.pow_add_r by lia. do 2 f_equal. lia.
Qed.
