(* ===== verification/Target.v ===== *)
(** * Target: the six targets and the symbols of functions

    Models src/antic/target.h and src/antic/target.c: the table of the targets,
    their lookup by name and the symbol of a function in each object format. *)

From S2P Require Import Prelude.

(** ** The data of target.h *)

Inductive target :=
| TARGET_LINUX_X86_64
| TARGET_LINUX_ARM64
| TARGET_MACOS_X86_64
| TARGET_MACOS_ARM64
| TARGET_WINDOWS_X86_64
| TARGET_WINDOWS_ARM64.

Inductive target_os := OS_LINUX | OS_MACOS | OS_WINDOWS.
Inductive target_arch := ARCH_X86_64 | ARCH_ARM64.
Inductive object_format := FORMAT_ELF | FORMAT_MACHO | FORMAT_COFF.

Inductive convention :=
| CONVENTION_SYSV
| CONVENTION_WINDOWS_X64
| CONVENTION_AAPCS64
| CONVENTION_APPLE_ARM64
| CONVENTION_WINDOWS_ARM64.

#[export] Instance target_eq_dec : EqDecision target.
Proof. solve_decision. Defined.
#[export] Instance target_os_eq_dec : EqDecision target_os.
Proof. solve_decision. Defined.
#[export] Instance target_arch_eq_dec : EqDecision target_arch.
Proof. solve_decision. Defined.
#[export] Instance object_format_eq_dec : EqDecision object_format.
Proof. solve_decision. Defined.

Record target_info := {
  os : target_os;
  arch : target_arch;
  format : object_format;
  conv : convention;
  triple : list Z;
  object_suffix : list Z;
  executable_suffix : list Z
}.

(** ** The tables *)

Definition info (t : target) : target_info :=
  match t with
  | TARGET_LINUX_X86_64 =>
      {| os := OS_LINUX; arch := ARCH_X86_64; format := FORMAT_ELF;
         conv := CONVENTION_SYSV; triple := bytes "x86_64-unknown-linux-gnu";
         object_suffix := bytes ".o"; executable_suffix := bytes "" |}
  | TARGET_LINUX_ARM64 =>
      {| os := OS_LINUX; arch := ARCH_ARM64; format := FORMAT_ELF;
         conv := CONVENTION_AAPCS64; triple := bytes "aarch64-unknown-linux-gnu";
         object_suffix := bytes ".o"; executable_suffix := bytes "" |}
  | TARGET_MACOS_X86_64 =>
      {| os := OS_MACOS; arch := ARCH_X86_64; format := FORMAT_MACHO;
         conv := CONVENTION_SYSV; triple := bytes "x86_64-apple-macos";
         object_suffix := bytes ".o"; executable_suffix := bytes "" |}
  | TARGET_MACOS_ARM64 =>
      {| os := OS_MACOS; arch := ARCH_ARM64; format := FORMAT_MACHO;
         conv := CONVENTION_APPLE_ARM64; triple := bytes "arm64-apple-macos";
         object_suffix := bytes ".o"; executable_suffix := bytes "" |}
  | TARGET_WINDOWS_X86_64 =>
      {| os := OS_WINDOWS; arch := ARCH_X86_64; format := FORMAT_COFF;
         conv := CONVENTION_WINDOWS_X64; triple := bytes "x86_64-pc-windows-msvc";
         object_suffix := bytes ".obj"; executable_suffix := bytes ".exe" |}
  | TARGET_WINDOWS_ARM64 =>
      {| os := OS_WINDOWS; arch := ARCH_ARM64; format := FORMAT_COFF;
         conv := CONVENTION_WINDOWS_ARM64; triple := bytes "aarch64-pc-windows-msvc";
         object_suffix := bytes ".obj"; executable_suffix := bytes ".exe" |}
  end.

Definition target_name (t : target) : list Z :=
  match t with
  | TARGET_LINUX_X86_64 => bytes "linux-x86_64"
  | TARGET_LINUX_ARM64 => bytes "linux-arm64"
  | TARGET_MACOS_X86_64 => bytes "macos-x86_64"
  | TARGET_MACOS_ARM64 => bytes "macos-arm64"
  | TARGET_WINDOWS_X86_64 => bytes "windows-x86_64"
  | TARGET_WINDOWS_ARM64 => bytes "windows-arm64"
  end.

Definition targets : list target :=
  [TARGET_LINUX_X86_64; TARGET_LINUX_ARM64; TARGET_MACOS_X86_64;
   TARGET_MACOS_ARM64; TARGET_WINDOWS_X86_64; TARGET_WINDOWS_ARM64].

(** The loop of [target_from_name] over the table, in its order. *)
Definition target_from_name (name : list Z) : option target :=
  List.find (fun t => bool_decide (name = target_name t)) targets.

(** ** The symbols *)

Definition hex_digit (d : Z) : Z := if d <? 10 then 48 + d else 87 + d.

(** The byte [ch] as [symbol_name] writes it: itself, or ["$%02x"]. *)
Definition plain_symbol_char (ch : Z) : bool :=
  ((97 <=? ch) && (ch <=? 122)) || ((65 <=? ch) && (ch <=? 90)) ||
  ((48 <=? ch) && (ch <=? 57)) || (ch =? 95) || (ch =? 46).

Definition symbol_char (ch : Z) : list Z :=
  if plain_symbol_char ch then [ch]
  else [36; hex_digit (ch / 16); hex_digit (ch mod 16)].

Fixpoint symbol_name (name : list Z) : list Z :=
  match name with
  | [] => []
  | ch :: rest => symbol_char ch ++ symbol_name rest
  end.

(** The bytes before the first dot, and the rest ([strcspn] with ["."]). *)
Fixpoint span_dot (s : list Z) : list Z * list Z :=
  match s with
  | [] => ([], [])
  | c :: rest =>
      if c =? 46 then ([], s)
      else let '(seg, tail) := span_dot rest in (c :: seg, tail)
  end.

(** The loop of the COFF case over the module path, one segment a round. *)
Fixpoint coff_segments (fuel : nat) (module : list Z) : list Z :=
  match fuel with
  | O => []
  | S f =>
      match module with
      | [] => []
      | _ =>
          let '(seg, tail) := span_dot module in
          decimal (Z.of_nat (length seg)) ++ seg ++
          coff_segments f (match tail with [] => [] | _ :: r => r end)
      end
  end.

Definition target_mangle (t : target) (module name : list Z) : list Z :=
  match format (info t) with
  | FORMAT_MACHO => [95] ++ module ++ [46]
  | FORMAT_ELF => module ++ [46]
  | FORMAT_COFF => bytes "_A" ++ coff_segments (length module) module ++ [95]
  end ++ symbol_name name.

Definition target_c_name (name : list Z) : list Z :=
  map (fun c => if c =? 46 then 95 else c) name.

Definition target_c_symbol (t : target) (name : list Z) : list Z :=
  (if decide (format (info t) = FORMAT_MACHO) then [95] else []) ++ target_c_name name.

(** ** Lemmas *)

Lemma hex_digit_inj a b : 0 <= a < 16 -> 0 <= b < 16 -> hex_digit a = hex_digit b -> a = b.
Proof. unfold hex_digit. intros ??. zcases; lia. Qed.

Lemma symbol_name_cons_inj a b l m :
  is_byte a -> is_byte b -> symbol_char a ++ l = symbol_char b ++ m -> a = b /\ l = m.
Proof.
  unfold is_byte, symbol_char. intros Ha Hb.
  assert (H36 : plain_symbol_char 36 = false) by reflexivity.
  destruct (plain_symbol_char a) eqn:Ea, (plain_symbol_char b) eqn:Eb; simpl; intros E;
    try (injection E as -> ->; done); try (injection E as ? ?; subst; congruence).
  injection E as E1 E2 ->.
  apply hex_digit_inj in E1; [|split; [apply Z.div_pos; lia|apply Z.div_lt_upper_bound; lia]..].
  apply hex_digit_inj in E2; [|apply Z.mod_pos_bound; lia..].
  pose proof (Z.div_mod a 16). pose proof (Z.div_mod b 16). split; [lia|done].
Qed.

Lemma symbol_name_inj_aux a b :
  Forall is_byte a -> Forall is_byte b -> symbol_name a = symbol_name b -> a = b.
Proof.
  intros Ha. revert b. induction Ha as [|c l Hc _ IH]; intros b Hb E.
  - destruct b as [|d m]; [done|]. cbn in E. unfold symbol_char in E.
    destruct (plain_symbol_char d); done.
  - destruct Hb as [|d m Hd Hm].
    + cbn in E. unfold symbol_char in E. destruct (plain_symbol_char c); done.
    + apply symbol_name_cons_inj in E as [-> E]; [|done..]. f_equal. apply IH; done.
Qed.

Lemma symbol_name_chars name :
  Forall is_byte name ->
  Forall (fun c => plain_symbol_char c = true \/ c = 36) (symbol_name name).
Proof.
  intros H. induction H as [|c l Hc _ IH]; simpl; [constructor|].
  apply Forall_app_2; [|done]. unfold symbol_char, is_byte in *.
  destruct (plain_symbol_char c) eqn:E; [repeat constructor; auto|].
  assert (Hh : forall d, 0 <= d < 16 -> plain_symbol_char (hex_digit d) = true).
  { intros d Hd. unfold plain_symbol_char, hex_digit. zcases; try done; lia. }
  apply Forall_cons_2; [by right|]. apply Forall_cons_2; [left|apply Forall_cons_2; [left|constructor]];
    apply Hh; [split; [apply Z.div_pos|apply Z.div_lt_upper_bound]; lia|apply Z.mod_pos_bound; lia].
Qed.

(** Module paths as their segments joined by dots. *)
Fixpoint join_dots (segs : list (list Z)) : list Z :=
  match segs with
  | [] => []
  | [s] => s
  | s :: rest => s ++ [46] ++ join_dots rest
  end.

(** A segment of a module path: not empty, no digit first, no dot. *)
Definition segment (s : list Z) : Prop :=
  match s with [] => False | c :: _ => ~ digit c end /\
  Forall (fun c => c <> 46) s /\ Z.of_nat (length s) < 2 ^ 64.

#[export] Instance segment_dec s : Decision (segment s).
Proof. unfold segment. destruct s; apply _. Defined.

Definition coff_of_segments (segs : list (list Z)) : list Z :=
  concat (map (fun s => decimal (Z.of_nat (length s)) ++ s) segs).

Lemma span_dot_segment s rest :
  Forall (fun c => c <> 46) s ->
  span_dot s = (s, []) /\ span_dot (s ++ 46 :: rest) = (s, 46 :: rest).
Proof.
  intros H. induction H as [|c l Hc _ [IH1 IH2]]; [done|]. cbn.
  destruct (Z.eqb_spec c 46); [done|]. rewrite IH1, IH2. done.
Qed.

Lemma coff_segments_join fuel segs :
  Forall segment segs -> (length (join_dots segs) <= fuel)%nat ->
  coff_segments fuel (join_dots segs) = coff_of_segments segs.
Proof.
  intros H. revert fuel. induction H as [|s segs Hs Hsegs IH]; intros fuel Hf.
  { destruct fuel; done. }
  destruct Hs as (Hne & Hd & _). destruct s as [|c s]; [done|].
  destruct segs as [|s2 segs].
  - cbn [join_dots] in *. destruct fuel; [simpl in Hf; lia|]. cbn [coff_segments].
    destruct (span_dot_segment (c :: s) [] Hd) as [-> _].
    assert (coff_segments fuel [] = []) as -> by (destruct fuel; done).
    unfold coff_of_segments. cbn [map concat]. rewrite !app_nil_r. done.
  - remember (s2 :: segs) as segs' eqn:Es.
    assert (E : join_dots ((c :: s) :: segs') = (c :: s) ++ 46 :: join_dots segs') by (subst; done).
    rewrite E in *. rewrite length_app in Hf. destruct fuel; [simpl in Hf; lia|].
    cbn [app coff_segments]. change (c :: s ++ 46 :: join_dots segs') with ((c :: s) ++ 46 :: join_dots segs').
    destruct (span_dot_segment (c :: s) (join_dots segs') Hd) as [_ ->].
    rewrite IH by (simpl in Hf; lia). unfold coff_of_segments. cbn [map concat].
    rewrite <- app_assoc. done.
Qed.

(** The count of a segment is the longest run of digits at its start. *)
Lemma digits_run_inj d1 d2 l1 l2 :
  Forall digit d1 -> Forall digit d2 ->
  match l1 with [] => True | c :: _ => ~ digit c end ->
  match l2 with [] => True | c :: _ => ~ digit c end ->
  d1 ++ l1 = d2 ++ l2 -> d1 = d2 /\ l1 = l2.
Proof.
  intros H1. revert d2. induction H1 as [|a d1 Ha _ IH]; intros d2 H2 Hl1 Hl2 E.
  - destruct H2 as [|b d2 Hb _]; [done|]. simpl in E. subst l1. done.
  - destruct H2 as [|b d2 Hb H2].
    + simpl in E. subst l2. done.
    + simpl in E. injection E as -> E. destruct (IH d2 H2 Hl1 Hl2 E) as [-> ->]. done.
Qed.

Lemma coff_of_segments_inj segs1 segs2 n1 n2 :
  Forall segment segs1 -> Forall segment segs2 ->
  coff_of_segments segs1 ++ 95 :: n1 = coff_of_segments segs2 ++ 95 :: n2 ->
  segs1 = segs2 /\ n1 = n2.
Proof.
  assert (Hhead : forall s l n, Forall digit (decimal (Z.of_nat (length s))) /\
      (decimal (Z.of_nat (length s)) ++ s ++ l <> 95 :: n)).
  { intros s l n. pose proof (decimal_all (Z.of_nat (length s)) ltac:(lia)) as Hd. split; [done|].
    pose proof (decimal_digits_nil 20 (Z.of_nat (length s)) ltac:(lia)) as Hn. fold (decimal (Z.of_nat (length s))) in Hn.
    destruct (decimal _) as [|d ds]; [done|]. apply Forall_cons_1 in Hd as [Hd _].
    intros E. injection E as -> _. unfold digit in Hd. lia. }
  intros H1. revert segs2. induction H1 as [|s segs1 Hs _ IH]; intros segs2 H2 E.
  - destruct H2 as [|t segs2 Ht _]; [injection E as ->; done|]. exfalso.
    unfold coff_of_segments in E. cbn [map concat] in E. rewrite <- !app_assoc in E.
    destruct (Hhead t (concat (map (fun s => decimal (Z.of_nat (length s)) ++ s) segs2) ++ 95 :: n2) n1)
      as [_ Hx]. apply Hx. symmetry. exact E.
  - destruct H2 as [|t segs2 Ht H2].
    + exfalso. unfold coff_of_segments in E. cbn [map concat] in E. rewrite <- !app_assoc in E.
      destruct (Hhead s (concat (map (fun s => decimal (Z.of_nat (length s)) ++ s) segs1) ++ 95 :: n1) n2)
        as [_ Hx]. apply Hx. exact E.
    + unfold coff_of_segments in E. cbn [map concat] in E. rewrite <- !app_assoc in E.
      fold (coff_of_segments segs1) (coff_of_segments segs2) in E.
      destruct Hs as (Hs & _ & Ls), Ht as (Ht & _ & Lt).
      apply digits_run_inj in E as [Ed E]; [|apply decimal_all; lia|apply decimal_all; lia|
        destruct s; done|destruct t; done].
      apply decimal_inj in Ed; [|lia..]. apply Nat2Z.inj in Ed.
      apply app_inj_1 in E as [-> E]; [|done].
      destruct (IH segs2 H2 E) as [-> ->]. done.
Qed.

(** A text splits at its last dot in one way. *)
Lemma last_dot_inj (m1 m2 s1 s2 : list Z) :
  Forall (fun c => c <> 46) s1 -> Forall (fun c => c <> 46) s2 ->
  m1 ++ 46 :: s1 = m2 ++ 46 :: s2 -> m1 = m2 /\ s1 = s2.
Proof.
  intros H1 H2 E. revert m2 E. induction m1 as [|a m1 IH]; intros [|b m2] E; simpl in E.
  - injection E as ->. done.
  - injection E as <- ->. apply Forall_app in H1 as [_ H1].
    apply Forall_cons_1 in H1 as [[] _]. done.
  - injection E as -> <-. apply Forall_app in H2 as [_ H2].
    apply Forall_cons_1 in H2 as [[] _]. done.
  - injection E as -> E. destruct (IH m2 E) as [-> ->]. done.
Qed.

Lemma symbol_name_no_dot name :
  Forall is_byte name -> Forall (fun c => c <> 46) name ->
  Forall (fun c => c <> 46) (symbol_name name).
Proof.
  intros Hb H. induction H as [|c l Hc _ IH]; simpl; [constructor|].
  apply Forall_cons_1 in Hb as [Hb Hbl]. apply Forall_app_2; [|auto].
  unfold symbol_char, is_byte in *. destruct (plain_symbol_char c); [repeat constructor; done|].
  assert (Hh : forall d, 0 <= d -> hex_digit d <> 46).
  { intros d Hd. unfold hex_digit. zcases; lia. }
  repeat constructor; [done|apply Hh, Z.div_pos; lia|apply Hh, Z.mod_pos_bound; lia].
Qed.

Lemma join_dots_inj segs1 segs2 :
  Forall segment segs1 -> Forall segment segs2 -> join_dots segs1 = join_dots segs2 -> segs1 = segs2.
Proof.
  intros H1 H2 E.
  assert (Hc : coff_of_segments segs1 ++ 95 :: [] = coff_of_segments segs2 ++ 95 :: []).
  { rewrite <- (coff_segments_join (length (join_dots segs1)) segs1) by done.
    rewrite <- (coff_segments_join (length (join_dots segs2)) segs2) by done. rewrite E. done. }
  apply coff_of_segments_inj in Hc; tauto.
Qed.

(** ** Properties *)



(** The escape of a function name is one to one and writes only bytes that
    an assembler reads as part of a symbol: letters, digits, ["_"], ["."] and
    the ["$"] that starts each escape. *)
Lemma symbol_name_safe a b :
  Forall is_byte a -> Forall is_byte b ->
  (symbol_name a = symbol_name b -> a = b) /\
  Forall (fun c => plain_symbol_char c = true \/ c = 36) (symbol_name a).
Proof. intros Ha Hb. split; [apply symbol_name_inj_aux|apply symbol_name_chars]; done. Qed.
