(* ===== verification/Ir.v ===== *)
(** * Ir: the data of the intermediate representation

    The types of src/antic/ir.h that the folding, the layout and the ABI
    classification read and write: scalar types, aggregates, symbolic values,
    operations, operands, instructions, and of functions and global data the parts
    they use. Pointers into the module are indices, as they are in the source. A
    double is its 64 bits. *)

From S2P Require Import Prelude.

(** ** Scalar types and aggregates *)

Inductive ir_type :=
| IR_VOID | IR_I8 | IR_I16 | IR_I32 | IR_I64 | IR_F32 | IR_F64 | IR_PTR
| IR_AGG | IR_CLONG | IR_CWCHAR | IR_LOCK.

#[export] Instance ir_type_eq_dec : EqDecision ir_type.
Proof. solve_decision. Defined.

(** The type of a value in memory: [agg] is the index of the aggregate when
    [type] is [IR_AGG]. *)
Record ir_vtype := { vt_type : ir_type; vt_agg : nat }.

#[export] Instance ir_vtype_eq_dec : EqDecision ir_vtype.
Proof. solve_decision. Defined.

Inductive ir_agg_kind := IR_AGG_STRUCT | IR_AGG_UNION | IR_AGG_ARRAY.

#[export] Instance ir_agg_kind_eq_dec : EqDecision ir_agg_kind.
Proof. solve_decision. Defined.

Inductive ir_ext := IR_EXT_NONE | IR_EXT_SIGN | IR_EXT_ZERO.

#[export] Instance ir_ext_eq_dec : EqDecision ir_ext.
Proof. solve_decision. Defined.

(** [name] is [None] for the element of an array, the C [NULL]. *)
Record ir_field := {
  f_name : option (list Z);
  f_type : ir_vtype;
  f_bits : Z;
  f_ext : ir_ext;
  f_atomic : bool
}.

Record ir_aggtype := {
  a_kind : ir_agg_kind;
  a_name : list Z;
  a_fields : list ir_field;
  a_packed : bool;
  a_simd : bool;
  a_align : Z;
  a_length : nat;
  a_length_text : list Z
}.

(** ** Operations and symbolic values *)

Inductive ir_op :=
| IR_ADD | IR_SUB | IR_MUL | IR_SDIV | IR_UDIV | IR_SREM | IR_UREM
| IR_AND | IR_OR | IR_XOR | IR_SHL | IR_SHR_S | IR_SHR_U
| IR_FADD | IR_FSUB | IR_FMUL | IR_FDIV
| IR_NEG | IR_NOT | IR_FNEG | IR_COPY
| IR_EQ | IR_NE | IR_SLT | IR_SLE | IR_SGT | IR_SGE
| IR_ULT | IR_ULE | IR_UGT | IR_UGE
| IR_FEQ | IR_FNE | IR_FLT | IR_FLE | IR_FGT | IR_FGE
| IR_ADD_OV | IR_SUB_OV | IR_MUL_OV
| IR_MULH_S | IR_MULH_U
| IR_ADD_SAT_S | IR_ADD_SAT_U | IR_SUB_SAT_S | IR_SUB_SAT_U
| IR_MUL_SAT_S | IR_MUL_SAT_U
| IR_ADD_FL | IR_SUB_FL | IR_MUL_FL | IR_SHL_FL | IR_SHR_S_FL | IR_SHR_U_FL
| IR_NEG_FL
| IR_FLAG
| IR_TRUNC | IR_SEXT | IR_ZEXT | IR_SITOF | IR_UITOF | IR_FTOSI | IR_FTOUI
| IR_FEXT | IR_FTRUNC
| IR_HEXT | IR_HTRUNC
| IR_SLOT | IR_LOAD | IR_STORE | IR_PTRADD | IR_MEMCOPY | IR_ADDR
| IR_BITLOAD | IR_BITSTORE
| IR_VBINARY | IR_VUNARY | IR_VSPLAT | IR_VSELECT | IR_VSHUFFLE | IR_VREDUCE
| IR_LIFE_START | IR_LIFE_END
| IR_CALL
| IR_JUMP | IR_BRANCH | IR_BRANCH_OV | IR_RET | IR_UNREACHABLE.

#[export] Instance ir_op_eq_dec : EqDecision ir_op.
Proof. solve_decision. Defined.

Inductive ir_sym_kind := IR_SYM_INT | IR_SYM_SIZE_OF | IR_SYM_OFFSET_OF | IR_SYM_OP.

#[export] Instance ir_sym_kind_eq_dec : EqDecision ir_sym_kind.
Proof. solve_decision. Defined.

(** [s_b] is [None] where the source holds [IR_NO_AGG], one operand. *)
Record ir_sym := {
  s_kind : ir_sym_kind;
  s_type : ir_type;
  s_value : Z;
  s_of : ir_vtype;
  s_field : nat;
  s_op : ir_op;
  s_a : nat;
  s_b : option nat
}.

(** ** Functions

    The parts of an operand, an instruction, a parameter and a function that the
    resolution of types, the ABI classification and the verifier read or write. *)

(** [kind] with the member of the union [as] that it selects. *)
Inductive ir_operand_kind :=
| IR_NONE
| IR_TEMP (temp : nat)
| IR_INT (integer : Z)
| IR_FLOAT (floating : Z)
| IR_GLOBAL (index : nat)
| IR_FUNC (index : nat)
| IR_BLOCK (index : nat)
| IR_SYM (index : nat).

Record ir_operand := Operand { o_kind : ir_operand_kind; o_type : ir_type }.

Record ir_inst := Inst {
  i_op : ir_op;
  i_type : ir_type;
  i_result : option nat;
  i_a : ir_operand;
  i_b : ir_operand;
  i_c : ir_operand;
  i_of : ir_vtype;
  i_field : nat;
  i_member : nat;
  i_args : list ir_operand
}.

(** [pr_deref_size] is [None] where the source holds [IR_NO_INDEX]. *)
Record ir_param := {
  pr_type : ir_type;
  pr_ext : ir_ext;
  pr_agg : nat;
  pr_temp : nat;
  pr_nonnull : bool;
  pr_own : bool;
  pr_deref_size : option nat
}.

(** A block is the list of its instructions, and [fn_result_range] is the pair of
    [result_low] and [result_high] when [result_range] is set. *)
Record ir_function := {
  fn_params : list ir_param;
  fn_result : ir_type;
  fn_result_agg : nat;
  fn_result_ext : ir_ext;
  fn_allocates : bool;
  fn_result_range : option (Z * Z);
  fn_is_extern : bool;
  fn_variadic : bool;
  fn_never_returns : bool;
  fn_blocks : list (list ir_inst);
  fn_temps : list ir_type
}.

(** [ir_scalar]. *)
Definition ir_scalar (type : ir_type) : ir_vtype := {| vt_type := type; vt_agg := 0 |}.

(** [ir_int_op]: an integer keeps the bits of its type. *)
Definition ir_int_op (type : ir_type) (value : Z) : ir_operand :=
  let value := match type with
               | IR_I8 => Z.land value 0xff
               | IR_I16 => Z.land value 0xffff
               | IR_I32 => Z.land value 0xffffffff
               | _ => value
               end in
  Operand (IR_INT value) type.

(** ** Global data *)

(** An address that the linker writes: of a function when [fn]. *)
Record ir_reloc := Reloc { rl_offset : Z; rl_global : nat; rl_fn : bool }.

Inductive ir_const_kind :=
| IR_CONST_NONE | IR_CONST_INT | IR_CONST_FLOAT | IR_CONST_SYM | IR_CONST_ADDR | IR_CONST_FUNC | IR_CONST_AGG.

#[export] Instance ir_const_kind_eq_dec : EqDecision ir_const_kind.
Proof. solve_decision. Defined.

(** Every constant holds every member, and its kind says which one has a
    meaning. [c_floating] is the bits of a double. *)
Inductive ir_const := Const {
  c_kind : ir_const_kind;
  c_type : ir_vtype;
  c_scalar : ir_type;
  c_integer : Z;
  c_floating : Z;
  c_sym : nat;
  c_global : nat;
  c_items : list ir_const
}.

(** The parts of a global that the layout reads or writes. *)
Record ir_global := Global {
  g_bytes : list Z;
  g_size : Z;
  g_align : Z;
  g_relocs : list ir_reloc;
  g_value : option ir_const
}.

(** The list of the relocations, whose capacity the arena doubles. *)
Definition add_reloc (g : ir_global) (offset : Z) (target : nat) (fn : bool) : ir_global :=
  Global (g_bytes g) (g_size g) (g_align g) (g_relocs g ++ [Reloc offset target fn]) (g_value g).

Definition ir_global_reloc (g : ir_global) (offset : Z) (target : nat) : ir_global := add_reloc g offset target false.
Definition ir_global_reloc_fn (g : ir_global) (offset : Z) (function : nat) : ir_global := add_reloc g offset function true.

(** ** Modules *)

Record ir_subtable := { sb_interface : nat; sb_table : nat; sb_agg : nat; sb_field : nat }.

(** The parts of a class record that the verifier reads: [cl_table] and [cl_init] are
    [None] where the source holds [IR_NO_INDEX], an entry of [cl_injects] or
    [cl_provides] is the global of its descriptor. *)
Record ir_class := {
  cl_descriptor : nat;
  cl_base : nat;
  cl_table : option nat;
  cl_init : option nat;
  cl_agg : nat;
  cl_subtables : list ir_subtable;
  cl_mutable_fields : list nat;
  cl_injects : list nat;
  cl_provides : list nat
}.

Record ir_module := {
  m_aggs : list ir_aggtype;
  m_syms : list ir_sym;
  m_functions : list ir_function;
  m_globals : list ir_global;
  m_classes : list ir_class
}.

(** The induction of a constant over its items. *)
Lemma ir_const_nested_ind (P : ir_const -> Prop) :
  (forall kind type scalar integer floating sym global items,
    Forall P items -> P (Const kind type scalar integer floating sym global items)) ->
  forall c, P c.
Proof.
  intros H. fix IH 1. intros [kind type scalar integer floating sym global items]. apply H.
  induction items as [|c items IHi]; constructor; [apply IH|apply IHi].
Qed.
