(* ===== verification/IrFold.v ===== *)
(** * IrFold: the folding of an integer operation on constants

    Models src/antic/ir_fold.c, which the optimizer and the layout share. *)

From S2P Require Import Prelude Arith Ir.

(** ** The functions of ir_fold.c *)

(** The outcomes of a fold; [IR_FOLDED] carries what the C writes to [*out]. *)
Inductive ir_fold :=
| IR_FOLDED (out : Z)
| IR_FOLD_NOT_BINARY
| IR_FOLD_BY_ZERO
| IR_FOLD_LEAST_BY_MINUS_ONE
| IR_FOLD_SHIFT_RANGE.

Definition ir_fold_bits (type : ir_type) : Z :=
  match type with IR_I8 => 8 | IR_I16 => 16 | IR_I32 => 32 | _ => 64 end.

Definition ir_fold_trim (type : ir_type) (v : Z) : Z :=
  let n := ir_fold_bits type in
  if n =? 64 then v else Z.land v (u64 (u64 (Z.shiftl 1 n) - 1)).

Definition ir_fold_signed (type : ir_type) (v : Z) : Z :=
  arith_signed v (ir_fold_bits type).

Definition is_shift (op : ir_op) : bool :=
  match op with IR_SHL | IR_SHR_S | IR_SHR_U => true | _ => false end.

(** [defined]: [None] is the C result [IR_FOLDED], no objection. *)
Definition defined (op : ir_op) (type : ir_type) (a b : Z) : option ir_fold :=
  let n := ir_fold_bits type in
  let divides := match op with IR_SDIV | IR_UDIV | IR_SREM | IR_UREM => true | _ => false end in
  let signed := match op with IR_SDIV | IR_SREM => true | _ => false end in
  if divides && (b =? 0) then Some IR_FOLD_BY_ZERO
  else if signed && (a =? u64 (Z.shiftl 1 (n - 1)))
            && (b =? ir_fold_trim type UINT64_MAX)
  then Some IR_FOLD_LEAST_BY_MINUS_ONE
  else None.

Definition b2u (b : bool) : Z := if b then 1 else 0.

Definition ir_fold_int (op : ir_op) (type : ir_type) (a b : Z) : ir_fold :=
  let n := ir_fold_bits type in
  let count := b in
  let a := ir_fold_trim type a in
  let b := ir_fold_trim type b in
  let x := ir_fold_signed type a in
  let y := ir_fold_signed type b in
  let trimmed out := IR_FOLDED (ir_fold_trim type out) in
  if is_shift op && (count >=? n) then IR_FOLD_SHIFT_RANGE
  else
    match defined op type a b with
    | Some status => status
    | None =>
        match op with
        | IR_ADD => trimmed (u64 (a + b))
        | IR_SUB => trimmed (u64 (a - b))
        | IR_MUL => trimmed (u64 (a * b))
        | IR_SDIV => trimmed (u64 (Z.quot x y))
        | IR_SREM => trimmed (u64 (Z.rem x y))
        | IR_UDIV => trimmed (a / b)
        | IR_UREM => trimmed (a mod b)
        | IR_AND => trimmed (Z.land a b)
        | IR_OR => trimmed (Z.lor a b)
        | IR_XOR => trimmed (Z.lxor a b)
        | IR_SHL => trimmed (u64 (Z.shiftl a count))
        | IR_SHR_S => trimmed (u64 (arith_shift_right x count))
        | IR_SHR_U => trimmed (Z.shiftr a count)
        | IR_EQ => IR_FOLDED (b2u (a =? b))
        | IR_NE => IR_FOLDED (b2u (negb (a =? b)))
        | IR_SLT => IR_FOLDED (b2u (x <? y))
        | IR_SLE => IR_FOLDED (b2u (x <=? y))
        | IR_SGT => IR_FOLDED (b2u (x >? y))
        | IR_SGE => IR_FOLDED (b2u (x >=? y))
        | IR_ULT => IR_FOLDED (b2u (a <? b))
        | IR_ULE => IR_FOLDED (b2u (a <=? b))
        | IR_UGT => IR_FOLDED (b2u (a >? b))
        | IR_UGE => IR_FOLDED (b2u (a >=? b))
        | IR_MULH_S => trimmed (arith_mul_high a b n true)
        | IR_MULH_U => trimmed (arith_mul_high a b n false)
        | IR_ADD_SAT_S => trimmed (arith_saturate "+" a b n true)
        | IR_ADD_SAT_U => trimmed (arith_saturate "+" a b n false)
        | IR_SUB_SAT_S => trimmed (arith_saturate "-" a b n true)
        | IR_SUB_SAT_U => trimmed (arith_saturate "-" a b n false)
        | IR_MUL_SAT_S => trimmed (arith_saturate "*" a b n true)
        | IR_MUL_SAT_U => trimmed (arith_saturate "*" a b n false)
        | _ => IR_FOLD_NOT_BINARY
        end
    end.

(** ** The meaning of an operation on values of n bits

    [a] and [b] are the unsigned values, [x] and [y] the signed ones, [count]
    the shift count as it is written. The meaning is over exact integers; the
    result is reduced to [n] bits. *)
Definition meaning (op : ir_op) (n count a b x y : Z) : ir_fold :=
  let bits z := IR_FOLDED (wrap n z) in
  let shift z := if n <=? count then IR_FOLD_SHIFT_RANGE else bits z in
  let divide z := if b =? 0 then IR_FOLD_BY_ZERO else bits z in
  let sdivide z := if y =? 0 then IR_FOLD_BY_ZERO
                   else if (x =? - 2 ^ (n - 1)) && (y =? -1)
                   then IR_FOLD_LEAST_BY_MINUS_ONE else bits z in
  match op with
  | IR_ADD => bits (a + b)
  | IR_SUB => bits (a - b)
  | IR_MUL => bits (a * b)
  | IR_SDIV => sdivide (Z.quot x y)
  | IR_SREM => sdivide (Z.rem x y)
  | IR_UDIV => divide (a / b)
  | IR_UREM => divide (a mod b)
  | IR_AND => bits (Z.land a b)
  | IR_OR => bits (Z.lor a b)
  | IR_XOR => bits (Z.lxor a b)
  | IR_SHL => shift (a * 2 ^ count)
  | IR_SHR_S => shift (x / 2 ^ count)
  | IR_SHR_U => shift (a / 2 ^ count)
  | IR_EQ => IR_FOLDED (b2u (a =? b))
  | IR_NE => IR_FOLDED (b2u (negb (a =? b)))
  | IR_SLT => IR_FOLDED (b2u (x <? y))
  | IR_SLE => IR_FOLDED (b2u (x <=? y))
  | IR_SGT => IR_FOLDED (b2u (y <? x))
  | IR_SGE => IR_FOLDED (b2u (y <=? x))
  | IR_ULT => IR_FOLDED (b2u (a <? b))
  | IR_ULE => IR_FOLDED (b2u (a <=? b))
  | IR_UGT => IR_FOLDED (b2u (b <? a))
  | IR_UGE => IR_FOLDED (b2u (b <=? a))
  | IR_MULH_S => bits (x * y / 2 ^ n)
  | IR_MULH_U => bits (a * b / 2 ^ n)
  | IR_ADD_SAT_S => bits (clamp n true (x + y))
  | IR_ADD_SAT_U => bits (clamp n false (a + b))
  | IR_SUB_SAT_S => bits (clamp n true (x - y))
  | IR_SUB_SAT_U => bits (clamp n false (a - b))
  | IR_MUL_SAT_S => bits (clamp n true (x * y))
  | IR_MUL_SAT_U => bits (clamp n false (a * b))
  | _ => IR_FOLD_NOT_BINARY
  end.

(** ** Lemmas *)

Lemma ir_fold_bits_width type : fixed_width (ir_fold_bits type).
Proof. unfold fixed_width. destruct type; simpl; auto. Qed.

Lemma ir_fold_trim_wrap type v : in_width 64 v -> ir_fold_trim type v = wrap (ir_fold_bits type) v.
Proof.
  intros Hv. unfold ir_fold_trim. pose proof (fixed_width_range _ (ir_fold_bits_width type)).
  destruct (Z.eqb_spec (ir_fold_bits type) 64) as [->|].
  - symmetry. apply wrap_small, Hv.
  - rewrite mask_eq, land_mask by lia. done.
Qed.

Lemma ir_fold_signed_sint type v :
  in_width 64 v -> ir_fold_signed type v = sint (ir_fold_bits type) v.
Proof.
  intros Hv. apply arith_signed_val; [|done].
  pose proof (fixed_width_range _ (ir_fold_bits_width type)). lia.
Qed.

Lemma wrap_in_64 n v : 0 <= n <= 64 -> in_width 64 (wrap n v).
Proof.
  intros Hn. pose proof (wrap_bound n v ltac:(lia)) as []. split; [done|].
  assert (2 ^ n <= 2 ^ 64) by (apply Z.pow_le_mono_r; lia). lia.
Qed.

(** The two operands the checks name: zero, and the least value by -1. *)
Lemma sint_zero n v : 1 <= n -> (sint n v =? 0) = (wrap n v =? 0).
Proof.
  intros Hn. unfold sint. fold (wrap n v). pose proof (wrap_bound n v ltac:(lia)) as [].
  assert (2 ^ n = 2 * 2 ^ (n - 1)) by (rewrite <- Z.pow_succ_r by lia; f_equal; lia). zcases; lia.
Qed.

Lemma sint_least n v : 1 <= n -> (sint n v =? - 2 ^ (n - 1)) = (wrap n v =? 2 ^ (n - 1)).
Proof.
  intros Hn. unfold sint. fold (wrap n v). pose proof (wrap_bound n v ltac:(lia)) as [].
  assert (2 ^ n = 2 * 2 ^ (n - 1)) by (rewrite <- Z.pow_succ_r by lia; f_equal; lia). zcases; lia.
Qed.

Lemma sint_minus_one n v : 1 <= n -> (sint n v =? -1) = (wrap n v =? 2 ^ n - 1).
Proof.
  intros Hn. unfold sint. fold (wrap n v). pose proof (wrap_bound n v ltac:(lia)) as [].
  assert (2 ^ n = 2 * 2 ^ (n - 1)) by (rewrite <- Z.pow_succ_r by lia; f_equal; lia). zcases; lia.
Qed.

Lemma wrap_max n : 0 <= n <= 64 -> wrap n UINT64_MAX = 2 ^ n - 1.
Proof.
  intros Hn. assert (2 ^ n * 2 ^ (64 - n) = 2 ^ 64) by (rewrite <- Z.pow_add_r by lia; f_equal; lia).
  rewrite (wrap_congr n UINT64_MAX (2 ^ n - 1) (2 ^ (64 - n) - 1)) by (pow2s; lia).
  apply wrap_small. split; lia.
Qed.

Section fold.
Context (type : ir_type) (a b : Z) (Ha : in_width 64 a) (Hb : in_width 64 b).
Let n := ir_fold_bits type.

Lemma fold_width : 8 <= n <= 64.
Proof. apply fixed_width_range, ir_fold_bits_width. Qed.

Lemma defined_meaning op :
  defined op type (wrap n a) (wrap n b) =
  match op with
  | IR_SDIV | IR_SREM =>
      if sint n b =? 0 then Some IR_FOLD_BY_ZERO
      else if (sint n a =? - 2 ^ (n - 1)) && (sint n b =? -1) then Some IR_FOLD_LEAST_BY_MINUS_ONE
      else None
  | IR_UDIV | IR_UREM => if wrap n b =? 0 then Some IR_FOLD_BY_ZERO else None
  | _ => None
  end.
Proof.
  pose proof fold_width. unfold defined. rewrite ir_fold_trim_wrap by (split; pow2s; lia).
  fold n. rewrite wrap_max, shiftl_mul, Z.mul_1_l by lia.
  rewrite (wrap_small 64 (2 ^ (n - 1)))
    by (split; [lia|apply Z.pow_lt_mono_r; lia]).
  rewrite sint_zero, sint_least, sint_minus_one by lia.
  destruct op; reflexivity.
Qed.

Lemma trim_wrap64 z : ir_fold_trim type (u64 z) = wrap n z.
Proof.
  rewrite ir_fold_trim_wrap by (apply wrap_bound; lia). fold n.
  pose proof fold_width. apply wrap_wrap_le. lia.
Qed.

Lemma trim_small z : in_width 64 z -> ir_fold_trim type z = wrap n z.
Proof. apply ir_fold_trim_wrap. Qed.

Lemma fold_meaning op :
  ir_fold_int op type a b =
  meaning op n b (wrap n a) (wrap n b) (sint n a) (sint n b).
Proof.
  pose proof fold_width as Hn. pose proof (ir_fold_bits_width type) as Hf. fold n in Hf.
  unfold ir_fold_int. rewrite !ir_fold_trim_wrap by done. fold n.
  pose proof (wrap_in_64 n a ltac:(lia)) as Wa. pose proof (wrap_in_64 n b ltac:(lia)) as Wb.
  rewrite !ir_fold_signed_sint, defined_meaning by done. fold n.
  rewrite !sint_wrap, !arith_mul_high_val, !arith_saturate_clamp, !trim_wrap64 by (done || lia).
  rewrite Z.geb_leb. unfold val. rewrite !sint_wrap, !(wrap_small n (wrap n _)) by (lia || (apply wrap_bound; lia)).
  pose proof (sint_range n a ltac:(lia)) as Sa.
  assert (2 ^ (n - 1) <= 2 ^ 63) by (apply Z.pow_le_mono_r; lia).
  assert (Hdiv : in_width 64 (wrap n a / wrap n b) /\ in_width 64 (wrap n a mod wrap n b)).
  { destruct Wa as [? Wa], Wb as [? Wb]. destruct (Z.eq_dec (wrap n b) 0) as [->|].
    - rewrite Zdiv_0_r, Zmod_0_r. done.
    - pose proof (Z.mod_pos_bound (wrap n a) (wrap n b)).
      split; split; [apply Z.div_pos; lia| |lia|lia].
      eapply Z.le_lt_trans; [apply Z.div_le_upper_bound with (q := wrap n a)|]; nia. }
  destruct Hdiv as [Hdiv Hmod].
  destruct op; cbn [is_shift andb meaning]; try reflexivity;
    repeat (destruct (_ =? 0); [reflexivity|]);
    repeat (destruct (_ && _); [reflexivity|]);
    try (destruct (Z.leb_spec n b); [reflexivity|]);
    rewrite ?Z.gtb_ltb, ?Z.geb_leb; try reflexivity;
    f_equal; try (apply trim_small; try done);
    try (apply land_width; done || lia || apply Wb); try (apply lor_width; done || lia);
    try (apply lxor_width; done || lia).
  - rewrite shiftl_mul by apply Hb. reflexivity.
  - rewrite arith_shift_right_div by (destruct Hb; lia). reflexivity.
  - rewrite shiftr_div by apply Hb. apply trim_small. destruct Wa, Hb. split.
    + apply Z.div_pos; lia.
    + eapply Z.le_lt_trans; [apply Z.div_le_upper_bound with (q := wrap n a)|]; nia.
Qed.

Lemma fold_range op out : ir_fold_int op type a b = IR_FOLDED out -> in_width n out.
Proof.
  pose proof fold_width as Hn. fold n in Hn. rewrite fold_meaning.
  assert (H1 : forall c, in_width n (b2u c)).
  { intros c. assert (2 ^ 1 <= 2 ^ n) by (apply Z.pow_le_mono_r; lia). split; destruct c; simpl; lia. }
  assert (Hw : forall z, in_width n (wrap n z)) by (intros; apply wrap_bound; lia).
  unfold meaning. destruct op; repeat case_match; intros [= <-]; auto.
Qed.
End fold.

(** ** Properties *)

(** C14. Folding computes the meaning of every operation: for each operation,
    type and pair of 64-bit words, [ir_fold_int] gives the exact result of the
    operation on the values of the operands, reduced to the bits of the type,
    or the outcome that says why it has none, and a folded value always fits
    the type. *)
Theorem fold_correct op type a b :
  in_width 64 a -> in_width 64 b ->
  let n := ir_fold_bits type in
  ir_fold_int op type a b = meaning op n b (wrap n a) (wrap n b) (sint n a) (sint n b) /\
  (forall out, ir_fold_int op type a b = IR_FOLDED out -> in_width n out).
Proof.
  intros Ha Hb n. split; [by apply fold_meaning|]. intros out. by apply fold_range.
Qed.

Lemma fold_correct_witness :
  ir_fold_int IR_SDIV IR_I8 128 255 = IR_FOLD_LEAST_BY_MINUS_ONE /\
  ir_fold_int IR_SHR_S IR_I16 0x8000 3 = IR_FOLDED 0xf000 /\
  (ir_fold_int IR_MUL IR_I32 0x10001 0x10001 =
     meaning IR_MUL 32 0x10001 (wrap 32 0x10001) (wrap 32 0x10001) (sint 32 0x10001) (sint 32 0x10001) /\
   (forall out, ir_fold_int IR_MUL IR_I32 0x10001 0x10001 = IR_FOLDED out -> in_width 32 out)).
Proof.
  split; [reflexivity|]. split; [reflexivity|].
  apply (fold_correct IR_MUL IR_I32 0x10001 0x10001); (split; [lia|reflexivity]).
Defined.
