(* ===== verification/IrVerify.v ===== *)
(** * IrVerify: the check of the rules of the IR

    Models src/antic/ir_verify.c, the check that every stage after the lowering
    relies on. [fail] appends a text to the errors and clears [ok]; here a check
    gives the list of its issues, each with its function, its block and the message
    it formats, and [ok] holds when there is none. The words of a message are not
    modelled. A set of temporaries is an array of 64-bit words, as in the source.

    An operand of another kind than the one a read of [as] expects has no such
    member here; the source reads the union, and has reported the kind by then. *)

From S2P Require Import Prelude Ir.

(** ** Issues *)

Inductive message :=
| Temp_missing | Block_missing | Func_missing | Global_missing | Sym_missing | Result_missing | Param_missing
| Result_extended | Result_allocates | Body_allocates | Result_no_range | Result_empty_range
| Param_may_be_none | Param_no_pointer | Param_sym_missing
| Access_kind | Entry_stored | Access_no_pointer
| Target_no_block | Type_missing
| Access_i8 | Access_of | Access_not_plain | Access_other | Access_agg_missing | Access_no_struct | Access_no_field
| Access_bitfield | Access_field_type
| Operand_type
| Not_simd | Above_cap | Lane_type | Lane_op | Select_args | Shuffle_args | Shuffle_lane
| Flag_operand | Compared_types | Compare_result | Hext_result | Htrunc_result | No_bitfield
| Call_count | Call_agg | Call_table | Overflow_operand | Ret_type
| Undefined_use
| Wrap_facts | Overflow_facts | Inbounds_fact | Range_type | Range_empty | No_slot
| Overflow_apart | Flag_apart | Goes_on | Not_last | No_terminator
| Class_missing.

#[export] Instance message_eq_dec : EqDecision message.
Proof. solve_decision. Defined.

(** [is_at] is the function and the block of the issue, or the class. *)
Record issue := Issue { is_at : nat; is_block : option nat; is_message : message }.

Definition fail (cond : bool) (msg : message) : list message := if cond then [msg] else [].

Definition no_issue {A} (l : list A) : bool := match l with [] => true | _ => false end.

(** ** Operations *)

(** The values of [enum ir_op], from 0 on. *)
Definition ir_ops : list ir_op :=
  [ IR_ADD; IR_SUB; IR_MUL; IR_SDIV; IR_UDIV; IR_SREM; IR_UREM; IR_AND; IR_OR; IR_XOR; IR_SHL; IR_SHR_S;
    IR_SHR_U; IR_FADD; IR_FSUB; IR_FMUL; IR_FDIV; IR_NEG; IR_NOT; IR_FNEG; IR_COPY; IR_EQ; IR_NE; IR_SLT;
    IR_SLE; IR_SGT; IR_SGE; IR_ULT; IR_ULE; IR_UGT; IR_UGE; IR_FEQ; IR_FNE; IR_FLT; IR_FLE; IR_FGT; IR_FGE;
    IR_ADD_OV; IR_SUB_OV; IR_MUL_OV; IR_MULH_S; IR_MULH_U; IR_ADD_SAT_S; IR_ADD_SAT_U; IR_SUB_SAT_S;
    IR_SUB_SAT_U; IR_MUL_SAT_S; IR_MUL_SAT_U; IR_ADD_FL; IR_SUB_FL; IR_MUL_FL; IR_SHL_FL; IR_SHR_S_FL;
    IR_SHR_U_FL; IR_NEG_FL; IR_FLAG; IR_TRUNC; IR_SEXT; IR_ZEXT; IR_SITOF; IR_UITOF; IR_FTOSI; IR_FTOUI;
    IR_FEXT; IR_FTRUNC; IR_HEXT; IR_HTRUNC; IR_SLOT; IR_LOAD; IR_STORE; IR_PTRADD; IR_MEMCOPY; IR_ADDR;
    IR_BITLOAD; IR_BITSTORE; IR_VBINARY; IR_VUNARY; IR_VSPLAT; IR_VSELECT; IR_VSHUFFLE; IR_VREDUCE;
    IR_LIFE_START; IR_LIFE_END; IR_CALL; IR_JUMP; IR_BRANCH; IR_BRANCH_OV; IR_RET; IR_UNREACHABLE ].

Fixpoint position (op : ir_op) (ops : list ir_op) : nat :=
  match ops with
  | [] => O
  | o :: ops => if bool_decide (o = op) then O else S (position op ops)
  end.

Definition ir_op_value (op : ir_op) : nat := position op ir_ops.

(** [op] is a value of the enumeration in a field of 32 bits. *)
Definition between (first last : ir_op) (op : nat) : bool := (ir_op_value first <=? op)%nat && (op <=? ir_op_value last)%nat.
Definition is_op (op : nat) (o : ir_op) : bool := (op =? ir_op_value o)%nat.

Definition is_overflow (op : ir_op) : bool :=
  match op with IR_ADD_OV | IR_SUB_OV | IR_MUL_OV => true | _ => false end.

Definition is_flag_operation (op : ir_op) : bool :=
  match op with
  | IR_ADD_FL | IR_SUB_FL | IR_MUL_FL | IR_SHL_FL | IR_SHR_S_FL | IR_SHR_U_FL | IR_NEG_FL => true
  | _ => false
  end.

Definition is_terminator (op : ir_op) : bool :=
  match op with IR_JUMP | IR_BRANCH | IR_BRANCH_OV | IR_RET | IR_UNREACHABLE => true | _ => false end.

Definition ir_lane_bytes (type : ir_type) : nat :=
  match type with
  | IR_I8 => 1
  | IR_I16 => 2
  | IR_I32 | IR_F32 => 4
  | IR_I64 | IR_F64 => 8
  | _ => 0
  end.

Definition CPU_VECTOR_BYTE_CAP : nat := 256.

(** The values of [enum ir_access] and [enum ir_flag], and the facts of an operation. *)
Definition IR_ACCESS_PLAIN : nat := 0.
Definition IR_ACCESS_ENTRY : nat := 2.
Definition IR_FLAG_NEGATIVE : nat := 3.
Definition IR_NSW : nat := 1.
Definition IR_WRAP_FACTS : nat := 3.
Definition IR_INBOUNDS : nat := 1.

(** [IR_I8 <= type && type <= IR_I64]. *)
Definition is_int (type : ir_type) : bool :=
  match type with IR_I8 | IR_I16 | IR_I32 | IR_I64 => true | _ => false end.

(** Whether [op] is an operation of one lane that the simd operation [kind] takes on
    lanes of type [lane]. *)
Definition lane_op_ok (kind : ir_op) (op : nat) (lane : ir_type) : bool :=
  let is_float := bool_decide (lane = IR_F32) || bool_decide (lane = IR_F64) in
  match kind with
  | IR_VBINARY =>
      if between IR_EQ IR_UGE op then negb is_float
      else if between IR_FEQ IR_FGE op then is_float
      else if is_float then between IR_FADD IR_FDIV op
      else is_op op IR_ADD || is_op op IR_SUB || is_op op IR_MUL || is_op op IR_AND || is_op op IR_OR || is_op op IR_XOR
  | IR_VUNARY => if is_float then is_op op IR_FNEG else is_op op IR_NEG || is_op op IR_NOT
  | IR_VREDUCE =>
      if is_op op IR_OR || is_op op IR_AND then bool_decide (lane = IR_I8)
      else if is_float then is_op op IR_FADD || is_op op IR_FLT || is_op op IR_FGT
      else is_op op IR_ADD || is_op op IR_SLT || is_op op IR_ULT || is_op op IR_SGT || is_op op IR_UGT
  | _ => is_op op IR_COPY
  end.

(** ** One instruction *)

Section Function.
Context (m : ir_module) (f : ir_function).

Definition temp_count : nat := length (fn_temps f).

Definition operand_ok (o : ir_operand) : list message :=
  match o_kind o with
  | IR_TEMP temp => fail (temp_count <=? temp)%nat Temp_missing
  | IR_BLOCK index => fail (length (fn_blocks f) <=? index)%nat Block_missing
  | IR_FUNC index => fail (length (m_functions m) <=? index)%nat Func_missing
  | IR_GLOBAL index => fail (length (m_globals m) <=? index)%nat Global_missing
  | IR_SYM index => fail (length (m_syms m) <=? index)%nat Sym_missing
  | _ => []
  end.

Definition indices_ok (inst : ir_inst) : list message :=
  fail (match i_result inst with Some t => (temp_count <=? t)%nat | None => false end) Result_missing ++
  operand_ok (i_a inst) ++ operand_ok (i_b inst) ++ operand_ok (i_c inst) ++
  (i_args inst ≫= operand_ok).

Definition params_ok : list message :=
  fn_params f ≫= fun p => fail (temp_count <=? pr_temp p)%nat Param_missing.

Definition integer_of (o : ir_operand) : Z := match o_kind o with IR_INT v => v | _ => 0 end.

Definition facts_ok : list message :=
  fail (negb (bool_decide (fn_result_ext f = IR_EXT_NONE)) && negb (bool_decide (fn_result f = IR_I8)) &&
        negb (bool_decide (fn_result f = IR_I16))) Result_extended ++
  fail (fn_allocates f && negb (bool_decide (fn_result f = IR_PTR))) Result_allocates ++
  fail (fn_allocates f && negb (fn_is_extern f)) Body_allocates ++
  match fn_result_range f with
  | Some (low, high) =>
      if negb (is_int (fn_result f)) then [Result_no_range]
      else fail (integer_of (ir_int_op (fn_result f) low) =? integer_of (ir_int_op (fn_result f) high)) Result_empty_range
  | None => []
  end ++
  (fn_params f ≫= fun p =>
    fail (match pr_deref_size p with Some _ => negb (pr_nonnull p) | None => false end) Param_may_be_none ++
    fail (negb (bool_decide (pr_type p = IR_PTR)) &&
          (pr_nonnull p || pr_own p || match pr_deref_size p with Some _ => true | None => false end)) Param_no_pointer ++
    fail (match pr_deref_size p with Some s => (length (m_syms m) <=? s)%nat | None => false end) Param_sym_missing).

Definition target_ok (o : ir_operand) : list message :=
  match o_kind o with IR_BLOCK _ => [] | _ => [Target_no_block] end.

(** [None] for an aggregate that does not exist. *)
Definition agg_at (t : ir_vtype) : option ir_aggtype :=
  if bool_decide (vt_type t = IR_AGG) then m_aggs m !! vt_agg t else None.

Definition vtype_ok (inst : ir_inst) : list message :=
  fail (bool_decide (vt_type (i_of inst) = IR_VOID) ||
        (bool_decide (vt_type (i_of inst) = IR_AGG) && (length (m_aggs m) <=? vt_agg (i_of inst))%nat)) Type_missing.

Definition access (inst : ir_inst) : list message :=
  if (IR_ACCESS_ENTRY <? i_field inst)%nat then [Access_kind]
  else if bool_decide (i_op inst = IR_STORE) && (i_field inst =? IR_ACCESS_ENTRY)%nat then [Entry_stored]
  else fail (negb (i_field inst =? IR_ACCESS_PLAIN)%nat && negb (bool_decide (i_type inst = IR_PTR))) Access_no_pointer.

Definition access_type (inst : ir_inst) : list message :=
  if bool_decide (vt_type (i_of inst) = IR_VOID) then []
  else if bool_decide (i_type inst = IR_I8) then [Access_i8]
  else if bool_decide (i_type inst ∈ [IR_LOCK; IR_AGG; IR_VOID]) then [Access_of]
  else if negb (i_field inst =? IR_ACCESS_PLAIN)%nat then [Access_not_plain]
  else if negb (bool_decide (vt_type (i_of inst) = IR_AGG))
  then fail (negb (bool_decide (vt_type (i_of inst) = i_type inst))) Access_other
  else match m_aggs m !! vt_agg (i_of inst) with
       | None => [Access_agg_missing]
       | Some agg =>
           if negb (bool_decide (a_kind agg = IR_AGG_STRUCT)) || a_simd agg then [Access_no_struct]
           else match a_fields agg !! i_member inst with
                | None => [Access_no_field]
                | Some field =>
                    if negb (f_bits field =? 0) then [Access_bitfield]
                    else fail (negb (bool_decide (vt_type (f_type field) = i_type inst))) Access_field_type
                end
       end.

(** The caller has checked that a temporary exists. *)
Definition type_of (o : ir_operand) : ir_type :=
  match o_kind o with IR_TEMP t => default IR_VOID (fn_temps f !! t) | _ => o_type o end.

(** An operand that is absent passes. *)
Definition same_type (o : ir_operand) (expected : ir_type) : list message :=
  match o_kind o with
  | IR_NONE => []
  | _ => let bad := operand_ok o in
         if no_issue bad then fail (negb (bool_decide (type_of o = expected))) Operand_type else bad
  end.

(** A simd struct has a lane. *)
Definition lane_of (t : ir_aggtype) : ir_type :=
  match a_fields t with field :: _ => vt_type (f_type field) | [] => IR_VOID end.

Definition vector_ok (inst : ir_inst) : list message :=
  match agg_at (i_of inst) with
  | Some t =>
      if negb (a_simd t) then [Not_simd]
      else
        let lane := lane_of t in
        let lanes := length (a_fields t) in
        fail (CPU_VECTOR_BYTE_CAP <? ir_lane_bytes lane * lanes)%nat Above_cap ++
        fail (negb (bool_decide (i_type inst = lane))) Lane_type ++
        fail (negb (lane_op_ok (i_op inst) (i_field inst) lane)) Lane_op ++
        same_type (i_a inst) IR_PTR ++
        match i_op inst with
        | IR_VSPLAT => same_type (i_b inst) lane
        | IR_VSELECT =>
            same_type (i_b inst) IR_PTR ++ same_type (i_c inst) IR_PTR ++
            match i_args inst with [o] => same_type o IR_PTR | _ => [Select_args] end
        | IR_VSHUFFLE =>
            same_type (i_b inst) IR_PTR ++
            fail (negb (length (i_args inst) =? lanes)%nat) Shuffle_args ++
            (i_args inst ≫= fun o =>
              match o_kind o with IR_INT v => fail (Z.of_nat lanes <=? v) Shuffle_lane | _ => [Shuffle_lane] end)
        | IR_VREDUCE => []
        | _ => same_type (i_b inst) IR_PTR ++ same_type (i_c inst) IR_PTR
        end
  | None => [Not_simd]
  end.

Definition check_call (inst : ir_inst) : list message :=
  let named := match o_kind (i_b inst) with IR_FUNC _ => i_b inst | _ => i_a inst end in
  match o_kind (i_a inst) with IR_FUNC _ => [] | _ => same_type (i_a inst) IR_PTR end ++
  match o_kind named with
  | IR_FUNC index =>
      match m_functions m !! index with
      | Some callee =>
          let takes := length (fn_params callee) in
          let passed := length (i_args inst) in
          fail (if fn_variadic callee then (passed <? takes)%nat else negb (passed =? takes)%nat) Call_count ++
          fail (existsb (fun o => bool_decide (o_type o = IR_AGG)) (drop takes (i_args inst))) Call_agg
      | None => operand_ok named
      end
  | _ => []
  end ++
  match o_kind (i_c inst) with
  | IR_NONE => []
  | IR_GLOBAL _ =>
      operand_ok (i_c inst) ++ fail (negb (no_issue (operand_ok (i_c inst))) || (i_field inst =? 0)%nat) Call_table
  | _ => [Call_table]
  end.

Definition is_temp (o : ir_operand) : bool := match o_kind o with IR_TEMP _ => true | _ => false end.

Definition check_inst (inst : ir_inst) : list message :=
  let result := if bool_decide (fn_result f = IR_AGG) then IR_PTR else fn_result f in
  let type := i_type inst in
  match i_op inst with
  | IR_ADD | IR_SUB | IR_MUL | IR_SDIV | IR_UDIV | IR_SREM | IR_UREM | IR_AND | IR_OR | IR_XOR
  | IR_SHL | IR_SHR_S | IR_SHR_U | IR_FADD | IR_FSUB | IR_FMUL | IR_FDIV =>
      same_type (i_a inst) type ++ same_type (i_b inst) type
  | IR_NEG | IR_NOT | IR_FNEG | IR_COPY | IR_NEG_FL => same_type (i_a inst) type
  | IR_ADD_FL | IR_SUB_FL =>
      same_type (i_a inst) type ++ same_type (i_b inst) type ++ same_type (i_c inst) IR_I8
  | IR_FLAG =>
      fail (negb (is_temp (i_a inst)) || negb (bool_decide (type = IR_I8)) || (IR_FLAG_NEGATIVE <? i_field inst)%nat)
        Flag_operand
  | IR_ADD_OV | IR_SUB_OV | IR_MUL_OV | IR_MULH_S | IR_MULH_U | IR_ADD_SAT_S | IR_ADD_SAT_U
  | IR_SUB_SAT_S | IR_SUB_SAT_U | IR_MUL_SAT_S | IR_MUL_SAT_U | IR_MUL_FL | IR_SHL_FL | IR_SHR_S_FL
  | IR_SHR_U_FL =>
      same_type (i_a inst) type ++ same_type (i_b inst) type
  | IR_EQ | IR_NE | IR_SLT | IR_SLE | IR_SGT | IR_SGE | IR_ULT | IR_ULE | IR_UGT | IR_UGE
  | IR_FEQ | IR_FNE | IR_FLT | IR_FLE | IR_FGT | IR_FGE =>
      operand_ok (i_a inst) ++
      (if no_issue (operand_ok (i_a inst)) then operand_ok (i_b inst) else []) ++
      fail (no_issue (operand_ok (i_a inst)) && no_issue (operand_ok (i_b inst)) &&
            negb (bool_decide (type_of (i_a inst) = type_of (i_b inst)))) Compared_types ++
      fail (negb (bool_decide (type = IR_I8))) Compare_result
  | IR_HEXT => same_type (i_a inst) IR_I16 ++ fail (negb (bool_decide (type = IR_F32))) Hext_result
  | IR_HTRUNC => same_type (i_a inst) IR_F32 ++ fail (negb (bool_decide (type = IR_I16))) Htrunc_result
  | IR_LOAD => same_type (i_a inst) IR_PTR ++ access inst ++ access_type inst
  | IR_STORE => same_type (i_a inst) type ++ same_type (i_b inst) IR_PTR ++ access inst ++ access_type inst
  | IR_PTRADD => same_type (i_a inst) IR_PTR ++ same_type (i_b inst) IR_I64
  | IR_MEMCOPY => same_type (i_a inst) IR_PTR ++ same_type (i_b inst) IR_PTR ++ vtype_ok inst
  | IR_SLOT => vtype_ok inst
  | IR_BITLOAD | IR_BITSTORE =>
      same_type (if bool_decide (i_op inst = IR_BITLOAD) then i_a inst else i_b inst) IR_PTR ++
      (if bool_decide (i_op inst = IR_BITSTORE) then same_type (i_a inst) type else []) ++
      fail (match agg_at (i_of inst) with
            | Some agg => match a_fields agg !! i_field inst with Some field => f_bits field =? 0 | None => true end
            | None => true
            end) No_bitfield
  | IR_VBINARY | IR_VUNARY | IR_VSPLAT | IR_VSELECT | IR_VSHUFFLE | IR_VREDUCE => vector_ok inst
  | IR_CALL => check_call inst
  | IR_JUMP => target_ok (i_a inst)
  | IR_BRANCH => same_type (i_a inst) IR_I8 ++ target_ok (i_b inst) ++ target_ok (i_c inst)
  | IR_BRANCH_OV => fail (negb (is_temp (i_a inst))) Overflow_operand ++ target_ok (i_b inst) ++ target_ok (i_c inst)
  | IR_RET =>
      if negb (bool_decide (type = result)) then [Ret_type]
      else if negb (bool_decide (type = IR_VOID)) then same_type (i_a inst) type else []
  | IR_UNREACHABLE => []
  | _ => operand_ok (i_a inst)
  end.

(** ** Facts of arithmetic, addresses and ranges *)

(** The temporaries that an [IR_SLOT] defines. *)
Definition slots : list bool :=
  fold_left (fun s inst =>
    match i_result inst with
    | Some t => if bool_decide (i_op inst = IR_SLOT) && (t <? temp_count)%nat then <[t := true]> s else s
    | None => s
    end) (concat (fn_blocks f)) (replicate (S temp_count) false).

Definition arith_facts_ok (slots : list bool) (inst : ir_inst) : list message :=
  match i_op inst with
  | IR_ADD | IR_SUB | IR_MUL => fail (IR_WRAP_FACTS <? i_field inst)%nat Wrap_facts
  | IR_ADD_OV | IR_SUB_OV | IR_MUL_OV =>
      fail (negb (Z.land (Z.of_nat (i_field inst)) (2 ^ 32 - 1 - Z.of_nat IR_NSW) =? 0)) Overflow_facts
  | IR_PTRADD => fail (IR_INBOUNDS <? i_field inst)%nat Inbounds_fact
  | IR_LOAD =>
      match o_kind (i_b inst), o_kind (i_c inst) with
      | IR_NONE, IR_NONE => []
      | IR_INT low, IR_INT high =>
          if bool_decide (o_type (i_b inst) = i_type inst) && bool_decide (o_type (i_c inst) = i_type inst) &&
             is_int (i_type inst)
          then fail (low =? high) Range_empty
          else [Range_type]
      | _, _ => [Range_type]
      end
  | IR_LIFE_START | IR_LIFE_END =>
      match o_kind (i_a inst) with
      | IR_TEMP t => fail (negb (t <? temp_count)%nat || negb (default false (slots !! t))) No_slot
      | _ => [No_slot]
      end
  | _ => []
  end.

(** ** The order of the instructions of a block *)

(** [x.result == y.as.temp]. *)
Definition result_is (x : ir_inst) (y : ir_operand) : bool :=
  match i_result x, o_kind y with Some r, IR_TEMP t => (r =? t)%nat | _, _ => false end.

(** The instruction before the reads of flags that end [before], the last one first. *)
Fixpoint before_flags (before : list ir_inst) : option ir_inst :=
  match before with
  | [] => None
  | inst :: before => if bool_decide (i_op inst = IR_FLAG) then before_flags before else Some inst
  end.

Definition order_ok (before : list ir_inst) (inst : ir_inst) (after : list ir_inst) : list message :=
  fail (bool_decide (i_op inst = IR_BRANCH_OV) &&
        match before with
        | [] => true
        | last :: _ => negb (is_overflow (i_op last)) || negb (result_is last (i_a inst))
        end) Overflow_apart ++
  fail (bool_decide (i_op inst = IR_FLAG) &&
        match before_flags before with
        | None => true
        | Some last => negb (is_flag_operation (i_op last)) || negb (result_is last (i_a inst))
        end) Flag_apart ++
  fail (bool_decide (i_op inst = IR_CALL) &&
        match o_kind (i_a inst) with
        | IR_FUNC index => match m_functions m !! index with Some callee => fn_never_returns callee | None => false end
        | _ => false
        end &&
        match after with [] => true | next :: _ => negb (bool_decide (i_op next = IR_UNREACHABLE)) end) Goes_on ++
  fail (is_terminator (i_op inst) && negb (no_issue after)) Not_last.

(** The loop over the instructions: those it passed, the last one first. *)
Fixpoint block_insts (slots : list bool) (before insts : list ir_inst) : list message :=
  match insts with
  | [] => []
  | inst :: after =>
      let bad := indices_ok inst in
      bad ++ (if no_issue bad then check_inst inst ++ arith_facts_ok slots inst else []) ++
      order_ok before inst after ++ block_insts slots (inst :: before) after
  end.

Definition ends_ok (insts : list ir_inst) : list message :=
  fail (match last insts with Some inst => negb (is_terminator (i_op inst)) | None => true end) No_terminator.

Definition block_ok (slots : list bool) (insts : list ir_inst) : list message :=
  block_insts slots [] insts ++ ends_ok insts.

(** ** Definitions *)

Definition set_word (set : list Z) (k : nat) : Z := default 0 (set !! k).

Definition is_set (set : list Z) (temp : nat) : bool :=
  negb (Z.land (Z.shiftr (set_word set (temp / 64)) (Z.of_nat (temp mod 64))) 1 =? 0).

Definition set_bit (set : list Z) (temp : nat) : list Z :=
  alter (fun w => Z.lor w (u64 (Z.shiftl 1 (Z.of_nat (temp mod 64))))) (temp / 64)%nat set.

Definition words : nat := (temp_count / 64 + 1)%nat.

Definition names_block (o : ir_operand) (b : nat) : bool :=
  match o_kind o with IR_BLOCK index => (index =? b)%nat | _ => false end.

(** Whether a block that ends with [last] goes on to [b]. *)
Definition goes_to (last : ir_inst) (b : nat) : bool :=
  (bool_decide (i_op last = IR_JUMP) && names_block (i_a last) b) ||
  ((bool_decide (i_op last = IR_BRANCH) || bool_decide (i_op last = IR_BRANCH_OV)) &&
   (names_block (i_b last) b || names_block (i_c last) b)).

(** The rows of [out] are the sets of the blocks. *)
Definition entry_set (b : nat) (out : list (list Z)) : list Z :=
  let set := replicate words (if (b =? 0)%nat then 0 else UINT64_MAX) in
  let set := if (b =? 0)%nat then fold_left set_bit (map pr_temp (fn_params f)) set else set in
  fold_left (fun set pred =>
    match last (snd pred) with
    | Some inst => if goes_to inst b then zip_with Z.land set (fst pred) else set
    | None => set
    end) (zip out (fn_blocks f)) set.

Definition define (set : list Z) (inst : ir_inst) : list Z :=
  match i_result inst with Some t => if (t <? temp_count)%nat then set_bit set t else set | None => set end.

(** One turn of the loop over the blocks: the sets, and whether one changed. *)
Definition turn (out : list (list Z)) : list (list Z) * bool :=
  fold_left (fun '(out, changed) '(b, insts) =>
    let set := fold_left define insts (entry_set b out) in
    if bool_decide (out !! b = Some set) then (out, changed) else (<[b := set]> out, true))
    (imap pair (fn_blocks f)) (out, false).

(** The loop [while (changed)]; [None] when [fuel] ends first. *)
Fixpoint settle (fuel : nat) (out : list (list Z)) : option (list (list Z)) :=
  match fuel with
  | O => None
  | S fuel => let '(out, changed) := turn out in if changed then settle fuel out else Some out
  end.

(** Every turn but the last clears a bit. *)
Definition turns : nat := S (length (fn_blocks f) * (64 * words)).

Definition use (set : list Z) (o : ir_operand) : list message :=
  match o_kind o with IR_TEMP t => fail ((t <? temp_count)%nat && negb (is_set set t)) Undefined_use | _ => [] end.

Definition operands (inst : ir_inst) : list ir_operand := i_a inst :: i_b inst :: i_c inst :: i_args inst.

Fixpoint uses (set : list Z) (insts : list ir_inst) : list message :=
  match insts with
  | [] => []
  | inst :: insts => (operands inst ≫= use set) ++ uses (define set inst) insts
  end.

(** The issues of each block. *)
Definition check_definitions : option (list (list message)) :=
  out ← settle turns (replicate (length (fn_blocks f)) (replicate words UINT64_MAX));
  Some (imap (fun b insts => uses (entry_set b out) insts) (fn_blocks f)).
End Function.

(** ** The module *)

Section Module_.
Context (m : ir_module).

Definition global_ok (g : option nat) (optional : bool) : bool :=
  match g with None => optional | Some g => (g <? length (m_globals m))%nat end.

Definition fields_of (agg : nat) : nat := match m_aggs m !! agg with Some t => length (a_fields t) | None => 0 end.

Definition check_class (c : ir_class) : bool :=
  global_ok (Some (cl_descriptor c)) false && global_ok (Some (cl_base c)) false && global_ok (cl_table c) true &&
  match cl_init c with None => true | Some i => (i <? length (m_functions m))%nat end &&
  (cl_agg c <? length (m_aggs m))%nat &&
  forallb (fun s => global_ok (Some (sb_interface s)) false && global_ok (Some (sb_table s)) false &&
                    (sb_agg s <? length (m_aggs m))%nat && (sb_field s <? fields_of (sb_agg s))%nat) (cl_subtables c) &&
  forallb (fun field => (field <? fields_of (cl_agg c))%nat) (cl_mutable_fields c) &&
  forallb (fun g => global_ok (Some g) false) (cl_injects c) &&
  forallb (fun g => global_ok (Some g) false) (cl_provides c).

(** The issues of a function, without those of its definitions. *)
Definition function_issues (i : nat) (f : ir_function) : list issue :=
  map (Issue i None) (facts_ok m f) ++
  (if fn_is_extern f then []
   else map (Issue i None) (params_ok f) ++
     concat (imap (fun j insts => map (Issue i (Some j)) (block_ok m f (slots f) insts)) (fn_blocks f))).

Fixpoint verify_functions (i : nat) (functions : list ir_function) (errors : list issue) : option (list issue) :=
  match functions with
  | [] => Some errors
  | f :: functions =>
      let errors := errors ++ function_issues i f in
      errors ← (if negb (fn_is_extern f) && no_issue errors
                then uses ← check_definitions f;
                     Some (errors ++ concat (imap (fun j msgs => map (Issue i (Some j)) msgs) uses))
                else Some errors);
      verify_functions (S i) functions errors
  end.

(** The errors, none of them when the module is accepted. *)
Definition ir_verify : option (bool * list issue) :=
  let errors := concat (imap (fun i c => map (Issue i None) (fail (negb (check_class c)) Class_missing)) (m_classes m)) in
  errors ← verify_functions 0 (m_functions m) errors;
  Some (no_issue errors, errors).
End Module_.
