(* ===== verification/IrDefinitions.v ===== *)
(** * IrDefinitions: the analysis of the definitions is exact

    The sets of IrVerify.v by their bits, the fixpoint of [check_definitions] and what
    it means: a use is reported exactly when some path from the entry reaches it and
    passes no definition of its temporary. *)

From S2P Require Import Prelude Ir IrVerify.

(** ** Sets of bits *)

Definition has (set : list Z) (t : nat) : bool := Z.testbit (set_word set (t / 64)) (Z.of_nat (t mod 64)).

(** An array of [w] words. *)
Definition bits (w : nat) (set : list Z) : Prop := length set = w /\ Forall (in_width 64) set.

Lemma is_set_has set t : is_set set t = has set t.
Proof.
  unfold is_set, has. set (x := set_word set _). rewrite Z.testbit_odd. set (y := Z.shiftr x _).
  change 1 with (Z.ones 1). rewrite Z.land_ones by done. change (2 ^ 1) with 2. rewrite Zmod_odd. by destruct (Z.odd y).
Qed.

Lemma bit_place t : (t = 64 * (t / 64) + t mod 64 /\ t mod 64 < 64)%nat.
Proof. split; [apply Nat.div_mod_eq|by apply Nat.mod_upper_bound]. Qed.

Lemma word_lt w t : (t < 64 * w)%nat -> (t / 64 < w)%nat.
Proof. intros H. by apply Nat.Div0.div_lt_upper_bound. Qed.

Lemma testbit_one k i : 0 <= k < 64 -> 0 <= i -> Z.testbit (u64 (Z.shiftl 1 k)) i = (k =? i).
Proof.
  intros Hk Hi. rewrite Z.shiftl_1_l, wrap_small by (split; [lia|apply Z.pow_lt_mono_r; lia]).
  apply Z.pow2_bits_eqb. lia.
Qed.

Lemma bits_width w set k : bits w set -> in_width 64 (set_word set k).
Proof.
  intros [_ H]. unfold set_word. destruct (set !! k) as [x|] eqn:E; cbn; [by eapply Forall_lookup_1|split; [done|reflexivity]].
Qed.

Lemma set_bit_bits w set t : bits w set -> bits w (set_bit set t).
Proof.
  intros [Hl H]. unfold set_bit. split; [by rewrite length_alter|]. apply Forall_alter; [done|]. intros x _ Hx.
  apply lor_width; [done|done|]. apply wrap_bound. done.
Qed.

Lemma has_set_bit w set t t' :
  bits w set -> (t < 64 * w)%nat -> has (set_bit set t) t' = bool_decide (t = t') || has set t'.
Proof.
  intros [Hl _] Ht. unfold has, set_word, set_bit. pose proof (bit_place t) as [E1 B1]. pose proof (bit_place t') as [E2 B2].
  destruct (decide (t / 64 = t' / 64)%nat) as [E|E].
  - rewrite <- E, list_lookup_alter_eq. destruct (lookup_lt_is_Some_2 set (t / 64)) as [x ->]; [rewrite Hl; by apply word_lt|].
    cbn [fmap option_fmap option_map from_option id]. rewrite Z.lor_spec, testbit_one by lia. rewrite orb_comm. f_equal.
    apply eq_true_iff_eq. rewrite Z.eqb_eq, bool_decide_eq_true. split; [intros; lia|by intros ->].
  - rewrite list_lookup_alter_ne by done. rewrite bool_decide_false; [done|]. by intros ->.
Qed.

Lemma has_land w a b t : bits w a -> bits w b -> (t < 64 * w)%nat -> has (zip_with Z.land a b) t = has a t && has b t.
Proof.
  intros [Ha _] [Hb _] Ht. unfold has, set_word. apply word_lt in Ht.
  destruct (lookup_lt_is_Some_2 a (t / 64)) as [x Hx]; [lia|]. destruct (lookup_lt_is_Some_2 b (t / 64)) as [y Hy]; [lia|].
  rewrite lookup_zip_with, Hx, Hy. cbn. apply Z.land_spec.
Qed.

Lemma land_bits w a b : bits w a -> bits w b -> bits w (zip_with Z.land a b).
Proof.
  intros [Ha Fa] [Hb Fb]. split; [rewrite length_zip_with; lia|]. apply Forall_lookup. intros i x.
  rewrite lookup_zip_with. destruct (a !! i) as [p|] eqn:E1; [|done]. destruct (b !! i) as [q|] eqn:E2; [|done].
  intros [= <-]. pose proof (Forall_lookup_1 _ _ _ _ Fa E1). pose proof (Forall_lookup_1 _ _ _ _ Fb E2) as Hq.
  apply land_width; [done|done|]. apply Hq.
Qed.

Lemma has_replicate w x t : (t < 64 * w)%nat -> has (replicate w x) t = Z.testbit x (Z.of_nat (t mod 64)).
Proof. intros Ht. unfold has, set_word. by rewrite lookup_replicate_2 by by apply word_lt. Qed.

Lemma has_full w t : (t < 64 * w)%nat -> has (replicate w UINT64_MAX) t = true.
Proof.
  intros Ht. rewrite has_replicate by done. change UINT64_MAX with (Z.ones 64). apply Z.ones_spec_low.
  pose proof (bit_place t). lia.
Qed.

Lemma has_none w t : (t < 64 * w)%nat -> has (replicate w 0) t = false.
Proof. intros Ht. rewrite has_replicate by done. apply Z.testbit_0_l. Qed.

Lemma replicate_bits w x : in_width 64 x -> bits w (replicate w x).
Proof. intros H. split; [apply length_replicate|by apply Forall_replicate]. Qed.

Lemma full_width : in_width 64 UINT64_MAX.
Proof. split; [done|reflexivity]. Qed.

(** Two arrays with the same bits are the same. *)
Lemma bits_ext w a b : bits w a -> bits w b -> (forall t, (t < 64 * w)%nat -> has a t = has b t) -> a = b.
Proof.
  intros [Ha Fa] [Hb Fb] H. apply list_eq_same_length with w; [done|lia|]. intros k x y Hk Hx Hy.
  pose proof (Forall_lookup_1 _ _ _ _ Fa Hx) as Wx. pose proof (Forall_lookup_1 _ _ _ _ Fb Hy) as Wy.
  apply Z.bits_inj'. intros i Hi. destruct (Z.lt_ge_cases i 64) as [Hlt|Hge].
  - specialize (H (64 * k + Z.to_nat i)%nat ltac:(lia)). unfold has, set_word in H.
    assert ((64 * k + Z.to_nat i) / 64 = k /\ (64 * k + Z.to_nat i) mod 64 = Z.to_nat i)%nat as [E1 E2].
    { rewrite (Nat.mul_comm 64 k), Nat.add_comm, Nat.div_add, Nat.Div0.mod_add by done.
      rewrite Nat.div_small, Nat.mod_small by lia. done. }
    rewrite E1, E2, Hx, Hy in H. cbn in H. by rewrite Z2Nat.id in H by done.
  - by rewrite !(testbit_small _ 64).
Qed.

(** ** Counting bits *)

Definition size (w : nat) (set : list Z) : nat := length (List.filter (has set) (seq 0 (64 * w))).

Lemma filter_le (p q : nat -> bool) l :
  (forall t, t ∈ l -> q t = true -> p t = true) -> (length (List.filter q l) <= length (List.filter p l))%nat.
Proof.
  induction l as [|x l IH]; intros H; cbn [List.filter]; [lia|].
  specialize (IH ltac:(intros t Ht; apply H; by right)). specialize (H x ltac:(by left)).
  destruct (q x), (p x); cbn [length]; try lia; by specialize (H eq_refl).
Qed.

Lemma filter_lt (p q : nat -> bool) l t :
  (forall t, t ∈ l -> q t = true -> p t = true) -> t ∈ l -> p t = true -> q t = false ->
  (length (List.filter q l) < length (List.filter p l))%nat.
Proof.
  induction l as [|x l IH]; intros H Hin Hp Hq; [by apply elem_of_nil in Hin|]. cbn [List.filter].
  assert (forall t, t ∈ l -> q t = true -> p t = true) as H' by (intros u Hu; apply H; by right).
  apply elem_of_cons in Hin as [->|Hin].
  - rewrite Hp, Hq. cbn [length]. pose proof (filter_le p q l H'). lia.
  - specialize (IH H' Hin Hp Hq). specialize (H x ltac:(by left)).
    destruct (q x), (p x); cbn [length]; try lia; by specialize (H eq_refl).
Qed.

Definition subset (w : nat) (a b : list Z) : Prop := forall t, (t < 64 * w)%nat -> has a t = true -> has b t = true.

Lemma size_lt w a b : bits w a -> bits w b -> subset w a b -> a <> b -> (size w a < size w b)%nat.
Proof.
  intros Ha Hb Hs Hne. destruct (decide (Exists (fun t => has b t = true /\ has a t = false) (seq 0 (64 * w)))) as [E|E].
  - apply Exists_exists in E as (t & Hin & H1 & H2). apply (filter_lt _ _ _ t); [|done..].
    intros u Hu. apply Hs. apply elem_of_seq in Hu. lia.
  - destruct Hne. apply (bits_ext w); [done|done|]. intros t Ht. apply eq_true_iff_eq. split; [by apply Hs|]. intros Hbt.
    destruct (has a t) eqn:Hat; [done|]. destruct E. apply Exists_exists. exists t. split; [|done]. apply elem_of_seq. lia.
Qed.

Lemma size_max w a : (size w a <= 64 * w)%nat.
Proof. unfold size. etrans; [apply List.filter_length_le|]. by rewrite length_seq. Qed.

(** ** The equations of the sets *)

Section Analysis.
Context (f : ir_function) (Hparams : Forall (fun p => (pr_temp p < temp_count f)%nat) (fn_params f)).

Notation blocks := (fn_blocks f).
Notation W := (words f).
Notation N := (64 * W)%nat.

Lemma temp_in_range t : (t < temp_count f)%nat -> (t < N)%nat.
Proof. unfold words. pose proof (bit_place (temp_count f)). lia. Qed.

(** The temporaries that a list of instructions defines. *)
Definition defs (insts : list ir_inst) : list nat :=
  omap (fun inst => match i_result inst with Some t => if (t <? temp_count f)%nat then Some t else None | None => None end) insts.

Lemma define_bits set inst : bits W set -> bits W (define f set inst).
Proof. unfold define. destruct (i_result inst) as [t|]; [|done]. destruct (t <? temp_count f)%nat; [apply set_bit_bits|done]. Qed.

Lemma defines_bits insts set : bits W set -> bits W (fold_left (define f) insts set).
Proof. revert set. induction insts as [|inst insts IH]; intros set H; cbn [fold_left]; [done|]. by apply IH, define_bits. Qed.

Lemma has_define set inst t : bits W set -> has (define f set inst) t = bool_decide (t ∈ defs [inst]) || has set t.
Proof.
  intros H. unfold define, defs. cbn [omap list_omap]. destruct (i_result inst) as [t'|]; [|by rewrite bool_decide_false by apply not_elem_of_nil].
  destruct (Nat.ltb_spec t' (temp_count f)) as [Ht|Ht]; [|by rewrite bool_decide_false by apply not_elem_of_nil].
  rewrite (has_set_bit W) by (done || by apply temp_in_range). f_equal. apply bool_decide_ext.
  rewrite list_elem_of_singleton. by split.
Qed.

Lemma defs_cons inst insts : defs (inst :: insts) = defs [inst] ++ defs insts.
Proof. unfold defs. cbn [omap list_omap]. by destruct (i_result inst) as [t|]; [destruct (t <? temp_count f)%nat|]. Qed.

Lemma has_defines insts set t :
  bits W set -> has (fold_left (define f) insts set) t = bool_decide (t ∈ defs insts) || has set t.
Proof.
  revert set. induction insts as [|inst insts IH]; intros set H; cbn [fold_left].
  { by rewrite bool_decide_false by apply not_elem_of_nil. }
  rewrite IH by by apply define_bits. rewrite has_define by done. rewrite orb_assoc. f_equal.
  rewrite <- bool_decide_or, (defs_cons inst insts). apply bool_decide_ext. rewrite elem_of_app. split; intros [?|?]; auto.
Qed.

(** The sets of all blocks. *)
Definition rows (out : list (list Z)) : Prop := length out = length blocks /\ Forall (bits W) out.

Definition leads (i b : nat) : Prop :=
  exists insts inst, blocks !! i = Some insts /\ last insts = Some inst /\ goes_to inst b = true.

Lemma params_bits set : bits W set -> bits W (fold_left set_bit (map pr_temp (fn_params f)) set).
Proof. generalize (map pr_temp (fn_params f)) as ts. intros ts. revert set. induction ts as [|t ts IH]; intros set H; [done|]. cbn [fold_left]. by apply IH, set_bit_bits. Qed.

Lemma has_params ts set t :
  bits W set -> Forall (fun t => t < temp_count f)%nat ts ->
  has (fold_left set_bit ts set) t = bool_decide (t ∈ ts) || has set t.
Proof.
  intros H Hts. revert set H. induction Hts as [|x ts Hx _ IH]; intros set H; cbn [fold_left].
  { by rewrite bool_decide_false by apply not_elem_of_nil. }
  rewrite IH by by apply set_bit_bits. rewrite (has_set_bit W) by (done || by apply temp_in_range). rewrite orb_assoc. f_equal.
  rewrite <- bool_decide_or. apply bool_decide_ext. rewrite elem_of_cons. split; intros [?|?]; auto.
Qed.

Definition into (b : nat) (set : list Z) (pred : list Z * list ir_inst) : list Z :=
  match last (snd pred) with
  | Some inst => if goes_to inst b then zip_with Z.land set (fst pred) else set
  | None => set
  end.

Lemma into_spec b preds set :
  bits W set -> Forall (fun p => bits W (fst p)) preds ->
  bits W (fold_left (into b) preds set) /\
  forall t, (t < N)%nat -> has (fold_left (into b) preds set) t = true <->
    has set t = true /\
    forall p inst, p ∈ preds -> last (snd p) = Some inst -> goes_to inst b = true -> has (fst p) t = true.
Proof.
  intros H Hp. revert set H. induction Hp as [|[row insts] preds Hrow _ IH]; intros set H; cbn [fold_left].
  { split; [done|]. intros t Ht. split; [|tauto]. intros Hs. split; [done|]. by intros p inst ?%elem_of_nil. }
  assert (bits W (into b set (row, insts))) as Hi.
  { unfold into. cbn [fst snd]. destruct (last insts) as [inst|]; [|done]. destruct (goes_to inst b); [by apply land_bits|done]. }
  destruct (IH _ Hi) as [IH1 IH2]. split; [done|]. intros t Ht. rewrite IH2 by done.
  assert (has (into b set (row, insts)) t = true <->
    has set t = true /\ forall inst, last insts = Some inst -> goes_to inst b = true -> has row t = true) as ->.
  { unfold into. cbn [fst snd] in *. destruct (last insts) as [inst|]; [|split; [by split|by intros [? _]]].
    destruct (goes_to inst b) eqn:Hg.
    - rewrite (has_land W) by done. rewrite andb_true_iff. split; intros [H1 H2]; (split; [done|]); [by intros ? [= <-]|by apply (H2 inst)].
    - split; [intros ?; split; [done|]; intros ? [= <-]; congruence|by intros [? _]]. }
  setoid_rewrite elem_of_cons. split.
  - intros [[H1 H2] H3]. split; [done|]. intros p inst [->|Hin]; [apply H2|by apply H3].
  - intros [H1 H2]. split; [split; [done|]|].
    + intros inst Hlast Hg. apply (H2 (row, insts) inst); [by left|done|done].
    + intros p inst Hin. apply H2. by right.
Qed.

Lemma entry_start b :
  bits W (if (b =? 0)%nat then fold_left set_bit (map pr_temp (fn_params f)) (replicate W (if (b =? 0)%nat then 0 else UINT64_MAX))
          else replicate W (if (b =? 0)%nat then 0 else UINT64_MAX)) /\
  forall t, (t < N)%nat ->
    has (if (b =? 0)%nat then fold_left set_bit (map pr_temp (fn_params f)) (replicate W (if (b =? 0)%nat then 0 else UINT64_MAX))
         else replicate W (if (b =? 0)%nat then 0 else UINT64_MAX)) t = true <->
    (b = 0%nat -> t ∈ map pr_temp (fn_params f)).
Proof.
  destruct (Nat.eqb_spec b 0) as [->|Hb].
  - assert (bits W (replicate W 0)) as H0 by (apply replicate_bits; by split). split; [by apply params_bits|].
    intros t Ht. rewrite has_params by (done || by apply Forall_map). rewrite has_none by done.
    rewrite orb_false_r, bool_decide_eq_true. tauto.
  - split; [apply replicate_bits, full_width|]. intros t Ht. rewrite has_full by done. tauto.
Qed.

Lemma entry_spec b out :
  rows out ->
  bits W (entry_set f b out) /\
  forall t, (t < N)%nat -> has (entry_set f b out) t = true <->
    (b = 0%nat -> t ∈ map pr_temp (fn_params f)) /\
    forall i row, leads i b -> out !! i = Some row -> has row t = true.
Proof.
  intros [Hl Hr]. unfold entry_set. destruct (entry_start b) as [S1 S2].
  destruct (into_spec b (zip out blocks) _ S1) as [I1 I2].
  { apply Forall_lookup. intros i [row insts] Hp. apply lookup_zip_Some in Hp as [Hp _]. by eapply (Forall_lookup_1 _ _ _ _ Hr). }
  split; [exact I1|]. intros t Ht. etrans; [apply I2; done|]. rewrite S2 by done. apply and_iff_compat_l. split.
  - intros H i row (insts & inst & Hb & Hlast & Hg) Hrow. apply (H (row, insts) inst); [|done..].
    apply list_elem_of_lookup. exists i. by apply lookup_zip_Some.
  - intros H [row insts] inst Hin Hlast Hg. apply list_elem_of_lookup in Hin as [i Hp]. apply lookup_zip_Some in Hp as [Hp1 Hp2].
    apply (H i row); [|done]. by exists insts, inst.
Qed.

(** What a turn makes of the set of a block. *)
Definition flow (b : nat) (insts : list ir_inst) (out : list (list Z)) : list Z :=
  fold_left (define f) insts (entry_set f b out).

Lemma flow_bits b insts out : rows out -> bits W (flow b insts out).
Proof. intros H. apply defines_bits, entry_spec, H. Qed.

Lemma flow_spec b insts out t :
  rows out -> (t < N)%nat -> has (flow b insts out) t = true <-> t ∈ defs insts \/ has (entry_set f b out) t = true.
Proof.
  intros H Ht. unfold flow. rewrite has_defines by by apply entry_spec. by rewrite orb_true_iff, bool_decide_eq_true.
Qed.

Definition below (out out' : list (list Z)) : Prop :=
  forall i row row', out !! i = Some row -> out' !! i = Some row' -> subset W row row'.

Lemma flow_mono b insts out out' :
  rows out -> rows out' -> below out out' -> subset W (flow b insts out) (flow b insts out').
Proof.
  intros H H' Hb t Ht. rewrite !flow_spec by done. intros [Hd|He]; [by left|right].
  apply entry_spec in He as [E1 E2]; [|done|done]. apply entry_spec; [done|done|]. split; [done|].
  intros i row' Hi Hrow'. assert (is_Some (out !! i)) as [row Hrow].
  { apply lookup_lt_is_Some. apply lookup_lt_Some in Hrow'. destruct H as [-> _], H' as [<- _]. done. }
  apply (Hb i row row' Hrow Hrow'); [done|]. by eapply E2.
Qed.

(** ** Paths *)

(** A path from the entry to the start of a block, and the temporaries that it
    defines on its way. *)
Inductive path : nat -> list nat -> Prop :=
| path_entry : path 0 (map pr_temp (fn_params f))
| path_edge i b seen insts : path i seen -> leads i b -> blocks !! i = Some insts -> path b (seen ++ defs insts).

(** No set leaves out what every path to it defines, nor holds less than its equation asks. *)
Record sound (out : list (list Z)) : Prop := {
  sd_rows : rows out;
  sd_over : forall b insts row, blocks !! b = Some insts -> out !! b = Some row -> subset W (flow b insts out) row;
  sd_path : forall b insts row t, blocks !! b = Some insts -> out !! b = Some row -> (t < N)%nat -> has row t = false ->
    exists seen, path b seen /\ t ∉ seen ++ defs insts;
}.

(** Some block that leads to [b] does not let the bit [t] in. *)
Definition stopped (out : list (list Z)) (b t : nat) (i : nat) : bool :=
  match out !! i, blocks !! i with
  | Some row, Some insts => match last insts with Some inst => goes_to inst b && negb (has row t) | None => false end
  | _, _ => false
  end.

Lemma stopped_spec out b t i :
  stopped out b t i = true <-> exists row, leads i b /\ out !! i = Some row /\ has row t = false.
Proof.
  unfold stopped, leads. split.
  - destruct (out !! i) as [row|]; [|done]. destruct (blocks !! i) as [insts|]; [|done].
    destruct (last insts) as [inst|] eqn:El; [|done]. intros [Hg Hh%negb_true_iff]%andb_true_iff. exists row.
    split; [by exists insts, inst|done].
  - intros (row & (insts & inst & -> & -> & ->) & -> & ->). done.
Qed.

Lemma entry_misses out b t :
  rows out -> (t < N)%nat -> has (entry_set f b out) t = false ->
  (b = 0%nat /\ t ∉ map pr_temp (fn_params f)) \/ exists i row, leads i b /\ out !! i = Some row /\ has row t = false.
Proof.
  intros Hr Ht He. destruct (decide (b = 0%nat /\ t ∉ map pr_temp (fn_params f))) as [|Hn]; [by left|right].
  destruct (existsb (stopped out b t) (seq 0 (length blocks))) eqn:E.
  - apply existsb_exists in E as (i & _ & (row & H)%stopped_spec). by exists i, row.
  - apply not_true_iff_false in He. destruct He. apply entry_spec; [done|done|]. split.
    + intros Hb. destruct (decide (t ∈ map pr_temp (fn_params f))) as [|Hn']; [done|by destruct Hn].
    + intros i row Hl Hrow. destruct (has row t) eqn:Hh; [done|]. apply not_true_iff_false in E. destruct E.
      apply existsb_exists. exists i. split; [|apply stopped_spec; by exists row].
      apply in_seq. destruct Hl as (insts & _ & Hi & _). apply lookup_lt_Some in Hi. lia.
Qed.

Lemma rows_at out b : rows out -> is_Some (blocks !! b) <-> is_Some (out !! b).
Proof. intros [Hl _]. rewrite !lookup_lt_is_Some. by rewrite Hl. Qed.

(** The bits that the set of the entry lacks, some path to the block does not define. *)
Lemma entry_path out b t :
  sound out -> (t < N)%nat -> has (entry_set f b out) t = false -> exists seen, path b seen /\ t ∉ seen.
Proof.
  intros [Hr _ Hp] Ht He. destruct (entry_misses out b t Hr Ht He) as [[-> Hn]|(i & row & Hl & Hrow & Hh)].
  { exists (map pr_temp (fn_params f)). split; [constructor|done]. }
  destruct Hl as (insts & inst & Hi & Hl). destruct (Hp i insts row t Hi Hrow Ht Hh) as (seen & Hs & Hn).
  exists (seen ++ defs insts). split; [|done]. eapply path_edge; [done|by exists insts, inst|done].
Qed.

Lemma flow_path out b insts t :
  sound out -> (t < N)%nat -> has (flow b insts out) t = false -> exists seen, path b seen /\ t ∉ seen ++ defs insts.
Proof.
  intros Hs Ht Hf. assert (t ∉ defs insts /\ has (entry_set f b out) t = false) as [Hd He].
  { rewrite <- not_true_iff_false, flow_spec in Hf by (done || apply Hs). rewrite <- not_true_iff_false. tauto. }
  destruct (entry_path out b t Hs Ht He) as (seen & Hp & Hn). exists seen. split; [done|]. by rewrite not_elem_of_app.
Qed.

Lemma rows_insert out b row : rows out -> bits W row -> rows (<[b := row]> out).
Proof. intros [Hl Hr] Hb. split; [by rewrite length_insert|by apply Forall_insert]. Qed.

Lemma below_insert out b row old : out !! b = Some old -> subset W row old -> below (<[b := row]> out) out.
Proof.
  intros Hb Hs i r r' Hr Hr' t Ht. destruct (decide (b = i)) as [<-|E].
  - rewrite list_lookup_insert_eq in Hr by by eapply lookup_lt_Some. simplify_eq. by apply Hs.
  - rewrite list_lookup_insert_ne in Hr by done. by simplify_eq.
Qed.

Lemma sound_insert out b insts :
  sound out -> blocks !! b = Some insts -> sound (<[b := flow b insts out]> out).
Proof.
  intros Hs Hb. pose proof Hs as [Hr Ho Hp]. destruct (proj1 (rows_at out b Hr) ltac:(by eexists)) as [old Hold].
  pose proof (flow_bits b insts out Hr) as Hf.
  assert (below (<[b := flow b insts out]> out) out) as Hbelow by (eapply below_insert; [done|by eapply Ho]).
  assert (rows (<[b := flow b insts out]> out)) as Hr' by by apply rows_insert.
  split; [done| |].
  - intros b' insts' row Hb' Hrow t Ht Hh. apply (flow_mono b' insts' _ out Hr' Hr Hbelow t Ht) in Hh.
    destruct (decide (b = b')) as [<-|E].
    + rewrite list_lookup_insert_eq in Hrow by by eapply lookup_lt_Some. simplify_eq. done.
    + rewrite list_lookup_insert_ne in Hrow by done. by apply (Ho b' insts' row).
  - intros b' insts' row t Hb' Hrow Ht Hh. destruct (decide (b = b')) as [<-|E].
    + rewrite list_lookup_insert_eq in Hrow by by eapply lookup_lt_Some. simplify_eq. by apply (flow_path out).
    + rewrite list_lookup_insert_ne in Hrow by done. by apply (Hp b' insts' row).
Qed.

(** ** The loop *)

Definition total (out : list (list Z)) : nat := sum_list_with (size W) out.

Lemma total_insert_row out b row old :
  out !! b = Some old -> (total (<[b := row]> out) + size W old = total out + size W row)%nat.
Proof.
  unfold total. revert b. induction out as [|x out IH]; intros [|b] H; simplify_eq/=; [lia|]. specialize (IH b H). lia.
Qed.

Definition visit : list (list Z) * bool -> nat * list ir_inst -> list (list Z) * bool :=
  fun '(out, changed) '(b, insts) =>
    let set := flow b insts out in
    if bool_decide (out !! b = Some set) then (out, changed) else (<[b := set]> out, true).

(** A turn over some of the blocks: a change makes the sets smaller, and without one
    each set is what its equation gives. *)
Lemma turn_spec todo out changed :
  sound out -> Forall (fun p => blocks !! p.1 = Some p.2) todo ->
  let '(out', changed') := fold_left visit todo (out, changed) in
  sound out' /\ (total out' <= total out)%nat /\
  (if changed' then changed = true \/ (total out' < total out)%nat
   else changed = false /\ out' = out /\ Forall (fun p => out !! p.1 = Some (flow p.1 p.2 out)) todo).
Proof.
  intros Hs Htodo. revert out changed Hs. induction Htodo as [|[b insts] todo Hb _ IH]; intros out changed Hs.
  { cbn [fold_left]. split; [done|]. split; [done|]. destruct changed; [by left|done]. }
  cbn [fold_left visit]. case_bool_decide as E.
  - specialize (IH out changed Hs). destruct (fold_left visit todo (out, changed)) as [out' changed'].
    destruct IH as (H1 & H2 & H3). split; [done|]. split; [done|]. destruct changed'; [done|].
    destruct H3 as (H3 & H4 & H5). split; [done|]. split; [done|]. by constructor.
  - cbn [fst snd] in Hb. specialize (IH _ true (sound_insert out b insts Hs Hb)).
    destruct (fold_left visit todo (<[b := flow b insts out]> out, true)) as [out' changed'].
    destruct IH as (H1 & H2 & H3). pose proof Hs as [Hr Ho _].
    destruct (proj1 (rows_at out b Hr) ltac:(by eexists)) as [old Hold].
    pose proof (total_insert_row out b (flow b insts out) old Hold) as Et.
    assert (size W (flow b insts out) < size W old)%nat as Hlt.
    { apply size_lt; [by apply flow_bits|destruct Hr as [_ Hr]; by eapply (Forall_lookup_1 _ _ _ _ Hr)|by eapply Ho|congruence]. }
    split; [done|]. split; [lia|]. destruct changed'; [|by destruct H3]. right. lia.
Qed.

Lemma all_blocks : Forall (fun p => blocks !! p.1 = Some p.2) (imap pair blocks).
Proof. apply Forall_lookup. intros i p. rewrite list_lookup_imap. destruct (blocks !! i) eqn:E; [|done]. by intros [= <-]. Qed.

Lemma turn_visit out : turn f out = fold_left visit (imap pair blocks) (out, false).
Proof. done. Qed.

Lemma settle_spec fuel out :
  sound out -> (total out < fuel)%nat ->
  exists out', settle f fuel out = Some out' /\ sound out' /\
    forall b insts, blocks !! b = Some insts -> out' !! b = Some (flow b insts out').
Proof.
  revert out. induction fuel as [|fuel IH]; intros out Hs Hf; [lia|]. cbn [settle]. rewrite turn_visit.
  pose proof (turn_spec (imap pair blocks) out false Hs all_blocks) as H.
  destruct (fold_left visit _ _) as [out' changed']. destruct H as (H1 & H2 & H3). destruct changed'.
  - destruct H3 as [|H3]; [done|]. apply IH; [done|lia].
  - destruct H3 as (_ & -> & H3). exists out. split; [done|]. split; [done|]. intros b insts Hb.
    rewrite Forall_lookup in H3. apply (H3 b (b, insts)). by rewrite list_lookup_imap, Hb.
Qed.

Lemma full_sound : sound (replicate (length blocks) (replicate W UINT64_MAX)).
Proof.
  assert (rows (replicate (length blocks) (replicate W UINT64_MAX))) as Hr.
  { split; [apply length_replicate|]. apply Forall_replicate, replicate_bits, full_width. }
  split; [done| |].
  - intros b insts row Hb Hrow t Ht _. apply lookup_replicate in Hrow as [-> _]. by apply has_full.
  - intros b insts row t Hb Hrow Ht. apply lookup_replicate in Hrow as [-> _]. by rewrite has_full.
Qed.

Lemma full_total : (total (replicate (length blocks) (replicate W UINT64_MAX)) < turns f)%nat.
Proof.
  unfold turns, total. apply Nat.lt_succ_r. induction (length blocks) as [|n IH]; cbn [replicate sum_list_with Nat.mul]; [lia|].
  pose proof (size_max W (replicate W UINT64_MAX)). lia.
Qed.

(** ** What the sets mean *)

(** Every path to a block defines what its set holds. *)
Lemma path_defines out b seen t :
  sound out -> (forall b insts, blocks !! b = Some insts -> out !! b = Some (flow b insts out)) ->
  path b seen -> (t < N)%nat -> has (entry_set f b out) t = true -> t ∈ seen.
Proof.
  intros [Hr _ _] Hfix Hp Ht. induction Hp as [|i b seen insts _ IH Hl Hi]; intros He.
  - apply entry_spec in He as [He _]; [|done|done]. by apply He.
  - apply entry_spec in He as [_ He]; [|done|done]. specialize (He i _ Hl (Hfix i insts Hi)).
    apply flow_spec in He; [|done|done]. rewrite elem_of_app. destruct He as [Hd|He]; [by right|left; by apply IH].
Qed.

(** The temporaries that an instruction reads. *)
Definition reads (inst : ir_inst) : list nat :=
  omap (fun o => match o_kind o with IR_TEMP t => Some t | _ => None end) (operands inst).

Lemma use_nil set inst :
  (operands inst ≫= use f set) = [] <-> forall t, t ∈ reads inst -> (t < temp_count f)%nat -> has set t = true.
Proof.
  unfold reads. induction (operands inst) as [|o os IH]; cbn [mbind list_bind omap list_omap].
  { split; [intros _ t Hin; by apply elem_of_nil in Hin|done]. }
  rewrite app_nil. unfold mbind in IH. rewrite IH. unfold use at 1.
  destruct (o_kind o) as [|t| | | | | |]; try (split; [by intros [_ ?]|by split]).
  setoid_rewrite elem_of_cons. unfold fail. rewrite is_set_has. split.
  - intros [H1 H2] t' [->|Hin] Hlt; [|by apply H2]. rewrite (proj2 (Nat.ltb_lt _ _) Hlt) in H1. by destruct (has set t).
  - intros H. split; [|intros; apply H; auto]. destruct (Nat.ltb_spec t (temp_count f)) as [Hlt|]; [|done].
    by rewrite (H t (or_introl eq_refl) Hlt).
Qed.

Lemma uses_nil insts set :
  uses f set insts = [] <->
  forall k inst t, insts !! k = Some inst -> t ∈ reads inst -> (t < temp_count f)%nat ->
    has (fold_left (define f) (take k insts) set) t = true.
Proof.
  revert set. induction insts as [|inst insts IH]; intros set; cbn [uses]; [by split|].
  rewrite app_nil, use_nil, IH. split.
  - intros [H1 H2] [|k] inst' t; cbn; [intros [= <-]; apply H1|apply H2].
  - intros H. split; [intros t; apply (H 0%nat); done|]. intros k inst' t Hk. apply (H (S k)). done.
Qed.

(** The check of the definitions ends, and it has an issue in a block exactly when some
    path from the entry reaches a use there without a definition. *)
Lemma check_definitions_spec :
  exists issues, check_definitions f = Some issues /\ length issues = length blocks /\
    forall b insts, blocks !! b = Some insts ->
      exists msgs, issues !! b = Some msgs /\
        (msgs = [] <-> forall seen k inst t, path b seen -> insts !! k = Some inst -> t ∈ reads inst -> (t < temp_count f)%nat ->
          t ∈ seen ++ defs (take k insts)).
Proof.
  destruct (settle_spec (turns f) _ full_sound full_total) as (out & E & Hs & Hfix). unfold check_definitions. rewrite E.
  cbn [mbind option_bind]. eexists. split; [done|]. split; [apply length_imap|]. intros b insts Hb.
  eexists. rewrite list_lookup_imap, Hb. split; [done|]. rewrite uses_nil. pose proof (sd_rows _ Hs) as Hr.
  destruct (entry_spec b out Hr) as [Hbits _]. split.
  - intros H seen k inst t Hp Hk Ht Hlt. specialize (H k inst t Hk Ht Hlt). rewrite has_defines in H by done.
    rewrite elem_of_app. apply orb_true_iff in H as [H|H]; [right; by apply bool_decide_eq_true in H|left].
    by eapply path_defines; [| | |apply temp_in_range|].
  - intros H k inst t Hk Ht Hlt. rewrite has_defines by done. destruct (has (entry_set f b out) t) eqn:He; [by rewrite orb_true_r|].
    destruct (entry_path out b t Hs (temp_in_range _ Hlt) He) as (seen & Hp & Hn). specialize (H seen k inst t Hp Hk Ht Hlt).
    rewrite elem_of_app in H. rewrite bool_decide_true by tauto. done.
Qed.
End Analysis.
