(* ===== verification/IrVerifySpec.v ===== *)
(** * IrVerifySpec: what an accepted module promises

    A run of a function is any walk over its instructions that follows the targets of
    its terminators. In a module that [ir_verify] accepts no run leaves the blocks or
    reads what it has not defined, and the check rejects a use exactly when some run
    could read it undefined. *)

From S2P Require Import Prelude Ir IrVerify IrDefinitions.

Lemma fail_nil cond msg : fail cond msg = [] <-> cond = false.
Proof. by destruct cond. Qed.

Lemma no_issue_nil {A} (l : list A) : no_issue l = true <-> l = [].
Proof. by destruct l. Qed.

(** ** Runs *)

Definition block_named (o : ir_operand) : list nat := match o_kind o with IR_BLOCK b => [b] | _ => [] end.

(** The blocks that may run after an instruction. *)
Definition successors (inst : ir_inst) : list nat :=
  match i_op inst with
  | IR_JUMP => block_named (i_a inst)
  | IR_BRANCH | IR_BRANCH_OV => block_named (i_b inst) ++ block_named (i_c inst)
  | _ => []
  end.

(** The function may come to instruction [k] of block [b] after the instructions
    [done], the last one first. *)
Inductive run (f : ir_function) : nat -> nat -> list ir_inst -> Prop :=
| run_start : run f 0 0 []
| run_next b k done insts inst :
    run f b k done -> fn_blocks f !! b = Some insts -> insts !! k = Some inst -> is_terminator (i_op inst) = false ->
    run f b (S k) (inst :: done)
| run_goes b k done insts inst b' :
    run f b k done -> fn_blocks f !! b = Some insts -> insts !! k = Some inst -> b' ∈ successors inst ->
    run f b' 0 (inst :: done).

(** A parameter or an instruction that has run defines the temporary. *)
Definition defined (f : ir_function) (done : list ir_inst) (t : nat) : Prop :=
  t ∈ map pr_temp (fn_params f) \/ exists inst, inst ∈ done /\ i_result inst = Some t.

(** What an operand names exists. *)
Definition exists_in (m : ir_module) (f : ir_function) (o : ir_operand) : Prop :=
  match o_kind o with
  | IR_TEMP t => (t < length (fn_temps f))%nat
  | IR_BLOCK b => (b < length (fn_blocks f))%nat
  | IR_FUNC i => (i < length (m_functions m))%nat
  | IR_GLOBAL g => (g < length (m_globals m))%nat
  | IR_SYM s => (s < length (m_syms m))%nat
  | _ => True
  end.

(** The last instruction that is no read of a flag. *)
Definition sets_flags (done : list ir_inst) : option ir_inst :=
  List.find (fun inst => negb (bool_decide (i_op inst = IR_FLAG))) done.

(** What the caller of the IR relies on at an instruction that a run comes to. *)
Record safe_at (m : ir_module) (f : ir_function) (insts : list ir_inst) (k : nat) (done : list ir_inst) (inst : ir_inst) : Prop := {
  sa_exists : Forall (exists_in m f) (operands inst);
  sa_result : forall t, i_result inst = Some t -> (t < length (fn_temps f))%nat;
  sa_reads : forall t, t ∈ reads inst -> defined f done t;
  sa_last : is_terminator (i_op inst) = true <-> S k = length insts;
  sa_overflow : i_op inst = IR_BRANCH_OV -> exists prev done', done = prev :: done' /\ is_overflow (i_op prev) = true /\
    result_is prev (i_a inst) = true;
  sa_flag : i_op inst = IR_FLAG -> exists prev, sets_flags done = Some prev /\ is_flag_operation (i_op prev) = true /\
    result_is prev (i_a inst) = true;
  sa_never : forall i callee, i_op inst = IR_CALL -> o_kind (i_a inst) = IR_FUNC i -> m_functions m !! i = Some callee ->
    fn_never_returns callee = true -> exists next, insts !! S k = Some next /\ i_op next = IR_UNREACHABLE;
}.

Lemma successors_goes inst b : b ∈ successors inst <-> goes_to inst b = true.
Proof.
  assert (forall o, b ∈ block_named o <-> names_block o b = true) as H.
  { intros o. unfold block_named, names_block. destruct (o_kind o); try (split; [by intros ?%elem_of_nil|done]).
    by rewrite list_elem_of_singleton, Nat.eqb_eq. }
  unfold successors, goes_to. destruct (i_op inst); rewrite ?(bool_decide_false (_ = _)) by done; rewrite ?bool_decide_true by done;
    cbn [andb orb]; try (split; [by intros ?%elem_of_nil|done]).
  - by rewrite H, orb_false_r.
  - by rewrite elem_of_app, !H, orb_true_iff.
  - by rewrite elem_of_app, !H, orb_true_iff.
Qed.

Lemma goes_terminates inst b : b ∈ successors inst -> is_terminator (i_op inst) = true.
Proof. unfold successors. destruct (i_op inst); try done; by intros ?%elem_of_nil. Qed.

(** ** Accepted blocks *)

Lemma elem_of_rev {A} (x : A) l : x ∈ rev l <-> x ∈ l.
Proof. by rewrite !list_elem_of_In, <- in_rev. Qed.

Lemma before_flags_find before : before_flags before = sets_flags before.
Proof.
  unfold sets_flags. induction before as [|inst before IH]; cbn [before_flags List.find]; [done|].
  case_bool_decide; cbn [negb]; [done|done].
Qed.

Lemma sets_flags_app before rest prev : sets_flags before = Some prev -> sets_flags (before ++ rest) = Some prev.
Proof.
  unfold sets_flags. induction before as [|inst before IH]; cbn [List.find app]; [done|]. by case_match.
Qed.

Lemma operand_exists m f o : operand_ok m f o = [] <-> exists_in m f o.
Proof.
  unfold operand_ok, exists_in, temp_count. destruct (o_kind o); try done; rewrite fail_nil, Nat.leb_gt; done.
Qed.

Lemma operands_exist m f inst : indices_ok m f inst = [] <->
  (forall t, i_result inst = Some t -> (t < length (fn_temps f))%nat) /\ Forall (exists_in m f) (operands inst).
Proof.
  unfold indices_ok, operands. rewrite !app_nil, fail_nil, !operand_exists, !Forall_cons.
  assert ((i_args inst ≫= operand_ok m f) = [] <-> Forall (exists_in m f) (i_args inst)) as ->.
  { induction (i_args inst) as [|o os IH]; cbn [mbind list_bind]; [done|]. unfold mbind in IH.
    by rewrite app_nil, IH, operand_exists, Forall_cons. }
  apply and_iff_compat_r. unfold temp_count. destruct (i_result inst) as [t|]; [rewrite Nat.leb_gt|done].
  split; [by intros ? ? [= <-]|by auto].
Qed.

Section Block.
Context (m : ir_module) (f : ir_function) (sl : list bool) (insts : list ir_inst) (Hok : block_ok m f sl insts = []).

Lemma block_insts_nil before rest :
  block_insts m f sl before rest = [] -> forall k inst, rest !! k = Some inst ->
  indices_ok m f inst = [] /\ check_inst m f inst = [] /\ arith_facts_ok f sl inst = [] /\
  order_ok m (rev (take k rest) ++ before) inst (drop (S k) rest) = [].
Proof.
  revert before. induction rest as [|x rest IH]; intros before; [done|]. cbn [block_insts].
  intros [Hi H]%app_nil. rewrite Hi in H. cbn [no_issue] in H. apply app_nil in H as [Hc H]. apply app_nil in Hc as [Hc Ha].
  apply app_nil in H as [Ho Hr]. intros [|k] inst.
  - intros [= <-]. cbn [take rev drop app]. done.
  - cbn [lookup list_lookup take rev drop]. intros Hk. destruct (IH _ Hr k inst Hk) as (H1 & H2 & H3 & H4).
    rewrite <- app_assoc. done.
Qed.

Lemma inst_ok k inst :
  insts !! k = Some inst ->
  indices_ok m f inst = [] /\ check_inst m f inst = [] /\ order_ok m (rev (take k insts)) inst (drop (S k) insts) = [].
Proof.
  intros Hk. apply app_nil in Hok as [Hi _]. destruct (block_insts_nil [] insts Hi k inst Hk) as (H1 & H2 & _ & H4).
  by rewrite app_nil_r in H4.
Qed.

(** A terminator is the last instruction, and the last one is a terminator. *)
Lemma terminator_last k inst : insts !! k = Some inst -> is_terminator (i_op inst) = true <-> S k = length insts.
Proof.
  intros Hk. pose proof (lookup_lt_Some _ _ _ Hk) as Hlt. split.
  - intros Ht. destruct (inst_ok k inst Hk) as (_ & _ & Ho). unfold order_ok in Ho. rewrite !app_nil, !fail_nil in Ho.
    destruct Ho as (_ & _ & _ & Ho). rewrite Ht in Ho. cbn [andb] in Ho. apply negb_false_iff, no_issue_nil in Ho.
    apply (f_equal length) in Ho. rewrite length_drop in Ho. cbn in Ho. lia.
  - intros E. apply app_nil in Hok as [_ He]. unfold ends_ok in He. rewrite fail_nil, last_lookup, <- E in He. cbn [pred] in He.
    rewrite Hk in He. by apply negb_false_iff in He.
Qed.

Lemma block_not_empty : (0 < length insts)%nat.
Proof. apply app_nil in Hok as [_ He]. unfold ends_ok in He. destruct insts; [done|cbn; lia]. Qed.
End Block.

(** ** Accepted functions *)

(** Every read is defined on every path that reaches it. *)
Definition paths_defined (f : ir_function) : Prop :=
  forall b insts seen k inst t, fn_blocks f !! b = Some insts -> path f b seen -> insts !! k = Some inst ->
    t ∈ reads inst -> (t < temp_count f)%nat -> t ∈ seen ++ defs f (take k insts).

Section Accepted.
Context (m : ir_module) (f : ir_function) (Hbody : fn_blocks f <> []).
Context (Hblocks : Forall (fun insts => block_ok m f (slots f) insts = []) (fn_blocks f)) (Hdefs : paths_defined f).

Lemma block_at b insts : fn_blocks f !! b = Some insts -> block_ok m f (slots f) insts = [].
Proof. intros Hb. by apply (Forall_lookup_1 _ _ _ _ Hblocks Hb). Qed.

Lemma successor_exists b insts k inst b' :
  fn_blocks f !! b = Some insts -> insts !! k = Some inst -> b' ∈ successors inst -> is_Some (fn_blocks f !! b').
Proof.
  intros Hb Hk Hs. destruct (inst_ok _ _ _ _ (block_at b insts Hb) k inst Hk) as (Hi & _).
  apply operands_exist in Hi as [_ Ho]. unfold operands in Ho. rewrite !Forall_cons in Ho. destruct Ho as (Ha & Hb1 & Hc & _).
  assert (forall o, exists_in m f o -> b' ∈ block_named o -> is_Some (fn_blocks f !! b')) as H.
  { intros o. unfold exists_in, block_named. destruct (o_kind o); try by intros _ ?%elem_of_nil.
    intros Hlt ->%list_elem_of_singleton. by apply lookup_lt_is_Some. }
  unfold successors in Hs. destruct (i_op inst); try by apply elem_of_nil in Hs.
  - by apply (H (i_a inst)).
  - apply elem_of_app in Hs as [Hs|Hs]; [by apply (H (i_b inst))|by apply (H (i_c inst))].
  - apply elem_of_app in Hs as [Hs|Hs]; [by apply (H (i_b inst))|by apply (H (i_c inst))].
Qed.

Lemma defs_results insts t : t ∈ defs f insts -> exists inst, inst ∈ insts /\ i_result inst = Some t.
Proof.
  unfold defs. rewrite list_elem_of_omap. intros (inst & Hin & H). exists inst. split; [done|].
  destruct (i_result inst) as [t'|]; [|done]. by destruct (t' <? temp_count f)%nat; simplify_eq.
Qed.

(** A run follows a path, which defines no more than the run. *)
Lemma run_path b k done :
  run f b k done ->
  exists insts seen rest, fn_blocks f !! b = Some insts /\ (k < length insts)%nat /\ path f b seen /\
    done = rev (take k insts) ++ rest /\ forall t, t ∈ seen -> defined f rest t.
Proof.
  induction 1 as [|b k done insts inst _ IH Hb Hk Ht|b k done insts inst b' _ IH Hb Hk Hs].
  - destruct (lookup_lt_is_Some_2 (fn_blocks f) 0) as [insts E]; [by destruct (fn_blocks f); [|cbn; lia]|]. exists insts, (map pr_temp (fn_params f)), []. split; [done|].
    split; [|split; [constructor|split; [done|by left]]]. by apply (block_not_empty m f (slots f)), (block_at 0).
  - destruct IH as (insts' & seen & rest & Hb' & Hlt & Hp & -> & Hd). simplify_eq. exists insts, seen, rest. split; [done|].
    assert (S k <> length insts) as Hne.
    { intros E. apply (terminator_last _ _ _ _ (block_at b insts Hb) k inst Hk) in E. congruence. }
    split; [lia|]. split; [done|]. split; [|done]. by rewrite (take_S_r _ _ _ Hk), rev_app_distr.
  - destruct IH as (insts' & seen & rest & Hb' & Hlt & Hp & -> & Hd). simplify_eq.
    pose proof (proj1 (terminator_last _ _ _ _ (block_at b insts Hb) k inst Hk) (goes_terminates _ _ Hs)) as El.
    assert (inst :: rev (take k insts) ++ rest = rev insts ++ rest) as ->.
    { rewrite <- (take_ge insts (S k)) at 2 by lia. by rewrite (take_S_r _ _ _ Hk), rev_app_distr. }
    destruct (successor_exists b insts k inst b' Hb Hk Hs) as [insts' Hb2].
    exists insts', (seen ++ defs f insts), (rev insts ++ rest). split; [done|].
    split; [by apply (block_not_empty m f (slots f)), (block_at b')|]. split; [|split; [done|]].
    + eapply path_edge; [done| |done]. exists insts, inst. split; [done|]. split; [|by apply successors_goes].
      rewrite last_lookup, <- El. done.
    + intros t [Ht|Ht]%elem_of_app.
      * destruct (Hd t Ht) as [|(i & Hi & Hr)]; [by left|right]. exists i. rewrite elem_of_app. auto.
      * destruct (defs_results _ _ Ht) as (i & Hi & Hr). right. exists i. split; [|done].
        rewrite elem_of_app. left. by apply elem_of_rev.
Qed.

Lemma run_safe b k done :
  run f b k done ->
  exists insts inst, fn_blocks f !! b = Some insts /\ insts !! k = Some inst /\ safe_at m f insts k done inst.
Proof.
  intros Hrun. destruct (run_path b k done Hrun) as (insts & seen & rest & Hb & Hlt & Hp & -> & Hd).
  destruct (lookup_lt_is_Some_2 insts k Hlt) as [inst Hk]. exists insts, inst. split; [done|]. split; [done|].
  destruct (inst_ok _ _ _ _ (block_at b insts Hb) k inst Hk) as (Hi & _ & Ho).
  apply operands_exist in Hi as [Hr Hops]. unfold order_ok in Ho. rewrite !app_nil, !fail_nil in Ho.
  destruct Ho as (Hov & Hfl & Hne & _).
  split; [done|done| |by apply (terminator_last _ _ _ _ (block_at b insts Hb))|..].
  - intros t Ht. assert (t < temp_count f)%nat as Hlt'.
    { unfold reads in Ht. apply list_elem_of_omap in Ht as (o & Hin & Hot). rewrite Forall_forall in Hops.
      specialize (Hops o Hin). unfold exists_in in Hops. by destruct (o_kind o); simplify_eq. }
    pose proof (Hdefs b insts seen k inst t Hb Hp Hk Ht Hlt') as [H|H]%elem_of_app.
    + destruct (Hd t H) as [|(i & Hin & Hri)]; [by left|right]. exists i. rewrite elem_of_app. auto.
    + destruct (defs_results _ _ H) as (i & Hin & Hri). right. exists i. split; [|done]. rewrite elem_of_app. left.
      by apply elem_of_rev.
  - intros E. rewrite bool_decide_true in Hov by done. cbn [andb] in Hov. destruct (rev (take k insts)) as [|prev before]; [done|].
    apply orb_false_iff in Hov as [H1%negb_false_iff H2%negb_false_iff]. by exists prev, (before ++ rest).
  - intros E. rewrite bool_decide_true in Hfl by done. cbn [andb] in Hfl. rewrite before_flags_find in Hfl.
    destruct (sets_flags (rev (take k insts))) as [prev|] eqn:Ep; [|done].
    apply orb_false_iff in Hfl as [H1%negb_false_iff H2%negb_false_iff]. exists prev. split; [by apply sets_flags_app|done].
  - intros i callee E Ha Hc Hn. rewrite bool_decide_true, Ha, Hc, Hn in Hne by done. cbn [andb] in Hne.
    destruct (drop (S k) insts) as [|next after] eqn:Ed; [done|]. exists next. split.
    + by rewrite <- (Nat.add_0_r (S k)), <- lookup_drop, Ed.
    + by apply negb_false_iff, bool_decide_eq_true in Hne.
Qed.
End Accepted.

(** ** The analysis and the runs *)

Lemma in_take {A} n (l : list A) x : x ∈ take n l -> x ∈ l.
Proof. intros H. rewrite <- (take_drop n l), elem_of_app. by left. Qed.

(** No run reads a temporary that it has not defined. *)
Definition runs_defined (f : ir_function) : Prop :=
  forall b k done insts inst t, run f b k done -> fn_blocks f !! b = Some insts -> insts !! k = Some inst ->
    t ∈ reads inst -> defined f done t.

Section Runs.
Context (m : ir_module) (f : ir_function) (Hbody : fn_blocks f <> []).
Context (Hblocks : Forall (fun insts => block_ok m f (slots f) insts = []) (fn_blocks f)).

Lemma run_within b done insts k :
  run f b 0 done -> fn_blocks f !! b = Some insts -> (k < length insts)%nat -> run f b k (rev (take k insts) ++ done).
Proof.
  intros Hrun Hb. induction k as [|k IH]; intros Hlt; [done|]. destruct (lookup_lt_is_Some_2 insts k) as [inst Hk]; [lia|].
  rewrite (take_S_r _ _ _ Hk), rev_app_distr. cbn [rev app]. eapply run_next; [apply IH; lia|done|done|].
  destruct (is_terminator (i_op inst)) eqn:E; [|done].
  apply (terminator_last _ _ _ _ (block_at _ _ Hblocks b insts Hb) k inst Hk) in E. lia.
Qed.

Lemma result_defs insts inst t : inst ∈ insts -> i_result inst = Some t -> (t < temp_count f)%nat -> t ∈ defs f insts.
Proof.
  intros Hin Hr Ht. unfold defs. apply list_elem_of_omap. exists inst. split; [done|]. by rewrite Hr, (proj2 (Nat.ltb_lt _ _) Ht).
Qed.

(** Some run follows the path and defines no more. *)
Lemma path_run b seen :
  path f b seen -> exists done, run f b 0 done /\ forall t, (t < temp_count f)%nat -> defined f done t -> t ∈ seen.
Proof.
  induction 1 as [|i b seen insts _ IH Hl Hi].
  - exists []. split; [constructor|]. intros t _ [|(inst & Hin & _)]; [done|]. by apply elem_of_nil in Hin.
  - destruct IH as (done & Hrun & Hd). destruct Hl as (insts' & inst & Hi' & Hlast & Hg). rewrite Hi in Hi'. injection Hi' as <-.
    rewrite last_lookup in Hlast. pose proof (lookup_lt_Some _ _ _ Hlast) as Hlt.
    exists (inst :: rev (take (pred (length insts)) insts) ++ done). split.
    { eapply run_goes; [by apply (run_within i done insts)|done|done|by apply successors_goes]. }
    intros t Ht Hdef. rewrite elem_of_app. destruct Hdef as [Hp|(x & Hx & Hr)]; [left; apply Hd; [done|by left]|].
    apply elem_of_cons in Hx as [->|[Hx|Hx]%elem_of_app].
    + right. apply (result_defs insts inst); [by eapply list_elem_of_lookup_2|done|done].
    + right. rewrite elem_of_rev in Hx. apply (result_defs insts x); [by eapply in_take|done|done].
    + left. apply Hd; [done|]. right. by exists x.
Qed.

Lemma paths_runs : paths_defined f <-> runs_defined f.
Proof.
  split.
  - intros H b k done insts inst t Hrun Hb Hk Ht. destruct (run_safe m f Hbody Hblocks H b k done Hrun) as (insts' & inst' & Hb' & Hk' & Hs).
    simplify_eq. by apply (sa_reads _ _ _ _ _ _ Hs).
  - intros H b insts seen k inst t Hb Hp Hk Ht Hlt. destruct (path_run b seen Hp) as (done & Hrun & Hd).
    pose proof (lookup_lt_Some _ _ _ Hk) as Hl. rewrite elem_of_app.
    destruct (H b k _ insts inst t (run_within b done insts k Hrun Hb Hl) Hb Hk Ht) as [Hpar|(x & Hx & Hr)].
    + left. apply Hd; [done|by left].
    + apply elem_of_app in Hx as [Hx|Hx]; [right|left].
      * rewrite elem_of_rev in Hx. by eapply result_defs.
      * apply Hd; [done|]. right. by exists x.
Qed.
End Runs.

(** ** Modules *)

(** What the check asks of a function. *)
Definition accepted (m : ir_module) (f : ir_function) : Prop :=
  facts_ok m f = [] /\
  (fn_is_extern f = false ->
    params_ok f = [] /\ Forall (fun insts => block_ok m f (slots f) insts = []) (fn_blocks f) /\ runs_defined f).

Lemma concat_imap_nil {A B} (g : nat -> A -> list B) l :
  concat (imap g l) = [] <-> forall j x, l !! j = Some x -> g j x = [].
Proof.
  revert g. induction l as [|x l IH]; intros g; [by split|]. rewrite imap_cons. cbn [concat].
  rewrite app_nil, (IH (g ∘ S)). split.
  - intros [H1 H2] [|j] y; cbn; [by intros [= <-]|apply H2].
  - intros H. split; [by apply (H 0%nat)|]. intros j y Hj. by apply (H (S j)).
Qed.

Lemma map_nil {A B} (g : A -> B) l : map g l = [] <-> l = [].
Proof. by destruct l. Qed.

Lemma params_in_range f : params_ok f = [] -> Forall (fun p => (pr_temp p < temp_count f)%nat) (fn_params f).
Proof.
  unfold params_ok. induction (fn_params f) as [|p ps IH]; [constructor|]. cbn [mbind list_bind]. rewrite app_nil, fail_nil, Nat.leb_gt.
  intros [H1 H2]. constructor; [done|by apply IH].
Qed.

Lemma no_blocks_defined f : fn_blocks f = [] -> runs_defined f.
Proof. intros E b k done insts inst t _ Hb. by rewrite E in Hb. Qed.

Lemma definitions_nil m f :
  params_ok f = [] -> Forall (fun insts => block_ok m f (slots f) insts = []) (fn_blocks f) ->
  exists uses, check_definitions f = Some uses /\
    forall i, concat (imap (fun j msgs => map (Issue i (Some j)) msgs) uses) = [] <-> runs_defined f.
Proof.
  intros Hp Hb. destruct (check_definitions_spec f (params_in_range f Hp)) as (uses & E & Hl & Hu). exists uses. split; [done|].
  intros i. rewrite concat_imap_nil. setoid_rewrite map_nil.
  destruct (decide (fn_blocks f = [])) as [Hn|Hn].
  { split; [intros _; by apply no_blocks_defined|]. intros _ j x Hj. apply lookup_lt_Some in Hj. by rewrite Hl, Hn in Hj; cbn in Hj; lia. }
  rewrite <- (paths_runs m f Hn Hb). split.
  - intros H b insts seen k inst t Hbl. destruct (Hu b insts Hbl) as (msgs & Hm & Hiff). apply Hiff. by apply (H b).
  - intros H j msgs Hj. destruct (lookup_lt_is_Some_2 (fn_blocks f) j) as [insts Hbl]; [rewrite <- Hl; by eapply lookup_lt_Some|].
    destruct (Hu j insts Hbl) as (msgs' & Hm & Hiff). simplify_eq. apply Hiff. intros seen k inst t. by apply (H j insts).
Qed.

Lemma function_issues_nil m i f :
  function_issues m i f = [] <-> facts_ok m f = [] /\
    (fn_is_extern f = false -> params_ok f = [] /\ Forall (fun insts => block_ok m f (slots f) insts = []) (fn_blocks f)).
Proof.
  unfold function_issues. rewrite app_nil, map_nil. apply and_iff_compat_l. destruct (fn_is_extern f); [done|].
  rewrite app_nil, map_nil, concat_imap_nil. setoid_rewrite map_nil. rewrite Forall_lookup. naive_solver.
Qed.

Lemma verify_functions_spec m i fs errors :
  exists errors', verify_functions m i fs errors = Some errors' /\ (errors' = [] <-> errors = [] /\ Forall (accepted m) fs).
Proof.
  revert i errors. induction fs as [|f fs IH]; intros i errors; cbn [verify_functions].
  { exists errors. split; [done|]. split; [by split|by intros [? _]]. }
  assert (exists e, (if negb (fn_is_extern f) && no_issue (errors ++ function_issues m i f)
    then uses ← check_definitions f;
         Some ((errors ++ function_issues m i f) ++ concat (imap (fun j msgs => map (Issue i (Some j)) msgs) uses))
    else Some (errors ++ function_issues m i f)) = Some e /\ (e = [] <-> errors = [] /\ accepted m f)) as (e & -> & He).
  { unfold accepted. destruct (fn_is_extern f) eqn:Ex; cbn [negb andb].
    - eexists. split; [done|]. rewrite app_nil, function_issues_nil, Ex. naive_solver.
    - destruct (no_issue (errors ++ function_issues m i f)) eqn:En.
      + apply no_issue_nil in En. pose proof En as [He Hi]%app_nil. apply function_issues_nil in Hi as [Hf Hi].
        destruct (Hi Ex) as [Hp Hb]. destruct (definitions_nil m f Hp Hb) as (uses & -> & Hu). cbn [mbind option_bind].
        eexists. split; [done|]. rewrite En, app_nil_l, Hu. naive_solver.
      + eexists. split; [done|]. split.
        * intros E. by rewrite E in En.
        * intros (E & Hf & Hi). destruct (Hi eq_refl) as (Hp & Hb & _).
          assert (errors ++ function_issues m i f = []) as E'; [|by rewrite E' in En].
          rewrite app_nil, function_issues_nil. naive_solver. }
  cbn [mbind option_bind]. destruct (IH (S i) e) as (errors' & -> & Hiff). exists errors'. split; [done|].
  rewrite Hiff, He, Forall_cons. tauto.
Qed.

Lemma ir_verify_spec m :
  exists errors, ir_verify m = Some (no_issue errors, errors) /\
    (errors = [] <-> Forall (fun c => check_class m c = true) (m_classes m) /\ Forall (accepted m) (m_functions m)).
Proof.
  unfold ir_verify. destruct (verify_functions_spec m 0 (m_functions m)
    (concat (imap (fun i c => map (Issue i None) (fail (negb (check_class m c)) Class_missing)) (m_classes m)))) as (errors & -> & H).
  cbn [mbind option_bind]. exists errors. split; [done|]. rewrite H. apply and_iff_compat_r.
  rewrite concat_imap_nil, Forall_lookup. setoid_rewrite map_nil. setoid_rewrite fail_nil. setoid_rewrite negb_false_iff. done.
Qed.

(** ** Properties *)

(** C11. The runs of an accepted module are safe: whatever way a run of a function with
    a body takes through its branches, it comes to an instruction of an existing
    block, whose operands name what exists and whose temporaries are all defined by
    then; the block ends exactly at its terminator, a branch on overflow and a read of
    a flag come right after the operation that sets them, and after the call of a
    function that never returns the block ends as unreachable. *)
Theorem verified_runs_safe m errors f b k done
  (Hm : ir_verify m = Some (true, errors)) (Hf : f ∈ m_functions m) (Hx : fn_is_extern f = false)
  (Hbody : fn_blocks f <> []) (Hrun : run f b k done) :
  exists insts inst, fn_blocks f !! b = Some insts /\ insts !! k = Some inst /\ safe_at m f insts k done inst.
Proof.
  destruct (ir_verify_spec m) as (errors' & E & H). rewrite E in Hm. injection Hm as Hn <-.
  apply no_issue_nil in Hn. apply H in Hn as [_ Hall]. rewrite Forall_forall in Hall. destruct (Hall f Hf) as [_ Hbodies].
  destruct (Hbodies Hx) as (_ & Hb & Hd). apply (run_safe m f Hbody Hb); [|done]. by apply (paths_runs m f Hbody Hb).
Qed.


(** *** A function with a loop *)
Module Loop.
Definition none : ir_operand := Operand IR_NONE IR_VOID.
Definition temp (t : nat) : ir_operand := Operand (IR_TEMP t) IR_VOID.
Definition int (v : Z) : ir_operand := Operand (IR_INT v) IR_I64.
Definition block (b : nat) : ir_operand := Operand (IR_BLOCK b) IR_VOID.
Definition inst (op : ir_op) (type : ir_type) (result : option nat) (a b c : ir_operand) : ir_inst :=
  Inst op type result a b c {| vt_type := IR_VOID; vt_agg := 0 |} 0 0 [].

(** The sum of the integers below %0, in %1, with %2 the next of them; [early] leaves
    out the first definition of the sum. *)
Definition sum (early : bool) : ir_function := {|
  fn_params := [{| pr_type := IR_I64; pr_ext := IR_EXT_NONE; pr_agg := 0; pr_temp := 0; pr_nonnull := false; pr_own := false;
                   pr_deref_size := None |}];
  fn_result := IR_I64; fn_result_agg := 0; fn_result_ext := IR_EXT_NONE; fn_allocates := false; fn_result_range := None;
  fn_is_extern := false; fn_variadic := false; fn_never_returns := false;
  fn_blocks :=
    [ (if early then [inst IR_COPY IR_I64 (Some 1%nat) (int 0) none none] else []) ++
      [ inst IR_COPY IR_I64 (Some 2%nat) (int 0) none none; inst IR_JUMP IR_VOID None (block 1) none none ];
      [ inst IR_ULT IR_I8 (Some 3%nat) (temp 2) (temp 0) none; inst IR_BRANCH IR_VOID None (temp 3) (block 2) (block 4) ];
      [ inst IR_ADD_OV IR_I64 (Some 1%nat) (temp 1) (temp 2) none;
        inst IR_BRANCH_OV IR_VOID None (temp 1) (block 5) (block 3) ];
      [ inst IR_ADD IR_I64 (Some 2%nat) (temp 2) (int 1) none; inst IR_JUMP IR_VOID None (block 1) none none ];
      [ inst IR_RET IR_I64 None (temp 1) none none ];
      [ inst IR_UNREACHABLE IR_VOID None none none none ] ];
  fn_temps := [IR_I64; IR_I64; IR_I64; IR_I8] |}.

Definition modul (early : bool) : ir_module :=
  {| m_aggs := []; m_syms := []; m_functions := [sum early]; m_globals := []; m_classes := [] |}.

(** The use of the sum before the loop defines it is found in the body and at the end. *)
Example undefined_found :
  ir_verify (modul false) = Some (false, [Issue 0 (Some 2%nat) Undefined_use; Issue 0 (Some 4%nat) Undefined_use]).
Proof. vm_compute. reflexivity. Qed.

(** The instructions of the entry, then the test of the loop. *)
Definition entry : list ir_inst := rev (default [] (fn_blocks (sum true) !! 0%nat)).

Lemma into_loop : run (sum true) 1 0 entry.
Proof.
  apply (run_goes _ 0 2 (drop 1 entry) (default [] (fn_blocks (sum true) !! 0%nat))); [|reflexivity|reflexivity|by left].
  do 2 (eapply run_next; [|reflexivity|reflexivity|reflexivity]). constructor.
Qed.
End Loop.

Lemma verified_runs_safe_witness :
  ir_verify (Loop.modul true) = Some (true, []) /\
  exists insts inst, fn_blocks (Loop.sum true) !! 1%nat = Some insts /\ insts !! 0%nat = Some inst /\
    safe_at (Loop.modul true) (Loop.sum true) insts 0 Loop.entry inst.
Proof.
  assert (ir_verify (Loop.modul true) = Some (true, [])) as H by (vm_compute; reflexivity). split; [exact H|].
  apply (verified_runs_safe (Loop.modul true) [] (Loop.sum true) 1 0 Loop.entry H); [by left|reflexivity|discriminate|].
  exact Loop.into_loop.
Defined.

(** An absent operand passes, and the type of a result is not compared with that of
    its temporary. *)
Module Absent.
Definition body : ir_function := {|
  fn_params := []; fn_result := IR_I64; fn_result_agg := 0; fn_result_ext := IR_EXT_NONE; fn_allocates := false;
  fn_result_range := None; fn_is_extern := false; fn_variadic := false; fn_never_returns := false;
  fn_blocks := [[ Loop.inst IR_ADD IR_I32 (Some 0%nat) Loop.none Loop.none Loop.none;
                  Loop.inst IR_RET IR_I64 None Loop.none Loop.none Loop.none ]];
  fn_temps := [IR_F64] |}.

Example absent_accepted :
  ir_verify {| m_aggs := []; m_syms := []; m_functions := [body]; m_globals := []; m_classes := [] |} = Some (true, []).
Proof. vm_compute. reflexivity. Qed.
End Absent.
