(* ===== verification/PtrSet.v ===== *)
(** * PtrSet: the open-addressed tables of pointers

    Models src/antic/ptrset.c: one table serves the set, the map and the index,
    which differ in the kind of their values: [unit], a pointer, a [uint32_t].
    A pointer is its address, [NULL] is 0. A loop that could run on returns
    [None] when its fuel ends; [probe_total] shows that it never does on a
    table that the operations made. Memory that runs out ends the program in
    alloc.c and is not modelled. *)

From S2P Require Import Prelude.

Definition FIRST_CAPACITY : nat := 64.

Definition ptr_slot (p : Z) (capacity : nat) : nat :=
  let h := u64 p in
  let h := Z.lxor h (Z.shiftr h 33) in
  let h := u64 (h * 0xff51afd7ed558ccd) in
  let h := Z.lxor h (Z.shiftr h 33) in
  Z.to_nat (Z.land h (Z.of_nat capacity - 1)).

(** The slot after [i]: [(i + 1) & (capacity - 1)]. *)
Definition next_slot (i capacity : nat) : nat := Nat.land (i + 1) (capacity - 1).

Fixpoint probe_from (fuel : nat) (keys : list Z) (capacity : nat) (p : Z) (i : nat)
    : option nat :=
  match fuel with
  | O => None
  | S f =>
      k ← keys !! i;
      if (k =? 0) || (k =? p) then Some i
      else probe_from f keys capacity p (next_slot i capacity)
  end.

Definition probe (keys : list Z) (capacity : nat) (p : Z) : option nat :=
  probe_from capacity keys capacity p (ptr_slot p capacity).

Record table (V : Type) := {
  keys : list Z;
  values : list V;
  capacity : nat;
  count : nat
}.
Arguments keys {V} _.
Arguments values {V} _.
Arguments capacity {V} _.
Arguments count {V} _.

(** A zeroed struct is empty. *)
Definition empty_table (V : Type) : table V :=
  {| keys := []; values := []; capacity := 0; count := 0 |}.

Section operations.
Context {V : Type} (zero : V).

(** The loop of [make_room] over the old slots, into the new arrays. *)
Fixpoint rehash (room : nat) (old : list (Z * V)) (ks : list Z) (vs : list V)
    : option (list Z * list V) :=
  match old with
  | [] => Some (ks, vs)
  | (k, v) :: rest =>
      if k =? 0 then rehash room rest ks vs
      else
        at_ ← probe ks room k;
        rehash room rest (<[at_ := k]> ks) (<[at_ := v]> vs)
  end.

Definition make_room (t : table V) : option (table V) :=
  let room := (if capacity t =? 0 then FIRST_CAPACITY else capacity t * 2)%nat in
  if ((count t + 1) * 2 <=? capacity t)%nat then Some t
  else
    '(ks, vs) ← rehash room (zip (keys t) (values t)) (replicate room 0) (replicate room zero);
    Some {| keys := ks; values := vs; capacity := room; count := count t |}.

(** [ptr_map_put] and [ptr_index_put]. *)
Definition ptr_map_put (t : table V) (key : Z) (value : V) : option (table V) :=
  t ← make_room t;
  i ← probe (keys t) (capacity t) key;
  k ← keys t !! i;
  if k =? 0 then
    Some {| keys := <[i := key]> (keys t); values := <[i := value]> (values t);
            capacity := capacity t; count := S (count t) |}
  else
    Some {| keys := keys t; values := <[i := value]> (values t);
            capacity := capacity t; count := count t |}.

(** [ptr_index_get]: [Some None] is the result [false]. *)
Definition ptr_index_get (t : table V) (key : Z) : option (option V) :=
  if (capacity t =? 0)%nat then Some None
  else
    i ← probe (keys t) (capacity t) key;
    k ← keys t !! i;
    if k =? 0 then Some None else Some (values t !! i).

(** [ptr_map_get]: the value of the key, or [NULL], here [zero]. *)
Definition ptr_map_get (t : table V) (key : Z) : option V :=
  if (capacity t =? 0)%nat then Some zero
  else
    i ← probe (keys t) (capacity t) key;
    k ← keys t !! i;
    if k =? 0 then Some zero else values t !! i.

Definition ptr_table_free (t : table V) : table V := empty_table V.
End operations.

(** The set: a table without values. *)
Definition ptr_set_add (s : table unit) (p : Z) : option (bool * table unit) :=
  s ← make_room tt s;
  i ← probe (keys s) (capacity s) p;
  k ← keys s !! i;
  if k =? 0 then
    Some (true, {| keys := <[i := p]> (keys s); values := values s;
                   capacity := capacity s; count := S (count s) |})
  else Some (false, s).

Definition ptr_set_has (s : table unit) (p : Z) : option bool :=
  if (capacity s =? 0)%nat then Some false
  else
    i ← probe (keys s) (capacity s) p;
    k ← keys s !! i;
    Some (negb (k =? 0)).

(** ** The invariant *)

(** A table as the operations leave it: empty, or a power of two of slots, at
    most half of them taken, where the probe for every key stands on it. *)
Definition probes_to_itself (ks : list Z) (cap : nat) : Prop :=
  forall i p, ks !! i = Some p -> p <> 0 -> probe ks cap p = Some i.

Definition occupied (ks : list Z) : nat := length (filter (fun k => k <> 0) ks).

Record slots_ok {V} (cap : nat) (ks : list Z) (vs : list V) : Prop := {
  so_pow : exists k, cap = (2 ^ k)%nat;
  so_keys : length ks = cap;
  so_values : length vs = cap;
  so_probe : probes_to_itself ks cap
}.

Definition table_ok {V} (t : table V) : Prop :=
  (capacity t = 0%nat /\ keys t = [] /\ values t = [] /\ count t = 0%nat) \/
  (slots_ok (capacity t) (keys t) (values t) /\ count t = occupied (keys t) /\
   (2 * count t <= capacity t)%nat).

(** What a table holds: a finite map from keys that are not [NULL]. *)
Definition holds {V} (ks : list Z) (vs : list V) (m : gmap Z V) : Prop :=
  m !! 0 = None /\
  forall p v, p <> 0 -> (m !! p = Some v <-> exists i, ks !! i = Some p /\ vs !! i = Some v).

Definition table_rel {V} (t : table V) (m : gmap Z V) : Prop :=
  table_ok t /\ holds (keys t) (values t) m.

(** ** The probe *)

Definition pos (cap h d : nat) : nat := ((h + d) mod cap)%nat.

(** The slot where a probe for [p] ends: an empty one, or the one of [p]. *)
Definition stops (ks : list Z) (p : Z) (i : nat) : Prop :=
  exists k, ks !! i = Some k /\ (k = 0 \/ k = p).

Lemma pow2_nonzero k : (2 ^ k <> 0)%nat.
Proof. apply Nat.pow_nonzero. lia. Qed.

Lemma next_slot_mod k i : next_slot i (2 ^ k) = ((i + 1) mod 2 ^ k)%nat.
Proof.
  unfold next_slot. rewrite Nat.sub_1_r, <- Nat.ones_equiv. apply Nat.land_ones.
Qed.

Lemma ptr_slot_lt k p : (ptr_slot p (2 ^ k) < 2 ^ k)%nat.
Proof.
  unfold ptr_slot. cbv zeta. match goal with |- context [Z.land ?x _] => generalize x end. intros h.
  rewrite Nat2Z.inj_pow, land_mask by lia.
  pose proof (Z.mod_pos_bound h (Z.of_nat 2 ^ Z.of_nat k) ltac:(lia)).
  apply Nat2Z.inj_lt. rewrite Z2Nat.id, Nat2Z.inj_pow by lia. lia.
Qed.

Lemma pos_next k h d : next_slot (pos (2 ^ k) h d) (2 ^ k) = pos (2 ^ k) h (S d).
Proof.
  unfold pos. rewrite next_slot_mod, Nat.Div0.add_mod_idemp_l. f_equal. lia.
Qed.

Lemma pos_lt k h d : (pos (2 ^ k) h d < 2 ^ k)%nat.
Proof. apply Nat.mod_upper_bound, pow2_nonzero. Qed.

Lemma stops_dec_cases ks p i k :
  ks !! i = Some k -> ((k =? 0) || (k =? p) = true <-> stops ks p i).
Proof.
  intros E. unfold stops. rewrite orb_true_iff, !Z.eqb_eq. split.
  - intros ?. exists k. auto.
  - intros (k' & E' & ?). congruence.
Qed.

Section probing.
Context (k : nat) (ks : list Z) (p : Z).
Context (Hlen : length ks = (2 ^ k)%nat).
Let cap := (2 ^ k)%nat.

Lemma slot_in_range h d : exists x, ks !! pos cap h d = Some x.
Proof. apply lookup_lt_is_Some. rewrite Hlen. apply pos_lt. Qed.

Lemma probe_from_Some fuel h d0 i :
  probe_from fuel ks cap p (pos cap h d0) = Some i <->
  exists d, (d0 <= d < d0 + fuel)%nat /\ i = pos cap h d /\ stops ks p i /\
            forall d', (d0 <= d' < d)%nat -> ~ stops ks p (pos cap h d').
Proof.
  revert d0. induction fuel as [|f IH]; intros d0; cbn [probe_from].
  { split; [done|]. intros (d & ? & _). lia. }
  destruct (slot_in_range h d0) as [x Ex]. rewrite Ex. cbn [mbind option_bind].
  pose proof (stops_dec_cases ks p _ x Ex) as Hs. destruct ((x =? 0) || (x =? p)).
  - split.
    + intros [= <-]. exists d0. repeat split; [lia..|tauto|]. intros; lia.
    + intros (d & Hd & -> & _ & Hmin). f_equal. destruct (decide (d = d0)) as [->|]; [done|].
      exfalso. apply (Hmin d0); [lia|tauto].
  - unfold cap at 2. rewrite pos_next. fold cap. rewrite IH. split.
    + intros (d & Hd & -> & Hst & Hmin). exists d. repeat split; [lia..|done|].
      intros d' Hd'. destruct (decide (d' = d0)) as [->|]; [intros Hx; apply Hs in Hx; done|apply Hmin; lia].
    + intros (d & Hd & -> & Hst & Hmin). exists d.
      destruct (decide (d = d0)) as [->|]; [apply Hs in Hst; done|].
      repeat split; [lia..|done|]. intros. apply Hmin. lia.
Qed.

Lemma probe_from_None fuel h d0 :
  probe_from fuel ks cap p (pos cap h d0) = None ->
  forall d, (d0 <= d < d0 + fuel)%nat -> ~ stops ks p (pos cap h d).
Proof.
  revert d0. induction fuel as [|f IH]; intros d0; cbn [probe_from]; [lia|].
  destruct (slot_in_range h d0) as [x Ex]. rewrite Ex. cbn [mbind option_bind].
  pose proof (stops_dec_cases ks p _ x Ex) as Hs. destruct ((x =? 0) || (x =? p)); [done|].
  unfold cap at 2. rewrite pos_next. fold cap. intros E d Hd.
  destruct (decide (d = d0)) as [->|]; [intros Hx; apply Hs in Hx; done|]. apply (IH _ E). lia.
Qed.

Lemma pos_start : pos cap (ptr_slot p cap) 0 = ptr_slot p cap.
Proof. unfold pos. rewrite Nat.add_0_r. apply Nat.mod_small, ptr_slot_lt. Qed.

Lemma probe_Some i :
  probe ks cap p = Some i <->
  exists d, (d < cap)%nat /\ i = pos cap (ptr_slot p cap) d /\ stops ks p i /\
            forall d', (d' < d)%nat -> ~ stops ks p (pos cap (ptr_slot p cap) d').
Proof.
  unfold probe. rewrite <- pos_start, probe_from_Some, pos_start.
  split; intros (d & ? & ? & ? & Hm); exists d; repeat split; try done; try lia; intros; apply Hm; lia.
Qed.

(** A probe of a table with an empty slot ends within a turn of the table. *)
Lemma probe_is_Some i : ks !! i = Some 0 -> is_Some (probe ks cap p).
Proof.
  intros E. destruct (probe ks cap p) as [j|] eqn:Ep; [eauto|exfalso].
  unfold probe in Ep. rewrite <- pos_start in Ep.
  assert (Hi : (i < cap)%nat) by (apply lookup_lt_Some in E; rewrite Hlen in E; done).
  set (h := ptr_slot p cap) in *. assert (Hh : (h < cap)%nat) by apply ptr_slot_lt.
  pose proof (probe_from_None cap h 0 Ep (if decide (h <= i)%nat then i - h else cap + i - h)%nat) as Hn.
  apply Hn; [case_decide; lia|].
  exists 0. split; [|auto]. rewrite <- E. f_equal. unfold pos. case_decide.
  - replace (h + (i - h))%nat with i by lia. apply Nat.mod_small. done.
  - replace (h + (cap + i - h))%nat with (i + 1 * cap)%nat by lia.
    rewrite Nat.Div0.mod_add. apply Nat.mod_small. done.
Qed.
End probing.

(** ** Taking a slot *)

Lemma occupied_insert ks i p :
  ks !! i = Some 0 -> p <> 0 -> occupied (<[i := p]> ks) = S (occupied ks).
Proof.
  unfold occupied. revert i. induction ks as [|k ks IH]; intros [|i] E Hp; [done..| |].
  - cbn in E. injection E as ->. change (<[0%nat := p]> (0 :: ks)) with (p :: ks). rewrite !filter_cons.
    destruct (decide (p <> 0)); [|done]. destruct (decide (0 <> 0)); [congruence|]. done.
  - cbn in E. cbn [insert list_insert]. rewrite !filter_cons.
    destruct (decide (k <> 0)); cbn [length]; rewrite IH by done; done.
Qed.

(** A table that is not full has an empty slot. *)
Lemma empty_slot ks : (occupied ks < length ks)%nat -> exists i, ks !! i = Some 0.
Proof.
  unfold occupied. induction ks as [|k ks IH]; cbn [length]; [lia|].
  rewrite filter_cons. destruct (decide (k <> 0)) as [|Hk].
  - cbn [length]. intros. destruct IH as [i Hi]; [lia|]. exists (S i). done.
  - intros _. exists 0%nat. destruct (Z.eq_dec k 0) as [->|]; [done|tauto].
Qed.

Section insertion.
Context (k : nat) (ks : list Z).
Let cap := (2 ^ k)%nat.
Context (Hlen : length ks = cap) (Hp : probes_to_itself ks cap).

Lemma probe_found p i : p <> 0 -> ks !! i = Some p -> probe ks cap p = Some i.
Proof. intros ? E. apply Hp; done. Qed.

(** Where a probe ends says whether the key is in the table. *)
Lemma probe_result p i :
  p <> 0 -> probe ks cap p = Some i ->
  (ks !! i = Some p /\ forall j, ks !! j = Some p -> j = i) \/
  (ks !! i = Some 0 /\ forall j, ks !! j <> Some p).
Proof.
  intros Hp0 E. assert (Hst : stops ks p i).
  { unfold cap in E. apply probe_Some in E as (d & _ & _ & ? & _); done. }
  destruct Hst as (x & Ex & [->| ->]); [right|left]; split; try done.
  all: intros j Ej; pose proof (probe_found p j Hp0 Ej); congruence.
Qed.

Lemma probes_insert p i :
  p <> 0 -> probe ks cap p = Some i -> ks !! i = Some 0 ->
  probes_to_itself (<[i := p]> ks) cap.
Proof.
  intros Hp0 E Ei j q Ej Hq.
  assert (Hi : (i < length ks)%nat) by (eapply lookup_lt_Some; done).
  unfold cap in *. rewrite probe_Some by (rewrite length_insert; done).
  destruct (decide (i = j)) as [<-|Hne].
  - rewrite list_lookup_insert_eq in Ej by done. injection Ej as <-.
    apply probe_Some in E as (d & Hd & -> & _ & Hm); [|done].
    exists d. split; [done|]. split; [done|]. split.
    + exists p. rewrite list_lookup_insert_eq by done. auto.
    + intros d' Hd' (x & Ex & Hx). apply (Hm d' Hd').
      destruct (decide (pos (2 ^ k) (ptr_slot p (2 ^ k)) d = pos (2 ^ k) (ptr_slot p (2 ^ k)) d')) as [He|He].
      * rewrite <- He. exists 0. auto.
      * rewrite list_lookup_insert_ne in Ex by done. exists x. auto.
  - rewrite list_lookup_insert_ne in Ej by done.
    pose proof (Hp j q Ej Hq) as Eq. apply probe_Some in Eq as (d & Hd & -> & Hst & Hm); [|done].
    exists d. split; [done|]. split; [done|]. split.
    + exists q. rewrite list_lookup_insert_ne by done. auto.
    + intros d' Hd' (x & Ex & Hx). apply (Hm d' Hd').
      destruct (decide (i = pos (2 ^ k) (ptr_slot q (2 ^ k)) d')) as [He|He].
      * rewrite <- He. exists 0. auto.
      * rewrite list_lookup_insert_ne in Ex by done. exists x. auto.
Qed.

Lemma probe_exists p : (occupied ks < cap)%nat -> exists i, probe ks cap p = Some i.
Proof.
  intros Ho. destruct (empty_slot ks) as [e He]; [lia|].
  unfold cap. destruct (probe_is_Some k ks p Hlen e He) as [i Hi]. eauto.
Qed.

Lemma holds_insert {V} (vs : list V) (m : gmap Z V) p i v :
  length vs = cap -> p <> 0 -> holds ks vs m -> probe ks cap p = Some i ->
  holds (<[i := p]> ks) (<[i := v]> vs) (<[p := v]> m).
Proof.
  intros Hvs Hp0 [H0 H] E. pose proof (probe_result p i Hp0 E) as Hr.
  assert (Hi : (i < length ks)%nat).
  { destruct Hr as [[? _]|[? _]]; eapply lookup_lt_Some; done. }
  split; [rewrite lookup_insert_ne by done; done|].
  intros q w Hq. destruct (decide (p = q)) as [<-|Hne].
  - rewrite lookup_insert_eq. split.
    + intros [= ->]. exists i. rewrite !list_lookup_insert_eq by lia. done.
    + intros (j & Ej & Ew). destruct (decide (i = j)) as [<-|Hij].
      * rewrite list_lookup_insert_eq in Ew by lia. done.
      * rewrite list_lookup_insert_ne in Ej by done. destruct Hr as [[_ Hu]|[_ Hu]].
        -- apply Hu in Ej. congruence.
        -- by apply Hu in Ej.
  - rewrite lookup_insert_ne by done. rewrite H by done. split.
    + intros (j & Ej & Ew). exists j. destruct (decide (i = j)) as [<-|Hij].
      * destruct Hr as [[E' _]|[E' _]]; congruence.
      * rewrite !list_lookup_insert_ne by done. done.
    + intros (j & Ej & Ew). destruct (decide (i = j)) as [<-|Hij].
      * rewrite list_lookup_insert_eq in Ej by done. congruence.
      * rewrite !list_lookup_insert_ne in * by done. eauto.
Qed.
End insertion.

(** ** Growing *)

Definition live {V} (l : list (Z * V)) : list (Z * V) := filter (fun kv => kv.1 <> 0) l.

Lemma live_cons {V} k v (l : list (Z * V)) :
  live ((k, v) :: l) = if k =? 0 then live l else (k, v) :: live l.
Proof.
  unfold live. rewrite filter_cons. cbn. destruct (Z.eqb_spec k 0), (decide (k <> 0)); done.
Qed.

(** What is still to move, [old], and what has moved, [m], make up [M]. *)
Definition moves {V} (old : list (Z * V)) (m M : gmap Z V) : Prop :=
  NoDup (live old).*1 /\ m !! 0 = None /\ M !! 0 = None /\
  (forall p, p ∈ (live old).*1 -> m !! p = None) /\
  (forall p v, p <> 0 -> (M !! p = Some v <-> m !! p = Some v \/ (p, v) ∈ live old)).

Lemma moves_nil {V} (m M : gmap Z V) : moves [] m M -> m = M.
Proof.
  intros (_ & H0 & H1 & _ & H). apply map_eq. intros p.
  destruct (Z.eq_dec p 0) as [->|Hp]; [congruence|].
  apply option_eq. intros v. rewrite H by done. rewrite elem_of_nil. tauto.
Qed.

Lemma moves_step {V} k v (old : list (Z * V)) m M :
  k <> 0 -> moves ((k, v) :: old) m M ->
  m !! k = None /\ moves old (<[k := v]> m) M.
Proof.
  intros Hk. unfold moves. rewrite live_cons. destruct (Z.eqb_spec k 0) as [|_]; [done|].
  rewrite fmap_cons, NoDup_cons. intros ([Hn Hnd] & H0 & H1 & Hd & H).
  split; [apply Hd; left|]. split; [done|]. rewrite lookup_insert_ne by done. split; [done|].
  split; [done|]. split.
  - intros p Hp. assert (p <> k) by (intros ->; done).
    rewrite lookup_insert_ne by done. apply Hd. right. done.
  - intros p w Hp. rewrite H by done. rewrite elem_of_cons. cbn in Hn.
    destruct (decide (k = p)) as [<-|Hne].
    + rewrite lookup_insert_eq, (Hd k) by left. split.
      * intros [?|[[= ->]|Hin]]; [done|by left|]. exfalso. apply Hn.
        apply list_elem_of_fmap. exists (k, w). done.
      * intros [[= ->]|Hin]; auto.
    + rewrite lookup_insert_ne by done. split; [|tauto].
      intros [?|[[= -> ->]|?]]; [auto|done|auto].
Qed.

Lemma rehash_spec {V} (k : nat) (old : list (Z * V)) ks vs m M :
  let room := (2 ^ k)%nat in
  slots_ok room ks vs -> holds ks vs m -> moves old m M ->
  (occupied ks + length (live old) < room)%nat ->
  exists ks' vs', rehash room old ks vs = Some (ks', vs') /\
    slots_ok room ks' vs' /\ holds ks' vs' M /\
    occupied ks' = (occupied ks + length (live old))%nat.
Proof.
  intros room. revert ks vs m. induction old as [|[p v] old IH]; intros ks vs m Hok Hh Hm Ho.
  { apply moves_nil in Hm as ->. exists ks, vs.
    split; [done|]. split; [done|]. split; [done|]. cbn. lia. }
  cbn [rehash]. rewrite live_cons in Ho |- *. destruct (Z.eqb_spec p 0) as [->|Hp].
  { apply (IH _ _ m); done. }
  apply moves_step in Hm as [Hnone Hm]; [|done]. cbn [length] in Ho |- *.
  pose proof Hok as [_ Hlen Hvs Hpr].
  destruct (probe_exists k ks Hlen p) as [i Hi]; [lia|].
  fold room in Hi. rewrite Hi. cbn [mbind option_bind].
  assert (Ei : ks !! i = Some 0).
  { destruct (probe_result k ks Hlen Hpr p i Hp Hi) as [[E _]|[E _]]; [|done]. exfalso.
    assert (Hiv : is_Some (vs !! i)) by (apply lookup_lt_is_Some; apply lookup_lt_Some in E; lia).
    destruct Hiv as [w Hw]. destruct Hh as [_ Hh].
    assert (m !! p = Some w) by (apply Hh; eauto). congruence. }
  destruct (IH (<[i := p]> ks) (<[i := v]> vs) (<[p := v]> m)) as (ks' & vs' & Hr & H1 & H2 & H3).
  - split; [exists k; done|rewrite length_insert; done|rewrite length_insert; done|].
    apply (probes_insert k ks Hlen Hpr p i Hp Hi Ei).
  - apply (holds_insert k ks Hlen Hpr); done.
  - done.
  - rewrite occupied_insert by done. lia.
  - exists ks', vs'. rewrite Hr. split; [done|]. split; [done|]. split; [done|].
    rewrite H3, occupied_insert by done. lia.
Qed.

Lemma occupied_replicate n : occupied (replicate n 0) = 0%nat.
Proof.
  induction n as [|n IH]; [done|]. cbn [replicate]. unfold occupied in *.
  rewrite filter_cons. case_decide; [congruence|done].
Qed.

Lemma slots_ok_empty {V} (zero : V) k :
  slots_ok (2 ^ k) (replicate (2 ^ k) 0) (replicate (2 ^ k) zero).
Proof.
  split; [eauto|apply length_replicate|apply length_replicate|].
  intros i p Hi Hp. apply lookup_replicate in Hi as [-> _]. done.
Qed.

Lemma holds_empty {V} (zero : V) n : holds (replicate n 0) (replicate n zero) ∅.
Proof.
  split; [done|]. intros p v Hp. rewrite lookup_empty. split; [done|].
  intros (i & Hi & _). apply lookup_replicate in Hi as [-> _]. done.
Qed.

Lemma live_zip_length {V} (ks : list Z) (vs : list V) :
  length ks = length vs -> length (live (zip ks vs)) = occupied ks.
Proof.
  unfold occupied. revert vs. induction ks as [|k ks IH]; intros [|v vs] E; [done..|].
  cbn [zip_with]. cbn in E. rewrite live_cons, filter_cons.
  destruct (Z.eqb_spec k 0), (decide (k <> 0)); try done; cbn [length]; rewrite IH by lia; done.
Qed.

Lemma probes_distinct cap ks i j p :
  probes_to_itself ks cap -> p <> 0 -> ks !! i = Some p -> ks !! j = Some p -> i = j.
Proof. intros H Hp Ei Ej. pose proof (H i p Ei Hp). pose proof (H j p Ej Hp). congruence. Qed.

Lemma elem_of_live_zip {V} (ks : list Z) (vs : list V) p v :
  (p, v) ∈ live (zip ks vs) <-> p <> 0 /\ exists i, ks !! i = Some p /\ vs !! i = Some v.
Proof.
  unfold live. rewrite list_elem_of_filter, list_elem_of_lookup. cbn.
  split; intros [Hp (i & Hi)]; (split; [done|]); exists i.
  - apply lookup_zip_with_Some in Hi as (? & ? & [= -> ->] & ? & ?). done.
  - apply lookup_zip_with_Some. destruct Hi. eauto.
Qed.

Lemma live_nodup {V} (ks : list Z) (vs : list V) :
  (forall i j p, p <> 0 -> ks !! i = Some p -> ks !! j = Some p -> i = j) ->
  NoDup (live (zip ks vs)).*1.
Proof.
  revert vs. induction ks as [|k ks IH]; intros [|v vs] H; try apply NoDup_nil_2.
  cbn [zip_with]. rewrite live_cons.
  assert (Hnd : NoDup (live (zip ks vs)).*1).
  { apply IH. intros i j p Hp Hi Hj. specialize (H (S i) (S j) p Hp Hi Hj). lia. }
  destruct (Z.eqb_spec k 0); [done|]. rewrite fmap_cons. apply NoDup_cons. split; [|done].
  intros Hin. apply list_elem_of_fmap in Hin as ([p w] & E & Hin). cbn in E. subst p.
  apply elem_of_live_zip in Hin as (_ & i & Hi & _).
  specialize (H 0%nat (S i) k n eq_refl Hi). done.
Qed.

Lemma moves_start {V} cap (ks : list Z) (vs : list V) M :
  probes_to_itself ks cap -> holds ks vs M -> moves (zip ks vs) ∅ M.
Proof.
  intros Hp [H0 H]. split; [|split; [done|split; [done|split]]].
  - apply live_nodup. intros i j p. apply (probes_distinct cap). done.
  - done.
  - intros p v Hp0. rewrite H, lookup_empty, elem_of_live_zip by done.
    split; [auto|intros [?|[_ ?]]; done].
Qed.

(** After [make_room] the table has an empty slot for one more key, and it
    holds what it held. *)
Lemma make_room_spec {V} (zero : V) t M :
  table_ok t -> holds (keys t) (values t) M ->
  exists t', make_room zero t = Some t' /\ slots_ok (capacity t') (keys t') (values t') /\
    holds (keys t') (values t') M /\ count t' = occupied (keys t') /\
    (2 * S (count t') <= capacity t')%nat.
Proof.
  intros Hok Hh. unfold make_room.
  destruct (Nat.leb_spec ((count t + 1) * 2) (capacity t)).
  { exists t. destruct Hok as [(Hc & _ & _ & Hn)|(Hs & Hc & Hn)]; [lia|].
    split; [done|]. split; [done|]. split; [done|]. split; [done|lia]. }
  assert (exists k, (if capacity t =? 0 then FIRST_CAPACITY else capacity t * 2)%nat = (2 ^ k)%nat
            /\ (2 * S (count t) <= 2 ^ k)%nat) as (k & -> & Hroom).
  { destruct Hok as [(Hc & _ & _ & Hn)|([[k Hk] _ _ _] & _ & Hn)].
    - exists 6%nat. rewrite Hc, Hn. split; [done|cbn; lia].
    - exists (S k). rewrite Nat.pow_succ_r', <- Hk. pose proof (pow2_nonzero k).
      destruct (Nat.eqb_spec (capacity t) 0); lia. }
  assert (Hocc : count t = occupied (keys t) /\ length (keys t) = length (values t) /\
                 moves (zip (keys t) (values t)) ∅ M).
  { destruct Hok as [(_ & Hk & Hv & Hn)|([_ Hl Hv Hp] & Hc & _)].
    - rewrite Hk, Hv, Hn in *. split; [done|]. split; [done|]. apply (moves_start 0); [|done].
      intros i p Hi. done.
    - split; [done|]. split; [lia|]. apply (moves_start (capacity t)); done. }
  destruct Hocc as (Hocc & Hlen & Hmoves).
  destruct (rehash_spec k (zip (keys t) (values t)) (replicate (2 ^ k) 0) (replicate (2 ^ k) zero) ∅ M)
    as (ks' & vs' & Hr & H1 & H2 & H3).
  - apply slots_ok_empty.
  - apply holds_empty.
  - done.
  - rewrite occupied_replicate, live_zip_length by done. pose proof (pow2_nonzero k). lia.
  - rewrite Hr. cbn [mbind option_bind]. eexists. split; [done|]. cbn [capacity keys values count].
    rewrite occupied_replicate, live_zip_length in H3 by done.
    split; [done|]. split; [done|]. split; lia.
Qed.

(** ** The operations refine the finite map *)

Lemma table_rel_empty {V} : table_rel (empty_table V) ∅.
Proof.
  split; [left; done|]. split; [done|]. intros p v _. rewrite lookup_empty. cbn.
  split; [done|]. intros (i & Hi & _). done.
Qed.

Lemma slots_lookup {V} cap (ks : list Z) (vs : list V) M p :
  slots_ok cap ks vs -> holds ks vs M -> p <> 0 -> (occupied ks < cap)%nat ->
  exists i k, probe ks cap p = Some i /\ ks !! i = Some k /\
    ((k = p /\ exists v, vs !! i = Some v /\ M !! p = Some v) \/ (k = 0 /\ M !! p = None)).
Proof.
  intros [[n ->] Hlen Hvs Hp] [_ Hh] Hp0 Ho.
  destruct (probe_exists n ks Hlen p Ho) as [i Hi].
  destruct (probe_result n ks Hlen Hp p i Hp0 Hi) as [[E _]|[E Hno]]; exists i; eexists; (split; [done|]); (split; [done|]).
  - left. split; [done|]. assert (Hv : is_Some (vs !! i)).
    { apply lookup_lt_is_Some. apply lookup_lt_Some in E. lia. }
    destruct Hv as [v Hv]. exists v. split; [done|]. apply Hh; eauto.
  - right. split; [done|]. apply eq_None_not_Some. intros [v Hv].
    apply Hh in Hv as (j & Hj & _); [|done]. by apply Hno in Hj.
Qed.

Lemma occupied_replace ks i p :
  ks !! i = Some p -> occupied (<[i := p]> ks) = occupied ks.
Proof. intros E. rewrite list_insert_id by done. done. Qed.

Lemma ptr_map_put_rel {V} (zero : V) t M p v :
  table_rel t M -> p <> 0 ->
  exists t', ptr_map_put zero t p v = Some t' /\ table_rel t' (<[p := v]> M).
Proof.
  intros [Hok Hh] Hp. unfold ptr_map_put.
  destruct (make_room_spec zero t M Hok Hh) as (t1 & -> & Hs & Hh1 & Hc & Hroom).
  cbn [mbind option_bind].
  destruct (slots_lookup _ _ _ _ p Hs Hh1 Hp ltac:(lia)) as (i & k & Hi & Hk & Hcase).
  rewrite Hi. cbn [mbind option_bind]. rewrite Hk. cbn [mbind option_bind].
  destruct Hs as [[n Hn] Hlen Hvs Hpr]. rewrite Hn in Hlen, Hvs, Hpr, Hi.
  pose proof (holds_insert n (keys t1) Hlen Hpr (values t1) M p i v Hvs Hp Hh1 Hi) as Hnew.
  destruct Hcase as [(-> & _)|(-> & _)].
  - destruct (Z.eqb_spec p 0); [done|]. eexists. split; [done|].
    rewrite list_insert_id in Hnew by done. split; [|done]. right. cbn [capacity keys values count].
    split; [|split; [done|lia]]. rewrite Hn. split; [eauto|done|rewrite length_insert; done|done].
  - cbn [Z.eqb]. eexists. split; [done|]. split; [|done]. right. cbn [capacity keys values count].
    rewrite occupied_insert by done. split; [|lia]. rewrite Hn.
    split; [eauto|rewrite length_insert; done..|]. apply (probes_insert n (keys t1) Hlen Hpr p i); done.
Qed.

Lemma ptr_get_rel {V} (zero : V) t M p :
  table_rel t M -> p <> 0 ->
  ptr_index_get t p = Some (M !! p) /\ ptr_map_get zero t p = Some (default zero (M !! p)).
Proof.
  intros [[(Hc & Hk & Hv & _)|(Hs & Hc & Hn)] Hh] Hp; unfold ptr_index_get, ptr_map_get.
  - rewrite Hc. cbn. destruct Hh as [_ Hh]. rewrite Hk in Hh.
    assert (M !! p = None) as ->; [|done].
    apply eq_None_not_Some. intros [v E]. apply Hh in E as (i & Hi & _); done.
  - assert (Hcap : capacity t <> 0%nat) by (destruct Hs as [[n ->] _ _ _]; apply pow2_nonzero).
    destruct (Nat.eqb_spec (capacity t) 0); [done|].
    destruct (slots_lookup _ _ _ _ p Hs Hh Hp ltac:(lia)) as (i & k & -> & Hk & Hcase).
    cbn [mbind option_bind]. rewrite Hk. cbn [mbind option_bind].
    destruct Hcase as [(-> & v & Hv & ->)|(-> & ->)]; [|done].
    destruct (Z.eqb_spec p 0); [done|]. rewrite Hv. done.
Qed.

Lemma ptr_set_add_rel s (M : gmap Z unit) p :
  table_rel s M -> p <> 0 ->
  exists s', ptr_set_add s p = Some (bool_decide (p ∉ dom M), s') /\ table_rel s' (<[p := tt]> M).
Proof.
  intros [Hok Hh] Hp. unfold ptr_set_add.
  destruct (make_room_spec tt s M Hok Hh) as (t1 & -> & Hs & Hh1 & Hc & Hroom).
  cbn [mbind option_bind].
  destruct (slots_lookup _ _ _ _ p Hs Hh1 Hp ltac:(lia)) as (i & k & Hi & Hk & Hcase).
  rewrite Hi. cbn [mbind option_bind]. rewrite Hk. cbn [mbind option_bind].
  pose proof Hs as [[n Hn] Hlen Hvs Hpr]. rewrite Hn in Hlen, Hvs, Hpr, Hi.
  destruct Hcase as [(-> & [] & Hv & HM)|(-> & HM)].
  - destruct (Z.eqb_spec p 0); [done|]. exists t1.
    rewrite bool_decide_false by (rewrite not_elem_of_dom, HM; done).
    split; [done|]. rewrite insert_id by done. split; [|done]. right. split; [done|]. split; [done|lia].
  - cbn [Z.eqb]. rewrite bool_decide_true by (rewrite not_elem_of_dom; done).
    eexists. split; [done|].
    assert (Hvi : <[i := tt]> (values t1) = values t1).
    { destruct (lookup_lt_is_Some_2 (values t1) i) as [[] ?]; [|apply list_insert_id; done].
      apply lookup_lt_Some in Hk. lia. }
    pose proof (holds_insert n (keys t1) Hlen Hpr (values t1) M p i tt Hvs Hp Hh1 Hi) as Hnew.
    rewrite Hvi in Hnew. split; [|done]. right. cbn [capacity keys values count].
    rewrite occupied_insert by done. split; [|lia]. rewrite Hn.
    split; [eauto|rewrite length_insert; done|done|].
    apply (probes_insert n (keys t1) Hlen Hpr p i); done.
Qed.

Lemma ptr_set_has_rel s (M : gmap Z unit) p :
  table_rel s M -> p <> 0 -> ptr_set_has s p = Some (bool_decide (p ∈ dom M)).
Proof.
  intros [[(Hc & Hk & Hv & _)|(Hs & Hc & Hn)] Hh] Hp; unfold ptr_set_has.
  - rewrite Hc. cbn. destruct Hh as [_ Hh]. rewrite Hk in Hh.
    rewrite bool_decide_false; [done|]. rewrite not_elem_of_dom. apply eq_None_not_Some.
    intros [v E]. apply Hh in E as (i & Hi & _); done.
  - assert (Hcap : capacity s <> 0%nat) by (destruct Hs as [[n ->] _ _ _]; apply pow2_nonzero).
    destruct (Nat.eqb_spec (capacity s) 0); [done|].
    destruct (slots_lookup _ _ _ _ p Hs Hh Hp ltac:(lia)) as (i & k & -> & Hk & Hcase).
    cbn [mbind option_bind]. rewrite Hk. cbn [mbind option_bind].
    destruct Hcase as [(-> & v & _ & E)|(-> & E)].
    + rewrite bool_decide_true by (apply elem_of_dom; eauto). destruct (Z.eqb_spec p 0); done.
    + rewrite bool_decide_false by (rewrite not_elem_of_dom; done). done.
Qed.

(** ** Runs of operations from the empty table *)

Definition puts {V} (zero : V) (l : list (Z * V)) : option (table V) :=
  foldl (fun t kv => t ← t; ptr_map_put zero t kv.1 kv.2) (Some (empty_table V)) l.

Definition adds (l : list Z) : option (list bool * table unit) :=
  foldl (fun st p => '(news, s) ← st; '(new, s) ← ptr_set_add s p; Some (news ++ [new], s))
    (Some ([], empty_table unit)) l.

(** The finite map that the same puts make. *)
Definition map_of {V} (l : list (Z * V)) : gmap Z V :=
  foldl (fun m kv => <[kv.1 := kv.2]> m) ∅ l.

Lemma puts_rel {V} (zero : V) l :
  Forall (fun kv => kv.1 <> 0) l -> exists t, puts zero l = Some t /\ table_rel t (map_of l).
Proof.
  induction l as [|[k v] l IH] using rev_ind; intros H.
  { eexists. split; [done|]. apply table_rel_empty. }
  apply Forall_app in H as [H Hk]. apply Forall_cons_1 in Hk as [Hk _].
  destruct (IH H) as (t & Ht & Hrel). unfold puts, map_of in *. rewrite !foldl_app, Ht. cbn [foldl].
  apply ptr_map_put_rel; done.
Qed.

Lemma adds_rel l :
  Forall (fun p => p <> 0) l ->
  exists s, adds l = Some (imap (fun i p => bool_decide (p ∉ take i l)) l, s) /\
    exists M, table_rel s M /\ dom M = list_to_set (C := gset Z) l.
Proof.
  induction l as [|p l IH] using rev_ind; intros H.
  { eexists. split; [done|]. exists ∅. split; [apply table_rel_empty|]. rewrite dom_empty_L. done. }
  apply Forall_app in H as [H Hp]. apply Forall_cons_1 in Hp as [Hp _].
  destruct (IH H) as (s & Hs & M & Hrel & Hdom). unfold adds in *. rewrite foldl_app, Hs.
  cbn [foldl mbind option_bind].
  destruct (ptr_set_add_rel s M p Hrel Hp) as (s' & -> & Hrel').
  eexists. split; [|exists (<[p := tt]> M); split; [done|rewrite dom_insert_L, Hdom; set_solver]].
  cbn [mbind option_bind]. do 2 f_equal. rewrite imap_app. cbn [imap].
  f_equal.
  - apply imap_ext. intros i x Hi. rewrite take_app_le; [done|].
    apply lookup_lt_Some in Hi. lia.
  - f_equal. unfold compose. rewrite Nat.add_0_r, take_app_length.
    apply bool_decide_ext. rewrite Hdom. set_solver.
Qed.

(** ** Properties *)

(** C18. The pointer map refines a finite map. From a zeroed struct, any
    sequence of puts with keys other than [NULL] succeeds - every probe ends,
    through every growth and rehash - and then each lookup gives what the
    finite map of the same puts gives: the last value put, or [NULL]. The
    table stays at most half full. *)
Theorem ptr_map_refines {V} (zero : V) l :
  Forall (fun kv => kv.1 <> 0) l ->
  exists t, puts zero l = Some t /\ (2 * count t <= capacity t)%nat /\
    forall p, p <> 0 ->
      ptr_map_get zero t p = Some (default zero (map_of l !! p)) /\
      ptr_index_get t p = Some (map_of l !! p).
Proof.
  intros H. destruct (puts_rel zero l H) as (t & Ht & Hrel). exists t. split; [done|]. split.
  - destruct Hrel as [[(-> & _ & _ & ->)|(_ & _ & ?)] _]; lia.
  - intros p Hp. destruct (ptr_get_rel zero t _ p Hrel Hp). done.
Qed.

Lemma ptr_map_refines_witness :
  exists t, puts 0 [(4096, 1); (8192, 2); (4096, 3)] = Some t /\ (2 * count t <= capacity t)%nat /\
    forall p, p <> 0 ->
      ptr_map_get 0 t p = Some (default 0 (map_of [(4096, 1); (8192, 2); (4096, 3)] !! p)) /\
      ptr_index_get t p = Some (map_of [(4096, 1); (8192, 2); (4096, 3)] !! p).
Proof. apply (ptr_map_refines 0 [(4096, 1); (8192, 2); (4096, 3)]). vm_decide. Defined.

(** The pointer set refines a finite set. From a zeroed struct, any
    sequence of adds succeeds, each add answers whether the pointer is new,
    and afterwards [ptr_set_has] holds exactly for the pointers added. *)
Lemma ptr_set_refines l :
  Forall (fun p => p <> 0) l ->
  exists s, adds l = Some (imap (fun i p => bool_decide (p ∉ take i l)) l, s) /\
    forall p, p <> 0 -> ptr_set_has s p = Some (bool_decide (p ∈ l)).
Proof.
  intros H. destruct (adds_rel l H) as (s & Hs & M & Hrel & Hdom). exists s. split; [done|].
  intros p Hp. rewrite (ptr_set_has_rel s M p Hrel Hp). f_equal. apply bool_decide_ext.
  rewrite Hdom. set_solver.
Qed.

