(* ===== verification/Probe.v ===== *)
(** * Probe: searches in open-addressed tables

    The tables of lock orders (src/rt/lock.c) and of the data that a program defines
    (src/antic/reach.c) are searched from the slot of a hash on, one slot after the
    other and around the end, up to a slot where the search stops. The length of a
    table is a power of two. *)

From S2P Require Import Prelude PtrSet.

(** The first slot from [i] on where a search stops. *)
Fixpoint scan {A} (stop : A -> bool) (fuel : nat) (slots : list A) (i : nat) : option nat :=
  match fuel with
  | O => None
  | S fuel =>
      o ← slots !! i;
      if stop o then Some i else scan stop fuel slots (next_slot i (length slots))
  end.

(** ** The search *)

Definition stops_at {A} (stop : A -> bool) (ss : list A) (i : nat) : Prop :=
  exists o, ss !! i = Some o /\ stop o = true.

Section Scan.
Context {A : Type} (k : nat) (ss : list A) (Hlen : length ss = (2 ^ k)%nat) (stop : A -> bool).

Notation cap := (2 ^ k)%nat.

Lemma slot_at h d : exists o, ss !! pos cap h d = Some o.
Proof. apply lookup_lt_is_Some. rewrite Hlen. apply pos_lt. Qed.

Lemma scan_spec fuel h d0 :
  match scan stop fuel ss (pos cap h d0) with
  | Some i => exists d, (d0 <= d < d0 + fuel)%nat /\ i = pos cap h d /\ stops_at stop ss i /\
      forall d', (d0 <= d' < d)%nat -> ~ stops_at stop ss (pos cap h d')
  | None => forall d, (d0 <= d < d0 + fuel)%nat -> ~ stops_at stop ss (pos cap h d)
  end.
Proof.
  revert d0. induction fuel as [|f IH]; intros d0; cbn [scan]; [lia|].
  destruct (slot_at h d0) as [o Ho]. rewrite Ho. cbn [mbind option_bind]. destruct (stop o) eqn:Hs.
  - exists d0. split; [lia|]. split; [done|]. split; [by exists o|]. lia.
  - assert (~ stops_at stop ss (pos cap h d0)) as Hn by (intros (o' & Ho' & ?); congruence).
    rewrite Hlen, pos_next. specialize (IH (S d0)). destruct (scan _ _ _ _) as [i|].
    + destruct IH as (d & Hd & -> & Hst & Hmin). exists d. split; [lia|]. split; [done|]. split; [done|].
      intros d' Hd'. destruct (decide (d' = d0)) as [->|]; [done|]. apply Hmin. lia.
    + intros d Hd. destruct (decide (d = d0)) as [->|]; [done|]. apply IH. lia.
Qed.

(** From slot [h] on, with as many steps as slots. *)
Definition scan_of (h : nat) : option nat := scan stop (length ss) ss h.

Lemma scan_of_Some h i :
  (h < cap)%nat ->
  scan_of h = Some i <-> exists d, (d < cap)%nat /\ i = pos cap h d /\ stops_at stop ss i /\
    forall d', (d' < d)%nat -> ~ stops_at stop ss (pos cap h d').
Proof.
  intros Hh. unfold scan_of. rewrite Hlen. pose proof (scan_spec cap h 0) as H.
  assert (pos cap h 0 = h) as E by (unfold pos; rewrite Nat.add_0_r; by apply Nat.mod_small). rewrite E in H.
  destruct (scan stop cap ss h) as [j|].
  - destruct H as (d & Hd & -> & Hst & Hmin). split.
    + intros [= <-]. exists d. split; [lia|]. split; [done|]. split; [done|]. intros. apply Hmin. lia.
    + intros (d2 & Hd2 & -> & Hst2 & Hmin2). f_equal. destruct (Nat.lt_total d d2) as [|[->|]]; [|done|].
      * exfalso. by apply (Hmin2 d).
      * exfalso. apply (Hmin d2); [lia|done].
  - split; [done|]. intros (d & Hd & -> & Hst & _). exfalso. apply (H d); [lia|done].
Qed.

(** A search ends at any slot where it may stop, or before. *)
Lemma scan_of_ends h i : (h < cap)%nat -> stops_at stop ss i -> exists j, scan_of h = Some j.
Proof.
  intros Hh Hi. assert (i < cap)%nat as Hlt by (destruct Hi as (o & Ho & _); apply lookup_lt_Some in Ho; by rewrite Hlen in Ho).
  destruct (scan_of h) as [j|] eqn:E; [eauto|exfalso]. unfold scan_of in E. rewrite Hlen in E.
  pose proof (scan_spec cap h 0) as H.
  assert (pos cap h 0 = h) as E0 by (unfold pos; rewrite Nat.add_0_r; by apply Nat.mod_small). rewrite E0, E in H.
  apply (H (if decide (h <= i)%nat then i - h else cap + i - h)%nat); [case_decide; lia|].
  assert (pos cap h (if decide (h <= i)%nat then i - h else cap + i - h) = i) as ->; [|done].
  unfold pos. case_decide.
  - replace (h + (i - h))%nat with i by lia. by apply Nat.mod_small.
  - replace (h + (cap + i - h))%nat with (i + 1 * cap)%nat by lia. rewrite Nat.Div0.mod_add. by apply Nat.mod_small.
Qed.
End Scan.

(** A search looks at nothing but where it may stop. *)
Lemma scan_agree {A} (stop stop' : A -> bool) fuel ss ss' i :
  length ss' = length ss -> (forall j, option_map stop' (ss' !! j) = option_map stop (ss !! j)) ->
  scan stop' fuel ss' i = scan stop fuel ss i.
Proof.
  intros Hl H. revert i. induction fuel as [|f IH]; intros i; cbn [scan]; [done|]. specialize (H i) as Hi.
  destruct (ss' !! i), (ss !! i); cbn in *; try done. injection Hi as ->. by rewrite Hl, IH.
Qed.

(** The slot of a hash. *)
Lemma masked_lt h k : (Z.to_nat (Z.land h (Z.of_nat (2 ^ k) - 1)) < 2 ^ k)%nat.
Proof.
  rewrite Nat2Z.inj_pow, land_mask by lia.
  pose proof (Z.mod_pos_bound h (Z.of_nat 2 ^ Z.of_nat k) ltac:(lia)).
  apply Nat2Z.inj_lt. rewrite Z2Nat.id, Nat2Z.inj_pow by lia. lia.
Qed.
