(* ===== verification/Utf.v ===== *)
(** * Utf: UTF-8, UTF-16 and the Windows command line

    Models src/rt/utf.c, which the runtime links and antic compiles in. Each
    function reads a list of bytes or of 16-bit units, from the position where
    the C pointer stands, and gives the list that the C writes to [out]. *)

From S2P Require Import Prelude.

(** ** Encoding *)

Definition put_scalar (c : Z) : list Z :=
  if c <? 0x80 then [u8 c]
  else if c <? 0x800 then
    [u8 (Z.lor 0xC0 (Z.shiftr c 6)); u8 (Z.lor 0x80 (Z.land c 0x3F))]
  else if c <? 0x10000 then
    [u8 (Z.lor 0xE0 (Z.shiftr c 12));
     u8 (Z.lor 0x80 (Z.land (Z.shiftr c 6) 0x3F));
     u8 (Z.lor 0x80 (Z.land c 0x3F))]
  else
    [u8 (Z.lor 0xF0 (Z.shiftr c 18));
     u8 (Z.lor 0x80 (Z.land (Z.shiftr c 12) 0x3F));
     u8 (Z.lor 0x80 (Z.land (Z.shiftr c 6) 0x3F));
     u8 (Z.lor 0x80 (Z.land c 0x3F))].

Definition anti_rt_utf8_encode (c : Z) : list Z := put_scalar c.

(** The length of a sequence by its first byte, 0 for none, and the range of
    its second byte: the result with [*low] and [*high]. *)
Definition sequence_length (b : Z) : nat * Z * Z :=
  if b <? 0x80 then (1%nat, 0x80, 0xBF)
  else if (b >=? 0xC2) && (b <=? 0xDF) then (2%nat, 0x80, 0xBF)
  else if (b >=? 0xE0) && (b <=? 0xEF) then
    (3%nat, if b =? 0xE0 then 0xA0 else 0x80, if b =? 0xED then 0x9F else 0xBF)
  else if (b >=? 0xF0) && (b <=? 0xF4) then
    (4%nat, if b =? 0xF0 then 0x90 else 0x80, if b =? 0xF4 then 0x8F else 0xBF)
  else (0%nat, 0x80, 0xBF).

(** ** Decoding *)

(** The loop over the bytes that continue a sequence: [count - i] of them are
    left, [c] holds the bits read. [None] is the [return 0] of the loop. *)
Fixpoint decode_rest (left : nat) (first : bool) (low high c : Z) (inp : list Z) : option Z :=
  match left with
  | O => Some c
  | S l =>
      match inp with
      | [] => None
      | b :: rest =>
          if (b <? (if first then low else 0x80)) || (b >? (if first then high else 0xBF))
          then None
          else decode_rest l false low high (u32 (Z.lor (Z.shiftl c 6) (Z.land b 0x3F))) rest
      end
  end.

(** The scalar value and [*length], which is 0 for no well-formed sequence. *)
Definition anti_rt_utf8_decode (inp : list Z) : Z * nat :=
  match inp with
  | [] => (0, 0%nat)
  | b :: rest =>
      let '(count, low, high) := sequence_length b in
      if (count =? 0)%nat || (length inp <? count)%nat then (0, 0%nat)
      else
        let c := if (count =? 1)%nat then b
                 else Z.land b (Z.shiftr 0x7F (Z.of_nat count)) in
        match decode_rest (count - 1) true low high c rest with
        | Some c => (c, count)
        | None => (0, 0%nat)
        end
  end.

(** ** Repair *)

(** The inner loop of the repair: the count of good bytes of a sequence of
    [length] bytes, [good] of them seen; [inp] stands on the next one. *)
Fixpoint good_bytes (inp : list Z) (good len : nat) (low high : Z) : nat :=
  match inp with
  | [] => good
  | b :: rest =>
      if (good <? len)%nat &&
         (b >=? (if (good =? 1)%nat then low else 0x80)) &&
         (b <=? (if (good =? 1)%nat then high else 0xBF))
      then good_bytes rest (S good) len low high
      else good
  end.

Fixpoint utf8_repair (fuel : nat) (inp : list Z) : list Z :=
  match fuel with
  | O => []
  | S f =>
      match inp with
      | [] => []
      | b :: rest =>
          let '(len, low, high) := sequence_length b in
          let good := if (len =? 0)%nat then 0%nat else good_bytes rest 1 len low high in
          if (0 <? len)%nat && (good =? len)%nat
          then take len inp ++ utf8_repair f (drop len inp)
          else put_scalar 0xFFFD ++ utf8_repair f (drop (if (good =? 0)%nat then 1 else good) inp)
      end
  end.

Definition anti_rt_utf8_repair (inp : list Z) : list Z := utf8_repair (length inp) inp.

(** ** UTF-16 *)

Definition high_surrogate (c : Z) : bool := (c >=? 0xD800) && (c <=? 0xDBFF).
Definition low_surrogate (c : Z) : bool := (c >=? 0xDC00) && (c <=? 0xDFFF).

(** The scalar value of a surrogate pair. *)
Definition pair_value (c d : Z) : Z :=
  u32 (u32 (0x10000 + u32 (Z.shiftl (c - 0xD800) 10)) + (d - 0xDC00)).

Fixpoint anti_rt_utf16_to_utf8 (inp : list Z) : list Z :=
  match inp with
  | [] => []
  | c :: rest =>
      match rest with
      | d :: rest' =>
          if high_surrogate c && low_surrogate d
          then put_scalar (pair_value c d) ++ anti_rt_utf16_to_utf8 rest'
          else put_scalar (if (c >=? 0xD800) && (c <=? 0xDFFF) then 0xFFFD else c)
               ++ anti_rt_utf16_to_utf8 rest
      | [] => put_scalar (if (c >=? 0xD800) && (c <=? 0xDFFF) then 0xFFFD else c)
      end
  end.

(** The bytes of a file name of Windows; [None] is [SIZE_MAX], no room. *)
Fixpoint name_bytes (inp : list Z) (room : nat) (written : list Z) : option (list Z) :=
  match inp with
  | [] => Some written
  | c :: rest =>
      let '(v, rest') :=
        match rest with
        | d :: rest' => if high_surrogate c && low_surrogate d then (pair_value c d, true) else (c, false)
        | [] => (c, false)
        end in
      let out := put_scalar v in
      if (room - length written <? length out)%nat then None
      else
        match rest with
        | _ :: after => if rest' then name_bytes after room (written ++ out)
                        else name_bytes rest room (written ++ out)
        | [] => Some (written ++ out)
        end
  end.

Definition anti_rt_name_bytes (inp : list Z) (room : nat) : option (list Z) :=
  name_bytes inp room [].

(** The units of a scalar value or a lone surrogate, [c]. *)
Definition put_units (c : Z) : list Z :=
  if c >=? 0x10000 then
    [u16 (0xD800 + Z.shiftr (c - 0x10000) 10); u16 (0xDC00 + Z.land (c - 0x10000) 0x3FF)]
  else [u16 c].

(** The three bytes of a surrogate alone at the start of [inp]. *)
Definition lone_surrogate (inp : list Z) : option Z :=
  match inp with
  | b0 :: b1 :: b2 :: _ =>
      if (b0 =? 0xED) && (b1 >=? 0xA0) && (b1 <=? 0xBF) && (b2 >=? 0x80) && (b2 <=? 0xBF)
      then Some (Z.lor (Z.lor 0xD000 (Z.shiftl (Z.land b1 0x3F) 6)) (Z.land b2 0x3F))
      else None
  | _ => None
  end.

Fixpoint name_units (fuel : nat) (inp : list Z) : option (list Z) :=
  match fuel with
  | O => Some []
  | S f =>
      match inp with
      | [] => Some []
      | _ =>
          let '(c, len) :=
            match lone_surrogate inp with
            | Some c => (c, 3%nat)
            | None => anti_rt_utf8_decode inp
            end in
          if (len =? 0)%nat then None
          else
            rest ← name_units f (drop len inp);
            Some (put_units c ++ rest)
      end
  end.

Definition anti_rt_name_units (inp : list Z) : option (list Z) := name_units (length inp) inp.

(** ** The command line of Windows

    [line] holds the units before the 0 unit that ends it. *)
Definition is_blank (c : Z) : bool := (c =? 32) || (c =? 9).

(** The name of the program, and the rest of the line. *)
Fixpoint split_name (p : list Z) (quoted : bool) : list Z * list Z :=
  match p with
  | [] => ([], [])
  | c :: rest =>
      if quoted || negb (is_blank c) then
        if c =? 34 then split_name rest (negb quoted)
        else let '(out, r) := split_name rest quoted in (c :: out, r)
      else ([], p)
  end.

Fixpoint skip_blanks (p : list Z) : list Z :=
  match p with
  | c :: rest => if is_blank c then skip_blanks rest else p
  | [] => []
  end.

(** The backslashes at the start of [p], and what follows them. *)
Fixpoint count_slashes (p : list Z) : nat * list Z :=
  match p with
  | c :: rest => if c =? 92 then let '(n, r) := count_slashes rest in (S n, r) else (0%nat, p)
  | [] => (0%nat, [])
  end.

(** One argument: each round reads the backslashes and the unit after them. *)
Fixpoint split_argument (fuel : nat) (p : list Z) (quoted : bool) : list Z * list Z :=
  match fuel with
  | O => ([], p)
  | S f =>
      match p with
      | [] => ([], p)
      | c0 :: _ =>
          if negb (quoted || negb (is_blank c0)) then ([], p)
          else
            let '(slashes, p) := count_slashes p in
            let at_quote := match p with c :: _ => c =? 34 | [] => false end in
            let even := Nat.even slashes in
            let doubled := quoted && match p with _ :: d :: _ => d =? 34 | _ => false end in
            let p := if at_quote && even && doubled then tl p else p in
            let copy := negb (at_quote && even && negb doubled) in
            let quoted := if at_quote && even && negb doubled then negb quoted else quoted in
            let slashes := if at_quote then Nat.div slashes 2 else slashes in
            let out := replicate slashes 92 in
            match p with
            | [] => (out, [])
            | c :: rest =>
                if negb quoted && is_blank c then (out, p)
                else
                  let '(more, r) := split_argument f rest quoted in
                  (out ++ (if copy then [c] else []) ++ more, r)
            end
      end
  end.

Fixpoint split_arguments (fuel : nat) (p : list Z) : list (list Z) :=
  match fuel with
  | O => []
  | S f =>
      match skip_blanks p with
      | [] => []
      | p => let '(arg, r) := split_argument (length p) p false in arg :: split_arguments f r
      end
  end.

(** The arguments; the C writes each with a 0 unit after it and returns their
    count. *)
Definition anti_rt_split_command_line (line : list Z) : list (list Z) :=
  let '(name, rest) := split_name line false in
  name :: split_arguments (length line) rest.

(** ** Well-formed UTF-8 *)

(** A Unicode scalar value: a code point that is no surrogate. *)
Definition scalar (c : Z) : Prop := 0 <= c < 0xD800 \/ 0xE000 <= c < 0x110000.

#[export] Instance scalar_dec c : Decision (scalar c).
Proof. unfold scalar. apply _. Defined.

Definition utf8 (cs : list Z) : list Z := concat (map put_scalar cs).

Definition well_formed (bs : list Z) : Prop := exists cs, Forall scalar cs /\ bs = utf8 cs.

(** ** The encoder in arithmetic *)

Lemma lead_byte h k l : 0 <= k -> 0 <= h * 2 ^ k -> h * 2 ^ k + 2 ^ k <= 256 -> in_width k l ->
  u8 (Z.lor (h * 2 ^ k) l) = h * 2 ^ k + l.
Proof.
  intros Hk Hh Hb Hl. rewrite lor_disjoint by done. apply wrap_small. destruct Hl. split; pow2s; lia.
Qed.

Lemma tail_byte x : u8 (Z.lor 0x80 (Z.land x 0x3F)) = 0x80 + x mod 64.
Proof.
  change 0x3F with (2 ^ 6 - 1). rewrite land_mask by lia.
  change 0x80 with (2 * 2 ^ 6). rewrite lead_byte; [done|lia|lia|pow2s; lia|].
  apply Z.mod_pos_bound. lia.
Qed.

Lemma put_scalar_arith c :
  0 <= c < 0x110000 ->
  put_scalar c =
    if c <? 0x80 then [c]
    else if c <? 0x800 then [0xC0 + c / 64; 0x80 + c mod 64]
    else if c <? 0x10000 then [0xE0 + c / 4096; 0x80 + c / 64 mod 64; 0x80 + c mod 64]
    else [0xF0 + c / 262144; 0x80 + c / 4096 mod 64; 0x80 + c / 64 mod 64; 0x80 + c mod 64].
Proof.
  intros Hc. unfold put_scalar. rewrite !tail_byte, !shiftr_div by lia. pow2s.
  destruct (Z.ltb_spec c 0x80); [rewrite wrap_small by (split; pow2s; lia); done|].
  destruct (Z.ltb_spec c 0x800).
  { change 0xC0 with (6 * 2 ^ 5) at 1. rewrite lead_byte; [done|lia|lia|pow2s; lia|].
    split; [apply Z.div_pos|apply Z.div_lt_upper_bound]; pow2s; lia. }
  destruct (Z.ltb_spec c 0x10000).
  { change 0xE0 with (14 * 2 ^ 4) at 1. rewrite lead_byte; [done|lia|lia|pow2s; lia|].
    split; [apply Z.div_pos|apply Z.div_lt_upper_bound]; pow2s; lia. }
  change 0xF0 with (30 * 2 ^ 3) at 1. rewrite lead_byte; [done|lia|lia|pow2s; lia|].
  split; [apply Z.div_pos|apply Z.div_lt_upper_bound]; pow2s; lia.
Qed.

(** One step of the decoder's loop, in arithmetic. *)
Lemma shift_in c b : 0 <= c < 2 ^ 24 -> u32 (Z.lor (Z.shiftl c 6) (Z.land b 0x3F)) = c * 64 + b mod 64.
Proof.
  intros Hc. change 0x3F with (2 ^ 6 - 1). rewrite land_mask, shiftl_mul by lia.
  pose proof (Z.mod_pos_bound b 64 ltac:(lia)).
  rewrite lor_disjoint by (lia || (apply Z.mod_pos_bound; lia)). pow2s.
  apply wrap_small. split; pow2s; lia.
Qed.

(** The encodings by their payload bits, one lemma a length. *)
Lemma put_scalar_1 c : 0 <= c < 0x80 -> put_scalar c = [c].
Proof. intros. rewrite put_scalar_arith by lia. zcases; try lia. done. Qed.

Lemma split_payload a b : 0 <= b < 64 -> (a * 64 + b) / 64 = a /\ (a * 64 + b) mod 64 = b.
Proof. intros. Z.div_mod_to_equations. lia. Qed.

Ltac payload a b := let H := fresh in
  let H' := fresh in destruct (split_payload a b ltac:(lia)) as [H H']; rewrite ?H, ?H'; clear H H'.

Lemma put_scalar_2 a b : 2 <= a < 32 -> 0 <= b < 64 -> put_scalar (a * 64 + b) = [0xC0 + a; 0x80 + b].
Proof. intros. rewrite put_scalar_arith by lia. zcases; try lia. payload a b. done. Qed.

Lemma put_scalar_3 a b d :
  0 <= a < 16 -> 0 <= b < 64 -> 0 <= d < 64 -> 0x800 <= (a * 64 + b) * 64 + d ->
  put_scalar ((a * 64 + b) * 64 + d) = [0xE0 + a; 0x80 + b; 0x80 + d].
Proof.
  intros. rewrite put_scalar_arith by lia. zcases; try lia.
  change 4096 with (64 * 64). rewrite <- Z.div_div by lia. payload (a * 64 + b) d. payload a b. done.
Qed.

Lemma put_scalar_4 a b d e :
  0 <= b < 64 -> 0 <= d < 64 -> 0 <= e < 64 ->
  0x10000 <= ((a * 64 + b) * 64 + d) * 64 + e < 0x110000 ->
  put_scalar (((a * 64 + b) * 64 + d) * 64 + e) = [0xF0 + a; 0x80 + b; 0x80 + d; 0x80 + e].
Proof.
  intros. rewrite put_scalar_arith by lia. zcases; try lia.
  change 262144 with (64 * (64 * 64)). change 4096 with (64 * 64). rewrite <- !Z.div_div by lia.
  payload ((a * 64 + b) * 64 + d) e. payload (a * 64 + b) d. payload a b. done.
Qed.

(** Every code point has one of the four forms. *)
Inductive form : Z -> Prop :=
| form_1 c : 0 <= c < 0x80 -> form c
| form_2 a b : 2 <= a < 32 -> 0 <= b < 64 -> form (a * 64 + b)
| form_3 a b d : 0 <= a < 16 -> 0 <= b < 64 -> 0 <= d < 64 ->
    0x800 <= (a * 64 + b) * 64 + d -> form ((a * 64 + b) * 64 + d)
| form_4 a b d e : 0 <= a < 5 -> 0 <= b < 64 -> 0 <= d < 64 -> 0 <= e < 64 ->
    0x10000 <= ((a * 64 + b) * 64 + d) * 64 + e < 0x110000 ->
    form (((a * 64 + b) * 64 + d) * 64 + e).

Lemma code_point_form c : 0 <= c < 0x110000 -> form c.
Proof.
  intros Hc.
  pose proof (Z.mod_pos_bound c 64 ltac:(lia)). pose proof (Z.mod_pos_bound (c / 64) 64 ltac:(lia)).
  pose proof (Z.mod_pos_bound (c / 64 / 64) 64 ltac:(lia)).
  pose proof (Z.div_mod c 64 ltac:(lia)). pose proof (Z.div_mod (c / 64) 64 ltac:(lia)).
  pose proof (Z.div_mod (c / 64 / 64) 64 ltac:(lia)).
  destruct (Z.lt_ge_cases c 0x80); [constructor; lia|].
  destruct (Z.lt_ge_cases c 0x800).
  { replace c with (c / 64 * 64 + c mod 64) by lia. constructor; lia. }
  destruct (Z.lt_ge_cases c 0x10000).
  { replace c with ((c / 64 / 64 * 64 + c / 64 mod 64) * 64 + c mod 64) by lia. constructor; lia. }
  replace c with (((c / 64 / 64 / 64 * 64 + c / 64 / 64 mod 64) * 64 + c / 64 mod 64) * 64 + c mod 64) by lia.
  constructor; lia.
Qed.

Lemma tail_payload x : 0 <= x < 64 -> (0x80 + x) mod 64 = x.
Proof. intros. Z.div_mod_to_equations. lia. Qed.

Lemma lead_payload h k x : 0 <= k -> 0 <= x < 2 ^ k -> Z.land (h * 2 ^ k + x) (2 ^ k - 1) = x.
Proof.
  intros. rewrite land_mask by done. rewrite Z.add_comm, Z.mod_add by lia. apply Z.mod_small. done.
Qed.

(** ** The decoder *)

Lemma decode_rest_step left (first : bool) low high c b rest :
  (if first then low else 0x80) <= b <= (if first then high else 0xBF) -> 0 <= c < 2 ^ 24 ->
  decode_rest (S left) first low high c (b :: rest)
  = decode_rest left false low high (c * 64 + b mod 64) rest.
Proof.
  intros Hb Hc. cbn [decode_rest]. rewrite shift_in by done.
  replace (b <? _) with false by (symmetry; apply Z.ltb_ge; lia).
  replace (b >? _) with false by (symmetry; rewrite Z.gtb_ltb; apply Z.ltb_ge; lia). done.
Qed.

(** The encoding of a scalar value decodes to it, whatever follows. *)
Lemma decode_put_scalar c rest :
  scalar c -> anti_rt_utf8_decode (put_scalar c ++ rest) = (c, length (put_scalar c)).
Proof.
  intros Hs. assert (0 <= c < 0x110000) as Hc by (destruct Hs; lia).
  destruct (code_point_form c Hc).
  - rewrite put_scalar_1 by done. unfold anti_rt_utf8_decode, sequence_length. cbn [app].
    replace (c <? 0x80) with true by (symmetry; apply Z.ltb_lt; lia). done.
  - rewrite put_scalar_2 by done. unfold anti_rt_utf8_decode, sequence_length. cbn [app].
    zdecide. cbn [andb Nat.eqb orb length Nat.ltb Nat.leb Nat.sub].
    change (Z.shiftr 0x7F (Z.of_nat 2)) with (2 ^ 5 - 1). change 0xC0 with (6 * 2 ^ 5).
    rewrite lead_payload by (pow2s; lia).
    rewrite decode_rest_step, tail_payload by (pow2s; lia). done.
  - rewrite put_scalar_3 by done. unfold anti_rt_utf8_decode, sequence_length. cbn [app].
    zdecide. cbn [andb Nat.eqb orb length Nat.ltb Nat.leb Nat.sub].
    change (Z.shiftr 0x7F (Z.of_nat 3)) with (2 ^ 4 - 1). change (0xE0 + a) with (14 * 2 ^ 4 + a) at 3.
    rewrite lead_payload by (pow2s; lia).
    rewrite !decode_rest_step, !tail_payload
      by (destruct Hs; repeat case_match; bool_to_prop; rewrite ?tail_payload by lia; pow2s; lia). done.
  - rewrite put_scalar_4 by done. unfold anti_rt_utf8_decode, sequence_length. cbn [app].
    zdecide. cbn [andb Nat.eqb orb length Nat.ltb Nat.leb Nat.sub].
    change (Z.shiftr 0x7F (Z.of_nat 4)) with (2 ^ 3 - 1). change (0xF0 + a) with (30 * 2 ^ 3 + a) at 3.
    rewrite lead_payload by (pow2s; lia).
    rewrite !decode_rest_step, !tail_payload
      by (repeat case_match; bool_to_prop; rewrite ?tail_payload by lia; pow2s; lia). done.
Qed.

(** The rows of table 3-7 of the Unicode Standard: a lead byte, the length of
    its sequences and the range of the second byte. *)
Inductive lead : Z -> nat * Z * Z -> Prop :=
| lead_1 b : 0 <= b < 0x80 -> lead b (1%nat, 0x80, 0xBF)
| lead_2 a : 2 <= a < 32 -> lead (0xC0 + a) (2%nat, 0x80, 0xBF)
| lead_3 a : 0 <= a < 16 ->
    lead (0xE0 + a) (3%nat, if a =? 0 then 0xA0 else 0x80, if a =? 13 then 0x9F else 0xBF)
| lead_4 a : 0 <= a < 5 ->
    lead (0xF0 + a) (4%nat, if a =? 0 then 0x90 else 0x80, if a =? 4 then 0x8F else 0xBF)
| lead_0 b low high : 0x80 <= b < 0xC2 \/ 0xF5 <= b < 256 -> lead b (0%nat, low, high).

Lemma sequence_length_lead b : is_byte b -> lead b (sequence_length b).
Proof.
  unfold is_byte. intros Hb. unfold sequence_length. rewrite !Z.geb_leb.
  destruct (Z.ltb_spec b 0x80); [constructor; lia|].
  destruct (Z.leb_spec 0xC2 b), (Z.leb_spec b 0xDF); cbn [andb]; try lia.
  { replace b with (0xC0 + (b - 0xC0)) by lia. constructor. lia. }
  all: destruct (Z.leb_spec 0xE0 b), (Z.leb_spec b 0xEF); cbn [andb]; try lia.
  { replace (b =? 0xE0) with (b - 0xE0 =? 0) by lia. replace (b =? 0xED) with (b - 0xE0 =? 13) by lia.
    replace b with (0xE0 + (b - 0xE0)) at 1 by lia. constructor. lia. }
  all: destruct (Z.leb_spec 0xF0 b), (Z.leb_spec b 0xF4); cbn [andb]; try lia.
  all: try (constructor; lia).
  replace (b =? 0xF0) with (b - 0xF0 =? 0) by lia. replace (b =? 0xF4) with (b - 0xF0 =? 4) by lia.
  replace b with (0xF0 + (b - 0xF0)) at 1 by lia. constructor. lia.
Qed.

Lemma decode_rest_inv left (first : bool) low high c inp v :
  decode_rest (S left) first low high c inp = Some v -> 0 <= c < 2 ^ 24 ->
  exists x rest, inp = 0x80 + x :: rest /\
    (if first then low else 0x80) <= 0x80 + x <= (if first then high else 0xBF) /\
    (0 <= x < 64 -> decode_rest left false low high (c * 64 + x) rest = Some v).
Proof.
  cbn [decode_rest]. destruct inp as [|b rest]; [done|]. rewrite Z.gtb_ltb.
  destruct (Z.ltb_spec b (if first then low else 0x80)); [done|].
  destruct (Z.ltb_spec (if first then high else 0xBF) b); [done|]. cbn [orb].
  intros E Hc. exists (b - 0x80), rest. replace (0x80 + (b - 0x80)) with b by lia.
  split; [done|]. split; [lia|]. intros Hx. rewrite shift_in in E by done.
  replace b with (0x80 + (b - 0x80)) in E at 1 by lia. rewrite tail_payload in E by done. done.
Qed.

(** Reads the next payload of a decoded sequence. *)
Ltac next_payload D x r :=
  let Hr := fresh "Hr" in
  apply decode_rest_inv in D as (x & r & -> & Hr & D); [|pow2s; repeat case_match; bool_to_prop; lia];
  specialize (D ltac:(repeat case_match; bool_to_prop; lia)).

(** Only the encoding of a scalar value decodes: over-long forms, surrogates,
    values past U+10FFFF and cut sequences give no length. *)
Lemma decode_inv inp c n :
  Forall is_byte inp -> anti_rt_utf8_decode inp = (c, n) -> n <> 0%nat ->
  scalar c /\ exists rest, inp = put_scalar c ++ rest /\ n = length (put_scalar c).
Proof.
  intros Hb E Hn. unfold anti_rt_utf8_decode in E.
  destruct inp as [|b inp]; [injection E as <- <-; done|].
  apply Forall_cons_1 in Hb as [Hb0 _].
  destruct (sequence_length_lead b Hb0); cbn [Nat.eqb orb] in E.
  5: { injection E as <- <-. done. }
  all: destruct (_ <? _)%nat; [injection E as <- <-; done|]; cbn [Nat.sub] in E.
  all: destruct (decode_rest _ _ _ _ _ _) as [v|] eqn:D; [|injection E as <- <-; done].
  all: injection E as <- <-; cbn [Nat.eqb] in D.
  - injection D as <-. rewrite put_scalar_1 by done. split; [left; lia|]. exists inp. done.
  - change (Z.land _ _) with (Z.land (6 * 2 ^ 5 + a) (2 ^ 5 - 1)) in D.
    rewrite lead_payload in D by (pow2s; lia). next_payload D x1 r1.
    injection D as <-. rewrite put_scalar_2 by lia. split; [unfold scalar; lia|]. exists r1. done.
  - change (Z.land _ _) with (Z.land (14 * 2 ^ 4 + a) (2 ^ 4 - 1)) in D.
    rewrite lead_payload in D by (pow2s; lia). next_payload D x1 r1. next_payload D x2 r2.
    injection D as <-. rewrite put_scalar_3 by (repeat case_match; bool_to_prop; lia).
    split; [unfold scalar; repeat case_match; bool_to_prop; lia|]. exists r2. done.
  - change (Z.land _ _) with (Z.land (30 * 2 ^ 3 + a) (2 ^ 3 - 1)) in D.
    rewrite lead_payload in D by (pow2s; lia).
    next_payload D x1 r1. next_payload D x2 r2. next_payload D x3 r3.
    injection D as <-. rewrite put_scalar_4 by (repeat case_match; bool_to_prop; lia).
    split; [unfold scalar; repeat case_match; bool_to_prop; lia|]. exists r3. done.
Qed.

(** C21. anti_rt_utf8_decode accepts exactly the encodings of the scalar values
    of Unicode: a byte string that starts with what anti_rt_utf8_encode writes
    for a scalar value decodes to that value and the length of its encoding,
    and a decode of a length other than 0 read such an encoding, so no
    over-long form, surrogate, value past U+10FFFF or cut sequence passes. *)
Theorem utf8_decode_encode inp c n :
  Forall is_byte inp -> n <> 0%nat ->
  anti_rt_utf8_decode inp = (c, n) <->
  scalar c /\ n = length (anti_rt_utf8_encode c) /\ take n inp = anti_rt_utf8_encode c.
Proof.
  intros Hb Hn. split.
  - intros E. destruct (decode_inv _ _ _ Hb E Hn) as (Hs & rest & -> & ->).
    split; [done|]. split; [done|]. rewrite take_app_length. done.
  - intros (Hs & -> & Ht). rewrite <- (take_drop (length (put_scalar c)) inp).
    unfold anti_rt_utf8_encode in Ht. rewrite Ht. apply decode_put_scalar. done.
Qed.

Lemma utf8_decode_encode_witness :
  anti_rt_utf8_decode [0xF0; 0x9F; 0x98; 0x80; 0x21] = (0x1F600, 4%nat).
Proof. apply utf8_decode_encode; [vm_decide|done|]. split; [vm_decide|]. split; reflexivity. Defined.

(** ** The repair *)

(** The bytes [p] start the encoding of a scalar value. *)
Definition initial (p : list Z) : Prop := exists c tail, scalar c /\ put_scalar c = p ++ tail.

(** The length of the maximal subpart at the start of an ill-formed [inp]: the
    longest start of an encoding, or one byte where there is none (section
    3.9.6 of the Unicode Standard). *)
Definition maximal_subpart (inp : list Z) (k : nat) : Prop :=
  (1 <= k <= length inp)%nat /\
  (initial (take k inp) \/ (k = 1%nat /\ ~ initial (take 1 inp))) /\
  forall m, (k < m <= length inp)%nat -> ~ initial (take m inp).

(** The contract of the repair, with [i] the input and [o] the output. *)
Inductive repaired : list Z -> list Z -> Prop :=
| repaired_end : repaired [] []
| repaired_good c i o : scalar c -> repaired i o -> repaired (put_scalar c ++ i) (put_scalar c ++ o)
| repaired_bad k i o :
    (forall c rest, scalar c -> i <> put_scalar c ++ rest) -> maximal_subpart i k ->
    repaired (drop k i) o -> repaired i (put_scalar 0xFFFD ++ o).

(** The test of the loop for the byte at position [good]. *)
Definition continues (b : Z) (good : nat) (low high : Z) : bool :=
  (b >=? (if (good =? 1)%nat then low else 0x80)) && (b <=? (if (good =? 1)%nat then high else 0xBF)).

Lemma good_bytes_cons b rest good len low high :
  good_bytes (b :: rest) good len low high =
  if (good <? len)%nat && continues b good low high
  then good_bytes rest (S good) len low high else good.
Proof. cbn [good_bytes]. unfold continues. rewrite andb_assoc. done. Qed.

Lemma good_bytes_bounds inp i len low high :
  let g := good_bytes inp i len low high in
  (i <= g)%nat /\ (g <= Nat.max i len)%nat /\ (g <= i + length inp)%nat.
Proof.
  cbv zeta. revert i. induction inp as [|b inp IH]; intros i; [cbn; lia|].
  rewrite good_bytes_cons. destruct (Nat.ltb_spec i len); cbn [andb length]; [|lia].
  destruct (continues _ _ _ _); [|lia]. specialize (IH (S i)). lia.
Qed.

(** The loop of the repair and the loop of the decoder accept the same. *)
Lemma good_bytes_decode inp i len low high c :
  (1 <= i <= len)%nat ->
  good_bytes inp i len low high = len <->
  is_Some (decode_rest (len - i) (i =? 1)%nat low high c inp).
Proof.
  revert i c. induction inp as [|b inp IH]; intros i c Hi.
  { cbn [good_bytes]. destruct (len - i)%nat eqn:E; cbn [decode_rest].
    - split; [done|lia].
    - split; [lia|]. intros [? ?]. done. }
  rewrite good_bytes_cons. destruct (Nat.ltb_spec i len).
  2: { replace (len - i)%nat with 0%nat by lia. cbn [andb decode_rest]. split; [done|lia]. }
  replace (len - i)%nat with (S (len - S i)) by lia. cbn [andb decode_rest].
  unfold continues. rewrite Z.geb_leb, Z.gtb_ltb.
  destruct (Z.leb_spec (if (i =? 1)%nat then low else 0x80) b),
           (Z.ltb_spec b (if (i =? 1)%nat then low else 0x80)); try lia; cbn [andb orb].
  2: { split; [lia|]. intros [? ?]. done. }
  destruct (Z.leb_spec b (if (i =? 1)%nat then high else 0xBF)),
           (Z.ltb_spec (if (i =? 1)%nat then high else 0xBF) b); try lia.
  2: { split; [lia|]. intros [? ?]. done. }
  replace false with (S i =? 1)%nat by (apply Nat.eqb_neq; lia). apply IH. lia.
Qed.

(** The loop over the bytes it accepted, followed by others. *)
Lemma good_bytes_app inp i len low high ext :
  good_bytes (take (good_bytes inp i len low high - i) inp ++ ext) i len low high
  = good_bytes ext (good_bytes inp i len low high) len low high.
Proof.
  revert i. induction inp as [|b inp IH]; intros i.
  { cbn [good_bytes]. rewrite take_nil. done. }
  rewrite good_bytes_cons. destruct ((i <? len)%nat && continues b i low high) eqn:E.
  2: { rewrite Nat.sub_diag. done. }
  pose proof (good_bytes_bounds inp (S i) len low high) as (? & _).
  replace (good_bytes inp (S i) len low high - i)%nat
    with (S (good_bytes inp (S i) len low high - S i)) by lia.
  cbn [take app]. rewrite good_bytes_cons, E. apply IH.
Qed.

(** It stops before a byte that no sequence has there. *)
Lemma good_bytes_stop inp i len low high b :
  (good_bytes inp i len low high < len)%nat ->
  inp !! (good_bytes inp i len low high - i)%nat = Some b ->
  continues b (good_bytes inp i len low high) low high = false.
Proof.
  revert i. induction inp as [|b' inp IH]; intros i; [done|].
  rewrite good_bytes_cons. destruct ((i <? len)%nat && continues b' i low high) eqn:E.
  - intros Hl Hb. apply IH; [done|].
    pose proof (good_bytes_bounds inp (S i) len low high) as (? & _).
    replace (good_bytes inp (S i) len low high - i)%nat
      with (S (good_bytes inp (S i) len low high - S i)) in Hb by lia. done.
  - intros Hl Hb. rewrite Nat.sub_diag in Hb. injection Hb as ->.
    destruct (Nat.ltb_spec i len); [done|lia].
Qed.

(** Bytes that complete a sequence of which [good] are read. *)
Definition fill (good len : nat) (low : Z) : list Z :=
  if (good =? 1)%nat then match (len - 1)%nat with O => [] | S n => low :: replicate n 0x80 end
  else replicate (len - good) 0x80.

Lemma good_bytes_zeros good len low high n :
  (2 <= good)%nat -> (good + n = len)%nat -> good_bytes (replicate n 0x80) good len low high = len.
Proof.
  revert good. induction n as [|n IH]; intros good Hg Hn; [cbn; lia|].
  cbn [replicate]. rewrite good_bytes_cons. unfold continues.
  destruct (Nat.ltb_spec good len); [|lia]. destruct (Nat.eqb_spec good 1); [lia|].
  cbn [Z.geb Z.leb Z.compare andb]. apply IH; lia.
Qed.

Lemma good_bytes_fill good len low high :
  (1 <= good <= len)%nat -> low <= high -> good_bytes (fill good len low) good len low high = len.
Proof.
  intros Hg Hl. unfold fill. destruct (Nat.eqb_spec good 1) as [->|].
  - destruct (len - 1)%nat as [|n] eqn:E; [cbn; lia|].
    rewrite good_bytes_cons. destruct (Nat.ltb_spec 1 len); [|lia].
    unfold continues. cbn [Nat.eqb]. zdecide. cbn [andb]. apply good_bytes_zeros; lia.
  - apply good_bytes_zeros; lia.
Qed.

Lemma lead_bounds b n low high : lead b (n, low, high) -> (0 < n)%nat -> 0x80 <= low <= high /\ high <= 0xBF.
Proof. inversion 1; subst; intros; repeat case_match; bool_to_prop; lia. Qed.

Lemma decode_good b rest len low high :
  sequence_length b = (len, low, high) -> (0 < len)%nat ->
  good_bytes rest 1 len low high = len <->
  exists c, anti_rt_utf8_decode (b :: rest) = (c, len).
Proof.
  intros Hs Hl. unfold anti_rt_utf8_decode. rewrite Hs.
  destruct (Nat.eqb_spec len 0); [lia|]. cbn [orb]. split.
  - intros G. pose proof (good_bytes_bounds rest 1 len low high) as (_ & _ & Hlen).
    destruct (Nat.ltb_spec (length (b :: rest)) len); [cbn [length] in *; lia|].
    apply (good_bytes_decode _ _ _ _ _
      (if (len =? 1)%nat then b else Z.land b (Z.shiftr 0x7F (Z.of_nat len)))) in G as [c Hc]; [|lia].
    cbn [Nat.eqb] in Hc. rewrite Hc. exists c. done.
  - intros [c E]. destruct (Nat.ltb_spec (length (b :: rest)) len); [injection E; lia|].
    destruct (decode_rest _ _ _ _ _ _) eqn:D; [|injection E; lia].
    eapply good_bytes_decode; [lia|]. cbn [Nat.eqb]. rewrite D. done.
Qed.

Lemma decode_rest_len left first low high c inp v :
  decode_rest left first low high c inp = Some v -> (left <= length inp)%nat.
Proof.
  revert first c inp. induction left as [|l IH]; intros first c inp; [lia|].
  cbn [decode_rest]. destruct inp as [|b inp]; [done|]. destruct (_ || _); [done|].
  intros ?%IH. cbn [length]. lia.
Qed.

Lemma fill_byte good len low : is_byte low -> Forall is_byte (fill good len low).
Proof.
  intros. unfold fill. destruct (good =? 1)%nat; [destruct (len - 1)%nat; [constructor|constructor; [done|]]|];
    apply Forall_replicate; unfold is_byte; lia.
Qed.

Lemma decode_encoding c b rest len low high :
  scalar c -> put_scalar c = b :: rest -> sequence_length b = (len, low, high) ->
  (0 < len)%nat /\ length (put_scalar c) = len /\ good_bytes rest 1 len low high = len.
Proof.
  intros Hc E Hs. pose proof (decode_put_scalar c [] Hc) as D. rewrite app_nil_r, E in D.
  assert (length (put_scalar c) = len /\ (0 < len)%nat) as [L Hl].
  { rewrite E. unfold anti_rt_utf8_decode in D. rewrite Hs in D.
    apply (f_equal snd) in D. cbn [length] in *.
    destruct (Nat.eqb_spec len 0), (_ <? _)%nat; cbn [orb snd] in D; try lia.
    destruct (decode_rest _ _ _ _ _ _); cbn [snd] in D; lia. }
  split; [done|]. split; [done|]. apply (decode_good b); [done..|]. exists c. rewrite D, <- E. congruence.
Qed.

(** The starts of encodings at the start of a byte string. *)
Lemma initial_good b rest len low high m :
  Forall is_byte (b :: rest) -> sequence_length b = (len, low, high) ->
  (1 <= m <= S (length rest))%nat ->
  initial (take m (b :: rest)) <-> (0 < len)%nat /\ (m <= good_bytes rest 1 len low high)%nat.
Proof.
  intros Hb Hs Hm. destruct m as [|m]; [lia|]. cbn [take].
  apply Forall_cons_1 in Hb as [Hb0 Hb].
  set (g := good_bytes rest 1 len low high).
  pose proof (good_bytes_bounds rest 1 len low high) as (Hg1 & Hg2 & Hg3). fold g in Hg1, Hg2, Hg3.
  split.
  - intros (c & tail & Hc & E). cbn [app] in E.
    destruct (decode_encoding _ _ _ _ _ _ Hc E Hs) as (Hl & L & G).
    split; [done|]. destruct (decide (S m <= g)%nat) as [|Hgt]; [done|exfalso].
    assert (S m <= len)%nat by (rewrite <- L, E; cbn; rewrite length_app, length_take; lia).
    destruct (lookup_lt_is_Some_2 rest (g - 1)%nat ltac:(lia)) as [x Hx].
    pose proof (good_bytes_stop rest 1 len low high x ltac:(lia) Hx) as Hstop. fold g in Hstop.
    rewrite <- (take_drop (g - 1) (take m rest)), take_take, Nat.min_l, <- app_assoc in G by lia.
    unfold g in G at 1. rewrite good_bytes_app in G. fold g in G.
    assert (exists r, drop (g - 1) (take m rest) = x :: r) as [r Hr].
    { exists (drop g (take m rest)). replace g with (S (g - 1)) at 2 by lia.
      apply drop_S. rewrite lookup_take_lt by lia. done. }
    rewrite Hr in G. cbn [app] in G. rewrite good_bytes_cons, Hstop, andb_false_r in G. lia.
  - intros [Hl Hle].
    pose proof (sequence_length_lead b Hb0) as Hlead. rewrite Hs in Hlead.
    destruct (lead_bounds _ _ _ _ Hlead Hl) as [Hlow Hhigh].
    assert (good_bytes (take (g - 1) rest ++ fill g len low) 1 len low high = len) as G.
    { unfold g at 1. rewrite good_bytes_app. apply good_bytes_fill; lia. }
    apply (decode_good b) in G as [c D]; [|done..].
    apply decode_inv in D as (Hc & r & E & L); [| |lia].
    2: { constructor; [done|]. apply Forall_app_2; [apply Forall_take; done|]. apply fill_byte.
         unfold is_byte. lia. }
    exists c, (drop (S m) (put_scalar c)). split; [done|].
    rewrite <- (take_drop (S m) (put_scalar c)) at 1. f_equal.
    rewrite <- (take_app_le (put_scalar c) r) by lia. rewrite <- E.
    cbn [take]. rewrite take_app_le by (rewrite length_take; lia). rewrite take_take.
    f_equal. f_equal. lia.
Qed.

Lemma utf8_repair_good f c rest :
  scalar c -> utf8_repair (S f) (put_scalar c ++ rest) = put_scalar c ++ utf8_repair f rest.
Proof.
  intros Hc. pose proof (decode_put_scalar c rest Hc) as D.
  destruct (put_scalar c) as [|b p] eqn:E; [unfold put_scalar in E; repeat case_match; done|].
  cbn [app utf8_repair] in D |- *. destruct (sequence_length b) as [[len low] high] eqn:Hs.
  destruct (decode_encoding _ _ _ _ _ _ Hc E Hs) as (Hl & L & G).
  assert (good_bytes (p ++ rest) 1 len low high = len) as ->.
  { eapply decode_good; [done..|]. exists c. rewrite D, <- E. congruence. }
  rewrite (proj2 (Nat.eqb_neq len 0)), Nat.eqb_refl by lia.
  destruct (Nat.ltb_spec 0 len); [|lia]. cbn [andb].
  rewrite E in L. rewrite <- L. change (b :: p ++ rest) with ((b :: p) ++ rest).
  rewrite take_app_length, drop_app_length. done.
Qed.

Lemma decode_none inp c : anti_rt_utf8_decode inp = (c, 0%nat) ->
  forall d rest, scalar d -> inp <> put_scalar d ++ rest.
Proof.
  intros E d rest Hd ->. rewrite decode_put_scalar in E by done. injection E as _ E.
  unfold put_scalar in E. repeat case_match; discriminate.
Qed.

Lemma utf8_repair_repaired f inp :
  Forall is_byte inp -> (length inp <= f)%nat -> repaired inp (utf8_repair f inp).
Proof.
  revert inp. induction f as [|f IH]; intros inp Hb Hf.
  { destruct inp; [constructor|cbn in Hf; lia]. }
  destruct inp as [|b rest]; [constructor|].
  destruct (anti_rt_utf8_decode (b :: rest)) as [c n] eqn:D.
  destruct (decide (n = 0%nat)) as [->|Hn].
  - pose proof (decode_none _ _ D) as Hbad. cbn [utf8_repair].
    destruct (sequence_length b) as [[len low] high] eqn:Hs.
    pose proof (good_bytes_bounds rest 1 len low high) as (Hg1 & Hg2 & Hg3).
    pose proof (fun m => initial_good b rest len low high m Hb Hs) as Hi.
    destruct (Nat.eqb_spec len 0) as [->|Hl].
    + cbn [andb Nat.eqb Nat.ltb Nat.leb]. apply (repaired_bad 1); [done| |].
      * split; [cbn; lia|]. split.
        -- right. split; [done|]. rewrite (Hi 1%nat) by (cbn; lia). lia.
        -- intros m Hm. cbn [length] in Hm. rewrite Hi by lia. lia.
      * apply IH; [apply Forall_drop; done|]. rewrite length_drop. cbn [length] in *. lia.
    + assert (good_bytes rest 1 len low high <> len) as Hne.
      { intros [c' D']%(decode_good b); [|done|lia]. rewrite D in D'. injection D'. lia. }
      rewrite (proj2 (Nat.eqb_neq _ _) Hne), andb_false_r.
      rewrite (proj2 (Nat.eqb_neq (good_bytes rest 1 len low high) 0)) by lia.
      eapply repaired_bad; [done| |].
      * split; [cbn [length]; split; [exact Hg1|lia]|]. split.
        -- left. apply Hi; lia.
        -- intros m Hm. cbn [length] in Hm. rewrite Hi; lia.
      * apply IH; [apply Forall_drop; done|]. rewrite length_drop. cbn [length] in *. lia.
  - destruct (decode_inv _ _ _ Hb D Hn) as (Hc & r & E & Hlen). rewrite E.
    rewrite utf8_repair_good by done. constructor; [done|]. apply IH.
    + rewrite E in Hb. apply Forall_app in Hb as [_ Hb]. done.
    + apply (f_equal length) in E. rewrite length_app in E. lia.
Qed.

Lemma repaired_well_formed i o : repaired i o -> well_formed o /\ (length o <= 3 * length i)%nat.
Proof.
  induction 1 as [|c i o Hc _ [(cs & Hs & ->) IH]|k i o _ [Hk _] _ [(cs & Hs & ->) IH]].
  - split; [exists []; done|done].
  - split; [exists (c :: cs); split; [constructor|]; done|]. rewrite !length_app. lia.
  - split; [exists (0xFFFD :: cs); split; [constructor; [right; lia|done]|done]|].
    rewrite length_app. rewrite length_drop in IH. cbn [put_scalar Z.ltb Z.compare length]. cbn. lia.
Qed.

Lemma utf8_repair_id cs f :
  Forall scalar cs -> (length (utf8 cs) <= f)%nat -> utf8_repair f (utf8 cs) = utf8 cs.
Proof.
  revert f. induction cs as [|c cs IH]; intros f Hs Hf; [destruct f; done|].
  apply Forall_cons_1 in Hs as [Hc Hs]. change (utf8 (c :: cs)) with (put_scalar c ++ utf8 cs) in *.
  rewrite length_app in Hf.
  assert (1 <= length (put_scalar c))%nat by (unfold put_scalar; repeat case_match; cbn; lia).
  destruct f as [|f]; [lia|]. rewrite utf8_repair_good by done. f_equal. apply IH; [done|lia].
Qed.

(** C40. anti_rt_utf8_repair does what its comment promises: it copies each
    encoding of a scalar value, writes one U+FFFD for each maximal subpart of an
    ill-formed sequence, writes at most 3 * n bytes, all of well-formed UTF-8,
    and leaves well-formed UTF-8 as it is. *)
Theorem utf8_repair_correct inp :
  Forall is_byte inp ->
  repaired inp (anti_rt_utf8_repair inp) /\
  well_formed (anti_rt_utf8_repair inp) /\
  (length (anti_rt_utf8_repair inp) <= 3 * length inp)%nat /\
  (well_formed inp -> anti_rt_utf8_repair inp = inp).
Proof.
  intros Hb. pose proof (utf8_repair_repaired (length inp) inp Hb ltac:(lia)) as R.
  destruct (repaired_well_formed _ _ R). repeat (split; [done|]).
  intros (cs & Hs & ->). apply utf8_repair_id; [done|lia].
Qed.

Lemma utf8_repair_correct_witness :
  Forall is_byte [0x41; 0xE2; 0x82; 0xC0; 0x42] /\
  anti_rt_utf8_repair [0x41; 0xE2; 0x82; 0xC0; 0x42]
  = [0x41; 0xEF; 0xBF; 0xBD; 0xEF; 0xBF; 0xBD; 0x42] /\
  well_formed (anti_rt_utf8_repair [0x41; 0xE2; 0x82; 0xC0; 0x42]).
Proof.
  assert (Forall is_byte [0x41; 0xE2; 0x82; 0xC0; 0x42]) as Hb by vm_decide.
  split; [exact Hb|]. split; [vm_compute; reflexivity|]. apply (utf8_repair_correct _ Hb).
Defined.

(** ** UTF-16 *)

Definition utf16 (cs : list Z) : list Z := concat (map put_units cs).

Lemma high_spec c : high_surrogate c = true <-> 0xD800 <= c <= 0xDBFF.
Proof. unfold high_surrogate. rewrite Z.geb_leb, andb_true_iff, !Z.leb_le. done. Qed.

Lemma low_spec c : low_surrogate c = true <-> 0xDC00 <= c <= 0xDFFF.
Proof. unfold low_surrogate. rewrite Z.geb_leb, andb_true_iff, !Z.leb_le. done. Qed.

Lemma pair_value_arith c d :
  high_surrogate c = true -> low_surrogate d = true ->
  pair_value c d = 0x10000 + (c - 0xD800) * 1024 + (d - 0xDC00).
Proof.
  rewrite high_spec, low_spec. intros. unfold pair_value. rewrite shiftl_mul by lia. pow2s.
  rewrite (wrap_small 32 ((c - 0xD800) * 1024)) by (split; pow2s; lia).
  rewrite (wrap_small 32 (0x10000 + _)) by (split; pow2s; lia).
  rewrite wrap_small by (split; pow2s; lia). done.
Qed.

Lemma put_units_arith c : 0 <= c < 0x110000 ->
  put_units c = if c <? 0x10000 then [c]
                else [0xD800 + (c - 0x10000) / 1024; 0xDC00 + (c - 0x10000) mod 1024].
Proof.
  intros Hc. unfold put_units. rewrite Z.geb_leb, shiftr_div by lia.
  change 0x3FF with (2 ^ 10 - 1). rewrite land_mask by lia. pow2s.
  destruct (Z.leb_spec 0x10000 c), (Z.ltb_spec c 0x10000); try lia.
  - rewrite !wrap_small; [done| |]; split; pow2s; Z.div_mod_to_equations; lia.
  - rewrite wrap_small; [done|split; pow2s; lia].
Qed.

Lemma put_units_pair c d :
  high_surrogate c = true -> low_surrogate d = true -> put_units (pair_value c d) = [c; d].
Proof.
  intros Hc Hd. rewrite pair_value_arith by done. apply high_spec in Hc. apply low_spec in Hd.
  rewrite put_units_arith by lia. zdecide.
  f_equal; [|f_equal]; Z.div_mod_to_equations; lia.
Qed.

Lemma pair_scalar c d :
  high_surrogate c = true -> low_surrogate d = true -> scalar (pair_value c d) /\ 0x10000 <= pair_value c d.
Proof.
  intros Hc Hd. rewrite pair_value_arith by done. apply high_spec in Hc. apply low_spec in Hd.
  unfold scalar. lia.
Qed.

(** The first unit of the rest does not complete a pair with [c]. *)
Definition no_pair (c : Z) (rest : list Z) : Prop :=
  match rest with d :: _ => high_surrogate c && low_surrogate d = false | [] => True end.

(** Induction by what one round of the loops over units reads. *)
Lemma units_ind (P : list Z -> Prop) :
  P [] ->
  (forall c d rest, high_surrogate c = true -> low_surrogate d = true -> P rest -> P (c :: d :: rest)) ->
  (forall c rest, no_pair c rest -> P rest -> P (c :: rest)) ->
  forall inp, P inp.
Proof.
  intros Hnil Hpair Hone inp. remember (length inp) as n eqn:E. revert inp E.
  induction n as [n IH] using lt_wf_ind. intros [|c rest] E; [done|]. cbn in E.
  destruct rest as [|d rest]; [apply Hone; done|].
  destruct (high_surrogate c && low_surrogate d) eqn:Ep.
  - apply andb_true_iff in Ep as [Hc Hd]. apply Hpair; [done..|].
    apply (IH (length rest)); [cbn in E; lia|done].
  - apply Hone; [done|]. apply (IH (length (d :: rest))); [lia|done].
Qed.

Lemma utf16_to_utf8_one c rest :
  no_pair c rest ->
  anti_rt_utf16_to_utf8 (c :: rest) =
  put_scalar (if (c >=? 0xD800) && (c <=? 0xDFFF) then 0xFFFD else c) ++ anti_rt_utf16_to_utf8 rest.
Proof.
  destruct rest as [|d rest]; [intros _; cbn; rewrite app_nil_r; done|].
  intros H. cbn [no_pair] in H. cbn [anti_rt_utf16_to_utf8]. rewrite H. done.
Qed.

Lemma length_put_scalar c : (1 <= length (put_scalar c) <= 4)%nat.
Proof. unfold put_scalar. repeat case_match; cbn; lia. Qed.

Lemma length_put_unit c : 0 <= c < 0x10000 -> (length (put_scalar c) <= 3)%nat.
Proof. intros. unfold put_scalar. zcases; cbn; lia. Qed.

Lemma utf16_to_utf8_well_formed inp :
  Forall (in_width 16) inp ->
  well_formed (anti_rt_utf16_to_utf8 inp) /\ (length (anti_rt_utf16_to_utf8 inp) <= 3 * length inp)%nat.
Proof.
  pattern inp. apply units_ind; clear inp.
  - intros _. split; [exists []; done|done].
  - intros c d rest Hc Hd IH Hw. do 2 apply Forall_cons_1 in Hw as [_ Hw].
    destruct (IH Hw) as [(cs & Hs & E) Hl]. cbn [anti_rt_utf16_to_utf8]. rewrite Hc, Hd. cbn [andb].
    rewrite length_app. cbn [length]. pose proof (length_put_scalar (pair_value c d)).
    split; [|lia]. exists (pair_value c d :: cs).
    split; [constructor; [apply pair_scalar|]; done|]. rewrite E. done.
  - intros c rest Hn IH Hw. apply Forall_cons_1 in Hw as [Hc Hw]. unfold in_width in Hc. pow2s.
    destruct (IH Hw) as [(cs & Hs & E) Hl]. rewrite utf16_to_utf8_one by done. rewrite Z.geb_leb.
    set (v := if _ : bool then _ else _).
    assert (scalar v /\ v < 0x10000) as [Hv ?]
      by (unfold v, scalar; destruct (Z.leb_spec 0xD800 c), (Z.leb_spec c 0xDFFF); cbn; lia).
    rewrite length_app. cbn [length].
    pose proof (length_put_unit v ltac:(unfold scalar in Hv; lia)).
    split; [|lia]. exists (v :: cs). split; [constructor; done|]. rewrite E. done.
Qed.

Lemma utf16_to_utf8_scalars cs :
  Forall scalar cs -> anti_rt_utf16_to_utf8 (utf16 cs) = utf8 cs.
Proof.
  induction cs as [|c cs IH]; [done|]. intros [Hc Hs]%Forall_cons_1.
  change (utf16 (c :: cs)) with (put_units c ++ utf16 cs).
  change (utf8 (c :: cs)) with (put_scalar c ++ utf8 cs).
  rewrite put_units_arith by (unfold scalar in Hc; lia).
  destruct (Z.ltb_spec c 0x10000) as [Hlt|Hge].
  - cbn [app]. rewrite utf16_to_utf8_one, IH by (done || (destruct (utf16 cs); [done|]; cbn [no_pair];
      unfold high_surrogate, scalar in *; zcases; cbn; lia)).
    rewrite Z.geb_leb. unfold scalar in Hc.
    destruct (Z.leb_spec 0xD800 c), (Z.leb_spec c 0xDFFF); try lia; done.
  - cbn [app anti_rt_utf16_to_utf8]. unfold scalar in Hc.
    set (q := 0xD800 + _). set (r := 0xDC00 + _).
    assert (high_surrogate q = true) as Hq by (apply high_spec; unfold q; Z.div_mod_to_equations; lia).
    assert (low_surrogate r = true) as Hr by (apply low_spec; unfold r; Z.div_mod_to_equations; lia).
    rewrite Hq, Hr. cbn [andb]. rewrite IH by done. f_equal. f_equal.
    rewrite pair_value_arith by done. unfold q, r. Z.div_mod_to_equations. lia.
Qed.

(** anti_rt_utf16_to_utf8 converts the UTF-16 of any scalar values to their
    UTF-8, and gives well-formed UTF-8 of at most 3 * n bytes for any n units,
    surrogates alone included. *)
Lemma utf16_to_utf8_correct inp cs :
  Forall (in_width 16) inp ->
  well_formed (anti_rt_utf16_to_utf8 inp) /\
  (length (anti_rt_utf16_to_utf8 inp) <= 3 * length inp)%nat /\
  (Forall scalar cs -> inp = utf16 cs -> anti_rt_utf16_to_utf8 inp = utf8 cs).
Proof.
  intros Hw. destruct (utf16_to_utf8_well_formed _ Hw). repeat (split; [done|]).
  intros Hs ->. apply utf16_to_utf8_scalars. done.
Qed.

(** ** File names of Windows *)

(** The value that one round writes: the encoding of any code point, a
    surrogate included. *)
Lemma name_units_step c rest f :
  0 <= c < 0x110000 ->
  name_units (S f) (put_scalar c ++ rest) =
  (more ← name_units f rest; Some (put_units c ++ more)).
Proof.
  intros Hc. assert (exists b p, put_scalar c = b :: p) as (b & p & E).
  { unfold put_scalar. repeat case_match; eauto. }
  cbn [name_units]. rewrite E at 1. cbn [app].
  assert ((match lone_surrogate (put_scalar c ++ rest) with
           | Some c => (c, 3%nat) | None => anti_rt_utf8_decode (put_scalar c ++ rest) end)
          = (c, length (put_scalar c))) as ->.
  { destruct (decide (scalar c)) as [Hs|Hs].
    - rewrite decode_put_scalar by done.
      replace (lone_surrogate (put_scalar c ++ rest)) with (@None Z); [done|].
      destruct (code_point_form c Hc).
      + rewrite put_scalar_1 by done. destruct rest as [|? [|? ?]]; cbn; zdecide; done.
      + rewrite put_scalar_2 by done. destruct rest as [|? ?]; cbn; zdecide; done.
      + rewrite put_scalar_3 by done. cbn. destruct (decide (a = 13)); [|zdecide; done].
        unfold scalar in Hs. zdecide. rewrite andb_false_r. done.
      + rewrite put_scalar_4 by done. cbn. zdecide. done.
    - unfold scalar in Hs. destruct (code_point_form c Hc); try lia.
      rewrite put_scalar_3 by done. assert (a = 13) as -> by lia. unfold lone_surrogate. cbn [app].
      zdecide. cbn [andb]. f_equal.
      change 0x3F with (2 ^ 6 - 1). rewrite !land_mask by lia. pow2s. rewrite !tail_payload by lia.
      rewrite shiftl_mul by lia. change 0xD000 with (13 * 2 ^ 12).
      rewrite lor_disjoint by (lia || (split; pow2s; lia)). pow2s.
      replace (13 * 4096 + b0 * 64) with ((13 * 64 + b0) * 2 ^ 6) by (pow2s; lia).
      rewrite lor_disjoint by (lia || (split; pow2s; lia)). pow2s. lia. }
  destruct (Nat.eqb_spec (length (put_scalar c)) 0) as [H0|_]; [rewrite E in H0; done|].
  rewrite drop_app_length. done.
Qed.

Lemma name_bytes_ok inp room written :
  Forall (in_width 16) inp ->
  match name_bytes inp room written with
  | Some out => exists bs, out = written ++ bs /\ (length written <= room -> length out <= room)%nat /\
      forall f, (length bs <= f)%nat -> name_units f bs = Some inp
  | None => (room < length written + 3 * length inp)%nat
  end.
Proof.
  revert written. pattern inp. apply units_ind; clear inp.
  - intros written _. cbn [name_bytes]. exists []. rewrite app_nil_r. split; [done|]. split; [done|].
    intros [|f] _; done.
  - intros c d rest Hc Hd IH written Hw. do 2 apply Forall_cons_1 in Hw as [_ Hw].
    cbn [name_bytes]. rewrite Hc, Hd. cbn [andb].
    destruct (pair_scalar c d Hc Hd) as [Hs _].
    pose proof (length_put_scalar (pair_value c d)) as Hp.
    destruct (Nat.ltb_spec (room - length written) (length (put_scalar (pair_value c d)))); [cbn [length]; lia|].
    specialize (IH (written ++ put_scalar (pair_value c d)) Hw).
    destruct (name_bytes _ _ _) as [out|].
    2: { rewrite length_app in IH. cbn [length]. lia. }
    destruct IH as (bs & -> & Hl & Hu). exists (put_scalar (pair_value c d) ++ bs).
    rewrite app_assoc. split; [done|]. split; [intros; apply Hl; rewrite length_app; lia|].
    intros [|f]; rewrite length_app; [lia|]. intros Hf.
    rewrite name_units_step by (unfold scalar in Hs; lia). rewrite Hu by lia. cbn.
    rewrite put_units_pair by done. done.
  - intros c rest Hn IH written Hw. apply Forall_cons_1 in Hw as [Hc Hw].
    unfold in_width in Hc. pow2s.
    assert (name_bytes (c :: rest) room written =
      if (room - length written <? length (put_scalar c))%nat then None
      else name_bytes rest room (written ++ put_scalar c)) as ->.
    { cbn [name_bytes]. destruct rest as [|d rest]; [cbn; done|].
      cbn [no_pair] in Hn. rewrite Hn. done. }
    pose proof (length_put_unit c Hc) as Hp. pose proof (length_put_scalar c) as Hp1.
    destruct (Nat.ltb_spec (room - length written) (length (put_scalar c))); [cbn [length]; lia|].
    specialize (IH (written ++ put_scalar c) Hw).
    destruct (name_bytes _ _ _) as [out|].
    2: { rewrite length_app in IH. cbn [length]. lia. }
    destruct IH as (bs & -> & Hl & Hu). exists (put_scalar c ++ bs).
    rewrite app_assoc. split; [done|]. split; [intros; apply Hl; rewrite length_app; lia|].
    intros [|f]; rewrite length_app; [lia|]. intros Hf.
    rewrite name_units_step by lia. rewrite Hu by lia. cbn.
    rewrite put_units_arith by lia. zdecide. done.
Qed.

(** Every Windows file name survives the round trip through bytes:
    anti_rt_name_bytes fits n units in 3 * n bytes and never writes past its
    room, and anti_rt_name_units gives back exactly the units, surrogates alone
    included. *)
Lemma name_round_trip inp room :
  Forall (in_width 16) inp ->
  match anti_rt_name_bytes inp room with
  | Some out => (length out <= room)%nat /\ anti_rt_name_units out = Some inp
  | None => (room < 3 * length inp)%nat
  end.
Proof.
  intros Hw. pose proof (name_bytes_ok inp room [] Hw) as H.
  unfold anti_rt_name_bytes, anti_rt_name_units.
  destruct (name_bytes _ _ _) as [out|]; [|cbn in H; lia].
  destruct H as (bs & -> & Hl & Hu). cbn in *. split; [apply Hl; lia|]. apply Hu. lia.
Qed.

