(* ===== verification/CommandLine.v ===== *)
(** * CommandLine: the arguments of a Windows command line

    [anti_rt_split_command_line] of Utf.v against the quoting that the programs of
    Windows write: the splitter gives back every argument that was quoted, and its
    output fits the buffer that its comment promises. *)

From S2P Require Import Prelude Utf.

(** ** Quoting

    An argument in quotes: the backslashes before a quote are doubled and the quote
    takes one more, and those at the end are doubled before the closing quote. [n]
    counts the backslashes just read. *)
Fixpoint escaped (n : nat) (arg : list Z) : list Z :=
  match arg with
  | [] => replicate (2 * n) 92
  | c :: rest =>
      if c =? 92 then escaped (S n) rest
      else if c =? 34 then replicate (2 * n + 1) 92 ++ 34 :: escaped 0 rest
      else replicate n 92 ++ c :: escaped 0 rest
  end.

Definition quote (arg : list Z) : list Z := 34 :: escaped 0 arg ++ [34].

(** A text that stands for [arg]: the argument itself, where it is not empty and has
    no blank and no quote, or the argument in quotes. *)
Inductive spells (arg : list Z) : list Z -> Prop :=
| spells_bare : arg <> [] -> Forall (fun c => is_blank c = false /\ c <> 34) arg -> spells arg arg
| spells_quoted : spells arg (quote arg).

(** The name of the program, whose backslashes are its own. *)
Inductive spells_name (name : list Z) : list Z -> Prop :=
| name_bare : Forall (fun c => is_blank c = false /\ c <> 34) name -> spells_name name name
| name_quoted : Forall (fun c => c <> 34) name -> spells_name name (34 :: name ++ [34]).

(** A line of arguments, each after one blank or more. *)
Inductive line_of : list (list Z) -> list Z -> Prop :=
| line_end blanks : Forall (fun c => is_blank c = true) blanks -> line_of [] blanks
| line_arg arg text blanks args rest :
    spells arg text -> blanks <> [] -> Forall (fun c => is_blank c = true) blanks ->
    line_of args rest -> line_of (arg :: args) (blanks ++ text ++ rest).

(** ** One argument *)

(** What follows an argument: nothing, or a blank. *)
Definition stops_at (rest : list Z) : Prop :=
  match rest with [] => True | c :: _ => is_blank c = true end.

Lemma is_blank_spec c : is_blank c = true <-> c = 32 \/ c = 9.
Proof. unfold is_blank. rewrite orb_true_iff, !Z.eqb_eq. done. Qed.

Lemma blank_other c : is_blank c = true -> c <> 34 /\ c <> 92.
Proof. rewrite is_blank_spec. lia. Qed.

Lemma stops_at_other rest d : stops_at rest -> d = 34 \/ d = 92 ->
  match rest with c :: _ => c =? d | [] => false end = false.
Proof. destruct rest as [|c rest]; [done|]. intros H%blank_other Hd. apply Z.eqb_neq. lia. Qed.

Lemma count_slashes_run n p :
  match p with c :: _ => c =? 92 | [] => false end = false -> count_slashes (replicate n 92 ++ p) = (n, p).
Proof.
  intros Hp. induction n as [|n IH]; cbn.
  - destruct p as [|c p]; [done|]. cbn. by rewrite Hp.
  - by rewrite IH.
Qed.

Lemma even_double n : Nat.even (2 * n) = true.
Proof. rewrite Nat.even_mul. done. Qed.

Lemma even_double_1 n : Nat.even (2 * n + 1) = false.
Proof. rewrite Nat.even_add, even_double. done. Qed.

(** A round that reads [n] backslashes and then [p]. *)
Lemma split_round f n p quoted :
  match p with c :: _ => c =? 92 | [] => false end = false ->
  replicate n 92 ++ p <> [] ->
  (quoted = true \/ (0 < n)%nat \/ match p with c :: _ => is_blank c | [] => true end = false) ->
  split_argument (S f) (replicate n 92 ++ p) quoted =
    let at_quote := match p with c :: _ => c =? 34 | [] => false end in
    let even := Nat.even n in
    let doubled := quoted && match p with _ :: d :: _ => d =? 34 | _ => false end in
    let p := if at_quote && even && doubled then tl p else p in
    let copy := negb (at_quote && even && negb doubled) in
    let quoted := if at_quote && even && negb doubled then negb quoted else quoted in
    let out := replicate (if at_quote then Nat.div n 2 else n) 92 in
    match p with
    | [] => (out, [])
    | c :: rest =>
        if negb quoted && is_blank c then (out, p)
        else let '(more, r) := split_argument f rest quoted in (out ++ (if copy then [c] else []) ++ more, r)
    end.
Proof.
  intros Hp Hne Hgo. cbn [split_argument].
  destruct (replicate n 92 ++ p) as [|c0 l] eqn:E; [done|].
  assert (negb (quoted || negb (is_blank c0)) = false) as ->.
  { destruct quoted; [done|]. destruct n as [|n].
    - cbn in E. subst p. destruct Hgo as [|[|H]]; [done|lia|]. by rewrite H.
    - injection E as <- _. done. }
  rewrite <- E, count_slashes_run by done. done.
Qed.

Lemma split_argument_stop f rest : stops_at rest -> split_argument f rest false = ([], rest).
Proof. destruct f; [done|]. destruct rest as [|c rest]; [done|]. cbn. by intros ->. Qed.

Lemma split_escaped f n arg rest :
  stops_at rest -> (length (escaped n arg) < f)%nat ->
  split_argument f (escaped n arg ++ 34 :: rest) true = (replicate n 92 ++ arg, rest).
Proof.
  intros Hrest. revert f n. induction arg as [|c arg IH]; intros f n Hf; cbn [escaped] in *.
  - destruct f as [|f]; [lia|]. rewrite split_round by (done || auto || by destruct (2 * n)%nat).
    cbv zeta. cbn [Z.eqb Pos.eqb]. rewrite even_double, (stops_at_other rest 34) by auto. cbn [andb negb is_blank].
    rewrite split_argument_stop by done. rewrite Nat.mul_comm, Nat.div_mul by lia. by rewrite !app_nil_r.
  - destruct (Z.eqb_spec c 92) as [->|H92].
    { rewrite IH by done. f_equal. by rewrite replicate_S_end, <- app_assoc. }
    destruct (Z.eqb_spec c 34) as [->|H34]; rewrite length_app, length_replicate in Hf; cbn [length] in Hf;
      (destruct f as [|f]; [lia|]); rewrite <- app_assoc; cbn [app].
    + rewrite split_round by (done || auto || by destruct (2 * n + 1)%nat).
      cbv zeta. cbn [Z.eqb Pos.eqb]. rewrite even_double_1. cbn [andb negb is_blank].
      rewrite IH by lia. cbn [app replicate]. replace (Nat.div (2 * n + 1) 2) with n; [done|].
      rewrite Nat.add_comm, Nat.mul_comm, Nat.div_add by lia. done.
    + rewrite split_round; [|by apply Z.eqb_neq|by destruct n|auto]. cbv zeta.
      rewrite (proj2 (Z.eqb_neq _ _) H34). cbn [andb negb]. rewrite IH by lia. done.
Qed.

Lemma split_bare f n arg rest :
  stops_at rest -> Forall (fun c => is_blank c = false /\ c <> 34) arg -> (n + length arg <= f)%nat ->
  split_argument f (replicate n 92 ++ arg ++ rest) false = (replicate n 92 ++ arg, rest).
Proof.
  intros Hrest Harg. revert f n. induction Harg as [|c arg [Hb H34] Harg IH]; intros f n Hf; cbn [length] in Hf.
  - destruct n as [|n]; [by apply split_argument_stop|]. destruct f as [|f]; [lia|]. cbn [app].
    rewrite split_round; [|by apply stops_at_other; auto|done|right; left; lia].
    cbv zeta. rewrite (stops_at_other rest 34) by auto. cbn [andb negb].
    destruct rest as [|d rest]; [by rewrite app_nil_r|]. cbn in Hrest. rewrite Hrest. by rewrite app_nil_r.
  - destruct (Z.eqb_spec c 92) as [->|H92].
    + change ((92 :: arg) ++ rest) with ([92] ++ (arg ++ rest)). rewrite app_assoc.
      change ([92]) with (replicate 1 92). rewrite <- replicate_add, Nat.add_1_r, IH by lia.
      f_equal. by rewrite replicate_S_end, <- app_assoc.
    + destruct f as [|f]; [lia|]. cbn [app].
      rewrite split_round; [|by apply Z.eqb_neq|by destruct n|right; right; done]. cbv zeta.
      rewrite (proj2 (Z.eqb_neq _ _) H34). cbn [andb negb]. rewrite Hb.
      specialize (IH f 0%nat ltac:(lia)). cbn [replicate app] in IH. by rewrite IH.
Qed.

Lemma split_spelled arg text rest f :
  spells arg text -> stops_at rest -> (length text <= f)%nat ->
  split_argument f (text ++ rest) false = (arg, rest).
Proof.
  intros [Hne Harg|] Hrest Hf; [by apply (split_bare f 0 arg rest)|].
  unfold quote in *. cbn [length] in Hf. rewrite length_app in Hf. cbn [length] in Hf.
  destruct f as [|f]; [lia|].
  change ((34 :: escaped 0 arg ++ [34]) ++ rest) with (replicate 0 92 ++ 34 :: (escaped 0 arg ++ [34]) ++ rest).
  rewrite split_round by (done || auto). cbv zeta. cbn [Z.eqb Pos.eqb Nat.even andb negb replicate Nat.div Nat.divmod fst app].
  rewrite <- app_assoc. cbn [app]. rewrite split_escaped by (done || lia). done.
Qed.

Lemma spelled_nonempty arg text : spells arg text -> text <> [] /\ forall rest, skip_blanks (text ++ rest) = text ++ rest.
Proof.
  intros [Hne Harg|]; [|done]. split; [done|]. intros rest. destruct Harg as [|c arg [Hb _] _]; [done|].
  cbn. by rewrite Hb.
Qed.

Lemma skip_blanks_app blanks p : Forall (fun c => is_blank c = true) blanks -> skip_blanks (blanks ++ p) = skip_blanks p.
Proof. induction 1 as [|c blanks Hc _ IH]; [done|]. cbn. by rewrite Hc. Qed.

Lemma line_of_stops args rest : line_of args rest -> stops_at rest.
Proof.
  intros [blanks Hb|arg text blanks args' rest' _ Hne Hb _].
  - by destruct Hb.
  - destruct Hb; [done|]. done.
Qed.

Lemma line_of_length args rest : line_of args rest -> (length args <= length rest)%nat.
Proof.
  induction 1 as [|arg text blanks args rest Hs Hne Hb Hl IH]; [cbn; lia|].
  rewrite !length_app. destruct blanks; [done|]. cbn. lia.
Qed.

Lemma split_line f args rest : line_of args rest -> (length args <= f)%nat -> split_arguments f rest = args.
Proof.
  intros H. revert f. induction H as [blanks Hb|arg text blanks args rest Hs Hne Hb Hl IH]; intros f Hf.
  - destruct f; [done|]. cbn [split_arguments]. rewrite <- (app_nil_r blanks), skip_blanks_app by done. done.
  - cbn [length] in Hf. destruct f as [|f]; [lia|]. cbn [split_arguments].
    destruct (spelled_nonempty arg text Hs) as [Ht Hskip]. rewrite skip_blanks_app, Hskip by done.
    destruct (text ++ rest) as [|c l] eqn:E; [by destruct text|]. rewrite <- E.
    rewrite (split_spelled arg text rest) by
      (done || (by eapply line_of_stops) || (rewrite length_app; lia)).
    f_equal. apply IH. lia.
Qed.

Lemma split_name_bare name rest :
  stops_at rest -> Forall (fun c => is_blank c = false /\ c <> 34) name -> split_name (name ++ rest) false = (name, rest).
Proof.
  intros Hrest. induction 1 as [|c name [Hb H34] _ IH]; cbn [app].
  - destruct rest as [|c rest]; [done|]. cbn in *. by rewrite Hrest.
  - cbn. rewrite Hb, (proj2 (Z.eqb_neq _ _) H34), IH. done.
Qed.

Lemma split_name_quoted name rest :
  stops_at rest -> Forall (fun c => c <> 34) name -> split_name (name ++ 34 :: rest) true = (name, rest).
Proof.
  intros Hrest. induction 1 as [|c name H34 _ IH]; cbn.
  - destruct rest as [|c rest]; [done|]. cbn in *. by rewrite Hrest.
  - rewrite (proj2 (Z.eqb_neq _ _) H34), IH. done.
Qed.

(** ** The size of the output *)

Lemma count_slashes_length p n r : count_slashes p = (n, r) -> length p = (n + length r)%nat.
Proof.
  revert n r. induction p as [|c p IH]; intros n r; cbn [count_slashes]; [by intros [= <- <-]|].
  destruct (c =? 92); [|by intros [= <- <-]]. destruct (count_slashes p) as [m q]. intros [= <- <-].
  cbn. by rewrite (IH m q).
Qed.

Lemma split_argument_length f p quoted arg r :
  split_argument f p quoted = (arg, r) -> (length arg + length r <= length p)%nat.
Proof.
  revert p quoted arg r. induction f as [|f IH]; intros p quoted arg r; cbn [split_argument]; [by intros [= <- <-]|].
  destruct p as [|c0 p]; [by intros [= <- <-]|]. destruct (negb _); [intros [= <- <-]; cbn; lia|].
  destruct (count_slashes (c0 :: p)) as [n q] eqn:E. apply count_slashes_length in E. rewrite E. cbv zeta.
  set (at_quote := match q with c :: _ => c =? 34 | [] => false end).
  match goal with |- context [if ?b then tl q else q] => set (p' := if b then tl q else q) end.
  assert (length p' <= length q)%nat as Hp' by (subst p'; case_match; [destruct q; cbn|]; lia).
  clearbody p'. set (k := if at_quote then _ else n).
  assert (k <= n)%nat as Hk by (subst k; destruct at_quote; [apply Nat.Div0.div_le_upper_bound; lia|lia]).
  clearbody k. destruct p' as [|c rest]; [intros [= <- <-]; rewrite length_replicate; lia|].
  destruct (negb _ && is_blank c); [intros [= <- <-]; rewrite length_replicate; lia|].
  destruct (split_argument f rest _) as [more r'] eqn:E'. apply IH in E'. intros [= <- <-].
  rewrite !length_app, length_replicate. cbn in Hp'. destruct (negb _); cbn; lia.
Qed.

Lemma split_name_length p quoted name r : split_name p quoted = (name, r) -> (length name + length r <= length p)%nat.
Proof.
  revert quoted name r. induction p as [|c p IH]; intros quoted name r; cbn [split_name]; [by intros [= <- <-]|].
  destruct (quoted || _); [|intros [= <- <-]; cbn; lia].
  destruct (c =? 34); [intros H%IH; cbn; lia|].
  destruct (split_name p quoted) as [out q] eqn:E. apply IH in E. intros [= <- <-]. cbn. lia.
Qed.

(** The units that the C writes: each argument and the 0 unit after it. *)
Definition written (args : list (list Z)) : nat := length (concat args) + length args.

Lemma skip_blanks_length p : (length (skip_blanks p) <= length p)%nat.
Proof. induction p as [|c p IH]; [done|]. cbn. destruct (is_blank c); cbn; lia. Qed.

(** An argument that starts reads at least one unit. *)
Lemma split_argument_moves f c p arg r :
  is_blank c = false -> split_argument (S f) (c :: p) false = (arg, r) -> (length r < length (c :: p))%nat.
Proof.
  intros Hc. destruct (count_slashes (c :: p)) as [n q] eqn:E. pose proof (count_slashes_length _ _ _ E) as Hl.
  cbn [split_argument]. rewrite Hc. cbn [orb negb]. rewrite E. cbn [andb].
  set (at_quote := match q with c :: _ => c =? 34 | [] => false end).
  rewrite andb_false_r, andb_true_r. cbn [negb]. set (flips := at_quote && Nat.even n).
  destruct q as [|d q]; [intros [= <- <-]; cbn [length] in *; lia|].
  destruct (negb (if flips then true else false) && is_blank d) eqn:Hstop.
  - intros [= <- <-]. destruct n as [|n]; [|lia].
    exfalso. cbn [count_slashes] in E. destruct (c =? 92); [by destruct (count_slashes p)|]. injection E as <- _.
    apply andb_true_iff in Hstop as [_ Hd]. congruence.
  - destruct (split_argument f q _) as [more r'] eqn:E'. apply split_argument_length in E'. intros [= <- <-].
    cbn [length] in *. lia.
Qed.

Lemma skip_blanks_head p c q : skip_blanks p = c :: q -> is_blank c = false.
Proof. induction p as [|d p IH]; [done|]. cbn. destruct (is_blank d) eqn:E; [done|]. by intros [= -> _]. Qed.

Lemma split_arguments_length f p : (written (split_arguments f p) <= 2 * length p)%nat.
Proof.
  revert p. induction f as [|f IH]; intros p; cbn [split_arguments]; [unfold written; cbn; lia|].
  pose proof (skip_blanks_length p) as Hs. destruct (skip_blanks p) as [|c q] eqn:E; [unfold written; cbn; lia|].
  apply skip_blanks_head in E. destruct (split_argument _ _ _) as [arg r] eqn:Ea.
  pose proof (split_argument_length _ _ _ _ _ Ea). pose proof (split_argument_moves _ _ _ _ _ E Ea).
  specialize (IH r). unfold written in *. cbn [concat]. rewrite length_app. cbn [length] in *. lia.
Qed.

(** ** Properties *)

(** The splitter of the command line gives back every argument: the line that
    quotes a program name and any arguments, each bare or in quotes by the rules of
    the Microsoft startup code, whatever backslashes, quotes and blanks they hold,
    with any blanks between them, splits into that name and those arguments. *)
Lemma command_line_round_trip name name_text args rest :
  spells_name name name_text -> line_of args rest ->
  anti_rt_split_command_line (name_text ++ rest) = name :: args.
Proof.
  intros Hname Hline. pose proof (line_of_stops _ _ Hline) as Hstop. unfold anti_rt_split_command_line.
  assert (split_name (name_text ++ rest) false = (name, rest)) as ->.
  { destruct Hname as [H|H]; [by apply split_name_bare|]. cbn [app split_name is_blank Z.eqb Pos.eqb orb negb].
    rewrite <- app_assoc. cbn [app]. by apply split_name_quoted. }
  f_equal. apply split_line; [done|]. pose proof (line_of_length _ _ Hline). rewrite length_app. lia.
Qed.

(** The buffer of the splitter holds its output: on any line of n units, quotes
    open or not, the arguments with the 0 unit after each take at most 2 n + 2
    units, and there is at least the name. *)
Lemma command_line_fits line :
  (written (anti_rt_split_command_line line) <= 2 * length line + 2)%nat /\
  anti_rt_split_command_line line <> [].
Proof.
  unfold anti_rt_split_command_line. destruct (split_name line false) as [name rest] eqn:E.
  split; [|done]. apply split_name_length in E. pose proof (split_arguments_length (length line) rest).
  unfold written in *. cbn [concat length]. rewrite length_app. lia.
Qed.

