(* ===== verification/Json.v ===== *)
(** * Json: the scanner of JSON text

    Models src/rt/json.c, which Object.deserialize and anti bind share, and the
    writer and the reader of one JSON string of src/rt/object.c. The scanner is the
    list of the bytes from [at] to [end]; each function gives its result and the
    scanner after it. JsonSpec.v holds the grammar and the properties. *)

From S2P Require Import Prelude Utf.

(** ** White space, words and characters *)

Definition is_json_space (c : Z) : bool := (c =? 32) || (c =? 9) || (c =? 10) || (c =? 13).

Fixpoint anti_rt_json_space (s : list Z) : list Z :=
  match s with
  | c :: rest => if is_json_space c then anti_rt_json_space rest else s
  | [] => []
  end.

Definition anti_rt_json_take (c : Z) (s : list Z) : bool * list Z :=
  match anti_rt_json_space s with
  | b :: rest => if b =? c then (true, rest) else (false, b :: rest)
  | [] => (false, [])
  end.

Definition anti_rt_json_word (word s : list Z) : bool * list Z :=
  let s := anti_rt_json_space s in
  if (length word <=? length s)%nat && bool_decide (take (length word) s = word)
  then (true, drop (length word) s) else (false, s).

Definition json_hex_digit (c : Z) : Z :=
  if (c >=? 48) && (c <=? 57) then c - 48
  else if (c >=? 97) && (c <=? 102) then c - 97 + 10
  else if (c >=? 65) && (c <=? 70) then c - 65 + 10
  else -1.

(** ** Strings *)

(** [k_bytes] are the bytes that went to the sink, whose count is [length]. With
    [k_stored] they are in [out]; [k_against] is compared with them. *)
Record sink := Sink {
  k_stored : bool;
  k_against : option (list Z);
  k_room : nat;
  k_bytes : list Z;
  k_same : bool
}.

Definition put_byte (k : sink) (b : Z) : bool * sink :=
  let n := length (k_bytes k) in
  if k_stored k && (k_room k <=? n)%nat then (false, k)
  else
    let same :=
      match k_against k with
      | Some against =>
          if (k_room k <=? n)%nat || negb (bool_decide (against !! n = Some b)) then false else k_same k
      | None => k_same k
      end in
    (true, Sink (k_stored k) (k_against k) (k_room k) (k_bytes k ++ [b]) same).

(** Each byte in turn, up to the first that is refused. *)
Fixpoint put_bytes (k : sink) (bs : list Z) : bool * sink :=
  match bs with
  | [] => (true, k)
  | b :: bs => let '(ok, k) := put_byte k b in if ok then put_bytes k bs else (false, k)
  end.

(** The four digits of a \u escape. *)
Fixpoint unicode_digits (n : nat) (code : Z) (s : list Z) : option Z * list Z :=
  match n with
  | O => (Some code, s)
  | S n =>
      match s with
      | [] => (None, [])
      | c :: s =>
          let d := json_hex_digit c in
          if d <? 0 then (None, s) else unicode_digits n (code * 16 + d) s
      end
  end.

(** The bytes that the escape after a backslash stands for, or [None]. *)
Definition escape_bytes (s : list Z) : option (list Z) * list Z :=
  match s with
  | [] => (None, [])
  | c :: s =>
      if (c =? 34) || (c =? 92) || (c =? 47) then (Some [c], s)
      else if c =? 98 then (Some [8], s)
      else if c =? 102 then (Some [12], s)
      else if c =? 110 then (Some [10], s)
      else if c =? 114 then (Some [13], s)
      else if c =? 116 then (Some [9], s)
      else if c =? 117 then
        let '(code, s) := unicode_digits 4 0 s in
        match code with
        | Some code =>
            if (code >=? 0xD800) && (code <=? 0xDFFF) then (None, s) else (Some (anti_rt_utf8_encode code), s)
        | None => (None, s)
        end
      else (None, s)
  end.

(** The loop over the bytes of a string and the closing quote. A round reads one
    byte at least, so the bytes left are enough fuel. *)
Fixpoint string_loop (fuel : nat) (s : list Z) (k : sink) : bool * list Z * sink :=
  match fuel with
  | O => (false, s, k)
  | S f =>
      match s with
      | [] => (false, [], k)
      | c :: rest =>
          if c =? 34 then (true, rest, k)
          else if c <? 0x20 then (false, rest, k)
          else if negb (c =? 92) then
            let '(ok, k) := put_byte k c in
            if ok then string_loop f rest k else (false, rest, k)
          else
            let '(bs, rest) := escape_bytes rest in
            match bs with
            | None => (false, rest, k)
            | Some bs =>
                let '(ok, k) := put_bytes k bs in
                if ok then string_loop f rest k else (false, rest, k)
            end
      end
  end.

Definition read_string (s : list Z) (k : sink) : bool * list Z * sink :=
  let '(ok, s) := anti_rt_json_take 34 s in
  if ok then string_loop (S (length s)) s k else (false, s, k).

(** The result, the scanner, and the decoded bytes, which are in [out] when
    [stored] and whose count is [*length]. *)
Definition anti_rt_json_string (stored : bool) (room : nat) (s : list Z) : bool * list Z * list Z :=
  let '(ok, s, k) := read_string s (Sink stored None room [] true) in (ok, s, k_bytes k).

(** The result, the scanner and [*same]. *)
Definition anti_rt_json_key (name : list Z) (s : list Z) : bool * list Z * bool :=
  let '(ok, s, k) := read_string s (Sink false (Some name) (length name) [] true) in
  (ok, s, ok && k_same k && (length (k_bytes k) =? length name)%nat).

(** ** Numbers *)

Definition is_json_digit (c : Z) : bool := (c >=? 48) && (c <=? 57).

Definition number_byte (c : Z) : bool :=
  is_json_digit c || (c =? 45) || (c =? 43) || (c =? 46) || (c =? 101) || (c =? 69).

(** The longest prefix of bytes that [f] holds of, and the rest. *)
Fixpoint span (f : Z -> bool) (s : list Z) : list Z * list Z :=
  match s with
  | c :: rest => if f c then let '(a, b) := span f rest in (c :: a, b) else ([], s)
  | [] => ([], [])
  end.

(** The result, the bytes from [*start] and the scanner. *)
Definition anti_rt_json_number (s : list Z) : bool * list Z * list Z :=
  let '(number, rest) := span number_byte (anti_rt_json_space s) in
  (negb (bool_decide (number = [])), number, rest).

(** The digits at the front, whether there is one, and what follows them. *)
Definition json_digits (s : list Z) : bool * list Z :=
  let '(a, rest) := span is_json_digit s in (negb (bool_decide (a = [])), rest).

(** Takes [c] when it is the first byte. *)
Definition one_of (f : Z -> bool) (s : list Z) : bool * list Z :=
  match s with
  | c :: rest => if f c then (true, rest) else (false, s)
  | [] => (false, [])
  end.

Definition anti_rt_json_valid_number (start : list Z) : bool :=
  match start with
  | [] => false
  | _ =>
      let '(_, s) := one_of (fun c => c =? 45) start in
      let '(zero, s) := one_of (fun c => c =? 48) s in
      let '(whole, s) := if zero then (true, s) else json_digits s in
      if negb whole then false
      else
        let '(point, s) := one_of (fun c => c =? 46) s in
        let '(fraction, s) := if point then json_digits s else (true, s) in
        if negb fraction then false
        else
          let '(exponent, s) := one_of (fun c => (c =? 101) || (c =? 69)) s in
          let '(power, s) :=
            if exponent then json_digits (one_of (fun c => (c =? 43) || (c =? 45)) s).2 else (true, s) in
          power && bool_decide (s = [])
  end.

(** The loop of [magnitude_of]. *)
Fixpoint magnitude_loop (limit m : Z) (s : list Z) : option Z :=
  match s with
  | [] => Some m
  | c :: s =>
      if (c <? 48) || (c >? 57) then None
      else
        let d := c - 48 in
        if m >? u64 (limit - d) / 10 then None else magnitude_loop limit (u64 (m * 10 + d)) s
  end.

Definition magnitude_of (start : list Z) (limit : Z) : option Z :=
  if anti_rt_json_valid_number start
  then magnitude_loop limit 0 (one_of (fun c => c =? 45) start).2
  else None.

Definition is_negative (start : list Z) : bool := (one_of (fun c => c =? 45) start).1.

Definition anti_rt_json_integer (start : list Z) : option Z :=
  let negative := is_negative start in
  match magnitude_of start (if negative then INT64_MAX + 1 else INT64_MAX) with
  | None => None
  | Some m =>
      if negb negative then Some m
      else if m =? INT64_MAX + 1 then Some (- INT64_MAX - 1)
      else Some (- m)
  end.

Definition anti_rt_json_unsigned (start : list Z) : option Z :=
  match magnitude_of start UINT64_MAX with
  | None => None
  | Some m => if is_negative start && negb (m =? 0) then None else Some m
  end.

(** ** Values *)

Definition ANTI_JSON_DEPTH : nat := 64.

(** The members after the brace, and the elements after the bracket: each round of
    the loop reads one byte at least, so the bytes left are enough fuel. [skip]
    skips a value one level deeper. *)
Fixpoint skip_members (skip : list Z -> bool * list Z) (fuel : nat) (s : list Z) : bool * list Z :=
  match fuel with
  | O => (false, s)
  | S f =>
      let '(ok, s, _) := anti_rt_json_string false 0 s in
      if negb ok then (false, s)
      else
        let '(ok, s) := anti_rt_json_take 58 s in
        if negb ok then (false, s)
        else
          let '(ok, s) := skip s in
          if negb ok then (false, s)
          else
            let '(more, s) := anti_rt_json_take 44 s in
            if more then skip_members skip f s else anti_rt_json_take 125 s
  end.

Fixpoint skip_elements (skip : list Z -> bool * list Z) (fuel : nat) (s : list Z) : bool * list Z :=
  match fuel with
  | O => (false, s)
  | S f =>
      let '(ok, s) := skip s in
      if negb ok then (false, s)
      else
        let '(more, s) := anti_rt_json_take 44 s in
        if more then skip_elements skip f s else anti_rt_json_take 93 s
  end.

(** The default of the switch: a word or a number. *)
Definition skip_other (s : list Z) : bool * list Z :=
  let '(ok, s) := anti_rt_json_word (bytes "true") s in
  if ok then (true, s)
  else
    let '(ok, s) := anti_rt_json_word (bytes "false") s in
    if ok then (true, s)
    else
      let '(ok, s) := anti_rt_json_word (bytes "null") s in
      if ok then (true, s)
      else
        let '(ok, number, s) := anti_rt_json_number s in (ok && anti_rt_json_valid_number number, s).

(** [levels] is [ANTI_JSON_DEPTH + 1 - depth], and 0 past the limit. *)
Fixpoint json_skip (levels : nat) (s : list Z) : bool * list Z :=
  match levels with
  | O => (false, s)
  | S levels =>
      match anti_rt_json_space s with
      | [] => (false, [])
      | c :: rest =>
          if c =? 34 then let '(ok, s, _) := anti_rt_json_string false 0 (c :: rest) in (ok, s)
          else if c =? 123 then
            let '(empty, s) := anti_rt_json_take 125 rest in
            if empty then (true, s) else skip_members (json_skip levels) (S (length s)) s
          else if c =? 91 then
            let '(empty, s) := anti_rt_json_take 93 rest in
            if empty then (true, s) else skip_elements (json_skip levels) (S (length s)) s
          else skip_other (c :: rest)
      end
  end.

Definition anti_rt_json_skip (depth : nat) (s : list Z) : bool * list Z :=
  json_skip (S ANTI_JSON_DEPTH - depth) s.

Definition anti_rt_json_value (s : list Z) : bool :=
  let '(ok, s) := anti_rt_json_skip 0 s in
  ok && bool_decide (anti_rt_json_space s = []).

(** ** Members *)

(** The loop over the members: the bytes from the value of the one named [name] on,
    and the bytes after that value. *)
Fixpoint member_loop (name : list Z) (fuel : nat) (s : list Z) : option (list Z * list Z) :=
  match fuel with
  | O => None
  | S f =>
      let '(ok, s, same) := anti_rt_json_key name s in
      if negb ok then None
      else
        let '(ok, s) := anti_rt_json_take 58 s in
        if negb ok then None
        else
          let from := anti_rt_json_space s in
          let '(ok, s) := anti_rt_json_skip 1 from in
          if negb ok then None
          else if same : bool then Some (from, s)
          else
            let '(more, s) := anti_rt_json_take 44 s in
            if more then member_loop name f s else None
  end.

(** [*start] and [*value_length]. *)
Definition anti_rt_json_member (source name : list Z) : option (nat * nat) :=
  if negb (bool_decide (head (anti_rt_json_space source) = Some 123)) || negb (anti_rt_json_value source) then None
  else
    let '(ok, s) := anti_rt_json_take 123 source in
    if negb ok then None
    else
      let '(empty, s) := anti_rt_json_take 125 s in
      if empty then None
      else
        match member_loop name (S (length s)) s with
        | None => None
        | Some (from, after) => Some ((length source - length from)%nat, (length from - length after)%nat)
        end.

(** ** One string of src/rt/object.c *)

Definition json_hex : list Z := bytes "0123456789abcdef".

Definition write_byte (c : Z) : list Z :=
  if (c =? 34) || (c =? 92) then [92; c]
  else if c =? 10 then bytes "\n"
  else if c =? 13 then bytes "\r"
  else if c =? 9 then bytes "\t"
  else if c <? 0x20 then
    bytes "\u00" ++ [nth (Z.to_nat (Z.shiftr c 4)) json_hex 0; nth (Z.to_nat (Z.land c 15)) json_hex 0]
  else [c].

(** What is appended to the builder. *)
Definition anti_rt_json_write_text (text : list Z) : list Z :=
  [34] ++ concat (map write_byte text) ++ [34].

(** The result and the bytes appended to the builder: those of the second read. *)
Definition anti_rt_json_unquote (text : list Z) : bool * list Z :=
  match text with
  | [] => (false, [])
  | _ =>
      let '(read, s, decoded) := anti_rt_json_string false 0 text in
      let read := if read then bool_decide (anti_rt_json_space s = []) else read in
      let '(_, _, again) := anti_rt_json_string true (length decoded) text in
      (read, if (0 <? length decoded)%nat then again else [])
  end.

Example skip_object : anti_rt_json_value (bytes " { } ") = true.
Proof. reflexivity. Qed.

Example member_second :
  anti_rt_json_member (map (fun c => if c =? 39 then 34 else c) (bytes "{'a': 1, 'b' : [2, 3] }")) (bytes "b") = Some (15, 6)%nat.
Proof. vm_compute. reflexivity. Qed.
