(* ===== verification/JsonSpec.v ===== *)
(** * JsonSpec: the grammar of JSON and what the scanner accepts

    The grammar as relations between a text and what it stands for, and the proofs
    that the scanner of Json.v takes exactly its texts: strings, numbers, values, the
    members of an object, integers, and the round trip of a string. *)

From S2P Require Import Prelude Utf Json.

(** ** The grammar *)

Definition ws (t : list Z) : Prop := Forall (fun c => is_json_space c = true) t.

(** The text after a backslash and the bytes it stands for. *)
Inductive json_escape : list Z -> list Z -> Prop :=
| escape_char c b :
    (c, b) ∈ [(34, 34); (92, 92); (47, 47); (98, 8); (102, 12); (110, 10); (114, 13); (116, 9)] ->
    json_escape [c] [b]
| escape_unicode a b c d :
    Forall (fun x => 0 <= json_hex_digit x) [a; b; c; d] ->
    let code := ((json_hex_digit a * 16 + json_hex_digit b) * 16 + json_hex_digit c) * 16 + json_hex_digit d in
    ~ 0xD800 <= code <= 0xDFFF ->
    json_escape [117; a; b; c; d] (anti_rt_utf8_encode code).

(** The text between the quotes and the bytes it stands for. *)
Inductive json_body : list Z -> list Z -> Prop :=
| body_nil : json_body [] []
| body_plain c t d : 0x20 <= c -> c <> 34 -> c <> 92 -> json_body t d -> json_body (c :: t) (c :: d)
| body_escape e bs t d : json_escape e bs -> json_body t d -> json_body (92 :: e ++ t) (bs ++ d).

Definition digits (t : list Z) : Prop := t <> [] /\ Forall (fun c => is_json_digit c = true) t.

Definition json_number (t : list Z) : Prop :=
  exists sign whole fraction exponent,
    t = sign ++ whole ++ fraction ++ exponent /\
    (sign = [] \/ sign = [45]) /\
    (whole = [48] \/ digits whole /\ head whole <> Some 48) /\
    (fraction = [] \/ exists ds, fraction = 46 :: ds /\ digits ds) /\
    (exponent = [] \/ exists e sign ds, exponent = e :: sign ++ ds /\ (e = 101 \/ e = 69) /\
       (sign = [] \/ sign = [43] \/ sign = [45]) /\ digits ds).

(** The decoded names and the texts of the values of the members of an object. *)
Inductive json_members (value : list Z -> Prop) : list (list Z * list Z) -> list Z -> Prop :=
| members_one w1 t d w2 w3 v w4 :
    ws w1 -> json_body t d -> ws w2 -> ws w3 -> value v -> ws w4 ->
    json_members value [(d, v)] (w1 ++ 34 :: t ++ 34 :: w2 ++ 58 :: w3 ++ v ++ w4)
| members_more w1 t d w2 w3 v w4 ms rest :
    ws w1 -> json_body t d -> ws w2 -> ws w3 -> value v -> ws w4 -> json_members value ms rest ->
    json_members value ((d, v) :: ms) (w1 ++ 34 :: t ++ 34 :: w2 ++ 58 :: w3 ++ v ++ w4 ++ 44 :: rest).

Inductive json_elements (value : list Z -> Prop) : list Z -> Prop :=
| elements_one w1 v w2 : ws w1 -> value v -> ws w2 -> json_elements value (w1 ++ v ++ w2)
| elements_more w1 v w2 rest :
    ws w1 -> value v -> ws w2 -> json_elements value rest -> json_elements value (w1 ++ v ++ w2 ++ 44 :: rest).

(** The values whose objects and arrays nest in at most [levels] levels. *)
Fixpoint json_text (levels : nat) (t : list Z) : Prop :=
  match levels with
  | O => False
  | S n =>
      (exists b d, t = 34 :: b ++ [34] /\ json_body b d) \/
      json_number t \/
      t ∈ [bytes "true"; bytes "false"; bytes "null"] \/
      (exists b, t = 123 :: b ++ [125] /\ (ws b \/ exists ms, json_members (json_text n) ms b)) \/
      (exists b, t = 91 :: b ++ [93] /\ (ws b \/ json_elements (json_text n) b))
  end.

(** ** White space and single bytes *)

Lemma ws_nil : ws [].
Proof. constructor. Qed.

#[local] Hint Resolve ws_nil : core.

Lemma json_space_app w s : ws w -> anti_rt_json_space (w ++ s) = anti_rt_json_space s.
Proof. induction 1 as [|c w Hc _ IH]; cbn; [done|]. by rewrite Hc. Qed.

Lemma json_space_stop c s : is_json_space c = false -> anti_rt_json_space (c :: s) = c :: s.
Proof. intros H. cbn. by rewrite H. Qed.

Lemma json_space_split s :
  exists w, ws w /\ s = w ++ anti_rt_json_space s /\
  match anti_rt_json_space s with c :: _ => is_json_space c = false | [] => True end.
Proof.
  induction s as [|c s (w & Hw & E & Hs)]; cbn; [exists []; repeat constructor|]. destruct (is_json_space c) eqn:Hc.
  - exists (c :: w). split; [by constructor|]. split; [by rewrite E at 1|done].
  - exists []. by repeat constructor.
Qed.

Lemma json_space_nil s : anti_rt_json_space s = [] <-> ws s.
Proof.
  split.
  - intros H. destruct (json_space_split s) as (w & Hw & E & _). rewrite H, app_nil_r in E. by subst.
  - intros H. rewrite <- (app_nil_r s). by rewrite json_space_app.
Qed.

Lemma take_app_ws w c s : ws w -> is_json_space c = false -> anti_rt_json_take c (w ++ c :: s) = (true, s).
Proof. intros Hw Hc. unfold anti_rt_json_take. rewrite json_space_app, json_space_stop by done. by rewrite Z.eqb_refl. Qed.

Lemma take_other w c d s :
  ws w -> is_json_space d = false -> c <> d -> anti_rt_json_take c (w ++ d :: s) = (false, d :: s).
Proof.
  intros Hw Hc Hn. unfold anti_rt_json_take. rewrite json_space_app, json_space_stop by done.
  by rewrite (proj2 (Z.eqb_neq d c)) by congruence.
Qed.

Lemma take_inv c s rest :
  anti_rt_json_take c s = (true, rest) -> exists w, ws w /\ s = w ++ c :: rest.
Proof.
  unfold anti_rt_json_take. destruct (json_space_split s) as (w & Hw & E & _).
  destruct (anti_rt_json_space s) as [|b s']; [done|]. destruct (Z.eqb_spec b c) as [->|]; [|done].
  intros [= <-]. by exists w.
Qed.

(** What is left after a byte that did not come. *)
Lemma take_fail c s rest :
  anti_rt_json_take c s = (false, rest) -> exists w, ws w /\ s = w ++ rest /\ rest = anti_rt_json_space s.
Proof.
  unfold anti_rt_json_take. destruct (json_space_split s) as (w & Hw & E & _).
  destruct (anti_rt_json_space s) as [|b s'] eqn:Es; [intros [= <-]; by exists w|].
  destruct (b =? c); [done|]. intros [= <-]. by exists w.
Qed.

(** ** Spans and numbers *)

Definition stops (f : Z -> bool) (s : list Z) : Prop :=
  match s with c :: _ => f c = false | [] => True end.

Lemma span_spec f s a b : span f s = (a, b) -> s = a ++ b /\ Forall (fun c => f c = true) a /\ stops f b.
Proof.
  revert a b. induction s as [|c s IH]; intros a b H; cbn in H; [by injection H as <- <-|].
  destruct (f c) eqn:Hc; [|injection H as <- <-; by cbn; rewrite Hc].
  destruct (span f s) as [a' b'] eqn:E. injection H as <- <-. destruct (IH _ _ eq_refl) as (-> & H1 & H2).
  split; [done|]. split; [by constructor|done].
Qed.

Lemma span_app f a b : Forall (fun c => f c = true) a -> stops f b -> span f (a ++ b) = (a, b).
Proof.
  induction 1 as [|c a Hc _ IH]; intros Hb; cbn.
  - destruct b as [|c b]; [done|]. cbn in *. by rewrite Hb.
  - by rewrite Hc, (IH Hb).
Qed.

Lemma one_of_spec f s :
  match one_of f s with
  | (true, rest) => exists c, s = c :: rest /\ f c = true
  | (false, rest) => rest = s /\ stops f s
  end.
Proof. destruct s as [|c s]; cbn; [done|]. destruct (f c) eqn:E; eauto. Qed.

Lemma one_of_true f c s : f c = true -> one_of f (c :: s) = (true, s).
Proof. intros H. cbn. by rewrite H. Qed.

Lemma one_of_false f s : stops f s -> one_of f s = (false, s).
Proof. destruct s as [|c s]; cbn; [done|]. by intros ->. Qed.

Lemma json_digits_spec s :
  match json_digits s with
  | (true, rest) => exists ds, s = ds ++ rest /\ digits ds
  | (false, _) => True
  end.
Proof.
  unfold json_digits. destruct (span is_json_digit s) as [a b] eqn:E. apply span_spec in E as (E & H1 & H2).
  case_bool_decide; cbn; [done|]. by exists a.
Qed.

Lemma json_digits_app ds rest : digits ds -> stops is_json_digit rest -> json_digits (ds ++ rest) = (true, rest).
Proof. intros [H1 H2] Hr. unfold json_digits. rewrite span_app by done. by rewrite bool_decide_eq_false_2. Qed.

Lemma digits_head ds rest : digits ds -> exists c r, ds ++ rest = c :: r /\ is_json_digit c = true /\ head ds = Some c.
Proof. intros [H1 H2]. destruct H2 as [|c ds Hc _]; [done|]. by exists c, (ds ++ rest). Qed.

Lemma json_digit_not c d : is_json_digit c = true -> is_json_digit d = false -> (c =? d) = false.
Proof. intros Hc Hd. destruct (Z.eqb_spec c d) as [->|]; [congruence|done]. Qed.

(** The three parts of a number, each taken when it is there. *)
Lemma valid_exponent exponent :
  (exponent = [] \/ exists e sign ds, exponent = e :: sign ++ ds /\ (e = 101 \/ e = 69) /\
     (sign = [] \/ sign = [43] \/ sign = [45]) /\ digits ds) <->
  (let '(present, s) := one_of (fun c => (c =? 101) || (c =? 69)) exponent in
   let '(power, s) := if present then json_digits (one_of (fun c => (c =? 43) || (c =? 45)) s).2 else (true, s) in
   power && bool_decide (s = [])) = true.
Proof.
  split.
  - intros [->|(e & sign & ds & -> & He & Hs & Hd)]; [done|].
    rewrite one_of_true by (destruct He as [-> | ->]; done).
    assert ((one_of (fun c => (c =? 43) || (c =? 45)) (sign ++ ds)).2 = ds) as ->.
    { destruct Hs as [-> | [-> | ->]]; [|done..]. cbn [app]. destruct (digits_head ds [] Hd) as (c & r & E & Hc & _).
      rewrite app_nil_r in E. rewrite E, one_of_false; [done|]. cbn. by rewrite !(json_digit_not c). }
    rewrite <- (app_nil_r ds), json_digits_app by done. done.
  - pose proof (one_of_spec (fun c => (c =? 101) || (c =? 69)) exponent) as H.
    destruct (one_of _ exponent) as [[] s].
    + destruct H as (e & -> & He). intros Hp. right. apply orb_true_iff in He. rewrite !Z.eqb_eq in He.
      pose proof (one_of_spec (fun c => (c =? 43) || (c =? 45)) s) as Hs.
      destruct (one_of _ s) as [signed s1]. cbn [snd] in Hp. pose proof (json_digits_spec s1) as Hd.
      destruct (json_digits s1) as [[] s2]; [|done]. cbn in Hp. apply bool_decide_eq_true in Hp. subst s2.
      destruct Hd as (ds & E & Hd). rewrite app_nil_r in E. subst s1. destruct signed.
      * destruct Hs as (c & -> & Hc). apply orb_true_iff in Hc. rewrite !Z.eqb_eq in Hc.
        exists e, [c], ds. split; [done|]. split; [done|]. split; [|done]. destruct Hc as [-> | ->]; auto.
      * destruct Hs as [<- _]. exists e, [], ds. auto.
    + destruct H as [-> _]. cbn. intros Hp. apply bool_decide_eq_true in Hp. by left.
Qed.

Lemma exponent_stops exponent :
  (exponent = [] \/ exists e sign ds, exponent = e :: sign ++ ds /\ (e = 101 \/ e = 69) /\
     (sign = [] \/ sign = [43] \/ sign = [45]) /\ digits ds) ->
  stops is_json_digit exponent /\ stops (fun c => c =? 46) exponent.
Proof. intros [->|(e & sign & ds & -> & He & _)]; [done|]. by destruct He as [-> | ->]. Qed.

Lemma valid_number_exact t : anti_rt_json_valid_number t = true <-> json_number t.
Proof.
  assert (anti_rt_json_valid_number t = true <->
    (let '(_, s) := one_of (fun c => c =? 45) t in
     let '(zero, s) := one_of (fun c => c =? 48) s in
     let '(whole, s) := if zero then (true, s) else json_digits s in
     if negb whole then false else
     let '(point, s) := one_of (fun c => c =? 46) s in
     let '(fraction, s) := if point then json_digits s else (true, s) in
     if negb fraction then false else
     let '(exponent, s) := one_of (fun c => (c =? 101) || (c =? 69)) s in
     let '(power, s) := if exponent then json_digits (one_of (fun c => (c =? 43) || (c =? 45)) s).2 else (true, s) in
     power && bool_decide (s = [])) = true) as -> by (by destruct t).
  split.
  - pose proof (one_of_spec (fun c => c =? 45) t) as Hsign. destruct (one_of _ t) as [minus s1].
    pose proof (one_of_spec (fun c => c =? 48) s1) as Hzero. destruct (one_of _ s1) as [zero s2].
    set (w := if zero then (true, s2) else json_digits s2).
    assert (match w with (true, s3) => exists whole, s1 = whole ++ s3 /\ (whole = [48] \/ digits whole /\ head whole <> Some 48)
      | _ => True end) as Hw.
    { subst w. destruct zero.
      - destruct Hzero as (c & -> & Hc). apply Z.eqb_eq in Hc as ->. exists [48]. auto.
      - destruct Hzero as [-> Hstop]. pose proof (json_digits_spec s1) as Hd. destruct (json_digits s1) as [[] s3]; [|done].
        destruct Hd as (ds & -> & Hd). exists ds. split; [done|]. right. split; [done|].
        destruct (digits_head ds s3 Hd) as (c & r & E & _ & ->). rewrite E in Hstop. cbn in Hstop. intros [= ->]. done. }
    destruct w as [[] s3]; [|done]. cbn [negb]. destruct Hw as (whole & -> & Hw).
    pose proof (one_of_spec (fun c => c =? 46) s3) as Hpoint. destruct (one_of _ s3) as [point s4].
    set (f := if point then json_digits s4 else (true, s4)).
    assert (match f with (true, s5) => exists fraction, s3 = fraction ++ s5 /\
      (fraction = [] \/ exists ds, fraction = 46 :: ds /\ digits ds) | _ => True end) as Hf.
    { subst f. destruct point; [|destruct Hpoint as [-> _]; exists []; auto].
      destruct Hpoint as (c & -> & Hc). apply Z.eqb_eq in Hc as ->. pose proof (json_digits_spec s4) as Hd.
      destruct (json_digits s4) as [[] s5]; [|done]. destruct Hd as (ds & -> & Hd). exists (46 :: ds). split; [done|]. eauto. }
    destruct f as [[] s5]; [|done]. cbn [negb]. destruct Hf as (fraction & -> & Hf).
    intros He. apply valid_exponent in He.
    exists (if minus then [45] else []), whole, fraction, s5. split; [|split; [by destruct minus; auto|done]].
    destruct minus; [destruct Hsign as (c & -> & Hc); apply Z.eqb_eq in Hc as ->; done|by destruct Hsign as [<- _]].
  - intros (sign & whole & fraction & exponent & -> & Hs & Hw & Hf & He).
    destruct (exponent_stops exponent He) as [He1 He2]. apply valid_exponent in He.
    assert (stops is_json_digit (fraction ++ exponent)) as Hfs by (by destruct Hf as [->|(ds & -> & _)]).
    assert (one_of (fun c => c =? 45) (sign ++ whole ++ fraction ++ exponent) =
      (bool_decide (sign = [45]), whole ++ fraction ++ exponent)) as ->.
    { destruct Hs as [-> | ->]; [|done]. cbn [app]. rewrite one_of_false; [done|].
      destruct Hw as [->|[Hw _]]; [done|]. destruct (digits_head whole (fraction ++ exponent) Hw) as (c & r & -> & Hc & _).
      cbn. by rewrite (json_digit_not c). }
    assert ((let '(zero, s) := one_of (fun c => c =? 48) (whole ++ fraction ++ exponent) in
      if zero then (true, s) else json_digits s) = (true, fraction ++ exponent)) as Hwhole.
    { destruct Hw as [->|[Hw Hn]]; [done|]. rewrite one_of_false; [by apply json_digits_app|].
      destruct (digits_head whole (fraction ++ exponent) Hw) as (c & r & -> & _ & Hh). cbn.
      apply Z.eqb_neq. congruence. }
    destruct (one_of _ (whole ++ _)) as [zero s]. rewrite Hwhole. cbn [negb].
    assert ((let '(point, s) := one_of (fun c => c =? 46) (fraction ++ exponent) in
      if point then json_digits s else (true, s)) = (true, exponent)) as Hfrac.
    { destruct Hf as [->|(ds & -> & Hd)]; [cbn [app]; by rewrite one_of_false|]. cbn. by apply json_digits_app. }
    destruct (one_of _ (fraction ++ _)) as [point s']. rewrite Hfrac. cbn [negb]. exact He.
Qed.

(** ** Strings *)

(** [k'] has the bytes of [k] and then [d]. *)
Record fed_sink (k : sink) (d : list Z) (k' : sink) : Prop := {
  fs_bytes : k_bytes k' = k_bytes k ++ d;
  fs_stored : k_stored k' = k_stored k;
  fs_room : k_room k' = k_room k;
  fs_against : k_against k' = k_against k;
  fs_same : forall name, k_against k = Some name -> k_room k = length name ->
    k_same k = bool_decide (k_bytes k `prefix_of` name) -> k_same k' = bool_decide (k_bytes k' `prefix_of` name)
}.

Lemma fed_sink_refl k : fed_sink k [] k.
Proof. split; try done. by rewrite app_nil_r. Qed.

Lemma fed_sink_trans k d k' d' k'' : fed_sink k d k' -> fed_sink k' d' k'' -> fed_sink k (d ++ d') k''.
Proof.
  intros [A1 A2 A3 A4 A5] [B1 B2 B3 B4 B5]. split; try congruence.
  - by rewrite B1, A1, app_assoc.
  - intros name H1 H2 H3. apply B5; [congruence|congruence|by apply A5].
Qed.

Lemma prefix_snoc (ks name : list Z) b : (ks ++ [b]) `prefix_of` name <-> ks `prefix_of` name /\ name !! length ks = Some b.
Proof.
  split.
  - intros [r ->]. rewrite <- app_assoc. split; [by exists ([b] ++ r)|]. by apply list_lookup_middle.
  - intros [[r ->] H]. rewrite lookup_app_r, Nat.sub_diag in H by lia. destruct r as [|x r]; [done|].
    cbn in H. injection H as ->. exists r. by rewrite <- app_assoc.
Qed.

Lemma put_byte_fed k b k' : put_byte k b = (true, k') -> fed_sink k [b] k'.
Proof.
  unfold put_byte. destruct (k_stored k && _); [done|]. intros [= <-]. split; cbn; try done.
  intros name H1 H2 H3. rewrite H1, H3, H2. case_bool_decide as Hp.
  - destruct (length name <=? length (k_bytes k))%nat eqn:El; cbn [orb].
    + apply Nat.leb_le in El. symmetry. apply bool_decide_eq_false. rewrite prefix_snoc. intros [_ H].
      apply lookup_lt_Some in H. lia.
    + destruct (decide (name !! length (k_bytes k) = Some b)) as [Hb|Hb].
      * rewrite (bool_decide_eq_true_2 (_ = _)) by done. cbn. symmetry. apply bool_decide_eq_true. by apply prefix_snoc.
      * rewrite (bool_decide_eq_false_2 (_ = _)) by done. cbn. symmetry. apply bool_decide_eq_false. rewrite prefix_snoc. tauto.
  - transitivity false; [by destruct (_ || _)|]. symmetry. apply bool_decide_eq_false. rewrite prefix_snoc. tauto.
Qed.

Lemma put_bytes_fed k bs k' : put_bytes k bs = (true, k') -> fed_sink k bs k'.
Proof.
  revert k. induction bs as [|b bs IH]; intros k H; cbn in H; [injection H as <-; apply fed_sink_refl|].
  destruct (put_byte k b) as [[] k1] eqn:E; [|done]. apply (fed_sink_trans k [b] k1); [by apply put_byte_fed|by apply IH].
Qed.

(** The sink takes [n] more bytes. *)
Definition takes (k : sink) (n : nat) : Prop := k_stored k = true -> (length (k_bytes k) + n <= k_room k)%nat.

Lemma put_byte_takes k b n : takes k (S n) -> exists k', put_byte k b = (true, k') /\ takes k' n.
Proof.
  unfold takes, put_byte. intros H. destruct (k_stored k) eqn:Es; cbn [andb].
  - specialize (H eq_refl). rewrite (proj2 (Nat.leb_gt _ _)) by lia. eexists. split; [reflexivity|]. cbn.
    rewrite length_app. cbn. lia.
  - eexists. split; [reflexivity|]. cbn. done.
Qed.

Lemma put_bytes_takes k bs n : takes k (length bs + n) -> exists k', put_bytes k bs = (true, k') /\ takes k' n.
Proof.
  revert k. induction bs as [|b bs IH]; intros k H; cbn [put_bytes]; [by exists k|].
  destruct (put_byte_takes k b (length bs + n) H) as (k1 & -> & H1). by apply IH.
Qed.

Lemma json_hex_digit_low c : json_hex_digit c < 0 \/ 0 <= json_hex_digit c.
Proof. lia. Qed.

Lemma unicode_digits_4 s code rest :
  unicode_digits 4 0 s = (Some code, rest) <->
  exists a b c d, s = a :: b :: c :: d :: rest /\ Forall (fun x => 0 <= json_hex_digit x) [a; b; c; d] /\
    code = ((json_hex_digit a * 16 + json_hex_digit b) * 16 + json_hex_digit c) * 16 + json_hex_digit d.
Proof.
  split.
  - intros H. destruct s as [|a [|b [|c [|d s]]]]; cbn [unicode_digits] in H;
      repeat match type of H with context [json_hex_digit ?x <? 0] =>
        destruct (Z.ltb_spec (json_hex_digit x) 0); [discriminate H|] end; try discriminate H.
    injection H as <- <-. exists a, b, c, d. split; [done|]. split; [by repeat constructor|]. lia.
  - intros (a & b & c & d & -> & Hf & ->). rewrite !Forall_cons in Hf. destruct Hf as (Ha & Hb & Hc & Hd & _).
    cbn [unicode_digits]. rewrite !(proj2 (Z.ltb_ge _ _)) by done. do 2 f_equal.
Qed.

Lemma escape_bytes_exact s bs rest :
  escape_bytes s = (Some bs, rest) <-> exists e, s = e ++ rest /\ json_escape e bs.
Proof.
  split.
  - intros H. destruct s as [|c s]; [done|]. unfold escape_bytes in H.
    assert (forall b, c = b -> forall x, (c, x) ∈ [(34, 34); (92, 92); (47, 47); (98, 8); (102, 12); (110, 10); (114, 13); (116, 9)] ->
      (Some [x], s) = (Some bs, rest) -> exists e, c :: s = e ++ rest /\ json_escape e bs) as Hc.
    { intros _ _ x Hx [= <- <-]. exists [c]. split; [done|]. by constructor. }
    destruct (Z.eqb_spec c 34) as [->|]; [apply (Hc _ eq_refl 34); [set_solver|done]|].
    destruct (Z.eqb_spec c 92) as [->|]; [apply (Hc _ eq_refl 92); [set_solver|done]|].
    destruct (Z.eqb_spec c 47) as [->|]; [apply (Hc _ eq_refl 47); [set_solver|done]|]. cbn [orb] in H.
    destruct (Z.eqb_spec c 98) as [->|]; [apply (Hc _ eq_refl 8); [set_solver|done]|].
    destruct (Z.eqb_spec c 102) as [->|]; [apply (Hc _ eq_refl 12); [set_solver|done]|].
    destruct (Z.eqb_spec c 110) as [->|]; [apply (Hc _ eq_refl 10); [set_solver|done]|].
    destruct (Z.eqb_spec c 114) as [->|]; [apply (Hc _ eq_refl 13); [set_solver|done]|].
    destruct (Z.eqb_spec c 116) as [->|]; [apply (Hc _ eq_refl 9); [set_solver|done]|].
    destruct (Z.eqb_spec c 117) as [->|]; [|done]. clear Hc.
    destruct (unicode_digits 4 0 s) as [[code|] s'] eqn:E; [|done]. apply unicode_digits_4 in E as (a & b & c & d & -> & Hf & Ec).
    destruct ((code >=? 0xD800) && (code <=? 0xDFFF)) eqn:Es; [done|]. injection H as <- <-.
    exists [117; a; b; c; d]. split; [done|]. subst code. constructor; [done|]. intros Hr.
    rewrite Z.geb_leb, (proj2 (Z.leb_le _ _)), (proj2 (Z.leb_le _ _)) in Es by lia. done.
  - intros (e & -> & He). destruct He as [c b Hin|a b c d Hf code Hn].
    + rewrite !elem_of_cons, elem_of_nil in Hin.
      repeat (destruct Hin as [Hin|Hin]; [injection Hin as -> ->; reflexivity|]). done.
    + unfold escape_bytes. cbn [app]. change (117 =? 34) with false. cbn -[unicode_digits anti_rt_utf8_encode].
      assert (unicode_digits 4 0 (a :: b :: c :: d :: rest) = (Some code, rest)) as -> by (apply unicode_digits_4; by exists a, b, c, d).
      destruct (Z.geb_spec code 0xD800), (Z.leb_spec code 0xDFFF); cbn [andb]; try done. lia.
Qed.

Lemma string_loop_sound f s k rest k' :
  string_loop f s k = (true, rest, k') -> exists t d, s = t ++ 34 :: rest /\ json_body t d /\ fed_sink k d k'.
Proof.
  revert s k. induction f as [|f IH]; intros s k H; cbn [string_loop] in H; [done|].
  destruct s as [|c s]; [done|].
  destruct (Z.eqb_spec c 34) as [->|Hq].
  { injection H as <- <-. exists [], []. split; [done|]. split; [constructor|apply fed_sink_refl]. }
  destruct (Z.ltb_spec c 0x20); [done|]. destruct (Z.eqb_spec c 92) as [->|Hb]; cbn [negb] in H.
  - destruct (escape_bytes s) as [[bs|] s1] eqn:Ee; [|done].
    apply escape_bytes_exact in Ee as (e & -> & He). destruct (put_bytes k bs) as [[] k1] eqn:Ep; [|done].
    apply put_bytes_fed in Ep. destruct (IH _ _ H) as (t & d & -> & Ht & Hk).
    exists (92 :: e ++ t), (bs ++ d). split; [by cbn; rewrite <- app_assoc|]. split; [by constructor|].
    by eapply fed_sink_trans.
  - destruct (put_byte k c) as [[] k1] eqn:Ep; [|done]. apply put_byte_fed in Ep.
    destruct (IH _ _ H) as (t & d & -> & Ht & Hk). exists (c :: t), (c :: d). split; [done|].
    split; [by constructor|]. by apply (fed_sink_trans k [c] k1).
Qed.

Lemma string_loop_complete t d f k rest :
  json_body t d -> (length t < f)%nat -> takes k (length d) ->
  exists k', string_loop f (t ++ 34 :: rest) k = (true, rest, k') /\ fed_sink k d k'.
Proof.
  intros Ht. revert f k. induction Ht as [|c t d Hc Hq Hb Ht IH|e bs t d He Ht IH]; intros f k Hf Hk;
    (destruct f as [|f]; [lia|]); cbn [string_loop app length] in *.
  - exists k. split; [done|apply fed_sink_refl].
  - rewrite (proj2 (Z.eqb_neq c 34)), (proj2 (Z.ltb_ge c _)), (proj2 (Z.eqb_neq c 92)) by lia. cbn [negb].
    destruct (put_byte_takes k c _ Hk) as (k1 & E & H1). rewrite E. apply put_byte_fed in E.
    destruct (IH f k1 ltac:(lia) H1) as (k' & -> & H2). exists k'. split; [done|]. by apply (fed_sink_trans k [c] k1).
  - change (92 =? 34) with false. change (92 <? 32) with false. cbn [negb Z.eqb Pos.eqb].
    assert (escape_bytes ((e ++ t) ++ 34 :: rest) = (Some bs, t ++ 34 :: rest)) as ->
      by (apply escape_bytes_exact; exists e; by rewrite app_assoc).
    rewrite length_app in Hk. destruct (put_bytes_takes k bs _ Hk) as (k1 & E & H1). rewrite E. apply put_bytes_fed in E.
    rewrite length_app in Hf. destruct (IH f k1 ltac:(lia) H1) as (k' & -> & H2). exists k'. split; [done|]. by eapply fed_sink_trans.
Qed.

Lemma read_string_sound s k rest k' :
  read_string s k = (true, rest, k') ->
  exists w t d, ws w /\ s = w ++ 34 :: t ++ 34 :: rest /\ json_body t d /\ fed_sink k d k'.
Proof.
  unfold read_string. destruct (anti_rt_json_take 34 s) as [[] s1] eqn:E; [|done].
  apply take_inv in E as (w & Hw & ->). intros H. apply string_loop_sound in H as (t & d & -> & Ht & Hk).
  by exists w, t, d.
Qed.

Lemma read_string_complete w t d k rest :
  ws w -> json_body t d -> takes k (length d) ->
  exists k', read_string (w ++ 34 :: t ++ 34 :: rest) k = (true, rest, k') /\ fed_sink k d k'.
Proof.
  intros Hw Ht Hk. unfold read_string. rewrite take_app_ws by done.
  apply string_loop_complete; [done| |done]. rewrite length_app. lia.
Qed.

(** A read of a string into no buffer. *)
Lemma json_string_sound s rest d :
  anti_rt_json_string false 0 s = (true, rest, d) -> exists w t, ws w /\ s = w ++ 34 :: t ++ 34 :: rest /\ json_body t d.
Proof.
  unfold anti_rt_json_string. destruct (read_string s _) as [[ok s'] k'] eqn:E. intros [= -> -> <-].
  apply read_string_sound in E as (w & t & d & Hw & -> & Ht & Hk). exists w, t. by rewrite (fs_bytes _ _ _ Hk).
Qed.

Lemma json_string_complete stored room w t d rest :
  ws w -> json_body t d -> (stored = true -> (length d <= room)%nat) ->
  anti_rt_json_string stored room (w ++ 34 :: t ++ 34 :: rest) = (true, rest, d).
Proof.
  intros Hw Ht Hr. unfold anti_rt_json_string.
  destruct (read_string_complete w t d (Sink stored None room [] true) rest Hw Ht) as (k' & -> & Hk);
    [intros H; by apply Hr|]. by rewrite (fs_bytes _ _ _ Hk).
Qed.

(** A key: whether its decoded bytes are the name. *)
Lemma json_key_same k' name d :
  fed_sink (Sink false (Some name) (length name) [] true) d k' ->
  k_same k' && (length (k_bytes k') =? length name)%nat = bool_decide (d = name).
Proof.
  intros Hk. rewrite (fs_same _ _ _ Hk name eq_refl eq_refl) by (symmetry; apply bool_decide_eq_true; apply prefix_nil).
  rewrite (fs_bytes _ _ _ Hk). cbn [app k_bytes]. apply eq_true_iff_eq. rewrite andb_true_iff, !bool_decide_eq_true, Nat.eqb_eq.
  split; [|by intros ->]. intros [[r E] Hl]. rewrite E, length_app in Hl. destruct r; [by rewrite app_nil_r in E|cbn in Hl; lia].
Qed.

Lemma json_key_sound name s rest same :
  anti_rt_json_key name s = (true, rest, same) ->
  exists w t d, ws w /\ s = w ++ 34 :: t ++ 34 :: rest /\ json_body t d /\ same = bool_decide (d = name).
Proof.
  unfold anti_rt_json_key. destruct (read_string s _) as [[ok s'] k'] eqn:E. intros [= -> -> Hs].
  apply read_string_sound in E as (w & t & d & Hw & -> & Ht & Hk). exists w, t, d. do 3 (split; [done|]).
  rewrite <- Hs. by apply json_key_same.
Qed.

Lemma json_key_complete name w t d rest :
  ws w -> json_body t d -> anti_rt_json_key name (w ++ 34 :: t ++ 34 :: rest) = (true, rest, bool_decide (d = name)).
Proof.
  intros Hw Ht. unfold anti_rt_json_key.
  destruct (read_string_complete w t d (Sink false (Some name) (length name) [] true) rest Hw Ht) as (k' & -> & Hk); [done|].
  f_equal. cbn [andb]. by apply json_key_same.
Qed.

(** ** Values *)

Lemma is_space_not_number c : is_json_space c = true -> number_byte c = false.
Proof.
  unfold is_json_space. rewrite !orb_true_iff, !Z.eqb_eq. by intros [[[-> | ->] | ->] | ->].
Qed.

Lemma stops_ws w c s : ws w -> number_byte c = false -> stops number_byte (w ++ c :: s).
Proof. intros Hw Hc. destruct Hw as [|b w Hb _]; [done|]. by apply is_space_not_number. Qed.

Lemma ws_stops w : ws w -> stops number_byte w.
Proof. intros Hw. destruct Hw as [|b w Hb _]; [done|]. by apply is_space_not_number. Qed.

(** A function that skips exactly the texts of [value], with white space before. *)
Record skips (value : list Z -> Prop) (skip : list Z -> bool * list Z) : Prop := {
  sk_sound : forall s rest, skip s = (true, rest) -> exists w v, ws w /\ value v /\ s = w ++ v ++ rest;
  sk_complete : forall w v rest, ws w -> value v -> stops number_byte rest -> skip (w ++ v ++ rest) = (true, rest)
}.

Lemma skip_elements_sound value skip f s rest :
  skips value skip -> skip_elements skip f s = (true, rest) -> exists b, s = b ++ 93 :: rest /\ json_elements value b.
Proof.
  intros Hs. revert s. induction f as [|f IH]; intros s H; cbn [skip_elements] in H; [done|].
  destruct (skip s) as [[] s1] eqn:E; [|done]. apply (sk_sound _ _ Hs) in E as (w & v & Hw & Hv & ->). cbn [negb] in H.
  destruct (anti_rt_json_take 44 s1) as [[] s2] eqn:E.
  - apply take_inv in E as (w2 & Hw2 & ->). destruct (IH _ H) as (b & -> & Hb).
    exists (w ++ v ++ w2 ++ 44 :: b). split; [by rewrite <- !app_assoc|]. by constructor.
  - apply take_fail in E as (w2 & Hw2 & -> & Es). apply take_inv in H as (w3 & Hw3 & ->).
    exists (w ++ v ++ w2 ++ w3). split; [by rewrite <- !app_assoc|]. apply elements_one; [done|done|by apply Forall_app].
Qed.

Lemma skip_elements_complete value skip b f rest :
  skips value skip -> json_elements value b -> (length b < f)%nat -> skip_elements skip f (b ++ 93 :: rest) = (true, rest).
Proof.
  intros Hs Hb. revert f. induction Hb as [w1 v w2 Hw1 Hv Hw2|w1 v w2 b Hw1 Hv Hw2 Hb IH]; intros [|f] Hf; try lia;
    cbn [skip_elements].
  - rewrite <- !app_assoc. rewrite (sk_complete _ _ Hs) by (done || by apply stops_ws). cbn [negb].
    rewrite take_other by done. unfold anti_rt_json_take. by rewrite json_space_stop.
  - rewrite <- !app_assoc. cbn [app]. rewrite (sk_complete _ _ Hs) by (done || by apply stops_ws). cbn [negb].
    rewrite take_app_ws by done. apply IH. rewrite !length_app in Hf. cbn in Hf. lia.
Qed.

Lemma skip_members_sound value skip f s rest :
  skips value skip -> skip_members skip f s = (true, rest) -> exists ms b, s = b ++ 125 :: rest /\ json_members value ms b.
Proof.
  intros Hs. revert s. induction f as [|f IH]; intros s H; cbn [skip_members] in H; [done|].
  destruct (anti_rt_json_string false 0 s) as [[[] s1] d] eqn:E; [|done]. cbn [negb] in H.
  apply json_string_sound in E as (w1 & t & Hw1 & -> & Ht).
  destruct (anti_rt_json_take 58 s1) as [[] s2] eqn:E; [|done]. cbn [negb] in H. apply take_inv in E as (w2 & Hw2 & ->).
  destruct (skip s2) as [[] s3] eqn:E; [|done]. cbn [negb] in H. apply (sk_sound _ _ Hs) in E as (w3 & v & Hw3 & Hv & ->).
  destruct (anti_rt_json_take 44 s3) as [[] s4] eqn:E.
  - apply take_inv in E as (w4 & Hw4 & ->). destruct (IH _ H) as (ms & b & -> & Hb). exists ((d, v) :: ms). eexists.
    split; [|by apply (members_more _ w1 t d w2 w3 v w4 ms b)]. by repeat (rewrite <- ?app_assoc; cbn [app]).
  - apply take_fail in E as (w4 & Hw4 & -> & Es). apply take_inv in H as (w5 & Hw5 & ->). exists [(d, v)]. eexists.
    split; [|apply (members_one _ w1 t d w2 w3 v (w4 ++ w5)); try done; by apply Forall_app].
    by repeat (rewrite <- ?app_assoc; cbn [app]).
Qed.

Lemma skip_members_complete value skip ms b f rest :
  skips value skip -> json_members value ms b -> (length b < f)%nat ->
  skip_members skip f (b ++ 125 :: rest) = (true, rest).
Proof.
  intros Hs Hb. revert f. induction Hb as [w1 t d w2 w3 v w4 H1 Ht H2 H3 Hv H4|w1 t d w2 w3 v w4 ms b H1 Ht H2 H3 Hv H4 Hb IH];
    intros [|f] Hf; try lia; cbn [skip_members]; repeat (rewrite <- ?app_assoc; cbn [app]).
  - rewrite (json_string_complete false 0 w1 t d) by done. cbn [negb]. rewrite take_app_ws by done. cbn [negb].
    rewrite (sk_complete _ _ Hs) by (done || by apply stops_ws). cbn [negb].
    rewrite take_other by done. unfold anti_rt_json_take. by rewrite json_space_stop.
  - rewrite (json_string_complete false 0 w1 t d) by done. cbn [negb]. rewrite take_app_ws by done. cbn [negb].
    rewrite (sk_complete _ _ Hs) by (done || by apply stops_ws). cbn [negb].
    rewrite take_app_ws by done. apply IH. repeat (rewrite ?length_app in Hf; cbn [length] in Hf). lia.
Qed.

Lemma number_bytes t : json_number t -> Forall (fun c => number_byte c = true) t.
Proof.
  intros (sign & whole & fraction & exponent & -> & Hs & Hw & Hf & He).
  assert (forall ds, digits ds -> Forall (fun c => number_byte c = true) ds) as Hd.
  { intros ds [_ H]. eapply Forall_impl; [exact H|]. intros c Hc. unfold number_byte. by rewrite Hc. }
  apply Forall_app. split; [destruct Hs as [-> | ->]; by repeat constructor|].
  apply Forall_app. split; [destruct Hw as [-> |[Hw _]]; [by repeat constructor|by apply Hd]|].
  apply Forall_app. split.
  - destruct Hf as [-> |(ds & -> & H)]; [done|]. constructor; [done|by apply Hd].
  - destruct He as [-> |(e & sign' & ds & -> & He & Hsg & H)]; [done|].
    constructor; [by destruct He as [-> | ->]|]. apply Forall_app. split; [|by apply Hd].
    destruct Hsg as [-> | [-> | ->]]; by repeat constructor.
Qed.

Lemma number_head t : json_number t -> exists c r, t = c :: r /\ (c = 45 \/ is_json_digit c = true).
Proof.
  intros (sign & whole & fraction & exponent & -> & Hs & Hw & _).
  destruct Hs as [-> | ->]; [|by do 2 eexists; split; [reflexivity|left]].
  destruct Hw as [-> |[Hw _]]; [by do 2 eexists; split; [reflexivity|right]|].
  destruct (digits_head whole (fraction ++ exponent) Hw) as (c & r & E & Hc & _). exists c, r. split; [exact E|by right].
Qed.

Lemma json_word_sound w s rest :
  anti_rt_json_word w s = (true, rest) -> exists sp, ws sp /\ s = sp ++ w ++ rest.
Proof.
  unfold anti_rt_json_word. destruct (json_space_split s) as (sp & Hsp & E & _). set (s' := anti_rt_json_space s) in *.
  destruct (_ <=? _)%nat; cbn [andb]; [|done]. case_bool_decide as Ht; [|done]. intros [= <-].
  exists sp. split; [done|]. rewrite E. f_equal. rewrite <- Ht at 1. by rewrite take_drop.
Qed.

Lemma json_word_fail w s rest : anti_rt_json_word w s = (false, rest) -> exists sp, ws sp /\ s = sp ++ rest.
Proof.
  unfold anti_rt_json_word. destruct (_ && _); [done|]. intros [= <-].
  destruct (json_space_split s) as (sp & Hsp & E & _). by exists sp.
Qed.

(** A word does not come where another byte stands. *)
Lemma json_word_other c w d s :
  is_json_space d = false -> c <> d -> anti_rt_json_word (c :: w) (d :: s) = (false, d :: s).
Proof.
  intros Hd Hn. unfold anti_rt_json_word. rewrite json_space_stop by done. cbn [length take].
  rewrite (bool_decide_eq_false_2 (_ = _)) by congruence. by rewrite andb_false_r.
Qed.

Lemma skip_other_sound s rest :
  skip_other s = (true, rest) ->
  exists w v, ws w /\ (json_number v \/ v ∈ [bytes "true"; bytes "false"; bytes "null"]) /\ s = w ++ v ++ rest.
Proof.
  unfold skip_other. intros H.
  destruct (anti_rt_json_word (bytes "true") s) as [[] s1] eqn:E1.
  { injection H as <-. apply json_word_sound in E1 as (w & Hw & ->). exists w, (bytes "true"). split; [done|]. split; [right; set_solver|done]. }
  apply json_word_fail in E1 as (w1 & Hw1 & ->).
  destruct (anti_rt_json_word (bytes "false") s1) as [[] s2] eqn:E2.
  { injection H as <-. apply json_word_sound in E2 as (w & Hw & ->). exists (w1 ++ w), (bytes "false").
    split; [by apply Forall_app|]. split; [right; set_solver|by rewrite <- app_assoc]. }
  apply json_word_fail in E2 as (w2 & Hw2 & ->).
  destruct (anti_rt_json_word (bytes "null") s2) as [[] s3] eqn:E3.
  { injection H as <-. apply json_word_sound in E3 as (w & Hw & ->). exists (w1 ++ w2 ++ w), (bytes "null").
    split; [by apply Forall_app_2, Forall_app_2|]. split; [right; set_solver|by rewrite <- !app_assoc]. }
  apply json_word_fail in E3 as (w3 & Hw3 & ->). unfold anti_rt_json_number in H.
  destruct (span number_byte (anti_rt_json_space s3)) as [number r] eqn:E. injection H as Hok <-.
  apply andb_true_iff in Hok as [_ Hv]. apply valid_number_exact in Hv. apply span_spec in E as (E & _ & _).
  destruct (json_space_split s3) as (w4 & Hw4 & E4 & _). rewrite E in E4. rewrite E4.
  exists (w1 ++ w2 ++ w3 ++ w4), number. split; [by apply Forall_app_2, Forall_app_2, Forall_app_2|]. split; [by left|]. by rewrite <- !app_assoc.
Qed.

Lemma skip_other_number v rest : json_number v -> stops number_byte rest -> skip_other (v ++ rest) = (true, rest).
Proof.
  intros Hv Hr. pose proof (number_bytes v Hv) as Hb. destruct (number_head v Hv) as (c & r & -> & Hc).
  assert (c <> 116 /\ c <> 102 /\ c <> 110 /\ is_json_space c = false) as (H1 & H2 & H3 & H4).
  { destruct Hc as [-> |Hc]; [done|]. unfold is_json_digit, is_json_space in *. rewrite Z.geb_leb in Hc.
    bool_to_prop. repeat split; lia. }
  unfold skip_other. cbn [app]. unfold bytes. cbn [N_of_ascii].
  rewrite !json_word_other by (done || (vm_compute (Z.of_N _); congruence)).
  unfold anti_rt_json_number. rewrite json_space_stop by done. change (c :: r ++ rest) with ((c :: r) ++ rest).
  rewrite span_app by done. rewrite (proj2 (valid_number_exact _)) by done. done.
Qed.

Lemma skip_other_null rest : skip_other (bytes "null" ++ rest) = (true, rest).
Proof.
  unfold skip_other.
  assert (anti_rt_json_word (bytes "true") (bytes "null" ++ rest) = (false, bytes "null" ++ rest)) as ->
    by (by apply (json_word_other 116 (bytes "rue") 110 (bytes "ull" ++ rest))).
  assert (anti_rt_json_word (bytes "false") (bytes "null" ++ rest) = (false, bytes "null" ++ rest)) as ->
    by (by apply (json_word_other 102 (bytes "alse") 110 (bytes "ull" ++ rest))).
  reflexivity.
Qed.

Lemma json_text_head n v : json_text n v -> exists c r, v = c :: r /\ is_json_space c = false /\ c <> 93.
Proof.
  destruct n as [|n]; [done|]. cbn [json_text]. intros [(b & d & -> & _)|[Hn|[Hw|[(b & -> & _)|(b & -> & _)]]]].
  - do 2 eexists; by split.
  - destruct (number_head v Hn) as (c & r & -> & Hc). exists c, r. split; [done|].
    destruct Hc as [-> |Hc]; [done|]. unfold is_json_digit, is_json_space in *. rewrite Z.geb_leb in Hc. bool_to_prop. split; lia.
  - rewrite !elem_of_cons, elem_of_nil in Hw. destruct Hw as [-> |[-> |[-> |[]]]]; do 2 eexists; by split.
  - do 2 eexists; by split.
  - do 2 eexists; by split.
Qed.

Lemma members_ws value w ms b : ws w -> json_members value ms b -> json_members value ms (w ++ b).
Proof.
  intros Hw Hb. destruct Hb as [w1 t d w2 w3 v w4 H1|w1 t d w2 w3 v w4 ms b H1]; rewrite app_assoc;
    [apply members_one|apply members_more]; try done; by apply Forall_app.
Qed.

Lemma members_strip value ms b :
  json_members value ms b -> exists w b', b = w ++ 34 :: b' /\ ws w /\ json_members value ms (34 :: b').
Proof.
  intros Hb. destruct Hb as [w1 t d w2 w3 v w4 H1 Ht H2 H3 Hv H4|w1 t d w2 w3 v w4 ms b H1 Ht H2 H3 Hv H4 Hb];
    do 2 eexists; (split; [reflexivity|]); (split; [done|]).
  - by apply (members_one value [] t d w2 w3 v w4).
  - by apply (members_more value [] t d w2 w3 v w4 ms b).
Qed.

Lemma elements_ws value w b : ws w -> json_elements value b -> json_elements value (w ++ b).
Proof.
  intros Hw Hb. destruct Hb as [w1 v w2 H1|w1 v w2 b H1]; rewrite app_assoc;
    [apply elements_one|apply elements_more]; try done; by apply Forall_app.
Qed.

Lemma elements_strip n b :
  json_elements (json_text n) b ->
  exists w c b', b = w ++ c :: b' /\ ws w /\ is_json_space c = false /\ c <> 93 /\ json_elements (json_text n) (c :: b').
Proof.
  intros Hb. destruct Hb as [w1 v w2 H1 Hv H2|w1 v w2 b H1 Hv H2 Hb];
    destruct (json_text_head n v Hv) as (c & r & -> & Hc & Hn); do 3 eexists; (split; [reflexivity|]); do 3 (split; [done|]).
  - by apply (elements_one _ [] (c :: r) w2).
  - by apply (elements_more _ [] (c :: r) w2 b).
Qed.

Lemma json_skip_sound n s rest :
  (forall m, (m < n)%nat -> skips (json_text m) (json_skip m)) ->
  json_skip n s = (true, rest) -> exists w v, ws w /\ json_text n v /\ s = w ++ v ++ rest.
Proof.
  intros IH H. destruct n as [|n]; cbn [json_skip] in H; [done|]. specialize (IH n ltac:(lia)).
  destruct (json_space_split s) as (w & Hw & -> & _). destruct (anti_rt_json_space s) as [|c s1]; [done|].
  destruct (Z.eqb_spec c 34) as [-> |].
  { destruct (anti_rt_json_string false 0 (34 :: s1)) as [[ok s2] d] eqn:E. injection H as -> ->.
    apply json_string_sound in E as (w2 & t & Hw2 & -> & Ht). exists (w ++ w2), (34 :: t ++ [34]).
    split; [by apply Forall_app|]. split; [left; eauto|]. by repeat (rewrite <- ?app_assoc; cbn [app]). }
  destruct (Z.eqb_spec c 123) as [-> |].
  { destruct (anti_rt_json_take 125 s1) as [[] s2] eqn:E.
    - injection H as <-. apply take_inv in E as (w2 & Hw2 & ->). exists w, (123 :: w2 ++ [125]). split; [done|].
      split; [do 3 right; left; exists w2; auto|]. by repeat (rewrite <- ?app_assoc; cbn [app]).
    - apply take_fail in E as (w2 & Hw2 & -> & _). apply (skip_members_sound _ _ _ _ _ IH) in H as (ms & b & -> & Hb).
      exists w, (123 :: (w2 ++ b) ++ [125]). split; [done|]. split; [|by repeat (rewrite <- ?app_assoc; cbn [app])].
      do 3 right. left. exists (w2 ++ b). split; [done|]. right. exists ms. by apply members_ws. }
  destruct (Z.eqb_spec c 91) as [-> |].
  { destruct (anti_rt_json_take 93 s1) as [[] s2] eqn:E.
    - injection H as <-. apply take_inv in E as (w2 & Hw2 & ->). exists w, (91 :: w2 ++ [93]). split; [done|].
      split; [do 4 right; exists w2; auto|]. by repeat (rewrite <- ?app_assoc; cbn [app]).
    - apply take_fail in E as (w2 & Hw2 & -> & _). apply (skip_elements_sound _ _ _ _ _ IH) in H as (b & -> & Hb).
      exists w, (91 :: (w2 ++ b) ++ [93]). split; [done|]. split; [|by repeat (rewrite <- ?app_assoc; cbn [app])].
      do 4 right. exists (w2 ++ b). split; [done|]. right. by apply elements_ws. }
  apply skip_other_sound in H as (w2 & v & Hw2 & Hv & ->). exists (w ++ w2), v. split; [by apply Forall_app|].
  split; [|by rewrite <- app_assoc]. cbn [json_text]. tauto.
Qed.

Lemma json_skip_complete n w v rest :
  (forall m, (m < n)%nat -> skips (json_text m) (json_skip m)) ->
  ws w -> json_text n v -> stops number_byte rest -> json_skip n (w ++ v ++ rest) = (true, rest).
Proof.
  intros IH Hw Hv Hr. destruct n as [|n]; [done|]. specialize (IH n ltac:(lia)).
  destruct (json_text_head _ v Hv) as (c & r & Ev & Hc & _). cbn [json_skip]. rewrite json_space_app by done.
  assert (anti_rt_json_space (v ++ rest) = v ++ rest) as -> by (rewrite Ev; by apply json_space_stop).
  cbn [json_text] in Hv. destruct Hv as [(b & d & -> & Hb)|[Hn|[Hin|[(b & -> & Hb)|(b & -> & Hb)]]]].
  - cbn [app]. change (34 =? 34) with true. cbn iota. rewrite <- app_assoc.
    pose proof (json_string_complete false 0 [] b d rest ws_nil Hb ltac:(done)) as E. cbn [app] in *. by rewrite E.
  - assert (c = 45 \/ is_json_digit c = true) as Hd.
    { destruct (number_head v Hn) as (c' & r' & E & H). rewrite Ev in E. by injection E as -> ->. }
    rewrite Ev at 1. cbn [app].
    assert (c <> 34 /\ c <> 123 /\ c <> 91) as (H1 & H2 & H3).
    { destruct Hd as [-> |Hd]; [done|]. unfold is_json_digit in Hd. rewrite Z.geb_leb in Hd. bool_to_prop. lia. }
    rewrite !(proj2 (Z.eqb_neq c _)) by done. change (c :: r ++ rest) with ((c :: r) ++ rest). rewrite <- Ev.
    by apply skip_other_number.
  - rewrite !elem_of_cons, elem_of_nil in Hin. destruct Hin as [-> |[-> |[-> |[]]]]; [reflexivity..|].
    apply skip_other_null.
  - cbn [app]. change (123 =? 34) with false. change (123 =? 123) with true. cbn iota. rewrite <- app_assoc. cbn [app].
    destruct Hb as [Hb|(ms & Hb)]; [by rewrite take_app_ws|].
    apply members_strip in Hb as (w2 & b' & -> & Hw2 & Hb). rewrite <- app_assoc. cbn [app].
    rewrite take_other by done. apply (skip_members_complete _ _ ms (34 :: b') _ rest IH Hb). cbn. rewrite length_app. lia.
  - cbn [app]. change (91 =? 34) with false. change (91 =? 123) with false. change (91 =? 91) with true. cbn iota.
    rewrite <- app_assoc. cbn [app]. destruct Hb as [Hb|Hb]; [by rewrite take_app_ws|].
    apply elements_strip in Hb as (w2 & d & b' & -> & Hw2 & Hd & Hn & Hb). rewrite <- app_assoc. cbn [app].
    rewrite take_other by done. apply (skip_elements_complete _ _ (d :: b') _ rest IH Hb). cbn. rewrite length_app. lia.
Qed.

Lemma json_skip_skips n : skips (json_text n) (json_skip n).
Proof.
  induction (lt_wf n) as [n _ IH]. split.
  - intros s rest. by apply json_skip_sound.
  - intros w v rest. by apply json_skip_complete.
Qed.

(** ** Integers *)

Definition value_of (m : Z) (ds : list Z) : Z := fold_left (fun v c => v * 10 + (c - 48)) ds m.

(** [n] is the value of the integer [t]. *)
Definition json_integer_text (t : list Z) (n : Z) : Prop :=
  exists sign ds, t = sign ++ ds /\ (sign = [] \/ sign = [45]) /\ digits ds /\ (ds = [48] \/ head ds <> Some 48) /\
    n = (if bool_decide (sign = [45]) then - value_of 0 ds else value_of 0 ds).

Lemma is_json_digit_range c : is_json_digit c = true <-> 48 <= c <= 57.
Proof. unfold is_json_digit. rewrite Z.geb_leb, andb_true_iff, !Z.leb_le. lia. Qed.

Lemma value_of_ge ds m : Forall (fun c => is_json_digit c = true) ds -> 0 <= m -> m <= value_of m ds.
Proof.
  intros H. revert m. induction H as [|c ds Hc _ IH]; intros m Hm; cbn; [lia|]. apply is_json_digit_range in Hc.
  specialize (IH (m * 10 + (c - 48)) ltac:(lia)). unfold value_of in IH. lia.
Qed.

Lemma magnitude_loop_exact limit m s v :
  9 <= limit <= UINT64_MAX -> 0 <= m <= limit ->
  magnitude_loop limit m s = Some v <->
  Forall (fun c => is_json_digit c = true) s /\ v = value_of m s /\ v <= limit.
Proof.
  intros Hl. revert m. induction s as [|c s IH]; intros m Hm; cbn [magnitude_loop].
  { cbn. split; [intros [= <-]; split; [constructor|lia]|intros (_ & -> & _); done]. }
  rewrite Forall_cons, is_json_digit_range, Z.gtb_ltb.
  destruct (Z.ltb_spec c 48); cbn [orb]; [split; [done|lia]|]. destruct (Z.ltb_spec 57 c); [split; [done|lia]|].
  rewrite (wrap_small 64 (limit - _)) by (split; pow2s; lia). rewrite Z.gtb_ltb.
  change (value_of m (c :: s)) with (value_of (m * 10 + (c - 48)) s).
  destruct (Z.ltb_spec ((limit - (c - 48)) / 10) m) as [Hgt|Hle].
  - split; [done|]. intros ((_ & Hs) & -> & Hv). exfalso.
    pose proof (value_of_ge s (m * 10 + (c - 48)) Hs ltac:(lia)). Z.div_mod_to_equations. lia.
  - assert (0 <= m * 10 + (c - 48) <= limit) as Hb by (Z.div_mod_to_equations; lia).
    rewrite wrap_small by (split; pow2s; lia). rewrite IH by lia. tauto.
Qed.

(** The number without its sign is digits exactly when it is an integer. *)
Lemma magnitude_exact t limit m :
  9 <= limit <= UINT64_MAX ->
  magnitude_of t limit = Some m <->
  exists ds, t = (if is_negative t then [45] else []) ++ ds /\ digits ds /\ (ds = [48] \/ head ds <> Some 48) /\
    m = value_of 0 ds /\ m <= limit.
Proof.
  intros Hl. unfold magnitude_of, is_negative.
  pose proof (one_of_spec (fun c => c =? 45) t) as Ht. destruct (one_of (fun c => c =? 45) t) as [minus s].
  assert (t = (if minus then [45] else []) ++ s) as Et.
  { destruct minus; [destruct Ht as (c & -> & Hc); by apply Z.eqb_eq in Hc as ->|by destruct Ht as [-> _]]. }
  cbn [fst snd]. split.
  - destruct (anti_rt_json_valid_number t) eqn:Ev; [|done]. apply valid_number_exact in Ev.
    intros H. apply magnitude_loop_exact in H as (Hd & Hm & Hb); [|lia..].
    exists s. split; [done|]. destruct Ev as (sign & whole & fraction & exponent & E & Hs & Hw & Hf & He).
    assert (s = whole ++ fraction ++ exponent) as Es.
    { destruct minus; [destruct Hs as [-> | ->]; rewrite Et in E; cbn in E|].
      - destruct Hw as [-> |[Hw _]]; [done|]. destruct (digits_head whole (fraction ++ exponent) Hw) as (c & r & E' & Hc & _).
        rewrite E' in E. injection E as <- _. done.
      - by injection E.
      - destruct Ht as [-> Hn]. destruct Hs as [-> | ->]; [done|]. rewrite E in Hn. done. }
    rewrite Es in Hd. apply Forall_app in Hd as [_ [Hfd Hed]%Forall_app].
    assert (fraction = []) as -> by (destruct Hf as [-> |(ds & -> & _)]; [done|]; by inversion Hfd).
    assert (exponent = []) as ->.
    { destruct He as [-> |(e & sg & ds & -> & He & _)]; [done|]. inversion Hed. by destruct He as [-> | ->]. }
    rewrite app_nil_r in Es. subst s. split; [destruct Hw as [-> |[Hw _]]; [by split; [|repeat constructor]|done]|].
    split; [tauto|done].
  - intros (ds & E & Hd & Hz & -> & Hb). assert (ds = s) as -> by (rewrite Et in E; by apply app_inv_head in E).
    rewrite (proj2 (valid_number_exact t)).
    + apply magnitude_loop_exact; [lia|lia|]. by destruct Hd.
    + exists (if minus then [45] else []), s, [], []. rewrite !app_nil_r. split; [done|].
      split; [by destruct minus; auto|]. split; [tauto|]. auto.
Qed.

Lemma negative_sign sign ds :
  (sign = [] \/ sign = [45]) -> digits ds -> is_negative (sign ++ ds) = bool_decide (sign = [45]).
Proof.
  intros [-> | ->] Hd; [|done]. destruct (digits_head ds [] Hd) as (c & r & Er & Hc & _). rewrite app_nil_r in Er.
  cbn [app]. rewrite Er. unfold is_negative. cbn. by rewrite (json_digit_not c).
Qed.

(** An integer by the sign of its text and its magnitude. *)
Lemma magnitude_integer t m limit :
  9 <= limit <= UINT64_MAX ->
  magnitude_of t limit = Some m <-> json_integer_text t (if is_negative t then - m else m) /\ 0 <= m <= limit.
Proof.
  intros Hl. rewrite magnitude_exact by done. split.
  - intros (ds & E & Hd & Hz & -> & Hb). split; [|split; [|done]].
    + exists (if is_negative t then [45] else []), ds. split; [done|]. split; [by destruct (is_negative t); auto|].
      do 2 (split; [done|]). by destruct (is_negative t).
    + apply value_of_ge; [apply Hd|lia].
  - intros [(sign & ds & -> & Hs & Hd & Hz & E) Hb]. exists ds.
    rewrite (negative_sign sign ds Hs Hd) in *. destruct Hs as [-> | ->];
      [change (bool_decide ([] = [45])) with false in *|change (bool_decide ([45] = [45])) with true in *];
      cbn in E; do 3 (split; [done|]); lia.
Qed.

Lemma integer_text_sign t v :
  json_integer_text t v -> exists m, 0 <= m /\ v = if is_negative t then - m else m.
Proof.
  intros (sign & ds & -> & Hs & Hd & Hz & ->). exists (value_of 0 ds). split; [apply value_of_ge; [apply Hd|lia]|].
  by rewrite (negative_sign sign ds Hs Hd).
Qed.

(** ** A string written and read *)

Lemma escapes_low :
  forallb (fun c => bool_decide ((write_byte c) = 92 :: tail (write_byte c)) &&
    bool_decide (escape_bytes (tail (write_byte c)) = (Some [c], []))) (34 :: 92 :: map Z.of_nat (seq 0 32)) = true.
Proof. vm_compute. reflexivity. Qed.

Lemma write_byte_body c t d : is_byte c -> json_body t d -> json_body (write_byte c ++ t) (c :: d).
Proof.
  intros Hc Ht.
  destruct (in_dec Z.eq_dec c (34 :: 92 :: map Z.of_nat (seq 0 32))) as [Hin|Hn].
  - pose proof escapes_low as H. rewrite forallb_forall in H. specialize (H c Hin).
    rewrite andb_true_iff, !bool_decide_eq_true in H. destruct H as [Hw He]. apply escape_bytes_exact in He as (e & E & He).
    rewrite app_nil_r in E. rewrite Hw, E. by apply (body_escape e [c] t d).
  - assert (c <> 34 /\ c <> 92 /\ 32 <= c) as (H1 & H2 & H3).
    { split; [intros ->; apply Hn; by left|]. split; [intros ->; apply Hn; right; by left|].
      destruct (Z.le_gt_cases 32 c); [done|]. exfalso. apply Hn. do 2 right. apply in_map_iff.
      exists (Z.to_nat c). unfold is_byte in Hc. split; [lia|]. apply in_seq. lia. }
    unfold write_byte. rewrite (proj2 (Z.eqb_neq c 34)), (proj2 (Z.eqb_neq c 92)) by done. cbn [orb].
    rewrite (proj2 (Z.eqb_neq c 10)), (proj2 (Z.eqb_neq c 13)), (proj2 (Z.eqb_neq c 9)), (proj2 (Z.ltb_ge c 32)) by lia.
    by apply body_plain.
Qed.

Lemma write_text_body t : Forall is_byte t -> json_body (concat (map write_byte t)) t.
Proof. induction 1 as [|c t Hc _ IH]; cbn; [constructor|by apply write_byte_body]. Qed.

(** ** Members *)

Lemma json_text_object n b :
  ws b \/ (exists ms, json_members (json_text n) ms b) -> json_text (S n) (123 :: b ++ [125]).
Proof. intros H. do 3 right. left. by exists b. Qed.

Lemma json_text_array n b :
  ws b \/ json_elements (json_text n) b -> json_text (S n) (91 :: b ++ [93]).
Proof. intros H. do 4 right. by exists b. Qed.

Lemma json_text_brace n r :
  json_text (S n) (123 :: r) -> exists b, r = b ++ [125] /\ (ws b \/ exists ms, json_members (json_text n) ms b).
Proof.
  cbn [json_text]. intros [(b & d & E & _)|[Hn|[Hin|[(b & E & Hb)|(b & E & _)]]]]; try discriminate E.
  - destruct (number_head _ Hn) as (c & r' & E & H). injection E as <- _. by destruct H.
  - rewrite !elem_of_cons, elem_of_nil in Hin. by destruct Hin as [E|[E|[E|[]]]].
  - injection E as ->. by exists b.
Qed.

(** The value of the first member of that name. *)
Fixpoint first_named (name : list Z) (ms : list (list Z * list Z)) : option (list Z) :=
  match ms with
  | [] => None
  | (k, v) :: ms => if bool_decide (k = name) then Some v else first_named name ms
  end.

(** [source] is one object, with white space around it, of the members [ms]. *)
Definition json_object (source : list Z) (ms : list (list Z * list Z)) : Prop :=
  exists w1 b w2, ws w1 /\ ws w2 /\ source = w1 ++ 123 :: b ++ 125 :: w2 /\
    (ws b /\ ms = [] \/ json_members (json_text ANTI_JSON_DEPTH) ms b).

Lemma json_value_skip s :
  anti_rt_json_value s = true <->
  exists w1 v w2, ws w1 /\ json_text (S ANTI_JSON_DEPTH) v /\ ws w2 /\ s = w1 ++ v ++ w2.
Proof.
  unfold anti_rt_json_value. change (anti_rt_json_skip 0 s) with (json_skip (S ANTI_JSON_DEPTH) s).
  pose proof (json_skip_skips (S ANTI_JSON_DEPTH)) as Hs. split.
  - destruct (json_skip _ s) as [[] rest] eqn:E; [|done]. cbn [andb]. intros H%bool_decide_eq_true.
    apply (sk_sound _ _ Hs) in E as (w & v & Hw & Hv & ->). exists w, v, rest. apply json_space_nil in H. auto.
  - intros (w1 & v & w2 & H1 & Hv & H2 & ->). rewrite (sk_complete _ _ Hs w1 v w2 H1 Hv (ws_stops w2 H2)).
    cbn [andb]. apply bool_decide_eq_true. by apply json_space_nil.
Qed.

Lemma member_loop_exact name ms b f rest :
  json_members (json_text ANTI_JSON_DEPTH) ms b -> (length b < f)%nat ->
  match first_named name ms with
  | Some v => exists pre after, member_loop name f (b ++ 125 :: rest) = Some (v ++ after, after) /\
      b ++ 125 :: rest = pre ++ v ++ after
  | None => member_loop name f (b ++ 125 :: rest) = None
  end.
Proof.
  intros Hb. revert f. pose proof (json_skip_skips ANTI_JSON_DEPTH) as Hs.
  assert (forall w3 v s, ws w3 -> json_text ANTI_JSON_DEPTH v -> anti_rt_json_space (w3 ++ v ++ s) = v ++ s) as Hspace.
  { intros w3 v s H3 Hv. rewrite json_space_app by done. destruct (json_text_head _ v Hv) as (c & r & -> & Hc & _).
    by apply json_space_stop. }
  induction Hb as [w1 t d w2 w3 v w4 H1 Ht H2 H3 Hv H4|w1 t d w2 w3 v w4 ms b H1 Ht H2 H3 Hv H4 Hb IH];
    intros [|f] Hf; try lia; cbn [member_loop first_named]; repeat (rewrite <- ?app_assoc; cbn [app]);
    rewrite (json_key_complete name w1 t d) by done; cbn [negb]; rewrite take_app_ws by done; cbn [negb];
    rewrite Hspace by done; change (anti_rt_json_skip 1) with (json_skip ANTI_JSON_DEPTH).
  - pose proof (sk_complete _ _ Hs [] v (w4 ++ 125 :: rest) ws_nil Hv ltac:(by apply stops_ws)) as E. cbn [app] in E.
    rewrite E. cbn [negb]. case_bool_decide as Hn.
    + exists (w1 ++ 34 :: t ++ 34 :: w2 ++ 58 :: w3). eexists. split; [reflexivity|].
      by repeat (rewrite <- ?app_assoc; cbn [app]).
    + by rewrite take_other.
  - pose proof (sk_complete _ _ Hs [] v (w4 ++ 44 :: b ++ 125 :: rest) ws_nil Hv ltac:(by apply stops_ws)) as E.
    cbn [app] in E. rewrite E. cbn [negb]. case_bool_decide as Hn.
    + exists (w1 ++ 34 :: t ++ 34 :: w2 ++ 58 :: w3). eexists. split; [reflexivity|].
      by repeat (rewrite <- ?app_assoc; cbn [app]).
    + rewrite take_app_ws by done. repeat (rewrite ?length_app in Hf; cbn [length] in Hf). specialize (IH f ltac:(lia)).
      destruct (first_named name ms) as [u|]; [|done]. destruct IH as (pre & after & -> & E2).
      exists (w1 ++ 34 :: t ++ 34 :: w2 ++ 58 :: w3 ++ v ++ w4 ++ 44 :: pre), after. split; [done|]. rewrite E2.
      by repeat (rewrite <- ?app_assoc; cbn [app]).
Qed.

(** The bytes from a place and their count, as a range of the source. *)
Lemma source_range (source pre v after : list Z) :
  source = pre ++ v ++ after ->
  take (length (v ++ after) - length after) (drop (length source - length (v ++ after)) source) = v.
Proof.
  intros ->. rewrite !length_app. replace (length pre + (length v + length after) - (length v + length after))%nat
    with (length pre) by lia. replace (length v + length after - length after)%nat with (length v) by lia.
  by rewrite drop_app_length, take_app_length.
Qed.

Lemma json_object_value source ms : json_object source ms -> anti_rt_json_value source = true.
Proof.
  intros (w1 & b & w2 & H1 & H2 & -> & Hb). apply json_value_skip. exists w1, (123 :: b ++ [125]), w2.
  split; [done|]. split; [|split; [done|by repeat (rewrite <- ?app_assoc; cbn [app])]].
  apply json_text_object. destruct Hb as [[Hb _]|Hb]; [by left|right; by exists ms].
Qed.

Lemma value_json_object source :
  head (anti_rt_json_space source) = Some 123 -> anti_rt_json_value source = true -> exists ms, json_object source ms.
Proof.
  intros Hh Hv. apply json_value_skip in Hv as (w1 & v & w2 & H1 & Hv & H2 & ->).
  destruct (json_text_head _ v Hv) as (c & r & Ev & Hc & _).
  rewrite json_space_app in Hh by done. rewrite Ev in Hh. cbn [app] in Hh. rewrite json_space_stop in Hh by done.
  injection Hh as ->. subst v. apply json_text_brace in Hv as (b & -> & Hb).
  assert (w1 ++ (123 :: b ++ [125]) ++ w2 = w1 ++ 123 :: b ++ 125 :: w2) as ->
    by (by repeat (rewrite <- ?app_assoc; cbn [app])).
  destruct Hb as [Hb|(ms & Hb)]; [exists []|exists ms]; exists w1, b, w2; do 3 (split; [done|]); [by left|by right].
Qed.

(** ** Properties *)

(** C34. The scanner accepts exactly JSON: a text is a value for it exactly when it is a
    value of the grammar with nothing but white space around it, in which objects and
    arrays nest in at most [ANTI_JSON_DEPTH] levels below the first. *)
Theorem json_value_exact s :
  anti_rt_json_value s = true <->
  exists w1 v w2, ws w1 /\ json_text (S ANTI_JSON_DEPTH) v /\ ws w2 /\ s = w1 ++ v ++ w2.
Proof. exact (json_value_skip s). Qed.

(** C35. A member of an object: for a text that is one object, the lookup gives the
    place and the length of the value of the first member whose key, with its escapes
    decoded, is the name, and nothing when no key is; for any other text, one with a
    damaged member after the one of that name too, it gives nothing. *)
Theorem json_member_exact source name :
  (forall ms, json_object source ms ->
    match first_named name ms with
    | Some v => exists i n, anti_rt_json_member source name = Some (i, n) /\ take n (drop i source) = v
    | None => anti_rt_json_member source name = None
    end) /\
  ((forall ms, ~ json_object source ms) -> anti_rt_json_member source name = None).
Proof.
  split.
  - intros ms Ho. unfold anti_rt_json_member. rewrite (json_object_value source ms Ho).
    destruct Ho as (w1 & b & w2 & H1 & H2 & Es & Hb).
    assert (head (anti_rt_json_space source) = Some 123) as Hh by (rewrite Es, json_space_app by done; done).
    rewrite (bool_decide_eq_true_2 _ Hh). cbn [negb orb].
    assert (anti_rt_json_take 123 source = (true, b ++ 125 :: w2)) as -> by (rewrite Es; by apply take_app_ws). cbn [negb].
    destruct Hb as [[Hb ->]|Hb]; [by rewrite take_app_ws|].
    apply members_strip in Hb as (w3 & b' & -> & H3 & Hb). rewrite <- app_assoc. cbn [app]. rewrite take_other by done.
    pose proof (member_loop_exact name ms (34 :: b') (S (length (34 :: b' ++ 125 :: w2))) w2 Hb) as Hm.
    destruct (first_named name ms) as [v|].
    + destruct Hm as (pre & after & E & Epre); [cbn; rewrite length_app; lia|]. cbn [app] in E. rewrite E. do 2 eexists.
      split; [reflexivity|]. apply (source_range source (w1 ++ 123 :: w3 ++ pre)). rewrite Es.
      repeat (rewrite <- ?app_assoc; cbn [app]). cbn [app] in Epre. by rewrite Epre.
    + cbn [app] in Hm. rewrite Hm by (cbn; rewrite length_app; lia). done.
  - intros Hno. unfold anti_rt_json_member. case_bool_decide as Hh; [|done]. cbn [negb orb].
    destruct (anti_rt_json_value source) eqn:Hv; [|done]. exfalso.
    destruct (value_json_object source Hh Hv) as (ms & Ho). by apply (Hno ms).
Qed.

(** Integers are exact: a text reads as the integer [v] exactly when it writes [v]
    in the grammar and [v] fits an [int64_t]; the unsigned read likewise for the values
    of a [uint64_t], with -0 read as 0. *)
Lemma json_integer_exact t v :
  (anti_rt_json_integer t = Some v <-> json_integer_text t v /\ - 2 ^ 63 <= v < 2 ^ 63) /\
  (anti_rt_json_unsigned t = Some v <-> json_integer_text t v /\ 0 <= v < 2 ^ 64).
Proof.
  pose proof (fun m limit => magnitude_integer t m limit) as Hmag. pose proof (integer_text_sign t v) as Habs.
  unfold anti_rt_json_integer, anti_rt_json_unsigned. destruct (is_negative t); cbn [negb andb].
  - split; (split; [intros H|intros [Ht Hv]; destruct (Habs Ht) as (m & Hm & ->)]).
    + destruct (magnitude_of t _) as [m|] eqn:E; [|done]. apply Hmag in E as [Ht Hm]; [|lia].
      destruct (Z.eqb_spec m (INT64_MAX + 1)) as [-> |]; injection H as <-; (split; [exact Ht|pow2s; lia]).
    + rewrite (proj2 (Hmag m (INT64_MAX + 1) ltac:(lia))) by (split; [done|pow2s; lia]).
      destruct (Z.eqb_spec m (INT64_MAX + 1)) as [-> |]; done.
    + destruct (magnitude_of t _) as [m|] eqn:E; [|done]. apply Hmag in E as [Ht Hm]; [|lia].
      destruct (Z.eqb_spec m 0) as [-> |]; cbn [negb] in H; [|done]. injection H as <-. split; [exact Ht|pow2s; lia].
    + rewrite (proj2 (Hmag m UINT64_MAX ltac:(lia))) by (split; [done|pow2s; lia]). assert (m = 0) as -> by lia. done.
  - split; (split; [intros H|intros [Ht Hv]; destruct (Habs Ht) as (m & Hm & ->)]).
    + destruct (magnitude_of t _) as [m|] eqn:E; [|done]. apply Hmag in E as [Ht Hm]; [|lia].
      injection H as <-; (split; [exact Ht|pow2s; lia]).
    + by rewrite (proj2 (Hmag m INT64_MAX ltac:(lia))) by (split; [done|pow2s; lia]).
    + destruct (magnitude_of t _) as [m|] eqn:E; [|done]. apply Hmag in E as [Ht Hm]; [|lia].
      injection H as <-. split; [exact Ht|pow2s; lia].
    + by rewrite (proj2 (Hmag m UINT64_MAX ltac:(lia))) by (split; [done|pow2s; lia]).
Qed.

(** A string comes back: the JSON string written for any bytes, with white space
    around it, reads back as exactly those bytes. *)
Lemma json_string_round_trip text w1 w2 :
  Forall is_byte text -> ws w1 -> ws w2 ->
  anti_rt_json_unquote (w1 ++ anti_rt_json_write_text text ++ w2) = (true, text).
Proof.
  intros Ht H1 H2. pose proof (write_text_body text Ht) as Hb. unfold anti_rt_json_write_text.
  assert (w1 ++ ([34] ++ concat (map write_byte text) ++ [34]) ++ w2 = w1 ++ 34 :: concat (map write_byte text) ++ 34 :: w2)
    as -> by (by repeat (rewrite <- ?app_assoc; cbn [app])).
  unfold anti_rt_json_unquote. rewrite !(json_string_complete _ _ w1 _ text w2 H1 Hb) by done.
  rewrite (bool_decide_eq_true_2 (_ = [])) by (by apply json_space_nil).
  destruct w1 as [|c w1]; cbn [app]; destruct text; done.
Qed.

(** An object of one member [b], whose key is written with an escape. *)
Definition sample_object : list Z := [123; 34; 92; 117; 48; 48; 54; 50; 34; 58; 91; 93; 32; 125].

Lemma json_member_exact_witness :
  exists i n, anti_rt_json_member sample_object [98] = Some (i, n) /\ take n (drop i sample_object) = [91; 93].
Proof.
  destruct (json_member_exact sample_object [98]) as [H _]. apply (H [([98], [91; 93])]).
  exists [], [34; 92; 117; 48; 48; 54; 50; 34; 58; 91; 93; 32], []. split; [constructor|]. split; [constructor|]. split; [reflexivity|].
  right. apply (members_one _ [] [92; 117; 48; 48; 54; 50] [98] [] [] [91; 93] [32]).
  - constructor.
  - apply (body_escape [117; 48; 48; 54; 50] [98] [] []); [|constructor].
    apply (escape_unicode 48 48 54 50); [vm_decide|vm_compute; intuition congruence].
  - constructor.
  - constructor.
  - apply (json_text_array 63 []). left. constructor.
  - vm_decide.
Defined.

