(* ===== verification/Sha256.v ===== *)
(** * Sha256: the digest of files and libraries

    Models src/rt/digest.c, which antic, anti and the runtime share: the state
    of a digest that takes its input in pieces. [compress] folds one block, and the
    property is that the pieces of an input, whatever their sizes, give the digest
    of FIPS 180-4 of the whole: the blocks of the padded message in their order. *)

From S2P Require Import Prelude.

(** ** The function of one block *)

(** The [n] words of 32 bits that a number holds, the highest first. *)
Fixpoint words (n : nat) (z : Z) : list Z :=
  match n with O => [] | S n => u32 (Z.shiftr z (32 * Z.of_nat n)) :: words n z end.

(** The table [rounds], eight words in a row. *)
Definition round_constants : list Z :=
  concat (map (words 8)
    [0x428a2f9871374491b5c0fbcfe9b5dba53956c25b59f111f1923f82a4ab1c5ed5;
     0xd807aa9812835b01243185be550c7dc372be5d7480deb1fe9bdc06a7c19bf174;
     0xe49b69c1efbe47860fc19dc6240ca1cc2de92c6f4a7484aa5cb0a9dc76f988da;
     0x983e5152a831c66db00327c8bf597fc7c6e00bf3d5a7914706ca635114292967;
     0x27b70a852e1b21384d2c6dfc53380d13650a7354766a0abb81c2c92e92722c85;
     0xa2bfe8a1a81a664bc24b8b70c76c51a3d192e819d6990624f40e3585106aa070;
     0x19a4c1161e376c082748774c34b0bcb5391c0cb34ed8aa4a5b9cca4f682e6ff3;
     0x748f82ee78a5636f84c878148cc7020890befffaa4506cebbef9a3f7c67178f2])%list.

Definition initial_hash : list Z := words 8
  0x6a09e667bb67ae853c6ef372a54ff53a510e527f9b05688c1f83d9ab5be0cd19.

Definition rotate (x n : Z) : Z := Z.lor (Z.shiftr x n) (u32 (Z.shiftl x (32 - n))).

(** [~x] of a [uint32_t]. *)
Definition not32 (x : Z) : Z := UINT32_MAX - x.

(** The first sixteen words of the schedule, from the bytes of the block. *)
Fixpoint block_words (n : nat) (block : list Z) : list Z :=
  match n, block with
  | S n, a :: b :: c :: d :: rest =>
      Z.lor (Z.lor (Z.lor (Z.shiftl a 24) (Z.shiftl b 16)) (Z.shiftl c 8)) d :: block_words n rest
  | _, _ => []
  end.

(** One more word; [w] holds those before it. *)
Definition next_word (w : list Z) : Z :=
  let i := length w in
  let at_ k := nth (i - k) w 0 in
  let s0 := Z.lxor (Z.lxor (rotate (at_ 15%nat) 7) (rotate (at_ 15%nat) 18)) (Z.shiftr (at_ 15%nat) 3) in
  let s1 := Z.lxor (Z.lxor (rotate (at_ 2%nat) 17) (rotate (at_ 2%nat) 19)) (Z.shiftr (at_ 2%nat) 10) in
  u32 (at_ 16%nat + s0 + at_ 7%nat + s1).

Fixpoint schedule (n : nat) (w : list Z) : list Z :=
  match n with O => w | S n => schedule n (w ++ [next_word w]) end.

(** One round on the eight words [v]. *)
Definition round (v : list Z) (kw : Z * Z) : list Z :=
  match v with
  | [v0; v1; v2; v3; v4; v5; v6; v7] =>
      let s1 := Z.lxor (Z.lxor (rotate v4 6) (rotate v4 11)) (rotate v4 25) in
      let choose := Z.lxor (Z.land v4 v5) (Z.land (not32 v4) v6) in
      let t1 := u32 (v7 + s1 + choose + kw.1 + kw.2) in
      let s0 := Z.lxor (Z.lxor (rotate v0 2) (rotate v0 13)) (rotate v0 22) in
      let majority := Z.lxor (Z.lxor (Z.land v0 v1) (Z.land v0 v2)) (Z.land v1 v2) in
      let t2 := u32 (s0 + majority) in
      [u32 (t1 + t2); v0; v1; v2; u32 (v3 + t1); v4; v5; v6]
  | _ => v
  end.

Definition compress (hash block : list Z) : list Z :=
  let w := schedule 48 (block_words 16 block) in
  let v := fold_left round (zip round_constants w) hash in
  zip_with (fun h x => u32 (h + x)) hash v.

(** ** The state *)

Record anti_sha256 := Sha256 { s_hash : list Z; s_block : list Z; s_used : nat; s_length : Z }.

(** [block] is the memory of the array, which init leaves as it was. *)
Definition anti_rt_sha256_init (block : list Z) : anti_sha256 := Sha256 initial_hash block 0 0.

(** [memcpy] of [bytes] to [block + at_]. *)
Definition copy_into (block : list Z) (at_ : nat) (bytes : list Z) : list Z :=
  take at_ block ++ bytes ++ drop (at_ + length bytes) block.

(** One round of the loop takes the bytes that fill the block, or all that are
    left; a round takes one byte at least, so the length of the input is enough
    fuel. *)
Fixpoint update_loop (fuel : nat) (from : list Z) (s : anti_sha256) : anti_sha256 :=
  match fuel with
  | O => s
  | S f =>
      match from with
      | [] => s
      | _ =>
          let n := Nat.min (64 - s_used s) (length from) in
          let block := copy_into (s_block s) (s_used s) (take n from) in
          let used := (s_used s + n)%nat in
          let len := u64 (s_length s + Z.of_nat n) in
          let s := if (used =? 64)%nat then Sha256 (compress (s_hash s) block) block 0 len
                   else Sha256 (s_hash s) block used len in
          update_loop f (drop n from) s
      end
  end.

Definition anti_rt_sha256_update (bytes : list Z) (s : anti_sha256) : anti_sha256 :=
  update_loop (length bytes) bytes s.

(** The eight bytes of the length in bits, the highest first. *)
Definition length_bytes (bits : Z) : list Z :=
  map (fun i => u8 (Z.shiftr bits (56 - 8 * Z.of_nat i))) (seq 0 8).

Definition hex_digits : list Z := bytes "0123456789abcdef".

Definition hash_hex (hash : list Z) : list Z :=
  map (fun i => nth (Z.to_nat (Z.land (Z.shiftr (nth (i / 8) hash 0) (28 - 4 * Z.of_nat (i mod 8))) 0xf)) hex_digits 0)
    (seq 0 64).

(** The 64 digits, without the NUL after them. *)
Definition anti_rt_sha256_hex (s : anti_sha256) : list Z :=
  let bits := u64 (s_length s * 8) in
  let block := copy_into (s_block s) (s_used s) [0x80] in
  let used := S (s_used s) in
  let '(hash, block, used) :=
    if (56 <? used)%nat then
      let block := copy_into block used (replicate (64 - used) 0) in
      (compress (s_hash s) block, block, 0%nat)
    else (s_hash s, block, used) in
  let block := copy_into block used (replicate (56 - used) 0) in
  let block := copy_into block 56 (length_bytes bits) in
  hash_hex (compress hash block).

(** [anti_rt_sha256_stream] on the pieces that its reads give; a read that fails
    gives no digest. *)
Definition anti_rt_sha256_stream (block : list Z) (reads : list (list Z)) (error : bool) : option (list Z) :=
  let s := fold_left (fun s piece => anti_rt_sha256_update piece s) reads (anti_rt_sha256_init block) in
  if error then None else Some (anti_rt_sha256_hex s).

(** ** The digest of FIPS 180-4 *)

(** A one bit, the least zeros that end a block, and the length in bits. *)
Definition pad (msg : list Z) : list Z :=
  msg ++ [0x80] ++ replicate (Z.to_nat ((55 - Z.of_nat (length msg)) mod 64)) 0 ++
  length_bytes (u64 (Z.of_nat (length msg) * 8)).

(** The hash of the whole blocks of a message. *)
Fixpoint hash_blocks (fuel : nat) (hash msg : list Z) : list Z :=
  match fuel with
  | O => hash
  | S f => if (64 <=? length msg)%nat then hash_blocks f (compress hash (take 64 msg)) (drop 64 msg) else hash
  end.

Definition sha256 (msg : list Z) : list Z :=
  hash_hex (hash_blocks (length (pad msg)) initial_hash (pad msg)).

Example sha256_abc :
  sha256 (bytes "abc") = bytes "ba7816bf8f01cfea414140de5dae2223b00361a396177a9cb410ff61f20015ad".
Proof. vm_compute. reflexivity. Qed.

Example sha256_two_blocks :
  sha256 (bytes "abcdbcdecdefdefgefghfghighijhijkijkljklmklmnlmnomnopnopq") =
  bytes "248d6a61d20638b8e5c026930c3e6039a33ce45964ff2167f6ecedd419db06c1".
Proof. vm_compute. reflexivity. Qed.

(** ** The hash of whole blocks *)

Definition whole_hash (hash msg : list Z) : list Z := hash_blocks (length msg) hash msg.

Lemma hash_blocks_fuel f g hash msg :
  (length msg <= f)%nat -> (length msg <= g)%nat -> hash_blocks f hash msg = hash_blocks g hash msg.
Proof.
  revert g hash msg. induction f as [|f IH]; intros [|g] hash msg Hf Hg; cbn [hash_blocks]; try done.
  - rewrite (proj2 (Nat.leb_gt _ _)) by lia. done.
  - rewrite (proj2 (Nat.leb_gt _ _)) by lia. done.
  - destruct (Nat.leb_spec 64 (length msg)); [|done]. apply IH; rewrite length_drop; lia.
Qed.

Lemma hash_blocks_S f hash msg :
  hash_blocks (S f) hash msg =
  if (64 <=? length msg)%nat then hash_blocks f (compress hash (take 64 msg)) (drop 64 msg) else hash.
Proof. reflexivity. Qed.

Lemma whole_block hash block msg :
  length block = 64%nat -> whole_hash hash (block ++ msg) = whole_hash (compress hash block) msg.
Proof.
  intros H. unfold whole_hash.
  rewrite (hash_blocks_fuel _ (S (length msg + 63))), hash_blocks_S by (rewrite length_app; lia).
  rewrite (proj2 (Nat.leb_le _ _)) by (rewrite length_app; lia).
  rewrite take_app_length', drop_app_length' by done. apply hash_blocks_fuel; lia.
Qed.

(** [msg] is a whole number of blocks. *)
Inductive whole_blocks : list Z -> Prop :=
| whole_nil : whole_blocks []
| whole_cons block msg : length block = 64%nat -> whole_blocks msg -> whole_blocks (block ++ msg).

Lemma whole_app hash a b : whole_blocks a -> whole_hash hash (a ++ b) = whole_hash (whole_hash hash a) b.
Proof.
  intros H. revert hash. induction H as [|block a Hb _ IH]; intros hash; [done|].
  rewrite <- app_assoc, (whole_block hash block (a ++ b)), (whole_block hash block a) by done. apply IH.
Qed.

Lemma whole_snoc a block : whole_blocks a -> length block = 64%nat -> whole_blocks (a ++ block).
Proof.
  induction 1 as [|b a Hb Ha IH]; intros H; cbn [app].
  - rewrite <- (app_nil_r block). by repeat constructor.
  - rewrite <- app_assoc. constructor; [done|by apply IH].
Qed.

Lemma whole_length a : whole_blocks a -> exists k, length a = (64 * k)%nat.
Proof.
  induction 1 as [|b a Hb Ha [k IH]]; [by exists 0%nat|]. exists (S k). rewrite length_app. lia.
Qed.

(** ** The state after an input *)

(** [whole] is hashed and [tail] waits in the block. *)
Record fed (s : anti_sha256) (msg whole tail : list Z) : Prop := {
  fd_msg : msg = whole ++ tail;
  fd_whole : whole_blocks whole;
  fd_hash : s_hash s = whole_hash initial_hash whole;
  fd_used : s_used s = length tail;
  fd_room : (length tail < 64)%nat;
  fd_block : length (s_block s) = 64%nat;
  fd_tail : take (length tail) (s_block s) = tail;
  fd_length : s_length s = u64 (Z.of_nat (length msg));
}.

Lemma length_copy_into block at_ bs :
  (at_ + length bs <= length block)%nat -> length (copy_into block at_ bs) = length block.
Proof. intros. unfold copy_into. rewrite !length_app, length_take, length_drop. lia. Qed.

Lemma take_copy_into block at_ bs :
  (at_ + length bs <= length block)%nat ->
  take (at_ + length bs) (copy_into block at_ bs) = take at_ block ++ bs.
Proof. intros. unfold copy_into. rewrite app_assoc. apply take_app_length'. rewrite length_app, length_take. lia. Qed.

Lemma update_loop_fed f from s msg whole tail :
  (length from <= f)%nat -> fed s msg whole tail ->
  exists whole' tail', fed (update_loop f from s) (msg ++ from) whole' tail'.
Proof.
  revert from s msg whole tail. induction f as [|f IH]; intros from s msg whole tail Hf Hs.
  { destruct from; [|cbn in Hf; lia]. rewrite app_nil_r. by exists whole, tail. }
  destruct from as [|b from']; [rewrite app_nil_r; by exists whole, tail|].
  cbn [update_loop]. set (from := b :: from') in *. destruct Hs as [H1 H2 H3 H4 H5 H6 H7 H8].
  set (n := Nat.min (64 - s_used s) (length from)).
  assert (1 <= n <= length from /\ s_used s + n <= 64)%nat as [Hn1 Hn2] by (subst n; rewrite H4; cbn [length from]; lia).
  assert (length (take n from) = n) as Hlt by (rewrite length_take; lia).
  set (block := copy_into _ _ _).
  assert (length block = 64%nat) as Hb by (subst block; rewrite length_copy_into; lia).
  assert (take (s_used s + n) block = tail ++ take n from) as Htake.
  { subst block. rewrite <- Hlt at 1. rewrite take_copy_into by lia. by rewrite H4, H7. }
  assert (u64 (s_length s + Z.of_nat n) = u64 (Z.of_nat (length (msg ++ take n from)))) as Hlen.
  { rewrite H8, wrap_add_l, length_app, Hlt. f_equal. lia. }
  assert (msg ++ from = (msg ++ take n from) ++ drop n from) as -> by (by rewrite <- app_assoc, take_drop).
  assert (length (drop n from) <= f)%nat as Hd by (rewrite length_drop; cbn [length from] in *; lia).
  destruct (Nat.eqb_spec (s_used s + n) 64) as [H64|H64].
  - rewrite H64, take_ge in Htake by lia. eapply (IH _ _ _ (whole ++ block) []); [done|]. split; cbn; try done.
    + rewrite app_nil_r, Htake, H1, <- app_assoc. done.
    + by apply whole_snoc.
    + rewrite whole_app by done. rewrite H3. rewrite <- (app_nil_r block) at 2. rewrite whole_block by done. done.
    + lia.
  - eapply (IH _ _ _ whole (tail ++ take n from)); [done|]. split; cbn; try done.
    + by rewrite H1, <- app_assoc.
    + rewrite length_app, Hlt, H4. done.
    + rewrite length_app, Hlt, <- H4. lia.
    + rewrite length_app, Hlt, <- H4. done.
Qed.

(** ** The padding *)

Lemma length_length_bytes bits : length (length_bytes bits) = 8%nat.
Proof. reflexivity. Qed.

(** The last block: what is filled, zeros up to 56, and the length. *)
Lemma last_block h block used pre bits :
  length block = 64%nat -> (used <= 56)%nat -> take used block = pre ->
  compress h (copy_into (copy_into block used (replicate (56 - used) 0)) 56 (length_bytes bits)) =
  whole_hash h (pre ++ replicate (56 - used) 0 ++ length_bytes bits).
Proof.
  intros Hb Hu Hpre. set (b2 := copy_into block used _).
  assert (length b2 = 64%nat) as Hb2 by (subst b2; rewrite length_copy_into; rewrite ?length_replicate; lia).
  assert (take 56 b2 = pre ++ replicate (56 - used) 0) as Ht2.
  { pose proof (take_copy_into block used (replicate (56 - used) 0)) as E. rewrite length_replicate in E.
    replace (used + (56 - used))%nat with 56%nat in E by lia. rewrite <- Hpre. apply E. lia. }
  clearbody b2. set (b3 := copy_into b2 56 _).
  assert (length b3 = 64%nat) as Hb3 by (subst b3; rewrite length_copy_into; rewrite ?length_length_bytes; lia).
  assert (pre ++ replicate (56 - used) 0 ++ length_bytes bits = b3) as ->.
  { rewrite app_assoc, <- Ht2. subst b3. unfold copy_into. rewrite length_length_bytes, drop_ge by lia.
    by rewrite app_nil_r. }
  rewrite <- (app_nil_r b3) at 2. by rewrite whole_block.
Qed.

Lemma hex_fed s msg whole tail : fed s msg whole tail -> anti_rt_sha256_hex s = sha256 msg.
Proof.
  intros [H1 H2 H3 H4 H5 H6 H7 H8]. unfold anti_rt_sha256_hex, sha256.
  assert (u64 (s_length s * 8) = u64 (Z.of_nat (length msg) * 8)) as -> by (by rewrite H8, wrap_mul_l).
  set (bits := u64 _). fold (whole_hash initial_hash (pad msg)). unfold pad. fold bits.
  destruct (whole_length whole H2) as [k Hk].
  assert (length msg = 64 * k + length tail)%nat as Hlen by (rewrite H1, length_app; lia).
  set (z := Z.to_nat _).
  assert (take (S (s_used s)) (copy_into (s_block s) (s_used s) [0x80]) = tail ++ [0x80]) as Ht.
  { rewrite <- Nat.add_1_r. change 1%nat with (length [0x80]). rewrite take_copy_into by (cbn [length]; lia).
    by rewrite H4, H7. }
  assert (length (copy_into (s_block s) (s_used s) [0x80]) = 64%nat) as Hb1
    by (rewrite length_copy_into; cbn [length]; lia).
  set (block1 := copy_into (s_block s) (s_used s) [0x80]) in *. clearbody block1.
  rewrite H1 at 1. rewrite <- app_assoc, whole_app, <- H3 by done.
  destruct (Nat.ltb_spec 56 (S (s_used s))) as [Hu|Hu].
  - f_equal. rewrite (last_block _ _ 0%nat []) by (done || lia || (rewrite length_copy_into; rewrite ?length_replicate; lia)).
    assert (z = (64 - S (s_used s)) + 56)%nat as -> by (subst z; rewrite H4; Z.div_mod_to_equations; lia).
    pose proof (take_copy_into block1 (S (s_used s)) (replicate (64 - S (s_used s)) 0)) as E.
    rewrite length_replicate in E. replace (S (s_used s) + (64 - S (s_used s)))%nat with 64%nat in E by lia.
    rewrite Ht, take_ge in E by (lia || (rewrite length_copy_into; rewrite ?length_replicate; lia)).
    rewrite E by lia. rewrite replicate_add, <- !app_assoc.
    replace (tail ++ [0x80] ++ replicate (64 - S (s_used s)) 0 ++ replicate 56 0 ++ length_bytes bits)
      with ((tail ++ [0x80] ++ replicate (64 - S (s_used s)) 0) ++ (replicate 56 0 ++ length_bytes bits))
      by (by rewrite <- !app_assoc).
    rewrite (whole_block _ (tail ++ _)); [done|]. rewrite !length_app, length_replicate. cbn [length]. lia.
  - f_equal. rewrite (last_block _ _ _ _ _ Hb1 Hu Ht).
    assert (z = 56 - S (s_used s))%nat as -> by (subst z; rewrite H4; Z.div_mod_to_equations; lia).
    by rewrite <- app_assoc.
Qed.

(** ** Properties *)

(** C37. The digest of a stream: the pieces of an input, however its reads cut it and
    whatever the memory of the block held, give the digest of FIPS 180-4 of the
    whole input - the compression of its padded blocks in order - and a read that
    fails gives none. *)
Theorem sha256_of_pieces block reads :
  length block = 64%nat ->
  anti_rt_sha256_stream block reads false = Some (sha256 (concat reads)) /\
  anti_rt_sha256_stream block reads true = None.
Proof.
  intros Hb. split; [|done]. unfold anti_rt_sha256_stream. f_equal.
  assert (forall reads s msg whole tail, fed s msg whole tail -> exists whole' tail',
    fed (fold_left (fun s piece => anti_rt_sha256_update piece s) reads s) (msg ++ concat reads) whole' tail') as Hgo.
  { clear. induction reads as [|piece reads IH]; intros s msg whole tail Hs; cbn [fold_left concat].
    - rewrite app_nil_r. eauto.
    - rewrite app_assoc. destruct (update_loop_fed (length piece) piece s msg whole tail) as (w & t & H); [lia|done|].
      by eapply IH. }
  destruct (Hgo reads (anti_rt_sha256_init block) [] [] []) as (w & t & H); [|by eapply hex_fed].
  split; cbn; try done; lia || constructor.
Qed.

Lemma sha256_of_pieces_witness :
  anti_rt_sha256_stream (replicate 64 7) [bytes "a"; []; bytes "bc"] false =
    Some (bytes "ba7816bf8f01cfea414140de5dae2223b00361a396177a9cb410ff61f20015ad").
Proof.
  destruct (sha256_of_pieces (replicate 64 7) [bytes "a"; []; bytes "bc"] eq_refl) as [H _].
  rewrite H. vm_compute. reflexivity.
Defined.
