(* ===== verification/F16.v ===== *)
(** * F16: the conversions of half floats

    Models src/rt/f16.h, which antic folds constants with and the runtime calls
    where the processor has no instruction. A float is its 32 bits, a half its 16.
    Proved: narrowing rounds to the nearest half, ties to even, and gives every half
    back after widening. *)

From Stdlib Require Import Floats.SpecFloat.
From S2P Require Import Prelude.

(** ** Values of C's [float] *)

(** The bits of a finite value of 24 bits of precision. *)
Definition float_bits (x : spec_float) : Z :=
  match x with
  | S754_finite s m e =>
      Z.lor (if s then 0x80000000 else 0)
        (if Z.pos m <? 2 ^ 23 then Z.pos m else (e + 150) * 2 ^ 23 + (Z.pos m - 2 ^ 23))
  | _ => 0
  end.

(** [(float)n] of a small integer, and the constant 5.9604644775390625e-8f. *)
Definition float_of (n : Z) : spec_float := binary_normalize 24 128 n 0 false.
Definition two_to_minus_24 : spec_float := binary_normalize 24 128 1 (-24) false.

(** ** The conversions *)

Definition anti_rt_f16_widen (h : Z) : Z :=
  let sign := Z.shiftl (Z.land h 0x8000) 16 in
  let exponent := Z.land (Z.shiftr h 10) 0x1F in
  let mantissa := Z.land h 0x3FF in
  if exponent =? 0x1F then
    Z.lor (Z.lor (Z.lor sign 0x7F800000) (Z.shiftl mantissa 13)) (if negb (mantissa =? 0) then 0x400000 else 0)
  else if negb (exponent =? 0) then
    Z.lor (Z.lor sign (Z.shiftl (exponent + 112) 23)) (Z.shiftl mantissa 13)
  else Z.lor (float_bits (SFmul 24 128 (float_of mantissa) two_to_minus_24)) sign.

Definition anti_rt_f16_narrow (bits : Z) : Z :=
  let sign := Z.land (Z.shiftr bits 16) 0x8000 in
  let exponent := Z.land (Z.shiftr bits 23) 0xFF in
  let mantissa := Z.land bits 0x7FFFFF in
  if exponent =? 0xFF then
    u16 (Z.lor (Z.lor sign 0x7C00) (if negb (mantissa =? 0) then Z.lor 0x200 (Z.shiftr mantissa 13) else 0))
  else
    let e := exponent - 112 in
    if e >=? 31 then u16 (Z.lor sign 0x7C00)
    else if (e <=? 0) && (e <? -10) then u16 sign
    else
      let mantissa := if e <=? 0 then Z.lor mantissa 0x800000 else mantissa in
      let shift := if e <=? 0 then 14 - e else 13 in
      let half := Z.lor (if e <=? 0 then 0 else Z.shiftl e 10) (Z.shiftr mantissa shift) in
      let rest := Z.land mantissa (Z.shiftl 1 shift - 1) in
      let middle := Z.shiftl 1 (shift - 1) in
      let half := if (rest >? middle) || ((rest =? middle) && negb (Z.land half 1 =? 0)) then half + 1 else half in
      u16 (Z.lor sign half).

Definition anti_rt_f16_to_f32 (h : Z) : Z := anti_rt_f16_widen (u16 h).
Definition anti_rt_f32_to_f16 (f : Z) : Z := anti_rt_f16_narrow f.

(** ** What the bits mean

    The magnitude of a half in units of 2^-24, with infinity as the value after the
    largest one, and that of a finite float in units of 2^-149. *)

Definition half_mag (h : Z) : Z :=
  if h / 1024 =? 0 then h mod 1024 else (1024 + h mod 1024) * 2 ^ (h / 1024 - 1).

Definition float_mag (f : Z) : Z :=
  if f / 2 ^ 23 =? 0 then f mod 2 ^ 23 else (2 ^ 23 + f mod 2 ^ 23) * 2 ^ (f / 2 ^ 23 - 1).

(** The distance of the half [i] from [x], a magnitude in units of 2^-149. *)
Definition off (i x : Z) : Z := Z.abs (half_mag i * 2 ^ 125 - x).

Definition INFINITY : Z := 0x7C00.

Example narrow_65519 : anti_rt_f16_narrow 0x477FEF00 = 0x7BFF.
Proof. reflexivity. Qed.

Example narrow_65520 : anti_rt_f16_narrow 0x477FF000 = 0x7C00.
Proof. reflexivity. Qed.

(** ** The magnitudes in order *)

Lemma half_mag_next i :
  0 <= i -> half_mag (i + 1) = half_mag i + (if i / 1024 =? 0 then 1 else 2 ^ (i / 1024 - 1)).
Proof.
  intros Hi. unfold half_mag.
  assert (i mod 1024 < 1023 /\ (i + 1) / 1024 = i / 1024 /\ (i + 1) mod 1024 = i mod 1024 + 1 \/
          i mod 1024 = 1023 /\ (i + 1) / 1024 = i / 1024 + 1 /\ (i + 1) mod 1024 = 0) as [(_ & -> & ->)|(-> & -> & ->)]
    by (Z.div_mod_to_equations; lia).
  - destruct (i / 1024 =? 0); lia.
  - assert (0 <= i / 1024) by (apply Z.div_pos; lia). rewrite (proj2 (Z.eqb_neq _ _)) by lia.
    destruct (Z.eqb_spec (i / 1024) 0) as [->|]; [done|].
    replace (i / 1024 + 1 - 1) with (i / 1024 - 1 + 1) by lia. rewrite Z.pow_add_r by lia. lia.
Qed.

Lemma half_mag_lt i j : 0 <= i -> i < j -> half_mag i < half_mag j.
Proof.
  intros Hi Hij. replace j with (i + Z.of_nat (Z.to_nat (j - i))) by lia.
  assert (0 < Z.to_nat (j - i))%nat as Hn by lia. induction (Z.to_nat (j - i)) as [|n IH]; [lia|].
  rewrite Nat2Z.inj_succ, <- Z.add_1_r, Z.add_assoc. pose proof (half_mag_next (i + Z.of_nat n) ltac:(lia)) as ->.
  assert (0 < (if (i + Z.of_nat n) / 1024 =? 0 then 1 else 2 ^ ((i + Z.of_nat n) / 1024 - 1))).
  { assert (0 <= (i + Z.of_nat n) / 1024) by (apply Z.div_pos; lia).
    destruct (Z.eqb_spec ((i + Z.of_nat n) / 1024) 0); [lia|]. apply Z.pow_pos_nonneg; lia. }
  destruct n as [|n]; [change (Z.of_nat 0) with 0 in *; rewrite Z.add_0_r in *; lia|]. specialize (IH ltac:(lia)). lia.
Qed.

Lemma half_mag_le i j : 0 <= i <= j -> half_mag i <= half_mag j.
Proof. intros H. destruct (Z.eq_dec i j) as [->|]; [lia|]. pose proof (half_mag_lt i j). lia. Qed.

(** [x] lies between [i] and the next half; the nearer one, or the even one, is the
    nearest of all. *)
Lemma nearest_of_two i x g r :
  0 <= i -> half_mag (i + 1) * 2 ^ 125 = half_mag i * 2 ^ 125 + g ->
  x = half_mag i * 2 ^ 125 + r -> 0 <= r < g ->
  let n := if (2 * r >? g) || ((2 * r =? g) && Z.odd i) then i + 1 else i in
  forall j, 0 <= j -> off n x <= off j x /\ (off n x = off j x -> j <> n -> Z.even n = true).
Proof.
  intros Hi Hg Hx Hr n j Hj.
  assert (forall a b, 0 <= a <= b -> half_mag a * 2 ^ 125 <= half_mag b * 2 ^ 125) as Hle
    by (intros; apply Z.mul_le_mono_nonneg_r; [lia|by apply half_mag_le]).
  assert (forall a b, 0 <= a < b -> half_mag a * 2 ^ 125 < half_mag b * 2 ^ 125) as Hlt
    by (intros; apply Z.mul_lt_mono_pos_r; [lia|apply half_mag_lt; lia]).
  assert (j < i \/ j = i \/ j = i + 1 \/ i + 1 < j) as Hcase by lia.
  unfold off. subst n x. pose proof (Z.even_succ i) as He. unfold Z.succ in He. rewrite Z.gtb_ltb.
  assert (Z.odd i = true -> Z.even (i + 1) = true) as Hodd by congruence.
  assert (Z.odd i = false -> Z.even i = true) as Heven by (rewrite <- Z.negb_even; destruct (Z.even i); done).
  generalize dependent (2 ^ 125). intros k Hg Hle Hlt.
  destruct (Z.ltb_spec g (2 * r)); cbn [orb]; [|destruct (Z.eqb_spec (2 * r) g); cbn [andb]; [destruct (Z.odd i) eqn:Eo|]].
  all: destruct Hcase as [H1|[->|[->|H1]]]; rewrite ?Hg.
  all: try (pose proof (Hlt j i ltac:(lia))); try (pose proof (Hlt (i + 1) j ltac:(lia))); (split; [lia|intros E N]).
  all: try (exfalso; lia); try (by apply Hodd); by apply Heven.
Qed.

(** ** The fields of a float *)

Lemma land_top x k : 0 <= k -> in_width (k + 1) x -> Z.land x (2 ^ k) = x / 2 ^ k * 2 ^ k.
Proof.
  intros Hk Hx. rewrite <- Z.shiftr_div_pow2 by lia. apply Z.bits_inj'. intros i Hi.
  rewrite Z.land_spec, Z.pow2_bits_eqb by lia.
  destruct (Z.lt_ge_cases i k); [rewrite Z.mul_pow2_bits_low by lia; rewrite (proj2 (Z.eqb_neq _ _)) by lia; apply andb_false_r|].
  rewrite Z.mul_pow2_bits, Z.shiftr_spec by lia. replace (i - k + k) with i by lia.
  destruct (Z.eqb_spec k i) as [<-|]; [apply andb_true_r|]. rewrite andb_false_r. symmetry.
  apply (testbit_small _ (k + 1)); [done|lia].
Qed.

Lemma sign_arith bits : in_width 32 bits -> Z.land (Z.shiftr bits 16) 0x8000 = bits / 2 ^ 31 * 2 ^ 15.
Proof.
  intros [H0 H1]. rewrite (land_top _ 15), shiftr_div, Z.div_div by (lia || (split; rewrite shiftr_div by lia; pow2s; Z.div_mod_to_equations; lia)).
  done.
Qed.

Lemma field_arith bits k n : 0 <= k -> 0 <= n -> Z.land (Z.shiftr bits k) (2 ^ n - 1) = bits / 2 ^ k mod 2 ^ n.
Proof. intros. by rewrite land_mask, shiftr_div by lia. Qed.

(** The end of [narrow]: the index below, what is left, and the carry. *)
Lemma round_arith half rest shift :
  1 <= shift ->
  (if (rest >? Z.shiftl 1 (shift - 1)) || ((rest =? Z.shiftl 1 (shift - 1)) && negb (Z.land half 1 =? 0))
   then half + 1 else half) =
  (if (2 * rest >? 2 ^ shift) || ((2 * rest =? 2 ^ shift) && Z.odd half) then half + 1 else half).
Proof.
  intros Hs. rewrite shiftl_mul, Z.mul_1_l by lia.
  assert (2 ^ shift = 2 * 2 ^ (shift - 1)) as ->.
  { replace shift with (1 + (shift - 1)) at 1 by lia. rewrite Z.pow_add_r by lia. lia. }
  assert (negb (Z.land half 1 =? 0) = Z.odd half) as ->.
  { change 1 with (2 ^ 1 - 1). rewrite land_mask, Zmod_odd by lia. by destruct (Z.odd half). }
  rewrite !Z.gtb_ltb. set (k := 2 ^ (shift - 1)).
  assert ((k <? rest) = (2 * k <? 2 * rest)) as -> by (apply eq_true_iff_eq; rewrite !Z.ltb_lt; lia).
  assert ((rest =? k) = (2 * rest =? 2 * k)) as -> by (apply eq_true_iff_eq; rewrite !Z.eqb_eq; lia).
  done.
Qed.

(** The rounded half of a magnitude [m * 2^p], whose index below is [i]. *)
Lemma narrow_rounds sign i rest shift x p :
  0 <= sign <= 1 -> 0 <= i < INFINITY -> 1 <= shift -> 0 <= rest < 2 ^ shift -> 0 <= p ->
  half_mag (i + 1) * 2 ^ 125 = half_mag i * 2 ^ 125 + 2 ^ shift * 2 ^ p ->
  x = half_mag i * 2 ^ 125 + rest * 2 ^ p ->
  exists n,
    u16 (Z.lor (sign * 2 ^ 15)
      (if (rest >? Z.shiftl 1 (shift - 1)) || ((rest =? Z.shiftl 1 (shift - 1)) && negb (Z.land i 1 =? 0))
       then i + 1 else i)) = sign * 2 ^ 15 + n /\ 0 <= n <= INFINITY /\
    forall j, 0 <= j -> off n x <= off j x /\ (off n x = off j x -> j <> n -> Z.even n = true).
Proof.
  intros Hsign Hi Hs Hr Hp Hg Hx. rewrite round_arith by done.
  assert (0 < 2 ^ p) as Hk by (apply Z.pow_pos_nonneg; lia).
  assert ((2 * rest >? 2 ^ shift) = (2 * (rest * 2 ^ p) >? 2 ^ shift * 2 ^ p)) as ->.
  { rewrite !Z.gtb_ltb. apply eq_true_iff_eq. rewrite !Z.ltb_lt. nia. }
  assert ((2 * rest =? 2 ^ shift) = (2 * (rest * 2 ^ p) =? 2 ^ shift * 2 ^ p)) as ->.
  { apply eq_true_iff_eq. rewrite !Z.eqb_eq. nia. }
  pose proof (nearest_of_two i x _ _ ltac:(lia) Hg Hx ltac:(nia)) as Hnear. cbn zeta in Hnear.
  set (n := if _ || _ then i + 1 else i) in *. exists n.
  assert (0 <= n <= INFINITY) as Hn by (subst n; destruct (_ || _); lia). split; [|done].
  unfold INFINITY in *. rewrite lor_disjoint by (lia || (split; pow2s; lia)). apply wrap_small. split; pow2s; lia.
Qed.

Lemma half_mag_small i : 0 <= i < 1024 -> half_mag i = i.
Proof. intros H. unfold half_mag. rewrite Z.div_small, Z.mod_small by lia. done. Qed.

Lemma half_mag_normal e m : 1 <= e -> 0 <= m < 1024 -> half_mag (e * 1024 + m) = (1024 + m) * 2 ^ (e - 1).
Proof.
  intros He Hm. unfold half_mag.
  assert ((e * 1024 + m) / 1024 = e) as -> by (Z.div_mod_to_equations; lia).
  assert ((e * 1024 + m) mod 1024 = m) as -> by (Z.div_mod_to_equations; lia).
  by rewrite (proj2 (Z.eqb_neq _ _)) by lia.
Qed.

(** [float_mag] by the exponent and the mantissa. *)
Definition field_mag (exponent mantissa : Z) : Z :=
  if exponent =? 0 then mantissa else (2 ^ 23 + mantissa) * 2 ^ (exponent - 1).

(** Below the smallest normal half. *)
Lemma narrow_subnormal sign exponent mantissa :
  0 <= sign <= 1 -> 102 <= exponent <= 112 -> 0 <= mantissa < 2 ^ 23 ->
  let shift := 14 - (exponent - 112) in
  let m := Z.lor mantissa 0x800000 in
  let half := Z.shiftr m shift in
  let rest := Z.land m (Z.shiftl 1 shift - 1) in
  exists n,
    u16 (Z.lor (sign * 2 ^ 15)
      (if (rest >? Z.shiftl 1 (shift - 1)) || ((rest =? Z.shiftl 1 (shift - 1)) && negb (Z.land half 1 =? 0))
       then half + 1 else half)) = sign * 2 ^ 15 + n /\ 0 <= n <= INFINITY /\
    forall j, 0 <= j -> off n (field_mag exponent mantissa) <= off j (field_mag exponent mantissa) /\
      (off n (field_mag exponent mantissa) = off j (field_mag exponent mantissa) -> j <> n -> Z.even n = true).
Proof.
  intros Hs He Hm shift m half rest.
  assert (m = 2 ^ 23 + mantissa) as Em.
  { subst m. rewrite Z.lor_comm. change 0x800000 with (1 * 2 ^ 23). rewrite lor_disjoint; [pow2s; lia|lia|exact Hm]. }
  assert (14 <= shift <= 24) as Hsh by lia.
  assert (half = m / 2 ^ shift) as Eh by (subst half; apply shiftr_div; lia).
  assert (rest = m mod 2 ^ shift) as Er by (subst rest; rewrite shiftl_mul, Z.mul_1_l, land_mask by lia; done).
  assert (2 ^ 14 <= 2 ^ shift) as Hp by (apply Z.pow_le_mono_r; lia).
  pose proof (Z.div_mod m (2 ^ shift) ltac:(lia)) as Hdm. pose proof (Z.mod_pos_bound m (2 ^ shift) ltac:(lia)) as Hb.
  rewrite <- Eh, <- Er in Hdm. rewrite <- Er in Hb.
  assert (0 <= half < 1024) as Hh.
  { rewrite Eh. split; [apply Z.div_pos; lia|]. apply Z.div_lt_upper_bound; [lia|]. pow2s. lia. }
  assert (2 ^ shift * 2 ^ (exponent - 1) = 2 ^ 125) as Hpow by (rewrite <- Z.pow_add_r by lia; f_equal; lia).
  apply (narrow_rounds sign half rest shift _ (exponent - 1)); unfold INFINITY; try lia.
  - rewrite half_mag_next, Z.div_small, Hpow by lia. cbn [Z.eqb]. lia.
  - rewrite half_mag_small by lia. unfold field_mag. rewrite (proj2 (Z.eqb_neq _ _)), <- Em, <- Hpow by lia. nia.
Qed.

(** A normal half. *)
Lemma narrow_normal sign exponent mantissa :
  0 <= sign <= 1 -> 113 <= exponent <= 142 -> 0 <= mantissa < 2 ^ 23 ->
  let half := Z.lor (Z.shiftl (exponent - 112) 10) (Z.shiftr mantissa 13) in
  let rest := Z.land mantissa (Z.shiftl 1 13 - 1) in
  exists n,
    u16 (Z.lor (sign * 2 ^ 15)
      (if (rest >? Z.shiftl 1 (13 - 1)) || ((rest =? Z.shiftl 1 (13 - 1)) && negb (Z.land half 1 =? 0))
       then half + 1 else half)) = sign * 2 ^ 15 + n /\ 0 <= n <= INFINITY /\
    forall j, 0 <= j -> off n (field_mag exponent mantissa) <= off j (field_mag exponent mantissa) /\
      (off n (field_mag exponent mantissa) = off j (field_mag exponent mantissa) -> j <> n -> Z.even n = true).
Proof.
  intros Hs He Hm half rest. set (q := mantissa / 2 ^ 13).
  assert (0 <= q < 1024) as Hq.
  { subst q. split; [apply Z.div_pos; lia|]. apply Z.div_lt_upper_bound; [lia|]. pow2s. lia. }
  assert (half = (exponent - 112) * 1024 + q) as Eh.
  { subst half. rewrite shiftl_mul, shiftr_div by lia. rewrite lor_disjoint; [done|lia|exact Hq]. }
  assert (rest = mantissa mod 2 ^ 13) as Er by (subst rest; rewrite shiftl_mul, Z.mul_1_l, land_mask by lia; done).
  pose proof (Z.div_mod mantissa (2 ^ 13) ltac:(lia)) as Hdm. pose proof (Z.mod_pos_bound mantissa (2 ^ 13) ltac:(lia)) as Hb.
  rewrite <- Er in Hdm, Hb. fold q in Hdm.
  assert (2 ^ (exponent - 112 - 1) * 2 ^ 125 = 2 ^ 13 * 2 ^ (exponent - 1)) as Hpow
    by (rewrite <- !Z.pow_add_r by lia; f_equal; lia).
  apply (narrow_rounds sign half rest 13 _ (exponent - 1)); unfold INFINITY; try lia.
  - rewrite half_mag_next by lia.
    assert (half / 1024 = exponent - 112) as -> by (Z.div_mod_to_equations; lia).
    rewrite (proj2 (Z.eqb_neq _ _)), Z.mul_add_distr_r, Hpow by lia. done.
  - rewrite Eh, half_mag_normal by lia. unfold field_mag. rewrite (proj2 (Z.eqb_neq _ _)) by lia.
    rewrite <- Z.mul_assoc, Hpow. rewrite Hdm at 1. rewrite Z.mul_assoc, <- Z.mul_add_distr_r. f_equal. pow2s. lia.
Qed.

(** The two ends: below half of the smallest half, and from 2^16 on. *)
Lemma narrow_ends exponent mantissa :
  0 <= mantissa < 2 ^ 23 -> 0 <= exponent ->
  (exponent < 102 -> forall j, 0 <= j -> off 0 (field_mag exponent mantissa) <= off j (field_mag exponent mantissa) /\
    (off 0 (field_mag exponent mantissa) = off j (field_mag exponent mantissa) -> j <> 0 -> Z.even 0 = true)) /\
  (field_mag exponent mantissa < 2 ^ 165 <-> exponent < 143).
Proof.
  intros Hm He. unfold field_mag. split.
  - intros H j Hj. split; [|done]. pose proof (half_mag_le 0 j ltac:(lia)) as Hle. change (half_mag 0) with 0 in Hle.
    set (x := if exponent =? 0 then _ else _).
    assert (0 <= 2 * x <= 2 ^ 125) as Hx.
    { subst x. destruct (Z.eqb_spec exponent 0) as [|Hn]; [pow2s; lia|].
      assert (0 < 2 ^ (exponent - 1) <= 2 ^ 100) as Hp
        by (split; [apply Z.pow_pos_nonneg; lia|apply Z.pow_le_mono_r; lia]).
      pose proof (Z.mul_le_mono_nonneg (2 ^ 23 + mantissa) (2 ^ 24) (2 ^ (exponent - 1)) (2 ^ 100) ltac:(lia) ltac:(lia) ltac:(lia) (proj2 Hp)) as Hx.
      change (2 ^ 125) with (2 * (2 ^ 24 * 2 ^ 100)). split; [|lia]. apply Z.mul_nonneg_nonneg; [lia|]. apply Z.mul_nonneg_nonneg; lia. }
    unfold off. change (half_mag 0) with 0. destruct (Z.eq_dec (half_mag j) 0) as [->|]; [lia|].
    assert (1 * 2 ^ 125 <= half_mag j * 2 ^ 125) by (apply Z.mul_le_mono_nonneg_r; lia). lia.
  - destruct (Z.eqb_spec exponent 0) as [->|Hn]; [split; [lia|pow2s; lia]|].
    destruct (Z.lt_ge_cases exponent 143) as [H|H]; [split; [done|intros _]|split; [intros Hlt; exfalso|lia]].
    + assert (2 ^ (exponent - 1) <= 2 ^ 141) as H0 by (apply Z.pow_le_mono_r; lia).
      assert (0 < 2 ^ (exponent - 1)) by (apply Z.pow_pos_nonneg; lia).
      change (2 ^ 165) with (2 ^ 24 * 2 ^ 141). apply Z.lt_le_trans with (2 ^ 24 * 2 ^ (exponent - 1)); [apply Z.mul_lt_mono_pos_r|apply Z.mul_le_mono_nonneg_l]; lia.
    + assert (2 ^ 142 <= 2 ^ (exponent - 1)) as H0 by (apply Z.pow_le_mono_r; lia).
      pose proof (Z.mul_le_mono_nonneg (2 ^ 23) (2 ^ 23 + mantissa) (2 ^ 142) (2 ^ (exponent - 1)) ltac:(lia) ltac:(lia) ltac:(lia) H0) as Hx.
      change (2 ^ 165) with (2 ^ 23 * 2 ^ 142) in Hlt. lia.
Qed.

(** [n] is the magnitude that narrowing gives a float of magnitude [x]. *)
Definition nearest (n x : Z) : Prop :=
  (2 ^ 165 <= x -> n = INFINITY) /\
  (x < 2 ^ 165 -> forall j, 0 <= j -> off n x <= off j x /\ (off n x = off j x -> j <> n -> Z.even n = true)).

Lemma narrow_finite bits :
  in_width 32 bits -> bits / 2 ^ 23 mod 256 <> 255 ->
  exists n, anti_rt_f16_narrow bits = bits / 2 ^ 31 * 2 ^ 15 + n /\ 0 <= n <= INFINITY /\
    nearest n (float_mag (bits mod 2 ^ 31)).
Proof.
  intros Hb Hfin. unfold nearest, anti_rt_f16_narrow. rewrite sign_arith by done.
  change 0xFF with (2 ^ 8 - 1). rewrite field_arith by lia.
  replace (Z.land bits 0x7FFFFF) with (bits mod 2 ^ 23) by (symmetry; apply (land_mask bits 23); lia).
  set (exponent := bits / 2 ^ 23 mod 2 ^ 8) in *. set (mantissa := bits mod 2 ^ 23). set (sign := bits / 2 ^ 31).
  assert (0 <= sign <= 1) as Hsign by (destruct Hb; subst sign; pow2s; Z.div_mod_to_equations; lia).
  assert (0 <= mantissa < 2 ^ 23) as Hm by (apply Z.mod_pos_bound; lia).
  assert (0 <= exponent < 256) as He by (apply Z.mod_pos_bound; lia).
  assert (float_mag (bits mod 2 ^ 31) = field_mag exponent mantissa) as ->.
  { unfold float_mag. change (2 ^ 31) with (2 ^ 23 * 2 ^ 8). rewrite Z.rem_mul_r by lia. fold exponent mantissa.
    rewrite (Z.add_comm mantissa), (Z.mul_comm (2 ^ 23)). rewrite Z.div_add_l, Z.div_small, Z.add_0_r by lia.
    rewrite (Z.add_comm _ mantissa), Z_mod_plus_full, Z.mod_small by lia. done. }
  change (exponent <> 255) in Hfin. clearbody sign exponent mantissa. cbn zeta.
  destruct (narrow_ends exponent mantissa Hm ltac:(lia)) as [Hlow Hhigh].
  change (2 ^ 8 - 1) with 255. rewrite (proj2 (Z.eqb_neq exponent 255)) by done. rewrite Z.geb_leb.
  destruct (Z.leb_spec 31 (exponent - 112)).
  { exists INFINITY. unfold INFINITY. rewrite lor_disjoint by (lia || (split; pow2s; lia)).
    split; [apply wrap_small; split; pow2s; lia|]. split; [lia|]. split; [done|]. intros. exfalso. lia. }
  destruct (Z.leb_spec (exponent - 112) 0); cbn [andb].
  - destruct (Z.ltb_spec (exponent - 112) (-10)).
    + exists 0. rewrite Z.add_0_r. split; [apply wrap_small; split; pow2s; lia|]. unfold INFINITY. split; [lia|].
      split; [intros; exfalso; lia|]. intros _. apply Hlow. lia.
    + destruct (narrow_subnormal sign exponent mantissa) as (n & E & Hn & Hnear); [lia..|].
      rewrite Z.lor_0_l. exists n. split; [exact E|]. split; [done|]. split; [intros; exfalso; lia|]. intros _. exact Hnear.
  - destruct (narrow_normal sign exponent mantissa) as (n & E & Hn & Hnear); [lia..|].
    exists n. split; [exact E|]. split; [done|]. split; [intros; exfalso; lia|]. intros _. exact Hnear.
Qed.

(** ** Widening *)

Fixpoint count_up (n : nat) (z : Z) : list Z :=
  match n with O => [] | S n => z :: count_up n (z + 1) end.

Lemma in_count_up n z x : z <= x < z + Z.of_nat n -> In x (count_up n z).
Proof.
  revert z. induction n as [|n IH]; intros z H; [lia|]. cbn.
  destruct (Z.eq_dec z x); [by left|right]. apply IH. lia.
Qed.

(** A check of [n] numbers from [z] on by computation. *)
Lemma all_up (f : Z -> bool) n z x : forallb f (count_up n z) = true -> z <= x < z + Z.of_nat n -> f x = true.
Proof. intros H Hx. rewrite forallb_forall in H. by apply H, in_count_up. Qed.

(** The subnormal halves, and those of the last exponent. *)
Definition subnormal_ok (m : Z) : bool :=
  let f := float_bits (SFmul 24 128 (float_of m) two_to_minus_24) in
  (0 <=? f) && (f <? 113 * 2 ^ 23) && (float_mag f =? m * 2 ^ 125).

Lemma subnormals : forallb subnormal_ok (count_up 1024 0) = true.
Proof. vm_compute. reflexivity. Qed.

Definition special_ok (h : Z) : bool :=
  let f := anti_rt_f16_widen h in
  (0 <=? f) && (f <? 2 ^ 32) && (f / 2 ^ 31 =? h / 2 ^ 15) &&
  (anti_rt_f16_narrow f =? if h mod 2 ^ 15 =? INFINITY then h else Z.lor h 0x200).

Lemma specials : forallb special_ok (count_up 1024 0x7C00) && forallb special_ok (count_up 1024 0xFC00) = true.
Proof. vm_compute. reflexivity. Qed.

(** The fields of a half. *)
Lemma half_fields h : in_width 16 h ->
  exists s e m, h = s * 2 ^ 15 + (e * 2 ^ 10 + m) /\ 0 <= s <= 1 /\ 0 <= e < 32 /\ 0 <= m < 1024.
Proof.
  intros [H0 H1]. exists (h / 2 ^ 15), (h mod 2 ^ 15 / 2 ^ 10), (h mod 2 ^ 10). pow2s. Z.div_mod_to_equations. lia.
Qed.

Lemma widen_fields s e m :
  0 <= s <= 1 -> 0 <= e < 31 -> 0 <= m < 1024 ->
  let f := anti_rt_f16_widen (s * 2 ^ 15 + (e * 2 ^ 10 + m)) in
  exists a, f = s * 2 ^ 31 + a /\ 0 <= a < 143 * 2 ^ 23 /\ float_mag a = half_mag (e * 1024 + m) * 2 ^ 125.
Proof.
  intros Hs He Hm. unfold anti_rt_f16_widen. set (h := s * 2 ^ 15 + (e * 2 ^ 10 + m)).
  assert (Z.shiftl (Z.land h 0x8000) 16 = s * 2 ^ 31) as ->.
  { change 0x8000 with (2 ^ 15). rewrite (land_top h 15), shiftl_mul by (lia || (subst h; split; pow2s; lia)).
    assert (h / 2 ^ 15 = s) as -> by (subst h; pow2s; Z.div_mod_to_equations; lia). lia. }
  change 0x1F with (2 ^ 5 - 1). rewrite field_arith by lia.
  assert (Z.land h 0x3FF = m) as ->.
  { change 0x3FF with (2 ^ 10 - 1). rewrite land_mask by lia. subst h. pow2s. Z.div_mod_to_equations. lia. }
  assert (h / 2 ^ 10 mod 2 ^ 5 = e) as -> by (subst h; pow2s; Z.div_mod_to_equations; lia).
  rewrite (proj2 (Z.eqb_neq e _)) by (pow2s; lia). destruct (Z.eqb_spec e 0) as [->|Hn]; cbn [negb].
  - pose proof (all_up _ _ _ m subnormals ltac:(lia)) as H. unfold subnormal_ok in H. cbv zeta in H.
    set (a := float_bits _) in *. clearbody a. rewrite !andb_true_iff, Z.leb_le, Z.ltb_lt, Z.eqb_eq in H.
    destruct H as [[H1 H2] H3]. exists a. rewrite Z.lor_comm, lor_disjoint by (lia || (split; pow2s; lia)).
    split; [done|]. split; [pow2s; lia|]. rewrite H3, half_mag_small by lia. lia.
  - rewrite !shiftl_mul by lia. exists ((e + 112) * 2 ^ 23 + m * 2 ^ 13).
    rewrite (lor_disjoint s _ 31) by (lia || (split; pow2s; lia)).
    replace (s * 2 ^ 31 + (e + 112) * 2 ^ 23) with ((s * 2 ^ 8 + (e + 112)) * 2 ^ 23) by (pow2s; lia).
    rewrite lor_disjoint by (lia || (split; pow2s; lia)). split; [pow2s; lia|]. split; [pow2s; lia|].
    rewrite half_mag_normal by lia. unfold float_mag. rewrite Z.div_add_l, (Z.div_small (m * 2 ^ 13)), Z.add_0_r by (pow2s; lia).
    rewrite (Z.add_comm _ (m * 2 ^ 13)), Z_mod_plus_full, Z.mod_small by (pow2s; lia).
    rewrite (proj2 (Z.eqb_neq _ _)) by lia. rewrite <- Z.mul_assoc, <- Z.pow_add_r by lia.
    replace (e - 1 + 125) with (13 + (e + 112 - 1)) by lia. rewrite (Z.pow_add_r 2 13) by lia.
    change (2 ^ 23) with (1024 * 2 ^ 13). lia.
Qed.

(** A half of the exponents below the last one, through both conversions. *)
Lemma widen_narrow s e m :
  0 <= s <= 1 -> 0 <= e < 31 -> 0 <= m < 1024 ->
  let h := s * 2 ^ 15 + (e * 2 ^ 10 + m) in
  in_width 32 (anti_rt_f16_widen h) /\ anti_rt_f16_widen h / 2 ^ 31 = s /\
  float_mag (anti_rt_f16_widen h mod 2 ^ 31) = half_mag (e * 1024 + m) * 2 ^ 125 /\
  anti_rt_f16_narrow (anti_rt_f16_widen h) = h.
Proof.
  intros Hs He Hm h. destruct (widen_fields s e m Hs He Hm) as (a & Ef & Ha & Hmag). fold h in Ef. rewrite Ef.
  set (i := e * 1024 + m) in *. assert (0 <= i < INFINITY) as Hi by (subst i; unfold INFINITY; lia).
  assert (in_width 32 (s * 2 ^ 31 + a)) as Hw by (split; pow2s; lia).
  assert ((s * 2 ^ 31 + a) / 2 ^ 31 = s) as Hsign by (pow2s; Z.div_mod_to_equations; lia).
  assert ((s * 2 ^ 31 + a) mod 2 ^ 31 = a) as Hmod by (pow2s; Z.div_mod_to_equations; lia).
  destruct (narrow_finite (s * 2 ^ 31 + a) Hw) as (n & E & Hn & _ & Hnear).
  { pow2s. Z.div_mod_to_equations. lia. }
  rewrite Hsign, Hmod in *. split; [done|]. split; [done|]. split; [done|]. rewrite E, Hmag in *.
  assert (half_mag i * 2 ^ 125 < 2 ^ 165) as Hx.
  { change (2 ^ 165) with (half_mag INFINITY * 2 ^ 125). apply Z.mul_lt_mono_pos_r; [lia|]. apply half_mag_lt; lia. }
  destruct (Hnear Hx i ltac:(lia)) as [Hle _]. unfold off in Hle.
  assert (half_mag n * 2 ^ 125 = half_mag i * 2 ^ 125) as Heq by lia. apply Z.mul_cancel_r in Heq; [|lia].
  assert (n = i) as ->; [|subst h i; pow2s; lia].
  destruct (Z.lt_trichotomy n i) as [H|[H|H]]; [|done|]; [pose proof (half_mag_lt n i)|pose proof (half_mag_lt i n)]; lia.
Qed.

(** ** Properties *)

(** C36. Narrowing rounds to nearest: for every finite float the half has its sign,
    and among all halves, infinity standing for 65536, its magnitude is the nearest
    to that of the float, the even one when two are as near; from 65536 on it is
    infinity. *)
Theorem narrow_nearest bits :
  in_width 32 bits -> bits / 2 ^ 23 mod 256 <> 255 ->
  exists n, anti_rt_f16_narrow bits = bits / 2 ^ 31 * 2 ^ 15 + n /\ 0 <= n <= INFINITY /\
    let x := float_mag (bits mod 2 ^ 31) in
    (2 ^ 165 <= x -> n = INFINITY) /\
    (x < 2 ^ 165 -> forall j, 0 <= j -> off n x <= off j x /\ (off n x = off j x -> j <> n -> Z.even n = true)).
Proof. intros Hb Hf. exact (narrow_finite bits Hb Hf). Qed.

(** 65519.5 is nearer to 65504, the largest half, than to 65536. *)
Lemma narrow_nearest_witness :
  exists n, anti_rt_f16_narrow 0xC77FEF80 = 2 ^ 15 + n /\ 0 <= n <= INFINITY.
Proof.
  destruct (narrow_nearest 0xC77FEF80 ltac:(vm_decide) ltac:(vm_decide)) as (n & E & H & _).
  exists n. split; [exact E|exact H].
Defined.

(** Every half survives: widening gives a float of the same sign and of exactly
    the same value, and narrowing that float gives the half back; a NaN comes back
    quiet, with its sign and payload. *)
Lemma half_round_trip h :
  in_width 16 h ->
  let f := anti_rt_f16_to_f32 h in
  in_width 32 f /\ f / 2 ^ 31 = h / 2 ^ 15 /\
  (h mod 2 ^ 15 < INFINITY -> float_mag (f mod 2 ^ 31) = half_mag (h mod 2 ^ 15) * 2 ^ 125) /\
  anti_rt_f32_to_f16 f = (if h mod 2 ^ 15 <=? INFINITY then h else Z.lor h 0x200).
Proof.
  intros Hh. cbn zeta. unfold anti_rt_f16_to_f32, anti_rt_f32_to_f16. rewrite wrap_small by done.
  destruct (half_fields h Hh) as (s & e & m & -> & Hs & He & Hm). set (h := s * 2 ^ 15 + (e * 2 ^ 10 + m)) in *.
  assert (h / 2 ^ 15 = s) as Hsign by (subst h; pow2s; Z.div_mod_to_equations; lia).
  assert (h mod 2 ^ 15 = e * 1024 + m) as Hmod by (subst h; pow2s; Z.div_mod_to_equations; lia).
  rewrite Hsign, Hmod. unfold INFINITY. destruct (Z.eq_dec e 31) as [->|Hn].
  - assert (special_ok h = true) as H.
    { pose proof specials as H. apply andb_true_iff in H as [H1 H2]. assert (s = 0 \/ s = 1) as [-> | ->] by lia.
      - apply (all_up _ _ _ _ H1). subst h. pow2s. lia.
      - apply (all_up _ _ _ _ H2). subst h. pow2s. lia. }
    unfold special_ok in H. cbv zeta in H. rewrite !andb_true_iff, Z.leb_le, Z.ltb_lt, !Z.eqb_eq, Hsign, Hmod in H.
    destruct H as [[[H1 H2] H3] H4]. split; [done|]. split; [done|]. split; [lia|]. rewrite H4. unfold INFINITY.
    destruct (Z.eqb_spec (31 * 1024 + m) 0x7C00), (Z.leb_spec (31 * 1024 + m) 0x7C00); (done || lia).
  - destruct (widen_narrow s e m Hs ltac:(lia) Hm) as (H1 & H2 & H3 & H4). fold h in H1, H2, H3, H4.
    rewrite (proj2 (Z.leb_le _ _)) by lia. done.
Qed.

