(* ===== verification/WordLock.v ===== *)
(** * WordLock: the lock of one word

    Models [anti_rt_word_lock] and [anti_rt_word_unlock] of
    src/rt/platform_posix.c for Linux, the mutex under every lock of the runtime.
    A thread is at a [pc] between two accesses of the word, [own_step] is its next
    access, and [step] interleaves the threads. The kernel's part is the documented
    futex(2): a wait compares and sleeps in one action, a wake ends one sleep, and
    a signal may end one too. Proved: exclusion, as a simulation of a lock with one
    owner, no lost wake, and that every run of finitely many calls ends with each
    of them done. Accesses of the word are in one order, as its atomic operations
    are on one object. *)

From S2P Require Import Prelude.

(** ** The words and the threads *)

Inductive pc :=
| Idle
| Lock_swap        (** before the compare-and-swap *)
| Lock_exchange    (** before an exchange, the first one or that of the loop *)
| Lock_wait        (** before the call of FUTEX_WAIT *)
| Lock_sleep       (** asleep in it *)
| Held
| Unlock_exchange
| Unlock_wake.     (** before the call of FUTEX_WAKE *)

#[export] Instance pc_eq_dec : EqDecision pc.
Proof. solve_decision. Defined.

(** The test of the loop, on the word an access found. *)
Definition while_taken (c : Z) : pc := if c =? 0 then Held else Lock_wait.

(** The access of the word that a thread at [p] makes next: the word after it and
    where the thread goes. *)
Definition own_step (w : Z) (p : pc) : option (Z * pc) :=
  match p with
  | Lock_swap =>
      if w =? 0 then Some (1, Held)
      else Some (w, if negb (w =? 2) then Lock_exchange else while_taken w)
  | Lock_exchange => Some (2, while_taken w)
  | Lock_wait => Some (w, if w =? 2 then Lock_sleep else Lock_exchange)
  | Unlock_exchange => Some (0, if w =? 2 then Unlock_wake else Idle)
  | _ => None
  end.

(** A thread has [calls] more pairs of lock and unlock to make. *)
Record thread := Thread { t_pc : pc; t_calls : nat }.

(** [signals] bounds how many sleeps end without a wake. *)
Record state := State { word : Z; threads : list thread; signals : nat }.

Definition set_thread (i : nat) (t : thread) (s : state) : state :=
  State (word s) (<[i := t]> (threads s)) (signals s).

Inductive step : state -> state -> Prop :=
| step_call s i n :
    threads s !! i = Some (Thread Idle (S n)) -> step s (set_thread i (Thread Lock_swap n) s)
| step_leave s i n :
    threads s !! i = Some (Thread Held n) -> step s (set_thread i (Thread Unlock_exchange n) s)
| step_own s i p n w p' :
    threads s !! i = Some (Thread p n) -> own_step (word s) p = Some (w, p') ->
    step s (State w (<[i := Thread p' n]> (threads s)) (signals s))
| step_wake s i n j m :
    threads s !! i = Some (Thread Unlock_wake n) -> threads s !! j = Some (Thread Lock_sleep m) ->
    step s (set_thread j (Thread Lock_exchange m) (set_thread i (Thread Idle n) s))
| step_wake_none s i n :
    threads s !! i = Some (Thread Unlock_wake n) ->
    (forall j m, threads s !! j <> Some (Thread Lock_sleep m)) ->
    step s (set_thread i (Thread Idle n) s)
| step_signal s j m k :
    threads s !! j = Some (Thread Lock_sleep m) -> signals s = S k ->
    step s (State (word s) (<[j := Thread Lock_exchange m]> (threads s)) k).

(** A free lock, and threads with [calls] to make. *)
Definition start (calls : list nat) (signals : nat) : state :=
  State 0 (map (Thread Idle) calls) signals.

Definition reachable (s : state) : Prop := exists calls signals, rtc step (start calls signals) s.

(** ** Sums over the threads *)

Definition total (f : thread -> nat) (ts : list thread) : nat := sum_list_with f ts.
#[global] Arguments total : simpl never.

Lemma total_insert f ts i t t' :
  ts !! i = Some t -> (total f (<[i := t']> ts) + f t = total f ts + f t')%nat.
Proof.
  unfold total. revert i. induction ts as [|u ts IH]; intros [|i] H; simplify_eq/=; [lia|].
  specialize (IH _ H). lia.
Qed.

Lemma total_zero f ts : total f ts = 0%nat <-> forall i t, ts !! i = Some t -> f t = 0%nat.
Proof.
  unfold total. induction ts as [|u ts IH]; cbn; [done|]. rewrite Nat.eq_add_0, IH. split.
  - intros [H1 H2] [|i] t Ht; simplify_eq/=; eauto.
  - intros H. split; [by apply (H 0%nat)|]. intros i t Ht. by apply (H (S i)).
Qed.

Lemma total_elem f ts i t : ts !! i = Some t -> (f t <= total f ts)%nat.
Proof.
  unfold total. revert i. induction ts as [|u ts IH]; intros [|i] H; simplify_eq/=; [lia|].
  specialize (IH _ H). lia.
Qed.

Lemma total_two f ts i j t u :
  i <> j -> ts !! i = Some t -> ts !! j = Some u -> (f t + f u <= total f ts)%nat.
Proof.
  unfold total. revert i j. induction ts as [|v ts IH]; intros [|i] [|j] Hn Hi Hj; simplify_eq/=.
  - pose proof (total_elem f ts j u Hj). unfold total in *. lia.
  - pose proof (total_elem f ts i t Hi). unfold total in *. lia.
  - assert (i <> j) as Hij by congruence. specialize (IH i j Hij Hi Hj). lia.
Qed.

(** ** The invariant *)

(** The thread has the lock. *)
Definition owns (p : pc) : nat := match p with Held | Unlock_exchange => 1 | _ => 0 end.

Definition taken (w : Z) : nat := if w =? 0 then 0 else 1.

(** The thread makes another one look at the word again, or looks itself. *)
Definition rouses (p : pc) : Prop := p = Unlock_wake \/ p = Lock_exchange.

Definition owners (s : state) : nat := total (fun t => owns (t_pc t)) (threads s).

(** No sleep is forgotten: the word says that a thread waits, or a thread rouses. *)
Definition watched (w : Z) (ts : list thread) : Prop :=
  forall i n, ts !! i = Some (Thread Lock_sleep n) ->
  w = 2 \/ exists j t, ts !! j = Some t /\ rouses (t_pc t).

Record inv (s : state) : Prop := {
  in_word : word s = 0 \/ word s = 1 \/ word s = 2;
  in_owner : owners s = taken (word s);
  in_sleep : watched (word s) (threads s);
}.

Lemma word_inv_start calls signals : inv (start calls signals).
Proof.
  split; cbn; [by left| |].
  - unfold owners. cbn. by induction calls.
  - intros i n H. apply list_lookup_fmap_Some in H as (c & ? & ?). simplify_eq.
Qed.

(** Each step changes the threads at one index, or at two for a wake. *)
Lemma owners_insert w ts k i t t' :
  ts !! i = Some t ->
  (owners (State w (<[i := t']> ts) k) + owns (t_pc t) = total (fun t => owns (t_pc t)) ts + owns (t_pc t'))%nat.
Proof. apply (total_insert (fun t => owns (t_pc t))). Qed.

(** The access of the word keeps the count of owners right. *)
Lemma own_step_owner w p w' p' :
  w = 0 \/ w = 1 \/ w = 2 -> own_step w p = Some (w', p') ->
  (w' = 0 \/ w' = 1 \/ w' = 2) /\
  ((taken w' + owns p = taken w + owns p')%nat \/ owns p = 1%nat /\ w = 0).
Proof.
  intros [-> | [-> | ->]] H; destruct p; cbn in H; simplify_eq/=; split; cbn; lia.
Qed.

Lemma inv_owner s i t : inv s -> threads s !! i = Some t -> owns (t_pc t) = 1%nat -> word s <> 0.
Proof.
  intros [H1 H2 _] Hi Ho E. rewrite E in H2. cbn in H2.
  pose proof (total_elem (fun t => owns (t_pc t)) _ _ _ Hi). unfold owners in H2. cbn in *. lia.
Qed.


Lemma watched_insert w w' ts i t t' :
  watched w ts -> ts !! i = Some t ->
  (rouses (t_pc t) -> rouses (t_pc t') \/ w' = 2) -> (w = 2 -> w' = 2 \/ rouses (t_pc t')) ->
  (t_pc t' = Lock_sleep -> w' = 2) -> watched w' (<[i := t']> ts).
Proof.
  intros Hw Hi Ht H2 Hs k n Hk. destruct (Z.eq_dec w' 2) as [|Hn]; [by left|right].
  assert (<[i := t']> ts !! i = Some t') as Hi' by (apply list_lookup_insert_eq; by eapply lookup_lt_Some).
  destruct (decide (i = k)) as [->|Hik]; [rewrite Hi' in Hk; simplify_eq/=; tauto|].
  rewrite list_lookup_insert_ne in Hk by done.
  destruct (Hw k n Hk) as [->|(j & u & Hj & Hu)]; [exists i, t'; split; [done|]; tauto|].
  destruct (decide (i = j)) as [<-|Hij]; [exists i, t'; simplify_eq; split; [done|]; tauto|].
  exists j, u. by rewrite list_lookup_insert_ne.
Qed.

(** The access of the word keeps a sleeping thread watched. *)
Lemma own_step_watched w p w' p' :
  w = 0 \/ w = 1 \/ w = 2 -> own_step w p = Some (w', p') ->
  (rouses p -> rouses p' \/ w' = 2) /\ (w = 2 -> w' = 2 \/ rouses p') /\ (p' = Lock_sleep -> w' = 2).
Proof.
  unfold rouses. intros [-> | [-> | ->]] H; destruct p; cbn in H; simplify_eq/=; intuition (congruence || lia).
Qed.

(** A step of one thread. *)
Lemma inv_move s i t w' t' k :
  inv s -> threads s !! i = Some t -> (w' = 0 \/ w' = 1 \/ w' = 2) ->
  (taken w' + owns (t_pc t) = taken (word s) + owns (t_pc t'))%nat ->
  (rouses (t_pc t) -> rouses (t_pc t') \/ w' = 2) -> (word s = 2 -> w' = 2 \/ rouses (t_pc t')) ->
  (t_pc t' = Lock_sleep -> w' = 2) -> inv (State w' (<[i := t']> (threads s)) k).
Proof.
  intros [H1 H2 H3] Hi Hw Ho Ha Hb Hc. unfold owners in H2. split; [done| |by eapply watched_insert].
  pose proof (owners_insert w' (threads s) k i t t' Hi). cbn [word]. lia.
Qed.

Lemma inv_step s s' : inv s -> step s s' -> inv s'.
Proof.
  intros Hs Hstep. pose proof Hs as [H1 _ _]. destruct Hstep as
    [s i n Hi|s i n Hi|s i p n w p' Hi Hp|s i n j m Hi Hj|s i n Hi Hno|s j m k Hj Hk].
  - eapply inv_move; [done..| | | |]; unfold rouses; cbn; intuition (congruence || lia).
  - eapply inv_move; [done..| | | |]; unfold rouses; cbn; intuition (congruence || lia).
  - destruct (own_step_owner _ _ _ _ H1 Hp) as [Hw [Ho|[Ho E]]].
    + destruct (own_step_watched _ _ _ _ H1 Hp) as (Ha & Hb & Hc). by eapply inv_move.
    + by destruct (inv_owner s i _ Hs Hi Ho).
  - assert (i <> j) as Hij by (intros ->; congruence).
    assert (inv (set_thread j (Thread Lock_exchange m) s)) as Hs'
      by (eapply inv_move; [done..| | | |]; unfold rouses; cbn; intuition (congruence || lia)).
    unfold set_thread in *. cbn. rewrite list_insert_insert_ne by done.
    destruct Hs' as [_ O W]. split; cbn in *; [done| |].
    + unfold owners in *. cbn in *.
      pose proof (owners_insert (word s) (<[j:=Thread Lock_exchange m]> (threads s)) (signals s) i (Thread Unlock_wake n) (Thread Idle n)) as E.
      rewrite list_lookup_insert_ne in E by done. specialize (E Hi). unfold owners in E. cbn in E. lia.
    + intros k c _. right. exists j, (Thread Lock_exchange m).
      rewrite list_lookup_insert_ne by done.
      split; [apply list_lookup_insert_eq; by eapply lookup_lt_Some|by right].
  - destruct Hs as [_ O W]. split; [done| |].
    + pose proof (owners_insert (word s) (threads s) (signals s) i _ (Thread Idle n) Hi) as E. unfold owners in *.
      cbn [set_thread word threads signals t_pc owns] in *. lia.
    + intros k c H. cbn in H. destruct (decide (i = k)) as [->|Hn].
      * rewrite list_lookup_insert_eq in H by (by eapply lookup_lt_Some). congruence.
      * rewrite list_lookup_insert_ne in H by done. by destruct (Hno k c).
  - eapply inv_move; [done..| | | |]; unfold rouses; cbn; intuition (congruence || lia).
Qed.

Lemma inv_reachable s : reachable s -> inv s.
Proof.
  intros (calls & signals & H). pose proof (word_inv_start calls signals) as Hi.
  induction H as [|s t u Hst _ IH]; [done|]. apply IH. by eapply inv_step.
Qed.

(** ** The measure of a run

    In order: the releases left, the wakes and signals left, how far the word is
    from 2, which only a release undoes, and the way of each thread to its sleep or
    its lock. *)

Definition releases_of (t : thread) : nat :=
  t_calls t + match t_pc t with Idle | Unlock_wake => 0 | _ => 1 end.

Definition wakes_of (t : thread) : nat := match t_pc t with Unlock_wake => 1 | _ => 0 end.

Definition word_rank (w : Z) : nat := if w =? 2 then 0 else if w =? 1 then 1 else 2.

Definition pc_rank (w : Z) (p : pc) : nat :=
  match p with
  | Idle | Unlock_wake => 0
  | Lock_swap => 4
  | Lock_exchange => if w =? 2 then 3 else 2
  | Lock_wait => if w =? 2 then 2 else 3
  | Lock_sleep | Unlock_exchange => 1
  | Held => 2
  end.

Definition way_of (w : Z) (t : thread) : nat := 5 * t_calls t + pc_rank w (t_pc t).

Definition releases (s : state) : nat := total releases_of (threads s).
Definition rouse_count (s : state) : nat := total wakes_of (threads s) + signals s.
Definition way (s : state) : nat := total (way_of (word s)) (threads s).

(** [s'] is before [s] in the order of the four. *)
Definition less (s' s : state) : Prop :=
  (releases s' < releases s \/
   releases s' = releases s /\ (rouse_count s' < rouse_count s \/
   rouse_count s' = rouse_count s /\ (word_rank (word s') < word_rank (word s) \/
   word_rank (word s') = word_rank (word s) /\ way s' < way s)))%nat.

Lemma less_wf s : Acc less s.
Proof.
  enough (forall a b c d s, (releases s < a \/ releases s = a /\ (rouse_count s < b \/ rouse_count s = b /\
    (word_rank (word s) < c \/ word_rank (word s) = c /\ way s < d)))%nat -> Acc less s) as H
    by (apply (H (S (releases s)) 0 0 0)%nat; lia).
  clear s. intros a. induction (lt_wf a) as [a _ IHa]. intros b. induction (lt_wf b) as [b _ IHb].
  intros c. induction (lt_wf c) as [c _ IHc]. intros d. induction (lt_wf d) as [d _ IHd].
  intros s H. constructor. intros s' Hless. unfold less in Hless.
  assert (releases s < a \/ releases s = a)%nat as [Ha|Ha] by lia.
  { apply (IHa (releases s) ltac:(lia) (rouse_count s) (word_rank (word s)) (way s)). lia. }
  assert (rouse_count s < b \/ rouse_count s = b)%nat as [Hb|Hb] by lia.
  { subst a. apply (IHb (rouse_count s) ltac:(lia) (word_rank (word s)) (way s)). lia. }
  assert (word_rank (word s) < c \/ word_rank (word s) = c)%nat as [Hc|Hc] by lia.
  { subst a b. apply (IHc (word_rank (word s)) ltac:(lia) (way s)). lia. }
  subst a b c. apply (IHd (way s) ltac:(lia)). lia.
Qed.

(** A step of one thread that leaves the word and the other counts. *)
Lemma less_move s i t w' t' k :
  threads s !! i = Some t ->
  (let r := releases_of t in let r' := releases_of t' in
   let v := wakes_of t + signals s in let v' := wakes_of t' + k in
   r' < r \/ r' = r /\ (v' < v \/ v' = v /\ (word_rank w' < word_rank (word s) \/
   w' = word s /\ way_of w' t' < way_of w' t)))%nat ->
  less (State w' (<[i := t']> (threads s)) k) s.
Proof.
  intros Hi H. cbn zeta in H. unfold less, releases, rouse_count, way. cbn [threads word signals].
  pose proof (total_insert releases_of _ _ _ t' Hi). pose proof (total_insert wakes_of _ _ _ t' Hi).
  pose proof (total_insert (way_of w') _ _ _ t' Hi).
  destruct H as [H|(H & [H'|(H' & [Hw|[-> Hw]])])]; lia.
Qed.

Lemma step_less s s' : inv s -> step s s' -> less s' s.
Proof.
  intros [H1 _ _] Hstep. destruct Hstep as
    [s i n Hi|s i n Hi|s i p n w p' Hi Hp|s i n j m Hi Hj|s i n Hi Hno|s j m k Hj Hk].
  - apply (less_move s i _ (word s) _ (signals s) Hi). unfold way_of, releases_of; cbn. right; split; [lia|]. right. lia.
  - apply (less_move s i _ (word s) _ (signals s) Hi). unfold way_of, releases_of; cbn. right; split; [lia|]. right. lia.
  - apply (less_move s i _ w _ (signals s) Hi). unfold way_of, releases_of.
    destruct H1 as [E|[E|E]]; rewrite E in *; destruct p; cbn in Hp; simplify_eq/=; cbn; lia.
  - assert (i <> j) as Hij by (intros ->; congruence).
    assert (<[i := Thread Idle n]> (threads s) !! j = Some (Thread Lock_sleep m)) as Hj' by (by rewrite list_lookup_insert_ne).
    unfold less, releases, rouse_count. cbn [set_thread threads word signals].
    pose proof (total_insert releases_of _ _ _ (Thread Idle n) Hi). pose proof (total_insert wakes_of _ _ _ (Thread Idle n) Hi).
    pose proof (total_insert releases_of _ _ _ (Thread Lock_exchange m) Hj').
    pose proof (total_insert wakes_of _ _ _ (Thread Lock_exchange m) Hj').
    unfold releases_of, wakes_of in *. cbn in *. lia.
  - apply (less_move s i _ (word s) _ (signals s) Hi). unfold releases_of; cbn. lia.
  - apply (less_move s j _ (word s) _ k Hj). unfold releases_of; cbn. lia.
Qed.

(** ** Runs that stop *)

(** Of the threads of [s] that cannot move each one sleeps or has finished. *)
Lemma stopped s i t :
  nf step s -> inv s -> threads s !! i = Some t -> t_pc t = Lock_sleep \/ t = Thread Idle 0.
Proof.
  intros Hnf [H1 _ _] Hi. destruct t as [p n]. destruct (own_step (word s) p) as [[w p']|] eqn:E.
  { exfalso. apply Hnf. eexists. by eapply step_own. }
  destruct p; cbn in E; try (by left); try (by repeat case_match).
  - destruct n as [|n]; [by right|]. exfalso. apply Hnf. eexists. by eapply step_call.
  - exfalso. apply Hnf. eexists. by eapply step_leave.
  - exfalso. destruct (decide (Exists (fun t => t_pc t = Lock_sleep) (threads s))) as [He|Hn].
    + apply Exists_exists in He as ([p m] & Hin & Hp). apply list_elem_of_lookup in Hin as [j Hj]. cbn in Hp. subst p.
      apply Hnf. eexists. by eapply step_wake.
    + apply Hnf. eexists. eapply step_wake_none; [done|]. intros j m Hj. apply Hn.
      apply Exists_exists. exists (Thread Lock_sleep m). split; [by eapply list_elem_of_lookup_2|done].
Qed.

(** ** Properties *)

(** C28. Exclusion: in every state that any interleaving of any calls reaches, at
    most one thread is between its lock and its unlock, the word is 0 exactly when
    none is, and a thread asleep in the kernel is never forgotten: the word is 2, so
    the next unlock wakes one, or a thread that was woken or makes the wake is still
    to look at the word. *)
Theorem word_lock_exclusive s :
  reachable s ->
  (forall i j t u, threads s !! i = Some t -> threads s !! j = Some u ->
     owns (t_pc t) = 1%nat -> owns (t_pc u) = 1%nat -> i = j) /\
  (word s = 0 <-> forall i t, threads s !! i = Some t -> owns (t_pc t) = 0%nat) /\
  watched (word s) (threads s).
Proof.
  intros Hr. destruct (inv_reachable s Hr) as [H1 H2 H3]. unfold owners, taken in H2. split; [|split; [|done]].
  - intros i j t u Hi Hj Ht Hu. destruct (decide (i = j)) as [|Hn]; [done|exfalso].
    pose proof (total_two (fun t => owns (t_pc t)) _ _ _ _ _ Hn Hi Hj) as H. cbn in H.
    rewrite Ht, Hu, H2 in H. case_match; lia.
  - rewrite <- (total_zero (fun t => owns (t_pc t))), H2. destruct (Z.eqb_spec (word s) 0); split; congruence || lia.
Qed.

(** Two threads: the second finds the lock held, sleeps, and is woken. *)
Definition contended : state := State 2 [Thread Held 0; Thread Lock_sleep 0] 0.

Lemma contended_reachable : reachable contended.
Proof.
  exists [1; 1]%nat, 0%nat.
  eapply rtc_l; [by apply (step_call _ 0 0)|]. eapply rtc_l; [by apply (step_own _ 0 Lock_swap 0 1 Held)|].
  eapply rtc_l; [by apply (step_call _ 1 0)|]. eapply rtc_l; [by apply (step_own _ 1 Lock_swap 0 1 Lock_exchange)|].
  eapply rtc_l; [by apply (step_own _ 1 Lock_exchange 0 2 Lock_wait)|].
  eapply rtc_l; [by apply (step_own _ 1 Lock_wait 0 2 Lock_sleep)|]. apply rtc_refl.
Qed.

Lemma word_lock_exclusive_witness :
  reachable contended /\ (word contended = 0 <->
    forall i t, threads contended !! i = Some t -> owns (t_pc t) = 0%nat).
Proof.
  split; [apply contended_reachable|].
  destruct (word_lock_exclusive contended contended_reachable) as (_ & H & _). exact H.
Defined.

(** C29. Liveness: from every reachable state every run ends, whatever thread moves
    next, as long as signals end finitely many sleeps; and a run that ends has made
    every call of every thread: none waits for the lock or sleeps, and the word is
    free. So each call of lock gets the lock once those before it give it back. *)
Theorem word_lock_live s :
  reachable s ->
  sn step s /\
  forall s', rtc step s s' -> nf step s' ->
  word s' = 0 /\ forall i t, threads s' !! i = Some t -> t = Thread Idle 0.
Proof.
  intros Hr. apply inv_reachable in Hr as Hi. split.
  { clear Hr. revert Hi. induction (less_wf s) as [s _ IH]. intros Hi. constructor. intros s' Hstep.
    apply IH; [by apply step_less|by eapply inv_step]. }
  clear Hr. intros s' Hrun. induction Hrun as [s|s t u Hst _ IH]; [|intros Hu; apply IH; [by eapply inv_step|done]].
  intros Hnf. pose proof (fun i t => stopped s i t Hnf Hi) as Hst. destruct Hi as [H1 H2 H3].
  unfold owners in H2. rewrite (proj2 (total_zero _ _)) in H2.
  2: { intros i t Ht. by destruct (Hst i t Ht) as [E | ->]; [rewrite E|]. }
  assert (word s = 0) as Hw by (unfold taken in H2; destruct (Z.eqb_spec (word s) 0); [done|lia]).
  split; [done|]. intros i [p n] Ht. destruct (Hst _ _ Ht) as [E|]; [|done]. cbn in E. subst p.
  destruct (H3 i n Ht) as [|(j & u & Hj & Hu)]; [lia|].
  destruct (Hst j u Hj) as [E | ->]; destruct Hu as [Hu|Hu]; rewrite ?E in Hu; discriminate Hu.
Qed.

(** The first one unlocks, wakes the second, which locks and unlocks. *)
Lemma contended_ends :
  rtc step contended (State 0 [Thread Idle 0; Thread Idle 0] 0) /\
  nf step (State 0 [Thread Idle 0; Thread Idle 0] 0).
Proof.
  split.
  - eapply rtc_l; [by apply (step_leave _ 0 0)|]. eapply rtc_l; [by apply (step_own _ 0 Unlock_exchange 0 0 Unlock_wake)|].
    eapply rtc_l; [by apply (step_wake _ 0 0 1 0)|]. eapply rtc_l; [by apply (step_own _ 1 Lock_exchange 0 2 Held)|].
    eapply rtc_l; [by apply (step_leave _ 1 0)|]. eapply rtc_l; [by apply (step_own _ 1 Unlock_exchange 0 0 Unlock_wake)|].
    eapply rtc_l; [apply (step_wake_none _ 1 0); [done|intros [|[|j]] m H; discriminate H]|]. apply rtc_refl.
  - intros [s' H]. inversion H; subst; cbn in *;
      repeat match goal with E : _ !! ?i = Some _ |- _ => destruct i as [|[|i]]; simplify_eq/= end.
Qed.

Lemma word_lock_live_witness :
  sn step contended /\ word (State 0 [Thread Idle 0; Thread Idle 0] 0) = 0.
Proof.
  destruct (word_lock_live contended contended_reachable) as [H1 H2]. split; [exact H1|].
  destruct contended_ends as [H3 H4]. destruct (H2 _ H3 H4) as [H _]. exact H.
Defined.
