(* ===== verification/ObjectLock.v ===== *)
(** * ObjectLock: the hidden lock of a synchronized object

    Models [object_enter], [object_hold], [object_leave] and the functions over them
    of src/rt/lock.c. A thread that holds the lock of an object takes it again and
    counts how deep it is; [sync a, b] takes two of them in the order of their
    addresses. The word under a lock is taken and released in one step, which
    WordLock.v shows of the code; every other access of another thread's view, the
    store of the owner and the depth, is a step of its own. Proved, for any threads
    that run blocks of [sync]: exclusion with the owner and the depth exact, and that
    every run ends with each block done and each lock free. *)

From stdpp Require Import functions.
From S2P Require Import Prelude.

(** ** The locks and the calls *)

Record object_lock := ObjectLock { word : Z; owner : Z; depth : Z }.

Definition free_lock : object_lock := ObjectLock 0 0 0.

(** Whether the thread [me] holds the lock already, and the lock after it. *)
Definition object_enter (o : object_lock) (me : Z) : bool * object_lock :=
  if owner o =? me then (true, ObjectLock (word o) (owner o) (depth o + 1)) else (false, o).

(** A call of [anti_rt_object_lock] or [anti_rt_object_unlock] on an address. *)
Inductive call := Lock (l : Z) | Unlock (l : Z).

Definition anti_rt_object_lock_pair (a b : Z) : list call :=
  let first := if a <=? b then a else b in
  let second := if first =? a then b else a in
  Lock first :: (if negb (second =? first) then [Lock second] else []).

Definition anti_rt_object_unlock_pair (a b : Z) : list call :=
  (if negb (a =? b) then [Unlock b] else []) ++ [Unlock a].

(** ** The steps of a thread *)

Inductive phase :=
| Ready              (** between two calls *)
| Enter (l : Z)      (** before the load of the owner *)
| Wait (l : Z)       (** in the lock of the word *)
| Own (l : Z)        (** before the store of the owner *)
| Deepen (l : Z)     (** before [depth = 1] *)
| Leave (l : Z)      (** before [--depth] *)
| Disown (l : Z)     (** before the store of 0 to the owner *)
| Release (l : Z).   (** before the unlock of the word *)

Definition at_lock (p : phase) : option Z :=
  match p with
  | Ready => None
  | Enter l | Wait l | Own l | Deepen l | Leave l | Disown l | Release l => Some l
  end.

(** The next step of the thread [me] inside a call, on the lock it works on; [None]
    when it waits. *)
Definition phase_step (me : Z) (o : object_lock) (p : phase) : option (object_lock * phase) :=
  match p with
  | Ready => None
  | Enter l => let '(entered, o) := object_enter o me in Some (o, if entered then Ready else Wait l)
  | Wait l => if word o =? 0 then Some (ObjectLock 1 (owner o) (depth o), Own l) else None
  | Own l => Some (ObjectLock (word o) me (depth o), Deepen l)
  | Deepen l => Some (ObjectLock (word o) (owner o) 1, Ready)
  | Leave l =>
      let o := ObjectLock (word o) (owner o) (depth o - 1) in
      Some (o, if depth o >? 0 then Ready else Disown l)
  | Disown l => Some (ObjectLock (word o) 0 (depth o), Release l)
  | Release l => Some (ObjectLock 0 (owner o) (depth o), Ready)
  end.

Definition begin (c : call) : phase := match c with Lock l => Enter l | Unlock l => Leave l end.

Record thread := Thread { t_pc : phase; t_calls : list call }.

(** A lock that the map does not name has never been taken. *)
Record state := State { locks : gmap Z object_lock; threads : list thread }.

Definition lock_at (s : state) (l : Z) : object_lock := default free_lock (locks s !! l).

(** [thread_tag]: the address of a variable of the thread, never NULL. *)
Definition thread_tag (i : nat) : Z := Z.of_nat i + 1.

Inductive object_step : state -> state -> Prop :=
| step_call s i c cs :
    threads s !! i = Some (Thread Ready (c :: cs)) ->
    object_step s (State (locks s) (<[i := Thread (begin c) cs]> (threads s)))
| step_inside s i p cs l o p' :
    threads s !! i = Some (Thread p cs) -> at_lock p = Some l ->
    phase_step (thread_tag i) (lock_at s l) p = Some (o, p') ->
    object_step s (State (<[l := o]> (locks s)) (<[i := Thread p' cs]> (threads s))).

(** *** Blocks of [sync] *)

(** [sync a, b { }], in which the thread calls synchronized functions of the objects
    [again] once more; [sync a { }] names one object twice. *)
Record block := Sync { s_a : Z; s_b : Z; s_again : list Z }.

Definition block_calls (k : block) : list call :=
  anti_rt_object_lock_pair (s_a k) (s_b k) ++ flat_map (fun l => [Lock l; Unlock l]) (s_again k) ++
  anti_rt_object_unlock_pair (s_a k) (s_b k).

(** The calls inside a block are on its objects. *)
Definition block_ok (k : block) : bool := forallb (fun l => (l =? s_a k) || (l =? s_b k)) (s_again k).

Definition start (blocks : list (list block)) : state :=
  State ∅ (map (fun ks => Thread Ready (flat_map block_calls ks)) blocks).

(** ** The order of the calls *)

Fixpoint remove_one (l : Z) (held : list Z) : list Z :=
  match held with
  | [] => []
  | h :: held => if h =? l then held else h :: remove_one l held
  end.

(** A thread that holds [held] takes a lock it holds or one above all of them, gives
    only what it holds, and ends with nothing. *)
Fixpoint ordered (held : list Z) (cs : list call) : bool :=
  match cs with
  | [] => bool_decide (held = [])
  | Lock l :: cs => (bool_decide (l ∈ held) || forallb (fun h => h <? l) held) && ordered (l :: held) cs
  | Unlock l :: cs => bool_decide (l ∈ held) && ordered (remove_one l held) cs
  end.

Lemma ordered_again held ls cs :
  (forall l, l ∈ ls -> l ∈ held) -> ordered held (flat_map (fun l => [Lock l; Unlock l]) ls ++ cs) = ordered held cs.
Proof.
  induction ls as [|l ls IH]; intros H; [done|]. cbn [flat_map app ordered].
  rewrite bool_decide_true by (apply H; by left). rewrite bool_decide_true by by left. cbn [orb andb remove_one].
  rewrite Z.eqb_refl. apply IH. intros x Hx. apply H. by right.
Qed.

Lemma ordered_block k cs : block_ok k = true -> ordered [] (block_calls k ++ cs) = ordered [] cs.
Proof.
  intros Hk. destruct k as [a b again]. unfold block_calls, block_ok in *. cbn [s_a s_b s_again] in *.
  assert (forall l, l ∈ again -> l = a \/ l = b) as Hin.
  { intros l Hl. apply list_elem_of_In in Hl. rewrite forallb_forall in Hk. specialize (Hk l Hl). lia. }
  unfold anti_rt_object_lock_pair, anti_rt_object_unlock_pair. rewrite <- !app_assoc.
  destruct (Z.leb_spec a b) as [Hab|Hab].
  - rewrite Z.eqb_refl. destruct (Z.eqb_spec a b) as [->|Hne].
    + rewrite Z.eqb_refl. cbn [negb app ordered forallb]. rewrite orb_true_r. cbn [andb].
      rewrite ordered_again by (intros l [-> | ->]%Hin; by left).
      cbn [app ordered remove_one]. rewrite Z.eqb_refl, bool_decide_true by by left. done.
    + destruct (Z.eqb_spec b a) as [|_]; [lia|]. cbn [negb app ordered forallb]. rewrite (proj2 (Z.ltb_lt _ _)) by lia.
      rewrite !orb_true_r. cbn [andb].
      rewrite ordered_again by (intros l [-> | ->]%Hin; [by right; left|by left]).
      cbn [app ordered remove_one]. rewrite Z.eqb_refl, bool_decide_true by by left. cbn [andb remove_one].
      rewrite Z.eqb_refl, bool_decide_true by by left. done.
  - destruct (Z.eqb_spec b a) as [|_]; [lia|]. destruct (Z.eqb_spec a b) as [|_]; [lia|].
    cbn [negb app ordered forallb]. rewrite (proj2 (Z.ltb_lt _ _)) by lia. rewrite !orb_true_r. cbn [andb].
    rewrite ordered_again by (intros l [-> | ->]%Hin; [by left|by right; left]).
    cbn [app ordered remove_one]. rewrite bool_decide_true by (right; by left). rewrite (proj2 (Z.eqb_neq a b)) by lia.
    rewrite Z.eqb_refl. cbn [andb remove_one]. rewrite Z.eqb_refl, bool_decide_true by by left. done.
Qed.

Lemma ordered_blocks ks : forallb block_ok ks = true -> ordered [] (flat_map block_calls ks) = true.
Proof.
  induction ks as [|k ks IH]; cbn [flat_map forallb]; [done|]. intros [Hk Hks]%andb_true_iff.
  rewrite ordered_block by done. by apply IH.
Qed.

(** ** The invariant *)

Definition times (l : Z) (held : list Z) : nat := count_occ Z.eq_dec held l.

Lemma times_in l held : l ∈ held <-> (0 < times l held)%nat.
Proof. unfold times. rewrite list_elem_of_In, (count_occ_In Z.eq_dec). done. Qed.

Lemma times_cons l h held : times l (h :: held) = if h =? l then S (times l held) else times l held.
Proof. unfold times. cbn [count_occ]. destruct (Z.eq_dec h l), (Z.eqb_spec h l); done. Qed.

Lemma times_remove l l' held :
  l ∈ held -> times l' (remove_one l held) = if l =? l' then pred (times l' held) else times l' held.
Proof.
  induction held as [|h held IH]; [by intros ?%elem_of_nil|]. intros Hin. cbn [remove_one]. rewrite (times_cons l' h).
  destruct (Z.eqb_spec h l) as [->|Hhl]; [by destruct (l =? l')|].
  apply elem_of_cons in Hin as [->|Hin]; [done|]. rewrite times_cons, (IH Hin).
  destruct (Z.eqb_spec h l') as [->|_]; [|done]. by rewrite (proj2 (Z.eqb_neq l l')) by done.
Qed.

Definition above (l : Z) (held : list Z) : Prop := Forall (fun h => h < l) held.

(** What a thread at [t] that holds [held] has still to do. *)
Definition thread_ok (t : thread) (held : list Z) : Prop :=
  match t_pc t with
  | Ready => ordered held (t_calls t) = true
  | Enter l => (l ∈ held \/ above l held) /\ ordered (l :: held) (t_calls t) = true
  | Wait l | Own l | Deepen l => above l held /\ ordered (l :: held) (t_calls t) = true
  | Leave l => l ∈ held /\ ordered (remove_one l held) (t_calls t) = true
  | Disown l | Release l => l ∉ held /\ ordered held (t_calls t) = true
  end.

(** What the thread [me] makes of a lock that is its own. *)
Definition grip (me : Z) (t : thread) (held : list Z) (l : Z) : option object_lock :=
  if bool_decide (l ∈ held) then Some (ObjectLock 1 me (Z.of_nat (times l held)))
  else match t_pc t with
       | Own l' | Release l' => if l' =? l then Some (ObjectLock 1 0 0) else None
       | Deepen l' | Disown l' => if l' =? l then Some (ObjectLock 1 me 0) else None
       | _ => None
       end.

Definition grip_of (s : state) (holding : nat -> list Z) (i : nat) (l : Z) : option object_lock :=
  t ← threads s !! i; grip (thread_tag i) t (holding i) l.

(** Each lock is free, or it is as the one thread that has it left it. *)
Record inv (s : state) (holding : nat -> list Z) : Prop := {
  in_threads : forall i t, threads s !! i = Some t -> thread_ok t (holding i);
  in_locks : forall l i o, grip_of s holding i l = Some o -> lock_at s l = o;
  in_one : forall l i j, is_Some (grip_of s holding i l) -> is_Some (grip_of s holding j l) -> i = j;
  in_free : forall l, lock_at s l = free_lock \/ exists i, is_Some (grip_of s holding i l);
}.

Lemma grip_word me t held l o : grip me t held l = Some o -> word o = 1.
Proof. unfold grip. case_bool_decide; [by intros [= <-]|]. destruct (t_pc t); try case_match; by intros [= <-]. Qed.

Lemma thread_tag_inj i j : thread_tag i = thread_tag j -> i = j.
Proof. unfold thread_tag. lia. Qed.

Lemma grip_owner me t held l o : grip me t held l = Some o -> owner o = me \/ owner o = 0.
Proof.
  unfold grip. case_bool_decide; [intros [= <-]; by left|].
  destruct (t_pc t); try case_match; intros [= <-]; cbn; auto.
Qed.

Lemma fn_lookup_insert_if {A} (f : nat -> A) i x j : <[i := x]> f j = if decide (i = j) then x else f j.
Proof. case_decide; [subst; apply fn_lookup_insert|by apply fn_lookup_insert_ne]. Qed.

(** A step of the thread [i] that changes its grip of the lock [l] alone. *)
Lemma grip_step s holding i t l o t' held' :
  inv s holding -> threads s !! i = Some t -> thread_ok t' held' ->
  (forall l', l' <> l -> grip (thread_tag i) t' held' l' = grip (thread_tag i) t (holding i) l') ->
  (is_Some (grip (thread_tag i) t (holding i) l) \/ word (lock_at s l) = 0) ->
  o = default free_lock (grip (thread_tag i) t' held' l) ->
  inv (State (<[l := o]> (locks s)) (<[i := t']> (threads s))) (<[i := held']> holding).
Proof.
  intros [I1 I2 I3 I4] Ht Hok Hother Hown ->.
  set (s' := State _ _). set (holding' := <[i := held']> holding).
  assert (forall l', lock_at s' l' = if decide (l = l') then default free_lock (grip (thread_tag i) t' held' l) else lock_at s l') as Hlock.
  { intros l'. unfold lock_at. cbn [s' locks]. rewrite lookup_insert. by case_decide. }
  assert (forall j l', grip_of s' holding' j l' = if decide (i = j) then grip (thread_tag i) t' held' l' else grip_of s holding j l') as Hgrip.
  { intros j l'. unfold grip_of. cbn [s' threads]. unfold holding'. rewrite fn_lookup_insert_if.
    case_decide as E; [subst j|by rewrite list_lookup_insert_ne].
    by rewrite list_lookup_insert_eq by by eapply lookup_lt_Some. }
  assert (forall l', grip_of s holding i l' = grip (thread_tag i) t (holding i) l') as Hi by (intros; unfold grip_of; by rewrite Ht).
  assert (forall j, i <> j -> is_Some (grip_of s holding j l) -> False) as Halone.
  { intros j Hij Hj. destruct Hown as [Hown|Hw]; [apply Hij, (I3 l); [by rewrite Hi|done]|].
    destruct Hj as [oj Hj]. rewrite (I2 _ _ _ Hj) in Hw. unfold grip_of in Hj. destruct (threads s !! j) as [tj|]; [|done].
    cbn in Hj. by rewrite (grip_word _ _ _ _ _ Hj) in Hw. }
  split.
  - intros j tj. cbn [s' threads]. unfold holding'. rewrite fn_lookup_insert_if. destruct (decide (i = j)) as [<-|E].
    + rewrite list_lookup_insert_eq by by eapply lookup_lt_Some. by intros [= <-].
    + rewrite list_lookup_insert_ne by done. apply I1.
  - intros l' j oj. rewrite Hgrip, Hlock. destruct (decide (i = j)) as [<-|E].
    + case_decide as El; [subst l'; by intros ->|]. rewrite Hother by done. rewrite <- Hi. apply I2.
    + case_decide as El; [subst l'|apply I2]. intros Hj. destruct (Halone j E). by rewrite Hj.
  - intros l' j k. rewrite !Hgrip. destruct (decide (i = j)) as [<-|Ej], (decide (i = k)) as [<-|Ek]; [done| | |apply I3].
    + intros Hs Hk. destruct (decide (l' = l)) as [->|El]; [by destruct (Halone k)|]. rewrite Hother in Hs by done.
      rewrite <- Hi in Hs. by apply (I3 l').
    + intros Hj Hs. destruct (decide (l' = l)) as [->|El]; [by destruct (Halone j)|]. rewrite Hother in Hs by done.
      rewrite <- Hi in Hs. by apply (I3 l').
  - intros l'. rewrite Hlock. case_decide as El.
    + subst l'. destruct (grip (thread_tag i) t' held' l) as [o|] eqn:E; [|by left]. right. exists i.
      rewrite Hgrip, decide_True, E by done. done.
    + destruct (I4 l') as [Hf|[j Hj]]; [by left|right]. exists j. rewrite Hgrip. case_decide as Ej; [|done]. subst j.
      rewrite Hother by done. by rewrite <- Hi.
Qed.

(** A step that changes no lock and no grip. *)
Lemma inv_same s holding i t m t' :
  inv s holding -> threads s !! i = Some t -> thread_ok t' (holding i) ->
  (forall l, default free_lock (m !! l) = lock_at s l) ->
  (forall l, grip (thread_tag i) t' (holding i) l = grip (thread_tag i) t (holding i) l) ->
  inv (State m (<[i := t']> (threads s))) holding.
Proof.
  intros [I1 I2 I3 I4] Ht Hok Hlock Hsame. set (s' := State _ _).
  assert (forall l, lock_at s' l = lock_at s l) as Hlock' by exact Hlock.
  assert (forall j l, grip_of s' holding j l = grip_of s holding j l) as Hgrip.
  { intros j l. unfold grip_of. cbn [s' threads]. destruct (decide (i = j)) as [<-|E]; [|by rewrite list_lookup_insert_ne].
    rewrite list_lookup_insert_eq by by eapply lookup_lt_Some. rewrite Ht. cbn. apply Hsame. }
  split.
  - intros j tj. cbn [s' threads]. destruct (decide (i = j)) as [<-|E].
    + rewrite list_lookup_insert_eq by by eapply lookup_lt_Some. by intros [= <-].
    + rewrite list_lookup_insert_ne by done. apply I1.
  - intros l j oj. rewrite Hgrip, Hlock'. apply I2.
  - intros l j k. rewrite !Hgrip. apply I3.
  - intros l. rewrite Hlock'. setoid_rewrite Hgrip. apply I4.
Qed.

Lemma above_not_in l held : above l held -> l ∉ held.
Proof. intros H Hin. unfold above in H. rewrite Forall_forall in H. specialize (H l Hin). lia. Qed.

Lemma grip_other me p cs p' cs' held held' l l' :
  l' <> l -> (forall x, at_lock p = Some x -> x = l) -> (forall x, at_lock p' = Some x -> x = l) ->
  times l' held' = times l' held ->
  grip me (Thread p' cs') held' l' = grip me (Thread p cs) held l'.
Proof.
  intros Hne Hp Hp' Hn. unfold grip. cbn [t_pc]. rewrite Hn.
  rewrite (bool_decide_ext (l' ∈ held') (l' ∈ held)) by (rewrite !times_in; lia). case_bool_decide; [done|].
  assert (forall x, x = l -> (x =? l') = false) as Hx by lia.
  assert (match p with Own x | Release x => if x =? l' then Some (ObjectLock 1 0 0) else None
                     | Deepen x | Disown x => if x =? l' then Some (ObjectLock 1 me 0) else None | _ => None end = None) as ->.
  { destruct p; try done; by rewrite Hx by (by apply Hp). }
  destruct p'; try done; by rewrite Hx by (by apply Hp').
Qed.

(** The grip of a lock by what the thread holds and where it is. *)
Lemma grip_held me t held l : l ∈ held -> grip me t held l = Some (ObjectLock 1 me (Z.of_nat (times l held))).
Proof. intros H. unfold grip. by rewrite bool_decide_true. Qed.

Lemma grip_at me p cs held l :
  l ∉ held -> at_lock p = Some l ->
  grip me (Thread p cs) held l =
    match p with Own _ | Release _ => Some (ObjectLock 1 0 0) | Deepen _ | Disown _ => Some (ObjectLock 1 me 0) | _ => None end.
Proof.
  intros H Hp. unfold grip. rewrite bool_decide_false by done. cbn [t_pc].
  destruct p; try done; cbn in Hp; injection Hp as ->; by rewrite Z.eqb_refl.
Qed.

Lemma grip_ready me cs held l : l ∉ held -> grip me (Thread Ready cs) held l = None.
Proof. intros H. unfold grip. by rewrite bool_decide_false. Qed.

Lemma lock_of s holding i t l o :
  inv s holding -> threads s !! i = Some t -> grip (thread_tag i) t (holding i) l = Some o -> lock_at s l = o.
Proof. intros I Ht Hg. apply (in_locks _ _ I l i). unfold grip_of. by rewrite Ht. Qed.

Lemma free_of s holding l : inv s holding -> word (lock_at s l) = 0 -> lock_at s l = free_lock.
Proof.
  intros I Hw. destruct (in_free _ _ I l) as [|[j [o Hj]]]; [done|].
  rewrite (in_locks _ _ I _ _ _ Hj) in Hw. unfold grip_of in Hj. destruct (threads s !! j); [|done]. cbn in Hj.
  by rewrite (grip_word _ _ _ _ _ Hj) in Hw.
Qed.

(** The owner tells a thread whether it holds the lock. *)
Lemma owner_test s holding i l cs :
  inv s holding -> threads s !! i = Some (Thread (Enter l) cs) ->
  (owner (lock_at s l) =? thread_tag i) = bool_decide (l ∈ holding i).
Proof.
  intros I Ht. apply eq_true_iff_eq. rewrite Z.eqb_eq, bool_decide_eq_true. split.
  - intros Ho. destruct (in_free _ _ I l) as [E|[j [o Hj]]]; [rewrite E in Ho; unfold thread_tag in Ho; cbn in Ho; lia|].
    pose proof (in_locks _ _ I _ _ _ Hj) as E. rewrite E in Ho.
    unfold grip_of in Hj. destruct (threads s !! j) as [tj|] eqn:Etj; [|done]. cbn in Hj.
    destruct (grip_owner _ _ _ _ _ Hj) as [E'|E']; [|unfold thread_tag in *; lia].
    assert (j = i) as -> by (apply thread_tag_inj; congruence). rewrite Ht in Etj. injection Etj as <-.
    destruct (decide (l ∈ holding i)) as [|Hn]; [done|]. by rewrite (grip_at _ _ _ _ _ Hn) in Hj.
  - intros Hin. by rewrite (lock_of _ _ _ _ _ _ I Ht (grip_held _ _ _ _ Hin)).
Qed.

Lemma begin_ok held c cs : ordered held (c :: cs) = true -> thread_ok (Thread (begin c) cs) held.
Proof.
  destruct c as [l|l]; cbn [ordered begin]; unfold thread_ok; cbn [t_pc t_calls]; intros [H1 H2]%andb_true_iff; (split; [|done]).
  - apply orb_true_iff in H1 as [H1|H1]; [left; by apply bool_decide_eq_true in H1|right].
    apply Forall_forall. intros x Hx. rewrite forallb_forall in H1. apply list_elem_of_In in Hx. specialize (H1 x Hx). lia.
  - by apply bool_decide_eq_true in H1.
Qed.

Ltac other_locks := intros l' Hl'; eapply grip_other; [exact Hl'|by intros ? [= ->]|by intros ? [= ->]|].

Section Step.
Context (s : state) (holding : nat -> list Z) (i : nat) (l : Z) (cs : list call) (I : inv s holding).

Notation after o p := (State (<[l := o]> (locks s)) (<[i := Thread p cs]> (threads s))).
Notation me := (thread_tag i).

Lemma held_lock p : threads s !! i = Some (Thread p cs) -> l ∈ holding i ->
  lock_at s l = ObjectLock 1 me (Z.of_nat (times l (holding i))).
Proof. intros Ht Hin. by apply (lock_of _ _ _ _ _ _ I Ht), grip_held. Qed.

Lemma enter_inv o p :
  threads s !! i = Some (Thread (Enter l) cs) -> (l ∈ holding i \/ above l (holding i)) ->
  ordered (l :: holding i) cs = true -> phase_step me (lock_at s l) (Enter l) = Some (o, p) ->
  exists holding', inv (after o p) holding'.
Proof.
  intros Ht H1 H2 Ho. cbn [phase_step] in Ho. unfold object_enter in Ho. rewrite (owner_test _ _ _ _ _ I Ht) in Ho.
  case_bool_decide as Hin; simplify_eq.
  - rewrite (held_lock _ Ht Hin). cbn [word owner depth].
    exists (<[i := l :: holding i]> holding). eapply grip_step; [done|done|done|other_locks| |].
    + rewrite times_cons. by rewrite (proj2 (Z.eqb_neq l l')) by done.
    + left. by rewrite grip_held.
    + rewrite grip_held by by left. rewrite times_cons, Z.eqb_refl. cbn. f_equal. lia.
  - exists holding. eapply inv_same; [done|done|split; [by destruct H1|done]| |by intros].
    intros l'. rewrite lookup_insert. by case_decide as E; [subst|].
Qed.

Lemma deepen_inv o p :
  threads s !! i = Some (Thread (Deepen l) cs) -> l ∉ holding i -> ordered (l :: holding i) cs = true ->
  phase_step me (lock_at s l) (Deepen l) = Some (o, p) -> exists holding', inv (after o p) holding'.
Proof.
  intros Ht Hn H2 Ho. pose proof (grip_at me (Deepen l) cs _ _ Hn eq_refl) as Hg.
  rewrite (lock_of _ _ _ _ _ _ I Ht Hg) in Ho. cbn in Ho. injection Ho as <- <-.
  exists (<[i := l :: holding i]> holding). eapply grip_step; [done|done|done|other_locks|by left; rewrite Hg|].
  - rewrite times_cons. by rewrite (proj2 (Z.eqb_neq l l')) by done.
  - rewrite grip_held by by left. rewrite times_cons, Z.eqb_refl. rewrite times_in in Hn. cbn. do 2 f_equal. lia.
Qed.

Lemma leave_inv o p :
  threads s !! i = Some (Thread (Leave l) cs) -> l ∈ holding i -> ordered (remove_one l (holding i)) cs = true ->
  phase_step me (lock_at s l) (Leave l) = Some (o, p) -> exists holding', inv (after o p) holding'.
Proof.
  intros Ht H1 H2 Ho. cbn [phase_step] in Ho. rewrite (held_lock _ Ht H1) in Ho. cbn [word owner depth] in Ho.
  pose proof (times_remove l l _ H1) as Hr. rewrite Z.eqb_refl in Hr. pose proof (proj1 (times_in _ _) H1) as Hpos.
  assert (forall l', l' <> l -> times l' (remove_one l (holding i)) = times l' (holding i)) as Hothers.
  { intros l' Hl'. rewrite times_remove by done. by rewrite (proj2 (Z.eqb_neq l l')) by done. }
  injection Ho as <- <-. exists (<[i := remove_one l (holding i)]> holding).
  assert (is_Some (grip me (Thread (Leave l) cs) (holding i) l)) as Hown by by rewrite grip_held.
  destruct (Z.gtb_spec (Z.of_nat (times l (holding i)) - 1) 0) as [Hd|Hd].
  - assert (l ∈ remove_one l (holding i)) as Hin by (rewrite times_in; lia).
    eapply grip_step; [done|done|done|other_locks; by apply Hothers|by left|].
    rewrite grip_held by done. cbn. f_equal. lia.
  - assert (l ∉ remove_one l (holding i)) as Hn by (rewrite times_in; lia).
    eapply grip_step; [done|done|done|other_locks; by apply Hothers|by left|].
    rewrite grip_at by done. cbn. f_equal. lia.
Qed.

(** The steps that change the phase of a lock that the thread does not hold yet, or no more. *)
Lemma phase_inv p o p' :
  threads s !! i = Some (Thread p cs) -> l ∉ holding i -> at_lock p = Some l ->
  (p = Wait l /\ p' = Own l \/ p = Own l /\ p' = Deepen l \/ p = Disown l /\ p' = Release l \/ p = Release l /\ p' = Ready) ->
  thread_ok (Thread p' cs) (holding i) -> phase_step me (lock_at s l) p = Some (o, p') ->
  exists holding', inv (after o p') holding'.
Proof.
  intros Ht Hn Hl Hp Hok Ho. exists (<[i := holding i]> holding).
  pose proof (grip_at me p cs _ _ Hn Hl) as Hg.
  eapply grip_step; [done|done|done| | |].
  - intros l' Hl'. apply (grip_other _ _ _ _ _ _ _ l); [done|..|done]; intros x; destruct Hp as [[-> ->]|[[-> ->]|[[-> ->]|[-> ->]]]];
      by intros [= ->].
  - destruct Hp as [[-> ->]|[[-> ->]|[[-> ->]|[-> ->]]]]; try (by left; rewrite Hg). right. cbn [phase_step] in Ho.
    by destruct (Z.eqb_spec (word (lock_at s l)) 0).
  - destruct Hp as [[-> ->]|[[-> ->]|[[-> ->]|[-> ->]]]]; cbn [phase_step] in Ho.
    + destruct (Z.eqb_spec (word (lock_at s l)) 0) as [Hw|]; [|done]. simplify_eq. rewrite (free_of _ _ _ I Hw).
      by rewrite grip_at by done.
    + simplify_eq. rewrite (lock_of _ _ _ _ _ _ I Ht Hg). by rewrite grip_at by done.
    + simplify_eq. rewrite (lock_of _ _ _ _ _ _ I Ht Hg). by rewrite grip_at by done.
    + simplify_eq. rewrite (lock_of _ _ _ _ _ _ I Ht Hg). by rewrite grip_ready by done.
Qed.
End Step.

Lemma step_inv s s' holding : inv s holding -> object_step s s' -> exists holding', inv s' holding'.
Proof.
  intros I Hs. destruct Hs as [s i c cs Ht|s i p cs l o p' Ht Hl Ho]; pose proof (in_threads _ _ I i _ Ht) as Hok.
  { exists holding. eapply inv_same; [done|done|by apply begin_ok|done|]. intros l. by destruct c. }
  destruct p as [|x|x|x|x|x|x|x]; cbn in Hl; simplify_eq; unfold thread_ok in Hok; cbn [t_pc t_calls] in Hok;
    destruct Hok as [H1 H2]; [by eapply enter_inv| | |eapply deepen_inv; [done|done|by apply above_not_in|done|done]
                             |by eapply leave_inv| |]; pose proof Ho as Ho'; cbn [phase_step] in Ho'; try case_match; simplify_eq.
  - eapply phase_inv; [done|done|by apply above_not_in|done|tauto|done|done].
  - eapply phase_inv; [done|done|by apply above_not_in|done|tauto|done|done].
  - eapply phase_inv; [done|done|done|done|tauto|done|done].
  - eapply phase_inv; [done|done|done|done|tauto|done|done].
Qed.

(** ** Exclusion *)

Lemma start_thread blocks i t :
  threads (start blocks) !! i = Some t -> exists ks, blocks !! i = Some ks /\ t = Thread Ready (flat_map block_calls ks).
Proof. cbn. rewrite list_lookup_fmap. intros (ks & -> & ->)%fmap_Some. by exists ks. Qed.

Lemma start_inv blocks : forallb (forallb block_ok) blocks = true -> inv (start blocks) (fun _ => []).
Proof.
  intros Hb. assert (forall i l, grip_of (start blocks) (fun _ => []) i l = None) as Hg.
  { intros i l. unfold grip_of. destruct (threads (start blocks) !! i) as [t|] eqn:E; [|done].
    apply start_thread in E as (ks & _ & ->). cbn. apply grip_ready. by intros ?%elem_of_nil. }
  split.
  - intros i t Ht. apply start_thread in Ht as (ks & Hks & ->). unfold thread_ok. cbn [t_pc t_calls].
    apply ordered_blocks. rewrite forallb_forall in Hb. apply Hb, list_elem_of_In. by eapply list_elem_of_lookup_2.
  - intros l i o. by rewrite Hg.
  - intros l i j. rewrite Hg. by intros [??].
  - intros l. left. unfold lock_at. cbn. by rewrite lookup_empty.
Qed.

Lemma steps_inv s s' holding : inv s holding -> rtc object_step s s' -> exists holding', inv s' holding'.
Proof.
  intros I Hs. revert holding I. induction Hs as [s|s s1 s' H1 _ IH]; intros holding I; [by exists holding|].
  destruct (step_inv _ _ _ I H1) as [holding1 I1]. by eapply IH.
Qed.

(** The unlocks of the lock that the thread has still to call, beyond its locks. *)
Definition due (l : Z) (cs : list call) : Z :=
  fold_right (fun c n => match c with
                         | Lock x => if x =? l then n - 1 else n
                         | Unlock x => if x =? l then n + 1 else n
                         end) 0 cs.

(** The thread runs between a lock of [l] that is done and the unlock that answers it. *)
Definition inside (l : Z) (t : thread) : bool :=
  (due l (t_calls t) >? 0) &&
  match t_pc t with Enter x | Wait x | Own x | Deepen x => negb (x =? l) | _ => true end.

Lemma ordered_due l held cs : ordered held cs = true -> due l cs = Z.of_nat (times l held).
Proof.
  revert held. induction cs as [|[x|x] cs IH]; intros held; cbn [ordered due fold_right].
  - by intros ->%bool_decide_eq_true.
  - intros [_ H]%andb_true_iff. apply IH in H. unfold due in H. rewrite H, times_cons. destruct (x =? l); lia.
  - intros [Hin%bool_decide_eq_true H]%andb_true_iff. apply IH in H. unfold due in H. rewrite H, times_remove by done.
    apply times_in in Hin. destruct (Z.eqb_spec x l) as [->|]; lia.
Qed.

Lemma inside_held l t held : thread_ok t held -> inside l t = true -> l ∈ held.
Proof.
  intros Hok [Hd%Z.gtb_lt Hp]%andb_true_iff. apply times_in. destruct t as [p cs]. unfold thread_ok in Hok. cbn [t_pc t_calls] in *.
  destruct p as [|x|x|x|x|x|x|x]; [|destruct Hok as [Hx Hok]..];
    rewrite (ordered_due _ _ _ Hok) in Hd; rewrite ?times_cons in Hd; rewrite ?times_remove in Hd by done;
    revert Hd Hp; try destruct (Z.eqb_spec x l); cbn [negb]; intros; try done; lia.
Qed.

(** C31. The lock of an object excludes: in every reachable state of any threads that
    run blocks of [sync] over one or two objects, calls of synchronized functions of
    those objects inside them, a thread inside a block of an object is the owner of its
    lock, the depth is the number of times it holds it, and no other thread is inside
    a block of that object. *)
Theorem object_lock_exclusive blocks s l i t
  (Hb : forallb (forallb block_ok) blocks = true) (Hs : rtc object_step (start blocks) s)
  (Ht : threads s !! i = Some t) (Hin : inside l t = true) :
  owner (lock_at s l) = thread_tag i /\
  (t_pc t = Ready -> depth (lock_at s l) = due l (t_calls t)) /\
  forall j u, threads s !! j = Some u -> inside l u = true -> j = i.
Proof.
  destruct (steps_inv _ _ _ (start_inv blocks Hb) Hs) as [holding I].
  assert (forall j u, threads s !! j = Some u -> inside l u = true ->
    lock_at s l = ObjectLock 1 (thread_tag j) (Z.of_nat (times l (holding j)))) as H.
  { intros j u Hu Hl. apply (lock_of _ _ _ _ _ _ I Hu), grip_held. apply (inside_held l u); [|done]. by apply I. }
  rewrite (H i t Ht Hin). split; [done|]. split.
  - intros Hp. pose proof (in_threads _ _ I i t Ht) as Hok. unfold thread_ok in Hok. rewrite Hp in Hok.
    cbn. symmetry. by apply ordered_due.
  - intros j u Hu Hl. pose proof (H j u Hu Hl) as E. rewrite (H i t Ht Hin) in E. injection E as E _.
    symmetry. by apply thread_tag_inj.
Qed.

(** ** Every run ends *)

Definition pc_rank (p : phase) : nat :=
  match p with Ready => 0 | Enter _ => 4 | Wait _ => 3 | Own _ => 2 | Deepen _ => 1 | Leave _ => 3 | Disown _ => 2 | Release _ => 1 end.

Definition work (t : thread) : nat := 5 * length (t_calls t) + pc_rank (t_pc t).

Definition work_left (s : state) : nat := sum_list_with work (threads s).

Lemma sum_insert {A} (f : A -> nat) xs i x y :
  xs !! i = Some x -> (f y < f x)%nat -> (sum_list_with f (<[i := y]> xs) < sum_list_with f xs)%nat.
Proof.
  revert i. induction xs as [|z xs IH]; intros [|i] Hi Hlt; simplify_eq/=; [lia|]. specialize (IH i Hi Hlt). lia.
Qed.

Lemma step_work s s' : object_step s s' -> (work_left s' < work_left s)%nat.
Proof.
  intros [s0 i c cs Ht|s0 i p cs l o p' Ht Hl Ho]; unfold work_left; cbn [threads]; eapply sum_insert; try done;
    unfold work; cbn [t_calls t_pc length].
  - destruct c; cbn [begin pc_rank]; lia.
  - destruct p; cbn [phase_step] in Ho; unfold object_enter in Ho; try case_match; simplify_eq; cbn [pc_rank]; try lia;
      repeat case_match; simplify_eq; cbn [pc_rank]; lia.
Qed.

Lemma nsteps_work n s s' : nsteps object_step n s s' -> (n + work_left s' <= work_left s)%nat.
Proof. induction 1 as [|n s s1 s' H1 _ IH]; [lia|]. apply step_work in H1. lia. Qed.

(** A thread that cannot step has ended or waits for a word that is taken. *)
Lemma stuck_thread s i t held :
  (forall s', ~ object_step s s') -> threads s !! i = Some t -> thread_ok t held ->
  t = Thread Ready [] \/ exists l cs, t = Thread (Wait l) cs /\ word (lock_at s l) <> 0.
Proof.
  intros Hs Ht Hok. destruct t as [p cs]. destruct (at_lock p) as [l|] eqn:Hl.
  - right. destruct (phase_step (thread_tag i) (lock_at s l) p) as [[o p']|] eqn:Ho; [by destruct (Hs _ (step_inside _ _ _ _ _ _ _ Ht Hl Ho))|].
    destruct p; cbn in Hl; simplify_eq; cbn [phase_step] in Ho; try done.
    + by destruct (object_enter _ _).
    + exists l, cs. split; [done|]. destruct (Z.eqb_spec (word (lock_at s l)) 0); done.
  - left. destruct p; try done. destruct cs as [|c cs]; [done|]. by destruct (Hs _ (step_call _ _ _ _ Ht)).
Qed.

Definition waits_for (t : thread) : option Z := match t_pc t with Wait l => Some l | _ => None end.

Lemma highest (ls : list Z) : ls <> [] -> exists m, m ∈ ls /\ forall l, l ∈ ls -> l <= m.
Proof.
  induction ls as [|x ls IH]; [done|]. intros _. destruct ls as [|y ls].
  { exists x. split; [by left|]. intros l ->%list_elem_of_singleton. lia. }
  destruct IH as (m & Hm & Hmax); [done|]. destruct (Z.le_ge_cases x m) as [H|H].
  - exists m. split; [by right|]. intros l [->|Hl]%elem_of_cons; [done|]. by apply Hmax.
  - exists x. split; [by left|]. intros l [->|Hl]%elem_of_cons; [lia|]. specialize (Hmax l Hl). lia.
Qed.

(** No thread waits: the owner of the highest lock waited for would wait for a higher one. *)
Lemma stuck_done s holding :
  inv s holding -> (forall s', ~ object_step s s') -> forall i t, threads s !! i = Some t -> t = Thread Ready [].
Proof.
  intros I Hs. assert (omap waits_for (threads s) = []) as Hnone.
  { destruct (decide (omap waits_for (threads s) = [])) as [|Hne]; [done|exfalso].
    destruct (highest _ Hne) as (m & Hm & Hmax). apply list_elem_of_omap in Hm as (t & Hin & Hw).
    apply list_elem_of_lookup_1 in Hin as [i Ht]. destruct (stuck_thread _ _ _ _ Hs Ht (in_threads _ _ I _ _ Ht)) as [->|(l & cs & -> & Hword)];
      [done|]. cbn in Hw. injection Hw as ->.
    destruct (in_free _ _ I m) as [E|[j [o Hj]]]; [by rewrite E in Hword|].
    unfold grip_of in Hj. destruct (threads s !! j) as [u|] eqn:Hu; [|done]. cbn in Hj. pose proof (in_threads _ _ I _ _ Hu) as Hok.
    destruct (stuck_thread _ _ _ _ Hs Hu Hok) as [->|(l & cs' & -> & _)]; unfold thread_ok in Hok; cbn [t_pc t_calls] in Hok.
    - cbn in Hok. apply bool_decide_eq_true in Hok. by rewrite Hok in Hj.
    - destruct Hok as [Habove _]. unfold grip in Hj. case_bool_decide as Hmj; [|done].
      unfold above in Habove. rewrite Forall_forall in Habove. specialize (Habove m Hmj).
      assert (l ∈ omap waits_for (threads s)) as Hl.
      { apply list_elem_of_omap. exists (Thread (Wait l) cs'). split; [by eapply list_elem_of_lookup_2|done]. }
      specialize (Hmax l Hl). lia. }
  intros i t Ht. destruct (stuck_thread _ _ _ _ Hs Ht (in_threads _ _ I _ _ Ht)) as [|(l & cs & -> & _)]; [done|exfalso].
  assert (l ∈ omap waits_for (threads s)) as Hl; [|rewrite Hnone in Hl; by apply elem_of_nil in Hl].
  apply list_elem_of_omap. exists (Thread (Wait l) cs). split; [by eapply list_elem_of_lookup_2|done].
Qed.

Lemma done_free s holding l :
  inv s holding -> (forall i t, threads s !! i = Some t -> t = Thread Ready []) -> lock_at s l = free_lock.
Proof.
  intros I H. destruct (in_free _ _ I l) as [|[j [o Hj]]]; [done|exfalso].
  unfold grip_of in Hj. destruct (threads s !! j) as [u|] eqn:Hu; [|done]. cbn in Hj. pose proof (in_threads _ _ I _ _ Hu) as Hok.
  rewrite (H _ _ Hu) in *. unfold thread_ok in Hok. cbn in Hok. apply bool_decide_eq_true in Hok. by rewrite Hok in Hj.
Qed.

(** C30. Threads that run blocks of [sync a, b], whatever orders they name the objects
    in, never wait for each other in a cycle: a run takes at most five steps for each
    call, and one that no thread can continue has every block done and every lock
    free. *)
Theorem sync_pairs_end blocks n s
  (Hb : forallb (forallb block_ok) blocks = true) (Hs : nsteps object_step n (start blocks) s) :
  (n <= 5 * length (concat (map (flat_map block_calls) blocks)))%nat /\
  ((forall s', ~ object_step s s') ->
   (forall i t, threads s !! i = Some t -> t = Thread Ready []) /\ forall l, lock_at s l = free_lock).
Proof.
  split.
  - apply nsteps_work in Hs. assert (work_left (start blocks) = 5 * length (concat (map (flat_map block_calls) blocks)))%nat as E; [|lia].
    unfold work_left, start. cbn [threads]. clear. induction blocks as [|ks blocks IH]; [done|].
    cbn [map concat]. rewrite length_app. cbn [sum_list_with]. rewrite IH. unfold work. cbn [t_calls t_pc pc_rank]. lia.
  - intros Hstuck. assert (rtc object_step (start blocks) s) as Hr by (apply rtc_nsteps; by exists n).
    destruct (steps_inv _ _ _ (start_inv blocks Hb) Hr) as [holding I].
    split; [by eapply stuck_done|]. intros l. eapply done_free; [done|]. by eapply stuck_done.
Qed.

(** Two threads that name the objects at 8 and 16 in opposite orders, the first of
    them after it has stored the owner of the lower one. *)
Definition opposite_blocks : list (list block) := [[Sync 8 16 [8]]; [Sync 16 8 []]].

Definition first_inside : state :=
  State {[8 := ObjectLock 1 1 1]}
    [Thread Ready (Lock 16 :: flat_map (fun l => [Lock l; Unlock l]) [8] ++ anti_rt_object_unlock_pair 8 16);
     Thread Ready (block_calls (Sync 16 8 []))].

Lemma first_inside_reached : nsteps object_step 5 (start opposite_blocks) first_inside.
Proof.
  eapply nsteps_l; [eapply (step_call _ 0); reflexivity|].
  do 4 (eapply nsteps_l; [eapply (step_inside _ 0); vm_compute; reflexivity|]).
  assert (forall s s' : state, s = s' -> nsteps object_step 0 s s') as H by (intros s ? <-; constructor).
  apply H. vm_compute. reflexivity.
Defined.

Lemma object_lock_exclusive_witness :
  owner (lock_at first_inside 8) = 1 /\ depth (lock_at first_inside 8) = 1.
Proof.
  destruct (object_lock_exclusive opposite_blocks first_inside 8 0
    (Thread Ready (Lock 16 :: flat_map (fun l => [Lock l; Unlock l]) [8] ++ anti_rt_object_unlock_pair 8 16)))
    as (H1 & H2 & _); [reflexivity| |reflexivity|reflexivity|].
  - apply rtc_nsteps. exists 5%nat. exact first_inside_reached.
  - split; [exact H1|]. rewrite (H2 eq_refl). reflexivity.
Defined.

Lemma sync_pairs_end_witness :
  (5 <= 50)%nat /\ ((forall s', ~ object_step first_inside s') -> forall l, lock_at first_inside l = free_lock).
Proof.
  destruct (sync_pairs_end opposite_blocks 5 first_inside eq_refl first_inside_reached) as [H1 H2].
  split; [exact H1|]. intros H. apply (H2 H).
Defined.
