(* ===== verification/LockOrder.v ===== *)
(** * LockOrder: the orders in which the threads of a dev build take locks

    Models the record of lock orders of src/rt/lock.c. A thread keeps the locks it
    holds on a stack; each lock it takes while it holds others is an order, kept
    once per pair of addresses in an open-addressed table that all threads share
    under one lock of the runtime, so a call is one step. A lock is its address,
    above [GONE]; a site is its text. A search returns [None] when its count of
    slots ends, which the proofs exclude. *)

From S2P Require Import Prelude PtrSet Probe.

Definition HELD_MAX : nat := 32.
Definition GONE : Z := 1.

(** ** The table *)

Record order := Order {
  o_first : Z;
  o_second : Z;
  o_first_site : list Z;
  o_second_site : list Z;
  o_reported : bool
}.

(** A slot of zeroed memory. *)
Definition no_order : order := Order 0 0 [] [] false.

(** [order_capacity] is the length of the slots. *)
Record orders := Orders { slots : list order; order_count : nat }.

Definition no_orders : orders := Orders [] 0.

Definition order_slot (first second : Z) (order_capacity : nat) : nat :=
  let h := Z.lxor (u64 (first * 0x9e3779b97f4a7c15)) second in
  Z.to_nat (Z.land (Z.lxor h (Z.shiftr h 29)) (Z.of_nat order_capacity - 1)).

Definition is_free (o : order) : bool := o_first o =? 0.
Definition names (first second : Z) (o : order) : bool := (o_first o =? first) && (o_second o =? second).

(** [Some None] is the result [NULL]. *)
Definition order_find (t : orders) (first second : Z) : option (option nat) :=
  if (length (slots t) =? 0)%nat then Some None
  else
    i ← scan (fun o => is_free o || names first second o) (length (slots t)) (slots t)
          (order_slot first second (length (slots t)));
    o ← slots t !! i;
    Some (if is_free o then None else Some i).

(** The end of [order_put], in a table with room. *)
Definition order_place (t : orders) (o : order) : option orders :=
  i ← scan is_free (length (slots t)) (slots t) (order_slot (o_first o) (o_second o) (length (slots t)));
  Some (Orders (<[i := o]> (slots t)) (S (order_count t))).

(** [put] is [order_put], which calls this function in turn. *)
Definition orders_grow (put : orders -> order -> option orders) (t : orders) : option orders :=
  let capacity := (if length (slots t) =? 0 then 64 else length (slots t) * 2)%nat in
  fold_left (fun t o =>
    t ← t;
    if negb (is_free o) && negb (o_first o =? GONE) then put t o else Some t)
    (slots t) (Some (Orders (replicate capacity no_order) 0)).

(** The calls nest twice: a table that has grown has room for what it held. *)
Fixpoint order_put_at (depth : nat) (t : orders) (o : order) : option orders :=
  match depth with
  | O => None
  | S depth =>
      t ← (if (length (slots t) <? (order_count t + 1) * 2)%nat then orders_grow (order_put_at depth) t else Some t);
      order_place t o
  end.

Definition order_put : orders -> order -> option orders := order_put_at 2.

Definition set_reported (o : order) : order :=
  Order (o_first o) (o_second o) (o_first_site o) (o_second_site o) true.

(** [p->reported = 1]. *)
Definition report (t : orders) (i : nat) : orders := Orders (alter set_reported i (slots t)) (order_count t).

(** ** The stack of a thread *)

Record held := Held { h_lock : Z; h_site : list Z }.

(** The array has HELD_MAX entries; the stack may be deeper than it. *)
Record stack := Stack { held_locks : list held; held_count : nat }.

Definition empty_stack : stack := Stack (replicate HELD_MAX (Held 0 [])) 0.

(** The entries that a search of the stack sees. *)
Definition known (s : stack) : list held := take (Nat.min (held_count s) HELD_MAX) (held_locks s).

(** The message, with the two locks and its four sites. *)
Record note := Note { n_held : Z; n_taken : Z; n_sites : list Z * list Z * list Z * list Z }.

(** The order of one lock that the thread holds. *)
Definition take_one (lock : Z) (site : list Z) (t : orders) (h : held) : option (orders * list note) :=
  if h_lock h =? lock then Some (t, [])
  else
    reverse ← order_find t lock (h_lock h);
    forward ← order_find t (h_lock h) lock;
    let conflict := match reverse with
                    | Some r => match slots t !! r with
                                | Some o => if o_reported o then None else Some (r, o)
                                | None => None
                                end
                    | None => None
                    end in
    let '(t, notes) :=
      match conflict with
      | Some (r, o) =>
          let t := report t r in
          (match forward with Some f => report t f | None => t end,
           [Note (h_lock h) lock (site, h_site h, o_second_site o, o_first_site o)])
      | None => (t, [])
      end in
    match forward with
    | Some _ => Some (t, notes)
    | None =>
        t ← order_put t (Order (h_lock h) lock (h_site h) site (match reverse with Some _ => true | None => false end));
        Some (t, notes)
    end.

Fixpoint take_each (lock : Z) (site : list Z) (t : orders) (hs : list held) : option (orders * list note) :=
  match hs with
  | [] => Some (t, [])
  | h :: hs =>
      '(t, notes) ← take_one lock site t h;
      '(t, rest) ← take_each lock site t hs;
      Some (t, notes ++ rest)
  end.

(** The thread pushes the lock, if the array has a place for it. *)
Definition push (s : stack) (lock : Z) (site : list Z) : stack :=
  Stack (if (held_count s <? HELD_MAX)%nat then <[held_count s := Held lock site]> (held_locks s) else held_locks s)
    (S (held_count s)).

Definition order_take (t : orders) (s : stack) (lock : Z) (site : list Z) : option (orders * stack * list note) :=
  '(t, notes) ← take_each lock site t (known s);
  Some (t, push s lock site, notes).

(** The topmost entry of the lock among the first [i]. *)
Fixpoint topmost (locks : list held) (lock : Z) (i : nat) : option nat :=
  match i with
  | O => None
  | S i =>
      match locks !! i with
      | Some h => if h_lock h =? lock then Some i else topmost locks lock i
      | None => None
      end
  end.

Definition order_give (s : stack) (lock : Z) : stack :=
  let n := held_count s in
  if (n =? 0)%nat then s
  else if (HELD_MAX <? n)%nat then Stack (held_locks s) (n - 1)
  else
    let locks :=
      match topmost (held_locks s) lock n with
      | Some i =>
          take i (held_locks s) ++ take (n - 1 - i) (drop (S i) (held_locks s)) ++ drop (n - 1) (held_locks s)
      | None => held_locks s
      end in
    Stack locks (n - 1).

Definition order_forget (t : orders) (lock : Z) : orders :=
  Orders (map (fun o => if (o_first o =? lock) || (o_second o =? lock)
                        then Order GONE GONE (o_first_site o) (o_second_site o) (o_reported o) else o) (slots t))
    (order_count t).

(** [held_already]: the site where the thread took the lock it takes again. *)
Definition held_already (s : stack) (lock : Z) : option (list Z) :=
  match List.find (fun h => h_lock h =? lock) (known s) with Some h => Some (h_site h) | None => None end.
