(* ===== verification/LockOrderTable.v ===== *)
(** * LockOrderTable: the table of lock orders is a finite map

    Searching, growing, marking and clearing the table of LockOrder.v as operations
    of a finite map from pairs of locks. A table with a free slot ends every search,
    and growth leaves a table with room, so no operation runs out of slots. *)

From S2P Require Import Prelude PtrSet Probe LockOrder.

Lemma order_slot_lt first second k : (order_slot first second (2 ^ k) < 2 ^ k)%nat.
Proof. unfold order_slot. cbv zeta. apply masked_lt. Qed.

(** ** The table *)

Definition lock (a : Z) : Prop := a <> 0 /\ a <> GONE.
Definition live (o : order) : Prop := lock (o_first o).

#[export] Instance live_dec o : Decision (live o).
Proof. unfold live, lock. apply _. Defined.

Definition key (o : order) : Z * Z := (o_first o, o_second o).
Definition seeks (first second : Z) (o : order) : bool := is_free o || names first second o.

Lemma names_key a b o : names a b o = true <-> key o = (a, b).
Proof. unfold names, key. rewrite andb_true_iff, !Z.eqb_eq. split; [by intros [-> ->]|by intros [= -> ->]]. Qed.

Definition search (ss : list order) (kk : Z * Z) : option nat :=
  scan (seeks kk.1 kk.2) (length ss) ss (order_slot kk.1 kk.2 (length ss)).

Definition used (ss : list order) : nat := length (filter (fun o => is_free o = false) ss).

Record slots_ok (ss : list order) : Prop := {
  so_pow : exists k, length ss = (2 ^ k)%nat;
  so_reach : forall i o, ss !! i = Some o -> live o -> search ss (key o) = Some i;
  so_free : Forall (fun o => o_first o = 0 -> o_second o = 0) ss;
}.

Lemma key_unique ss i j o o' :
  slots_ok ss -> ss !! i = Some o -> ss !! j = Some o' -> live o -> key o' = key o -> i = j.
Proof.
  intros [_ H _] Hi Hj Hl Hk. pose proof (H i o Hi Hl). assert (live o') as Hl'.
  { unfold live. by injection Hk as -> _. }
  pose proof (H j o' Hj Hl') as H'. rewrite Hk in H'. congruence.
Qed.

(** The map that a table is. *)
Definition holds (ss : list order) (M : gmap (Z * Z) order) : Prop :=
  forall kk o, M !! kk = Some o <-> live o /\ key o = kk /\ o ∈ ss.

Definition table_ok (t : orders) : Prop :=
  (slots t = [] /\ order_count t = 0%nat) \/
  (slots_ok (slots t) /\ order_count t = used (slots t) /\ (2 * order_count t <= length (slots t))%nat).

Lemma free_slot ss : (used ss < length ss)%nat -> exists i o, ss !! i = Some o /\ is_free o = true.
Proof.
  unfold used. induction ss as [|o ss IH]; cbn [length]; [lia|]. rewrite filter_cons. intros H.
  destruct (is_free o) eqn:E; [by exists 0%nat, o|]. rewrite decide_True in H by done. cbn [length] in H.
  destruct IH as (i & o' & Hi & Ho'); [lia|]. by exists (S i), o'.
Qed.

(** Where the search for an order ends. *)
Lemma search_result ss M a b :
  slots_ok ss -> holds ss M -> lock a -> (used ss < length ss)%nat ->
  exists i o, search ss (a, b) = Some i /\ ss !! i = Some o /\
    if is_free o then M !! (a, b) = None else M !! (a, b) = Some o.
Proof.
  intros Hok HM Ha Hu. destruct Hok as [[k Hk] Hr Hf] eqn:Eok. clear Eok.
  destruct (free_slot ss Hu) as (e & oe & He & Hoe).
  assert (stops_at (seeks a b) ss e) as Hst by (exists oe; split; [done|]; unfold seeks; by rewrite Hoe).
  destruct (scan_of_ends k ss Hk (seeks a b) (order_slot a b (length ss)) e) as [i Hi]; [rewrite Hk; apply order_slot_lt|done|].
  assert (search ss (a, b) = Some i) as Hi' by exact Hi.
  apply (scan_of_Some k ss Hk) in Hi; [|rewrite Hk; apply order_slot_lt].
  destruct Hi as (_ & _ & _ & (o & Ho & Hs) & _). exists i, o. split; [done|]. split; [done|].
  destruct (is_free o) eqn:Efree.
  - destruct (M !! (a, b)) as [o'|] eqn:E; [|done]. exfalso. apply HM in E as (Hl & Hkey & Hin).
    apply list_elem_of_lookup_1 in Hin as [j Hj]. pose proof (Hr j o' Hj Hl) as E. rewrite Hkey, Hi' in E.
    injection E as <-. rewrite Hj in Ho. injection Ho as ->. destruct Hl as [Hl _]. unfold is_free in Efree. lia.
  - unfold seeks in Hs. rewrite Efree in Hs. cbn [orb] in Hs. apply names_key in Hs. apply HM.
    unfold live. pose proof Hs as [= -> _]. split; [done|]. split; [done|]. by eapply list_elem_of_lookup_2.
Qed.

Lemma find_spec t M a b :
  table_ok t -> holds (slots t) M -> lock a ->
  exists r, order_find t a b = Some r /\
    match r with
    | Some i => exists o, slots t !! i = Some o /\ M !! (a, b) = Some o
    | None => M !! (a, b) = None
    end.
Proof.
  intros Hok HM Ha. unfold order_find. destruct Hok as [[Hs _]|(Hok & Hc & Hn)].
  { rewrite Hs. cbn. exists None. split; [done|]. destruct (M !! (a, b)) as [o|] eqn:E; [|done].
    apply HM in E as (_ & _ & Hin). rewrite Hs in Hin. by apply elem_of_nil in Hin. }
  assert (length (slots t) <> 0)%nat as Hpos by (destruct (so_pow _ Hok) as [k ->]; apply pow2_nonzero).
  destruct (Nat.eqb_spec (length (slots t)) 0) as [|_]; [done|].
  destruct (search_result (slots t) M a b Hok HM Ha) as (i & o & Hi & Ho & Hr); [lia|].
  unfold search, seeks in Hi. cbn [fst snd] in Hi. rewrite Hi. cbn [mbind option_bind]. rewrite Ho. cbn [mbind option_bind].
  destruct (is_free o); [by exists None|]. exists (Some i). split; [done|]. by exists o.
Qed.

(** *** A new order in a free slot *)

Lemma used_insert ss i o o' :
  ss !! i = Some o -> is_free o = true -> is_free o' = false -> used (<[i := o']> ss) = S (used ss).
Proof.
  unfold used. revert i. induction ss as [|x ss IH]; intros [|i] Hi Hf Hf'; [done..| |]; cbn in Hi.
  - injection Hi as ->. cbn [insert list_insert]. rewrite !filter_cons, decide_True by done.
    by rewrite decide_False by (rewrite Hf; done).
  - change (<[S i := o']> (x :: ss)) with (x :: <[i := o']> ss). rewrite !filter_cons.
    case_decide; cbn [length]; by rewrite (IH i).
Qed.

Section Place.
Context (ss : list order) (M : gmap (Z * Z) order) (o : order) (k i d : nat) (x : order).
Context (Hok : slots_ok ss) (HM : holds ss M) (Hk : length ss = (2 ^ k)%nat) (Hl : live o) (Hn : M !! key o = None).

Notation h := (order_slot (o_first o) (o_second o) (length ss)).

Context (Hd : (d < 2 ^ k)%nat) (Hid : i = pos (2 ^ k) h d) (Hx : ss !! i = Some x) (Hxf : is_free x = true).
Context (Hmin : forall d', (d' < d)%nat -> ~ stops_at is_free ss (pos (2 ^ k) h d')).

Lemma place_in_range : (i < length ss)%nat.
Proof. by eapply lookup_lt_Some. Qed.

Lemma place_other j y : ss !! j = Some y -> live y -> j <> i.
Proof. intros Hj [Hly _] ->. rewrite Hx in Hj. injection Hj as <-. unfold is_free in Hxf. lia. Qed.

Lemma slot_bound a b : (order_slot a b (length ss) < 2 ^ k)%nat.
Proof. rewrite Hk. apply order_slot_lt. Qed.

(** The search for the new order passes what the search for a free slot passed. *)
Lemma place_found : search (<[i := o]> ss) (key o) = Some i.
Proof.
  unfold search. rewrite length_insert. cbn [key fst snd]. rewrite <- (length_insert ss i o).
  apply (scan_of_Some k); [by rewrite length_insert|rewrite length_insert; apply slot_bound|].
  rewrite length_insert. exists d. split; [done|]. split; [done|]. split.
  { exists o. rewrite list_lookup_insert_eq by apply place_in_range. split; [done|]. unfold seeks.
    by rewrite (proj2 (names_key _ _ o) eq_refl), orb_true_r. }
  intros d' Hd' (q & Hq & Hsq). apply (Hmin d' Hd'). destruct (decide (i = pos (2 ^ k) h d')) as [E|E].
  { exists x. rewrite <- E. done. }
  rewrite list_lookup_insert_ne in Hq by done. apply orb_true_iff in Hsq as [Hsq|Hsq]; [by exists q|exfalso].
  apply names_key in Hsq. assert (M !! key o = Some q) as E2; [|congruence].
  apply HM. split; [|split; [done|by eapply list_elem_of_lookup_2]]. unfold live. by injection Hsq as -> _.
Qed.

(** The other searches end where they ended. *)
Lemma place_kept j y : j <> i -> search ss (key y) = Some j -> search (<[i := o]> ss) (key y) = Some j.
Proof.
  intros Hij Hs. unfold search in *. rewrite length_insert. set (hy := order_slot (key y).1 (key y).2 (length ss)) in *.
  assert (hy < 2 ^ k)%nat as Hhy by apply slot_bound.
  apply (scan_of_Some k ss Hk _ hy j Hhy) in Hs as (d2 & Hd2 & -> & (q & Hq & Hsq) & Hmin2).
  rewrite <- (length_insert ss i o). apply (scan_of_Some k); [by rewrite length_insert|done|].
  exists d2. split; [done|]. split; [done|]. split.
  { exists q. by rewrite list_lookup_insert_ne by done. }
  intros d' Hd' (q' & Hq' & Hsq'). apply (Hmin2 d' Hd'). destruct (decide (i = pos (2 ^ k) hy d')) as [E|E].
  { exists x. rewrite <- E. split; [done|]. unfold seeks. by rewrite Hxf. }
  exists q'. by rewrite list_lookup_insert_ne in Hq' by done.
Qed.

Lemma place_slots_ok : slots_ok (<[i := o]> ss).
Proof.
  split; [exists k; by rewrite length_insert| |].
  - intros j y Hj Hly. destruct (decide (i = j)) as [<-|Hij].
    + rewrite list_lookup_insert_eq in Hj by apply place_in_range. injection Hj as <-. apply place_found.
    + rewrite list_lookup_insert_ne in Hj by done. apply place_kept; [done|]. by apply (so_reach _ Hok).
  - apply Forall_insert; [apply Hok|]. destruct Hl as [Hl0 _]. by intros.
Qed.

Lemma place_holds : holds (<[i := o]> ss) (<[key o := o]> M).
Proof.
  intros kk y. destruct (decide (key o = kk)) as [<-|Hkk].
  - rewrite lookup_insert_eq. split.
    + intros [= <-]. split; [done|]. split; [done|]. apply list_elem_of_lookup_2 with i.
      apply list_lookup_insert_eq, place_in_range.
    + intros (Hly & Hky & Hin). apply list_elem_of_lookup_1 in Hin as [j Hj]. destruct (decide (i = j)) as [<-|Hij].
      { rewrite list_lookup_insert_eq in Hj by apply place_in_range. congruence. }
      rewrite list_lookup_insert_ne in Hj by done. assert (M !! key o = Some y); [|congruence].
      apply HM. split_and!; try done. by eapply list_elem_of_lookup_2.
  - rewrite lookup_insert_ne by done. rewrite (HM kk y). split; intros (Hly & Hky & Hin); (split; [done|split; [done|]]);
      apply list_elem_of_lookup_1 in Hin as [j Hj]; apply (list_elem_of_lookup_2 _ j).
    + rewrite list_lookup_insert_ne; [done|]. intros <-. by eapply place_other.
    + destruct (decide (i = j)) as [<-|Hij]; [|by rewrite list_lookup_insert_ne in Hj].
      rewrite list_lookup_insert_eq in Hj by apply place_in_range. congruence.
Qed.
End Place.

Lemma place_spec t M o :
  slots_ok (slots t) -> holds (slots t) M -> order_count t = used (slots t) -> (order_count t < length (slots t))%nat ->
  live o -> M !! key o = None ->
  exists t', order_place t o = Some t' /\ slots_ok (slots t') /\ holds (slots t') (<[key o := o]> M) /\
    order_count t' = used (slots t') /\ order_count t' = S (order_count t) /\ length (slots t') = length (slots t).
Proof.
  intros Hok HM Hc Hlt Hl Hn. destruct (so_pow _ Hok) as [k Hk].
  destruct (free_slot (slots t)) as (e & oe & He & Hoe); [lia|].
  pose proof (slot_bound _ k Hk (o_first o) (o_second o)) as Hh.
  destruct (scan_of_ends k (slots t) Hk is_free _ e Hh) as [i Hi]; [by exists oe|].
  pose proof Hi as Hi'. apply (scan_of_Some k (slots t) Hk) in Hi as (d & Hd & Hid & (x & Hx & Hxf) & Hmin); [|done].
  unfold order_place. unfold scan_of in Hi'. rewrite Hi'. cbn [mbind option_bind].
  assert (is_free o = false) as Hof by (destruct Hl as [Hl0 _]; unfold is_free; lia).
  eexists. split; [reflexivity|]. cbn [slots order_count]. split_and!.
  - by eapply place_slots_ok.
  - by eapply place_holds.
  - rewrite Hc. symmetry. by apply (used_insert _ _ x).
  - done.
  - apply length_insert.
Qed.

(** *** Marking and clearing keep every search *)

(** [g] changes no slot that a search for a live order of the result looks at. *)
Lemma slots_map ss (g : nat -> order -> order) :
  slots_ok ss -> (forall i o, ss !! i = Some o -> is_free (g i o) = is_free o) ->
  (forall i o, ss !! i = Some o -> o_second o = 0 -> is_free o = true -> o_second (g i o) = 0) ->
  (forall i j o p, ss !! i = Some o -> ss !! j = Some p -> live (g i o) ->
    names (o_first (g i o)) (o_second (g i o)) (g j p) = names (o_first o) (o_second o) p /\ key (g i o) = key o) ->
  slots_ok (imap g ss) /\ used (imap g ss) = used ss.
Proof.
  intros [[k Hk] Hr Hf] Hfree Hzero Hnames. split; [split|].
  - exists k. by rewrite length_imap.
  - intros i o' Ho' Hl. rewrite list_lookup_imap in Ho'. destruct (ss !! i) as [o|] eqn:Ho; [|done].
    cbn in Ho'. injection Ho' as <-. destruct (Hnames i i o o Ho Ho Hl) as [_ Hkey].
    assert (live o) as Hlo by (unfold live in *; by injection Hkey as <- _).
    rewrite <- (Hr i o Ho Hlo). unfold search. rewrite length_imap, Hkey. apply scan_agree; [by rewrite length_imap|].
    intros j. rewrite list_lookup_imap. destruct (ss !! j) as [p|] eqn:Hp; [|done]. cbn. f_equal. unfold seeks.
    rewrite (Hfree j p Hp). f_equal. destruct (Hnames i j o p Ho Hp Hl) as [<- Hkey']. cbn. by injection Hkey' as -> ->.
  - apply Forall_lookup. intros i o' Ho' Hz. rewrite list_lookup_imap in Ho'. destruct (ss !! i) as [o|] eqn:Ho; [|done].
    cbn in Ho'. injection Ho' as <-. pose proof (Hfree i o Ho) as E. unfold is_free in E. rewrite Hz in E. cbn in E.
    apply (Hzero i o Ho); [|by unfold is_free]. apply (Forall_lookup_1 _ _ _ _ Hf Ho). lia.
  - unfold used. clear -Hfree. revert g Hfree. induction ss as [|o ss IH]; intros g Hfree; [done|].
    cbn [imap]. rewrite !filter_cons. pose proof (Hfree 0%nat o eq_refl) as E.
    pose proof (IH (g ∘ S) (fun i o' Ho' => Hfree (S i) o' Ho')) as E2. rewrite E.
    case_decide; cbn [length]; [by f_equal|done].
Qed.

Lemma table_ok_slots t : table_ok t -> slots t <> [] -> slots_ok (slots t) /\ order_count t = used (slots t) /\
  (2 * order_count t <= length (slots t))%nat.
Proof. intros [[H _]|H] Hn; [done|exact H]. Qed.

Lemma alter_imap {A} (f : A -> A) i (xs : list A) :
  alter f i xs = imap (fun j x => if decide (j = i) then f x else x) xs.
Proof.
  apply list_eq. intros j. rewrite list_lookup_imap. destruct (decide (j = i)) as [->|Hji].
  - rewrite list_lookup_alter_eq. by destruct (xs !! i).
  - rewrite list_lookup_alter_ne by done. by destruct (xs !! j).
Qed.

Lemma report_spec t M kk i o :
  table_ok t -> holds (slots t) M -> slots t !! i = Some o -> M !! kk = Some o ->
  table_ok (report t i) /\ holds (slots (report t i)) (<[kk := set_reported o]> M).
Proof.
  intros Hok HM Hi Hkk. destruct (table_ok_slots t Hok) as (Hs & Hc & Hn); [by intros E; rewrite E in Hi|].
  pose proof (proj1 (HM kk o) Hkk) as (Hl & Hkey & _).
  assert (forall (j : nat) (p : order), is_free (if decide (j = i) then set_reported p else p) = is_free p) as G1
    by (intros; by case_decide).
  assert (forall (j : nat) (p : order), key (if decide (j = i) then set_reported p else p) = key p) as G2
    by (intros; by case_decide).
  destruct (slots_map (slots t) (fun j p => if decide (j = i) then set_reported p else p) Hs) as [H1 H2].
  - intros. apply G1.
  - intros j p _ Hz _. pose proof (G2 j p) as [= _ ->]. done.
  - intros j j' p q _ _ _. split; [|apply G2]. pose proof (G2 j p) as [= E1 E2]. pose proof (G2 j' q) as [= E3 E4].
    unfold names. by rewrite E1, E2, E3, E4.
  - unfold report. rewrite <- alter_imap in H1, H2. split.
    { right. cbn [slots order_count]. rewrite H2, length_alter. done. }
    cbn [slots]. intros kk' y. destruct (decide (kk = kk')) as [<-|Hne].
    + rewrite lookup_insert_eq. split.
      * intros [= <-]. split; [done|]. split; [done|]. apply (list_elem_of_lookup_2 _ i). by rewrite list_lookup_alter_eq, Hi.
      * intros (Hly & Hky & Hin). apply list_elem_of_lookup_1 in Hin as [j Hj]. destruct (decide (i = j)) as [<-|Hij].
        { rewrite list_lookup_alter_eq, Hi in Hj. done. }
        rewrite list_lookup_alter_ne in Hj by done. exfalso. apply Hij, (key_unique (slots t) i j o y Hs Hi Hj Hl). congruence.
    + rewrite lookup_insert_ne by done. rewrite (HM kk' y). split; intros (Hly & Hky & Hin); (split; [done|split; [done|]]);
        apply list_elem_of_lookup_1 in Hin as [j Hj]; apply (list_elem_of_lookup_2 _ j).
      * rewrite list_lookup_alter_ne; [done|]. intros <-. congruence.
      * destruct (decide (i = j)) as [<-|Hij]; [|by rewrite list_lookup_alter_ne in Hj].
        rewrite list_lookup_alter_eq, Hi in Hj. cbn in Hj. injection Hj as <-. exfalso. apply Hne. by rewrite <- Hky, <- Hkey.
Qed.

(** The orders that do not name [l]. *)
Definition without (l : Z) (M : gmap (Z * Z) order) : gmap (Z * Z) order :=
  filter (fun p => p.1.1 <> l /\ p.1.2 <> l) M.

Lemma forget_spec t M l :
  table_ok t -> holds (slots t) M -> lock l ->
  table_ok (order_forget t l) /\ holds (slots (order_forget t l)) (without l M).
Proof.
  intros Hok HM [Hl0 Hl1]. set (f := fun o => if (o_first o =? l) || (o_second o =? l)
                        then Order GONE GONE (o_first_site o) (o_second_site o) (o_reported o) else o).
  assert (forall o, live (f o) -> f o = o /\ o_first o <> l /\ o_second o <> l) as Hf.
  { intros o. unfold f. destruct (Z.eqb_spec (o_first o) l), (Z.eqb_spec (o_second o) l); cbn [orb]; by intros [_ ?]. }
  unfold order_forget. fold f. split.
  - destruct Hok as [[E1 E2]|(Hs & Hc & Hn)].
    { left. cbn [slots order_count]. by rewrite E1. }
    right. cbn [slots order_count]. rewrite length_map.
    destruct (slots_map (slots t) (fun _ => f) Hs) as [H1 H2]; cycle 3.
    { assert (imap (fun _ => f) (slots t) = map f (slots t)) as E by apply imap_const.
      rewrite E in H1, H2. by rewrite H2. }
    + intros i o Hi. pose proof (Forall_lookup_1 _ _ _ _ (so_free _ Hs) Hi) as Hz. unfold f, is_free, GONE in *. cbn beta in Hz.
      destruct (Z.eqb_spec (o_first o) l), (Z.eqb_spec (o_second o) l); cbn [orb o_first]; lia.
    + intros i o Hi Hz Hfree. unfold is_free in Hfree. unfold f. zdecide. done.
    + intros i j o p Hi Hj Hlo. destruct (Hf o Hlo) as (-> & N1 & N2). split; [|done]. unfold names, f.
      destruct Hlo as [_ Hlo]. unfold f in Hlo.
      destruct (Z.eqb_spec (o_first p) l), (Z.eqb_spec (o_second p) l); cbn [orb o_first o_second]; try done.
      all: rewrite (proj2 (Z.eqb_neq (o_first o) l)), (proj2 (Z.eqb_neq (o_second o) l)) in Hlo by done;
        cbn [orb] in Hlo; lia.
  - intros kk y. unfold without. rewrite map_lookup_filter_Some. cbn [fst snd slots]. rewrite (HM kk y). split.
    + intros ((Hly & Hky & Hin) & N1 & N2). split; [done|]. split; [done|]. apply list_elem_of_fmap. exists y. split; [|done].
      unfold f. subst kk. cbn in N1, N2. zdecide. done.
    + intros (Hly & Hky & Hin). apply list_elem_of_fmap in Hin as (x & -> & Hin). destruct (Hf x Hly) as (E & N1 & N2).
      rewrite E in *. subst kk. cbn. done.
Qed.

(** *** Growing *)

#[export] Instance order_eq_dec : EqDecision order.
Proof. solve_decision. Defined.

Definition moved (pre : list order) (M : gmap (Z * Z) order) : gmap (Z * Z) order := filter (fun p => p.2 ∈ pre) M.

Lemma live_tests o : negb (is_free o) && negb (o_first o =? GONE) = bool_decide (live o).
Proof.
  unfold is_free, live, lock, GONE. destruct (Z.eqb_spec (o_first o) 0), (Z.eqb_spec (o_first o) 1);
    by case_bool_decide as H; try tauto.
Qed.

Lemma live_used ss : (length (filter live ss) <= used ss)%nat.
Proof.
  unfold used. induction ss as [|o ss IH]; [done|]. rewrite !filter_cons. pose proof (live_tests o) as E.
  destruct (decide (live o)) as [Hl|]; cbn [length].
  - rewrite bool_decide_true in E by done. destruct (is_free o) eqn:F; [done|]. rewrite decide_True by done. cbn [length]. lia.
  - case_decide; cbn [length]; lia.
Qed.

Lemma live_filter_app pre o suf :
  live o -> (length (filter live pre) < length (filter live (pre ++ o :: suf)))%nat.
Proof. intros Hl. rewrite filter_app, filter_cons, decide_True, length_app by done. cbn [length]. lia. Qed.

Lemma moved_next pre o M :
  live o -> M !! key o = Some o -> (forall kk y, M !! kk = Some y -> key y = kk) ->
  moved (pre ++ [o]) M = <[key o := o]> (moved pre M).
Proof.
  intros Hl Ho Hu. apply map_eq. intros kk. apply option_eq. intros y. unfold moved.
  destruct (decide (key o = kk)) as [<-|Hne].
  - rewrite lookup_insert_eq, map_lookup_filter_Some, Ho. cbn. split; [by intros [[= ->] _]|].
    intros [= <-]. split; [done|]. apply elem_of_app. right. by apply list_elem_of_singleton.
  - rewrite lookup_insert_ne, !map_lookup_filter_Some by done. cbn. rewrite elem_of_app, list_elem_of_singleton.
    split; [|tauto]. intros [Hy [Hin| ->]]; [done|]. split; [done|]. exfalso. by apply Hne, Hu.
Qed.

Section Grow.
Context (old : orders) (M : gmap (Z * Z) order) (cap : nat).
Context (Hok : slots_ok (slots old)) (HM : holds (slots old) M) (Hcap : (2 * used (slots old) <= cap)%nat).

Record grown (pre : list order) (t : orders) : Prop := {
  gr_ok : slots_ok (slots t);
  gr_holds : holds (slots t) (moved pre M);
  gr_used : order_count t = used (slots t);
  gr_count : order_count t = length (filter live pre);
  gr_length : length (slots t) = cap;
}.

Lemma grow_step pre o suf t :
  slots old = pre ++ o :: suf -> live o -> grown pre t ->
  exists t', order_put_at 1 t o = Some t' /\ grown (pre ++ [o]) t'.
Proof.
  intros E Hl [G1 G2 G3 G4 G5].
  assert (slots old !! length pre = Some o) as Ho by (rewrite E; by apply list_lookup_middle).
  assert (M !! key o = Some o) as HMo by (apply HM; split_and!; [done|done|by eapply list_elem_of_lookup_2]).
  pose proof (live_used (slots old)) as Hu. rewrite E in Hu. pose proof (live_filter_app pre o suf Hl) as Ha.
  rewrite <- E in Hu, Ha.
  cbn [order_put_at]. rewrite (proj2 (Nat.ltb_ge _ _)) by lia. cbn [mbind option_bind].
  destruct (place_spec t (moved pre M) o G1 G2 G3) as (t' & Ht' & P1 & P2 & P3 & P4 & P5); [lia|done| |].
  - destruct (moved pre M !! key o) as [y|] eqn:Ey; [|done]. apply map_lookup_filter_Some in Ey as [Ey Hin].
    cbn in Hin. rewrite HMo in Ey. injection Ey as <-. apply list_elem_of_lookup_1 in Hin as [j Hj]. exfalso.
    assert (slots old !! j = Some o) as Hj' by (rewrite E; by apply lookup_app_l_Some).
    pose proof (key_unique _ _ _ _ _ Hok Hj' Ho Hl eq_refl). apply lookup_lt_Some in Hj. lia.
  - exists t'. split; [done|]. split; [done| |done| |congruence].
    + rewrite moved_next; [done|done|done|]. intros kk y Hy. by apply HM in Hy as (_ & ? & _).
    + rewrite P4, G4, filter_app, length_app, filter_cons, (decide_True _ _ Hl). cbn. lia.
Qed.

Lemma grow_loop suf pre t :
  slots old = pre ++ suf -> grown pre t ->
  exists t', fold_left (fun t o => t ← t; if negb (is_free o) && negb (o_first o =? GONE) then order_put_at 1 t o else Some t)
    suf (Some t) = Some t' /\ grown (slots old) t'.
Proof.
  revert pre t. induction suf as [|o suf IH]; intros pre t E G; cbn [fold_left].
  { rewrite app_nil_r in E. exists t. by rewrite E. }
  cbn [mbind option_bind]. rewrite live_tests. case_bool_decide as Hl.
  - destruct (grow_step pre o suf t E Hl G) as (t' & -> & G'). apply (IH (pre ++ [o])); [by rewrite <- app_assoc|done].
  - apply (IH (pre ++ [o])); [by rewrite <- app_assoc|]. destruct G as [G1 G2 G3 G4 G5].
    assert (moved (pre ++ [o]) M = moved pre M) as Em.
    { apply map_eq. intros kk. apply option_eq. intros y. unfold moved. rewrite !map_lookup_filter_Some. cbn.
      rewrite elem_of_app, list_elem_of_singleton. split; [|tauto]. intros [Hy [Hin| ->]]; [done|].
      apply HM in Hy as (Hlv & _). by destruct (Hl Hlv). }
    split; [done|by rewrite Em|done| |done]. by rewrite filter_app, filter_cons, decide_False, app_nil_r by done.
Qed.
End Grow.

Lemma slots_ok_fresh k : slots_ok (replicate (2 ^ k) no_order) /\ used (replicate (2 ^ k) no_order) = 0%nat.
Proof.
  split; [split|].
  - exists k. by rewrite length_replicate.
  - intros i o Hi [Hl _]. apply lookup_replicate in Hi as [-> _]. done.
  - by apply Forall_replicate.
  - unfold used. induction (2 ^ k)%nat as [|n IH]; [done|]. cbn [replicate]. by rewrite filter_cons.
Qed.

Lemma holds_empty_slots n : holds (replicate n no_order) ∅.
Proof.
  intros kk o. rewrite lookup_empty. split; [done|]. intros (Hl & _ & Hin).
  apply list_elem_of_lookup_1 in Hin as [i Hi]. apply lookup_replicate in Hi as [-> _]. by destruct Hl.
Qed.

Lemma moved_all ss M : holds ss M -> moved ss M = M.
Proof.
  intros HM. apply map_eq. intros kk. apply option_eq. intros y. unfold moved. rewrite map_lookup_filter_Some. cbn.
  split; [tauto|]. intros Hy. split; [done|]. by apply HM in Hy as (_ & _ & ?).
Qed.

Lemma moved_none (M : gmap (Z * Z) order) : moved [] M = ∅.
Proof.
  apply map_eq. intros kk. apply option_eq. intros y. unfold moved. rewrite map_lookup_filter_Some, lookup_empty. cbn.
  rewrite elem_of_nil. naive_solver.
Qed.

Lemma grow_spec t M :
  table_ok t -> holds (slots t) M -> (length (slots t) < (order_count t + 1) * 2)%nat ->
  exists t', orders_grow (order_put_at 1) t = Some t' /\ slots_ok (slots t') /\ holds (slots t') M /\
    order_count t' = used (slots t') /\ (2 * (order_count t' + 1) <= length (slots t'))%nat.
Proof.
  intros Hok HM Hfull. unfold orders_grow.
  set (cap := (if (length (slots t) =? 0)%nat then 64 else length (slots t) * 2)%nat).
  assert (exists k, cap = (2 ^ k)%nat /\ (2 * (order_count t + 1) <= cap)%nat) as (k & Hk & Hroom).
  { subst cap. destruct Hok as [[E1 E2]|([[k Hk] _ _] & _ & Hn)].
    - exists 6%nat. rewrite E1, E2. cbn. split; [done|lia].
    - exists (S k). rewrite Nat.pow_succ_r', <- Hk. pose proof (pow2_nonzero k).
      destruct (Nat.eqb_spec (length (slots t)) 0); lia. }
  clearbody cap. subst cap. destruct (slots_ok_fresh k) as [F1 F2].
  destruct Hok as [[E1 E2]|(Hs & Hc & Hn)].
  { rewrite E1. cbn [fold_left]. eexists. split; [reflexivity|]. cbn [slots order_count]. rewrite F2, length_replicate.
    split_and!; try done; [|lia]. rewrite E1 in HM. pose proof (moved_all [] M HM) as Em. rewrite moved_none in Em.
    rewrite <- Em. apply holds_empty_slots. }
  destruct (grow_loop t M (2 ^ k) Hs HM ltac:(lia) (slots t) [] (Orders (replicate (2 ^ k) no_order) 0) eq_refl)
    as (t' & Ht' & [G1 G2 G3 G4 G5]).
  { split; cbn [slots order_count]; [done| |by rewrite F2|done|apply length_replicate].
    rewrite moved_none. apply holds_empty_slots. }
  exists t'. rewrite moved_all in G2 by done. pose proof (live_used (slots t)). split_and!; try done. lia.
Qed.

Lemma put_spec t M o :
  table_ok t -> holds (slots t) M -> live o -> M !! key o = None ->
  exists t', order_put t o = Some t' /\ table_ok t' /\ holds (slots t') (<[key o := o]> M).
Proof.
  intros Hok HM Hl Hn.
  change (order_put t o) with (t ← (if (length (slots t) <? (order_count t + 1) * 2)%nat
    then orders_grow (order_put_at 1) t else Some t); order_place t o).
  assert (exists t1, (if (length (slots t) <? (order_count t + 1) * 2)%nat then orders_grow (order_put_at 1) t else Some t) = Some t1 /\
    slots_ok (slots t1) /\ holds (slots t1) M /\ order_count t1 = used (slots t1) /\
    (2 * (order_count t1 + 1) <= length (slots t1))%nat) as (t1 & -> & H1 & H2 & H3 & H4).
  { destruct (Nat.ltb_spec (length (slots t)) ((order_count t + 1) * 2)).
    - by apply grow_spec.
    - exists t. destruct Hok as [[E1 E2]|(Hs & Hc & _)]; [rewrite E1, E2 in *; cbn in *; lia|]. split_and!; try done. lia. }
  cbn [mbind option_bind]. destruct (place_spec t1 M o H1 H2 H3) as (t' & Ht' & P1 & P2 & P3 & P4 & P5); [lia|done|done|].
  exists t'. split; [done|]. split; [|done]. right. split_and!; try done. lia.
Qed.
