(* ===== verification/LockOrderSpec.v ===== *)
(** * LockOrderSpec: what the record of lock orders promises

    Over the finite map of LockOrderTable.v, the record of all threads refines a set
    of pairs and lists of locks held: an order is noted as a conflict exactly when it
    is new and its reverse is in the set, so each pair of locks is reported once. *)

From S2P Require Import Prelude PtrSet LockOrder LockOrderTable.

(** ** One order against the set *)

(** The set of the pairs recorded: the order [(a, l)] when [l] is taken while [a] is
    held, and whether it is noted. *)
Definition set_take_one (l : Z) (R : gset (Z * Z)) (a : Z) : gset (Z * Z) * list (Z * Z) :=
  if a =? l then (R, [])
  else ({[(a, l)]} ∪ R, if bool_decide ((l, a) ∈ R) && negb (bool_decide ((a, l) ∈ R)) then [(a, l)] else []).

Fixpoint set_take (l : Z) (R : gset (Z * Z)) (held : list Z) : gset (Z * Z) * list (Z * Z) :=
  match held with
  | [] => (R, [])
  | a :: held =>
      let '(R, notes) := set_take_one l R a in
      let '(R, rest) := set_take l R held in (R, notes ++ rest)
  end.

Definition pair_of (n : note) : Z * Z := (n_held n, n_taken n).

(** A record is marked when its reverse is recorded too. *)
Record table_rel (t : orders) (R : gset (Z * Z)) : Prop := {
  tr_ok : table_ok t;
  tr_map : exists M, holds (slots t) M /\ (forall kk, is_Some (M !! kk) <-> kk ∈ R) /\
    forall a b o, M !! (a, b) = Some o -> o_reported o = bool_decide ((b, a) ∈ R);
}.

Lemma set_add_present (R : gset (Z * Z)) kk : kk ∈ R -> {[kk]} ∪ R = R.
Proof. intros H. set_solver. Qed.

Lemma table_rel_add t' R M a l o :
  table_ok t' -> holds (slots t') (<[(a, l) := o]> M) -> a <> l -> (a, l) ∉ R ->
  (forall kk, is_Some (M !! kk) <-> kk ∈ R) ->
  o_reported o = bool_decide ((l, a) ∈ R) ->
  (forall x y p, M !! (x, y) = Some p -> o_reported p = bool_decide ((y, x) ∈ {[(a, l)]} ∪ R)) ->
  table_rel t' ({[(a, l)]} ∪ R).
Proof.
  intros Hok HM Hal Hn Hd Ho Hr. split; [done|]. exists (<[(a, l) := o]> M). split; [done|]. split.
  - intros kk. rewrite lookup_insert_is_Some, elem_of_union, elem_of_singleton, Hd.
    destruct (decide ((a, l) = kk)) as [<-|]; naive_solver.
  - intros x y p. destruct (decide ((a, l) = (x, y))) as [[= <- <-]|Hne].
    + rewrite lookup_insert_eq. intros [= <-]. rewrite Ho. apply bool_decide_ext.
      rewrite elem_of_union, elem_of_singleton. split; [by right|]. intros [[= E _]|?]; [congruence|done].
    + rewrite lookup_insert_ne by done. apply Hr.
Qed.

Lemma take_one_spec t R l site h :
  table_rel t R -> lock l -> lock (h_lock h) ->
  exists t' notes, take_one l site t h = Some (t', notes) /\
    table_rel t' (set_take_one l R (h_lock h)).1 /\ map pair_of notes = (set_take_one l R (h_lock h)).2.
Proof.
  intros [Hok (M & HM & Hd & Hr)] Hl Ha. unfold take_one, set_take_one. set (a := h_lock h) in *.
  destruct (Z.eqb_spec a l) as [Heq|Hal].
  { exists t, []. split; [done|]. split; [|done]. split; [done|]. by exists M. }
  destruct (find_spec t M l a Hok HM Hl) as (r & -> & Hrev). destruct (find_spec t M a l Hok HM Ha) as (f & -> & Hfwd).
  cbn [mbind option_bind]. destruct f as [f|].
  - destruct Hfwd as (fo & _ & Hfo). assert ((a, l) ∈ R) as Hin by (apply Hd; eauto).
    exists t, []. rewrite (set_add_present _ _ Hin), (bool_decide_true ((a, l) ∈ R)), andb_false_r by done. cbn [fst snd].
    split; [|split; [|done]; split; [done|by exists M]].
    destruct r as [r|]; [|done]. destruct Hrev as (ro & Hro & HMr). rewrite Hro, (Hr _ _ _ HMr).
    by rewrite bool_decide_true.
  - assert ((a, l) ∉ R) as Hnin by (rewrite <- Hd, Hfwd; by intros [??]).
    rewrite (bool_decide_false ((a, l) ∈ R)) by done. cbn [negb fst snd]. rewrite andb_true_r. destruct r as [r|].
    + destruct Hrev as (ro & Hro & HMr). assert ((l, a) ∈ R) as Hin by (apply Hd; eauto).
      rewrite Hro, (Hr _ _ _ HMr), bool_decide_false, bool_decide_true by done.
      destruct (report_spec t M (l, a) r ro Hok HM Hro HMr) as [R1 R2].
      set (o := Order a l (h_site h) site true).
      destruct (put_spec (report t r) _ o R1 R2 Ha) as (t' & -> & P1 & P2).
      { change (key o) with (a, l). rewrite lookup_insert_ne; [done|]. by intros [= ? ?]. }
      cbn [mbind option_bind]. eexists t', _. split; [reflexivity|]. split; [|done].
      eapply (table_rel_add t' R _ a l o); [done|exact P2|done|done| | |].
      * intros kk. rewrite lookup_insert_is_Some. rewrite <- Hd. destruct (decide ((l, a) = kk)) as [<-|]; [|naive_solver].
        split; [by rewrite HMr|by left].
      * by rewrite bool_decide_true.
      * intros x y p. destruct (decide ((l, a) = (x, y))) as [[= <- <-]|Hne].
        -- rewrite lookup_insert_eq. intros [= <-]. cbn. symmetry. apply bool_decide_eq_true. set_solver.
        -- rewrite lookup_insert_ne by done. intros Hp. rewrite (Hr _ _ _ Hp). apply bool_decide_ext. set_solver.
    + assert ((l, a) ∉ R) as Hnr by (rewrite <- Hd, Hrev; by intros [??]). rewrite bool_decide_false by done.
      set (o := Order a l (h_site h) site false).
      destruct (put_spec t M o Hok HM Ha Hfwd) as (t' & -> & P1 & P2).
      cbn [mbind option_bind]. eexists t', _. split; [reflexivity|]. split; [|done].
      eapply (table_rel_add t' R _ a l o); [done|exact P2|done|done|done| |].
      * by rewrite bool_decide_false.
      * intros x y p Hp. rewrite (Hr _ _ _ Hp). apply bool_decide_ext.
        assert ((x, y) ∈ R) by (apply Hd; eauto). set_solver.
Qed.

Lemma take_each_spec t R l site hs :
  table_rel t R -> lock l -> Forall (fun h => lock (h_lock h)) hs ->
  exists t' notes, take_each l site t hs = Some (t', notes) /\
    table_rel t' (set_take l R (map h_lock hs)).1 /\ map pair_of notes = (set_take l R (map h_lock hs)).2.
Proof.
  intros Ht Hl Hhs. revert t R Ht. induction Hhs as [|h hs Hh _ IH]; intros t R Ht; cbn [take_each set_take map].
  { by exists t, []. }
  destruct (take_one_spec t R l site h Ht Hl Hh) as (t1 & n1 & -> & H1 & H2). cbn [mbind option_bind].
  destruct (set_take_one l R (h_lock h)) as [Q1 s1]. cbn [fst snd] in *.
  destruct (IH t1 Q1 H1) as (t2 & n2 & -> & H3 & H4). cbn [mbind option_bind].
  destruct (set_take l Q1 (map h_lock hs)) as [Q2 s2]. cbn [fst snd] in *.
  exists t2, (n1 ++ n2). split; [done|]. split; [done|]. by rewrite map_app, H2, H4.
Qed.

(** What is left of the set when a lock is forgotten. *)
Definition set_forget (l : Z) (R : gset (Z * Z)) : gset (Z * Z) := filter (fun p => p.1 <> l /\ p.2 <> l) R.

Lemma forget_rel t R l : table_rel t R -> lock l -> table_rel (order_forget t l) (set_forget l R).
Proof.
  intros [Hok (M & HM & Hd & Hr)] Hl. destruct (forget_spec t M l Hok HM Hl) as [H1 H2]. split; [done|].
  exists (without l M). split; [done|]. unfold without, set_forget. split.
  - intros kk. rewrite elem_of_filter, <- Hd. unfold is_Some. setoid_rewrite map_lookup_filter_Some. cbn. naive_solver.
  - intros a b o. rewrite map_lookup_filter_Some. cbn. intros (Ho & N1 & N2). rewrite (Hr _ _ _ Ho). apply bool_decide_ext.
    rewrite elem_of_filter. cbn. naive_solver.
Qed.

(** ** The stacks *)

Record stack_ok (s : stack) : Prop := {
  st_length : length (held_locks s) = HELD_MAX;
  st_known : Forall (fun h => lock (h_lock h)) (known s);
}.

Lemma known_length s : length (held_locks s) = HELD_MAX -> length (known s) = Nat.min (held_count s) HELD_MAX.
Proof. intros H. unfold known. rewrite length_take, H. lia. Qed.

Lemma known_empty : known empty_stack = [].
Proof. done. Qed.

(** The lock taken comes last, if the array has a place for it. *)
Lemma known_push s l site :
  length (held_locks s) = HELD_MAX ->
  known (push s l site) = if (held_count s <? HELD_MAX)%nat then known s ++ [Held l site] else known s.
Proof.
  intros Hl. unfold push, known. cbn [held_locks held_count]. destruct (Nat.ltb_spec (held_count s) HELD_MAX) as [H|H].
  - rewrite !Nat.min_l by lia. rewrite (take_S_r _ _ (Held l site)) by (apply list_lookup_insert_eq; lia).
    f_equal. by apply take_insert_ge.
  - by rewrite !Nat.min_r by lia.
Qed.

(** A lock given leaves the stack where its topmost entry is. *)
Fixpoint drop_last (l : Z) (hs : list held) : option (list held) :=
  match hs with
  | [] => None
  | h :: hs =>
      match drop_last l hs with
      | Some hs => Some (h :: hs)
      | None => if h_lock h =? l then Some hs else None
      end
  end.

Lemma topmost_spec locks l i :
  (i <= length locks)%nat ->
  match topmost locks l i with
  | Some j => (j < i)%nat /\ (exists h, locks !! j = Some h /\ h_lock h = l) /\
      forall k h, (j < k < i)%nat -> locks !! k = Some h -> h_lock h <> l
  | None => forall k h, (k < i)%nat -> locks !! k = Some h -> h_lock h <> l
  end.
Proof.
  induction i as [|i IH]; intros Hi; cbn [topmost]; [lia|].
  destruct (lookup_lt_is_Some_2 locks i ltac:(lia)) as [h Hh]. rewrite Hh. destruct (Z.eqb_spec (h_lock h) l) as [E|E].
  - split; [lia|]. split; [by exists h|]. lia.
  - specialize (IH ltac:(lia)). destruct (topmost locks l i) as [j|].
    + destruct IH as (H1 & H2 & H3). split; [lia|]. split; [done|]. intros k h' Hk Hh'.
      destruct (decide (k = i)) as [->|]; [congruence|]. apply (H3 k); [lia|done].
    + intros k h' Hk Hh'. destruct (decide (k = i)) as [->|]; [congruence|]. apply (IH k); [lia|done].
Qed.

Lemma known_give s l :
  stack_ok s ->
  stack_ok (order_give s l) /\ held_count (order_give s l) = pred (held_count s).
Proof.
  intros [Hl Hk]. unfold order_give. destruct (Nat.eqb_spec (held_count s) 0) as [E|E].
  { rewrite E. by split. }
  destruct (Nat.ltb_spec HELD_MAX (held_count s)) as [Hd|Hd]; cbn [held_count]; (split; [split; cbn [held_locks]|lia]).
  - done.
  - unfold known in *. cbn [held_locks held_count]. by rewrite !Nat.min_r in * by lia.
  - pose proof (topmost_spec (held_locks s) l (held_count s) ltac:(lia)) as H. destruct (topmost _ _ _) as [i|]; [|done].
    rewrite !length_app, !length_take, !length_drop. lia.
  - unfold known in *. cbn [held_locks held_count]. rewrite !Nat.min_l in * by lia.
    pose proof (topmost_spec (held_locks s) l (held_count s) ltac:(lia)) as H. destruct (topmost _ _ _) as [i|].
    + rewrite app_assoc, take_app_le by (rewrite length_app, !length_take, length_drop; lia).
      apply Forall_take, Forall_app. split.
      * apply Forall_lookup. intros j h Hj. apply lookup_take_Some in Hj as [Hj Hlt].
        apply (Forall_lookup_1 _ _ j _ Hk). apply lookup_take_Some. split; [done|lia].
      * apply Forall_lookup. intros j h Hj. apply lookup_take_Some in Hj as [Hj Hlt]. rewrite lookup_drop in Hj.
        apply (Forall_lookup_1 _ _ (S i + j) _ Hk). apply lookup_take_Some. split; [done|lia].
    + apply Forall_lookup. intros j h Hj. apply lookup_take_Some in Hj as [Hj Hlt].
      apply (Forall_lookup_1 _ _ j _ Hk). apply lookup_take_Some. split; [done|lia].
Qed.

Lemma drop_last_none l hs : Forall (fun h => h_lock h <> l) hs -> drop_last l hs = None.
Proof. induction 1 as [|h hs Hh _ IH]; cbn [drop_last]; [done|]. rewrite IH. by rewrite (proj2 (Z.eqb_neq _ _) Hh). Qed.

Lemma drop_last_middle l pre h post :
  h_lock h = l -> Forall (fun h => h_lock h <> l) post -> drop_last l (pre ++ h :: post) = Some (pre ++ post).
Proof.
  intros Hh Hp. induction pre as [|x pre IH]; cbn [app drop_last]; [|by rewrite IH].
  rewrite drop_last_none by done. by rewrite (proj2 (Z.eqb_eq _ _) Hh).
Qed.

Lemma drop_last_some l hs : l ∈ map h_lock hs -> is_Some (drop_last l hs).
Proof.
  induction hs as [|h hs IH]; [by intros ?%elem_of_nil|]. cbn [map drop_last]. intros [->|Hin]%elem_of_cons.
  - rewrite (proj2 (Z.eqb_eq _ _) eq_refl). by destruct (drop_last _ _).
  - destruct (IH Hin) as [x ->]. done.
Qed.

(** The shift of the array takes the topmost entry of the lock out of the stack. *)
Lemma known_give_exact s l hs :
  length (held_locks s) = HELD_MAX -> (held_count s <= HELD_MAX)%nat -> drop_last l (known s) = Some hs ->
  known (order_give s l) = hs.
Proof.
  intros Hl Hn Hd. unfold order_give. destruct (Nat.eqb_spec (held_count s) 0) as [E|E].
  { unfold known in Hd. rewrite E in Hd. done. }
  rewrite (proj2 (Nat.ltb_ge _ _) Hn). set (n := held_count s) in *. set (L := held_locks s) in *.
  assert (known s = take n L) as Ek by (unfold known; by rewrite Nat.min_l by done). rewrite Ek in Hd.
  pose proof (topmost_spec L l n ltac:(lia)) as H. destruct (topmost L l n) as [i|].
  - destruct H as (H1 & (h & Hh & Hhl) & H3).
    assert (take n L = take i L ++ h :: take (n - 1 - i) (drop (S i) L)) as Esplit.
    { replace n with (i + S (n - 1 - i))%nat at 1 by lia. rewrite <- take_take_drop. f_equal.
      rewrite (drop_S _ h) by done. cbn [firstn]. done. }
    rewrite Esplit, drop_last_middle in Hd; [|done|].
    + injection Hd as <-. unfold known. cbn [held_locks held_count]. rewrite Nat.min_l by lia.
      rewrite app_assoc, take_app_length'; [done|]. rewrite length_app, !length_take, length_drop. lia.
    + apply Forall_lookup. intros j x Hj. apply lookup_take_Some in Hj as [Hj Hlt]. rewrite lookup_drop in Hj.
      apply (H3 (S i + j)%nat); [lia|done].
  - rewrite drop_last_none in Hd; [done|]. apply Forall_lookup. intros j x Hj. apply lookup_take_Some in Hj as [Hj Hlt].
    by apply (H j).
Qed.

(** ** Runs of all threads *)

Inductive event :=
| Take (thread : nat) (lock : Z) (site : list Z)
| Give (thread : nat) (lock : Z)
| Forget (lock : Z).

Record record := Record_ { r_orders : orders; r_stacks : gmap nat stack }.

Definition stack_of (stacks : gmap nat stack) (th : nat) : stack := default empty_stack (stacks !! th).

(** A call of [order_take], [order_give] or [order_forget] by a thread. *)
Definition record_step (r : record) (e : event) : option (record * list note) :=
  match e with
  | Take th l site =>
      '(t, s, notes) ← order_take (r_orders r) (stack_of (r_stacks r) th) l site;
      Some (Record_ t (<[th := s]> (r_stacks r)), notes)
  | Give th l => Some (Record_ (r_orders r) (<[th := order_give (stack_of (r_stacks r) th) l]> (r_stacks r)), [])
  | Forget l => Some (Record_ (order_forget (r_orders r) l) (r_stacks r), [])
  end.

Fixpoint record_run (r : record) (es : list event) : option (record * list note) :=
  match es with
  | [] => Some (r, [])
  | e :: es =>
      '(r, notes) ← record_step r e;
      '(r, rest) ← record_run r es;
      Some (r, notes ++ rest)
  end.

Definition no_record : record := Record_ no_orders ∅.

(** *** The same over a set and plain lists *)

Notation holding := (gmap nat (list held)).

Definition held_by (H : holding) (th : nat) : list held := default [] (H !! th).

(** The locks that the threads hold after a call. *)
Definition hold_step (H : holding) (e : event) : holding :=
  match e with
  | Take th l site => <[th := held_by H th ++ [Held l site]]> H
  | Give th l => <[th := default [] (drop_last l (held_by H th))]> H
  | Forget _ => H
  end.

Definition set_step (R : gset (Z * Z)) (H : holding) (e : event) : gset (Z * Z) * list (Z * Z) :=
  match e with
  | Take th l site => set_take l R (map h_lock (held_by H th))
  | Give th l => (R, [])
  | Forget l => (set_forget l R, [])
  end.

Fixpoint set_run (R : gset (Z * Z)) (H : holding) (es : list event) : gset (Z * Z) * list (Z * Z) :=
  match es with
  | [] => (R, [])
  | e :: es =>
      let '(R, notes) := set_step R H e in
      let '(R, rest) := set_run R (hold_step H e) es in (R, notes ++ rest)
  end.

(** What the calls keep: addresses are above [GONE], a thread gives a lock it holds
    and holds no more than [HELD_MAX]. *)
Definition allowed (H : holding) (e : event) : bool :=
  match e with
  | Take th l _ => bool_decide (lock l) && (length (held_by H th) <? HELD_MAX)%nat
  | Give th l => bool_decide (l ∈ map h_lock (held_by H th))
  | Forget l => bool_decide (lock l)
  end.

Fixpoint allowed_run (H : holding) (es : list event) : bool :=
  match es with
  | [] => true
  | e :: es => allowed H e && allowed_run (hold_step H e) es
  end.

(** *** The refinement *)

Record stack_rel (s : stack) (hs : list held) : Prop := {
  sr_ok : stack_ok s;
  sr_known : known s = hs;
  sr_count : held_count s = length hs;
  sr_max : (length hs <= HELD_MAX)%nat;
}.

Record record_rel (r : record) (R : gset (Z * Z)) (H : holding) : Prop := {
  rr_table : table_rel (r_orders r) R;
  rr_stacks : forall th, stack_rel (stack_of (r_stacks r) th) (held_by H th);
}.

Lemma orders_rel_empty : table_rel no_orders ∅.
Proof.
  split; [by left|]. exists ∅. split; [|split].
  - intros kk o. rewrite lookup_empty. split; [done|]. intros (_ & _ & Hin). by apply elem_of_nil in Hin.
  - intros kk. rewrite lookup_empty. split; [by intros [??]|set_solver].
  - intros a b o. by rewrite lookup_empty.
Qed.

Lemma record_rel_start : record_rel no_record ∅ ∅.
Proof.
  split; [apply orders_rel_empty|]. intros th. unfold stack_of, held_by, no_record. cbn [r_stacks]. rewrite !lookup_empty.
  cbn [default from_option]. split; [|done|done|apply Nat.le_0_l].
  split; [done|]. replace (known empty_stack) with (@nil held) by done. by apply Forall_nil.
Qed.

Lemma stack_rel_push s hs l site :
  stack_rel s hs -> lock l -> (length hs < HELD_MAX)%nat -> stack_rel (push s l site) (hs ++ [Held l site]).
Proof.
  intros [[Hl Hk] <- Hc Hm] Hlock Hlt. rewrite <- Hc in Hlt.
  assert (known (push s l site) = known s ++ [Held l site]) as E.
  { rewrite known_push by done. by rewrite (proj2 (Nat.ltb_lt _ _) Hlt). }
  split; [split|exact E| |].
  - unfold push. cbn [held_locks]. destruct (_ <? _)%nat; [by rewrite length_insert|done].
  - rewrite E. apply Forall_app. split; [done|]. by apply Forall_singleton.
  - unfold push. cbn [held_count]. rewrite length_app. cbn. lia.
  - rewrite length_app. cbn. lia.
Qed.

Lemma drop_last_length l hs hs' : drop_last l hs = Some hs' -> length hs = S (length hs').
Proof.
  revert hs'. induction hs as [|h hs IH]; intros hs'; cbn [drop_last]; [done|].
  destruct (drop_last l hs) as [x|].
  - intros [= <-]. cbn. by rewrite (IH x eq_refl).
  - destruct (h_lock h =? l); [|done]. by intros [= <-].
Qed.

Lemma stack_rel_give s hs l :
  stack_rel s hs -> l ∈ map h_lock hs -> stack_rel (order_give s l) (default [] (drop_last l hs)).
Proof.
  intros [Hok <- Hc Hm] Hin. destruct (drop_last_some l _ Hin) as [hs' Hd]. rewrite Hd. cbn.
  pose proof (drop_last_length _ _ _ Hd) as El. destruct (known_give s l Hok) as [Hok' Hcount].
  split; [done| |lia|lia]. apply known_give_exact; [apply Hok|lia|done].
Qed.

Lemma stack_of_insert stacks th s th' : stack_of (<[th := s]> stacks) th' = if decide (th = th') then s else stack_of stacks th'.
Proof. unfold stack_of. rewrite lookup_insert. by case_decide. Qed.

Lemma held_by_insert H th hs th' : held_by (<[th := hs]> H) th' = if decide (th = th') then hs else held_by H th'.
Proof. unfold held_by. rewrite lookup_insert. by case_decide. Qed.

Lemma step_refines r R H e :
  record_rel r R H -> allowed H e = true ->
  exists r' notes, record_step r e = Some (r', notes) /\
    record_rel r' (set_step R H e).1 (hold_step H e) /\ map pair_of notes = (set_step R H e).2.
Proof.
  intros [Ht Hs] Ha. destruct e as [th l site|th l|l]; cbn [record_step set_step hold_step allowed] in *.
  - apply andb_true_iff in Ha as [Hl%bool_decide_eq_true Hlt%Nat.ltb_lt]. destruct (Hs th) as [[Hlen Hk] Hkn Hc Hm].
    unfold order_take. destruct (take_each_spec _ R l site (known (stack_of (r_stacks r) th)) Ht Hl Hk) as (t' & ns & -> & H1 & H2).
    cbn [mbind option_bind]. rewrite Hkn in H1, H2.
    eexists _, ns. split; [reflexivity|]. split; [|done]. split; [done|]. cbn [r_stacks].
    intros th'. rewrite stack_of_insert, held_by_insert. case_decide; [|done]. by apply stack_rel_push.
  - apply bool_decide_eq_true in Ha. eexists _, []. split; [reflexivity|]. split; [|done]. split; [done|]. cbn [r_stacks fst snd].
    intros th'. rewrite stack_of_insert, held_by_insert. case_decide; [|done]. by apply stack_rel_give.
  - apply bool_decide_eq_true in Ha. eexists _, []. split; [reflexivity|]. split; [|done]. split; [by apply forget_rel|done].
Qed.

Lemma run_refines es r R H :
  record_rel r R H -> allowed_run H es = true ->
  exists r' notes, record_run r es = Some (r', notes) /\
    record_rel r' (set_run R H es).1 (foldl hold_step H es) /\ map pair_of notes = (set_run R H es).2.
Proof.
  revert r R H. induction es as [|e es IH]; intros r R H Hr Ha; cbn [record_run set_run allowed_run] in *.
  { by exists r, []. }
  apply andb_true_iff in Ha as [He Ha]. destruct (step_refines r R H e Hr He) as (r1 & n1 & -> & H1 & H2).
  destruct (set_step R H e) as [R1 s1]. cbn [fst snd mbind option_bind] in *.
  destruct (IH r1 R1 _ H1 Ha) as (r2 & n2 & -> & H3 & H4).
  destruct (set_run R1 _ es) as [R2 s2]. cbn [fst snd mbind option_bind] in *.
  exists r2, (n1 ++ n2). split; [done|]. split; [done|]. by rewrite map_app, H2, H4.
Qed.

Lemma run_refines_start es :
  allowed_run ∅ es = true ->
  exists r notes, record_run no_record es = Some (r, notes) /\
    record_rel r (set_run ∅ ∅ es).1 (foldl hold_step ∅ es) /\ map pair_of notes = (set_run ∅ ∅ es).2.
Proof. apply run_refines, record_rel_start. Qed.

Lemma table_rel_find t R a b :
  table_rel t R -> lock a -> exists i, order_find t a b = Some i /\ (is_Some i <-> (a, b) ∈ R).
Proof.
  intros [Hok (M & HM & Hd & _)] Ha. destruct (find_spec t M a b Hok HM Ha) as (i & -> & Hi). exists i. split; [done|].
  rewrite <- Hd. destruct i as [i|].
  - destruct Hi as (o & _ & ->). by split; eauto.
  - rewrite Hi. by split; intros [??].
Qed.

Lemma find_held s hs l : known s = hs -> is_Some (held_already s l) <-> l ∈ map h_lock hs.
Proof.
  intros <-. unfold held_already. induction (known s) as [|h hs IH]; cbn [List.find map].
  - split; [by intros [??]|by intros ?%elem_of_nil].
  - rewrite elem_of_cons. destruct (Z.eqb_spec (h_lock h) l) as [<-|E]; [by split; [left|eauto]|]. naive_solver.
Qed.


(** ** Each pair once *)

(** Some thread takes [b] while it holds [a]. *)
Fixpoint taken_over (a b : Z) (H : holding) (es : list event) : bool :=
  match es with
  | [] => false
  | e :: es =>
      match e with
      | Take th l _ => (l =? b) && bool_decide (a ∈ map h_lock (held_by H th))
      | _ => false
      end || taken_over a b (hold_step H e) es
  end.

Fixpoint forgets (l : Z) (es : list event) : bool :=
  match es with
  | [] => false
  | Forget l' :: es => (l' =? l) || forgets l es
  | _ :: es => forgets l es
  end.

Definition between (a b : Z) (p : Z * Z) : bool := bool_decide (p = (a, b)) || bool_decide (p = (b, a)).

Definition both (a b : Z) (R : gset (Z * Z)) : nat :=
  if bool_decide ((a, b) ∈ R) && bool_decide ((b, a) ∈ R) then 1 else 0.

Section Once.
Context (a b : Z) (Hab : a <> b).

Definition count_between (notes : list (Z * Z)) : nat := length (List.filter (between a b) notes).

Lemma count_between_app ns ns' : count_between (ns ++ ns') = (count_between ns + count_between ns')%nat.
Proof. unfold count_between. by rewrite List.filter_app, length_app. Qed.

Lemma once_take_one l R x :
  (count_between (set_take_one l R x).2 + both a b R = both a b (set_take_one l R x).1)%nat.
Proof.
  unfold set_take_one, both, count_between. destruct (Z.eqb_spec x l) as [->|Hxl]; [done|]. cbn [fst snd].
  repeat case_bool_decide; cbn [andb negb List.filter length]; try lia;
    unfold between; repeat case_bool_decide; cbn [orb length]; simplify_eq; try lia; set_solver.
Qed.

Lemma once_take l held R :
  (count_between (set_take l R held).2 + both a b R = both a b (set_take l R held).1)%nat.
Proof.
  revert R. induction held as [|x held IH]; intros R; cbn [set_take]; [done|].
  pose proof (once_take_one l R x) as H1. destruct (set_take_one l R x) as [R1 n1]. specialize (IH R1).
  destruct (set_take l R1 held) as [R2 n2]. cbn [fst snd] in *. rewrite count_between_app. lia.
Qed.

Lemma both_forget l R : l <> a -> l <> b -> both a b (set_forget l R) = both a b R.
Proof.
  intros Ha Hb. unfold both, set_forget.
  by rewrite !(bool_decide_ext (_ ∈ filter _ R) (_ ∈ R)) by (rewrite elem_of_filter; cbn; naive_solver).
Qed.

Lemma forgets_not x e es : forgets x (e :: es) = false -> forgets x es = false /\ forall l, e = Forget l -> l <> x.
Proof. destruct e; cbn; [done..|]. intros [H1%Z.eqb_neq H2]%orb_false_iff. split; [done|]. by intros ? [= <-]. Qed.

Lemma once_run es R H :
  forgets a es = false -> forgets b es = false ->
  (count_between (set_run R H es).2 + both a b R = both a b (set_run R H es).1)%nat.
Proof.
  revert R H. induction es as [|e es IH]; intros R H; [done|].
  intros [Fa Fa']%forgets_not [Fb Fb']%forgets_not. cbn [set_run].
  assert (count_between (set_step R H e).2 + both a b R = both a b (set_step R H e).1)%nat as H1.
  { destruct e as [th l site|th l|l]; cbn [set_step]; [apply once_take|done|]. cbn [fst snd].
    by rewrite both_forget by auto. }
  destruct (set_step R H e) as [R1 n1]. specialize (IH R1 (hold_step H e) Fa Fb).
  destruct (set_run R1 _ es) as [R2 n2]. cbn [fst snd] in *. rewrite count_between_app. lia.
Qed.

Lemma take_pairs l R held p : p ∈ (set_take l R held).1 <-> p ∈ R \/ (p.2 = l /\ p.1 <> l /\ p.1 ∈ held).
Proof.
  revert R. induction held as [|x held IH]; intros R; cbn [set_take].
  - cbn. rewrite elem_of_nil. tauto.
  - assert (p ∈ (set_take_one l R x).1 <-> p ∈ R \/ (p.2 = l /\ p.1 <> l /\ p.1 = x)) as H1.
    { unfold set_take_one. destruct p as [p1 p2]. destruct (Z.eqb_spec x l); cbn [fst snd]; [naive_solver|].
      rewrite elem_of_union, elem_of_singleton. naive_solver. }
    destruct (set_take_one l R x) as [R1 n1]. specialize (IH R1). destruct (set_take l R1 held) as [R2 n2].
    cbn [fst] in *. rewrite IH, H1, elem_of_cons. tauto.
Qed.

Lemma pairs_run es R H :
  forgets a es = false -> forgets b es = false ->
  (a, b) ∈ (set_run R H es).1 <-> (a, b) ∈ R \/ taken_over a b H es = true.
Proof.
  revert R H. induction es as [|e es IH]; intros R H; [cbn; naive_solver|].
  intros [Fa Fa']%forgets_not [Fb Fb']%forgets_not. cbn [set_run taken_over].
  specialize (IH (set_step R H e).1 (hold_step H e) Fa Fb).
  destruct (set_step R H e) as [R1 n1] eqn:E. cbn [fst] in IH.
  destruct (set_run R1 _ es) as [R2 n2]. cbn [fst snd] in *.
  rewrite IH, orb_true_iff. change R1 with (R1, n1).1. rewrite <- E.
  destruct e as [th l site|th l|l]; cbn [set_step].
  - rewrite take_pairs. cbn [fst snd]. rewrite andb_true_iff, Z.eqb_eq, bool_decide_eq_true. naive_solver.
  - cbn [fst]. naive_solver.
  - cbn [fst]. unfold set_forget. rewrite elem_of_filter. cbn [fst snd]. naive_solver.
Qed.
End Once.

Lemma pair_recorded a b es :
  a <> b -> forgets a es = false -> forgets b es = false ->
  bool_decide ((a, b) ∈ (set_run ∅ ∅ es).1) = taken_over a b ∅ es.
Proof.
  intros Hab Ha Hb. apply eq_true_iff_eq. rewrite bool_decide_eq_true, pairs_run by done. rewrite elem_of_empty. split; [by intros [[]|]|by right].
Qed.

Lemma count_notes a b notes :
  length (List.filter (fun n => between a b (pair_of n)) notes) = count_between a b (map pair_of notes).
Proof.
  unfold count_between. induction notes as [|n notes IH]; cbn [map List.filter]; [done|].
  destruct (between a b (pair_of n)); cbn [length]; by rewrite IH.
Qed.


(** Two threads take the locks at 100 and 200 in opposite orders, twice. *)
Definition opposite : list event :=
  [Take 1 100 [1]; Take 1 200 [2]; Give 1 200; Give 1 100;
   Take 2 200 [3]; Take 2 100 [4]; Give 2 100; Give 2 200;
   Take 1 100 [1]; Take 1 200 [2]].


