(* ===== verification/Token.v ===== *)
(** * Token: the token kinds, their spellings and the records of a token

    Models src/antic/lexer.h and the tables of src/antic/lexer.c. *)

From S2P Require Import Prelude.

(** ** The kinds, in the order of the enum *)

Inductive token_kind : Set :=
  | TOKEN_EOF | TOKEN_ERROR | TOKEN_IDENT | TOKEN_INT | TOKEN_FLOAT | TOKEN_CHAR | TOKEN_STRING
  | TOKEN_BYTES | TOKEN_FORMAT | TOKEN_DOC | TOKEN_MODULE_DOC | TOKEN_NOTE | TOKEN_MODULE_NOTE
  | TOKEN_AS | TOKEN_BREAK | TOKEN_CONST | TOKEN_CONTINUE | TOKEN_DO | TOKEN_ELSE
  | TOKEN_EXPORT | TOKEN_EXTERN | TOKEN_FN | TOKEN_IF | TOKEN_IMPORT | TOKEN_LET | TOKEN_PUB
  | TOKEN_RETURN | TOKEN_STRUCT | TOKEN_WHILE | TOKEN_UNION | TOKEN_TRUE | TOKEN_FALSE
  | TOKEN_NONE | TOKEN_ALLOC | TOKEN_FREE | TOKEN_SIZE_OF | TOKEN_BOOL_TYPE | TOKEN_BYTE_TYPE
  | TOKEN_CHAR_TYPE | TOKEN_F16 | TOKEN_F32 | TOKEN_F64 | TOKEN_FLOAT_TYPE | TOKEN_I8
  | TOKEN_I16 | TOKEN_I32 | TOKEN_I64 | TOKEN_INT_TYPE | TOKEN_STR_TYPE | TOKEN_U8 | TOKEN_U16
  | TOKEN_U32 | TOKEN_U64 | TOKEN_UINT_TYPE | TOKEN_C_CHAR | TOKEN_C_DOUBLE | TOKEN_C_FLOAT
  | TOKEN_C_INT | TOKEN_C_LONGLONG | TOKEN_C_SHORT | TOKEN_C_SIZE_T | TOKEN_C_UCHAR
  | TOKEN_C_UINT | TOKEN_C_ULONGLONG | TOKEN_C_USHORT | TOKEN_C_LONG | TOKEN_C_ULONG
  | TOKEN_C_WCHAR | TOKEN_WORKER | TOKEN_PARALLEL | TOKEN_SELF | TOKEN_ABSTRACT
  | TOKEN_CONCRETE | TOKEN_ENUM | TOKEN_USE | TOKEN_INHERITS | TOKEN_CLASS | TOKEN_SUPER
  | TOKEN_IS | TOKEN_DUP | TOKEN_DELETE | TOKEN_DESTROY | TOKEN_STATIC | TOKEN_ASSERT
  | TOKEN_SWITCH | TOKEN_FOR | TOKEN_DEFER | TOKEN_IMPLEMENTS | TOKEN_SINGLETON
  | TOKEN_INTERNAL | TOKEN_PROTECTED | TOKEN_CATCH | TOKEN_TRY | TOKEN_YIELD | TOKEN_TESTS
  | TOKEN_FIXTURES | TOKEN_FAIL | TOKEN_UNDO | TOKEN_HERE | TOKEN_FALLTHROUGH | TOKEN_VARIANT
  | TOKEN_SYNC | TOKEN_CHAN | TOKEN_SEND | TOKEN_RECV | TOKEN_SELECT | TOKEN_PROVIDES
  | TOKEN_RESERVED | TOKEN_LPAREN | TOKEN_RPAREN | TOKEN_LBRACE | TOKEN_RBRACE | TOKEN_LBRACKET
  | TOKEN_RBRACKET | TOKEN_COMMA | TOKEN_SEMICOLON | TOKEN_COLON | TOKEN_COLON_COLON
  | TOKEN_DOT | TOKEN_DOT_DOT | TOKEN_ELLIPSIS | TOKEN_ARROW | TOKEN_FAT_ARROW | TOKEN_PLUS
  | TOKEN_MINUS | TOKEN_STAR | TOKEN_SLASH | TOKEN_PERCENT | TOKEN_AMP | TOKEN_PIPE
  | TOKEN_CARET | TOKEN_TILDE | TOKEN_BANG | TOKEN_SHL | TOKEN_SHR | TOKEN_AND_AND
  | TOKEN_OR_OR | TOKEN_EQ | TOKEN_NE | TOKEN_LT | TOKEN_LE | TOKEN_GT | TOKEN_GE
  | TOKEN_ASSIGN | TOKEN_PLUS_ASSIGN | TOKEN_MINUS_ASSIGN | TOKEN_STAR_ASSIGN
  | TOKEN_SLASH_ASSIGN | TOKEN_PERCENT_ASSIGN | TOKEN_AMP_ASSIGN | TOKEN_PIPE_ASSIGN
  | TOKEN_CARET_ASSIGN | TOKEN_SHL_ASSIGN | TOKEN_SHR_ASSIGN | TOKEN_QUESTION
  | TOKEN_QUESTION_STAR | TOKEN_ATOMIC | TOKEN_DISPATCH | TOKEN_JOIN | TOKEN_JOIN_ALL
  | TOKEN_QUESTION_QUESTION | TOKEN_QUESTION_DOT | TOKEN_PLUS_WRAP | TOKEN_MINUS_WRAP
  | TOKEN_STAR_WRAP | TOKEN_SHL_WRAP | TOKEN_PLUS_SAT | TOKEN_MINUS_SAT | TOKEN_STAR_SAT
  | TOKEN_PLUS_WRAP_ASSIGN | TOKEN_MINUS_WRAP_ASSIGN | TOKEN_STAR_WRAP_ASSIGN
  | TOKEN_SHL_WRAP_ASSIGN | TOKEN_PLUS_SAT_ASSIGN | TOKEN_MINUS_SAT_ASSIGN
  | TOKEN_STAR_SAT_ASSIGN | TOKEN_MUL_HIGH | TOKEN_PATTERN | TOKEN_CONSTRAINT | TOKEN_TYPE.

(** Every kind, at the position of its value in the enum. *)
Definition all_kinds : list token_kind :=
  [TOKEN_EOF; TOKEN_ERROR; TOKEN_IDENT; TOKEN_INT; TOKEN_FLOAT; TOKEN_CHAR; TOKEN_STRING;
  TOKEN_BYTES; TOKEN_FORMAT; TOKEN_DOC; TOKEN_MODULE_DOC; TOKEN_NOTE; TOKEN_MODULE_NOTE;
  TOKEN_AS; TOKEN_BREAK; TOKEN_CONST; TOKEN_CONTINUE; TOKEN_DO; TOKEN_ELSE; TOKEN_EXPORT;
  TOKEN_EXTERN; TOKEN_FN; TOKEN_IF; TOKEN_IMPORT; TOKEN_LET; TOKEN_PUB; TOKEN_RETURN;
  TOKEN_STRUCT; TOKEN_WHILE; TOKEN_UNION; TOKEN_TRUE; TOKEN_FALSE; TOKEN_NONE; TOKEN_ALLOC;
  TOKEN_FREE; TOKEN_SIZE_OF; TOKEN_BOOL_TYPE; TOKEN_BYTE_TYPE; TOKEN_CHAR_TYPE; TOKEN_F16;
  TOKEN_F32; TOKEN_F64; TOKEN_FLOAT_TYPE; TOKEN_I8; TOKEN_I16; TOKEN_I32; TOKEN_I64;
  TOKEN_INT_TYPE; TOKEN_STR_TYPE; TOKEN_U8; TOKEN_U16; TOKEN_U32; TOKEN_U64; TOKEN_UINT_TYPE;
  TOKEN_C_CHAR; TOKEN_C_DOUBLE; TOKEN_C_FLOAT; TOKEN_C_INT; TOKEN_C_LONGLONG; TOKEN_C_SHORT;
  TOKEN_C_SIZE_T; TOKEN_C_UCHAR; TOKEN_C_UINT; TOKEN_C_ULONGLONG; TOKEN_C_USHORT; TOKEN_C_LONG;
  TOKEN_C_ULONG; TOKEN_C_WCHAR; TOKEN_WORKER; TOKEN_PARALLEL; TOKEN_SELF; TOKEN_ABSTRACT;
  TOKEN_CONCRETE; TOKEN_ENUM; TOKEN_USE; TOKEN_INHERITS; TOKEN_CLASS; TOKEN_SUPER; TOKEN_IS;
  TOKEN_DUP; TOKEN_DELETE; TOKEN_DESTROY; TOKEN_STATIC; TOKEN_ASSERT; TOKEN_SWITCH; TOKEN_FOR;
  TOKEN_DEFER; TOKEN_IMPLEMENTS; TOKEN_SINGLETON; TOKEN_INTERNAL; TOKEN_PROTECTED; TOKEN_CATCH;
  TOKEN_TRY; TOKEN_YIELD; TOKEN_TESTS; TOKEN_FIXTURES; TOKEN_FAIL; TOKEN_UNDO; TOKEN_HERE;
  TOKEN_FALLTHROUGH; TOKEN_VARIANT; TOKEN_SYNC; TOKEN_CHAN; TOKEN_SEND; TOKEN_RECV;
  TOKEN_SELECT; TOKEN_PROVIDES; TOKEN_RESERVED; TOKEN_LPAREN; TOKEN_RPAREN; TOKEN_LBRACE;
  TOKEN_RBRACE; TOKEN_LBRACKET; TOKEN_RBRACKET; TOKEN_COMMA; TOKEN_SEMICOLON; TOKEN_COLON;
  TOKEN_COLON_COLON; TOKEN_DOT; TOKEN_DOT_DOT; TOKEN_ELLIPSIS; TOKEN_ARROW; TOKEN_FAT_ARROW;
  TOKEN_PLUS; TOKEN_MINUS; TOKEN_STAR; TOKEN_SLASH; TOKEN_PERCENT; TOKEN_AMP; TOKEN_PIPE;
  TOKEN_CARET; TOKEN_TILDE; TOKEN_BANG; TOKEN_SHL; TOKEN_SHR; TOKEN_AND_AND; TOKEN_OR_OR;
  TOKEN_EQ; TOKEN_NE; TOKEN_LT; TOKEN_LE; TOKEN_GT; TOKEN_GE; TOKEN_ASSIGN; TOKEN_PLUS_ASSIGN;
  TOKEN_MINUS_ASSIGN; TOKEN_STAR_ASSIGN; TOKEN_SLASH_ASSIGN; TOKEN_PERCENT_ASSIGN;
  TOKEN_AMP_ASSIGN; TOKEN_PIPE_ASSIGN; TOKEN_CARET_ASSIGN; TOKEN_SHL_ASSIGN; TOKEN_SHR_ASSIGN;
  TOKEN_QUESTION; TOKEN_QUESTION_STAR; TOKEN_ATOMIC; TOKEN_DISPATCH; TOKEN_JOIN;
  TOKEN_JOIN_ALL; TOKEN_QUESTION_QUESTION; TOKEN_QUESTION_DOT; TOKEN_PLUS_WRAP;
  TOKEN_MINUS_WRAP; TOKEN_STAR_WRAP; TOKEN_SHL_WRAP; TOKEN_PLUS_SAT; TOKEN_MINUS_SAT;
  TOKEN_STAR_SAT; TOKEN_PLUS_WRAP_ASSIGN; TOKEN_MINUS_WRAP_ASSIGN; TOKEN_STAR_WRAP_ASSIGN;
  TOKEN_SHL_WRAP_ASSIGN; TOKEN_PLUS_SAT_ASSIGN; TOKEN_MINUS_SAT_ASSIGN; TOKEN_STAR_SAT_ASSIGN;
  TOKEN_MUL_HIGH; TOKEN_PATTERN; TOKEN_CONSTRAINT; TOKEN_TYPE].

(** The value of a kind in the enum. *)
Definition kind_value (k : token_kind) : nat :=
  match k with
  | TOKEN_EOF => 0 | TOKEN_ERROR => 1 | TOKEN_IDENT => 2 | TOKEN_INT => 3 | TOKEN_FLOAT => 4
  | TOKEN_CHAR => 5 | TOKEN_STRING => 6 | TOKEN_BYTES => 7 | TOKEN_FORMAT => 8 | TOKEN_DOC => 9
  | TOKEN_MODULE_DOC => 10 | TOKEN_NOTE => 11 | TOKEN_MODULE_NOTE => 12 | TOKEN_AS => 13
  | TOKEN_BREAK => 14 | TOKEN_CONST => 15 | TOKEN_CONTINUE => 16 | TOKEN_DO => 17
  | TOKEN_ELSE => 18 | TOKEN_EXPORT => 19 | TOKEN_EXTERN => 20 | TOKEN_FN => 21
  | TOKEN_IF => 22 | TOKEN_IMPORT => 23 | TOKEN_LET => 24 | TOKEN_PUB => 25
  | TOKEN_RETURN => 26 | TOKEN_STRUCT => 27 | TOKEN_WHILE => 28 | TOKEN_UNION => 29
  | TOKEN_TRUE => 30 | TOKEN_FALSE => 31 | TOKEN_NONE => 32 | TOKEN_ALLOC => 33
  | TOKEN_FREE => 34 | TOKEN_SIZE_OF => 35 | TOKEN_BOOL_TYPE => 36 | TOKEN_BYTE_TYPE => 37
  | TOKEN_CHAR_TYPE => 38 | TOKEN_F16 => 39 | TOKEN_F32 => 40 | TOKEN_F64 => 41
  | TOKEN_FLOAT_TYPE => 42 | TOKEN_I8 => 43 | TOKEN_I16 => 44 | TOKEN_I32 => 45
  | TOKEN_I64 => 46 | TOKEN_INT_TYPE => 47 | TOKEN_STR_TYPE => 48 | TOKEN_U8 => 49
  | TOKEN_U16 => 50 | TOKEN_U32 => 51 | TOKEN_U64 => 52 | TOKEN_UINT_TYPE => 53
  | TOKEN_C_CHAR => 54 | TOKEN_C_DOUBLE => 55 | TOKEN_C_FLOAT => 56 | TOKEN_C_INT => 57
  | TOKEN_C_LONGLONG => 58 | TOKEN_C_SHORT => 59 | TOKEN_C_SIZE_T => 60 | TOKEN_C_UCHAR => 61
  | TOKEN_C_UINT => 62 | TOKEN_C_ULONGLONG => 63 | TOKEN_C_USHORT => 64 | TOKEN_C_LONG => 65
  | TOKEN_C_ULONG => 66 | TOKEN_C_WCHAR => 67 | TOKEN_WORKER => 68 | TOKEN_PARALLEL => 69
  | TOKEN_SELF => 70 | TOKEN_ABSTRACT => 71 | TOKEN_CONCRETE => 72 | TOKEN_ENUM => 73
  | TOKEN_USE => 74 | TOKEN_INHERITS => 75 | TOKEN_CLASS => 76 | TOKEN_SUPER => 77
  | TOKEN_IS => 78 | TOKEN_DUP => 79 | TOKEN_DELETE => 80 | TOKEN_DESTROY => 81
  | TOKEN_STATIC => 82 | TOKEN_ASSERT => 83 | TOKEN_SWITCH => 84 | TOKEN_FOR => 85
  | TOKEN_DEFER => 86 | TOKEN_IMPLEMENTS => 87 | TOKEN_SINGLETON => 88 | TOKEN_INTERNAL => 89
  | TOKEN_PROTECTED => 90 | TOKEN_CATCH => 91 | TOKEN_TRY => 92 | TOKEN_YIELD => 93
  | TOKEN_TESTS => 94 | TOKEN_FIXTURES => 95 | TOKEN_FAIL => 96 | TOKEN_UNDO => 97
  | TOKEN_HERE => 98 | TOKEN_FALLTHROUGH => 99 | TOKEN_VARIANT => 100 | TOKEN_SYNC => 101
  | TOKEN_CHAN => 102 | TOKEN_SEND => 103 | TOKEN_RECV => 104 | TOKEN_SELECT => 105
  | TOKEN_PROVIDES => 106 | TOKEN_RESERVED => 107 | TOKEN_LPAREN => 108 | TOKEN_RPAREN => 109
  | TOKEN_LBRACE => 110 | TOKEN_RBRACE => 111 | TOKEN_LBRACKET => 112 | TOKEN_RBRACKET => 113
  | TOKEN_COMMA => 114 | TOKEN_SEMICOLON => 115 | TOKEN_COLON => 116 | TOKEN_COLON_COLON => 117
  | TOKEN_DOT => 118 | TOKEN_DOT_DOT => 119 | TOKEN_ELLIPSIS => 120 | TOKEN_ARROW => 121
  | TOKEN_FAT_ARROW => 122 | TOKEN_PLUS => 123 | TOKEN_MINUS => 124 | TOKEN_STAR => 125
  | TOKEN_SLASH => 126 | TOKEN_PERCENT => 127 | TOKEN_AMP => 128 | TOKEN_PIPE => 129
  | TOKEN_CARET => 130 | TOKEN_TILDE => 131 | TOKEN_BANG => 132 | TOKEN_SHL => 133
  | TOKEN_SHR => 134 | TOKEN_AND_AND => 135 | TOKEN_OR_OR => 136 | TOKEN_EQ => 137
  | TOKEN_NE => 138 | TOKEN_LT => 139 | TOKEN_LE => 140 | TOKEN_GT => 141 | TOKEN_GE => 142
  | TOKEN_ASSIGN => 143 | TOKEN_PLUS_ASSIGN => 144 | TOKEN_MINUS_ASSIGN => 145
  | TOKEN_STAR_ASSIGN => 146 | TOKEN_SLASH_ASSIGN => 147 | TOKEN_PERCENT_ASSIGN => 148
  | TOKEN_AMP_ASSIGN => 149 | TOKEN_PIPE_ASSIGN => 150 | TOKEN_CARET_ASSIGN => 151
  | TOKEN_SHL_ASSIGN => 152 | TOKEN_SHR_ASSIGN => 153 | TOKEN_QUESTION => 154
  | TOKEN_QUESTION_STAR => 155 | TOKEN_ATOMIC => 156 | TOKEN_DISPATCH => 157
  | TOKEN_JOIN => 158 | TOKEN_JOIN_ALL => 159 | TOKEN_QUESTION_QUESTION => 160
  | TOKEN_QUESTION_DOT => 161 | TOKEN_PLUS_WRAP => 162 | TOKEN_MINUS_WRAP => 163
  | TOKEN_STAR_WRAP => 164 | TOKEN_SHL_WRAP => 165 | TOKEN_PLUS_SAT => 166
  | TOKEN_MINUS_SAT => 167 | TOKEN_STAR_SAT => 168 | TOKEN_PLUS_WRAP_ASSIGN => 169
  | TOKEN_MINUS_WRAP_ASSIGN => 170 | TOKEN_STAR_WRAP_ASSIGN => 171
  | TOKEN_SHL_WRAP_ASSIGN => 172 | TOKEN_PLUS_SAT_ASSIGN => 173 | TOKEN_MINUS_SAT_ASSIGN => 174
  | TOKEN_STAR_SAT_ASSIGN => 175 | TOKEN_MUL_HIGH => 176 | TOKEN_PATTERN => 177
  | TOKEN_CONSTRAINT => 178 | TOKEN_TYPE => 179
  end%nat.

Lemma kind_value_nth k : all_kinds !! kind_value k = Some k.
Proof. destruct k; reflexivity. Qed.

Lemma kind_value_inj j k : kind_value j = kind_value k -> j = k.
Proof.
  intros E. pose proof (kind_value_nth j) as Hj. rewrite E, kind_value_nth in Hj.
  injection Hj as ->. done.
Qed.

Lemma all_kinds_complete k : In k all_kinds.
Proof. apply list_elem_of_In. eapply list_elem_of_lookup_2, kind_value_nth. Qed.

#[export] Instance token_kind_eq_dec : EqDecision token_kind.
Proof.
  intros j k. destruct (decide (kind_value j = kind_value k)) as [E|N].
  - left. apply kind_value_inj, E.
  - right. intros ->. apply N. done.
Defined.

(** ** The table of spellings *)

Inductive category : Set := CAT_OTHER | CAT_KEYWORD | CAT_SYMBOL.

#[export] Instance category_eq_dec : EqDecision category.
Proof. solve_decision. Defined.

(** The spelling of the kind and its category. The kinds the table does not
    name have the empty spelling and [CAT_OTHER], as C's static zeros; no code
    reads their spelling. *)
Definition kinds (k : token_kind) : string * category :=
  match k with
  | TOKEN_AS => ("as", CAT_KEYWORD) | TOKEN_BREAK => ("break", CAT_KEYWORD)
  | TOKEN_CONST => ("const", CAT_KEYWORD) | TOKEN_CONTINUE => ("continue", CAT_KEYWORD)
  | TOKEN_DO => ("do", CAT_KEYWORD) | TOKEN_ELSE => ("else", CAT_KEYWORD)
  | TOKEN_EXPORT => ("export", CAT_KEYWORD) | TOKEN_EXTERN => ("extern", CAT_KEYWORD)
  | TOKEN_FN => ("fn", CAT_KEYWORD) | TOKEN_IF => ("if", CAT_KEYWORD)
  | TOKEN_IMPORT => ("import", CAT_KEYWORD) | TOKEN_LET => ("let", CAT_KEYWORD)
  | TOKEN_PUB => ("pub", CAT_KEYWORD) | TOKEN_RETURN => ("return", CAT_KEYWORD)
  | TOKEN_STRUCT => ("struct", CAT_KEYWORD) | TOKEN_WHILE => ("while", CAT_KEYWORD)
  | TOKEN_UNION => ("union", CAT_KEYWORD) | TOKEN_TRUE => ("true", CAT_KEYWORD)
  | TOKEN_FALSE => ("false", CAT_KEYWORD) | TOKEN_NONE => ("none", CAT_KEYWORD)
  | TOKEN_ALLOC => ("alloc", CAT_KEYWORD) | TOKEN_FREE => ("free", CAT_KEYWORD)
  | TOKEN_SIZE_OF => ("size_of", CAT_KEYWORD) | TOKEN_BOOL_TYPE => ("bool", CAT_KEYWORD)
  | TOKEN_BYTE_TYPE => ("byte", CAT_KEYWORD) | TOKEN_CHAR_TYPE => ("char", CAT_KEYWORD)
  | TOKEN_F16 => ("f16", CAT_KEYWORD) | TOKEN_F32 => ("f32", CAT_KEYWORD)
  | TOKEN_F64 => ("f64", CAT_KEYWORD) | TOKEN_FLOAT_TYPE => ("float", CAT_KEYWORD)
  | TOKEN_I8 => ("i8", CAT_KEYWORD) | TOKEN_I16 => ("i16", CAT_KEYWORD)
  | TOKEN_I32 => ("i32", CAT_KEYWORD) | TOKEN_I64 => ("i64", CAT_KEYWORD)
  | TOKEN_INT_TYPE => ("int", CAT_KEYWORD) | TOKEN_STR_TYPE => ("str", CAT_KEYWORD)
  | TOKEN_U8 => ("u8", CAT_KEYWORD) | TOKEN_U16 => ("u16", CAT_KEYWORD)
  | TOKEN_U32 => ("u32", CAT_KEYWORD) | TOKEN_U64 => ("u64", CAT_KEYWORD)
  | TOKEN_UINT_TYPE => ("uint", CAT_KEYWORD) | TOKEN_C_CHAR => ("c_char", CAT_KEYWORD)
  | TOKEN_C_DOUBLE => ("c_double", CAT_KEYWORD) | TOKEN_C_FLOAT => ("c_float", CAT_KEYWORD)
  | TOKEN_C_INT => ("c_int", CAT_KEYWORD) | TOKEN_C_LONGLONG => ("c_longlong", CAT_KEYWORD)
  | TOKEN_C_SHORT => ("c_short", CAT_KEYWORD) | TOKEN_C_SIZE_T => ("c_size_t", CAT_KEYWORD)
  | TOKEN_C_UCHAR => ("c_uchar", CAT_KEYWORD) | TOKEN_C_UINT => ("c_uint", CAT_KEYWORD)
  | TOKEN_C_ULONGLONG => ("c_ulonglong", CAT_KEYWORD)
  | TOKEN_C_USHORT => ("c_ushort", CAT_KEYWORD) | TOKEN_C_LONG => ("c_long", CAT_KEYWORD)
  | TOKEN_C_ULONG => ("c_ulong", CAT_KEYWORD) | TOKEN_C_WCHAR => ("c_wchar", CAT_KEYWORD)
  | TOKEN_WORKER => ("worker", CAT_KEYWORD) | TOKEN_PARALLEL => ("parallel", CAT_KEYWORD)
  | TOKEN_SELF => ("self", CAT_KEYWORD) | TOKEN_ABSTRACT => ("abstract", CAT_KEYWORD)
  | TOKEN_CONCRETE => ("concrete", CAT_KEYWORD) | TOKEN_ENUM => ("enum", CAT_KEYWORD)
  | TOKEN_USE => ("use", CAT_KEYWORD) | TOKEN_INHERITS => ("inherits", CAT_KEYWORD)
  | TOKEN_CLASS => ("class", CAT_KEYWORD) | TOKEN_SUPER => ("super", CAT_KEYWORD)
  | TOKEN_IS => ("is", CAT_KEYWORD) | TOKEN_DUP => ("dup", CAT_KEYWORD)
  | TOKEN_DELETE => ("delete", CAT_KEYWORD) | TOKEN_DESTROY => ("destroy", CAT_KEYWORD)
  | TOKEN_STATIC => ("static", CAT_KEYWORD) | TOKEN_ASSERT => ("assert", CAT_KEYWORD)
  | TOKEN_SWITCH => ("switch", CAT_KEYWORD) | TOKEN_FOR => ("for", CAT_KEYWORD)
  | TOKEN_DEFER => ("defer", CAT_KEYWORD) | TOKEN_IMPLEMENTS => ("implements", CAT_KEYWORD)
  | TOKEN_SINGLETON => ("singleton", CAT_KEYWORD) | TOKEN_INTERNAL => ("internal", CAT_KEYWORD)
  | TOKEN_PROTECTED => ("protected", CAT_KEYWORD) | TOKEN_CATCH => ("catch", CAT_KEYWORD)
  | TOKEN_TRY => ("try", CAT_KEYWORD) | TOKEN_YIELD => ("yield", CAT_KEYWORD)
  | TOKEN_TESTS => ("tests", CAT_KEYWORD) | TOKEN_FIXTURES => ("fixtures", CAT_KEYWORD)
  | TOKEN_FAIL => ("fail", CAT_KEYWORD) | TOKEN_UNDO => ("undo", CAT_KEYWORD)
  | TOKEN_HERE => ("here", CAT_KEYWORD) | TOKEN_FALLTHROUGH => ("fallthrough", CAT_KEYWORD)
  | TOKEN_VARIANT => ("variant", CAT_KEYWORD) | TOKEN_SYNC => ("sync", CAT_KEYWORD)
  | TOKEN_CHAN => ("chan", CAT_KEYWORD) | TOKEN_SEND => ("send", CAT_KEYWORD)
  | TOKEN_RECV => ("recv", CAT_KEYWORD) | TOKEN_SELECT => ("select", CAT_KEYWORD)
  | TOKEN_PROVIDES => ("provides", CAT_KEYWORD) | TOKEN_LPAREN => ("(", CAT_SYMBOL)
  | TOKEN_RPAREN => (")", CAT_SYMBOL) | TOKEN_LBRACE => ("{", CAT_SYMBOL)
  | TOKEN_RBRACE => ("}", CAT_SYMBOL) | TOKEN_LBRACKET => ("[", CAT_SYMBOL)
  | TOKEN_RBRACKET => ("]", CAT_SYMBOL) | TOKEN_COMMA => (",", CAT_SYMBOL)
  | TOKEN_SEMICOLON => (";", CAT_SYMBOL) | TOKEN_COLON => (":", CAT_SYMBOL)
  | TOKEN_COLON_COLON => ("::", CAT_SYMBOL) | TOKEN_DOT => (".", CAT_SYMBOL)
  | TOKEN_DOT_DOT => ("..", CAT_SYMBOL) | TOKEN_ELLIPSIS => ("...", CAT_SYMBOL)
  | TOKEN_ARROW => ("->", CAT_SYMBOL) | TOKEN_FAT_ARROW => ("=>", CAT_SYMBOL)
  | TOKEN_PLUS => ("+", CAT_SYMBOL) | TOKEN_MINUS => ("-", CAT_SYMBOL)
  | TOKEN_STAR => ("*", CAT_SYMBOL) | TOKEN_SLASH => ("/", CAT_SYMBOL)
  | TOKEN_PERCENT => ("%", CAT_SYMBOL) | TOKEN_AMP => ("&", CAT_SYMBOL)
  | TOKEN_PIPE => ("|", CAT_SYMBOL) | TOKEN_CARET => ("^", CAT_SYMBOL)
  | TOKEN_TILDE => ("~", CAT_SYMBOL) | TOKEN_BANG => ("!", CAT_SYMBOL)
  | TOKEN_SHL => ("<<", CAT_SYMBOL) | TOKEN_SHR => (">>", CAT_SYMBOL)
  | TOKEN_AND_AND => ("&&", CAT_SYMBOL) | TOKEN_OR_OR => ("||", CAT_SYMBOL)
  | TOKEN_EQ => ("==", CAT_SYMBOL) | TOKEN_NE => ("!=", CAT_SYMBOL)
  | TOKEN_LT => ("<", CAT_SYMBOL) | TOKEN_LE => ("<=", CAT_SYMBOL)
  | TOKEN_GT => (">", CAT_SYMBOL) | TOKEN_GE => (">=", CAT_SYMBOL)
  | TOKEN_ASSIGN => ("=", CAT_SYMBOL) | TOKEN_PLUS_ASSIGN => ("+=", CAT_SYMBOL)
  | TOKEN_MINUS_ASSIGN => ("-=", CAT_SYMBOL) | TOKEN_STAR_ASSIGN => ("*=", CAT_SYMBOL)
  | TOKEN_SLASH_ASSIGN => ("/=", CAT_SYMBOL) | TOKEN_PERCENT_ASSIGN => ("%=", CAT_SYMBOL)
  | TOKEN_AMP_ASSIGN => ("&=", CAT_SYMBOL) | TOKEN_PIPE_ASSIGN => ("|=", CAT_SYMBOL)
  | TOKEN_CARET_ASSIGN => ("^=", CAT_SYMBOL) | TOKEN_SHL_ASSIGN => ("<<=", CAT_SYMBOL)
  | TOKEN_SHR_ASSIGN => (">>=", CAT_SYMBOL) | TOKEN_QUESTION => ("?", CAT_SYMBOL)
  | TOKEN_QUESTION_STAR => ("?*", CAT_SYMBOL) | TOKEN_ATOMIC => ("atomic", CAT_KEYWORD)
  | TOKEN_DISPATCH => ("dispatch", CAT_KEYWORD) | TOKEN_JOIN => ("join", CAT_KEYWORD)
  | TOKEN_JOIN_ALL => ("join_all", CAT_KEYWORD) | TOKEN_QUESTION_QUESTION => ("??", CAT_SYMBOL)
  | TOKEN_QUESTION_DOT => ("?.", CAT_SYMBOL) | TOKEN_PLUS_WRAP => ("+%", CAT_SYMBOL)
  | TOKEN_MINUS_WRAP => ("-%", CAT_SYMBOL) | TOKEN_STAR_WRAP => ("*%", CAT_SYMBOL)
  | TOKEN_SHL_WRAP => ("<<%", CAT_SYMBOL) | TOKEN_PLUS_SAT => ("+|", CAT_SYMBOL)
  | TOKEN_MINUS_SAT => ("-|", CAT_SYMBOL) | TOKEN_STAR_SAT => ("*|", CAT_SYMBOL)
  | TOKEN_PLUS_WRAP_ASSIGN => ("+%=", CAT_SYMBOL)
  | TOKEN_MINUS_WRAP_ASSIGN => ("-%=", CAT_SYMBOL)
  | TOKEN_STAR_WRAP_ASSIGN => ("*%=", CAT_SYMBOL)
  | TOKEN_SHL_WRAP_ASSIGN => ("<<%=", CAT_SYMBOL)
  | TOKEN_PLUS_SAT_ASSIGN => ("+|=", CAT_SYMBOL)
  | TOKEN_MINUS_SAT_ASSIGN => ("-|=", CAT_SYMBOL)
  | TOKEN_STAR_SAT_ASSIGN => ("*|=", CAT_SYMBOL) | TOKEN_MUL_HIGH => ("mul_high", CAT_OTHER)
  | TOKEN_CONSTRAINT => ("constraint", CAT_KEYWORD) | TOKEN_TYPE => ("type", CAT_KEYWORD)
  | _ => (EmptyString, CAT_OTHER)
  end.

Definition spelling (k : token_kind) : list Z := bytes (kinds k).1.

Definition is_category (c : category) (k : token_kind) : bool := bool_decide ((kinds k).2 = c).

(** The words the language reserves and does not use yet. *)
Definition reserved : list string := ["thread"%string].

(** ** Words *)

(** The first kind of the enum that satisfies [f]: the loops
    [for (k = 0; k < TOKEN_KIND_COUNT; k++)]. *)
Definition first_kind (f : token_kind -> bool) : option token_kind := find f all_kinds.

Definition same (s t : list Z) : bool := bool_decide (s = t).

Definition word_kind (s : list Z) : token_kind :=
  match first_kind (fun k => is_category CAT_KEYWORD k && same (spelling k) s) with
  | Some k => k
  | None => if existsb (fun r => same (bytes r) s) reserved then TOKEN_RESERVED else TOKEN_IDENT
  end.

Definition is_null (s : list Z) : bool := same s (bytes "null").

Definition lexer_is_keyword (s : list Z) : bool :=
  negb (bool_decide (word_kind s = TOKEN_IDENT)) || is_null s.

Definition lexer_token_is_builtin_type (k : token_kind) : bool :=
  ((kind_value TOKEN_BOOL_TYPE <=? kind_value k) && (kind_value k <=? kind_value TOKEN_C_WCHAR))%nat.

(** ** The names of the kinds in messages and in a token dump *)
Definition lexer_token_kind_name (k : token_kind) : list Z :=
  match k with
  | TOKEN_EOF => bytes "end of file"
  | TOKEN_ERROR => bytes "invalid token"
  | TOKEN_IDENT => bytes "identifier"
  | TOKEN_INT => bytes "integer literal"
  | TOKEN_FLOAT => bytes "float literal"
  | TOKEN_CHAR => bytes "character literal"
  | TOKEN_STRING => bytes "string literal"
  | TOKEN_BYTES => bytes "byte string literal"
  | TOKEN_FORMAT => bytes "interpolated string literal"
  | TOKEN_PATTERN => bytes "pattern literal"
  | TOKEN_RESERVED => bytes "reserved word"
  | TOKEN_DOC | TOKEN_MODULE_DOC => bytes "doc comment"
  | TOKEN_NOTE | TOKEN_MODULE_NOTE => bytes "developer note"
  | _ =>
      let name := bytes "`" ++ spelling k ++ bytes "`" in
      if (16 <=? length name)%nat then spelling k else name
  end.

Definition lexer_token_category (k : token_kind) : string :=
  match k with
  | TOKEN_IDENT => "ident"
  | TOKEN_INT => "int_lit"
  | TOKEN_FLOAT => "float_lit"
  | TOKEN_CHAR => "char_lit"
  | TOKEN_STRING | TOKEN_BYTES | TOKEN_FORMAT | TOKEN_PATTERN => "string_lit"
  | TOKEN_RESERVED => "keyword"
  | TOKEN_DOC | TOKEN_MODULE_DOC | TOKEN_NOTE | TOKEN_MODULE_NOTE => "doc"
  | TOKEN_EOF => "eof"
  | TOKEN_ERROR => "error"
  | _ => if is_category CAT_KEYWORD k then "keyword" else "symbol"
  end%string.

(** ** Tokens

    The union [value] of the C is the sum [token_value], by the kind of the
    token; [Empty] is the zeroed union. A [format_piece] of no colon has no
    specification. *)
Inductive token : Type :=
  Token (kind : token_kind) (line column : Z) (offset length : nat) (value : token_value)
with token_value : Type :=
| Empty
| Integer (z : Z)
| Character (c : Z)
| Text (bytes : list Z)
| Format (pieces : list format_piece)
with format_piece : Type :=
  FormatPiece (text : list Z) (tokens : list token) (spec : option (list Z))
    (offset length : nat) (line column : Z).

Definition t_kind (t : token) : token_kind := let 'Token k _ _ _ _ _ := t in k.
Definition t_line (t : token) : Z := let 'Token _ l _ _ _ _ := t in l.
Definition t_column (t : token) : Z := let 'Token _ _ c _ _ _ := t in c.
Definition t_offset (t : token) : nat := let 'Token _ _ _ o _ _ := t in o.
Definition t_length (t : token) : nat := let 'Token _ _ _ _ n _ := t in n.
Definition t_value (t : token) : token_value := let 'Token _ _ _ _ _ v := t in v.
Definition t_end (t : token) : nat := (t_offset t + t_length t)%nat.

(** ** The tables *)

Lemma same_spec s t : same s t = true <-> s = t.
Proof. unfold same. apply bool_decide_eq_true. Qed.

Lemma is_category_spec c k : is_category c k = true <-> (kinds k).2 = c.
Proof. unfold is_category. apply bool_decide_eq_true. Qed.

(** The spellings of a category tell the kinds apart. *)
Definition distinct (c : category) : bool :=
  bool_decide (NoDup (map (fun k => (kinds k).1) (List.filter (is_category c) all_kinds))).

Lemma keywords_distinct :
  NoDup (map spelling (List.filter (is_category CAT_KEYWORD) all_kinds)).
Proof. vm_decide. Qed.

Lemma symbols_distinct :
  NoDup (map spelling (List.filter (is_category CAT_SYMBOL) all_kinds)).
Proof. vm_decide. Qed.

Lemma NoDup_map_inj {A B} (f : A -> B) (l : list A) x y :
  NoDup (map f l) -> In x l -> In y l -> f x = f y -> x = y.
Proof.
  induction l as [|a l IH]; [done|]. cbn. intros [Ha Hn]%NoDup_cons [->|Hx] [->|Hy] E; [done| | |auto].
  - exfalso. apply Ha. rewrite E. apply list_elem_of_In, in_map, Hy.
  - exfalso. apply Ha. rewrite <- E. apply list_elem_of_In, in_map, Hx.
Qed.

Lemma spelling_inj c j k :
  NoDup (map spelling (List.filter (is_category c) all_kinds)) ->
  is_category c j = true -> is_category c k = true -> spelling j = spelling k -> j = k.
Proof.
  intros Hn Hj Hk. apply (NoDup_map_inj _ _ _ _ Hn); apply filter_In; split; auto using all_kinds_complete.
Qed.

Lemma first_kind_some f k : first_kind f = Some k -> f k = true.
Proof. intros [_ H]%find_some. done. Qed.

Lemma first_kind_none f k : first_kind f = None -> f k = false.
Proof. intros H. apply (find_none _ _ H), all_kinds_complete. Qed.

(** What [lexer_is_keyword] and the lexer's words mean. *)
Inductive word : list Z -> token_kind -> Prop :=
| word_keyword k : is_category CAT_KEYWORD k = true -> word (spelling k) k
| word_reserved s : s ∈ map bytes reserved -> word s TOKEN_RESERVED
| word_ident s :
    (forall k, is_category CAT_KEYWORD k = true -> s <> spelling k) -> s ∉ map bytes reserved ->
    word s TOKEN_IDENT.

(** word_kind classifies every word by the table: a keyword exactly when it
    is the spelling of that keyword, a reserved word exactly when the list of
    reserved words has it, and an identifier otherwise; the kind is unique. *)
Lemma word_kind_exact s k : word_kind s = k <-> word s k.
Proof.
  unfold word_kind. destruct (first_kind _) as [j|] eqn:F.
  - apply first_kind_some, andb_true_iff in F as [Hj Hs]. apply same_spec in Hs as <-.
    split; [intros <-; constructor; done|]. intros W. inversion W as [k' Hk E|s Hr|s Hn]; subst.
    + apply (spelling_inj CAT_KEYWORD); [apply keywords_distinct|done..].
    + exfalso. apply list_elem_of_singleton in Hr. clear W. revert Hj Hr.
      assert (forall i, is_category CAT_KEYWORD i = true -> spelling i = bytes "thread" -> False) as H;
        [|apply H]. intros i; destruct i; (discriminate || (intros _ E; vm_compute in E; discriminate)).
    + exfalso. eapply Hn; [exact Hj|done].
  - assert (forall i, is_category CAT_KEYWORD i = true -> s <> spelling i) as Hn.
    { intros i Hi ->. apply (first_kind_none _ i) in F. cbv beta in F.
      rewrite Hi, (proj2 (same_spec _ _) eq_refl) in F. done. }
    destruct (existsb _ reserved) eqn:R.
    + apply existsb_exists in R as (r & Hr & E). apply same_spec in E as <-.
      assert (bytes r ∈ map bytes reserved) as Hm by (apply list_elem_of_In, in_map; done).
      split; [intros <-; constructor; done|]. intros W. inversion W as [k' Hk E| |]; subst; [|done|done].
      exfalso. eapply Hn; [exact Hk|done].
    + assert (s ∉ map bytes reserved) as Hm.
      { intros Hs%list_elem_of_In. apply in_map_iff in Hs as (r & <- & Hr).
        apply not_true_iff_false in R. apply R, existsb_exists. exists r. rewrite same_spec. done. }
      split; [intros <-; constructor; done|]. intros W. inversion W; subst; [|done|done].
      exfalso. eapply Hn; [eassumption|done].
Qed.
