(* ===== verification/Lexer.v ===== *)
(** * Lexer: the source of a module to its tokens

    Models src/antic/lexer.c. The state of the C struct lexer is the record
    [lexer], passed from step to step; [src] is the array behind the pointer,
    [limit] the field length, and [diags] and [out] the lists the C struct
    points to. The arena and the buffers of struct text become the lists of
    bytes they hold. A message of the C is the constructor of [message] with
    the arguments of its format. *)

From S2P Require Import Prelude Utf Token.

(** ** Loops

    [iterate] runs a step until it says stop. The fuel of each loop below is
    enough for every input; [iterate_ind] is the rule that shows it. *)
Fixpoint iterate {S : Type} (fuel : nat) (step : S -> S * bool) (s : S) : S :=
  match fuel with
  | O => s
  | Datatypes.S f => let '(s', more) := step s in if more then iterate f step s' else s'
  end.

Definition while_ {S : Type} (fuel : nat) (cond : S -> bool) (body : S -> S) (s : S) : S :=
  iterate fuel (fun s => if cond s then (body s, true) else (s, false)) s.

(** ** The state *)

Inductive message : Type :=
| E_too_many_errors
| E_source_too_large
| E_invalid_utf8
| E_doc_text_starts (marker : list Z)
| E_unterminated_comment
| E_doc_text_ends
| E_null
| E_underscore
| E_hex_digits
| E_exponent_digits
| E_numeric_character
| E_leading_zero
| E_integer_too_large
| E_nul
| E_escape_x
| E_escape_x_range
| E_escape_u
| E_escape_u_scalar (cp : Z)
| E_unknown_escape (c : Z)
| E_empty_character
| E_unterminated_character
| E_one_character
| E_hex_hashes
| E_non_hex (c column : Z)
| E_non_hex_other (column : Z)
| E_odd_digits (column : Z)
| E_unterminated_string
| E_refused_prefix
| E_unterminated_placeholder (raw : bool)
| E_empty_placeholder (raw : bool)
| E_single_brace (raw : bool)
| E_nested_too_deep
| E_unexpected_outside
| E_unexpected (c : Z).

Record diagnostic := Diagnostic { d_line : Z; d_column : Z; d_message : message }.

Definition LEX_SOURCE_MAX : Z := Z.shiftl 64 20.
Definition LEX_FORMAT_DEPTH_MAX : nat := 256.
Definition LEX_ERRORS_MAX : nat := 100.

Record lexer := Lexer {
  src : list Z;
  limit : nat;
  pos : nat;
  line : Z;
  column : Z;
  diags : list diagnostic;
  out : list token;
  ok : bool;
  depth : nat;
  errors : nat;
}.

(** The assignments to the fields. *)
Definition set_place (p : nat) (l c : Z) (lx : lexer) : lexer :=
  Lexer (src lx) (limit lx) p l c (diags lx) (out lx) (ok lx) (depth lx) (errors lx).
Definition set_errors (ds : list diagnostic) (b : bool) (e : nat) (lx : lexer) : lexer :=
  Lexer (src lx) (limit lx) (pos lx) (line lx) (column lx) ds (out lx) b (depth lx) e.
Definition set_out (ts : list token) (lx : lexer) : lexer :=
  Lexer (src lx) (limit lx) (pos lx) (line lx) (column lx) (diags lx) ts (ok lx) (depth lx) (errors lx).
Definition set_depth (d : nat) (lx : lexer) : lexer :=
  Lexer (src lx) (limit lx) (pos lx) (line lx) (column lx) (diags lx) (out lx) (ok lx) d (errors lx).
Definition set_limit (n : nat) (lx : lexer) : lexer :=
  Lexer (src lx) n (pos lx) (line lx) (column lx) (diags lx) (out lx) (ok lx) (depth lx) (errors lx).

Inductive literal_mode : Set := MODE_CHAR | MODE_STR | MODE_BYTES.

#[export] Instance literal_mode_eq_dec : EqDecision literal_mode.
Proof. solve_decision. Defined.

(** ** Reading *)

Definition byte_at (lx : lexer) (i : nat) : Z := nth i (src lx) 0.

Definition at_ (lx : lexer) (ahead : nat) : Z :=
  let i := (pos lx + ahead)%nat in if (i <? limit lx)%nat then byte_at lx i else -1.

Definition advance (lx : lexer) : lexer :=
  if byte_at lx (pos lx) =? 10 then set_place (S (pos lx)) (line lx + 1) 1 lx
  else set_place (S (pos lx)) (line lx) (column lx + 1) lx.

(** [while (n-- > 0) advance(lx);] *)
Definition advance_n (n : nat) (lx : lexer) : lexer := Nat.iter n advance lx.

(** The bytes from [from] on, [n] of them. *)
Definition slice (lx : lexer) (from n : nat) : list Z := take n (drop from (src lx)).

(** The bytes before the limit that a loop can still read. *)
Definition remaining (lx : lexer) : nat := (limit lx - pos lx)%nat.

Definition is_digit (c : Z) : bool := (c >=? 48) && (c <=? 57).
Definition is_hex (c : Z) : bool :=
  is_digit c || ((c >=? 97) && (c <=? 102)) || ((c >=? 65) && (c <=? 70)).
Definition hex_value (c : Z) : Z := if is_digit c then c - 48 else Z.lor c 0x20 - 97 + 10.
Definition is_ident_start (c : Z) : bool :=
  ((c >=? 97) && (c <=? 122)) || ((c >=? 65) && (c <=? 90)) || (c =? 95).
Definition is_ident_char (c : Z) : bool := is_ident_start c || is_digit c.
Definition is_blank (c : Z) : bool := (c =? 32) || (c =? 9) || (c =? 13).

(** [while (cond(at(lx, 0))) advance(lx);] for a condition false at the end. *)
Definition advance_while (cond : Z -> bool) (lx : lexer) : lexer :=
  while_ (S (remaining lx)) (fun lx => cond (at_ lx 0)) advance lx.

(** The count of the bytes from [i] ahead on that satisfy [cond]. *)
Fixpoint count_from (fuel : nat) (cond : Z -> bool) (lx : lexer) (i : nat) : nat :=
  match fuel with
  | O => i
  | S f => if cond (at_ lx i) then count_from f cond lx (S i) else i
  end.
Definition count_while (cond : Z -> bool) (lx : lexer) (i : nat) : nat :=
  count_from (S (remaining lx)) cond lx i.

(** ** Errors and tokens *)

Definition error_at (l c : Z) (m : message) (lx : lexer) : lexer :=
  if (LEX_ERRORS_MAX <? errors lx)%nat then set_errors (diags lx) false (errors lx) lx
  else
    let e := S (errors lx) in
    let m := if (LEX_ERRORS_MAX <? e)%nat then E_too_many_errors else m in
    set_errors (diags lx ++ [Diagnostic l c m]) false e lx.

Definition push_value (kind : token_kind) (start : nat) (l c : Z) (v : token_value) (lx : lexer) : lexer :=
  set_out (out lx ++ [Token kind l c start (pos lx - start) v]) lx.

Definition push (kind : token_kind) (start : nat) (l c : Z) (lx : lexer) : lexer :=
  push_value kind start l c Empty lx.

Definition append_utf8 (t : list Z) (cp : Z) : list Z := t ++ anti_rt_utf8_encode cp.

(** Whether the source is valid UTF-8 from the position on: the state after
    the error of [validate], or [None] for none. *)
Fixpoint validate_from (fuel : nat) (l c : Z) (i : nat) (lx : lexer) : option lexer :=
  match fuel with
  | O => None
  | S f =>
      if (i <? limit lx)%nat then
        let '(cp, n) := anti_rt_utf8_decode (slice lx i (limit lx - i)) in
        if (n =? 0)%nat then Some (error_at l c E_invalid_utf8 lx)
        else if cp =? 10 then validate_from f (l + 1) 1 (i + n) lx
        else validate_from f l (c + Z.of_nat n) (i + n) lx
      else None
  end.
Definition validate (lx : lexer) : option lexer :=
  validate_from (S (remaining lx)) 1 1 (pos lx) lx.

(** ** Comments *)

(** The kind of a doc comment and [*length]. *)
Definition doc_marker (lx : lexer) (ahead : nat) : token_kind * nat :=
  let block := at_ lx (ahead + 1) =? 42 in
  let c := at_ lx (ahead + 2) in
  let d := at_ lx (ahead + 3) in
  if negb (at_ lx ahead =? 47) || (negb (at_ lx (ahead + 1) =? 47) && negb block) then (TOKEN_EOF, 3%nat)
  else if (c =? 35) && (d =? 33) then (TOKEN_MODULE_NOTE, 4%nat)
  else if c =? 35 then (TOKEN_NOTE, 3%nat)
  else if c =? 33 then (TOKEN_MODULE_DOC, 3%nat)
  else if negb block && (c =? 47) && negb (d =? 47) then (TOKEN_DOC, 3%nat)
  else if block && (c =? 42) && negb (d =? 42) && negb (d =? 47) then (TOKEN_DOC, 3%nat)
  else (TOKEN_EOF, 3%nat).

(** The lines of a text, split at each newline. *)
Fixpoint split_lines (raw : list Z) : list (list Z) :=
  match raw with
  | [] => [[]]
  | b :: rest =>
      if b =? 10 then [] :: split_lines rest
      else match split_lines rest with
           | l :: ls => (b :: l) :: ls
           | [] => [[b]]
           end
  end.

Fixpoint lead_blanks (l : list Z) : nat :=
  match l with
  | b :: rest => if is_blank b then S (lead_blanks rest) else 0
  | [] => 0
  end.

(** A line with a byte after its blanks. *)
Definition has_text (l : list Z) : bool := (lead_blanks l <? length l)%nat.

(** [common]; [None] is [SIZE_MAX]. *)
Definition common_lead (ls : list (list Z)) : option nat :=
  fold_left (fun common l =>
    if has_text l then
      match common with
      | Some n => if (lead_blanks l <? n)%nat then Some (lead_blanks l) else Some n
      | None => Some (lead_blanks l)
      end
    else common) ls None.

Definition doc_line (common : option nat) (l : list Z) : list Z :=
  if has_text l then drop (default 0%nat common) l else [].

Fixpoint join_lines (ls : list (list Z)) : list Z :=
  match ls with
  | [] => []
  | [l] => l
  | l :: ls => l ++ 10 :: join_lines ls
  end.

(** The text of a doc token. *)
Definition doc_text (raw : list Z) : list Z :=
  let ls := split_lines raw in join_lines (map (doc_line (common_lead ls)) ls).

Definition push_doc (kind : token_kind) (start : nat) (l c : Z) (raw : list Z) (lx : lexer) : lexer :=
  push_value kind start l c (Text (doc_text raw)) lx.

Definition take_line (lx : lexer) (from : nat) : list Z :=
  let n := (pos lx - from)%nat in
  slice lx from (if (0 <? n)%nat && (byte_at lx (pos lx - 1) =? 13) then n - 1 else n).

Definition to_line_end (lx : lexer) : lexer :=
  advance_while (fun c => negb (c =? -1) && negb (c =? 10)) lx.

Definition line_doc (kind : token_kind) (marker : nat) (lx : lexer) : lexer :=
  let '(lx1, raw, _) :=
    iterate (S (remaining lx)) (fun '(lx, raw, marker) =>
      let lx := advance_n marker lx in
      let from := pos lx in
      let lx := to_line_end lx in
      let raw := raw ++ take_line lx from in
      if negb (at_ lx 0 =? 10) then ((lx, raw, marker), false)
      else
        let next := count_while (fun c => (c =? 32) || (c =? 9)) lx 1 in
        let '(k, len) := doc_marker lx next in
        if negb (at_ lx (next + 1) =? 47) || negb (bool_decide (k = kind)) then ((lx, raw, marker), false)
        else ((advance_n next lx, raw ++ [10], len), true)) (lx, [], marker) in
  push_doc kind (pos lx) (line lx) (column lx) raw lx1.

Definition at_close (lx : lexer) : bool := (at_ lx 0 =? 42) && (at_ lx 1 =? 47).

Definition skip_block (skip : nat) (lx : lexer) : lexer * bool :=
  let lx := advance_n skip lx in
  let lx := while_ (S (remaining lx)) (fun lx => negb (at_close lx) && negb (at_ lx 0 =? -1)) advance lx in
  if at_close lx then (advance_n 2 lx, true) else (lx, false).

(** The position ahead of the star-slash on the line, if the line has one. *)
Fixpoint close_on_line (fuel : nat) (lx : lexer) (i : nat) : option nat :=
  match fuel with
  | O => None
  | S f =>
      if negb (at_ lx i =? -1) && negb (at_ lx i =? 10) then
        if (at_ lx i =? 42) && (at_ lx (i + 1) =? 47) then Some i else close_on_line f lx (S i)
      else None
  end.

(** [while (i > 0 && is_blank(at(lx, i - 1))) i--;] *)
Fixpoint trim_back (lx : lexer) (i : nat) : nat :=
  match i with
  | O => O
  | S j => if is_blank (at_ lx j) then trim_back lx j else i
  end.

(** The text of a block comment of more than one line, and the result. *)
Record block_state := BlockState { b_lx : lexer; b_raw : list Z; b_first : bool; b_result : bool }.

Definition block_lines (l c : Z) (lx : lexer) : lexer * option (list Z) :=
  let s := iterate (S (remaining lx)) (fun s =>
      let lx := b_lx s in
      let from := pos lx in
      let text_line := line lx in
      let '(lx, blank) := while_ (S (remaining lx))
        (fun '(lx, _) => negb (at_ lx 0 =? -1) && negb (at_ lx 0 =? 10) && negb (at_close lx))
        (fun '(lx, blank) => (advance lx, blank && is_blank (at_ lx 0))) (lx, true) in
      if at_ lx 0 =? -1 then
        (BlockState (error_at l c E_unterminated_comment lx) (b_raw s) (b_first s) false, false)
      else if at_ lx 0 =? 42 then
        let lx := advance_n 2 lx in
        if negb blank then
          (BlockState (error_at text_line 1 E_doc_text_ends lx) (b_raw s) (b_first s) false, false)
        else (BlockState lx (b_raw s) (b_first s) true, false)
      else
        let raw := (if b_first s then b_raw s else b_raw s ++ [10]) ++ take_line lx from in
        (BlockState (advance lx) raw false false, true)) (BlockState lx [] true false) in
  (b_lx s, if b_result s then Some (b_raw s) else None).

Definition block_doc_text (start : nat) (l c : Z) (marker : nat) (lx : lexer) : lexer * option (list Z) :=
  let lx := advance_n marker lx in
  let lx := advance_while is_blank lx in
  match close_on_line (S (remaining lx)) lx 0 with
  | Some i =>
      let i := trim_back lx i in
      let raw := slice lx (pos lx) i in
      ((skip_block 0 (advance_n i lx)).1, Some raw)
  | None =>
      if negb (at_ lx 0 =? 10) then
        let '(lx', closed) := skip_block 0 lx in
        (if closed then error_at l c (E_doc_text_starts (slice lx start marker)) lx'
         else error_at l c E_unterminated_comment lx', None)
      else block_lines l c (advance lx)
  end.

Definition block_doc (kind : token_kind) (marker : nat) (lx : lexer) : lexer :=
  match block_doc_text (pos lx) (line lx) (column lx) marker lx with
  | (lx', Some raw) => push_doc kind (pos lx) (line lx) (column lx) raw lx'
  | (lx', None) => lx'
  end.

Definition is_space (c : Z) : bool := (c =? 32) || (c =? 9) || (c =? 13) || (c =? 10).

Definition skip_trivia (lx : lexer) : lexer :=
  iterate (S (remaining lx)) (fun lx =>
    let c := at_ lx 0 in
    if is_space c then (advance lx, true)
    else if negb (c =? 47) || negb (bool_decide ((doc_marker lx 0).1 = TOKEN_EOF)) then (lx, false)
    else if at_ lx 1 =? 47 then (to_line_end lx, true)
    else if at_ lx 1 =? 42 then
      match skip_block 2 lx with
      | (lx', true) => (lx', true)
      | (lx', false) => (error_at (line lx) (column lx) E_unterminated_comment lx', false)
      end
    else (lx, false)) lx.

(** ** Words and numbers *)

Definition identifier (start : nat) (l c : Z) (lx : lexer) : lexer :=
  let lx := advance_while is_ident_char lx in
  let s := slice lx start (pos lx - start) in
  if is_null s then push TOKEN_ERROR start l c (error_at l c E_null lx)
  else push (word_kind s) start l c lx.

(** The digits read and whether each [_] stands between two. *)
Definition digit_run (hex : bool) (lx : lexer) : lexer * list Z * bool :=
  let valid := if hex then is_hex else is_digit in
  iterate (S (remaining lx)) (fun '(lx, digits, fine) =>
    let c := at_ lx 0 in
    if valid c || (c =? 95) then
      if c =? 95 then
        if negb (valid (at_ lx 1)) then ((lx, digits, false), false)
        else ((advance lx, digits, fine), true)
      else ((advance lx, digits ++ [c], fine), true)
    else ((lx, digits, fine), false)) (lx, [], true).

Definition number_error (start : nat) (l c : Z) (m : message) (lx : lexer) : lexer :=
  let lx := error_at l c m lx in
  let lx := while_ (S (remaining lx))
    (fun lx => is_ident_char (at_ lx 0) || ((at_ lx 0 =? 46) && is_digit (at_ lx 1))) advance lx in
  push TOKEN_ERROR start l c lx.

Definition after_dot (lx : lexer) : bool :=
  match last (out lx) with Some t => bool_decide (t_kind t = TOKEN_DOT) | None => false end.

(** The value of the digits, [None] past 64 bits. *)
Fixpoint digits_value (base value : Z) (digits : list Z) : option Z :=
  match digits with
  | [] => Some value
  | d :: rest =>
      let digit := hex_value d in
      if value >? (UINT64_MAX - digit) / base then None
      else digits_value base (u64 (value * base + digit)) rest
  end.

(** The part of [number] after the fraction's [.]. *)
Definition float_literal (start : nat) (l c : Z) (digits : list Z) (lx : lexer) : lexer :=
  let digits := digits ++ [46] in
  let '(lx, more, fine) := digit_run false (advance lx) in
  let digits := digits ++ more in
  if negb fine then number_error start l c E_underscore lx
  else
    let finish digits lx :=
      if is_ident_char (at_ lx 0) then number_error start l c E_numeric_character lx
      else push_value TOKEN_FLOAT start l c (Text digits) lx in
    if (at_ lx 0 =? 101) || (at_ lx 0 =? 69) then
      let e := at_ lx 0 in
      let lx := advance lx in
      let signed := (at_ lx 0 =? 43) || (at_ lx 0 =? 45) in
      let exponent := if signed then [e; at_ lx 0] else [e] in
      let lx := if signed then advance lx else lx in
      if negb (is_digit (at_ lx 0)) then number_error start l c E_exponent_digits lx
      else
        let '(lx, more, fine) := digit_run false lx in
        if negb fine then number_error start l c E_underscore lx
        else finish (digits ++ exponent ++ more) lx
    else finish digits lx.

Definition number (start : nat) (l c : Z) (lx : lexer) : lexer :=
  let hex := (at_ lx 0 =? 48) && (at_ lx 1 =? 120) in
  let element := after_dot lx in
  let lx := if hex then advance_n 2 lx else lx in
  if hex && (at_ lx 0 =? 95) then number_error start l c E_underscore lx
  else if hex && negb (is_hex (at_ lx 0)) then number_error start l c E_hex_digits lx
  else
    let '(lx, digits, fine) := digit_run hex lx in
    if negb fine then number_error start l c E_underscore lx
    else if negb hex && negb element && (at_ lx 0 =? 46) && is_digit (at_ lx 1)
    then float_literal start l c digits lx
    else if is_ident_char (at_ lx 0) then number_error start l c E_numeric_character lx
    else if negb hex && (1 <? length digits)%nat && (nth 0 digits 0 =? 48)
    then number_error start l c E_leading_zero lx
    else
      match digits_value (if hex then 16 else 10) 0 digits with
      | Some value => push_value TOKEN_INT start l c (Integer value) lx
      | None => number_error start l c E_integer_too_large lx
      end.

(** ** Characters and strings *)

(** The digits of [\u{}]: at most 7 are read, [n] of them so far. *)
Fixpoint unicode_digits (fuel : nat) (lx : lexer) (n : nat) (cp : Z) : lexer * nat * Z :=
  match fuel with
  | O => (lx, n, cp)
  | S f =>
      if is_hex (at_ lx 0) then unicode_digits f (advance lx) (S n) (u32 (cp * 16 + hex_value (at_ lx 0)))
      else (lx, n, cp)
  end.

(** The value and [*raw_byte] of the escape at the position, [None] after an
    error. *)
Definition escape (mode : literal_mode) (lx : lexer) : lexer * option (Z * bool) :=
  let l := line lx in
  let c := column lx in
  let e := at_ lx 1 in
  let lx := advance lx in
  let fail m lx := (error_at l c m lx, None) in
  if e =? -1 then (lx, None)
  else
    let lx := advance lx in
    if e =? 110 then (lx, Some (10, false))
    else if e =? 114 then (lx, Some (13, false))
    else if e =? 116 then (lx, Some (9, false))
    else if e =? 92 then (lx, Some (92, false))
    else if e =? 34 then (lx, Some (34, false))
    else if e =? 39 then (lx, Some (39, false))
    else if e =? 48 then
      if negb (bool_decide (mode = MODE_BYTES)) then fail E_nul lx else (lx, Some (0, true))
    else if e =? 120 then
      if negb (is_hex (at_ lx 0)) || negb (is_hex (at_ lx 1)) then fail E_escape_x lx
      else
        let value := hex_value (at_ lx 0) * 16 + hex_value (at_ lx 1) in
        let lx := advance_n 2 lx in
        if bool_decide (mode = MODE_BYTES) then (lx, Some (value, true))
        else if value >? 0x7F then fail E_escape_x_range lx
        else if value =? 0 then fail E_nul lx
        else (lx, Some (value, false))
    else if e =? 117 then
      if negb (at_ lx 0 =? 123) then fail E_escape_u lx
      else
        let '(lx, n, cp) := unicode_digits 7 (advance lx) 0 0 in
        if (n =? 0)%nat || (6 <? n)%nat || negb (at_ lx 0 =? 125) then fail E_escape_u lx
        else
          let lx := advance lx in
          if (cp >? 0x10FFFF) || ((cp >=? 0xD800) && (cp <=? 0xDFFF)) then fail (E_escape_u_scalar cp) lx
          else if (cp =? 0) && negb (bool_decide (mode = MODE_BYTES)) then fail E_nul lx
          else (lx, Some (cp, false))
    else fail (E_unknown_escape (if e <? 0x80 then e else 63)) lx.

(** The quote or the end of the line, from [i] on: the loop of [character]. *)
Fixpoint find_quote (fuel : nat) (lx : lexer) (i : nat) : nat :=
  match fuel with
  | O => i
  | S f =>
      if (i <? limit lx)%nat && negb (byte_at lx i =? 39) && negb (byte_at lx i =? 10)
      then find_quote f lx (S i) else i
  end.

(** The one character between the quotes: the value, [None] after an error. *)
Definition character_value (lx : lexer) : lexer * option Z :=
  let c := at_ lx 0 in
  if c =? 0 then (advance (error_at (line lx) (column lx) E_nul lx), None)
  else if c =? 92 then
    let '(lx, v) := escape MODE_CHAR lx in (lx, fst <$> v)
  else
    let '(value, n) := anti_rt_utf8_decode (slice lx (pos lx) (limit lx - pos lx)) in
    (advance_n n lx, Some value).

Definition character (start : nat) (l c : Z) (lx : lexer) : lexer :=
  let lx := advance lx in
  let q := at_ lx 0 in
  if q =? 39 then push TOKEN_ERROR start l c (error_at l c E_empty_character (advance lx))
  else if (q =? -1) || (q =? 10) || (q =? 13)
  then push TOKEN_ERROR start l c (error_at l c E_unterminated_character lx)
  else
    let '(lx, value) := character_value lx in
    if negb (at_ lx 0 =? 39) then
      let i := find_quote (S (remaining lx)) lx (pos lx) in
      let lx :=
        if (i <? limit lx)%nat && (byte_at lx i =? 39)
        then advance_n (S i - pos lx) (error_at l c E_one_character lx)
        else error_at l c E_unterminated_character lx in
      push TOKEN_ERROR start l c lx
    else
      let lx := advance lx in
      match value with
      | None => push TOKEN_ERROR start l c lx
      | Some value => push_value TOKEN_CHAR start l c (Character value) lx
      end.

Inductive string_form : Set :=
  FORM_ESCAPED | FORM_RAW | FORM_INTERPOLATED | FORM_RAW_INTERPOLATED | FORM_HEX | FORM_PATTERN.

#[export] Instance string_form_eq_dec : EqDecision string_form.
Proof. solve_decision. Defined.

Record string_prefix := StringPrefix {
  p_spelling : list Z; p_form : string_form; p_bytes : bool; p_refused : bool }.

Definition string_prefixes : list string_prefix :=
  [StringPrefix [] FORM_ESCAPED false false;
   StringPrefix (bytes "r") FORM_RAW false false;
   StringPrefix (bytes "b") FORM_ESCAPED true false;
   StringPrefix (bytes "br") FORM_RAW true false;
   StringPrefix (bytes "f") FORM_INTERPOLATED false false;
   StringPrefix (bytes "rf") FORM_RAW_INTERPOLATED false false;
   StringPrefix (bytes "fr") FORM_RAW_INTERPOLATED false true;
   StringPrefix (bytes "x") FORM_HEX true false;
   StringPrefix (bytes "re") FORM_PATTERN false false].

(** [lx->pos + n <= lx->length && memcmp(lx->src + lx->pos, s, n) == 0] *)
Definition starts_with (lx : lexer) (s : list Z) : bool :=
  (pos lx + length s <=? limit lx)%nat && same (slice lx (pos lx) (length s)) s.

Definition string_start (lx : lexer) : option string_prefix :=
  find (fun p =>
    starts_with lx (p_spelling p) &&
    (at_ lx (count_while (fun c => c =? 35) lx (length (p_spelling p))) =? 34)) string_prefixes.

(** [*pending] with its line and column; [None] is the pending of -1. *)
Record string_state := StringState {
  s_lx : lexer; s_pending : option Z; s_line : Z; s_column : Z; s_bytes : list Z; s_valid : bool }.

Definition hex_character (s : string_state) : string_state :=
  let lx := s_lx s in
  let c := at_ lx 0 in
  if is_hex c then
    match s_pending s with
    | None => StringState (advance lx) (Some (hex_value c)) (line lx) (column lx) (s_bytes s) (s_valid s)
    | Some p => StringState (advance lx) None (s_line s) (s_column s)
                  (s_bytes s ++ [u8 (p * 16 + hex_value c)]) (s_valid s)
    end
  else if negb (is_space c) && s_valid s then
    let m := if (c >? 32) && (c <? 0x7F) then E_non_hex c (column lx) else E_non_hex_other (column lx) in
    StringState (advance (error_at (line lx) (column lx) m lx)) (s_pending s) (s_line s) (s_column s)
      (s_bytes s) false
  else StringState (advance lx) (s_pending s) (s_line s) (s_column s) (s_bytes s) (s_valid s).

Definition open_quote (p : string_prefix) (lx : lexer) : lexer * nat :=
  let lx := advance_n (length (p_spelling p)) lx in
  let hashes := count_while (fun c => c =? 35) lx 0 in
  (advance (advance_n hashes lx), hashes).

(** One character of the content: the bytes it appends and whether it is
    valid. *)
Definition content_char (mode : literal_mode) (escapes : bool) (lx : lexer) : lexer * list Z * bool :=
  let c := at_ lx 0 in
  if (c =? 92) && escapes then
    match escape mode lx with
    | (lx, None) => (lx, [], false)
    | (lx, Some (value, true)) => (lx, [u8 value], true)
    | (lx, Some (value, false)) => (lx, append_utf8 [] value, true)
    end
  else if (c =? 13) && (at_ lx 1 =? 10) then (advance_n 2 lx, [10], true)
  else if (c =? 0) && negb (bool_decide (mode = MODE_BYTES))
  then (advance (error_at (line lx) (column lx) E_nul lx), [], false)
  else (advance lx, [u8 c], true).

(** The hashes after the quote at the position: [i] of the loop of [string],
    which stops at [hashes]. *)
Fixpoint closing_hashes (hashes : nat) (lx : lexer) (i : nat) : nat :=
  match hashes with
  | O => i
  | S h => if at_ lx (1 + i) =? 35 then closing_hashes h lx (S i) else i
  end.

(** The content of a literal: the state at its end, and whether the quote that
    closes it was read. *)
Definition string_content (p : string_prefix) (hashes : nat) (s : string_state) : string_state * bool :=
  let mode := if p_bytes p then MODE_BYTES else MODE_STR in
  let escapes := negb (bool_decide (p_form p = FORM_RAW)) && negb (bool_decide (p_form p = FORM_PATTERN)) in
  iterate (S (remaining (s_lx s))) (fun '(s, _) =>
    let lx := s_lx s in
    let c := at_ lx 0 in
    let next lx bs valid := StringState lx (s_pending s) (s_line s) (s_column s) bs valid in
    if c =? -1 then ((s, false), false)
    else if c =? 34 then
      if (closing_hashes hashes lx 0 =? hashes)%nat
      then ((next (advance_n (S hashes) lx) (s_bytes s) (s_valid s), true), false)
      else ((next (advance lx) (s_bytes s ++ [34]) (s_valid s), false), true)
    else if bool_decide (p_form p = FORM_HEX) then ((hex_character s, false), true)
    else
      let '(lx, bs, valid) := content_char mode escapes lx in
      ((next lx (s_bytes s ++ bs) (s_valid s && valid), false), true)) (s, false).

Definition string_ (p : string_prefix) (start : nat) (l c : Z) (lx : lexer) : lexer :=
  let '(lx, hashes) := open_quote p lx in
  let refused := bool_decide (p_form p = FORM_HEX) && (0 <? hashes)%nat in
  let lx := if refused then error_at l c E_hex_hashes lx else lx in
  match string_content p hashes (StringState lx None 0 0 [] (negb refused)) with
  | (s, false) => push TOKEN_ERROR start l c (error_at l c E_unterminated_string (s_lx s))
  | (s, true) =>
      let odd := s_valid s && match s_pending s with Some _ => true | None => false end in
      let lx := if odd then error_at (s_line s) (s_column s) (E_odd_digits (s_column s)) (s_lx s) else s_lx s in
      if s_valid s && negb odd then
        push_value (if bool_decide (p_form p = FORM_PATTERN) then TOKEN_PATTERN
                    else if p_bytes p then TOKEN_BYTES else TOKEN_STRING)
          start l c (Text (s_bytes s)) lx
      else push TOKEN_ERROR start l c lx
  end.

(** ** Interpolated literals *)

(** The position of the quote that closes a literal of [hashes]. *)
Fixpoint hashes_after (hashes : nat) (lx : lexer) (i : nat) : bool :=
  match hashes with
  | O => true
  | S h => (i <? limit lx)%nat && (byte_at lx i =? 35) && hashes_after h lx (S i)
  end.

Fixpoint closing_from (fuel hashes : nat) (raw : bool) (lx : lexer) (i : nat) : option nat :=
  match fuel with
  | O => None
  | S f =>
      if (i <? limit lx)%nat then
        if (byte_at lx i =? 92) && negb raw then closing_from f hashes raw lx (i + 2)
        else if (byte_at lx i =? 34) && hashes_after hashes lx (S i) then Some i
        else closing_from f hashes raw lx (S i)
      else None
  end.

Definition closing_quote (hashes : nat) (raw : bool) (lx : lexer) : option nat :=
  closing_from (S (remaining lx)) hashes raw lx (pos lx).

Definition opens (k : token_kind) : bool :=
  match k with TOKEN_LPAREN | TOKEN_LBRACKET | TOKEN_LBRACE => true | _ => false end.
Definition closes (k : token_kind) : bool :=
  match k with TOKEN_RPAREN | TOKEN_RBRACKET | TOKEN_RBRACE => true | _ => false end.

(** The steps that [remaining] bytes and the errors left can take: a round of a
    loop over tokens reads a byte or records an error. *)
Definition rounds (lx : lexer) : nat := (remaining lx + (S LEX_ERRORS_MAX - errors lx))%nat.

(** The tokens of a placeholder: the inner lexer at the end, and [c], which is
    -1 where the run stops. *)
Definition placeholder_tokens (lex : lexer -> lexer) (inner : lexer) : lexer * Z :=
  let '(inner, _, c) :=
    iterate (S (rounds inner)) (fun '(inner, depth, _) =>
      if (LEX_ERRORS_MAX <? errors inner)%nat then ((inner, depth, -1), false)
      else
        let inner := skip_trivia inner in
        let c := at_ inner 0 in
        if (c =? -1) || ((depth =? 0) && ((c =? 125) || ((c =? 58) && negb (at_ inner 1 =? 58))))
        then ((inner, depth, c), false)
        else
          let before := length (out inner) in
          let inner := lex inner in
          let depth :=
            if (length (out inner) =? before)%nat then depth
            else match last (out inner) with
                 | Some t => if opens (t_kind t) then depth + 1
                             else if (depth >? 0) && closes (t_kind t) then depth - 1
                             else depth
                 | None => depth
                 end in
          ((inner, depth, c), true)) (inner, 0, -1) in
  (inner, c).

(** The specification after the colon: the inner lexer at the [}] or the end. *)
Definition placeholder_spec (inner : lexer) : lexer :=
  (while_ (S (remaining inner))
    (fun '(inner, depth) => let c := at_ inner 0 in negb (c =? -1) && (negb (c =? 125) || (depth >? 0)))
    (fun '(inner, depth) =>
      let c := at_ inner 0 in
      (advance inner, if c =? 123 then depth + 1 else if c =? 125 then depth - 1 else depth))
    (inner, 0)).1.

(** The state after the placeholder, its piece and whether it is valid. *)
Definition placeholder (lex : lexer -> lexer) (close : nat) (raw : bool) (text : list Z) (lx : lexer)
    : lexer * format_piece * bool :=
  let inner := advance (set_errors (diags lx) true (errors lx) (set_out [] (set_limit close lx))) in
  let '(inner, c) := placeholder_tokens lex inner in
  let '(inner, c, spec) :=
    if c =? 58 then
      let inner := advance inner in
      let from := pos inner in
      let inner := placeholder_spec inner in
      (inner, at_ inner 0, Some (slice inner from (pos inner - from)))
    else (inner, c, None) in
  let lx' := set_errors (diags inner) (ok lx) (errors inner) lx in
  let '(inner, lx', valid) :=
    if c =? -1 then
      (inner, error_at (line lx) (column lx) (E_unterminated_placeholder raw) lx', false)
    else
      let none := match out inner with [] => true | _ => false end in
      let lx' := if none then error_at (line lx) (column lx) (E_empty_placeholder raw) lx' else lx' in
      (advance (push TOKEN_EOF (pos inner) (line inner) (column inner) inner), lx', negb none) in
  let piece := FormatPiece text (out inner) spec (pos lx) (pos inner - pos lx) (line lx) (column lx) in
  let lx' := set_place (pos inner) (line inner) (column inner)
    (set_errors (diags lx') (ok lx' && ok inner) (errors lx') lx') in
  (lx', piece, valid && ok inner).

(** [while (lx->pos < end) advance(lx);] *)
Definition advance_to (p : nat) (lx : lexer) : lexer := advance_n (p - pos lx) lx.

Record format_state := FormatState {
  f_lx : lexer; f_bytes : list Z; f_pieces : list format_piece; f_valid : bool }.

(** The content of the literal up to the quote that closes it. *)
Definition interpolated_content (lex : lexer -> lexer) (close : nat) (raw : bool) (s : format_state)
    : format_state :=
  iterate (S (remaining (f_lx s))) (fun s =>
    let lx := f_lx s in
    let c := at_ lx 0 in
    if negb (pos lx <? close)%nat then (s, false)
    else if (LEX_ERRORS_MAX <? errors lx)%nat
    then (FormatState (advance_to close lx) (f_bytes s) (f_pieces s) false, false)
    else if ((c =? 123) || (c =? 125)) && (at_ lx 1 =? c) && (pos lx + 1 <? close)%nat
    then (FormatState (advance_n 2 lx) (f_bytes s ++ [u8 c]) (f_pieces s) (f_valid s), true)
    else if c =? 123 then
      let '(lx, piece, valid) := placeholder lex close raw (f_bytes s) lx in
      (FormatState lx [] (f_pieces s ++ [piece]) (f_valid s && valid), true)
    else if c =? 125 then
      (FormatState (advance (error_at (line lx) (column lx) (E_single_brace raw) lx))
         (f_bytes s) (f_pieces s) false, true)
    else
      let '(lx, bs, valid) := content_char MODE_STR (negb raw) lx in
      (FormatState lx (f_bytes s ++ bs) (f_pieces s) (f_valid s && valid), true)) s.

Definition interpolated (lex : lexer -> lexer) (p : string_prefix) (start : nat) (l c : Z) (lx : lexer)
    : lexer :=
  let raw := bool_decide (p_form p = FORM_RAW_INTERPOLATED) in
  let '(lx, hashes) := open_quote p lx in
  let lx := if p_refused p then error_at l c E_refused_prefix lx else lx in
  match closing_quote hashes raw lx with
  | None =>
      push TOKEN_ERROR start l c
        (advance_while (fun c => negb (c =? -1)) (error_at l c E_unterminated_string lx))
  | Some close =>
      if (LEX_FORMAT_DEPTH_MAX <=? depth lx)%nat then
        push TOKEN_ERROR start l c
          (advance_n (S hashes) (advance_to close (error_at l c E_nested_too_deep lx)))
      else
        let s := interpolated_content lex close raw
          (FormatState (set_depth (S (depth lx)) lx) [] [] (negb (p_refused p))) in
        let lx := advance_n (S hashes) (set_depth (depth lx) (f_lx s)) in
        let pieces := f_pieces s ++ [FormatPiece (f_bytes s) [] None 0 0 0 0] in
        if f_valid s then push_value TOKEN_FORMAT start l c (Format pieces) lx
        else push TOKEN_ERROR start l c lx
  end.

(** ** Tokens *)

(** The longest symbol at the position, the first of its length. *)
Definition best_symbol (lx : lexer) : option token_kind :=
  (fold_left (fun '(best, best_length) k =>
    if is_category CAT_SYMBOL k && (best_length <? length (spelling k))%nat && starts_with lx (spelling k)
    then (Some k, length (spelling k)) else (best, best_length)) all_kinds (None, 0%nat)).1.

Definition symbol (start : nat) (l c : Z) (lx : lexer) : option lexer :=
  k ← best_symbol lx;
  Some (push k start l c (advance_n (length (spelling k)) lx)).

(** The last branch of [lex_token]: a character that starts no token. *)
Definition unexpected (start : nat) (l c : Z) (lx : lexer) : lexer :=
  let '(_, n) := anti_rt_utf8_decode (slice lx (pos lx) (limit lx - pos lx)) in
  let ch := at_ lx 0 in
  let m := if ch >=? 0x80 then E_unexpected_outside else if ch =? 0 then E_nul else E_unexpected ch in
  push TOKEN_ERROR start l c (advance_n n (error_at l c m lx)).

Definition lex_body (lex : lexer -> lexer) (lx : lexer) : lexer :=
  let start := pos lx in
  let l := line lx in
  let c := column lx in
  let ch := at_ lx 0 in
  let '(doc, marker) := doc_marker lx 0 in
  if negb (bool_decide (doc = TOKEN_EOF)) then
    if at_ lx 1 =? 47 then line_doc doc marker lx else block_doc doc marker lx
  else
    match string_start lx with
    | Some p =>
        if bool_decide (p_form p = FORM_INTERPOLATED) || bool_decide (p_form p = FORM_RAW_INTERPOLATED)
        then interpolated lex p start l c lx
        else string_ p start l c lx
    | None =>
        if is_ident_start ch then identifier start l c lx
        else if is_digit ch then number start l c lx
        else if ch =? 39 then character start l c lx
        else match symbol start l c lx with
             | Some lx => lx
             | None => unexpected start l c lx
             end
    end.

(** [levels] is the depth of interpolated literals left. At 0 the depth of the
    lexer is [LEX_FORMAT_DEPTH_MAX], where [interpolated] does not recurse. *)
Fixpoint lex_levels (levels : nat) : lexer -> lexer :=
  lex_body (match levels with S n => lex_levels n | O => id end).

Definition lex_token (lx : lexer) : lexer := lex_levels (LEX_FORMAT_DEPTH_MAX - depth lx) lx.

Definition lexer_lex (source : list Z) : bool * lexer :=
  let lx := Lexer source (length source) 0 1 1 [] [] true 0 0 in
  if Z.of_nat (length source) >? LEX_SOURCE_MAX
  then (false, push TOKEN_EOF 0 1 1 (error_at 1 1 E_source_too_large lx))
  else
    let lx := if same (take 3 source) [0xEF; 0xBB; 0xBF] then set_place 3 1 1 lx else lx in
    match validate lx with
    | Some lx => (false, push TOKEN_EOF (pos lx) 1 1 lx)
    | None =>
        let lx := iterate (S (rounds lx)) (fun lx =>
          let lx := skip_trivia lx in
          if (at_ lx 0 =? -1) || (LEX_ERRORS_MAX <? errors lx)%nat
          then (push TOKEN_EOF (pos lx) (line lx) (column lx) lx, false)
          else (lex_token lx, true)) lx in
        (ok lx, lx)
    end.
