(* ===== verification/LexerRun.v ===== *)
(** * LexerRun: what one run of the lexer keeps

    The relations between the state before and after a step of Lexer.v, and
    that every step satisfies them: the source and the limit stay, the position
    only grows and never passes the limit, the line and the column are those of
    the position, each error counts once up to the cap, and the tokens lie in
    order in the bytes that were read. Every loop ends by a measure. *)

From S2P Require Import Prelude Utf Token Lexer.

(** ** The rule for loops *)

Lemma iterate_ind {S} (I Q : S -> Prop) (m : S -> nat) (step : S -> S * bool) fuel s :
  (forall s, I s -> let '(s', more) := step s in
     if more then I s' /\ (m s' < m s)%nat else Q s') ->
  I s -> (m s < fuel)%nat -> Q (iterate fuel step s).
Proof.
  intros Hstep. revert s. induction fuel as [|f IH]; intros s HI Hm; [lia|].
  cbn [iterate]. specialize (Hstep s HI). destruct (step s) as [s' [|]]; [|done].
  destruct Hstep as [HI' Hm']. apply IH; [done|lia].
Qed.

Lemma while_ind {S} (I : S -> Prop) (m : S -> nat) (cond : S -> bool) (body : S -> S) fuel s :
  (forall s, I s -> cond s = true -> I (body s) /\ (m (body s) < m s)%nat) ->
  I s -> (m s < fuel)%nat -> I (while_ fuel cond body s) /\ cond (while_ fuel cond body s) = false.
Proof.
  intros Hbody HI Hm. unfold while_.
  apply (iterate_ind I (fun s => I s /\ cond s = false) m); [|done..].
  intros t Ht. destruct (cond t) eqn:E; [|done]. apply Hbody; done.
Qed.

(** ** Positions *)

(** The line and the column after the bytes [bs], which start a text: lines
    and columns count from 1, and a column counts bytes. *)
Definition locate (bs : list Z) : Z * Z :=
  fold_left (fun '(l, c) b => if b =? 10 then (l + 1, 1) else (l, c + 1)) bs (1, 1).

(** The bytes of the text that starts at [base], up to the position [p]. *)
Definition text_to (s : list Z) (base p : nat) : list Z := take (p - base) (drop base s).

Definition located (base : nat) (lx : lexer) : Prop :=
  (base <= pos lx)%nat /\ (line lx, column lx) = locate (text_to (src lx) base (pos lx)).

(** ** The relations *)

Record wf (lx : lexer) : Prop := {
  wf_limit : (limit lx <= length (src lx))%nat;
  wf_pos : (pos lx <= limit lx)%nat;
  wf_bytes : Forall is_byte (src lx);
}.

(** What every step keeps, the output aside. *)
Record run (lx lx' : lexer) : Prop := {
  run_src : src lx' = src lx;
  run_limit : limit lx' = limit lx;
  run_depth : depth lx' = depth lx;
  run_pos : (pos lx <= pos lx')%nat;
  run_bound : (pos lx <= limit lx)%nat -> (pos lx' <= limit lx)%nat;
  run_located base : located base lx -> located base lx';
  run_diags : exists ds, diags lx' = diags lx ++ ds /\ errors lx' = (errors lx + length ds)%nat;
  run_cap : (errors lx <= S LEX_ERRORS_MAX)%nat -> (errors lx' <= S LEX_ERRORS_MAX)%nat;
  run_ok : (ok lx' = ok lx /\ errors lx' = errors lx) \/
           (ok lx' = false /\ (errors lx < errors lx' \/ LEX_ERRORS_MAX < errors lx)%nat);
}.

#[export] Instance run_refl : Reflexive run.
Proof.
  intros lx. split; auto. exists []. rewrite app_nil_r. cbn. split; [done|lia].
Qed.

#[export] Instance run_trans : Transitive run.
Proof.
  intros a b c H1 H2. split; try (etrans; [apply H2|apply H1]).
  - etrans; [apply H1|apply H2].
  - intros H. rewrite <- (run_limit _ _ H1). apply (run_bound _ _ H2). rewrite (run_limit _ _ H1).
    apply (run_bound _ _ H1), H.
  - intros base H. apply (run_located _ _ H2), (run_located _ _ H1), H.
  - destruct (run_diags _ _ H1) as (d1 & E1 & N1), (run_diags _ _ H2) as (d2 & E2 & N2).
    exists (d1 ++ d2). rewrite E2, E1, N2, N1, app_assoc, length_app. split; [done|lia].
  - intros H. apply (run_cap _ _ H2), (run_cap _ _ H1), H.
  - destruct (run_diags _ _ H2) as (d2 & _ & N2).
    destruct (run_diags _ _ H1) as (d1 & _ & N1).
    destruct (run_ok _ _ H1) as [[O1 R1]|[O1 R1]], (run_ok _ _ H2) as [[O2 R2]|[O2 R2]];
      [left|right|right|right]; (split; [congruence|lia]).
Qed.

Lemma run_wf lx lx' : run lx lx' -> wf lx -> wf lx'.
Proof.
  intros H [W1 W2 W3]. split.
  - rewrite (run_limit _ _ H), (run_src _ _ H). done.
  - rewrite (run_limit _ _ H). apply (run_bound _ _ H), W2.
  - rewrite (run_src _ _ H). done.
Qed.

(** A step that pushes no token. *)
Record moves (lx lx' : lexer) : Prop := {
  moves_run : run lx lx';
  moves_out : out lx' = out lx;
}.

#[export] Instance moves_refl : Reflexive moves.
Proof. intros lx. split; reflexivity. Qed.

#[export] Instance moves_trans : Transitive moves.
Proof. intros a b c [H1 O1] [H2 O2]. split; [etrans; done|congruence]. Qed.

Lemma moves_wf lx lx' : moves lx lx' -> wf lx -> wf lx'.
Proof. intros [H _]. apply run_wf, H. Qed.

Lemma moves_pos lx lx' : moves lx lx' -> (pos lx <= pos lx')%nat.
Proof. intros [H _]. apply run_pos, H. Qed.

Lemma moves_src lx lx' : moves lx lx' -> src lx' = src lx.
Proof. intros [H _]. apply run_src, H. Qed.

Lemma moves_limit lx lx' : moves lx lx' -> limit lx' = limit lx.
Proof. intros [H _]. apply run_limit, H. Qed.

Lemma moves_errors lx lx' : moves lx lx' -> (errors lx <= errors lx')%nat.
Proof. intros [H _]. destruct (run_diags _ _ H) as (? & _ & ->). lia. Qed.

(** The tokens [ts] lie in order, apart, between [a] and [b]. *)
Inductive chain : nat -> nat -> list token -> Prop :=
| chain_nil a b : (a <= b)%nat -> chain a b []
| chain_cons a b t ts : (a <= t_offset t)%nat -> chain (t_end t) b ts -> chain a b (t :: ts).

Definition token_located (s : list Z) (base : nat) (t : token) : Prop :=
  (t_line t, t_column t) = locate (text_to s base (t_offset t)).

(** A step that may push tokens. *)
Record lexes (lx lx' : lexer) : Prop := {
  lexes_run : run lx lx';
  lexes_out : exists ts, out lx' = out lx ++ ts /\ chain (pos lx) (pos lx') ts /\
    Forall (fun t => t_kind t <> TOKEN_EOF) ts /\
    forall base, located base lx -> Forall (token_located (src lx) base) ts;
}.

Lemma chain_le a b ts : chain a b ts -> (a <= b)%nat.
Proof. induction 1; [done|]. unfold t_end in *. lia. Qed.

Lemma chain_app a b c ts us : chain a b ts -> chain b c us -> chain a c (ts ++ us).
Proof.
  induction 1 as [a b Hle|a b t ts Hle _ IH]; intros Hc; cbn [app].
  - destruct Hc as [|? ? t us ? ?]; [constructor; lia|constructor; [lia|done]].
  - constructor; [done|]. apply IH, Hc.
Qed.

#[export] Instance lexes_refl : Reflexive lexes.
Proof.
  intros lx. split; [done|]. exists []. rewrite app_nil_r. split; [done|]. split; [constructor; lia|].
  split; [constructor|]. intros; constructor.
Qed.

#[export] Instance lexes_trans : Transitive lexes.
Proof.
  intros a b c [R1 (t1 & E1 & C1 & K1 & L1)] [R2 (t2 & E2 & C2 & K2 & L2)]. split; [etrans; done|].
  exists (t1 ++ t2). rewrite E2, E1, app_assoc. split; [done|].
  split; [apply (chain_app _ (pos b)); done|]. split; [apply Forall_app_2; done|]. intros base Hb. apply Forall_app_2; [apply L1, Hb|].
  rewrite <- (run_src _ _ R1). apply L2, (run_located _ _ R1), Hb.
Qed.

Lemma moves_lexes lx lx' : moves lx lx' -> lexes lx lx'.
Proof.
  intros [R E]. split; [done|]. exists []. rewrite app_nil_r. split; [done|].
  split; [constructor; apply R|]. split; [constructor|]. intros; constructor.
Qed.

Lemma run_push_value lx kind start l c v : run lx (push_value kind start l c v lx).
Proof. split; auto. exists []. rewrite app_nil_r. cbn. split; [done|lia]. Qed.

(** The token of the bytes that a step read. *)
Lemma lexes_push_value lx lx' kind v :
  kind <> TOKEN_EOF -> moves lx lx' ->
  lexes lx (push_value kind (pos lx) (line lx) (column lx) v lx').
Proof.
  intros Hk [R E]. split; [etrans; [exact R|apply run_push_value]|].
  eexists [_]. cbn [push_value set_out out pos]. rewrite E. split; [reflexivity|]. split.
  - constructor; [done|]. constructor. unfold t_end. cbn. pose proof (run_pos _ _ R). lia.
  - split; [constructor; [done|constructor]|].
    intros base [Hb HL]. constructor; [|constructor]. unfold token_located. cbn. done.
Qed.

Lemma lexes_push lx lx' kind :
  kind <> TOKEN_EOF -> moves lx lx' -> lexes lx (push kind (pos lx) (line lx) (column lx) lx').
Proof. apply lexes_push_value. Qed.

(** ** Reading and advancing *)

Lemma at_bound lx a : at_ lx a <> -1 -> (pos lx + a < limit lx)%nat.
Proof. unfold at_. destruct (Nat.ltb_spec (pos lx + a) (limit lx)); [done|congruence]. Qed.

Lemma at_byte lx a : wf lx -> (pos lx + a < limit lx)%nat -> is_byte (at_ lx a).
Proof.
  intros [W1 W2 W3] H. unfold at_, byte_at. destruct (Nat.ltb_spec (pos lx + a) (limit lx)); [|lia].
  eapply Forall_forall; [exact W3|]. apply list_elem_of_In, nth_In. lia.
Qed.

Lemma at_end lx a : wf lx -> at_ lx a = -1 <-> (limit lx <= pos lx + a)%nat.
Proof.
  intros W. split; intros H.
  - destruct (Nat.lt_ge_cases (pos lx + a) (limit lx)) as [Hl|]; [|done].
    pose proof (at_byte lx a W Hl) as Hb. unfold is_byte in Hb. lia.
  - unfold at_. destruct (Nat.ltb_spec (pos lx + a) (limit lx)); [lia|done].
Qed.

Lemma locate_app bs b :
  locate (bs ++ [b]) = let '(l, c) := locate bs in if b =? 10 then (l + 1, 1) else (l, c + 1).
Proof. unfold locate. rewrite fold_left_app. cbn [fold_left]. destruct (fold_left _ bs _). done. Qed.

Lemma text_to_step s base p b :
  (base <= p)%nat -> (p < length s)%nat -> nth p s 0 = b -> text_to s base (S p) = text_to s base p ++ [b].
Proof.
  intros Hb Hp Hn. unfold text_to. replace (S p - base)%nat with (S (p - base)) by lia.
  apply take_S_r. rewrite lookup_drop. replace (base + (p - base))%nat with p by lia.
  destruct (lookup_lt_is_Some_2 s p Hp) as [x Hx]. rewrite <- Hn, nth_lookup, Hx. done.
Qed.

Lemma advance_pos lx : pos (advance lx) = S (pos lx).
Proof. unfold advance. destruct (_ =? _); done. Qed.

Lemma moves_advance lx : wf lx -> (pos lx < limit lx)%nat -> moves lx (advance lx).
Proof.
  intros [W1 W2 W3] H.
  assert (forall l c, (forall base, located base lx -> located base (set_place (S (pos lx)) l c lx)) ->
    moves lx (set_place (S (pos lx)) l c lx)) as Hm.
  { intros l c Hl. split; [|done]. split; cbn; auto; try lia.
    exists []. rewrite app_nil_r. cbn. split; [done|lia]. }
  unfold advance. destruct (byte_at lx (pos lx) =? 10) eqn:E; apply Hm; intros base [Hb HL];
    (split; [cbn; lia|]); cbn [line column src pos set_place];
    rewrite (text_to_step _ _ _ (byte_at lx (pos lx))) by (lia || done);
    rewrite locate_app, <- HL, E; done.
Qed.

Lemma moves_advance_at lx : wf lx -> at_ lx 0 <> -1 -> moves lx (advance lx).
Proof. intros W H%at_bound. apply moves_advance; [done|lia]. Qed.

Lemma advance_n_S n lx : advance_n (S n) lx = advance (advance_n n lx).
Proof. done. Qed.

Lemma advance_n_pos n lx : pos (advance_n n lx) = (n + pos lx)%nat.
Proof. induction n as [|n IH]; [done|]. rewrite advance_n_S, advance_pos, IH. done. Qed.

Lemma moves_advance_n n lx : wf lx -> (pos lx + n <= limit lx)%nat -> moves lx (advance_n n lx).
Proof.
  intros W. induction n as [|n IH]; intros H; [reflexivity|]. rewrite advance_n_S.
  assert (moves lx (advance_n n lx)) as Hn by (apply IH; lia).
  etrans; [exact Hn|]. apply moves_advance; [exact (moves_wf _ _ Hn W)|].
  rewrite advance_n_pos, (moves_limit _ _ Hn). lia.
Qed.

Lemma moves_error_at lx l c m : moves lx (error_at l c m lx).
Proof.
  unfold error_at. split; [|destruct (_ <? _)%nat; done].
  destruct (Nat.ltb_spec LEX_ERRORS_MAX (errors lx)).
  - split; cbn; auto. exists []. rewrite app_nil_r. cbn. split; [done|lia].
  - split; cbn; auto; try lia. eexists [_]. cbn. split; [reflexivity|lia].
Qed.

(** An error counts, or the run already stops. *)
Lemma error_at_counts lx l c m :
  (errors lx <= LEX_ERRORS_MAX)%nat -> errors (error_at l c m lx) = S (errors lx).
Proof. intros. unfold error_at. destruct (Nat.ltb_spec LEX_ERRORS_MAX (errors lx)); [lia|]. done. Qed.

Lemma error_at_pos lx l c m : pos (error_at l c m lx) = pos lx.
Proof. unfold error_at. destruct (_ <? _)%nat; done. Qed.

Lemma error_at_at lx l c m a : at_ (error_at l c m lx) a = at_ lx a.
Proof. unfold error_at. destruct (_ <? _)%nat; done. Qed.

Lemma error_at_limit lx l c m : limit (error_at l c m lx) = limit lx.
Proof. unfold error_at. destruct (_ <? _)%nat; done. Qed.

Lemma push_value_pos kind start l c v lx : pos (push_value kind start l c v lx) = pos lx.
Proof. done. Qed.

Lemma push_pos kind start l c lx : pos (push kind start l c lx) = pos lx.
Proof. done. Qed.

#[export] Hint Rewrite advance_pos advance_n_pos error_at_pos error_at_limit push_value_pos push_pos
  : lexer.

(** Discharges the side conditions on positions. *)
Ltac lexer_lia := autorewrite with lexer in *; unfold remaining in *; cbn [pos limit set_depth] in *; lia.

(** A loop that advances while its condition holds, a condition that the end
    of the input does not meet. *)
Lemma moves_while lx cond :
  wf lx -> (forall s, wf s -> at_ s 0 = -1 -> cond s = false) ->
  moves lx (while_ (S (remaining lx)) cond advance lx) /\
  cond (while_ (S (remaining lx)) cond advance lx) = false.
Proof.
  intros W Hc. apply (while_ind (moves lx) remaining); [|reflexivity|lia].
  intros s Hs E. pose proof (moves_wf _ _ Hs W) as Ws.
  assert (at_ s 0 <> -1) as Ha by (intros H; rewrite Hc in E; done).
  pose proof (moves_advance_at s Ws Ha) as Hm.
  split; [etrans; done|]. apply at_bound in Ha. unfold remaining. rewrite (moves_limit _ _ Hm).
  lexer_lia.
Qed.

Lemma moves_advance_while lx cond :
  wf lx -> cond (-1) = false ->
  moves lx (advance_while cond lx) /\ cond (at_ (advance_while cond lx) 0) = false.
Proof. intros W Hc. apply moves_while; [done|]. intros s _ ->. done. Qed.

(** The loops that start on a byte they read make progress. *)
Lemma while_progress {S} fuel cond (body : S -> S) s :
  cond s = true -> while_ (Datatypes.S fuel) cond body s = while_ fuel cond body (body s).
Proof. intros E. unfold while_. cbn [iterate]. rewrite E. done. Qed.

Lemma advance_while_progress lx cond :
  wf lx -> cond (-1) = false -> cond (at_ lx 0) = true -> (pos lx < pos (advance_while cond lx))%nat.
Proof.
  intros W Hc E. unfold advance_while. rewrite while_progress by done.
  assert (at_ lx 0 <> -1) as Ha by congruence.
  pose proof (moves_advance_at lx W Ha) as Hm. apply at_bound in Ha.
  replace (remaining lx) with (S (remaining (advance lx)))
    by (unfold remaining; rewrite (moves_limit _ _ Hm), advance_pos; lia).
  destruct (moves_advance_while (advance lx) cond (moves_wf _ _ Hm W) Hc) as [H _].
  apply moves_pos in H. unfold advance_while in H. lexer_lia.
Qed.

(** What [count_while] counts. *)
Lemma count_from_spec fuel cond lx i :
  cond (-1) = false -> (limit lx - (pos lx + i) < fuel)%nat ->
  let n := count_from fuel cond lx i in
  (i <= n)%nat /\ (forall j, (i <= j < n)%nat -> cond (at_ lx j) = true) /\ cond (at_ lx n) = false.
Proof.
  intros Hc. revert i. induction fuel as [|f IH]; intros i Hf; [lia|]. cbn [count_from].
  destruct (cond (at_ lx i)) eqn:E; [|repeat split; [lia|lia|done]].
  assert (pos lx + i < limit lx)%nat by (apply at_bound; congruence).
  destruct (IH (S i)) as (H1 & H2 & H3); [lia|]. repeat split; [lia| |done].
  intros j Hj. destruct (decide (j = i)) as [->|]; [done|]. apply H2. lia.
Qed.

Lemma count_while_spec cond lx i :
  cond (-1) = false -> let n := count_while cond lx i in
  (i <= n)%nat /\ (forall j, (i <= j < n)%nat -> cond (at_ lx j) = true) /\ cond (at_ lx n) = false.
Proof. intros. apply count_from_spec; [done|]. unfold remaining. lia. Qed.

(** Bytes read ahead bound the position. *)
Lemma count_while_bound cond lx i :
  cond (-1) = false -> (pos lx + i <= limit lx)%nat -> (pos lx + count_while cond lx i <= limit lx)%nat.
Proof.
  intros Hc Hi. destruct (count_while_spec cond lx i Hc) as (H1 & H2 & _).
  destruct (decide (count_while cond lx i = i)) as [->|]; [done|].
  assert (at_ lx (count_while cond lx i - 1) <> -1) as H%at_bound; [|lia].
  intros E. specialize (H2 (count_while cond lx i - 1)%nat ltac:(lia)). rewrite E in H2. congruence.
Qed.

(** ** Comments *)

Lemma doc_marker_len lx a k n :
  doc_marker lx a = (k, n) -> k <> TOKEN_EOF ->
  (pos lx + a + n <= limit lx)%nat /\ (3 <= n)%nat /\ at_ lx a = 47.
Proof.
  unfold doc_marker. intros E Hk.
  destruct (Z.eqb_spec (at_ lx a) 47) as [Ha|]; cbn [negb orb] in E; [|congruence].
  destruct (negb (at_ lx (a + 1) =? 47) && negb (at_ lx (a + 1) =? 42)); [congruence|].
  assert (forall c, c <> -1 -> at_ lx (a + 2) = c -> (pos lx + a + 3 <= limit lx)%nat) as H2
    by (intros c Hc E2; pose proof (at_bound lx (a + 2)); lia).
  destruct ((at_ lx (a + 2) =? 35) && (at_ lx (a + 3) =? 33)) eqn:E1; bool_to_prop.
  { injection E as <- <-. pose proof (at_bound lx (a + 3)). repeat split; [lia|lia|done]. }
  destruct (Z.eqb_spec (at_ lx (a + 2)) 35); [injection E as <- <-; repeat split; [eapply H2; [|eassumption]; lia|lia|done]|].
  destruct (Z.eqb_spec (at_ lx (a + 2)) 33); [injection E as <- <-; repeat split; [eapply H2; [|eassumption]; lia|lia|done]|].
  repeat match type of E with
  | (if ?b then _ else _) = _ => destruct b eqn:?; bool_to_prop
  end; [injection E as <- <-; repeat split; [eapply H2; [|eassumption]; lia|lia|done].. |congruence].
Qed.

Lemma at_close_bound lx : at_close lx = true -> (pos lx + 2 <= limit lx)%nat.
Proof. unfold at_close. intros H. bool_to_prop. pose proof (at_bound lx 1). lia. Qed.

Lemma moves_skip_block skip lx lx' closed :
  wf lx -> (pos lx + skip <= limit lx)%nat -> skip_block skip lx = (lx', closed) ->
  moves lx lx' /\ (pos lx + skip + (if closed then 2 else 0) <= pos lx')%nat.
Proof.
  intros W Hs. unfold skip_block. cbv zeta.
  assert (moves lx (advance_n skip lx)) as H1 by (apply moves_advance_n; done).
  pose proof (moves_wf _ _ H1 W) as W1.
  destruct (moves_while (advance_n skip lx) (fun lx => negb (at_close lx) && negb (at_ lx 0 =? -1)) W1)
    as [H2 _]; [intros s _ ->; apply andb_false_r|].
  pose proof (moves_pos _ _ H2) as P2. destruct (at_close _) eqn:E; intros [= <- <-].
  - apply at_close_bound in E. split; [|lexer_lia].
    etrans; [exact H1|]. etrans; [exact H2|]. apply (moves_advance_n 2); [exact (moves_wf _ _ H2 W1)|done].
  - split; [etrans; done|lexer_lia].
Qed.

Lemma moves_to_line_end lx : wf lx -> moves lx (to_line_end lx).
Proof. intros W. apply moves_advance_while; done. Qed.

Lemma skip_trivia_spec lx :
  wf lx -> moves lx (skip_trivia lx).
Proof.
  intros W. unfold skip_trivia.
  apply (iterate_ind (moves lx) (moves lx) remaining); [|reflexivity|lia].
  intros s Hs. pose proof (moves_wf _ _ Hs W) as Ws. cbv zeta.
  destruct (is_space (at_ s 0)) eqn:E1.
  { assert (at_ s 0 <> -1) as Ha by (intros H; rewrite H in E1; done).
    pose proof (moves_advance_at s Ws Ha) as Hm. split; [etrans; done|].
    apply at_bound in Ha. unfold remaining. rewrite (moves_limit _ _ Hm). lexer_lia. }
  destruct (Z.eqb_spec (at_ s 0) 47) as [E0|]; cbn [negb orb]; [|done].
  destruct (negb _); [done|].
  destruct (Z.eqb_spec (at_ s 1) 47) as [E2|].
  { pose proof (moves_to_line_end s Ws) as Hm. split; [etrans; done|].
    pose proof (advance_while_progress s (fun c => negb (c =? -1) && negb (c =? 10)) Ws eq_refl) as Hp.
    rewrite E0 in Hp. specialize (Hp eq_refl). pose proof (at_bound s 0).
    unfold remaining. rewrite (moves_limit _ _ Hm). unfold to_line_end in *. lia. }
  destruct (Z.eqb_spec (at_ s 1) 42) as [E2|]; [|done].
  assert (pos s + 2 <= limit s)%nat as Hb by (pose proof (at_bound s 1); lia).
  destruct (skip_block 2 s) as [s' closed] eqn:E.
  destruct (moves_skip_block 2 s s' closed Ws Hb E) as [Hm Hp].
  destruct closed.
  - split; [etrans; done|]. unfold remaining. rewrite (moves_limit _ _ Hm). lia.
  - etrans; [exact Hs|]. etrans; [exact Hm|]. apply moves_error_at.
Qed.

Lemma line_doc_spec kind marker lx :
  wf lx -> (pos lx + marker <= limit lx)%nat -> (0 < marker)%nat -> kind <> TOKEN_EOF ->
  lexes lx (line_doc kind marker lx) /\ (pos lx < pos (line_doc kind marker lx))%nat.
Proof.
  intros W Hm Hm0 Hk. unfold line_doc.
  set (loop := iterate _ _ _).
  assert (moves lx loop.1.1 /\ (pos lx < pos loop.1.1)%nat) as [H1 H2].
  { unfold loop. apply (iterate_ind
      (fun '(s, _, m) => moves lx s /\ (pos s + m <= limit s)%nat /\ (0 < m)%nat)
      (fun s => moves lx s.1.1 /\ (pos lx < pos s.1.1)%nat)
      (fun '(s, _, m) => remaining s)); [|split; [reflexivity|done]|lia].
    intros [[s raw] m] (Hs & Hb & Hm0'). cbv zeta. pose proof (moves_wf _ _ Hs W) as Ws.
    pose proof (moves_advance_n m s Ws Hb) as H1. pose proof (moves_wf _ _ H1 Ws) as W1.
    pose proof (moves_to_line_end _ W1) as H2. pose proof (moves_wf _ _ H2 W1) as W2.
    assert (moves lx (to_line_end (advance_n m s))) as H by (do 2 (etrans; [eassumption|]); done).
    assert (pos s + m <= pos (to_line_end (advance_n m s)))%nat as Hp
      by (apply moves_pos in H2; lexer_lia).
    assert (pos lx < pos (to_line_end (advance_n m s)))%nat by (apply moves_pos in Hs; lia).
    set (e := to_line_end (advance_n m s)) in *.
    destruct (Z.eqb_spec (at_ e 0) 10) as [E0|]; cbn [negb]; [|done].
    destruct (doc_marker e _) as [k n] eqn:Ed.
    set (next := count_while _ e 1) in *.
    destruct (negb (at_ e (next + 1) =? 47)); cbn [orb]; [done|].
    destruct (bool_decide (k = kind)) eqn:Ek; cbn [negb]; [|done].
    apply bool_decide_eq_true in Ek as ->.
    destruct (doc_marker_len _ _ _ _ Ed Hk) as (Hl & Hn & _).
    assert (moves e (advance_n next e)) as H3 by (apply moves_advance_n; [done|lia]).
    split; [split; [etrans; done|]|].
    - rewrite (moves_limit _ _ H3). split; [lexer_lia|lia].
    - assert (limit e = limit s) as Hle by (rewrite (moves_limit _ _ H2), (moves_limit _ _ H1); done).
      unfold remaining. rewrite (moves_limit _ _ H3). lexer_lia. }
  destruct loop as [[s raw] m]. cbn in H1, H2. split; [|done]. apply lexes_push_value; done.
Qed.

Lemma block_line_loop lx blank :
  wf lx ->
  let r := while_ (S (remaining lx))
    (fun '(lx, _) => negb (at_ lx 0 =? -1) && negb (at_ lx 0 =? 10) && negb (at_close lx))
    (fun '(lx, blank) => (advance lx, blank && is_blank (at_ lx 0))) (lx, blank) in
  moves lx r.1 /\ (at_ r.1 0 = -1 \/ at_ r.1 0 = 10 \/ at_close r.1 = true).
Proof.
  intros W. cbv zeta.
  set (cond := fun '(lx, _) => negb (at_ lx 0 =? -1) && negb (at_ lx 0 =? 10) && negb (at_close lx)).
  destruct (while_ind (fun s => moves lx s.1) (fun s => remaining s.1) cond
    (fun '(lx, blank) => (advance lx, blank && is_blank (at_ lx 0))) (S (remaining lx)) (lx, blank))
    as [H E]; [|reflexivity|cbn; lia|].
  - intros [s b] Hs E. cbn [fst cond] in *. bool_to_prop.
    pose proof (moves_advance_at s (moves_wf _ _ Hs W) ltac:(done)) as Hm. split; [etrans; done|].
    pose proof (at_bound s 0). unfold remaining. rewrite (moves_limit _ _ Hm). lexer_lia.
  - split; [exact H|]. destruct (while_ _ _ _ _) as [s b]. cbn [fst cond] in *.
    destruct (Z.eqb_spec (at_ s 0) (-1)); [by left|]. destruct (Z.eqb_spec (at_ s 0) 10); [by right; left|].
    right; right. destruct (at_close s); done.
Qed.

Lemma moves_block_lines l c lx : wf lx -> moves lx (block_lines l c lx).1.
Proof.
  intros W. unfold block_lines. cbv zeta. cbn [fst].
  apply (iterate_ind (fun s => moves lx (b_lx s)) (fun s => moves lx (b_lx s)) (fun s => remaining (b_lx s)));
    [|reflexivity|cbn; lia].
  intros s Hs. pose proof (moves_wf _ _ Hs W) as Ws. cbv zeta.
  pose proof (block_line_loop (b_lx s) true Ws) as H. cbv zeta in H.
  destruct (while_ _ _ _ _) as [s' blank]. cbn [fst] in H. destruct H as [H1 H2].
  pose proof (moves_wf _ _ H1 Ws) as W1. assert (moves lx s') as H by (etrans; done).
  destruct (Z.eqb_spec (at_ s' 0) (-1)) as [|Hne].
  { cbn [b_lx]. etrans; [exact H|]. apply moves_error_at. }
  destruct (Z.eqb_spec (at_ s' 0) 42) as [E|Hne2].
  - assert (at_close s' = true) as Hc%at_close_bound by (destruct H2 as [|[|]]; [lia|lia|done]).
    assert (moves lx (advance_n 2 s')) as H3
      by (etrans; [exact H|]; apply (moves_advance_n 2); done).
    destruct (negb blank); cbn [b_lx]; [|done]. etrans; [exact H3|]. apply moves_error_at.
  - cbn [b_lx]. pose proof (moves_advance_at s' W1 Hne) as H3. split; [etrans; done|].
    pose proof (at_bound s' 0 Hne). pose proof (moves_pos _ _ H1). unfold remaining.
    rewrite (moves_limit _ _ H3), (moves_limit _ _ H1) in *. lexer_lia.
Qed.

Lemma close_on_line_spec fuel lx i j :
  close_on_line fuel lx i = Some j -> (i <= j)%nat /\ at_ lx j = 42 /\ at_ lx (j + 1) = 47.
Proof.
  revert i. induction fuel as [|f IH]; intros i; [done|]. cbn [close_on_line].
  destruct (negb (at_ lx i =? -1) && negb (at_ lx i =? 10)); [|done].
  destruct ((at_ lx i =? 42) && (at_ lx (i + 1) =? 47)) eqn:E.
  - intros [= <-]. bool_to_prop. done.
  - intros H%IH. split; [lia|]. apply H.
Qed.

Lemma trim_back_le lx i : (trim_back lx i <= i)%nat.
Proof. induction i as [|i IH]; cbn; [lia|]. destruct (is_blank _); lia. Qed.

Lemma block_doc_text_spec start l c marker lx :
  wf lx -> (pos lx + marker <= limit lx)%nat ->
  let '(lx', r) := block_doc_text start l c marker lx in
  moves lx lx' /\ (pos lx + marker <= pos lx')%nat.
Proof.
  intros W Hm. unfold block_doc_text. cbv zeta.
  pose proof (moves_advance_n marker lx W Hm) as H1. pose proof (moves_wf _ _ H1 W) as W1.
  destruct (moves_advance_while (advance_n marker lx) is_blank W1 eq_refl) as [H2 _].
  pose proof (moves_wf _ _ H2 W1) as W2.
  assert (pos lx + marker <= pos (advance_while is_blank (advance_n marker lx)))%nat as Hp
    by (apply moves_pos in H2; lexer_lia).
  set (s := advance_while is_blank (advance_n marker lx)) in *.
  assert (moves lx s) as Hs by (etrans; done).
  enough (forall s' : lexer, moves s s' -> moves lx s' /\ (pos lx + marker <= pos s')%nat) as Hgo.
  2: { intros s' H. split; [etrans; done|]. apply moves_pos in H. lia. }
  destruct (close_on_line _ _ _) as [i|] eqn:E.
  - apply close_on_line_spec in E as (_ & _ & E). pose proof (at_bound s (i + 1)).
    pose proof (trim_back_le s i). set (j := trim_back s i) in *.
    assert (moves s (advance_n j s)) as H3 by (apply moves_advance_n; [done|lia]).
    destruct (skip_block 0 (advance_n j s)) as [s' closed] eqn:Eb. cbn [fst].
    apply Hgo. etrans; [exact H3|].
    eapply moves_skip_block; [|..|exact Eb]; [exact (moves_wf _ _ H3 W2)|].
    rewrite (moves_limit _ _ H3). lexer_lia.
  - destruct (Z.eqb_spec (at_ s 0) 10) as [E0|]; cbn [negb].
    + pose proof (moves_advance_at s W2 ltac:(lia)) as H3.
      pose proof (moves_block_lines l c (advance s) (moves_wf _ _ H3 W2)) as H4.
      destruct (block_lines l c (advance s)) as [s' r]. cbn [fst] in H4. apply Hgo. etrans; done.
    + destruct (skip_block 0 s) as [s' closed] eqn:Eb.
      apply moves_skip_block in Eb as [H3 _]; [|done|pose proof (wf_pos _ W2); lia].
      apply Hgo. etrans; [exact H3|]. destruct closed; apply moves_error_at.
Qed.

Lemma block_doc_spec kind marker lx :
  kind <> TOKEN_EOF -> wf lx -> (pos lx + marker <= limit lx)%nat -> (0 < marker)%nat ->
  lexes lx (block_doc kind marker lx) /\ (pos lx < pos (block_doc kind marker lx))%nat.
Proof.
  intros Hk W Hm Hm0. unfold block_doc.
  pose proof (block_doc_text_spec (pos lx) (line lx) (column lx) marker lx W Hm) as H.
  destruct (block_doc_text _ _ _ _ _) as [s [raw|]]; destruct H as [H1 H2].
  - split; [apply lexes_push_value; done|]. cbn. lia.
  - split; [apply moves_lexes; done|]. lia.
Qed.

(** ** Words and numbers *)

Lemma word_kind_not_eof s : word_kind s <> TOKEN_EOF.
Proof.
  unfold word_kind. destruct (first_kind _) as [k|] eqn:F.
  - apply first_kind_some, andb_true_iff in F as [F _]. intros ->. done.
  - destruct (existsb _ _); done.
Qed.

Lemma identifier_spec lx :
  wf lx -> is_ident_start (at_ lx 0) = true ->
  let lx' := identifier (pos lx) (line lx) (column lx) lx in lexes lx lx' /\ (pos lx < pos lx')%nat.
Proof.
  intros W Hs. cbv zeta. unfold identifier.
  assert (is_ident_char (at_ lx 0) = true) as Hc by (unfold is_ident_char; rewrite Hs; done).
  destruct (moves_advance_while lx is_ident_char W eq_refl) as [H _].
  pose proof (advance_while_progress lx is_ident_char W eq_refl Hc) as Hp.
  destruct (is_null _).
  - split; [apply lexes_push; [done|]; etrans; [exact H|apply moves_error_at]|]. lexer_lia.
  - split; [apply lexes_push; [apply word_kind_not_eof|exact H]|]. exact Hp.
Qed.

Lemma moves_digit_run hex lx : wf lx -> moves lx (digit_run hex lx).1.1.
Proof.
  intros W. unfold digit_run.
  apply (iterate_ind (fun s => moves lx s.1.1) (fun s => moves lx s.1.1) (fun s => remaining s.1.1));
    [|reflexivity|cbn; lia].
  intros [[s ds] fine] Hs. cbn [fst] in *. pose proof (moves_wf _ _ Hs W) as Ws. cbv zeta.
  destruct ((if hex then is_hex else is_digit) (at_ s 0) || (at_ s 0 =? 95)) eqn:E; [|done].
  assert (at_ s 0 <> -1) as Ha by (intros H; rewrite H in E; destruct hex; done).
  assert (moves lx (advance s) /\ (remaining (advance s) < remaining s)%nat) as Hgo.
  { pose proof (moves_advance_at s Ws Ha) as Hm. split; [etrans; done|].
    pose proof (at_bound s 0 Ha). unfold remaining. rewrite (moves_limit _ _ Hm). lexer_lia. }
  destruct (at_ s 0 =? 95); [|exact Hgo].
  destruct (negb _); [done|exact Hgo].
Qed.

(** A digit is read. *)
Lemma iterate_stop {S} fuel (step : S -> S * bool) s s' :
  step s = (s', false) -> iterate (Datatypes.S fuel) step s = s'.
Proof. intros E. cbn. rewrite E. done. Qed.

Lemma iterate_more {S} fuel (step : S -> S * bool) s s' :
  step s = (s', true) -> iterate (Datatypes.S fuel) step s = iterate fuel step s'.
Proof. intros E. cbn. rewrite E. done. Qed.

Lemma digit_run_progress (hex : bool) lx :
  wf lx -> (if hex then is_hex else is_digit) (at_ lx 0) = true ->
  (pos lx < pos (digit_run hex lx).1.1)%nat.
Proof.
  intros W E. unfold digit_run.
  assert (at_ lx 0 <> -1) as Ha by (intros H; rewrite H in E; destruct hex; done).
  assert (at_ lx 0 <> 95) as Hu by (intros H; rewrite H in E; destruct hex; done).
  rewrite (iterate_more _ _ _ (advance lx, [at_ lx 0], true)).
  2: { cbv beta zeta. rewrite E. cbn [orb]. rewrite (proj2 (Z.eqb_neq _ _) Hu). reflexivity. }
  pose proof (moves_advance_at lx W Ha) as Hm. pose proof (at_bound lx 0 Ha).
  apply (iterate_ind (fun s => moves (advance lx) s.1.1) (fun s => (pos lx < pos s.1.1)%nat)
    (fun s => remaining s.1.1)); [|reflexivity|cbn [fst]; unfold remaining; rewrite (moves_limit _ _ Hm); lexer_lia].
  intros [[s ds] fine] Hs. cbn [fst] in *.
  pose proof (moves_wf _ _ Hs (moves_wf _ _ Hm W)) as Ws. cbv zeta.
  pose proof (moves_pos _ _ Hs) as Hp. rewrite advance_pos in Hp.
  destruct ((if hex then is_hex else is_digit) (at_ s 0) || (at_ s 0 =? 95)) eqn:E'; [|cbn; lia].
  assert (at_ s 0 <> -1) as Ha' by (intros H'; rewrite H' in E'; destruct hex; done).
  assert (moves (advance lx) (advance s) /\ (remaining (advance s) < remaining s)%nat) as Hgo.
  { pose proof (moves_advance_at s Ws Ha') as Hm'. split; [etrans; done|].
    pose proof (at_bound s 0 Ha'). unfold remaining. rewrite (moves_limit _ _ Hm'). lexer_lia. }
  destruct (at_ s 0 =? 95); [|exact Hgo].
  destruct (negb _); [cbn [fst]; lia|exact Hgo].
Qed.

(** What a step that ends with a token of the bytes it read shows. *)
Definition token_step (lx lx1 lx' : lexer) : Prop := lexes lx lx' /\ (pos lx1 <= pos lx')%nat.

Lemma number_error_spec lx lx1 m :
  wf lx -> moves lx lx1 -> token_step lx lx1 (number_error (pos lx) (line lx) (column lx) m lx1).
Proof.
  intros W H1. unfold number_error, token_step. cbv zeta.
  pose proof (moves_error_at lx1 (line lx) (column lx) m) as H2.
  assert (wf (error_at (line lx) (column lx) m lx1)) as W2
    by (eapply moves_wf; [exact H2|]; eapply moves_wf; done).
  destruct (moves_while _ (fun lx => is_ident_char (at_ lx 0) || ((at_ lx 0 =? 46) && is_digit (at_ lx 1))) W2)
    as [H3 _]; [intros s _ ->; done|].
  split; [apply lexes_push; [done|]; do 2 (etrans; [eassumption|]); done|].
  apply moves_pos in H3. lexer_lia.
Qed.

Lemma push_spec lx lx1 kind v :
  kind <> TOKEN_EOF -> moves lx lx1 ->
  token_step lx lx1 (push_value kind (pos lx) (line lx) (column lx) v lx1).
Proof. intros Hk H. split; [apply lexes_push_value; done|]. done. Qed.

Lemma token_step_le lx lx1 lx2 lx' :
  (pos lx1 <= pos lx2)%nat -> token_step lx lx2 lx' -> token_step lx lx1 lx'.
Proof. intros Hp [H1 H2]. split; [done|lia]. Qed.

Lemma float_literal_spec lx lx1 digits :
  wf lx -> moves lx lx1 -> at_ lx1 0 = 46 ->
  token_step lx lx1 (float_literal (pos lx) (line lx) (column lx) digits lx1).
Proof.
  intros W H1 E0. unfold float_literal. pose proof (moves_wf _ _ H1 W) as W1.
  pose proof (moves_advance_at lx1 W1 ltac:(lia)) as H2. pose proof (moves_wf _ _ H2 W1) as W2.
  pose proof (moves_digit_run false _ W2) as H3. destruct (digit_run false (advance lx1)) as [[s more] fine].
  cbn [fst] in H3. pose proof (moves_wf _ _ H3 W2) as W3.
  assert (moves lx s) as Hs by (do 2 (etrans; [eassumption|]); done).
  assert (pos lx1 <= pos s)%nat as Hps by (apply moves_pos in H3; lexer_lia).
  assert (forall m, token_step lx lx1 (number_error (pos lx) (line lx) (column lx) m s)) as Herr
    by (intros m; eapply token_step_le; [exact Hps|]; apply number_error_spec; done).
  cbv zeta. destruct (negb fine); [apply Herr|].
  assert (forall ds u, moves s u -> token_step lx lx1
    (if is_ident_char (at_ u 0) then number_error (pos lx) (line lx) (column lx) E_numeric_character u
     else push_value TOKEN_FLOAT (pos lx) (line lx) (column lx) (Text ds) u)) as Hfin.
  { intros ds u Hu. apply (token_step_le _ _ u); [apply moves_pos in Hu; lia|].
    destruct (is_ident_char _); [apply number_error_spec|apply push_spec]; try done; etrans; done. }
  destruct ((at_ s 0 =? 101) || (at_ s 0 =? 69)) eqn:Ee; [|apply Hfin; reflexivity].
  assert (at_ s 0 <> -1) as Ha by (intros E; rewrite E in Ee; done).
  pose proof (moves_advance_at s W3 Ha) as H4. pose proof (moves_wf _ _ H4 W3) as W4.
  set (signed := (at_ (advance s) 0 =? 43) || (at_ (advance s) 0 =? 45)).
  set (t := if signed then advance (advance s) else advance s).
  assert (moves s t) as Ht.
  { unfold t. destruct signed eqn:E; [|done]. unfold signed in E.
    etrans; [exact H4|]. apply moves_advance_at; [done|]. intros E'. rewrite E' in E. done. }
  pose proof (moves_wf _ _ Ht W3) as Wt.
  assert (forall m u, moves s u -> token_step lx lx1 (number_error (pos lx) (line lx) (column lx) m u)) as Herr2.
  { intros m u Hu. apply (token_step_le _ _ u); [apply moves_pos in Hu; lia|].
    apply number_error_spec; [done|etrans; done]. }
  destruct (negb (is_digit (at_ t 0))); [apply Herr2; done|].
  pose proof (moves_digit_run false t Wt) as H5. destruct (digit_run false t) as [[u more2] fine2].
  cbn [fst] in H5. assert (moves s u) as Hu by (etrans; done).
  destruct (negb fine2); [apply Herr2; done|apply Hfin; done].
Qed.

Lemma number_spec lx :
  wf lx -> is_digit (at_ lx 0) = true ->
  let lx' := number (pos lx) (line lx) (column lx) lx in lexes lx lx' /\ (pos lx < pos lx')%nat.
Proof.
  intros W Hd. cbv zeta.
  assert (at_ lx 0 <> -1) as Ha by (intros E; rewrite E in Hd; done). pose proof (at_bound lx 0 Ha).
  unfold number. set (hex := (at_ lx 0 =? 48) && (at_ lx 1 =? 120)).
  set (s := if hex then advance_n 2 lx else lx). cbv zeta.
  assert (moves lx s /\ (if hex then pos lx < pos s else s = lx)%nat) as [Hs Hps].
  { unfold s. destruct hex eqn:E; [|done]. unfold hex in E. bool_to_prop. pose proof (at_bound lx 1).
    split; [apply moves_advance_n; [done|lia]|lexer_lia]. }
  pose proof (moves_wf _ _ Hs W) as Ws.
  assert (forall lx1 lx', (pos lx < pos lx1)%nat -> token_step lx lx1 lx' ->
    lexes lx lx' /\ (pos lx < pos lx')%nat) as Hgo by (intros lx1 lx' ? [? ?]; split; [done|lia]).
  destruct (hex && (at_ s 0 =? 95)) eqn:E1.
  { destruct hex; [|done]. apply (Hgo s); [done|]. apply number_error_spec; done. }
  destruct (hex && negb (is_hex (at_ s 0))) eqn:E2.
  { destruct hex; [|done]. apply (Hgo s); [done|]. apply number_error_spec; done. }
  assert ((if hex then is_hex else is_digit) (at_ s 0) = true) as Hv.
  { destruct hex; [apply negb_false_iff in E2; done|]. rewrite Hps. done. }
  pose proof (digit_run_progress hex s Ws Hv) as Hp. pose proof (moves_digit_run hex s Ws) as H1.
  destruct (digit_run hex s) as [[t digits] fine]. cbn [fst] in Hp, H1.
  assert (moves lx t) as Ht by (etrans; done).
  assert (pos lx < pos t)%nat as Hpt by (apply moves_pos in Hs; lia).
  assert (forall lx', token_step lx t lx' -> lexes lx lx' /\ (pos lx < pos lx')%nat) as Hgo'
    by (intros; eapply Hgo; done). clear Hgo.
  destruct (negb fine); [apply Hgo', number_error_spec; done|].
  destruct (negb hex && negb (after_dot lx) && (at_ t 0 =? 46) && is_digit (at_ t 1)) eqn:E3.
  { bool_to_prop. apply Hgo', float_literal_spec; done. }
  destruct (is_ident_char (at_ t 0)); [apply Hgo', number_error_spec; done|].
  destruct (negb hex && (1 <? length digits)%nat && (nth 0 digits 0 =? 48));
    [apply Hgo', number_error_spec; done|].
  destruct (digits_value _ _ _); apply Hgo'; [apply push_spec|apply number_error_spec]; done.
Qed.

(** ** Characters and strings *)

(** A step that reads no quote and no backslash. *)
Record plain (lx lx' : lexer) : Prop := {
  plain_moves : moves lx lx';
  plain_bytes i : (pos lx <= i < pos lx')%nat -> byte_at lx i <> 34 /\ byte_at lx i <> 92;
}.

#[export] Instance plain_refl : Reflexive plain.
Proof. intros lx. split; [done|lia]. Qed.

#[export] Instance plain_trans : Transitive plain.
Proof.
  intros a b c [M1 B1] [M2 B2]. split; [etrans; done|]. intros i Hi.
  destruct (Nat.lt_ge_cases i (pos b)); [apply B1; lia|].
  unfold byte_at. rewrite <- (moves_src _ _ M1). apply B2. lia.
Qed.

Lemma plain_advance lx :
  wf lx -> at_ lx 0 <> -1 -> at_ lx 0 <> 34 -> at_ lx 0 <> 92 -> plain lx (advance lx).
Proof.
  intros W H1 H2 H3. split; [apply moves_advance_at; done|].
  intros i Hi. rewrite advance_pos in Hi. assert (i = pos lx) as -> by lia.
  pose proof (at_bound lx 0 H1). unfold at_ in H2, H3. rewrite Nat.add_0_r in *.
  destruct (Nat.ltb_spec (pos lx) (limit lx)); [done|lia].
Qed.

Lemma plain_error lx l c m : plain lx (error_at l c m lx).
Proof. split; [apply moves_error_at|]. rewrite error_at_pos. lia. Qed.

Lemma is_hex_plain c : is_hex c = true -> c <> -1 /\ c <> 34 /\ c <> 92.
Proof. unfold is_hex, is_digit. rewrite !Z.geb_leb. intros H. repeat split; intros ->; done. Qed.

Lemma plain_hex lx : wf lx -> is_hex (at_ lx 0) = true -> plain lx (advance lx).
Proof. intros W H%is_hex_plain. apply plain_advance; tauto. Qed.

Lemma advance_at lx a : at_ (advance lx) a = at_ lx (S a).
Proof.
  unfold at_. rewrite advance_pos. unfold advance, byte_at. replace (S (pos lx) + a)%nat with (pos lx + S a)%nat by lia.
  destruct (nth (pos lx) (src lx) 0 =? 10); done.
Qed.

Lemma plain_unicode_digits fuel lx n cp : wf lx -> plain lx (unicode_digits fuel lx n cp).1.1.
Proof.
  revert lx n cp. induction fuel as [|f IH]; intros lx n cp W; [reflexivity|].
  cbn [unicode_digits]. destruct (is_hex (at_ lx 0)) eqn:E; [|reflexivity].
  pose proof (plain_hex lx W E) as H. etrans; [exact H|]. apply IH. eapply moves_wf; [apply H|done].
Qed.

Lemma escape_spec mode lx :
  wf lx -> at_ lx 0 = 92 ->
  let lx' := (escape mode lx).1 in
  moves lx lx' /\ (pos lx < pos lx')%nat /\
  (at_ lx 1 <> -1 -> plain (advance_n 2 lx) lx').
Proof.
  intros W E0. cbv zeta. unfold escape. cbv zeta.
  pose proof (moves_advance_at lx W ltac:(lia)) as H1. pose proof (moves_wf _ _ H1 W) as W1.
  destruct (Z.eqb_spec (at_ lx 1) (-1)) as [E1|E1].
  { cbn [fst]. split; [done|]. split; [lexer_lia|done]. }
  pose proof (moves_advance_at (advance lx) W1 ltac:(rewrite advance_at; done)) as H2.
  pose proof (moves_wf _ _ H2 W1) as W2.
  enough (forall p, plain (advance (advance lx)) p ->
    moves lx p /\ (pos lx < pos p)%nat /\ (at_ lx 1 <> -1 -> plain (advance_n 2 lx) p)) as Hgo.
  2: { intros p Hp. split; [do 2 (etrans; [eassumption|]); apply Hp|].
       split; [|done]. pose proof (moves_pos _ _ (plain_moves _ _ Hp)). lexer_lia. }
  set (s := advance (advance lx)) in *.
  repeat match goal with
  | |- context [if at_ lx 1 =? ?v then _ else _] =>
      destruct (at_ lx 1 =? v); [try (apply Hgo; cbn [fst]; (reflexivity || apply plain_error))|]
  end; [| | |apply Hgo, plain_error].
  - destruct (negb _); apply Hgo; [apply plain_error|reflexivity].
  - destruct (is_hex (at_ s 0)) eqn:X1; cbn [negb orb]; [|apply Hgo, plain_error].
    destruct (is_hex (at_ s 1)) eqn:X2; cbn [negb]; [|apply Hgo, plain_error].
    pose proof (plain_hex s W2 X1) as P1. pose proof (moves_wf _ _ (plain_moves _ _ P1) W2) as W3.
    pose proof (plain_hex (advance s) W3 ltac:(rewrite advance_at; done)) as P2.
    assert (plain s (advance_n 2 s)) as P by (etrans; done).
    assert (forall m l c, plain s (error_at l c m (advance_n 2 s))) as Pe
      by (intros; etrans; [exact P|apply plain_error]).
    repeat case_match; apply Hgo; cbn [fst]; (exact P || apply Pe).
  - destruct (Z.eqb_spec (at_ s 0) 123) as [X1|]; cbn [negb]; [|apply Hgo, plain_error].
    pose proof (plain_advance s W2 ltac:(lia) ltac:(lia) ltac:(lia)) as P1.
    pose proof (moves_wf _ _ (plain_moves _ _ P1) W2) as W3.
    pose proof (plain_unicode_digits 7 (advance s) 0 0 W3) as P2.
    destruct (unicode_digits 7 (advance s) 0 0) as [[t n] cp]. cbn [fst] in P2.
    pose proof (moves_wf _ _ (plain_moves _ _ P2) W3) as W4.
    assert (plain s t) as P by (etrans; done).
    destruct ((n =? 0)%nat || (6 <? n)%nat); cbn [orb]; [apply Hgo; etrans; [exact P|apply plain_error]|].
    destruct (Z.eqb_spec (at_ t 0) 125) as [X2|]; cbn [negb]; [|apply Hgo; etrans; [exact P|apply plain_error]].
    pose proof (plain_advance t W4 ltac:(lia) ltac:(lia) ltac:(lia)) as P3.
    assert (plain s (advance t)) as P4 by (etrans; done).
    assert (forall m l c, plain s (error_at l c m (advance t))) as Pe
      by (intros; etrans; [exact P4|apply plain_error]).
    repeat case_match; apply Hgo; cbn [fst]; (exact P || exact P4 || apply Pe).
Qed.

Lemma decode_length inp : ((anti_rt_utf8_decode inp).2 <= length inp)%nat.
Proof.
  unfold anti_rt_utf8_decode. destruct inp as [|b rest]; [done|].
  destruct (sequence_length b) as [[n low] high].
  destruct (Nat.ltb_spec (length (b :: rest)) n); [rewrite orb_true_r; cbn; lia|].
  destruct ((n =? 0)%nat || false); [cbn; lia|]. destruct (decode_rest _ _ _ _ _ _); cbn [snd]; lia.
Qed.

(** The bytes from the position to the limit. *)
Definition rest_of (lx : lexer) : list Z := slice lx (pos lx) (limit lx - pos lx).

Lemma decode_rest_of lx v n :
  wf lx -> anti_rt_utf8_decode (rest_of lx) = (v, n) -> (pos lx + n <= limit lx)%nat.
Proof.
  intros W E. pose proof (decode_length (rest_of lx)) as H. rewrite E in H. cbn [snd] in H.
  unfold rest_of, slice in H. rewrite length_take in H. pose proof (wf_pos _ W). lia.
Qed.

Lemma moves_character_value lx : wf lx -> at_ lx 0 <> -1 -> moves lx (character_value lx).1.
Proof.
  intros W Ha. unfold character_value. cbv zeta.
  destruct (Z.eqb_spec (at_ lx 0) 0).
  { cbn [fst]. etrans; [apply moves_error_at|]. apply moves_advance_at.
    - eapply moves_wf; [apply moves_error_at|done].
    - rewrite error_at_at. done. }
  destruct (Z.eqb_spec (at_ lx 0) 92) as [E|].
  { destruct (escape_spec MODE_CHAR lx W E) as [H _]. destruct (escape MODE_CHAR lx). exact H. }
  fold (rest_of lx). destruct (anti_rt_utf8_decode _) as [v k] eqn:E. cbn [fst].
  apply moves_advance_n; [done|]. eapply decode_rest_of; done.
Qed.

Lemma find_quote_bound fuel lx i :
  (i <= limit lx)%nat -> (i <= find_quote fuel lx i <= limit lx)%nat.
Proof.
  revert i. induction fuel as [|f IH]; intros i Hi; [cbn; lia|]. cbn [find_quote].
  destruct (Nat.ltb_spec i (limit lx)); cbn [andb]; [|lia].
  destruct (negb _); cbn [andb]; [|lia]. destruct (negb _); [|lia].
  specialize (IH (S i) ltac:(lia)). lia.
Qed.

Lemma character_spec lx :
  wf lx -> at_ lx 0 = 39 ->
  let lx' := character (pos lx) (line lx) (column lx) lx in lexes lx lx' /\ (pos lx < pos lx')%nat.
Proof.
  intros W E0. cbv zeta. unfold character. cbv zeta.
  pose proof (moves_advance_at lx W ltac:(lia)) as H1. pose proof (moves_wf _ _ H1 W) as W1.
  set (s := advance lx) in *.
  assert (pos s = S (pos lx)) as Ps by apply advance_pos.
  enough (forall t kind v, kind <> TOKEN_EOF -> moves s t ->
    lexes lx (push_value kind (pos lx) (line lx) (column lx) v t) /\
    (pos lx < pos (push_value kind (pos lx) (line lx) (column lx) v t))%nat) as Hgo.
  2: { intros t kind v Hk Ht. split; [apply lexes_push_value; [done|]; etrans; done|].
       apply moves_pos in Ht. lexer_lia. }
  destruct (Z.eqb_spec (at_ s 0) 39) as [E|Hq].
  { apply Hgo; [done|]. etrans; [apply moves_advance_at; [done|lia]|apply moves_error_at]. }
  destruct ((at_ s 0 =? -1) || (at_ s 0 =? 10) || (at_ s 0 =? 13)) eqn:E1; [apply Hgo; [done|apply moves_error_at]|].
  bool_to_prop.
  pose proof (moves_character_value s W1 ltac:(done)) as Hv.
  destruct (character_value s) as [t v]. cbn [fst] in Hv. pose proof (moves_wf _ _ Hv W1) as W2.
  destruct (Z.eqb_spec (at_ t 0) 39) as [E|Hq2]; cbn [negb].
  - pose proof (moves_advance_at t W2 ltac:(lia)) as H3.
    destruct v; apply Hgo; (done || (etrans; done)).
  - pose proof (find_quote_bound (S (remaining t)) t (pos t) (wf_pos _ W2)) as Hb.
    set (i := find_quote _ _ _) in *. apply Hgo; [done|].
    destruct (Nat.ltb_spec i (limit t)); cbn [andb]; [destruct (byte_at t i =? 39)|].
    + etrans; [exact Hv|]. etrans; [apply moves_error_at|]. apply moves_advance_n.
      * eapply moves_wf; [apply moves_error_at|done].
      * lexer_lia.
    + etrans; [exact Hv|]. apply moves_error_at.
    + etrans; [exact Hv|]. apply moves_error_at.
Qed.

Lemma advance_error lx l c m : advance (error_at l c m lx) = error_at l c m (advance lx).
Proof.
  unfold error_at, advance, byte_at.
  destruct (nth (pos lx) (src lx) 0 =? 10) eqn:E; cbn [errors set_place];
    destruct (LEX_ERRORS_MAX <? errors lx)%nat; cbn [src pos set_errors]; rewrite E; done.
Qed.

(** *** The content of a literal *)

Lemma content_char_spec mode escapes lx :
  wf lx -> at_ lx 0 <> -1 ->
  let lx' := (content_char mode escapes lx).1.1 in
  moves lx lx' /\ (pos lx < pos lx')%nat /\
  ((at_ lx 0 = 92 -> escapes = true -> at_ lx 1 <> -1) ->
   if bool_decide (at_ lx 0 = 92) && escapes then plain (advance_n 2 lx) lx'
   else plain (advance lx) lx').
Proof.
  intros W Ha. cbv zeta. unfold content_char. cbv zeta. pose proof (at_bound lx 0 Ha) as Hb.
  destruct (Z.eqb_spec (at_ lx 0) 92) as [E|E]; cbn [andb].
  - rewrite (bool_decide_true (at_ lx 0 = 92)) by exact E. cbn [andb]. destruct escapes; cbn [andb].
    + destruct (escape_spec mode lx W E) as (H1 & H2 & H3).
      destruct (escape mode lx) as [s [[v [|]]|]]; cbn [fst] in *; (split; [exact H1|split; [exact H2|auto]]).
    + rewrite (proj2 (Z.eqb_neq (at_ lx 0) 13)), (proj2 (Z.eqb_neq (at_ lx 0) 0)) by lia. cbn [andb fst].
      split; [apply moves_advance_at; done|]. split; [lexer_lia|]. done.
  - rewrite (bool_decide_false (at_ lx 0 = 92)) by exact E. cbn [andb].
    pose proof (moves_advance_at lx W Ha) as H1. pose proof (moves_wf _ _ H1 W) as W1.
    destruct ((at_ lx 0 =? 13) && (at_ lx 1 =? 10)) eqn:E2; cbn [fst].
    { bool_to_prop. pose proof (at_bound lx 1).
      split; [apply moves_advance_n; [done|lia]|]. split; [lexer_lia|]. intros _.
      change (advance_n 2 lx) with (advance (advance lx)).
      apply plain_advance; [done|rewrite advance_at; lia..]. }
    destruct ((at_ lx 0 =? 0) && _); cbn [fst].
    + pose proof (moves_error_at lx (line lx) (column lx) E_nul) as H2.
      split; [etrans; [exact H2|]; apply moves_advance_at; [eapply moves_wf; done|rewrite error_at_at; done]|].
      split; [lexer_lia|]. intros _.
      split; [|lexer_lia].
      rewrite advance_error.
      apply moves_error_at.
    + split; [done|]. split; [lexer_lia|]. done.
Qed.

Lemma advance_n_at n lx a : at_ (advance_n n lx) a = at_ lx (n + a).
Proof.
  revert a. induction n as [|n IH]; intros a; [done|]. rewrite advance_n_S, advance_at, IH.
  f_equal. lia.
Qed.

Lemma string_start_quote lx p :
  string_start lx = Some p ->
  exists h, at_ lx (length (p_spelling p) + h) = 34 /\
    (forall j, (j < h)%nat -> at_ lx (length (p_spelling p) + j) = 35).
Proof.
  intros [_ H]%find_some. apply andb_true_iff in H as [_ H]. apply Z.eqb_eq in H.
  destruct (count_while_spec (fun c => c =? 35) lx (length (p_spelling p)) eq_refl) as (H1 & H2 & _).
  set (n := count_while _ _ _) in *. exists (n - length (p_spelling p))%nat.
  replace (length (p_spelling p) + (n - length (p_spelling p)))%nat with n by lia.
  split; [done|]. intros j Hj. apply Z.eqb_eq, H2. lia.
Qed.

Lemma open_quote_spec lx p s h :
  wf lx -> string_start lx = Some p -> open_quote p lx = (s, h) ->
  moves lx s /\ (pos lx < pos s)%nat.
Proof.
  intros W (k & Hq & Hk)%string_start_quote. unfold open_quote. cbv zeta. intros [= <- <-].
  set (n := length (p_spelling p)) in *. pose proof (at_bound lx (n + k) ltac:(lia)).
  destruct (count_while_spec (fun c => c =? 35) (advance_n n lx) 0 eq_refl) as (_ & H2 & H3).
  set (h := count_while _ _ _) in *. cbv beta in H2, H3.
  assert (h = k) as ->.
  { destruct (Nat.lt_trichotomy h k) as [Hl|[|Hl]]; [|done|].
    - rewrite advance_n_at, Hk in H3 by done. done.
    - specialize (H2 k ltac:(lia)). rewrite advance_n_at, Hq in H2. done. }
  split; [|lexer_lia].
  change (advance (advance_n k (advance_n n lx))) with (advance_n (S k) (advance_n n lx)).
  assert (moves lx (advance_n n lx)) as H1 by (apply moves_advance_n; [done|lia]).
  etrans; [exact H1|]. apply moves_advance_n; [exact (moves_wf _ _ H1 W)|].
  rewrite (moves_limit _ _ H1). lexer_lia.
Qed.

Lemma closing_hashes_spec n lx i :
  closing_hashes n lx i = (i + n)%nat -> forall j, (j < n)%nat -> at_ lx (1 + i + j) = 35.
Proof.
  revert i. induction n as [|n IH]; intros i E j Hj; [lia|]. cbn [closing_hashes] in E.
  destruct (Z.eqb_spec (at_ lx (1 + i)) 35) as [Ha|]; [|lia].
  destruct j as [|j]; [rewrite Nat.add_0_r; done|].
  replace (1 + i + S j)%nat with (1 + S i + j)%nat by lia. apply IH; lia.
Qed.

Lemma moves_hex_character s : wf (s_lx s) -> at_ (s_lx s) 0 <> -1 ->
  moves (s_lx s) (s_lx (hex_character s)) /\ pos (s_lx (hex_character s)) = S (pos (s_lx s)).
Proof.
  intros W Ha. unfold hex_character. cbv zeta. pose proof (moves_advance_at _ W Ha) as H1.
  destruct (is_hex _).
  { destruct (s_pending s); (split; [exact H1|apply advance_pos]). }
  destruct (negb _ && s_valid s); [|split; [exact H1|apply advance_pos]].
  set (m := if _ : bool then E_non_hex _ _ else _). cbn [s_lx]. rewrite advance_error, error_at_pos.
  split; [etrans; [exact H1|apply moves_error_at]|apply advance_pos].
Qed.

Lemma moves_string_content p hashes s :
  wf (s_lx s) -> moves (s_lx s) (s_lx (string_content p hashes s).1).
Proof.
  intros W. unfold string_content. cbv zeta. set (s0 := s) in W |- * at 1.
  apply (iterate_ind (fun t => moves (s_lx s0) (s_lx t.1)) (fun t => moves (s_lx s0) (s_lx t.1))
    (fun t => remaining (s_lx t.1))); [|reflexivity|cbn; lia].
  intros [t b] Ht. cbn [fst] in *. pose proof (moves_wf _ _ Ht W) as Wt.
  assert (forall u, moves (s_lx t) u -> (pos (s_lx t) < pos u)%nat -> at_ (s_lx t) 0 <> -1 ->
    moves (s_lx s0) u /\ (remaining u < remaining (s_lx t))%nat) as Hgo.
  { intros u Hu Hp Ha. split; [etrans; done|]. pose proof (at_bound _ _ Ha). unfold remaining.
    rewrite (moves_limit _ _ Hu). lia. }
  destruct (Z.eqb_spec (at_ (s_lx t) 0) (-1)) as [|Ha]; [done|].
  pose proof (moves_advance_at _ Wt Ha) as H1.
  destruct (Z.eqb_spec (at_ (s_lx t) 0) 34) as [Eq|].
  - destruct (Nat.eqb_spec (closing_hashes hashes (s_lx t) 0) hashes) as [E|].
    + cbn [fst s_lx]. etrans; [exact Ht|]. apply moves_advance_n; [done|].
      destruct hashes as [|h]; [pose proof (at_bound _ _ Ha); lia|].
      pose proof (closing_hashes_spec (S h) (s_lx t) 0 E h ltac:(lia)).
      pose proof (at_bound (s_lx t) (1 + 0 + h)). lia.
    + cbn [fst s_lx]. apply Hgo; [done|lexer_lia|done].
  - destruct (bool_decide (p_form p = FORM_HEX)).
    + destruct (moves_hex_character t Wt Ha) as [H2 H3]. cbn [fst]. apply Hgo; [done|lia|done].
    + set (esc := negb _ && negb _).
      destruct (content_char_spec (if p_bytes p then MODE_BYTES else MODE_STR) esc (s_lx t) Wt Ha)
        as (H2 & H3 & _).
      destruct (content_char _ _ _) as [[u bs] v]. cbn [fst s_lx] in *. apply Hgo; done.
Qed.

Lemma string_spec p lx :
  wf lx -> string_start lx = Some p ->
  let lx' := string_ p (pos lx) (line lx) (column lx) lx in lexes lx lx' /\ (pos lx < pos lx')%nat.
Proof.
  intros W Hp. cbv zeta. unfold string_. destruct (open_quote p lx) as [s h] eqn:E.
  apply open_quote_spec in E as [H1 P1]; [|done..]. cbv zeta.
  set (refused := bool_decide _ && _). set (s1 := if refused then _ else s).
  assert (moves s s1) as H2 by (unfold s1; destruct refused; [apply moves_error_at|reflexivity]).
  assert (moves lx s1) as H3 by (etrans; done). pose proof (moves_wf _ _ H3 W) as W1.
  pose proof (moves_string_content p h (StringState s1 None 0 0 [] (negb refused)) W1) as H4.
  destruct (string_content _ _ _) as [t closed]. cbn [fst s_lx] in H4.
  enough (forall u kind v, kind <> TOKEN_EOF -> moves s1 u ->
    lexes lx (push_value kind (pos lx) (line lx) (column lx) v u) /\
    (pos lx < pos (push_value kind (pos lx) (line lx) (column lx) v u))%nat) as Hgo.
  2: { intros u kind v Hk Hu. split; [apply lexes_push_value; [done|]; etrans; done|].
       apply moves_pos in Hu, H2. lexer_lia. }
  destruct closed.
  - set (odd := s_valid t && match s_pending t with Some _ => true | None => false end). set (u := if odd then _ else s_lx t).
    assert (moves s1 u) as Hu
      by (unfold u; destruct odd; [etrans; [exact H4|apply moves_error_at]|exact H4]).
    destruct (s_valid t && negb odd); apply Hgo; try done; repeat case_match; done.
  - apply Hgo; [done|]. etrans; [exact H4|apply moves_error_at].
Qed.

(** ** Interpolated literals *)

Section Alignment.
Context (lx : lexer) (raw : bool) (close : nat).

(** The scan for the closing quote visits [p] and ends at [close]. *)
Inductive aligned : nat -> Prop :=
| aligned_end : aligned close
| aligned_skip p : byte_at lx p = 92 -> raw = false -> aligned (p + 2) -> aligned p
| aligned_step p : byte_at lx p <> 92 \/ raw = true -> aligned (S p) -> aligned p.

Lemma aligned_le p : aligned p -> (p <= close)%nat.
Proof. induction 1; lia. Qed.

Lemma aligned_next p q :
  aligned p -> (p <= q < close)%nat -> byte_at lx q <> 92 \/ raw = true -> aligned (S q).
Proof.
  intros A. revert q. induction A as [|p E R A IH|p E A IH]; intros q Hq Hb; [lia| |].
  - destruct (decide (q = p)) as [->|]; [destruct Hb; congruence|].
    destruct (decide (q = S p)) as [->|]; [replace (S (S p)) with (p + 2)%nat by lia; done|].
    apply IH; [lia|done].
  - destruct (decide (q = p)) as [->|]; [done|]. apply IH; [lia|done].
Qed.

Lemma aligned_plain p q :
  aligned p -> byte_at lx close = 34 -> (p <= q)%nat ->
  (forall i, (p <= i < q)%nat -> byte_at lx i <> 34 /\ byte_at lx i <> 92) ->
  aligned q.
Proof.
  intros A Hc Hpq Hb. replace q with (p + (q - p))%nat in * by lia. clear Hpq.
  induction (q - p)%nat as [|n IH]; [rewrite Nat.add_0_r; done|].
  assert (aligned (p + n)) as An by (apply IH; intros i Hi; apply Hb; lia).
  destruct (Hb (p + n)%nat ltac:(lia)) as [H34 H92].
  replace (p + S n)%nat with (S (p + n)) by lia.
  apply (aligned_next (p + n)); [done| |by left].
  apply aligned_le in An. destruct (decide ((p + n)%nat = close)) as [E|]; [congruence|lia].
Qed.
End Alignment.

Lemma hashes_after_bound n lx i :
  hashes_after n lx i = true -> (i <= limit lx)%nat -> (i + n <= limit lx)%nat.
Proof.
  revert i. induction n as [|n IH]; intros i H Hi; [lia|]. cbn [hashes_after] in H.
  destruct (Nat.ltb_spec i (limit lx)); [|done]. cbn [andb] in H.
  destruct (byte_at lx i =? 35); [|done]. apply IH in H; lia.
Qed.

Lemma closing_from_spec fuel n raw lx i close :
  closing_from fuel n raw lx i = Some close ->
  aligned lx raw close i /\ byte_at lx close = 34 /\ (close + S n <= limit lx)%nat.
Proof.
  revert i. induction fuel as [|f IH]; intros i; [done|]. cbn [closing_from].
  destruct (Nat.ltb_spec i (limit lx)); [|done].
  destruct ((byte_at lx i =? 92) && negb raw) eqn:E.
  { intros H0%IH. bool_to_prop. destruct H0 as (A & H0). split; [apply aligned_skip; done|done]. }
  destruct ((byte_at lx i =? 34) && hashes_after n lx (S i)) eqn:E2.
  - intros [= ->]. bool_to_prop. split; [constructor|]. split; [done|].
    apply hashes_after_bound in H1; lia.
  - intros H0%IH. destruct H0 as (A & H0). split; [|done]. apply aligned_step; [|done].
    apply andb_false_iff in E as [E|E]; bool_to_prop; auto.
Qed.

Lemma aligned_src a b raw close p : src a = src b -> aligned a raw close p -> aligned b raw close p.
Proof.
  intros E. induction 1 as [|p H R A IH|p H A IH]; [constructor|apply aligned_skip; [|done|done]|apply aligned_step; [|done]];
    unfold byte_at in *; rewrite <- E; done.
Qed.

(** One character of the content keeps the alignment. *)
Lemma content_char_aligned lx raw close :
  wf lx -> aligned lx raw close (pos lx) -> byte_at lx close = 34 -> (pos lx < close)%nat ->
  (close < limit lx)%nat ->
  let lx' := (content_char MODE_STR (negb raw) lx).1.1 in
  moves lx lx' /\ (pos lx < pos lx')%nat /\ aligned lx raw close (pos lx').
Proof.
  intros W A Hc Hp Hl. cbv zeta.
  assert (at_ lx 0 = byte_at lx (pos lx)) as Ea.
  { unfold at_. rewrite Nat.add_0_r. destruct (Nat.ltb_spec (pos lx) (limit lx)); [done|lia]. }
  assert (at_ lx 0 <> -1) as Ha by (rewrite at_end by done; lia).
  destruct (content_char_spec MODE_STR (negb raw) lx W Ha) as (H1 & H2 & H3).
  assert (at_ lx 0 = 92 -> negb raw = true -> at_ lx 1 <> -1 /\ aligned lx raw close (pos lx + 2)) as Hsk.
  { intros E R. apply negb_true_iff in R. inversion A as [E'|p E' R' A'|p E' A']; [lia| |destruct E'; congruence].
    split; [|done]. rewrite at_end by done. apply aligned_le in A'. lia. }
  specialize (H3 ltac:(intros; apply Hsk; done)). split; [done|]. split; [done|].
  set (lx' := (content_char _ _ _).1.1) in *.
  destruct (bool_decide (at_ lx 0 = 92) && negb raw) eqn:E.
  - apply andb_true_iff in E as [E R]. apply bool_decide_eq_true in E. destruct (Hsk E R) as [Ha1 A2].
    apply (aligned_plain lx raw close (pos lx + 2)); [done|done| |].
    + pose proof (moves_pos _ _ (plain_moves _ _ H3)). lexer_lia.
    + intros i Hi. assert (byte_at (advance_n 2 lx) i = byte_at lx i) as <-.
      { unfold byte_at. rewrite <- (moves_src lx (advance_n 2 lx)); [done|].
        apply moves_advance_n; [done|]. pose proof (at_bound lx 1 Ha1). lia. }
      apply (plain_bytes _ _ H3). lexer_lia.
  - assert (aligned lx raw close (S (pos lx))) as A1.
    { apply (aligned_next lx raw close (pos lx)); [done|lia|].
      apply andb_false_iff in E as [E|E]; [left; apply bool_decide_eq_false in E; congruence|].
      right. apply negb_false_iff in E. done. }
    pose proof (moves_advance_at lx W Ha) as Hm.
    apply (aligned_plain lx raw close (S (pos lx))); [done|done|lia|].
    intros i Hi. assert (byte_at (advance lx) i = byte_at lx i) as <-
      by (unfold byte_at; rewrite (moves_src _ _ Hm); done).
    apply (plain_bytes _ _ H3). lexer_lia.
Qed.

(** What the lexer of one token shows: the tokens lie in the bytes it reads,
    and a round reads a byte or records an error. *)
Definition lexes_token (depth' : nat) (lex : lexer -> lexer) : Prop :=
  forall lx, wf lx -> depth lx = depth' -> at_ lx 0 <> -1 ->
    lexes lx (lex lx) /\
    ((errors lx <= LEX_ERRORS_MAX)%nat -> (pos lx < pos (lex lx) \/ errors lx < errors (lex lx))%nat).

Lemma run_errors lx lx' : run lx lx' -> (errors lx <= errors lx')%nat.
Proof. intros R. destruct (run_diags _ _ R) as (? & _ & ->). lia. Qed.

Lemma lexes_rounds lx lx' :
  wf lx -> lexes lx lx' -> (errors lx <= LEX_ERRORS_MAX)%nat ->
  (pos lx < pos lx' \/ errors lx < errors lx')%nat -> (rounds lx' < rounds lx)%nat.
Proof.
  intros W [R _] He Hp. unfold rounds, remaining. rewrite (run_limit _ _ R).
  pose proof (run_bound _ _ R (wf_pos _ W)). pose proof (run_pos _ _ R). pose proof (run_errors _ _ R). lia.
Qed.

Lemma moves_rounds lx lx' : moves lx lx' -> (rounds lx' <= rounds lx)%nat.
Proof.
  intros [R _]. unfold rounds, remaining. rewrite (run_limit _ _ R).
  pose proof (run_pos _ _ R). pose proof (run_errors _ _ R). lia.
Qed.

Lemma placeholder_tokens_spec d lex inner inner' c :
  lexes_token d lex -> wf inner -> depth inner = d -> placeholder_tokens lex inner = (inner', c) ->
  lexes inner inner' /\
  ((c = -1 /\ (at_ inner' 0 = -1 \/ (LEX_ERRORS_MAX < errors inner')%nat)) \/
   (c = at_ inner' 0 /\ (c = 125 \/ c = 58))).
Proof.
  intros Hlex W Hd. unfold placeholder_tokens.
  set (loop := iterate _ _ _).
  assert (let '(i, _, c) := loop in lexes inner i /\
    ((c = -1 /\ (at_ i 0 = -1 \/ (LEX_ERRORS_MAX < errors i)%nat)) \/
     (c = at_ i 0 /\ (c = 125 \/ c = 58)))) as H.
  2: { destruct loop as [[i dd] c']. intros [= <- <-]. exact H. }
  unfold loop. apply (iterate_ind (fun '(i, _, _) => lexes inner i)
    (fun '(i, _, c) => lexes inner i /\
      ((c = -1 /\ (at_ i 0 = -1 \/ (LEX_ERRORS_MAX < errors i)%nat)) \/
       (c = at_ i 0 /\ (c = 125 \/ c = 58))))
    (fun '(i, _, _) => rounds i)); [|reflexivity|lia].
  intros [[i dd] c0] Hi. cbv zeta. pose proof (run_wf _ _ (lexes_run _ _ Hi) W) as Wi.
  destruct (Nat.ltb_spec LEX_ERRORS_MAX (errors i)) as [|Herr].
  { split; [done|]. left. split; [done|]. right. done. }
  pose proof (skip_trivia_spec i Wi) as H1. pose proof (moves_wf _ _ H1 Wi) as W1.
  set (s := skip_trivia i) in *.
  assert (lexes inner s) as Hs by (etrans; [exact Hi|apply moves_lexes, H1]).
  destruct (Z.eqb_spec (at_ s 0) (-1)) as [E|Ha]; cbn [orb].
  { split; [done|]. left. split; [done|]. left. done. }
  destruct ((dd =? 0) && ((at_ s 0 =? 125) || ((at_ s 0 =? 58) && negb (at_ s 1 =? 58)))) eqn:E.
  { split; [done|]. right. split; [done|]. apply andb_true_iff in E as [_ E].
    apply orb_true_iff in E as [E|E]; bool_to_prop; auto. }
  assert (depth s = d) as Hds by (rewrite (run_depth _ _ (lexes_run _ _ Hs)); done).
  destruct (Hlex s W1 Hds Ha) as [H2 H3]. split; [etrans; done|].
  apply (lexes_rounds i); [done|etrans; [apply moves_lexes, H1|done]|done|].
  pose proof (moves_pos _ _ H1). pose proof (moves_errors _ _ H1).
  pose proof (run_pos _ _ (lexes_run _ _ H2)). pose proof (run_errors _ _ (lexes_run _ _ H2)).
  destruct (Nat.le_gt_cases (errors s) LEX_ERRORS_MAX) as [He|He]; [destruct (H3 He)|]; lia.
Qed.

Lemma placeholder_spec_spec inner :
  wf inner -> moves inner (placeholder_spec inner) /\
  (at_ (placeholder_spec inner) 0 = -1 \/ at_ (placeholder_spec inner) 0 = 125).
Proof.
  intros W. unfold placeholder_spec.
  set (cond := fun '(i, depth) => let c := at_ i 0 in negb (c =? -1) && (negb (c =? 125) || (depth >? 0))).
  set (body := fun '(i, depth) => let c := at_ i 0 in
    (advance i, if c =? 123 then depth + 1 else if c =? 125 then depth - 1 else depth)).
  destruct (while_ind (fun s => moves inner s.1) (fun s => remaining s.1) cond body
    (S (remaining inner)) (inner, 0)) as [H E]; [|reflexivity|cbn; lia|].
  - intros [s dd] Hs E. cbn [fst cond body] in *. cbv zeta in E. bool_to_prop.
    pose proof (moves_advance_at s (moves_wf _ _ Hs W) ltac:(done)) as Hm. split; [etrans; done|].
    pose proof (at_bound s 0). unfold remaining. rewrite (moves_limit _ _ Hm). lexer_lia.
  - split; [exact H|]. destruct (while_ _ _ _ _) as [s dd]. cbn [fst cond] in *. cbv zeta in E.
    destruct (Z.eqb_spec (at_ s 0) (-1)); [by left|]. destruct (Z.eqb_spec (at_ s 0) 125); [by right|].
    done.
Qed.

(** The state after a placeholder, from the inner lexer. *)
Definition after_inner (inner lx : lexer) : lexer :=
  set_place (pos inner) (line inner) (column inner)
    (set_errors (diags inner) (ok lx && ok inner) (errors inner) lx).

Definition inner_start (close : nat) (lx : lexer) : lexer :=
  set_errors (diags lx) true (errors lx) (set_out [] (set_limit close lx)).

Lemma inner_start_wf close lx :
  wf lx -> (pos lx <= close <= limit lx)%nat -> wf (inner_start close lx).
Proof. intros [W1 W2 W3] H. split; cbn; [lia|lia|done]. Qed.

Lemma after_inner_spec close lx inner :
  wf lx -> (pos lx <= close <= limit lx)%nat -> run (inner_start close lx) inner ->
  moves lx (after_inner inner lx).
Proof.
  intros W Hc R. split; [|done]. split; cbn; auto.
  - apply R.
  - intros _. pose proof (run_bound _ _ R) as H. cbn in H. lia.
  - intros base [Hb HL]. destruct (run_located _ _ R base) as [Hb' HL']; [split; done|].
    split; [done|]. cbn. rewrite (run_src _ _ R) in HL'. done.
  - apply R.
  - apply R.
  - destruct (run_ok _ _ R) as [[O N]|[O N]]; cbn in O, N; rewrite O.
    + left. rewrite andb_true_r. done.
    + right. rewrite andb_false_r. done.
Qed.

Lemma after_inner_error l c m inner lx :
  let lx' := error_at l c m (set_errors (diags inner) (ok lx) (errors inner) lx) in
  set_place (pos inner) (line inner) (column inner)
    (set_errors (diags lx') (ok lx' && ok inner) (errors lx') lx')
  = error_at l c m (after_inner inner lx).
Proof.
  cbv zeta. unfold error_at, after_inner. cbn [errors set_errors set_place].
  destruct (LEX_ERRORS_MAX <? errors inner)%nat; reflexivity.
Qed.

(** The inner lexer at the end of the expression and its specification. *)
Definition placeholder_end (inner' : lexer) (c : Z) : Prop :=
  (c = -1 /\ (at_ inner' 0 = -1 \/ (LEX_ERRORS_MAX < errors inner')%nat)) \/ (c = 125 /\ at_ inner' 0 = 125).

Lemma placeholder_inner d lex inner inner' c :
  lexes_token d lex -> wf inner -> depth inner = d -> placeholder_tokens lex inner = (inner', c) ->
  let '(i, c', _) :=
    if c =? 58 then
      let i := advance inner' in
      let from := pos i in
      let i := placeholder_spec i in (i, at_ i 0, Some (slice i from (pos i - from)))
    else (inner', c, None) in
  lexes inner i /\ placeholder_end i c'.
Proof.
  intros Hlex W Hd E. destruct (placeholder_tokens_spec d lex inner inner' c Hlex W Hd E) as [H1 H2].
  pose proof (run_wf _ _ (lexes_run _ _ H1) W) as W1. unfold placeholder_end.
  destruct (Z.eqb_spec c 58) as [->|].
  - destruct H2 as [[? _]|[E2 _]]; [done|].
    pose proof (moves_advance_at inner' W1 ltac:(lia)) as H3. pose proof (moves_wf _ _ H3 W1) as W2.
    destruct (placeholder_spec_spec (advance inner') W2) as [H4 H5]. cbv zeta.
    split; [etrans; [exact H1|]; apply moves_lexes; etrans; done|].
    destruct H5 as [-> | ->]; [left|right]; auto.
  - split; [done|]. destruct H2 as [H2|[-> [H2|H2]]]; [left; done|right; done|done].
Qed.

Lemma placeholder_ok lex close raw text lx :
  lexes_token (depth lx) lex -> wf lx -> (pos lx < close < limit lx)%nat -> at_ lx 0 = 123 ->
  aligned lx raw close (pos lx) ->
  let lx' := (placeholder lex close raw text lx).1.1 in
  moves lx lx' /\ (pos lx < pos lx' <= close)%nat /\
  (aligned lx raw close (pos lx') \/ (LEX_ERRORS_MAX < errors lx')%nat).
Proof.
  intros Hlex W Hc Ha A. cbv zeta. unfold placeholder. fold (inner_start close lx).
  pose proof (inner_start_wf close lx W ltac:(lia)) as W0.
  assert (at_ (inner_start close lx) 0 = 123) as Ha0.
  { rewrite <- Ha. unfold at_. cbn [pos limit inner_start set_errors set_out set_limit].
    rewrite (proj2 (Nat.ltb_lt _ close)), (proj2 (Nat.ltb_lt _ (limit lx))) by lia. done. }
  pose proof (moves_advance_at _ W0 ltac:(lia)) as H1. pose proof (moves_wf _ _ H1 W0) as W1.
  set (i1 := advance (inner_start close lx)) in *.
  assert (pos i1 = S (pos lx)) as P1 by exact (advance_pos (inner_start close lx)).
  destruct (placeholder_tokens lex i1) as [i2 c] eqn:E2.
  pose proof (placeholder_inner (depth lx) lex i1 i2 c Hlex W1 (run_depth _ _ (moves_run _ _ H1)) E2) as H3.
  cbv zeta in H3. cbv zeta. destruct (if c =? 58 then _ else _) as [[i3 c3] spec]. destruct H3 as [H3 He].
  pose proof (run_wf _ _ (lexes_run _ _ H3) W1) as W3.
  assert (run (inner_start close lx) i3) as R3 by (etrans; [apply H1|apply H3]).
  assert (limit i3 = close) as L3 by (rewrite (run_limit _ _ R3); done).
  assert (src i3 = src lx) as S3 by (rewrite (run_src _ _ R3); done).
  assert (pos lx < pos i3)%nat as P3 by (pose proof (run_pos _ _ (lexes_run _ _ H3)); lia).
  pose proof (wf_pos _ W3) as B3. rewrite L3 in B3.
  destruct He as [[-> He]|[-> He]].
  - rewrite Z.eqb_refl. cbn [fst]. rewrite after_inner_error. rewrite error_at_pos.
    pose proof (after_inner_spec close lx i3 W ltac:(lia) R3) as H4.
    split; [etrans; [exact H4|apply moves_error_at]|]. split; [cbn; lia|].
    destruct He as [He|He].
    + left. apply at_end in He; [|done]. cbn. replace (pos i3) with close by lia. constructor.
    + right. pose proof (moves_errors _ _ (moves_error_at (after_inner i3 lx) (line lx) (column lx)
        (E_unterminated_placeholder raw))) as H5. cbn [after_inner set_place set_errors errors] in H5. lia.
  - change (125 =? -1) with false. pose proof (at_bound i3 0 ltac:(lia)) as B4.
    set (i4 := advance (push TOKEN_EOF (pos i3) (line i3) (column i3) i3)).
    assert (run i3 i4) as R34.
    { unfold i4. pose proof (run_push_value i3 TOKEN_EOF (pos i3) (line i3) (column i3) Empty) as Hp.
      etrans; [exact Hp|]. apply moves_advance; [eapply run_wf; [exact Hp|done]|cbn; lia]. }
    assert (run (inner_start close lx) i4) as R4 by (etrans; done).
    pose proof (after_inner_spec close lx i4 W ltac:(lia) R4) as H4.
    assert (pos i4 = S (pos i3)) as P4 by exact (advance_pos (push TOKEN_EOF _ _ _ i3)).
    assert (diags i4 = diags i3 /\ errors i4 = errors i3 /\ ok i4 = ok i3) as (D4 & N4 & O4)
      by (unfold i4, advance; destruct (_ =? _); done).
    assert (aligned lx raw close (S (pos i3))) as A4.
    { apply (aligned_next lx raw close (pos lx)); [done|lia|]. left.
      unfold at_ in He. rewrite Nat.add_0_r in He. destruct (_ <? _)%nat in He; [|done].
      unfold byte_at in *. rewrite <- S3. lia. }
    destruct (out i3) eqn:Eo; cbn [fst]; rewrite <- D4, <- N4.
    + rewrite after_inner_error, error_at_pos.
      split; [etrans; [exact H4|apply moves_error_at]|]. cbn. rewrite P4. split; [lia|]. left. done.
    + change (set_place _ _ _ _) with (after_inner i4 lx). split; [exact H4|].
      cbn. rewrite P4. split; [lia|]. left. done.
Qed.

Lemma aligned_moves a b raw close p : moves a b -> aligned a raw close p -> aligned b raw close p.
Proof. intros M. apply aligned_src. rewrite (moves_src _ _ M). done. Qed.

Lemma moves_advance_to p lx :
  wf lx -> (pos lx <= p <= limit lx)%nat -> moves lx (advance_to p lx) /\ pos (advance_to p lx) = p.
Proof.
  intros W H. unfold advance_to. split; [apply moves_advance_n; [done|lia]|lexer_lia].
Qed.

Lemma interpolated_content_spec lex close raw s :
  let lx := f_lx s in
  lexes_token (depth lx) lex -> wf lx -> (pos lx <= close < limit lx)%nat ->
  aligned lx raw close (pos lx) -> byte_at lx close = 34 ->
  moves lx (f_lx (interpolated_content lex close raw s)) /\
  pos (f_lx (interpolated_content lex close raw s)) = close.
Proof.
  cbv zeta. intros Hlex W Hc A Hq. unfold interpolated_content. set (lx := f_lx s) in *.
  apply (iterate_ind
    (fun t => moves lx (f_lx t) /\ (pos (f_lx t) <= close)%nat /\
       (aligned lx raw close (pos (f_lx t)) \/ (LEX_ERRORS_MAX < errors (f_lx t))%nat))
    (fun t => moves lx (f_lx t) /\ pos (f_lx t) = close) (fun t => remaining (f_lx t)));
    [|fold lx; split; [reflexivity|]; split; [lia|left; done]|fold lx; lia].
  intros t (Ht & Hle & Hal). cbv zeta. set (u := f_lx t) in *.
  pose proof (moves_wf _ _ Ht W) as Wu. pose proof (moves_limit _ _ Ht) as Lu.
  destruct (Nat.ltb_spec (pos u) close) as [Hlt|]; cbn [negb]; [|fold u; split; [done|lia]].
  destruct (Nat.ltb_spec LEX_ERRORS_MAX (errors u)).
  { cbn [f_lx]. destruct (moves_advance_to close u Wu ltac:(lia)) as [H1 H2].
    split; [etrans; done|done]. }
  destruct Hal as [Al|]; [|lia].
  enough (forall v, moves u v -> (pos u < pos v)%nat ->
    (aligned lx raw close (pos v) \/ (pos v <= close /\ LEX_ERRORS_MAX < errors v)%nat) ->
    (moves lx v /\ (pos v <= close)%nat /\
      (aligned lx raw close (pos v) \/ (LEX_ERRORS_MAX < errors v)%nat)) /\
    (remaining v < remaining u)%nat) as Hgo.
  2: { intros v Hv Hp Hav. split; [split; [etrans; done|]|].
       - destruct Hav as [Hav|[? ?]]; [split; [eapply aligned_le, Hav|by left]|auto].
       - unfold remaining. rewrite (moves_limit _ _ Hv). lia. }
  assert (at_ u 0 <> -1) as Ha by (rewrite at_end by done; lia).
  assert (byte_at lx (pos u) = at_ u 0) as Eb.
  { unfold at_. rewrite Nat.add_0_r. destruct (Nat.ltb_spec (pos u) (limit u)); [|lia].
    unfold byte_at. rewrite (moves_src _ _ Ht). done. }
  destruct (((at_ u 0 =? 123) || (at_ u 0 =? 125)) && (at_ u 1 =? at_ u 0) && (pos u + 1 <? close)%nat) eqn:E1.
  { apply andb_true_iff in E1 as [E1 Hlt2%Nat.ltb_lt]. apply andb_true_iff in E1 as [E1 E2%Z.eqb_eq].
    cbn [f_lx]. apply Hgo; [apply moves_advance_n; [done|lia]|lexer_lia|]. left.
    rewrite advance_n_pos. apply (aligned_next lx raw close (pos u)); [done|lia|]. left.
    assert (byte_at lx (S (pos u)) = at_ u 1) as ->.
    { unfold at_. destruct (Nat.ltb_spec (pos u + 1) (limit u)); [|lia].
      unfold byte_at. rewrite (moves_src _ _ Ht). f_equal. lia. }
    rewrite E2. apply orb_true_iff in E1 as [E1|E1]; bool_to_prop; lia. }
  destruct (Z.eqb_spec (at_ u 0) 123) as [E2|].
  { pose proof (placeholder_ok lex close raw (f_bytes t) u) as H1. cbv zeta in H1.
    rewrite (run_depth _ _ (moves_run _ _ Ht)) in H1.
    destruct (H1 Hlex Wu ltac:(lia) E2 (aligned_moves _ _ _ _ _ Ht Al)) as (H2 & H3 & H4).
    destruct (placeholder _ _ _ _ _) as [[v piece] valid]. cbn [fst f_lx] in *.
    apply Hgo; [done|lia|]. destruct H4 as [H4|H4]; [left|right; lia].
    eapply aligned_src; [|exact H4]. apply (moves_src _ _ Ht). }
  destruct (Z.eqb_spec (at_ u 0) 125) as [E3|].
  { cbn [f_lx]. rewrite advance_error. pose proof (moves_advance_at u Wu Ha) as H1.
    apply Hgo; [etrans; [exact H1|apply moves_error_at]|lexer_lia|]. left. rewrite error_at_pos, advance_pos.
    apply (aligned_next lx raw close (pos u)); [done|lia|]. left. lia. }
  destruct (content_char_aligned u raw close Wu) as (H1 & H2 & H3); [eapply aligned_moves; done| |done|lia|].
  { unfold byte_at. rewrite (moves_src _ _ Ht). done. }
  destruct (content_char _ _ _) as [[v bs] valid]. cbn [fst f_lx] in *. apply Hgo; [done..|]. left.
  eapply aligned_src; [|exact H3]. apply (moves_src _ _ Ht).
Qed.

Lemma set_depth_wf d lx : wf lx -> wf (set_depth d lx).
Proof. intros []. split; done. Qed.

(** The depth is set and set back. *)
Lemma moves_set_depth d lx lx' : moves (set_depth d lx) lx' -> moves lx (set_depth (depth lx) lx').
Proof.
  intros [R O]. split; [|exact O]. split; try apply R; done.
Qed.

Lemma interpolated_spec d lex p lx :
  ((d < LEX_FORMAT_DEPTH_MAX)%nat -> lexes_token (S d) lex) ->
  wf lx -> depth lx = d -> string_start lx = Some p ->
  let lx' := interpolated lex p (pos lx) (line lx) (column lx) lx in lexes lx lx' /\ (pos lx < pos lx')%nat.
Proof.
  intros Hlex W Hd Hp. cbv zeta. unfold interpolated. destruct (open_quote p lx) as [s h] eqn:E.
  apply open_quote_spec in E as [H1 P1]; [|done..]. cbv zeta. set (raw := bool_decide _).
  set (s1 := if p_refused p then _ else s).
  assert (moves lx s1) as H2
    by (unfold s1; destruct (p_refused p); [etrans; [exact H1|apply moves_error_at]|exact H1]).
  assert (pos s1 = pos s) as P2 by (unfold s1; destruct (p_refused p); [apply error_at_pos|done]).
  pose proof (moves_wf _ _ H2 W) as W1.
  enough (forall u kind v, kind <> TOKEN_EOF -> moves s1 u ->
    lexes lx (push_value kind (pos lx) (line lx) (column lx) v u) /\
    (pos lx < pos (push_value kind (pos lx) (line lx) (column lx) v u))%nat) as Hgo.
  2: { intros u kind v Hk Hu. split; [apply lexes_push_value; [done|]; etrans; done|].
       apply moves_pos in Hu. lexer_lia. }
  destruct (closing_quote h raw s1) as [close|] eqn:Eq.
  2: { pose proof (moves_error_at s1 (line lx) (column lx) E_unterminated_string) as H3.
       apply Hgo; [done|]. etrans; [exact H3|]. apply moves_advance_while; [eapply moves_wf; done|done]. }
  apply closing_from_spec in Eq as (A & Hq & Hb). pose proof (aligned_le _ _ _ _ A) as Hle.
  destruct (Nat.leb_spec LEX_FORMAT_DEPTH_MAX (depth s1)) as [Hdeep|Hdeep].
  { pose proof (moves_error_at s1 (line lx) (column lx) E_nested_too_deep) as H3.
    pose proof (moves_wf _ _ H3 W1) as W3.
    destruct (moves_advance_to close _ W3 ltac:(lexer_lia)) as [H4 H5]. apply Hgo; [done|].
    etrans; [exact H3|]. etrans; [exact H4|]. apply moves_advance_n; [eapply moves_wf; done|].
    rewrite H5, (moves_limit _ _ H4). lexer_lia. }
  assert (depth s1 = d) as Ed by (rewrite (run_depth _ _ (moves_run _ _ H2)); done).
  set (f0 := FormatState (set_depth (S (depth s1)) s1) [] [] (negb (p_refused p))).
  destruct (interpolated_content_spec lex close raw f0) as [H3 H4].
  { cbn [f0 f_lx set_depth depth]. rewrite Ed. apply Hlex. lia. }
  { apply set_depth_wf, W1. }
  { cbn. lia. }
  { eapply aligned_src; [|exact A]. done. }
  { exact Hq. }
  cbn [f0 f_lx] in H3. apply moves_set_depth in H3.
  set (f := interpolated_content lex close raw f0) in *.
  assert (moves s1 (advance_n (S h) (set_depth (depth s1) (f_lx f)))) as H5.
  { etrans; [exact H3|]. apply moves_advance_n; [eapply moves_wf; done|].
    rewrite (moves_limit _ _ H3). cbn [pos set_depth]. lia. }
  destruct (f_valid f); (apply Hgo; [done|exact H5]).
Qed.

(** ** Symbols and the whole token *)

Lemma symbols_nonempty k : is_category CAT_SYMBOL k = true -> (0 < length (spelling k))%nat.
Proof. destruct k; (discriminate || (intros _; vm_compute; lia)). Qed.

Lemma best_symbol_some lx k :
  best_symbol lx = Some k -> is_category CAT_SYMBOL k = true /\ starts_with lx (spelling k) = true.
Proof.
  unfold best_symbol. set (f := fun '(best, n) k => _).
  assert (forall ks best n, (forall k, best = Some k ->
      is_category CAT_SYMBOL k = true /\ starts_with lx (spelling k) = true) ->
    forall k, (fold_left f ks (best, n)).1 = Some k ->
      is_category CAT_SYMBOL k = true /\ starts_with lx (spelling k) = true) as H.
  { induction ks as [|j ks IH]; intros best n Hb i; [apply Hb|]. cbn [fold_left f].
    destruct (_ && _ && _) eqn:E; [|apply IH, Hb].
    apply IH. intros i' [= <-]. bool_to_prop. done. }
  apply H. done.
Qed.

Lemma starts_with_bound lx s : starts_with lx s = true -> (pos lx + length s <= limit lx)%nat.
Proof. intros [H%Nat.leb_le _]%andb_true_iff. done. Qed.

Lemma symbol_spec lx lx' :
  wf lx -> symbol (pos lx) (line lx) (column lx) lx = Some lx' ->
  lexes lx lx' /\ (pos lx < pos lx')%nat.
Proof.
  intros W. unfold symbol. destruct (best_symbol lx) as [k|] eqn:E; [|done].
  apply best_symbol_some in E as [Hk Hs]. apply starts_with_bound in Hs. pose proof (symbols_nonempty k Hk).
  cbn. intros [= <-]. split; [|lexer_lia]. apply lexes_push; [|apply moves_advance_n; done].
  intros ->. discriminate.
Qed.

Lemma unexpected_spec lx :
  wf lx -> let lx' := unexpected (pos lx) (line lx) (column lx) lx in
  lexes lx lx' /\ ((errors lx <= LEX_ERRORS_MAX)%nat -> (errors lx < errors lx')%nat).
Proof.
  intros W. cbv zeta. unfold unexpected. fold (rest_of lx).
  destruct (anti_rt_utf8_decode (rest_of lx)) as [v n] eqn:E. cbv zeta.
  apply decode_rest_of in E; [|done]. set (m := if _ >=? _ then _ else _).
  pose proof (moves_error_at lx (line lx) (column lx) m) as H1.
  assert (moves (error_at (line lx) (column lx) m lx)
    (advance_n n (error_at (line lx) (column lx) m lx))) as H2.
  { apply moves_advance_n; [eapply moves_wf; done|lexer_lia]. }
  split; [apply lexes_push; [done|]; etrans; done|].
  intros He. apply moves_errors in H2. rewrite error_at_counts in H2 by done. cbn. lia.
Qed.

Lemma lex_body_spec d lex :
  ((d < LEX_FORMAT_DEPTH_MAX)%nat -> lexes_token (S d) lex) -> lexes_token d (lex_body lex).
Proof.
  intros Hlex lx W Hd Ha. unfold lex_body. cbv zeta.
  enough (forall lx', lexes lx lx' /\ (pos lx < pos lx')%nat -> lexes lx lx' /\
    ((errors lx <= LEX_ERRORS_MAX)%nat -> (pos lx < pos lx' \/ errors lx < errors lx')%nat)) as Hgo.
  2: { intros lx' [? ?]. split; [done|]. left. done. }
  destruct (doc_marker lx 0) as [doc marker] eqn:Em.
  destruct (bool_decide (doc = TOKEN_EOF)) eqn:Ed; cbn [negb].
  2: { apply bool_decide_eq_false in Ed. destruct (doc_marker_len _ _ _ _ Em Ed) as (H1 & H2 & _).
       rewrite Nat.add_0_r in H1.
       destruct (at_ lx 1 =? 47); apply Hgo; [apply line_doc_spec|apply block_doc_spec]; (done || lia). }
  destruct (string_start lx) as [p|] eqn:Es.
  { destruct (_ || _); apply Hgo; [eapply interpolated_spec; done|apply string_spec; done]. }
  destruct (is_ident_start _) eqn:E1; [apply Hgo, identifier_spec; done|].
  destruct (is_digit _) eqn:E2; [apply Hgo, number_spec; done|].
  destruct (Z.eqb_spec (at_ lx 0) 39); [apply Hgo, character_spec; done|].
  destruct (symbol _ _ _ _) as [lx'|] eqn:E3; [apply Hgo, symbol_spec; done|].
  destruct (unexpected_spec lx W) as [H1 H2]. split; [done|]. right. auto.
Qed.

Lemma lex_levels_spec levels d :
  (levels + d = LEX_FORMAT_DEPTH_MAX)%nat -> lexes_token d (lex_levels levels).
Proof.
  revert d. induction levels as [|n IH]; intros d E; cbn [lex_levels].
  - apply lex_body_spec. lia.
  - apply lex_body_spec. intros _. apply IH. lia.
Qed.

Lemma lex_token_spec : lexes_token 0 lex_token.
Proof.
  intros lx W Hd Ha. unfold lex_token. rewrite Hd. apply (lex_levels_spec _ 0); [|done..].
  unfold LEX_FORMAT_DEPTH_MAX. lia.
Qed.
