(* ===== verification/LexerSpec.v ===== *)
(** * LexerSpec: what the lexer promises its callers

    The promises of lexer.h about a whole run, from the relations of
    LexerRun.v, and what single tokens mean: the longest symbol, the value of an
    integer, the text of a string. *)

From S2P Require Import Prelude Utf Token Lexer LexerRun.

(** ** A whole run *)

(** Where the text starts: after a byte order mark. *)
Definition text_base (source : list Z) : nat :=
  if same (take 3 source) [0xEF; 0xBB; 0xBF] then 3%nat else 0%nat.

(** The tokens of a run: those of the source, and the end. *)
Record lexed (source : list Z) (ok_ : bool) (lx : lexer) (ts : list token) (e : token) : Prop := {
  lexed_out : out lx = ts ++ [e];
  lexed_eof : t_kind e = TOKEN_EOF /\ t_length e = 0%nat;
  lexed_chain : chain 0 (t_offset e) ts /\ (t_offset e <= length source)%nat;
  lexed_kinds : Forall (fun t => t_kind t <> TOKEN_EOF) ts;
  lexed_located : Forall (token_located source (text_base source)) (ts ++ [e]);
  lexed_errors : errors lx = length (diags lx) /\ (errors lx <= S LEX_ERRORS_MAX)%nat;
  lexed_ok : ok_ = true <-> errors lx = 0%nat;
  lexed_all : ok_ = true -> t_offset e = length source;
}.

Lemma lex_start source :
  Forall is_byte source ->
  let lx := Lexer source (length source) 0 1 1 [] [] true 0 0 in
  let lx := if same (take 3 source) [0xEF; 0xBB; 0xBF] then set_place 3 1 1 lx else lx in
  wf lx /\ pos lx = text_base source /\ located (text_base source) lx.
Proof.
  intros Hb. cbv zeta. unfold text_base. destruct (same _ _) eqn:E.
  - assert (3 <= length source)%nat.
    { apply same_spec in E. apply (f_equal length) in E. rewrite length_take in E. cbn [length] in E. lia. }
    split; [split; cbn; [lia|lia|done]|]. split; [done|]. split; [done|].
    reflexivity.
  - split; [split; cbn; [lia|lia|done]|]. split; [done|]. split; [done|]. done.
Qed.

Lemma validate_from_error fuel l c i lx lx' :
  validate_from fuel l c i lx = Some lx' -> exists l' c', lx' = error_at l' c' E_invalid_utf8 lx.
Proof.
  revert l c i. induction fuel as [|f IH]; intros l c i; [done|]. cbn [validate_from].
  destruct (_ <? _)%nat; [|done]. destruct (anti_rt_utf8_decode _) as [cp k].
  destruct (k =? 0)%nat; [intros [= <-]; eauto|]. destruct (cp =? 10); apply IH.
Qed.

Lemma lex_main source :
  Forall is_byte source ->
  exists ts e, lexed source (lexer_lex source).1 (lexer_lex source).2 ts e.
Proof.
  intros Hb. pose proof (lex_start source Hb) as H. cbv zeta in H.
  unfold lexer_lex. cbv zeta.
  destruct (Z.of_nat (length source) >? LEX_SOURCE_MAX).
  { exists [], (Token TOKEN_EOF 1 1 0 0 Empty). cbn. split; cbn; try done.
    - split; [constructor; lia|lia].
    - constructor; [|constructor]. unfold token_located, text_to. cbn. done.
    - split; [done|]. unfold LEX_ERRORS_MAX. lia. }
  set (lx0 := if same _ _ then _ else _) in *.
  assert (src lx0 = source /\ limit lx0 = length source /\ out lx0 = [] /\ diags lx0 = [] /\ ok lx0 = true
    /\ errors lx0 = 0%nat /\ depth lx0 = 0%nat) as (S0 & L0 & O0 & D0 & K0 & N0 & P0)
    by (unfold lx0; destruct (same _ _); done).
  destruct H as (W & Hp & HL).
  destruct (validate lx0) as [lx'|] eqn:V.
  - apply validate_from_error in V as (l & c & ->).
    exists [], (Token TOKEN_EOF 1 1 (pos lx0) 0 Empty).
    assert (token_located source (text_base source) (Token TOKEN_EOF 1 1 (pos lx0) 0 Empty)) as T0.
    { unfold token_located. cbn [t_line t_column t_offset]. destruct HL as [_ HL]. rewrite S0 in HL.
      rewrite <- HL. unfold lx0. destruct (same _ _); done. }
    unfold error_at. rewrite N0. cbn [Nat.ltb Nat.leb LEX_ERRORS_MAX]. pose proof (wf_pos _ W).
    split; cbn [push push_value set_errors set_out out diags errors ok pos fst snd t_kind t_length t_offset app];
      rewrite ?O0, ?D0, ?Nat.sub_diag; try done.
    + split; [constructor; lia|lia].
    + constructor; [exact T0|constructor].
    + split; [done|]. unfold LEX_ERRORS_MAX. lia.
  - set (final := iterate _ _ _).
    assert (exists s, lexes lx0 s /\ (at_ s 0 = -1 \/ (LEX_ERRORS_MAX < errors s)%nat) /\
      final = push TOKEN_EOF (pos s) (line s) (column s) s) as (s & Hs & Hend & ->).
    { unfold final. apply (iterate_ind (lexes lx0) (fun r => exists s, lexes lx0 s /\
        (at_ s 0 = -1 \/ (LEX_ERRORS_MAX < errors s)%nat) /\
        r = push TOKEN_EOF (pos s) (line s) (column s) s) rounds); [|reflexivity|lia].
      intros t Ht. pose proof (run_wf _ _ (lexes_run _ _ Ht) W) as Wt.
      pose proof (skip_trivia_spec t Wt) as H1. pose proof (moves_wf _ _ H1 Wt) as W1. cbv zeta.
      set (u := skip_trivia t) in *.
      assert (lexes lx0 u) as Hu by (etrans; [exact Ht|apply moves_lexes, H1]).
      destruct (Z.eqb_spec (at_ u 0) (-1)) as [|Ha]; cbn [orb]; [exists u; auto|].
      destruct (Nat.ltb_spec LEX_ERRORS_MAX (errors u)) as [|He]; [exists u; auto|].
      assert (depth u = 0%nat) as Du by (rewrite (run_depth _ _ (lexes_run _ _ Hu)); done).
      destruct (lex_token_spec u W1 Du Ha) as [H2 H3]. split; [etrans; done|].
      pose proof (lexes_rounds u _ W1 H2 He (H3 He)). apply moves_rounds in H1. lia. }
    pose proof (run_wf _ _ (lexes_run _ _ Hs) W) as Ws. destruct Hs as [R (ts & E & C & K & T)].
    exists ts, (Token TOKEN_EOF (line s) (column s) (pos s) (pos s - pos s) Empty).
    destruct (run_diags _ _ R) as (ds & Ed & Nd). rewrite D0 in Ed. rewrite N0 in Nd. cbn in Ed, Nd.
    assert (ok s = true <-> errors s = 0%nat) as Hok.
    { destruct (run_ok _ _ R) as [[O N]|[O N]]; rewrite O; [rewrite K0; split; [lia|done]|].
      split; [done|]. unfold LEX_ERRORS_MAX in N. lia. }
    split; cbn [push push_value set_out out diags errors ok fst snd t_kind t_length t_offset].
    + rewrite E, O0. done.
    + split; [done|lia].
    + split; [|pose proof (wf_pos _ Ws); rewrite (run_limit _ _ R), L0 in *; done].
      apply (chain_app 0 (pos lx0) (pos s) [] ts); [constructor; lia|done].
    + done.
    + apply Forall_app_2; [rewrite <- S0 at 1; apply T, HL|]. constructor; [|constructor].
      unfold token_located. cbn. destruct (run_located _ _ R _ HL) as [_ HL'].
      rewrite (run_src _ _ R), S0 in HL'. exact HL'.
    + split; [rewrite Ed; lia|]. apply (run_cap _ _ R). lia.
    + exact Hok.
    + intros Ho. destruct Hend as [Hend|Hend]; [|apply Hok in Ho; lia].
      apply at_end in Hend; [|done]. pose proof (wf_pos _ Ws).
      rewrite (run_limit _ _ R), L0 in *. lia.
Qed.

(** C13. lexer_lex ends on every byte string, errors included, with tokens that
    lie in order and apart inside the source and exactly one end of file, the
    last. A run without an error has read the whole source. *)
Theorem lex_tokens_in_order source :
  Forall is_byte source ->
  exists ts e, out (lexer_lex source).2 = ts ++ [e] /\ t_kind e = TOKEN_EOF /\ t_length e = 0%nat /\
    Forall (fun t => t_kind t <> TOKEN_EOF) ts /\
    chain 0 (t_offset e) ts /\ (t_offset e <= length source)%nat /\
    ((lexer_lex source).1 = true -> t_offset e = length source).
Proof.
  intros Hb. destruct (lex_main source Hb) as (ts & e & [H1 [H2 H3] [H4 H5] H6 H7 H8 H9 H10]).
  exists ts, e. auto 10.
Qed.

Lemma lex_tokens_in_order_witness :
  (exists e, out (lexer_lex (bytes "fn f(x: i32)")).2 !! 7%nat = Some e /\ t_kind e = TOKEN_EOF) /\
  exists ts e, out (lexer_lex (bytes "fn f(x: i32)")).2 = ts ++ [e] /\ t_kind e = TOKEN_EOF /\
    t_length e = 0%nat /\ Forall (fun t => t_kind t <> TOKEN_EOF) ts /\ chain 0 (t_offset e) ts /\
    (t_offset e <= length (bytes "fn f(x: i32)"))%nat /\
    ((lexer_lex (bytes "fn f(x: i32)")).1 = true -> t_offset e = length (bytes "fn f(x: i32)")).
Proof.
  split; [vm_compute; eexists; split; reflexivity|].
  apply (lex_tokens_in_order (bytes "fn f(x: i32)")). vm_decide.
Defined.

(** The result of lexer_lex is true exactly when it reported no error, and
    it reports at most LEX_ERRORS_MAX errors and the one that says the run
    stops, so a source of bad bytes gives a bounded list of diagnostics. *)
Lemma lex_ok_iff_no_diagnostics source :
  Forall is_byte source ->
  ((lexer_lex source).1 = true <-> diags (lexer_lex source).2 = []) /\
  (length (diags (lexer_lex source).2) <= S LEX_ERRORS_MAX)%nat.
Proof.
  intros Hb. destruct (lex_main source Hb) as (ts & e & [_ _ _ _ _ [H1 H2] H3 _]).
  split; [|lia]. rewrite H3, H1. split; [apply nil_length_inv|intros ->; done].
Qed.

Lemma locate_bound bs :
  let '(l, c) := locate bs in
  1 <= l /\ 1 <= c /\ l <= 1 + Z.of_nat (length bs) /\ c <= 1 + Z.of_nat (length bs).
Proof.
  induction bs as [|b bs IH] using rev_ind; [cbn; lia|]. rewrite locate_app.
  destruct (locate bs) as [l c]. rewrite length_app. cbn [length]. destruct (b =? 10); lia.
Qed.

(** The line and the column of every token are those of its first byte,
    counted in the text after a byte order mark: a newline starts column 1 of
    the next line and any other byte takes a column. Both stay below 2^27 on a
    source under the cap, so the int of C holds them. *)
Lemma lex_locations source t :
  Forall is_byte source -> t ∈ out (lexer_lex source).2 ->
  (t_line t, t_column t) = locate (text_to source (text_base source) (t_offset t)) /\
  (Z.of_nat (length source) <= LEX_SOURCE_MAX ->
   1 <= t_line t < 2 ^ 27 /\ 1 <= t_column t < 2 ^ 27).
Proof.
  intros Hb Ht. destruct (lex_main source Hb) as (ts & e & [H1 _ _ _ H2 _ _ _]).
  rewrite H1 in Ht. apply (proj1 (Forall_forall _ _) H2) in Ht. unfold token_located in Ht.
  split; [done|]. unfold LEX_SOURCE_MAX. rewrite shiftl_mul by lia. intros Hl.
  set (bs := text_to _ _ _) in *. pose proof (locate_bound bs) as HB. rewrite <- Ht in HB.
  assert (length bs <= length source)%nat as Hlen
    by (unfold bs, text_to; rewrite length_take, length_drop; lia).
  change (64 * 2 ^ 20) with 67108864 in Hl. pow2s. lia.
Qed.

(** ** Symbols *)

Lemma best_symbol_longest lx :
  match best_symbol lx with
  | Some k => is_category CAT_SYMBOL k = true /\ starts_with lx (spelling k) = true /\
      forall j, is_category CAT_SYMBOL j = true -> starts_with lx (spelling j) = true ->
        (length (spelling j) <= length (spelling k))%nat
  | None => forall j, is_category CAT_SYMBOL j = true -> starts_with lx (spelling j) = false
  end.
Proof.
  pose (P := fun ks (r : option token_kind * nat) =>
    match r.1 with
    | Some k => is_category CAT_SYMBOL k = true /\ starts_with lx (spelling k) = true /\
        r.2 = length (spelling k) /\
        forall j, In j ks -> is_category CAT_SYMBOL j = true -> starts_with lx (spelling j) = true ->
          (length (spelling j) <= length (spelling k))%nat
    | None => r.2 = 0%nat /\
        forall j, In j ks -> is_category CAT_SYMBOL j = true -> starts_with lx (spelling j) = false
    end).
  unfold best_symbol. set (f := fun '(best, n) k => _).
  assert (forall ks seen r, P seen r -> P (seen ++ ks) (fold_left f ks r)) as H.
  { induction ks as [|k ks IH]; intros seen r Hr; [rewrite app_nil_r; done|].
    cbn [fold_left]. replace (seen ++ k :: ks) with ((seen ++ [k]) ++ ks) by (rewrite <- app_assoc; done).
    apply IH. destruct r as [[b|] n]; cbn [f]; unfold P in *; cbn [fst snd] in *.
    - destruct Hr as (H1 & H2 & -> & H3).
      destruct (is_category CAT_SYMBOL k && _ && starts_with lx (spelling k)) eqn:E; cbn [fst snd].
      + apply andb_true_iff in E as [E E3]. apply andb_true_iff in E as [E1 E2%Nat.ltb_lt].
        repeat (split; [done|]). intros j [Hj|[<-|[]]]%in_app_iff Hc Hs; [|done].
        specialize (H3 j Hj Hc Hs). lia.
      + repeat (split; [done|]). intros j [Hj|[<-|[]]]%in_app_iff Hc Hs; [auto|].
        rewrite Hc, Hs, andb_true_r in E. apply Nat.ltb_ge in E. lia.
    - destruct Hr as (-> & H3).
      destruct (is_category CAT_SYMBOL k && _ && starts_with lx (spelling k)) eqn:E; cbn [fst snd].
      + apply andb_true_iff in E as [E E3]. apply andb_true_iff in E as [E1 E2%Nat.ltb_lt].
        repeat (split; [done|]). intros j [Hj|[<-|[]]]%in_app_iff Hc Hs; [|done].
        rewrite (H3 j Hj Hc) in Hs. done.
      + split; [done|]. intros j [Hj|[<-|[]]]%in_app_iff Hc; [auto|].
        rewrite Hc, (proj2 (Nat.ltb_lt _ _) (symbols_nonempty _ Hc)) in E. done. }
  specialize (H all_kinds [] (None, 0%nat) ltac:(split; done)). cbn [app] in H. unfold P in H.
  destruct (fold_left f all_kinds (None, 0%nat)) as [[k|] n]; cbn [fst snd] in *.
  - destruct H as (H1 & H2 & _ & H3). split; [done|]. split; [done|]. intros j. apply H3, all_kinds_complete.
  - destruct H as (_ & H3). intros j. apply H3, all_kinds_complete.
Qed.

(** symbol takes the longest match: the token it pushes is an operator or
    punctuation spelled at the position, no symbol spelled there is longer and
    no other has its length, so `??` and `?.` are one token each; without a
    token no symbol is spelled there. *)
Lemma symbol_longest_match start l c lx :
  match symbol start l c lx with
  | Some lx' => exists k, is_category CAT_SYMBOL k = true /\ starts_with lx (spelling k) = true /\
      lx' = push k start l c (advance_n (length (spelling k)) lx) /\
      forall j, is_category CAT_SYMBOL j = true -> starts_with lx (spelling j) = true ->
        j = k \/ (length (spelling j) < length (spelling k))%nat
  | None => forall j, is_category CAT_SYMBOL j = true -> starts_with lx (spelling j) = false
  end.
Proof.
  unfold symbol. pose proof (best_symbol_longest lx) as H.
  destruct (best_symbol lx) as [k|]; cbn; [|done]. destruct H as (H1 & H2 & H3).
  exists k. repeat (split; [done|]). intros j Hj Hs. specialize (H3 j Hj Hs).
  destruct (decide (length (spelling j) = length (spelling k))) as [E|]; [left|right; lia].
  apply (spelling_inj CAT_SYMBOL); [apply symbols_distinct|done..|].
  apply andb_true_iff in H2 as [_ H2%same_spec], Hs as [_ Hs%same_spec].
  rewrite <- Hs, <- H2, E. done.
Qed.

(** ** Numbers *)

Lemma at_rest lx a : wf lx -> at_ lx a = nth a (rest_of lx) (-1).
Proof.
  intros W. unfold at_, rest_of, slice. pose proof (wf_limit _ W). pose proof (wf_pos _ W).
  destruct (Nat.ltb_spec (pos lx + a) (limit lx)).
  - rewrite !nth_lookup, lookup_take_lt, lookup_drop by lia. unfold byte_at. rewrite nth_lookup.
    destruct (lookup_lt_is_Some_2 (src lx) (pos lx + a)%nat ltac:(lia)) as [x ->]. done.
  - rewrite nth_overflow; [done|]. rewrite length_take, length_drop. lia.
Qed.

Lemma rest_of_advance lx : wf lx -> (pos lx < limit lx)%nat -> rest_of (advance lx) = tl (rest_of lx).
Proof.
  intros W H. unfold rest_of, slice. rewrite advance_pos.
  pose proof (moves_advance lx W H) as Hm. rewrite (moves_src _ _ Hm), (moves_limit _ _ Hm).
  pose proof (wf_limit _ W).
  replace (limit lx - pos lx)%nat with (S (limit lx - S (pos lx))) by lia.
  destruct (lookup_lt_is_Some_2 (src lx) (pos lx) ltac:(lia)) as [x Hx].
  rewrite (drop_S _ _ _ Hx). done.
Qed.

Lemma rest_of_advance_n n lx : wf lx -> (pos lx + n <= limit lx)%nat -> rest_of (advance_n n lx) = drop n (rest_of lx).
Proof.
  intros W. induction n as [|n IH]; intros H; [done|]. rewrite advance_n_S.
  assert (moves lx (advance_n n lx)) as Hm by (apply moves_advance_n; [done|lia]).
  rewrite rest_of_advance; [|exact (moves_wf _ _ Hm W)|rewrite (moves_limit _ _ Hm); lexer_lia].
  rewrite IH by lia. replace (S n) with (n + 1)%nat by lia. rewrite <- drop_drop.
  destruct (drop n (rest_of lx)); done.
Qed.

Lemma length_rest_of lx : wf lx -> length (rest_of lx) = remaining lx.
Proof.
  intros [W1 W2 _]. unfold rest_of, slice, remaining. rewrite length_take, length_drop. lia.
Qed.

(** Digits with each [_] between two of them, the first a digit. *)
Fixpoint separated (valid : Z -> bool) (tx : list Z) : bool :=
  match tx with
  | [] => true
  | c :: r =>
      if c =? 95 then match r with d :: _ => valid d && separated valid r | [] => false end
      else valid c && separated valid r
  end.

(** The digits without the separators. *)
Definition strip (tx : list Z) : list Z := List.filter (fun c => negb (c =? 95)) tx.

Definition number_digit (hex : bool) : Z -> bool := if hex then is_hex else is_digit.

Lemma number_digit_plain hex c : number_digit hex c = true -> c <> 95 /\ c <> -1.
Proof.
  unfold number_digit. destruct hex; intros H; (split; intros ->; done).
Qed.

Lemma digit_run_from hex fuel tx rest lx ds :
  wf lx -> rest_of lx = tx ++ rest -> separated (number_digit hex) tx = true ->
  number_digit hex (nth 0 rest (-1)) = false -> nth 0 rest (-1) <> 95 -> (remaining lx < fuel)%nat ->
  iterate fuel (fun '(lx, digits, fine) =>
    let c := at_ lx 0 in
    if number_digit hex c || (c =? 95) then
      if c =? 95 then
        if negb (number_digit hex (at_ lx 1)) then ((lx, digits, false), false)
        else ((advance lx, digits, fine), true)
      else ((advance lx, digits ++ [c], fine), true)
    else ((lx, digits, fine), false)) (lx, ds, true)
  = (advance_n (length tx) lx, ds ++ strip tx, true).
Proof.
  intros W. revert fuel lx ds W. induction tx as [|c tx IH]; intros fuel lx ds W Hr Hs Hn Hu Hf;
    (destruct fuel as [|f]; [lia|]); cbn [iterate]; cbv zeta; rewrite !(at_rest lx) by done; rewrite Hr.
  - cbn [app]. rewrite Hn, (proj2 (Z.eqb_neq _ _) Hu). cbn [orb strip List.filter length]. rewrite app_nil_r. done.
  - cbn [app nth]. assert (pos lx < limit lx)%nat as Hp.
    { pose proof (length_rest_of lx W) as Hl. rewrite Hr in Hl. cbn in Hl. unfold remaining in Hl. lia. }
    pose proof (moves_advance lx W Hp) as Hm. pose proof (moves_wf _ _ Hm W) as W1.
    assert (rest_of (advance lx) = tx ++ rest) as Hr1 by (rewrite rest_of_advance, Hr; done).
    assert (remaining (advance lx) < f)%nat as Hf1
      by (unfold remaining in *; rewrite (moves_limit _ _ Hm); lexer_lia).
    cbn [length]. replace (advance_n (S (length tx)) lx) with (advance_n (length tx) (advance lx))
      by (unfold advance_n; rewrite Nat.iter_succ_r; done).
    cbn [separated] in Hs. unfold strip in *. cbn [List.filter].
    destruct (Z.eqb_spec c 95) as [->|Hc]; cbn [negb].
    + rewrite orb_true_r. destruct tx as [|d tx]; [done|]. apply andb_true_iff in Hs as [Hd Hs].
      cbn [app nth]. rewrite Hd. cbn [negb]. apply IH; done.
    + apply andb_true_iff in Hs as [Hd Hs]. rewrite Hd. cbn [orb].
      rewrite IH by done. rewrite <- app_assoc. done.
Qed.

Lemma digit_run_spec hex tx rest lx :
  wf lx -> rest_of lx = tx ++ rest -> separated (number_digit hex) tx = true ->
  number_digit hex (nth 0 rest (-1)) = false -> nth 0 rest (-1) <> 95 ->
  digit_run hex lx = (advance_n (length tx) lx, strip tx, true).
Proof. intros. apply (digit_run_from hex _ tx rest); auto. Qed.

(** The number that digits of a base spell. *)
Definition digits_number (base : Z) (ds : list Z) : Z :=
  fold_left (fun v d => v * base + hex_value d) ds 0.

Lemma digits_value_spec base ds v :
  1 <= base -> 0 <= v <= UINT64_MAX -> Forall (fun d => 0 <= hex_value d < base) ds -> base <= UINT64_MAX ->
  digits_value base v ds =
    let r := fold_left (fun v d => v * base + hex_value d) ds v in
    if r <=? UINT64_MAX then Some r else None.
Proof.
  intros Hb Hv Hd HB. cbv zeta. revert v Hv. induction ds as [|d ds IH]; intros v Hv; cbn [digits_value fold_left].
  { rewrite (proj2 (Z.leb_le _ _)) by lia. done. }
  apply Forall_cons_1 in Hd as [Hd Hds]. rewrite Z.gtb_ltb.
  assert (forall es w, 0 <= w -> Forall (fun d => 0 <= hex_value d < base) es ->
    w <= fold_left (fun v d => v * base + hex_value d) es w) as Hmono.
  { clear -Hb. induction es as [|e es IH]; intros w Hw He; cbn [fold_left]; [lia|].
    apply Forall_cons_1 in He as [He Hes]. etrans; [|apply IH; [nia|done]]. nia. }
  destruct (Z.ltb_spec ((UINT64_MAX - hex_value d) / base) v) as [Hlt|Hge].
  - assert (UINT64_MAX < v * base + hex_value d) as Ho.
    { apply Z.lt_le_pred in Hlt.
      pose proof (Z.mul_succ_div_gt (UINT64_MAX - hex_value d) base ltac:(lia)). nia. }
    pose proof (Hmono ds (v * base + hex_value d) ltac:(nia) Hds).
    rewrite (proj2 (Z.leb_gt _ _)) by lia. done.
  - assert (v * base + hex_value d <= UINT64_MAX) as Ho
      by (pose proof (Z.mul_div_le (UINT64_MAX - hex_value d) base ltac:(lia)); nia).
    rewrite wrap_small by (split; pow2s; nia). apply IH; [done|nia].
Qed.

(** What follows the digits ends the number: no letter, digit or [_], and no
    fraction where the number may have one. *)
Definition ends_number (hex element : bool) (rest : list Z) : bool :=
  negb (is_ident_char (nth 0 rest (-1))) &&
  (hex || element || negb ((nth 0 rest (-1) =? 46) && is_digit (nth 1 rest (-1)))).

Lemma strip_digits hex tx :
  separated (number_digit hex) tx = true -> Forall (fun d => number_digit hex d = true) (strip tx).
Proof.
  induction tx as [|c tx IH]; [constructor|]. cbn [separated]. unfold strip in *. cbn [List.filter].
  destruct (Z.eqb_spec c 95) as [->|]; cbn [negb].
  - destruct tx; [done|]. intros [_ H]%andb_true_iff. apply IH, H.
  - intros [H1 H2]%andb_true_iff. constructor; [done|]. apply IH, H2.
Qed.

Lemma hex_value_bound hex d :
  number_digit hex d = true -> 0 <= hex_value d < (if hex then 16 else 10).
Proof.
  unfold number_digit, hex_value. destruct hex.
  - unfold is_hex. destruct (is_digit d) eqn:E.
    + unfold is_digit in E. rewrite Z.geb_leb in E. bool_to_prop. lia.
    + rewrite !Z.geb_leb. cbn [orb]. intros [H|H]%orb_true_iff; bool_to_prop.
      * assert (In d [97; 98; 99; 100; 101; 102]) as Hd by (cbn; lia).
        repeat (destruct Hd as [<-|Hd]; [vm_compute; split; [discriminate|reflexivity]|]). done.
      * assert (In d [65; 66; 67; 68; 69; 70]) as Hd by (cbn; lia).
        repeat (destruct Hd as [<-|Hd]; [vm_compute; split; [discriminate|reflexivity]|]). done.
  - intros E. rewrite E. unfold is_digit in E. rewrite Z.geb_leb in E. bool_to_prop. lia.
Qed.

Lemma not_ident_not_digit hex c : is_ident_char c = false -> number_digit hex c = false /\ c <> 95.
Proof.
  unfold is_ident_char, is_ident_start. intros H. bool_to_prop. split; [|done].
  unfold number_digit. destruct hex; [|done]. unfold is_hex. rewrite H0. rewrite !Z.geb_leb in *. cbn [orb].
  apply orb_false_iff. rewrite !andb_false_iff in *. rewrite !Z.leb_gt in *. lia.
Qed.

(** An integer literal, decimal or hexadecimal, with each `_` between two
    digits, lexes as TOKEN_INT of the number its digits spell, over all its
    bytes, when that fits in 64 bits; a larger one is the error that it is too
    large and never wraps. *)
Lemma integer_literal_value (hex : bool) tx rest start l c lx :
  wf lx -> rest_of lx = (if hex then [48; 120] else []) ++ tx ++ rest ->
  tx <> [] -> nth 0 tx 0 <> 95 -> separated (number_digit hex) tx = true ->
  (hex = false -> nth 0 tx 0 <> 48 \/ strip tx = [48]) ->
  ends_number hex (after_dot lx) rest = true ->
  let base := if hex then 16 else 10 in
  let v := digits_number base (strip tx) in
  let lx' := advance_n ((if hex then 2 else 0) + length tx) lx in
  number start l c lx =
    if v <=? UINT64_MAX then push_value TOKEN_INT start l c (Integer v) lx'
    else number_error start l c E_integer_too_large lx'.
Proof.
  intros W Hr Hne H95 Hs Hz He. cbv zeta.
  destruct tx as [|t0 tx']; [done|]. cbn [nth] in *. set (tx := t0 :: tx') in *.
  assert (number_digit hex t0 = true) as Ht0.
  { cbn [separated tx] in Hs. rewrite (proj2 (Z.eqb_neq _ _) H95) in Hs.
    apply andb_true_iff in Hs as [Hs _]. done. }
  unfold ends_number in He. apply andb_true_iff in He as [Hi Hf]. apply negb_true_iff in Hi.
  destruct (not_ident_not_digit hex _ Hi) as [Hnd Hnu].
  unfold number. rewrite !(at_rest lx) by done. rewrite Hr.
  assert ((nth 0 ((if hex then [48; 120] else []) ++ tx ++ rest) (-1) =? 48) &&
    (nth 1 ((if hex then [48; 120] else []) ++ tx ++ rest) (-1) =? 120) = hex) as ->.
  { destruct hex; [done|]. cbn [app tx nth]. destruct tx' as [|t1 tx'].
    - cbn [app]. destruct (Z.eqb_spec (nth 0 rest (-1)) 120) as [E|]; [|apply andb_false_r].
      rewrite E in Hi. done.
    - cbn [app nth]. destruct (Z.eqb_spec t1 120) as [->|]; [|apply andb_false_r].
      cbn [separated tx] in Hs. rewrite (proj2 (Z.eqb_neq _ _) H95) in Hs.
      apply andb_true_iff in Hs as [_ Hs]. done. }
  cbv zeta. set (s := if hex then advance_n 2 lx else lx).
  pose proof (length_rest_of lx W) as Hlen. rewrite Hr, !length_app in Hlen. unfold remaining in Hlen.
  assert (moves lx s /\ rest_of s = tx ++ rest) as [Hm Hrs].
  { unfold s. destruct hex; [|done]. cbn [length] in Hlen. split; [apply moves_advance_n; [done|lia]|].
    rewrite rest_of_advance_n by (done || lia). rewrite Hr. done. }
  pose proof (moves_wf _ _ Hm W) as Ws. rewrite !(at_rest s) by done. rewrite Hrs. cbn [tx app nth].
  rewrite (proj2 (Z.eqb_neq _ _) H95), andb_false_r.
  assert (hex && negb (is_hex t0) = false) as ->.
  { destruct hex; [|done]. unfold number_digit in Ht0. rewrite Ht0. done. }
  rewrite (digit_run_spec hex tx rest) by done. cbn [negb].
  assert (pos s + length tx <= limit s)%nat as Hb.
  { pose proof (length_rest_of s Ws) as Hl. rewrite Hrs, length_app in Hl. unfold remaining in Hl.
    pose proof (wf_pos _ Ws). lia. }
  set (u := advance_n (length tx) s).
  assert (moves s u) as Hu by (apply moves_advance_n; done).
  assert (rest_of u = rest) as Hru
    by (unfold u; rewrite rest_of_advance_n, Hrs by done; apply drop_app_length).
  rewrite !(at_rest u) by (eapply moves_wf; done). rewrite Hru, Hi.
  assert (negb hex && negb (after_dot lx) && (nth 0 rest (-1) =? 46) && is_digit (nth 1 rest (-1)) = false) as ->.
  { destruct hex, (after_dot lx); try done. cbn [orb negb andb] in *. apply negb_true_iff in Hf. done. }
  assert (negb hex && (1 <? length (strip tx))%nat && (nth 0 (strip tx) 0 =? 48) = false) as ->.
  { destruct hex; [done|]. cbn [negb andb]. destruct (Hz eq_refl) as [H48| ->]; [|done].
    unfold strip, tx. cbn [List.filter]. rewrite (proj2 (Z.eqb_neq _ _) H95). cbn [negb nth].
    rewrite (proj2 (Z.eqb_neq _ _) H48). apply andb_false_r. }
  rewrite digits_value_spec; [|destruct hex; lia|lia| |destruct hex; lia].
  2: { eapply Forall_impl; [apply strip_digits, Hs|]. intros d. apply hex_value_bound. }
  cbv zeta. fold (digits_number (if hex then 16 else 10) (strip tx)).
  assert (u = advance_n ((if hex then 2 else 0) + length tx) lx) as ->.
  { unfold u, s. destruct hex; [|done]. unfold advance_n. rewrite Nat.add_comm, Nat.iter_add. done. }
  destruct (_ <=? _); done.
Qed.

(** ** A position inside a sequence of UTF-8 *)

Lemma starts_with_first lx x s : starts_with lx (x :: s) = true -> at_ lx 0 = x.
Proof.
  intros H. apply andb_true_iff in H as [H1%Nat.leb_le H2]. apply same_spec in H2. cbn [length] in H1.
  unfold at_. rewrite Nat.add_0_r, (proj2 (Nat.ltb_lt _ _)) by lia. unfold slice in H2. unfold byte_at.
  rewrite nth_lookup. cbn [length take] in H2. destruct (drop (pos lx) (src lx)) as [|y l] eqn:E; [done|].
  injection H2 as -> _. apply (f_equal (fun l => l !! 0%nat)) in E. rewrite lookup_drop, Nat.add_0_r in E.
  by rewrite E.
Qed.

(** A byte above 0x7F starts no token. *)
Lemma high_byte_unexpected lex lx :
  wf lx -> 0x80 <= at_ lx 0 -> lex_body lex lx = unexpected (pos lx) (line lx) (column lx) lx.
Proof.
  intros W Hc. unfold lex_body. cbv zeta.
  assert (doc_marker lx 0 = (TOKEN_EOF, 3%nat)) as ->.
  { unfold doc_marker. rewrite (proj2 (Z.eqb_neq (at_ lx 0) 47)) by lia. done. }
  rewrite bool_decide_true by done. cbn [negb].
  assert (string_start lx = None) as ->.
  { destruct (string_start lx) as [p|] eqn:E; [|done]. exfalso.
    apply find_some in E as [Hin [H1 H2]%andb_true_iff].
    assert (p_spelling p = [] \/ exists x s, p_spelling p = x :: s /\ x < 0x80) as [H|(x & s & H & Hx)].
    { assert (Forall (fun p => match p_spelling p with [] => True | x :: _ => x < 0x80 end) string_prefixes) as HF
        by (repeat constructor).
      rewrite Forall_forall in HF. specialize (HF p (proj2 (list_elem_of_In _ _) Hin)).
      destruct (p_spelling p); [by left|right; eauto]. }
    - rewrite H in H2. cbn [length] in H2. unfold count_while in H2. cbn [count_from] in H2.
      rewrite (proj2 (Z.eqb_neq (at_ lx 0) 35)) in H2 by lia. apply Z.eqb_eq in H2. lia.
    - rewrite H in H1. apply starts_with_first in H1. lia. }
  assert (is_ident_start (at_ lx 0) = false /\ is_digit (at_ lx 0) = false /\ (at_ lx 0 =? 39) = false) as (-> & -> & ->).
  { unfold is_ident_start, is_digit. split_and!; zcases; try done; lia. }
  assert (symbol (pos lx) (line lx) (column lx) lx = None) as ->; [|done].
  unfold symbol. pose proof (best_symbol_longest lx) as Hb. destruct (best_symbol lx) as [k|]; [|done].
  destruct Hb as (Hk & Hs & _). exfalso.
  assert (match spelling k with [] => False | x :: _ => x < 0x80 end) as Hx.
  { clear Hs. revert Hk. destruct k; vm_compute; done. }
  destruct (spelling k) as [|x s]; [done|]. apply starts_with_first in Hs. lia.
Qed.

Lemma continuation_decode lx :
  wf lx -> 0x80 <= at_ lx 0 < 0xC0 -> anti_rt_utf8_decode (rest_of lx) = (0, 0%nat).
Proof.
  intros W Hc. rewrite at_rest in Hc by done. destruct (rest_of lx) as [|c l]; cbn [nth] in Hc; [lia|].
  unfold anti_rt_utf8_decode, sequence_length. zcases; try lia; done.
Qed.

Lemma error_at_out l c m lx : out (error_at l c m lx) = out lx.
Proof. unfold error_at. by destruct (_ <? _)%nat. Qed.

(** No token makes progress inside a sequence of UTF-8: on a continuation byte,
    0x80 to 0xBF, lex_token reports one error and pushes an error token of no
    length, and the position stays. escape leaves the position there when the byte
    after the backslash starts a sequence and the character literal has no closing
    quote, so one mistake in the source is reported again until the errors reach
    their cap. *)
Lemma continuation_byte_stops_lexer lx :
  wf lx -> 0x80 <= at_ lx 0 < 0xC0 ->
  let lx' := lex_token lx in
  lx' = push TOKEN_ERROR (pos lx) (line lx) (column lx)
          (error_at (line lx) (column lx) E_unexpected_outside lx) /\
  pos lx' = pos lx /\ at_ lx' 0 = at_ lx 0 /\
  exists t, out lx' = out lx ++ [t] /\ t_kind t = TOKEN_ERROR /\ t_length t = 0%nat.
Proof.
  intros W Hc. cbv zeta.
  assert (lex_token lx = push TOKEN_ERROR (pos lx) (line lx) (column lx)
    (error_at (line lx) (column lx) E_unexpected_outside lx)) as ->.
  { assert (forall lex, lex_body lex lx = push TOKEN_ERROR (pos lx) (line lx) (column lx)
      (error_at (line lx) (column lx) E_unexpected_outside lx)) as Hbody.
    { intros lex. rewrite high_byte_unexpected by (done || lia). unfold unexpected. fold (rest_of lx).
      rewrite continuation_decode by done. rewrite (proj2 (Z.geb_le (at_ lx 0) 0x80)) by lia. done. }
    unfold lex_token. destruct (LEX_FORMAT_DEPTH_MAX - depth lx)%nat; apply Hbody. }
  split; [done|]. rewrite push_pos, error_at_pos. split; [done|]. split.
  - apply (error_at_at lx (line lx) (column lx) E_unexpected_outside 0).
  - eexists. split; [unfold push, push_value; cbn; rewrite error_at_out; reflexivity|].
    split; [done|]. cbn. rewrite error_at_pos. apply Nat.sub_diag.
Qed.

