(* ===== verification/AntlIo.v ===== *)
(** * AntlIo: the primitives of the library file

    Models src/antic/antl_io.c: the writer and the reader through which every
    table of a library file is written and read. The writer's struct text is the
    list of its bytes, and the memory that holds a name read is its list of
    bytes. A failed reader keeps its first message. *)

From S2P Require Import Prelude.

(** ** Writing *)

Record writer := Writer { w_out : list Z; w_failed : bool }.

Definition text_append_bytes (w : writer) (bs : list Z) : writer :=
  Writer (w_out w ++ bs) (w_failed w).

(** The loop over the bytes of an integer, the least significant first. *)
Definition little_endian (n : nat) (v : Z) : list Z :=
  map (fun i => u8 (Z.shiftr v (8 * Z.of_nat i))) (seq 0 n).

Definition antl_put_u8 (v : Z) (w : writer) : writer := text_append_bytes w [v].
Definition antl_put_u32 (v : Z) (w : writer) : writer := text_append_bytes w (little_endian 4 v).
Definition antl_put_u64 (v : Z) (w : writer) : writer := text_append_bytes w (little_endian 8 v).

Definition antl_put_count (n : Z) (w : writer) : writer :=
  if n >? UINT32_MAX then antl_put_u32 0 (Writer (w_out w) true) else antl_put_u32 (u32 n) w.

Definition antl_put_bytes (s : list Z) (w : writer) : writer :=
  text_append_bytes (antl_put_count (Z.of_nat (length s)) w) s.

(** ** Reading *)

(** [antl_fail] takes any format; [Damaged] is the one of [antl_damaged]. *)
Inductive error := Damaged (pos : nat) | Refused (why : list Z).

(** [size] is the length of [data]. *)
Record reader := Reader { data : list Z; pos : nat; failed : bool; message : option error }.

Definition size (r : reader) : nat := length (data r).

Definition antl_fail (e : error) (r : reader) : reader :=
  if failed r then r else Reader (data r) (pos r) true (Some e).

Definition antl_damaged (r : reader) : reader := antl_fail (Damaged (pos r)) r.

Definition set_pos (p : nat) (r : reader) : reader := Reader (data r) p (failed r) (message r).

Definition antl_take (n : nat) (r : reader) : bool * reader :=
  if failed r || (size r - pos r <? n)%nat then
    (false, if failed r then r else antl_damaged (set_pos (size r) r))
  else (true, r).

(** The loop over the bytes of an integer, from byte [i] with [v] read. *)
Fixpoint join_bytes (bs : list Z) (i : nat) (v : Z) : Z :=
  match bs with
  | [] => v
  | b :: rest => join_bytes rest (S i) (Z.lor v (Z.shiftl b (8 * Z.of_nat i)))
  end.

Definition get_uint (n : nat) (r : reader) : Z * reader :=
  let '(fits, r) := antl_take n r in
  if negb fits then (0, r)
  else (join_bytes (take n (drop (pos r) (data r))) 0 0, set_pos (pos r + n) r).

Definition antl_get_u8 (r : reader) : Z * reader := let '(v, r) := get_uint 1 r in (u8 v, r).
Definition antl_get_u32 (r : reader) : Z * reader := let '(v, r) := get_uint 4 r in (u32 v, r).
Definition antl_get_u64 (r : reader) : Z * reader := get_uint 8 r.

Definition antl_get_flag (r : reader) : bool * reader :=
  let '(flag, r) := antl_get_u8 r in
  (flag =? 1, if flag >? 1 then antl_damaged r else r).

Abbreviation INT32_MAX := 2147483647 (only parsing).
Abbreviation INT32_MIN := (-2147483648) (only parsing).
Abbreviation INT64_MIN := (-9223372036854775808) (only parsing).

Definition antl_get_i32 (r : reader) : Z * reader :=
  let '(u, r) := antl_get_u32 r in
  (if u <=? INT32_MAX then u else u32 (u32 (u - INT32_MAX) - 1) + INT32_MIN, r).

Definition antl_get_i64 (r : reader) : Z * reader :=
  let '(u, r) := antl_get_u64 r in
  (if u <=? INT64_MAX then u else u64 (u64 (u - INT64_MAX) - 1) + INT64_MIN, r).

Definition antl_get_int (r : reader) : Z * reader :=
  let '(u, r) := antl_get_u32 r in
  if u >? INT32_MAX then (0, antl_damaged r) else (u, r).

Definition antl_get_count (min : nat) (r : reader) : Z * reader :=
  let '(n, r) := antl_get_u32 r in
  if negb (failed r) && (n >? Z.of_nat ((size r - pos r) / min)) then (0, antl_damaged r) else (n, r).

Definition antl_get_name (r : reader) : list Z * reader :=
  let '(len, r) := antl_get_count 1 r in
  let r := if negb (failed r) && (len >? INT32_MAX) then antl_damaged r else r in
  if failed r then ([], r)
  else
    let '(fits, r) := antl_take (Z.to_nat len) r in
    if negb fits then ([], r)
    else (take (Z.to_nat len) (drop (pos r) (data r)), set_pos (pos r + Z.to_nat len) r).

Definition antl_get_cstr (r : reader) : list Z * reader :=
  let '(n, r) := antl_get_name r in
  (n, if (0 <? length n)%nat && bool_decide (0 ∈ n) then antl_damaged r else r).

(** ** The scalars of the section of the generics

    Models the scalars of src/antic/antl_tree.c, which write a place in one
    mode of [struct io] and read it in the other; [io_put] and [io_get] are the
    two modes. IO_COLLECT touches no scalar. *)

Inductive io_scalar : Set :=
| io_u8 | io_bool | io_u32 | io_int | io_i32 | io_u64 | io_i64 | io_size | io_char
| io_enum (max : Z) | io_bytes.

(** The C type of the place. An int, a char and an enum are their values. *)
Definition io_value (s : io_scalar) : Type :=
  match s with io_bool => bool | io_bytes => list Z | _ => Z end.

Definition mark_failed (b : bool) (w : writer) : writer :=
  if b then Writer (w_out w) true else w.

Definition io_put (s : io_scalar) : io_value s -> writer -> writer :=
  match s with
  | io_u8 => antl_put_u8
  | io_bool => fun v => antl_put_u8 (if v then 1 else 0)
  | io_u32 => antl_put_u32
  | io_int => fun v w => antl_put_u32 (u32 v) (mark_failed (v <? 0) w)
  | io_i32 => fun v => antl_put_u32 (u32 v)
  | io_u64 => antl_put_u64
  | io_i64 => fun v => antl_put_u64 (u64 v)
  | io_size => fun v w => antl_put_u32 (u32 v) (mark_failed (v >? UINT32_MAX) w)
  | io_char => fun v w => antl_put_u8 (u8 v) (mark_failed ((v <? 0) || (u8 v >? 127)) w)
  | io_enum _ => fun v => antl_put_u8 (u8 v)
  | io_bytes => antl_put_bytes
  end.

Definition bad_if (b : bool) (r : reader) : reader := if b then antl_damaged r else r.

Definition io_get (s : io_scalar) : reader -> io_value s * reader :=
  match s with
  | io_u8 => antl_get_u8
  | io_bool => fun r => let '(b, r) := antl_get_u8 r in (b =? 1, bad_if (b >? 1) r)
  | io_u32 => antl_get_u32
  | io_int => antl_get_int
  | io_i32 => antl_get_i32
  | io_u64 => antl_get_u64
  | io_i64 => antl_get_i64
  | io_size => antl_get_u32
  | io_char => fun r =>
      let '(b, r) := antl_get_u8 r in (if b >? 127 then 0 else b, bad_if (b >? 127) r)
  | io_enum max => fun r => let '(b, r) := antl_get_u8 r in (b, bad_if (b >? max) r)
  | io_bytes => antl_get_name
  end.

(** ** Little-endian integers *)

Lemma join_bytes_arith bs i v :
  in_width (8 * Z.of_nat i) v -> Forall is_byte bs ->
  join_bytes bs i v = v + 2 ^ (8 * Z.of_nat i) * join_bytes bs 0 0 /\
  in_width (8 * Z.of_nat (i + length bs)) (join_bytes bs i v).
Proof.
  revert i v. induction bs as [|b bs IH]; intros i v Hv Hb; cbn [join_bytes length].
  { rewrite Nat.add_0_r. split; [lia|done]. }
  apply Forall_cons_1 in Hb as [Hb Hbs]. unfold is_byte in Hb.
  assert (Z.lor v (Z.shiftl b (8 * Z.of_nat i)) = v + 2 ^ (8 * Z.of_nat i) * b) as ->.
  { rewrite Z.lor_comm, shiftl_mul, lor_disjoint by (lia || done). lia. }
  rewrite Z.mul_0_r, Z.shiftl_0_r, Z.lor_0_l.
  assert (2 ^ (8 * Z.of_nat (S i)) = 2 ^ (8 * Z.of_nat i) * 256) as Hp.
  { rewrite Nat2Z.inj_succ. replace (8 * Z.succ (Z.of_nat i)) with (8 * Z.of_nat i + 8) by lia.
    rewrite Z.pow_add_r by lia. done. }
  assert (in_width (8 * Z.of_nat (S i)) (v + 2 ^ (8 * Z.of_nat i) * b)) as Hv1.
  { unfold in_width in *. rewrite Hp. split; [nia|nia]. }
  destruct (IH (S i) _ Hv1 Hbs) as [E H]. rewrite E, Hp.
  destruct (IH 1%nat b) as [E1 _]; [split; pow2s; lia|done|].
  rewrite E1. change (8 * Z.of_nat 1) with 8. pow2s. split; [lia|].
  replace (i + S (length bs))%nat with (S i + length bs)%nat by lia.
  rewrite E, Hp in H. done.
Qed.

Lemma join_bytes_cons b bs :
  is_byte b -> Forall is_byte bs -> join_bytes (b :: bs) 0 0 = b + 256 * join_bytes bs 0 0.
Proof.
  intros Hb Hbs. cbn [join_bytes]. change (8 * Z.of_nat 0) with 0. rewrite Z.shiftl_0_r, Z.lor_0_l.
  destruct (join_bytes_arith bs 1 b) as [-> _]; [split; pow2s; unfold is_byte in Hb; lia|done|]. done.
Qed.

Lemma join_bytes_width bs :
  Forall is_byte bs -> in_width (8 * Z.of_nat (length bs)) (join_bytes bs 0 0).
Proof. intros. apply (join_bytes_arith bs 0 0); [split; [lia|done]|done]. Qed.

Lemma little_endian_S n v : little_endian (S n) v = u8 v :: little_endian n (Z.shiftr v 8).
Proof.
  unfold little_endian. cbn [seq map]. rewrite Z.shiftr_0_r. f_equal.
  rewrite <- seq_shift, map_map. apply map_ext. intros i. f_equal.
  rewrite Z.shiftr_shiftr by lia. f_equal. lia.
Qed.

Lemma little_endian_bytes n v : Forall is_byte (little_endian n v).
Proof.
  revert v. induction n as [|n IH]; intros v; [constructor|]. rewrite little_endian_S.
  constructor; [apply (wrap_bound 8); lia|apply IH].
Qed.

Lemma length_little_endian n v : length (little_endian n v) = n.
Proof. unfold little_endian. rewrite length_map, length_seq. done. Qed.

Lemma join_little_endian n v : join_bytes (little_endian n v) 0 0 = wrap (8 * Z.of_nat n) v.
Proof.
  revert v. induction n as [|n IH]; intros v; [cbn; unfold wrap; rewrite Z.mod_1_r; done|].
  rewrite little_endian_S, join_bytes_cons, IH;
    [|apply (wrap_bound 8); lia|apply little_endian_bytes].
  rewrite shiftr_div by lia. unfold wrap. rewrite Nat2Z.inj_succ.
  replace (8 * Z.succ (Z.of_nat n)) with (8 + 8 * Z.of_nat n) by lia.
  rewrite Z.pow_add_r by lia. rewrite Z.rem_mul_r by lia. pow2s. done.
Qed.

Lemma little_endian_join bs :
  Forall is_byte bs -> little_endian (length bs) (join_bytes bs 0 0) = bs.
Proof.
  induction 1 as [|b bs Hb Hbs IH]; [done|]. cbn [length].
  rewrite little_endian_S, join_bytes_cons by done. unfold is_byte in Hb.
  rewrite shiftr_div by lia. unfold wrap. pow2s.
  replace (b + 256 * join_bytes bs 0 0) with (join_bytes bs 0 0 * 256 + b) by lia.
  rewrite Z.add_comm, Z.mod_add, Z.mod_small by lia. f_equal.
  rewrite Z.div_add, Z.div_small by lia. rewrite Z.add_0_l. exact IH.
Qed.

(** ** The reader's invariant *)

Definition reader_ok (r : reader) : Prop :=
  (pos r <= size r)%nat /\ Forall is_byte (data r) /\ (failed r = true <-> message r <> None).

#[export] Instance reader_ok_dec r : Decision (reader_ok r).
Proof. unfold reader_ok. destruct (message r); [|]; solve_decision. Defined.

(** What every read keeps: the file, the place inside it, and the first
    failure with its message. *)
Record reads_on (r r' : reader) : Prop := {
  on_data : data r' = data r;
  on_pos : (pos r <= size r)%nat -> (pos r <= pos r' <= size r')%nat;
  on_message : (failed r = true <-> message r <> None) -> (failed r' = true <-> message r' <> None);
  on_failed : failed r = true -> r' = r;
}.

#[export] Instance reads_on_refl : Reflexive reads_on.
Proof. intros r. split; auto. Qed.

#[export] Instance reads_on_trans : Transitive reads_on.
Proof.
  intros a b c [D1 P1 M1 F1] [D2 P2 M2 F2]. split; [congruence| |auto|].
  - intros H. specialize (P1 H). specialize (P2 (proj2 P1)). lia.
  - intros H. specialize (F1 H) as ->. auto.
Qed.

Lemma reads_on_ok r r' : reads_on r r' -> reader_ok r -> reader_ok r'.
Proof.
  intros [D P M _] (H1 & H2 & H3). split; [apply P, H1|]. rewrite D. split; [done|apply M, H3].
Qed.

Lemma reads_on_fail e r : reads_on r (antl_fail e r).
Proof.
  unfold antl_fail. destruct (failed r) eqn:F; [reflexivity|].
  split; cbn; [done|unfold size; cbn; lia|done|congruence].
Qed.

Lemma reads_on_damaged r : reads_on r (antl_damaged r).
Proof. apply reads_on_fail. Qed.

Lemma failed_damaged r : failed (antl_damaged r) = true.
Proof. unfold antl_damaged, antl_fail. destruct (failed r) eqn:F; done. Qed.

Lemma reads_on_set_pos n r :
  failed r = false -> (pos r <= n <= size r)%nat -> reads_on r (set_pos n r).
Proof. intros F H. split; cbn; [done|unfold size in *; cbn; lia|done|congruence]. Qed.

Lemma antl_take_spec n r :
  let '(fits, r') := antl_take n r in
  reads_on r r' /\
  if fits then r' = r /\ failed r = false /\ ((pos r <= size r)%nat -> (pos r + n <= size r)%nat)
  else failed r' = true.
Proof.
  unfold antl_take. destruct (failed r) eqn:F; cbn [orb]; [split; [reflexivity|done]|].
  destruct (Nat.ltb_spec (size r - pos r) n).
  - split; [|apply failed_damaged]. split.
    + unfold antl_damaged, antl_fail. cbn. rewrite F. done.
    + intros Hp. unfold antl_damaged, antl_fail. cbn. rewrite F. unfold size. cbn. unfold size in Hp. lia.
    + intros _. unfold antl_damaged, antl_fail. cbn. rewrite F. done.
    + congruence.
  - split; [reflexivity|]. split; [done|]. split; [done|]. lia.
Qed.

(** What a failed read keeps and a read that did not fail read. *)
Lemma get_uint_safe n r :
  reader_ok r ->
  let '(v, r') := get_uint n r in
  reads_on r r' /\ in_width (8 * Z.of_nat n) v /\ (failed r' = true -> v = 0) /\
  (failed r' = false -> failed r = false /\ pos r' = (pos r + n)%nat /\
     take n (drop (pos r) (data r)) = little_endian n v).
Proof.
  intros (Hp & Hb & Hm). unfold get_uint. pose proof (antl_take_spec n r) as H.
  destruct (antl_take n r) as [[|] r1]; destruct H as [H1 H2]; cbn [negb].
  - destruct H2 as (-> & F & Hn). specialize (Hn Hp).
    set (bs := take n (drop (pos r) (data r))).
    assert (length bs = n) as Hl by (unfold bs; rewrite length_take, length_drop; unfold size in *; lia).
    assert (Forall is_byte bs) as Hbs by (apply Forall_take, Forall_drop, Hb).
    split; [apply reads_on_set_pos; [done|lia]|]. cbn [failed set_pos pos].
    split; [rewrite <- Hl; apply join_bytes_width, Hbs|]. split; [congruence|].
    intros _. split; [done|]. split; [done|]. rewrite <- Hl. symmetry. apply little_endian_join, Hbs.
  - split; [exact H1|]. split; [split; [done|apply Z.pow_pos_nonneg; lia]|]. split; [done|]. congruence.
Qed.

(** ** The two sides of a primitive

    [Codec put get valid] is what a primitive promises the files that write and
    read their tables through it: the writer accepts the valid values and
    appends their encoding; the reader gives back the value from its encoding,
    whatever follows; it accepts no other bytes, so a file read and written
    again is the same file; and it keeps its invariant. *)

(** The bytes that the reader has not read. *)
Definition unread (r : reader) : list Z := drop (pos r) (data r).

Class Codec {A : Type} (put : A -> writer -> writer) (get : reader -> A * reader) (valid : A -> Prop)
    : Type := {
  encoding : A -> list Z;
  codec_put v : valid v -> forall w, put v w = text_append_bytes w (encoding v);
  codec_get v r rest : valid v -> reader_ok r -> failed r = false -> unread r = encoding v ++ rest ->
    get r = (v, set_pos (pos r + length (encoding v)) r);
  codec_safe r : reader_ok r -> reads_on r (get r).2;
  codec_canonical r : reader_ok r -> failed (get r).2 = false ->
    valid (get r).1 /\ unread r = encoding (get r).1 ++ unread (get r).2;
}.

Lemma take_unread bs rest r n :
  failed r = false -> unread r = bs ++ rest -> n = length bs -> antl_take n r = (true, r).
Proof.
  intros F E ->. unfold antl_take. rewrite F. cbn [orb].
  apply (f_equal length) in E. unfold unread in E. rewrite length_drop, length_app in E.
  destruct (Nat.ltb_spec (size r - pos r) (length bs)); [unfold size in *; lia|done].
Qed.

Lemma get_uint_gets n v r rest :
  in_width (8 * Z.of_nat n) v -> failed r = false -> unread r = little_endian n v ++ rest ->
  get_uint n r = (v, set_pos (pos r + n) r).
Proof.
  intros Hv F E. unfold get_uint.
  rewrite (take_unread _ _ _ _ F E) by (rewrite length_little_endian; done). cbn [negb].
  f_equal. fold (unread r). rewrite E.
  rewrite <- (length_little_endian n v) at 1. rewrite take_app_length, join_little_endian.
  apply wrap_small, Hv.
Qed.

(** The bytes read and the bytes left. *)
Lemma unread_split r r' n bs :
  data r' = data r -> pos r' = (pos r + n)%nat -> take n (drop (pos r) (data r)) = bs ->
  unread r = bs ++ unread r'.
Proof.
  intros D P <-. unfold unread. rewrite D, P, <- drop_drop, take_drop. done.
Qed.

(** A codec from the integer of [n] bytes that [get] reads through [conv], where
    [accept] is the check of the reader and [code] the integer the writer
    writes. *)
Section IntegerCodec.
Context {A : Type} (n : nat) (put : A -> writer -> writer) (get : reader -> A * reader)
  (valid : A -> Prop) (code : A -> Z) (conv : Z -> A) (refuse : Z -> bool).
Context (Hput : forall v, valid v -> forall w, put v w = text_append_bytes w (little_endian n (code v)))
  (Hget : forall r, let '(u, r') := get_uint n r in get r = (conv u, bad_if (refuse u) r') \/
     (refuse u = true /\ exists v, get r = (v, bad_if (refuse u) r')))
  (Hcode : forall v, valid v -> in_width (8 * Z.of_nat n) (code v) /\ refuse (code v) = false /\ conv (code v) = v)
  (Hconv : forall u, in_width (8 * Z.of_nat n) u -> refuse u = false -> valid (conv u) /\ code (conv u) = u).

Lemma integer_get_cases r :
  reader_ok r ->
  let '(u, r') := get_uint n r in
  (get r).2 = bad_if (refuse u) r' /\ (refuse u = false -> (get r).1 = conv u).
Proof.
  intros _. pose proof (Hget r) as H. destruct (get_uint n r) as [u r'].
  destruct H as [-> | [E [v ->]]]; [done|]. split; [done|]. congruence.
Qed.

#[local] Program Instance integer_codec : Codec put get valid :=
  {| encoding v := little_endian n (code v) |}.
Next Obligation. intros v Hv w. apply Hput, Hv. Qed.
Next Obligation.
  intros v r rest Hv Hr F E. destruct (Hcode v Hv) as (H1 & H2 & H3).
  pose proof (Hget r) as H. rewrite (get_uint_gets n (code v) r rest H1 F E), H2, H3 in H.
  destruct H as [-> | [? _]]; [|done]. rewrite length_little_endian. done.
Qed.
Next Obligation.
  intros r Hr. pose proof (get_uint_safe n r Hr) as H. pose proof (integer_get_cases r Hr) as H'.
  destruct (get_uint n r) as [u r']. destruct H as [H _]. destruct H' as [-> _].
  etrans; [exact H|]. unfold bad_if. destruct (refuse u); [apply reads_on_damaged|reflexivity].
Qed.
Next Obligation.
  intros r Hr F. pose proof (get_uint_safe n r Hr) as H. pose proof (integer_get_cases r Hr) as H'.
  destruct (get_uint n r) as [u r']. destruct H as (H1 & H2 & _ & H3). destruct H' as [E1 E2].
  rewrite E1 in F |- *. unfold bad_if in *. destruct (refuse u) eqn:R; [rewrite failed_damaged in F; done|].
  rewrite (E2 eq_refl). destruct (H3 F) as (_ & P & T). destruct (Hconv u H2 R) as [V ->].
  split; [done|]. apply (unread_split r r' n); [apply H1|done..].
Qed.
End IntegerCodec.

(** ** The codecs of the scalars *)

Definition io_valid (s : io_scalar) : io_value s -> Prop :=
  match s with
  | io_u8 => in_width 8
  | io_bool => fun _ => True
  | io_u32 | io_size => in_width 32
  | io_int => fun v => 0 <= v <= INT32_MAX
  | io_i32 => fun v => INT32_MIN <= v <= INT32_MAX
  | io_u64 => in_width 64
  | io_i64 => fun v => INT64_MIN <= v <= INT64_MAX
  | io_char => fun v => 0 <= v <= 127
  | io_enum max => fun v => 0 <= v <= max
  | io_bytes => fun v => Forall is_byte v /\ Z.of_nat (length v) <= INT32_MAX
  end.

Lemma little_endian_1 v : little_endian 1 v = [u8 v].
Proof. unfold little_endian. cbn [seq map]. rewrite Z.shiftr_0_r. done. Qed.

Lemma u8_small v : in_width 8 v -> u8 v = v.
Proof. apply wrap_small. Qed.

(** Splits the disjunction of [Hget] on the check of the reader. *)
Ltac get_cases :=
  let r := fresh "r" in intros r; cbn [io_get];
  unfold antl_get_int, antl_get_i32, antl_get_i64, antl_get_u8, antl_get_u32, antl_get_u64;
  destruct (get_uint _ r) as [? ?]; cbn [bad_if].

Ltac width_lia := unfold in_width in *; change (8 * Z.of_nat 1) with 8 in *;
  change (8 * Z.of_nat 4) with 32 in *; change (8 * Z.of_nat 8) with 64 in *; pow2s; lia.

#[export] Instance io_u8_codec : Codec (io_put io_u8) (io_get io_u8) (io_valid io_u8).
Proof.
  apply (integer_codec 1 _ _ _ (fun v => v) u8 (fun _ => false)).
  - intros v Hv w. cbn [io_put]. rewrite little_endian_1, u8_small by done. done.
  - get_cases. left. done.
  - intros v Hv. cbn in Hv. split; [done|]. split; [done|]. apply u8_small, Hv.
  - intros u Hu _. rewrite u8_small by done. done.
Defined.

#[export] Instance io_bool_codec : Codec (io_put io_bool) (io_get io_bool) (io_valid io_bool).
Proof.
  apply (integer_codec 1 (io_put io_bool) (io_get io_bool) (io_valid io_bool)
    (fun v : bool => if v then 1 else 0) (fun u => u8 u =? 1) (fun u => u8 u >? 1)).
  - intros [|] _ w; done.
  - get_cases. left. done.
  - intros [|] _; (split; [width_lia|done]).
  - intros u Hu. rewrite u8_small by done. rewrite Z.gtb_ltb. intros ?%Z.ltb_ge. split; [done|].
    destruct (Z.eqb_spec u 1); width_lia.
Defined.

#[export] Instance io_u32_codec : Codec (io_put io_u32) (io_get io_u32) (io_valid io_u32).
Proof.
  apply (integer_codec 4 _ _ _ (fun v => v) u32 (fun _ => false)).
  - done.
  - get_cases. left. done.
  - intros v Hv. cbn in Hv. split; [done|]. split; [done|]. apply wrap_small, Hv.
  - intros u Hu _. rewrite wrap_small by done. done.
Defined.

#[export] Instance io_size_codec : Codec (io_put io_size) (io_get io_size) (io_valid io_size).
Proof.
  apply (integer_codec 4 (io_put io_size) (io_get io_size) (io_valid io_size) (fun v => v) u32 (fun _ => false)).
  - intros v Hv w. cbn in Hv. cbn [io_put]. rewrite Z.gtb_ltb, (proj2 (Z.ltb_ge _ _)) by width_lia.
    rewrite wrap_small by done. done.
  - get_cases. left. done.
  - intros v Hv. cbn in Hv. split; [done|]. split; [done|]. apply wrap_small, Hv.
  - intros u Hu _. rewrite wrap_small by done. done.
Defined.

#[export] Instance io_int_codec : Codec (io_put io_int) (io_get io_int) (io_valid io_int).
Proof.
  apply (integer_codec 4 (io_put io_int) (io_get io_int) (io_valid io_int)
    (fun v => v) u32 (fun u => u32 u >? INT32_MAX)).
  - intros v Hv w. cbn in Hv. cbn [io_put]. rewrite (proj2 (Z.ltb_ge _ _)) by lia.
    rewrite wrap_small by width_lia. done.
  - get_cases. destruct (_ >? _); [right; eauto|left; done].
  - intros v Hv. cbn in Hv. rewrite wrap_small by width_lia. rewrite Z.gtb_ltb, (proj2 (Z.ltb_ge _ _)) by lia.
    split; [width_lia|done].
  - intros u Hu. rewrite wrap_small by done. rewrite Z.gtb_ltb. intros ?%Z.ltb_ge. cbn. width_lia.
Defined.

(** Two's complement, back from the bits by arithmetic. *)
Lemma signed_back w m u :
  2 <= w -> m = 2 ^ (w - 1) - 1 -> in_width w u -> m < u -> wrap w (wrap w (u - m) - 1) = u - m - 1.
Proof.
  intros Hw -> Hu Hm. unfold in_width in Hu.
  assert (2 ^ w = 2 * 2 ^ (w - 1)) by (rewrite <- Z.pow_succ_r by lia; f_equal; lia).
  rewrite wrap_sub_l. apply wrap_small. split; lia.
Qed.

Lemma wrap_negative w v : 0 < w -> - 2 ^ w <= v < 0 -> wrap w v = v + 2 ^ w.
Proof. intros Hw Hv. rewrite (wrap_congr w v (v + 2 ^ w) (-1)) by lia. apply wrap_small. split; lia. Qed.

#[export] Instance io_i32_codec : Codec (io_put io_i32) (io_get io_i32) (io_valid io_i32).
Proof.
  apply (integer_codec 4 (io_put io_i32) (io_get io_i32) (io_valid io_i32) u32
    (fun u => if u32 u <=? INT32_MAX then u32 u else u32 (u32 (u32 u - INT32_MAX) - 1) + INT32_MIN)
    (fun _ => false)).
  - done.
  - get_cases. left. done.
  - intros v Hv. cbn in Hv. split; [apply (wrap_bound 32); lia|]. split; [done|].
    rewrite wrap_wrap_le by lia.
    destruct (Z.lt_ge_cases v 0).
    + rewrite wrap_negative by (pow2s; lia). pow2s. rewrite (proj2 (Z.leb_gt _ _)) by lia.
      rewrite (signed_back 32) by (reflexivity || width_lia). lia.
    + rewrite wrap_small by width_lia. rewrite (proj2 (Z.leb_le _ _)) by lia. done.
  - intros u Hu _. rewrite (wrap_small 32 u) by done. cbn [io_valid].
    destruct (Z.leb_spec u INT32_MAX).
    + rewrite wrap_small by done. width_lia.
    + rewrite (signed_back 32) by (reflexivity || width_lia). split; [width_lia|].
      rewrite wrap_negative by width_lia. pow2s. lia.
Defined.

#[export] Instance io_u64_codec : Codec (io_put io_u64) (io_get io_u64) (io_valid io_u64).
Proof.
  apply (integer_codec 8 _ _ _ (fun v => v) (fun u => u) (fun _ => false)).
  - done.
  - get_cases. left. done.
  - intros v Hv. done.
  - intros u Hu _. done.
Defined.

#[export] Instance io_i64_codec : Codec (io_put io_i64) (io_get io_i64) (io_valid io_i64).
Proof.
  apply (integer_codec 8 (io_put io_i64) (io_get io_i64) (io_valid io_i64) u64
    (fun u => if u <=? INT64_MAX then u else u64 (u64 (u - INT64_MAX) - 1) + INT64_MIN)
    (fun _ => false)).
  - done.
  - get_cases. left. done.
  - intros v Hv. cbn in Hv. split; [apply (wrap_bound 64); lia|]. split; [done|].
    destruct (Z.lt_ge_cases v 0).
    + rewrite wrap_negative by (pow2s; lia). pow2s. rewrite (proj2 (Z.leb_gt _ _)) by lia.
      rewrite (signed_back 64) by (reflexivity || width_lia). lia.
    + rewrite wrap_small by width_lia. rewrite (proj2 (Z.leb_le _ _)) by lia. done.
  - intros u Hu _. cbn [io_valid]. destruct (Z.leb_spec u INT64_MAX).
    + rewrite wrap_small by done. width_lia.
    + rewrite (signed_back 64) by (reflexivity || width_lia). split; [width_lia|].
      rewrite wrap_negative by width_lia. pow2s. lia.
Defined.

#[export] Instance io_char_codec : Codec (io_put io_char) (io_get io_char) (io_valid io_char).
Proof.
  apply (integer_codec 1 (io_put io_char) (io_get io_char) (io_valid io_char)
    (fun v => v) (fun u => if u8 u >? 127 then 0 else u8 u) (fun u => u8 u >? 127)).
  - intros v Hv w. cbn in Hv. cbn [io_put]. rewrite little_endian_1, !u8_small by width_lia.
    rewrite Z.gtb_ltb, (proj2 (Z.ltb_ge v 0)), (proj2 (Z.ltb_ge 127 v)) by lia. done.
  - get_cases. left. done.
  - intros v Hv. cbn in Hv. rewrite u8_small by width_lia. rewrite Z.gtb_ltb, (proj2 (Z.ltb_ge _ _)) by lia.
    split; [width_lia|done].
  - intros u Hu. rewrite u8_small by done. rewrite Z.gtb_ltb. intros H. rewrite H.
    apply Z.ltb_ge in H. cbn. width_lia.
Defined.

#[export] Instance io_enum_codec max :
  max <= 255 -> Codec (io_put (io_enum max)) (io_get (io_enum max)) (io_valid (io_enum max)).
Proof.
  intros Hmax. apply (integer_codec 1 (io_put (io_enum max)) (io_get (io_enum max)) (io_valid (io_enum max))
    (fun v => v) u8 (fun u => u8 u >? max)).
  - intros v Hv w. cbn in Hv. cbn [io_put]. rewrite little_endian_1. done.
  - get_cases. left. done.
  - intros v Hv. cbn in Hv. rewrite u8_small by width_lia. rewrite Z.gtb_ltb, (proj2 (Z.ltb_ge _ _)) by lia.
    split; [width_lia|done].
  - intros u Hu. rewrite u8_small by done. rewrite Z.gtb_ltb. intros ?%Z.ltb_ge. cbn. width_lia.
Defined.

(** ** Counts, names and C strings *)

Lemma get_u32_spec r :
  reader_ok r ->
  let '(v, r') := antl_get_u32 r in
  reads_on r r' /\ in_width 32 v /\
  (failed r' = false -> failed r = false /\ pos r' = (pos r + 4)%nat /\
     unread r = little_endian 4 v ++ unread r').
Proof.
  intros Hr. unfold antl_get_u32. pose proof (get_uint_safe 4 r Hr) as H.
  destruct (get_uint 4 r) as [v r']. destruct H as (H1 & H2 & _ & H3).
  rewrite wrap_small by done. split; [done|]. split; [done|].
  intros F. destruct (H3 F) as (F' & P & T). split; [done|]. split; [done|].
  apply (unread_split r r' 4); [apply H1|done..].
Qed.

Lemma antl_get_count_spec min r :
  reader_ok r ->
  let '(n, r') := antl_get_count min r in
  reads_on r r' /\ in_width 32 n /\
  (failed r' = false -> failed r = false /\ pos r' = (pos r + 4)%nat /\
     unread r = little_endian 4 n ++ unread r' /\ n <= Z.of_nat (length (unread r') / min)).
Proof.
  intros Hr. unfold antl_get_count. pose proof (get_u32_spec r Hr) as H.
  destruct (antl_get_u32 r) as [n r']. destruct H as (H1 & H2 & H3).
  destruct (failed r') eqn:F; cbn [negb andb].
  { split; [done|]. split; [done|]. congruence. }
  rewrite Z.gtb_ltb. destruct (Z.ltb_spec (Z.of_nat ((size r' - pos r') / min)) n).
  - split; [etrans; [exact H1|apply reads_on_damaged]|]. split; [width_lia|].
    rewrite failed_damaged. done.
  - split; [done|]. split; [done|]. intros _. destruct (H3 eq_refl) as (F' & P & U).
    repeat (split; [done|]). unfold unread at 1. rewrite length_drop. done.
Qed.

Lemma antl_get_name_spec r :
  reader_ok r ->
  reads_on r (antl_get_name r).2 /\
  (failed (antl_get_name r).2 = false ->
   io_valid io_bytes (antl_get_name r).1 /\
   unread r = little_endian 4 (Z.of_nat (length (antl_get_name r).1)) ++ (antl_get_name r).1
              ++ unread (antl_get_name r).2).
Proof.
  intros Hr. unfold antl_get_name. pose proof (antl_get_count_spec 1 r Hr) as H.
  destruct (antl_get_count 1 r) as [n r1]. destruct H as (H1 & H2 & H3). cbv zeta.
  set (r2 := if negb (failed r1) && _ then _ else _).
  assert (reads_on r1 r2) as H4
    by (unfold r2; destruct (_ && _); [apply reads_on_damaged|reflexivity]).
  assert (reads_on r r2) as H5 by (etrans; done).
  destruct (failed r2) eqn:F2; [cbn [fst snd]; split; [done|congruence]|].
  assert (r2 = r1 /\ failed r1 = false /\ n <= INT32_MAX) as (E & F1 & Hn).
  { unfold r2 in *. destruct (failed r1) eqn:F1; [cbn [negb andb] in F2; congruence|]. cbn [negb andb] in *.
    rewrite Z.gtb_ltb in *. destruct (Z.ltb_spec INT32_MAX n); [rewrite failed_damaged in F2; done|]. auto. }
  rewrite E in *. clear r2 E H4. destruct (H3 F1) as (F & P & U & Hc). rewrite Nat.div_1_r in Hc.
  pose proof (reads_on_ok _ _ H1 Hr) as (Hp & Hb & _).
  assert (length (unread r1) = size r1 - pos r1)%nat as Hl by (unfold unread; apply length_drop).
  assert (antl_take (Z.to_nat n) r1 = (true, r1)) as ->.
  { unfold antl_take. rewrite F1. cbn [orb]. destruct (Nat.ltb_spec (size r1 - pos r1) (Z.to_nat n)); [lia|done]. }
  cbn [negb fst snd]. set (v := take _ _).
  assert (length v = Z.to_nat n) as Hv
    by (unfold v; rewrite length_take; fold (unread r1); rewrite Hl; width_lia).
  split; [etrans; [exact H1|]; apply reads_on_set_pos; [done|lia]|]. intros _. split.
  - split; [apply Forall_take, Forall_drop, Hb|width_lia].
  - rewrite Hv, Z2Nat.id by width_lia. rewrite U. f_equal.
    apply (unread_split r1 _ (Z.to_nat n)); done.
Qed.

Lemma put_bytes_ok v :
  io_valid io_bytes v -> forall w, antl_put_bytes v w
    = text_append_bytes w (little_endian 4 (Z.of_nat (length v)) ++ v).
Proof.
  intros [Hb Hl] w. unfold antl_put_bytes, antl_put_count.
  rewrite Z.gtb_ltb, (proj2 (Z.ltb_ge _ _)) by lia. rewrite wrap_small by width_lia.
  unfold antl_put_u32, text_append_bytes. cbn [w_out w_failed]. rewrite app_assoc. done.
Qed.

Lemma get_name_put v r rest :
  io_valid io_bytes v -> reader_ok r -> failed r = false ->
  unread r = (little_endian 4 (Z.of_nat (length v)) ++ v) ++ rest ->
  antl_get_name r = (v, set_pos (pos r + (4 + length v)) r).
Proof.
  intros [Hb Hl] Hr F U. rewrite <- app_assoc in U. unfold antl_get_name, antl_get_count, antl_get_u32.
  rewrite (get_uint_gets 4 (Z.of_nat (length v)) r (v ++ rest)) by (done || width_lia).
  rewrite wrap_small by width_lia. cbv zeta. cbn [failed set_pos]. rewrite F. cbn [negb andb].
  assert (unread (set_pos (pos r + 4) r) = v ++ rest) as U1.
  { unfold unread in *. cbn [set_pos pos data]. rewrite <- drop_drop, U. apply drop_app_length'. done. }
  assert (size r - (pos r + 4) = length v + length rest)%nat as Hs.
  { apply (f_equal length) in U1. unfold unread in U1. cbn [set_pos pos data] in U1.
    rewrite length_drop, length_app in U1. unfold size. lia. }
  unfold size at 1. cbn [set_pos data pos]. fold (size r). rewrite Nat.div_1_r, Hs.
  rewrite Z.gtb_ltb, (proj2 (Z.ltb_ge _ _)) by lia.
  rewrite Z.gtb_ltb, (proj2 (Z.ltb_ge _ _)) by lia. cbn [failed set_pos]. rewrite F, Nat2Z.id. cbn [negb andb failed set_pos]. rewrite ?F. cbv iota.
  rewrite (take_unread v rest) by done. cbn [negb]. f_equal.
  - transitivity (take (length v) (unread (set_pos (pos r + 4) r))); [done|]. rewrite U1. apply take_app_length.
  - unfold set_pos. cbn. f_equal. lia.
Qed.

#[export] Instance io_bytes_codec : Codec (io_put io_bytes) (io_get io_bytes) (io_valid io_bytes).
Proof.
  refine (Build_Codec _ _ _ _ (fun v => little_endian 4 (Z.of_nat (length v)) ++ v) _ _ _ _).
  - intros v Hv w. apply put_bytes_ok, Hv.
  - intros v r rest Hv Hr F U. rewrite length_app, length_little_endian. apply (get_name_put v r rest); done.
  - intros r Hr. apply antl_get_name_spec, Hr.
  - intros r Hr F. destruct (antl_get_name_spec r Hr) as [_ H]. destruct (H F) as [H1 H2].
    split; [done|]. rewrite <- app_assoc. exact H2.
Defined.

(** The scalars of the format; an enumeration takes one byte. *)
Definition io_scalar_ok (s : io_scalar) : Prop :=
  match s with io_enum max => max <= 255 | _ => True end.

#[export] Instance io_scalar_ok_dec s : Decision (io_scalar_ok s).
Proof. destruct s; cbn; apply _. Defined.

Definition io_codec (s : io_scalar) : io_scalar_ok s -> Codec (io_put s) (io_get s) (io_valid s) :=
  match s with
  | io_enum max => io_enum_codec max
  | io_u8 => fun _ => io_u8_codec | io_bool => fun _ => io_bool_codec | io_u32 => fun _ => io_u32_codec
  | io_int => fun _ => io_int_codec | io_i32 => fun _ => io_i32_codec | io_u64 => fun _ => io_u64_codec
  | io_i64 => fun _ => io_i64_codec | io_size => fun _ => io_size_codec | io_char => fun _ => io_char_codec
  | io_bytes => fun _ => io_bytes_codec
  end.

(** ** Sequences of scalars

    The functions of the library file write and read their records one scalar
    after the other, without a check in between. *)
Definition field : Type := {s : io_scalar & io_value s}.

Definition put_field (f : field) : writer -> writer := io_put (projT1 f) (projT2 f).

Fixpoint put_fields (fs : list field) (w : writer) : writer :=
  match fs with [] => w | f :: fs => put_fields fs (put_field f w) end.

Fixpoint get_fields (ss : list io_scalar) (r : reader) : list field * reader :=
  match ss with
  | [] => ([], r)
  | s :: ss =>
      let '(v, r) := io_get s r in
      let '(fs, r) := get_fields ss r in
      (existT s v :: fs, r)
  end.

Definition field_ok (f : field) : Prop := io_scalar_ok (projT1 f) /\ io_valid (projT1 f) (projT2 f).

Lemma get_fields_safe ss r : Forall io_scalar_ok ss -> reader_ok r -> reads_on r (get_fields ss r).2.
Proof.
  revert r. induction ss as [|s ss IH]; intros r Hs Hr; [reflexivity|].
  apply Forall_cons_1 in Hs as [Hs Hss]. cbn [get_fields].
  pose proof (codec_safe (Codec := io_codec s Hs) r Hr) as H. destruct (io_get s r) as [v r1]. cbn [snd] in H.
  specialize (IH r1 Hss (reads_on_ok _ _ H Hr)). destruct (get_fields ss r1) as [fs r2]. cbn [snd] in *.
  etrans; done.
Qed.

Lemma put_fields_out fs w : Forall field_ok fs -> exists bs, w_out (put_fields fs w) = w_out w ++ bs.
Proof.
  intros Hf. revert w. induction Hf as [|[s v] fs [Hs Hv] _ IH]; intros w.
  { exists []. rewrite app_nil_r. done. }
  cbn [projT1 projT2] in Hs, Hv. cbn [put_fields]. unfold put_field. cbn [projT1 projT2].
  rewrite (codec_put (Codec := io_codec s Hs) v Hv).
  destruct (IH (text_append_bytes w (encoding (Codec := io_codec s Hs) v))) as [bs ->].
  eexists. cbn [text_append_bytes w_out]. rewrite <- app_assoc. reflexivity.
Qed.

(** C15. What the writer writes the reader reads back: any sequence of valid
    scalars and byte strings written by the primitives of the library file
    leaves the writer not failed, and a reader that stands on the bytes it
    appended, whatever follows them, reads the same values in the same order,
    does not fail and stops right after them. *)
Theorem library_fields_round_trip fs w r rest :
  Forall field_ok fs -> reader_ok r -> failed r = false ->
  unread r = drop (length (w_out w)) (w_out (put_fields fs w)) ++ rest ->
  w_failed (put_fields fs w) = w_failed w /\
  get_fields (map (fun f => projT1 f) fs) r
  = (fs, set_pos (pos r + (length (w_out (put_fields fs w)) - length (w_out w))) r).
Proof.
  intros Hf. revert w r. induction fs as [|f fs IH]; intros w r Hr F U.
  { cbn [put_fields map get_fields]. split; [done|]. rewrite Nat.sub_diag, Nat.add_0_r. destruct r; done. }
  apply Forall_cons_1 in Hf as [[Hs Hv] Hfs]. destruct f as [s v]. cbn [projT1 projT2] in Hs, Hv.
  cbn [put_fields map get_fields] in *. unfold put_field in *. cbn [projT1 projT2] in *.
  pose (C := io_codec s Hs). rewrite (codec_put (Codec := C) v Hv) in *.
  set (bs := encoding (Codec := C) v) in *. set (w1 := text_append_bytes w bs) in *.
  destruct (put_fields_out fs w1 Hfs) as [tail Et].
  assert (drop (length (w_out w)) (w_out (put_fields fs w1)) = bs ++ tail) as Ed.
  { rewrite Et. cbn [w1 text_append_bytes w_out]. rewrite <- app_assoc. apply drop_app_length. }
  rewrite Ed, <- app_assoc in U.
  rewrite (codec_get (Codec := C) v r _ Hv Hr F U). fold bs.
  set (r1 := set_pos (pos r + length bs) r).
  assert (unread r1 = tail ++ rest) as U1.
  { unfold unread in *. cbn [r1 set_pos pos data]. rewrite <- drop_drop, U. apply drop_app_length. }
  assert (reader_ok r1) as Hr1.
  { destruct Hr as (H1 & H2 & H3). split; [|done]. cbn [r1 set_pos pos]. unfold size in *. cbn [r1 set_pos data].
    apply (f_equal length) in U. unfold unread in U. rewrite length_drop, !length_app in U. lia. }
  destruct (IH Hfs w1 r1 Hr1 F) as [I1 I2].
  { rewrite Et, drop_app_length. exact U1. }
  split; [rewrite I1; done|]. rewrite I2. f_equal. unfold set_pos, r1. cbn. f_equal.
  rewrite Et. cbn [w1 text_append_bytes w_out]. rewrite !length_app. lia.
Qed.

Definition field_of (s : io_scalar) (v : io_value s) : field := existT s v.

Lemma library_fields_round_trip_witness :
  let fs := [field_of io_bool true; field_of io_i32 (-2); field_of io_bytes (bytes "int")] in
  get_fields [io_bool; io_i32; io_bytes] (Reader [1; 254; 255; 255; 255; 3; 0; 0; 0; 105; 110; 116; 9] 0 false None)
  = (fs, Reader [1; 254; 255; 255; 255; 3; 0; 0; 0; 105; 110; 116; 9] 12 false None).
Proof.
  apply (library_fields_round_trip
    [field_of io_bool true; field_of io_i32 (-2); field_of io_bytes (bytes "int")]
    (Writer [] false) (Reader [1; 254; 255; 255; 255; 3; 0; 0; 0; 105; 110; 116; 9] 0 false None) [9]);
    [|vm_decide|reflexivity|reflexivity].
  constructor; [split; exact I|]. constructor; [split; [exact I|vm_decide]|].
  constructor; [|constructor]. split; [exact I|]. split; [vm_decide|vm_compute; discriminate].
Defined.

(** C27. Whatever bytes the file holds, reading a sequence of scalars keeps the
    reader inside the file, keeps its first message, and does not move or change
    a reader that failed before; and where it did not fail, every value is in
    the range of its C type and writing the values again gives exactly the bytes
    read, so no two files hold the same values. *)
Theorem library_read_safe_and_canonical ss r w :
  Forall io_scalar_ok ss -> reader_ok r ->
  let '(fs, r') := get_fields ss r in
  reader_ok r' /\ (pos r <= pos r' <= size r)%nat /\ data r' = data r /\
  (failed r = true -> r' = r) /\
  (failed r' = false -> Forall field_ok fs /\ w_failed (put_fields fs w) = w_failed w /\
     w_out (put_fields fs w) = w_out w ++ take (pos r' - pos r) (unread r)).
Proof.
  intros Hs Hr. pose proof (get_fields_safe ss r Hs Hr) as H.
  assert (forall r' fs, get_fields ss r = (fs, r') -> failed r' = false -> Forall field_ok fs /\
    forall w, w_failed (put_fields fs w) = w_failed w /\
      exists bs, w_out (put_fields fs w) = w_out w ++ bs /\ unread r = bs ++ unread r') as HC.
  { clear H w. revert r Hr. induction ss as [|s ss IH]; intros r Hr r' fs.
    { intros [= <- <-] F. split; [constructor|]. intros w. split; [done|]. exists [].
      rewrite app_nil_r. done. }
    apply Forall_cons_1 in Hs as [Hs0 Hs]. cbn [get_fields]. pose (C := io_codec s Hs0).
    pose proof (codec_safe (Codec := C) r Hr) as H1. pose proof (codec_canonical (Codec := C) r Hr) as H2.
    destruct (io_get s r) as [v r1]. cbn [fst snd] in *.
    pose proof (reads_on_ok _ _ H1 Hr) as Hr1. pose proof (get_fields_safe ss r1 Hs Hr1) as H3.
    specialize (IH Hs r1 Hr1). destruct (get_fields ss r1) as [fs1 r2]. cbn [snd] in H3.
    intros [= <- <-] F. destruct (IH _ _ eq_refl F) as [H4 H5].
    assert (failed r1 = false) as F1.
    { destruct (failed r1) eqn:E; [|done]. rewrite (on_failed _ _ H3 E) in F. congruence. }
    destruct (H2 F1) as [V U]. split; [constructor; [split; done|done]|]. intros w.
    cbn [put_fields]. unfold put_field. cbn [projT1 projT2]. rewrite (codec_put (Codec := C) v V).
    destruct (H5 (text_append_bytes w (encoding (Codec := C) v))) as (W & bs & E & U2).
    split; [rewrite W; done|]. exists (encoding (Codec := C) v ++ bs).
    rewrite E. cbn [text_append_bytes w_out]. rewrite U, U2, <- !app_assoc. done. }
  destruct (get_fields ss r) as [fs r'] eqn:E. cbn [snd] in H.
  split; [eapply reads_on_ok; done|].
  split; [pose proof (on_pos _ _ H (proj1 Hr)); unfold size in *; rewrite (on_data _ _ H) in *; done|].
  split; [apply H|]. split; [apply H|]. intros F. destruct (HC r' fs eq_refl F) as [H1 H2].
  split; [done|]. destruct (H2 w) as (W & bs & Eo & U). split; [done|]. rewrite Eo. f_equal.
  pose proof (on_pos _ _ H (proj1 Hr)) as Hp. rewrite U.
  replace (pos r' - pos r)%nat with (length bs); [rewrite take_app_length; done|].
  apply (f_equal length) in U. unfold unread in U. rewrite length_app, !length_drop in U.
  rewrite (on_data _ _ H) in U. unfold size in *. rewrite (on_data _ _ H) in Hp. lia.
Qed.

Lemma library_read_safe_and_canonical_witness :
  let r := Reader [2; 7; 0; 0; 0; 65] 0 false None in
  get_fields [io_bool; io_bytes] r
  = ([field_of io_bool false; field_of io_bytes []], Reader [2; 7; 0; 0; 0; 65] 1 true (Some (Damaged 1))) /\
  let '(fs, r') := get_fields [io_bool; io_bytes] r in
  reader_ok r' /\ (pos r <= pos r' <= size r)%nat /\ data r' = data r /\
  (failed r = true -> r' = r) /\
  (failed r' = false -> Forall field_ok fs /\ w_failed (put_fields fs (Writer [] false)) = false /\
     w_out (put_fields fs (Writer [] false)) = [] ++ take (pos r' - pos r) (unread r)).
Proof.
  split; [vm_compute; reflexivity|].
  apply (library_read_safe_and_canonical [io_bool; io_bytes] (Reader [2; 7; 0; 0; 0; 65] 0 false None)
    (Writer [] false)); vm_decide.
Defined.
