(* ===== verification/Layout.v ===== *)
(** * Layout: the layout of aggregates and the folding of symbolic values

    Models src/antic/layout.c. The struct layouts is the record [layouts], which
    every step passes on: [M] is the state with [None] for fuel that ran out.
    [compute] and [layout_fold] call each other, so [run] ties both with one
    fuel. The module and the target are fixed for a run. *)

From S2P Require Import Prelude Arith Target Ir IrFold.

(** ** Sizes *)

Definition LAYOUT_MEMBER_LIMIT : nat := 32.

(** The arithmetic of a size with its flag [overflow], which it only sets. *)
Definition add_size (a b : Z) (overflow : bool) : Z * bool :=
  if b >? UINT64_MAX - a then (UINT64_MAX, true) else (a + b, overflow).

Definition mul_size (a b : Z) (overflow : bool) : Z * bool :=
  if negb (a =? 0) && (b >? UINT64_MAX / a) then (UINT64_MAX, true) else (a * b, overflow).

Definition whole_bytes (bit : Z) : Z := bit / 8 + (if bit mod 8 =? 0 then 0 else 1).

Definition round_up (n align : Z) (overflow : bool) : Z * bool :=
  let '(last, overflow) := add_size n (align - 1) overflow in (last / align * align, overflow).

(** ** The state *)

Record layout_member := Member { lm_offset : Z; lm_type : ir_type }.

Record layout_bits := Bits { lb_pos : Z; lb_unit_offset : Z; lb_unit_type : ir_type; lb_shift : Z }.

Record layout := Layout {
  l_size : Z;
  l_align : Z;
  l_offsets : list Z;
  l_bits : list layout_bits;
  l_members : list layout_member;
  l_unaligned : bool;
  l_shared : bool;
  l_vector : bool
}.

(** Zeroed memory. *)
Definition zero_bits : layout_bits := Bits 0 0 IR_VOID 0.
Definition zero_layout : layout := Layout 0 0 [] [] [] false false false.

Inductive progress := UNSEEN | BUSY | DONE.

#[export] Instance progress_eq_dec : EqDecision progress.
Proof. solve_decision. Defined.

(** The messages of the calls of [fail], with the aggregate or the field. *)
Inductive layout_error :=
| E_wide_bitfield (agg : nat) (field : nat)
| E_bitfield_unit (agg : nat) (field : nat) (bytes size : Z)
| E_depends_on_itself (agg : nat)
| E_array_length (agg : nat) (length : Z)
| E_low_align (agg : nat) (align natural : Z)
| E_size_overflow (agg : nat)
| E_fold_by_zero
| E_fold_least_by_minus_one
| E_fold_shift (bits : Z)
| E_fold_operation (op : ir_op).

Record layouts := Layouts {
  ls_aggs : list layout;
  ls_agg_state : list progress;
  ls_values : list Z;
  ls_sym_state : list progress;
  ls_error : option layout_error;
  ls_failed : bool
}.

(** ** The monad of the state *)

Definition M (A : Type) : Type := layouts -> option (A * layouts).

#[export] Instance M_ret : MRet M := fun A a l => Some (a, l).
#[export] Instance M_bind : MBind M := fun A B f x l =>
  match x l with Some (a, l') => f a l' | None => None end.

Definition gets {A} (f : layouts -> A) : M A := fun l => Some (f l, l).
Definition modify (f : layouts -> layouts) : M unit := fun l => Some (tt, f l).
Definition no_fuel {A} : M A := fun _ => None.

Definition fail (e : layout_error) : M unit :=
  modify (fun l =>
    if ls_failed l then l
    else Layouts (ls_aggs l) (ls_agg_state l) (ls_values l) (ls_sym_state l) (Some e) true).

Definition agg_state (agg : nat) : M progress := gets (fun l => default UNSEEN (ls_agg_state l !! agg)).
Definition set_agg_state (agg : nat) (s : progress) : M unit :=
  modify (fun l => Layouts (ls_aggs l) (<[agg := s]> (ls_agg_state l)) (ls_values l) (ls_sym_state l)
    (ls_error l) (ls_failed l)).
Definition the_layout (agg : nat) : M layout := gets (fun l => default zero_layout (ls_aggs l !! agg)).
(** Writes through [out], the pointer to the layout of [agg]. *)
Definition update_layout (agg : nat) (f : layout -> layout) : M unit :=
  modify (fun l => Layouts (alter f agg (ls_aggs l)) (ls_agg_state l) (ls_values l) (ls_sym_state l)
    (ls_error l) (ls_failed l)).
Definition set_value (sym : nat) (v : Z) : M unit :=
  modify (fun l => Layouts (ls_aggs l) (ls_agg_state l) (<[sym := v]> (ls_values l))
    (<[sym := DONE]> (ls_sym_state l)) (ls_error l) (ls_failed l)).

Fixpoint each {A B} (f : nat -> A -> B -> M B) (i : nat) (xs : list A) (b : B) : M B :=
  match xs with
  | [] => mret b
  | x :: xs => b ← f i x b; each f (S i) xs b
  end.

Definition set_size_align (size align : Z) (o : layout) : layout :=
  Layout size align (l_offsets o) (l_bits o) (l_members o) (l_unaligned o) (l_shared o) (l_vector o).
Definition set_offset (i : nat) (v : Z) (o : layout) : layout :=
  Layout (l_size o) (l_align o) (<[i := v]> (l_offsets o)) (l_bits o) (l_members o) (l_unaligned o)
    (l_shared o) (l_vector o).
Definition set_bits (i : nat) (b : layout_bits) (o : layout) : layout :=
  Layout (l_size o) (l_align o) (l_offsets o) (<[i := b]> (l_bits o)) (l_members o) (l_unaligned o)
    (l_shared o) (l_vector o).
Definition set_marks (unaligned shared : bool) (o : layout) : layout :=
  Layout (l_size o) (l_align o) (l_offsets o) (l_bits o) (l_members o) unaligned shared (l_vector o).

(** ** The place of one field

    [placing] holds the locals of [compute] that the loop over the fields
    carries, and [field_facts] what it reads of the type of the field. *)
Record placing := Placing {
  p_bit : Z; p_align : Z; p_unit_start : Z; p_unit_size : Z; p_unit_used : Z; p_overflow : bool }.

Definition placing_start : placing := Placing 0 1 0 0 0 false.

Record field_facts := Facts { ff_size : Z; ff_align : Z; ff_shared : bool; ff_unaligned : bool }.

(** A zero-width bitfield, by its name [_]. *)
Definition is_unit_break (f : ir_field) : bool := bool_decide (f_name f = Some [95]).

Definition zmax (a b : Z) : Z := if a >? b then a else b.

(** The unit break of a bitfield. *)
Definition place_break (msvc aapcs64 : bool) (natural_bits field_align : Z) (facts : field_facts) (p : placing)
    : placing :=
  if negb msvc then
    let '(bit, ov) := round_up (p_bit p) natural_bits (p_overflow p) in
    let align := if aapcs64 && (ff_align facts >? p_align p) then ff_align facts else p_align p in
    Placing bit align (p_unit_start p) (p_unit_size p) (p_unit_used p) ov
  else if negb (p_unit_size p =? 0) then
    let '(up, ov) := round_up (whole_bytes (p_bit p)) field_align (p_overflow p) in
    let '(bit, ov) := mul_size up 8 ov in
    Placing bit (zmax field_align (p_align p)) (p_unit_start p) 0 (p_unit_used p) ov
  else p.

(** A field that is no unit break: the locals, the first bit of a bitfield and
    the offset. [size_bits] and [natural_bits] come with the flag in [p]. *)
Definition place_value (msvc is_union packed : bool) (size_bits natural_bits field_align width : Z)
    (facts : field_facts) (p : placing) : placing * option Z * Z :=
  let ov := p_overflow p in
  let size := ff_size facts in
  if is_union then
    let end_ := if (width =? 0) || msvc then size_bits else width in
    (Placing (zmax end_ (p_bit p)) (p_align p) (p_unit_start p) (p_unit_size p) (p_unit_used p) ov, None, 0)
  else if width =? 0 then
    let '(offset, ov) := round_up (whole_bytes (p_bit p)) field_align ov in
    let '(last, ov) := add_size offset size ov in
    let '(bit, ov) := mul_size last 8 ov in
    (Placing bit (p_align p) (p_unit_start p) 0 (p_unit_used p) ov, None, offset)
  else if msvc && (p_unit_size p =? size) && (u64 (p_unit_used p + width) <=? size_bits) then
    let pos := u64 (p_unit_start p + p_unit_used p) in
    (Placing (p_bit p) (p_align p) (p_unit_start p) (p_unit_size p) (u64 (p_unit_used p + width)) ov,
     Some pos, pos / 8)
  else if msvc then
    let '(up, ov) := round_up (whole_bytes (p_bit p)) field_align ov in
    let '(start, ov) := mul_size up 8 ov in
    let '(bit, ov) := add_size start size_bits ov in
    (Placing bit (p_align p) start size width ov, Some start, start / 8)
  else
    let '(bit, ov) :=
      if negb packed && (u64 (p_bit p mod natural_bits + width) >? size_bits)
      then round_up (p_bit p) natural_bits ov else (p_bit p, ov) in
    let '(after, ov) := add_size bit width ov in
    (Placing after (p_align p) (p_unit_start p) (p_unit_size p) (p_unit_used p) ov, Some bit, bit / 8).

Definition is_union (t : ir_aggtype) : bool := bool_decide (a_kind t = IR_AGG_UNION).

(** One round of the loop: the locals and the layout after field [i]. *)
Definition place (msvc aapcs64 : bool) (t : ir_aggtype) (i : nat) (f : ir_field) (facts : field_facts)
    (p : placing) (out : layout) : placing * layout :=
  let width := f_bits f in
  let '(size_bits, ov) := mul_size (ff_size facts) 8 (p_overflow p) in
  let '(natural_bits, ov) := mul_size (ff_align facts) 8 ov in
  let shared := f_atomic f || bool_decide (vt_type (f_type f) = IR_LOCK) || ff_shared facts in
  let field_align := if a_packed t && negb shared then 1 else ff_align facts in
  let p := Placing (p_bit p) (p_align p) (p_unit_start p) (p_unit_size p) (p_unit_used p) ov in
  let out := set_marks (l_unaligned out) (l_shared out || shared) out in
  if is_unit_break f then
    let p := place_break msvc aapcs64 natural_bits field_align facts p in
    (p, set_offset i (p_bit p / 8) out)
  else
    let '(p, pos, offset) :=
      place_value msvc (is_union t) (a_packed t) size_bits natural_bits field_align width facts p in
    let out := match pos with
               | Some pos => set_bits i (Bits pos 0 IR_VOID 0) out
               | None => out
               end in
    let out := set_offset i offset out in
    let p := Placing (p_bit p) (zmax field_align (p_align p)) (p_unit_start p) (p_unit_size p)
      (p_unit_used p) (p_overflow p) in
    let off := ((width =? 0) && negb (offset mod ff_align facts =? 0)) || ff_unaligned facts in
    (p, if off then set_marks true (l_shared out) out else out).

(** The unit of a bitfield: the layout with it, or the error. *)
Definition bit_unit (agg i : nat) (width : Z) (out : layout) : layout + layout_error :=
  let b := default zero_bits (l_bits out !! i) in
  let need := (lb_pos b mod 8 + width + 7) / 8 in
  let n := if need <=? 1 then 1 else if need <=? 2 then 2 else if need <=? 4 then 4 else 8 in
  if need >? 8 then inr (E_wide_bitfield agg i)
  else if n >? l_size out then inr (E_bitfield_unit agg i n (l_size out))
  else
    let start := lb_pos b / 8 in
    let start := if start + n >? l_size out then l_size out - n else start in
    let type := if n =? 1 then IR_I8 else if n =? 2 then IR_I16 else if n =? 4 then IR_I32 else IR_I64 in
    inl (set_bits i (Bits (lb_pos b) start type (u8 (lb_pos b - start * 8))) out).

(** The end of [compute] before the units of the bitfields: the alignment and
    the size of the aggregate, with the error of an [align(N)] that is too low
    and whether a size does not fit. *)
Definition final_align (agg : nat) (t : ir_aggtype) (p : placing) : Z * option layout_error :=
  let align := if a_simd t then (let n := whole_bytes (p_bit p) in if n <? 16 then n else 16) else p_align p in
  if negb (a_align t =? 0) && (a_align t <? align) then (align, Some (E_low_align agg (a_align t) align))
  else (if a_align t >? align then a_align t else align, None).

Section Run.
Context (m : ir_module) (tg : target).

Definition windows : bool := bool_decide (os (info tg) = OS_WINDOWS).
Definition linux_arm64 : bool :=
  bool_decide (os (info tg) = OS_LINUX) && bool_decide (arch (info tg) = ARCH_ARM64).

(** The fixed-width type of a target-sized one. *)
Definition target_type (type : ir_type) : ir_type :=
  match type with
  | IR_CLONG => if windows then IR_I32 else IR_I64
  | IR_CWCHAR => if windows then IR_I16 else IR_I32
  | IR_LOCK => if windows then IR_I64 else IR_I32
  | _ => type
  end.

Definition scalar_size (type : ir_type) : Z :=
  match target_type type with
  | IR_I8 => 1
  | IR_I16 => 2
  | IR_I32 | IR_F32 => 4
  | _ => 8
  end.

Definition agg_type (agg : nat) : ir_aggtype :=
  default {| a_kind := IR_AGG_STRUCT; a_name := []; a_fields := []; a_packed := false; a_simd := false;
             a_align := 0; a_length := 0; a_length_text := [] |} (m_aggs m !! agg).

Definition the_sym (sym : nat) : option ir_sym := m_syms m !! sym.

(** *** Signed and unsigned operations on c_wchar *)

Definition wchar_signed : bool :=
  bool_decide (os (info tg) = OS_MACOS) ||
  (bool_decide (os (info tg) = OS_LINUX) && bool_decide (arch (info tg) = ARCH_X86_64)).

Definition signed_op (op : ir_op) : ir_op :=
  match op with
  | IR_UDIV => IR_SDIV
  | IR_UREM => IR_SREM
  | IR_SHR_U => IR_SHR_S
  | IR_ULT => IR_SLT
  | IR_ULE => IR_SLE
  | IR_UGT => IR_SGT
  | IR_UGE => IR_SGE
  | IR_ZEXT => IR_SEXT
  | IR_UITOF => IR_SITOF
  | IR_FTOUI => IR_FTOSI
  | IR_MULH_U => IR_MULH_S
  | IR_ADD_SAT_U => IR_ADD_SAT_S
  | IR_SUB_SAT_U => IR_SUB_SAT_S
  | IR_MUL_SAT_U => IR_MUL_SAT_S
  | IR_SHR_U_FL => IR_SHR_S_FL
  | _ => op
  end.

Definition sym_type (sym : nat) : ir_type :=
  match the_sym sym with Some s => s_type s | None => IR_VOID end.

Definition target_op (s : ir_sym) : ir_op :=
  let on_wchar := bool_decide (s_type s = IR_CWCHAR) || bool_decide (sym_type (s_a s) = IR_CWCHAR) in
  if on_wchar && wchar_signed then signed_op (s_op s) else s_op s.

(** The value, or the error. *)
Definition fold_op (s : ir_sym) (type : ir_type) (a b : Z) : Z + layout_error :=
  let op := target_op s in
  let trim v := inl (ir_fold_trim (target_type (s_type s)) v) in
  match op with
  | IR_NEG => trim (u64 (0 - a))
  | IR_NOT => trim (not64 a)
  | IR_TRUNC | IR_ZEXT => trim (ir_fold_trim type a)
  | IR_SEXT => trim (u64 (ir_fold_signed type a))
  | _ =>
      match ir_fold_int op type a b with
      | IR_FOLDED v => trim v
      | IR_FOLD_BY_ZERO => inr E_fold_by_zero
      | IR_FOLD_LEAST_BY_MINUS_ONE => inr E_fold_least_by_minus_one
      | IR_FOLD_SHIFT_RANGE => inr (E_fold_shift (ir_fold_bits type))
      | IR_FOLD_NOT_BINARY => inr (E_fold_operation op)
      end
  end.

(** *** The aggregates *)

Section Recursive.
Context (compute : nat -> M unit) (layout_fold : nat -> M (option Z)).

Definition layout_agg (agg : nat) : M layout :=
  s ← agg_state agg;
  if bool_decide (s = DONE) then the_layout agg else (_ ← compute agg; the_layout agg).

Definition layout_size (v : ir_vtype) : M Z :=
  if bool_decide (vt_type v = IR_AGG) then (o ← layout_agg (vt_agg v); mret (l_size o))
  else mret (scalar_size (vt_type v)).

Definition layout_align (v : ir_vtype) : M Z :=
  if bool_decide (vt_type v = IR_AGG) then (o ← layout_agg (vt_agg v); mret (l_align o))
  else mret (scalar_size (vt_type v)).

(** What a round of the loop over the fields reads of the field's type. *)
Definition field_type_facts (v : ir_vtype) : M field_facts :=
  size ← layout_size v;
  align ← layout_align v;
  if bool_decide (vt_type v = IR_AGG) then
    (o ← layout_agg (vt_agg v); mret (Facts size align (l_shared o) (l_unaligned o)))
  else mret (Facts size align false false).

(** The members of a value of type [v] at [offset], after those found. The
    fuel bounds the nesting of aggregates by value. *)
Fixpoint flatten (fuel : nat) (v : ir_vtype) (offset : Z) (found : list layout_member)
    : M (list layout_member) :=
  match fuel with
  | O => no_fuel
  | S f =>
      if negb (bool_decide (vt_type v = IR_AGG)) then
        let type := target_type (vt_type v) in
        if existsb (fun x => (lm_offset x =? offset) && bool_decide (lm_type x = type)) found
        then mret found
        else if (length found <? LAYOUT_MEMBER_LIMIT)%nat then mret (found ++ [Member offset type])
        else mret found
      else
        let t := agg_type (vt_agg v) in
        o ← layout_agg (vt_agg v);
        if bool_decide (a_kind t = IR_AGG_ARRAY) then
          match a_fields t with
          | e :: _ =>
              step ← layout_size (f_type e);
              if step >? 0 then
                each (fun i _ found => flatten f (f_type e) (u64 (offset + Z.of_nat i * step)) found)
                  0 (replicate (Z.to_nat (l_size o / step)) tt) found
              else mret found
          | [] => mret found
          end
        else
          each (fun i fd found =>
            if is_unit_break fd then mret found
            else flatten f (f_type fd) (u64 (offset + default 0 (l_offsets o !! i))) found)
            0 (a_fields t) found
  end.

(** The array: its bits and its alignment, with the flag of overflow. *)
Definition compute_array (agg : nat) (t : ir_aggtype) (element : ir_vtype) : M placing :=
  r ← layout_fold (a_length t);
  length ← match r with
           | None => mret 1
           | Some length =>
               if arith_signed length 64 <? 1
               then (_ ← fail (E_array_length agg (arith_signed length 64)); mret 1)
               else mret length
           end;
  size ← layout_size element;
  let '(bytes, ov) := mul_size length size false in
  let '(bit, ov) := mul_size bytes 8 ov in
  align ← layout_align element;
  facts ← field_type_facts element;
  _ ← update_layout agg
        (set_marks (ff_unaligned facts) (bool_decide (vt_type element = IR_LOCK) || ff_shared facts));
  mret (Placing bit align 0 0 0 ov).

Definition compute_fields (agg : nat) (t : ir_aggtype) : M placing :=
  each (fun i f p =>
    facts ← field_type_facts (f_type f);
    out ← the_layout agg;
    let '(p, out) := place windows linux_arm64 t i f facts p out in
    _ ← update_layout agg (fun _ => out);
    mret p) 0 (a_fields t) placing_start.

(** The units of the bitfields, up to the first error. *)
Fixpoint bit_units (agg i : nat) (fields : list ir_field) : M unit :=
  match fields with
  | [] => mret tt
  | f :: fields =>
      if f_bits f =? 0 then bit_units agg (S i) fields
      else
        out ← the_layout agg;
        match bit_unit agg i (f_bits f) out with
        | inl out => _ ← update_layout agg (fun _ => out); bit_units agg (S i) fields
        | inr e => fail e
        end
  end.

Definition compute_members (fuel agg : nat) : M unit :=
  out ← the_layout agg;
  if l_size out <=? Z.of_nat LAYOUT_MEMBER_LIMIT then
    ms ← flatten fuel {| vt_type := IR_AGG; vt_agg := agg |} 0 [];
    update_layout agg (fun o => Layout (l_size o) (l_align o) (l_offsets o) (l_bits o) ms
      (l_unaligned o) (l_shared o) (l_vector o))
  else mret tt.

Definition is_array (t : ir_aggtype) : bool := bool_decide (a_kind t = IR_AGG_ARRAY).

Definition compute_body (agg : nat) : M unit :=
  let t := agg_type agg in
  state ← agg_state agg;
  if bool_decide (state = BUSY) then
    _ ← fail (E_depends_on_itself agg); update_layout agg (set_size_align 1 1)
  else
    _ ← set_agg_state agg BUSY;
    _ ← update_layout agg (fun o => Layout (l_size o) (l_align o) (replicate (length (a_fields t)) 0)
          (replicate (length (a_fields t)) zero_bits) (l_members o) (l_unaligned o) (l_shared o) (l_vector o));
    p ← match a_kind t, a_fields t with
        | IR_AGG_ARRAY, e :: _ => compute_array agg t (f_type e)
        | IR_AGG_ARRAY, [] => mret placing_start
        | _, _ => compute_fields agg t
        end;
    let '(align, low) := final_align agg t p in
    _ ← match low with Some e => fail e | None => mret tt end;
    let '(size, ov) := round_up (whole_bytes (p_bit p)) align (p_overflow p) in
    _ ← update_layout agg (set_size_align size align);
    if ov || (size >? UINT64_MAX / 8) then
      _ ← fail (E_size_overflow agg);
      _ ← update_layout agg (set_size_align 1 1);
      set_agg_state agg DONE
    else
      _ ← update_layout agg (fun o => Layout (l_size o) (l_align o) (l_offsets o) (l_bits o) (l_members o)
            (l_unaligned o) (l_shared o) (a_simd t && (l_size o =? 16)));
      _ ← (if is_array t then mret tt else bit_units agg 0 (a_fields t));
      _ ← set_agg_state agg DONE;
      compute_members (S (length (m_aggs m))) agg.

Definition layout_fold_body (sym : nat) : M (option Z) :=
  state ← gets (fun l => default UNSEEN (ls_sym_state l !! sym));
  if bool_decide (state = DONE) then gets (fun l => Some (default 0 (ls_values l !! sym)))
  else
    match the_sym sym with
    | None => no_fuel
    | Some s =>
        r ← match s_kind s with
            | IR_SYM_INT => mret (Some (s_value s))
            | IR_SYM_SIZE_OF => v ← layout_size (s_of s); mret (Some v)
            | IR_SYM_OFFSET_OF =>
                o ← layout_agg (vt_agg (s_of s)); mret (Some (default 0 (l_offsets o !! s_field s)))
            | IR_SYM_OP =>
                a ← layout_fold (s_a s);
                match a with
                | None => mret None
                | Some a =>
                    b ← match s_b s with Some b => layout_fold b | None => mret (Some 0) end;
                    match b with
                    | None => mret None
                    | Some b =>
                        match fold_op s (target_type (sym_type (s_a s))) a b with
                        | inl v => mret (Some v)
                        | inr e => _ ← fail e; mret None
                        end
                    end
                end
            end;
        failed ← gets ls_failed;
        match r with
        | Some v => if failed : bool then mret None else (_ ← set_value sym v; mret (Some v))
        | None => mret None
        end
    end.
End Recursive.

(** The two functions at one depth of their recursion. *)
Fixpoint run (fuel : nat) : (nat -> M unit) * (nat -> M (option Z)) :=
  match fuel with
  | O => (fun _ => no_fuel, fun _ => no_fuel)
  | S f => let '(c, g) := run f in (compute_body c g, layout_fold_body c g)
  end.

(** The recursion enters an aggregate once, and folds a symbolic value only
    through smaller ones between two aggregates. *)
Definition run_fuel : nat := S (S (length (m_aggs m)) * (length (m_syms m) + 3)).

Definition layout_start : layouts :=
  Layouts (replicate (length (m_aggs m)) zero_layout) (replicate (length (m_aggs m)) UNSEEN)
    (replicate (length (m_syms m)) 0) (replicate (length (m_syms m)) UNSEEN) None false.

(** The loop over the aggregates, up to the first failure. *)
Fixpoint layout_all (i : nat) (aggs : list ir_aggtype) : M unit :=
  match aggs with
  | [] => mret tt
  | _ :: aggs =>
      failed ← gets ls_failed;
      if failed : bool then mret tt
      else (_ ← layout_agg (run run_fuel).1 i; layout_all (S i) aggs)
  end.

Definition layout_init : option (bool * layouts) :=
  match layout_all 0 (m_aggs m) layout_start with
  | Some (_, l) => Some (negb (ls_failed l), l)
  | None => None
  end.
End Run.
