(* ===== verification/LayoutPlace.v ===== *)
(** * LayoutPlace: where the fields of a struct lie

    The arithmetic of [place] of Layout.v, apart from the recursion: the fields
    of a struct take disjoint ranges of bits in their order, each at its
    alignment, under the rule of System V and under that of MSVC; and the unit of
    a bitfield lies in the aggregate and holds the field. *)

From S2P Require Import Prelude Arith Target Ir IrFold Layout.

(** ** Sizes *)

Lemma add_size_spec a b ov r :
  add_size a b ov = (r, false) -> ov = false /\ r = a + b /\ a + b <= UINT64_MAX.
Proof.
  unfold add_size. rewrite Z.gtb_ltb. destruct (Z.ltb_spec (UINT64_MAX - a) b); intros [= <- ->]. lia.
Qed.

Lemma mul_size_spec a b ov r :
  0 <= a -> 0 <= b -> mul_size a b ov = (r, false) -> ov = false /\ r = a * b /\ a * b <= UINT64_MAX.
Proof.
  intros Ha Hb. unfold mul_size. destruct (Z.eqb_spec a 0) as [->|Hne]; cbn [negb andb].
  { intros [= <- ->]. lia. }
  rewrite Z.gtb_ltb. destruct (Z.ltb_spec (UINT64_MAX / a) b); intros [= <- ->].
  split; [done|]. split; [done|]. pose proof (Z.mul_div_le UINT64_MAX a ltac:(lia)). nia.
Qed.

Lemma whole_bytes_spec bit : 0 <= bit -> bit <= 8 * whole_bytes bit < bit + 8.
Proof.
  intros. unfold whole_bytes. destruct (Z.eqb_spec (bit mod 8) 0); Z.div_mod_to_equations; lia.
Qed.

Lemma round_up_spec n align ov r :
  0 <= n -> 0 < align -> round_up n align ov = (r, false) ->
  ov = false /\ n <= r < n + align /\ r mod align = 0 /\ r <= UINT64_MAX.
Proof.
  intros Hn Ha. unfold round_up. destruct (add_size n (align - 1) ov) as [last o] eqn:E.
  intros [= <- ->]. apply add_size_spec in E as (-> & -> & H).
  pose proof (Z.mod_pos_bound (n + (align - 1)) align Ha).
  pose proof (Z.div_mod (n + (align - 1)) align ltac:(lia)) as Hd.
  split; [done|]. split; [lia|]. split; [apply Z.mod_mul; lia|]. lia.
Qed.

Lemma round_up_nonneg n align ov r ov' : round_up n align ov = (r, ov') -> 0 <= n -> 0 < align -> 0 <= r.
Proof.
  intros H ? ?. revert H. unfold round_up, add_size. destruct (_ >? _); intros [= <- <-];
    apply Z.mul_nonneg_nonneg; try apply Z.div_pos; lia.
Qed.

(** The flag of overflow is only ever set. *)
Lemma add_size_flag a b ov r : add_size a b ov = (r, false) -> ov = false.
Proof. unfold add_size. destruct (_ >? _); by intros [= _ ->]. Qed.

Lemma mul_size_flag a b ov r : mul_size a b ov = (r, false) -> ov = false.
Proof. unfold mul_size. destruct (_ && _); by intros [= _ ->]. Qed.

Lemma round_up_flag n a ov r : round_up n a ov = (r, false) -> ov = false.
Proof. unfold round_up. destruct (add_size _ _ _) eqn:E. intros [= _ ->]. by eapply add_size_flag. Qed.

Ltac flags :=
  repeat match goal with
    | H : add_size _ _ _ = (_, false) |- _ => apply add_size_flag in H; subst
    | H : mul_size _ _ _ = (_, false) |- _ => apply mul_size_flag in H; subst
    | H : round_up _ _ _ = (_, false) |- _ => apply round_up_flag in H; subst
    end.

(** ** Alignments *)

Definition is_pow2 (x : Z) : Prop := exists k, 0 <= k /\ x = 2 ^ k.

Lemma is_pow2_pos x : is_pow2 x -> 1 <= x.
Proof. intros (k & ? & ->). pose proof (Z.pow_pos_nonneg 2 k ltac:(lia) ltac:(lia)). lia. Qed.

Lemma is_pow2_1 : is_pow2 1.
Proof. exists 0. done. Qed.

(** Of two powers of two the less divides the greater. *)
Lemma is_pow2_divide x y : is_pow2 x -> is_pow2 y -> x <= y -> (x | y).
Proof.
  intros (j & ? & ->) (k & ? & ->) Hle. apply Z.pow_le_mono_r_iff in Hle; [|lia|lia].
  exists (2 ^ (k - j)). rewrite <- Z.pow_add_r by lia. f_equal. lia.
Qed.

Lemma zmax_spec a b : zmax a b = Z.max a b.
Proof. unfold zmax. rewrite Z.gtb_ltb. destruct (Z.ltb_spec b a); lia. Qed.

Lemma zmax_pow2 a b : is_pow2 a -> is_pow2 b -> is_pow2 (zmax a b) /\ (a | zmax a b) /\ (b | zmax a b).
Proof.
  intros Ha Hb. rewrite zmax_spec. pose proof (is_pow2_divide a b Ha Hb). pose proof (is_pow2_divide b a Hb Ha).
  destruct (Z.max_spec a b) as [[? ->]|[? ->]]; split_and!; auto using Z.divide_refl with lia.
Qed.

(** ** One field *)

Section Place.
Context (msvc aapcs64 : bool) (t : ir_aggtype).
Hypothesis Hstruct : is_union t = false.

(** The invariant of the locals: the unit that MSVC has open ends at the next
    free bit. *)
Record placing_ok (p : placing) : Prop := {
  ok_bit : 0 <= p_bit p <= UINT64_MAX;
  ok_align : is_pow2 (p_align p);
  ok_unit : p_unit_size p = 0 \/
    (msvc = true /\ 0 < p_unit_size p <= 8 /\ 0 <= p_unit_start p /\
     0 <= p_unit_used p <= 8 * p_unit_size p /\ p_bit p = p_unit_start p + 8 * p_unit_size p /\
     (a_packed t = false -> p_unit_start p mod (8 * p_unit_size p) = 0));
}.

(** The first bit that no field takes. *)
Definition free (p : placing) : Z :=
  if p_unit_size p =? 0 then p_bit p else p_unit_start p + p_unit_used p.

Arguments free : simpl never.

Ltac free_of :=
  match goal with |- context [free (Placing ?a ?b ?c ?d ?e ?f)] =>
    change (free (Placing a b c d e f)) with (if d =? 0 then a else c + e) end.

Lemma free_le p : placing_ok p -> 0 <= free p <= p_bit p.
Proof.
  intros [H1 _ H2]. unfold free. destruct (Z.eqb_spec (p_unit_size p) 0); [lia|].
  destruct H2 as [|(_ & ? & ? & ? & ? & _)]; lia.
Qed.

(** What the checker holds of the type of a field: a bitfield is at most as
    wide as its integer type. *)
Record facts_ok (f : ir_field) (facts : field_facts) : Prop := {
  fo_size : 0 <= ff_size facts;
  fo_align : is_pow2 (ff_align facts);
  fo_bits : 0 <= f_bits f;
  fo_bitfield : is_unit_break f = false -> f_bits f <> 0 ->
    f_bits f <= 8 * ff_size facts <= 64 /\ ff_align facts = ff_size facts;
}.

Definition field_shared (f : ir_field) (facts : field_facts) : bool :=
  f_atomic f || bool_decide (vt_type (f_type f) = IR_LOCK) || ff_shared facts.

Definition field_align (f : ir_field) (facts : field_facts) : Z :=
  if a_packed t && negb (field_shared f facts) then 1 else ff_align facts.

Lemma field_align_pow2 f facts : facts_ok f facts -> is_pow2 (field_align f facts).
Proof. intros []. unfold field_align. destruct (_ && _); [apply is_pow2_1|done]. Qed.

Lemma field_align_pos f facts : facts_ok f facts -> 1 <= field_align f facts.
Proof. intros H. apply is_pow2_pos, field_align_pow2, H. Qed.

(** The bits that field [i] takes, in the layout [out]. *)
Definition first_bit (f : ir_field) (i : nat) (out : layout) : Z :=
  if f_bits f =? 0 then 8 * default 0 (l_offsets out !! i)
  else lb_pos (default zero_bits (l_bits out !! i)).
Definition last_bit (f : ir_field) (i : nat) (facts : field_facts) (out : layout) : Z :=
  first_bit f i out + (if f_bits f =? 0 then 8 * ff_size facts else f_bits f).

Lemma place_break_flag nb fa facts p :
  p_overflow (place_break msvc aapcs64 nb fa facts p) = false -> p_overflow p = false.
Proof.
  unfold place_break. destruct (negb msvc).
  - destruct (round_up _ nb _) eqn:E. cbn. intros ->. by flags.
  - destruct (negb _); [|done]. destruct (round_up _ _ _) eqn:E. destruct (mul_size _ 8 _) eqn:E3.
    cbn. intros ->. by flags.
Qed.

Lemma place_value_flag u pk sb nb fa width facts p p' pos offset :
  place_value msvc u pk sb nb fa width facts p = (p', pos, offset) ->
  p_overflow p' = false -> p_overflow p = false.
Proof.
  unfold place_value. destruct u; [by intros [= <- _ _]|].
  destruct (width =? 0).
  { destruct (round_up _ _ _) eqn:E, (add_size _ _ _) eqn:E1, (mul_size _ _ _) eqn:E2.
    intros [= <- _ _]. cbn. intros ->. by flags. }
  destruct (msvc && _ && _); [by intros [= <- _ _]|]. destruct msvc.
  - destruct (round_up _ _ _) eqn:E, (mul_size _ _ _) eqn:E1, (add_size _ _ _) eqn:E2.
    intros [= <- _ _]. cbn. intros ->. by flags.
  - destruct (if _ && _ then _ else _) eqn:E, (add_size _ _ _) eqn:E1.
    intros [= <- _ _]. cbn. intros ->. flags. destruct (_ && _) in E; [by flags|by injection E].
Qed.

Lemma place_break_ok nb f facts p :
  placing_ok p -> facts_ok f facts -> 0 < nb ->
  p_overflow (place_break msvc aapcs64 nb (field_align f facts) facts p) = false ->
  let p' := place_break msvc aapcs64 nb (field_align f facts) facts p in
  p_overflow p = false /\ placing_ok p' /\ free p <= free p' /\ (p_align p | p_align p').
Proof.
  intros Hp Hf Hnb. cbv zeta. pose proof (free_le p Hp) as Hfree. pose proof (field_align_pos f facts Hf) as Hfa.
  destruct (zmax_pow2 (field_align f facts) (p_align p)) as (Z1 & Z2 & Z3); [by apply field_align_pow2|apply Hp|].
  destruct (zmax_pow2 (ff_align facts) (p_align p)) as (Y1 & Y2 & Y3); [apply Hf|apply Hp|].
  pose proof (ok_align _ Hp) as H2. destruct Hp as [H1 _ H3]. unfold place_break. destruct msvc eqn:Em; cbn [negb].
  - destruct (Z.eqb_spec (p_unit_size p) 0) as [E|E]; cbn [negb].
    { intros Ho. split; [done|]. split; [|split; [lia|apply Z.divide_refl]]. split; [done|done|left; done]. }
    destruct (round_up _ _ _) as [up o1] eqn:E1. destruct (mul_size up 8 o1) as [b o2] eqn:E2. cbn.
    intros ->. pose proof (whole_bytes_spec (p_bit p) ltac:(lia)).
    pose proof (round_up_nonneg _ _ _ _ _ E1 ltac:(lia) ltac:(lia)).
    apply mul_size_spec in E2 as (-> & -> & B2); [|lia..].
    apply round_up_spec in E1 as (Ho & B1 & _ & _); [|lia|lia].
    split; [done|]. split; [|].
    + split; cbn; [lia|done|left; done].
    + split; [|done]. etrans; [apply Hfree|]. free_of. cbn [Z.eqb]. lia.
  - destruct (round_up _ _ _) as [b o] eqn:E1. cbn. intros ->.
    apply round_up_spec in E1 as (Ho & B1 & _ & B2); [|lia|lia].
    destruct H3 as [H3|[? _]]; [|done].
    assert (forall x, is_pow2 x -> (p_align p | x) ->
      p_overflow p = false /\ placing_ok (Placing b x (p_unit_start p) (p_unit_size p) (p_unit_used p) false) /\
      free p <= free (Placing b x (p_unit_start p) (p_unit_size p) (p_unit_used p) false) /\
      (p_align p | x)) as Hgo.
    { intros x ? ?. split; [done|]. split; [|split; [|done]]; [split; cbn; [lia|done|left; done]|].
      free_of. rewrite H3. cbn [Z.eqb]. lia. }
    apply Hgo; destruct aapcs64; cbn [andb]; try done; try apply Z.divide_refl; apply zmax_pow2 || idtac; done.
Qed.

(** A field that is no unit break, in a struct. *)
Lemma place_value_ok f facts p p' pos offset :
  placing_ok p -> facts_ok f facts -> is_unit_break f = false ->
  8 * ff_size facts <= UINT64_MAX ->
  place_value msvc false (a_packed t) (ff_size facts * 8) (ff_align facts * 8) (field_align f facts) (f_bits f)
    facts p = (p', pos, offset) ->
  p_overflow p' = false ->
  p_overflow p = false /\ placing_ok p' /\ p_align p' = p_align p /\ free p <= free p' /\ 0 <= offset /\
  if f_bits f =? 0 then
    pos = None /\ free p <= 8 * offset /\ 8 * offset + 8 * ff_size facts <= free p' /\
    offset mod field_align f facts = 0
  else exists b, pos = Some b /\ free p <= b /\ b + f_bits f <= free p' /\ offset = b / 8 /\
    (a_packed t = false -> b mod (8 * ff_size facts) + f_bits f <= 8 * ff_size facts).
Proof.
  intros Hp Hf Hnb Hmax. pose proof (free_le p Hp) as Hfree. pose proof (field_align_pos f facts Hf) as Hfa.
  pose proof (whole_bytes_spec (p_bit p) ltac:(destruct Hp; lia)) as Hw.
  pose proof (is_pow2_pos _ (fo_align _ _ Hf)) as Hna.
  destruct Hp as [H1 H2 H3]. destruct Hf as [F1 F2 F3 F4]. specialize (F4 Hnb).
  unfold place_value. destruct (Z.eqb_spec (f_bits f) 0) as [Hz|Hz].
  - destruct (round_up _ _ _) as [o ov1] eqn:E1. destruct (add_size o _ _) as [last ov2] eqn:E2.
    destruct (mul_size last 8 ov2) as [bit ov3] eqn:E3. intros [= <- <- <-]. cbn. intros ->.
    pose proof (round_up_nonneg _ _ _ _ _ E1 ltac:(lia) ltac:(lia)) as Ho.
    assert (0 <= last) as Hl
      by (unfold add_size in E2; destruct (_ >? _); injection E2 as <- <-; lia).
    apply mul_size_spec in E3 as (-> & -> & B3); [|lia..].
    apply add_size_spec in E2 as (-> & -> & B2).
    apply round_up_spec in E1 as (Hov & B1 & M1 & _); [|lia|lia].
    split; [done|]. split; [split; cbn; [lia|done|left; done]|]. split; [done|].
    free_of. cbn [Z.eqb]. split; [lia|]. split; [done|]. split; [done|]. split; [lia|]. split; [lia|done].
  - destruct (F4 Hz) as [[F5 F6] F7]. assert (1 <= ff_size facts) as F8 by lia.
    destruct (msvc && (p_unit_size p =? ff_size facts) && (u64 (p_unit_used p + f_bits f) <=? ff_size facts * 8)) eqn:C1.
    { apply andb_true_iff in C1 as [C1 C3%Z.leb_le]. apply andb_true_iff in C1 as [C1 C2%Z.eqb_eq].
      destruct H3 as [?|(_ & U1 & U2 & U3 & U4 & U5)]; [lia|].
      assert (u64 (p_unit_used p + f_bits f) = p_unit_used p + f_bits f) as Ew
        by (apply wrap_small; split; pow2s; lia).
      rewrite Ew in C3 |- *. rewrite (wrap_small 64 (p_unit_start p + _)) by (split; pow2s; lia).
      intros [= <- <- <-]. cbn. intros Ho. split; [done|].
      split; [split; cbn; [lia|done|right; repeat split; try lia; done]|]. split; [done|].
      unfold free. cbn. rewrite C2, (proj2 (Z.eqb_neq (ff_size facts) 0)) by lia.
      split; [lia|]. split; [apply Z.div_pos; lia|].
      eexists. split; [reflexivity|]. split; [lia|]. split; [lia|]. split; [done|].
      intros Hpk. specialize (U5 Hpk). rewrite C2 in U5.
      rewrite <- Z.add_mod_idemp_l, U5 by lia. rewrite Z.mod_small by lia. lia. }
    destruct msvc eqn:Em.
    + destruct (round_up _ _ _) as [up ov1] eqn:E1. destruct (mul_size up 8 ov1) as [start ov2] eqn:E2.
      destruct (add_size start _ _) as [bit ov3] eqn:E3. intros [= <- <- <-]. cbn. intros ->.
      pose proof (round_up_nonneg _ _ _ _ _ E1 ltac:(lia) ltac:(lia)) as Hup.
      apply add_size_spec in E3 as (-> & -> & B3).
      apply mul_size_spec in E2 as (-> & -> & B2); [|lia..].
      apply round_up_spec in E1 as (Hov & B1 & M1 & _); [|lia|lia].
      assert (a_packed t = false -> (up * 8) mod (8 * ff_size facts) = 0) as Hpk.
      { intros Hpk. unfold field_align in M1. rewrite Hpk in M1. cbn [andb] in M1. rewrite F7 in M1.
        rewrite (Z.mul_comm up 8), Z.mul_mod_distr_l, M1 by lia. done. }
      split; [done|]. split.
      { split; cbn; [lia|done|right]. split_and!; try lia; [done|]. intros Hpk'. rewrite Hpk by done. done. }
      split; [done|]. free_of. rewrite (proj2 (Z.eqb_neq (ff_size facts) 0)) by lia.
      split; [lia|]. split; [apply Z.div_pos; lia|].
      eexists. split; [reflexivity|]. split; [lia|]. split; [lia|]. split; [done|].
      intros Hp'. rewrite Hpk by done. lia.
    + destruct H3 as [H3|[? _]]; [|done].
      destruct (if negb (a_packed t) && _ then _ else _) as [bit ov1] eqn:E1.
      destruct (add_size bit _ _) as [after ov2] eqn:E2. intros [= <- <- <-]. cbn. intros ->.
      apply add_size_spec in E2 as (-> & -> & B2).
      assert (p_overflow p = false /\ p_bit p <= bit /\
        (a_packed t = false -> bit mod (8 * ff_size facts) + f_bits f <= 8 * ff_size facts)) as (Ho & Hb & Hm).
      { destruct (negb (a_packed t) && _) eqn:C.
        - apply round_up_spec in E1 as (Hov & B1 & M1 & _); [|lia|lia].
          split; [done|]. split; [lia|]. intros _. rewrite (Z.mul_comm 8), <- F7, M1. lia.
        - injection E1 as <- Ho. split; [done|]. split; [lia|]. intros Hp. rewrite Hp in C. cbn [negb andb] in C.
          rewrite Z.gtb_ltb in C. apply Z.ltb_ge in C.
          pose proof (Z.mod_pos_bound (p_bit p) (ff_align facts * 8) ltac:(lia)).
          rewrite wrap_small in C by (split; pow2s; lia). rewrite (Z.mul_comm 8), <- F7 at 1. lia. }
      split; [done|]. split; [split; cbn; [lia|done|left; done]|]. split; [done|].
      unfold free. cbn. rewrite H3. cbn. split; [lia|]. split; [apply Z.div_pos; lia|].
      eexists. split; [reflexivity|]. split; [lia|]. split; [lia|]. split; [done|]. exact Hm.
Qed.

(** What one round of the loop shows of its field. *)
Record placed (f : ir_field) (facts : field_facts) (i : nat) (lo hi align : Z) (out : layout) : Prop := {
  placed_low : lo <= first_bit f i out;
  placed_high : last_bit f i facts out <= hi;
  placed_aligned : f_bits f = 0 -> default 0 (l_offsets out !! i) mod field_align f facts = 0;
  placed_byte : default 0 (l_offsets out !! i) = first_bit f i out / 8;
  placed_in_type : f_bits f <> 0 -> a_packed t = false ->
    first_bit f i out mod (8 * ff_size facts) + f_bits f <= 8 * ff_size facts;
  placed_align : (field_align f facts | align);
}.

(** The two layouts agree but for the entries of field [i]. *)
Record but_field (i : nat) (out out' : layout) : Prop := {
  bf_offsets : forall j, j <> i -> l_offsets out' !! j = l_offsets out !! j;
  bf_bits : forall j, j <> i -> l_bits out' !! j = l_bits out !! j;
  bf_offset_count : length (l_offsets out') = length (l_offsets out);
  bf_bits_count : length (l_bits out') = length (l_bits out);
}.

Lemma place_but_field i f facts p out : but_field i out (place msvc aapcs64 t i f facts p out).2.
Proof.
  unfold place. destruct (mul_size _ _ _), (mul_size _ _ _). destruct (is_unit_break f).
  - cbn [snd]. split; intros; cbn; rewrite ?list_lookup_insert_ne, ?length_insert by done; done.
  - destruct (place_value _ _ _ _ _ _ _ _ _) as [[q [pos|]] offset]; cbv zeta; cbn [snd];
      match goal with |- context [if ?o then _ else _] => destruct o end;
      split; intros; cbn; rewrite ?list_lookup_insert_ne, ?length_insert by done; done.
Qed.

Lemma place_flag i f facts p out :
  p_overflow (place msvc aapcs64 t i f facts p out).1 = false -> p_overflow p = false.
Proof.
  unfold place. destruct (mul_size (ff_size facts) _ _) eqn:E1. destruct (mul_size (ff_align facts) _ _) eqn:E2.
  destruct (is_unit_break f).
  - cbn [fst]. intros H%place_break_flag. cbn in H. subst. by flags.
  - destruct (place_value _ _ _ _ _ _ _ _ _) as [[q pos] offset] eqn:E. cbn.
    intros H. apply (place_value_flag _ _ _ _ _ _ _ _ _ _ _ E) in H. cbn in H. subst. by flags.
Qed.

Lemma place_ok i f facts p out p' out' :
  placing_ok p -> facts_ok f facts -> (i < length (l_offsets out))%nat -> (i < length (l_bits out))%nat ->
  place msvc aapcs64 t i f facts p out = (p', out') -> p_overflow p' = false ->
  p_overflow p = false /\ placing_ok p' /\ (p_align p | p_align p') /\ free p <= free p' /\
  in_width 64 (default 0 (l_offsets out' !! i)) /\
  (is_unit_break f = false -> placed f facts i (free p) (free p') (p_align p') out').
Proof.
  intros Hp Hf Hi1 Hi2. unfold place. fold (field_shared f facts). fold (field_align f facts).
  pose proof (fo_size _ _ Hf) as Hs. pose proof (is_pow2_pos _ (fo_align _ _ Hf)) as Ha.
  destruct (mul_size (ff_size facts) 8 _) as [sb ov1] eqn:E1.
  destruct (mul_size (ff_align facts) 8 ov1) as [nb ov2] eqn:E2.
  set (q := Placing _ _ _ _ _ ov2).
  assert (p_overflow q = false -> p_overflow p = false /\ placing_ok q /\ sb = ff_size facts * 8 /\
    nb = ff_align facts * 8 /\ 8 * ff_size facts <= UINT64_MAX) as Hq.
  { cbn. intros ->. apply mul_size_spec in E2 as (-> & -> & _); [|lia|lia].
    apply mul_size_spec in E1 as (-> & -> & ?); [|lia|lia]. split; [done|]. split; [|split_and!; done || lia].
    destruct Hp as [H1 H2 H3]. split; done. }
  assert (free q = free p) as Hfree by reflexivity.
  assert (p_align q = p_align p) as Hal by reflexivity. clearbody q.
  destruct (is_unit_break f) eqn:Hb.
  - intros [= <- <-] Hov.
    pose proof (place_break_flag _ _ _ _ Hov) as Hoq.
    destruct (Hq Hoq) as (? & Hqok & _ & Hn & _).
    assert (0 < nb) as Hnb by lia.
    destruct (place_break_ok nb f facts q Hqok Hf Hnb Hov) as (_ & ? & ? & ?).
    rewrite <- Hfree, <- Hal. split_and!; try done. cbn. rewrite list_lookup_insert_eq by done. cbn [default from_option].
    unfold id. match goal with H : placing_ok (place_break _ _ _ _ _ _) |- _ => pose proof (ok_bit _ H) end.
    split; pow2s; Z.div_mod_to_equations; lia.
  - destruct (place_value _ _ _ _ _ _ _ _ _) as [[q' pos] offset] eqn:E. intros [= <- <-] Hov.
    cbn [p_overflow] in Hov. destruct (Hq (place_value_flag _ _ _ _ _ _ _ _ _ _ _ E Hov)) as (? & Hqok & -> & -> & Hmax).
    rewrite Hstruct in E. pose proof (place_value_ok f facts q q' pos offset Hqok Hf Hb Hmax E Hov)
      as (_ & Hok' & Hal' & Hfree' & Hoff & Hw).
    pose proof (field_align_pow2 f facts Hf) as Hfa.
    destruct (zmax_pow2 (field_align f facts) (p_align q')) as (Z1 & Z2 & Z3); [done|apply Hok'|].
    set (p1 := Placing _ _ _ _ _ _). assert (free p1 = free q') as -> by done.
    split; [done|]. split; [destruct Hok'; by split|]. split; [by rewrite <- Hal, <- Hal'|].
    rewrite <- Hfree. split; [done|].
    set (out1 := match pos with Some _ => _ | None => _ end).
    assert (i < length (l_offsets out1))%nat as Hi by (by destruct pos).
    assert (default 0 (l_offsets (set_offset i offset out1) !! i) = offset) as Ho
      by (cbn; by rewrite list_lookup_insert_eq).
    set (off := _ || _). set (fin := if off then _ else _).
    assert (l_offsets fin = l_offsets (set_offset i offset out1) /\ l_bits fin = l_bits out1) as [F1 F2]
      by (by destruct off). clearbody fin. pose proof (free_le q' Hok') as Hfq. pose proof (ok_bit _ Hok') as Hbq.
    split; [|intros _].
    { rewrite F1, Ho. destruct (Z.eqb_spec (f_bits f) 0) as [Hz|Hz].
      - split; pow2s; lia.
      - destruct Hw as (b & _ & ? & ? & -> & _). pose proof (fo_bits _ _ Hf). split; pow2s; Z.div_mod_to_equations; lia. }
    destruct (Z.eqb_spec (f_bits f) 0) as [Hz|Hz].
    + destruct Hw as (-> & W1 & W2 & W3).
      split; unfold last_bit, first_bit; rewrite ?F1, ?Ho, ?Hz; cbn [Z.eqb]; try lia; try done.
      rewrite Z.mul_comm, Z.div_mul by lia. done.
    + destruct Hw as (b & -> & W1 & W2 & -> & W3).
      assert (lb_pos (default zero_bits (l_bits fin !! i)) = b) as Hp1
        by (rewrite F2; cbn; by rewrite list_lookup_insert_eq).
      split; unfold last_bit, first_bit; rewrite ?F1, ?Ho, ?(proj2 (Z.eqb_neq _ _) Hz), ?Hp1; try lia; try done.
Qed.

(** ** All fields *)

(** The loop of [compute] over the fields, each with its facts. *)
Fixpoint place_all (i : nat) (fs : list (ir_field * field_facts)) (p : placing) (out : layout)
    : placing * layout :=
  match fs with
  | [] => (p, out)
  | (f, facts) :: fs =>
      let '(p, out) := place msvc aapcs64 t i f facts p out in place_all (S i) fs p out
  end.

(** The fields from [i] on lie in their order in the bits from [lo] to [hi]. *)
Fixpoint in_order (i : nat) (fs : list (ir_field * field_facts)) (lo hi align : Z) (out : layout) : Prop :=
  match fs with
  | [] => lo <= hi
  | (f, facts) :: fs =>
      if is_unit_break f then in_order (S i) fs lo hi align out
      else placed f facts i lo (last_bit f i facts out) align out /\
           in_order (S i) fs (last_bit f i facts out) hi align out
  end.

Lemma place_all_but i fs p out :
  (forall j, (j < i)%nat -> l_offsets (place_all i fs p out).2 !! j = l_offsets out !! j) /\
  (forall j, (j < i)%nat -> l_bits (place_all i fs p out).2 !! j = l_bits out !! j) /\
  length (l_offsets (place_all i fs p out).2) = length (l_offsets out) /\
  length (l_bits (place_all i fs p out).2) = length (l_bits out).
Proof.
  revert i p out. induction fs as [|[f facts] fs IH]; intros i p out; [done|]. cbn [place_all].
  pose proof (place_but_field i f facts p out) as [B1 B2 B3 B4].
  destruct (place _ _ _ _ _ _ _ _) as [p1 out1] eqn:E. cbn in B1, B2, B3, B4.
  destruct (IH (S i) p1 out1) as (H1 & H2 & H3 & H4). rewrite H3, H4, B3, B4.
  split_and!; [..|done|done]; intros j Hj; rewrite ?H1, ?H2 by lia; [apply B1|apply B2]; lia.
Qed.

Lemma place_all_flag i fs p out : p_overflow (place_all i fs p out).1 = false -> p_overflow p = false.
Proof.
  revert i p out. induction fs as [|[f facts] fs IH]; intros i p out; [done|].
  cbn [place_all]. pose proof (place_flag i f facts p out). destruct (place _ _ _ _ _ _ _ _). eauto.
Qed.

Lemma in_order_mono i fs lo lo' hi align out :
  lo' <= lo -> in_order i fs lo hi align out -> in_order i fs lo' hi align out.
Proof.
  revert i lo lo'. induction fs as [|[f facts] fs IH]; intros i lo lo' Hle; cbn [in_order]; [lia|].
  destruct (is_unit_break f); [by apply IH|]. intros [[] H]. split; [|done]. split; try done. lia.
Qed.

Lemma in_order_widen i fs lo hi hi' align align' out :
  hi <= hi' -> (align | align') -> in_order i fs lo hi align out -> in_order i fs lo hi' align' out.
Proof.
  intros Hhi Hal. revert i lo. induction fs as [|[f facts] fs IH]; intros i lo; cbn [in_order]; [lia|].
  destruct (is_unit_break f); [apply IH|]. intros [[] H]. split; [|by apply IH]. split; try done. by etrans.
Qed.

(** The units of the bitfields play no part. *)
Lemma in_order_agree i fs lo hi align out out' :
  l_offsets out' = l_offsets out ->
  (forall j, lb_pos (default zero_bits (l_bits out' !! j)) = lb_pos (default zero_bits (l_bits out !! j))) ->
  in_order i fs lo hi align out -> in_order i fs lo hi align out'.
Proof.
  intros H1 H2. revert i lo. induction fs as [|[f facts] fs IH]; intros i lo; cbn [in_order]; [done|].
  destruct (is_unit_break f); [apply IH|]. intros [Hp H].
  assert (first_bit f i out' = first_bit f i out) as E by (unfold first_bit; by rewrite H1, H2).
  assert (last_bit f i facts out' = last_bit f i facts out) as E' by (unfold last_bit; by rewrite E).
  rewrite E'. split; [|by apply IH]. destruct Hp. split; rewrite ?E, ?E', ?H1; done.
Qed.

Lemma place_all_ok i fs p out p' out' :
  placing_ok p -> Forall (fun x => facts_ok x.1 x.2) fs ->
  (i + length fs <= length (l_offsets out))%nat -> (i + length fs <= length (l_bits out))%nat ->
  place_all i fs p out = (p', out') -> p_overflow p' = false ->
  p_overflow p = false /\ placing_ok p' /\ (p_align p | p_align p') /\
  (forall j, (i <= j < i + length fs)%nat -> in_width 64 (default 0 (l_offsets out' !! j))) /\
  in_order i fs (free p) (free p') (p_align p') out'.
Proof.
  revert i p out. induction fs as [|[f facts] fs IH]; intros i p out Hp.
  { intros _ _ _ [= <- <-] Ho. cbn [in_order]. split_and!; [done|done|apply Z.divide_refl|cbn; lia|lia]. }
  intros [Hf Hfs]%Forall_cons_1. cbn [length place_all in_order]. intros L1 L2.
  pose proof (place_but_field i f facts p out) as [B1 B2 B3 B4].
  destruct (place _ _ _ _ _ _ _ _) as [p1 out1] eqn:E. cbn in B1, B2, B3, B4. intros Hall Ho.
  assert (p_overflow p1 = false) as Ho1 by (apply (place_all_flag (S i) fs p1 out1); by rewrite Hall).
  destruct (place_ok i f facts p out p1 out1 Hp Hf) as (Hop & Hp1 & Hal & Hfree & Hoff & Hpl); [lia|lia|done|done|].
  destruct (IH (S i) p1 out1) as (_ & Hp' & Hal' & Hoffs & Hin); [done|done|lia|lia|done|done|].
  destruct (place_all_but (S i) fs p1 out1) as (K1 & K2 & _). rewrite Hall in K1, K2. cbn [snd] in K1, K2.
  split; [done|]. split; [done|]. split; [by etrans|]. split.
  { intros j Hj. destruct (decide (j = i)) as [->|]; [by rewrite K1 by lia|apply Hoffs; lia]. }
  destruct (is_unit_break f); [by eapply in_order_mono|].
  specialize (Hpl eq_refl).
  assert (first_bit f i out' = first_bit f i out1) as E1 by (unfold first_bit; rewrite K1, K2 by lia; done).
  assert (last_bit f i facts out' = last_bit f i facts out1) as E2 by (unfold last_bit; by rewrite E1).
  split; [|eapply in_order_mono; [|exact Hin]; rewrite E2; apply Hpl].
  destruct Hpl. split; rewrite ?E1, ?E2, ?K1 by lia; try done. by etrans.
Qed.

(** *** Reading [in_order] by index *)

Lemma last_after_first f facts i out : facts_ok f facts -> first_bit f i out <= last_bit f i facts out.
Proof. intros []. unfold last_bit. destruct (Z.eqb_spec (f_bits f) 0); lia. Qed.

Lemma in_order_le i fs lo hi align out :
  Forall (fun x => facts_ok x.1 x.2) fs -> in_order i fs lo hi align out -> lo <= hi.
Proof.
  intros Hf. revert i lo. induction Hf as [|[f facts] fs Hf _ IH]; intros i lo; cbn [in_order]; [done|].
  destruct (is_unit_break f); [apply IH|]. intros [[] H]. apply IH in H.
  pose proof (last_after_first f facts i out Hf). lia.
Qed.

Lemma in_order_lookup i fs lo hi align out j f facts :
  Forall (fun x => facts_ok x.1 x.2) fs -> in_order i fs lo hi align out ->
  fs !! j = Some (f, facts) -> is_unit_break f = false -> placed f facts (i + j) lo hi align out.
Proof.
  intros Hf. revert i lo j. induction Hf as [|[g gfacts] fs Hg Hfs IH]; intros i lo j; cbn [in_order]; [done|].
  intros H Hj Hb. destruct j as [|j].
  - injection Hj as -> ->. rewrite Hb in H. rewrite Nat.add_0_r. destruct H as [[] H].
    apply in_order_le in H; [|done]. by split.
  - rewrite <- Nat.add_succ_comm. destruct (is_unit_break g); [by apply IH|]. destruct H as [Hp H].
    pose proof (last_after_first g gfacts i out Hg). destruct (IH _ _ _ H Hj Hb). destruct Hp.
    split; try done. lia.
Qed.

Lemma in_order_pair i fs lo hi align out j k f ffacts g gfacts :
  Forall (fun x => facts_ok x.1 x.2) fs -> in_order i fs lo hi align out -> (j < k)%nat ->
  fs !! j = Some (f, ffacts) -> is_unit_break f = false ->
  fs !! k = Some (g, gfacts) -> is_unit_break g = false ->
  last_bit f (i + j) ffacts out <= first_bit g (i + k) out.
Proof.
  intros Hf. revert i lo j k. induction Hf as [|[h hfacts] fs Hh Hfs IH]; intros i lo j k; cbn [in_order]; [done|].
  intros H Hjk Hj Bf Hk Bg. destruct k as [|k]; [lia|]. rewrite <- (Nat.add_succ_comm i k). destruct j as [|j].
  - injection Hj as -> ->. rewrite Bf in H. rewrite Nat.add_0_r. destruct H as [_ H].
    apply (in_order_lookup _ _ _ _ _ _ _ _ _ Hfs H Hk Bg).
  - rewrite <- (Nat.add_succ_comm i j).
    destruct (is_unit_break h); [|destruct H as [_ H]]; eapply IH; done || lia.
Qed.

(** ** The end of the aggregate *)

Lemma pow2_divide_mod x a : 0 < a -> x mod a = 0 -> (a | x).
Proof. intros. by apply Z.mod_divide; [lia|]. Qed.

(** The alignment raised to the power of two [n], unless it is less. *)
Lemma raise_align n align a' :
  is_pow2 align -> n = 0 \/ is_pow2 n ->
  (if negb (n =? 0) && (n <? align) then None else Some (if n >? align then n else align)) = Some a' ->
  is_pow2 a' /\ (align | a').
Proof.
  intros Ha Hn. rewrite Z.gtb_ltb. destruct (negb _ && _) eqn:C; [done|]. intros [= <-].
  destruct (Z.ltb_spec align n) as [Hlt|]; [|split; [done|apply Z.divide_refl]].
  pose proof (is_pow2_pos _ Ha). destruct Hn as [->|Hn]; [lia|]. split; [done|]. apply is_pow2_divide; done || lia.
Qed.

Lemma final_size_ok bit align ov size :
  0 <= bit -> is_pow2 align -> round_up (whole_bytes bit) align ov = (size, false) -> size <= UINT64_MAX / 8 ->
  ov = false /\ 0 <= size /\ (align | size) /\ bit <= 8 * size /\ 8 * size <= UINT64_MAX.
Proof.
  intros Hb Ha E Hs. pose proof (whole_bytes_spec bit Hb). pose proof (is_pow2_pos _ Ha).
  apply round_up_spec in E as (-> & ? & ? & _); [|lia|lia]. split; [done|]. split; [lia|].
  split; [by apply pow2_divide_mod; [lia|]|]. split; [lia|]. Z.div_mod_to_equations; lia.
Qed.
End Place.

(** ** Unions *)

Section Union.
Context (msvc aapcs64 : bool) (t : ir_aggtype).
Hypothesis Hunion : is_union t = true.

Record union_placing (p : placing) : Prop := {
  up_bit : 0 <= p_bit p <= UINT64_MAX;
  up_align : is_pow2 (p_align p);
  up_unit : p_unit_size p = 0;
}.

(** The fields from [i] on start at 0 and end by the bit [hi]. *)
Fixpoint at_zero (i : nat) (fs : list (ir_field * field_facts)) (hi align : Z) (out : layout) : Prop :=
  match fs with
  | [] => True
  | (f, facts) :: fs =>
      (is_unit_break f = false ->
        default 0 (l_offsets out !! i) = 0 /\ lb_pos (default zero_bits (l_bits out !! i)) = 0 /\
        last_bit f i facts out <= hi /\ (field_align t f facts | align)) /\
      at_zero (S i) fs hi align out
  end.

Lemma place_union_ok i f facts p out p' out' :
  union_placing p -> facts_ok f facts -> (i < length (l_offsets out))%nat ->
  lb_pos (default zero_bits (l_bits out !! i)) = 0 ->
  place msvc aapcs64 t i f facts p out = (p', out') -> p_overflow p' = false ->
  union_placing p' /\ (p_align p | p_align p') /\ p_bit p <= p_bit p' /\ l_bits out' = l_bits out /\
  in_width 64 (default 0 (l_offsets out' !! i)) /\
  (is_unit_break f = false ->
    default 0 (l_offsets out' !! i) = 0 /\ lb_pos (default zero_bits (l_bits out' !! i)) = 0 /\
    last_bit f i facts out' <= p_bit p' /\ (field_align t f facts | p_align p')).
Proof.
  intros [U1 U2 U3] Hf Hi Hz. unfold place. fold (field_shared f facts). fold (field_align t f facts).
  pose proof (fo_size _ _ Hf) as Hs. pose proof (is_pow2_pos _ (fo_align _ _ Hf)) as Ha.
  destruct (mul_size (ff_size facts) 8 _) as [sb ov1] eqn:E1.
  destruct (mul_size (ff_align facts) 8 ov1) as [nb ov2] eqn:E2.
  destruct (is_unit_break f) eqn:Hb.
  - intros [= <- <-] Hov. pose proof (place_break_flag _ _ _ _ _ _ Hov) as Ho2. cbn in Ho2. subst ov2.
    apply mul_size_spec in E2 as (-> & -> & _); [|lia..].
    destruct (zmax_pow2 (ff_align facts) (p_align p)) as (Y1 & Y2 & Y3); [apply Hf|done|].
    assert (forall b, 0 <= b <= UINT64_MAX -> in_width 64 (default 0 (<[i := b / 8]> (l_offsets out) !! i))) as Hw.
    { intros b Hb'. rewrite list_lookup_insert_eq by done. cbn [default from_option]. unfold id.
      split; pow2s; Z.div_mod_to_equations; lia. }
    revert Hov. unfold place_break. cbn [p_unit_size p_bit p_overflow p_align p_unit_start p_unit_used].
    rewrite U3. cbn [Z.eqb negb]. destruct msvc; cbn [negb].
    { intros _. cbn. split_and!; try done; apply Z.divide_refl || lia || by apply Hw. }
    destruct (round_up _ _ _) as [b o] eqn:E. cbn. intros ->.
    apply round_up_spec in E as (_ & ? & _ & ?); [|lia..]. fold (zmax (ff_align facts) (p_align p)).
    destruct aapcs64; cbn [andb]; unfold zmax in *; split_and!; try done; try apply Z.divide_refl; try lia;
      try (apply Hw; lia); split; cbn; done || lia.
  - rewrite Hunion. cbn [place_value]. intros [= <- <-]. cbn [p_overflow]. intros ->.
    apply mul_size_spec in E2 as (-> & -> & _); [|lia..]. apply mul_size_spec in E1 as (_ & -> & Hsb); [|lia..].
    pose proof (field_align_pow2 t f facts Hf) as Hfa.
    destruct (zmax_pow2 (field_align t f facts) (p_align p)) as (Z1 & Z2 & Z3); [done..|].
    match goal with |- context [if ?o then set_marks true ?s ?x else ?y] =>
      set (fin := if o then set_marks true s x else y) end.
    assert (l_offsets fin = <[i := 0]> (l_offsets out) /\ l_bits fin = l_bits out) as [F1 F2]
      by (unfold fin; case_match; done).
    clearbody fin. cbn [p_bit p_align p_unit_size]. pose proof (fo_bitfield _ _ Hf Hb) as Hw.
    assert ((if (f_bits f =? 0) || msvc then ff_size facts * 8 else f_bits f) <= ff_size facts * 8) as Hend.
    { destruct (Z.eqb_spec (f_bits f) 0) as [|Hne]; cbn [orb]; [lia|]. specialize (Hw Hne). destruct msvc; lia. }
    split; [split; cbn; [rewrite zmax_spec; lia|done|done]|].
    split; [done|]. split; [rewrite zmax_spec; lia|]. split; [done|].
    rewrite F1, F2, list_lookup_insert_eq by done. split; [done|]. intros _. split; [done|]. split; [done|]. split; [|done].
    unfold last_bit, first_bit. rewrite F1, F2, list_lookup_insert_eq by done. cbn [default from_option].
    rewrite Hz, zmax_spec. unfold id.
    destruct (Z.eqb_spec (f_bits f) 0) as [|Hne]; cbn [orb]; [lia|].
    specialize (Hw Hne). destruct msvc; lia.
Qed.

Lemma at_zero_widen i fs hi hi' align align' out :
  hi <= hi' -> (align | align') -> at_zero i fs hi align out -> at_zero i fs hi' align' out.
Proof.
  intros Hhi Hal. revert i. induction fs as [|[f facts] fs IH]; intros i; cbn [at_zero]; [done|].
  intros [H1 H2]. split; [|by apply IH]. intros Hb. destruct (H1 Hb) as (? & ? & ? & ?).
  split_and!; [done|done|lia|by etrans].
Qed.

Lemma at_zero_agree i fs hi align out out' :
  l_offsets out' = l_offsets out ->
  (forall j, lb_pos (default zero_bits (l_bits out' !! j)) = lb_pos (default zero_bits (l_bits out !! j))) ->
  at_zero i fs hi align out -> at_zero i fs hi align out'.
Proof.
  intros H1 H2. revert i. induction fs as [|[f facts] fs IH]; intros i; cbn [at_zero]; [done|].
  intros [H3 H4]. split; [|by apply IH]. unfold last_bit, first_bit in *. by rewrite H1, H2.
Qed.

Lemma place_all_union_ok i fs p out p' out' :
  union_placing p -> Forall (fun x => facts_ok x.1 x.2) fs ->
  (i + length fs <= length (l_offsets out))%nat ->
  (forall j, lb_pos (default zero_bits (l_bits out !! j)) = 0) ->
  place_all msvc aapcs64 t i fs p out = (p', out') -> p_overflow p' = false ->
  union_placing p' /\ (p_align p | p_align p') /\ p_bit p <= p_bit p' /\ l_bits out' = l_bits out /\
  (forall j, (i <= j < i + length fs)%nat -> in_width 64 (default 0 (l_offsets out' !! j))) /\
  at_zero i fs (p_bit p') (p_align p') out'.
Proof.
  revert i p out. induction fs as [|[f facts] fs IH]; intros i p out Hp.
  { intros _ _ _ [= <- <-] Ho. cbn [at_zero]. split_and!; done || apply Z.divide_refl || (cbn; lia). }
  intros [Hf Hfs]%Forall_cons_1. cbn [length place_all at_zero]. intros L1 Hz.
  pose proof (place_but_field msvc aapcs64 t i f facts p out) as [B1 B2 B3 B4].
  destruct (place _ _ _ _ _ _ _ _) as [p1 out1] eqn:E. cbn in B1, B2, B3, B4. intros Hall Ho.
  assert (p_overflow p1 = false) as Ho1
    by (apply (place_all_flag msvc aapcs64 t (S i) fs p1 out1); by rewrite Hall).
  destruct (place_union_ok i f facts p out p1 out1 Hp Hf) as (Hp1 & Hal & Hle & Hbits & Hoff & Hpl); [lia|done..|].
  destruct (IH (S i) p1 out1) as (Hp' & Hal' & Hle' & Hbits' & Hoffs & Hin); [done|done|lia|by rewrite Hbits|done|done|].
  destruct (place_all_but msvc aapcs64 t (S i) fs p1 out1) as (K1 & K2 & _). rewrite Hall in K1, K2. cbn [snd] in K1, K2.
  split; [done|]. split; [by etrans|]. split; [lia|]. split; [congruence|]. split.
  { intros j Hj. destruct (decide (j = i)) as [->|]; [by rewrite K1 by lia|apply Hoffs; lia]. }
  split; [|done]. intros Hb. destruct (Hpl Hb) as (H1 & H2 & H3 & H4).
  unfold last_bit, first_bit in *. rewrite Hbits', K1 by lia. split_and!; [done|done|lia|by etrans].
Qed.
Lemma at_zero_lookup i fs hi al (lo : layout) j f facts :
  at_zero i fs hi al lo -> fs !! j = Some (f, facts) -> is_unit_break f = false ->
  default 0 (l_offsets lo !! (i + j)%nat) = 0 /\ lb_pos (default zero_bits (l_bits lo !! (i + j)%nat)) = 0 /\
  last_bit f (i + j) facts lo <= hi /\ (field_align t f facts | al).
Proof.
  revert i j. induction fs as [|[g gfacts] fs IH]; intros i j; cbn [at_zero]; [done|].
  intros [H1 H2] Hj Hb. destruct j as [|j].
  - injection Hj as -> ->. rewrite Nat.add_0_r. by apply H1.
  - rewrite <- Nat.add_succ_comm. by apply IH.
Qed.
End Union.

(** ** The lanes of a simd struct

    Fields of one scalar type follow each other with no padding. *)

Lemma place_lane msvc aapcs64 t i f facts p out p' out' :
  is_union t = false -> is_unit_break f = false -> f_bits f = 0 ->
  0 < ff_size facts -> ff_align facts = ff_size facts ->
  0 <= p_bit p -> p_bit p mod (8 * ff_size facts) = 0 ->
  place msvc aapcs64 t i f facts p out = (p', out') -> p_overflow p' = false ->
  p_bit p' = p_bit p + 8 * ff_size facts /\ p_align p' = zmax (field_align t f facts) (p_align p).
Proof.
  intros Hu Hb Hz Hs Ha Hp Hm. unfold place. fold (field_shared f facts). fold (field_align t f facts).
  destruct (mul_size (ff_size facts) 8 _) as [sb ov1]. destruct (mul_size (ff_align facts) 8 ov1) as [nb ov2].
  rewrite Hb, Hu, Hz. unfold place_value. cbn [Z.eqb p_bit p_overflow p_align].
  destruct (round_up _ _ _) as [o ov3] eqn:E1. destruct (add_size o _ _) as [last ov4] eqn:E2.
  destruct (mul_size last 8 ov4) as [bit ov5] eqn:E3. intros [= <- <-]. cbn. intros ->.
  assert (0 < field_align t f facts <= ff_size facts /\ (field_align t f facts | ff_size facts)) as [Hfa Hd].
  { unfold field_align. destruct (_ && _); [split; [lia|apply Z.divide_1_l]|]. rewrite Ha. split; [lia|apply Z.divide_refl]. }
  assert (whole_bytes (p_bit p) = ff_size facts * (p_bit p / (8 * ff_size facts))) as Hw.
  { assert (p_bit p = 8 * (ff_size facts * (p_bit p / (8 * ff_size facts)))) as Hq
      by (pose proof (Z.div_mod (p_bit p) (8 * ff_size facts) ltac:(lia)); lia).
    unfold whole_bytes. rewrite Hq at 1 2. rewrite (Z.mul_comm 8), Z.mod_mul, Z.div_mul by lia. cbn [Z.eqb]. lia. }
  pose proof (whole_bytes_spec (p_bit p) Hp) as Hwb.
  pose proof (round_up_nonneg _ _ _ _ _ E1 ltac:(lia) ltac:(lia)) as Ho.
  assert (0 <= last) by (unfold add_size in E2; destruct (_ >? _); injection E2 as <- <-; lia).
  apply mul_size_spec in E3 as (-> & -> & _); [|lia..]. apply add_size_spec in E2 as (-> & -> & _).
  apply round_up_spec in E1 as (_ & Hr & Hrm & _); [|lia..]. split; [|done].
  assert ((field_align t f facts | o - whole_bytes (p_bit p))) as Hd2.
  { apply Z.divide_sub_r; [by apply Z.mod_divide; [lia|]|]. rewrite Hw. by apply Z.divide_mul_l. }
  assert (o = whole_bytes (p_bit p)) as ->.
  { destruct Hd2 as [k Hk]. assert (k = 0) by nia. lia. }
  rewrite Hw at 1. pose proof (Z.div_mod (p_bit p) (8 * ff_size facts) ltac:(lia)). lia.
Qed.

Lemma place_all_lanes msvc aapcs64 t i fs p out p' out' size :
  is_union t = false -> 0 < size -> is_pow2 size ->
  Forall (fun x => is_unit_break x.1 = false /\ f_bits x.1 = 0 /\ ff_size x.2 = size /\ ff_align x.2 = size) fs ->
  0 <= p_bit p -> p_bit p mod (8 * size) = 0 -> is_pow2 (p_align p) -> p_align p <= size ->
  place_all msvc aapcs64 t i fs p out = (p', out') -> p_overflow p' = false ->
  p_bit p' = p_bit p + 8 * size * Z.of_nat (length fs) /\ p_align p' <= size.
Proof.
  intros Hu Hs Hpow. revert i p out. induction fs as [|[f facts] fs IH]; intros i p out.
  { intros _ _ _ _ ? [= <- <-] _. cbn. lia. }
  intros [(H1 & H2 & H3 & H4) Hfs]%Forall_cons_1 Hp Hm Hpa Hal. cbn [fst snd] in *. cbn [place_all length].
  destruct (place _ _ _ _ _ _ _ _) as [p1 out1] eqn:E. intros Hall Ho.
  assert (p_overflow p1 = false) as Ho1
    by (apply (place_all_flag msvc aapcs64 t (S i) fs p1 out1); by rewrite Hall).
  destruct (place_lane msvc aapcs64 t i f facts p out p1 out1) as [Hb1 Ha1];
    [done|done|done|by rewrite H3|by rewrite H3, H4|done|by rewrite H3|done|done|].
  assert (is_pow2 (field_align t f facts) /\ field_align t f facts <= size) as [Hfa Hfl].
  { unfold field_align. destruct (_ && _); [split; [apply is_pow2_1|lia]|]. rewrite H4. split; [done|lia]. }
  destruct (IH (S i) p1 out1) as [Hb2 Ha2]; [done|lia| | | |done|done|].
  - rewrite Hb1, H3, <- Z.add_mod_idemp_r, Z.mod_same, Z.add_0_r by lia. done.
  - rewrite Ha1. by apply zmax_pow2.
  - rewrite Ha1, zmax_spec. lia.
  - split; [|done]. rewrite Hb2, Hb1, H3. lia.
Qed.

(** ** The units of bitfields *)

Definition unit_bytes (type : ir_type) : Z :=
  match type with IR_I8 => 1 | IR_I16 => 2 | IR_I32 => 4 | _ => 8 end.

(** The unit of a bitfield lies in the aggregate, and the field in the unit. *)
Record unit_ok (size width : Z) (b : layout_bits) : Prop := {
  uo_start : 0 <= lb_unit_offset b;
  uo_end : lb_unit_offset b + unit_bytes (lb_unit_type b) <= size;
  uo_pos : lb_pos b = 8 * lb_unit_offset b + lb_shift b;
  uo_shift : 0 <= lb_shift b;
  uo_width : lb_shift b + width <= 8 * unit_bytes (lb_unit_type b);
  uo_type : lb_unit_type b ∈ [IR_I8; IR_I16; IR_I32; IR_I64];
}.

Lemma bit_unit_ok agg i width out out' :
  (i < length (l_bits out))%nat -> 0 < width ->
  0 <= lb_pos (default zero_bits (l_bits out !! i)) ->
  lb_pos (default zero_bits (l_bits out !! i)) + width <= 8 * l_size out ->
  bit_unit agg i width out = inl out' ->
  exists b, out' = set_bits i b out /\ lb_pos b = lb_pos (default zero_bits (l_bits out !! i)) /\
    unit_ok (l_size out) width b.
Proof.
  intros Hi Hw Hp Hend. unfold bit_unit. set (pos := lb_pos _) in *.
  set (need := (pos mod 8 + width + 7) / 8).
  assert (8 * need - 8 < pos mod 8 + width <= 8 * need) as Hneed by (subst need; Z.div_mod_to_equations; lia).
  clearbody need. rewrite !Z.gtb_ltb. destruct (Z.ltb_spec 8 need) as [|H8]; [done|].
  set (n := if need <=? 1 then 1 else _).
  assert (need <= n /\ (n = 1 \/ n = 2 \/ n = 4 \/ n = 8)) as [Hn Hn4].
  { subst n. destruct (Z.leb_spec need 1); [lia|]. destruct (Z.leb_spec need 2); [lia|].
    destruct (Z.leb_spec need 4); lia. }
  clearbody n. destruct (Z.ltb_spec (l_size out) n) as [|Hsz]; [done|].
  set (start := if l_size out <? pos / 8 + n then _ else _).
  assert (0 <= start /\ start + n <= l_size out /\ 8 * start <= pos /\ pos + width <= 8 * (start + n)) as (S1 & S2 & S3 & S4).
  { subst start. destruct (Z.ltb_spec (l_size out) (pos / 8 + n)); Z.div_mod_to_equations; lia. }
  clearbody start. intros [= <-]. eexists. split; [reflexivity|]. split; [done|].
  assert (unit_bytes (if n =? 1 then IR_I8 else if n =? 2 then IR_I16 else if n =? 4 then IR_I32 else IR_I64) = n) as Hu
    by (destruct Hn4 as [-> | [-> | [-> | ->]]]; done).
  assert (u8 (pos - start * 8) = pos - start * 8) as Hs by (apply wrap_small; split; pow2s; lia).
  split; cbn [lb_pos lb_unit_offset lb_unit_type lb_shift]; rewrite ?Hu, ?Hs; try lia.
  destruct Hn4 as [-> | [-> | [-> | ->]]]; set_solver.
Qed.
