(* ===== verification/LayoutRun.v ===== *)
(** * LayoutRun: the recursion of the layout

    [compute] and [layout_fold] of Layout.v call each other through the fields of
    an aggregate, the length of an array and the operands of a symbolic value. [wp]
    is the total correctness of a step of the monad: it ends and its result
    holds. Under the rules the checker keeps ([module_ok]) every step ends and
    keeps [inv]: each finished aggregate is laid out by the finished layouts of
    its fields, and each folded value by the values it names. *)

From S2P Require Import Prelude Arith Target Ir IrFold Layout LayoutPlace.

(** ** Total correctness of a step *)

Definition wp {A} (x : M A) (l : layouts) (Q : A -> layouts -> Prop) : Prop :=
  match x l with Some (a, l') => Q a l' | None => False end.

Arguments wp : simpl never.

Lemma wp_ret {A} (a : A) l (Q : A -> layouts -> Prop) : Q a l -> wp (mret a) l Q.
Proof. done. Qed.

Lemma wp_bind {A B} (x : M A) (f : A -> M B) l (Q : B -> layouts -> Prop) :
  wp x l (fun a l' => wp (f a) l' Q) -> wp (x ≫= f) l Q.
Proof. unfold wp, mbind, M_bind. by destruct (x l) as [[a l']|]. Qed.

Lemma wp_mono {A} (x : M A) l (P Q : A -> layouts -> Prop) :
  wp x l P -> (forall a l', P a l' -> Q a l') -> wp x l Q.
Proof. unfold wp. destruct (x l) as [[a l']|]; eauto. Qed.

Lemma wp_gets {A} (f : layouts -> A) l (Q : A -> layouts -> Prop) : Q (f l) l -> wp (gets f) l Q.
Proof. done. Qed.

Lemma wp_modify f l (Q : unit -> layouts -> Prop) : Q tt (f l) -> wp (modify f) l Q.
Proof. done. Qed.

Lemma wp_some {A} (x : M A) l (Q : A -> layouts -> Prop) :
  wp x l Q -> exists a l', x l = Some (a, l') /\ Q a l'.
Proof. unfold wp. destruct (x l) as [[a l']|]; [eauto|done]. Qed.

(** A loop with an invariant of the state and the value it carries. *)
Lemma wp_each {A B} (f : nat -> A -> B -> M B) (I : layouts -> Prop) i (xs : list A) b l :
  (forall i x b l, x ∈ xs -> I l -> wp (f i x b) l (fun _ => I)) -> I l -> wp (each f i xs b) l (fun _ => I).
Proof.
  revert i b l. induction xs as [|x xs IH]; intros i b l Hf HI; cbn [each]; [by apply wp_ret|].
  apply wp_bind. eapply wp_mono; [apply Hf; [left|done]|]. cbn. intros b' l' HI'. apply IH; [|done].
  intros. apply Hf; [by right|done].
Qed.

(** ** What the checker keeps *)

(** ** What a symbolic operation means *)

(** An operation on c_wchar, where the target's wchar_t is signed, is the signed form
    of the operation written; macOS and Linux on x86-64 have a signed wchar_t
    (docs/decisions.md). *)
Definition signed_forms : list (ir_op * ir_op) :=
  [(IR_UDIV, IR_SDIV); (IR_UREM, IR_SREM); (IR_SHR_U, IR_SHR_S); (IR_ZEXT, IR_SEXT); (IR_MULH_U, IR_MULH_S);
   (IR_ULT, IR_SLT); (IR_ULE, IR_SLE); (IR_UGT, IR_SGT); (IR_UGE, IR_SGE);
   (IR_ADD_SAT_U, IR_ADD_SAT_S); (IR_SUB_SAT_U, IR_SUB_SAT_S); (IR_MUL_SAT_U, IR_MUL_SAT_S)].

Definition has_signed_wchar (tg : target) : bool :=
  match tg with
  | TARGET_MACOS_ARM64 | TARGET_MACOS_X86_64 | TARGET_LINUX_X86_64 => true
  | TARGET_LINUX_ARM64 | TARGET_WINDOWS_X86_64 | TARGET_WINDOWS_ARM64 => false
  end.

(** What the operation [op] gives for operands of [n] bits and a result of [k] bits, over
    the integers; nothing where it has no result, as a division by zero. *)
Definition op_value (op : ir_op) (n k a b : Z) : option Z :=
  match op with
  | IR_NEG => Some (wrap k (- a))
  | IR_NOT => Some (wrap k (- a - 1))
  | IR_TRUNC | IR_ZEXT => Some (wrap k (wrap n a))
  | IR_SEXT => Some (wrap k (sint n a))
  | _ =>
      match meaning op n b (wrap n a) (wrap n b) (sint n a) (sint n b) with
      | IR_FOLDED z => Some (wrap k z)
      | _ => None
      end
  end.

(** The bits of an integer type; c_long and c_wchar are narrower on Windows. *)
Definition on_windows (tg : target) : bool :=
  match tg with TARGET_WINDOWS_X86_64 | TARGET_WINDOWS_ARM64 => true | _ => false end.

Definition type_width (tg : target) (type : ir_type) : Z :=
  match type with
  | IR_I8 => 8
  | IR_I16 => 16
  | IR_I32 => 32
  | IR_CLONG => if on_windows tg then 32 else 64
  | IR_CWCHAR => if on_windows tg then 16 else 32
  | IR_LOCK => if on_windows tg then 64 else 32
  | _ => 64
  end.

Section Run.
Context (m : ir_module) (tg : target) (rank : nat -> nat).

Notation agg_type := (agg_type m).
Notation n_aggs := (length (m_aggs m)).

Definition is_scalar (v : ir_vtype) : Prop := vt_type v <> IR_AGG.

(** An aggregate by value comes before its container in [rank]. *)
Definition inner (a : nat) (v : ir_vtype) : Prop :=
  vt_type v = IR_AGG -> (vt_agg v < n_aggs)%nat /\ (rank (vt_agg v) < rank a)%nat.

(** A bitfield is an integer of at most the width of its type, and [_] is the
    unit break alone. *)
Definition bits_ok (f : ir_field) : Prop :=
  0 <= f_bits f /\
  (f_bits f <> 0 -> is_scalar (f_type f) /\ f_bits f <= 8 * scalar_size tg (vt_type (f_type f))) /\
  (is_unit_break f = true -> f_bits f = 0).

(** The lanes of a simd struct: a power of two fields of one scalar type. *)
Definition lanes_ok (t : ir_aggtype) : Prop :=
  a_kind t = IR_AGG_STRUCT /\ a_align t = 0 /\
  exists type k, type <> IR_AGG /\ length (a_fields t) = (2 ^ k)%nat /\
    Forall (fun f => vt_type (f_type f) = type /\ f_bits f = 0 /\ is_unit_break f = false) (a_fields t).

Definition array_ok (t : ir_aggtype) : Prop :=
  a_align t = 0 /\ a_simd t = false /\ (exists e, a_fields t = [e]) /\ (a_length t < length (m_syms m))%nat.

Record agg_ok (a : nat) : Prop := {
  ao_rank : (rank a < n_aggs)%nat;
  ao_fields : Forall (fun f => inner a (f_type f) /\ bits_ok f) (a_fields (agg_type a));
  ao_align : a_align (agg_type a) = 0 \/ is_pow2 (a_align (agg_type a));
  ao_simd : a_simd (agg_type a) = true -> lanes_ok (agg_type a);
  ao_array : a_kind (agg_type a) = IR_AGG_ARRAY -> array_ok (agg_type a);
}.

Definition valid (v : ir_vtype) : Prop := vt_type v = IR_AGG -> (vt_agg v < n_aggs)%nat.

(** An operation on symbolic values comes after its operands. *)
Definition sym_ok (sym : nat) (s : ir_sym) : Prop :=
  match s_kind s with
  | IR_SYM_INT => in_width 64 (s_value s)
  | IR_SYM_SIZE_OF => valid (s_of s)
  | IR_SYM_OFFSET_OF => (vt_agg (s_of s) < n_aggs)%nat
  | IR_SYM_OP => (s_a s < sym)%nat /\ match s_b s with Some b => (b < sym)%nat | None => True end
  end.

Record module_ok : Prop := {
  mo_aggs : forall a, (a < n_aggs)%nat -> agg_ok a;
  mo_syms : forall sym s, m_syms m !! sym = Some s -> sym_ok sym s;
}.

(** ** The state *)

Definition st (l : layouts) (a : nat) : progress := default UNSEEN (ls_agg_state l !! a).
Definition lay (l : layouts) (a : nat) : layout := default zero_layout (ls_aggs l !! a).
Definition sym_st (l : layouts) (s : nat) : progress := default UNSEEN (ls_sym_state l !! s).
Definition value (l : layouts) (s : nat) : Z := default 0 (ls_values l !! s).

(** A layout but for its members, which come after it is finished. *)
Definition core (o : layout) : layout :=
  Layout (l_size o) (l_align o) (l_offsets o) (l_bits o) [] (l_unaligned o) (l_shared o) (l_vector o).

Definition settled (l : layouts) (v : ir_vtype) : Prop :=
  vt_type v = IR_AGG -> st l (vt_agg v) = DONE.

Definition size_of (l : layouts) (v : ir_vtype) : Z :=
  if bool_decide (vt_type v = IR_AGG) then l_size (lay l (vt_agg v)) else scalar_size tg (vt_type v).
Definition align_of (l : layouts) (v : ir_vtype) : Z :=
  if bool_decide (vt_type v = IR_AGG) then l_align (lay l (vt_agg v)) else scalar_size tg (vt_type v).
Definition facts_of (l : layouts) (v : ir_vtype) : field_facts :=
  if bool_decide (vt_type v = IR_AGG)
  then Facts (size_of l v) (align_of l v) (l_shared (lay l (vt_agg v))) (l_unaligned (lay l (vt_agg v)))
  else Facts (size_of l v) (align_of l v) false false.

Definition with_facts (l : layouts) (fs : list ir_field) : list (ir_field * field_facts) :=
  map (fun f => (f, facts_of l (f_type f))) fs.

(** ** What holds of a finished aggregate and of a folded value *)

Definition units_ok (t : ir_aggtype) (o : layout) : Prop :=
  forall i f, a_fields t !! i = Some f -> f_bits f <> 0 ->
    unit_ok (l_size o) (f_bits f) (default zero_bits (l_bits o !! i)).

Definition shape_ok (l : layouts) (t : ir_aggtype) (o : layout) : Prop :=
  match a_kind t with
  | IR_AGG_STRUCT => in_order t 0 (with_facts l (a_fields t)) 0 (8 * l_size o) (l_align o) o
  | IR_AGG_UNION => at_zero t 0 (with_facts l (a_fields t)) (8 * l_size o) (l_align o) o
  | IR_AGG_ARRAY =>
      exists e, a_fields t = [e] /\ sym_st l (a_length t) = DONE /\ 1 <= value l (a_length t) < 2 ^ 63 /\
        l_size o = value l (a_length t) * size_of l (f_type e) /\ l_align o = align_of l (f_type e)
  end.

Record sizes_ok (o : layout) : Prop := {
  so_align : is_pow2 (l_align o);
  so_size : 0 <= l_size o;
  so_multiple : (l_align o | l_size o);
  so_fits : 8 * l_size o <= UINT64_MAX;
  so_offsets : forall i, in_width 64 (default 0 (l_offsets o !! i));
}.

Record agg_good (l : layouts) (a : nat) : Prop := {
  ag_sizes : sizes_ok (lay l a);
  ag_settled : Forall (fun f => settled l (f_type f)) (a_fields (agg_type a));
  ag_shape : shape_ok l (agg_type a) (lay l a);
  ag_units : a_kind (agg_type a) <> IR_AGG_ARRAY -> units_ok (agg_type a) (lay l a);
}.

Definition operation (s : ir_sym) : ir_op :=
  if has_signed_wchar tg && (bool_decide (s_type s = IR_CWCHAR) || bool_decide (sym_type m (s_a s) = IR_CWCHAR))
  then foldr (fun form rest => if bool_decide (form.1 = s_op s) then form.2 else rest) (s_op s) signed_forms
  else s_op s.

(** The value [v] of [sym] by the layouts and the values of [l]. *)
Definition sym_good (l : layouts) (sym : nat) (v : Z) : Prop :=
  in_width 64 v /\ exists s, m_syms m !! sym = Some s /\
  match s_kind s with
  | IR_SYM_INT => v = s_value s
  | IR_SYM_SIZE_OF => settled l (s_of s) /\ v = size_of l (s_of s)
  | IR_SYM_OFFSET_OF =>
      st l (vt_agg (s_of s)) = DONE /\ v = default 0 (l_offsets (lay l (vt_agg (s_of s))) !! s_field s)
  | IR_SYM_OP =>
      sym_st l (s_a s) = DONE /\ (forall b, s_b s = Some b -> sym_st l b = DONE) /\
      op_value (operation s) (type_width tg (sym_type m (s_a s))) (type_width tg (s_type s)) (value l (s_a s))
        (match s_b s with Some b => value l b | None => 0 end) = Some v
  end.

Record inv (l : layouts) : Prop := {
  inv_aggs : length (ls_aggs l) = n_aggs;
  inv_states : length (ls_agg_state l) = n_aggs;
  inv_values : length (ls_values l) = length (m_syms m);
  inv_sym_states : length (ls_sym_state l) = length (m_syms m);
  inv_error : ls_failed l = true -> ls_error l <> None;
  inv_good : ls_failed l = false -> forall a, st l a = DONE -> agg_good l a;
  inv_sym : ls_failed l = false -> forall s, sym_st l s = DONE -> sym_good l s (value l s);
}.

(** What a step keeps of the state before it, but for the aggregate [e]. *)
Record keeps (e : option nat) (l l' : layouts) : Prop := {
  k_failed : ls_failed l = true -> ls_failed l' = true;
  k_unseen : forall a, st l' a = UNSEEN -> st l a = UNSEEN;
  k_done : forall a, st l a = DONE -> st l' a = DONE;
  k_busy : forall a, Some a <> e -> st l a = BUSY -> st l' a = BUSY;
  k_lay : ls_failed l' = false -> forall a, st l a = DONE -> core (lay l' a) = core (lay l a);
  k_lay_busy : ls_failed l' = false -> forall a, Some a <> e -> st l a = BUSY -> lay l' a = lay l a;
  k_sym : ls_failed l' = false -> forall s, sym_st l s = DONE -> sym_st l' s = DONE /\ value l' s = value l s;
}.

(** ** Stability *)

Record same (l l' : layouts) : Prop := {
  sm_agg : forall a, st l a = DONE -> st l' a = DONE /\ core (lay l' a) = core (lay l a);
  sm_sym : forall s, sym_st l s = DONE -> sym_st l' s = DONE /\ value l' s = value l s;
}.

Lemma keeps_same e l l' : keeps e l l' -> ls_failed l' = false -> same l l'.
Proof. intros [] Hf. split; eauto. Qed.

Lemma same_fields l l' v :
  same l l' -> settled l v ->
  settled l' v /\ size_of l' v = size_of l v /\ align_of l' v = align_of l v /\ facts_of l' v = facts_of l v.
Proof.
  intros [Ha _] Hs. unfold settled, facts_of, size_of, align_of in *. case_bool_decide as Hv; [|done].
  specialize (Hs Hv). destruct (Ha _ Hs) as [Hd [= -> -> _ _ -> -> _]]. done.
Qed.

Lemma same_with_facts l l' fs :
  same l l' -> Forall (fun f => settled l (f_type f)) fs -> with_facts l' fs = with_facts l fs.
Proof.
  intros Hs. induction 1 as [|f fs Hf _ IH]; [done|]. cbn [with_facts map]. f_equal; [|done].
  by destruct (same_fields l l' (f_type f)) as (_ & _ & _ & ->).
Qed.

(** The shape by other layouts, and of another layout of the same fields. *)
Lemma shape_same l l' t o o' :
  same l l' -> Forall (fun f => settled l (f_type f)) (a_fields t) ->
  l_size o' = l_size o -> l_align o' = l_align o -> l_offsets o' = l_offsets o ->
  (forall j, lb_pos (default zero_bits (l_bits o' !! j)) = lb_pos (default zero_bits (l_bits o !! j))) ->
  shape_ok l t o -> shape_ok l' t o'.
Proof.
  intros Hs Hset E1 E2 E3 E4. unfold shape_ok. destruct (a_kind _).
  - rewrite (same_with_facts l l'), E1, E2 by done. by apply in_order_agree.
  - rewrite (same_with_facts l l'), E1, E2 by done. by apply at_zero_agree.
  - intros (e & He & Hd & Hr & Hz & Hal). exists e. rewrite He in Hset |- *.
    apply Forall_cons_1 in Hset as [Hset _]. destruct (same_fields l l' (f_type e) Hs Hset) as (_ & -> & -> & _).
    destruct (sm_sym _ _ Hs _ Hd) as [-> ->]. by rewrite E1, E2.
Qed.

Lemma agg_good_same l l' a : same l l' -> core (lay l' a) = core (lay l a) -> agg_good l a -> agg_good l' a.
Proof.
  intros Hs [= E1 E2 E3 E4 E5 E6 E7] [[] Hset Hsh Hun]. split.
  - split; rewrite ?E1, ?E2, ?E3; done.
  - eapply Forall_impl; [exact Hset|]. cbn. intros f Hf. by apply (same_fields l l').
  - eapply shape_same; try done. by rewrite E4.
  - unfold units_ok. by rewrite E1, E4.
Qed.

Lemma sym_good_same l l' sym v : same l l' -> sym_good l sym v -> sym_good l' sym v.
Proof.
  intros Hs (Hw & s & Hl & H). split; [done|]. exists s. split; [done|]. destruct (s_kind s); [done| | |].
  - destruct H as [H1 ->]. destruct (same_fields l l' _ Hs H1) as (? & <- & _). done.
  - destruct H as [H1 ->]. destruct (sm_agg _ _ Hs _ H1) as [? [= _ _ -> _ _ _ _]]. done.
  - destruct H as (H1 & H2 & H3). destruct (sm_sym _ _ Hs _ H1) as [? ->]. split; [done|].
    destruct (s_b s) as [b|]; [|split; [done|exact H3]].
    destruct (sm_sym _ _ Hs _ (H2 b eq_refl)) as [? ->]. split; [by intros ? [= <-]|done].
Qed.

(** The layouts and the values named determine the value. *)
Lemma sym_good_unique l sym v v' : sym_good l sym v -> sym_good l sym v' -> v = v'.
Proof.
  intros (_ & s & Hl & H) (_ & s' & Hl' & H'). rewrite Hl in Hl'. injection Hl' as <-. destruct (s_kind s).
  - congruence.
  - by destruct H as [_ ->], H' as [_ ->].
  - by destruct H as [_ ->], H' as [_ ->].
  - destruct H as (_ & _ & H), H' as (_ & _ & H'). rewrite H in H'. by injection H'.
Qed.

Lemma keeps_refl e l : keeps e l l.
Proof. split; auto. Qed.

Lemma keeps_trans e l1 l2 l3 : keeps e l1 l2 -> keeps e l2 l3 -> keeps e l1 l3.
Proof.
  intros H1 H2. destruct (ls_failed l3) eqn:F3.
  { split; try congruence; intros.
    - eapply (k_unseen _ _ _ H1), (k_unseen _ _ _ H2); done.
    - eapply (k_done _ _ _ H2), (k_done _ _ _ H1); done.
    - eapply (k_busy _ _ _ H2), (k_busy _ _ _ H1); done. }
  assert (ls_failed l2 = false) as F2
    by (destruct (ls_failed l2) eqn:E; [by rewrite (k_failed _ _ _ H2 E) in F3|done]).
  split; intros.
  - by apply (k_failed _ _ _ H2), (k_failed _ _ _ H1).
  - by apply (k_unseen _ _ _ H1), (k_unseen _ _ _ H2).
  - by apply (k_done _ _ _ H2), (k_done _ _ _ H1).
  - by apply (k_busy _ _ _ H2), (k_busy _ _ _ H1).
  - rewrite (k_lay _ _ _ H2 F3) by (by apply (k_done _ _ _ H1)). by apply (k_lay _ _ _ H1).
  - rewrite (k_lay_busy _ _ _ H2 F3) by (done || by apply (k_busy _ _ _ H1)). by apply (k_lay_busy _ _ _ H1).
  - destruct (k_sym _ _ _ H1 F2 s) as [? <-]; [done|]. by apply (k_sym _ _ _ H2).
Qed.

Lemma keeps_weaken e l l' : keeps None l l' -> keeps e l l'.
Proof. intros []. split; auto. Qed.

(** A step on an aggregate that was not seen before keeps everything. *)
Lemma keeps_unseen a l l' : st l a = UNSEEN -> keeps (Some a) l l' -> keeps None l l'.
Proof. intros Hu []. split; eauto; intros; [apply k_busy0|apply k_lay_busy0]; congruence. Qed.

(** Aggregates not seen yet, the measure of the recursion. *)
Definition unseen (l : layouts) : nat :=
  length (filter (fun s => s = UNSEEN) (ls_agg_state l)).

Lemma unseen_le_list (xs ys : list progress) :
  length xs = length ys -> (forall i, default UNSEEN (ys !! i) = UNSEEN -> default UNSEEN (xs !! i) = UNSEEN) ->
  (length (filter (fun s => s = UNSEEN) ys) <= length (filter (fun s => s = UNSEEN) xs))%nat.
Proof.
  revert ys. induction xs as [|x xs IH]; intros [|y ys] Hlen H; try done.
  injection Hlen as Hlen. specialize (IH ys Hlen (fun i => H (S i))). specialize (H 0%nat). cbn in H.
  rewrite !filter_cons. destruct (decide (y = UNSEEN)) as [Hy|Hy]; [|destruct (decide _); cbn [length]; lia].
  rewrite (decide_True _ _ (H Hy)). cbn [length]. lia.
Qed.

Lemma unseen_keeps e l l' : inv l -> inv l' -> keeps e l l' -> (unseen l' <= unseen l)%nat.
Proof.
  intros H1 H2 Hk. apply unseen_le_list; [by rewrite (inv_states _ H1), (inv_states _ H2)|].
  exact (k_unseen _ _ _ Hk).
Qed.

Lemma unseen_insert_list (xs : list progress) a :
  (a < length xs)%nat -> default UNSEEN (xs !! a) = UNSEEN ->
  length (filter (fun s => s = UNSEEN) xs) = S (length (filter (fun s => s = UNSEEN) (<[a := BUSY]> xs))).
Proof.
  revert a. induction xs as [|x xs IH]; intros [|a] Ha H; cbn in Ha; try lia.
  - cbn in H. unfold id in H. subst x. done.
  - cbn in H. cbn [insert list_insert]. rewrite !filter_cons.
    destruct (decide (x = UNSEEN)); cbn [length]; rewrite (IH a) by (done || lia); done.
Qed.

(** ** The steps on the state *)

Lemma default_insert {A} (d x : A) (xs : list A) i j :
  (i < length xs)%nat ->
  default d (<[i := x]> xs !! j) = if decide (i = j) then x else default d (xs !! j).
Proof.
  intros Hi. destruct (decide (i = j)) as [<-|Hne]; [by rewrite list_lookup_insert_eq|].
  by rewrite list_lookup_insert_ne.
Qed.

Lemma default_alter {A} (d : A) (f : A -> A) (xs : list A) i j :
  (i < length xs)%nat ->
  default d (alter f i xs !! j) = if decide (i = j) then f (default d (xs !! i)) else default d (xs !! j).
Proof.
  intros Hi. destruct (lookup_lt_is_Some_2 xs i Hi) as [x Hx].
  destruct (decide (i = j)) as [<-|Hne]; [by rewrite list_lookup_alter_eq, Hx|].
  by rewrite list_lookup_alter_ne.
Qed.

Lemma wp_fail e x l (Q : unit -> layouts -> Prop) :
  inv l -> (forall l', inv l' -> keeps x l l' -> ls_failed l' = true -> st l' = st l -> Q tt l') ->
  wp (fail e) l Q.
Proof.
  intros Hi HQ. unfold fail. apply wp_modify. destruct (ls_failed l) eqn:Hf.
  - apply HQ; done || apply keeps_refl.
  - apply HQ; try done; split; try apply Hi; done.
Qed.

(** A change of the state that touches only [agg], which is not finished. *)
Lemma touch agg l l' :
  inv l -> (agg < n_aggs)%nat -> st l agg <> DONE ->
  length (ls_aggs l') = n_aggs -> length (ls_agg_state l') = n_aggs ->
  ls_values l' = ls_values l -> ls_sym_state l' = ls_sym_state l ->
  ls_failed l' = ls_failed l -> ls_error l' = ls_error l ->
  (forall a, a <> agg -> st l' a = st l a /\ lay l' a = lay l a) ->
  (st l' agg = UNSEEN -> st l agg = UNSEEN) ->
  (ls_failed l = false -> st l' agg = DONE -> agg_good l' agg) ->
  inv l' /\ keeps (Some agg) l l'.
Proof.
  intros Hi Hagg Hnd L1 L2 E1 E2 E3 E4 Hother Hun Hgood.
  assert (same l l') as Hs.
  { split; [|intros s Hd; unfold sym_st, value in *; by rewrite E1, E2].
    intros a Hd. destruct (decide (a = agg)) as [->|Hne]; [done|]. by destruct (Hother a Hne) as [-> ->]. }
  split; split; try done; try (by rewrite E1 || by rewrite E2).
  - rewrite E1. apply Hi.
  - rewrite E2. apply Hi.
  - rewrite E3, E4. apply Hi.
  - rewrite E3. intros Hf a Hd. destruct (decide (a = agg)) as [->|Hne]; [by apply Hgood|].
    destruct (Hother a Hne) as [Hst Hlay]. rewrite Hst in Hd. eapply agg_good_same; [done|by rewrite Hlay|].
    by apply (inv_good _ Hi).
  - rewrite E3. intros Hf s Hd. unfold sym_st, value in *. rewrite E1. rewrite E2 in Hd.
    eapply sym_good_same; [done|]. by apply (inv_sym _ Hi).
  - by rewrite E3.
  - intros a Hu. destruct (decide (a = agg)) as [->|Hne]; [by apply Hun|]. by destruct (Hother a Hne) as [<- _].
  - intros a Hd. by apply (sm_agg _ _ Hs).
  - intros a Hne Hb. destruct (Hother a) as [-> _]; congruence.
  - intros _ a Hd. by apply (sm_agg _ _ Hs).
  - intros _ a Hne Hb. destruct (Hother a) as [_ ->]; congruence.
  - intros _ s Hd. by apply (sm_sym _ _ Hs).
Qed.

Lemma wp_update agg f l (Q : unit -> layouts -> Prop) :
  inv l -> (agg < n_aggs)%nat -> st l agg <> DONE ->
  (forall l', inv l' -> keeps (Some agg) l l' -> st l' = st l -> ls_failed l' = ls_failed l ->
    lay l' agg = f (lay l agg) -> Q tt l') ->
  wp (update_layout agg f) l Q.
Proof.
  intros Hi Ha Hnd HQ. unfold update_layout. apply wp_modify.
  assert (agg < length (ls_aggs l))%nat as Ha' by (by rewrite (inv_aggs _ Hi)).
  set (l' := Layouts _ _ _ _ _ _).
  assert (lay l' agg = f (lay l agg)) as Hl by (unfold lay; cbn; by rewrite default_alter, decide_True).
  destruct (touch agg l l') as [H1 H2]; try done; [cbn; rewrite length_alter; apply Hi|apply Hi| |by apply HQ].
  intros a Hne. split; [done|]. unfold lay. cbn. by rewrite default_alter, decide_False.
Qed.

Lemma wp_mark agg s l (Q : unit -> layouts -> Prop) :
  inv l -> (agg < n_aggs)%nat -> st l agg <> DONE -> s <> UNSEEN ->
  (ls_failed l = false -> s = DONE -> agg_good l agg) ->
  (forall l', inv l' -> keeps (Some agg) l l' -> st l' agg = s -> ls_failed l' = ls_failed l ->
    lay l' = lay l -> (st l agg = UNSEEN -> s = BUSY -> unseen l = S (unseen l')) -> Q tt l') ->
  wp (set_agg_state agg s) l Q.
Proof.
  intros Hi Ha Hnd Hs Hgood HQ. unfold set_agg_state. apply wp_modify.
  assert (agg < length (ls_agg_state l))%nat as Ha' by (by rewrite (inv_states _ Hi)).
  set (l' := Layouts _ _ _ _ _ _).
  assert (forall a, st l' a = if decide (agg = a) then s else st l a) as Hst
    by (intros a; unfold st; cbn; by rewrite default_insert).
  assert (same l l') as Hsame.
  { split; [|done]. intros a Hd. rewrite Hst. destruct (decide _) as [->|]; done. }
  destruct (touch agg l l') as [H1 H2]; try done.
  - apply Hi.
  - cbn. rewrite length_insert. apply Hi.
  - intros a Hne. rewrite Hst, decide_False by done. done.
  - by rewrite Hst, decide_True.
  - rewrite Hst, decide_True by done. intros Hf Hd. eapply agg_good_same; [exact Hsame|done|by apply Hgood].
  - apply HQ; try done; [by rewrite Hst, decide_True|]. intros Hu ->. by apply unseen_insert_list.
Qed.

Lemma wp_update_core agg f l (Q : unit -> layouts -> Prop) :
  inv l -> (agg < n_aggs)%nat -> st l agg = DONE -> (forall o, core (f o) = core o) ->
  (forall l', inv l' -> keeps None l l' -> st l' = st l -> ls_failed l' = ls_failed l -> Q tt l') ->
  wp (update_layout agg f) l Q.
Proof.
  intros Hi Ha Hd Hf HQ. unfold update_layout. apply wp_modify.
  assert (agg < length (ls_aggs l))%nat as Ha' by (by rewrite (inv_aggs _ Hi)).
  set (l' := Layouts _ _ _ _ _ _).
  assert (forall a, lay l' a = if decide (agg = a) then f (lay l agg) else lay l a) as Hlay
    by (intros a; unfold lay; cbn; by rewrite default_alter).
  assert (forall a, core (lay l' a) = core (lay l a)) as Hcore
    by (intros a; rewrite Hlay; destruct (decide _) as [->|]; auto).
  assert (same l l') as Hs by (split; auto).
  apply HQ; try done; split; try done; try apply Hi.
  - cbn. rewrite length_alter. apply Hi.
  - intros Hfl a Hda. eapply agg_good_same; [done|apply Hcore|by apply (inv_good _ Hi)].
  - intros Hfl s Hds. eapply sym_good_same; [done|by apply (inv_sym _ Hi)].
  - intros _ a _ Hb. rewrite Hlay, decide_False; [done|]. intros <-. congruence.
Qed.

Lemma wp_set_value sym v l (Q : unit -> layouts -> Prop) :
  inv l -> ls_failed l = false -> sym_good l sym v ->
  (forall l', inv l' -> keeps None l l' -> sym_st l' sym = DONE -> value l' sym = v -> ls_failed l' = false -> Q tt l') ->
  wp (set_value sym v) l Q.
Proof.
  intros Hi Hf Hg HQ. unfold set_value. apply wp_modify.
  assert (sym < length (m_syms m))%nat as Hlt by (destruct Hg as (_ & s & Hs & _); by apply lookup_lt_Some in Hs).
  set (l' := Layouts _ _ _ _ _ _).
  assert (forall s, sym_st l' s = if decide (sym = s) then DONE else sym_st l s) as Hst
    by (intros s; unfold sym_st; cbn; rewrite default_insert; [done|by rewrite (inv_sym_states _ Hi)]).
  assert (forall s, value l' s = if decide (sym = s) then v else value l s) as Hv
    by (intros s; unfold value; cbn; rewrite default_insert; [done|by rewrite (inv_values _ Hi)]).
  assert (same l l') as Hs.
  { split; [auto|]. intros s Hd. rewrite Hst, Hv. destruct (decide _) as [->|]; [|done]. split; [done|].
    eapply sym_good_unique; [exact Hg|by apply (inv_sym _ Hi)]. }
  apply HQ; try done; [| |by rewrite Hst, decide_True|by rewrite Hv, decide_True].
  - split; try apply Hi; try (cbn; rewrite length_insert; apply Hi).
    + intros _ a Hd. eapply agg_good_same; [done|done|by apply (inv_good _ Hi)].
    + intros _ s Hd. eapply sym_good_same; [done|]. rewrite Hst in Hd. rewrite Hv.
      destruct (decide _) as [->|]; [done|by apply (inv_sym _ Hi)].
  - split; try done. intros _ s. apply (sm_sym _ _ Hs).
Qed.

(** ** What the two functions promise to each other *)

Definition compute_spec (u : nat) (c : nat -> M unit) : Prop :=
  forall agg l, inv l -> (unseen l <= u)%nat -> (agg < n_aggs)%nat -> st l agg <> DONE ->
    wp (c agg) l (fun _ l' => inv l' /\ keeps None l l' /\ (ls_failed l' = false -> st l' agg = DONE)).

(** For the symbolic values below [k]. *)
Definition fold_spec (u k : nat) (g : nat -> M (option Z)) : Prop :=
  forall sym l, inv l -> (unseen l <= u)%nat -> (sym < k)%nat -> (sym < length (m_syms m))%nat ->
    wp (g sym) l (fun r l' => inv l' /\ keeps None l l' /\
      match r with
      | Some v => (ls_failed l = false -> ls_failed l' = false) /\
          (ls_failed l' = false -> sym_st l' sym = DONE /\ value l' sym = v)
      | None => ls_failed l' = true
      end).

(** The states that a step may reach from [l] with [u] aggregates unseen. *)
Record reach (u : nat) (l l' : layouts) : Prop := {
  r_inv : inv l';
  r_keeps : keeps None l l';
  r_unseen : (unseen l' <= u)%nat;
}.

Lemma reach_intro u l l' : inv l -> (unseen l <= u)%nat -> inv l' -> keeps None l l' -> reach u l l'.
Proof. intros H1 H2 H3 H4. split; [done|done|]. pose proof (unseen_keeps None l l' H1 H3 H4). lia. Qed.

Lemma reach_refl u l : inv l -> (unseen l <= u)%nat -> reach u l l.
Proof. intros. split; [done|apply keeps_refl|done]. Qed.

Lemma reach_trans u l1 l2 l3 : reach u l1 l2 -> reach u l2 l3 -> reach u l1 l3.
Proof. intros [] []. split; [done|by eapply keeps_trans|done]. Qed.

Lemma reach_same u l l' : reach u l l' -> ls_failed l' = false -> same l l' /\ ls_failed l = false.
Proof.
  intros [_ H _] Hf. split; [by eapply keeps_same|]. destruct (ls_failed l) eqn:E; [|done].
  by rewrite (k_failed _ _ _ H E) in Hf.
Qed.

Section Calls.
Context (u : nat) (c : nat -> M unit).
Hypothesis Hc : compute_spec u c.

Lemma wp_layout_agg agg l :
  inv l -> (unseen l <= u)%nat -> (agg < n_aggs)%nat ->
  wp (layout_agg c agg) l (fun o l' => reach u l l' /\ o = lay l' agg /\
    (ls_failed l' = false -> st l' agg = DONE)).
Proof.
  intros Hi Hu Ha. unfold layout_agg, agg_state, the_layout. apply wp_bind, wp_gets.
  fold (st l agg). case_bool_decide as Hd.
  - apply wp_gets. split; [by apply reach_refl|done].
  - apply wp_bind. eapply wp_mono; [by apply Hc|]. cbn. intros _ l' (H1 & H2 & H3). apply wp_gets.
    split; [by apply reach_intro|done].
Qed.

Lemma wp_layout_size v l :
  inv l -> (unseen l <= u)%nat -> valid v ->
  wp (layout_size tg c v) l (fun z l' => reach u l l' /\ z = size_of l' v /\
    (ls_failed l' = false -> settled l' v)).
Proof.
  intros Hi Hu Hv. unfold layout_size, size_of. case_bool_decide as Ha.
  - apply wp_bind. eapply wp_mono; [by apply wp_layout_agg; auto|]. cbn. intros o l' (H1 & -> & H3).
    apply wp_ret. split; [done|]. split; [done|]. intros Hf _. by apply H3.
  - apply wp_ret. split; [by apply reach_refl|]. split; [done|]. by intros _ ?.
Qed.

Lemma wp_layout_align v l :
  inv l -> (unseen l <= u)%nat -> valid v ->
  wp (layout_align tg c v) l (fun z l' => reach u l l' /\ z = align_of l' v /\
    (ls_failed l' = false -> settled l' v)).
Proof.
  intros Hi Hu Hv. unfold layout_align, align_of. case_bool_decide as Ha.
  - apply wp_bind. eapply wp_mono; [by apply wp_layout_agg; auto|]. cbn. intros o l' (H1 & -> & H3).
    apply wp_ret. split; [done|]. split; [done|]. intros Hf _. by apply H3.
  - apply wp_ret. split; [by apply reach_refl|]. split; [done|]. by intros _ ?.
Qed.

Lemma wp_field_type_facts v l :
  inv l -> (unseen l <= u)%nat -> valid v ->
  wp (field_type_facts tg c v) l (fun facts l' => reach u l l' /\
    (ls_failed l' = false -> settled l' v /\ facts = facts_of l' v)).
Proof.
  intros Hi Hu Hv. unfold field_type_facts.
  apply wp_bind. eapply wp_mono; [by apply wp_layout_size|]. cbn. intros size l1 (R1 & -> & S1).
  apply wp_bind. eapply wp_mono; [apply wp_layout_align; [apply R1|apply R1|done]|]. cbn. intros align l2 (R2 & -> & S2).
  assert (forall l3 x y z, reach u l2 l3 -> ls_failed l3 = false ->
    facts_of l3 v = Facts (size_of l3 v) (align_of l3 v) x y -> z = Facts (size_of l1 v) (align_of l2 v) x y ->
    settled l3 v /\ z = facts_of l3 v) as Hgo.
  { intros l3 x y z R3 Hf Hx ->. destruct (reach_same _ _ _ R3 Hf) as [E3 F2].
    destruct (reach_same _ _ _ R2 F2) as [E2 F1].
    destruct (same_fields l1 l2 v E2 (S1 F1)) as (_ & Q1 & _ & _).
    destruct (same_fields l2 l3 v E3 (S2 F2)) as (? & Q2 & Q3 & _). split; [done|]. rewrite Hx. congruence. }
  case_bool_decide as Ha.
  - apply wp_bind. eapply wp_mono; [apply wp_layout_agg; [apply R2|apply R2|by apply Hv]|]. cbn.
    intros o l3 (R3 & -> & S3). apply wp_ret. split; [by eapply reach_trans, reach_trans|].
    intros Hf. eapply Hgo; [done|done| |reflexivity]. unfold facts_of. by rewrite bool_decide_true.
  - apply wp_ret. split; [by eapply reach_trans|]. intros Hf.
    eapply Hgo; [apply reach_refl; apply R2|done| |reflexivity]. unfold facts_of. by rewrite bool_decide_false.
Qed.

Context (Hm : module_ok).

Lemma inner_valid a v : inner a v -> valid v.
Proof. intros H Ha. by apply H. Qed.

Lemma field_ok a f : (a < n_aggs)%nat -> f ∈ a_fields (agg_type a) -> inner a (f_type f) /\ bits_ok f.
Proof. intros Ha Hf. exact (proj1 (Forall_forall _ _) (ao_fields _ (mo_aggs Hm a Ha)) f Hf). Qed.

Definition depth_ok (fuel : nat) (v : ir_vtype) : Prop :=
  (0 < fuel)%nat /\ (vt_type v = IR_AGG -> (vt_agg v < n_aggs)%nat /\ (S (rank (vt_agg v)) < fuel)%nat).

Lemma depth_inner fuel a v : (S (rank a) < S fuel)%nat -> inner a v -> depth_ok fuel v.
Proof. intros H Hi. split; [lia|]. intros Hv. destruct (Hi Hv). lia. Qed.

Lemma wp_flatten fuel v offset found l :
  depth_ok fuel v -> inv l -> (unseen l <= u)%nat ->
  wp (flatten m tg c fuel v offset found) l (fun _ l' => reach u l l').
Proof.
  revert v offset found l. induction fuel as [|fuel IH]; intros v offset found l [Hf Hv] Hi Hu; [lia|].
  cbn [flatten]. case_bool_decide as Ha; cbn [negb].
  2:{ repeat case_match; apply wp_ret; by apply reach_refl. }
  destruct (Hv Ha) as [Hlt Hr]. apply wp_bind. eapply wp_mono; [by apply (wp_layout_agg)|]. cbn.
  intros o l1 (R1 & -> & _).
  assert (forall f l2 offset found, f ∈ a_fields (agg_type (vt_agg v)) -> reach u l l2 ->
    wp (flatten m tg c fuel (f_type f) offset found) l2 (fun _ l' => reach u l l')) as Hgo.
  { intros f l2 off fo Hin R2. eapply wp_mono; [apply IH; [|apply R2|apply R2]|].
    - eapply depth_inner; [exact Hr|by apply field_ok].
    - cbn. intros _ l3 R3. by eapply reach_trans. }
  case_bool_decide as Hk.
  - destruct (a_fields _) as [|e es] eqn:He; [by apply wp_ret|]. apply wp_bind.
    eapply wp_mono; [apply (wp_layout_size); [apply R1|apply R1|]|].
    { eapply inner_valid, (field_ok (vt_agg v) e Hlt). rewrite He. left. }
    cbn. intros step l2 (R2 & _). pose proof (reach_trans _ _ _ _ R1 R2).
    destruct (step >? 0); [|by apply wp_ret].
    apply (wp_each _ (reach u l)); [|done]. intros i x b l3 _ R3. apply Hgo; [left|done].
  - apply (wp_each _ (reach u l)); [|done]. intros i f b l3 Hin R3.
    destruct (is_unit_break f); [by apply wp_ret|]. by apply Hgo.
Qed.

(** *** The loop over the fields *)

Lemma keeps_busy_lay e agg l l' :
  keeps e l l' -> Some agg <> e -> st l agg = BUSY ->
  st l' agg = BUSY /\ (ls_failed l' = false -> lay l' agg = lay l agg).
Proof. intros Hk He Hb. split; [by apply (k_busy _ _ _ Hk)|]. intros Hf. by apply (k_lay_busy _ _ _ Hk). Qed.

(** What [compute] has reached from [l] while it lays out [agg]. *)
Record doing (agg : nat) (l l' : layouts) : Prop := {
  d_inv : inv l';
  d_keeps : keeps (Some agg) l l';
  d_unseen : (unseen l' <= u)%nat;
  d_busy : st l' agg = BUSY;
}.

Lemma doing_refl agg l : inv l -> (unseen l <= u)%nat -> st l agg = BUSY -> doing agg l l.
Proof. intros. split; done || apply keeps_refl. Qed.

Lemma doing_reach agg l l1 l2 : doing agg l l1 -> reach u l1 l2 -> doing agg l l2.
Proof.
  intros [D1 D2 D3 D4] [R1 R2 R3]. split; [done| |done|].
  - eapply keeps_trans; [done|by apply keeps_weaken].
  - by apply (keeps_busy_lay None agg l1 l2 R2).
Qed.

Lemma doing_trans agg l l1 l2 : doing agg l l1 -> doing agg l1 l2 -> doing agg l l2.
Proof. intros [D1 D2 D3 D4] [R1 R2 R3 R4]. split; [done|by eapply keeps_trans|done|done]. Qed.

Lemma doing_same agg l l' : doing agg l l' -> ls_failed l' = false -> same l l' /\ ls_failed l = false.
Proof.
  intros [_ H _] Hf. split; [by eapply keeps_same|]. destruct (ls_failed l) eqn:E; [|done].
  by rewrite (k_failed _ _ _ H E) in Hf.
Qed.

(** An update of the layout of [agg], which [compute] is doing. *)
Lemma wp_doing agg f l l1 (Q : unit -> layouts -> Prop) :
  doing agg l l1 -> (agg < n_aggs)%nat ->
  (forall l', doing agg l l' -> doing agg l1 l' -> ls_failed l' = ls_failed l1 ->
    lay l' agg = f (lay l1 agg) -> Q tt l') ->
  wp (update_layout agg f) l1 Q.
Proof.
  intros [D1 D2 D3 D4] Ha HQ. apply wp_update; [done|done|congruence|]. intros l' H1 H2 H3 H4 H5.
  pose proof (unseen_keeps _ l1 l' D1 H1 H2). apply HQ; try done; split; try done; try lia; try congruence.
  by eapply keeps_trans.
Qed.

Lemma wp_compute_fields agg fs i p l :
  let t := agg_type agg in
  inv l -> (unseen l <= u)%nat -> (agg < n_aggs)%nat -> st l agg = BUSY ->
  Forall (fun f => valid (f_type f)) fs ->
  wp (each (fun i f p =>
        facts ← field_type_facts tg c (f_type f);
        out ← the_layout agg;
        let '(p, out) := place (windows tg) (linux_arm64 tg) t i f facts p out in
        _ ← update_layout agg (fun _ => out);
        mret p) i fs p) l
    (fun p' l' => doing agg l l' /\
      (ls_failed l' = false -> Forall (fun f => settled l' (f_type f)) fs /\
        place_all (windows tg) (linux_arm64 tg) t i (with_facts l' fs) p (lay l agg) = (p', lay l' agg))).
Proof.
  intros t. revert i p l. induction fs as [|f fs IH]; intros i p l Hi Hu Ha Hb Hv; cbn [each].
  { apply wp_ret. split; [by apply doing_refl|]. done. }
  apply Forall_cons_1 in Hv as [Hv Hvs]. apply wp_bind, wp_bind.
  eapply wp_mono; [by apply (wp_field_type_facts)|]. cbn. intros facts l1 (R1 & Hset).
  apply wp_bind, wp_gets. fold (lay l1 agg).
  pose proof (doing_reach agg l l l1 (doing_refl agg l Hi Hu Hb) R1) as D1.
  destruct (place _ _ _ _ _ _ _ _) as [p1 out1] eqn:Ep.
  apply wp_bind. eapply wp_doing; [exact D1|done|]. intros l2 D2 D12 E2 L2. apply wp_ret. cbn beta.
  eapply wp_mono; [apply IH; [apply D2|apply D2|done|by destruct D2|done]|]. cbn. intros p' l' (D3 & H3).
  split; [by eapply doing_trans|]. intros Hf'. destruct (H3 Hf') as [Hset3 Hall].
  destruct (doing_same _ _ _ D3 Hf') as [S3 F2]. assert (ls_failed l1 = false) as F1 by congruence.
  destruct (Hset F1) as [Hs1 ->].
  pose proof (doing_trans _ _ _ _ D12 D3) as D13. destruct (doing_same _ _ _ D13 Hf') as [S13 _].
  destruct (same_fields l1 l' (f_type f) S13 Hs1) as (Hs' & _ & _ & Hfacts).
  split; [by constructor|]. cbn [with_facts map place_all]. rewrite Hfacts.
  assert (lay l1 agg = lay l agg) as Hl1 by (by apply (keeps_busy_lay None agg l l1 (r_keeps _ _ _ R1))).
  rewrite <- Hl1, Ep, <- L2. exact Hall.
Qed.

(** *** The units of the bitfields *)

(** What the units leave of a layout, and those of the fields before [i]. *)
Record units_done (fs : list ir_field) (i : nat) (o o' : layout) : Prop := {
  ud_sizes : l_size o' = l_size o /\ l_align o' = l_align o /\ l_offsets o' = l_offsets o;
  ud_pos : forall j, lb_pos (default zero_bits (l_bits o' !! j)) = lb_pos (default zero_bits (l_bits o !! j));
  ud_count : length (l_bits o') = length (l_bits o);
  ud_before : forall j, (j < i)%nat -> l_bits o' !! j = l_bits o !! j;
  ud_units : forall j f, fs !! j = Some f -> f_bits f <> 0 ->
    unit_ok (l_size o) (f_bits f) (default zero_bits (l_bits o' !! (i + j)%nat));
}.

Definition bits_fit (fs : list ir_field) (i : nat) (o : layout) : Prop :=
  forall j f, fs !! j = Some f -> f_bits f <> 0 ->
    0 < f_bits f /\ 0 <= lb_pos (default zero_bits (l_bits o !! (i + j)%nat)) /\
    lb_pos (default zero_bits (l_bits o !! (i + j)%nat)) + f_bits f <= 8 * l_size o.

Lemma wp_bit_units agg fs i l :
  inv l -> (unseen l <= u)%nat -> (agg < n_aggs)%nat -> st l agg = BUSY ->
  (ls_failed l = false -> bits_fit fs i (lay l agg) /\ (i + length fs <= length (l_bits (lay l agg)))%nat) ->
  wp (bit_units agg i fs) l (fun _ l' => doing agg l l' /\
    (ls_failed l' = false -> units_done fs i (lay l agg) (lay l' agg))).
Proof.
  revert i l. induction fs as [|f fs IH]; intros i l Hi Hu Ha Hb Hfit; cbn [bit_units].
  { apply wp_ret. split; [by apply doing_refl|]. done. }
  destruct (Z.eqb_spec (f_bits f) 0) as [Hz|Hz].
  - eapply wp_mono; [apply IH; try done|].
    { intros Hf. destruct (Hfit Hf) as [H1 H2]. split; [|cbn in H2; lia].
      intros j g Hj. rewrite Nat.add_succ_comm. by apply (H1 (S j)). }
    cbn. intros _ l' [D H]. split; [done|]. intros Hf. destruct (H Hf) as [U1 U2 U3 U4 U5]. split; try done.
    + intros j Hj. apply U4. lia.
    + intros [|j] g Hj Hg; [by injection Hj as ->|]. rewrite <- Nat.add_succ_comm. by apply U5.
  - apply wp_bind, wp_gets. fold (lay l agg). destruct (bit_unit _ _ _ _) as [out|e] eqn:Hbu.
    2:{ apply (wp_fail e (Some agg)); [done|]. intros l' H1 H2 H3 H4. split; [|congruence].
        split; [done|done| |by rewrite H4]. pose proof (unseen_keeps _ _ _ Hi H1 H2). lia. }
    apply wp_bind. eapply wp_doing; [by apply doing_refl|done|]. intros l1 D1 _ E1 L1. cbn beta.
    assert (ls_failed l = false -> exists b, lay l1 agg = set_bits i b (lay l agg) /\
      lb_pos b = lb_pos (default zero_bits (l_bits (lay l agg) !! i)) /\
      unit_ok (l_size (lay l agg)) (f_bits f) b) as Hunit.
    { intros Hf. destruct (Hfit Hf) as [H1 H2]. destruct (H1 0%nat f eq_refl Hz) as (P1 & P2 & P3).
      rewrite Nat.add_0_r in P2, P3. cbn in H2. rewrite L1.
      destruct (bit_unit_ok agg i (f_bits f) (lay l agg) out ltac:(lia) P1 P2 P3 Hbu) as (b & -> & ? & ?). eauto. }
    eapply wp_mono; [apply IH; [apply D1|apply D1|done|by destruct D1|]|].
    { intros Hf. rewrite E1 in Hf. destruct (Hunit Hf) as (b & -> & _). destruct (Hfit Hf) as [H1 H2].
      cbn in H2. split; [|cbn; rewrite length_insert; lia]. intros j g Hj Hg. cbn.
      rewrite list_lookup_insert_ne, plus_n_Sm by lia. by apply (H1 (S j)). }
    cbn. intros _ l' [D2 H]. split; [by eapply doing_trans|]. intros Hf.
    destruct (doing_same _ _ _ D2 Hf) as [_ F1]. rewrite E1 in F1.
    destruct (Hunit F1) as (b & Hl1 & Hpos & Hok). destruct (Hfit F1) as [_ Hlen]. cbn in Hlen.
    destruct (H Hf) as [U1 U2 U3 U4 U5]. rewrite Hl1 in U1, U2, U3, U4, U5. cbn in U1, U2, U3, U4, U5.
    rewrite length_insert in U3. split; try done.
    + intros j. rewrite U2. rewrite default_insert by lia. by destruct (decide _) as [->|].
    + intros j Hj. rewrite U4 by lia. by rewrite list_lookup_insert_ne by lia.
    + intros [|j] g Hj Hg; [|rewrite <- Nat.add_succ_comm; by apply U5].
      injection Hj as <-. rewrite Nat.add_0_r, U4 by lia. by rewrite list_lookup_insert_eq by lia.
Qed.

(** *** Arrays *)

Lemma wp_compute_array g agg t e l :
  fold_spec u (length (m_syms m)) g ->
  inv l -> (unseen l <= u)%nat -> (agg < n_aggs)%nat -> st l agg = BUSY -> valid (f_type e) ->
  (a_length t < length (m_syms m))%nat ->
  wp (compute_array tg c g agg t (f_type e)) l (fun p' l' => doing agg l l' /\
    (ls_failed l' = false ->
      settled l' (f_type e) /\ sym_st l' (a_length t) = DONE /\
      1 <= arith_signed (value l' (a_length t)) 64 /\
      p_align p' = align_of l' (f_type e) /\
      (let '(bytes, ov) := mul_size (value l' (a_length t)) (size_of l' (f_type e)) false in
       mul_size bytes 8 ov) = (p_bit p', p_overflow p') /\
      exists x y, lay l' agg = set_marks x y (lay l agg))).
Proof.
  intros Hg Hi Hu Ha Hb Hv Hlen. unfold compute_array. set (sym := a_length t) in *.
  apply wp_bind. eapply wp_mono; [by apply Hg|]. cbn. intros r l1 (I1 & K1 & V1).
  pose proof (reach_intro u _ _ Hi Hu I1 K1) as R1. clear I1 K1.
  pose proof (doing_reach agg l l l1 (doing_refl agg l Hi Hu Hb) R1) as D1.
  apply wp_bind.
  apply (wp_mono _ _ (fun n l2 => doing agg l l2 /\ (ls_failed l2 = false -> same l1 l2 /\
    sym_st l2 sym = DONE /\ value l2 sym = n /\ 1 <= arith_signed n 64 /\ lay l2 agg = lay l agg))).
  { assert (ls_failed l1 = false -> lay l1 agg = lay l agg) as Hl1.
    { intros Hf. by apply (keeps_busy_lay None agg l l1 (r_keeps _ _ _ R1)). }
    assert (forall err n, wp (_ ← fail err; mret n) l1 (fun n l2 => doing agg l l2 /\ (ls_failed l2 = false ->
      same l1 l2 /\ sym_st l2 sym = DONE /\ value l2 sym = n /\ 1 <= arith_signed n 64 /\
      lay l2 agg = lay l agg))) as Hfail.
    { intros err n. apply wp_bind. apply (wp_fail err None); [apply D1|]. intros l2 I2 K2 F2 E2.
      apply wp_ret. split; [|congruence]. eapply doing_reach; [exact D1|].
      apply reach_intro; [apply D1|apply D1|done|done]. }
    destruct r as [n|].
    - destruct (Z.ltb_spec (arith_signed n 64) 1) as [Hn|Hn]; [apply Hfail|].
      apply wp_ret. split; [done|]. intros Hf. destruct (proj2 V1 Hf). split; [by split|]. auto.
    - apply wp_ret. split; [done|]. congruence. }
  cbn. intros n l2 [D2 H2]. apply wp_bind. eapply wp_mono; [apply wp_layout_size; [apply D2|apply D2|done]|].
  cbn. intros size l3 (R3 & -> & S3). destruct (mul_size n _ false) as [bytes ov] eqn:E1.
  destruct (mul_size bytes 8 ov) as [bit ov'] eqn:E2.
  apply wp_bind. eapply wp_mono; [apply wp_layout_align; [apply R3|apply R3|done]|].
  cbn. intros align l4 (R4 & -> & S4).
  apply wp_bind. eapply wp_mono; [apply wp_field_type_facts; [apply R4|apply R4|done]|].
  cbn. intros facts l5 (R5 & S5).
  pose proof (doing_reach _ _ _ _ (doing_reach _ _ _ _ (doing_reach _ _ _ _ D2 R3) R4) R5) as D5.
  apply wp_bind. eapply wp_doing; [exact D5|done|]. intros l6 D6 D56 E6 L6. apply wp_ret.
  split; [done|]. intros Hf. destruct (doing_same _ _ _ D56 Hf) as [Q56 F5].
  destruct (reach_same _ _ _ R5 F5) as [Q45 F4]. destruct (reach_same _ _ _ R4 F4) as [Q34 F3].
  destruct (reach_same _ _ _ R3 F3) as [Q23 F2]. destruct (H2 F2) as (Q12 & X1 & X2 & X3 & X4).
  destruct (same_fields l3 l4 _ Q34 (S3 F3)) as (_ & A1 & _).
  destruct (same_fields l4 l5 _ Q45 (S4 F4)) as (_ & A2 & A3 & _).
  destruct (same_fields l5 l6 _ Q56 (proj1 (S5 F5))) as (B1 & B2 & B3 & _).
  destruct (sm_sym _ _ Q23 _ X1) as [Y1 Z1]. destruct (sm_sym _ _ Q34 _ Y1) as [Y2 Z2].
  destruct (sm_sym _ _ Q45 _ Y2) as [Y3 Z3]. destruct (sm_sym _ _ Q56 _ Y3) as [Y4 Z4].
  rewrite Z4, Z3, Z2, Z1, X2, B2, B3, A2, A1, A3, E1, E2. split_and!; try done.
  rewrite L6.
  assert (lay l5 agg = lay l2 agg) as ->.
  { pose proof (reach_trans _ _ _ _ (reach_trans _ _ _ _ R3 R4) R5) as R25.
    apply (keeps_busy_lay None agg l2 l5 (r_keeps _ _ _ R25)); [done|by destruct D2|done]. }
  rewrite X4. eauto.
Qed.
End Calls.

(** ** The facts of a field *)

Lemma scalar_size_pow2 type : is_pow2 (scalar_size tg type) /\ scalar_size tg type <= 8.
Proof.
  unfold scalar_size, target_type. destruct type; try destruct (windows tg);
    (split; [|lia]); [..]; first [exists 0; done|exists 1; done|exists 2; done|exists 3; done].
Qed.

Lemma facts_of_ok l f :
  bits_ok f -> (vt_type (f_type f) = IR_AGG -> sizes_ok (lay l (vt_agg (f_type f)))) ->
  facts_ok f (facts_of l (f_type f)).
Proof.
  intros (B1 & B2 & B3) Hs. unfold facts_of, size_of, align_of. case_bool_decide as Ha.
  - destruct (Hs Ha). split; cbn; try done. intros _ Hne. destruct (B2 Hne). done.
  - destruct (scalar_size_pow2 (vt_type (f_type f))) as [Hp Hle]. pose proof (is_pow2_pos _ Hp).
    split; cbn; try done; [lia|]. intros _ Hne. destruct (B2 Hne) as [_ ?]. split; [lia|done].
Qed.

(** ** Folding *)

Lemma trim_width type v : in_width 64 v -> in_width 64 (ir_fold_trim type v).
Proof.
  intros Hv. rewrite ir_fold_trim_wrap by done. apply wrap_in_64. pose proof (fold_width type). lia.
Qed.

Lemma type_width_of type : ir_fold_bits (target_type tg type) = type_width tg type.
Proof. destruct tg, type; reflexivity. Qed.

Lemma trim_of type v : in_width 64 v -> ir_fold_trim (target_type tg type) v = wrap (type_width tg type) v.
Proof. intros Hv. by rewrite ir_fold_trim_wrap, type_width_of. Qed.

Lemma trim_of_u64 type z : ir_fold_trim (target_type tg type) (u64 z) = wrap (type_width tg type) z.
Proof. by rewrite trim_wrap64, type_width_of. Qed.

Lemma type_width_small type : 0 <= type_width tg type <= 64.
Proof. destruct tg, type; done. Qed.

(** What the code computes on words is what the operation gives. *)
Lemma target_op_integer s n k a b :
  op_value (operation s) n k a b = op_value (target_op m tg s) n k a b.
Proof.
  unfold operation, target_op. replace (wchar_signed tg) with (has_signed_wchar tg) by (destruct tg; reflexivity).
  rewrite (andb_comm (has_signed_wchar tg)). destruct (_ && _); [|done]. by destruct (s_op s).
Qed.

Lemma fold_op_value s ta a b v :
  in_width 64 a -> in_width 64 b -> fold_op m tg s (target_type tg ta) a b = inl v ->
  op_value (operation s) (type_width tg ta) (type_width tg (s_type s)) a b = Some v.
Proof.
  intros Ha Hb. rewrite target_op_integer. unfold fold_op.
  assert (forall r, match ir_fold_int r (target_type tg ta) a b with
            | IR_FOLDED v => inl (ir_fold_trim (target_type tg (s_type s)) v)
            | IR_FOLD_BY_ZERO => inr E_fold_by_zero
            | IR_FOLD_LEAST_BY_MINUS_ONE => inr E_fold_least_by_minus_one
            | IR_FOLD_SHIFT_RANGE => inr (E_fold_shift (ir_fold_bits (target_type tg ta)))
            | IR_FOLD_NOT_BINARY => inr (E_fold_operation r)
            end = inl v ->
          match meaning r (type_width tg ta) b (wrap (type_width tg ta) a) (wrap (type_width tg ta) b) (sint (type_width tg ta) a) (sint (type_width tg ta) b) with
          | IR_FOLDED z => Some (wrap (type_width tg (s_type s)) z)
          | _ => None
          end = Some v) as Hint.
  { intros r. pose proof (fold_range (target_type tg ta) a b Ha Hb r) as Hr. rewrite fold_meaning, type_width_of in * by done.
    destruct (meaning _ _ _ _ _ _ _) as [z| | | |]; try done. intros [= <-]. specialize (Hr z eq_refl).
    rewrite trim_of; [done|]. eapply in_width_mono; [|exact Hr]. rewrite <- type_width_of. apply fold_width. }
  destruct (target_op m tg s); cbn [op_value]; try apply Hint; intros [= <-]; f_equal.
  all: first
    [ rewrite (trim_of ta), trim_of; [done|apply wrap_in_64, type_width_small|done]
    | rewrite ir_fold_signed_sint, trim_of_u64, type_width_of; done
    | by rewrite trim_of_u64
    | rewrite <- trim_of_u64; f_equal; by rewrite not64_wrap, wrap_small ].
Qed.

Lemma fold_op_width s type a b v :
  in_width 64 a -> in_width 64 b -> fold_op m tg s type a b = inl v -> in_width 64 v.
Proof.
  intros Ha Hb. unfold fold_op.
  assert (forall r, (match ir_fold_int r type a b with
            | IR_FOLDED v => inl (ir_fold_trim (target_type tg (s_type s)) v)
            | IR_FOLD_BY_ZERO => inr E_fold_by_zero
            | IR_FOLD_LEAST_BY_MINUS_ONE => inr E_fold_least_by_minus_one
            | IR_FOLD_SHIFT_RANGE => inr (E_fold_shift (ir_fold_bits type))
            | IR_FOLD_NOT_BINARY => inr (E_fold_operation r)
            end) = inl v -> in_width 64 v) as Hint.
  { intros r. destruct (ir_fold_int r type a b) eqn:E; intros [= <-]. apply trim_width.
    apply (fold_range type a b Ha Hb) in E. eapply in_width_mono; [|exact E]. apply fold_width. }
  destruct (target_op m tg s); try apply Hint; intros [= <-]; repeat apply trim_width; try done;
    try (apply wrap_bound; lia). by apply not64_width.
Qed.

Lemma value_width l s : inv l -> ls_failed l = false -> sym_st l s = DONE -> in_width 64 (value l s).
Proof. intros Hi Hf Hd. by destruct (inv_sym _ Hi Hf s Hd). Qed.

Section Fold.
Context (Hm : module_ok) (u k : nat) (c : nat -> M unit) (g : nat -> M (option Z)).
Hypothesis (Hc : compute_spec u c) (Hg : fold_spec u k g).

Definition fold_result (l : layouts) (sym : nat) (r : option Z) (l' : layouts) : Prop :=
  reach u l l' /\
  match r with Some v => ls_failed l' = false -> sym_good l' sym v | None => ls_failed l' = true end.

(** An operation on the values of its operands. *)
Lemma wp_fold_op sym s a b l l0 :
  m_syms m !! sym = Some s -> s_kind s = IR_SYM_OP -> reach u l0 l ->
  (ls_failed l = false -> sym_st l (s_a s) = DONE /\ value l (s_a s) = a /\
    (forall b, s_b s = Some b -> sym_st l b = DONE) /\
    match s_b s with Some b => value l b | None => 0 end = b) ->
  wp (match fold_op m tg s (target_type tg (sym_type m (s_a s))) a b with
      | inl v => mret (Some v)
      | inr e => _ ← fail e; mret None
      end) l (fold_result l0 sym).
Proof.
  intros Hl Hk R H. destruct (fold_op _ _ _ _ _ _) as [v|e] eqn:E.
  - apply wp_ret. split; [done|]. intros Hf. destruct (H Hf) as (H1 & H2 & H3 & H4).
    assert (in_width 64 a) as Ha by (rewrite <- H2; apply value_width; [apply R|done|done]).
    assert (in_width 64 b) as Hb by (rewrite <- H4; destruct (s_b s); [apply value_width; [apply R|done|by apply H3]|done]).
    split; [by eapply (fold_op_width s _ a b)|]. exists s. rewrite Hk, H2, H4. split_and!; try done. by apply fold_op_value.
  - apply wp_bind. apply (wp_fail e None); [apply R|]. intros l' I' K' F' _. apply wp_ret.
    split; [|done]. eapply reach_trans; [done|]. apply reach_intro; [apply R|apply R|done|done].
Qed.

Lemma wp_fold_sym sym s l :
  m_syms m !! sym = Some s -> (sym < S k)%nat -> inv l -> (unseen l <= u)%nat ->
  wp (match s_kind s with
      | IR_SYM_INT => mret (Some (s_value s))
      | IR_SYM_SIZE_OF => v ← layout_size tg c (s_of s); mret (Some v)
      | IR_SYM_OFFSET_OF =>
          o ← layout_agg c (vt_agg (s_of s)); mret (Some (default 0 (l_offsets o !! s_field s)))
      | IR_SYM_OP =>
          a ← g (s_a s);
          match a with
          | None => mret None
          | Some a =>
              b ← match s_b s with Some b => g b | None => mret (Some 0) end;
              match b with
              | None => mret None
              | Some b =>
                  match fold_op m tg s (target_type tg (sym_type m (s_a s))) a b with
                  | inl v => mret (Some v)
                  | inr e => _ ← fail e; mret None
                  end
              end
          end
      end) l (fold_result l sym).
Proof.
  intros Hl Hsym Hi Hu. pose proof (mo_syms Hm _ _ Hl) as Hok. unfold sym_ok in Hok.
  apply lookup_lt_Some in Hl as Hlt. destruct (s_kind s) eqn:Hk.
  - apply wp_ret. split; [by apply reach_refl|]. intros _. split; [done|]. exists s. by rewrite Hk.
  - apply wp_bind. eapply wp_mono; [by apply (wp_layout_size u c Hc)|]. cbn. intros v l' (R & -> & Hs).
    apply wp_ret. split; [done|]. intros Hf. split; [|exists s; rewrite Hk; split_and!; auto].
    unfold size_of. case_bool_decide as Ha.
    + destruct (ag_sizes _ _ (inv_good _ (r_inv _ _ _ R) Hf _ (Hs Hf Ha))). split; pow2s; lia.
    + destruct (scalar_size_pow2 (vt_type (s_of s))) as [Hp ?]. apply is_pow2_pos in Hp. split; pow2s; lia.
  - apply wp_bind. eapply wp_mono; [by apply (wp_layout_agg u c Hc)|]. cbn. intros o l' (R & -> & Hs).
    apply wp_ret. split; [done|]. intros Hf. split; [|exists s; rewrite Hk; split_and!; auto].
    apply (so_offsets _ (ag_sizes _ _ (inv_good _ (r_inv _ _ _ R) Hf _ (Hs Hf)))).
  - destruct Hok as [Hka Hkb]. apply wp_bind. eapply wp_mono; [apply Hg; [done|done|lia|lia]|]. cbn.
    intros [a|] l1 (I1 & K1 & V1); pose proof (reach_intro u _ _ Hi Hu I1 K1) as R1; [|by apply wp_ret].
    apply wp_bind. destruct (s_b s) as [b|] eqn:Hb.
    + eapply wp_mono; [apply Hg; [done|apply R1|lia|lia]|]. cbn.
      intros [y|] l2 (I2 & K2 & V2); pose proof (reach_intro u _ _ I1 (r_unseen _ _ _ R1) I2 K2) as R2;
        pose proof (reach_trans _ _ _ _ R1 R2) as R; [|by apply wp_ret].
      eapply wp_fold_op; try done. intros Hf. destruct (proj2 V2 Hf) as [V3 V4]. destruct (reach_same _ _ _ R2 Hf) as [Hs F1].
      destruct (proj2 V1 F1) as [V5 V6]. destruct (sm_sym _ _ Hs _ V5) as [? ->]. rewrite Hb.
      split_and!; try done. by intros ? [= <-].
    + apply wp_ret. cbn beta iota. eapply wp_fold_op; try done. intros Hf. destruct (proj2 V1 Hf). by rewrite Hb.
Qed.

Lemma fold_body_ok : fold_spec u (S k) (layout_fold_body m tg c g).
Proof.
  intros sym l Hi Hu Hsym Hlt. unfold layout_fold_body. apply wp_bind, wp_gets. fold (sym_st l sym).
  case_bool_decide as Hd.
  { apply wp_gets. split; [done|]. split; [apply keeps_refl|]. done. }
  unfold the_sym. destruct (lookup_lt_is_Some_2 (m_syms m) sym Hlt) as [s Hs]. rewrite Hs.
  apply wp_bind. eapply wp_mono; [by apply wp_fold_sym|]. intros r l1 [R1 V1].
  apply wp_bind, wp_gets. destruct r as [v|]; [|apply wp_ret; by destruct R1].
  destruct (ls_failed l1) eqn:Hf; [apply wp_ret; by destruct R1|].
  apply wp_bind. apply wp_set_value; [apply R1|done|by apply V1|]. intros l2 I2 K2 D2 E2 F2. apply wp_ret.
  split; [done|]. split; [|done]. eapply keeps_trans; [apply R1|done].
Qed.
End Fold.

(** ** The end of an aggregate *)

Lemma lanes_align msvc aapcs64 l t p out0 out :
  lanes_ok t -> place_all msvc aapcs64 t 0 (with_facts l (a_fields t)) placing_start out0 = (p, out) ->
  p_overflow p = false -> is_pow2 (p_align p) ->
  let n := whole_bytes (p_bit p) in
  is_pow2 (if n <? 16 then n else 16) /\ (p_align p | (if n <? 16 then n else 16)).
Proof.
  intros (Hk & _ & type & k & Ht & Hlen & Hf) Hall Ho Hp. cbv zeta.
  destruct (scalar_size_pow2 type) as [Hs Hs8]. pose proof (is_pow2_pos _ Hs).
  destruct (place_all_lanes msvc aapcs64 t 0 (with_facts l (a_fields t)) placing_start out0 p out
    (scalar_size tg type)) as [Hbit Hal]; try done; [..|].
  - unfold is_union. by rewrite Hk.
  - lia.
  - unfold with_facts. apply Forall_map. eapply Forall_impl; [exact Hf|]. cbn. intros f (<- & -> & ->).
    unfold facts_of, size_of, align_of. rewrite bool_decide_false by done. done.
  - apply is_pow2_1.
  - unfold with_facts in Hbit. rewrite length_map, Hlen, Nat2Z.inj_pow in Hbit. cbn [p_bit placing_start] in Hbit.
    assert (whole_bytes (p_bit p) = scalar_size tg type * 2 ^ Z.of_nat k) as ->.
    { rewrite Hbit. unfold whole_bytes. rewrite Z.add_0_l, <- Z.mul_assoc, Z.mul_comm, Z.mod_mul, Z.div_mul by lia.
      cbn [Z.eqb]. lia. }
    assert (is_pow2 (scalar_size tg type * 2 ^ Z.of_nat k)) as Hn.
    { destruct Hs as (j & ? & ->). exists (j + Z.of_nat k). rewrite Z.pow_add_r by lia. split; lia. }
    assert (scalar_size tg type <= scalar_size tg type * 2 ^ Z.of_nat k)
      by (pose proof (Z.pow_pos_nonneg 2 (Z.of_nat k) ltac:(lia) ltac:(lia)); nia).
    assert (is_pow2 16) by (exists 4; done).
    destruct (Z.ltb_spec (scalar_size tg type * 2 ^ Z.of_nat k) 16);
      (split; [done|apply is_pow2_divide; [done|done|lia]]).
Qed.

Lemma final_align_ok agg p align :
  agg_ok agg -> is_pow2 (p_align p) ->
  (a_simd (agg_type agg) = true -> let n := whole_bytes (p_bit p) in
    is_pow2 (if n <? 16 then n else 16) /\ (p_align p | (if n <? 16 then n else 16))) ->
  final_align agg (agg_type agg) p = (align, None) -> is_pow2 align /\ (p_align p | align).
Proof.
  intros Hok Hp Hsimd. unfold final_align. cbv zeta in Hsimd |- *.
  set (a0 := if a_simd _ then _ else p_align p).
  assert (is_pow2 a0 /\ (p_align p | a0)) as [H1 H2].
  { subst a0. destruct (a_simd _); [by apply Hsimd|]. split; [done|apply Z.divide_refl]. }
  clearbody a0. intros E.
  destruct (raise_align (a_align (agg_type agg)) a0 align H1 (ao_align _ Hok)) as [H3 H4];
    [|split; [done|by etrans]].
  destruct (negb _ && _); [done|]. injection E as <-. done.
Qed.

(** What the loop over the fields, or the array, leaves in [p] and in the
    layout [o] of [agg]. *)
Definition laid (l : layouts) (agg : nat) (p : placing) (o : layout) : Prop :=
  let t := agg_type agg in
  Forall (fun f => settled l (f_type f)) (a_fields t) /\
  match a_kind t with
  | IR_AGG_ARRAY =>
      exists e, a_fields t = [e] /\ sym_st l (a_length t) = DONE /\
        1 <= arith_signed (value l (a_length t)) 64 /\ p_align p = align_of l (f_type e) /\
        (let '(bytes, ov) := mul_size (value l (a_length t)) (size_of l (f_type e)) false in mul_size bytes 8 ov) =
          (p_bit p, p_overflow p) /\
        (forall i, in_width 64 (default 0 (l_offsets o !! i)))
  | _ =>
      exists out0, l_offsets out0 = replicate (length (a_fields t)) 0 /\
        l_bits out0 = replicate (length (a_fields t)) zero_bits /\
        place_all (windows tg) (linux_arm64 tg) t 0 (with_facts l (a_fields t)) placing_start out0 = (p, o)
  end.

(** The layout with its size and alignment, before the units of bitfields. *)
Record sized (l : layouts) (agg : nat) (o : layout) : Prop := {
  sz_sizes : sizes_ok o;
  sz_shape : shape_ok l (agg_type agg) o;
  sz_bits : a_kind (agg_type agg) <> IR_AGG_ARRAY ->
    bits_fit (a_fields (agg_type agg)) 0 o /\ (length (a_fields (agg_type agg)) <= length (l_bits o))%nat;
}.

Lemma with_facts_ok l agg :
  module_ok -> inv l -> ls_failed l = false -> (agg < n_aggs)%nat ->
  Forall (fun f => settled l (f_type f)) (a_fields (agg_type agg)) ->
  Forall (fun x => facts_ok x.1 x.2) (with_facts l (a_fields (agg_type agg))).
Proof.
  intros Hm Hi Hf Ha Hset. unfold with_facts. apply Forall_map. apply Forall_forall. intros f Hin. cbn.
  apply facts_of_ok; [by apply (field_ok Hm agg)|]. intros Hagg.
  apply ag_sizes, (inv_good _ Hi Hf). exact (proj1 (Forall_forall _ _) Hset f Hin Hagg).
Qed.

Lemma default_replicate {A} (d : A) n i : default d (replicate n d !! i) = d.
Proof.
  destruct (decide (i < n)%nat) as [Hi|Hi].
  - by rewrite lookup_replicate_2.
  - by rewrite lookup_ge_None_2 by (rewrite length_replicate; lia).
Qed.

Lemma with_facts_lookup l fs j f :
  fs !! j = Some f -> with_facts l fs !! j = Some (f, facts_of l (f_type f)).
Proof. intros H. unfold with_facts. by rewrite list_lookup_fmap, H. Qed.

Lemma bits_value agg f j :
  module_ok -> (agg < n_aggs)%nat -> a_fields (agg_type agg) !! j = Some f -> f_bits f <> 0 ->
  0 < f_bits f /\ is_unit_break f = false.
Proof.
  intros Hm Ha Hj Hne. destruct (field_ok Hm agg f Ha) as [_ (B1 & _ & B3)]; [by eapply list_elem_of_lookup_2|].
  split; [lia|]. destruct (is_unit_break f); [|done]. by rewrite B3 in Hne.
Qed.

(** The offsets of a layout that [place_all] fills are words. *)
Lemma offsets_width n (xs : list Z) :
  length xs = n -> (forall j, (0 <= j < 0 + n)%nat -> in_width 64 (default 0 (xs !! j))) ->
  forall i, in_width 64 (default 0 (xs !! i)).
Proof.
  intros Hn H i. destruct (decide (i < n)%nat) as [Hi|Hi]; [apply H; lia|].
  rewrite lookup_ge_None_2 by lia. done.
Qed.

Section Sized.
Context (Hm : module_ok) (l : layouts) (Hi : inv l) (Hf : ls_failed l = false).
Context (agg : nat) (Ha : (agg < n_aggs)%nat) (p : placing) (o : layout) (align size : Z).
Let t := agg_type agg.
Hypothesis (Hset : Forall (fun f => settled l (f_type f)) (a_fields t)).
Hypothesis (Hal : final_align agg t p = (align, None)).
Hypothesis (Hsz : round_up (whole_bytes (p_bit p)) align (p_overflow p) = (size, false)).
Hypothesis (Hfits : size <= UINT64_MAX / 8).
Let out := set_size_align size align o.

Lemma sized_struct out0 :
  a_kind t = IR_AGG_STRUCT ->
  l_offsets out0 = replicate (length (a_fields t)) 0 ->
  l_bits out0 = replicate (length (a_fields t)) zero_bits ->
  place_all (windows tg) (linux_arm64 tg) t 0 (with_facts l (a_fields t)) placing_start out0 = (p, o) ->
  sized l agg out.
Proof.
  intros Hk Ho Hb Hall. pose proof (with_facts_ok l agg Hm Hi Hf Ha Hset) as Hfacts. fold t in Hfacts.
  assert (p_overflow p = false) as Hov by (by eapply round_up_flag).
  assert (is_union t = false) as Hu by (unfold is_union; by rewrite Hk).
  assert (length (with_facts l (a_fields t)) = length (a_fields t)) as Hlen by (unfold with_facts; by rewrite length_map).
  destruct (place_all_ok (windows tg) (linux_arm64 tg) t Hu 0 (with_facts l (a_fields t)) placing_start out0 p o)
    as (_ & Hp & _ & Hoffs & Hord); try done.
  { split; cbn; [lia|apply is_pow2_1|by left]. }
  { by rewrite Ho, length_replicate, Hlen. }
  { by rewrite Hb, length_replicate, Hlen. }
  destruct (final_align_ok agg p align (mo_aggs Hm agg Ha) (ok_align _ _ _ Hp)) as [A1 A2]; [|done|].
  { intros Hs. eapply lanes_align; [by apply (ao_simd _ (mo_aggs Hm agg Ha))|exact Hall|done|apply Hp]. }
  destruct (final_size_ok (p_bit p) align (p_overflow p) size) as (_ & S1 & S2 & S3 & S4);
    [apply Hp|done|done|done|].
  pose proof (free_le _ _ p Hp) as Hfree.
  destruct (place_all_but (windows tg) (linux_arm64 tg) t 0 (with_facts l (a_fields t)) placing_start out0)
    as (_ & _ & L1 & L2). rewrite Hall, Ho, length_replicate in L1. rewrite Hall, Hb, length_replicate in L2. cbn in L1, L2.
  apply (in_order_widen _ _ _ _ _ (8 * size) _ align) in Hord; [|lia|done].
  split.
  - split; try done. apply (offsets_width (length (a_fields t))); [exact L1|]. by rewrite Hlen in Hoffs.
  - unfold shape_ok. fold t. rewrite Hk. subst out. cbn. eapply in_order_agree; [| |exact Hord]; done.
  - intros _. split; [|unfold out; cbn; fold t; lia]. intros j f Hj Hne.
    destruct (bits_value agg f j Hm Ha Hj Hne) as [Hpos Hbreak].
    pose proof (in_order_lookup _ _ _ _ _ _ _ j f (facts_of l (f_type f)) Hfacts Hord
      (with_facts_lookup _ _ _ _ Hj) Hbreak) as [P1 P2 _ _ _ _].
    unfold last_bit, first_bit in P1, P2. rewrite (proj2 (Z.eqb_neq _ _) Hne) in P1, P2.
    split; [done|]. split; [exact P1|exact P2].
Qed.

Lemma sized_union out0 :
  a_kind t = IR_AGG_UNION ->
  l_offsets out0 = replicate (length (a_fields t)) 0 ->
  l_bits out0 = replicate (length (a_fields t)) zero_bits ->
  place_all (windows tg) (linux_arm64 tg) t 0 (with_facts l (a_fields t)) placing_start out0 = (p, o) ->
  sized l agg out.
Proof.
  intros Hk Ho Hb Hall. pose proof (with_facts_ok l agg Hm Hi Hf Ha Hset) as Hfacts. fold t in Hfacts.
  assert (p_overflow p = false) as Hov by (by eapply round_up_flag).
  assert (is_union t = true) as Hu by (unfold is_union; by rewrite Hk).
  assert (length (with_facts l (a_fields t)) = length (a_fields t)) as Hlen by (unfold with_facts; by rewrite length_map).
  destruct (place_all_union_ok (windows tg) (linux_arm64 tg) t Hu 0 (with_facts l (a_fields t)) placing_start out0 p o)
    as (Hp & _ & _ & Hbits & Hoffs & Hord); try done.
  { split; cbn; [lia|apply is_pow2_1|done]. }
  { by rewrite Ho, length_replicate, Hlen. }
  { intros j. by rewrite Hb, default_replicate. }
  destruct (final_align_ok agg p align (mo_aggs Hm agg Ha) (up_align _ Hp)) as [A1 A2]; [|done|].
  { intros Hs. destruct (ao_simd _ (mo_aggs Hm agg Ha) Hs) as [Hk' _]. fold t in Hk'. congruence. }
  destruct (final_size_ok (p_bit p) align (p_overflow p) size) as (_ & S1 & S2 & S3 & S4);
    [apply Hp|done|done|done|].
  destruct (place_all_but (windows tg) (linux_arm64 tg) t 0 (with_facts l (a_fields t)) placing_start out0)
    as (_ & _ & L1 & L2). rewrite Hall, Ho, length_replicate in L1. rewrite Hall, Hb, length_replicate in L2. cbn in L1, L2.
  apply (at_zero_widen _ _ _ _ (8 * size) _ align) in Hord; [|lia|done].
  split.
  - split; try done. apply (offsets_width (length (a_fields t))); [exact L1|]. by rewrite Hlen in Hoffs.
  - unfold shape_ok. fold t. rewrite Hk. subst out. cbn. eapply at_zero_agree; [| |exact Hord]; done.
  - intros _. split; [|unfold out; cbn; fold t; lia]. intros j f Hj Hne.
    destruct (bits_value agg f j Hm Ha Hj Hne) as [Hpos Hbreak].
    destruct (at_zero_lookup _ _ _ _ _ _ j f (facts_of l (f_type f)) Hord (with_facts_lookup _ _ _ _ Hj) Hbreak)
      as (_ & P1 & P2 & _).
    unfold last_bit, first_bit in P2. rewrite (proj2 (Z.eqb_neq _ _) Hne) in P2.
    split; [done|]. cbn [Nat.add] in *. subst out. cbn [set_size_align l_bits l_size]. lia.
Qed.

Lemma sized_array e :
  a_kind t = IR_AGG_ARRAY -> a_fields t = [e] -> sym_st l (a_length t) = DONE ->
  1 <= arith_signed (value l (a_length t)) 64 -> p_align p = align_of l (f_type e) ->
  (let '(bytes, ov) := mul_size (value l (a_length t)) (size_of l (f_type e)) false in mul_size bytes 8 ov) =
    (p_bit p, p_overflow p) ->
  (forall i, in_width 64 (default 0 (l_offsets o !! i))) ->
  sized l agg out.
Proof.
  intros Hk He Hd Hn Hpa Hbit Hoffs. destruct (ao_array _ (mo_aggs Hm agg Ha) Hk) as (Q1 & Q2 & _).
  fold t in Q1, Q2. pose proof (with_facts_ok l agg Hm Hi Hf Ha Hset) as Hfacts. fold t in Hfacts.
  rewrite He in Hfacts, Hset. apply Forall_cons_1 in Hfacts as [He' _]. apply Forall_cons_1 in Hset as [Hse _].
  cbn in He'.
  assert (0 <= size_of l (f_type e) /\ is_pow2 (align_of l (f_type e)) /\
    (align_of l (f_type e) | size_of l (f_type e))) as (E1 & E2 & E3).
  { unfold settled in Hse. unfold size_of, align_of in *. case_bool_decide as Hagg.
    - destruct (ag_sizes _ _ (inv_good _ Hi Hf _ (Hse Hagg))). done.
    - destruct (scalar_size_pow2 (vt_type (f_type e))) as [Hp _]. pose proof (is_pow2_pos _ Hp).
      split_and!; [lia|done|apply Z.divide_refl]. }
  assert (align = p_align p) as ->.
  { revert Hal. unfold final_align. rewrite Q1, Q2. cbn [Z.eqb negb andb]. rewrite Z.gtb_ltb.
    rewrite Hpa. pose proof (is_pow2_pos _ E2). rewrite (proj2 (Z.ltb_ge _ _)) by lia. by intros [= <-]. }
  pose proof (value_width l (a_length t) Hi Hf Hd) as Hw.
  assert (1 <= value l (a_length t) < 2 ^ 63) as Hv.
  { rewrite arith_signed_val in Hn by (done || lia). unfold sint in Hn.
    cbv zeta in Hn. rewrite Z.mod_small in Hn by apply Hw. revert Hn. destruct Hw. cbn [Z.sub]. pow2s. zcases; lia. }
  assert (p_overflow p = false) as Hov by (by eapply round_up_flag).
  rewrite Hov in Hbit. destruct (mul_size _ _ false) as [bytes ov] eqn:E4.
  pose proof (mul_size_flag _ _ _ _ Hbit) as ->.
  apply mul_size_spec in E4 as (_ & -> & E4); [|lia..].
  apply mul_size_spec in Hbit as (_ & Hbit & _); [|nia|lia].
  set (total := value l (a_length t) * size_of l (f_type e)) in *.
  assert (0 <= total) by (subst total; nia).
  rewrite Hpa in Hsz. pose proof (final_size_ok (p_bit p) _ _ _ ltac:(lia) E2 Hsz Hfits) as (_ & S1 & S2 & S3 & S4).
  assert (size = total) as Hsize.
  { pose proof (is_pow2_pos _ E2). assert (whole_bytes (p_bit p) = total) as Hwb.
    { rewrite Hbit. unfold whole_bytes. rewrite Z.mod_mul, Z.div_mul by lia. cbn [Z.eqb]. lia. }
    apply round_up_spec in Hsz as (_ & R1 & R2 & _); [|lia|lia]. rewrite Hwb in R1.
    apply pow2_divide_mod in R2; [|lia].
    assert ((align_of l (f_type e) | size - total)) as [k Hk'].
    { apply Z.divide_sub_r; [done|]. by apply Z.divide_mul_r. }
    assert (k = 0) by nia. lia. }
  split.
  - split; try done; [|subst out; cbn; by rewrite Hpa]. cbn. by rewrite Hpa.
  - unfold shape_ok. fold t. rewrite Hk. exists e. subst out. cbn. split_and!; done || lia.
  - intros Hne. fold t in Hne. by rewrite Hk in Hne.
Qed.
End Sized.

Lemma laid_sized l agg p o align size :
  module_ok -> inv l -> ls_failed l = false -> (agg < n_aggs)%nat -> laid l agg p o ->
  final_align agg (agg_type agg) p = (align, None) ->
  round_up (whole_bytes (p_bit p)) align (p_overflow p) = (size, false) -> size <= UINT64_MAX / 8 ->
  sized l agg (set_size_align size align o).
Proof.
  intros Hm Hi Hf Ha [Hset H] Hal Hsz Hfits. destruct (a_kind (agg_type agg)) eqn:Hk.
  - destruct H as (out0 & H1 & H2 & H3). by eapply sized_struct.
  - destruct H as (out0 & H1 & H2 & H3). by eapply sized_union.
  - destruct H as (e & H1 & H2 & H3 & H4 & H5 & H6). by eapply sized_array.
Qed.

(** ** [compute] *)

Section Compute.
Context (Hm : module_ok) (u : nat) (c : nat -> M unit) (g : nat -> M (option Z)).
Hypothesis (Hc : compute_spec u c) (Hg : fold_spec u (length (m_syms m)) g).
Context (agg : nat) (Ha : (agg < n_aggs)%nat).
Let t := agg_type agg.

Definition computed (l0 : layouts) (_ : unit) (l' : layouts) : Prop :=
  inv l' /\ keeps (Some agg) l0 l' /\ (ls_failed l' = false -> st l' agg = DONE).

Lemma doing_fail l0 l1 l2 :
  doing u agg l0 l1 -> inv l2 -> keeps (Some agg) l1 l2 -> st l2 = st l1 -> doing u agg l0 l2.
Proof.
  intros [D1 D2 D3 D4] I2 K2 E2. split; [done|by eapply keeps_trans| |by rewrite E2].
  pose proof (unseen_keeps _ _ _ D1 I2 K2). lia.
Qed.

(** The members, after the aggregate is finished. *)
Lemma wp_compute_members l0 l :
  inv l -> keeps (Some agg) l0 l -> (unseen l <= u)%nat -> st l agg = DONE ->
  wp (compute_members m tg c (S n_aggs) agg) l (computed l0).
Proof.
  intros Hi Hk Hu Hd. unfold compute_members. apply wp_bind, wp_gets.
  destruct (l_size _ <=? _); [|by apply wp_ret].
  apply wp_bind. eapply wp_mono; [apply (wp_flatten u c Hc Hm); [|done|done]|].
  { split; [lia|]. cbn. intros _. split; [done|]. pose proof (ao_rank _ (mo_aggs Hm agg Ha)). lia. }
  cbn. intros ms l1 [I1 K1 U1]. apply wp_update_core; [done|done|by apply (k_done _ _ _ K1)|done|].
  intros l2 I2 K2 E2 F2. split; [done|]. split.
  - eapply keeps_trans; [done|]. eapply keeps_weaken, keeps_trans; done.
  - intros _. rewrite E2. by apply (k_done _ _ _ K1).
Qed.

(** The units and the mark of a layout that has its size. *)
Lemma wp_compute_units l0 l :
  doing u agg l0 l ->
  (ls_failed l = false -> Forall (fun f => settled l (f_type f)) (a_fields t) /\ sized l agg (lay l agg)) ->
  wp (_ ← (if is_array t then mret tt else bit_units agg 0 (a_fields t));
      _ ← set_agg_state agg DONE; compute_members m tg c (S n_aggs) agg) l (computed l0).
Proof.
  intros D H. apply wp_bind.
  apply (wp_mono _ _ (fun _ l1 => doing u agg l l1 /\ (ls_failed l1 = false -> agg_good l1 agg))).
  - unfold is_array. case_bool_decide as Hk.
    + apply wp_ret. split; [apply doing_refl; by destruct D|]. intros Hf. destruct (H Hf) as [H1 [S1 S2 S3]].
      by split.
    + eapply wp_mono; [apply (wp_bit_units u); try by destruct D|].
      { intros Hf. destruct (H Hf) as [H1 [S1 S2 S3]]. destruct (S3 Hk) as [B1 B2]. split; [exact B1|exact B2]. }
      cbn. intros _ l1 [D1 Hu]. split; [done|]. intros Hf. destruct (doing_same _ _ _ _ D1 Hf) as [Hs F].
      destruct (H F) as [H1 [S1 S2 S3]]. destruct (Hu Hf) as [(U1 & U2 & U3) U4 U5 U6 U7]. split.
      * destruct S1. split; rewrite ?U1, ?U2, ?U3; done.
      * eapply Forall_impl; [exact H1|]. cbn. intros f Hset. by apply (same_fields l l1).
      * by eapply shape_same.
      * intros _ i f Hi Hne. rewrite U1. by apply (U7 i f).
  - intros _ l1 [D1 Hgood]. apply wp_bind.
    apply wp_mark; [apply D1|done|by rewrite (d_busy _ _ _ _ D1)|done|by auto|].
    intros l2 I2 K2 E2 F2 L2 _. pose proof (unseen_keeps _ _ _ (d_inv _ _ _ _ D1) I2 K2).
    pose proof (d_unseen _ _ _ _ D1). apply wp_compute_members; [done| |lia|done].
    eapply keeps_trans; [apply D|]. eapply keeps_trans; [apply D1|done].
Qed.

Definition finish (p : placing) : M unit :=
  let '(align, low) := final_align agg t p in
  _ ← match low with Some e => fail e | None => mret tt end;
  let '(size, ov) := round_up (whole_bytes (p_bit p)) align (p_overflow p) in
  _ ← update_layout agg (set_size_align size align);
  if ov || (size >? UINT64_MAX / 8) then
    _ ← fail (E_size_overflow agg);
    _ ← update_layout agg (set_size_align 1 1);
    set_agg_state agg DONE
  else
    _ ← update_layout agg (fun o => Layout (l_size o) (l_align o) (l_offsets o) (l_bits o) (l_members o)
          (l_unaligned o) (l_shared o) (a_simd t && (l_size o =? 16)));
    _ ← (if is_array t then mret tt else bit_units agg 0 (a_fields t));
    _ ← set_agg_state agg DONE;
    compute_members m tg c (S n_aggs) agg.

Lemma wp_finish p l0 l :
  doing u agg l0 l -> (ls_failed l = false -> laid l agg p (lay l agg)) -> wp (finish p) l (computed l0).
Proof.
  intros D H. unfold finish. destruct (final_align agg t p) as [align low] eqn:Hal.
  apply wp_bind. apply (wp_mono _ _ (fun _ l1 => doing u agg l l1 /\ (ls_failed l1 = false -> l1 = l /\ low = None))).
  { pose proof (doing_refl u agg l (d_inv _ _ _ _ D) (d_unseen _ _ _ _ D) (d_busy _ _ _ _ D)) as D0.
    destruct low as [e|]; [|by apply wp_ret].
    apply (wp_fail e (Some agg)); [apply D|]. intros l1 I1 K1 F1 E1. split; [by eapply doing_fail|congruence]. }
  intros _ l1 [D1 H1]. destruct (round_up _ _ _) as [size ov] eqn:Hsz.
  apply wp_bind. eapply wp_doing; [exact D1|done|]. intros l2 D2 D12 F2 L2. cbn beta.
  destruct (ov || _) eqn:C.
  - apply wp_bind. apply (wp_fail _ (Some agg)); [apply D2|]. intros l3 I3 K3 F3 E3.
    pose proof (doing_fail _ _ _ D2 I3 K3 E3) as D3.
    apply wp_bind. eapply wp_doing; [exact D3|done|]. intros l4 D4 _ F4 _. cbn beta.
    apply wp_mark; [apply D4|done|by rewrite (d_busy _ _ _ _ D4)|done|congruence|].
    intros l5 I5 K5 E5 F5 _ _. split; [done|]. split; [|done].
    eapply keeps_trans; [apply D|]. eapply keeps_trans; [apply D4|done].
  - apply orb_false_iff in C as [-> C]. rewrite Z.gtb_ltb in C. apply Z.ltb_ge in C.
    apply wp_bind. eapply wp_doing; [exact D2|done|]. intros l3 D3 D13 F3 L3. cbn beta.
    apply wp_compute_units; [by eapply doing_trans|]. intros Hf.
    assert (ls_failed l1 = false) as F1 by congruence. destruct (H1 F1) as [-> ->].
    destruct (H F1) as [Hset Hlaid]. rewrite L3, L2.
    destruct (laid_sized l agg p (lay l agg) align size) as [[] Hsh Hb]; try done; [apply D|].
    destruct (doing_same _ _ _ _ D3 Hf) as [Hs _]. split.
    + eapply Forall_impl; [exact Hset|]. cbn. intros f Hs'. by apply (same_fields l l3).
    + split; [by split| |exact Hb].
      eapply (shape_same l l3); [exact Hs|exact Hset|..|exact Hsh]; done.
Qed.

Lemma wp_compute_unseen l :
  inv l -> (unseen l <= S u)%nat -> st l agg = UNSEEN ->
  wp (compute_body m tg c g agg) l (fun _ l' => inv l' /\ keeps None l l' /\ (ls_failed l' = false -> st l' agg = DONE)).
Proof.
  intros Hi Hu Hun. unfold compute_body. apply wp_bind, wp_gets. fold (st l agg). rewrite Hun.
  rewrite bool_decide_false by done. apply wp_bind. apply wp_mark; [done|done|congruence|done|done|].
  intros l1 I1 K1 E1 F1 L1 U1. specialize (U1 Hun eq_refl).
  assert (doing u agg l l1) as D1 by (split; [done|done|lia|done]).
  apply wp_bind. eapply wp_doing; [exact D1|done|]. intros l2 D2 _ F2 L2. cbn beta. fold t. fold t in L2.
  apply wp_bind.
  apply (wp_mono _ _ (fun p l3 => doing u agg l2 l3 /\ (ls_failed l3 = false -> laid l3 agg p (lay l3 agg)))).
  - pose proof (d_inv _ _ _ _ D2) as I2. pose proof (d_unseen _ _ _ _ D2) as U2. pose proof (d_busy _ _ _ _ D2) as B2.
    assert (Forall (fun f => valid (f_type f)) (a_fields t)) as Hv.
    { apply Forall_forall. intros f Hin. by eapply inner_valid, (field_ok Hm agg). }
    assert (a_kind t <> IR_AGG_ARRAY -> wp (compute_fields tg c agg t) l2 (fun p l3 => doing u agg l2 l3 /\
      (ls_failed l3 = false -> laid l3 agg p (lay l3 agg)))) as Hfields.
    { intros Hk. eapply wp_mono; [by apply (wp_compute_fields u c Hc agg (a_fields t))|]. cbn.
      intros p l3 [D3 H3]. split; [done|]. intros Hf. destruct (H3 Hf) as [Hset Hall]. split; [done|]. fold t.
      assert (exists out0, l_offsets out0 = replicate (length (a_fields t)) 0 /\
        l_bits out0 = replicate (length (a_fields t)) zero_bits /\
        place_all (windows tg) (linux_arm64 tg) t 0 (with_facts l3 (a_fields t)) placing_start out0 =
          (p, lay l3 agg)) as Hex by (exists (lay l2 agg); split; [by rewrite L2|]; split; [by rewrite L2|exact Hall]).
      destruct (a_kind t); done. }
    destruct (a_kind t) eqn:Hk; [by apply Hfields|by apply Hfields|].
    destruct (ao_array _ (mo_aggs Hm agg Ha) Hk) as (Q1 & Q2 & (e & He) & Hlen). fold t in He, Hlen.
    rewrite He in Hv |- *. apply Forall_cons_1 in Hv as [Hv _].
    eapply wp_mono; [by apply (wp_compute_array u c Hc g)|]. cbn. intros p l3 [D3 H3]. split; [done|].
    intros Hf. destruct (H3 Hf) as (X1 & X2 & X3 & X4 & X5 & x & y & X6). unfold laid. fold t. rewrite He, Hk.
    split; [by constructor|]. exists e. split_and!; try done. intros i. rewrite X6, L2. cbn. rewrite default_replicate. done.
  - intros p l3 [D3 H3]. eapply wp_mono; [apply (wp_finish p l); [by eapply doing_trans|done]|].
    intros _ l' (I' & K' & S'). split; [done|]. split; [by eapply keeps_unseen|done].
Qed.
End Compute.

Lemma compute_body_ok u c g :
  module_ok -> (0 < u -> compute_spec (pred u) c /\ fold_spec (pred u) (length (m_syms m)) g)%nat ->
  compute_spec u (compute_body m tg c g).
Proof.
  intros Hm Hcg agg l Hi Hu Ha Hnd. destruct (st l agg) eqn:Hst; [| |done].
  - assert (0 < unseen l)%nat as Hpos.
    { unfold unseen. rewrite (unseen_insert_list (ls_agg_state l) agg); [lia| |exact Hst].
      by rewrite (inv_states _ Hi). }
    destruct (Hcg ltac:(lia)) as [Hc Hg]. eapply (wp_compute_unseen Hm (pred u)); try done. lia.
  - unfold compute_body. apply wp_bind, wp_gets. fold (st l agg). rewrite Hst, bool_decide_true by done.
    apply wp_bind. apply (wp_fail _ None); [done|]. intros l1 I1 K1 F1 E1.
    apply wp_update; [done|done|rewrite E1; congruence|]. intros l2 I2 K2 E2 F2 _. split; [done|].
    split; [|congruence]. eapply keeps_trans; [done|]. rewrite F1 in F2. destruct K2. split; auto; try congruence.
Qed.

(** ** The fuel *)

(** [compute] needs a round for each aggregate not seen yet and, between two of
    them, one for each symbolic value. *)
Lemma run_ok f :
  module_ok ->
  (forall u, (1 + u * S (length (m_syms m)) <= f)%nat -> compute_spec u (run m tg f).1) /\
  (forall u k, (1 + u * S (length (m_syms m)) + k <= f)%nat -> fold_spec u k (run m tg f).2).
Proof.
  intros Hm. induction f as [|f [IHc IHg]]; [split; intros; lia|].
  assert (forall u, (1 + u * S (length (m_syms m)) <= S f)%nat -> compute_spec u (run m tg (S f)).1) as Hc.
  { intros u Hf. cbn [run]. destruct (run m tg f) as [c g]. cbn [fst snd] in *. apply compute_body_ok; [done|].
    intros Hu. destruct u as [|u]; [lia|]. cbn [pred]. cbn [Nat.mul] in Hf.
    split; [apply IHc; lia|apply IHg; lia]. }
  split; [done|]. intros u [|k] Hf; [intros sym l _ _ Hlt; lia|].
  cbn [run]. destruct (run m tg f) as [c g]. cbn [fst snd] in *.
  apply fold_body_ok; [done|apply IHc; lia|apply IHg; lia].
Qed.

Lemma run_fuel_ok :
  module_ok -> compute_spec n_aggs (run m tg (run_fuel m)).1 /\
  fold_spec n_aggs (length (m_syms m)) (run m tg (run_fuel m)).2.
Proof.
  intros Hm. destruct (run_ok (run_fuel m) Hm) as [Hc Hg].
  split; [apply Hc|apply Hg]; unfold run_fuel; nia.
Qed.
End Run.
