(* ===== verification/LayoutSpec.v ===== *)
(** * LayoutSpec: what a finished layout holds

    The properties of [layout_init]: it ends for every module that keeps the
    rules of the checker, and when it reports no error every struct, union and
    array has the layout the rules of C give it, the unit of every bitfield lies in
    its aggregate, and every symbolic value folds to what it names. *)

From S2P Require Import Prelude Arith Target Ir IrFold Layout LayoutPlace LayoutRun.

(** ** The loop over the aggregates *)

Section Init.
Context (m : ir_module) (tg : target) (rank : nat -> nat) (Hm : module_ok m tg rank).

Notation n_aggs := (length (m_aggs m)).

Lemma inv_start : inv m tg (layout_start m).
Proof.
  split; cbn; rewrite ?length_replicate; try done.
  - intros _ a Hd. unfold st in Hd. cbn in Hd. by rewrite default_replicate in Hd.
  - intros _ s Hd. unfold sym_st in Hd. cbn in Hd. by rewrite default_replicate in Hd.
Qed.

Lemma unseen_bound l : inv m tg l -> (unseen l <= n_aggs)%nat.
Proof. intros Hi. unfold unseen. rewrite <- (inv_states _ _ _ Hi). apply length_filter. Qed.

Lemma wp_layout_all aggs i l :
  (i + length aggs = n_aggs)%nat -> inv m tg l ->
  (ls_failed l = false -> forall a, (a < i)%nat -> st l a = DONE) ->
  wp (layout_all m tg i aggs) l (fun _ l' => inv m tg l' /\
    (ls_failed l' = false -> forall a, (a < n_aggs)%nat -> st l' a = DONE)).
Proof.
  revert i l. induction aggs as [|t aggs IH]; intros i l Hn Hi Hd; cbn [layout_all].
  { apply wp_ret. split; [done|]. intros Hf a Ha. apply Hd; [done|]. cbn in Hn. lia. }
  cbn [length] in Hn. apply wp_bind, wp_gets. destruct (ls_failed l) eqn:Hfl.
  { apply wp_ret. split; [done|]. congruence. }
  destruct (run_fuel_ok m tg rank Hm) as [Hc _]. apply wp_bind.
  eapply wp_mono; [apply (wp_layout_agg m tg n_aggs _ Hc); [done|by apply unseen_bound|lia]|].
  cbn. intros o l1 (R1 & _ & Hi1). apply IH; [lia|apply R1|]. intros Hf a Ha.
  destruct (decide (a = i)) as [->|]; [by apply Hi1|]. apply (k_done _ _ _ (r_keeps _ _ _ _ _ R1)). apply Hd; done || lia.
Qed.

Lemma layout_init_wp :
  exists l, layout_init m tg = Some (negb (ls_failed l), l) /\ inv m tg l /\
    (ls_failed l = false -> forall a, (a < n_aggs)%nat -> st l a = DONE).
Proof.
  pose proof (wp_layout_all (m_aggs m) 0 (layout_start m) eq_refl inv_start ltac:(intros; lia)) as H.
  apply wp_some in H as (? & l & E & H1 & H2). exists l. unfold layout_init. rewrite E. done.
Qed.

Lemma layout_init_good l a :
  layout_init m tg = Some (true, l) -> (a < n_aggs)%nat ->
  agg_good m tg l a /\ inv m tg l /\ ls_failed l = false /\
  Forall (fun x => facts_ok x.1 x.2) (with_facts tg l (a_fields (agg_type m a))).
Proof.
  intros E Ha. destruct layout_init_wp as (l' & E' & Hi & Hd). rewrite E in E'. injection E' as Hf <-.
  apply eq_sym, negb_true_iff in Hf. pose proof (inv_good _ _ _ Hi Hf a (Hd Hf a Ha)) as Hg.
  split_and!; try done. eapply (with_facts_ok m tg rank); try done. apply Hg.
Qed.
End Init.

(** ** A module

    A struct, an array of it whose length is symbolic, a struct with bitfields, a
    union and a simd struct. *)
Module Sample.
Definition scalar (t : ir_type) : ir_vtype := {| vt_type := t; vt_agg := 0 |}.
Definition agg (a : nat) : ir_vtype := {| vt_type := IR_AGG; vt_agg := a |}.
Definition field (name : list Z) (v : ir_vtype) (bits : Z) : ir_field :=
  {| f_name := Some name; f_type := v; f_bits := bits; f_ext := IR_EXT_ZERO; f_atomic := false |}.
Definition aggtype (kind : ir_agg_kind) (simd : bool) (fs : list ir_field) : ir_aggtype :=
  {| a_kind := kind; a_name := []; a_fields := fs; a_packed := false; a_simd := simd; a_align := 0;
     a_length := 2; a_length_text := [] |}.
Definition symbol (kind : ir_sym_kind) (value : Z) (a : nat) (b : option nat) : ir_sym :=
  {| s_kind := kind; s_type := IR_I64; s_value := value; s_of := agg a; s_field := 0; s_op := IR_ADD;
     s_a := 0; s_b := b |}.

Definition modul : ir_module := {|
  m_aggs :=
    [ aggtype IR_AGG_STRUCT false [field [97] (scalar IR_I8) 0; field [98] (scalar IR_CLONG) 0];
      aggtype IR_AGG_ARRAY false [field [101] (agg 0) 0];
      aggtype IR_AGG_STRUCT false
        [field [97] (scalar IR_I32) 3; field [98] (scalar IR_I32) 30; field [95] (scalar IR_I32) 0;
         field [99] (scalar IR_I8) 5; field [100] (agg 1) 0];
      aggtype IR_AGG_UNION false [field [97] (agg 0) 0; field [98] (scalar IR_I16) 7];
      aggtype IR_AGG_STRUCT true (replicate 4 (field [108] (scalar IR_F32) 0)) ];
  m_syms := [ symbol IR_SYM_INT 1 0 None; symbol IR_SYM_SIZE_OF 0 0 None; symbol IR_SYM_OP 0 0 (Some 1%nat) ];
  m_functions := []; m_globals := []; m_classes := [] |}.

Definition rank (a : nat) : nat := match a with 1%nat | 3%nat => 1 | 2%nat => 2 | _ => 0 end.

Lemma ok tg : module_ok modul tg rank.
Proof.
  split.
  - intros a Ha. cbn in Ha.
    destruct a as [|[|[|[|[|a]]]]]; [..|lia]; (split; [cbn; lia| |by left|..]).
    all: try (repeat constructor; cbn; try lia; try done; destruct tg; vm_decide).
    all: try done.
    all: intros _; split; [done|split; [done|]].
    + split; [eexists; reflexivity|cbn; lia].
    + exists IR_F32, 2%nat. split; [done|]. split; [done|]. repeat constructor.
  - intros sym s. destruct sym as [|[|[|sym]]]; cbn; intros [= <-]; try done; cbn; try (intros _; cbn; lia); lia.
Qed.

Definition laid (tg : target) : layouts :=
  match layout_init modul tg with Some (_, l) => l | None => layout_start modul end.
End Sample.

(** ** Properties *)

Section Properties.
  Context (m : ir_module) (tg : target) (rank : nat -> nat).

  Notation agg_type := (agg_type m).
  Notation n_aggs := (length (m_aggs m)).

(** C16. The layout always ends: for every module that keeps the rules of the
    checker, whatever the target, [layout_init] returns, with success exactly when
    no error is recorded; then every aggregate has a size below 2^61 bytes, a
    power of two as its alignment, and a size that is a multiple of it. *)
Theorem layout_ends (Hm : module_ok m tg rank) :
  exists ok l, layout_init m tg = Some (ok, l) /\ (ok = false -> ls_error l <> None) /\
    (ok = true -> forall a, (a < n_aggs)%nat ->
      (exists k, 0 <= k /\ l_align (lay l a) = 2 ^ k) /\ (l_align (lay l a) | l_size (lay l a)) /\
      0 <= 8 * l_size (lay l a) < 2 ^ 64).
Proof.
  destruct (layout_init_wp m tg rank Hm) as (l & E & Hi & Hd). exists (negb (ls_failed l)), l.
  split; [done|]. split.
  - intros Hf%negb_false_iff. by apply Hi.
  - intros Hf%negb_true_iff a Ha. destruct (inv_good _ _ _ Hi Hf a (Hd Hf a Ha)) as [[S1 S2 S3 S4 S5] _ _ _].
    split_and!; try done; pow2s; lia.
Qed.

(** C9. The fields of a struct, under the rules of System V and of MSVC alike. A
    field lies inside the struct; a field that is no bitfield starts at a multiple
    of its alignment, which divides the alignment of the struct; a bitfield of a
    struct that is not packed crosses no boundary of its type; and a later field
    starts where the field before it ends or after that, so no two fields share a
    bit. A size or an alignment of a field is the finished one of its type. *)
Theorem struct_fields_disjoint l a i f (Hm : module_ok m tg rank) :
  layout_init m tg = Some (true, l) -> a_kind (agg_type a) = IR_AGG_STRUCT -> (a < n_aggs)%nat ->
  a_fields (agg_type a) !! i = Some f -> is_unit_break f = false ->
  let t := agg_type a in let o := lay l a in let facts := facts_of tg l (f_type f) in
  0 <= first_bit f i o /\ last_bit f i facts o <= 8 * l_size o /\
  default 0 (l_offsets o !! i) = first_bit f i o / 8 /\
  (f_bits f = 0 -> (field_align t f facts | default 0 (l_offsets o !! i))) /\ (field_align t f facts | l_align o) /\
  (f_bits f <> 0 -> a_packed t = false ->
    first_bit f i o mod (8 * ff_size facts) + f_bits f <= 8 * ff_size facts) /\
  (forall j g, (i < j)%nat -> a_fields t !! j = Some g -> is_unit_break g = false ->
    last_bit f i facts o <= first_bit g j o).
Proof.
  intros E Hk Ha Hi Hb. destruct (layout_init_good m tg rank Hm l a E Ha) as ([_ _ Hsh _] & _ & _ & Hfacts).
  unfold shape_ok in Hsh. rewrite Hk in Hsh.
  pose proof (with_facts_lookup tg l _ _ _ Hi) as Hl.
  pose proof (Forall_lookup_1 _ _ _ _ Hfacts Hl) as Hf. pose proof (field_align_pos (agg_type a) _ _ Hf).
  destruct (in_order_lookup _ _ _ _ _ _ _ _ _ _ Hfacts Hsh Hl Hb) as [P1 P2 P3 P4 P5 P6].
  cbv zeta. split_and!; try done.
  - intros Hz. apply pow2_divide_mod; [cbn in *; lia|by apply P3].
  - intros j g Hij Hj Hbg.
    apply (in_order_pair _ _ _ _ _ _ _ _ _ _ _ _ _ Hfacts Hsh Hij Hl Hb (with_facts_lookup tg l _ _ _ Hj) Hbg).
Qed.

(** The fields of a union: each starts at offset 0, ends inside the union, and
    its alignment divides the alignment of the union. *)
Lemma union_fields_at_zero l a i f (Hm : module_ok m tg rank) :
  layout_init m tg = Some (true, l) -> a_kind (agg_type a) = IR_AGG_UNION -> (a < n_aggs)%nat ->
  a_fields (agg_type a) !! i = Some f -> is_unit_break f = false ->
  let o := lay l a in let facts := facts_of tg l (f_type f) in
  default 0 (l_offsets o !! i) = 0 /\ lb_pos (default zero_bits (l_bits o !! i)) = 0 /\
  last_bit f i facts o <= 8 * l_size o /\ (field_align (agg_type a) f facts | l_align o).
Proof.
  intros E Hk Ha Hi Hb. destruct (layout_init_good m tg rank Hm l a E Ha) as ([_ _ Hsh _] & _ & _ & Hfacts).
  unfold shape_ok in Hsh. rewrite Hk in Hsh.
  exact (at_zero_lookup _ _ _ _ _ _ _ _ _ Hsh (with_facts_lookup tg l _ _ _ Hi) Hb).
Qed.

(** An array has the size of its elements one after the other, with no
    padding, and their alignment; its length is the value its symbolic length
    folds to, from 1 to 2^63 - 1, and the product fits. *)
Lemma array_size_exact l a e (Hm : module_ok m tg rank) :
  layout_init m tg = Some (true, l) -> a_kind (agg_type a) = IR_AGG_ARRAY -> (a < n_aggs)%nat ->
  a_fields (agg_type a) = [e] ->
  let n := value l (a_length (agg_type a)) in
  sym_good m tg l (a_length (agg_type a)) n /\ 1 <= n < 2 ^ 63 /\
  l_size (lay l a) = n * size_of tg l (f_type e) /\ l_align (lay l a) = align_of tg l (f_type e).
Proof.
  intros E Hk Ha He. destruct (layout_init_good m tg rank Hm l a E Ha) as ([_ _ Hsh _] & Hi & Hf & _).
  unfold shape_ok in Hsh. rewrite Hk, He in Hsh. destruct Hsh as (e' & [= <-] & H1 & H2 & H3 & H4).
  split; [by apply (inv_sym _ _ _ Hi Hf)|done].
Qed.

(** C17. The unit of a bitfield, the integer that a load or a store of the field
    takes, lies inside the aggregate, and the whole field lies in the unit at its
    shift: bit [shift] of the unit is the first bit of the field. *)
Theorem bitfield_unit_holds_field l a i f (Hm : module_ok m tg rank) :
  layout_init m tg = Some (true, l) -> a_kind (agg_type a) <> IR_AGG_ARRAY -> (a < n_aggs)%nat ->
  a_fields (agg_type a) !! i = Some f -> f_bits f <> 0 ->
  let b := default zero_bits (l_bits (lay l a) !! i) in
  0 <= lb_unit_offset b /\ lb_unit_offset b + unit_bytes (lb_unit_type b) <= l_size (lay l a) /\
  lb_pos b = 8 * lb_unit_offset b + lb_shift b /\
  0 <= lb_shift b /\ lb_shift b + f_bits f <= 8 * unit_bytes (lb_unit_type b).
Proof.
  intros E Hk Ha Hi Hb. destruct (layout_init_good m tg rank Hm l a E Ha) as ([_ _ _ Hu] & _).
  by destruct (Hu Hk i f Hi Hb).
Qed.

(** C26. Folding after the layout: [layout_fold] ends on every symbolic value,
    changes no layout, and gives the value the name stands for on the target: the
    constant, the finished size of the type, the finished offset of the field, or
    the operation on the values of its operands; no value only with an error. *)
Theorem fold_gives_meaning l sym (Hm : module_ok m tg rank) :
  layout_init m tg = Some (true, l) -> (sym < length (m_syms m))%nat ->
  exists r l', (run m tg (run_fuel m)).2 sym l = Some (r, l') /\
    match r with
    | Some v => sym_good m tg l' sym v /\ (forall a, (a < n_aggs)%nat -> core (lay l' a) = core (lay l a))
    | None => ls_error l' <> None
    end.
Proof.
  intros E Hs. destruct (layout_init_wp m tg rank Hm) as (l0 & E' & Hi & Hd). rewrite E in E'. injection E' as Hf <-.
  apply eq_sym, negb_true_iff in Hf. destruct (run_fuel_ok m tg rank Hm) as [_ Hg].
  pose proof (Hg sym l Hi (unseen_bound m tg l Hi) Hs Hs) as H. apply wp_some in H as (r & l' & Er & Hi' & Hk & Hr).
  exists r, l'. split; [done|]. destruct r as [v|]; [|by apply Hi'].
  destruct Hr as [Hr1 Hr2]. destruct (Hr2 (Hr1 Hf)) as [Hd' <-]. split; [by apply Hi', Hd'; apply Hr1|].
  intros a Ha. by apply (k_lay _ _ _ Hk (Hr1 Hf)), Hd.
Qed.
End Properties.

Lemma layout_ends_witness :
  module_ok Sample.modul TARGET_MACOS_ARM64 Sample.rank /\
  exists ok l, layout_init Sample.modul TARGET_MACOS_ARM64 = Some (ok, l) /\ (ok = false -> ls_error l <> None) /\
    (ok = true -> forall a, (a < 5)%nat ->
      (exists k, 0 <= k /\ l_align (lay l a) = 2 ^ k) /\ (l_align (lay l a) | l_size (lay l a)) /\
      0 <= 8 * l_size (lay l a) < 2 ^ 64).
Proof.
  split; [apply Sample.ok|]. exact (layout_ends Sample.modul TARGET_MACOS_ARM64 Sample.rank (Sample.ok _)).
Defined.

(** The bitfield [b] of the third struct, before the array [d]. *)
Lemma struct_fields_disjoint_witness :
  let l := Sample.laid TARGET_WINDOWS_X86_64 in
  let f := Sample.field [98] (Sample.scalar IR_I32) 30 in let g := Sample.field [100] (Sample.agg 1) 0 in
  first_bit f 1 (lay l 2) = 32 /\ last_bit f 1 (facts_of TARGET_WINDOWS_X86_64 l (f_type f)) (lay l 2) = 62 /\
  last_bit f 1 (facts_of TARGET_WINDOWS_X86_64 l (f_type f)) (lay l 2) <= first_bit g 4 (lay l 2).
Proof.
  cbv zeta. split; [vm_compute; reflexivity|]. split; [vm_compute; reflexivity|].
  apply (struct_fields_disjoint Sample.modul TARGET_WINDOWS_X86_64 Sample.rank (Sample.laid TARGET_WINDOWS_X86_64) 2 1
    (Sample.field [98] (Sample.scalar IR_I32) 30) (Sample.ok _)); try (vm_compute; reflexivity); cbn; lia.
Defined.

Lemma bitfield_unit_holds_field_witness :
  let b := default zero_bits (l_bits (lay (Sample.laid TARGET_LINUX_X86_64) 2) !! 1%nat) in
  lb_pos b = 32 /\ lb_unit_offset b = 4 /\ lb_pos b = 8 * lb_unit_offset b + lb_shift b.
Proof.
  cbv zeta. split; [vm_compute; reflexivity|]. split; [vm_compute; reflexivity|].
  apply (bitfield_unit_holds_field Sample.modul TARGET_LINUX_X86_64 Sample.rank (Sample.laid TARGET_LINUX_X86_64) 2 1
    (Sample.field [98] (Sample.scalar IR_I32) 30) (Sample.ok _)); try (vm_compute; reflexivity); cbn; done || lia.
Defined.

Lemma fold_gives_meaning_witness :
  let l := Sample.laid TARGET_LINUX_X86_64 in let m := Sample.modul in
  option_map fst ((run m TARGET_LINUX_X86_64 (run_fuel m)).2 2%nat l) = Some (Some 17) /\
  exists r l', (run m TARGET_LINUX_X86_64 (run_fuel m)).2 2%nat l = Some (r, l') /\
    match r with
    | Some v => sym_good m TARGET_LINUX_X86_64 l' 2 v /\
        (forall a, (a < length (m_aggs m))%nat -> core (lay l' a) = core (lay l a))
    | None => ls_error l' <> None
    end.
Proof.
  cbv zeta. split; [vm_compute; reflexivity|].
  apply (fold_gives_meaning Sample.modul TARGET_LINUX_X86_64 Sample.rank (Sample.laid TARGET_LINUX_X86_64) 2 (Sample.ok _));
    [vm_compute; reflexivity|cbn; lia].
Defined.
