(* ===== verification/LayoutData.v ===== *)
(** * LayoutData: what the finished layouts are for

    The rest of src/antic/layout.c: [layout_resolve] gives the operands and the types
    of a function their values on the target, and [layout_data] writes the bytes of
    every constant. Both run after [layout_init] in the same state. *)

From S2P Require Import Prelude Double Target Ir Layout.

(** A step that may report a folding error, which is [None]. *)
Definition and_then {A B} (x : M (option A)) (f : A -> M (option B)) : M (option B) :=
  r ← x; match r with Some a => f a | None => mret None end.
Notation "'let?' x := e 'in' z" := (and_then e (fun x => z))
  (at level 200, x strict pattern, e at level 200, z at level 200) : antic_scope.
#[local] Open Scope antic_scope.

Section Data.
Context (m : ir_module) (tg : target).

Notation layout_agg := (layout_agg (run m tg (run_fuel m)).1).
Notation layout_size := (layout_size tg (run m tg (run_fuel m)).1).
Notation layout_align := (layout_align tg (run m tg (run_fuel m)).1).
Notation layout_fold := (run m tg (run_fuel m)).2.

(** ** Functions *)

Definition resolve_type (type : ir_type) (resolved : bool) : ir_type * bool :=
  let fixed := target_type tg type in
  if bool_decide (fixed = type) then (type, resolved) else (fixed, true).

Definition resolve (o : ir_operand) (resolved : bool) : M (option (ir_operand * bool)) :=
  let '(type, resolved) := resolve_type (o_type o) resolved in
  match o_kind o with
  | IR_INT v => mret (Some (ir_int_op type v, resolved))
  | IR_SYM sym => let? value := layout_fold sym in mret (Some (ir_int_op type value, true))
  | kind => mret (Some (Operand kind type, resolved))
  end.

Definition is_conversion (op : ir_op) : bool :=
  bool_decide (op = IR_TRUNC) || bool_decide (op = IR_SEXT) || bool_decide (op = IR_ZEXT).

Definition wchar_signedness (inst : ir_inst) : ir_op :=
  let on_wchar := bool_decide (i_type inst = IR_CWCHAR) || bool_decide (o_type (i_a inst) = IR_CWCHAR) in
  if on_wchar && wchar_signed tg then signed_op (i_op inst) else i_op inst.

(** The loops over lists, which change each element and stop at an error. *)
Fixpoint resolve_types (types : list ir_type) (resolved : bool) : list ir_type * bool :=
  match types with
  | [] => ([], resolved)
  | type :: types =>
      let '(type, resolved) := resolve_type type resolved in
      let '(types, resolved) := resolve_types types resolved in (type :: types, resolved)
  end.

Fixpoint resolve_each {A} (f : A -> bool -> M (option (A * bool))) (xs : list A) (resolved : bool)
    : M (option (list A * bool)) :=
  match xs with
  | [] => mret (Some ([], resolved))
  | x :: xs =>
      let? (x, resolved) := f x resolved in
      let? (xs, resolved) := resolve_each f xs resolved in
      mret (Some (x :: xs, resolved))
  end.

Definition resolve_inst (inst : ir_inst) (resolved : bool) : M (option (ir_inst * bool)) :=
  let op := wchar_signedness inst in
  let '(type, resolved) := resolve_type (i_type inst) resolved in
  let? (a, resolved) := resolve (i_a inst) resolved in
  let? (b, resolved) := resolve (i_b inst) resolved in
  let? (c, resolved) := resolve (i_c inst) resolved in
  let? (args, resolved) := resolve_each resolve (i_args inst) resolved in
  let op := if is_conversion op && bool_decide (o_type a = type) then IR_COPY else op in
  mret (Some (Inst op type (i_result inst) a b c (i_of inst) (i_field inst) (i_member inst) args, resolved)).

Definition set_param_type (p : ir_param) (type : ir_type) : ir_param :=
  {| pr_type := type; pr_ext := pr_ext p; pr_agg := pr_agg p; pr_temp := pr_temp p; pr_nonnull := pr_nonnull p;
     pr_own := pr_own p; pr_deref_size := pr_deref_size p |}.

(** [None] for a folding error, after which the program builds nothing of the
    function. *)
Definition layout_resolve (f : ir_function) (resolved : bool) : M (option (ir_function * bool)) :=
  let '(result, resolved) := resolve_type (fn_result f) resolved in
  let '(params, resolved) := resolve_types (map pr_type (fn_params f)) resolved in
  let '(temps, resolved) := resolve_types (fn_temps f) resolved in
  let? (blocks, resolved) := resolve_each (resolve_each resolve_inst) (fn_blocks f) resolved in
  mret (Some ({| fn_params := zip_with set_param_type (fn_params f) params;
                 fn_result := result; fn_result_agg := fn_result_agg f; fn_result_ext := fn_result_ext f;
                 fn_allocates := fn_allocates f; fn_result_range := fn_result_range f; fn_is_extern := fn_is_extern f;
                 fn_variadic := fn_variadic f; fn_never_returns := fn_never_returns f;
                 fn_blocks := blocks; fn_temps := temps |}, resolved)).

(** ** Constants *)

Definition set_bytes (g : ir_global) (bytes : list Z) : ir_global :=
  Global bytes (g_size g) (g_align g) (g_relocs g) (g_value g).

(** The loop from byte [i] on, for [n] bytes at most. *)
Fixpoint write_bytes (g : ir_global) (offset i : Z) (n : nat) (bits : Z) : ir_global :=
  match n with
  | O => g
  | S n =>
      if u64 (offset + i) <? g_size g then
        write_bytes (set_bytes g (<[Z.to_nat (u64 (offset + i)) := u8 (Z.shiftr bits (i * 8))]> (g_bytes g)))
          offset (i + 1) n bits
      else g
  end.

Definition write_int (g : ir_global) (offset size bits : Z) : ir_global :=
  write_bytes g offset 0 (Z.to_nat size) bits.

Fixpoint read_bytes (g : ir_global) (offset i : Z) (n : nat) (bits : Z) : Z :=
  match n with
  | O => bits
  | S n =>
      if u64 (offset + i) <? g_size g then
        read_bytes g offset (i + 1) n
          (Z.lor bits (u64 (Z.shiftl (default 0 (g_bytes g !! Z.to_nat (u64 (offset + i)))) (i * 8))))
      else bits
  end.

Definition read_int (g : ir_global) (offset size : Z) : Z := read_bytes g offset 0 (Z.to_nat size) 0.

Definition const_vtype (c : ir_const) : ir_vtype :=
  if bool_decide (c_kind c = IR_CONST_AGG) then c_type c else ir_scalar (c_scalar c).

Definition write_bits (g : ir_global) (t : ir_aggtype) (out : layout) (i : nat) (base value : Z) : M ir_global :=
  let b := default zero_bits (l_bits out !! i) in
  size ← layout_size (ir_scalar (lb_unit_type b));
  let width := match a_fields t !! i with Some f => f_bits f | None => 0 end in
  let mask := if width >=? 64 then UINT64_MAX else Z.shiftl 1 width - 1 in
  let unit := read_int g (u64 (base + lb_unit_offset b)) size in
  mret (write_int g (u64 (base + lb_unit_offset b)) size
          (Z.lor unit (u64 (Z.shiftl (Z.land value mask) (lb_shift b))))).

(** The bits of a float constant of [size] bytes. *)
Definition float_const_bits (floating size : Z) : Z :=
  let d := double_of_bits floating in
  if is_nan d then (if size =? 4 then 0x7fc00000 else 0x7ff8000000000000)
  else if size =? 4 then bits_of_float (arith_to_f32 d) else floating.

(** The loop over items that ends with the fields. *)
Definition write_field (write_const : ir_global -> ir_const -> Z -> M ir_global) (t : ir_aggtype) (out : layout)
    (base : Z) (i : nat) (item : ir_const) (g : ir_global) : M ir_global :=
  match a_fields t !! i with
  | None => mret g
  | Some f =>
      if is_unit_break f then mret g
      else if negb (f_bits f =? 0) then write_bits g t out i base (c_integer item)
      else write_const g item (u64 (base + default 0 (l_offsets out !! i)))
  end.

(** [write_agg] is the last case. *)
Fixpoint write_const (g : ir_global) (c : ir_const) (base : Z) : M ir_global :=
  let write_agg :=
    let t := agg_type m (vt_agg (c_type c)) in
    out ← layout_agg (vt_agg (c_type c));
    if bool_decide (a_kind t = IR_AGG_ARRAY) then
      match a_fields t with
      | [] => mret g
      | e :: _ =>
          step ← layout_size (f_type e);
          each (fun i item g => write_const g item (u64 (base + u64 (Z.of_nat i * step)))) 0 (c_items c) g
      end
    else each (write_field write_const t out base) 0 (c_items c) g in
  match c_kind c with
  | IR_CONST_NONE => mret g
  | kind =>
      size ← layout_size (const_vtype c);
      match kind with
      | IR_CONST_INT => mret (write_int g base size (c_integer c))
      | IR_CONST_FLOAT => mret (write_int g base size (float_const_bits (c_floating c) size))
      | IR_CONST_SYM =>
          value ← layout_fold (c_sym c);
          mret (match value with Some bits => write_int g base size bits | None => g end)
      | IR_CONST_ADDR => mret (ir_global_reloc g base (c_global c))
      | IR_CONST_FUNC => mret (ir_global_reloc_fn g base (c_global c))
      | _ => write_agg
      end
  end.

(** The bytes, the size and the alignment of a global that holds a constant. *)
Definition global_data (g : ir_global) : M ir_global :=
  match g_value g with
  | None => mret g
  | Some c =>
      size ← layout_size (const_vtype c);
      align ← layout_align (const_vtype c);
      write_const (Global (replicate (Z.to_nat (if size =? 0 then 1 else size)) 0) size align (g_relocs g) (g_value g))
        c 0
  end.

Fixpoint globals_data (gs : list ir_global) : M (list ir_global) :=
  match gs with
  | [] => mret []
  | g :: rest =>
      failed ← gets ls_failed;
      if failed : bool then mret gs
      else (g ← global_data g; rest ← globals_data rest; mret (g :: rest))
  end.

Definition layout_data (globals : list ir_global) : M (bool * list ir_global) :=
  globals ← globals_data globals;
  failed ← gets ls_failed;
  mret (negb failed, globals).
End Data.
