(* ===== verification/LayoutBytes.v ===== *)
(** * LayoutBytes: the bytes of a global as one number

    The memory of a global is the number its bytes spell, lowest byte first. In it
    [write_int] replaces the bits of a value, [read_int] cuts them out, and
    [write_bits] of LayoutData.v adds those of a bitfield. *)

From S2P Require Import Prelude Ir Layout LayoutData.

(** ** Numbers by bytes *)

Fixpoint le_value (bs : list Z) : Z :=
  match bs with [] => 0 | b :: bs => Z.lor b (Z.shiftl (le_value bs) 8) end.

Definition memory (g : ir_global) : Z := le_value (g_bytes g).

(** No bit of [x] from [lo] to [hi] is set. *)
Definition clear (x lo hi : Z) : Prop := forall k, lo <= k < hi -> Z.testbit x k = false.

Lemma clear_mono x lo hi lo' hi' : lo <= lo' -> hi' <= hi -> clear x lo hi -> clear x lo' hi'.
Proof. intros ? ? H k Hk. apply H. lia. Qed.

Lemma byte_high b k : is_byte b -> 8 <= k -> Z.testbit b k = false.
Proof. intros Hb Hk. by apply (testbit_small b 8). Qed.

Lemma le_value_bit bs k :
  Forall is_byte bs -> 0 <= k ->
  Z.testbit (le_value bs) k = Z.testbit (default 0 (bs !! Z.to_nat (k / 8))) (k mod 8).
Proof.
  intros Hbs. revert k. induction Hbs as [|b bs Hb _ IH]; intros k Hk; cbn [le_value].
  { by rewrite lookup_nil, !Z.bits_0. }
  rewrite Z.lor_spec, Z.shiftl_spec by done. destruct (Z.lt_ge_cases k 8).
  - rewrite (Z.testbit_neg_r _ (k - 8)), orb_false_r by lia. by rewrite Z.div_small, Z.mod_small by lia.
  - rewrite (byte_high b), orb_false_l, IH by (done || lia).
    replace (k / 8) with (Z.succ ((k - 8) / 8)) by (Z.div_mod_to_equations; lia).
    rewrite Z2Nat.inj_succ by (apply Z.div_pos; lia). cbn [lookup list_lookup].
    f_equal. Z.div_mod_to_equations; lia.
Qed.

Lemma le_value_nonneg bs : Forall is_byte bs -> 0 <= le_value bs.
Proof.
  induction 1 as [|b bs [Hb _] _ IH]; cbn [le_value]; [done|]. apply Z.lor_nonneg. split; [done|].
  by apply Z.shiftl_nonneg.
Qed.

Lemma le_value_zeros n : le_value (replicate n 0) = 0.
Proof. induction n as [|n IH]; [done|]. cbn [replicate le_value]. by rewrite IH. Qed.

(** ** Globals *)

Record global_ok (g : ir_global) : Prop := {
  go_bytes : Forall is_byte (g_bytes g);
  go_size : 0 <= g_size g <= Z.of_nat (length (g_bytes g));
  go_fits : 8 * g_size g < 2 ^ 64;
}.

(** [g'] is [g] with other bytes of the same number. *)
Record rewritten (g g' : ir_global) : Prop := {
  rw_ok : global_ok g';
  rw_size : g_size g' = g_size g;
  rw_align : g_align g' = g_align g;
  rw_value : g_value g' = g_value g;
  rw_length : length (g_bytes g') = length (g_bytes g);
}.

Lemma rewritten_refl g : global_ok g -> rewritten g g.
Proof. by split. Qed.

Lemma rewritten_trans g1 g2 g3 : rewritten g1 g2 -> rewritten g2 g3 -> rewritten g1 g3.
Proof. intros [] []. split; congruence. Qed.

Lemma u64_small x : 0 <= x < 2 ^ 64 -> u64 x = x.
Proof. apply wrap_small. Qed.

(** ** Writing a value *)

Lemma write_bytes_spec g offset i n bits :
  global_ok g -> 0 <= offset -> 0 <= i -> offset + i + Z.of_nat n <= g_size g ->
  let g' := write_bytes g offset i n bits in
  rewritten g g' /\ g_relocs g' = g_relocs g /\
  forall k, 0 <= k -> Z.testbit (memory g') k =
    if (8 * (offset + i) <=? k) && (k <? 8 * (offset + i + Z.of_nat n))
    then Z.testbit bits (k - 8 * offset) else Z.testbit (memory g) k.
Proof.
  cbv zeta. revert g i. induction n as [|n IH]; intros g i Hg Ho Hi Hend; cbn [write_bytes].
  { split; [by apply rewritten_refl|]. split; [done|]. intros k Hk.
    destruct (Z.leb_spec (8 * (offset + i)) k); [|done]. by zdecide. }
  destruct Hg as [Hb Hs Hf]. rewrite u64_small by lia. zdecide.
  set (g1 := set_bytes _ _). set (j := Z.to_nat (offset + i)).
  assert (is_byte (u8 (Z.shiftr bits (i * 8)))) as Hbyte by (apply (wrap_bound 8); lia).
  assert (global_ok g1) as Hg1.
  { split; cbn [g1 set_bytes g_bytes g_size]; rewrite ?length_insert; [by apply Forall_insert|done|done]. }
  assert (rewritten g g1) as R1 by (split; try done; apply length_insert).
  destruct (IH g1 (i + 1) Hg1) as (R2 & Hr & Hbits); [lia|lia|cbn; lia|].
  split; [by eapply rewritten_trans|]. split; [done|]. intros k Hk. rewrite Hbits by done.
  assert (Z.testbit (memory g1) k =
    if (8 * (offset + i) <=? k) && (k <? 8 * (offset + i) + 8) then Z.testbit bits (k - 8 * offset)
    else Z.testbit (memory g) k) as ->.
  { unfold memory. rewrite !le_value_bit by (done || apply Hg1). cbn [g1 set_bytes g_bytes].
    destruct (Z.leb_spec (8 * (offset + i)) k), (Z.ltb_spec k (8 * (offset + i) + 8)); cbn [andb].
    - replace (k / 8) with (offset + i) by (Z.div_mod_to_equations; lia). fold j.
      rewrite list_lookup_insert_eq by lia. cbn [default from_option id]. unfold wrap.
      rewrite Z.mod_pow2_bits_low by (Z.div_mod_to_equations; lia).
      rewrite Z.shiftr_spec by (Z.div_mod_to_equations; lia). f_equal. Z.div_mod_to_equations; lia.
    - rewrite list_lookup_insert_ne; [done|]. subst j. Z.div_mod_to_equations; lia.
    - rewrite list_lookup_insert_ne; [done|]. subst j. Z.div_mod_to_equations; lia.
    - rewrite list_lookup_insert_ne; [done|]. subst j. Z.div_mod_to_equations; lia. }
  zcases; cbn [andb]; try done; lia.
Qed.

(** A value of [size] bytes in clear bits is added to the memory. *)
Lemma write_int_clear g offset size bits :
  global_ok g -> 0 <= offset -> 0 <= size -> offset + size <= g_size g ->
  clear (memory g) (8 * offset) (8 * (offset + size)) ->
  rewritten g (write_int g offset size bits) /\ g_relocs (write_int g offset size bits) = g_relocs g /\
  memory (write_int g offset size bits) = Z.lor (memory g) (Z.shiftl (wrap (8 * size) bits) (8 * offset)).
Proof.
  intros Hg Ho Hs Hend Hc.
  destruct (write_bytes_spec g offset 0 (Z.to_nat size) bits Hg Ho) as (R & Hr & Hbits); [lia|lia|].
  split; [done|]. split; [done|]. apply Z.bits_inj'. intros k Hk. unfold write_int. rewrite Hbits by done.
  rewrite Z.lor_spec, Z.shiftl_spec, Z2Nat.id, Z.add_0_r by done. unfold wrap.
  destruct (Z.leb_spec (8 * offset) k); cbn [andb].
  - destruct (Z.ltb_spec k (8 * (offset + size))).
    + rewrite Hc by lia. by rewrite Z.mod_pow2_bits_low by lia.
    + by rewrite Z.mod_pow2_bits_high, orb_false_r by lia.
  - by rewrite (Z.testbit_neg_r _ (k - 8 * offset)), orb_false_r by lia.
Qed.

(** ** Reading a value *)

Lemma read_bytes_spec g offset i n bits :
  global_ok g -> 0 <= offset -> 0 <= i -> i + Z.of_nat n <= 8 -> offset + i + Z.of_nat n <= g_size g ->
  forall k, 0 <= k -> Z.testbit (read_bytes g offset i n bits) k =
    Z.testbit bits k ||
    ((8 * i <=? k) && (k <? 8 * (i + Z.of_nat n)) && Z.testbit (memory g) (8 * offset + k)).
Proof.
  intros [Hb Hs Hf] Ho. revert i bits. induction n as [|n IH]; intros i bits Hi H8 Hend k Hk; cbn [read_bytes].
  { destruct (Z.leb_spec (8 * i) k); [|by rewrite orb_false_r]. zdecide. by rewrite orb_false_r. }
  rewrite u64_small by lia. zdecide. rewrite IH by lia. rewrite Z.lor_spec, <- orb_assoc. f_equal.
  set (b := default 0 _). assert (is_byte b) as Hbyte.
  { subst b. destruct (_ !! _) eqn:E; [|done]. by apply (Forall_lookup_1 _ _ _ _ Hb E). }
  unfold wrap. destruct (Z.leb_spec (8 * i) k) as [H1|H1]; cbn [andb].
  2: { zdecide. cbn [andb]. rewrite orb_false_r.
       destruct (Z.lt_ge_cases k 64); [rewrite Z.mod_pow2_bits_low by lia|by rewrite Z.mod_pow2_bits_high by lia].
       rewrite Z.shiftl_spec by done. by rewrite Z.testbit_neg_r by lia. }
  destruct (Z.lt_ge_cases k (8 * (i + 1))) as [H2|H2].
  - rewrite (proj2 (Z.leb_gt (8 * (i + 1)) k)) by lia. cbn [andb]. rewrite orb_false_r. zdecide. cbn [andb].
    rewrite Z.mod_pow2_bits_low by lia. rewrite Z.shiftl_spec by done. subst b. unfold memory.
    rewrite le_value_bit by (done || lia). do 2 f_equal; [|Z.div_mod_to_equations; lia].
    do 3 f_equal. Z.div_mod_to_equations; lia.
  - rewrite (proj2 (Z.leb_le (8 * (i + 1)) k)) by lia. cbn [andb].
    replace (i + 1 + Z.of_nat n) with (i + Z.of_nat (S n)) by lia.
    assert (Z.testbit (Z.shiftl b (i * 8) mod 2 ^ 64) k = false) as ->; [|done].
    destruct (Z.lt_ge_cases k 64); [rewrite Z.mod_pow2_bits_low by lia|by rewrite Z.mod_pow2_bits_high by lia].
    rewrite Z.shiftl_spec by done. apply byte_high; [done|lia].
Qed.

(** ** Writing the bits of a bitfield

    The unit of [size] bytes at [offset] holds the field of [width] bits at
    [shift]: the store of the unit adds the field and changes nothing else. *)
Lemma write_field_bits g offset size shift width value :
  global_ok g -> 0 <= offset -> 0 <= size <= 8 -> offset + size <= g_size g -> 0 < width -> 0 <= shift ->
  shift + width <= 8 * size ->
  let mask := if width >=? 64 then UINT64_MAX else Z.shiftl 1 width - 1 in
  let g' := write_int g offset size (Z.lor (read_int g offset size) (u64 (Z.shiftl (Z.land value mask) shift))) in
  rewritten g g' /\ g_relocs g' = g_relocs g /\
  memory g' = Z.lor (memory g) (Z.shiftl (wrap width value) (8 * offset + shift)).
Proof.
  intros Hg Ho Hs Hend Hw Hsh Hfit. cbv zeta.
  set (bits := Z.lor _ _).
  destruct (write_bytes_spec g offset 0 (Z.to_nat size) bits Hg Ho) as (R & Hr & Hbits); [lia|lia|].
  split; [done|]. split; [done|]. apply Z.bits_inj'. intros k Hk. unfold write_int. rewrite Hbits by done.
  rewrite Z.lor_spec, Z.shiftl_spec, Z2Nat.id, Z.add_0_r by (done || lia).
  assert (forall j, Z.testbit (wrap width value) (j - shift) =
    Z.testbit (u64 (Z.shiftl (Z.land value (if width >=? 64 then UINT64_MAX else Z.shiftl 1 width - 1)) shift)) j) as Hv.
  { intros j. rewrite Z.geb_leb. destruct (Z.lt_ge_cases j 0) as [|Hj].
    { by rewrite !Z.testbit_neg_r by lia. }
    assert (Z.land value (if 64 <=? width then UINT64_MAX else Z.shiftl 1 width - 1) = wrap width value) as ->.
    { destruct (Z.leb_spec 64 width); [assert (width = 64) as -> by lia; change UINT64_MAX with (2 ^ 64 - 1)|
        rewrite shiftl_mul, Z.mul_1_l by lia]; by apply land_mask; lia. }
    unfold wrap at 2. destruct (Z.lt_ge_cases j 64).
    - rewrite Z.mod_pow2_bits_low by lia. by rewrite Z.shiftl_spec by done.
    - rewrite Z.mod_pow2_bits_high by lia. unfold wrap. by rewrite Z.mod_pow2_bits_high by lia. }
  replace (k - (8 * offset + shift)) with (k - 8 * offset - shift) by lia. rewrite Hv.
  destruct (Z.leb_spec (8 * offset) k); cbn [andb].
  - destruct (Z.ltb_spec k (8 * (offset + size))).
    + subst bits. rewrite Z.lor_spec. unfold read_int.
      rewrite (read_bytes_spec g offset 0 (Z.to_nat size) 0 Hg Ho) by lia.
      rewrite Z.bits_0. cbn [orb]. zdecide. cbn [andb]. by replace (8 * offset + (k - 8 * offset)) with k by lia.
    + rewrite <- Hv. unfold wrap. by rewrite Z.mod_pow2_bits_high, orb_false_r by lia.
  - by rewrite <- Hv, (Z.testbit_neg_r (wrap width value)), orb_false_r by lia.
Qed.
