(* ===== verification/LayoutDataSpec.v ===== *)
(** * LayoutDataSpec: the bytes of constants and the resolved functions

    The image of a constant is the number that its memory shows: the values of its
    fields, each from its first bit on, and zeros elsewhere. [layout_data] gives
    every global the image of its constant, whatever the target. A function that
    [layout_resolve] returns holds types of the target alone, and no symbolic
    value. *)

From S2P Require Import Prelude Arith Double Target Ir IrFold Layout LayoutPlace LayoutRun LayoutSpec.
From S2P Require Import LayoutData LayoutBytes.

(** ** The image of a constant *)

Section Image.
Context (m : ir_module) (tg : target) (l0 : layouts) (vals : nat -> Z).

Notation agg_type := (agg_type m).

Fixpoint lor_items {A} (f : nat -> A -> Z) (i : nat) (xs : list A) : Z :=
  match xs with [] => 0 | x :: xs => Z.lor (f i x) (lor_items f (S i) xs) end.

(** What an integer constant stands for. *)
Definition integer_of (c : ir_const) : Z :=
  match c_kind c with IR_CONST_INT => c_integer c | IR_CONST_SYM => vals (c_sym c) | _ => 0 end.

(** The bits of item [i] of a struct of type [t], from the first bit of the struct
    on. [img] is the image of an item that is no bitfield; a bitfield has the low bits
    of the integer of its item, which is 0 unless the item is an integer. *)
Definition field_image (img : ir_const -> Z) (t : ir_aggtype) (o : layout) (i : nat) (item : ir_const) : Z :=
  match a_fields t !! i with
  | None => 0
  | Some f =>
      if is_unit_break f then 0
      else Z.shiftl (if f_bits f =? 0 then img item else wrap (f_bits f) (c_integer item)) (first_bit f i o)
  end.

Definition element_size (t : ir_aggtype) : Z :=
  match a_fields t with e :: _ => size_of tg l0 (f_type e) | [] => 0 end.

Fixpoint image (c : ir_const) : Z :=
  let size := size_of tg l0 (const_vtype c) in
  let t := agg_type (vt_agg (c_type c)) in
  match c_kind c with
  | IR_CONST_INT | IR_CONST_SYM => wrap (8 * size) (integer_of c)
  | IR_CONST_FLOAT => wrap (8 * size) (float_const_bits (c_floating c) size)
  | IR_CONST_AGG =>
      match a_kind t with
      | IR_AGG_ARRAY => lor_items (fun i item => Z.shiftl (image item) (8 * (Z.of_nat i * element_size t))) 0 (c_items c)
      | _ => lor_items (field_image image t (lay l0 (vt_agg (c_type c)))) 0 (c_items c)
      end
  | _ => 0
  end.

(** The addresses in a constant at [base], in their order. *)
Definition field_relocs (relocs : ir_const -> Z -> list ir_reloc) (t : ir_aggtype) (o : layout) (base : Z) (i : nat)
    (item : ir_const) : list ir_reloc :=
  match a_fields t !! i with
  | Some f =>
      if is_unit_break f || negb (f_bits f =? 0) then []
      else relocs item (base + default 0 (l_offsets o !! i))
  | None => []
  end.

Fixpoint app_items {A B} (f : nat -> A -> list B) (i : nat) (xs : list A) : list B :=
  match xs with [] => [] | x :: xs => f i x ++ app_items f (S i) xs end.

Fixpoint relocs (c : ir_const) (base : Z) : list ir_reloc :=
  let t := agg_type (vt_agg (c_type c)) in
  match c_kind c with
  | IR_CONST_ADDR => [Reloc base (c_global c) false]
  | IR_CONST_FUNC => [Reloc base (c_global c) true]
  | IR_CONST_AGG =>
      match a_kind t with
      | IR_AGG_ARRAY => app_items (fun i item => relocs item (base + Z.of_nat i * element_size t)) 0 (c_items c)
      | _ => app_items (field_relocs relocs t (lay l0 (vt_agg (c_type c))) base) 0 (c_items c)
      end
  | _ => []
  end.
End Image.

(** ** Constants of a type

    What the lowering builds: a value of a struct has an item for each field, in
    order, with no value for a unit break. No constant is of a union: sema_const.c
    refuses one. *)
Section Typed.
Context (m : ir_module) (tg : target) (l0 : layouts).

Notation agg_type := (agg_type m).

Fixpoint each_item {A} (P : nat -> A -> Prop) (i : nat) (xs : list A) : Prop :=
  match xs with [] => True | x :: xs => P i x /\ each_item P (S i) xs end.

Definition field_typed (typed : ir_vtype -> ir_const -> Prop) (t : ir_aggtype) (i : nat) (item : ir_const) : Prop :=
  exists f, a_fields t !! i = Some f /\
    if is_unit_break f then c_kind item = IR_CONST_NONE
    else f_bits f = 0 -> typed (f_type f) item.

Fixpoint typed (v : ir_vtype) (c : ir_const) {struct c} : Prop :=
  match c_kind c with
  | IR_CONST_NONE => True
  | IR_CONST_AGG =>
      let t := agg_type (vt_agg v) in
      vt_type v = IR_AGG /\ c_type c = v /\ (vt_agg v < length (m_aggs m))%nat /\
      match a_kind t with
      | IR_AGG_STRUCT => each_item (field_typed typed t) 0 (c_items c)
      | IR_AGG_ARRAY =>
          exists e, a_fields t = [e] /\ each_item (fun _ => typed (f_type e)) 0 (c_items c) /\
            Z.of_nat (length (c_items c)) * size_of tg l0 (f_type e) <= l_size (lay l0 (vt_agg v))
      | IR_AGG_UNION => False
      end
  | kind =>
      vt_type v <> IR_AGG /\ c_scalar c = vt_type v /\
      (kind = IR_CONST_SYM -> (c_sym c < length (m_syms m))%nat)
  end.

(** The symbolic values that the bytes of a constant need. *)
Definition field_symbols (symbols : ir_const -> list nat) (t : ir_aggtype) (i : nat) (item : ir_const) : list nat :=
  match a_fields t !! i with
  | Some f => if is_unit_break f || negb (f_bits f =? 0) then [] else symbols item
  | None => []
  end.

Fixpoint symbols (c : ir_const) : list nat :=
  let t := agg_type (vt_agg (c_type c)) in
  match c_kind c with
  | IR_CONST_SYM => [c_sym c]
  | IR_CONST_AGG =>
      match a_kind t with
      | IR_AGG_ARRAY => app_items (fun _ => symbols) 0 (c_items c)
      | _ => app_items (field_symbols symbols t) 0 (c_items c)
      end
  | _ => []
  end.
End Typed.

(** ** The places of the items *)

Lemma lor_items_clear {A} (f : nat -> A -> Z) i xs k :
  (forall j x, xs !! j = Some x -> Z.testbit (f (i + j)%nat x) k = false) -> Z.testbit (lor_items f i xs) k = false.
Proof.
  revert i. induction xs as [|x xs IH]; intros i H; cbn [lor_items]; [apply Z.bits_0|].
  rewrite Z.lor_spec. pose proof (H 0%nat x eq_refl) as H0. rewrite Nat.add_0_r in H0. rewrite H0. apply IH.
  intros j y Hj. rewrite Nat.add_succ_comm. by apply (H (S j)).
Qed.

Lemma lor_items_bit {A} (f : nat -> A -> Z) i xs k n x :
  xs !! n = Some x -> (forall j y, j <> n -> xs !! j = Some y -> Z.testbit (f (i + j)%nat y) k = false) ->
  Z.testbit (lor_items f i xs) k = Z.testbit (f (i + n)%nat x) k.
Proof.
  revert i n. induction xs as [|y xs IH]; intros i n Hn H; [done|]. cbn [lor_items]. rewrite Z.lor_spec.
  destruct n as [|n].
  - injection Hn as ->. rewrite Nat.add_0_r, lor_items_clear; [apply orb_false_r|].
    intros j z Hj. rewrite Nat.add_succ_comm. by apply (H (S j)).
  - pose proof (H 0%nat y ltac:(done) eq_refl) as H0. rewrite Nat.add_0_r in H0. rewrite H0, <- Nat.add_succ_comm.
    apply IH; [done|]. intros j z Hj Hz. rewrite Nat.add_succ_comm. apply (H (S j)); [lia|done].
Qed.

Section Data.
Context (m : ir_module) (tg : target) (rank : nat -> nat) (Hm : module_ok m tg rank).
Context (l0 : layouts) (Hl0 : layout_init m tg = Some (true, l0)).

Notation agg_type := (agg_type m).
Notation n_aggs := (length (m_aggs m)).
Notation size_of := (size_of tg l0).
Notation typed := (typed m tg l0).
Notation image := (image m tg l0).
Notation relocs := (relocs m tg l0).
Notation symbols := (symbols m).

Lemma size_bound v : valid m v -> 0 <= size_of v /\ 8 * size_of v < 2 ^ 64.
Proof.
  intros Hv. unfold LayoutRun.size_of. case_bool_decide as Ha.
  - destruct (layout_init_good m tg rank Hm l0 _ Hl0 (Hv Ha)) as ([[_ S2 _ S4 _] _ _ _] & _).
    split; [done|]. pow2s. lia.
  - pose proof (scalar_size_pow2 tg (vt_type v)) as [H1%is_pow2_pos H2]. pow2s. lia.
Qed.

Lemma facts_size v : ff_size (facts_of tg l0 v) = size_of v.
Proof. unfold facts_of. by case_bool_decide. Qed.

(** The bits that a field takes. *)
Definition field_length (f : ir_field) : Z := if f_bits f =? 0 then 8 * size_of (f_type f) else f_bits f.

Lemma last_bit_length f i o : last_bit f i (facts_of tg l0 (f_type f)) o = first_bit f i o + field_length f.
Proof. unfold last_bit, field_length. by rewrite facts_size. Qed.

Section Struct.
Context (a : nat) (Ha : (a < n_aggs)%nat) (Hk : a_kind (agg_type a) = IR_AGG_STRUCT).

Notation o := (lay l0 a).

Lemma field_valid i f : a_fields (agg_type a) !! i = Some f -> valid m (f_type f) /\ 0 <= f_bits f.
Proof.
  intros Hi. destruct (field_ok m tg rank Hm a f Ha) as [H1 H2].
  { by eapply list_elem_of_lookup_2. }
  split; [by eapply inner_valid|apply H2].
Qed.

Lemma field_place i f :
  a_fields (agg_type a) !! i = Some f -> is_unit_break f = false ->
  0 <= first_bit f i o /\ 0 <= field_length f /\ first_bit f i o + field_length f <= 8 * l_size o /\
  forall j g, (i < j)%nat -> a_fields (agg_type a) !! j = Some g -> is_unit_break g = false ->
    first_bit f i o + field_length f <= first_bit g j o.
Proof.
  intros Hi Hb. destruct (layout_init_good m tg rank Hm l0 a Hl0 Ha) as ([_ _ Hsh _] & _ & _ & Hfacts).
  unfold shape_ok in Hsh. rewrite Hk in Hsh. pose proof (with_facts_lookup tg l0 _ _ _ Hi) as Hl.
  destruct (in_order_lookup _ _ _ _ _ _ _ _ _ _ Hfacts Hsh Hl Hb) as [P1 P2 _ _ _ _].
  cbn [Nat.add] in *. rewrite last_bit_length in P2. split; [done|]. split; [|split; [done|]].
  - destruct (field_valid i f Hi) as [Hv Hz]. pose proof (size_bound _ Hv). unfold field_length. destruct (_ =? 0); lia.
  - intros j g Hij Hj Hg. rewrite <- last_bit_length.
    exact (in_order_pair _ _ _ _ _ _ _ _ _ _ _ _ _ Hfacts Hsh Hij Hl Hb (with_facts_lookup tg l0 _ _ _ Hj) Hg).
Qed.
End Struct.

(** ** The image lies in the size of the type *)

Lemma shiftl_width n k s x : 0 <= s -> 0 <= k -> s + k <= n -> in_width k x -> in_width n (Z.shiftl x s).
Proof.
  intros Hs Hk Hn [H0 H1]. rewrite shiftl_mul by done. apply (in_width_mono (s + k)); [done|].
  unfold in_width. rewrite Z.pow_add_r by done. nia.
Qed.

Lemma lor_items_width {A} n (f : nat -> A -> Z) i xs :
  0 <= n -> each_item (fun i x => in_width n (f i x)) i xs -> in_width n (lor_items f i xs).
Proof.
  intros Hn. revert i. induction xs as [|x xs IH]; intros i; cbn [lor_items each_item].
  { intros _. split; [done|]. lia. }
  intros [Hx Hxs]. apply lor_width; [done|done|by apply IH].
Qed.

Lemma each_item_impl {A} (P Q : nat -> A -> Prop) i xs :
  (forall j x, (i <= j < i + length xs)%nat -> x ∈ xs -> P j x -> Q j x) -> each_item P i xs -> each_item Q i xs.
Proof.
  revert i. induction xs as [|x xs IH]; intros i H; cbn [each_item]; [done|]. intros [Hx Hxs]. cbn [length] in H.
  split; [apply H; [lia|by left|done]|]. apply IH; [|done]. intros j y Hj Hy. apply H; [lia|by right].
Qed.

Lemma typed_size v c : typed v c -> c_kind c <> IR_CONST_NONE -> size_of (const_vtype c) = size_of v.
Proof.
  destruct c as [kind type scalar int fl sym gl items]. cbn [LayoutDataSpec.typed c_kind c_type c_scalar].
  intros Ht Hn. unfold const_vtype. cbn [c_kind c_type c_scalar].
  destruct kind; try done; try (destruct Ht as (Ha & -> & _); unfold LayoutRun.size_of, ir_scalar; cbn [vt_type];
    by rewrite !bool_decide_false by done).
  destruct Ht as (_ & -> & _). done.
Qed.

Lemma typed_valid v c : typed v c -> c_kind c <> IR_CONST_NONE -> valid m v.
Proof.
  destruct c as [kind ???????]. cbn [LayoutDataSpec.typed c_kind]. intros Ht Hn. unfold valid.
  destruct kind; try done; naive_solver.
Qed.

Section Vals.
Context (vals : nat -> Z).

Lemma field_image_width (img : ir_const -> Z) a i item f :
  (a < n_aggs)%nat -> a_kind (agg_type a) = IR_AGG_STRUCT -> a_fields (agg_type a) !! i = Some f ->
  (f_bits f = 0 -> is_unit_break f = false -> in_width (8 * size_of (f_type f)) (img item)) ->
  in_width (8 * l_size (lay l0 a)) (field_image img (agg_type a) (lay l0 a) i item).
Proof.
  intros Ha Hk Hi Himg. unfold field_image. rewrite Hi.
  destruct (layout_init_good m tg rank Hm l0 a Hl0 Ha) as ([[_ Hs _ _ _] _ _ _] & _).
  destruct (is_unit_break f) eqn:Hb; [split; [done|lia]|].
  destruct (field_place a Ha Hk i f Hi Hb) as (H1 & H2 & H3 & _). apply (shiftl_width _ (field_length f)); try done.
  unfold field_length in *. destruct (Z.eqb_spec (f_bits f) 0); [by apply Himg|by apply wrap_bound].
Qed.

Lemma image_width c v : valid m v -> typed v c -> in_width (8 * size_of v) (image vals c).
Proof.
  revert v. induction c as [kind type scalar int fl sym gl items IH] using ir_const_nested_ind. intros v Hv Ht.
  pose proof (size_bound v Hv) as [Hs _].
  assert (in_width (8 * size_of v) 0) as H0 by (split; lia).
  assert (kind <> IR_CONST_NONE -> size_of (const_vtype (Const kind type scalar int fl sym gl items)) = size_of v) as Hsz
    by apply (typed_size _ _ Ht).
  cbn [LayoutDataSpec.image c_kind c_items c_type]. destruct kind; try exact H0; try (rewrite Hsz by done; apply wrap_bound; lia).
  cbn [LayoutDataSpec.typed c_kind c_type c_items] in Ht. destruct Ht as (Hva & -> & Ha & Ht).
  unfold LayoutRun.size_of at 1. rewrite bool_decide_true by done.
  destruct (a_kind (agg_type (vt_agg v))) eqn:Hk; [|done|].
  - apply lor_items_width; [unfold LayoutRun.size_of in Hs; rewrite bool_decide_true in Hs by done; lia|].
    eapply each_item_impl; [|exact Ht]. intros j x _ Hx (f & Hf & Hfx). apply (field_image_width _ _ _ _ f); try done.
    intros Hz Hb. rewrite Hb in Hfx. apply (proj1 (Forall_forall _ _) IH x Hx); [|by apply Hfx].
    by apply (field_valid (vt_agg v) Ha j f Hf).
  - destruct Ht as (e & He & Hitems & Hlen). unfold element_size. rewrite He.
    unfold LayoutRun.size_of in Hs; rewrite bool_decide_true in Hs by done.
    assert (valid m (f_type e)) as Hev by (apply (field_valid (vt_agg v) Ha 0 e); by rewrite He).
    pose proof (size_bound _ Hev) as [Hes _].
    apply lor_items_width; [lia|]. eapply each_item_impl; [|exact Hitems]. cbn beta. intros j x Hj Hx Htx.
    apply (shiftl_width _ (8 * size_of (f_type e))); [lia|lia|nia|].
    by apply (proj1 (Forall_forall _ _) IH x Hx).
Qed.
End Vals.

(** ** The states after the layout *)

Notation from l l' := (reach m tg n_aggs l l').

Lemma finished : inv m tg l0 /\ ls_failed l0 = false /\ forall a, (a < n_aggs)%nat -> st l0 a = DONE.
Proof.
  destruct (layout_init_wp m tg rank Hm) as (l & E & Hi & Hd). rewrite Hl0 in E. injection E as Hf <-.
  apply eq_sym, negb_true_iff in Hf. auto.
Qed.

Lemma from_start : from l0 l0.
Proof. destruct finished as (Hi & _). apply reach_refl; [done|]. by apply (unseen_bound m tg). Qed.

Lemma same_refl l : same l l.
Proof. by split. Qed.

Lemma same_trans l1 l2 l3 : same l1 l2 -> same l2 l3 -> same l1 l3.
Proof.
  intros [A1 S1] [A2 S2]. split.
  - intros a Ha. destruct (A1 a Ha) as [H1 E1]. destruct (A2 a H1) as [H2 E2]. split; [done|congruence].
  - intros s Hs. destruct (S1 s Hs) as [H1 E1]. destruct (S2 s H1) as [H2 E2]. split; [done|congruence].
Qed.

(** No later step changes a layout. *)
Lemma from_size l v : from l0 l -> ls_failed l = false -> valid m v -> LayoutRun.size_of tg l v = size_of v /\ align_of tg l v = align_of tg l0 v.
Proof.
  intros R Hf Hv. destruct (reach_same _ _ _ _ _ R Hf) as [Hs _].
  destruct (same_fields tg l0 l v Hs) as (_ & ? & ? & _); [|done]. intros Ha. by apply finished, Hv.
Qed.

Lemma from_lay l a : from l0 l -> ls_failed l = false -> (a < n_aggs)%nat -> core (lay l a) = core (lay l0 a).
Proof. intros R Hf Ha. destruct (reach_same _ _ _ _ _ R Hf) as [Hs _]. by apply (sm_agg _ _ Hs), finished. Qed.

Lemma wp_size_of v l :
  from l0 l -> valid m v ->
  wp (layout_size tg (run m tg (run_fuel m)).1 v) l
    (fun z l' => from l0 l' /\ from l l' /\ (ls_failed l' = false -> z = size_of v)).
Proof.
  intros R Hv. destruct (run_fuel_ok m tg rank Hm) as [Hc _].
  eapply wp_mono; [apply (wp_layout_size m tg n_aggs _ Hc v l); [apply R|apply R|done]|]. cbn.
  intros z l' (R' & -> & _). assert (from l0 l') as R0 by by eapply reach_trans. split; [done|]. split; [done|].
  intros Hf. by apply from_size.
Qed.

Lemma wp_lay_of a l :
  from l0 l -> (a < n_aggs)%nat ->
  wp (layout_agg (run m tg (run_fuel m)).1 a) l
    (fun o l' => from l0 l' /\ from l l' /\ (ls_failed l' = false -> core o = core (lay l0 a))).
Proof.
  intros R Ha. destruct (run_fuel_ok m tg rank Hm) as [Hc _].
  eapply wp_mono; [apply (wp_layout_agg m tg n_aggs _ Hc a l); [apply R|apply R|done]|]. cbn.
  intros o l' (R' & -> & _). assert (from l0 l') as R0 by by eapply reach_trans. split; [done|]. split; [done|].
  intros Hf. by apply from_lay.
Qed.

Lemma wp_value_of sym l :
  from l0 l -> (sym < length (m_syms m))%nat ->
  wp ((run m tg (run_fuel m)).2 sym) l (fun r l' => from l0 l' /\ from l l' /\
    (ls_failed l' = false -> exists v, r = Some v /\ sym_st l' sym = DONE /\ value l' sym = v)).
Proof.
  intros R Hs. destruct (run_fuel_ok m tg rank Hm) as [_ Hg].
  eapply wp_mono; [apply (Hg sym l); [apply R|apply R|done|done]|]. cbn. intros r l' (Hi & Hk & Hr).
  assert (from l l') as R' by (apply reach_intro; [apply R|apply R|done|done]).
  split; [by eapply reach_trans|]. split; [done|]. intros Hf. destruct r as [v|]; [|congruence]. exists v. by split_and!; try apply Hr.
Qed.

Lemma from_failed l l' : from l l' -> ls_failed l' = false -> ls_failed l = false.
Proof. intros R Hf. by apply (reach_same _ _ _ _ _ R Hf). Qed.

(** ** What writing a constant shows *)

Record written (g g' : ir_global) (img : Z) (rs : list ir_reloc) : Prop := {
  wt_rewritten : rewritten g g';
  wt_memory : memory g' = Z.lor (memory g) img;
  wt_relocs : g_relocs g' = g_relocs g ++ rs;
}.

Lemma written_nothing g : global_ok g -> written g g 0 [].
Proof. intros Hg. split; [by apply rewritten_refl|by rewrite Z.lor_0_r|by rewrite app_nil_r]. Qed.

Lemma written_trans g1 g2 g3 x y rs ss : written g1 g2 x rs -> written g2 g3 y ss -> written g1 g3 (Z.lor x y) (rs ++ ss).
Proof.
  intros [A1 B1 C1] [A2 B2 C2]. split; [by eapply rewritten_trans| |].
  - by rewrite B2, B1, Z.lor_assoc.
  - by rewrite C2, C1, app_assoc.
Qed.

Record ready (g : ir_global) (base : Z) (v : ir_vtype) : Prop := {
  rd_ok : global_ok g;
  rd_base : 0 <= base;
  rd_size : base + size_of v <= g_size g;
  rd_clear : clear (memory g) (8 * base) (8 * (base + size_of v));
}.

(** The state [le] is any later one. *)
Definition wrote (l : layouts) (g : ir_global) (img : (nat -> Z) -> Z) (rs : list ir_reloc) (syms : list nat)
    (g' : ir_global) (l' : layouts) : Prop :=
  from l l' /\ (ls_failed l' = false -> forall le, same l' le ->
    written g g' (img (value le)) rs /\ Forall (fun s => sym_st le s = DONE) syms).

Definition const_spec (c : ir_const) : Prop :=
  forall v g base l, valid m v -> typed v c -> from l0 l -> (ls_failed l = false -> ready g base v) ->
    wp (write_const m tg g c base) l
      (wrote l g (fun vals => Z.shiftl (image vals c) (8 * base)) (relocs c base) (symbols c)).

Lemma wrote_from l l1 g img rs syms g' l' : from l l1 -> wrote l1 g img rs syms g' l' -> wrote l g img rs syms g' l'.
Proof. intros R [R' H]. split; [by eapply reach_trans|done]. Qed.

Lemma wrote_now l l' g img rs g' :
  from l l' -> (ls_failed l' = false -> forall vals, written g g' (img vals) rs) -> wrote l g img rs [] g' l'.
Proof. intros R H. split; [done|]. intros Hf le _. split; [by apply H|done]. Qed.

Lemma wrote_written l g img rs syms g' l' :
  wrote l g img rs syms g' l' -> ls_failed l' = false -> written g g' (img (value l')) rs.
Proof. intros [_ H] Hf. by apply (H Hf l' (same_refl l')). Qed.

Lemma wrote_trans l l1 l2 g g1 g2 i1 i2 rs1 rs2 ss1 ss2 :
  wrote l g i1 rs1 ss1 g1 l1 -> wrote l1 g1 i2 rs2 ss2 g2 l2 ->
  wrote l g (fun vals => Z.lor (i1 vals) (i2 vals)) (rs1 ++ rs2) (ss1 ++ ss2) g2 l2.
Proof.
  intros [R1 H1] [R2 H2]. split; [by eapply reach_trans|]. intros Hf le Hle.
  destruct (reach_same _ _ _ _ _ R2 Hf) as [Hs Hf1].
  destruct (H1 Hf1 le (same_trans _ _ _ Hs Hle)) as [W1 S1]. destruct (H2 Hf le Hle) as [W2 S2].
  split; [by eapply written_trans|]. by apply Forall_app.
Qed.

(** ** A field *)

Record fields_ready (g : ir_global) (base : Z) (a i : nat) : Prop := {
  fr_ok : global_ok g;
  fr_base : 0 <= base;
  fr_size : base + l_size (lay l0 a) <= g_size g;
  fr_clear : forall j f, (i <= j)%nat -> a_fields (agg_type a) !! j = Some f -> is_unit_break f = false ->
    clear (memory g) (8 * base + first_bit f j (lay l0 a)) (8 * base + first_bit f j (lay l0 a) + field_length f);
}.

Section Fields.
Context (a : nat) (Ha : (a < n_aggs)%nat) (Hk : a_kind (agg_type a) = IR_AGG_STRUCT) (base : Z) (out : layout).

Notation o := (lay l0 a).
Notation img := (fun vals => field_image (image vals) (agg_type a) o).
Notation rel := (field_relocs relocs (agg_type a) o base).

Lemma wp_write_bits i f item g l :
  a_fields (agg_type a) !! i = Some f -> is_unit_break f = false -> f_bits f <> 0 ->
  from l0 l -> (ls_failed l = false -> core out = core o /\ fields_ready g base a i) ->
  wp (write_bits m tg g (agg_type a) out i base (c_integer item)) l
    (wrote l g (fun vals => Z.shiftl (img vals i item) (8 * base)) [] []).
Proof.
  intros Hi Hb Hz R Hready. unfold write_bits. rewrite Hi. cbn zeta.
  apply wp_bind. eapply wp_mono; [apply wp_size_of; [done|intros _; cbn; lia]|]. cbn. intros size l1 (R1 & R1' & Hsize).
  apply wp_ret. apply wrote_now; [done|]. intros Hf vals. specialize (Hsize Hf).
  destruct (Hready (from_failed _ _ R1' Hf)) as [Hout [Hg H0 Hend Hc]].
  injection Hout as _ _ _ Hbits _ _ _. rewrite Hbits in *.
  destruct (layout_init_good m tg rank Hm l0 a Hl0 Ha) as ([[_ _ _ Hfit _] _ _ Hu] & _).
  destruct (Hu ltac:(by rewrite Hk) i f Hi Hz) as [U1 U2 U3 U4 U5 U6]. set (b := default zero_bits _) in *.
  assert (size = unit_bytes (lb_unit_type b)) as ->.
  { rewrite Hsize. unfold LayoutRun.size_of, ir_scalar. cbn [vt_type]. destruct (lb_unit_type b); set_solver. }
  assert (0 <= unit_bytes (lb_unit_type b) <= 8) as Hunit by (destruct (lb_unit_type b); cbn; lia).
  destruct (field_valid a Ha i f Hi) as [_ Hnn]. destruct Hg as [Hg1 Hg2 Hg3].
  rewrite u64_small by lia.
  destruct (write_field_bits g (base + lb_unit_offset b) (unit_bytes (lb_unit_type b)) (lb_shift b) (f_bits f)
    (c_integer item)) as (W1 & W2 & W3); [done|lia|done|lia|lia|done|done|].
  split; [exact W1| |by rewrite W2, app_nil_r]. rewrite W3. f_equal. unfold field_image. rewrite Hi, Hb.
  destruct (Z.eqb_spec (f_bits f) 0) as [|_]; [done|]. rewrite Z.shiftl_shiftl by
    (unfold first_bit; destruct (Z.eqb_spec (f_bits f) 0); [done|]; fold b; lia).
  unfold first_bit. destruct (Z.eqb_spec (f_bits f) 0) as [|_]; [done|]. fold b. rewrite U3.
  f_equal. lia.
Qed.

Lemma wp_write_field i item g l :
  const_spec item -> field_typed typed (agg_type a) i item -> from l0 l ->
  (ls_failed l = false -> core out = core o /\ fields_ready g base a i) ->
  wp (write_field m tg (write_const m tg) (agg_type a) out base i item g) l
    (wrote l g (fun vals => Z.shiftl (img vals i item) (8 * base)) (rel i item) (field_symbols symbols (agg_type a) i item)).
Proof.
  intros Hspec (f & Hi & Hf) R Hready. unfold write_field, field_relocs, field_symbols. rewrite Hi.
  destruct (is_unit_break f) eqn:Hb; cbn [orb].
  { apply wp_ret, wrote_now; [apply reach_refl; apply R|]. intros Hfl vals. unfold field_image. rewrite Hi, Hb, Z.shiftl_0_l.
    by apply written_nothing, Hready. }
  destruct (Z.eqb_spec (f_bits f) 0) as [Hz|Hz]; cbn [negb].
  2: { by apply (wp_write_bits i f). }
  specialize (Hf Hz).
  destruct (field_place a Ha Hk i f Hi Hb) as (P1 & P2 & P3 & _).
  unfold first_bit, field_length in P1, P2, P3. rewrite (proj2 (Z.eqb_eq _ _) Hz) in P1, P2, P3.
  destruct (field_valid a Ha i f Hi) as [Hv _].
  destruct (layout_init_good m tg rank Hm l0 a Hl0 Ha) as ([[_ _ _ Hfit _] _ _ _] & _).
  assert (forall (Hfl : ls_failed l = false),
    u64 (base + default 0 (l_offsets out !! i)) = base + default 0 (l_offsets o !! i) /\
    ready g (base + default 0 (l_offsets o !! i)) (f_type f)) as Hitem.
  { intros Hfl. destruct (Hready Hfl) as [[= _ _ -> _ _ _ _] [Hg H0 Hend Hc]]. destruct Hg as [Hg1 Hg2 Hg3].
    rewrite u64_small by lia. split; [done|]. split; [done|lia|lia|].
    specialize (Hc i f (le_n _) Hi Hb). unfold first_bit, field_length in Hc. rewrite (proj2 (Z.eqb_eq _ _) Hz) in Hc.
    eapply clear_mono; [..|exact Hc]; lia. }
  destruct (ls_failed l) eqn:Hfl.
  - eapply wp_mono; [apply (Hspec (f_type f)); [done|done|done|congruence]|]. cbn. intros g' l' [R' _].
    split; [done|]. intros Hf'. by rewrite (from_failed _ _ R' Hf') in Hfl.
  - destruct (Hitem eq_refl) as [-> Hr].
    eapply wp_mono; [apply (Hspec (f_type f)); [done|done|done|by intros _]|]. cbn. intros g' l' [R' Hw]. split; [done|].
    intros Hf' le Hle. destruct (Hw Hf' le Hle) as [W S]. split; [|done].
    unfold field_image. rewrite Hi, Hb, (proj2 (Z.eqb_eq _ _) Hz). unfold first_bit. rewrite (proj2 (Z.eqb_eq _ _) Hz).
    rewrite Z.shiftl_shiftl by lia.
    by replace (8 * default 0 (l_offsets o !! i) + 8 * base) with (8 * (base + default 0 (l_offsets o !! i))) by lia.
Qed.

(** The fields after it are still clear. *)
Lemma fields_ready_next i item g g' vals rs :
  field_typed typed (agg_type a) i item -> fields_ready g base a i ->
  written g g' (Z.shiftl (img vals i item) (8 * base)) rs -> fields_ready g' base a (S i).
Proof.
  intros (f & Hi & Hf) [Hg H0 Hend Hc] [[W1 W2 W3 W4 W5] Wm _]. split; [done|done|by rewrite W2|].
  intros j h Hj Hh Hb k Hkk. rewrite Wm, Z.lor_spec. rewrite (Hc j h) by (done || lia). cbn [orb].
  pose proof (field_place a Ha Hk j h Hh Hb) as (Q1 & _).
  rewrite Z.shiftl_spec by lia. unfold field_image. rewrite Hi.
  destruct (is_unit_break f) eqn:Hbf; [apply Z.bits_0|].
  destruct (field_place a Ha Hk i f Hi Hbf) as (P1 & P2 & P3 & P4). specialize (P4 j h ltac:(lia) Hh Hb).
  destruct (field_valid a Ha i f Hi) as [Hv Hnn]. rewrite Z.shiftl_spec by lia.
  unfold field_length in *. destruct (Z.eqb_spec (f_bits f) 0).
  - apply (testbit_small _ (8 * size_of (f_type f))); [by apply image_width, Hf|lia].
  - apply (testbit_small _ (f_bits f)); [by apply wrap_bound|lia].
Qed.

Lemma wrote_nothing l g : from l0 l -> (ls_failed l = false -> global_ok g) ->
  wrote l g (fun _ => Z.shiftl 0 (8 * base)) [] [] g l.
Proof.
  intros R H. apply wrote_now; [apply reach_refl; apply R|]. intros Hf vals. rewrite Z.shiftl_0_l.
  by apply written_nothing, H.
Qed.

Lemma wp_write_fields items i g l :
  Forall const_spec items -> each_item (field_typed typed (agg_type a)) i items -> from l0 l ->
  (ls_failed l = false -> core out = core o /\ fields_ready g base a i) ->
  wp (each (write_field m tg (write_const m tg) (agg_type a) out base) i items g) l
    (wrote l g (fun vals => Z.shiftl (lor_items (img vals) i items) (8 * base)) (app_items rel i items)
      (app_items (field_symbols symbols (agg_type a)) i items)).
Proof.
  revert i g l. induction items as [|item items IH]; intros i g l Hs Ht R Hready;
    cbn [each lor_items app_items each_item] in *.
  { apply wp_ret, wrote_nothing; [done|]. intros Hf. by apply Hready. }
  apply Forall_cons_1 in Hs as [Hs1 Hs]. destruct Ht as [Ht1 Ht].
  apply wp_bind. eapply wp_mono; [by apply wp_write_field|]. cbn. intros g1 l1 W1.
  eapply wp_mono; [apply IH; [done|done|by eapply reach_trans, W1|]|].
  - intros Hf. destruct (Hready (from_failed _ _ (proj1 W1) Hf)) as [Ho Hr]. split; [done|].
    eapply fields_ready_next; [done|done|]. by apply (wrote_written _ _ _ _ _ _ _ W1 Hf).
  - cbn. intros g2 l2 W2. pose proof (wrote_trans _ _ _ _ _ _ _ _ _ _ _ _ W1 W2) as [R2 H2]. split; [done|].
    intros Hf le Hle. rewrite Z.shiftl_lor. by apply H2.
Qed.
End Fields.

(** ** An array *)

Section Elements.
Context (a : nat) (e : ir_field) (Ha : (a < n_aggs)%nat) (He : a_fields (agg_type a) = [e]).
Context (base : Z).

Notation step := (size_of (f_type e)).
Notation img := (fun vals i item => Z.shiftl (image vals item) (8 * (Z.of_nat i * element_size tg l0 (agg_type a)))).
Notation rel := (fun i item => relocs item (base + Z.of_nat i * element_size tg l0 (agg_type a))).

Lemma element_step : element_size tg l0 (agg_type a) = step.
Proof. unfold element_size. by rewrite He. Qed.

Record elements_ready (g : ir_global) (i n : nat) : Prop := {
  er_ok : global_ok g;
  er_base : 0 <= base;
  er_end : base + Z.of_nat (i + n) * step <= g_size g;
  er_clear : clear (memory g) (8 * (base + Z.of_nat i * step)) (8 * (base + Z.of_nat (i + n) * step));
}.

Lemma element_valid : valid m (f_type e) /\ 0 <= step.
Proof.
  destruct (field_valid a Ha 0 e) as [Hv _]; [by rewrite He|]. split; [done|]. by apply size_bound.
Qed.

Lemma wp_write_elements items i g l st :
  Forall const_spec items -> each_item (fun _ => typed (f_type e)) i items -> from l0 l ->
  (ls_failed l = false -> st = step /\ elements_ready g i (length items)) ->
  wp (each (fun i item g => write_const m tg g item (u64 (base + u64 (Z.of_nat i * st)))) i items g) l
    (wrote l g (fun vals => Z.shiftl (lor_items (img vals) i items) (8 * base)) (app_items rel i items)
      (app_items (fun _ => symbols) i items)).
Proof.
  destruct element_valid as [Hv Hstep].
  revert i g l. induction items as [|item items IH]; intros i g l Hs Ht R Hready;
    cbn [each lor_items app_items each_item] in *.
  { apply wp_ret, wrote_nothing; [done|]. intros Hf. by apply Hready. }
  apply Forall_cons_1 in Hs as [Hs1 Hs]. destruct Ht as [Ht1 Ht]. cbn [length] in Hready.
  rewrite element_step in *.
  assert (ls_failed l = false -> u64 (base + u64 (Z.of_nat i * st)) = base + Z.of_nat i * step /\
    ready g (base + Z.of_nat i * step) (f_type e)) as Hr.
  { intros Hf. destruct (Hready Hf) as [-> [[G1 G2 G3] B1 B2 B3]].
    assert (0 <= Z.of_nat i * step) by nia. assert (Z.of_nat i * step <= Z.of_nat (i + S (length items)) * step) by nia.
    rewrite !u64_small by (rewrite ?u64_small by lia; lia). split; [done|]. split; [done|lia|nia|].
    eapply clear_mono; [..|exact B3]; nia. }
  apply wp_bind. eapply (wp_mono _ _
    (wrote l g (fun vals => Z.shiftl (Z.shiftl (image vals item) (8 * (Z.of_nat i * step))) (8 * base))
      (relocs item (base + Z.of_nat i * step)) (symbols item))).
  { destruct (ls_failed l) eqn:Hfl.
    - eapply wp_mono; [apply (Hs1 (f_type e)); [done|done|done|congruence]|]. cbn. intros g' l' [R' _].
      split; [done|]. intros Hf'. by rewrite (from_failed _ _ R' Hf') in Hfl.
    - destruct (Hr eq_refl) as [-> Hrd]. eapply wp_mono; [apply (Hs1 (f_type e)); [done|done|done|by intros _]|]. cbn.
      intros g' l' [R' Hw]. split; [done|]. intros Hf' le Hle. destruct (Hw Hf' le Hle) as [W S]. split; [|done].
      destruct Hrd. rewrite Z.shiftl_shiftl by nia.
      by replace (8 * (Z.of_nat i * step) + 8 * base) with (8 * (base + Z.of_nat i * step)) by lia. }
  cbn. intros g1 l1 W1. eapply wp_mono; [apply IH; [done|done|by eapply reach_trans, W1|]|].
  - intros Hf. pose proof (from_failed _ _ (proj1 W1) Hf) as Hf0. destruct (Hready Hf0) as [Hst [G B1 B2 B3]].
    destruct (wrote_written _ _ _ _ _ _ _ W1 Hf) as [[W2 W3 W4 W5 W6] Wm _]. split; [done|].
    split; [done|done|rewrite W3; by replace (S i + length items)%nat with (i + S (length items))%nat by lia|].
    intros k Hkk. rewrite Wm, Z.lor_spec. rewrite B3 by nia. cbn [orb].
    rewrite !Z.shiftl_spec by nia. apply (testbit_small _ (8 * step)); [by apply image_width|nia].
  - cbn. intros g2 l2 W2. pose proof (wrote_trans _ _ _ _ _ _ _ _ _ _ _ _ W1 W2) as [R2 H2]. split; [done|].
    intros Hf le Hle. rewrite Z.shiftl_lor. by apply H2.
Qed.
End Elements.

(** ** A constant *)

(** A value of [size] bytes. *)
Lemma write_value g base v size bits :
  valid m v -> ready g base v -> size = size_of v ->
  written g (write_int g base size bits) (Z.shiftl (wrap (8 * size) bits) (8 * base)) [].
Proof.
  intros Hv [Hg H0 Hend Hc] ->. destruct (size_bound v Hv) as [Hs _].
  destruct (write_int_clear g base (size_of v) bits Hg H0 Hs Hend Hc) as (R & Hr & Hm').
  split; [exact R|exact Hm'|by rewrite Hr, app_nil_r].
Qed.

Lemma write_reloc g base v target fn :
  ready g base v -> written g (add_reloc g base target fn) (Z.shiftl 0 (8 * base)) [Reloc base target fn].
Proof.
  intros [[G1 G2 G3] _ _ _]. rewrite Z.shiftl_0_l. split; [by split|by rewrite Z.lor_0_r|done].
Qed.

Lemma wp_write_struct c v base g l :
  Forall const_spec (c_items c) -> typed v c -> c_kind c = IR_CONST_AGG -> a_kind (agg_type (vt_agg v)) = IR_AGG_STRUCT ->
  from l0 l -> (ls_failed l = false -> ready g base v) ->
  wp (out ← layout_agg (run m tg (run_fuel m)).1 (vt_agg v);
      each (write_field m tg (write_const m tg) (agg_type (vt_agg v)) out base) 0 (c_items c) g) l
    (wrote l g (fun vals => Z.shiftl (image vals c) (8 * base)) (relocs c base) (symbols c)).
Proof.
  intros Hs Ht Hc Hk R Hready. destruct c as [kind type scalar int fl sym gl items]. cbn [c_kind c_items] in *. subst kind.
  cbn [LayoutDataSpec.typed c_kind c_type c_items] in Ht. destruct Ht as (Hva & -> & Ha & Ht). rewrite Hk in Ht.
  cbn [LayoutDataSpec.image LayoutDataSpec.relocs LayoutDataSpec.symbols c_kind c_items c_type]. rewrite Hk.
  apply wp_bind. eapply wp_mono; [by apply wp_lay_of|]. cbn beta. intros out l1 (R1 & R1' & Hout).
  eapply wp_mono; [apply (wp_write_fields (vt_agg v) Ha Hk base out items 0 g l1); [done|done|done|]|].
  - intros Hf. split; [by apply Hout|]. destruct (Hready (from_failed _ _ R1' Hf)) as [G B1 B2 B3].
    unfold LayoutRun.size_of in B2, B3. rewrite bool_decide_true in B2, B3 by done.
    split; [done|done|done|]. intros j f _ Hj Hb. destruct (field_place (vt_agg v) Ha Hk j f Hj Hb) as (P1 & P2 & P3 & _).
    eapply clear_mono; [..|exact B3]; lia.
  - cbn beta. intros g' l' W. by eapply wrote_from.
Qed.

Lemma wp_write_array c v base g l :
  Forall const_spec (c_items c) -> typed v c -> c_kind c = IR_CONST_AGG -> a_kind (agg_type (vt_agg v)) = IR_AGG_ARRAY ->
  from l0 l -> (ls_failed l = false -> ready g base v) ->
  wp (_ ← layout_agg (run m tg (run_fuel m)).1 (vt_agg v);
      match a_fields (agg_type (vt_agg v)) with
      | [] => mret g
      | e :: _ =>
          step ← layout_size tg (run m tg (run_fuel m)).1 (f_type e);
          each (fun i item g => write_const m tg g item (u64 (base + u64 (Z.of_nat i * step)))) 0 (c_items c) g
      end) l
    (wrote l g (fun vals => Z.shiftl (image vals c) (8 * base)) (relocs c base) (symbols c)).
Proof.
  intros Hs Ht Hc Hk R Hready. destruct c as [kind type scalar int fl sym gl items]. cbn [c_kind c_items] in *. subst kind.
  cbn [LayoutDataSpec.typed c_kind c_type c_items] in Ht. destruct Ht as (Hva & -> & Ha & Ht). rewrite Hk in Ht.
  destruct Ht as (e & He & Hitems & Hlen).
  cbn [LayoutDataSpec.image LayoutDataSpec.relocs LayoutDataSpec.symbols c_kind c_items c_type]. rewrite Hk.
  apply wp_bind. eapply wp_mono; [by apply wp_lay_of|]. cbn beta. intros out l1 (R1 & R1' & _). rewrite He.
  destruct (element_valid (vt_agg v) e Ha He) as [Hv Hstep].
  apply wp_bind. eapply wp_mono; [by apply wp_size_of|]. cbn beta. intros step l2 (R2 & R2' & Hst).
  eapply wp_mono; [apply (wp_write_elements (vt_agg v) e Ha He base items 0 g l2 step); [done|done|done|]|].
  - intros Hf. split; [by apply Hst|]. destruct (Hready (from_failed _ _ R1' (from_failed _ _ R2' Hf))) as [G B1 B2 B3].
    unfold LayoutRun.size_of in B2, B3. rewrite bool_decide_true in B2, B3 by done. cbn [Nat.add] in *.
    split; cbn [Nat.add]; [done|done|lia|]. eapply clear_mono; [..|exact B3]; lia.
  - cbn beta. intros g' l' W. eapply wrote_from; [|exact W]. by eapply reach_trans.
Qed.

Lemma wp_write_const c : const_spec c.
Proof.
  induction c as [kind type scalar int fl sym gl items IH] using ir_const_nested_ind. intros v g base l Hv Ht R Hready.
  set (c := Const kind type scalar int fl sym gl items) in *.
  destruct (decide (kind = IR_CONST_NONE)) as [->|Hn].
  { apply wp_ret, wrote_now; [apply reach_refl; apply R|]. intros Hf vals. cbn [image LayoutDataSpec.image c c_kind].
    rewrite Z.shiftl_0_l. by apply written_nothing, Hready. }
  assert (valid m (const_vtype c) /\ size_of (const_vtype c) = size_of v) as [Hcv Hcs].
  { split; [|by apply typed_size]. unfold const_vtype. subst c. cbn [c_kind c_type c_scalar] in *.
    cbn [LayoutDataSpec.typed c_kind c_type c_scalar] in Ht.
    destruct kind; cbn; try done; try (destruct Ht as (? & -> & _); by intros ?). by destruct Ht as (_ & -> & _). }
  unfold c at 1. cbn [write_const c_kind]. fold c.
  destruct kind; [done|..].
  all: apply wp_bind; (eapply wp_mono; [by apply wp_size_of|]); cbn beta; intros size l1 (R1 & R1' & Hsize);
    rewrite Hcs in Hsize.
  all: assert (ls_failed l1 = false -> ready g base v /\ size = size_of v) as Hr
    by (intros Hf; split; [apply Hready; by eapply from_failed|by apply Hsize]).
  - apply wp_ret, wrote_now; [done|]. intros Hf vals. destruct (Hr Hf) as [Hg ->].
    cbn [LayoutDataSpec.image c c_kind integer_of c_integer LayoutDataSpec.relocs]. fold c. rewrite Hcs. by apply (write_value _ _ v).
  - apply wp_ret, wrote_now; [done|]. intros Hf vals. destruct (Hr Hf) as [Hg ->].
    cbn [LayoutDataSpec.image c c_kind c_floating LayoutDataSpec.relocs]. fold c. rewrite Hcs. by apply (write_value _ _ v).
  - apply wp_bind. eapply wp_mono; [apply wp_value_of; [done|]|].
    { cbn [LayoutDataSpec.typed c c_kind c_sym] in Ht. by apply Ht. }
    cbn beta. intros r l2 (R2 & R2' & Hval). apply wp_ret. split; [by eapply reach_trans|]. intros Hf le Hle.
    destruct (Hr (from_failed _ _ R2' Hf)) as [Hg ->]. destruct (Hval Hf) as (x & -> & Hd & Hx).
    destruct (sm_sym _ _ Hle _ Hd) as [Hd' Hv']. split; [|by repeat constructor].
    cbn [LayoutDataSpec.image c c_kind integer_of c_sym LayoutDataSpec.relocs]. fold c. rewrite Hcs.
    replace (value le sym) with x by (etrans; [symmetry; exact Hx|done]). by apply (write_value _ _ v).
  - apply wp_ret, wrote_now; [done|]. intros Hf vals. destruct (Hr Hf) as [Hg _]. by apply (write_reloc _ _ v).
  - apply wp_ret, wrote_now; [done|]. intros Hf vals. destruct (Hr Hf) as [Hg _]. by apply (write_reloc _ _ v).
  - assert (c_type c = v) as -> by apply Ht. eapply wp_mono; [|intros g' l' W; by eapply wrote_from].
    assert (ls_failed l1 = false -> ready g base v) as Hr' by (intros Hf; by apply Hr).
    destruct (a_kind (agg_type (vt_agg v))) eqn:Hk; [case_bool_decide; [done|]|..].
    + by apply wp_write_struct.
    + destruct Ht as (_ & _ & _ & Ht). by rewrite Hk in Ht.
    + by apply wp_write_array.
Qed.

(** ** The globals *)

Definition global_typed (g : ir_global) : Prop :=
  match g_value g with Some c => typed (const_vtype c) c /\ c_kind c <> IR_CONST_NONE | None => True end.

Definition global_symbols (g : ir_global) : list nat :=
  match g_value g with Some c => symbols c | None => [] end.

(** The global [g'] is [g] with the bytes of its constant. *)
Definition data_of (vals : nat -> Z) (g g' : ir_global) : Prop :=
  match g_value g with
  | None => g' = g
  | Some c =>
      g_size g' = size_of (const_vtype c) /\ g_align g' = align_of tg l0 (const_vtype c) /\
      Z.of_nat (length (g_bytes g')) = Z.max 1 (g_size g') /\ Forall is_byte (g_bytes g') /\
      memory g' = image vals c /\ g_relocs g' = g_relocs g ++ relocs c 0 /\ g_value g' = g_value g
  end.

Definition laid_out (l : layouts) (g g' : ir_global) (l' : layouts) : Prop :=
  from l l' /\ (ls_failed l' = false -> forall le, same l' le ->
    data_of (value le) g g' /\ Forall (fun s => sym_st le s = DONE) (global_symbols g)).

Lemma wp_align_of v l :
  from l0 l -> valid m v ->
  wp (layout_align tg (run m tg (run_fuel m)).1 v) l
    (fun z l' => from l0 l' /\ from l l' /\ (ls_failed l' = false -> z = align_of tg l0 v)).
Proof.
  intros R Hv. destruct (run_fuel_ok m tg rank Hm) as [Hc _].
  eapply wp_mono; [apply (wp_layout_align m tg n_aggs _ Hc v l); [apply R|apply R|done]|]. cbn.
  intros z l' (R' & -> & _). assert (from l0 l') as R0 by by eapply reach_trans. split; [done|]. split; [done|].
  intros Hf. by apply from_size.
Qed.

Lemma fresh_ready v size align rs value :
  valid m v -> size = size_of v ->
  ready (Global (replicate (Z.to_nat (if size =? 0 then 1 else size)) 0) size align rs value) 0 v.
Proof.
  intros Hv ->. destruct (size_bound v Hv) as [H0 H1].
  split; [split|done|cbn; lia|]; cbn [g_bytes g_size].
  - apply Forall_replicate. done.
  - rewrite length_replicate. destruct (Z.eqb_spec (size_of v) 0); lia.
  - done.
  - intros k _. unfold memory. cbn [g_bytes]. by rewrite le_value_zeros, Z.bits_0.
Qed.

Lemma wp_global_data g l :
  global_typed g -> from l0 l -> wp (global_data m tg g) l (laid_out l g).
Proof.
  intros Ht R. unfold global_data, laid_out, data_of, global_symbols, global_typed in *. destruct (g_value g) as [c|] eqn:Hg.
  2: { apply wp_ret. split; [apply reach_refl; apply R|done]. }
  destruct Ht as [Ht Hn]. pose proof (typed_valid _ _ Ht Hn) as Hv.
  apply wp_bind. eapply wp_mono; [by apply wp_size_of|]. cbn beta. intros size l1 (R1 & R1' & Hsize).
  apply wp_bind. eapply wp_mono; [by apply wp_align_of|]. cbn beta. intros align l2 (R2 & R2' & Halign).
  assert (ls_failed l2 = false -> size = size_of (const_vtype c)) as Hsz by (intros Hf; by eapply Hsize, from_failed).
  eapply wp_mono; [apply (wp_write_const c (const_vtype c)); [done|done|done|]|].
  { intros Hf. apply fresh_ready; [done|by apply Hsz]. }
  cbn beta. intros g' l3 [R3 W]. split; [by eapply reach_trans, reach_trans|]. intros Hf le Hle.
  destruct (W Hf le Hle) as [[[[W1 W2 W3] W4 W5 W6 W7] Wm Wr] S].
  pose proof (from_failed _ _ R3 Hf) as Hf2. split; [|done]. cbn [g_size g_align g_value g_bytes g_relocs] in *.
  rewrite length_replicate in W7. rewrite (Hsz Hf2) in *. destruct (size_bound _ Hv) as [H0 _].
  split_and!; try done.
  - rewrite W5. by apply Halign.
  - rewrite W7, W4. destruct (Z.eqb_spec (size_of (const_vtype c)) 0); lia.
  - rewrite Wm, Z.mul_0_r, Z.shiftl_0_r. unfold memory at 1. cbn [g_bytes]. by rewrite le_value_zeros.
Qed.

Lemma wp_globals_data gs l :
  Forall global_typed gs -> from l0 l ->
  wp (globals_data m tg gs) l (fun gs' l' => from l l' /\ (ls_failed l' = false -> forall le, same l' le ->
    Forall2 (data_of (value le)) gs gs' /\
    Forall (fun g => Forall (fun s => sym_st le s = DONE) (global_symbols g)) gs)).
Proof.
  revert l. induction gs as [|g gs IH]; intros l Ht R; cbn [globals_data].
  { apply wp_ret. split; [apply reach_refl; apply R|done]. }
  apply Forall_cons_1 in Ht as [Hg Ht]. apply wp_bind, wp_gets. destruct (ls_failed l) eqn:Hf0.
  { apply wp_ret. split; [apply reach_refl; apply R|congruence]. }
  apply wp_bind. eapply wp_mono; [by apply wp_global_data|]. cbn beta. intros g' l1 [R1 W1].
  apply wp_bind. eapply wp_mono; [apply IH; [done|by eapply reach_trans]|]. cbn beta. intros gs' l2 [R2 W2].
  apply wp_ret. split; [by eapply reach_trans|]. intros Hf le Hle. destruct (reach_same _ _ _ _ _ R2 Hf) as [Hs Hf1].
  destruct (W1 Hf1 le (same_trans _ _ _ Hs Hle)) as [D1 S1]. destruct (W2 Hf le Hle) as [D2 S2]. by split; constructor.
Qed.

(** ** Reading a field back *)

Section ReadBack.
Context (vals : nat -> Z) (a : nat) (Ha : (a < n_aggs)%nat) (Hk : a_kind (agg_type a) = IR_AGG_STRUCT).

Notation o := (lay l0 a).
Notation img := (field_image (image vals) (agg_type a) o).

Lemma each_item_lookup {A} (P : nat -> A -> Prop) i xs n x :
  each_item P i xs -> xs !! n = Some x -> P (i + n)%nat x.
Proof.
  revert i n. induction xs as [|y xs IH]; intros i n; cbn [each_item]; [done|]. intros [Hy H] Hn. destruct n as [|n].
  - injection Hn as ->. by rewrite Nat.add_0_r.
  - rewrite <- Nat.add_succ_comm. by apply IH.
Qed.

(** The value of a field in its own bits. *)
Definition field_value (f : ir_field) (item : ir_const) : Z :=
  if f_bits f =? 0 then image vals item else wrap (f_bits f) (c_integer item).

Lemma field_value_width i f item :
  a_fields (agg_type a) !! i = Some f -> is_unit_break f = false -> field_typed typed (agg_type a) i item ->
  in_width (field_length f) (field_value f item).
Proof.
  intros Hi Hb (f' & Hi' & Ht). rewrite Hi in Hi'. injection Hi' as <-. rewrite Hb in Ht.
  destruct (field_valid a Ha i f Hi) as [Hv Hnn]. unfold field_length, field_value.
  destruct (Z.eqb_spec (f_bits f) 0); [by apply image_width, Ht|by apply wrap_bound].
Qed.

Lemma field_image_outside i f item k :
  a_fields (agg_type a) !! i = Some f -> field_typed typed (agg_type a) i item -> 0 <= k ->
  (is_unit_break f = false -> ~ first_bit f i o <= k < first_bit f i o + field_length f) ->
  Z.testbit (img i item) k = false.
Proof.
  intros Hi Ht Hk0 Hout. unfold field_image. rewrite Hi. destruct (is_unit_break f) eqn:Hb; [apply Z.bits_0|].
  specialize (Hout eq_refl). destruct (field_place a Ha Hk i f Hi Hb) as (P1 & P2 & _ & _).
  rewrite Z.shiftl_spec by done. destruct (Z.lt_ge_cases k (first_bit f i o)); [by rewrite Z.testbit_neg_r by lia|].
  apply (testbit_small _ (field_length f)); [by apply (field_value_width i)|lia].
Qed.

Lemma struct_image_field items i f item :
  each_item (field_typed typed (agg_type a)) 0 items -> items !! i = Some item ->
  a_fields (agg_type a) !! i = Some f -> is_unit_break f = false ->
  (lor_items img 0 items / 2 ^ first_bit f i o) mod 2 ^ field_length f = field_value f item.
Proof.
  intros Ht Hitem Hi Hb. destruct (field_place a Ha Hk i f Hi Hb) as (P1 & P2 & P3 & P4).
  pose proof (each_item_lookup _ _ _ _ _ Ht Hitem) as Hti. cbn [Nat.add] in Hti.
  pose proof (field_value_width i f item Hi Hb Hti) as Hw.
  apply Z.bits_inj'. intros k Hk0. destruct (Z.lt_ge_cases k (field_length f)) as [Hlt|Hge].
  2: { rewrite Z.mod_pow2_bits_high by lia. symmetry. by apply (testbit_small _ (field_length f)). }
  rewrite Z.mod_pow2_bits_low, Z.div_pow2_bits by lia. rewrite (lor_items_bit _ _ _ _ i item Hitem).
  - cbn [Nat.add]. unfold field_image. rewrite Hi, Hb, Z.shiftl_spec by lia.
    by replace (k + first_bit f i o - first_bit f i o) with k by lia.
  - intros j y Hj Hy. cbn [Nat.add]. pose proof (each_item_lookup _ _ _ _ _ Ht Hy) as Htj. cbn [Nat.add] in Htj.
    destruct (id Htj) as (h & Hh & _). apply (field_image_outside j h y); [done|done|lia|]. intros Hbh.
    destruct (field_place a Ha Hk j h Hh Hbh) as (Q1 & Q2 & Q3 & Q4).
    destruct (Nat.lt_ge_cases i j); [pose proof (P4 j h ltac:(lia) Hh Hbh)|pose proof (Q4 i f ltac:(lia) Hi Hb)]; lia.
Qed.

Lemma struct_image_padding items k :
  each_item (field_typed typed (agg_type a)) 0 items -> 0 <= k ->
  (forall i f, a_fields (agg_type a) !! i = Some f -> is_unit_break f = false ->
    ~ first_bit f i o <= k < first_bit f i o + field_length f) ->
  Z.testbit (lor_items img 0 items) k = false.
Proof.
  intros Ht Hk0 Hout. apply lor_items_clear. intros j item Hj. cbn [Nat.add].
  pose proof (each_item_lookup _ _ _ _ _ Ht Hj) as Htj. cbn [Nat.add] in Htj. destruct (id Htj) as (f & Hf & _).
  apply (field_image_outside j f item); [done|done|done|]. intros Hb. by apply Hout.
Qed.
End ReadBack.
End Data.

(** *** The whole constant, read from its bytes *)

(** [n] bits of a number from bit [pos] on. *)
Definition slice (number pos n : Z) : Z := (number / 2 ^ pos) mod 2 ^ n.

Lemma slice_slice number pos n b k : 0 <= pos -> 0 <= b -> 0 <= k -> b + k <= n -> slice (slice number pos n) b k = slice number (pos + b) k.
Proof.
  intros Hp Hb Hk Hn. unfold slice. apply Z.bits_inj'. intros i Hi. destruct (Z.lt_ge_cases i k) as [Hlt|Hge].
  - rewrite !Z.mod_pow2_bits_low, Z.div_pow2_bits, Z.mod_pow2_bits_low, !Z.div_pow2_bits by lia. f_equal. lia.
  - by rewrite !Z.mod_pow2_bits_high by lia.
Qed.

Lemma slice_bit number pos n k : 0 <= pos -> 0 <= k < n -> Z.testbit (slice number pos n) k = Z.testbit number (pos + k).
Proof. intros Hp Hk. unfold slice. rewrite Z.mod_pow2_bits_low, Z.div_pow2_bits by lia. f_equal. lia. Qed.

Section Reads.
Context (m : ir_module) (tg : target) (l0 : layouts) (vals : nat -> Z) (number : Z).

Notation agg_type := (agg_type m).
Notation size_of := (size_of tg l0).

(** The bits from [pos] on are those of a field. *)
Definition field_reads (reads : Z -> ir_vtype -> ir_const -> Prop) (t : ir_aggtype) (o : layout) (pos : Z) (i : nat) (item : ir_const) : Prop :=
  match a_fields t !! i with
  | Some f =>
      if is_unit_break f then True
      else if f_bits f =? 0 then reads (pos + first_bit f i o) (f_type f) item
      else slice number (pos + first_bit f i o) (f_bits f) = c_integer item mod 2 ^ f_bits f
  | None => True
  end.

(** A constant of type [v] is what the bits from [pos] on say: a scalar is the number
    that they write, an address zeros, a struct its fields with zeros between them, an
    array its elements, and no value is zeros. *)
Fixpoint reads (pos : Z) (v : ir_vtype) (c : ir_const) : Prop :=
  let bits := 8 * size_of v in
  let a := vt_agg (c_type c) in
  let t := agg_type a in
  match c_kind c with
  | IR_CONST_NONE | IR_CONST_ADDR | IR_CONST_FUNC => slice number pos bits = 0
  | IR_CONST_INT => slice number pos bits = c_integer c mod 2 ^ bits
  | IR_CONST_SYM => slice number pos bits = vals (c_sym c) mod 2 ^ bits
  | IR_CONST_FLOAT => slice number pos bits = float_const_bits (c_floating c) (size_of v) mod 2 ^ bits
  | IR_CONST_AGG =>
      match a_kind t with
      | IR_AGG_ARRAY =>
          each_item (fun i item => reads (pos + 8 * (Z.of_nat i * element_size tg l0 t)) (default (ir_scalar IR_VOID) (f_type <$> a_fields t !! 0%nat)) item) 0 (c_items c) /\
          forall k, 8 * (Z.of_nat (length (c_items c)) * element_size tg l0 t) <= k < bits -> Z.testbit number (pos + k) = false
      | _ =>
          each_item (field_reads reads t (lay l0 a) pos) 0 (c_items c) /\
          forall k, 0 <= k < bits ->
            (forall i f, a_fields t !! i = Some f -> is_unit_break f = false ->
               ~ first_bit f i (lay l0 a) <= k < first_bit f i (lay l0 a) + field_length tg l0 f) ->
            Z.testbit number (pos + k) = false
      end
  end.
End Reads.

Section ReadAll.
Context (m : ir_module) (tg : target) (rank : nat -> nat) (Hm : module_ok m tg rank).
Context (l0 : layouts) (Hl0 : layout_init m tg = Some (true, l0)) (vals : nat -> Z) (number : Z).

Notation agg_type := (agg_type m).
Notation size_of := (size_of tg l0).
Notation typed := (typed m tg l0).
Notation image := (image m tg l0 vals).

Lemma each_item_intro {A} (P : nat -> A -> Prop) i xs : (forall j x, xs !! j = Some x -> P (i + j)%nat x) -> each_item P i xs.
Proof.
  revert i. induction xs as [|x xs IH]; intros i H; [done|]. cbn [each_item]. split; [by rewrite <- (Nat.add_0_r i); apply (H O)|].
  apply IH. intros j y Hj. rewrite Nat.add_succ_comm. by apply (H (S j)).
Qed.

(** Bits that are the image of a constant read as the constant. *)
Lemma image_reads c v pos : valid m v -> typed v c -> 0 <= pos -> slice number pos (8 * size_of v) = image c -> reads m tg l0 vals number pos v c.
Proof.
  revert v pos. induction c as [kind type scalar int fl sym gl items IH] using ir_const_nested_ind. intros v pos Hv Ht Hp Himg.
  destruct (size_bound m tg rank Hm l0 Hl0 v Hv) as [Hs _]. rewrite Forall_forall in IH.
  destruct (decide (kind = IR_CONST_AGG)) as [->|Hna].
  2: { pose proof (fun H => typed_size m tg l0 v _ Ht H) as Hsz. cbn [LayoutDataSpec.image reads c_kind c_integer c_sym c_floating integer_of] in *.
       destruct kind; try done; rewrite Hsz in Himg by done; exact Himg. }
  pose proof Ht as Ht'. cbn [LayoutDataSpec.typed c_kind c_type c_items] in Ht. destruct Ht as (Hva & -> & Ha & Ht).
  cbn [LayoutDataSpec.image reads c_kind c_type c_items] in *. unfold LayoutRun.size_of in Hs, Himg |- *. rewrite bool_decide_true in Hs, Himg by done.
  rewrite bool_decide_true by done. set (a := vt_agg v) in *. destruct (a_kind (agg_type a)) eqn:Hk; [|done|].
  - split.
    + apply each_item_intro. intros i item Hitem. cbn [Nat.add]. unfold field_reads. destruct (a_fields (agg_type a) !! i) as [f|] eqn:Hi; [|done].
      destruct (is_unit_break f) eqn:Hb; [done|]. destruct (field_place m tg rank Hm l0 Hl0 a Ha Hk i f Hi Hb) as (P1 & P2 & P3 & _).
      pose proof (struct_image_field m tg rank Hm l0 Hl0 vals a Ha Hk items i f item Ht Hitem Hi Hb) as Hf. rewrite <- Himg in Hf.
      change ((slice number pos (8 * l_size (lay l0 a)) / 2 ^ first_bit f i (lay l0 a)) mod 2 ^ field_length tg l0 f)
        with (slice (slice number pos (8 * l_size (lay l0 a))) (first_bit f i (lay l0 a)) (field_length tg l0 f)) in Hf.
      rewrite slice_slice in Hf by done. pose proof (each_item_lookup _ _ _ _ _ Ht Hitem) as (f' & Hf' & Htf). cbn [Nat.add] in Hf'.
      rewrite Hi in Hf'. injection Hf' as <-. rewrite Hb in Htf. unfold field_value, field_length in Hf.
      destruct (Z.eqb_spec (f_bits f) 0) as [Hz|Hz]; [|exact Hf]. apply IH; [by eapply list_elem_of_lookup_2| |by apply Htf|lia|exact Hf].
      by apply (field_valid m tg rank Hm a Ha i f).
    + intros k Hk0 Hout. rewrite <- (slice_bit _ _ (8 * l_size (lay l0 a))) by lia. rewrite Himg.
      by apply (struct_image_padding m tg rank Hm l0 Hl0 vals a Ha Hk); [|lia|].
  - destruct Ht as (e & He & Hitems & Hlen). destruct (element_valid m tg rank Hm l0 Hl0 a e Ha He) as [Hev Hes].
    rewrite (element_step m tg l0 a e He) in *. rewrite He. cbn [lookup list_lookup fmap option_fmap option_map default from_option].
    set (img := fun (i : nat) item => Z.shiftl (image item) (8 * (Z.of_nat i * size_of (f_type e)))) in *.
    assert (Hbit : forall i item k, items !! i = Some item -> 0 <= k -> ~ 8 * (Z.of_nat i * size_of (f_type e)) <= k < 8 * (Z.of_nat i * size_of (f_type e)) + 8 * size_of (f_type e) ->
      Z.testbit (img i item) k = false).
    { intros i item k Hi Hk0 Hout. unfold img. rewrite Z.shiftl_spec by done.
      destruct (Z.lt_ge_cases k (8 * (Z.of_nat i * size_of (f_type e)))); [by rewrite Z.testbit_neg_r by lia|].
      apply (testbit_small _ (8 * size_of (f_type e))); [|lia]. apply (image_width m tg rank Hm l0 Hl0); [done|].
      exact (each_item_lookup _ _ _ _ _ Hitems Hi). }
    split.
    + apply each_item_intro. intros i item Hitem. cbn [Nat.add]. pose proof (each_item_lookup _ _ _ _ _ Hitems Hitem) as Hte. cbn beta in Hte.
      apply lookup_lt_Some in Hitem as Hlt.
      assert (Z.of_nat i * size_of (f_type e) + size_of (f_type e) <= Z.of_nat (length items) * size_of (f_type e)) as Hend by nia.
      apply IH; [by eapply list_elem_of_lookup_2|done|done|nia|]. unfold id.
      rewrite <- (slice_slice _ _ (8 * l_size (lay l0 a))) by nia. rewrite Himg.
      pose proof (image_width m tg rank Hm l0 Hl0 vals item _ Hev Hte) as Hw.
      apply Z.bits_inj'. intros k Hk0. destruct (Z.lt_ge_cases k (8 * size_of (f_type e))) as [Hlt'|Hge].
      * rewrite slice_bit by nia. erewrite lor_items_bit; [cbn [Nat.add]|exact Hitem|]; cbn [Nat.add].
        -- unfold img. rewrite Z.shiftl_spec by nia. f_equal. lia.
        -- intros j y Hj Hy. apply Hbit; [done|nia|]. destruct (Nat.lt_ge_cases i j); nia.
      * unfold slice. rewrite Z.mod_pow2_bits_high by lia. symmetry. by apply (testbit_small _ (8 * size_of (f_type e))).
    + intros k Hk0. rewrite <- (slice_bit _ _ (8 * l_size (lay l0 a))) by nia. rewrite Himg. apply lor_items_clear. intros j item Hj. cbn [Nat.add].
      apply Hbit; [done|nia|]. apply lookup_lt_Some in Hj. nia.
Qed.
End ReadAll.

(** ** Properties *)

Lemma layout_data_of m tg rank (Hm : module_ok m tg rank) l gs :
  layout_init m tg = Some (true, l) -> Forall (global_typed m tg l) gs ->
  exists ok gs' l', layout_data m tg gs l = Some ((ok, gs'), l') /\
    if ok then Forall2 (data_of m tg l (value l')) gs gs' /\
      Forall (fun g => Forall (fun s => sym_good m tg l' s (value l' s)) (global_symbols m g)) gs
    else ls_error l' <> None.
Proof.
  intros E Ht. pose proof (from_start m tg rank Hm l E) as R.
  pose proof (wp_globals_data m tg rank Hm l E gs l Ht R) as H. apply wp_some in H as (gs' & l' & Er & Rl & H).
  exists (negb (ls_failed l')), gs', l'. unfold layout_data, mbind, M_bind. rewrite Er. split; [done|].
  destruct (ls_failed l') eqn:Hf; cbn [negb]; [by apply (r_inv _ _ _ _ _ Rl)|].
  destruct (H eq_refl l' (same_refl l')) as [H1 H2]. split; [exact H1|].
  eapply Forall_impl; [exact H2|]. cbn beta. intros g Hg. eapply Forall_impl; [exact Hg|]. cbn beta. intros s Hs.
  by apply (inv_sym _ _ _ (r_inv _ _ _ _ _ Rl) Hf).
Qed.



(** ** Constants of the sample *)
Module Constants.

Definition void : ir_vtype := {| vt_type := IR_VOID; vt_agg := 0 |}.
Definition int (t : ir_type) (z : Z) : ir_const := Const IR_CONST_INT void t z 0 0 0 [].
Definition agg (a : nat) (items : list ir_const) : ir_const :=
  Const IR_CONST_AGG {| vt_type := IR_AGG; vt_agg := a |} IR_VOID 0 0 0 0 items.
Definition sym (t : ir_type) (s : nat) : ir_const := Const IR_CONST_SYM void t 0 0 s 0 [].
Definition none : ir_const := Const IR_CONST_NONE void IR_VOID 0 0 0 0 [].
Definition global (c : ir_const) : ir_global := Global [] 0 0 [] (Some c).

(** Two bitfields, a unit break, a bitfield, and an array of structs that ends
    with a symbolic value. *)
Definition value : ir_const :=
  agg 2 [int IR_I32 5; int IR_I32 0x2fffffff; none; int IR_I8 3;
         agg 1 [agg 0 [int IR_I8 1; int IR_CLONG 0x1122334455667788]; agg 0 [none; sym IR_CLONG 2]]].

Definition written (gs : list ir_global) : option (bool * list (list Z)) :=
  match layout_data Sample.modul TARGET_LINUX_X86_64 gs (Sample.laid TARGET_LINUX_X86_64) with
  | Some ((ok, gs), _) => Some (ok, map (fun g => take 48 (g_bytes g)) gs)
  | None => None
  end.

Lemma value_typed :
  typed Sample.modul TARGET_LINUX_X86_64 (Sample.laid TARGET_LINUX_X86_64) (Sample.agg 2) value.
Proof.
  vm_compute.
  repeat (first [exact I | discriminate | reflexivity | left; reflexivity | split | eexists | intros _]); lia.
Qed.

(** The globals that hold [cs], laid out, and the state after. *)
Definition laid_out (cs : list ir_const) : list ir_global * layouts :=
  let l := Sample.laid TARGET_LINUX_X86_64 in
  match layout_data Sample.modul TARGET_LINUX_X86_64 (map global cs) l with
  | Some ((_, gs), l') => (gs, l')
  | None => ([], l)
  end.

(** A bitfield whose item is symbolic. *)
Definition symbolic : ir_const := agg 2 [int IR_I32 5; sym IR_I32 2; none; int IR_I8 3; none].

Lemma symbolic_typed :
  typed Sample.modul TARGET_LINUX_X86_64 (Sample.laid TARGET_LINUX_X86_64) (Sample.agg 2) symbolic.
Proof.
  vm_compute.
  repeat (first [exact I | discriminate | reflexivity | left; reflexivity | split | eexists | intros _]); lia.
Qed.
End Constants.



(** A symbolic value for a bitfield, as [size_of(T)] in a constant struct, is left out:
    [write_bits] takes the member [integer] of the item, which is 0, while the same
    item outside a bitfield gives 17. *)
Lemma symbolic_bitfield_lost :
  Constants.written [Constants.global Constants.symbolic; Constants.global (Constants.sym IR_I32 2)] =
  Some (true, [5 :: replicate 7 0 ++ 3 :: replicate 39 0; [17; 0; 0; 0]]).
Proof. vm_compute. reflexivity. Qed.
