(* ===== verification/LayoutResolve.v ===== *)
(** * LayoutResolve: the functions after the layout

    [layout_resolve] ends on every function, and a function it returns is done: no
    symbolic value and no type of the target is left, every integer has the width
    of its type, and a second pass changes nothing. Every operand is the one of the
    source with its value on the target. *)

From S2P Require Import Prelude Arith Target Ir IrFold Layout LayoutPlace LayoutRun LayoutSpec LayoutData LayoutDataSpec.

(** ** Done *)

Section Done.
Context (tg : target).

Definition fixed (type : ir_type) : Prop := target_type tg type = type.

Definition operand_done (o : ir_operand) : Prop :=
  fixed (o_type o) /\
  match o_kind o with IR_INT v => ir_int_op (o_type o) v = o | IR_SYM _ => False | _ => True end.

Record inst_done (inst : ir_inst) : Prop := {
  id_type : fixed (i_type inst);
  id_a : operand_done (i_a inst);
  id_b : operand_done (i_b inst);
  id_c : operand_done (i_c inst);
  id_args : Forall operand_done (i_args inst);
  id_conversion : is_conversion (i_op inst) = true -> o_type (i_a inst) <> i_type inst;
}.

Record function_done (f : ir_function) : Prop := {
  fd_result : fixed (fn_result f);
  fd_params : Forall (fun p => fixed (pr_type p)) (fn_params f);
  fd_temps : Forall fixed (fn_temps f);
  fd_blocks : Forall (Forall inst_done) (fn_blocks f);
}.

Lemma fixed_target type : fixed (target_type tg type).
Proof. unfold fixed. destruct type; cbn [target_type]; try done; by destruct (windows tg). Qed.

Lemma fixed_not_wchar type : fixed type -> type <> IR_CWCHAR.
Proof. intros H ->. unfold fixed in H. cbn [target_type] in H. by destruct (windows tg). Qed.

Lemma resolve_type_fst type b : (resolve_type tg type b).1 = target_type tg type.
Proof. unfold resolve_type. by case_bool_decide. Qed.

Lemma resolve_type_fixed type b : fixed type -> resolve_type tg type b = (type, b).
Proof. intros H. unfold resolve_type. by rewrite bool_decide_true. Qed.

Lemma resolve_types_fst types b : (resolve_types tg types b).1 = map (target_type tg) types.
Proof.
  revert b. induction types as [|t types IH]; intros b; cbn [resolve_types map]; [done|].
  pose proof (resolve_type_fst t b) as E. destruct (resolve_type tg t b) as [t' b']. specialize (IH b').
  destruct (resolve_types tg types b') as [ts b2]. cbn in *. by subst.
Qed.

Lemma resolve_types_fixed types b : Forall fixed types -> resolve_types tg types b = (types, b).
Proof. induction 1 as [|t types Ht _ IH]; cbn [resolve_types]; [done|]. by rewrite resolve_type_fixed, IH. Qed.

Lemma int_op_idemp type v : operand_done (ir_int_op (target_type tg type) v).
Proof.
  split; [apply fixed_target|]. unfold ir_int_op. cbn [o_kind o_type].
  destruct (target_type tg type); try done; do 2 f_equal; by rewrite <- Z.land_assoc.
Qed.

(** *** A function that is done stays as it is *)

Context (m : ir_module).

Lemma resolve_done o b l : operand_done o -> resolve m tg o b l = Some (Some (o, b), l).
Proof.
  destruct o as [kind type]. intros [Hf Hk]. cbn [o_kind o_type] in *. unfold resolve. cbn [o_kind o_type].
  rewrite resolve_type_fixed by done. destruct kind; try done. by rewrite Hk.
Qed.

Lemma resolve_each_done {A} (f : A -> bool -> M (option (A * bool))) xs b l :
  Forall (fun x => forall b l, f x b l = Some (Some (x, b), l)) xs -> resolve_each f xs b l = Some (Some (xs, b), l).
Proof.
  intros H. revert b l. induction H as [|x xs Hx _ IH]; intros b l; cbn [resolve_each]; [done|].
  unfold and_then, mbind, M_bind. by rewrite Hx, IH.
Qed.

Lemma resolve_inst_done inst b l : inst_done inst -> resolve_inst m tg inst b l = Some (Some (inst, b), l).
Proof.
  destruct inst as [op type result a b0 c vt field member args]. intros [H1 H2 H3 H4 H5 H6].
  cbn [i_op i_type i_a i_b i_c i_args i_result i_of i_field] in *. unfold resolve_inst.
  cbn [i_op i_type i_a i_b i_c i_args i_result i_of i_field].
  assert (wchar_signedness tg (Inst op type result a b0 c vt field member args) = op) as ->.
  { unfold wchar_signedness. cbn [i_op i_type i_a]. rewrite !bool_decide_false; [done|..]; apply fixed_not_wchar; [apply H2|done]. }
  rewrite resolve_type_fixed by done. unfold and_then, mbind, M_bind.
  rewrite !resolve_done by done. rewrite resolve_each_done.
  - destruct (is_conversion op) eqn:Hc; cbn [andb]; [|done]. by rewrite bool_decide_false by auto.
  - eapply Forall_impl; [exact H5|]. cbn beta. intros o Ho b' l'. by apply resolve_done.
Qed.

Lemma set_same_types ps : zip_with set_param_type ps (map pr_type ps) = ps.
Proof. induction ps as [|p ps IH]; [done|]. cbn [map zip_with]. rewrite IH. by destruct p. Qed.

Lemma layout_resolve_done f b l : function_done f -> layout_resolve m tg f b l = Some (Some (f, b), l).
Proof.
  intros [H1 H2 H3 H4]. unfold layout_resolve. rewrite resolve_type_fixed by done.
  apply (proj2 (Forall_map pr_type _ (fn_params f))) in H2. rewrite (resolve_types_fixed _ b H2).
  rewrite (resolve_types_fixed (fn_temps f)) by done. unfold and_then, mbind, M_bind.
  rewrite resolve_each_done.
  - rewrite set_same_types. by destruct f.
  - eapply Forall_impl; [exact H4|]. cbn beta. intros xs Hxs b' l'. apply resolve_each_done.
    eapply Forall_impl; [exact Hxs|]. cbn beta. intros i Hi b2 l2. by apply resolve_inst_done.
Qed.
End Done.

(** ** What becomes of a function *)

Section Resolved.
Context (m : ir_module) (tg : target) (vals : nat -> Z).

Definition operand_resolved (o o' : ir_operand) : Prop :=
  let type := target_type tg (o_type o) in
  o' = match o_kind o with
       | IR_INT v => ir_int_op type v
       | IR_SYM sym => ir_int_op type (vals sym)
       | kind => Operand kind type
       end.

(** The operation on wide characters has the sign of the target, and a conversion
    to the type of its operand is a copy. *)
Definition inst_resolved (i i' : ir_inst) : Prop :=
  operand_resolved (i_a i) (i_a i') /\ operand_resolved (i_b i) (i_b i') /\ operand_resolved (i_c i) (i_c i') /\
  Forall2 operand_resolved (i_args i) (i_args i') /\
  i_type i' = target_type tg (i_type i) /\ i_result i' = i_result i /\ i_of i' = i_of i /\ i_field i' = i_field i /\ i_member i' = i_member i /\
  i_op i' = (let op := wchar_signedness tg i in
             if is_conversion op && bool_decide (target_type tg (o_type (i_a i)) = target_type tg (i_type i))
             then IR_COPY else op).

Definition function_resolved (f f' : ir_function) : Prop :=
  Forall2 (Forall2 inst_resolved) (fn_blocks f) (fn_blocks f') /\
  fn_result f' = target_type tg (fn_result f) /\ fn_temps f' = map (target_type tg) (fn_temps f) /\
  fn_params f' = map (fun p => set_param_type p (target_type tg (pr_type p))) (fn_params f) /\
  fn_result_agg f' = fn_result_agg f /\ fn_result_ext f' = fn_result_ext f /\ fn_allocates f' = fn_allocates f /\
  fn_result_range f' = fn_result_range f /\ fn_is_extern f' = fn_is_extern f /\ fn_variadic f' = fn_variadic f /\
  fn_never_returns f' = fn_never_returns f.

Definition operand_symbols (o : ir_operand) : list nat := match o_kind o with IR_SYM s => [s] | _ => [] end.

Definition inst_symbols (i : ir_inst) : list nat :=
  operand_symbols (i_a i) ++ operand_symbols (i_b i) ++ operand_symbols (i_c i) ++ (i_args i ≫= operand_symbols).

Definition function_symbols (f : ir_function) : list nat := fn_blocks f ≫= fun insts => insts ≫= inst_symbols.

Lemma operand_resolved_type o o' : operand_resolved o o' -> o_type o' = target_type tg (o_type o).
Proof. intros ->. by destruct (o_kind o). Qed.

Lemma operand_resolved_done o o' : operand_resolved o o' -> operand_done tg o'.
Proof.
  intros ->. destruct (o_kind o); try apply int_op_idemp; (split; [apply fixed_target|done]).
Qed.

Lemma inst_resolved_done i i' : inst_resolved i i' -> inst_done tg i'.
Proof.
  intros (Ha & Hb & Hc & Hargs & Ht & _ & _ & _ & _ & Hop).
  split; [rewrite Ht; apply fixed_target|by eapply operand_resolved_done..| |].
  - clear -Hargs. induction Hargs; constructor; [by eapply operand_resolved_done|done].
  - rewrite Hop, Ht, (operand_resolved_type _ _ Ha). cbv zeta. case_bool_decide; [|done].
    rewrite andb_true_r. by destruct (is_conversion (wchar_signedness tg i)) eqn:E; rewrite ?E.
Qed.

Lemma function_resolved_done f f' : function_resolved f f' -> function_done tg f'.
Proof.
  intros (Hb & Hr & Ht & Hp & _). split.
  - rewrite Hr. apply fixed_target.
  - rewrite Hp. apply Forall_map, Forall_true. intros p. apply fixed_target.
  - rewrite Ht. apply Forall_map, Forall_true. intros p. apply fixed_target.
  - clear -Hb. induction Hb as [|xs xs' bs bs' H _ IH]; constructor; [|done].
    clear -H. induction H; constructor; [by eapply inst_resolved_done|done].
Qed.
End Resolved.

(** ** The pass *)

Section Pass.
Context (m : ir_module) (tg : target) (rank : nat -> nat) (Hm : module_ok m tg rank).
Context (l0 : layouts) (Hl0 : layout_init m tg = Some (true, l0)).

Notation from l l' := (reach m tg (length (m_aggs m)) l l').

Definition named (syms : list nat) : Prop := Forall (fun s => (s < length (m_syms m))%nat) syms.

Definition folded (l : layouts) (syms : list nat) : Prop := Forall (fun s => sym_st l s = DONE) syms.

(** A step with the result [x'] for [x], related by [Q] in every later state. *)
Definition resolves {A} (Q : (nat -> Z) -> A -> Prop) (syms : list nat) (l : layouts) (r : option (A * bool))
    (l' : layouts) : Prop :=
  from l l' /\
  match r with
  | None => ls_failed l' = true
  | Some (x, _) => ls_failed l' = false /\ forall le, same l' le -> Q (value le) x /\ folded le syms
  end.

Lemma wp_resolved {A} (Q : (nat -> Z) -> A -> Prop) (x : A) b l :
  from l0 l -> ls_failed l = false -> (forall vals, Q vals x) ->
  wp (mret (Some (x, b))) l (resolves Q [] l).
Proof.
  intros R Hf HQ. apply wp_ret. split; [apply reach_refl; apply R|]. split; [done|]. intros le _. split; [apply HQ|constructor].
Qed.

(** A step, then another with its result. *)
Lemma wp_and_then {A B} (k : M (option (A * bool))) (f : A * bool -> M (option (B * bool)))
    (P : (nat -> Z) -> A -> Prop) (Q : (nat -> Z) -> B -> Prop) s1 s2 l :
  from l0 l -> wp k l (resolves P s1 l) ->
  (forall x b l1, from l0 l1 -> ls_failed l1 = false ->
    wp (f (x, b)) l1 (resolves (fun vals y => P vals x -> Q vals y) s2 l1)) ->
  wp (and_then k f) l (resolves Q (s1 ++ s2) l).
Proof.
  intros R Hk Hf. unfold and_then. apply wp_bind. eapply wp_mono; [exact Hk|]. cbn beta. intros [[x b]|] l1 [R1 H1].
  2: { by apply wp_ret. }
  destruct H1 as [F1 H1]. eapply wp_mono; [apply Hf; [by eapply reach_trans|done]|]. cbn beta. intros r l2 [R2 H2].
  split; [by eapply reach_trans|]. destruct r as [[y b2]|]; [|done]. destruct H2 as [F2 H2]. split; [done|]. intros le Hle.
  destruct (reach_same _ _ _ _ _ R2 F2) as [Hs _]. destruct (H1 le (same_trans _ _ _ Hs Hle)) as [HP S1].
  destruct (H2 le Hle) as [HQ S2]. split; [by apply HQ|]. by apply Forall_app.
Qed.

Lemma wp_resolve o b l :
  named (operand_symbols o) -> from l0 l -> ls_failed l = false ->
  wp (resolve m tg o b) l (resolves (fun vals => operand_resolved tg vals o) (operand_symbols o) l).
Proof.
  intros Hn R Hf. unfold resolve. pose proof (resolve_type_fst tg (o_type o) b) as Et.
  destruct (resolve_type tg (o_type o) b) as [type b']. cbn [fst] in Et. subst type.
  unfold operand_resolved, operand_symbols in *. destruct (o_kind o) as [| | | | | | |sym]; try by apply wp_resolved.
  apply Forall_cons_1 in Hn as [Hs _]. destruct (run_fuel_ok m tg rank Hm) as [_ Hg].
  unfold and_then. apply wp_bind. eapply wp_mono; [apply (Hg sym l); [apply R|apply R|done|done]|]. cbn beta.
  intros r l' (Hi & Hk & Hr). assert (from l l') as R' by (apply reach_intro; [apply R|apply R|done|done]).
  destruct r as [v|]; apply wp_ret; (split; [done|]); [|done]. destruct Hr as [H1 H2]. split; [by apply H1|].
  intros le Hle. destruct (H2 (H1 Hf)) as [Hd <-]. destruct (sm_sym _ _ Hle _ Hd) as [Hd' ->]. split; [done|].
  by repeat constructor.
Qed.

Lemma wp_resolve_each {A} (f : A -> bool -> M (option (A * bool))) (Q : (nat -> Z) -> A -> A -> Prop)
    (syms : A -> list nat) xs b l :
  (forall x b l, named (syms x) -> from l0 l -> ls_failed l = false ->
    wp (f x b) l (resolves (fun vals => Q vals x) (syms x) l)) ->
  named (xs ≫= syms) -> from l0 l -> ls_failed l = false ->
  wp (resolve_each f xs b) l (resolves (fun vals => Forall2 (Q vals) xs) (xs ≫= syms) l).
Proof.
  intros Hq. revert b l. induction xs as [|x xs IH]; intros b l Hn R Hf; cbn [resolve_each mbind list_bind] in *.
  { by apply wp_resolved. }
  apply Forall_app in Hn as [Hn1 Hn]. eapply wp_and_then; [done|by apply Hq|]. intros x' b1 l1 R1 F1.
  rewrite <- (app_nil_r (xs ≫= syms)). eapply wp_and_then; [done|by apply IH|]. intros xs' b2 l2 R2 F2.
  apply wp_resolved; [done|done|]. intros vals H2 H1. by constructor.
Qed.

Lemma wp_resolve_inst i b l :
  named (inst_symbols i) -> from l0 l -> ls_failed l = false ->
  wp (resolve_inst m tg i b) l (resolves (fun vals => inst_resolved tg vals i) (inst_symbols i) l).
Proof.
  unfold inst_symbols. intros (Hna & Hn)%Forall_app R Hf. apply Forall_app in Hn as [Hnb Hn]. apply Forall_app in Hn as [Hnc Hn].
  unfold resolve_inst. pose proof (resolve_type_fst tg (i_type i) b) as Et.
  destruct (resolve_type tg (i_type i) b) as [type b']. cbn [fst] in Et. subst type.
  eapply wp_and_then; [done|by apply wp_resolve|]. intros a b1 l1 R1 F1.
  eapply wp_and_then; [done|by apply wp_resolve|]. intros b0 b2 l2 R2 F2.
  eapply wp_and_then; [done|by apply wp_resolve|]. intros c b3 l3 R3 F3.
  rewrite <- (app_nil_r (i_args i ≫= operand_symbols)).
  eapply wp_and_then; [done|apply (wp_resolve_each _ (operand_resolved tg)); [by apply wp_resolve|done|done|done]|].
  intros args b4 l4 R4 F4. apply wp_resolved; [done|done|]. intros vals H4 H3 H2 H1.
  unfold inst_resolved. cbn [i_a i_b i_c i_args i_type i_result i_of i_field i_op].
  by rewrite (operand_resolved_type _ _ _ _ H1).
Qed.

Lemma zip_params ps ts :
  ts = map (target_type tg) (map pr_type ps) ->
  zip_with set_param_type ps ts = map (fun p => set_param_type p (target_type tg (pr_type p))) ps.
Proof. intros ->. induction ps as [|p ps IH]; [done|]. cbn [map zip_with]. by rewrite IH. Qed.

Lemma wp_layout_resolve f b l :
  named (function_symbols f) -> from l0 l -> ls_failed l = false ->
  wp (layout_resolve m tg f b) l (resolves (fun vals => function_resolved tg vals f) (function_symbols f) l).
Proof.
  intros Hn R Hf. unfold layout_resolve.
  pose proof (resolve_type_fst tg (fn_result f) b) as E1. destruct (resolve_type tg (fn_result f) b) as [result b1].
  pose proof (resolve_types_fst tg (map pr_type (fn_params f)) b1) as E2. destruct (resolve_types tg _ b1) as [params b2].
  pose proof (resolve_types_fst tg (fn_temps f) b2) as E3. destruct (resolve_types tg _ b2) as [temps b3].
  cbn [fst] in E1, E2, E3. unfold function_symbols in *. rewrite <- (app_nil_r (fn_blocks f ≫= _)).
  eapply wp_and_then; [done|apply (wp_resolve_each _ (fun vals => Forall2 (inst_resolved tg vals)))|]; try done.
  - intros insts b' l' Hn' R' F'. by apply (wp_resolve_each _ (inst_resolved tg)); [apply wp_resolve_inst|..].
  - intros blocks b4 l4 R4 F4. apply wp_resolved; [done|done|]. intros vals H.
    split; [exact H|]. cbn [fn_result fn_temps fn_params fn_result_agg fn_variadic]. split_and!; try done. by apply zip_params.
Qed.
End Pass.

(** ** Properties *)

(** C19. [layout_resolve] ends on every function. It reports an error, or the
    function it gives has the instructions of the source with the types of the
    target and, for each symbolic value, the number that it names; then nothing is
    left to do: a second pass gives the same function and keeps the flag. *)
Theorem function_resolved_once m tg rank l f resolved (Hm : module_ok m tg rank) :
  layout_init m tg = Some (true, l) -> named m (function_symbols f) ->
  exists r l', layout_resolve m tg f resolved l = Some (r, l') /\
    match r with
    | None => ls_error l' <> None
    | Some (f', _) =>
        function_resolved tg (value l') f f' /\
        Forall (fun s => sym_good m tg l' s (value l' s)) (function_symbols f) /\
        function_done tg f' /\ forall b, layout_resolve m tg f' b l' = Some (Some (f', b), l')
    end.
Proof.
  intros E Hn. pose proof (from_start m tg rank Hm l E) as R. destruct (finished m tg rank Hm l E) as (_ & Hf & _).
  pose proof (wp_layout_resolve m tg rank Hm l f resolved l Hn R Hf) as H. apply wp_some in H as (r & l' & Er & R' & H).
  exists r, l'. split; [done|]. destruct r as [[f' b']|]; [|by apply (r_inv _ _ _ _ _ R')].
  destruct H as [Hf' H]. destruct (H l' (same_refl l')) as [HQ Hs]. pose proof (function_resolved_done _ _ _ _ HQ) as Hd.
  split_and!; [done| |done|].
  - eapply Forall_impl; [exact Hs|]. cbn beta. intros s Hd'. by apply (inv_sym _ _ _ (r_inv _ _ _ _ _ R') Hf').
  - intros b. by apply layout_resolve_done.
Qed.

(** ** A function *)
Module Function.
Definition op (t : ir_type) (k : ir_operand_kind) : ir_operand := Operand k t.
Definition void : ir_vtype := {| vt_type := IR_VOID; vt_agg := 0 |}.
Definition inst (o : ir_op) (t : ir_type) (a b : ir_operand) : ir_inst :=
  Inst o t (Some 0%nat) a b (op IR_VOID IR_NONE) void 0 0 [].

(** A division of wide characters, and the widening of one to [c_long]. *)
Definition source : ir_function := {|
  fn_params := [{| pr_type := IR_CWCHAR; pr_ext := IR_EXT_NONE; pr_agg := 0;
     pr_temp := 0; pr_nonnull := false; pr_own := false; pr_deref_size := None |}];
  fn_result := IR_CLONG; fn_result_agg := 0;
  fn_result_ext := IR_EXT_NONE; fn_allocates := false; fn_result_range := None; fn_is_extern := false; fn_variadic := false; fn_never_returns := false;
  fn_blocks := [[ inst IR_UDIV IR_CWCHAR (op IR_CWCHAR (IR_TEMP 0)) (op IR_CWCHAR (IR_INT 0x1ffff));
                  inst IR_ADD IR_CLONG (op IR_CLONG (IR_SYM 2)) (op IR_CLONG (IR_INT 1));
                  inst IR_SEXT IR_I32 (op IR_CLONG (IR_TEMP 1)) (op IR_VOID IR_NONE) ]];
  fn_temps := [IR_CWCHAR; IR_CLONG] |}.

Definition resolved (tg : target) : option (list (list ir_inst)) :=
  match layout_resolve Sample.modul tg source false (Sample.laid tg) with
  | Some (Some (f, _), _) => Some (fn_blocks f)
  | _ => None
  end.
End Function.

Lemma function_resolved_once_witness :
  let m := Sample.modul in let f := Function.source in
  let W := TARGET_WINDOWS_X86_64 in let l := Sample.laid W in
  Function.resolved W = Some
    [[ Function.inst IR_UDIV IR_I16 (Function.op IR_I16 (IR_TEMP 0)) (Function.op IR_I16 (IR_INT 0xffff));
       Function.inst IR_ADD IR_I32 (Function.op IR_I32 (IR_INT 9)) (Function.op IR_I32 (IR_INT 1));
       Function.inst IR_COPY IR_I32 (Function.op IR_I32 (IR_TEMP 1)) (Function.op IR_VOID IR_NONE) ]] /\
  exists r l', layout_resolve m W f false l = Some (r, l') /\
    match r with
    | None => ls_error l' <> None
    | Some (f', _) =>
        function_resolved W (value l') f f' /\
        Forall (fun s => sym_good m W l' s (value l' s)) (function_symbols f) /\
        function_done W f' /\ forall b, layout_resolve m W f' b l' = Some (Some (f', b), l')
    end.
Proof.
  cbv zeta. split; [vm_compute; reflexivity|].
  apply (function_resolved_once Sample.modul TARGET_WINDOWS_X86_64 Sample.rank (Sample.laid TARGET_WINDOWS_X86_64)
    Function.source false (Sample.ok _)); [vm_compute; reflexivity|]. repeat constructor.
Defined.
