(* ===== verification/Abi.v ===== *)
(** * Abi: the classification of parameters and results

    Models src/antic/abi.c over finished layouts: how each parameter and the result
    of a function go by the C convention of the target, in the words of an LLVM
    signature. A text that does not fit its buffer ends the compiler, as does a
    vector without a lane; both are [None]. *)

From S2P Require Import Prelude Arith Target Ir IrFold Layout LayoutPlace LayoutRun LayoutSpec.

(** ** The data of abi.h *)

Inductive abi_kind := ABI_DIRECT | ABI_COERCE | ABI_BYVAL | ABI_INDIRECT | ABI_SRET | ABI_VECTOR.

#[export] Instance abi_kind_eq_dec : EqDecision abi_kind.
Proof. solve_decision. Defined.

(** [ap_types] has two slots of sixteen bytes. *)
Record abi_param := AbiParam {
  ap_kind : abi_kind;
  ap_types : list (list Z);
  ap_word_count : nat;
  ap_size : Z;
  ap_align : Z;
  ap_sign_extend : bool
}.

(** After [memset]. *)
Definition zero_param : abi_param := AbiParam ABI_DIRECT [[]; []] 0 0 0 false.

Definition SYSV_INT_ARGS : nat := 6.
Definition SYSV_FP_ARGS : nat := 8.

(** ** The words *)

(** The text with its NUL in a buffer of sixteen bytes. *)
Definition text_format_name (text : list Z) : option (list Z) :=
  if (length text <? 16)%nat then Some text else None.

Definition with_types (types : list (list Z)) (p : abi_param) : abi_param :=
  AbiParam (ap_kind p) types (ap_word_count p) (ap_size p) (ap_align p) (ap_sign_extend p).

Definition set_word (k : nat) (type : list Z) (p : abi_param) : option abi_param :=
  if (k <? length (ap_types p))%nat
  then (text ← text_format_name type; Some (with_types (<[k := text]> (ap_types p)) p))
  else None.

Definition scalar_name (type : ir_type) (bytes_ : Z) : list Z :=
  match type with
  | IR_F32 => bytes "float"
  | IR_F64 => bytes "double"
  | IR_PTR => bytes "ptr"
  | _ =>
      if bytes_ =? 1 then bytes "i8" else if bytes_ =? 2 then bytes "i16"
      else if bytes_ =? 4 then bytes "i32" else bytes "i64"
  end.

Definition is_float (type : ir_type) : bool :=
  bool_decide (type = IR_F32) || bool_decide (type = IR_F64).

(** Sets the kind, the count of words, the size and the alignment. *)
Definition set_kind (kind : abi_kind) (words : nat) (size align : Z) (p : abi_param) : abi_param :=
  AbiParam kind (ap_types p) words size align (ap_sign_extend p).

Definition scalar (tg : target) (type : ir_type) (ext : ir_ext) (out : abi_param) : option abi_param :=
  let bytes_ := scalar_size tg type in
  let out := AbiParam ABI_DIRECT (ap_types out) 1 bytes_ bytes_ (bool_decide (ext = IR_EXT_SIGN)) in
  set_word 0 (scalar_name type bytes_) out.

Definition pointer (kind : abi_kind) (agg : layout) (out : abi_param) : option abi_param :=
  out ← set_word 0 (bytes "ptr") (set_kind kind 1 (ap_size out) (ap_align out) out);
  Some (set_kind kind 1 (l_size agg) (l_align agg) out).

Definition vector (tg : target) (agg : layout) (out : abi_param) : option abi_param :=
  match l_members agg with
  | [] => None
  | m :: _ =>
      let lane := lm_type m in
      let bytes_ := scalar_size tg lane in
      set_word 0
        (bytes "<" ++ decimal (l_size agg / bytes_) ++ bytes " x " ++ scalar_name lane bytes_ ++ bytes ">")
        (set_kind ABI_VECTOR 1 (l_size agg) (l_align agg) out)
  end.

Definition coerce (agg : layout) (out : abi_param) : abi_param :=
  set_kind ABI_COERCE (ap_word_count out) (l_size agg) (l_align agg) out.

(** ** System V *)

(** What the loop over the members finds of eightbyte [k]. *)
Record eightbyte := Eightbyte { eb_used : bool; eb_integer : bool; eb_f64 : bool; eb_f32 : nat }.

Definition eightbyte_member (k : nat) (e : eightbyte) (m : layout_member) : eightbyte :=
  if negb (lm_offset m / 8 =? Z.of_nat k) then e
  else Eightbyte true (eb_integer e || negb (is_float (lm_type m)))
         (eb_f64 e || bool_decide (lm_type m = IR_F64))
         (eb_f32 e + if bool_decide (lm_type m = IR_F32) then 1 else 0).

Definition eightbyte_of (agg : layout) (k : nat) : eightbyte :=
  fold_left (eightbyte_member k) (l_members agg) (Eightbyte false false false 0).

Definition word_name (e : eightbyte) : list Z :=
  if eb_integer e then bytes "i64" else if eb_f64 e then bytes "double"
  else if (1 <? eb_f32 e)%nat then bytes "<2 x float>" else bytes "float".

(** One round of the loop over the eightbytes: the parameter and the words of
    each class. *)
Definition sysv_word (agg : layout) (s : abi_param * nat * nat) (k : nat) : option (abi_param * nat * nat) :=
  let '(out, ints, floats) := s in
  let e := eightbyte_of agg k in
  if negb (eb_used e) then Some s
  else
    out ← set_word (ap_word_count out) (word_name e)
            (set_kind (ap_kind out) (S (ap_word_count out)) (ap_size out) (ap_align out) out);
    Some (out, (ints + if eb_integer e then 1 else 0)%nat, (floats + if eb_integer e then 0 else 1)%nat).

Fixpoint sysv_loop (agg : layout) (ks : list nat) (s : abi_param * nat * nat) : option (abi_param * nat * nat) :=
  match ks with
  | [] => Some s
  | k :: ks => s ← sysv_word agg s k; sysv_loop agg ks s
  end.

(** Class MEMORY is [inl], with nothing written to [out]. *)
Definition sysv_memory (agg : layout) : bool :=
  (l_size agg >? 16) || (l_size agg =? 0) || l_unaligned agg.

Definition sysv_words (agg : layout) (out : abi_param) : option (unit + abi_param * nat * nat) :=
  let count := Z.to_nat (u64 (l_size agg + 7) / 8) in
  if sysv_memory agg then Some (inl tt)
  else s ← sysv_loop agg (seq 0 count) (coerce agg out, 0%nat, 0%nat); Some (inr s).

Section Classify.
Context (tg : target) (l : layouts).

(** [layout_agg] of a finished layout. *)
Definition agg_of (agg : nat) : layout := default zero_layout (ls_aggs l !! agg).

(** A parameter, with the registers taken before and after it. *)
Definition sysv_param (p : ir_param) (ints floats : nat) : option (abi_param * nat * nat) :=
  if negb (bool_decide (pr_type p = IR_AGG)) then
    out ← scalar tg (pr_type p) (pr_ext p) zero_param;
    Some (out, (ints + if is_float (pr_type p) then 0 else 1)%nat,
               (floats + if is_float (pr_type p) then 1 else 0)%nat)
  else
    let agg := agg_of (pr_agg p) in
    let byval := out ← pointer ABI_BYVAL agg zero_param; Some (out, ints, floats) in
    if l_vector agg then (out ← vector tg agg zero_param; Some (out, ints, S floats))
    else
      w ← sysv_words agg zero_param;
      match w with
      | inr (out, need_int, need_fp) =>
          if ((need_int =? 0)%nat || (ints + need_int <=? SYSV_INT_ARGS)%nat) &&
             ((need_fp =? 0)%nat || (floats + need_fp <=? SYSV_FP_ARGS)%nat)
          then Some (out, (ints + need_int)%nat, (floats + need_fp)%nat)
          else byval
      | inl _ => byval
      end.

Fixpoint sysv_params (ps : list ir_param) (ints floats : nat) : option (list abi_param) :=
  match ps with
  | [] => Some []
  | p :: ps =>
      '(out, ints, floats) ← sysv_param p ints floats;
      rest ← sysv_params ps ints floats;
      Some (out :: rest)
  end.

(** The result, and the integer registers that its hidden pointer takes. *)
Definition sysv_result (f : ir_function) (result : abi_param) : option (abi_param * nat) :=
  if bool_decide (fn_result f = IR_AGG) then
    let agg := agg_of (fn_result_agg f) in
    if l_vector agg then (out ← vector tg agg result; Some (out, 0%nat))
    else
      w ← sysv_words agg result;
      match w with
      | inr (out, _, _) => Some (out, 0%nat)
      | inl _ => out ← pointer ABI_SRET agg zero_param; Some (out, 1%nat)
      end
  else Some (result, 0%nat).

Definition sysv (f : ir_function) (result : abi_param) : option (list abi_param * abi_param) :=
  '(result, ints) ← sysv_result f result;
  params ← sysv_params (fn_params f) ints 0;
  Some (params, result).

(** ** AAPCS64 *)

Definition hfa_members (agg : layout) : nat :=
  match l_members agg with
  | [] => 0
  | m :: ms =>
      if (4 <? length (m :: ms))%nat || negb (is_float (lm_type m)) then 0
      else if forallb (fun x => bool_decide (lm_type x = lm_type m)) ms then length (m :: ms) else 0
  end.

Definition hfa_name (members : nat) (agg : layout) : list Z :=
  bytes "[" ++ decimal (Z.of_nat members) ++ bytes " x " ++
  match l_members agg with
  | {| lm_type := IR_F32 |} :: _ => bytes "float"
  | _ => bytes "double"
  end ++ bytes "]".

Definition aapcs64_aggregate (agg : layout) (hfa : bool) (larger : abi_kind) (out : abi_param) : option abi_param :=
  let members := if hfa then hfa_members agg else 0%nat in
  if l_vector agg && hfa then vector tg agg out
  else if (0 <? members)%nat then
    set_word 0 (hfa_name members agg) (set_kind ABI_COERCE 1 (l_size agg) (l_align agg) out)
  else if l_size agg >? 16 then pointer larger agg out
  else
    let out := set_kind ABI_COERCE 1 (l_size agg) (l_align agg) out in
    if l_align agg =? 16 then set_word 0 (bytes "i128") out
    else set_word 0 (bytes "[" ++ decimal (u64 (l_size agg + 7) / 8) ++ bytes " x i64]") out.

(** ** Microsoft x64 *)

Definition windows_x64_aggregate (agg : layout) (is_result : bool) (other : abi_kind) (out : abi_param)
    : option abi_param :=
  if l_vector agg && is_result then vector tg agg out
  else if (l_size agg =? 1) || (l_size agg =? 2) || (l_size agg =? 4) || (l_size agg =? 8) then
    set_word 0 (bytes "i" ++ decimal (l_size agg * 8)) (set_kind ABI_COERCE 1 (l_size agg) (l_align agg) out)
  else pointer other agg out.

(** ** The functions *)

(** The loop that both conventions share: each parameter alone. *)
Fixpoint each_param (aggregate : layout -> abi_param -> option abi_param) (ps : list ir_param)
    : option (list abi_param) :=
  match ps with
  | [] => Some []
  | p :: ps =>
      out ← (if bool_decide (pr_type p = IR_AGG) then aggregate (agg_of (pr_agg p)) zero_param
             else scalar tg (pr_type p) (pr_ext p) zero_param);
      rest ← each_param aggregate ps;
      Some (out :: rest)
  end.

Definition aapcs64 (f : ir_function) (result : abi_param) : option (list abi_param * abi_param) :=
  let hfa := negb (fn_variadic f && bool_decide (os (info tg) = OS_WINDOWS)) in
  result ← (if bool_decide (fn_result f = IR_AGG)
            then aapcs64_aggregate (agg_of (fn_result_agg f)) true ABI_SRET result else Some result);
  params ← each_param (fun agg => aapcs64_aggregate agg hfa ABI_INDIRECT) (fn_params f);
  Some (params, result).

Definition windows_x64 (f : ir_function) (result : abi_param) : option (list abi_param * abi_param) :=
  result ← (if bool_decide (fn_result f = IR_AGG)
            then windows_x64_aggregate (agg_of (fn_result_agg f)) true ABI_SRET result else Some result);
  params ← each_param (fun agg => windows_x64_aggregate agg false ABI_INDIRECT) (fn_params f);
  Some (params, result).

Definition abi_classify (f : ir_function) : option (list abi_param * abi_param) :=
  result ← (if bool_decide (fn_result f = IR_VOID) then set_word 0 (bytes "void") zero_param
            else if negb (bool_decide (fn_result f = IR_AGG)) then scalar tg (fn_result f) IR_EXT_NONE zero_param
            else Some zero_param);
  match conv (info tg) with
  | CONVENTION_SYSV => sysv f result
  | CONVENTION_WINDOWS_X64 => windows_x64 f result
  | CONVENTION_AAPCS64 | CONVENTION_APPLE_ARM64 | CONVENTION_WINDOWS_ARM64 => aapcs64 f result
  end.
End Classify.

(** [agg_of] is what [layout_agg] gives of an aggregate that is laid out. *)
Lemma agg_of_layout_agg compute agg l :
  default UNSEEN (ls_agg_state l !! agg) = DONE -> layout_agg compute agg l = Some (agg_of l agg, l).
Proof.
  intros H. unfold layout_agg, agg_state, the_layout, gets, mbind, M_bind. rewrite H. by rewrite bool_decide_eq_true_2.
Qed.
