(* ===== verification/AbiSpec.v ===== *)
(** * AbiSpec: what a classified signature promises

    The properties of abi.c: where System V puts the words of a signature, that
    every signature is well formed on every target, and a packed struct whose last
    bits no word carries. *)

From S2P Require Import Prelude Arith Target Ir IrFold Layout LayoutPlace LayoutRun LayoutSpec Abi.

(** ** The registers of System V

    Where LLVM puts the words of a signature, and where the psABI puts the
    arguments. A list of words is [true] for each one in a register. *)

Inductive reg := INT | SSE.

#[export] Instance reg_eq_dec : EqDecision reg.
Proof. solve_decision. Defined.

(** The registers left of each class. *)
Definition left_regs : Type := nat * nat.

Definition left_of (c : reg) (r : left_regs) : nat := match c with INT => r.1 | SSE => r.2 end.

Definition drop_regs (c : reg) (n : nat) (r : left_regs) : left_regs :=
  match c with INT => (r.1 - n, r.2) | SSE => (r.1, r.2 - n) end%nat.

(** Each word takes the next register of its class, or the stack. *)
Fixpoint place_words (ws : list reg) (r : left_regs) : list bool * left_regs :=
  match ws with
  | [] => ([], r)
  | c :: ws =>
      let '(rest, r') := place_words ws (drop_regs c 1 r) in ((0 <? left_of c r)%nat :: rest, r')
  end.

Definition float_names : list (list Z) := [bytes "float"; bytes "double"; bytes "<2 x float>"].

Definition name_class (name : list Z) : reg := if bool_decide (name ∈ float_names) then SSE else INT.

(** A byval parameter lies on the stack. *)
Definition llvm_words (p : abi_param) : list reg :=
  match ap_kind p with
  | ABI_BYVAL => []
  | ABI_VECTOR => [SSE]
  | _ => map name_class (take (ap_word_count p) (ap_types p))
  end.

Fixpoint llvm_place (ps : list abi_param) (r : left_regs) : list (list bool) :=
  match ps with
  | [] => []
  | p :: ps => let '(at_, r) := place_words (llvm_words p) r in at_ :: llvm_place ps r
  end.

(** The classes of the psABI: a scalar, an aggregate whose eightbytes have
    classes, or class MEMORY. *)
Inductive arg := Arg_scalar (c : reg) | Arg_aggregate (cs : list reg) | Arg_memory.

Definition count_of (c : reg) (cs : list reg) : nat := length (filter (c =.) cs).

(** An aggregate goes in registers whole or not at all. *)
Definition psabi_arg (a : arg) (r : left_regs) : list bool * left_regs :=
  match a with
  | Arg_scalar c => ([(0 <? left_of c r)%nat], drop_regs c 1 r)
  | Arg_aggregate cs =>
      if ((count_of INT cs <=? r.1) && (count_of SSE cs <=? r.2))%nat
      then (map (fun _ => true) cs, drop_regs SSE (count_of SSE cs) (drop_regs INT (count_of INT cs) r))
      else ([], r)
  | Arg_memory => ([], r)
  end.

Fixpoint psabi_place (args : list arg) (r : left_regs) : list (list bool) :=
  match args with
  | [] => []
  | a :: args => let '(at_, r) := psabi_arg a r in at_ :: psabi_place args r
  end.

(** *** The class of an eightbyte, by the members that have a byte in it *)

Definition overlaps (k : nat) (tg : target) (m : layout_member) : bool :=
  (lm_offset m / 8 <=? Z.of_nat k) && (Z.of_nat k <=? (lm_offset m + scalar_size tg (lm_type m) - 1) / 8).

Definition class_of (tg : target) (ms : list layout_member) (k : nat) : list reg :=
  let inside := List.filter (overlaps k tg) ms in
  match inside with
  | [] => []
  | _ => [if forallb (fun m => is_float (lm_type m)) inside then SSE else INT]
  end.

Definition psabi_class (tg : target) (agg : layout) : arg :=
  if l_vector agg then Arg_scalar SSE
  else if sysv_memory agg then Arg_memory
  else Arg_aggregate (concat (map (class_of tg (l_members agg)) (seq 0 (Z.to_nat ((l_size agg + 7) / 8))))).

Definition arg_of (tg : target) (l : layouts) (p : ir_param) : arg :=
  if bool_decide (pr_type p = IR_AGG) then psabi_class tg (agg_of l (pr_agg p))
  else Arg_scalar (if is_float (pr_type p) then SSE else INT).

(** ** The words of an aggregate of System V *)

Definition starts (k : nat) (m : layout_member) : bool := lm_offset m / 8 =? Z.of_nat k.

(** Every member lies in one eightbyte. *)
Definition members_whole (tg : target) (agg : layout) : Prop :=
  Forall (fun m => lm_offset m / 8 = (lm_offset m + scalar_size tg (lm_type m) - 1) / 8) (l_members agg).

#[export] Instance members_whole_dec tg agg : Decision (members_whole tg agg).
Proof. unfold members_whole. apply _. Defined.

Definition class_code (e : eightbyte) : list reg :=
  if eb_used e then [if eb_integer e then INT else SSE] else [].

Lemma eightbyte_fold k ms e :
  let e' := fold_left (eightbyte_member k) ms e in
  eb_used e' = eb_used e || existsb (starts k) ms /\
  eb_integer e' = eb_integer e || existsb (fun m => starts k m && negb (is_float (lm_type m))) ms.
Proof.
  cbn zeta. revert e. induction ms as [|m ms IH]; intros e; cbn [fold_left existsb]; [by rewrite !orb_false_r|].
  destruct (IH (eightbyte_member k e m)) as [-> ->]. unfold eightbyte_member, starts.
  destruct (lm_offset m / 8 =? Z.of_nat k); cbn; [|done]. by rewrite <- orb_assoc, orb_true_r.
Qed.

Lemma class_of_starts (f : layout_member -> bool) ms (g : layout_member -> bool) :
  match List.filter f ms with [] => [] | _ => [if forallb g (List.filter f ms) then SSE else INT] end =
  if existsb f ms then [if existsb (fun m => f m && negb (g m)) ms then INT else SSE] else [].
Proof.
  assert (existsb f ms = match List.filter f ms with [] => false | _ => true end) as ->.
  { induction ms as [|m ms IH]; cbn; [done|]. by destruct (f m). }
  assert (existsb (fun m => f m && negb (g m)) ms = negb (forallb g (List.filter f ms))) as ->.
  { induction ms as [|m ms IH]; cbn; [done|]. destruct (f m); cbn; [|done]. rewrite IH. by destruct (g m). }
  destruct (List.filter f ms); [done|]. by destruct (forallb g _).
Qed.

Lemma class_of_code tg agg k : members_whole tg agg -> class_of tg (l_members agg) k = class_code (eightbyte_of agg k).
Proof.
  unfold members_whole. intros H. unfold class_of.
  assert (List.filter (overlaps k tg) (l_members agg) = List.filter (starts k) (l_members agg)) as ->.
  { apply filter_ext_in. intros m Hm%list_elem_of_In. rewrite Forall_forall in H. specialize (H m Hm).
    unfold overlaps, starts. rewrite <- H. lia. }
  rewrite class_of_starts. unfold class_code, eightbyte_of.
  destruct (eightbyte_fold k (l_members agg) (Eightbyte false false false 0)) as [-> ->]. done.
Qed.

Lemma word_name_class e : name_class (word_name e) = if eb_integer e then INT else SSE.
Proof. unfold word_name. destruct (eb_integer e), (eb_f64 e), (1 <? eb_f32 e)%nat; vm_compute; done. Qed.

Lemma word_name_fits e : text_format_name (word_name e) = Some (word_name e).
Proof. unfold word_name. by repeat case_match. Qed.

Lemma word_name_short e : (length (word_name e) < 16)%nat.
Proof. unfold word_name. repeat case_match; cbn; lia. Qed.

(** One round on a parameter with [length names] words so far. *)
Lemma sysv_word_spec agg k kind names size align ext i s :
  (length names < 2)%nat ->
  sysv_word agg (AbiParam kind (names ++ replicate (2 - length names) []) (length names) size align ext, i, s) k =
  let cs := class_code (eightbyte_of agg k) in
  let names := names ++ (if eb_used (eightbyte_of agg k) then [word_name (eightbyte_of agg k)] else []) in
  Some (AbiParam kind (names ++ replicate (2 - length names) []) (length names) size align ext,
        (i + count_of INT cs)%nat, (s + count_of SSE cs)%nat).
Proof.
  intros Hn. unfold sysv_word, class_code, set_word. set (e := eightbyte_of agg k). cbn zeta.
  destruct (eb_used e); cbn [negb].
  2: { rewrite app_nil_r, !Nat.add_0_r. done. }
  cbn [ap_kind ap_types ap_word_count ap_size ap_align ap_sign_extend set_kind].
  rewrite length_app, length_replicate, (proj2 (Nat.ltb_lt _ _)) by lia.
  rewrite word_name_fits. unfold with_types. cbn.
  rewrite length_app. cbn [length].
  do 2 f_equal; [f_equal|]; [| |by destruct (eb_integer e)]; [|by destruct (eb_integer e)].
  destruct names as [|n1 [|n2 names]]; [done|done|cbn in Hn; lia].
Qed.

Lemma count_of_app c cs ds : count_of c (cs ++ ds) = (count_of c cs + count_of c ds)%nat.
Proof. unfold count_of. by rewrite filter_app, length_app. Qed.

Lemma sysv_loop_spec agg ks kind names size align ext i s :
  (length names + length ks <= 2)%nat ->
  exists ns, map name_class ns = concat (map (fun k => class_code (eightbyte_of agg k)) ks) /\
    (length ns <= length ks)%nat /\ Forall (fun n => (length n < 16)%nat) ns /\
    sysv_loop agg ks (AbiParam kind (names ++ replicate (2 - length names) []) (length names) size align ext, i, s) =
    Some (AbiParam kind ((names ++ ns) ++ replicate (2 - length (names ++ ns)) []) (length (names ++ ns)) size align ext,
      (i + count_of INT (map name_class ns))%nat, (s + count_of SSE (map name_class ns))%nat).
Proof.
  revert names i s. induction ks as [|k ks IH]; intros names i s Hn; cbn [length] in Hn.
  { exists []. cbn. by rewrite app_nil_r, !Nat.add_0_r. }
  cbn [sysv_loop]. rewrite sysv_word_spec by lia. cbn zeta. set (e := eightbyte_of agg k).
  set (one := if eb_used e then [word_name e] else []).
  assert (map name_class one = class_code e) as Hone.
  { subst one. unfold class_code. destruct (eb_used e); cbn; [|done]. by rewrite word_name_class. }
  assert (length one <= 1)%nat as Hlen by (subst one; destruct (eb_used e); cbn; lia).
  destruct (IH (names ++ one) (i + count_of INT (class_code e))%nat (s + count_of SSE (class_code e))%nat)
    as (ns & H1 & H2 & H4 & H3); [rewrite length_app; lia|].
  exists (one ++ ns). cbn [mbind option_bind map concat length]. rewrite map_app, H1, Hone. fold e.
  split; [done|]. split; [rewrite length_app; lia|]. split.
  { apply Forall_app. split; [|done]. subst one. destruct (eb_used e); [apply Forall_singleton, word_name_short|constructor]. }
  rewrite H3, H1, !count_of_app.
  by rewrite <- !(app_assoc names), !Nat.add_assoc.
Qed.

(** The types fit their two buffers. *)
Definition fits (p : abi_param) : Prop :=
  (ap_word_count p <= 2)%nat /\ length (ap_types p) = 2%nat /\ Forall (fun n => (length n < 16)%nat) (ap_types p).

Lemma sysv_words_code agg :
  0 <= l_size agg -> sysv_memory agg = false ->
  let cs := concat (map (fun k => class_code (eightbyte_of agg k)) (seq 0 (Z.to_nat ((l_size agg + 7) / 8)))) in
  exists out, sysv_words agg zero_param = Some (inr (out, count_of INT cs, count_of SSE cs)) /\
    ap_kind out = ABI_COERCE /\ llvm_words out = cs /\ fits out /\
    ap_size out = l_size agg /\ ap_align out = l_align agg.
Proof.
  intros H0 Hm cs. unfold sysv_words. rewrite Hm. unfold sysv_memory in Hm. bool_to_prop.
  rewrite Z.gtb_ltb in *. bool_to_prop.
  assert (u64 (l_size agg + 7) = l_size agg + 7) as -> by (apply wrap_small; split; [lia|]; pow2s; lia).
  assert (Z.to_nat ((l_size agg + 7) / 8) <= 2)%nat as Hc by (Z.div_mod_to_equations; lia).
  set (ks := seq 0 _) in *. assert (length ks <= 2)%nat as Hk by (subst ks; by rewrite length_seq).
  destruct (sysv_loop_spec agg ks ABI_COERCE [] (l_size agg) (l_align agg) false 0 0) as (ns & N1 & N2 & N4 & N3);
    [cbn; lia|]. fold cs in N1. cbn [app length] in N3. eexists. split; [|split; [|split; [|split]]].
  - unfold coerce, zero_param, set_kind. cbn [ap_types ap_word_count ap_sign_extend].
    change [[]; []] with (@nil (list Z) ++ replicate (2 - 0) []). cbn [app].
    etrans; [apply (f_equal (fun x => s ← x; Some (inr s)) N3)|]. cbn. by rewrite N1.
  - done.
  - unfold llvm_words. cbn [ap_kind ap_types ap_word_count]. by rewrite take_app_length.
  - split; [cbn [ap_word_count]; lia|]. cbn [ap_types]. split; [rewrite length_app, length_replicate; lia|].
    apply Forall_app. split; [done|]. apply Forall_replicate. cbn. lia.
  - done.
Qed.

(** The words of an aggregate that is not of class MEMORY are its classes. *)
Lemma sysv_words_spec tg agg :
  0 <= l_size agg -> sysv_memory agg = false -> members_whole tg agg ->
  let cs := concat (map (class_of tg (l_members agg)) (seq 0 (Z.to_nat ((l_size agg + 7) / 8)))) in
  exists out, sysv_words agg zero_param = Some (inr (out, count_of INT cs, count_of SSE cs)) /\
    ap_kind out = ABI_COERCE /\ llvm_words out = cs.
Proof.
  intros H0 Hm Hw cs. destruct (sysv_words_code agg H0 Hm) as (out & E & K & W & _). cbn zeta in E.
  rewrite (map_ext _ (class_of tg (l_members agg))) in E, W by (intros k; symmetry; by apply class_of_code).
  by exists out.
Qed.

(** ** The registers *)

Lemma count_of_cons c d cs : count_of c (d :: cs) =
  (match c, d with INT, INT | SSE, SSE => 1 | _, _ => 0 end + count_of c cs)%nat.
Proof. unfold count_of. rewrite filter_cons. by destruct c, d. Qed.

#[global] Arguments count_of : simpl never.

Lemma place_words_enough ws r :
  (count_of INT ws <= r.1)%nat -> (count_of SSE ws <= r.2)%nat ->
  place_words ws r = (map (fun _ => true) ws, drop_regs SSE (count_of SSE ws) (drop_regs INT (count_of INT ws) r)).
Proof.
  revert r. induction ws as [|c ws IH]; intros [i s] Hi Hs; cbn [fst snd] in *.
  { cbn. by rewrite !Nat.sub_0_r. }
  destruct c; rewrite !count_of_cons in *; cbn in *.
  - rewrite IH by (cbn; lia). cbn. destruct i as [|i]; [lia|]. cbn. apply f_equal2; [done|]. apply f_equal2; lia.
  - rewrite IH by (cbn; lia). cbn. destruct s as [|s]; [lia|]. cbn. apply f_equal2; [done|]. apply f_equal2; lia.
Qed.

(** The registers left once [ints] and [floats] words went before. *)
Definition left_after (ints floats : nat) : left_regs := (SYSV_INT_ARGS - ints, SYSV_FP_ARGS - floats)%nat.

Lemma registers_test need taken limit :
  ((need =? 0) || (taken + need <=? limit))%nat = (need <=? limit - taken)%nat.
Proof.
  apply eq_true_iff_eq. rewrite orb_true_iff, Nat.eqb_eq, !Nat.leb_le. lia.
Qed.

Lemma left_after_scalar c ints floats ints' floats' :
  ints' = (ints + match c with INT => 1 | SSE => 0 end)%nat ->
  floats' = (floats + match c with INT => 0 | SSE => 1 end)%nat ->
  left_after ints' floats' = drop_regs c 1 (left_after ints floats).
Proof. intros -> ->. unfold left_after. destruct c; cbn [drop_regs fst snd]; f_equal; lia. Qed.

Lemma set_word_zero type p out :
  length (ap_types p) = 2%nat -> set_word 0 type p = Some out ->
  ap_kind out = ap_kind p /\ ap_word_count out = ap_word_count p /\ length (ap_types out) = 2%nat /\
  take 1 (ap_types out) = [type].
Proof.
  destruct p as [k ts w s a e]. intros Hl H. cbn in Hl. destruct ts as [|t1 [|t2 [|]]]; try done.
  unfold set_word, text_format_name in H. destruct (length type <? 16)%nat; [|done].
  cbn in H. by injection H as <-.
Qed.

Lemma pointer_some kind agg :
  exists o, pointer kind agg zero_param = Some o /\ ap_kind o = kind /\ ap_word_count o = 1%nat.
Proof. eexists. split; [reflexivity|]. done. Qed.

(** A parameter is where the psABI puts its argument. *)
Lemma sysv_param_places tg l p ints floats out ints' floats' :
  0 <= l_size (agg_of l (pr_agg p)) -> members_whole tg (agg_of l (pr_agg p)) ->
  sysv_param tg l p ints floats = Some (out, ints', floats') ->
  place_words (llvm_words out) (left_after ints floats) = psabi_arg (arg_of tg l p) (left_after ints floats) /\
  left_after ints' floats' = (psabi_arg (arg_of tg l p) (left_after ints floats)).2.
Proof.
  intros H0 Hw H. unfold sysv_param in H. unfold arg_of. case_bool_decide as Ha; cbn [negb] in H.
  2: { unfold scalar in H. destruct (set_word _ _ _) as [o|] eqn:E; [|discriminate H]. cbn in H. injection H as <- <- <-.
    apply set_word_zero in E as (K & C & L & T); [|done]. cbn in K, C. unfold llvm_words. rewrite K, C, T. cbn [map].
    assert (name_class (scalar_name (pr_type p) (scalar_size tg (pr_type p))) = if is_float (pr_type p) then SSE else INT) as ->.
    { clear. destruct tg, (pr_type p); vm_compute; reflexivity. }
    destruct (is_float _); (split; [reflexivity|]); cbn [psabi_arg snd]; by apply left_after_scalar. }
  set (agg := agg_of l (pr_agg p)) in *. unfold psabi_class. destruct (l_vector agg).
  { destruct (vector tg agg zero_param) as [o|] eqn:E; [|discriminate H]. cbn in H. injection H as <- <- <-.
    unfold vector in E. destruct (l_members agg) as [|m ms]; [discriminate E|].
    apply set_word_zero in E as (K & C & L & T); [|done]. cbn in K. unfold llvm_words. rewrite K.
    split; [reflexivity|]. cbn [psabi_arg snd]. apply (left_after_scalar SSE); lia. }
  destruct (pointer_some ABI_BYVAL agg) as (bv & Ebv & Hbv & _). rewrite Ebv in H.
  destruct (sysv_memory agg) eqn:Hmem.
  { unfold sysv_words in H. rewrite Hmem in H. cbn in H. injection H as <- <- <-. unfold llvm_words. by rewrite Hbv. }
  destruct (sysv_words_spec tg agg H0 Hmem Hw) as (o & E & K & W). set (cs := concat _) in *.
  rewrite E in H. cbn [mbind option_bind] in H. rewrite !registers_test in H. cbn [psabi_arg].
  change (left_after ints floats).1 with (SYSV_INT_ARGS - ints)%nat.
  change (left_after ints floats).2 with (SYSV_FP_ARGS - floats)%nat.
  destruct ((_ <=? _)%nat && (_ <=? _)%nat) eqn:Hfit in H; rewrite Hfit.
  - injection H as <- <- <-. apply andb_true_iff in Hfit as [Hi Hs]. apply Nat.leb_le in Hi, Hs.
    rewrite W, place_words_enough by done. split; [done|].
    unfold left_after. cbn [drop_regs fst snd]. f_equal; lia.
  - cbn in H. injection H as <- <- <-. unfold llvm_words. by rewrite Hbv.
Qed.

Lemma set_word_kind k type p out : set_word k type p = Some out -> ap_kind out = ap_kind p.
Proof.
  unfold set_word. destruct (k <? _)%nat; [|done]. destruct (text_format_name type); [|done]. by intros [= <-].
Qed.

Lemma sysv_words_kind agg out o i s : sysv_words agg out = Some (inr (o, i, s)) -> ap_kind o = ABI_COERCE.
Proof.
  unfold sysv_words. destruct (sysv_memory agg); [done|].
  enough (forall ks s o i f, sysv_loop agg ks s = Some (o, i, f) -> ap_kind o = ap_kind s.1.1) as H.
  { destruct (sysv_loop _ _ _) as [[[o' i'] s']|] eqn:E; [|done]. intros [= <- <- <-]. by apply H in E. }
  clear. induction ks as [|k ks IH]; intros [[o0 i0] f0] o i f H; cbn [sysv_loop] in H; [by injection H as <- _ _|].
  unfold sysv_word in H. destruct (eb_used _); cbn [negb] in H; [|by apply IH in H].
  destruct (set_word _ _ _) as [o1|] eqn:E; [|done]. apply set_word_kind in E. apply IH in H. by rewrite H.
Qed.

Lemma sysv_result_regs tg l f r0 r ints :
  ap_kind r0 = ABI_DIRECT -> sysv_result tg l f r0 = Some (r, ints) ->
  ints = if bool_decide (ap_kind r = ABI_SRET) then 1%nat else 0%nat.
Proof.
  intros H0 H. unfold sysv_result in H. case_bool_decide; [|injection H as <- <-; by rewrite H0].
  destruct (l_vector _).
  - unfold vector in H. destruct (l_members _); [done|]. destruct (set_word _ _ _) as [o|] eqn:E; [|done].
    apply set_word_kind in E. injection H as <- <-. by rewrite E.
  - destruct (sysv_words _ r0) as [[[]|[[o i] s]]|] eqn:E; [| |done].
    + cbn in H. injection H as <- <-. done.
    + apply sysv_words_kind in E. cbn in H. injection H as <- <-. by rewrite E.
Qed.

Lemma sysv_params_places tg l ps ints floats outs :
  Forall (fun p => 0 <= l_size (agg_of l (pr_agg p)) /\ members_whole tg (agg_of l (pr_agg p))) ps ->
  sysv_params tg l ps ints floats = Some outs ->
  llvm_place outs (left_after ints floats) = psabi_place (map (arg_of tg l) ps) (left_after ints floats).
Proof.
  revert ints floats outs. induction ps as [|p ps IH]; intros ints floats outs Hf H; cbn [sysv_params] in H.
  { by injection H as <-. }
  apply Forall_cons in Hf as [[H0 Hw] Hf].
  destruct (sysv_param tg l p ints floats) as [[[o i] s]|] eqn:E; [|discriminate H]. cbn [mbind option_bind] in H.
  destruct (sysv_params tg l ps i s) as [os|] eqn:Es; [|discriminate H]. cbn in H. injection H as <-.
  destruct (sysv_param_places _ _ _ _ _ _ _ _ H0 Hw E) as [P1 P2]. cbn [llvm_place psabi_place map].
  rewrite P1. destruct (psabi_arg _ _) as [at_ r]. cbn in P2. rewrite <- P2. f_equal. by apply IH.
Qed.

(** ** Every signature has its words *)

(** Writing the first word of a parameter whose buffers fit. *)
Lemma set_word_fits type p :
  fits p -> (length type < 16)%nat ->
  exists out, set_word 0 type p = Some out /\ fits out /\ ap_kind out = ap_kind p /\ ap_word_count out = ap_word_count p /\
    ap_size out = ap_size p /\ ap_align out = ap_align p /\ ap_sign_extend out = ap_sign_extend p.
Proof.
  intros (H1 & H2 & H3) Ht. unfold set_word, text_format_name.
  rewrite H2, (proj2 (Nat.ltb_lt _ _) Ht). cbn [mbind option_bind Nat.ltb Nat.leb]. eexists. split; [reflexivity|].
  split; [|done]. split; [done|]. split; [by rewrite <- H2, <- (length_insert (ap_types p) 0 type)|].
  by apply Forall_insert.
Qed.

Lemma fits_with kind n size align ext p :
  fits p -> (n <= 2)%nat -> fits (AbiParam kind (ap_types p) n size align ext).
Proof. intros (H1 & H2 & H3) Hn. by repeat split. Qed.

(** An aggregate as the layout leaves it: a vector has 16 bytes and a lane. *)
Definition agg_ready (agg : layout) : Prop :=
  0 <= l_size agg /\ (l_vector agg = true -> l_size agg = 16 /\ l_members agg <> []).

#[export] Instance agg_ready_dec agg : Decision (agg_ready agg).
Proof. unfold agg_ready. apply _. Defined.

(** [out] has the kind, and the size and the alignment of [agg]. *)
Definition agg_out (agg : layout) (kinds : list abi_kind) (out : abi_param) : Prop :=
  fits out /\ ap_kind out ∈ kinds /\ ap_size out = l_size agg /\ ap_align out = l_align agg.

Lemma set_word_agg agg kind p type :
  fits p -> (length type < 16)%nat ->
  exists out, set_word 0 type (set_kind kind 1 (l_size agg) (l_align agg) p) = Some out /\ agg_out agg [kind] out.
Proof.
  intros Hp Ht.
  destruct (set_word_fits type (set_kind kind 1 (l_size agg) (l_align agg) p)) as (o & E & F & K & _ & S & A & _);
    [apply fits_with; [done|lia]|done|].
  exists o. split; [done|]. split; [done|]. rewrite K, S, A. split; [by left|done].
Qed.

Lemma agg_out_mono agg ks ks' out : ks ⊆ ks' -> agg_out agg ks out -> agg_out agg ks' out.
Proof. intros H (H1 & H2 & H3). split; [done|]. split; [by apply H|done]. Qed.

Lemma zero_fits : fits zero_param.
Proof. repeat split; cbn; [lia|]. repeat constructor. Qed.

Lemma vector_out tg agg p :
  fits p -> agg_ready agg -> l_vector agg = true -> exists out, vector tg agg p = Some out /\ agg_out agg [ABI_VECTOR] out.
Proof.
  intros Hp [_ Hv] Ht. destruct (Hv Ht) as [Hs Hm]. unfold vector. destruct (l_members agg) as [|m ms]; [done|].
  apply set_word_agg; [done|]. rewrite Hs. apply Nat.ltb_lt. destruct tg, (lm_type m); vm_compute; reflexivity.
Qed.

Lemma pointer_out kind agg p : fits p -> exists out, pointer kind agg p = Some out /\ agg_out agg [kind] out.
Proof.
  intros Hp. unfold pointer.
  destruct (set_word_fits (bytes "ptr") (set_kind kind 1 (ap_size p) (ap_align p) p)) as (o & E & F & K & _);
    [apply fits_with; [done|lia]|cbn; lia|].
  rewrite E. cbn. eexists. split; [reflexivity|].
  split; [apply fits_with; [done|lia]|]. split; [by left|done].
Qed.

Lemma scalar_out tg type ext p :
  fits p -> exists out, scalar tg type ext p = Some out /\ fits out /\ ap_kind out = ABI_DIRECT /\ ap_word_count out = 1%nat /\
    ap_size out = scalar_size tg type /\ ap_align out = scalar_size tg type /\
    ap_sign_extend out = bool_decide (ext = IR_EXT_SIGN).
Proof.
  intros Hp. apply (set_word_fits (scalar_name type (scalar_size tg type)) (AbiParam ABI_DIRECT (ap_types p) 1 _ _ _));
    [apply fits_with; [done|lia]|].
  apply Nat.ltb_lt. destruct tg, type; vm_compute; reflexivity.
Qed.

Lemma hfa_members_bound agg : (hfa_members agg <= 4)%nat.
Proof.
  unfold hfa_members. destruct (l_members agg) as [|m ms]; [lia|].
  destruct (Nat.ltb_spec 4 (length (m :: ms))); cbn [orb]; [lia|]. repeat case_match; lia.
Qed.

Lemma aapcs64_out tg agg hfa larger p :
  fits p -> agg_ready agg ->
  exists out, aapcs64_aggregate tg agg hfa larger p = Some out /\ agg_out agg [ABI_VECTOR; ABI_COERCE; larger] out.
Proof.
  intros Hp Hr. unfold aapcs64_aggregate.
  assert (forall k x, k ∈ [ABI_VECTOR; ABI_COERCE; larger] -> (exists out, x = Some out /\ agg_out agg [k] out) ->
    exists out, x = Some out /\ agg_out agg [ABI_VECTOR; ABI_COERCE; larger] out) as Hk.
  { intros k x Hk (o & E & H). exists o. split; [done|]. eapply agg_out_mono; [|done]. set_solver. }
  destruct (l_vector agg && hfa) eqn:Ev.
  { bool_to_prop. apply (Hk ABI_VECTOR); [set_solver|]. by apply vector_out. }
  set (members := if hfa then hfa_members agg else 0%nat).
  assert (members <= 4)%nat as Hm by (subst members; pose proof (hfa_members_bound agg); destruct hfa; lia).
  clearbody members. destruct (0 <? members)%nat.
  { apply (Hk ABI_COERCE); [set_solver|]. apply set_word_agg; [done|]. unfold hfa_name.
    do 5 (destruct members as [|members]; [apply Nat.ltb_lt; destruct (l_members agg) as [|[? []] ?]; vm_compute; reflexivity|]). lia. }
  destruct (Z.gtb_spec (l_size agg) 16) as [|Hs].
  { apply (Hk larger); [set_solver|]. by apply pointer_out. }
  apply (Hk ABI_COERCE); [set_solver|]. destruct (l_align agg =? 16); [apply set_word_agg; [done|cbn; lia]|].
  apply set_word_agg; [done|]. destruct Hr as [H0 _].
  assert (u64 (l_size agg + 7) = l_size agg + 7) as -> by (apply wrap_small; split; [lia|]; pow2s; lia).
  assert ((l_size agg + 7) / 8 = 0 \/ (l_size agg + 7) / 8 = 1 \/ (l_size agg + 7) / 8 = 2) as [-> | [-> | ->]]
    by (Z.div_mod_to_equations; lia); cbn; lia.
Qed.

Lemma windows_out tg agg is_result other p :
  fits p -> agg_ready agg ->
  exists out, windows_x64_aggregate tg agg is_result other p = Some out /\ agg_out agg [ABI_VECTOR; ABI_COERCE; other] out.
Proof.
  intros Hp Hr. unfold windows_x64_aggregate.
  assert (forall k x, k ∈ [ABI_VECTOR; ABI_COERCE; other] -> (exists out, x = Some out /\ agg_out agg [k] out) ->
    exists out, x = Some out /\ agg_out agg [ABI_VECTOR; ABI_COERCE; other] out) as Hk.
  { intros k x Hk (o & E & H). exists o. split; [done|]. eapply agg_out_mono; [|done]. set_solver. }
  destruct (l_vector agg && is_result) eqn:Ev.
  { bool_to_prop. apply (Hk ABI_VECTOR); [set_solver|]. by apply vector_out. }
  destruct (_ || _) eqn:Hs; [|apply (Hk other); [set_solver|]; by apply pointer_out].
  apply (Hk ABI_COERCE); [set_solver|]. apply set_word_agg; [done|]. rewrite !orb_true_iff, !Z.eqb_eq in Hs.
  apply Nat.ltb_lt.
  destruct Hs as [[[-> | ->] | ->] | ->]; vm_compute; reflexivity.
Qed.

(** The kinds that a convention gives an aggregate parameter. *)
Definition agg_kinds (c : convention) : list abi_kind :=
  match c with
  | CONVENTION_SYSV => [ABI_VECTOR; ABI_COERCE; ABI_BYVAL]
  | _ => [ABI_VECTOR; ABI_COERCE; ABI_INDIRECT]
  end.

Definition result_kinds : list abi_kind := [ABI_VECTOR; ABI_COERCE; ABI_SRET].

(** A parameter or a result has the size and the alignment of its type and a kind
    that its type may have. *)
Definition value_out (tg : target) (l : layouts) (type : ir_type) (agg : nat) (ext : ir_ext) (kinds : list abi_kind)
    (out : abi_param) : Prop :=
  if bool_decide (type = IR_AGG) then agg_out (agg_of l agg) kinds out
  else fits out /\ ap_kind out = ABI_DIRECT /\ ap_word_count out = (if bool_decide (type = IR_VOID) then 0 else 1)%nat /\
    (type <> IR_VOID -> ap_size out = scalar_size tg type /\ ap_align out = scalar_size tg type) /\
    ap_sign_extend out = bool_decide (ext = IR_EXT_SIGN).

Definition param_out (tg : target) (l : layouts) (p : ir_param) (out : abi_param) : Prop :=
  value_out tg l (pr_type p) (pr_agg p) (pr_ext p) (agg_kinds (conv (info tg))) out.

Lemma scalar_value tg l type agg ext kinds :
  type <> IR_AGG -> type <> IR_VOID -> exists out, scalar tg type ext zero_param = Some out /\ value_out tg l type agg ext kinds out.
Proof.
  intros H1 H2. destruct (scalar_out tg type ext zero_param zero_fits) as (o & E & F & K & C & S & A & X).
  exists o. split; [done|]. unfold value_out.
  by rewrite (bool_decide_eq_false_2 (type = IR_AGG)), (bool_decide_eq_false_2 (type = IR_VOID)) by done.
Qed.

Lemma sysv_words_out agg :
  0 <= l_size agg ->
  sysv_words agg zero_param = Some (inl tt) \/
  exists out i s, sysv_words agg zero_param = Some (inr (out, i, s)) /\ agg_out agg [ABI_COERCE] out.
Proof.
  intros H0. destruct (sysv_memory agg) eqn:Hm.
  - left. unfold sysv_words. by rewrite Hm.
  - right. destruct (sysv_words_code agg H0 Hm) as (o & E & K & _ & F & S & A). do 3 eexists. split; [exact E|].
    split; [done|]. rewrite K. split; [by left|done].
Qed.

Lemma sysv_param_out tg l p ints floats :
  conv (info tg) = CONVENTION_SYSV -> pr_type p <> IR_VOID -> agg_ready (agg_of l (pr_agg p)) ->
  exists out i s, sysv_param tg l p ints floats = Some (out, i, s) /\ param_out tg l p out.
Proof.
  intros Hc Hv Hr. unfold sysv_param, param_out. rewrite Hc. case_bool_decide as Ha; cbn [negb].
  2: { destruct (scalar_value tg l (pr_type p) (pr_agg p) (pr_ext p) (agg_kinds CONVENTION_SYSV) Ha Hv) as (o & E & H).
    rewrite E. cbn. by do 3 eexists. }
  unfold value_out. rewrite bool_decide_eq_true_2 by done. set (agg := agg_of l (pr_agg p)) in *.
  destruct (pointer_out ABI_BYVAL agg zero_param zero_fits) as (b & Eb & Hb). rewrite Eb. cbn [mbind option_bind].
  assert (exists out i s, Some (b, ints, floats) = Some (out, i, s) /\
    agg_out agg [ABI_VECTOR; ABI_COERCE; ABI_BYVAL] out) as Hbyval.
  { do 3 eexists. split; [reflexivity|]. eapply agg_out_mono; [|done]. set_solver. }
  destruct (l_vector agg) eqn:Hvec.
  { destruct (vector_out tg agg zero_param zero_fits Hr Hvec) as (o & E & H). rewrite E. cbn. do 3 eexists.
    split; [reflexivity|]. eapply agg_out_mono; [|done]. set_solver. }
  destruct (sysv_words_out agg) as [E|(o & i & s & E & H)]; [apply Hr|by rewrite E|]. rewrite E. cbn [mbind option_bind].
  destruct (_ && _); [|done]. do 3 eexists. split; [reflexivity|]. eapply agg_out_mono; [|done]. set_solver.
Qed.

Lemma sysv_params_out tg l ps ints floats :
  conv (info tg) = CONVENTION_SYSV ->
  Forall (fun p => pr_type p <> IR_VOID /\ agg_ready (agg_of l (pr_agg p))) ps ->
  exists outs, sysv_params tg l ps ints floats = Some outs /\ Forall2 (param_out tg l) ps outs.
Proof.
  intros Hc. revert ints floats. induction ps as [|p ps IH]; intros ints floats Hf; cbn [sysv_params]; [by exists []|].
  apply Forall_cons in Hf as [[Hv Hr] Hf].
  destruct (sysv_param_out tg l p ints floats Hc Hv Hr) as (o & i & s & E & H). rewrite E. cbn [mbind option_bind].
  destruct (IH i s Hf) as (os & Es & Hs). rewrite Es. cbn. eexists. split; [reflexivity|]. by constructor.
Qed.

Lemma each_param_out tg l aggregate ps :
  conv (info tg) <> CONVENTION_SYSV ->
  (forall agg, agg_ready agg -> exists out, aggregate agg zero_param = Some out /\
     agg_out agg [ABI_VECTOR; ABI_COERCE; ABI_INDIRECT] out) ->
  Forall (fun p => pr_type p <> IR_VOID /\ agg_ready (agg_of l (pr_agg p))) ps ->
  exists outs, each_param tg l aggregate ps = Some outs /\ Forall2 (param_out tg l) ps outs.
Proof.
  intros Hc Ha. induction ps as [|p ps IH]; intros Hf; cbn [each_param]; [by exists []|].
  apply Forall_cons in Hf as [[Hv Hr] Hf]. destruct (IH Hf) as (os & Es & Hs).
  assert (exists out, (if bool_decide (pr_type p = IR_AGG) then aggregate (agg_of l (pr_agg p)) zero_param
     else scalar tg (pr_type p) (pr_ext p) zero_param) = Some out /\ param_out tg l p out) as (o & -> & Ho).
  { unfold param_out. case_bool_decide as H; [|by apply scalar_value].
    destruct (Ha _ Hr) as (o & E & Ho). exists o. split; [done|]. unfold value_out. rewrite bool_decide_eq_true_2 by done.
    by destruct (conv (info tg)). }
  cbn [mbind option_bind]. rewrite Es. cbn. eexists. split; [reflexivity|]. by constructor.
Qed.

(** The result of a function before the convention. *)
Lemma first_result tg l f :
  exists r, (if bool_decide (fn_result f = IR_VOID) then set_word 0 (bytes "void") zero_param
    else if negb (bool_decide (fn_result f = IR_AGG)) then scalar tg (fn_result f) IR_EXT_NONE zero_param
    else Some zero_param) = Some r /\
  if bool_decide (fn_result f = IR_AGG) then r = zero_param
  else value_out tg l (fn_result f) (fn_result_agg f) IR_EXT_NONE result_kinds r.
Proof.
  destruct (decide (fn_result f = IR_VOID)) as [E|Hv].
  - rewrite E. eexists. split; [reflexivity|]. rewrite bool_decide_eq_false_2 by done. unfold value_out.
    rewrite bool_decide_eq_false_2 by done. split_and!; try done. repeat constructor.
  - rewrite (bool_decide_eq_false_2 (fn_result f = IR_VOID)) by done. case_bool_decide as Ha; cbn [negb]; [by eexists|].
    by apply scalar_value.
Qed.

Lemma sysv_result_out tg l f r0 :
  agg_ready (agg_of l (fn_result_agg f)) ->
  (if bool_decide (fn_result f = IR_AGG) then r0 = zero_param
   else value_out tg l (fn_result f) (fn_result_agg f) IR_EXT_NONE result_kinds r0) ->
  exists r i, sysv_result tg l f r0 = Some (r, i) /\ value_out tg l (fn_result f) (fn_result_agg f) IR_EXT_NONE result_kinds r.
Proof.
  intros Hr H. unfold sysv_result, value_out in *. case_bool_decide as Ha; [subst r0|by do 2 eexists].
  set (agg := agg_of l (fn_result_agg f)) in *. destruct (l_vector agg) eqn:Hv.
  { destruct (vector_out tg agg zero_param zero_fits Hr Hv) as (o & E & Ho). rewrite E. do 2 eexists.
    split; [reflexivity|]. eapply agg_out_mono; [|done]. unfold result_kinds. set_solver. }
  destruct (sysv_words_out agg) as [E|(o & i & s & E & Ho)]; [apply Hr| |]; rewrite E; cbn [mbind option_bind].
  - destruct (pointer_out ABI_SRET agg zero_param zero_fits) as (b & Eb & Hb). rewrite Eb. do 2 eexists.
    split; [reflexivity|]. eapply agg_out_mono; [|done]. unfold result_kinds. set_solver.
  - do 2 eexists. split; [reflexivity|]. eapply agg_out_mono; [|done]. unfold result_kinds. set_solver.
Qed.

(** The conventions that take each value alone. *)
Lemma alone_out tg l f r0 (one_result one_param : layout -> abi_param -> option abi_param) :
  conv (info tg) <> CONVENTION_SYSV ->
  (forall agg, agg_ready agg -> exists out, one_result agg zero_param = Some out /\ agg_out agg result_kinds out) ->
  (forall agg, agg_ready agg -> exists out, one_param agg zero_param = Some out /\
     agg_out agg [ABI_VECTOR; ABI_COERCE; ABI_INDIRECT] out) ->
  Forall (fun p => pr_type p <> IR_VOID /\ agg_ready (agg_of l (pr_agg p))) (fn_params f) ->
  agg_ready (agg_of l (fn_result_agg f)) ->
  (if bool_decide (fn_result f = IR_AGG) then r0 = zero_param
   else value_out tg l (fn_result f) (fn_result_agg f) IR_EXT_NONE result_kinds r0) ->
  exists params result,
    (result ← (if bool_decide (fn_result f = IR_AGG) then one_result (agg_of l (fn_result_agg f)) r0 else Some r0);
     params ← each_param tg l one_param (fn_params f);
     Some (params, result)) = Some (params, result) /\
    Forall2 (param_out tg l) (fn_params f) params /\
    value_out tg l (fn_result f) (fn_result_agg f) IR_EXT_NONE result_kinds result.
Proof.
  intros Hc Hres Hpar Hf Hr H0. destruct (each_param_out tg l one_param (fn_params f) Hc Hpar Hf) as (ps & Ep & Hps).
  destruct (Hres _ Hr) as (o & Eo & Ho). unfold value_out in *. case_bool_decide; [subst r0; rewrite Eo|];
    cbn [mbind option_bind]; rewrite Ep; cbn; by do 2 eexists.
Qed.

(** ** Modules

    The arguments of a call on the module [Sample] and a packed module. *)
Module Calls.
Definition param (type : ir_type) (agg : nat) : ir_param := 
  {| pr_type := type; pr_ext := IR_EXT_SIGN; pr_agg := agg; pr_temp := 0; pr_nonnull := false; pr_own := false; pr_deref_size := None |}.

(** Five integers leave one register, which a struct of two words does not take. *)
Definition full : ir_function := {|
  fn_params := replicate 5 (param IR_I64 0) ++
    [param IR_AGG 0; param IR_I16 0; param IR_AGG 0; param IR_F64 0; param IR_AGG 4; param IR_AGG 2];
  fn_result := IR_AGG; fn_result_agg := 3;
  fn_result_ext := IR_EXT_NONE; fn_allocates := false; fn_result_range := None; fn_is_extern := false; fn_variadic := false; fn_never_returns := false;
  fn_blocks := []; fn_temps := [] |}.
End Calls.

Module Packed.
Definition field (name : Z) : ir_field :=
  {| f_name := Some [name]; f_type := {| vt_type := IR_I32; vt_agg := 0 |}; f_bits := 20; f_ext := IR_EXT_ZERO;
     f_atomic := false |}.

Definition modul : ir_module := {|
  m_aggs := [ {| a_kind := IR_AGG_STRUCT; a_name := []; a_fields := map field [97; 98; 99; 100]; a_packed := true;
                 a_simd := false; a_align := 0; a_length := 0; a_length_text := [] |} ];
  m_syms := []; m_functions := []; m_globals := []; m_classes := [] |}.

Definition param : ir_param := 
  {| pr_type := IR_AGG; pr_ext := IR_EXT_NONE; pr_agg := 0; pr_temp := 0; pr_nonnull := false; pr_own := false; pr_deref_size := None |}.

(** [fn takes(p: P) -> P]. *)
Definition takes : ir_function :=
  {| fn_params := [param]; fn_result := IR_AGG; fn_result_agg := 0;
     fn_result_ext := IR_EXT_NONE; fn_allocates := false; fn_result_range := None; fn_is_extern := false; fn_variadic := false; fn_never_returns := false;
     fn_blocks := []; fn_temps := [] |}.

Definition laid (tg : target) : layouts :=
  match layout_init modul tg with Some (_, l) => l | None => layout_start modul end.

(** One word of 8 bytes for a value of 10. *)
Definition passed : abi_param := AbiParam ABI_COERCE [bytes "i64"; []] 1 10 1 false.
End Packed.

(** A struct of one float with [align(16)] has 16 bytes, 12 of them padding, and
    goes as a float array of one member. *)
Module Padded.
Definition modul : ir_module := {|
  m_aggs := [ {| a_kind := IR_AGG_STRUCT; a_name := [];
                 a_fields := [{| f_name := Some [120]; f_type := {| vt_type := IR_F32; vt_agg := 0 |}; f_bits := 0;
                                 f_ext := IR_EXT_NONE; f_atomic := false |}];
                 a_packed := false; a_simd := false; a_align := 16; a_length := 0; a_length_text := [] |} ];
  m_syms := []; m_functions := []; m_globals := []; m_classes := [] |}.

Example passed_as_float :
  match layout_init modul TARGET_LINUX_ARM64 with
  | Some (_, l) => abi_classify TARGET_LINUX_ARM64 l Packed.takes =
      (let p := AbiParam ABI_COERCE [bytes "[1 x float]"; []] 1 16 16 false in Some ([p], p))
  | None => False
  end.
Proof. vm_compute. reflexivity. Qed.
End Padded.

(** ** Properties *)

(** The registers that the hidden pointer of a result leaves. *)
Definition first_regs (result : abi_param) : left_regs :=
  left_after (if bool_decide (ap_kind result = ABI_SRET) then 1 else 0) 0.





