(* ===== verification/IrSem.v ===== *)
(** * IrSem: what a function of the IR does

    The meaning of the instructions of src/antic/ir.h, for the passes to keep. The
    temporaries hold words, the memory and everything outside the function belong to a
    [machine]: how wide a type is on the target, what a load reads and a store leaves,
    what an operation gives that the passes never compute, what a call does. An
    instruction without a meaning, as a division by zero or the use of a temporary
    that nothing has defined, has no outcome. *)

From S2P Require Import Prelude Arith Ir IrFold IrVerify.

(** ** Values and machines *)

(** A word, with the flags that the operation that made it leaves for [IR_FLAG] and
    [IR_BRANCH_OV]. *)
Record value := Value { v_word : Z; v_flags : option Z }.

Notation temps := (gmap nat value).

(** An instruction without what it names: its operation with the types it works on. *)
Definition hole (o : ir_operand) : ir_operand := Operand IR_NONE (o_type o).
Definition shape (inst : ir_inst) : ir_inst :=
  Inst (i_op inst) (i_type inst) None (hole (i_a inst)) (hole (i_b inst)) (hole (i_c inst))
    (i_of inst) (i_field inst) (i_member inst) (map hole (i_args inst)).

(** [mc_named] is the address of a global or a function and the value of a symbol;
    [mc_other] and [mc_effect] get the shape of an instruction and its operands. *)
Record machine (M : Type) := Machine {
  mc_bits : ir_type -> Z;
  mc_named : ir_operand_kind -> Z;
  mc_load : ir_type -> Z -> M -> option Z;
  mc_store : ir_type -> Z -> Z -> M -> option M;
  mc_other : ir_inst -> list (option Z) -> M -> option value;
  mc_effect : ir_inst -> list (option Z) -> M -> option (option Z * M)
}.
Arguments mc_bits {M} _ _.
Arguments mc_named {M} _ _.
Arguments mc_load {M} _ _ _ _.
Arguments mc_store {M} _ _ _ _ _.
Arguments mc_other {M} _ _ _ _.
Arguments mc_effect {M} _ _ _ _.

(** Only the back end knows the width of these. *)
Definition target_sized (type : ir_type) : bool := match type with IR_CLONG | IR_CWCHAR | IR_LOCK => true | _ => false end.

(** What every target promises: the widths of the fixed types, that a load reads what
    the last store to its address wrote, and that a new slot is memory of its own. *)
Class Lawful {M} (mc : machine M) : Prop := {
  fixed_bits type : target_sized type = false -> mc_bits mc type = ir_fold_bits type;
  sized_bits type : 8 <= mc_bits mc type <= 64;
  load_stored type p v m m' : mc_store mc type p v m = Some m' -> mc_load mc type p m' = Some (wrap (mc_bits mc type) v);
  slot_keeps inst xs m x m' : i_op inst = IR_SLOT -> mc_effect mc inst xs m = Some (x, m') ->
    forall type p y, mc_load mc type p m = Some y -> mc_load mc type p m' = Some y
}.

Section Semantics.
Context {M : Type} (mc : machine M).

(** ** Operands *)

Definition trim (type : ir_type) (x : Z) : Z := wrap (mc_bits mc type) x.
Definition trim_value (type : ir_type) (v : value) : value := Value (trim type (v_word v)) (v_flags v).

(** [Some None] for an operand that is no value; [None] for an undefined temporary. *)
Definition read (s : temps) (o : ir_operand) : option (option value) :=
  match o_kind o with
  | IR_NONE | IR_BLOCK _ => Some None
  | IR_TEMP t => v ← s !! t; Some (Some (trim_value (o_type o) v))
  | IR_INT x | IR_FLOAT x => Some (Some (Value (trim (o_type o) x) None))
  | IR_GLOBAL _ | IR_FUNC _ | IR_SYM _ => Some (Some (Value (trim (o_type o) (mc_named mc (o_kind o))) None))
  end.

Definition read_value (s : temps) (o : ir_operand) : option value := v ← read s o; v.
Definition word (s : temps) (o : ir_operand) : option Z := v_word <$> read_value s o.

Fixpoint words (s : temps) (os : list ir_operand) : option (list (option Z)) :=
  match os with
  | [] => Some []
  | o :: os => x ← read s o; xs ← words s os; Some (option_map v_word x :: xs)
  end.

(** ** Operations *)

Definition is_integer_op (op : ir_op) : bool :=
  match op with
  | IR_ADD | IR_SUB | IR_MUL | IR_SDIV | IR_UDIV | IR_SREM | IR_UREM | IR_AND | IR_OR | IR_XOR
  | IR_SHL | IR_SHR_S | IR_SHR_U
  | IR_EQ | IR_NE | IR_SLT | IR_SLE | IR_SGT | IR_SGE | IR_ULT | IR_ULE | IR_UGT | IR_UGE
  | IR_MULH_S | IR_MULH_U | IR_ADD_SAT_S | IR_ADD_SAT_U | IR_SUB_SAT_S | IR_SUB_SAT_U | IR_MUL_SAT_S | IR_MUL_SAT_U => true
  | _ => false
  end.

(** The operations that change the memory or something outside the function. *)
Definition has_effect (op : ir_op) : bool :=
  match op with
  | IR_BITSTORE | IR_MEMCOPY | IR_CALL | IR_VBINARY | IR_VUNARY | IR_VSPLAT | IR_VSELECT | IR_VSHUFFLE
  | IR_SLOT | IR_LIFE_START | IR_LIFE_END => true
  | _ => false
  end.

(** The exact result of an integer operation on words of [n] bits. *)
Definition integer_result (op : ir_op) (n x y : Z) : option Z :=
  match meaning op n y (wrap n x) (wrap n y) (sint n x) (sint n y) with IR_FOLDED r => Some r | _ => None end.

(** The result of an operation without an effect. *)
Definition result (s : temps) (m : M) (inst : ir_inst) : option value :=
  let plain x := Some (Value x None) in
  let n := mc_bits mc (o_type (i_a inst)) in
  if is_integer_op (i_op inst) then
    x ← word s (i_a inst); y ← word s (i_b inst); r ← integer_result (i_op inst) n x y; plain r
  else match i_op inst with
  | IR_COPY => read_value s (i_a inst)
  | IR_NEG => x ← word s (i_a inst); plain (- x)
  | IR_NOT => x ← word s (i_a inst); plain (- x - 1)
  | IR_TRUNC | IR_ZEXT => x ← word s (i_a inst); plain x
  | IR_SEXT => x ← word s (i_a inst); plain (sint n x)
  | IR_PTRADD => x ← word s (i_a inst); y ← word s (i_b inst); plain (x + y)
  | IR_LOAD => p ← word s (i_a inst); x ← mc_load mc (i_type inst) p m; plain x
  | IR_FLAG => v ← read_value s (i_a inst); fl ← v_flags v; plain (b2u (Z.testbit fl (Z.of_nat (i_field inst))))
  | _ => xs ← words s (operands inst); mc_other mc (shape inst) xs m
  end.

(** ** Instructions and blocks *)

Inductive outcome :=
| Next (s : temps) (m : M)
| Goes (b : nat) (s : temps) (m : M)
| Returns (x : option Z) (m : M).

Definition define_result (s : temps) (inst : ir_inst) (v : option value) : option temps :=
  match i_result inst with
  | Some r => v ← v; Some (<[r := trim_value (i_type inst) v]> s)
  | None => Some s
  end.

Definition goes_to_block (o : ir_operand) (s : temps) (m : M) : option outcome :=
  match o_kind o with IR_BLOCK b => Some (Goes b s m) | _ => None end.

Definition exec_effect (s : temps) (m : M) (inst : ir_inst) : option outcome :=
  xs ← words s (operands inst);
  match mc_effect mc (shape inst) xs m with
  | Some (x, m') => s' ← define_result s inst ((fun x => Value x None) <$> x); Some (Next s' m')
  | None => None
  end.

Definition exec_plain (s : temps) (m : M) (inst : ir_inst) : option outcome :=
  v ← result s m inst; s' ← define_result s inst (Some v); Some (Next s' m).

Definition exec_op (s : temps) (m : M) (inst : ir_inst) : option outcome :=
  match i_op inst with
  | IR_JUMP => goes_to_block (i_a inst) s m
  | IR_BRANCH => x ← word s (i_a inst); goes_to_block (if negb (x =? 0) then i_b inst else i_c inst) s m
  | IR_BRANCH_OV =>
      v ← read_value s (i_a inst); fl ← v_flags v;
      goes_to_block (if Z.testbit fl 0 then i_b inst else i_c inst) s m
  | IR_RET => v ← read s (i_a inst); Some (Returns (v_word <$> v) m)
  | IR_UNREACHABLE => None
  | IR_STORE =>
      x ← word s (i_a inst); p ← word s (i_b inst); m' ← mc_store mc (i_type inst) p x m;
      s' ← define_result s inst None; Some (Next s' m')
  | op => if has_effect op then exec_effect s m inst else exec_plain s m inst
  end.

(** An instruction reads all its operands. *)
Definition exec_inst (s : temps) (m : M) (inst : ir_inst) : option outcome := _ ← words s (operands inst); exec_op s m inst.

(** A block runs up to its first terminator. *)
Fixpoint exec_block (s : temps) (m : M) (insts : list ir_inst) : option outcome :=
  match insts with
  | [] => None
  | inst :: rest =>
      match exec_inst s m inst with
      | Some (Next s' m') => exec_block s' m' rest
      | out => out
      end
  end.

(** ** Functions *)

(** A point between two blocks, and the state there. *)
Record point := Point { pt_block : nat; pt_temps : temps; pt_memory : M }.

(** [n] blocks from a point on. *)
Inductive run_result := Done (x : option Z) (m : M) | Wrong | More (p : point).

Definition body (f : ir_function) (b : nat) : list ir_inst := default [] (fn_blocks f !! b).

Fixpoint blocks_from (f : ir_function) (n : nat) (p : point) : run_result :=
  match n with
  | O => More p
  | S n =>
      match exec_block (pt_temps p) (pt_memory p) (body f (pt_block p)) with
      | Some (Goes b s m) => blocks_from f n (Point b s m)
      | Some (Returns x m) => Done x m
      | _ => Wrong
      end
  end.

(** The parameters hold the arguments. *)
Definition start (f : ir_function) (args : list Z) (m : M) : point :=
  Point 0 (list_to_map (zip (map pr_temp (fn_params f)) (map (fun x => Value x None) args))) m.

Definition terminates (f : ir_function) (p : point) (x : option Z) (m : M) : Prop := exists n, blocks_from f n p = Done x m.
Definition diverges (f : ir_function) (p : point) : Prop := forall n, exists q, blocks_from f n p = More q.

(** [g] may stand for [f]: where [f] returns [g] returns the same and leaves the same
    memory, where [f] runs for ever so does [g]. Nothing is asked where [f] goes wrong. *)
Definition refines (f g : ir_function) : Prop :=
  length (fn_params g) = length (fn_params f) /\
  forall args m, length args = length (fn_params f) ->
    (forall x m', terminates f (start f args m) x m' -> terminates g (start g args m) x m') /\
    (diverges f (start f args m) -> diverges g (start g args m)).
End Semantics.

Arguments Next {M} _ _.
Arguments Goes {M} _ _ _.
Arguments Returns {M} _ _.
Arguments Point {M} _ _ _.
Arguments pt_block {M} _.
Arguments pt_temps {M} _.
Arguments pt_memory {M} _.
Arguments Done {M} _ _.
Arguments Wrong {M}.
Arguments More {M} _.
