(* ===== verification/FloatSem.v ===== *)
(** * FloatSem: what the operations on floats give

    The floats of src/antic/ir.h on the words of IrSem.v, after IEEE 754: the words are
    read as values, the values computed by the Standard Library's SpecFloat, to nearest
    with ties to even, and the result written back. The word of an f64 is its 64 bits and
    that of an f32 the bits of the double with its value, as the union [as] of an operand
    holds both; the word of an f16 is its 16 bits in an i16. A NaN that an operation makes
    is the canonical one, on every target, as docs/notes/math.md has it. *)

From Stdlib Require Import Floats.SpecFloat.
From S2P Require Import Prelude Double FloatBits Ir IrFold IrVerify IrSem.

Definition is_float_op (op : ir_op) : bool :=
  match op with
  | IR_FADD | IR_FSUB | IR_FMUL | IR_FDIV | IR_FNEG | IR_FEQ | IR_FNE | IR_FLT | IR_FLE | IR_FGT | IR_FGE
  | IR_SITOF | IR_UITOF | IR_FTOSI | IR_FTOUI | IR_FEXT | IR_FTRUNC | IR_HEXT | IR_HTRUNC => true
  | _ => false
  end.

(** The word of an f32 is a double; its operations round to the float. *)
Definition float_word (x : spec_float) : Z := double_bits (rounded 53 1024 x).

Definition float_arith (op : Z -> Z -> spec_float -> spec_float -> spec_float) (t : ir_type) (x y : Z) : option Z :=
  match t with
  | IR_F32 => Some (float_word (op 24 128 (rounded 24 128 (double x)) (rounded 24 128 (double y))))
  | IR_F64 => Some (double_bits (op 53 1024 (double x) (double y)))
  | _ => None
  end.

(** An integer, rounded once to the type. *)
Definition float_of_integer (t : ir_type) (z : Z) : option Z :=
  match t with
  | IR_F32 => Some (float_word (binary_normalize 24 128 z 0 false))
  | IR_F64 => Some (double_bits (binary_normalize 53 1024 z 0 false))
  | _ => None
  end.

(** The integer that a float without its fraction is. *)
Definition float_truncated (x : spec_float) : option Z :=
  match x with
  | S754_zero _ => Some 0
  | S754_finite s m e => Some (Z.quot ((if s then -1 else 1) * Z.pos m * 2 ^ Z.max e 0) (2 ^ Z.max (- e) 0))
  | _ => None
  end.

Definition float_to_integer (n lo hi : Z) (x : Z) : option Z :=
  z ← float_truncated (double x); if (lo <=? z) && (z <? hi) then Some (wrap n z) else None.

Section Floats.
Context (bits : ir_type -> Z).

(** The result of a float operation on its words, where it has one. *)
Definition float_op (inst : ir_inst) (x : Z) (y : option Z) : option Z :=
  let from := o_type (i_a inst) in
  let to := i_type inst in
  let n := bits to in
  match i_op inst with
  | IR_FADD => y ← y; float_arith SFadd from x y
  | IR_FSUB => y ← y; float_arith SFsub from x y
  | IR_FMUL => y ← y; float_arith SFmul from x y
  | IR_FDIV => y ← y; float_arith SFdiv from x y
  | IR_FEQ => y ← y; Some (b2u (SFeqb (double x) (double y)))
  | IR_FNE => y ← y; Some (b2u (negb (SFeqb (double x) (double y))))
  | IR_FLT => y ← y; Some (b2u (SFltb (double x) (double y)))
  | IR_FLE => y ← y; Some (b2u (SFleb (double x) (double y)))
  | IR_FGT => y ← y; Some (b2u (SFltb (double y) (double x)))
  | IR_FGE => y ← y; Some (b2u (SFleb (double y) (double x)))
  | IR_FNEG => Some ((x + 2 ^ 63) mod 2 ^ 64)
  | IR_SITOF => float_of_integer to (sint (bits from) x)
  | IR_UITOF => float_of_integer to x
  | IR_FTOSI => float_to_integer n (- 2 ^ (n - 1)) (2 ^ (n - 1)) x
  | IR_FTOUI => float_to_integer n 0 (2 ^ n) x
  | IR_FEXT | IR_FTRUNC =>
      match to with
      | IR_F32 => Some (convert 23 8 52 11 (convert 52 11 23 8 x))
      | IR_F64 => Some x
      | _ => None
      end
  | IR_HEXT => Some (convert 23 8 52 11 (convert 10 5 23 8 (wrap 16 x)))
  | IR_HTRUNC => Some (wrap n (convert 23 8 10 5 (convert 52 11 23 8 x)))
  | _ => None
  end.
End Floats.

(** The floats of a target are those of IEEE 754, and the order of the operands of a
    commutative operation does not matter. *)
Class IeeeFloats {M} (mc : machine M) : Prop := {
  float_exact inst x y xs m w :
    is_float_op (i_op inst) = true -> in_width 64 x -> (forall z, y = Some z -> in_width 64 z) ->
    float_op (mc_bits mc) inst x y = Some w -> mc_other mc (shape inst) (Some x :: y :: xs) m = Some (Value w None);
  float_swaps inst x y xs m :
    match i_op inst with IR_FADD | IR_FMUL | IR_FEQ | IR_FNE => true | _ => false end = true ->
    o_type (i_a inst) = o_type (i_b inst) ->
    mc_other mc (shape inst) (x :: y :: xs) m = mc_other mc (shape inst) (y :: x :: xs) m
}.

(** 1.5 + 2.25, 1 / 3 as a float and as a double, and the order of -1 and 1. *)
#[local] Notation float_inst op t := (Inst op t None (Operand IR_NONE t) (Operand IR_NONE t) (Operand IR_NONE IR_VOID) (ir_scalar IR_VOID) 0 0 []).

Example float_add : float_op (fun _ => 64) (float_inst IR_FADD IR_F64) 0x3ff8000000000000 (Some 0x4002000000000000) = Some 0x400e000000000000.
Proof. vm_compute. reflexivity. Qed.

Example float_third : float_op (fun _ => 64) (float_inst IR_FDIV IR_F32) 0x3ff0000000000000 (Some 0x4008000000000000) = Some 0x3fd5555560000000.
Proof. vm_compute. reflexivity. Qed.

Example double_third : float_op (fun _ => 64) (float_inst IR_FDIV IR_F64) 0x3ff0000000000000 (Some 0x4008000000000000) = Some 0x3fd5555555555555.
Proof. vm_compute. reflexivity. Qed.

Example float_less : float_op (fun _ => 64) (float_inst IR_FLT IR_F64) 0xbff0000000000000 (Some 0x3ff0000000000000) = Some 1.
Proof. vm_compute. reflexivity. Qed.
