(* ===== verification/Optimize.v ===== *)
(** * Optimize: the passes over one function

    Models src/antic/optimize.c up to [optimize_function]. A pass gives the function
    it leaves behind and whether it changed something. A position is a block and an
    index in it. The arrays that [count] fills are functions of the temporary, the
    array [known] of the propagation is a map without the entries [IR_NONE], and a
    double is its 64 bits, as in Ir.v. *)

From Stdlib Require Import Floats.SpecFloat.
From S2P Require Import Prelude Arith Double F16 Ir IrFold IrVerify.

(** ** Helpers *)

Definition none : ir_operand := Operand IR_NONE IR_VOID.

Definition is_none (o : ir_operand) : bool := match o_kind o with IR_NONE => true | _ => false end.

Definition is_constant (o : ir_operand) : bool := match o_kind o with IR_INT _ | IR_FLOAT _ => true | _ => false end.

Definition is_int (o : ir_operand) (v : Z) : bool :=
  match o_kind o with IR_INT n => n =? ir_fold_trim (o_type o) v | _ => false end.

Definition is_temp (o : ir_operand) (temp : nat) : bool :=
  match o_kind o with IR_TEMP t => (t =? temp)%nat | _ => false end.

(** [is_temp] of a result, where [IR_NO_RESULT] is no temporary. *)
Definition is_result (o : ir_operand) (result : option nat) : bool :=
  match result with Some r => is_temp o r | None => false end.

Definition make_copy (inst : ir_inst) (value : ir_operand) : ir_inst :=
  Inst IR_COPY (i_type inst) (i_result inst) value none none (ir_scalar IR_VOID) 0 0 [].

Definition is_pure (op : ir_op) : bool :=
  match op with
  | IR_STORE | IR_BITSTORE | IR_MEMCOPY | IR_CALL | IR_VBINARY | IR_VUNARY | IR_VSPLAT | IR_VSELECT | IR_VSHUFFLE
  | IR_JUMP | IR_BRANCH | IR_BRANCH_OV | IR_RET | IR_UNREACHABLE => false
  | _ => true
  end.

(** The operands by number are [operands] of IrVerify.v. *)
Definition map_operands (g : ir_operand -> ir_operand) (inst : ir_inst) : ir_inst :=
  Inst (i_op inst) (i_type inst) (i_result inst) (g (i_a inst)) (g (i_b inst)) (g (i_c inst))
    (i_of inst) (i_field inst) (i_member inst) (map g (i_args inst)).

Definition with_ops (inst : ir_inst) (op : ir_op) (a b c : ir_operand) : ir_inst :=
  Inst op (i_type inst) (i_result inst) a b c (i_of inst) (i_field inst) (i_member inst) (i_args inst).
Definition with_result (inst : ir_inst) (result : option nat) : ir_inst :=
  Inst (i_op inst) (i_type inst) result (i_a inst) (i_b inst) (i_c inst) (i_of inst) (i_field inst) (i_member inst) (i_args inst).
Definition with_field (inst : ir_inst) (field : nat) : ir_inst :=
  Inst (i_op inst) (i_type inst) (i_result inst) (i_a inst) (i_b inst) (i_c inst) (i_of inst) field (i_member inst) (i_args inst).

Definition with_body (f : ir_function) (params : list ir_param) (blocks : list (list ir_inst)) (temps : list ir_type) : ir_function :=
  {| fn_params := params; fn_result := fn_result f; fn_result_agg := fn_result_agg f; fn_result_ext := fn_result_ext f;
     fn_allocates := fn_allocates f; fn_result_range := fn_result_range f; fn_is_extern := fn_is_extern f;
     fn_variadic := fn_variadic f; fn_never_returns := fn_never_returns f; fn_blocks := blocks; fn_temps := temps |}.
Definition with_blocks (f : ir_function) (blocks : list (list ir_inst)) : ir_function := with_body f (fn_params f) blocks (fn_temps f).

Definition block (f : ir_function) (b : nat) : list ir_inst := default [] (fn_blocks f !! b).
Definition inst_at (f : ir_function) (b i : nat) : option ir_inst := block f b !! i.
Definition set_block (f : ir_function) (b : nat) (insts : list ir_inst) : ir_function := with_blocks f (<[b := insts]> (fn_blocks f)).
Definition all_insts (f : ir_function) : list ir_inst := concat (fn_blocks f).

(** The positions of the instructions, in their order. *)
Definition positions (f : ir_function) : list (nat * nat) :=
  concat (imap (fun b insts => map (fun i => (b, i)) (seq 0 (length insts))) (fn_blocks f)).

(** How often each temporary is defined and used, and the place of its definition,
    which is the last one. *)
Record counts := { defs : nat -> nat; uses : nat -> nat; place : nat -> option (nat * nat) }.

Definition defines (t : nat) (inst : ir_inst) : bool := bool_decide (i_result inst = Some t).
Definition times {A} (p : A -> bool) (l : list A) : nat := length (List.filter p l).

Definition count (f : ir_function) : counts := {|
  defs t := (times (fun p => (pr_temp p =? t)%nat) (fn_params f) + times (defines t) (all_insts f))%nat;
  uses t := times (fun o => is_temp o t) (all_insts f ≫= operands);
  place t := last (List.filter (fun '(b, i) => match inst_at f b i with Some inst => defines t inst | None => false end) (positions f)) |}.

(** The rewriting of single instructions by [g], which gives [None] for one that stays. *)
Definition rewrite_insts (g : ir_inst -> option ir_inst) (f : ir_function) : ir_function * bool :=
  (with_blocks f (map (map (fun inst => default inst (g inst))) (fn_blocks f)),
   existsb (fun inst => bool_decide (is_Some (g inst))) (all_insts f)).

(** ** Constant folding *)

(** The member [as] of a constant: an integer and a double share their 64 bits. *)
Definition as_bits (o : ir_operand) : Z := match o_kind o with IR_INT v | IR_FLOAT v => v | _ => 0 end.

(** A float as a double, and the 64 bits of a double; a NaN that an operation makes is
    the default one. *)
Definition to_double (x : spec_float) : spec_float :=
  match x with
  | S754_finite s m e => binary_normalize 53 1024 (if s then Z.neg m else Z.pos m) e s
  | x => x
  end.

Definition bits_of_double (x : spec_float) : Z :=
  let signed (s : bool) bits := Z.lor (if s then 2 ^ 63 else 0) bits in
  u64 match to_double x with
      | S754_zero s => signed s 0
      | S754_infinity s => signed s 0x7ff0000000000000
      | S754_nan => 0x7ff8000000000000
      | S754_finite s m e => signed s (if Z.pos m <? 2 ^ 52 then Z.pos m else (e + 1075) * 2 ^ 52 + (Z.pos m - 2 ^ 52))
      end.

Definition is_nan_bits (d : Z) : bool := is_nan (double_of_bits d).

(** The conversions between a double and a float as bits: a NaN keeps its sign and
    the top of its payload and gets quiet. *)
Definition float_bits_of (d : Z) : Z :=
  if is_nan_bits d then Z.lor (Z.lor (Z.land (Z.shiftr d 32) 0x80000000) 0x7fc00000) (Z.land (Z.shiftr d 29) 0x3fffff)
  else bits_of_float (arith_to_f32 (double_of_bits d)).

Definition double_bits_of (x : Z) : Z :=
  let sign := Z.shiftl (Z.land x 0x80000000) 32 in
  let exponent := Z.land (Z.shiftr x 23) 0xff in
  let mantissa := Z.land x 0x7fffff in
  let magnitude :=
    if exponent =? 0xff then
      Z.lor 0x7ff0000000000000 (if mantissa =? 0 then 0 else Z.lor 0x8000000000000 (Z.shiftl mantissa 29))
    else bits_of_double (if exponent =? 0 then binary_normalize 53 1024 mantissa (-149) false
                         else binary_normalize 53 1024 (mantissa + 2 ^ 23) (exponent - 150) false) in
  u64 (Z.lor sign magnitude).

Definition fold_float (op : ir_op) (t : ir_type) (a b : Z) : option ir_operand :=
  let a := double_of_bits a in
  let b := double_of_bits b in
  let fa := arith_to_f32 a in
  let fb := arith_to_f32 b in
  let single := bool_decide (t = IR_F32) in
  let value r := Some (Operand (IR_FLOAT (bits_of_double r)) t) in
  let truth (r : bool) := Some (ir_int_op IR_I8 (b2u r)) in
  match op with
  | IR_FADD => value (if single then SFadd 24 128 fa fb else SFadd 53 1024 a b)
  | IR_FSUB => value (if single then SFsub 24 128 fa fb else SFsub 53 1024 a b)
  | IR_FMUL => value (if single then SFmul 24 128 fa fb else SFmul 53 1024 a b)
  | IR_FDIV => value (if single then arith_to_f32 (arith_divide (to_double fa) (to_double fb)) else arith_divide a b)
  | IR_FEQ => truth (SFeqb a b)
  | IR_FNE => truth (negb (SFeqb a b))
  | IR_FLT => truth (SFltb a b)
  | IR_FLE => truth (SFleb a b)
  | IR_FGT => truth (SFltb b a)
  | IR_FGE => truth (SFleb b a)
  | _ => None
  end.

(** C's [(int64_t)d] and [(uint64_t)d] of a finite double in their range. *)
Definition truncated (d : spec_float) : Z :=
  match d with
  | S754_finite s m e => let n := if 0 <=? e then Z.pos m * 2 ^ e else Z.pos m / 2 ^ (- e) in if s then - n else n
  | _ => 0
  end.

(** An integer as a double. *)
Definition double_of_int (v : Z) : spec_float := binary_normalize 53 1024 v 0 false.
Definition float_of_int (v : Z) : spec_float := binary_normalize 24 128 v 0 false.

Definition fold_conversion (inst : ir_inst) : option ir_operand :=
  let from := o_type (i_a inst) in
  let to := i_type inst in
  let n := ir_fold_bits to in
  let v := as_bits (i_a inst) in
  let d := double_of_bits v in
  let limit := double_of_int (2 ^ n) in
  let half := double_of_int (2 ^ (n - 1)) in
  let of_float bits := Some (Operand (IR_FLOAT bits) to) in
  let of_int x := of_float (bits_of_double (if bool_decide (to = IR_F32) then float_of_int x else double_of_int x)) in
  match i_op inst with
  | IR_TRUNC | IR_ZEXT => Some (ir_int_op to v)
  | IR_SEXT => Some (ir_int_op to (u64 (ir_fold_signed from v)))
  | IR_SITOF => of_int (ir_fold_signed from v)
  | IR_UITOF => of_int v
  | IR_FTOSI => if SFleb (SFopp half) d && SFltb d half then Some (ir_int_op to (u64 (truncated d))) else None
  | IR_FTOUI => if SFltb (double_of_int (-1)) d && SFltb d limit then Some (ir_int_op to (u64 (truncated d))) else None
  | IR_FEXT | IR_FTRUNC => of_float (if bool_decide (to = IR_F32) then double_bits_of (float_bits_of v) else v)
  | IR_HEXT => of_float (double_bits_of (anti_rt_f16_widen (u16 v)))
  | IR_HTRUNC => Some (ir_int_op to (anti_rt_f16_narrow (float_bits_of v)))
  | _ => None
  end.

Definition is_target_sized (type : ir_type) : bool := match type with IR_CLONG | IR_CWCHAR | IR_LOCK => true | _ => false end.

Definition fold_inst (inst : ir_inst) : option ir_operand :=
  if is_target_sized (i_type inst) || is_target_sized (o_type (i_a inst)) || is_target_sized (o_type (i_b inst)) then None
  else match i_op inst with
  | IR_ADD | IR_SUB | IR_MUL | IR_SDIV | IR_UDIV | IR_SREM | IR_UREM | IR_AND | IR_OR | IR_XOR
  | IR_SHL | IR_SHR_S | IR_SHR_U
  | IR_EQ | IR_NE | IR_SLT | IR_SLE | IR_SGT | IR_SGE | IR_ULT | IR_ULE | IR_UGT | IR_UGE
  | IR_MULH_S | IR_MULH_U | IR_ADD_SAT_S | IR_ADD_SAT_U | IR_SUB_SAT_S | IR_SUB_SAT_U | IR_MUL_SAT_S | IR_MUL_SAT_U =>
      match o_kind (i_a inst), o_kind (i_b inst) with
      | IR_INT a, IR_INT b =>
          match ir_fold_int (i_op inst) (o_type (i_a inst)) a b with
          | IR_FOLDED v => Some (ir_int_op (i_type inst) v)
          | _ => None
          end
      | _, _ => None
      end
  | IR_FADD | IR_FSUB | IR_FMUL | IR_FDIV | IR_FEQ | IR_FNE | IR_FLT | IR_FLE | IR_FGT | IR_FGE =>
      match o_kind (i_a inst), o_kind (i_b inst) with
      | IR_FLOAT a, IR_FLOAT b => fold_float (i_op inst) (o_type (i_a inst)) a b
      | _, _ => None
      end
  | IR_NEG => match o_kind (i_a inst) with IR_INT a => Some (ir_int_op (i_type inst) (u64 (0 - a))) | _ => None end
  | IR_NOT => match o_kind (i_a inst) with IR_INT a => Some (ir_int_op (i_type inst) (not64 a)) | _ => None end
  | IR_FNEG =>
      match o_kind (i_a inst) with IR_FLOAT a => Some (Operand (IR_FLOAT (Z.lxor a (2 ^ 63))) (i_type inst)) | _ => None end
  | IR_TRUNC | IR_SEXT | IR_ZEXT | IR_SITOF | IR_UITOF | IR_FTOSI | IR_FTOUI | IR_FEXT | IR_FTRUNC | IR_HEXT | IR_HTRUNC =>
      if is_constant (i_a inst) then fold_conversion inst else None
  | _ => None
  end.

(** The body of the loop of [fold_constants] on one instruction. *)
Definition fold_constant (inst : ir_inst) : option ir_inst :=
  match i_op inst, o_kind (i_a inst) with
  | IR_BRANCH, IR_INT v => Some (with_ops inst IR_JUMP (if negb (v =? 0) then i_b inst else i_c inst) none none)
  | _, _ => make_copy inst <$> fold_inst inst
  end.

Definition fold_constants (f : ir_function) : ir_function * bool := rewrite_insts fold_constant f.

(** ** Copy propagation *)

Definition replace_operand (temp : nat) (value o : ir_operand) : ir_operand := if is_temp o temp then value else o.

Definition replace_uses (f : ir_function) (temp : nat) (value : ir_operand) : ir_function * bool :=
  (with_blocks f (map (map (map_operands (replace_operand temp value))) (fn_blocks f)),
   existsb (fun o => is_temp o temp) (all_insts f ≫= operands)).

Definition known_at (known : gmap nat ir_operand) (o : ir_operand) : option ir_operand :=
  match o_kind o with IR_TEMP t => known !! t | _ => None end.

(** What is known after an instruction with the result [r]. *)
Definition known_after (known : gmap nat ir_operand) (inst : ir_inst) : gmap nat ir_operand :=
  match i_result inst with
  | None => known
  | Some r =>
      let kept := filter (fun '(t, v) => t <> r /\ is_temp v r = false) known in
      if bool_decide (i_op inst = IR_COPY) && negb (is_temp (i_a inst) r) && negb (is_none (i_a inst))
      then <[r := i_a inst]> kept else kept
  end.

Fixpoint propagate_in_block (known : gmap nat ir_operand) (insts : list ir_inst) : list ir_inst * bool :=
  match insts with
  | [] => ([], false)
  | inst :: rest =>
      let changed := existsb (fun o => bool_decide (is_Some (known_at known o))) (operands inst) in
      let inst := map_operands (fun o => default o (known_at known o)) inst in
      let '(rest, more) := propagate_in_block (known_after known inst) rest in
      (inst :: rest, changed || more)
  end.

(** The test [exact] of [propagate_copies] for the copy of [v] at a position. *)
Definition exact_copy (f : ir_function) (c : counts) (b i : nat) (v : ir_operand) : bool :=
  is_constant v ||
  match o_kind v with
  | IR_TEMP y =>
      (defs c y =? 1)%nat &&
      ((y <? length (fn_params f))%nat || match place c y with Some (b', i') => (b' =? b)%nat && (i' <? i)%nat | None => false end)
  | _ => false
  end.

(** The body of the second loop of [propagate_copies] at one position. *)
Definition propagate_at (c : counts) (st : ir_function * bool) (at_ : nat * nat) : ir_function * bool :=
  let '(f, changed) := st in
  let '(b, i) := at_ in
  match inst_at f b i with
  | Some inst =>
      match i_result inst with
      | Some x =>
          if negb (bool_decide (i_op inst = IR_COPY)) || negb (defs c x =? 1)%nat || is_temp (i_a inst) x then st
          else if exact_copy f c b i (i_a inst) then let '(f, more) := replace_uses f x (i_a inst) in (f, more || changed) else st
      | None => st
      end
  | None => st
  end.

Definition propagate_copies (f : ir_function) : ir_function * bool :=
  let each := map (propagate_in_block ∅) (fn_blocks f) in
  let f := with_blocks f (map fst each) in
  let changed := existsb snd each in
  fold_left (propagate_at (count f)) (positions f) (f, changed).

(** ** Peephole rules *)

Definition is_commutative (op : ir_op) : bool :=
  match op with
  | IR_ADD | IR_MUL | IR_AND | IR_OR | IR_XOR | IR_EQ | IR_NE | IR_FADD | IR_FMUL | IR_FEQ | IR_FNE => true
  | _ => false
  end.

(** The loop of [power_of_two], which a word leaves after 63 rounds. *)
Fixpoint shifts_to_one (fuel : nat) (v : Z) : Z :=
  match fuel with
  | O => 0
  | S fuel => if v >? 1 then 1 + shifts_to_one fuel (Z.shiftr v 1) else 0
  end.

Definition power_of_two (o : ir_operand) : Z :=
  match o_kind o with
  | IR_INT v => if (v <? 2) || negb (Z.land v (v - 1) =? 0) then 0 else shifts_to_one 64 v
  | _ => 0
  end.

Definition block_of (o : ir_operand) : option nat := match o_kind o with IR_BLOCK b => Some b | _ => None end.

Definition simplify (inst : ir_inst) : option ir_inst :=
  let t := i_type inst in
  let a := i_a inst in
  let b := i_b inst in
  let k := power_of_two b in
  if is_commutative (i_op inst) && is_constant a && negb (is_constant b) then Some (with_ops inst (i_op inst) b a (i_c inst))
  else match i_op inst with
  | IR_ADD | IR_SUB | IR_OR | IR_XOR | IR_SHL | IR_SHR_S | IR_SHR_U =>
      if is_int b 0 then Some (make_copy inst a) else None
  | IR_MUL =>
      if is_int b 0 then Some (make_copy inst b)
      else if is_int b 1 then Some (make_copy inst a)
      else if k >? 0 then Some (with_field (with_ops inst IR_SHL a (ir_int_op t k) (i_c inst)) 0)
      else None
  | IR_SDIV | IR_UDIV =>
      if is_int b 1 then Some (make_copy inst a)
      else if bool_decide (i_op inst = IR_UDIV) && (k >? 0) then Some (with_ops inst IR_SHR_U a (ir_int_op t k) (i_c inst))
      else None
  | IR_UREM => if k >? 0 then Some (with_ops inst IR_AND a (ir_int_op t (as_bits b - 1)) (i_c inst)) else None
  | IR_AND =>
      if is_int b 0 then Some (make_copy inst b)
      else if is_int b UINT64_MAX then Some (make_copy inst a)
      else None
  | IR_BRANCH =>
      if bool_decide (block_of b = block_of (i_c inst)) then Some (with_ops inst IR_JUMP b none none) else None
  | _ => None
  end.

(** The block that a block with nothing but a jump goes to. *)
Definition jumps_to (f : ir_function) (b : nat) : option nat :=
  match block f b with
  | [inst] => if bool_decide (i_op inst = IR_JUMP) then block_of (i_a inst) else None
  | _ => None
  end.

Fixpoint final_from (f : ir_function) (steps : nat) (b target : nat) : nat :=
  match steps with
  | O => b
  | S steps => match jumps_to f target with Some next => final_from f steps b next | None => target end
  end.

Definition final_target (f : ir_function) (b : nat) : nat := final_from f (S (length (fn_blocks f))) b b.

(** The operand and whether it moved. *)
Definition retarget (f : ir_function) (o : ir_operand) : ir_operand * bool :=
  match block_of o with
  | Some b =>
      let target := final_target f b in
      if (target =? b)%nat then (o, false) else (Operand (IR_BLOCK target) (o_type o), true)
  | None => (o, false)
  end.

(** The pair of an operation and the copy of its result into another temporary. *)
Definition fuses (f : ir_function) (c : counts) (inst next : ir_inst) : bool :=
  match i_result inst with
  | Some t =>
      bool_decide (i_op next = IR_COPY) && is_temp (i_a next) t && (defs c t =? 1)%nat && (uses c t =? 1)%nat &&
      (length (fn_params f) <=? t)%nat
  | None => false
  end.

(** The retargeting of a terminator. The second target is looked up after the first
    has moved, which no block with one jump can tell. *)
Definition retarget_inst (f : ir_function) (inst : ir_inst) : ir_inst * bool :=
  match i_op inst with
  | IR_JUMP => let '(a, moved) := retarget f (i_a inst) in (with_ops inst (i_op inst) a (i_b inst) (i_c inst), moved)
  | IR_BRANCH | IR_BRANCH_OV =>
      let '(b, moved) := retarget f (i_b inst) in
      let '(c, moved') := retarget f (i_c inst) in
      (with_ops inst (i_op inst) (i_a inst) b c, moved || moved')
  | _ => (inst, false)
  end.

(** The loop over block [b] of [f], which holds [done] and then [rest]. *)
Fixpoint peephole_block (c : counts) (f : ir_function) (b : nat) (done rest : list ir_inst) : list ir_inst * bool :=
  match rest with
  | [] => (done, false)
  | inst :: after =>
      let simpler := simplify inst in
      let inst := default inst simpler in
      let changed := bool_decide (is_Some simpler) in
      if bool_decide (i_op inst = IR_COPY) && is_result (i_a inst) (i_result inst) then
        let '(insts, _) := peephole_block c f b done after in (insts, true)
      else
        let go_on :=
          let '(inst, moved) := retarget_inst (set_block f b (done ++ inst :: after)) inst in
          let '(insts, more) := peephole_block c f b (done ++ [inst]) after in
          (insts, changed || moved || more) in
        match after with
        | next :: after' =>
            if fuses f c inst next then
              let '(insts, _) := peephole_block c f b (done ++ [with_result inst (i_result next)]) after' in (insts, true)
            else go_on
        | [] => go_on
        end
  end.

Definition peephole_at (c : counts) (st : ir_function * bool) (b : nat) : ir_function * bool :=
  let '(f, changed) := st in
  let '(insts, more) := peephole_block c f b [] (block f b) in
  (set_block f b insts, more || changed).

Definition apply_peephole_rules (f : ir_function) : ir_function * bool :=
  fold_left (peephole_at (count f)) (seq 0 (length (fn_blocks f))) (f, false).

(** ** Dead code elimination *)

(** A definition that the block overwrites before any use. *)
Fixpoint overwritten (t : nat) (rest : list ir_inst) : bool :=
  match rest with
  | [] => false
  | inst :: rest =>
      if existsb (fun o => is_temp o t) (operands inst) then false
      else if defines t inst then true
      else overwritten t rest
  end.

Definition dead (c : counts) (inst : ir_inst) (rest : list ir_inst) : bool :=
  match i_result inst with
  | Some t => is_pure (i_op inst) && ((uses c t =? 0)%nat || overwritten t rest)
  | None => false
  end.

(** The loop over a block, from its end. *)
Fixpoint remove_unused (c : counts) (insts : list ir_inst) : list ir_inst :=
  match insts with
  | [] => []
  | inst :: rest => let rest := remove_unused c rest in if dead c inst rest then rest else inst :: rest
  end.

Definition remove_unused_results (f : ir_function) : ir_function * bool :=
  let f' := with_blocks f (map (remove_unused (count f)) (fn_blocks f)) in
  (f', negb (length (all_insts f') =? length (all_insts f))%nat).

(** The blocks that the end of a block may go to, in the order of the stack: the
    first arm of a branch is on top. *)
Definition next_blocks (insts : list ir_inst) : list nat :=
  match last insts with
  | Some inst =>
      match i_op inst with
      | IR_JUMP => option_list (block_of (i_a inst))
      | IR_BRANCH | IR_BRANCH_OV => option_list (block_of (i_c inst)) ++ option_list (block_of (i_b inst))
      | _ => []
      end
  | None => []
  end.

(** Marks the blocks of [next] and puts the new ones on the stack. *)
Definition push_next (st : list bool * list nat) (b : nat) : list bool * list nat :=
  let '(reached, pending) := st in
  if default true (reached !! b) then st else (<[b := true]> reached, b :: pending).

(** The loop of [mark_reachable]; [None] when the fuel is out. *)
Fixpoint mark_loop (fuel : nat) (f : ir_function) (reached : list bool) (pending : list nat) : option (list bool) :=
  match pending, fuel with
  | [], _ => Some reached
  | _, O => None
  | b :: pending, S fuel =>
      let '(reached, pending) := fold_left push_next (next_blocks (block f b)) (reached, pending) in
      mark_loop fuel f reached pending
  end.

Definition mark_reachable (f : ir_function) : option (list bool) :=
  let n := length (fn_blocks f) in
  match n with
  | O => Some []
  | _ => mark_loop n f (<[O := true]> (replicate n false)) [O]
  end.

(** The blocks marked by [reached], and the number each block gets. *)
Definition marked {A} (reached : list bool) (l : list A) : list A := map snd (List.filter fst (zip reached l)).
Definition new_number (reached : list bool) (b : nat) : nat := times id (take b reached).

Definition renumber_block (number : nat -> nat) (o : ir_operand) : ir_operand :=
  match o_kind o with IR_BLOCK b => Operand (IR_BLOCK (number b)) (o_type o) | _ => o end.

(** The first three operands only. *)
Definition renumber_targets (number : nat -> nat) (inst : ir_inst) : ir_inst :=
  with_ops inst (i_op inst) (renumber_block number (i_a inst)) (renumber_block number (i_b inst)) (renumber_block number (i_c inst)).

Definition remove_unreachable_blocks (f : ir_function) : option (ir_function * bool) :=
  reached ← mark_reachable f;
  let blocks := marked reached (fn_blocks f) in
  let changed := negb (length blocks =? length (fn_blocks f))%nat in
  Some (with_blocks f (if changed then map (map (renumber_targets (new_number reached))) blocks else blocks), changed).

(** How many targets name each block. *)
Definition predecessors (f : ir_function) : list nat :=
  imap (fun b _ => times (Nat.eqb b) (fn_blocks f ≫= next_blocks)) (fn_blocks f).

(** The block that block [b] takes over. *)
Definition merges (f : ir_function) (preds : list nat) (b : nat) : option nat :=
  match last (block f b) with
  | Some inst =>
      if bool_decide (i_op inst = IR_JUMP) then
        match block_of (i_a inst) with
        | Some target =>
            if (target =? b)%nat || (target =? 0)%nat || negb (default O (preds !! target) =? 1)%nat ||
               no_issue (block f target)
            then None else Some target
        | None => None
        end
      else None
  | None => None
  end.

(** Block [b] without its jump and with the instructions of [target]. *)
Definition merge (f : ir_function) (b target : nat) : ir_function :=
  set_block (set_block f b (removelast (block f b) ++ block f target)) target [].

(** The loop over the blocks from [b] on, which visits [b] again after it has merged. *)
Fixpoint merge_loop (fuel : nat) (f : ir_function) (preds : list nat) (b : nat) (changed : bool) : option (ir_function * bool) :=
  if (length (fn_blocks f) <=? b)%nat then Some (f, changed)
  else match fuel with
  | O => None
  | S fuel =>
      match merges f preds b with
      | Some target => merge_loop fuel (merge f b target) (<[target := O]> preds) b true
      | None => merge_loop fuel f preds (S b) changed
      end
  end.

Definition merge_blocks (f : ir_function) : option (ir_function * bool) :=
  merge_loop (2 * length (fn_blocks f)) f (predecessors f) 0 false.

Definition remove_dead_code (f : ir_function) : option (ir_function * bool) :=
  let '(f, changed) := remove_unused_results f in
  '(f, removed) ← remove_unreachable_blocks f;
  '(f, merged) ← merge_blocks f;
  if merged : bool then '(f, _) ← remove_unreachable_blocks f; Some (f, true) else Some (f, removed || changed).

(** ** Numbering *)

(** The number of each temporary, and the types by the new number. *)
Definition number_temp (f : ir_function) (st : gmap nat nat * list ir_type) (t : nat) : gmap nat nat * list ir_type :=
  let '(numbers, types) := st in
  match numbers !! t with
  | Some _ => st
  | None => (<[t := length types]> numbers, types ++ [default IR_VOID (fn_temps f !! t)])
  end.

(** A parameter gets the next number even when its temporary has one. *)
Definition number_param (f : ir_function) (st : gmap nat nat * list ir_type) (p : ir_param) : gmap nat nat * list ir_type :=
  let '(numbers, types) := st in
  (<[pr_temp p := length types]> numbers, types ++ [default IR_VOID (fn_temps f !! pr_temp p)]).

(** The temporaries of an instruction in the order of the numbering. *)
Definition temp_of (o : ir_operand) : option nat := match o_kind o with IR_TEMP t => Some t | _ => None end.
Definition inst_temps (inst : ir_inst) : list nat := option_list (i_result inst) ++ omap temp_of (operands inst).

Definition renumber_operand (numbers : nat -> nat) (o : ir_operand) : ir_operand :=
  match o_kind o with IR_TEMP t => Operand (IR_TEMP (numbers t)) (o_type o) | _ => o end.

Definition with_temp (p : ir_param) (t : nat) : ir_param :=
  {| pr_type := pr_type p; pr_ext := pr_ext p; pr_agg := pr_agg p; pr_temp := t; pr_nonnull := pr_nonnull p;
     pr_own := pr_own p; pr_deref_size := pr_deref_size p |}.

Definition renumber_inst (numbers : nat -> nat) (inst : ir_inst) : ir_inst :=
  with_result (map_operands (renumber_operand numbers) inst) (numbers <$> i_result inst).

Definition renumber_temps (f : ir_function) : ir_function :=
  let '(numbers, types) :=
    fold_left (number_temp f) (all_insts f ≫= inst_temps) (fold_left (number_param f) (fn_params f) (∅, [])) in
  let number t := default O (numbers !! t) in
  with_body f (map (fun p => with_temp p (number (pr_temp p))) (fn_params f))
    (map (map (renumber_inst number)) (fn_blocks f)) types.

(** ** Store to load forwarding *)

Record address := Address { ad_base : ir_operand; ad_offset : ir_operand; ad_known : bool }.

(** [memset(&a, 0, sizeof a)]. *)
Definition no_address : address := Address none none false.

(** [names_temp] of a result. *)
Definition names_result (o : ir_operand) (result : option nat) : bool := is_result o result.

(** [ir_same_scalar], which tells a double by its bits. *)
Definition ir_same_scalar (a b : ir_operand) : bool :=
  match o_kind a, o_kind b with
  | IR_NONE, _ => true
  | IR_TEMP x, IR_TEMP y => (x =? y)%nat
  | IR_INT x, IR_INT y => x =? y
  | IR_FLOAT x, IR_FLOAT y => x =? y
  | _, _ => false
  end.

Definition same_operand (a b : ir_operand) : bool :=
  match o_kind a, o_kind b with
  | IR_GLOBAL x, IR_GLOBAL y | IR_FUNC x, IR_FUNC y | IR_BLOCK x, IR_BLOCK y | IR_SYM x, IR_SYM y => (x =? y)%nat
  | IR_NONE, IR_NONE | IR_TEMP _, IR_TEMP _ | IR_INT _, IR_INT _ | IR_FLOAT _, IR_FLOAT _ => ir_same_scalar a b
  | _, _ => false
  end.

(** The body of the loop of [address_of] on one instruction. *)
Definition address_after (at_ : ir_operand) (a : address) (inst : ir_inst) : address :=
  if is_result at_ (i_result inst) then
    if bool_decide (i_op inst = IR_PTRADD) then
      Address (i_a inst) (i_b inst)
        (match temp_of (i_a inst) with Some _ => true | None => false end &&
         negb (names_result (i_a inst) (i_result inst)) && negb (names_result (i_b inst) (i_result inst)))
    else Address at_ (ir_int_op IR_I64 0) true
  else if names_result (ad_base a) (i_result inst) || names_result (ad_offset a) (i_result inst)
  then Address (ad_base a) (ad_offset a) false
  else a.

(** The address of [at_] after the instructions [before] of the block. *)
Definition address_of (before : list ir_inst) (at_ : ir_operand) : address :=
  match temp_of at_ with
  | Some _ => fold_left (address_after at_) before (Address at_ (ir_int_op IR_I64 0) true)
  | None => Address at_ (ir_int_op IR_I64 0) false
  end.

Definition same_address (a b : address) : bool :=
  ad_known a && ad_known b && same_operand (ad_base a) (ad_base b) && same_operand (ad_offset a) (ad_offset b).

(** What the pass remembers: an address and the value of a type that it holds. *)
Record remembered := Held { hd_at : address; hd_type : ir_type; hd_value : ir_operand }.

Definition forget (h : remembered) : remembered := Held no_address (hd_type h) (hd_value h).

Definition ir_temp_op (f : ir_function) (temp : nat) : ir_operand := Operand (IR_TEMP temp) (default IR_VOID (fn_temps f !! temp)).

(** The body of the loop of [forward_stores] on one instruction: the instruction and
    what is remembered after it. *)
Definition forward_inst (f : ir_function) (before : list ir_inst) (h : remembered) (inst : ir_inst) : option ir_inst * remembered :=
  let h := if names_result (hd_value h) (i_result inst) || names_result (ad_base (hd_at h)) (i_result inst) ||
              names_result (ad_offset (hd_at h)) (i_result inst)
           then forget h else h in
  match i_op inst with
  | IR_LOAD =>
      let at_ := address_of before (i_a inst) in
      if ad_known (hd_at h) && same_address (hd_at h) at_ && bool_decide (hd_type h = i_type inst)
      then (Some (make_copy inst (hd_value h)), h)
      else if names_result (ad_base at_) (i_result inst) || names_result (ad_offset at_) (i_result inst)
      then (None, forget h)
      else (None, Held at_ (i_type inst) (match i_result inst with Some r => ir_temp_op f r | None => none end))
  | IR_STORE =>
      let at_ := address_of before (i_b inst) in
      let h := if negb (ad_known (hd_at h)) || negb (same_address (hd_at h) at_) then forget h else h in
      (None, if ad_known at_ then Held at_ (i_type inst) (i_a inst) else h)
  | IR_CALL | IR_MEMCOPY | IR_BITSTORE | IR_BITLOAD | IR_VBINARY | IR_VUNARY | IR_VSPLAT | IR_VSELECT | IR_VSHUFFLE
  | IR_LIFE_START | IR_LIFE_END => (None, forget h)
  | _ => (None, h)
  end.

Fixpoint forward_block (f : ir_function) (before : list ir_inst) (h : remembered) (rest : list ir_inst) : list ir_inst * bool :=
  match rest with
  | [] => ([], false)
  | inst :: rest =>
      let '(copy, h) := forward_inst f before h inst in
      let inst := default inst copy in
      let '(rest, more) := forward_block f (before ++ [inst]) h rest in
      (inst :: rest, bool_decide (is_Some copy) || more)
  end.

Definition forward_stores (f : ir_function) : ir_function * bool :=
  let each := map (forward_block f [] (Held no_address IR_VOID none)) (fn_blocks f) in
  (with_blocks f (map fst each), existsb snd each).

(** ** Scalar replacement of aggregates *)

Definition SPLIT_FIELDS : nat := 32.

Record slot_field := { sf_offset : ir_operand; sf_type : ir_type; sf_temp : nat }.

(** The fields found so far and the types of the temporaries of the function, which
    grow by one for each new field. *)
Definition found : Type := list slot_field * list ir_type.

(** [None] is the C [NULL]; the field itself is looked up by its offset later. *)
Definition field_at (st : found) (offset : ir_operand) (type : ir_type) : option found :=
  let '(fields, temps) := st in
  match List.find (fun s => same_operand (sf_offset s) offset) fields with
  | Some s => if bool_decide (sf_type s = type) then Some st else None
  | None =>
      if (SPLIT_FIELDS <=? length fields)%nat then None
      else Some (fields ++ [{| sf_offset := offset; sf_type := type; sf_temp := length temps |}], temps ++ [type])
  end.

Definition escapes_in (inst : ir_inst) (temp : nat) : bool :=
  match i_op inst with
  | IR_LOAD | IR_LIFE_START | IR_LIFE_END => false
  | IR_STORE => is_temp (i_a inst) temp
  | IR_PTRADD => is_temp (i_b inst) temp
  | _ => existsb (fun o => is_temp o temp) (operands inst)
  end.

(** The instructions other than the one at position [at_], in their order. *)
Definition others (f : ir_function) (at_ : nat * nat) : list ((nat * nat) * ir_inst) :=
  omap (fun p => if bool_decide (p = at_) then None else (fun inst => (p, inst)) <$> inst_at f p.1 p.2) (positions f).

Definition written_again (f : ir_function) (def : nat * nat) (temp : nat) : bool :=
  existsb (fun '(_, inst) => defines temp inst) (others f def).

(** Whether an instruction loads or stores through [temp]. *)
Definition accesses (inst : ir_inst) (temp : nat) : bool :=
  (bool_decide (i_op inst = IR_LOAD) && is_temp (i_a inst) temp) ||
  (bool_decide (i_op inst = IR_STORE) && is_temp (i_b inst) temp).

(** The loops stop at the first failure, [false], and keep the temporaries they added. *)
Definition while_ok {A} (step : found -> A -> bool * found) : list A -> found -> bool * found :=
  fix go l st :=
    match l with
    | [] => (true, st)
    | x :: l => let '(ok, st') := step st x in if ok then go l st' else (false, st')
    end.

Definition add_field (st : found) (offset : ir_operand) (type : ir_type) : bool * found :=
  match field_at st offset type with Some st' => (true, st') | None => (false, st) end.

Definition ptradd_fields (f : ir_function) (at_ : nat * nat) (use : ir_inst) (st : found) : bool * found :=
  match i_result use with
  | Some r =>
      while_ok (fun st '(_, inst) =>
        if escapes_in inst r || (bool_decide (i_op inst = IR_PTRADD) && is_temp (i_a inst) r) then (false, st)
        else if accesses inst r then add_field st (i_b use) (i_type inst)
        else (true, st)) (others f at_) st
  | None => (true, st)
  end.

Definition slot_fields (f : ir_function) (slot : nat * nat) (base : nat) (st : found) : bool * found :=
  while_ok (fun st '(p, use) =>
    if escapes_in use base then (false, st)
    else if accesses use base then add_field st (ir_int_op IR_I64 0) (i_type use)
    else if bool_decide (i_op use = IR_PTRADD) && is_temp (i_a use) base then
      if match o_kind (i_b use) with IR_INT _ | IR_SYM _ => false | _ => true end ||
         match i_result use with Some r => written_again f p r | None => false end
      then (false, st)
      else ptradd_fields f p use st
    else (true, st)) (others f slot) st.

Definition slot_offset (f : ir_function) (base : nat) (address : ir_operand) : option ir_operand :=
  if is_temp address base then Some (ir_int_op IR_I64 0)
  else i_b <$> List.find (fun inst => bool_decide (i_op inst = IR_PTRADD) && is_temp (i_a inst) base &&
                                 is_result address (i_result inst)) (all_insts f).

(** The rewriting of one load or store. It leaves every ptradd as it is, so the
    offsets are those of the function before the rewriting. *)
Definition rewrite_slot_use (f : ir_function) (base : nat) (fields : list slot_field) (use : ir_inst) : option ir_inst :=
  let field address :=
    offset ← slot_offset f base address;
    List.find (fun s => same_operand (sf_offset s) offset) fields in
  match i_op use with
  | IR_LOAD => (fun s => make_copy use (ir_temp_op f (sf_temp s))) <$> field (i_a use)
  | IR_STORE =>
      (fun s => Inst IR_COPY (sf_type s) (Some (sf_temp s)) (i_a use) none none (ir_scalar IR_VOID) 0 0 []) <$> field (i_b use)
  | _ => None
  end.

Definition rewrite_slot_uses (f : ir_function) (base : nat) (fields : list slot_field) : ir_function :=
  fst (rewrite_insts (rewrite_slot_use f base fields) f).

(** An instruction that [drop_slot_addresses] keeps. *)
Definition not_address (base : nat) (inst : ir_inst) : bool :=
  negb (match i_op inst with IR_PTRADD | IR_LIFE_START | IR_LIFE_END => true | _ => false end && is_temp (i_a inst) base).

Definition drop_slot_addresses (f : ir_function) (base : nat) : ir_function :=
  with_blocks f (map (List.filter (not_address base)) (fn_blocks f)).

Definition delete_inst (f : ir_function) (b i : nat) : ir_function := set_block f b (delete i (block f b)).

(** The body of the loop of [split_slots] at one position: the function, and whether
    the slot there is gone. *)
Definition split_at (f : ir_function) (b i : nat) : ir_function * bool :=
  match inst_at f b i with
  | Some inst =>
      match i_result inst with
      | Some base =>
          if bool_decide (i_op inst = IR_SLOT) && bool_decide (vt_type (i_of inst) = IR_AGG) &&
             negb (written_again f (b, i) base) then
            let '(ok, (fields, temps)) := slot_fields f (b, i) base ([], fn_temps f) in
            let f := with_body f (fn_params f) (fn_blocks f) temps in
            if negb ok || no_issue fields then (f, false)
            else (delete_inst (drop_slot_addresses (rewrite_slot_uses f base fields) base) b i, true)
          else (f, false)
      | None => (f, false)
      end
  | None => (f, false)
  end.

(** The loop over block [b] from index [i] on, with [n] at least the number of the
    instructions left: an instruction is passed or the block gets shorter. *)
Fixpoint split_block (n : nat) (f : ir_function) (b i : nat) (changed : bool) : ir_function * bool :=
  match n with
  | O => (f, changed)
  | S n =>
      if (length (block f b) <=? i)%nat then (f, changed)
      else
        let '(f, gone) := split_at f b i in
        if gone : bool then split_block n f b i true else split_block n f b (S i) changed
  end.

Definition split_slots (f : ir_function) : ir_function * bool :=
  fold_left (fun st b => split_block (length (block (fst st) b)) (fst st) b 0 (snd st)) (seq 0 (length (fn_blocks f))) (f, false).

(** ** The whole function *)

(** One turn of the loop of [optimize_function]. *)
Definition optimize_round (f : ir_function) : option (ir_function * bool) :=
  let '(f, folded) := fold_constants f in
  let '(f, simpler) := apply_peephole_rules f in
  let '(f, split) := split_slots f in
  let '(f, forwarded) := forward_stores f in
  let '(f, propagated) := propagate_copies f in
  '(f, removed) ← remove_dead_code f;
  Some (f, removed || propagated || forwarded || split || simpler || folded).

(** At most [fuel] turns; [None] when more are needed. *)
Fixpoint optimize_loop (fuel : nat) (f : ir_function) : option ir_function :=
  match fuel with
  | O => None
  | S fuel => '(f, changed) ← optimize_round f; if changed : bool then optimize_loop fuel f else Some f
  end.

Definition optimize_function (fuel : nat) (f : ir_function) : option ir_function :=
  '(f, _) ← remove_dead_code f;
  f ← optimize_loop fuel f;
  Some (renumber_temps f).
