(* ===== verification/OptimizeFloats.v ===== *)
(** * OptimizeFloats: the folding of floats is that of IEEE 754

    [fold_float] and [fold_conversion] of src/antic/optimize.c and the conversions of
    src/rt/f16.h give what FloatSem.v says the operations of the IR give, on every word. *)

From Stdlib Require Import Floats.SpecFloat.
From S2P Require Import Prelude Arith Double F16 FloatBits FloatDivide Ir IrFold IrVerify IrSem FloatSem Optimize.

(** ** Bits *)

Lemma double_of_bits_ieee w : in_width 64 w -> double_of_bits w = double w.
Proof.
  intros Hw. unfold double_of_bits, ieee. change (52 + 11) with 63. rewrite (testbit_top w 63) by (lia || done).
  change 0x7ff with (2 ^ 11 - 1). change 0xfffffffffffff with (2 ^ 52 - 1). rewrite !land_mask, !shiftr_div by lia.
  assert (Z.odd (w / 2 ^ 63) = (2 ^ 63 <=? w)) as ->.
  { destruct Hw as [H0 H1]. destruct (Z.leb_spec (2 ^ 63) w).
    - by rewrite <- (Z.div_unique w (2 ^ 63) 1 (w - 2 ^ 63)) by (pow2s; lia).
    - by rewrite Z.div_small by lia. }
  set (e := w / 2 ^ 52 mod 2 ^ 11). assert (0 <= e) as He by (apply Z.mod_pos_bound; lia). clearbody e.
  set (s := _ <=? _). clearbody s. change (emin (52 + 1) (2 ^ (11 - 1))) with (-1074).
  change (2 ^ 11 - 1) with 2047. destruct (Z.eqb_spec e 2047); [done|]. cbv zeta. destruct (Z.eqb_spec e 0) as [->|]; [done|].
  pose proof (Z.mod_pos_bound w (2 ^ 52) ltac:(lia)) as Hm. destruct (w mod 2 ^ 52 + 2 ^ 52) eqn:E; [lia| |lia].
  f_equal. lia.
Qed.

Lemma double_valid w : in_width 64 w -> valid_binary 53 1024 (double w) = true.
Proof. intros Hw. by apply (ieee_valid 52 11). Qed.

Lemma double_of_bits_valid w : in_width 64 w -> valid_binary 53 1024 (double_of_bits w) = true.
Proof. intros Hw. rewrite double_of_bits_ieee by done. by apply double_valid. Qed.

(** The bits of C's formats, written with shifts, are those of the format. *)
Lemma sign_above mw ew b s : 0 <= mw -> 0 <= ew -> in_width (mw + ew) b ->
  Z.lor (if s : bool then 2 ^ (mw + ew) else 0) b = (if s then 2 ^ (mw + ew) else 0) + b.
Proof. intros Hm He Hb. destruct s; [|done]. rewrite <- (Z.mul_1_l (2 ^ (mw + ew))). by apply lor_disjoint; [lia|]. Qed.

Lemma finite_below mw ew s m e : 1 <= mw -> 1 < ew -> mw + 1 < 2 ^ (ew - 1) -> valid_binary (mw + 1) (2 ^ (ew - 1)) (S754_finite s m e) = true ->
  in_width (mw + ew) (if Z.pos m <? 2 ^ mw then Z.pos m else (e - emin (mw + 1) (2 ^ (ew - 1))) * 2 ^ mw + Z.pos m).
Proof.
  intros Hmw Hew Hx Hv. apply valid_finite in Hv as [Hf He]. apply fexp_fits in Hf as (Hm & He1 & He2); [|lia..].
  unfold emin in *. rewrite Z.add_simpl_r in He2. pose proof (Z.pow_pos_nonneg 2 mw ltac:(lia) ltac:(lia)).
  assert (2 ^ ew = 2 * 2 ^ (ew - 1)) as Ee by (rewrite <- Z.pow_succ_r by lia; f_equal; lia).
  assert (2 ^ (mw + 1) = 2 * 2 ^ mw) as Em2 by (rewrite <- Z.pow_succ_r by lia; f_equal; lia).
  unfold in_width. rewrite Z.pow_add_r by lia. set (pm := 2 ^ mw) in *. set (pe := 2 ^ (ew - 1)) in *. rewrite Ee.
  destruct (Z.ltb_spec (Z.pos m) pm); nia.
Qed.

Lemma bits_of_double_ieee x : bits_of_double x = double_bits (rounded 53 1024 x).
Proof.
  unfold bits_of_double. change (to_double x) with (rounded 53 1024 x). pose proof (rounded_valid 53 1024 ltac:(lia) x) as Hv.
  set (v := rounded 53 1024 x) in *. clearbody v. destruct (ieee_of_bits 52 11 ltac:(lia) ltac:(done) ltac:(lia) v Hv) as [Hw _].
  change (52 + 11 + 1) with 64 in Hw. rewrite <- (wrap_small 64 _ Hw). unfold u64. f_equal. change (2 ^ 63) with (2 ^ (52 + 11)).
  destruct v as [s|s| |s m e]; cbn [ieee_bits].
  - by rewrite sign_above, Z.add_0_r by done.
  - by rewrite sign_above by done.
  - done.
  - pose proof (finite_below 52 11 s m e ltac:(lia) ltac:(lia) ltac:(done) Hv) as Hb. change (emin (52 + 1) (2 ^ (11 - 1))) with (-1074) in *.
    rewrite <- (sign_above 52 11) by (lia || exact Hb). f_equal. destruct (Z.pos m <? 2 ^ 52); lia.
Qed.

Lemma bits_of_float_ieee x : valid_binary 24 128 x = true -> bits_of_float x = single_bits x.
Proof.
  intros Hv. unfold bits_of_float. change 0x80000000 with (2 ^ (23 + 8)). destruct x as [s|s| |s m e]; cbn [ieee_bits].
  - by rewrite sign_above, Z.add_0_r by done.
  - by rewrite sign_above by done.
  - done.
  - pose proof (finite_below 23 8 s m e ltac:(lia) ltac:(lia) ltac:(done) Hv) as Hb. change (emin (23 + 1) (2 ^ (8 - 1))) with (-149) in *.
    rewrite <- (sign_above 23 8) by (lia || exact Hb). f_equal. destruct (Z.pos m <? 2 ^ 23); lia.
Qed.

Lemma narrowing_ieee x : valid_binary 53 1024 x = true -> arith_to_f32 x = rounded 24 128 x.
Proof.
  intros Hv. destruct (ieee_of_bits 52 11 ltac:(lia) ltac:(done) ltac:(lia) x Hv) as [Hw E].
  pose proof (narrowing_rounds _ Hw) as H. by rewrite double_of_bits_ieee, E in H by exact Hw.
Qed.

Lemma single_valid x : valid_binary 24 128 (rounded 24 128 x) = true.
Proof. by apply rounded_valid. Qed.

(** ** The conversions *)

Lemma top_cases k w : 0 <= k -> in_width (k + 1) w -> exists b, w / 2 ^ k = b2u b /\ Z.odd (w / 2 ^ k) = b.
Proof.
  intros Hk [H0 H1]. rewrite Z.pow_add_r in H1 by lia. assert (0 <= w / 2 ^ k < 2) as Hb.
  { split; [apply Z.div_pos; lia|apply Z.div_lt_upper_bound; lia]. }
  exists (Z.odd (w / 2 ^ k)). split; [|done]. by assert (w / 2 ^ k = 0 \/ w / 2 ^ k = 1) as [-> | ->] by lia.
Qed.

Lemma b2u_top (b : bool) k : b2u b * k = if b then k else 0.
Proof. destruct b; cbn [b2u]; lia. Qed.

Lemma lor_top k m : 0 <= k -> in_width (k + 1) m -> Z.lor (2 ^ k) m = 2 ^ k + m mod 2 ^ k.
Proof.
  intros Hk Hm. destruct (top_cases k m Hk Hm) as (b & E & _). pose proof (Z.div_mod m (2 ^ k) ltac:(lia)) as Em. rewrite E in Em.
  pose proof (Z.mod_pos_bound m (2 ^ k) ltac:(lia)) as Hr. set (r := m mod 2 ^ k) in *. clearbody r. subst m.
  assert (Z.lor (1 * 2 ^ k) r = 1 * 2 ^ k + r) as H by (by apply lor_disjoint). rewrite Z.mul_1_l in H. destruct b; cbn [b2u].
  - rewrite Z.mul_1_r. rewrite <- H at 1. by rewrite Z.lor_assoc, Z.lor_diag.
  - by rewrite Z.mul_0_r, Z.add_0_l.
Qed.

Lemma float_bits_convert d : in_width 64 d -> float_bits_of d = convert 52 11 23 8 d.
Proof.
  intros Hd. unfold float_bits_of, convert, is_nan_bits. rewrite double_of_bits_ieee by done.
  change (23 + 1) with 24. change (2 ^ (8 - 1)) with 128. destruct (is_nan (double d)).
  - change (52 + 11) with 63. destruct (top_cases 63 d ltac:(lia) Hd) as (b & Eb & ->).
    change 0x80000000 with (2 ^ 31). rewrite !shiftr_div by lia. assert (in_width (31 + 1) (d / 2 ^ 32)).
    { destruct Hd. split; [apply Z.div_pos|apply Z.div_lt_upper_bound]; pow2s; lia. }
    rewrite (land_top _ 31) by (lia || done).
    rewrite Z.div_div, <- Z.pow_add_r by lia. change (2 ^ (32 + 31)) with (2 ^ 63). rewrite Eb, b2u_top.
    change 0x3fffff with (2 ^ 22 - 1). rewrite land_mask by lia.
    assert (d / 2 ^ 29 mod 2 ^ 22 = d mod 2 ^ (52 - 1) * 2 ^ 23 / 2 ^ 52) as -> by (change (52 - 1) with 51; pow2s; Z.div_mod_to_equations; lia).
    set (p := _ / 2 ^ 52). assert (0 <= p < 2 ^ 22) as Hp by (subst p; change (52 - 1) with 51; pow2s; Z.div_mod_to_equations; lia). clearbody p.
    rewrite <- Z.lor_assoc. change 0x7fc00000 with (511 * 2 ^ 22). rewrite (lor_disjoint 511 p 22) by (lia || done).
    change (2 ^ 31) with (2 ^ (23 + 8)). rewrite (sign_above 23 8) by (lia || (split; pow2s; lia)).
    change (2 ^ (23 - 1)) with (2 ^ 22). pow2s. lia.
  - rewrite narrowing_ieee by (by apply double_valid). apply bits_of_float_ieee, single_valid.
Qed.

(** A float as a double, under its sign. *)
Lemma single_double s m e : valid_binary 24 128 (S754_finite s m e) = true ->
  double_bits (rounded 53 1024 (S754_finite s m e)) = (if s then 2 ^ 63 else 0) + double_bits (rounded 53 1024 (S754_finite false m e)) /\
  in_width 63 (double_bits (rounded 53 1024 (S754_finite false m e))).
Proof.
  intros Hv. pose proof (rounded_valid 53 1024 ltac:(lia) (S754_finite false m e)) as Hd.
  destruct (single_fills s m e Hv) as (m1 & a1 & Ha1 & E1 & H1), (single_fills false m e Hv) as (m2 & a2 & Ha2 & E2 & H2).
  rewrite H2 in Hd. pose proof (finite_below 52 11 false m2 (e - a2) ltac:(lia) ltac:(lia) ltac:(done) Hd) as Hb.
  rewrite !rounded_finite in *. destruct (single_fits s m e Hv) as [Hm _].
  assert (0 < Zdigits2 (Z.pos m) <= 24) as Hg by (split; [apply digits2_least; lia|apply digits2_bounds; lia]).
  assert (forall t, exists m', Z.pos m' = Z.pos m * 2 ^ (53 - Zdigits2 (Z.pos m)) /\
    binary_round 53 1024 t m e = S754_finite t m' (e - (53 - Zdigits2 (Z.pos m)))) as H.
  { intros t. destruct (single_fits s m e Hv) as [_ He]. apply round_fills; [lia|change (emin 53 1024) with (-1074); lia|lia]. }
  destruct (H s) as (k1 & K1 & K2), (H false) as (k2 & L1 & L2). rewrite K2, L2 in *. injection H1 as <- _. injection H2 as <- E.
  assert (k1 = k2) as -> by congruence. split; [|].
  - cbn [ieee_bits]. by destruct s.
  - rewrite <- E in Hb. cbn [ieee_bits]. rewrite Z.add_0_l. exact Hb.
Qed.

Lemma double_bits_convert f : in_width 32 f -> double_bits_of f = convert 23 8 52 11 f.
Proof.
  intros Hf. unfold double_bits_of, convert. change (52 + 1) with 53. change (2 ^ (11 - 1)) with 1024.
  pose proof (ieee_valid 23 8 ltac:(lia) ltac:(done) ltac:(lia) f Hf) as Hv. change (23 + 1) with 24 in Hv. change (2 ^ (8 - 1)) with 128 in Hv. revert Hv.
  destruct (ieee_split 23 8 ltac:(lia) ltac:(lia) f Hf) as (_ & He & Hm). unfold ieee. change (23 + 8) with 31.
  destruct (top_cases 31 f ltac:(lia) Hf) as (b & Eb & ->). change 0x80000000 with (2 ^ 31). rewrite land_top by (lia || done).
  change 0xff with (2 ^ 8 - 1). change 0x7fffff with (2 ^ 23 - 1). rewrite !land_mask, !shiftr_div, shiftl_mul, Eb by lia.
  set (e := f / 2 ^ 23 mod 2 ^ 8) in *. set (m := f mod 2 ^ 23) in *.
  assert (b2u b * 2 ^ 31 * 2 ^ 32 = if b then 2 ^ 63 else 0) as -> by (destruct b; done).
  assert (Hfin : forall x, in_width 63 x -> u64 (Z.lor (if b then 2 ^ 63 else 0) x) = (if b then 2 ^ 63 else 0) + x).
  { intros x Hx. rewrite (sign_above 52 11) by done. apply wrap_small. destruct Hx. split; pow2s; destruct b; lia. }
  change (emin (23 + 1) (2 ^ (8 - 1))) with (-149). destruct (Z.eqb_spec e (2 ^ 8 - 1)) as [E|E].
  - destruct (Z.eqb_spec m 0) as [Em|Em]; cbn [is_nan]; intros _; [by rewrite Hfin by done|].
    change 0x8000000000000 with (2 ^ 22 * 2 ^ 29). rewrite shiftl_mul, <- !shiftl_mul, <- Z.shiftl_lor by lia.
    rewrite lor_top, !shiftl_mul by (lia || done). change 0x7ff0000000000000 with (2047 * 2 ^ 52).
    pose proof (Z.mod_pos_bound m (2 ^ 22) ltac:(lia)) as Hr. set (r := m mod 2 ^ 22) in *.
    assert (f mod 2 ^ (23 - 1) = r) as -> by (subst r m; change (23 - 1) with 22; pow2s; Z.div_mod_to_equations; lia). clearbody r.
    rewrite (lor_disjoint 2047 _ 52) by (lia || (split; pow2s; lia)). rewrite Hfin by (split; pow2s; lia).
    assert (r * 2 ^ 52 / 2 ^ 23 = r * 2 ^ 29) as -> by (pow2s; Z.div_mod_to_equations; lia). pow2s. destruct b; lia.
  - cbv zeta. intros Hv. assert (Hpos : forall p k, valid_binary 24 128 (S754_finite b p k) = true ->
      u64 (Z.lor (if b then 2 ^ 63 else 0) (bits_of_double (binary_normalize 53 1024 (Z.pos p) k false))) = double_bits (rounded 53 1024 (S754_finite b p k))).
    { intros p k Hp. destruct (single_double b p k Hp) as [-> Hw]. rewrite rounded_finite in *. rewrite bits_of_double_ieee.
      rewrite rounded_same by (apply normalize_valid; lia). by apply Hfin. }
    destruct (Z.eqb_spec e 0) as [Ez|Ez].
    + rewrite Ez in *. change (Z.max 0 1 + -149 - 1) with (-149) in *. destruct m as [|p|p]; [by destruct b|by apply Hpos|lia].
    + rewrite Z.max_l in * by lia. replace (e + -149 - 1) with (e - 150) in * by lia.
      destruct (m + 2 ^ 23) as [|p|p] eqn:Ep; [lia|by apply Hpos|lia].
Qed.

(** ** Halves *)

(** A rounded value as a half. *)
Lemma half_of_value s n e : 0 <= n <= 2 ^ 11 -> e = -24 \/ -24 <= e /\ 2 ^ 10 <= n ->
  half_bits (value_at 11 16 s n e) = (if s then 2 ^ 15 else 0) + if e <=? 5 then (e + 24) * 2 ^ 10 + n else 0x7c00.
Proof.
  intros Hn He. unfold value_at. assert (Hfin : forall m k, 0 < m -> -24 <= k -> (k = -24 \/ 2 ^ 10 <= m) -> k <= 5 ->
    half_bits (if k <=? 16 - 11 then S754_finite s (Z.to_pos m) k else S754_infinity s) = (if s then 2 ^ 15 else 0) + ((k + 24) * 2 ^ 10 + m)).
  { intros m k Hm Hk0 Hk Hk5. rewrite (proj2 (Z.leb_le k _)) by lia. cbn [ieee_bits]. change (emin (10 + 1) (2 ^ (5 - 1))) with (-24).
    change (2 ^ (10 + 5)) with (2 ^ 15). f_equal. rewrite Z2Pos.id by lia. destruct (Z.ltb_spec m (2 ^ 10)); lia. }
  destruct (Z.eqb_spec n 0) as [->|Hz]; [destruct He as [->|?]; [|lia]; by destruct s|].
  destruct (Z.eqb_spec n (2 ^ 11)) as [->|Hne].
  - change (2 ^ (11 - 1)) with (2 ^ 10). destruct (Z.leb_spec e 5); [destruct (Z.eq_dec e 5) as [->|]; [by destruct s|rewrite Hfin by lia; lia]|].
    rewrite (proj2 (Z.leb_gt _ _)) by lia. by destruct s.
  - destruct (Z.leb_spec e 5); [apply Hfin; lia|]. rewrite (proj2 (Z.leb_gt _ _)) by lia. by destruct s.
Qed.

Lemma nearest_carry h x u q rest : 0 < u -> x = q * u + rest -> 0 <= rest < u -> Z.odd h = Z.odd q ->
  (if (2 * rest >? u) || ((2 * rest =? u) && Z.odd h) then h + 1 else h) = h - q + FloatDivide.nearest x u.
Proof.
  intros Hu E Hr Ho. rewrite (nearest_at x u q rest), Ho by done. rewrite Z.gtb_ltb.
  destruct (Z.compare_spec (2 * rest) u) as [E1|E1|E1].
  - rewrite E1, Z.ltb_irrefl, Z.eqb_refl. cbn [orb andb]. rewrite <- Z.negb_odd. destruct (Z.odd q); cbn [negb]; lia.
  - rewrite (proj2 (Z.ltb_ge _ _)), (proj2 (Z.eqb_neq _ _)) by lia. cbn [orb andb]. lia.
  - rewrite (proj2 (Z.ltb_lt _ _)) by lia. cbn [orb]. lia.
Qed.

(** The magnitude of a float, rounded as the code does. *)
Lemma narrow_magnitude sign e mantissa : 0 <= sign <= 1 -> 0 <= e < 255 -> 0 <= mantissa < 2 ^ 23 ->
  let m := if e =? 0 then mantissa else mantissa + 2 ^ 23 in
  let k := Z.max (e - 137) (-24) in
  anti_rt_f16_narrow (sign * 2 ^ 31 + (e * 2 ^ 23 + mantissa)) =
  sign * 2 ^ 15 + if k <=? 5 then (k + 24) * 2 ^ 10 + FloatDivide.nearest m (2 ^ (k - (Z.max e 1 - 150))) else 0x7c00.
Proof.
  intros Hs He Hm m k. set (bits := sign * 2 ^ 31 + (e * 2 ^ 23 + mantissa)).
  assert (in_width 32 bits) as Hb by (subst bits; split; pow2s; lia).
  unfold anti_rt_f16_narrow. rewrite sign_arith by done. change 0xFF with (2 ^ 8 - 1). rewrite field_arith by lia.
  replace (Z.land bits 0x7FFFFF) with (bits mod 2 ^ 23) by (symmetry; apply (land_mask bits 23); lia).
  assert (bits / 2 ^ 31 = sign /\ bits / 2 ^ 23 mod 2 ^ 8 = e /\ bits mod 2 ^ 23 = mantissa) as (-> & -> & ->).
  { subst bits. pow2s. Z.div_mod_to_equations. lia. }
  clearbody bits. change (2 ^ 8 - 1) with 255. rewrite (proj2 (Z.eqb_neq e 255)) by lia. cbv zeta. rewrite Z.geb_leb.
  assert (Hsum : forall x, 0 <= x < 2 ^ 15 -> u16 (Z.lor (sign * 2 ^ 15) x) = sign * 2 ^ 15 + x).
  { intros x Hx. rewrite lor_disjoint by (lia || done). apply wrap_small. split; pow2s; lia. }
  destruct (Z.leb_spec 31 (e - 112)); [rewrite (proj2 (Z.leb_gt k 5)) by lia; by apply Hsum|].
  rewrite (proj2 (Z.leb_le k 5)) by lia. destruct (Z.leb_spec (e - 112) 0); cbn [andb].
  - assert (k = -24) as -> by lia. change (-24 + 24) with 0. rewrite Z.mul_0_l, Z.add_0_l.
    destruct (Z.ltb_spec (e - 112) (-10)).
    + assert (FloatDivide.nearest m (2 ^ (-24 - (Z.max e 1 - 150))) = 0) as ->; [|rewrite Z.add_0_r; apply wrap_small; split; pow2s; lia].
      assert (2 ^ 25 <= 2 ^ (-24 - (Z.max e 1 - 150))) as Hp by (apply Z.pow_le_mono_r; lia).
      assert (0 <= m < 2 ^ 24) by (subst m; destruct (e =? 0); pow2s; lia).
      rewrite (nearest_at m _ 0 m) by (pow2s; lia). destruct (Z.compare_spec (2 * m) (2 ^ (-24 - (Z.max e 1 - 150)))); [pow2s; lia|done|pow2s; lia].
    + subst m. rewrite (proj2 (Z.eqb_neq e 0)), Z.lor_0_l by lia.
      assert (Z.lor mantissa 0x800000 = mantissa + 2 ^ 23) as ->.
      { rewrite Z.lor_comm. change 0x800000 with (1 * 2 ^ 23). rewrite lor_disjoint; [pow2s; lia|lia|exact Hm]. }
      replace (-24 - (Z.max e 1 - 150)) with (14 - (e - 112)) by lia. set (shift := 14 - (e - 112)).
      pose proof (Z.pow_le_mono_r 2 14 shift ltac:(lia) ltac:(lia)) as Hp.
      rewrite round_arith, shiftr_div, shiftl_mul, Z.mul_1_l, land_mask by lia.
      pose proof (Z.mod_pos_bound (mantissa + 2 ^ 23) (2 ^ shift) ltac:(pow2s; lia)) as Hr.
      rewrite (nearest_carry _ (mantissa + 2 ^ 23) (2 ^ shift) ((mantissa + 2 ^ 23) / 2 ^ shift)); [|pow2s; lia|rewrite Z.mul_comm; apply Z.div_mod; pow2s; lia|done..].
      rewrite Z.sub_diag, Z.add_0_l. apply Hsum. pose proof (nearest_bounds (mantissa + 2 ^ 23) (2 ^ shift)) as Hn.
      assert (0 <= (mantissa + 2 ^ 23) / 2 ^ shift <= 2 ^ 10); [|pow2s; lia].
      split; [apply Z.div_pos; pow2s; lia|]. apply Z.div_le_upper_bound; pow2s; lia.
  - assert (k = e - 137) as -> by lia. subst m. rewrite (proj2 (Z.eqb_neq e 0)) by lia.
    replace (e - 137 - (Z.max e 1 - 150)) with 13 by lia. set (q := mantissa / 2 ^ 13).
    assert (0 <= q < 1024) as Hq by (subst q; split; [apply Z.div_pos|apply Z.div_lt_upper_bound]; pow2s; lia).
    assert (Z.lor (Z.shiftl (e - 112) 10) (Z.shiftr mantissa 13) = (e - 112) * 2 ^ 10 + q) as ->.
    { rewrite shiftl_mul, shiftr_div by lia. by rewrite lor_disjoint by (lia || exact Hq). }
    rewrite round_arith, shiftl_mul, Z.mul_1_l, land_mask by lia. pose proof (Z.mod_pos_bound mantissa (2 ^ 13) ltac:(lia)) as Hr.
    rewrite (nearest_carry _ (mantissa + 2 ^ 23) (2 ^ 13) (q + 2 ^ 10)); [|lia| |done|].
    + pose proof (nearest_bounds (mantissa + 2 ^ 23) (2 ^ 13)) as Hn.
      assert ((mantissa + 2 ^ 23) / 2 ^ 13 = q + 2 ^ 10) as E by (subst q; pow2s; Z.div_mod_to_equations; lia). rewrite E in Hn.
      rewrite Hsum by (pow2s; lia). pow2s. lia.
    + subst q. pow2s. Z.div_mod_to_equations. lia.
    + rewrite !Z.odd_add, Z.odd_mul. change (2 ^ 10) with 1024. cbn [Z.odd]. by rewrite andb_false_r, xorb_false_r.
Qed.

(** A float by its fields. *)
Lemma float_fields f : in_width 32 f ->
  exists b e m, f = b2u b * 2 ^ 31 + (e * 2 ^ 23 + m) /\ Z.odd (f / 2 ^ 31) = b /\ f / 2 ^ 23 mod 2 ^ 8 = e /\ f mod 2 ^ 23 = m /\
    0 <= e < 256 /\ 0 <= m < 2 ^ 23.
Proof.
  intros Hf. destruct (ieee_split 23 8 ltac:(lia) ltac:(lia) f Hf) as (E & He & Hm). change (23 + 8) with 31 in E.
  eexists _, _, _. split; [|done]. rewrite E at 1. f_equal. by rewrite b2u_top.
Qed.

Lemma narrow_convert f : in_width 32 f -> anti_rt_f16_narrow f = convert 23 8 10 5 f.
Proof.
  intros Hf. destruct (float_fields f Hf) as (b & e & m & E & Eb & Ee & Em & He & Hm). unfold convert, ieee. change (23 + 8) with 31.
  rewrite Eb, Ee, Em. change (10 + 1) with 11. change (2 ^ (5 - 1)) with 16. change (2 ^ 8 - 1) with 255. change (10 + 5) with 15.
  destruct (Z.eqb_spec e 255) as [->|Hne].
  - unfold anti_rt_f16_narrow. rewrite sign_arith by done. change 0xFF with (2 ^ 8 - 1). rewrite field_arith, Ee by lia.
    replace (Z.land f 0x7FFFFF) with (f mod 2 ^ 23) by (symmetry; apply (land_mask f 23); lia). rewrite Em.
    assert (f / 2 ^ 31 = b2u b) as -> by (rewrite E; destruct b; cbn [b2u]; pow2s; Z.div_mod_to_equations; lia).
    rewrite <- Z.lor_assoc. destruct (Z.eqb_spec m 0) as [->|Hz]; [by destruct b|]. cbn [is_nan Z.eqb].
    rewrite shiftr_div by lia. assert (0 <= m / 2 ^ 13 < 2 ^ 10) as Hq by (split; [apply Z.div_pos|apply Z.div_lt_upper_bound]; pow2s; lia).
    change (Z.lor 0x200 (m / 2 ^ 13)) with (Z.lor (2 ^ 9) (m / 2 ^ 13)). rewrite lor_top by (lia || exact Hq).
    assert (f mod 2 ^ (23 - 1) * 2 ^ 10 / 2 ^ 23 = m / 2 ^ 13 mod 2 ^ 9) as ->.
    { rewrite <- Em. change (23 - 1) with 22. pow2s. Z.div_mod_to_equations. lia. }
    pose proof (Z.mod_pos_bound (m / 2 ^ 13) (2 ^ 9) ltac:(lia)) as Hr. set (r := _ mod 2 ^ 9) in *. clearbody r.
    change 0x7C00 with (31 * 2 ^ 10). cbn [negb]. rewrite (lor_disjoint 31 (2 ^ 9 + r) 10) by (lia || (split; pow2s; lia)).
    rewrite lor_disjoint by (lia || (split; pow2s; lia)). etransitivity; [apply wrap_small; split; destruct b; cbn [b2u]; pow2s; lia|].
    destruct b; cbn [b2u]; pow2s; lia.
  - assert (f = b2u b * 2 ^ 31 + (e * 2 ^ 23 + m)) as -> by done. clear Eb Ee Em E Hf.
    rewrite narrow_magnitude by (lia || by destruct b). assert (b2u b * 2 ^ 15 = if b then 2 ^ 15 else 0) as -> by (by destruct b).
    set (n := if e =? 0 then m else m + 2 ^ 23). cbv zeta. change (emin (23 + 1) (2 ^ (8 - 1))) with (-149).
    replace (Z.max e 1 + -149 - 1) with (Z.max e 1 - 150) by lia.
    assert (e = 0 /\ 0 <= n < 2 ^ 23 \/ 1 <= e /\ 2 ^ 23 <= n < 2 ^ 24) as Hn by (subst n; destruct (Z.eqb_spec e 0); pow2s; lia). clearbody n.
    destruct n as [|p|p]; [|cbn [is_nan]; rewrite rounded_finite|lia].
    { assert (e = 0) as -> by lia. by destruct b. }
    assert (fexp 11 16 (Zdigits2 (Z.pos p) + (Z.max e 1 - 150)) = Z.max (e - 137) (-24)) as Ek.
    { unfold fexp. change (emin 11 16) with (-24). destruct Hn as [[-> Hn]|[He1 Hn]].
      - assert (Zdigits2 (Z.pos p) <= 23) by (apply digits2_bounds; lia). lia.
      - assert (Zdigits2 (Z.pos p) <= 24) by (apply digits2_bounds; lia). pose proof (digits2_least (Z.pos p) 23 ltac:(lia) ltac:(lia)). lia. }
    rewrite round_round by lia. unfold round_rat. rewrite Z.div_1_r, Z.mul_1_l, Ek. set (k := Z.max (e - 137) (-24)).
    pose proof (nearest_bounds (Z.pos p) (2 ^ (k - (Z.max e 1 - 150)))) as Hb.
    assert (k = -24 \/ k - (Z.max e 1 - 150) = 13 /\ 1 <= e) as Hk by lia.
    assert (0 <= Z.pos p / 2 ^ (k - (Z.max e 1 - 150)) < 2 ^ 11) as Hd.
    { split; [apply Z.div_pos; [lia|apply Z.pow_pos_nonneg; lia]|]. apply Z.div_lt_upper_bound; [apply Z.pow_pos_nonneg; lia|].
      assert (2 ^ 13 <= 2 ^ (k - (Z.max e 1 - 150))) by (apply Z.pow_le_mono_r; lia). pow2s. lia. }
    rewrite half_of_value; [done|lia|]. destruct Hk as [->|[Ed He1]]; [by left|right]. split; [lia|]. rewrite Ed in *.
    assert (2 ^ 10 <= Z.pos p / 2 ^ 13); [|lia]. apply Z.div_le_lower_bound; pow2s; lia.
Qed.

(** The subnormal halves, and those of the last exponent. *)
Definition widens (h : Z) : bool := anti_rt_f16_widen h =? convert 10 5 23 8 h.

Definition widens_from (z : Z) : Prop := forallb widens (count_up 1024 z) = true.

Lemma widens_ends : widens_from 0 /\ widens_from 0x8000 /\ widens_from 0x7C00 /\ widens_from 0xFC00.
Proof. refine (conj _ (conj _ (conj _ _))); vm_compute; reflexivity. Qed.

Lemma widens_at z h : widens_from z -> z <= h < z + 1024 -> anti_rt_f16_widen h = convert 10 5 23 8 h.
Proof. intros Hz Hr. apply Z.eqb_eq. by apply (all_up _ _ _ h Hz). Qed.

Lemma widen_convert h : in_width 16 h -> anti_rt_f16_widen h = convert 10 5 23 8 h.
Proof.
  intros Hh. destruct (ieee_split 10 5 ltac:(lia) ltac:(lia) h Hh) as (E & He & Hm). change (10 + 5) with 15 in E.
  destruct widens_ends as (H0 & H1 & H2 & H3).
  set (e := h / 2 ^ 10 mod 2 ^ 5) in *. set (m := h mod 2 ^ 10) in *. set (b := Z.odd _) in *. change (2 ^ 10) with 1024 in Hm.
  destruct (Z.eq_dec e 0) as [Ez|Ez]; [rewrite Ez in E; destruct b; [apply (widens_at 0x8000); [exact H1|pow2s; lia]|apply (widens_at 0); [exact H0|pow2s; lia]]|].
  destruct (Z.eq_dec e 31) as [El|El]; [rewrite El in E; destruct b; [apply (widens_at 0xFC00); [exact H3|pow2s; lia]|apply (widens_at 0x7C00); [exact H2|pow2s; lia]]|].
  clear H0 H1 H2 H3. unfold convert, ieee. fold e m. change (10 + 5) with 15. fold b.
  rewrite (proj2 (Z.eqb_neq e (2 ^ 5 - 1))), (proj2 (Z.eqb_neq e 0)) by (pow2s; lia). cbv zeta. change (emin (10 + 1) (2 ^ (5 - 1))) with (-24).
  change (23 + 1) with 24. change (2 ^ (8 - 1)) with 128. destruct (m + 2 ^ 10) as [|p|p] eqn:Ep; [lia| |lia]. cbn [is_nan]. rewrite rounded_finite.
  assert (Zdigits2 (Z.pos p) = 11) as Hd.
  { rewrite <- Ep. pose proof (digits2_least (m + 2 ^ 10) 10 ltac:(lia) ltac:(lia)). assert (Zdigits2 (m + 2 ^ 10) <= 11) by (apply digits2_bounds; pow2s; lia). lia. }
  destruct (round_fills 24 128 b p (Z.max e 1 + -24 - 1)) as (p' & E' & ->); rewrite Hd in *; [lia|change (emin 24 128) with (-149); lia|pow2s; lia|].
  rewrite <- Ep in E'. cbn [ieee_bits]. change (emin (23 + 1) (2 ^ (8 - 1))) with (-149). change (23 + 8) with 31. rewrite E'.
  change (24 - 11) with 13. rewrite (proj2 (Z.ltb_ge _ _)) by (pow2s; lia).
  unfold anti_rt_f16_widen. change 0x8000 with (2 ^ 15). rewrite (land_top h 15) by (lia || exact Hh). rewrite (shiftl_mul _ 16) by lia.
  assert (h / 2 ^ 15 = b2u b) as ->.
  { destruct (top_cases 15 h ltac:(lia) Hh) as (b' & E1 & E2). rewrite E1. f_equal. subst b. by rewrite E2. }
  change 0x1F with (2 ^ 5 - 1). rewrite field_arith by lia. fold e. change 0x3FF with (2 ^ 10 - 1). rewrite land_mask by lia. fold m.
  rewrite (proj2 (Z.eqb_neq e (2 ^ 5 - 1))), (proj2 (Z.eqb_neq e 0)) by (pow2s; lia). cbn [negb]. rewrite !shiftl_mul by lia.
  replace (b2u b * 2 ^ 15 * 2 ^ 16) with (b2u b * 2 ^ 31) by (pow2s; lia). rewrite (lor_disjoint (b2u b) _ 31) by (lia || (split; pow2s; lia)).
  replace (b2u b * 2 ^ 31 + (e + 112) * 2 ^ 23) with ((b2u b * 2 ^ 8 + (e + 112)) * 2 ^ 23) by (pow2s; lia).
  rewrite lor_disjoint by (lia || (split; pow2s; lia)). destruct b; cbn [b2u]; pow2s; lia.
Qed.

(** ** The operations *)

#[local] Opaque SFadd SFsub SFmul SFdiv SFeqb SFltb SFleb binary_normalize rounded double_of_bits double_bits_of float_bits_of bits_of_double ieee ieee_bits convert
  anti_rt_f16_narrow anti_rt_f16_widen arith_to_f32.

Lemma truth_bits r : as_bits (ir_int_op IR_I8 (b2u r)) = b2u r.
Proof. by destruct r. Qed.

(** The quotient of floats that the code rounds twice. *)
Lemma float_quotient x y : valid_binary 24 128 x = true -> valid_binary 24 128 y = true ->
  arith_to_f32 (arith_divide (to_double x) (to_double y)) = SFdiv 24 128 x y.
Proof.
  intros Hx Hy. rewrite division_is_ieee, narrowing_ieee by (apply div_valid; lia). by apply single_quotient.
Qed.

(** The folding of two floats is the operation on them. *)
Lemma fold_float_ieee op t a b o : in_width 64 a -> in_width 64 b -> t = IR_F32 \/ t = IR_F64 -> fold_float op t a b = Some o ->
  forall bits inst, i_op inst = op -> o_type (i_a inst) = t -> float_op bits inst a (Some b) = Some (as_bits o).
Proof.
  intros Ha Hb Ht Hf bits inst Eop Et. unfold fold_float in Hf. unfold float_op. rewrite Eop, Et.
  pose proof (double_valid a Ha) as Va. pose proof (double_valid b Hb) as Vb.
  rewrite (double_of_bits_ieee a Ha), (double_of_bits_ieee b Hb), (narrowing_ieee _ Va), (narrowing_ieee _ Vb) in Hf.
  assert (Hd : forall r, valid_binary 53 1024 r = true -> bits_of_double r = double_bits r).
  { intros r Hr. by rewrite bits_of_double_ieee, rounded_same. }
  assert (Hs : forall r, bits_of_double r = float_word r) by apply bits_of_double_ieee.
  pose proof (single_valid (double a)) as Sa. pose proof (single_valid (double b)) as Sb.
  destruct op; try discriminate Hf; cbv zeta in Hf; apply (inj Some) in Hf; subst o; try (by rewrite truth_bits);
    destruct Ht as [->| ->]; cbn [mbind option_bind as_bits o_kind float_arith]; f_equal;
    (rewrite bool_decide_true by done) || (rewrite bool_decide_false by done);
    rewrite ?float_quotient, ?division_is_ieee by done; symmetry; try apply Hs; apply Hd; [apply add_valid|apply sub_valid|apply mul_valid|apply div_valid]; done.
Qed.

(** ** Integers *)

(** The integers that a float may be turned into, as the code tests them. *)
Lemma truncated_quot x z : float_truncated x = Some z -> truncated x = z.
Proof.
  destruct x as [s|s| |s m e]; try done; cbn [float_truncated truncated]; intros H; apply (inj Some) in H; subst z; [done|].
  destruct (Z.leb_spec 0 e).
  - rewrite (Z.max_l e), (Z.max_r (- e)), Z.quot_1_r by lia. destruct s; lia.
  - rewrite (Z.max_r e), (Z.max_l (- e)), Z.mul_1_r by lia. pose proof (Z.pow_pos_nonneg 2 (- e) ltac:(lia) ltac:(lia)).
    destruct s; [|by rewrite Z.mul_1_l, Z.quot_div_nonneg by lia].
    replace (-1 * Z.pos m) with (- Z.pos m) by lia. by rewrite Z.quot_opp_l, Z.quot_div_nonneg by lia.
Qed.

Lemma power_of_two_double k : k = 0 \/ k = 7 \/ k = 8 \/ k = 15 \/ k = 16 \/ k = 31 \/ k = 32 \/ k = 63 \/ k = 64 ->
  double_of_int (2 ^ k) = S754_finite false (2 ^ 52) (k - 52).
Proof. intros [->|[->|[->|[->|[->|[->|[->|[->| ->]]]]]]]]; vm_compute; reflexivity. Qed.

(** The integer of a float whose magnitude is below a power of two, or is one. *)
Lemma truncated_bound s m e k : 0 <= k -> Z.pos m < 2 ^ 53 ->
  exists z, float_truncated (S754_finite s m e) = Some z /\
    (e < k - 52 \/ e = k - 52 /\ Z.pos m < 2 ^ 52 -> - 2 ^ k < z < 2 ^ k) /\
    (e = k - 52 /\ Z.pos m = 2 ^ 52 -> z = if s then - 2 ^ k else 2 ^ k) /\ (if s then z <= 0 else 0 <= z).
Proof.
  intros Hk Hm. eexists. split; [reflexivity|]. set (a := Z.pos m * 2 ^ Z.max e 0). set (b := 2 ^ Z.max (- e) 0).
  assert (0 < b) as Hb by (apply Z.pow_pos_nonneg; lia). assert (0 <= a) as Ha by (subst a; pose proof (Z.pow_nonneg 2 (Z.max e 0)); lia).
  assert (Z.quot ((if s then -1 else 1) * Z.pos m * 2 ^ Z.max e 0) b = if s then - (a / b) else a / b) as ->.
  { destruct s; [|by rewrite Z.mul_1_l, Z.quot_div_nonneg by done].
    replace (-1 * Z.pos m * 2 ^ Z.max e 0) with (- a) by (subst a; lia). by rewrite Z.quot_opp_l, Z.quot_div_nonneg by lia. }
  assert (0 <= a / b) as Hq by (apply Z.div_pos; lia). pose proof (Z.pow_pos_nonneg 2 k ltac:(lia) Hk) as Hp.
  split; [|split; [|destruct s; lia]].
  - intros H. assert (a / b < 2 ^ k); [|destruct s; lia]. apply Z.div_lt_upper_bound; [done|]. subst a b. destruct (Z.leb_spec 0 e).
    + rewrite (Z.max_l e), (Z.max_r (- e)), Z.mul_1_l by lia. pose proof (Z.pow_pos_nonneg 2 e ltac:(lia) ltac:(lia)).
      destruct H as [H|[H H']]; [assert (2 ^ (53 + e) <= 2 ^ k) as Hle by (apply Z.pow_le_mono_r; lia)|assert (2 ^ (52 + e) <= 2 ^ k) as Hle by (apply Z.pow_le_mono_r; lia)];
        rewrite Z.pow_add_r in Hle by lia; nia.
    + rewrite (Z.max_r e), (Z.max_l (- e)), Z.mul_1_r by lia. rewrite <- Z.pow_add_r by lia.
      destruct H as [H|[H H']]; [assert (2 ^ 53 <= 2 ^ (- e + k)) by (apply Z.pow_le_mono_r; lia)|assert (2 ^ 52 <= 2 ^ (- e + k)) by (apply Z.pow_le_mono_r; lia)]; lia.
  - intros [-> Em]. assert (a / b = 2 ^ k) as ->; [|done]. subst a b. rewrite Em. destruct (Z.leb_spec 0 (k - 52)).
    + rewrite (Z.max_l (k - 52)), (Z.max_r (- (k - 52))), Z.div_1_r by lia. rewrite <- Z.pow_add_r by lia. f_equal. lia.
    + rewrite (Z.max_r (k - 52)), (Z.max_l (- (k - 52))), Z.mul_1_r by lia. rewrite <- Z.pow_sub_r by lia. f_equal. lia.
Qed.

#[local] Transparent SFltb SFleb.

Lemma compare_positive s m e k : SFltb (S754_finite s m e) (S754_finite false (2 ^ 52) (k - 52)) = true -> s = true \/ e < k - 52 \/ e = k - 52 /\ Z.pos m < 2 ^ 52.
Proof.
  unfold SFltb. cbn [SFcompare]. destruct s; [by left|]. right. destruct (Z.compare_spec e (k - 52)); [|by left|done].
  right. split; [done|]. rewrite compare_mantissas in *. by destruct (Z.compare_spec (Z.pos m) (Z.pos (2 ^ 52))).
Qed.

Lemma compare_negative s m e k (strict : bool) :
  (if strict then SFltb else SFleb) (S754_finite true (2 ^ 52) (k - 52)) (S754_finite s m e) = true ->
  s = false \/ e < k - 52 \/ e = k - 52 /\ (Z.pos m < 2 ^ 52 \/ strict = false /\ Z.pos m = 2 ^ 52).
Proof.
  intros H. destruct s; [|by left]. right. unfold SFltb, SFleb in H.
  assert (SFcompare (S754_finite true (2 ^ 52) (k - 52)) (S754_finite true m e) = Some (match Z.compare (k - 52) e with Lt => Gt | Gt => Lt | Eq => CompOpp (Z.compare (Z.pos (2 ^ 52)) (Z.pos m)) end)) as E by done.
  destruct (Z.compare_spec (k - 52) e) as [He|He|He]; [|by destruct strict; rewrite E in H|left; lia].
  right. split; [lia|]. destruct (Z.compare_spec (Z.pos (2 ^ 52)) (Z.pos m)) as [Hm|Hm|Hm]; destruct strict; rewrite E in H; try discriminate H; lia.
Qed.

Lemma double_mantissa s m e : valid_binary 53 1024 (S754_finite s m e) = true -> Z.pos m < 2 ^ 53.
Proof. intros [H _]%valid_finite. apply fexp_fits in H as ([_ H] & _); [done|lia..]. Qed.

(** The tests of the code leave the floats whose integer the type holds. *)
Lemma signed_range x k : 0 <= k -> valid_binary 53 1024 x = true ->
  SFleb (SFopp (S754_finite false (2 ^ 52) (k - 52))) x && SFltb x (S754_finite false (2 ^ 52) (k - 52)) = true ->
  exists z, float_truncated x = Some z /\ - 2 ^ k <= z < 2 ^ k.
Proof.
  intros Hk Hv [H1 H2]%andb_true_iff. pose proof (Z.pow_pos_nonneg 2 k ltac:(lia) Hk).
  destruct x as [s|s| |s m e]; [exists 0; split; [done|lia]|by destruct s|done|].
  destruct (truncated_bound s m e k Hk (double_mantissa _ _ _ Hv)) as (z & E & Hin & Hat & Hs). exists z. split; [done|].
  apply (compare_negative s m e k false) in H1. apply compare_positive in H2. destruct s.
  - destruct H1 as [|[H1|[H1 [H1'|[_ H1']]]]]; [done|specialize (Hin (or_introl H1)); lia|specialize (Hin (or_intror (conj H1 H1'))); lia|].
    rewrite (Hat (conj H1 H1')). lia.
  - destruct H2 as [|H2]; [done|]. specialize (Hin H2). lia.
Qed.

Lemma unsigned_range x k : 0 <= k -> valid_binary 53 1024 x = true ->
  SFltb (S754_finite true (2 ^ 52) (0 - 52)) x && SFltb x (S754_finite false (2 ^ 52) (k - 52)) = true ->
  exists z, float_truncated x = Some z /\ 0 <= z < 2 ^ k.
Proof.
  intros Hk Hv [H1 H2]%andb_true_iff. pose proof (Z.pow_pos_nonneg 2 k ltac:(lia) Hk).
  destruct x as [s|s| |s m e]; [exists 0; split; [done|lia]|by destruct s|done|].
  apply (compare_negative s m e 0 true) in H1. apply compare_positive in H2. destruct s.
  - destruct (truncated_bound true m e 0 ltac:(lia) (double_mantissa _ _ _ Hv)) as (z & E & Hin & _ & Hs). exists z. split; [done|].
    destruct H1 as [|[H1|[H1 [H1'|[? _]]]]]; [done|specialize (Hin (or_introl H1)); lia|specialize (Hin (or_intror (conj H1 H1'))); lia|done].
  - destruct (truncated_bound false m e k Hk (double_mantissa _ _ _ Hv)) as (z & E & Hin & _ & Hs). exists z. split; [done|].
    destruct H2 as [|H2]; [done|]. specialize (Hin H2). lia.
Qed.

Lemma int_op_bits type v : in_width 64 v -> as_bits (ir_int_op type v) = wrap (ir_fold_bits type) v.
Proof. intros H. rewrite <- ir_fold_trim_wrap by done. by destruct type. Qed.

(** The folding of a conversion is the conversion. *)
Lemma fold_conversion_ieee inst o bits y :
  is_float_op (i_op inst) = true -> in_width 64 (as_bits (i_a inst)) ->
  bits (i_type inst) = ir_fold_bits (i_type inst) -> bits (o_type (i_a inst)) = ir_fold_bits (o_type (i_a inst)) ->
  match i_op inst with IR_SITOF | IR_UITOF | IR_FEXT | IR_FTRUNC | IR_HEXT => i_type inst = IR_F32 \/ i_type inst = IR_F64 | _ => True end ->
  fold_conversion inst = Some o -> float_op bits inst (as_bits (i_a inst)) y = Some (as_bits o).
Proof.
  intros Hop Hv Bi Ba Ht Hf. unfold fold_conversion in Hf. unfold float_op. rewrite Bi, Ba. set (v := as_bits (i_a inst)) in *.
  pose proof (double_valid v Hv) as Vd. rewrite (double_of_bits_ieee v Hv) in Hf. cbv zeta in Hf.
  assert (Hn : exists k, ir_fold_bits (i_type inst) = k /\ (k = 8 \/ k = 16 \/ k = 32 \/ k = 64)) by (eexists; split; [done|]; destruct (i_type inst); cbn; auto).
  destruct Hn as (n & En & Hn). rewrite En in *.
  assert (Hof : forall z, i_type inst = IR_F32 \/ i_type inst = IR_F64 ->
    float_of_integer (i_type inst) z = Some (bits_of_double (if bool_decide (i_type inst = IR_F32) then float_of_int z else double_of_int z))).
  { intros z [-> | ->]; [rewrite bool_decide_true by done|rewrite bool_decide_false by done]; cbn [float_of_integer]; f_equal; rewrite bits_of_double_ieee; [done|].
    by rewrite rounded_same by (apply normalize_valid; lia). }
  assert (Hto : forall lo hi z, float_truncated (double v) = Some z -> lo <= z < hi ->
    float_to_integer n lo hi v = Some (as_bits (ir_int_op (i_type inst) (u64 (truncated (double v)))))).
  { intros lo hi z Hz Hr. unfold float_to_integer. rewrite Hz, (truncated_quot _ _ Hz), int_op_bits, En by (by apply wrap_bound). cbn [mbind option_bind].
    rewrite (proj2 (Z.leb_le _ _)), (proj2 (Z.ltb_lt _ _)) by lia. cbn [andb]. by rewrite wrap_wrap_le by lia. }
  destruct (i_op inst) eqn:Op; try discriminate Hop; try discriminate Hf; try (apply (inj Some) in Hf; subst o; cbn [as_bits o_kind]).
  - by rewrite ir_fold_signed_sint, Hof by done.
  - by rewrite Hof.
  - rewrite power_of_two_double in Hf by lia. destruct (_ && _) eqn:E; [|discriminate Hf]. apply (inj Some) in Hf. subst o.
    destruct (signed_range (double v) (n - 1) ltac:(lia) Vd E) as (z & Hz & Hr). by apply (Hto _ _ z).
  - rewrite power_of_two_double in Hf by lia. change (double_of_int (-1)) with (S754_finite true (2 ^ 52) (0 - 52)) in Hf.
    destruct (_ && _) eqn:E; [|discriminate Hf]. apply (inj Some) in Hf. subst o.
    destruct (unsigned_range (double v) n ltac:(lia) Vd E) as (z & Hz & Hr). by apply (Hto _ _ z).
  - destruct Ht as [-> | ->]; [rewrite bool_decide_true by done|by rewrite bool_decide_false by done].
    by rewrite float_bits_convert, double_bits_convert by (done || by apply (convert_width 52 11 23 8)).
  - destruct Ht as [-> | ->]; [rewrite bool_decide_true by done|by rewrite bool_decide_false by done].
    by rewrite float_bits_convert, double_bits_convert by (done || by apply (convert_width 52 11 23 8)).
  - unfold u16. rewrite widen_convert by (by apply wrap_bound). by rewrite double_bits_convert by (by apply (convert_width 10 5 23 8)).
  - rewrite float_bits_convert, narrow_convert by (done || by apply (convert_width 52 11 23 8)). f_equal. symmetry. rewrite <- En. apply int_op_bits.
    apply (in_width_mono 16); [done|]. by apply (convert_width 23 8 10 5).
Qed.

(** What [fold_inst] computes of a float operation is what the operation gives. *)
Lemma fold_inst_ieee inst o bits y :
  is_float_op (i_op inst) = true -> fold_inst inst = Some o ->
  bits (i_type inst) = ir_fold_bits (i_type inst) -> bits (o_type (i_a inst)) = ir_fold_bits (o_type (i_a inst)) ->
  (is_constant (i_a inst) = true -> in_width 64 (as_bits (i_a inst))) ->
  (is_constant (i_b inst) = true -> in_width 64 (as_bits (i_b inst)) /\ y = Some (as_bits (i_b inst))) ->
  (forall x, o_kind (i_a inst) = IR_FLOAT x -> o_type (i_a inst) = IR_F32 \/ o_type (i_a inst) = IR_F64) ->
  match i_op inst with IR_SITOF | IR_UITOF | IR_FEXT | IR_FTRUNC | IR_HEXT => i_type inst = IR_F32 \/ i_type inst = IR_F64 | _ => True end ->
  is_constant (i_a inst) = true /\ float_op bits inst (as_bits (i_a inst)) y = Some (as_bits o).
Proof.
  intros Hop Hf Bi Ba Ha Hb Hfl Ht. unfold fold_inst in Hf. destruct (_ || _ || _); [discriminate Hf|].
  assert (Hfloat : match o_kind (i_a inst), o_kind (i_b inst) with
      | IR_FLOAT a, IR_FLOAT b => fold_float (i_op inst) (o_type (i_a inst)) a b | _, _ => None end = Some o ->
    is_constant (i_a inst) = true /\ float_op bits inst (as_bits (i_a inst)) y = Some (as_bits o)).
  { destruct (o_kind (i_a inst)) as [| | |a| | | |] eqn:Ka; try discriminate. destruct (o_kind (i_b inst)) as [| | |b| | | |] eqn:Kb; try discriminate.
    intros H. assert (is_constant (i_a inst) = true) as Ca by (unfold is_constant; by rewrite Ka).
    assert (is_constant (i_b inst) = true) as Cb by (unfold is_constant; by rewrite Kb). split; [done|].
    destruct (Hb Cb) as [Wb ->]. specialize (Ha Ca). unfold as_bits in Wb, Ha |- *. rewrite Ka in *. rewrite Kb in *.
    by apply (fold_float_ieee (i_op inst) (o_type (i_a inst)) a b o Ha Wb (Hfl _ eq_refl) H). }
  assert (Hconv : (if is_constant (i_a inst) then fold_conversion inst else None) = Some o ->
    is_constant (i_a inst) = true /\ float_op bits inst (as_bits (i_a inst)) y = Some (as_bits o)).
  { destruct (is_constant (i_a inst)) eqn:Ca; [|discriminate]. intros H. split; [done|]. apply fold_conversion_ieee; try done. by apply Ha. }
  destruct (i_op inst) eqn:Op; try discriminate Hop; try (exact (Hfloat Hf)); try (exact (Hconv Hf)).
  destruct (o_kind (i_a inst)) as [| | |a| | | |] eqn:Ka; try discriminate Hf. apply (inj Some) in Hf. subst o.
  assert (is_constant (i_a inst) = true) as Ca by (unfold is_constant; by rewrite Ka). split; [done|]. specialize (Ha Ca).
  unfold as_bits in Ha |- *. rewrite Ka in *. cbn [o_kind]. unfold float_op. rewrite Op. f_equal. rewrite (lxor_top a 63) by (lia || done).
  destruct Ha. destruct (Z.ltb_spec a (2 ^ 63)); [apply Z.mod_small; pow2s; lia|]. symmetry. apply (Z.mod_unique_pos _ _ 1); pow2s; lia.
Qed.
