(* ===== verification/IrSim.v ===== *)
(** * IrSim: simulations of functions of the IR

    The order of the states that the passes keep, the types of the IR that they rely
    on, how one instruction behaves in two states, and the simulation that gives
    [refines]. *)

From S2P Require Import Prelude Arith Ir IrFold IrVerify IrSem Optimize.

(** ** The order of values and states

    A state is below another where it has the same words, of the types of the
    temporaries, and no other flags. The temporaries of [D] are left out. *)

Definition le_flags (x y : option Z) : Prop := forall fl, x = Some fl -> y = Some fl.

Definition le_value (v v' : value) : Prop := v_word v = v_word v' /\ le_flags (v_flags v) (v_flags v').

Definition le_opt (x y : option value) : Prop :=
  match x, y with Some v, Some v' => le_value v v' | None, None => True | _, _ => False end.

Lemma le_flags_refl x : le_flags x x.
Proof. by intros fl. Qed.

Lemma le_value_refl v : le_value v v.
Proof. split; [done|apply le_flags_refl]. Qed.

Lemma le_opt_refl x : le_opt x x.
Proof. destruct x; [apply le_value_refl|done]. Qed.

Lemma le_value_trans v1 v2 v3 : le_value v1 v2 -> le_value v2 v3 -> le_value v1 v3.
Proof. intros [E1 F1] [E2 F2]. split; [congruence|]. intros fl H. by apply F2, F1. Qed.

Lemma le_opt_trans x y z : le_opt x y -> le_opt y z -> le_opt x z.
Proof. destruct x, y, z; cbn; try done. apply le_value_trans. Qed.

#[export] Hint Resolve le_flags_refl le_value_refl le_opt_refl : core.

Section Sim.
Context {M : Type} (mc : machine M) `{!Lawful mc}.

Lemma trim_trim type x : trim mc type (trim mc type x) = trim mc type x.
Proof. unfold trim. pose proof (sized_bits (mc := mc) type). apply wrap_wrap_le. lia. Qed.

Lemma machine_trim_width type x : in_width (mc_bits mc type) (trim mc type x).
Proof. pose proof (sized_bits (mc := mc) type). apply wrap_bound. lia. Qed.

Lemma machine_trim_small type x : in_width (mc_bits mc type) x -> trim mc type x = x.
Proof. apply wrap_small. Qed.

(** ** Types *)

Section Types.
Context (types : list ir_type).

(** A constant has the bits of its type. One of a type that only the back end knows
    is a signed or an unsigned number of that type. *)
Definition const_ok (type : ir_type) (x : Z) : Prop :=
  let n := mc_bits mc type in
  in_width n x \/ (target_sized type = true /\ 2 ^ 64 - 2 ^ (n - 1) <= x < 2 ^ 64).

Definition operand_typed (o : ir_operand) : Prop :=
  match o_kind o with
  | IR_TEMP t => types !! t = Some (o_type o)
  | IR_INT x => const_ok (o_type o) x
  | IR_FLOAT x => in_width 64 x /\ (o_type o = IR_F32 \/ o_type o = IR_F64)
  | _ => True
  end.

(** The types of an operation that a pass may rewrite. *)
Definition op_typed (inst : ir_inst) : Prop :=
  match i_op inst with
  | IR_COPY | IR_NEG | IR_NOT | IR_FNEG => o_type (i_a inst) = i_type inst
  | IR_LOAD => o_type (i_a inst) = IR_PTR
  | IR_STORE => o_type (i_a inst) = i_type inst /\ o_type (i_b inst) = IR_PTR
  | IR_PTRADD => o_type (i_a inst) = IR_PTR /\ o_type (i_b inst) = IR_I64 /\ i_type inst = IR_PTR
  | IR_ADD | IR_SUB | IR_MUL | IR_SDIV | IR_UDIV | IR_SREM | IR_UREM | IR_AND | IR_OR | IR_XOR
  | IR_SHL | IR_SHR_S | IR_SHR_U | IR_FADD | IR_FSUB | IR_FMUL | IR_FDIV =>
      o_type (i_a inst) = i_type inst /\ o_type (i_b inst) = i_type inst
  | IR_EQ | IR_NE | IR_SLT | IR_SLE | IR_SGT | IR_SGE | IR_ULT | IR_ULE | IR_UGT | IR_UGE
  | IR_FEQ | IR_FNE | IR_FLT | IR_FLE | IR_FGT | IR_FGE => o_type (i_a inst) = o_type (i_b inst) /\ i_type inst = IR_I8
  | IR_SITOF | IR_UITOF | IR_FEXT | IR_FTRUNC | IR_HEXT => i_type inst = IR_F32 \/ i_type inst = IR_F64
  | IR_BRANCH => o_type (i_a inst) = IR_I8 /\ i_result inst = None
  | IR_LIFE_START | IR_LIFE_END | IR_JUMP | IR_BRANCH_OV | IR_RET | IR_UNREACHABLE => i_result inst = None
  | _ => True
  end.

(** The operations that only compute a value. *)
Definition is_plain (op : ir_op) : bool := negb (has_effect op) && negb (is_terminator op) && negb (bool_decide (op = IR_STORE)).

Record inst_typed (inst : ir_inst) : Prop := {
  it_operands : Forall operand_typed (operands inst);
  it_result : forall r, i_result inst = Some r -> types !! r = Some (i_type inst);
  it_op : op_typed inst;
  it_named : is_plain (i_op inst) = true -> is_Some (i_result inst)
}.

Definition type_at (t : nat) : ir_type := default IR_VOID (types !! t).

Definition le (D : nat -> Prop) (s s' : temps) : Prop :=
  forall t v, ~ D t -> s !! t = Some v ->
    exists v', s' !! t = Some v' /\ le_value (trim_value mc (type_at t) v) (trim_value mc (type_at t) v').

Lemma le_refl D s : le D s s.
Proof. intros t v _ H. by exists v. Qed.

Lemma le_trans D s1 s2 s3 : le D s1 s2 -> le D s2 s3 -> le D s1 s3.
Proof.
  intros H1 H2 t v Ht Hv. destruct (H1 t v Ht Hv) as (v2 & Hv2 & L1). destruct (H2 t v2 Ht Hv2) as (v3 & Hv3 & L2).
  exists v3. split; [done|]. by eapply le_value_trans.
Qed.

Lemma le_weaken (D D' : nat -> Prop) s s' : (forall t, D t -> D' t) -> le D s s' -> le D' s s'.
Proof. intros H L t v Ht. apply L. by intros ?%H. Qed.
End Types.

(** ** Operands in two states *)

Definition read_le (s s' : temps) (o o' : ir_operand) : Prop :=
  o_type o = o_type o' /\ forall x, read mc s o = Some x -> exists x', read mc s' o' = Some x' /\ le_opt x x'.

Lemma read_le_refl s o : read_le s s o o.
Proof. split; [done|]. intros x H. by exists x. Qed.

Lemma read_below types D s s' o :
  operand_typed types o -> (forall t, temp_of o = Some t -> ~ D t) -> le types D s s' -> read_le s s' o o.
Proof.
  intros Ho Hd L. split; [done|]. unfold read, operand_typed, temp_of in *. destruct (o_kind o) as [|t| | | | | |]; intros x;
    try (intros [= <-]; eexists; by split).
  destruct (s !! t) as [v|] eqn:E; [|done]. cbn. intros [= <-]. destruct (L t v (Hd t eq_refl) E) as (v' & -> & Hl).
  eexists. split; [done|]. unfold type_at in Hl. by rewrite Ho in Hl.
Qed.

Lemma read_value_le s s' o o' v : read_le s s' o o' -> read_value mc s o = Some v ->
  exists v', read_value mc s' o' = Some v' /\ le_value v v'.
Proof.
  intros [_ H]. unfold read_value. destruct (read mc s o) as [x|]; [|done]. destruct (H x eq_refl) as (x' & -> & L).
  cbn. intros ->. destruct x' as [v'|]; [|done]. by exists v'.
Qed.

Lemma word_le s s' o o' x : read_le s s' o o' -> word mc s o = Some x -> word mc s' o' = Some x.
Proof.
  intros H. unfold word. destruct (read_value mc s o) as [v|] eqn:E; [|done]. destruct (read_value_le _ _ _ _ _ H E) as (v' & -> & [Ew _]).
  cbn. by rewrite Ew.
Qed.

Lemma words_le s s' os os' xs : Forall2 (read_le s s') os os' -> words mc s os = Some xs -> words mc s' os' = Some xs.
Proof.
  intros H. revert xs. induction H as [|o o' os os' [_ Ho] _ IH]; intros xs; cbn [words]; [done|].
  destruct (read mc s o) as [x|]; [|done]. destruct (Ho x eq_refl) as (x' & -> & L). cbn [mbind option_bind].
  destruct (words mc s os) as [ys|]; [|done]. rewrite (IH ys eq_refl). cbn [mbind option_bind]. intros [= <-]. do 2 f_equal.
  destruct x, x'; cbn in *; try done. f_equal. symmetry. apply L.
Qed.

(** ** One instruction in two states *)

(** The two instructions do the same to operands that are one below the other; the
    blocks they name are moved by [move]. *)
Record alike (move : nat -> nat) (s s' : temps) (inst inst' : ir_inst) : Prop := {
  al_op : i_op inst' = i_op inst;
  al_type : i_type inst' = i_type inst;
  al_of : i_of inst' = i_of inst;
  al_field : i_field inst' = i_field inst;
  al_member : i_member inst' = i_member inst;
  al_result : is_Some (i_result inst) <-> is_Some (i_result inst');
  al_reads : Forall2 (read_le s s') (operands inst) (operands inst');
  al_blocks : is_terminator (i_op inst) = true -> forall b,
    (o_kind (i_a inst) = IR_BLOCK b -> o_kind (i_a inst') = IR_BLOCK (move b)) /\
    (o_kind (i_b inst) = IR_BLOCK b -> o_kind (i_b inst') = IR_BLOCK (move b)) /\
    (o_kind (i_c inst) = IR_BLOCK b -> o_kind (i_c inst') = IR_BLOCK (move b))
}.

Lemma alike_shape move s s' inst inst' : alike move s s' inst inst' -> shape inst' = shape inst.
Proof.
  intros [Eop Ety Eof Ef Em _ H _]. unfold operands in H. inversion H as [|? ? ? ? [Ha _] H1]; subst.
  inversion H1 as [|? ? ? ? [Hb _] H2]; subst. inversion H2 as [|? ? ? ? [Hc _] H3]; subst.
  unfold shape, hole. rewrite Eop, Ety, Eof, Ef, Em, Ha, Hb, Hc. f_equal. clear -H3.
  induction H3 as [|o o' os os' [E _] _ IH]; [done|]. cbn. by rewrite E, IH.
Qed.

Lemma alike_operands move s s' inst inst' : alike move s s' inst inst' ->
  read_le s s' (i_a inst) (i_a inst') /\ read_le s s' (i_b inst) (i_b inst') /\ read_le s s' (i_c inst) (i_c inst').
Proof.
  intros [_ _ _ _ _ _ H _]. unfold operands in H. inversion H as [|? ? ? ? Ha H1]; subst.
  inversion H1 as [|? ? ? ? Hb H2]; subst. by inversion H2.
Qed.

Ltac binds H := repeat match type of H with
  | mbind _ ?x = Some _ => let E := fresh "E" in destruct x eqn:E; [cbn [mbind option_bind] in H|discriminate H]
  | Some _ = Some _ => injection H as <-
  end.

Lemma result_le move s s' m inst inst' v :
  alike move s s' inst inst' -> result mc s m inst = Some v -> exists v', result mc s' m inst' = Some v' /\ le_value v v'.
Proof.
  intros A. destruct (alike_operands _ _ _ _ _ A) as (Ha & Hb & Hc).
  pose proof (fun x => word_le _ _ _ _ x Ha) as Wa. pose proof (fun x => word_le _ _ _ _ x Hb) as Wb.
  pose proof (alike_shape _ _ _ _ _ A) as Es. pose proof (al_reads _ _ _ _ _ A) as Hos. destruct Ha as [Ta Ha].
  unfold result. rewrite (al_op _ _ _ _ _ A), (al_type _ _ _ _ _ A), (al_field _ _ _ _ _ A), <- Ta.
  destruct (is_integer_op (i_op inst)).
  { intros H. binds H. rewrite (Wa _ eq_refl), (Wb _ eq_refl). cbn. rewrite E1. cbn. eauto. }
  assert (Ho : (xs ← words mc s (operands inst); mc_other mc (shape inst) xs m) = Some v ->
    exists v', (xs ← words mc s' (operands inst'); mc_other mc (shape inst') xs m) = Some v' /\ le_value v v').
  { intros H. binds H. rewrite (words_le _ _ _ _ _ Hos E). cbn. rewrite Es. eauto. }
  destruct (i_op inst); try exact Ho; intros H;
    try (binds H; rewrite (Wa _ eq_refl); cbn; by eauto).
  - exact (read_value_le s s' _ _ v (conj Ta Ha) H).
  - binds H. destruct (read_value_le s s' (i_a inst) (i_a inst') _ (conj Ta Ha) E) as (v' & -> & [_ Hf]). cbn.
    rewrite (Hf _ E0). cbn. eauto.
  - binds H. rewrite (Wa _ eq_refl). cbn. rewrite E0. cbn. eauto.
  - binds H. rewrite (Wa _ eq_refl), (Wb _ eq_refl). cbn. eauto.
Qed.

(** What comes after the instruction in the second state. *)
Definition outcome_alike (move : nat -> nat) (s s' : temps) (m : M) (inst inst' : ir_inst) (ex : option outcome) (o : @outcome M) : Prop :=
  match o with
  | Next s1 m1 => exists v v' s1', define_result mc s inst v = Some s1 /\ le_opt v v' /\
      define_result mc s' inst' v' = Some s1' /\ ex = Some (Next s1' m1)
  | Goes b s1 m1 => s1 = s /\ m1 = m /\ ex = Some (Goes (move b) s' m)
  | Returns x m1 => ex = Some (Returns x m1)
  end.

Lemma define_result_alike move s s' inst inst' v v' s1 :
  alike move s s' inst inst' -> le_opt v v' -> define_result mc s inst v = Some s1 ->
  exists s1', define_result mc s' inst' v' = Some s1'.
Proof.
  intros A. unfold define_result. destruct (i_result inst) as [r|] eqn:E.
  - destruct (proj1 (al_result _ _ _ _ _ A)) as [r' ->]; [rewrite E; by eauto|]. destruct v, v'; cbn; try done. eauto.
  - destruct (i_result inst') eqn:E'; [|by eauto]. destruct (proj2 (al_result _ _ _ _ _ A)) as [r' Er]; [rewrite E'; by eauto|congruence].
Qed.

Lemma goes_to_block_alike (move : nat -> nat) s s' (m : M) o o' out :
  (forall b, o_kind o = IR_BLOCK b -> o_kind o' = IR_BLOCK (move b)) ->
  goes_to_block o s m = Some out -> exists b, out = Goes b s m /\ goes_to_block o' s' m = Some (Goes (move b) s' m).
Proof.
  intros H. unfold goes_to_block. destruct (o_kind o) as [| | | | | |b|] eqn:E; try done. intros [= <-]. exists b.
  by rewrite (H b eq_refl).
Qed.

Lemma exec_op_alike move s s' m inst inst' o :
  alike move s s' inst inst' -> exec_op mc s m inst = Some o -> outcome_alike move s s' m inst inst' (exec_op mc s' m inst') o.
Proof.
  intros A. destruct (alike_operands _ _ _ _ _ A) as (Ha & Hb & Hc).
  pose proof (alike_shape _ _ _ _ _ A) as Es. pose proof (al_blocks _ _ _ _ _ A) as Hbl.
  remember (exec_op mc s' m inst') as ex eqn:Ex. unfold exec_op in Ex. rewrite (al_op _ _ _ _ _ A), (al_type _ _ _ _ _ A) in Ex.
  assert (Hgo : forall out o o', is_terminator (i_op inst) = true ->
     (forall b, o_kind o = IR_BLOCK b -> o_kind o' = IR_BLOCK (move b)) ->
     ex = goes_to_block o' s' m -> goes_to_block o s m = Some out -> outcome_alike move s s' m inst inst' ex out).
  { intros out o1 o1' _ Hm -> Hg. by destruct (goes_to_block_alike move s s' m o1 o1' out Hm Hg) as (b & -> & Hg'). }
  assert (Hef : forall out, ex = exec_effect mc s' m inst' -> exec_effect mc s m inst = Some out ->
     outcome_alike move s s' m inst inst' ex out).
  { clear Ex. intros out Ex H. unfold exec_effect in H. binds H. pose proof (words_le _ _ _ _ _ (al_reads _ _ _ _ _ A) E) as Ev.
    destruct (mc_effect mc (shape inst) _ m) as [[x m']|] eqn:Em; [|done]. binds H.
    destruct (define_result_alike _ _ _ _ _ _ _ _ A (le_opt_refl _) E0) as (s1' & E1). cbn.
    eexists _, _, s1'. split; [done|]. split; [done|]. split; [done|]. rewrite Ex. unfold exec_effect. rewrite Ev. cbn.
    rewrite Es, Em. cbn. by rewrite E1. }
  assert (Hre : forall out, ex = exec_plain mc s' m inst' -> exec_plain mc s m inst = Some out ->
     outcome_alike move s s' m inst inst' ex out).
  { clear Ex. intros out Ex H. unfold exec_plain in H. binds H. destruct (result_le _ _ _ _ _ _ _ A E) as (v' & Ev & L).
    destruct (define_result_alike _ _ _ _ _ (Some v) (Some v') _ A L E0) as (s1' & E1). cbn.
    eexists (Some v), (Some v'), s1'. split; [done|]. split; [exact L|]. split; [done|]. rewrite Ex. unfold exec_plain. rewrite Ev. cbn.
    by rewrite E1. }
  unfold exec_op. destruct (i_op inst) eqn:Op; cbn [has_effect] in *; try (by apply Hef); try (by apply Hre).
  - intros H. binds H. cbn. rewrite (word_le _ _ _ _ _ Ha E), (word_le _ _ _ _ _ Hb E0) in Ex. cbn [mbind option_bind] in Ex.
    destruct (define_result_alike _ _ _ _ _ None None _ A I E2) as (s1' & E3). eexists None, None, s1'.
    split; [done|]. split; [done|]. split; [done|]. rewrite Ex, E1. cbn. by rewrite E3.
  - intros H. eapply Hgo; [done| |exact Ex|exact H]. intros b. apply Hbl. done.
  - intros H. binds H. rewrite (word_le _ _ _ _ _ Ha E) in Ex. eapply Hgo; [done| |exact Ex|exact H].
    intros b. case_match; intros Hk; eapply Hbl; done.
  - intros H. binds H. destruct (read_value_le _ _ _ _ _ Ha E) as (v' & Ev & [_ Hf]).
    rewrite Ev in Ex. cbn [mbind option_bind] in Ex. rewrite (Hf _ E0) in Ex. eapply Hgo; [done| |exact Ex|exact H].
    intros b. case_match; intros Hk; eapply Hbl; done.
  - intros H. binds H. cbn. destruct Ha as [_ Ha]. destruct (Ha _ E) as (x' & Ex' & L). rewrite Ex, Ex'. cbn.
    destruct o0 as [v|], x' as [v'|]; cbn in *; try done. destruct L as [-> _]. done.
  - done.
Qed.

Lemma exec_inst_alike move s s' m inst inst' o :
  alike move s s' inst inst' -> exec_inst mc s m inst = Some o -> outcome_alike move s s' m inst inst' (exec_inst mc s' m inst') o.
Proof.
  intros A. unfold exec_inst. destruct (words mc s (operands inst)) as [xs|] eqn:E; [|done]. cbn [mbind option_bind].
  rewrite (words_le _ _ _ _ _ (al_reads _ _ _ _ _ A) E). cbn [mbind option_bind]. by apply exec_op_alike.
Qed.

(** ** Simulations *)

(** The points of a run of [f] and of one of [g] that are related: where [f] goes on,
    [g] goes on to a related point, or waits while [k] gets less. *)
Section Simulation.
Context (f g : ir_function) (R : nat -> @point M -> @point M -> Prop).

Definition at_point (h : ir_function) (p : @point M) : option outcome := exec_block mc (pt_temps p) (pt_memory p) (body h (pt_block p)).

Definition keeps_up : Prop := forall k p q out, R k p q -> at_point f p = Some out ->
  match out with
  | Next _ _ => True
  | Returns x m => at_point g q = Some (Returns x m)
  | Goes b s m =>
      (exists k' b' s' m', at_point g q = Some (Goes b' s' m') /\ R k' (Point b s m) (Point b' s' m')) \/
      (exists k', (k' < k)%nat /\ R k' (Point b s m) q)
  end.

Context (Hup : keeps_up).

Lemma blocks_from_step h n p : blocks_from mc h (S n) p = match at_point h p with
  | Some (Goes b s m) => blocks_from mc h n (Point b s m) | Some (Returns x m) => Done x m | _ => Wrong end.
Proof. done. Qed.

Lemma simulated_end k p q x m : R k p q -> terminates mc f p x m -> terminates mc g q x m.
Proof.
  intros HR [n Hn]. revert k p q HR Hn. induction n as [|n IH]; intros k p q HR; [done|]. rewrite blocks_from_step.
  destruct (at_point f p) as [[s1 m1|b s1 m1|y m1]|] eqn:E; try done; pose proof (Hup k p q _ HR E) as H; cbn in H.
  - intros Hn. destruct H as [(k' & b' & s' & m' & Eg & H)|(k' & _ & H)]; [|by eapply IH].
    destruct (IH _ _ _ H Hn) as [n' Hn']. exists (S n'). by rewrite blocks_from_step, Eg.
  - intros [= <- <-]. exists 1%nat. by rewrite blocks_from_step, H.
Qed.

Lemma diverges_step p : diverges mc f p -> exists b s m, at_point f p = Some (Goes b s m) /\ diverges mc f (Point b s m).
Proof.
  intros H. destruct (at_point f p) as [[s1 m1|b s1 m1|y m1]|] eqn:E;
    try (destruct (H 1%nat) as [q Hq]; rewrite blocks_from_step, E in Hq; done).
  exists b, s1, m1. split; [done|]. intros n. destruct (H (S n)) as [q Hq]. rewrite blocks_from_step, E in Hq. by exists q.
Qed.

Lemma simulated_divergence k p q : R k p q -> diverges mc f p -> diverges mc g q.
Proof.
  intros HR Hd n. revert k p q HR Hd. induction n as [|n IH]; intros k p q HR Hd; [by exists q|].
  revert p q HR Hd. induction (lt_wf k) as [k _ IHk]. intros p q HR Hd. destruct (diverges_step p Hd) as (b & s & m & E & Hd').
  destruct (Hup k p q _ HR E) as [(k' & b' & s' & m' & Eg & H)|(k' & Hk & H)]; [|by apply (IHk k' Hk _ _ H)].
  rewrite blocks_from_step, Eg. by apply (IH _ _ _ H).
Qed.

Lemma simulation_refines :
  length (fn_params g) = length (fn_params f) ->
  (forall args m, length args = length (fn_params f) -> exists k, R k (start f args m) (start g args m)) -> refines mc f g.
Proof.
  intros Hl Hs. split; [done|]. intros args m Ha. destruct (Hs args m Ha) as [k HR].
  split; [intros x m'; by eapply simulated_end|by eapply simulated_divergence].
Qed.
End Simulation.

Lemma refines_refl f : refines mc f f.
Proof. by split. Qed.

Lemma refines_trans f g h : refines mc f g -> refines mc g h -> refines mc f h.
Proof.
  intros [L1 H1] [L2 H2]. split; [congruence|]. intros args m Ha. destruct (H1 args m Ha) as [T1 D1].
  destruct (H2 args m) as [T2 D2]; [congruence|]. split; [intros x m' ?; by apply T2, T1|intros ?; by apply D2, D1].
Qed.

(** ** Lockstep

    Most passes keep the blocks and their numbers: it is enough that every block of
    [g] does from a state what the block of [f] does from one below it. *)

Definition le_outcome (types : list ir_type) (D : nat -> Prop) (out out' : @outcome M) : Prop :=
  match out, out' with
  | Next s m, Next s' m' => m = m' /\ le types D s s'
  | Goes b s m, Goes b' s' m' => b = b' /\ m = m' /\ le types D s s'
  | Returns x m, Returns x' m' => x = x' /\ m = m'
  | _, _ => False
  end.

Definition block_below (types : list ir_type) (D : nat -> Prop) (insts insts' : list ir_inst) : Prop :=
  forall s s' m out, le types D s s' -> exec_block mc s m insts = Some out ->
    exists out', exec_block mc s' m insts' = Some out' /\ le_outcome types D out out'.

Lemma exec_block_ends s m insts s' m' : exec_block mc s m insts <> Some (Next s' m').
Proof.
  revert s m. induction insts as [|inst insts IH]; intros s m; [done|]. cbn [exec_block].
  by destruct (exec_inst mc s m inst) as [[| |]|].
Qed.

Lemma lockstep types (D : nat -> Prop) f g :
  map pr_temp (fn_params g) = map pr_temp (fn_params f) ->
  (forall b, block_below types D (body f b) (body g b)) -> refines mc f g.
Proof.
  intros Hp Hb. apply (simulation_refines f g (fun _ p q =>
    pt_block p = pt_block q /\ pt_memory p = pt_memory q /\ le types D (pt_temps p) (pt_temps q))).
  - intros k [b s m] [b' s' m'] out (E1 & E2 & L) E. cbn in E1, E2, L. subst b' m'. destruct (Hb b s s' m out L E) as (out' & E' & Lo).
    destruct out as [s1 m1|b1 s1 m1|x m1], out' as [s2 m2|b2 s2 m2|y m2]; cbn in Lo; try done.
    + destruct Lo as (<- & <- & L1). left. exists O, b1, s2, m1. by split.
    + destruct Lo as [<- <-]. done.
  - apply (f_equal length) in Hp. by rewrite !length_map in Hp.
  - intros args m _. exists O. cbn. rewrite Hp. split; [done|]. split; [done|]. apply le_refl.
Qed.
End Sim.
