(* ===== verification/OptimizeLocal.v ===== *)
(** * OptimizeLocal: the folding and the simplification of single instructions

    An instruction that [fold_constants] or [simplify] rewrites does what it did, on
    every machine that keeps the rules of the IR. *)

From S2P Require Import Prelude Arith F16 Ir IrFold IrVerify IrSem FloatSem Optimize OptimizeFloats IrSim.

Section Local.
Context {M : Type} (mc : machine M) `{!Lawful mc} `{!IeeeFloats mc} (types : list ir_type).

Notation bits := (mc_bits mc).
Definition below (inst inst' : ir_inst) : Prop := forall s m out, exec_inst mc s m inst = Some out ->
  exists out', exec_inst mc s m inst' = Some out' /\ le_outcome mc types (fun _ => False) out out'.

Lemma bits_range type : 8 <= bits type <= 64.
Proof. apply sized_bits. Qed.

Lemma below_refl inst : below inst inst.
Proof.
  intros s m out H. exists out. split; [done|]. destruct out; cbn; repeat split; try done; apply le_refl.
Qed.

(** ** Reading *)

Lemma read_value_type s o v : read_value mc s o = Some v -> trim mc (o_type o) (v_word v) = v_word v.
Proof.
  unfold read_value, read. pose proof (fun type x => trim_trim mc type x) as H.
  destruct (o_kind o); try (destruct (s !! _)); intros [= <-]; apply H.
Qed.

Lemma word_width s o x : word mc s o = Some x -> in_width (bits (o_type o)) x.
Proof.
  unfold word. destruct (read_value mc s o) as [v|] eqn:E; [|done]. intros [= <-].
  rewrite <- (read_value_type s o v E). by apply machine_trim_width.
Qed.

Lemma word_value s o v : read_value mc s o = Some v -> word mc s o = Some (v_word v).
Proof. intros H. unfold word. by rewrite H. Qed.

Lemma word_int s o x : o_kind o = IR_INT x -> read_value mc s o = Some (Value (trim mc (o_type o) x) None).
Proof. intros H. unfold read_value, read. by rewrite H. Qed.

(** ** Constants *)

Lemma const_64 type x : const_ok mc type x -> in_width 64 x.
Proof.
  pose proof (bits_range type). intros [H1|[_ H1]]; [eapply in_width_mono; [|exact H1]; lia|].
  assert (2 ^ (bits type - 1) <= 2 ^ 63) by (apply Z.pow_le_mono_r; lia). split; pow2s; lia.
Qed.

Lemma const_fixed type x : const_ok mc type x -> target_sized type = false -> in_width (ir_fold_bits type) x.
Proof. intros [H|[H _]] E; [by rewrite <- (fixed_bits (mc := mc)) by done|congruence]. Qed.

Lemma int_op_kind type v : exists x, o_kind (ir_int_op type v) = IR_INT x /\ o_type (ir_int_op type v) = type /\
  (in_width 64 v -> x = ir_fold_trim type v).
Proof.
  unfold ir_int_op, ir_fold_trim. destruct type; cbn; eexists; (split; [done|]); split; done.
Qed.

Lemma trim_fold type v : target_sized type = false -> in_width 64 v -> ir_fold_trim type v = trim mc type v.
Proof. intros E H. rewrite ir_fold_trim_wrap by done. unfold trim. by rewrite (fixed_bits (mc := mc)) by done. Qed.

Lemma int_op_read s type v :
  target_sized type = false -> in_width 64 v -> read_value mc s (ir_int_op type v) = Some (Value (trim mc type v) None).
Proof.
  intros E H. destruct (int_op_kind type v) as (x & Hk & Ht & Hx). rewrite (word_int s _ x Hk), Ht, Hx by done.
  by rewrite (trim_fold type v E H), trim_trim.
Qed.

Lemma int_op_typed type v : target_sized type = false -> in_width 64 v -> operand_typed mc types (ir_int_op type v).
Proof.
  intros E H. destruct (int_op_kind type v) as (x & Hk & Ht & Hx). unfold operand_typed. rewrite Hk, Ht, Hx by done. left.
  rewrite (trim_fold type v E H). by apply machine_trim_width.
Qed.

(** ** A plain operation that becomes a copy *)

Lemma exec_is_plain s m inst : is_plain (i_op inst) = true -> exec_inst mc s m inst = (_ ← words mc s (operands inst); exec_plain mc s m inst).
Proof. unfold is_plain, exec_inst, exec_op. destruct (i_op inst); done. Qed.

(** The operands that an instruction has read. *)
Lemma words_operands s inst xs : words mc s (operands inst) = Some xs ->
  is_Some (read mc s (i_a inst)) /\ is_Some (read mc s (i_b inst)) /\ is_Some (read mc s (i_c inst)) /\ is_Some (words mc s (i_args inst)).
Proof.
  unfold operands. cbn [words]. destruct (read mc s (i_a inst)), (read mc s (i_b inst)), (read mc s (i_c inst)), (words mc s (i_args inst));
    by eauto.
Qed.

Lemma operands_words s inst :
  is_Some (read mc s (i_a inst)) -> is_Some (read mc s (i_b inst)) -> is_Some (read mc s (i_c inst)) -> is_Some (words mc s (i_args inst)) ->
  is_Some (words mc s (operands inst)).
Proof. unfold operands. cbn [words]. intros [a ->] [b ->] [c ->] [args ->]. by eexists. Qed.

Lemma exec_copy s m inst o : exec_inst mc s m (make_copy inst o) =
  (v ← read_value mc s o; s' ← define_result mc s inst (Some v); Some (Next s' m)).
Proof.
  rewrite exec_is_plain by done. unfold operands, exec_plain, result. cbn. unfold read_value. by destruct (read mc s o).
Qed.

(** The value of an instruction in a state above. *)
Lemma define_below s inst v v' s1 :
  (forall r, i_result inst = Some r -> types !! r = Some (i_type inst)) ->
  le_value (trim_value mc (i_type inst) v) (trim_value mc (i_type inst) v') ->
  define_result mc s inst (Some v) = Some s1 ->
  exists s1', define_result mc s inst (Some v') = Some s1' /\ le mc types (fun _ => False) s1 s1'.
Proof.
  intros Ht L. unfold define_result. destruct (i_result inst) as [r|]; intros [= <-]; eexists; (split; [done|]); [|by apply le_refl].
  intros t w _. destruct (decide (t = r)) as [->|Hne].
  - rewrite !lookup_insert_eq. intros [= <-]. eexists. split; [done|]. unfold type_at. rewrite (Ht r eq_refl). cbn.
    destruct L as [Ew Ef]. split; [|done]. cbn in *. by rewrite Ew.
  - rewrite !lookup_insert_ne by done. intros Hw. by exists w.
Qed.

Lemma copy_below inst o :
  is_plain (i_op inst) = true -> (forall r, i_result inst = Some r -> types !! r = Some (i_type inst)) ->
  (forall s m v, result mc s m inst = Some v -> exists v', read_value mc s o = Some v' /\
    le_value (trim_value mc (i_type inst) v) (trim_value mc (i_type inst) v')) ->
  below inst (make_copy inst o).
Proof.
  intros Hp Ht H s m out. rewrite exec_is_plain by done. destruct (words mc s (operands inst)) as [xs|]; [|done].
  cbn [mbind option_bind]. unfold exec_plain.
  destruct (result mc s m inst) as [v|] eqn:E; [|done]. cbn [mbind option_bind]. destruct (H s m v E) as (v' & Ev & L).
  destruct (define_result mc s inst (Some v)) as [s1|] eqn:Ed; [|done]. intros [= <-].
  destruct (define_below s inst v v' s1 Ht L Ed) as (s1' & Ed' & Ls). exists (Next s1' m). rewrite exec_copy, Ev. cbn [mbind option_bind].
  by rewrite Ed'.
Qed.

(** ** Folding *)

Lemma typed_operands inst : inst_typed mc types inst ->
  operand_typed mc types (i_a inst) /\ operand_typed mc types (i_b inst) /\ operand_typed mc types (i_c inst).
Proof.
  intros [H _ _ _]. unfold operands in H. inversion H as [|? ? Ha H1]; subst. inversion H1 as [|? ? Hb H2]; subst. by inversion H2.
Qed.

Lemma const_word s o x : operand_typed mc types o -> o_kind o = IR_INT x -> target_sized (o_type o) = false ->
  word mc s o = Some x /\ in_width (ir_fold_bits (o_type o)) x /\ in_width 64 x.
Proof.
  unfold operand_typed. intros H Hk E. rewrite Hk in H. pose proof (const_64 _ _ H) as H64. pose proof (const_fixed _ _ H E) as Hw.
  split; [|done]. rewrite (word_value s o _ (word_int s o x Hk)). cbn. f_equal. apply machine_trim_small. by rewrite (fixed_bits (mc := mc)).
Qed.

Lemma trim64_u64 type x : trim mc type (u64 x) = trim mc type x.
Proof. unfold trim. pose proof (bits_range type). apply wrap_wrap_le. lia. Qed.

(** The value of a folded instruction is an integer of the type of the result. *)
Lemma folded_value inst z v :
  target_sized (i_type inst) = false -> in_width 64 z -> trim mc (i_type inst) v = trim mc (i_type inst) z ->
  forall s, exists v', read_value mc s (ir_int_op (i_type inst) z) = Some v' /\
    le_value (trim_value mc (i_type inst) (Value v None)) (trim_value mc (i_type inst) v').
Proof.
  intros E Hz Ev s. rewrite (int_op_read s _ z E Hz). eexists. split; [done|]. split; [|done]. cbn. rewrite trim_trim by done. done.
Qed.

Lemma fold_integer inst o :
  inst_typed mc types inst -> is_integer_op (i_op inst) = true -> fold_inst inst = Some o ->
  operand_typed mc types o /\ o_type o = i_type inst /\
  forall s m v, result mc s m inst = Some v -> exists v', read_value mc s o = Some v' /\
    le_value (trim_value mc (i_type inst) v) (trim_value mc (i_type inst) v').
Proof.
  intros Ht Hi. destruct (typed_operands inst Ht) as (Ta & Tb & _).
  unfold fold_inst. destruct (is_target_sized (i_type inst) || _ || _) eqn:Es; [done|]. change is_target_sized with target_sized in Es.
  apply orb_false_iff in Es as [[Ei Ea]%orb_false_iff Eb].
  assert (H : match o_kind (i_a inst), o_kind (i_b inst) with
    | IR_INT a, IR_INT b => match ir_fold_int (i_op inst) (o_type (i_a inst)) a b with
                            | IR_FOLDED v => Some (ir_int_op (i_type inst) v) | _ => None end
    | _, _ => None end = Some o ->
    operand_typed mc types o /\ o_type o = i_type inst /\
    forall s m v, result mc s m inst = Some v -> exists v', read_value mc s o = Some v' /\
      le_value (trim_value mc (i_type inst) v) (trim_value mc (i_type inst) v')).
  2: { destruct (i_op inst); try discriminate Hi; exact H. }
  destruct (o_kind (i_a inst)) as [| |a| | | | |] eqn:Ka; try done. destruct (o_kind (i_b inst)) as [| |b| | | | |] eqn:Kb; try done.
  destruct (ir_fold_int (i_op inst) (o_type (i_a inst)) a b) as [z| | | |] eqn:Ef; try done. intros [= <-].
  destruct (const_word ∅ _ a Ta Ka Ea) as (_ & Wa & A64). destruct (const_word ∅ _ b Tb Kb Eb) as (_ & Wb & B64).
  assert (in_width 64 z) as Z64.
  { eapply in_width_mono; [|by apply (fold_range (o_type (i_a inst)) a b A64 B64 (i_op inst))].
    pose proof (fold_width (o_type (i_a inst))). lia. }
  split; [by apply int_op_typed|]. split; [by destruct (int_op_kind (i_type inst) z) as (? & _ & ? & _)|].
  intros s m v. unfold result. rewrite Hi. destruct (const_word s _ a Ta Ka Ea) as (-> & _). destruct (const_word s _ b Tb Kb Eb) as (-> & _).
  cbn [mbind option_bind]. unfold integer_result. rewrite (fixed_bits (mc := mc)) by done.
  rewrite fold_meaning in Ef by done. rewrite Ef. cbn [mbind option_bind]. intros [= <-]. by apply folded_value.
Qed.

Lemma not_sized inst : fold_inst inst <> None ->
  target_sized (i_type inst) = false /\ target_sized (o_type (i_a inst)) = false /\ target_sized (o_type (i_b inst)) = false.
Proof.
  unfold fold_inst. destruct (is_target_sized (i_type inst) || _ || _) eqn:Es; [done|]. intros _.
  change is_target_sized with target_sized in Es. by apply orb_false_iff in Es as [[? ?]%orb_false_iff ?].
Qed.

Lemma constant_word s o : operand_typed mc types o -> target_sized (o_type o) = false -> is_constant o = true ->
  word mc s o = Some (as_bits o) /\ in_width 64 (as_bits o).
Proof.
  intros H E Hc. destruct (o_kind o) eqn:K; unfold is_constant in Hc; rewrite K in Hc; try done; unfold as_bits; rewrite K.
  - destruct (const_word s o _ H K E) as (? & _ & ?). done.
  - unfold operand_typed in H. rewrite K in H. destruct H as [H64 Hf]. split; [|done]. unfold word, read_value, read.
    rewrite K. cbn. f_equal. apply machine_trim_small. rewrite (fixed_bits (mc := mc)) by done. by destruct Hf as [-> | ->].
Qed.

Lemma not64_wrap_opp x : in_width 64 x -> not64 x = u64 (- x - 1).
Proof. intros H. rewrite not64_wrap, wrap_small by done. done. Qed.

(** The folding of the operations of one operand on integers. *)
Lemma fold_unary inst o :
  inst_typed mc types inst -> (match i_op inst with IR_NEG | IR_NOT | IR_TRUNC | IR_ZEXT | IR_SEXT => true | _ => false end) = true ->
  fold_inst inst = Some o ->
  operand_typed mc types o /\ o_type o = i_type inst /\
  forall s m v, result mc s m inst = Some v -> exists v', read_value mc s o = Some v' /\
    le_value (trim_value mc (i_type inst) v) (trim_value mc (i_type inst) v').
Proof.
  intros Ht Ho Hf. destruct (typed_operands inst Ht) as (Ta & _). destruct (not_sized inst) as (Ei & Ea & _); [congruence|].
  assert (exists z v', o = ir_int_op (i_type inst) z /\ in_width 64 z /\ trim mc (i_type inst) v' = trim mc (i_type inst) z /\
    forall s m v, result mc s m inst = Some v -> v = Value v' None) as (z & v' & -> & Hz & Ez & Hv).
  { assert (is_constant (i_a inst) = true) as Hc.
    { revert Hf. unfold fold_inst, is_constant. destruct (is_target_sized (i_type inst) || _ || _); [done|].
      destruct (i_op inst); try done; destruct (o_kind (i_a inst)); done. }
    pose proof (fun s => constant_word s _ Ta Ea Hc) as Hw. destruct (Hw ∅) as [_ H64].
    revert Hf. unfold fold_inst, result. destruct (is_target_sized (i_type inst) || _ || _); [done|].
    destruct (i_op inst) eqn:Op; try discriminate Ho; cbn [is_integer_op]; unfold fold_conversion; rewrite ?Hc, ?Op.
    - destruct (o_kind (i_a inst)) eqn:K; try done. intros [= <-]. exists (u64 (0 - integer)), (- integer). split; [done|].
      split; [by apply wrap_bound|]. split; [by rewrite trim64_u64|]. intros s m v. destruct (Hw s) as [-> _].
      unfold as_bits. rewrite K. cbn. by intros [= <-].
    - destruct (o_kind (i_a inst)) eqn:K; try done. intros [= <-]. unfold as_bits in H64. rewrite K in H64.
      exists (not64 integer), (- integer - 1). split; [done|]. split; [by apply not64_width|].
      split; [by rewrite not64_wrap_opp, trim64_u64|]. intros s m v. destruct (Hw s) as [-> _].
      unfold as_bits. rewrite K. cbn. by intros [= <-].
    - intros [= <-]. exists (as_bits (i_a inst)), (as_bits (i_a inst)). split; [reflexivity|]. split; [exact H64|]. split; [reflexivity|]. intros s m v.
      destruct (Hw s) as [-> _]. cbn. by intros [= <-].
    - intros [= <-]. exists (u64 (ir_fold_signed (o_type (i_a inst)) (as_bits (i_a inst)))), (sint (bits (o_type (i_a inst))) (as_bits (i_a inst))).
      split; [reflexivity|]. split; [by apply wrap_bound|].
      split; [by rewrite trim64_u64, ir_fold_signed_sint, (fixed_bits (mc := mc)) by done|]. intros s m v.
      destruct (Hw s) as [-> _]. cbn. by intros [= <-].
    - intros [= <-]. exists (as_bits (i_a inst)), (as_bits (i_a inst)). split; [reflexivity|]. split; [exact H64|]. split; [reflexivity|]. intros s m v.
      destruct (Hw s) as [-> _]. cbn. by intros [= <-]. }
  split; [by apply int_op_typed|]. split; [by destruct (int_op_kind (i_type inst) z) as (? & _ & ? & _)|].
  intros s m v E. rewrite (Hv s m v E). by apply folded_value.
Qed.

(** The folding of the operations on floats and of the conversions. *)
Lemma narrow_width x : in_width 64 (anti_rt_f16_narrow x).
Proof.
  apply (in_width_mono 16); [done|]. unfold anti_rt_f16_narrow. repeat case_match; apply wrap_bound; done.
Qed.

Lemma float_operand type x : in_width 64 x -> type = IR_F32 \/ type = IR_F64 ->
  operand_typed mc types (Operand (IR_FLOAT x) type) /\ is_constant (Operand (IR_FLOAT x) type) = true.
Proof. by split. Qed.

Lemma int_operand type x : target_sized type = false -> in_width 64 x ->
  operand_typed mc types (ir_int_op type x) /\ o_type (ir_int_op type x) = type /\ is_constant (ir_int_op type x) = true.
Proof.
  intros E H. split; [by apply int_op_typed|]. destruct (int_op_kind type x) as (y & Hk & Ht & _). split; [done|].
  unfold is_constant. by rewrite Hk.
Qed.

Lemma b2u_width b : in_width 64 (b2u b).
Proof. by destruct b. Qed.

Lemma bits_of_double_width x : in_width 64 (bits_of_double x).
Proof. apply wrap_bound. done. Qed.

Lemma double_bits_width x : in_width 64 (double_bits_of x).
Proof. apply wrap_bound. done. Qed.

#[local] Opaque bits_of_double double_bits_of float_bits_of double_of_int float_of_int anti_rt_f16_narrow anti_rt_f16_widen.

Definition is_float_compare (op : ir_op) : bool :=
  match op with IR_FEQ | IR_FNE | IR_FLT | IR_FLE | IR_FGT | IR_FGE => true | _ => false end.

Lemma fold_float_cases op t a b o : fold_float op t a b = Some o ->
  if is_float_compare op then exists r, o = ir_int_op IR_I8 (b2u r) else exists x, o = Operand (IR_FLOAT (bits_of_double x)) t.
Proof.
  unfold fold_float. destruct op; cbn [is_float_compare]; intros H; try discriminate H; apply (inj Some) in H; subst o;
    eexists; reflexivity.
Qed.

Lemma fold_conversion_cases inst o : fold_conversion inst = Some o -> in_width 64 (as_bits (i_a inst)) ->
  match i_op inst with
  | IR_SITOF | IR_UITOF | IR_FEXT | IR_FTRUNC | IR_HEXT => exists x, in_width 64 x /\ o = Operand (IR_FLOAT x) (i_type inst)
  | _ => exists x, in_width 64 x /\ o = ir_int_op (i_type inst) x
  end.
Proof.
  unfold fold_conversion. intros H Hw. destruct (i_op inst); try discriminate H;
    try (destruct (_ && _); [|discriminate H]); apply (inj Some) in H; subst o; eexists; (split; [|reflexivity]);
    try (destruct (bool_decide _)); first [exact Hw|apply bits_of_double_width|apply double_bits_width|apply narrow_width|by apply wrap_bound].
Qed.

Lemma fold_float_typed inst o :
  inst_typed mc types inst -> is_float_op (i_op inst) = true -> fold_inst inst = Some o ->
  operand_typed mc types o /\ o_type o = i_type inst /\ is_constant o = true.
Proof.
  intros Ht Ho Hf. destruct (not_sized inst) as (Ei & Ea & _); [congruence|]. destruct (typed_operands inst Ht) as (Ta & _).
  pose proof (it_op _ _ _ Ht) as Hop. revert Hf. unfold fold_inst, op_typed in *.
  destruct (is_target_sized (i_type inst) || _ || _); [done|].
  assert (Hfl : forall x, o_kind (i_a inst) = IR_FLOAT x -> in_width 64 x /\ (o_type (i_a inst) = IR_F32 \/ o_type (i_a inst) = IR_F64)).
  { intros x K. unfold operand_typed in Ta. by rewrite K in Ta. }
  assert (Hconv : (if is_constant (i_a inst) then fold_conversion inst else None) = Some o ->
    match i_op inst with
    | IR_SITOF | IR_UITOF | IR_FEXT | IR_FTRUNC | IR_HEXT => exists x, in_width 64 x /\ o = Operand (IR_FLOAT x) (i_type inst)
    | _ => exists x, in_width 64 x /\ o = ir_int_op (i_type inst) x
    end).
  { destruct (is_constant (i_a inst)) eqn:Hc; [|done]. intros Hf. apply fold_conversion_cases; [done|].
    by destruct (constant_word ∅ _ Ta Ea Hc). }
  assert (Hfloats : match o_kind (i_a inst), o_kind (i_b inst) with
      | IR_FLOAT a, IR_FLOAT b => fold_float (i_op inst) (o_type (i_a inst)) a b | _, _ => None end = Some o ->
    (o_type (i_a inst) = IR_F32 \/ o_type (i_a inst) = IR_F64) /\
    if is_float_compare (i_op inst) then exists r, o = ir_int_op IR_I8 (b2u r)
    else exists x, o = Operand (IR_FLOAT (bits_of_double x)) (o_type (i_a inst))).
  { destruct (o_kind (i_a inst)) eqn:Ka; try discriminate. destruct (o_kind (i_b inst)) eqn:Kb; try discriminate. intros H.
    split; [by destruct (Hfl _ eq_refl)|]. by apply fold_float_cases in H. }
  assert (Hf : forall x t, in_width 64 x -> t = IR_F32 \/ t = IR_F64 -> o = Operand (IR_FLOAT x) t -> t = i_type inst ->
    operand_typed mc types o /\ o_type o = i_type inst /\ is_constant o = true).
  { intros x t Hx Ht' -> <-. destruct (float_operand t x Hx Ht'). done. }
  destruct (i_op inst) eqn:Op; try discriminate Ho;
    try (intros H; specialize (Hfloats H) as [Hty [x ->]]; cbn [is_float_compare] in *;
         first [destruct Hop as [_ ->]; by apply int_operand, b2u_width
               |destruct Hop as [Hop _]; eapply Hf; [apply bits_of_double_width|exact Hty|reflexivity|exact Hop]]);
    try (intros H; destruct (Hconv H) as (x & Hx & ->); first [by apply int_operand|eapply Hf; [exact Hx|exact Hop|reflexivity|reflexivity]]).
  destruct (o_kind (i_a inst)) eqn:Ka; try discriminate. intros H. apply (inj Some) in H. subst o. destruct (Hfl _ eq_refl) as [Hx Hty].
  eapply Hf; [|exact Hty|by rewrite Hop|exact Hop]. by apply lxor_width.
Qed.

Lemma words_cons s inst xs : words mc s (operands inst) = Some xs ->
  exists zs, xs = word mc s (i_a inst) :: word mc s (i_b inst) :: zs.
Proof.
  assert (H : forall o x, read mc s o = Some x -> option_map v_word x = word mc s o).
  { intros o x E. unfold word, read_value. rewrite E. by destruct x. }
  unfold operands. cbn [words]. destruct (read mc s (i_a inst)) as [x|] eqn:Ea; [|done].
  destruct (read mc s (i_b inst)) as [y|] eqn:Eb; [|done]. destruct (read mc s (i_c inst)) as [z|]; [|done].
  destruct (words mc s (i_args inst)) as [zs|]; [|done]. cbn [mbind option_bind]. intros [= <-].
  rewrite (H _ _ Ea), (H _ _ Eb). by eexists.
Qed.

Lemma fold_float_result inst o :
  inst_typed mc types inst -> is_float_op (i_op inst) = true -> fold_inst inst = Some o ->
  forall s m v, result mc s m inst = Some v -> exists v', read_value mc s o = Some v' /\
    le_value (trim_value mc (i_type inst) v) (trim_value mc (i_type inst) v').
Proof.
  intros Ht Ho Hf s m v. destruct (fold_float_typed inst o Ht Ho Hf) as (Hto & Hty & Hc).
  destruct (not_sized inst) as (Ei & Ea & Eb); [congruence|]. destruct (typed_operands inst Ht) as (Ta & Tb & _).
  assert (result mc s m inst = (xs ← words mc s (operands inst); mc_other mc (shape inst) xs m)) as ->.
  { unfold result. by destruct (i_op inst). }
  destruct (words mc s (operands inst)) as [xs|] eqn:E; [|done]. destruct (words_cons s inst xs E) as [zs ->]. cbn [mbind option_bind].
  pose proof (it_op _ _ _ Ht) as Hop. destruct (fold_inst_ieee inst o bits (word mc s (i_b inst)) Ho Hf) as [Ca Ew].
  { by apply fixed_bits. }
  { by apply fixed_bits. }
  { intros Ca. by destruct (constant_word s _ Ta Ea Ca). }
  { intros Cb. by destruct (constant_word s _ Tb Eb Cb). }
  { intros x K. unfold operand_typed in Ta. rewrite K in Ta. apply Ta. }
  { unfold op_typed in Hop. destruct (i_op inst); done. }
  destruct (constant_word s _ Ta Ea Ca) as [Wa Ha]. rewrite Wa, (float_exact inst _ _ zs m _ Ho Ha (fun z Hz => in_width_mono _ _ _ (proj2 (bits_range _)) (word_width s _ z Hz)) Ew).
  intros [= <-].
  rewrite <- Hty in Ei. destruct (constant_word s o Hto Ei Hc) as [Hw _]. unfold word in Hw.
  destruct (read_value mc s o) as [v'|]; [|done]. injection Hw as <-. exists v'. split; [done|]. by split.
Qed.

(** ** The instructions of [fold_constants] *)

Lemma fold_kinds inst o : fold_inst inst = Some o ->
  is_integer_op (i_op inst) = true \/
  match i_op inst with IR_NEG | IR_NOT | IR_TRUNC | IR_ZEXT | IR_SEXT => true | _ => false end = true \/
  is_float_op (i_op inst) = true.
Proof.
  unfold fold_inst. destruct (is_target_sized (i_type inst) || _ || _); [done|].
  destruct (i_op inst); auto; intros H; discriminate H.
Qed.

Lemma fold_inst_spec inst o : inst_typed mc types inst -> fold_inst inst = Some o ->
  is_plain (i_op inst) = true /\ operand_typed mc types o /\ o_type o = i_type inst /\
  forall s m v, result mc s m inst = Some v -> exists v', read_value mc s o = Some v' /\
    le_value (trim_value mc (i_type inst) v) (trim_value mc (i_type inst) v').
Proof.
  intros Ht Hf. destruct (fold_kinds inst o Hf) as [Hi|[Hi|Hi]].
  - split; [by destruct (i_op inst)|]. by apply fold_integer.
  - split; [by destruct (i_op inst)|]. by apply fold_unary.
  - split; [by destruct (i_op inst)|]. destruct (fold_float_typed inst o Ht Hi Hf) as (? & ? & _). do 2 (split; [done|]).
    by apply fold_float_result.
Qed.

Lemma copy_typed inst o : (forall r, i_result inst = Some r -> types !! r = Some (i_type inst)) ->
  is_Some (i_result inst) -> operand_typed mc types o -> o_type o = i_type inst -> inst_typed mc types (make_copy inst o).
Proof. intros Hr Hn Ho Hty. split; [by repeat constructor|done..]. Qed.

Lemma read_nonzero s o v x : o_kind o = IR_INT v -> operand_typed mc types o -> target_sized (o_type o) = false ->
  word mc s o = Some x -> x = v.
Proof. intros K H E. destruct (const_word s o v H K E) as [-> _]. by intros [= <-]. Qed.

Lemma fold_constant_below inst inst' : inst_typed mc types inst -> fold_constant inst = Some inst' ->
  below inst inst' /\ inst_typed mc types inst'.
Proof.
  intros Ht. assert (Hfold : make_copy inst <$> fold_inst inst = Some inst' -> below inst inst' /\ inst_typed mc types inst').
  { destruct (fold_inst inst) as [o|] eqn:E; [|done]. intros [= <-]. destruct (fold_inst_spec inst o Ht E) as (Hp & Ho & Hty & Hv).
    split; [|by apply copy_typed; [apply Ht|by apply Ht| |]]. by apply copy_below; [|apply Ht|]. }
  unfold fold_constant. destruct (i_op inst) eqn:Op; try exact Hfold. destruct (o_kind (i_a inst)) as [| |v| | | | |] eqn:K; try exact Hfold.
  intros H. apply (inj Some) in H. subst inst'. destruct (typed_operands inst Ht) as (Ta & Tb & Tc). pose proof (it_op _ _ _ Ht) as Hop.
  unfold op_typed in Hop. rewrite Op in Hop. split.
  - intros s m out. unfold exec_inst. destruct (words mc s (operands inst)) as [xs|] eqn:Ew; [|done].
    destruct (words_operands s inst xs Ew) as (_ & Rb & Rc & Rargs). cbn [mbind option_bind]. unfold exec_op. rewrite Op. cbn [i_op with_ops].
    destruct (const_word s _ v Ta K) as [-> _]; [by destruct Hop as [-> _]|]. cbn [mbind option_bind]. intros Hg.
    destruct (operands_words s (with_ops inst IR_JUMP (if negb (v =? 0) then i_b inst else i_c inst) none none)) as [ys ->];
      [by cbn; destruct (negb _)|done..|]. cbn [mbind option_bind].
    exists out. split; [done|]. revert Hg. unfold goes_to_block. destruct (o_kind (if negb (v =? 0) then _ else _)); try done.
    intros [= <-]. cbn. do 2 (split; [done|]). apply le_refl.
  - destruct Ht as [Ho Hr _ _]. split; [|exact Hr|apply Hop|done]. unfold operands in *. cbn. rewrite !Forall_cons in *.
    repeat split; try apply Ho. by destruct (negb _).
Qed.

(** ** Powers of two *)

Lemma shifts_to_one_log2 fuel v : 0 < v < 2 ^ Z.of_nat fuel -> shifts_to_one fuel v = Z.log2 v.
Proof.
  revert v. induction fuel as [|fuel IH]; intros v Hv; [cbn in Hv; lia|]. cbn [shifts_to_one].
  destruct (Z.gtb_spec v 1) as [Hgt|Hle]; [|by replace v with 1 by lia].
  assert (1 <= Z.log2 v) by (apply Z.log2_le_pow2; lia).
  rewrite Nat2Z.inj_succ, Z.pow_succ_r in Hv by lia.
  assert (0 < Z.shiftr v 1 < 2 ^ Z.of_nat fuel) as Hs.
  { rewrite Z.shiftr_div_pow2 by lia. change (2 ^ 1) with 2. split; [apply Z.div_str_pos; lia|apply Z.div_lt_upper_bound; lia]. }
  rewrite IH by done. rewrite Z.log2_shiftr by lia. lia.
Qed.

Lemma land_pred_zero v : 0 < v -> Z.land v (v - 1) = 0 -> v = 2 ^ Z.log2 v.
Proof.
  intros Hv H. destruct (Z.log2_spec v Hv) as [Hl Hu]. set (k := Z.log2 v) in *. pose proof (Z.log2_nonneg v) as Hk. fold k in Hk.
  destruct (Z.eq_dec v (2 ^ k)) as [|Hne]; [done|]. exfalso. apply (f_equal (fun z => Z.testbit z k)) in H.
  rewrite Z.land_spec, Z.bits_0 in H. assert (Z.testbit v k = true) as Hb by (apply Z.bit_log2; lia).
  assert (Z.testbit (v - 1) k = true) as Hb1; [|by rewrite Hb, Hb1 in H].
  rewrite Z.pow_succ_r in Hu by lia. assert (Z.log2 (v - 1) = k) as E by (apply Z.log2_unique; [lia|rewrite Z.pow_succ_r; lia]).
  rewrite <- E. apply Z.bit_log2. assert (0 < 2 ^ k) by (apply Z.pow_pos_nonneg; lia). lia.
Qed.

Lemma power_of_two_spec o : operand_typed mc types o -> power_of_two o > 0 ->
  exists k, power_of_two o = k /\ 0 < k < bits (o_type o) /\ o_kind o = IR_INT (2 ^ k).
Proof.
  intros Ho Hk. exists (power_of_two o). split; [done|]. revert Hk. unfold power_of_two, operand_typed in *.
  destruct (o_kind o) as [| |v| | | | |] eqn:K; try lia. pose proof (const_64 _ _ Ho) as H64.
  destruct (Z.ltb_spec v 2) as [|Hv]; [cbn [orb]; lia|]. destruct (Z.eqb_spec (Z.land v (v - 1)) 0) as [E|]; cbn [orb negb]; [|lia].
  rewrite shifts_to_one_log2 by (destruct H64; pow2s; cbn; lia). pose proof (land_pred_zero v ltac:(lia) E) as Ep. intros Hl.
  split; [|by rewrite <- Ep]. split; [lia|]. pose proof (bits_range (o_type o)) as Hn.
  destruct Ho as [[_ Ho]|[_ Ho]]; [by apply Z.log2_lt_pow2; [lia|]|].
  destruct (Z.lt_ge_cases (Z.log2 v) (bits (o_type o))) as [|Hge]; [done|exfalso].
  (* no power of two is that near to 2 ^ 64 *)
  assert (Z.log2 v < 64) as Hlt by (apply Z.log2_lt_pow2; [lia|apply H64]).
  assert (2 ^ Z.log2 v <= 2 ^ 63) as H63 by (apply Z.pow_le_mono_r; lia). rewrite <- Ep in H63.
  assert (2 ^ (bits (o_type o) - 1) < 2 ^ 63); [|pow2s; lia]. apply Z.pow_lt_mono_r; lia.
Qed.

(** ** The operands that [simplify] looks for *)

Lemma is_int_word s o v : is_int o v = true -> operand_typed mc types o ->
  v = 0 \/ v = 1 \/ v = UINT64_MAX -> word mc s o = Some (trim mc (o_type o) v).
Proof.
  unfold is_int. destruct (o_kind o) as [| |x| | | | |] eqn:K; try done. intros ->%Z.eqb_eq _ Hv.
  assert (in_width 64 v) as H64 by (destruct Hv as [-> |[-> | ->]]; split; pow2s; lia).
  rewrite (word_value s o _ (word_int s o _ K)). cbn. f_equal. destruct (target_sized (o_type o)) eqn:E.
  - unfold ir_fold_trim. by destruct (o_type o).
  - by rewrite (trim_fold _ _ E H64), trim_trim.
Qed.

Lemma trim_max type : trim mc type UINT64_MAX = 2 ^ bits type - 1.
Proof. pose proof (bits_range type). apply wrap_max. lia. Qed.

Lemma trim_01 type v : v = 0 \/ v = 1 -> trim mc type v = v.
Proof.
  intros H. apply machine_trim_small. pose proof (bits_range type). assert (2 ^ 1 < 2 ^ bits type) by (apply Z.pow_lt_mono_r; lia).
  change (2 ^ 1) with 2 in *. split; lia.
Qed.

(** The instruction becomes a copy of [o] whose word is the result. *)
Lemma simplify_copy inst o :
  inst_typed mc types inst -> is_integer_op (i_op inst) = true -> o_type (i_a inst) = i_type inst -> o_type o = i_type inst ->
  operand_typed mc types o ->
  (forall s x y, word mc s (i_a inst) = Some x -> word mc s (i_b inst) = Some y ->
    in_width (bits (i_type inst)) x ->
    exists w, word mc s o = Some w /\ forall r, integer_result (i_op inst) (bits (i_type inst)) x y = Some r -> r = w) ->
  below inst (make_copy inst o) /\ inst_typed mc types (make_copy inst o).
Proof.
  intros Ht Hi Ea Eo Ho H. split; [|by apply copy_typed; [apply Ht|apply Ht; by destruct (i_op inst)| |]]. apply copy_below; [by destruct (i_op inst)|apply Ht|].
  intros s m v. unfold result. rewrite Hi, Ea. destruct (word mc s (i_a inst)) as [x|] eqn:Wa; [|done].
  destruct (word mc s (i_b inst)) as [y|] eqn:Wb; [|done]. cbn [mbind option_bind].
  pose proof (word_width s _ x Wa) as Hx. rewrite Ea in Hx. destruct (H s x y Wa Wb Hx) as (w & Ww & Hr).
  destruct (integer_result _ _ x y) as [r|]; [|done]. intros [= <-]. specialize (Hr r eq_refl). subst r. unfold word in Ww.
  destruct (read_value mc s o) as [v'|]; [|done]. injection Ww as <-. exists v'. split; [done|]. by split.
Qed.
(** The instruction becomes another plain operation with the same result. *)
Lemma plain_below inst inst' :
  (forall s, is_Some (words mc s (operands inst)) -> is_Some (words mc s (operands inst'))) ->
  is_plain (i_op inst) = true -> is_plain (i_op inst') = true -> i_type inst' = i_type inst -> i_result inst' = i_result inst ->
  (forall s m v, result mc s m inst = Some v -> result mc s m inst' = Some v) -> below inst inst'.
Proof.
  intros Hw H H' Ety Er Hv s m out. rewrite !exec_is_plain by done. destruct (words mc s (operands inst)) as [xs|] eqn:Ew; [|done].
  destruct (Hw s) as [ys ->]; [by eauto|]. cbn [mbind option_bind]. unfold exec_plain.
  destruct (result mc s m inst) as [v|] eqn:E; [|done]. rewrite (Hv s m v E). cbn [mbind option_bind]. unfold define_result.
  rewrite Ety, Er. intros Hd. exists out. split; [done|]. destruct out as [s1 m1| |]; cbn.
  - split; [done|apply le_refl].
  - by destruct (i_result inst).
  - by destruct (i_result inst).
Qed.

Section Results.
Context (n : Z) (Hn : 8 <= n <= 64).

Lemma result_bits op y x : (meaning op n y (wrap n x) (wrap n y) (sint n x) (sint n y)) = IR_FOLDED (wrap n x) -> in_width n x ->
  integer_result op n x y = Some x.
Proof. intros H Hx. unfold integer_result. rewrite H. by rewrite wrap_small. Qed.

Lemma wrap_0 : wrap n 0 = 0.
Proof. apply wrap_small. split; [lia|apply Z.pow_pos_nonneg; lia]. Qed.

Lemma wrap_1 : wrap n 1 = 1.
Proof. apply wrap_small. assert (2 ^ 1 < 2 ^ n) by (apply Z.pow_lt_mono_r; lia). split; lia. Qed.

Lemma sint_1 : sint n 1 = 1.
Proof. apply sint_id; [lia|]. assert (2 ^ 1 < 2 ^ (n - 1)) by (apply Z.pow_lt_mono_r; lia). lia. Qed.

Lemma zero_right op x : in_width n x ->
  match op with IR_ADD | IR_SUB | IR_OR | IR_XOR | IR_SHL | IR_SHR_S | IR_SHR_U => true | _ => false end = true ->
  integer_result op n x 0 = Some x.
Proof.
  intros Hx Ho. apply result_bits; [|done]. assert (n <=? 0 = false) as En by (apply Z.leb_gt; lia).
  destruct op; try discriminate Ho; cbn [meaning]; rewrite ?En, ?wrap_0, ?Z.add_0_r, ?Z.sub_0_r, ?Z.lor_0_r, ?Z.lxor_0_r, ?Z.mul_1_r, ?Z.div_1_r;
    rewrite ?wrap_sint; f_equal; by rewrite ?(wrap_small n x), ?(wrap_small n x) by done.
Qed.

Lemma one_right op x : in_width n x -> match op with IR_MUL | IR_SDIV | IR_UDIV => true | _ => false end = true ->
  integer_result op n x 1 = Some x.
Proof.
  intros Hx Ho. apply result_bits; [|done]. destruct op; try discriminate Ho; cbn [meaning];
    rewrite ?wrap_1, ?sint_1, ?Z.mul_1_r, ?Z.quot_1_r, ?Z.div_1_r; cbn [Z.eqb andb]; rewrite ?andb_false_r, ?wrap_sint; f_equal;
    by rewrite !(wrap_small n x) by done.
Qed.

Lemma swapped op x y : is_commutative op = true -> is_integer_op op = true -> integer_result op n x y = integer_result op n y x.
Proof.
  intros Hc Hi. unfold integer_result. destruct op; try discriminate Hc; try discriminate Hi; cbn [meaning].
  - by rewrite Z.add_comm.
  - by rewrite Z.mul_comm.
  - by rewrite Z.land_comm.
  - by rewrite Z.lor_comm.
  - by rewrite Z.lxor_comm.
  - by rewrite Z.eqb_sym.
  - by rewrite Z.eqb_sym.
Qed.

Section Power.
Context (k : Z) (Hk : 0 < k < n).

Lemma power_width : in_width n (2 ^ k) /\ in_width n (2 ^ k - 1) /\ in_width n k /\ 0 < 2 ^ k.
Proof.
  assert (2 ^ k < 2 ^ n) by (apply Z.pow_lt_mono_r; lia). assert (0 < 2 ^ k) by (apply Z.pow_pos_nonneg; lia).
  assert (k < 2 ^ k) by (apply Z.pow_gt_lin_r; lia). repeat split; lia.
Qed.

Lemma times_power x : integer_result IR_MUL n x (2 ^ k) = integer_result IR_SHL n x k.
Proof.
  destruct power_width as (H & _). unfold integer_result. cbn [meaning]. rewrite (wrap_small n (2 ^ k)) by done.
  by destruct (Z.leb_spec n k); [lia|].
Qed.

Lemma divide_power x : integer_result IR_UDIV n x (2 ^ k) = integer_result IR_SHR_U n x k.
Proof.
  destruct power_width as (H & _ & _ & H0). unfold integer_result. cbn [meaning]. rewrite (wrap_small n (2 ^ k)) by done.
  destruct (Z.leb_spec n k); [lia|]. by destruct (Z.eqb_spec (2 ^ k) 0); [lia|].
Qed.

Lemma rest_power x : integer_result IR_UREM n x (2 ^ k) = integer_result IR_AND n x (2 ^ k - 1).
Proof.
  destruct power_width as (H & H1 & _ & H0). unfold integer_result. cbn [meaning].
  rewrite (wrap_small n (2 ^ k)), (wrap_small n (2 ^ k - 1)), land_mask by (done || lia). by destruct (Z.eqb_spec (2 ^ k) 0); [lia|].
Qed.
End Power.
End Results.

(** ** The instructions of [simplify] *)

(** The operation by a power of two becomes the operation [op'] by [z]. *)
Lemma power_below inst inst' op' k z :
  inst_typed mc types inst -> is_integer_op (i_op inst) = true -> is_integer_op op' = true ->
  o_type (i_a inst) = i_type inst -> o_type (i_b inst) = i_type inst ->
  match op' with IR_SHL | IR_SHR_U | IR_AND => true | _ => false end = true ->
  o_kind (i_b inst) = IR_INT (2 ^ k) -> 0 < k < bits (o_type (i_b inst)) ->
  (forall n x, 8 <= n <= 64 -> 0 < k < n -> integer_result (i_op inst) n x (2 ^ k) = integer_result op' n x z) ->
  (forall n, 8 <= n <= 64 -> 0 < k < n -> in_width n z) ->
  inst' = with_ops inst op' (i_a inst) (ir_int_op (i_type inst) z) (i_c inst) \/
  inst' = with_field (with_ops inst op' (i_a inst) (ir_int_op (i_type inst) z) (i_c inst)) 0 ->
  below inst inst' /\ inst_typed mc types inst'.
Proof.
  intros Ht Hi Hi' Ea Eb Hop' Kb Hk Hr Hz Hinst.
  destruct (typed_operands inst Ht) as (Ta & Tb & Tc). rewrite Eb in Hk. pose proof (bits_range (i_type inst)) as Hn.
  specialize (Hz _ Hn Hk). assert (in_width 64 z) as Hz64 by (apply (in_width_mono (bits (i_type inst))); [lia|done]).
  assert (Hread : exists x, o_kind (ir_int_op (i_type inst) z) = IR_INT x /\ o_type (ir_int_op (i_type inst) z) = i_type inst /\ x = z).
  { destruct (int_op_kind (i_type inst) z) as (x & Kx & Tx & Hx). exists x. split; [done|]. split; [done|]. rewrite Hx by done.
    destruct (target_sized (i_type inst)) eqn:E; [unfold ir_fold_trim; by destruct (i_type inst)|].
    rewrite ir_fold_trim_wrap, wrap_small by (rewrite <- ?(fixed_bits (mc := mc)) by done; done). done. }
  destruct Hread as (x & Kx & Tx & ->).
  assert (Ho : operand_typed mc types (ir_int_op (i_type inst) z)) by (unfold operand_typed; rewrite Kx, Tx; by left).
  assert (Hex : below inst (with_ops inst op' (i_a inst) (ir_int_op (i_type inst) z) (i_c inst)) /\
                below inst (with_field (with_ops inst op' (i_a inst) (ir_int_op (i_type inst) z) (i_c inst)) 0)).
  { assert (is_plain (i_op inst) = true) as Hp by (by destruct (i_op inst)). assert (is_plain op' = true) as Hp' by (by destruct op').
    split; (apply plain_below; [intros s [xs Hxs]; destruct (words_operands s inst xs Hxs) as (Ra & _ & Rc & Rargs);
      apply operands_words; cbn [i_a i_b i_c i_args with_ops with_field]; try done; unfold read; by rewrite Kx|done..|]); intros s m v; unfold result; cbn [i_op i_a i_b with_ops with_field]; rewrite Hi, Hi', Ea;
      destruct (word mc s (i_a inst)) as [y|]; try done; cbn [mbind option_bind];
      rewrite (word_value s _ _ (word_int s _ _ Kb)), (word_value s _ _ (word_int s _ _ Kx)), Tx, Eb; cbn [mbind option_bind v_word];
      destruct (power_width _ Hn k Hk) as (Hpw & _);
      rewrite (machine_trim_small mc _ (2 ^ k)), (machine_trim_small mc _ z) by done; by rewrite (Hr _ y Hn Hk). }
  assert (Ht' : forall i, i = with_ops inst op' (i_a inst) (ir_int_op (i_type inst) z) (i_c inst) \/
      i = with_field (with_ops inst op' (i_a inst) (ir_int_op (i_type inst) z) (i_c inst)) 0 -> inst_typed mc types i).
  { intros i Hi2. destruct Ht as [Ho1 Hr1 _ Hn1]. unfold operands in Ho1. rewrite !Forall_cons in Ho1.
    destruct Hi2 as [-> | ->]; (split; [unfold operands; cbn; rewrite !Forall_cons; tauto|exact Hr1| |intros _; apply Hn1; by destruct (i_op inst)]);
      unfold op_typed; cbn [i_op with_ops with_field]; destruct op'; try discriminate Hop'; by split. }
  split; [|by apply Ht']. destruct Hex as [H1 H2]. by destruct Hinst as [-> | ->].
Qed.

Lemma swap_below inst : inst_typed mc types inst -> is_commutative (i_op inst) = true ->
  below inst (with_ops inst (i_op inst) (i_b inst) (i_a inst) (i_c inst)) /\
  inst_typed mc types (with_ops inst (i_op inst) (i_b inst) (i_a inst) (i_c inst)).
Proof.
  intros Ht Hc. pose proof (it_op _ _ _ Ht) as Hop. assert (o_type (i_a inst) = o_type (i_b inst)) as Eab.
  { unfold op_typed in Hop. destruct (i_op inst); try discriminate Hc; destruct Hop as [E1 E2]; congruence. }
  split.
  - apply plain_below; try done; [|by destruct (i_op inst)..|].
    { intros s [xs Hxs]. destruct (words_operands s inst xs Hxs) as (Ra & Rb & Rc & Rargs). by apply operands_words. }
    intros s m v. unfold result.
    cbn [i_op i_a i_b i_c i_args with_ops]. rewrite Eab. destruct (is_integer_op (i_op inst)) eqn:Hi.
    + destruct (word mc s (i_a inst)) as [x|]; [|done]. destruct (word mc s (i_b inst)) as [y|]; [|done]. cbn [mbind option_bind].
      by rewrite swapped.
    + assert (is_float_op (i_op inst) = true) as Hf by (by destruct (i_op inst)).
      assert (Hm : (xs ← words mc s (operands inst); mc_other mc (shape inst) xs m) = Some v ->
        (xs ← words mc s (operands (with_ops inst (i_op inst) (i_b inst) (i_a inst) (i_c inst)));
         mc_other mc (shape (with_ops inst (i_op inst) (i_b inst) (i_a inst) (i_c inst))) xs m) = Some v).
      { assert (shape (with_ops inst (i_op inst) (i_b inst) (i_a inst) (i_c inst)) = shape inst) as ->.
        { unfold shape, hole. cbn. by rewrite Eab. }
        unfold operands. cbn [words i_a i_b i_c i_args with_ops]. destruct (read mc s (i_a inst)) as [x|]; [|done].
        destruct (read mc s (i_b inst)) as [y|]; [|done]. destruct (read mc s (i_c inst)) as [z|]; [|done].
        destruct (words mc s (i_args inst)) as [zs|]; [|done]. cbn [mbind option_bind]. rewrite float_swaps; [done|by destruct (i_op inst)|done]. }
      destruct (i_op inst); try discriminate Hc; try discriminate Hi; exact Hm.
  - destruct Ht as [Ho Hr _ Hn]. split; [|exact Hr| |exact Hn].
    + unfold operands in *. cbn. rewrite !Forall_cons in *. tauto.
    + unfold op_typed in *. cbn [i_op i_a i_b i_type with_ops]. destruct (i_op inst); try discriminate Hc; destruct Hop; by split; congruence.
Qed.
(** The block operand that both arms name. *)
Lemma branch_below inst : inst_typed mc types inst -> i_op inst = IR_BRANCH -> block_of (i_b inst) = block_of (i_c inst) ->
  below inst (with_ops inst IR_JUMP (i_b inst) none none) /\ inst_typed mc types (with_ops inst IR_JUMP (i_b inst) none none).
Proof.
  intros Ht Op Eb. split.
  - intros s m out. unfold exec_inst. destruct (words mc s (operands inst)) as [xs|] eqn:Ew; [|done].
    destruct (words_operands s inst xs Ew) as (_ & Rb & _ & Rargs).
    destruct (operands_words s (with_ops inst IR_JUMP (i_b inst) none none)) as [ys ->]; [done..|]. cbn [mbind option_bind].
    unfold exec_op. rewrite Op. cbn [i_op i_a with_ops]. destruct (word mc s (i_a inst)) as [x|]; [|done].
    cbn [mbind option_bind]. intros Hg. exists out. assert (goes_to_block (i_b inst) s m = Some out) as ->.
    { destruct (negb (x =? 0)); [done|]. revert Hg Eb. unfold goes_to_block, block_of. destruct (o_kind (i_c inst)); try done.
      destruct (o_kind (i_b inst)); try done. by intros ? [= ->]. }
    split; [done|]. revert Hg. unfold goes_to_block. destruct (o_kind _); try done. intros [= <-]. cbn. do 2 (split; [done|]). apply le_refl.
  - destruct Ht as [Ho Hr Hop _]. unfold op_typed in Hop. rewrite Op in Hop. split; [|exact Hr|apply Hop|done].
    unfold operands in *. cbn. rewrite !Forall_cons in *. by destruct Ho as (_ & ? & _ & ?).
Qed.

Lemma simplify_below inst inst' : inst_typed mc types inst -> simplify inst = Some inst' -> below inst inst' /\ inst_typed mc types inst'.
Proof.
  intros Ht. unfold simplify. pose proof (it_op _ _ _ Ht) as Hop. destruct (typed_operands inst Ht) as (Ta & Tb & _).
  pose proof (bits_range (i_type inst)) as Hn.
  destruct (is_commutative (i_op inst) && _ && _) eqn:Hs.
  { intros [= <-]. apply andb_true_iff in Hs as [[Hc _]%andb_true_iff _]. by apply swap_below. }
  unfold op_typed in Hop.
  assert (Hzero : match i_op inst with IR_ADD | IR_SUB | IR_OR | IR_XOR | IR_SHL | IR_SHR_S | IR_SHR_U => true | _ => false end = true ->
    (if is_int (i_b inst) 0 then Some (make_copy inst (i_a inst)) else None) = Some inst' -> below inst inst' /\ inst_typed mc types inst').
  { intros Ho. destruct (is_int (i_b inst) 0) eqn:Ei; [|done]. intros [= <-].
    assert (o_type (i_a inst) = i_type inst /\ o_type (i_b inst) = i_type inst) as [Ea Eb] by (by destruct (i_op inst)).
    apply simplify_copy; try done; [by destruct (i_op inst)|]. intros s x y Hx Hy Hw. exists x. split; [done|].
    rewrite (is_int_word s _ 0 Ei Tb), trim_01 in Hy by auto. injection Hy as <-. rewrite zero_right by done. by intros r [= <-]. }
  assert (Hone : match i_op inst with IR_MUL | IR_SDIV | IR_UDIV => true | _ => false end = true ->
    is_int (i_b inst) 1 = true -> below inst (make_copy inst (i_a inst)) /\ inst_typed mc types (make_copy inst (i_a inst))).
  { intros Ho Ei. assert (o_type (i_a inst) = i_type inst /\ o_type (i_b inst) = i_type inst) as [Ea Eb] by (by destruct (i_op inst)).
    apply simplify_copy; try done; [by destruct (i_op inst)|]. intros s x y Hx Hy Hw. exists x. split; [done|].
    rewrite (is_int_word s _ 1 Ei Tb), trim_01 in Hy by auto. injection Hy as <-. rewrite one_right by done. by intros r [= <-]. }
  assert (Hnull : match i_op inst with IR_MUL | IR_AND => true | _ => false end = true ->
    is_int (i_b inst) 0 = true -> below inst (make_copy inst (i_b inst)) /\ inst_typed mc types (make_copy inst (i_b inst))).
  { intros Ho Ei. assert (o_type (i_a inst) = i_type inst /\ o_type (i_b inst) = i_type inst) as [Ea Eb] by (by destruct (i_op inst)).
    apply simplify_copy; try done; [by destruct (i_op inst)|]. intros s x y Hx Hy Hw. exists y. split; [done|].
    rewrite (is_int_word s _ 0 Ei Tb), trim_01 in Hy by auto. injection Hy as <-. unfold integer_result.
    destruct (i_op inst); try discriminate Ho; cbn [meaning]; rewrite wrap_0, ?Z.mul_0_r, ?Z.land_0_r, wrap_0 by done; by intros r [= <-]. }
  assert (Hmax : i_op inst = IR_AND -> is_int (i_b inst) UINT64_MAX = true ->
    below inst (make_copy inst (i_a inst)) /\ inst_typed mc types (make_copy inst (i_a inst))).
  { intros Op Ei. rewrite Op in Hop. destruct Hop as [Ea Eb]. apply simplify_copy; try done; [by rewrite Op|].
    intros s x y Hx Hy Hw. exists x. split; [done|]. rewrite (is_int_word s _ UINT64_MAX Ei Tb) in Hy by auto. injection Hy as <-.
    rewrite Eb, trim_max, Op. unfold integer_result. cbn [meaning].
    assert (in_width (bits (i_type inst)) (2 ^ bits (i_type inst) - 1)) by (split; [|lia]; assert (0 < 2 ^ bits (i_type inst)) by (apply Z.pow_pos_nonneg; lia); lia).
    rewrite (wrap_small _ (2 ^ bits (i_type inst) - 1)), land_mask by (done || lia). fold (wrap (bits (i_type inst)) (wrap (bits (i_type inst)) x)).
    rewrite !(wrap_small _ x) by done. by intros r [= <-]. }
  pose proof (fun op' k z => power_below inst inst' op' k z Ht) as Hpow.
  assert (Hp : power_of_two (i_b inst) >? 0 = true -> exists k, power_of_two (i_b inst) = k /\ 0 < k < bits (o_type (i_b inst)) /\ o_kind (i_b inst) = IR_INT (2 ^ k)).
  { intros H. apply Z.gtb_lt, Z.lt_gt in H. by apply power_of_two_spec. }
  destruct (i_op inst) eqn:Op; try (by intros H); try (by apply Hzero).
  - destruct (is_int (i_b inst) 0); [intros [= <-]; by apply Hnull|]. destruct (is_int (i_b inst) 1); [intros [= <-]; by apply Hone|].
    destruct (power_of_two (i_b inst) >? 0); [|done]. destruct (Hp eq_refl) as (k & -> & Hk & Kb). intros [= <-]. destruct Hop as [Ea Eb].
    apply (Hpow IR_SHL k k); try done; [|intros n Hn' Hk'; by apply power_width|by right]. intros n x Hn' Hk'. by apply times_power.
  - destruct (is_int (i_b inst) 1); [intros [= <-]; by apply Hone|]. rewrite bool_decide_false by done. done.
  - destruct (is_int (i_b inst) 1); [intros [= <-]; by apply Hone|]. rewrite bool_decide_true by done.
    destruct (power_of_two (i_b inst) >? 0); [|done]. destruct (Hp eq_refl) as (k & -> & Hk & Kb). intros [= <-]. destruct Hop as [Ea Eb].
    apply (Hpow IR_SHR_U k k); try done; [|intros n Hn' Hk'; by apply power_width|by left]. intros n x Hn' Hk'. by apply divide_power.
  - destruct (power_of_two (i_b inst) >? 0); [|done]. destruct (Hp eq_refl) as (k & _ & Hk & Kb). unfold as_bits. rewrite Kb.
    intros [= <-]. destruct Hop as [Ea Eb].
    apply (Hpow IR_AND k (2 ^ k - 1)); try done; [|intros n Hn' Hk'; by destruct (power_width n Hn' k Hk') as (_ & ? & _)|by left]. intros n x Hn' Hk'. by apply rest_power.
  - destruct (is_int (i_b inst) 0); [intros [= <-]; by apply Hnull|].
    destruct (is_int (i_b inst) UINT64_MAX); [intros [= <-]; by apply Hmax|done].
  - case_bool_decide; [|done]. intros [= <-]. by apply branch_below.
Qed.
End Local.
