(* ===== verification/OptimizeBlock.v ===== *)
(** * OptimizeBlock: the passes over one block at a time

    What a well-formed function is, how a block runs in two states, and how a rewriting
    of each block by itself carries over to the function. Folding is the first of them. *)

From S2P Require Import Prelude Arith Ir IrFold IrVerify IrDefinitions IrSem FloatSem Optimize IrSim OptimizeLocal.

(** ** Well-formed functions *)

(** A terminator is the last instruction of its block. *)
Definition ends (insts : list ir_inst) : Prop :=
  forall k inst, insts !! k = Some inst -> is_terminator (i_op inst) = true -> S k = length insts.

Section Block.
Context {M : Type} (mc : machine M) `{!Lawful mc} `{!IeeeFloats mc}.

(** What the builders of the IR and its check give: operands and results have the
    types of their temporaries, the parameters are the first temporaries. *)
Record well_formed (f : ir_function) : Prop := {
  wf_typed : Forall (Forall (inst_typed mc (fn_temps f))) (fn_blocks f);
  wf_params : map pr_temp (fn_params f) = seq 0 (length (fn_params f));
  wf_ends : Forall ends (fn_blocks f)
}.

Section Types.
Context (types : list ir_type).
Notation typed := (inst_typed mc types).
Notation lt := (le mc types).
Notation nowhere := (fun _ : nat => False).

(** ** One block in two states *)

Lemma alike_refl D s s' inst : typed inst -> (forall t, t ∈ reads inst -> ~ D t) -> lt D s s' -> alike mc (fun b => b) s s' inst inst.
Proof.
  intros [Ho _ _ _] Hd L. split; try done. apply Forall2_same_length_lookup. split; [done|]. intros i o o' Hi Hi'. simplify_eq.
  apply (read_below mc types D); [by eapply Forall_lookup_1| |done]. intros t Ht. apply Hd. unfold reads.
  apply list_elem_of_omap. exists o. split; [by eapply list_elem_of_lookup_2|done].
Qed.

Lemma define_alike D s s' inst inst' v v' s1 s1' :
  i_result inst' = i_result inst -> i_type inst' = i_type inst -> (forall r, i_result inst = Some r -> types !! r = Some (i_type inst)) ->
  le_opt v v' -> lt D s s' -> define_result mc s inst v = Some s1 -> define_result mc s' inst' v' = Some s1' ->
  lt (fun t => D t /\ i_result inst <> Some t) s1 s1'.
Proof.
  intros Er Ety Ht L Ls. unfold define_result. rewrite Er, Ety. destruct (i_result inst) as [r|].
  - destruct v as [v|], v' as [v'|]; try done. intros [= <-] [= <-] t w Hd. destruct (decide (t = r)) as [->|Hne].
    + rewrite !lookup_insert_eq. intros [= <-]. eexists. split; [done|]. unfold type_at. rewrite (Ht r eq_refl). cbn.
      destruct L as [Ew Ef]. split; [by cbn; rewrite Ew|done].
    + rewrite !lookup_insert_ne by done. apply Ls. intros HD. apply Hd. split; [done|congruence].
  - intros [= <-] [= <-]. eapply le_weaken; [|exact Ls]. intros t Ht'. by split.
Qed.

Lemma exec_inst_mono D inst s s' m out :
  typed inst -> (forall t, t ∈ reads inst -> ~ D t) -> lt D s s' -> exec_inst mc s m inst = Some out ->
  exists out', exec_inst mc s' m inst = Some out' /\
    match out, out' with
    | Next s1 m1, Next s1' m1' => m1 = m1' /\ lt (fun t => D t /\ i_result inst <> Some t) s1 s1'
    | Goes b s1 m1, Goes b' s1' m1' => b = b' /\ m1 = m1' /\ s1 = s /\ s1' = s'
    | Returns x m1, Returns x' m1' => x = x' /\ m1 = m1'
    | _, _ => False
    end.
Proof.
  intros Ht Hd L E. pose proof (exec_inst_alike mc _ _ _ _ _ _ _ (alike_refl D s s' inst Ht Hd L) E) as H.
  destruct out as [s1 m1|b s1 m1|x m1]; cbn in H.
  - destruct H as (v & v' & s1' & E1 & Lv & E2 & E3). eexists. split; [exact E3|]. split; [done|].
    eapply define_alike; [done|done|apply Ht|exact Lv|exact L|exact E1|exact E2].
  - destruct H as (-> & -> & E3). eexists. split; [exact E3|]. done.
  - eexists. split; [exact H|]. done.
Qed.

(** A block whose instructions read nothing of [D]. *)
Lemma block_mono D insts : Forall typed insts -> (forall inst t, inst ∈ insts -> t ∈ reads inst -> ~ D t) ->
  block_below mc types D insts insts.
Proof.
  intros Ht. induction Ht as [|inst insts Hi _ IH]; intros Hd s s' m out L; cbn [exec_block]; [done|].
  destruct (exec_inst mc s m inst) as [out1|] eqn:E; [|done].
  destruct (exec_inst_mono D inst s s' m out1 Hi) as (out2 & E2 & H); [intros t Hr; apply (Hd inst t); [by left|done]|done|done|]. rewrite E2.
  destruct out1 as [s1 m1|b s1 m1|x m1], out2 as [s2 m2|b2 s2 m2|x2 m2]; try done.
  - destruct H as [<- L1]. apply IH; [intros i t Hin; apply (Hd i t); by right|]. eapply le_weaken; [|exact L1]. by intros t [].
  - intros [= <-]. destruct H as (<- & <- & -> & ->). eexists. split; [done|]. by split.
  - intros [= <-]. destruct H as [<- <-]. eexists. by split.
Qed.

Lemma le_outcome_refl out : le_outcome mc types nowhere out out.
Proof. destruct out; cbn; repeat split; apply le_refl. Qed.

Lemma le_outcome_trans o1 o2 o3 : le_outcome mc types nowhere o1 o2 -> le_outcome mc types nowhere o2 o3 -> le_outcome mc types nowhere o1 o3.
Proof.
  destruct o1, o2, o3; cbn; try done.
  - intros (-> & ?) (-> & ?). split; [done|]. by eapply le_trans.
  - intros (-> & -> & ?) (-> & -> & ?). do 2 (split; [done|]). by eapply le_trans.
  - intros (-> & ->) (-> & ->). done.
Qed.

Lemma exec_goes s m inst b s1 m1 : exec_inst mc s m inst = Some (Goes b s1 m1) -> s1 = s /\ m1 = m.
Proof.
  intros E. assert (A : alike mc (fun b => b) s s inst inst).
  { split; try done. apply Forall2_same_length_lookup. split; [done|]. intros i o o' Hi Hi'. simplify_eq. apply read_le_refl. }
  pose proof (exec_inst_alike mc _ _ _ _ _ _ _ A E) as H. cbn in H. tauto.
Qed.

Lemma exec_goes_on s m inst o : is_terminator (i_op inst) = false -> exec_inst mc s m inst = Some o -> exists s1 m1, o = Next s1 m1.
Proof.
  intros Ht. unfold exec_inst. destruct (words mc s (operands inst)) as [xs|]; [|done]. cbn [mbind option_bind].
  assert (He : exec_effect mc s m inst = Some o -> exists s1 m1, o = Next s1 m1).
  { unfold exec_effect. destruct (words mc s (operands inst)); [|done]. cbn [mbind option_bind].
    destruct (mc_effect _ _ _ _) as [[x m']|]; [|done]. destruct (define_result _ _ _ _); [|done]. intros [= <-]. by eexists _, _. }
  assert (Hp : exec_plain mc s m inst = Some o -> exists s1 m1, o = Next s1 m1).
  { unfold exec_plain. destruct (result mc s m inst); [|done]. cbn [mbind option_bind]. destruct (define_result _ _ _ _); [|done].
    intros [= <-]. by eexists _, _. }
  unfold exec_op. destruct (i_op inst); try discriminate Ht; try exact He; try exact Hp.
  destruct (word _ _ (i_a inst)); [|done]. destruct (word _ _ (i_b inst)); [|done]. cbn [mbind option_bind].
  destruct (mc_store _ _ _ _ _); [|done]. cbn [mbind option_bind]. destruct (define_result _ _ _ _); [|done]. intros [= <-]. by eexists _, _.
Qed.

Lemma exec_terminates s m inst s1 m1 : is_terminator (i_op inst) = true -> exec_inst mc s m inst <> Some (Next s1 m1).
Proof.
  intros Ht E. unfold exec_inst in E. destruct (words mc s (operands inst)) as [xs|]; [|done]. cbn [mbind option_bind] in E.
  assert (Hg : forall o, goes_to_block o s m <> Some (Next s1 m1)) by (intros o; unfold goes_to_block; by destruct (o_kind o)).
  unfold exec_op in E. destruct (i_op inst); try discriminate Ht.
  - by apply Hg in E.
  - destruct (word mc s (i_a inst)); [by apply Hg in E|done].
  - destruct (read_value mc s (i_a inst)) as [v|]; [|done]. cbn [mbind option_bind] in E. destruct (v_flags v); [by apply Hg in E|done].
  - by destruct (read mc s (i_a inst)).
  - done.
Qed.

(** ** Rewriting each instruction of a block *)

(** The rewritten instructions do at least what the instructions did in the states
    that [I] allows, an invariant that each step keeps. *)
Section Rewrite.
Context {S : Type} (K : S -> Prop) (I : S -> temps -> M -> Prop) (rewrite_inst : S -> ir_inst -> ir_inst * S).

Fixpoint rewrite_all (k : S) (insts : list ir_inst) : list ir_inst :=
  match insts with
  | [] => []
  | inst :: rest => (rewrite_inst k inst).1 :: rewrite_all (rewrite_inst k inst).2 rest
  end.

Definition step_below (k : S) (inst inst' : ir_inst) (k' : S) : Prop :=
  forall s m o, I k s m -> exec_inst mc s m inst = Some o ->
    (exists o', exec_inst mc s m inst' = Some o' /\ le_outcome mc types nowhere o o') /\
    match o with Next s1 m1 => I k' s1 m1 | _ => True end.

Context (Hstep : forall k inst, K k -> typed inst ->
  typed (rewrite_inst k inst).1 /\ K (rewrite_inst k inst).2 /\ step_below k inst (rewrite_inst k inst).1 (rewrite_inst k inst).2).

Lemma rewrite_all_typed k insts : K k -> Forall typed insts -> Forall typed (rewrite_all k insts).
Proof.
  intros HK H. revert k HK. induction H as [|inst insts Hi _ IH]; intros k HK; cbn; [constructor|].
  destruct (Hstep k inst HK Hi) as (Ht & HK' & _). constructor; [done|by apply IH].
Qed.

Lemma rewrite_all_below k insts s m out :
  Forall typed insts -> K k -> I k s m -> exec_block mc s m insts = Some out ->
  exists out', exec_block mc s m (rewrite_all k insts) = Some out' /\ le_outcome mc types nowhere out out' /\
    match out with Goes _ s1 m1 => exists k', I k' s1 m1 | _ => True end.
Proof.
  intros H. revert k s m. induction H as [|inst insts Hi Hall IH]; intros k s m HK HI; [done|]. cbn [rewrite_all].
  destruct (Hstep k inst HK Hi) as (Ht' & HK' & Hex). revert Ht' HK' Hex. generalize (rewrite_inst k inst).1, (rewrite_inst k inst).2.
  intros inst' k' Ht' HK' Hex. cbn [exec_block]. destruct (exec_inst mc s m inst) as [o|] eqn:E; [|done].
  destruct (Hex s m o HI E) as [(o' & E' & L) HI'].
  rewrite E'. destruct o as [s1 m1|b s1 m1|x m1], o' as [s2 m2|b2 s2 m2|x2 m2]; try done.
  - intros Hout. destruct (IH k' s1 m1 HK' HI' Hout) as (out1 & E1 & L1 & HI1). cbn in L. destruct L as [<- Ls].
    destruct (block_mono nowhere (rewrite_all k' insts) (rewrite_all_typed k' insts HK' Hall) (fun _ _ _ _ H => H) s1 s2 m1 out1 Ls E1) as (out2 & E2 & L2).
    exists out2. split; [done|]. split; [by eapply le_outcome_trans|done].
  - intros [= <-]. eexists. split; [done|]. split; [done|]. exists k. by destruct (exec_goes _ _ _ _ _ _ E) as [-> ->].
  - intros [= <-]. by eexists.
Qed.
End Rewrite.

(** A block that does at least as much in every state is below in the order. *)
Lemma block_below_same insts insts' :
  Forall typed insts' ->
  (forall s m out, exec_block mc s m insts = Some out ->
    exists out', exec_block mc s m insts' = Some out' /\ le_outcome mc types nowhere out out') ->
  block_below mc types nowhere insts insts'.
Proof.
  intros Ht H s s' m out L E. destruct (H s m out E) as (out1 & E1 & L1).
  destruct (block_mono nowhere insts' Ht (fun _ _ _ _ H => H) s s' m out1 L E1) as (out2 & E2 & L2). exists out2. split; [done|].
  by eapply le_outcome_trans.
Qed.

(** ** Steps *)

Lemma alike_below s m inst inst' o :
  typed inst -> alike mc (fun b => b) s s inst inst' -> i_result inst' = i_result inst -> exec_inst mc s m inst = Some o ->
  exists o', exec_inst mc s m inst' = Some o' /\ le_outcome mc types nowhere o o'.
Proof.
  intros Ht A Er E. pose proof (exec_inst_alike mc _ _ _ _ _ _ _ A E) as H. destruct o as [s1 m1|b s1 m1|x m1]; cbn in H.
  - destruct H as (v & v' & s1' & E1 & Lv & E2 & E3). eexists. split; [exact E3|]. split; [done|].
    eapply le_weaken; [|eapply (define_alike nowhere s s inst inst' v v'); [done|by apply A|apply Ht|done|apply le_refl|done|done]].
    by intros t [].
  - destruct H as (-> & -> & E3). eexists. split; [exact E3|]. cbn. do 2 (split; [done|]). apply le_refl.
  - eexists. split; [exact H|]. done.
Qed.

(** The state after an instruction; a copy gives its operand. *)
Lemma exec_next s m inst s1 m1 : exec_inst mc s m inst = Some (Next s1 m1) -> exists v, define_result mc s inst v = Some s1 /\
  (i_op inst = IR_COPY -> exists w, v = Some w /\ read_value mc s (i_a inst) = Some w).
Proof.
  intros E. assert (A : alike mc (fun b => b) s s inst inst).
  { split; try done. apply Forall2_same_length_lookup. split; [done|]. intros i o o' Hi Hi'. simplify_eq. apply read_le_refl. }
  pose proof (exec_inst_alike mc _ _ _ _ _ _ _ A E) as H. cbn in H. destruct H as (v & _ & _ & E1 & _).
  destruct (decide (i_op inst = IR_COPY)) as [Op|Op]; [|by exists v].
  unfold exec_inst in E. destruct (words mc s (operands inst)); [|done]. cbn [mbind option_bind] in E. unfold exec_op in E.
  rewrite Op in E. cbn [has_effect] in E. unfold exec_plain, result in E. rewrite Op in E. cbn [is_integer_op] in E.
  destruct (read_value mc s (i_a inst)) as [w|] eqn:Ew; [|done]. cbn [mbind option_bind] in E. exists (Some w).
  destruct (define_result mc s inst (Some w)) as [s2|] eqn:Ed; [|done]. injection E as -> _. split; [done|]. intros _. by exists w.
Qed.

(** What an instruction leaves of the other temporaries. *)
Lemma define_other s inst v s1 t : define_result mc s inst v = Some s1 -> i_result inst <> Some t -> s1 !! t = s !! t.
Proof.
  unfold define_result. destruct (i_result inst) as [r|]; [|by intros [= <-]]. destruct v; [|done]. intros [= <-] Hne.
  rewrite lookup_insert_ne; [done|congruence].
Qed.

Lemma read_other s inst v s1 o : define_result mc s inst v = Some s1 -> is_result o (i_result inst) = false -> read mc s1 o = read mc s o.
Proof.
  intros Hd Hne. unfold read. destruct (o_kind o) as [|t| | | | | |] eqn:K; try done.
  rewrite (define_other s inst v s1 t Hd); [done|]. intros E. unfold is_result, is_temp in Hne. rewrite E, K in Hne.
  by apply Nat.eqb_neq in Hne.
Qed.
End Types.

(** ** The folding of a function *)

Lemma typed_block f b : well_formed f -> Forall (inst_typed mc (fn_temps f)) (body f b).
Proof.
  intros [H _ _]. unfold body. destruct (fn_blocks f !! b) as [insts|] eqn:E; cbn; [by eapply Forall_lookup_1|constructor].
Qed.

Lemma body_map g f b : g [] = [] -> body (with_blocks f (map g (fn_blocks f))) b = g (body f b).
Proof. intros Hg. unfold body. cbn. rewrite list_lookup_fmap. by destruct (fn_blocks f !! b). Qed.

(** A pass that maps the blocks. *)
Lemma map_blocks_refines g f :
  g [] = [] -> well_formed f ->
  (forall insts, insts ∈ fn_blocks f -> Forall (inst_typed mc (fn_temps f)) insts -> ends insts ->
    Forall (inst_typed mc (fn_temps f)) (g insts) /\ ends (g insts) /\
    forall s m out, exec_block mc s m insts = Some out ->
      exists out', exec_block mc s m (g insts) = Some out' /\ le_outcome mc (fn_temps f) (fun _ => False) out out') ->
  well_formed (with_blocks f (map g (fn_blocks f))) /\ refines mc f (with_blocks f (map g (fn_blocks f))).
Proof.
  intros Hg Hf H. destruct Hf as [Ht Hp He].
  assert (forall insts, insts ∈ fn_blocks f -> Forall (inst_typed mc (fn_temps f)) insts /\ ends insts) as Hall.
  { rewrite Forall_forall in Ht, He. auto. }
  split.
  - split; [|done|]; apply Forall_fmap, Forall_forall; intros insts Hin;
      destruct (Hall insts Hin) as [Ha Hb]; by destruct (H insts Hin Ha Hb) as (? & ? & _).
  - apply (lockstep mc (fn_temps f) (fun _ => False)); [done|]. intros b. rewrite body_map by done. unfold body.
    destruct (fn_blocks f !! b) as [insts|] eqn:E; cbn.
    + apply list_elem_of_lookup_2 in E. destruct (Hall insts E) as [Ha Hb]. destruct (H insts E Ha Hb) as (Hc & _ & Hd). by apply block_below_same.
    + rewrite Hg. intros s s' m out _ Hx. discriminate Hx.
Qed.

(** Instructions rewritten one by one that stay terminators or none keep their order. *)
Lemma ends_rewritten insts insts' : ends insts -> length insts' = length insts ->
  (forall k inst inst', insts !! k = Some inst -> insts' !! k = Some inst' -> is_terminator (i_op inst') = true -> is_terminator (i_op inst) = true) ->
  ends insts'.
Proof.
  intros H El Hk k inst' Hi Ht. destruct (lookup_lt_is_Some_2 insts k) as [inst E]; [rewrite <- El; by eapply lookup_lt_Some|].
  rewrite El. by apply (H k inst); [|apply (Hk k inst inst')].
Qed.

Lemma fold_constant_terminator inst inst' : fold_constant inst = Some inst' -> is_terminator (i_op inst') = true -> is_terminator (i_op inst) = true.
Proof.
  unfold fold_constant. destruct (i_op inst) eqn:Op; try done;
    (destruct (fold_inst inst); [|done]); intros H; apply (inj Some) in H; subst inst'; done.
Qed.

(** A pass that rewrites instructions one by one, each to one that does what it did. *)
Lemma rewrite_insts_refines g f :
  (forall inst inst', g inst = Some inst' -> is_terminator (i_op inst') = true -> is_terminator (i_op inst) = true) ->
  (forall inst inst', inst_typed mc (fn_temps f) inst -> g inst = Some inst' -> below mc (fn_temps f) inst inst' /\ inst_typed mc (fn_temps f) inst') ->
  well_formed f -> well_formed (rewrite_insts g f).1 /\ refines mc f (rewrite_insts g f).1.
Proof.
  intros Hterm Hg Hf. unfold rewrite_insts. cbn [fst]. apply map_blocks_refines; [done|done|]. intros insts _ Ht He.
  assert (Hd : forall inst, inst_typed mc (fn_temps f) inst -> below mc (fn_temps f) inst (default inst (g inst)) /\ inst_typed mc (fn_temps f) (default inst (g inst))).
  { intros inst Hi. destruct (g inst) as [inst'|] eqn:E; [by apply Hg|]. cbn. split; [by apply below_refl|done]. }
  split; [|split].
  - apply Forall_fmap. eapply Forall_impl; [exact Ht|]. intros inst Hi. by apply Hd.
  - apply (ends_rewritten insts); [done|by rewrite length_map|]. intros k inst inst' E E'. rewrite list_lookup_fmap, E in E'.
    injection E' as <-. destruct (g inst) eqn:Eg; [|done]. by apply Hterm.
  - intros s m out E.
    assert (map (fun inst => default inst (g inst)) insts = rewrite_all (fun _ inst => (default inst (g inst), tt)) tt insts) as ->.
    { generalize insts. intros l. induction l as [|inst l IH]; cbn; [done|]. by rewrite IH. }
    destruct (rewrite_all_below (fn_temps f) (fun _ => True) (fun _ _ _ => True) (fun _ inst => (default inst (g inst), tt)))
      with (k := tt) (insts := insts) (s := s) (m := m) (out := out) as (out' & E' & L & _); try done; [|by exists out'].
    intros k inst _ Hi. cbn. destruct (Hd inst Hi) as [Hb Ht']. split; [done|]. split; [done|]. intros s1 m1 o _ Eo. split; [by apply Hb|by destruct o].
Qed.

Lemma fold_constants_refines f : well_formed f -> well_formed (fold_constants f).1 /\ refines mc f (fold_constants f).1.
Proof. apply rewrite_insts_refines; [apply fold_constant_terminator|]. intros inst inst'. by apply fold_constant_below. Qed.
End Block.
