(* ===== verification/OptimizeCopies.v ===== *)
(** * OptimizeCopies: the propagation of copies inside a block

    A use of a temporary reads what the temporary was copied from. What the pass knows
    at an instruction is true in the state of every run that comes there. *)

From S2P Require Import Prelude Arith Ir IrFold IrVerify IrDefinitions IrSem FloatSem Optimize IrSim OptimizeLocal OptimizeBlock.

Section Copies.
Context {M : Type} (mc : machine M) `{!Lawful mc} `{!IeeeFloats mc}.

Section Types.
Context (types : list ir_type).
Notation typed := (inst_typed mc types).

(** ** Copies inside a block *)

(** The known values have the types of their temporaries. *)
Definition known_typed (known : gmap nat ir_operand) : Prop :=
  forall t v, known !! t = Some v -> operand_typed mc types v /\ types !! t = Some (o_type v).

(** A temporary holds the value it is known to have. *)
Definition known_holds (known : gmap nat ir_operand) (s : temps) (_ : M) : Prop :=
  forall t v x, known !! t = Some v -> s !! t = Some x -> exists y, read mc s v = Some (Some y) /\ le_value (trim_value mc (o_type v) x) y.

Definition substitute (known : gmap nat ir_operand) (o : ir_operand) : ir_operand := default o (known_at known o).

Lemma substitute_typed known o : known_typed known -> operand_typed mc types o -> operand_typed mc types (substitute known o) /\
  o_type (substitute known o) = o_type o.
Proof.
  intros HK Ho. unfold substitute, known_at. destruct (o_kind o) as [|t| | | | | |] eqn:K; try done.
  destruct (known !! t) as [v|] eqn:E; [|done]. cbn. destruct (HK t v E) as [Hv Ht]. split; [done|].
  unfold operand_typed in Ho. rewrite K in Ho. congruence.
Qed.

Lemma substitute_reads known s m o :
  known_typed known -> known_holds known s m -> operand_typed mc types o -> read_le mc s s o (substitute known o).
Proof.
  intros HK HI Ho. destruct (substitute_typed known o HK Ho) as [_ Ety]. split; [done|]. intros x.
  unfold substitute, known_at in *. destruct (o_kind o) as [|t| | | | | |] eqn:K; try (intros Hx; by exists x).
  destruct (known !! t) as [v|] eqn:E; cbn in *; [|by intros Hx; exists x]. unfold read at 1. rewrite K.
  destruct (s !! t) as [w|] eqn:Ew; [|done]. cbn. intros [= <-]. destruct (HI t v w E Ew) as (y & Ey & L).
  exists (Some y). split; [done|]. cbn. by rewrite <- Ety.
Qed.

Lemma map_operands_alike (g : ir_operand -> ir_operand) s inst :
  (forall o, o ∈ operands inst -> read_le mc s s o (g o)) -> (forall o b, o_kind o = IR_BLOCK b -> o_kind (g o) = IR_BLOCK b) ->
  alike mc (fun b => b) s s inst (map_operands g inst).
Proof.
  intros Hr Hb. split; try done.
  - unfold operands in *. cbn. repeat (constructor; [apply Hr; repeat constructor|]).
    apply Forall2_same_length_lookup. split; [by rewrite length_map|]. intros i o o' Ho Ho'. rewrite list_lookup_fmap, Ho in Ho'.
    injection Ho' as <-. apply Hr. do 3 right. by eapply list_elem_of_lookup_2.
  - intros _ b. cbn. auto.
Qed.

Lemma map_operands_typed g inst :
  (forall o, operand_typed mc types o -> operand_typed mc types (g o) /\ o_type (g o) = o_type o) -> typed inst -> typed (map_operands g inst).
Proof.
  intros Hg [Ho Hr Hop Hn]. split; [|exact Hr| |exact Hn].
  - unfold operands in *. cbn. rewrite !Forall_cons in *. destruct Ho as (Ha & Hb & Hc & Hargs).
    split; [by apply Hg|]. split; [by apply Hg|]. split; [by apply Hg|]. apply Forall_fmap. eapply Forall_impl; [exact Hargs|].
    intros o H. by apply Hg.
  - unfold operands in Ho. rewrite !Forall_cons in Ho. destruct Ho as (Ha & Hb & _). unfold op_typed in *. cbn.
    destruct (Hg _ Ha) as [_ ->]. destruct (Hg _ Hb) as [_ ->]. done.
Qed.

Lemma propagate_step known inst : known_typed known -> typed inst ->
  let inst' := map_operands (substitute known) inst in
  typed inst' /\ known_typed (known_after known inst') /\ step_below mc types known_holds known inst inst' (known_after known inst').
Proof.
  intros HK Ht inst'. assert (Ht' : typed inst').
  { apply map_operands_typed; [|done]. intros o. by apply substitute_typed. }
  split; [done|]. split.
  - clearbody inst'. intros t v. unfold known_after. destruct (i_result inst') as [r|] eqn:Er; [|apply HK].
    set (kept := filter _ known). assert (Hkept : kept !! t = Some v -> known !! t = Some v) by (by intros [H _]%map_lookup_filter_Some).
    destruct (bool_decide (i_op inst' = IR_COPY) && _ && _) eqn:Ec; [|intros H; by apply HK, Hkept].
    destruct (decide (t = r)) as [->|]; [|rewrite lookup_insert_ne by done; intros H; by apply HK, Hkept].
    rewrite lookup_insert_eq. intros [= <-]. apply andb_true_iff in Ec as [[Ec%bool_decide_eq_true _]%andb_true_iff _].
    destruct (typed_operands mc types inst' Ht') as (Ta & _). split; [done|]. pose proof (it_op _ _ _ Ht') as Hop. unfold op_typed in Hop.
    rewrite Ec in Hop. rewrite Hop. by apply Ht'.
  - intros s m o HI E.
    assert (A : alike mc (fun b => b) s s inst inst').
    { apply map_operands_alike.
      - intros o' Hin. apply (substitute_reads known s m); [done|done|]. destruct Ht as [Ho _ _ _]. rewrite Forall_forall in Ho. by apply Ho.
      - intros o' b K. unfold substitute, known_at. by rewrite K. }
    subst inst'. split; [by apply (alike_below mc types s m inst)|]. destruct o as [s1 m1| |]; try done.
    destruct (exec_next mc s m inst s1 m1 E) as (v & Ed & Hcopy). intros t w x. unfold known_after. cbn [i_result map_operands].
    destruct (i_result inst) as [r|] eqn:Er; [|].
    2: { unfold define_result in Ed. rewrite Er in Ed. injection Ed as <-. apply HI. }
    set (kept := filter _ known).
    assert (Hkept : t <> r -> kept !! t = Some w -> s1 !! t = Some x -> exists y, read mc s1 w = Some (Some y) /\ le_value (trim_value mc (o_type w) x) y).
    { intros Hne [Hk [_ Hw]]%map_lookup_filter_Some Hx. rewrite (define_other mc s inst v s1 t Ed) in Hx by congruence.
      destruct (HI t w x Hk Hx) as (y & Ey & L). exists y. split; [|done].
      rewrite (read_other mc s inst v s1 w Ed); [done|]. rewrite Er. done. }
    match goal with |- (if ?c then _ else _) !! _ = _ -> _ => destruct c eqn:Ec end.
    + destruct (decide (t = r)) as [->|]; [|rewrite lookup_insert_ne by done; by apply Hkept].
      rewrite lookup_insert_eq. apply andb_true_iff in Ec as [[Ec%bool_decide_eq_true Hn%negb_true_iff]%andb_true_iff _].
      cbn [i_op map_operands] in Ec. cbn [i_a map_operands] in *. intros [= <-] Hx.
      destruct (Hcopy Ec) as (w & -> & Ew). destruct (alike_operands mc _ _ _ _ _ A) as (Ha & _).
      destruct (read_value_le mc _ _ _ _ _ Ha Ew) as (y & Ey & L). cbn [i_a map_operands] in Ey.
      unfold read_value in Ey. destruct (read mc s (substitute known (i_a inst))) as [o'|] eqn:Eo; [|done]. cbn in Ey. subst o'.
      exists y. split; [by rewrite (read_other mc s inst (Some w) s1 _ Ed) by (by rewrite Er)|].
      unfold define_result in Ed. rewrite Er in Ed. injection Ed as <-. rewrite lookup_insert_eq in Hx. injection Hx as <-.
      pose proof (it_op _ _ _ Ht') as Hop. unfold op_typed in Hop. cbn [i_op i_a i_type map_operands] in Hop. rewrite Ec in Hop. rewrite Hop.
      assert (trim_value mc (i_type inst) (trim_value mc (i_type inst) w) = trim_value mc (i_type inst) w) as ->.
      { unfold trim_value. cbn. by rewrite trim_trim. }
      pose proof (it_op _ _ _ Ht) as Hop0. unfold op_typed in Hop0. rewrite Ec in Hop0.
      pose proof (read_value_type mc s (i_a inst) w Ew) as Ew'. rewrite Hop0 in Ew'. destruct L as [L1 L2]. split; [cbn; by rewrite Ew'|done].
    + intros Hk Hx. destruct (decide (t = r)) as [->|]; [|by apply Hkept].
      apply map_lookup_filter_Some in Hk as [_ [Hn _]]. done.
Qed.
End Types.

Lemma propagate_rewrites known insts :
  (propagate_in_block known insts).1 =
  rewrite_all (fun known inst => (map_operands (substitute known) inst, known_after known (map_operands (substitute known) inst))) known insts.
Proof.
  revert known. induction insts as [|inst insts IH]; intros known; [done|]. cbn [propagate_in_block rewrite_all]. rewrite <- IH.
  by destruct (propagate_in_block _ insts).
Qed.

Lemma propagate_blocks_refines f : well_formed mc f ->
  well_formed mc (with_blocks f (map fst (map (propagate_in_block ∅) (fn_blocks f)))) /\
  refines mc f (with_blocks f (map fst (map (propagate_in_block ∅) (fn_blocks f)))).
Proof.
  intros Hf. rewrite map_map. apply (map_blocks_refines mc (fun insts => (propagate_in_block ∅ insts).1)); [done|done|].
  intros insts _ Ht He. rewrite propagate_rewrites.
  assert (Hk : known_typed (fn_temps f) ∅) by (intros t v Hv; by rewrite lookup_empty in Hv).
  split; [|split].
  - eapply (rewrite_all_typed mc (fn_temps f) (known_typed (fn_temps f)) known_holds); [|done|done]. intros k inst. apply propagate_step.
  - apply (ends_rewritten insts); [done| |].
    + generalize (∅ : gmap nat ir_operand). clear. induction insts as [|inst insts IH]; intros k; cbn; [done|]. by rewrite IH.
    + clear Ht He Hk. generalize (∅ : gmap nat ir_operand). induction insts as [|inst insts IH]; intros known [|k] i i'; cbn; try done.
      * by intros [= <-] [= <-].
      * apply IH.
  - intros s m out E.
    destruct (rewrite_all_below mc (fn_temps f) (known_typed (fn_temps f)) known_holds
      (fun known inst => (map_operands (substitute known) inst, known_after known (map_operands (substitute known) inst))))
      with (k := (∅ : gmap nat ir_operand)) (insts := insts) (s := s) (m := m) (out := out) as (out' & E' & L & _); try done; [|by exists out'].
    intros k inst. apply propagate_step.
Qed.
End Copies.
