(* ===== verification/OptimizeCounts.v ===== *)
(** * OptimizeCounts: what the counts of the temporaries say

    The lemmas on [count] that the passes rely on: a temporary counted once has one
    definition, and one without uses is read nowhere. *)

From S2P Require Import Prelude Ir IrVerify IrDefinitions Optimize.

(** ** Counting *)

Lemma times_app {A} (p : A -> bool) a b : times p (a ++ b) = (times p a + times p b)%nat.
Proof. unfold times. by rewrite List.filter_app, length_app. Qed.

Lemma count_cons {A} (p : A -> bool) x l : times p (x :: l) = ((if p x then 1 else 0) + times p l)%nat.
Proof. unfold times. cbn. by destruct (p x). Qed.

Lemma times_update {A} (p : A -> bool) l i x y : l !! i = Some x -> (times p (<[i := y]> l) + (if p x then 1 else 0) = times p l + (if p y then 1 else 0))%nat.
Proof.
  revert i. induction l as [|z l IH]; intros [|i]; try done.
  - intros [= ->]. change (<[O := y]> (x :: l)) with (y :: l). rewrite !count_cons. lia.
  - intros H. change (<[S i := y]> (z :: l)) with (z :: <[i := y]> l). rewrite !count_cons. specialize (IH i H). lia.
Qed.

Lemma times_some {A} (p : A -> bool) l x : x ∈ l -> p x = true -> (1 <= times p l)%nat.
Proof.
  intros H Hp. induction H as [x l|x y l _ IH]; rewrite count_cons; [rewrite Hp; lia|]. specialize (IH Hp). lia.
Qed.

Lemma times_zero {A} (p : A -> bool) l : times p l = O <-> forall x, x ∈ l -> p x = false.
Proof.
  split.
  - intros H x Hx. destruct (p x) eqn:E; [|done]. pose proof (times_some p l x Hx E). lia.
  - intros H. unfold times. induction l as [|x l IH]; [done|]. cbn. rewrite H by by left. apply IH. intros y Hy. apply H. by right.
Qed.

Lemma times_map {A B} (g : A -> B) p l : times p (map g l) = times (fun x => p (g x)) l.
Proof. induction l as [|x l IH]; [done|]. cbn [map]. by rewrite !count_cons, IH. Qed.

(** Counted at most once and found here, it is nowhere else. *)
Lemma times_single {A} (p : A -> bool) a x b : (times p (a ++ x :: b) <= 1)%nat -> p x = true -> forall y, y ∈ a \/ y ∈ b -> p y = false.
Proof.
  rewrite times_app, count_cons. intros H Hp y Hy. rewrite Hp in H. destruct (p y) eqn:E; [|done].
  destruct Hy as [Hy|Hy]; pose proof (times_some p _ y Hy E); lia.
Qed.

Lemma concat_elem {A} (ls : list (list A)) x : x ∈ concat ls <-> exists l, l ∈ ls /\ x ∈ l.
Proof.
  rewrite list_elem_of_In, in_concat. split; intros (l & H1 & H2); exists l; rewrite !list_elem_of_In in *; tauto.
Qed.

(** ** Single definitions *)

Lemma defines_spec t inst : defines t inst = true <-> i_result inst = Some t.
Proof. unfold defines. apply bool_decide_eq_true. Qed.

Lemma inst_at_spec f b i inst : inst_at f b i = Some inst <-> exists insts, fn_blocks f !! b = Some insts /\ insts !! i = Some inst.
Proof.
  unfold inst_at, block. split.
  - destruct (fn_blocks f !! b) as [insts|] eqn:E; [|done]. intros H. by exists insts.
  - by intros (insts & -> & H).
Qed.

Lemma inst_at_elem f b i inst : inst_at f b i = Some inst -> inst ∈ all_insts f.
Proof.
  intros (insts & Hb & Hi)%inst_at_spec. apply concat_elem. exists insts. split; by eapply list_elem_of_lookup_2.
Qed.

Lemma single_definition f x b i inst :
  defs (count f) x = 1%nat -> inst_at f b i = Some inst -> i_result inst = Some x ->
  x ∉ map pr_temp (fn_params f) /\
  forall b' i' inst', inst_at f b' i' = Some inst' -> i_result inst' = Some x -> b' = b /\ i' = i.
Proof.
  intros Hd Hi Hr. cbn [defs count] in Hd. pose proof (inst_at_elem _ _ _ _ Hi) as Hin. apply defines_spec in Hr.
  pose proof (times_some _ _ _ Hin Hr) as H1. split.
  - intros (p & E & Hp)%list_elem_of_fmap. assert (1 <= times (fun p => (pr_temp p =? x)%nat) (fn_params f))%nat; [|lia].
    apply (times_some _ _ p Hp). by rewrite E, Nat.eqb_refl.
  - intros b' i' inst' Hi' Hr'%defines_spec. apply inst_at_spec in Hi as (insts & Hb & Hi), Hi' as (insts' & Hb' & Hi').
    pose proof (take_drop_middle _ _ _ Hb) as Eb. pose proof (take_drop_middle _ _ _ Hi) as Ei.
    assert (Ht : (times (defines x) (concat (take b (fn_blocks f)) ++ take i insts) +
                  times (defines x) (inst :: drop (S i) insts ++ concat (drop (S b) (fn_blocks f))) <= 1)%nat).
    { rewrite <- times_app. unfold all_insts in Hd. rewrite <- Eb, concat_app in Hd. cbn [concat] in Hd. rewrite <- Ei in Hd.
      rewrite <- !app_assoc in *. cbn [app] in *. lia. }
    rewrite <- times_app in Ht. pose proof (times_single _ _ _ _ Ht Hr) as Hno. cbn [app] in Hno.
    assert (Hf : ~ (inst' ∈ concat (take b (fn_blocks f)) ++ take i insts \/ inst' ∈ drop (S i) insts ++ concat (drop (S b) (fn_blocks f)))).
    { intros H. by rewrite (Hno inst' H) in Hr'. }
    rewrite !elem_of_app, !concat_elem in Hf. destruct (lt_eq_lt_dec b' b) as [[Hlt|<-]|Hgt].
    + exfalso. apply Hf. left. left. exists insts'. split; [|by eapply list_elem_of_lookup_2].
      apply (list_elem_of_lookup_2 _ b'). by rewrite lookup_take_lt.
    + simplify_eq. split; [done|]. destruct (lt_eq_lt_dec i' i) as [[Hlt|<-]|Hgt]; [|done|].
      * exfalso. apply Hf. left. right. apply (list_elem_of_lookup_2 _ i'). by rewrite lookup_take_lt.
      * exfalso. apply Hf. right. left. apply (list_elem_of_lookup_2 _ (i' - S i)). rewrite lookup_drop. by replace (S i + (i' - S i))%nat with i' by lia.
    + exfalso. apply Hf. right. right. exists insts'. split; [|by eapply list_elem_of_lookup_2].
      apply (list_elem_of_lookup_2 _ (b' - S b)). rewrite lookup_drop. by replace (S b + (b' - S b))%nat with b' by lia.
Qed.

(** A parameter counted once is defined by no instruction. *)
Lemma single_parameter f y : defs (count f) y = 1%nat -> y ∈ map pr_temp (fn_params f) ->
  forall inst, inst ∈ all_insts f -> i_result inst <> Some y.
Proof.
  intros Hd (p & E & Hp)%list_elem_of_fmap inst Hin Hr%defines_spec. cbn [defs count] in Hd.
  assert (1 <= times (fun p => (pr_temp p =? y)%nat) (fn_params f))%nat by (apply (times_some _ _ p Hp); by rewrite E, Nat.eqb_refl).
  pose proof (times_some _ _ _ Hin Hr). lia.
Qed.

(** The place is one of a definition. *)
Lemma place_defines f y b i : place (count f) y = Some (b, i) -> exists inst, inst_at f b i = Some inst /\ i_result inst = Some y.
Proof.
  cbn [place count]. rewrite last_lookup. intros H%list_elem_of_lookup_2. apply list_elem_of_In, filter_In in H as [_ H].
  destruct (inst_at f b i) as [inst|]; [|done]. exists inst. split; [done|]. by apply defines_spec.
Qed.

(** ** Functions with the same results *)

Definition same_results (f g : ir_function) : Prop :=
  fn_params g = fn_params f /\ map (map i_result) (fn_blocks g) = map (map i_result) (fn_blocks f).

Lemma same_results_blocks f g b : same_results f g -> map i_result (block g b) = map i_result (block f b).
Proof.
  intros [_ H]. unfold block. apply (f_equal (fun l => l !! b)) in H. rewrite !list_lookup_fmap in H.
  destruct (fn_blocks g !! b), (fn_blocks f !! b); cbn in *; by simplify_eq.
Qed.

Lemma same_results_at f g b i : same_results f g -> i_result <$> inst_at g b i = i_result <$> inst_at f b i.
Proof. intros H. unfold inst_at. rewrite <- !list_lookup_fmap. apply (f_equal (lookup i)), (same_results_blocks f g b H). Qed.

Lemma same_results_positions f g : same_results f g -> positions g = positions f.
Proof.
  intros [_ H]. unfold positions. f_equal. revert H. generalize (fn_blocks f), (fn_blocks g).
  assert (forall (k : nat) l l', map (map i_result) l' = map (map i_result) l ->
    imap (fun b insts => map (fun i => ((k + b)%nat, i)) (seq 0 (length insts))) l' = imap (fun b insts => map (fun i => ((k + b)%nat, i)) (seq 0 (length insts))) l) as H.
  { intros k l. revert k. induction l as [|x l IH]; intros k [|x' l']; try done. cbn [map]. intros [= E1 E2]. rewrite !imap_cons.
    apply (f_equal length) in E1. rewrite !length_map in E1. rewrite E1. f_equal.
    specialize (IH (S k) l' E2). erewrite imap_ext; [rewrite IH; apply imap_ext|].
    - intros i insts _. cbn. by rewrite Nat.add_succ_r.
    - intros i insts _. cbn. by rewrite Nat.add_succ_r. }
  intros l l' E. exact (H O l l' E).
Qed.

Lemma same_results_defs f g t : same_results f g -> defs (count g) t = defs (count f) t.
Proof.
  intros [Hp H]. cbn [defs count]. rewrite Hp. f_equal. unfold all_insts.
  assert (forall l : list (list ir_inst), times (defines t) (concat l) = times (fun r => bool_decide (r = Some t)) (concat (map (map i_result) l))) as E.
  { intros l. rewrite <- concat_map, times_map. done. }
  by rewrite !E, H.
Qed.

Lemma same_results_place f g t : same_results f g -> place (count g) t = place (count f) t.
Proof.
  intros H. cbn [place count]. rewrite (same_results_positions f g H). f_equal. apply filter_ext. intros [b i].
  pose proof (same_results_at f g b i H) as E. destruct (inst_at g b i), (inst_at f b i); cbn in E; try done.
  apply (inj Some) in E. unfold defines. by rewrite E.
Qed.

Lemma same_results_refl f : same_results f f.
Proof. done. Qed.

Lemma same_results_trans f g h : same_results f g -> same_results g h -> same_results f h.
Proof. intros [H1 H2] [H3 H4]. split; congruence. Qed.

Lemma map_insts_results g f : (forall inst, i_result (g inst) = i_result inst) -> same_results f (with_blocks f (map (map g) (fn_blocks f))).
Proof. intros H. split; [done|]. cbn. rewrite map_map. apply map_ext. intros insts. rewrite map_map. by apply map_ext. Qed.
