(* ===== verification/OptimizeSingle.v ===== *)
(** * OptimizeSingle: the propagation of copies across blocks

    A temporary with a single definition, the copy of a value that cannot change while
    the temporary lives, may be replaced by that value wherever it is used. No run
    reads a temporary before its definition, so the value is there. *)

From S2P Require Import Prelude Arith Ir IrFold IrVerify IrDefinitions IrSem FloatSem Optimize IrSim OptimizeLocal OptimizeBlock OptimizeCopies OptimizeCounts.

Section Single.
Context {M : Type} (mc : machine M) `{!Lawful mc} `{!IeeeFloats mc}.

(** [x] is the result of [copy], which stands between [pre] and [post] in block [b0];
    nothing else defines it, and the value [v] stays what it is outside [pre]. *)
Section Replace.
Context (f : ir_function) (x : nat) (v : ir_operand) (b0 : nat) (pre post : list ir_inst) (copy : ir_inst).
Context (Hf : well_formed mc f).
Context (Hblock : fn_blocks f !! b0 = Some (pre ++ copy :: post)).
Context (Hcopy : i_op copy = IR_COPY) (Hresult : i_result copy = Some x) (Hvalue : i_a copy = v).
Context (Hparam : x ∉ map pr_temp (fn_params f)) (Hself : is_temp v x = false).
Context (Hsingle : forall b insts inst, fn_blocks f !! b = Some insts -> inst ∈ insts ->
  (b <> b0 \/ inst ∈ post) -> i_result inst <> Some x /\ is_result v (i_result inst) = false).
Context (Hpre : forall inst, inst ∈ pre -> i_result inst <> Some x).

Let types := fn_temps f.
Notation typed := (inst_typed mc types).
Notation nowhere := (fun _ : nat => False).
Let r : ir_inst -> ir_inst := map_operands (replace_operand x v).
Let g : ir_function := (replace_uses f x v).1.

Lemma typed_insts b insts : fn_blocks f !! b = Some insts -> Forall typed insts.
Proof. intros H. destruct Hf as [Ht _ _]. by eapply Forall_lookup_1 in Ht. Qed.

Lemma typed_copy : typed copy.
Proof. pose proof (typed_insts _ _ Hblock) as H. rewrite Forall_app, Forall_cons in H. tauto. Qed.

Lemma typed_value : operand_typed mc types v /\ types !! x = Some (o_type v).
Proof.
  pose proof typed_copy as Ht. destruct (typed_operands mc types copy Ht) as (Ha & _). rewrite Hvalue in Ha. split; [done|].
  pose proof (it_op _ _ _ Ht) as Hop. unfold op_typed in Hop. rewrite Hcopy, Hvalue in Hop. rewrite Hop. by apply Ht.
Qed.

(** ** What the state says of [x] *)

Definition reads_early : Prop := exists inst, inst ∈ pre ++ [copy] /\ x ∈ reads inst.

(** Where [x] is defined it holds the value of [v]. *)
Definition holds (s : temps) : Prop := forall w, s !! x = Some w ->
  ~ reads_early /\ exists y, read mc s v = Some (Some y) /\ le_value (trim_value mc (o_type v) w) y.

Lemma replace_typed o : operand_typed mc types o -> operand_typed mc types (replace_operand x v o) /\ o_type (replace_operand x v o) = o_type o.
Proof.
  intros Ho. unfold replace_operand, is_temp. destruct (o_kind o) as [|t| | | | | |] eqn:K; try done.
  destruct (Nat.eqb_spec t x) as [->|]; [|done]. destruct typed_value as [Hv Ht]. split; [done|].
  unfold operand_typed in Ho. rewrite K in Ho. congruence.
Qed.

Lemma replace_reads s o : operand_typed mc types o -> holds s -> read_le mc s s o (replace_operand x v o).
Proof.
  intros Ho HI. destruct (replace_typed o Ho) as [_ Ety]. split; [done|]. intros z. unfold replace_operand, is_temp in *.
  destruct (o_kind o) as [|t| | | | | |] eqn:K; try (intros Hz; by exists z).
  destruct (Nat.eqb_spec t x) as [->|]; [|by intros Hz; exists z]. unfold read at 1. rewrite K.
  destruct (s !! x) as [w|] eqn:Ew; [|done]. cbn. intros [= <-]. destruct (HI w Ew) as (_ & y & Ey & L). exists (Some y).
  split; [done|]. cbn. by rewrite <- Ety.
Qed.

Lemma replace_nothing inst : x ∉ reads inst -> r inst = inst.
Proof.
  intros Hx. assert (H : forall o, o ∈ operands inst -> replace_operand x v o = o).
  { intros o Hin. unfold replace_operand, is_temp. destruct (o_kind o) as [|t| | | | | |] eqn:K; try done.
    destruct (Nat.eqb_spec t x) as [->|]; [|done]. exfalso. apply Hx. unfold reads. apply list_elem_of_omap. exists o. by rewrite K. }
  unfold r, map_operands, operands in *. destruct inst as [op ty re a b c vt fi me args]. cbn in *.
  rewrite !H by (repeat constructor). f_equal. rewrite <- (map_id args) at 2. apply map_ext_in. intros o Ho. apply H.
  do 3 right. by apply list_elem_of_In.
Qed.

(** ** The rest of the blocks *)

Lemma replace_step inst : typed inst -> i_result inst <> Some x -> is_result v (i_result inst) = false ->
  typed (r inst) /\ step_below mc types (fun (_ : unit) s _ => holds s) tt inst (r inst) tt.
Proof.
  intros Ht Hx Hv. split; [apply map_operands_typed; [apply replace_typed|done]|]. intros s m o HI E.
  assert (A : alike mc (fun b => b) s s inst (r inst)).
  { apply map_operands_alike.
    - intros o' Hin. apply replace_reads; [|done]. destruct Ht as [Ho _ _ _]. rewrite Forall_forall in Ho. by apply Ho.
    - intros o' b K. unfold replace_operand, is_temp. by rewrite K. }
  split; [by apply (alike_below mc types s m inst)|]. destruct o as [s1 m1| |]; try done.
  destruct (exec_next mc s m inst s1 m1 E) as (w & Ed & _). intros z. rewrite (define_other mc s inst w s1 x Ed) by done. intros Hz.
  destruct (HI z Hz) as (He & y & Ey & L). split; [done|]. exists y. split; [|done]. by rewrite (read_other mc s inst w s1 v Ed).
Qed.

Lemma replace_rest insts s m out :
  Forall typed insts -> Forall (fun inst => i_result inst <> Some x /\ is_result v (i_result inst) = false) insts ->
  holds s -> exec_block mc s m insts = Some out ->
  exists out', exec_block mc s m (map r insts) = Some out' /\ le_outcome mc types nowhere out out' /\
    match out with Goes _ s1 m1 => holds s1 | _ => True end.
Proof.
  intros Ht Hnr HI E.
  revert s m HI E. induction insts as [|inst insts IH]; intros s m HI E; [done|]. cbn [map exec_block] in *.
  apply Forall_cons in Ht as [Hti Ht]. apply Forall_cons in Hnr as [[Hx Hv] Hnr].
  destruct (replace_step inst Hti Hx Hv) as [Htr Hex]. destruct (exec_inst mc s m inst) as [o|] eqn:Eo; [|done].
  destruct (Hex s m o HI Eo) as [(o' & -> & L) HI']. destruct o as [s1 m1|b s1 m1|z m1], o' as [s2 m2|b2 s2 m2|z2 m2]; try done.
  - destruct (IH Ht Hnr s1 m1 HI' E) as (out1 & E1 & L1 & H1). cbn in L. destruct L as [<- Ls].
    assert (Htm : Forall typed (map r insts)).
    { apply Forall_fmap. eapply Forall_impl; [exact Ht|]. intros i Hi. apply map_operands_typed; [apply replace_typed|done]. }
    destruct (block_mono mc types nowhere _ Htm (fun _ _ _ _ H => H) s1 s2 m1 out1 Ls E1) as (out2 & E2 & L2).
    exists out2. split; [done|]. split; [by eapply le_outcome_trans|done].
  - injection E as <-. eexists. split; [done|]. split; [done|]. by destruct (exec_goes _ _ _ _ _ _ _ Eo) as [-> ->].
  - injection E as <-. by eexists.
Qed.

(** ** The block of the copy *)

Lemma undefined_read s m inst : x ∈ reads inst -> s !! x = None -> exec_inst mc s m inst = None.
Proof.
  intros Hx Hs. unfold exec_inst. assert (words mc s (operands inst) = None) as ->; [|done].
  unfold reads in Hx. apply list_elem_of_omap in Hx as (o & Hin & Ho). induction Hin as [o os|o o' os _ IH]; cbn [words].
  - unfold read. destruct (o_kind o); simplify_eq. by rewrite Hs.
  - destruct (read mc s o'); [|done]. cbn. by rewrite (IH Ho).
Qed.

(** Up to the copy nothing reads [x], and after it [x] holds the value. *)
Lemma up_to_copy s m out :
  (forall w, s !! x = Some w -> ~ reads_early) -> exec_block mc s m (pre ++ copy :: post) = Some out ->
  ~ reads_early /\ exists s1 m1, holds s1 /\ forall rest, exec_block mc s m (pre ++ copy :: rest) = exec_block mc s1 m1 rest.
Proof.
  assert (Hterm : forall inst, inst ∈ pre -> is_terminator (i_op inst) = false).
  { intros inst [k Hk]%list_elem_of_lookup. destruct (is_terminator (i_op inst)) eqn:Et; [|done]. destruct Hf as [_ _ He].
    pose proof (Forall_lookup_1 _ _ _ _ He Hblock) as Hend. pose proof (lookup_lt_Some _ _ _ Hk) as Hlt.
    specialize (Hend k inst (lookup_app_l_Some _ _ _ _ Hk) Et). rewrite length_app in Hend. cbn in Hend. lia. }
  assert (Hnot : forall s m inst o, (forall w, s !! x = Some w -> ~ reads_early) -> inst ∈ pre ++ [copy] ->
    exec_inst mc s m inst = Some o -> x ∉ reads inst).
  { intros s0 m0 inst o H0 Hin Eo Hx. destruct (s0 !! x) as [w|] eqn:Ew.
    - apply (H0 w eq_refl). by exists inst.
    - by rewrite undefined_read in Eo. }
  assert (H : forall todo before s m, pre = before ++ todo -> (forall inst, inst ∈ before -> x ∉ reads inst) ->
    (forall w, s !! x = Some w -> ~ reads_early) -> exec_block mc s m (todo ++ copy :: post) = Some out ->
    ~ reads_early /\ exists s1 m1, holds s1 /\ forall rest, exec_block mc s m (todo ++ copy :: rest) = exec_block mc s1 m1 rest).
  2: { by apply (H pre []); [|intros inst ?%elem_of_nil|..]. }
  clear s m. induction todo as [|inst todo IH]; intros before s m Ep Hb Hs E; cbn [app exec_block] in *.
  - rewrite app_nil_r in Ep. subst before. destruct (exec_inst mc s m copy) as [o|] eqn:Eo; [|done].
    pose proof (Hnot s m copy o Hs ltac:(apply elem_of_app; right; by left) Eo) as Hx.
    destruct (exec_goes_on mc s m copy o) as (s1 & m1 & ->); [by rewrite Hcopy|done|].
    assert (He : ~ reads_early).
    { intros (inst & [Hin|Hin%list_elem_of_singleton]%elem_of_app & Hr); [by apply (Hb inst)|by subst inst]. }
    split; [done|]. exists s1, m1. split; [|done]. intros w Hw. split; [done|].
    destruct (exec_next mc s m copy s1 m1 Eo) as (z & Ed & Hc). destruct (Hc Hcopy) as (z' & -> & Ez). rewrite Hvalue in Ez.
    unfold read_value in Ez. destruct (read mc s v) as [o|] eqn:Er; [|done]. cbn in Ez. subst o. exists z'.
    split; [by rewrite (read_other mc s copy (Some z') s1 v Ed) by (by rewrite Hresult)|].
    unfold define_result in Ed. rewrite Hresult in Ed. injection Ed as <-. rewrite lookup_insert_eq in Hw. injection Hw as <-.
    pose proof typed_value as [_ Ht]. pose proof (it_result _ _ _ typed_copy x Hresult) as Ht'. rewrite Ht in Ht'. injection Ht' as <-.
    split; [|done]. cbn. rewrite trim_trim by done. apply (read_value_type mc s v z'). unfold read_value. by rewrite Er.
  - destruct (exec_inst mc s m inst) as [o|] eqn:Eo; [|done].
    assert (Hin : inst ∈ pre) by (rewrite Ep, elem_of_app; right; by left).
    pose proof (Hnot s m inst o Hs ltac:(rewrite elem_of_app; by left) Eo) as Hx.
    destruct (exec_goes_on mc s m inst o (Hterm inst Hin) Eo) as (s1 & m1 & ->).
    apply (IH (before ++ [inst])); [by rewrite <- app_assoc|..]; [| |done].
    + intros i [Hi|Hi%list_elem_of_singleton]%elem_of_app; [by apply Hb|by subst i].
    + intros w Hw. destruct (exec_next mc s m inst s1 m1 Eo) as (z & Ed & _).
      rewrite (define_other mc s inst z s1 x Ed) in Hw by (by apply Hpre). by apply (Hs w).
Qed.

(** ** The function *)

Lemma replaced_body b : body g b = map r (body f b).
Proof. unfold g, replace_uses. cbn [fst]. exact (body_map (map r) f b eq_refl). Qed.

Lemma replaced_typed b : Forall typed (body g b).
Proof.
  rewrite replaced_body. apply Forall_fmap. eapply Forall_impl; [exact (typed_block mc f b Hf)|]. intros i Hi.
  apply map_operands_typed; [apply replace_typed|done].
Qed.

Lemma replace_well_formed : well_formed mc g.
Proof.
  destruct Hf as [Ht Hp He]. split.
  - apply Forall_lookup. intros b insts Hb. pose proof (replaced_typed b) as H. unfold body in H. by rewrite Hb in H.
  - exact Hp.
  - apply Forall_fmap. eapply Forall_impl; [exact He|]. intros insts Hi k inst Hk. cbn. rewrite length_map.
    rewrite list_lookup_fmap in Hk. destruct (insts !! k) as [i|] eqn:E; [|done]. injection Hk as <-. apply (Hi k i E).
Qed.

(** A block of [g] keeps up with the block of [f]. *)
Lemma replaced_block b s m out : holds s -> exec_block mc s m (body f b) = Some out ->
  exists out', exec_block mc s m (body g b) = Some out' /\ le_outcome mc types nowhere out out' /\
    match out with Goes _ s1 m1 => holds s1 | _ => True end.
Proof.
  intros Hs E. rewrite replaced_body. unfold body in *. destruct (fn_blocks f !! b) as [insts|] eqn:Eb; [|done].
  change (default [] (Some insts)) with insts in *.
  pose proof (typed_insts b insts Eb) as Ht. destruct (decide (b = b0)) as [->|Hne].
  - simplify_eq. destruct (up_to_copy s m out) as (He & s1 & m1 & Hs1 & Hrest); [intros w Hw; by apply (Hs w Hw)|done|].
    assert (Hmap : map r (pre ++ copy :: post) = pre ++ copy :: map r post).
    { rewrite map_app. cbn [map]. f_equal.
      - rewrite <- (map_id pre) at 2. apply map_ext_in. intros i Hi%list_elem_of_In. apply replace_nothing. intros Hx. apply He.
        exists i. rewrite elem_of_app. auto.
      - rewrite replace_nothing; [done|]. intros Hx. apply He. exists copy. split; [apply elem_of_app; right; by left|done]. }
    rewrite Hmap, Hrest. rewrite Hrest in E. apply Forall_app in Ht as [_ Ht]. apply Forall_cons in Ht as [_ Ht].
    apply replace_rest; [done| |done|done]. apply Forall_forall. intros i Hi. apply (Hsingle b0 _ i Hblock); [|by right].
    rewrite elem_of_app. right. by right.
  - apply replace_rest; [done| |done|done]. apply Forall_forall. intros i Hi. apply (Hsingle b insts i Eb Hi). by left.
Qed.

Lemma replace_refines : refines mc f g.
Proof.
  apply (simulation_refines mc f g (fun _ p q =>
    pt_block p = pt_block q /\ pt_memory p = pt_memory q /\ le mc types nowhere (pt_temps p) (pt_temps q) /\ holds (pt_temps p))).
  - intros k [b s m] [b' s' m'] out (E1 & E2 & L & Hs) E. cbn in E1, E2, L, Hs. subst b' m'.
    destruct (replaced_block b s m out Hs E) as (out1 & Eg & L1 & Hs1).
    destruct (block_mono mc types nowhere (body g b) (replaced_typed b) (fun _ _ _ _ H => H) s s' m out1 L Eg) as (out2 & Eg2 & L2).
    pose proof (le_outcome_trans mc types _ _ _ L1 L2) as L3. destruct out as [s1 m1|b1 s1 m1|z m1], out2 as [s2 m2|b2 s2 m2|z2 m2]; try done.
    + cbn in L3. destruct L3 as (<- & <- & L3). left. exists O, b1, s2, m1. done.
    + cbn in L3. destruct L3 as [<- <-]. done.
  - done.
  - intros args m _. exists O. cbn. do 2 (split; [done|]). split; [apply le_refl|]. intros w Hw. exfalso. apply Hparam.
    apply elem_of_list_to_map_2 in Hw. apply elem_of_zip_l in Hw. done.
Qed.
End Replace.

(** ** The pass *)

Lemma replace_uses_results f x v : same_results f (replace_uses f x v).1.
Proof. by apply map_insts_results. Qed.

Lemma is_result_temp o r y : o_kind o = IR_TEMP y -> is_result o r = true -> r = Some y.
Proof. unfold is_result, is_temp. intros K. rewrite K. destruct r as [t|]; [|done]. by intros ->%Nat.eqb_eq. Qed.

Lemma param_temp f y : well_formed mc f -> (y < length (fn_params f))%nat -> y ∈ map pr_temp (fn_params f).
Proof. intros [_ Hp _] Hy. rewrite Hp. apply elem_of_seq. lia. Qed.

(** Outside the part of the block before the copy nothing writes its value. *)
Lemma exact_stays f b i v b' i' inst : well_formed mc f -> exact_copy f (count f) b i v = true ->
  inst_at f b' i' = Some inst -> b' <> b \/ (i < i')%nat -> is_result v (i_result inst) = false.
Proof.
  intros Hf Hex Hat Hout. unfold exact_copy in Hex. destruct (is_result v (i_result inst)) eqn:Er; [|done]. exfalso.
  unfold is_constant in Hex. destruct (o_kind v) as [|y| | | | | |] eqn:K; try done.
  2,3: unfold is_result, is_temp in Er; rewrite K in Er; by destruct (i_result inst).
  apply (is_result_temp _ _ _ K) in Er. cbn [orb] in Hex.
  apply andb_true_iff in Hex as [Hd%Nat.eqb_eq [Hy%Nat.ltb_lt|Hy]%orb_true_iff].
  - by apply (single_parameter f y Hd (param_temp f y Hf Hy) inst (inst_at_elem _ _ _ _ Hat)).
  - destruct (place (count f) y) as [[b2 i2]|] eqn:Ep; [|done]. apply andb_true_iff in Hy as [->%Nat.eqb_eq Hlt%Nat.ltb_lt].
    destruct (place_defines f y b i2 Ep) as (inst2 & Hat2 & Hr2).
    destruct (single_definition f y b i2 inst2 Hd Hat2 Hr2) as [_ Honly]. destruct (Honly b' i' inst Hat Er). lia.
Qed.

Lemma propagate_at_refines f1 f changed b i : well_formed mc f -> same_results f1 f ->
  let f' := (propagate_at (count f1) (f, changed) (b, i)).1 in well_formed mc f' /\ refines mc f f' /\ same_results f1 f'.
Proof.
  intros Hf Hs. unfold propagate_at. pose proof (refines_refl mc f) as Hrefl.
  destruct (inst_at f b i) as [copy|] eqn:Hat; [|done]. destruct (i_result copy) as [x|] eqn:Hr; [|done].
  destruct (negb (bool_decide (i_op copy = IR_COPY)) || _ || _) eqn:E; [done|].
  apply orb_false_iff in E as [[Hop%negb_false_iff%bool_decide_eq_true Hd%negb_false_iff%Nat.eqb_eq]%orb_false_iff Hself].
  assert (exact_copy f (count f1) b i (i_a copy) = exact_copy f (count f) b i (i_a copy)) as Eex.
  { unfold exact_copy. destruct (o_kind (i_a copy)); try done. by rewrite (same_results_defs f1 f), (same_results_place f1 f) by done. }
  rewrite Eex. clear Eex. destruct (exact_copy f (count f) b i (i_a copy)) eqn:Hex; [|done].
  destruct (replace_uses f x (i_a copy)) as [f' more] eqn:Eg. cbn [fst].
  assert (f' = (replace_uses f x (i_a copy)).1) as -> by (by rewrite Eg). clear Eg more.
  rewrite <- (same_results_defs f1 f x Hs) in Hd. destruct (single_definition f x b i copy Hd Hat Hr) as [Hnp Honly].
  pose proof Hat as (insts & Hb & Hi)%inst_at_spec. pose proof (take_drop_middle _ _ _ Hi) as Esplit.
  assert (Hblock : fn_blocks f !! b = Some (take i insts ++ copy :: drop (S i) insts)) by (by rewrite Esplit).
  assert (Hat' : forall b' k insts' inst, fn_blocks f !! b' = Some insts' -> insts' !! k = Some inst -> inst_at f b' k = Some inst).
  { intros b' k insts' inst H1 H2. apply inst_at_spec. by exists insts'. }
  assert (Hpre : forall inst, inst ∈ take i insts -> i_result inst <> Some x).
  { intros inst [k Hk]%list_elem_of_lookup Hx. apply lookup_take_Some in Hk as [Hk Hlt]. destruct (Honly b k inst (Hat' _ _ _ _ Hb Hk) Hx). lia. }
  assert (Hsingle : forall b' insts' inst, fn_blocks f !! b' = Some insts' -> inst ∈ insts' ->
    (b' <> b \/ inst ∈ drop (S i) insts) -> i_result inst <> Some x /\ is_result (i_a copy) (i_result inst) = false).
  { intros b' insts' inst Hb' Hin Hout.
    assert (exists b2 i2, inst_at f b2 i2 = Some inst /\ (b2 <> b \/ (i < i2)%nat)) as (b2 & i2 & Hat2 & Hout2).
    { destruct Hout as [Hne|[k Hk]%list_elem_of_lookup].
      - apply list_elem_of_lookup in Hin as [k Hk]. exists b', k. split; [by apply (Hat' _ _ insts')|by left].
      - rewrite lookup_drop in Hk. exists b, (S i + k)%nat. split; [by apply (Hat' _ _ insts)|right; lia]. }
    split; [|by apply (exact_stays f b i _ b2 i2 inst)]. intros Hx. destruct (Honly b2 i2 inst Hat2 Hx). lia. }
  split; [|split].
  - by apply (replace_well_formed f x (i_a copy) b (take i insts) (drop (S i) insts) copy).
  - by apply (replace_refines f x (i_a copy) b (take i insts) (drop (S i) insts) copy).
  - eapply same_results_trans; [exact Hs|apply replace_uses_results].
Qed.

Lemma propagate_copies_refines f : well_formed mc f -> well_formed mc (propagate_copies f).1 /\ refines mc f (propagate_copies f).1.
Proof.
  intros Hf. destruct (propagate_blocks_refines mc f Hf) as [Hf1 Hr1]. unfold propagate_copies.
  set (f1 := with_blocks f (map fst (map (propagate_in_block ∅) (fn_blocks f)))) in *. generalize (existsb snd (map (propagate_in_block ∅) (fn_blocks f))).
  intros changed. assert (H : forall l f2 ch, well_formed mc f2 -> refines mc f f2 -> same_results f1 f2 ->
    well_formed mc (fold_left (propagate_at (count f1)) l (f2, ch)).1 /\ refines mc f (fold_left (propagate_at (count f1)) l (f2, ch)).1).
  { induction l as [|[b i] l IH]; intros f2 ch Hf2 Hr2 Hs2; [done|]. cbn [fold_left].
    destruct (propagate_at_refines f1 f2 ch b i Hf2 Hs2) as (H1 & H2 & H3). destruct (propagate_at _ _ _) as [f3 ch3]. cbn [fst] in *.
    apply IH; [done| |done]. by eapply refines_trans. }
  by apply H.
Qed.
End Single.
