(* ===== verification/OptimizeMemory.v ===== *)
(** * OptimizeMemory: the forwarding of stores to loads

    The address that the pass remembers names the same memory as long as its base and
    its offset hold their values, and the memory holds the value that was stored there
    or read from there. *)

From S2P Require Import Prelude Arith Ir IrFold IrVerify IrDefinitions IrSem FloatSem Optimize IrSim OptimizeLocal OptimizeBlock OptimizeCopies.

Section Memory.
Context {M : Type} (mc : machine M) `{!Lawful mc} `{!IeeeFloats mc}.

Section Function.
Context (f : ir_function).
Let types := fn_temps f.
Notation typed := (inst_typed mc types).

(** ** Addresses *)

(** A base and an offset name the address [p]. *)
Definition at_address (s : temps) (a : address) (p : Z) : Prop :=
  exists b o, word mc s (ad_base a) = Some b /\ word mc s (ad_offset a) = Some o /\ p = trim mc IR_PTR (b + o).

(** Where the address of an operand is known, it is the address the operand holds. *)
Definition addresses_hold (before : list ir_inst) (s : temps) : Prop :=
  forall o p, o_type o = IR_PTR -> ad_known (address_of before o) = true -> word mc s o = Some p -> at_address s (address_of before o) p.

Lemma own_address s o p : o_type o = IR_PTR -> word mc s o = Some p -> at_address s (Address o (ir_int_op IR_I64 0) true) p.
Proof.
  intros Ht Hw. exists p, 0. split; [done|]. split; [done|]. rewrite Z.add_0_r. pose proof (word_width mc s o p Hw) as H.
  rewrite Ht in H. symmetry. by apply machine_trim_small.
Qed.

Lemma word_other s inst v s1 o : define_result mc s inst v = Some s1 -> is_result o (i_result inst) = false -> word mc s1 o = word mc s o.
Proof. intros Hd Hn. unfold word, read_value. by rewrite (read_other mc s inst v s1 o Hd Hn). Qed.

Lemma names_other s inst v s1 a p : define_result mc s inst v = Some s1 ->
  names_result (ad_base a) (i_result inst) = false -> names_result (ad_offset a) (i_result inst) = false -> at_address s a p -> at_address s1 a p.
Proof.
  intros Hd Hb Ho (b & o & Eb & Eo & ->). exists b, o. rewrite !(word_other s inst v s1) by done. done.
Qed.

Lemma address_of_last before inst o : address_of (before ++ [inst]) o =
  match temp_of o with Some _ => address_after o (address_of before o) inst | None => Address o (ir_int_op IR_I64 0) false end.
Proof. unfold address_of. destruct (temp_of o); [|done]. by rewrite fold_left_app. Qed.

(** The result of a ptradd. *)
Lemma ptradd_result s m inst s1 m1 : i_op inst = IR_PTRADD -> typed inst -> exec_inst mc s m inst = Some (Next s1 m1) ->
  forall o p, is_result o (i_result inst) = true -> o_type o = IR_PTR -> word mc s1 o = Some p ->
  exists x y, word mc s (i_a inst) = Some x /\ word mc s (i_b inst) = Some y /\ p = trim mc IR_PTR (x + y).
Proof.
  intros Op Ht E o p Ho Hty Hw. rewrite exec_is_plain in E by (by rewrite Op). destruct (words mc s (operands inst)); [|done].
  cbn [mbind option_bind] in E. unfold exec_plain, result in E. rewrite Op in E. cbn [is_integer_op] in E.
  destruct (word mc s (i_a inst)) as [x|]; [|done]. destruct (word mc s (i_b inst)) as [y|]; [|done]. cbn [mbind option_bind] in E.
  exists x, y. do 2 (split; [done|]). destruct (define_result mc s inst _) as [s2|] eqn:Ed; [|done]. injection E as -> _.
  unfold define_result in Ed. unfold is_result, is_temp in Ho. destruct (i_result inst) as [r|]; [|done]. injection Ed as <-.
  unfold word, read_value, read in Hw. destruct (o_kind o) as [|t| | | | | |]; try done. apply Nat.eqb_eq in Ho as ->.
  rewrite lookup_insert_eq in Hw. cbn in Hw. injection Hw as <-. pose proof (it_op _ _ _ Ht) as Hop. unfold op_typed in Hop.
  rewrite Op in Hop. destruct Hop as (_ & _ & ->). by rewrite Hty, !trim_trim.
Qed.

Lemma addresses_step before s m inst s1 m1 :
  typed inst -> addresses_hold before s -> exec_inst mc s m inst = Some (Next s1 m1) -> addresses_hold (before ++ [inst]) s1.
Proof.
  intros Ht HI E o p Hty. rewrite address_of_last. destruct (temp_of o) as [t|] eqn:Eo; [|done]. unfold address_after.
  destruct (exec_next mc s m inst s1 m1 E) as (v & Ed & _). destruct (is_result o (i_result inst)) eqn:Er.
  - case_bool_decide as Op; [|intros _; by apply own_address]. cbn [ad_known]. intros Hk Hw.
    apply andb_true_iff in Hk as [[_ Hna%negb_true_iff]%andb_true_iff Hnb%negb_true_iff].
    destruct (ptradd_result s m inst s1 m1 Op Ht E o p Er Hty Hw) as (x & y & Ex & Ey & ->). exists x, y. cbn.
    by rewrite !(word_other s inst v s1) by done.
  - destruct (names_result _ _ || _) eqn:En; [done|]. apply orb_false_iff in En as [Hb Ho]. intros Hk Hw.
    apply (names_other s inst v s1); try done. apply HI; [done|done|]. by rewrite <- (word_other s inst v s1 o Ed Er).
Qed.

(** ** What is remembered *)

(** The memory holds the remembered value at the remembered address. *)
Definition held_holds (h : remembered) (s : temps) (m : M) : Prop := ad_known (hd_at h) = true ->
  exists p x v, at_address s (hd_at h) p /\ mc_load mc (hd_type h) p m = Some x /\
    read_value mc s (hd_value h) = Some v /\ trim mc (hd_type h) x = v_word v.

Definition held_typed (h : remembered) : Prop := operand_typed mc types (hd_value h) /\ o_type (hd_value h) = hd_type h.

Lemma forget_holds h s m : held_holds (forget h) s m.
Proof. done. Qed.

Lemma forget_typed h : held_typed h -> held_typed (forget h).
Proof. done. Qed.

(** What an instruction that writes no memory and none of the temporaries leaves. *)
Lemma held_other h s m inst v s1 m1 :
  define_result mc s inst v = Some s1 -> (forall type p x, mc_load mc type p m = Some x -> mc_load mc type p m1 = Some x) ->
  names_result (hd_value h) (i_result inst) = false -> names_result (ad_base (hd_at h)) (i_result inst) = false ->
  names_result (ad_offset (hd_at h)) (i_result inst) = false -> held_holds h s m -> held_holds h s1 m1.
Proof.
  intros Hd Hm Hv Hb Ho H Hk. destruct (H Hk) as (p & x & w & Hn & Hl & Hr & E). exists p, x, w.
  split; [by apply (names_other s inst v s1)|]. split; [by apply Hm|]. split; [|done].
  unfold read_value in *. by rewrite (read_other mc s inst v s1 (hd_value h) Hd Hv).
Qed.

Lemma same_operand_word s a b : same_operand a b = true -> o_type a = o_type b -> word mc s a = word mc s b.
Proof.
  unfold same_operand, ir_same_scalar, word, read_value, read. intros H Ht. rewrite Ht.
  destruct (o_kind a), (o_kind b); try done; try (apply Nat.eqb_eq in H; by subst); apply Z.eqb_eq in H; by subst.
Qed.

(** ** One instruction *)

Definition address_typed (a : address) : Prop := o_type (ad_base a) = IR_PTR /\ o_type (ad_offset a) = IR_I64.

Lemma address_of_typed before o : Forall typed before -> o_type o = IR_PTR -> address_typed (address_of before o).
Proof.
  intros Hb Ho. induction before as [|inst before IH] using rev_ind.
  - unfold address_of. by destruct (temp_of o).
  - apply Forall_app in Hb as [Hb [Hi _]%Forall_cons]. rewrite address_of_last. destruct (temp_of o); [|done]. unfold address_after.
    destruct (is_result o (i_result inst)).
    + case_bool_decide as Op; [|done]. pose proof (it_op _ _ _ Hi) as Hop. unfold op_typed in Hop. rewrite Op in Hop.
      destruct Hop as (Ha & Hb' & _). done.
    + destruct (_ || _); by apply IH.
Qed.

Lemma same_address_names s a b p : same_address a b = true -> address_typed a -> address_typed b -> at_address s a p -> at_address s b p.
Proof.
  unfold same_address. intros [[_ Hb]%andb_true_iff Ho]%andb_true_iff [Ta1 Ta2] [Tb1 Tb2] (x & y & Ex & Ey & ->).
  exists x, y. rewrite <- (same_operand_word s _ _ Hb), <- (same_operand_word s _ _ Ho) by congruence. done.
Qed.

Lemma names_unique s a p q : at_address s a p -> at_address s a q -> p = q.
Proof. intros (x & y & Ex & Ey & ->) (x' & y' & Ex' & Ey' & ->). congruence. Qed.

(** What the pass keeps, of its own state and of the run. *)
Definition kept (k : list ir_inst * remembered) : Prop :=
  Forall typed k.1 /\ held_typed k.2 /\ (ad_known (hd_at k.2) = true -> address_typed (hd_at k.2)).
Definition keeps (k : list ir_inst * remembered) (s : temps) (m : M) : Prop := addresses_hold k.1 s /\ held_holds k.2 s m.

Definition forward_step (k : list ir_inst * remembered) (inst : ir_inst) : ir_inst * (list ir_inst * remembered) :=
  let '(copy, h) := forward_inst f k.1 k.2 inst in (default inst copy, (k.1 ++ [default inst copy], h)).

(** The first test of the pass. *)
Definition written (h : remembered) (inst : ir_inst) : remembered :=
  if names_result (hd_value h) (i_result inst) || names_result (ad_base (hd_at h)) (i_result inst) ||
     names_result (ad_offset (hd_at h)) (i_result inst)
  then forget h else h.

Lemma written_typed h inst : held_typed h -> (ad_known (hd_at h) = true -> address_typed (hd_at h)) ->
  held_typed (written h inst) /\ (ad_known (hd_at (written h inst)) = true -> address_typed (hd_at (written h inst))).
Proof. intros H1 H2. unfold written. by destruct (_ || _). Qed.

(** What is remembered then survives an instruction that writes no memory. *)
Lemma written_holds h s m inst v s1 m1 :
  define_result mc s inst v = Some s1 -> (forall type p x, mc_load mc type p m = Some x -> mc_load mc type p m1 = Some x) ->
  held_holds h s m -> held_holds (written h inst) s1 m1.
Proof.
  intros Hd Hm H. unfold written. destruct (_ || _) eqn:E; [apply forget_holds|].
  apply orb_false_iff in E as [[Hv Hb]%orb_false_iff Ho]. by apply (held_other h s m inst v).
Qed.

Lemma written_before h s m inst : held_holds h s m -> held_holds (written h inst) s m.
Proof. unfold written. by destruct (_ || _). Qed.

Lemma plain_memory s m inst s1 m1 : is_plain (i_op inst) = true -> exec_inst mc s m inst = Some (Next s1 m1) -> m1 = m.
Proof.
  intros Hp E. rewrite exec_is_plain in E by done. destruct (words _ _ _); [|done]. cbn [mbind option_bind] in E. unfold exec_plain in E.
  destruct (result _ _ _ _); [|done]. cbn [mbind option_bind] in E. destruct (define_result _ _ _ _); [|done]. by injection E as _ ->.
Qed.

Lemma load_result s m inst s1 m1 : i_op inst = IR_LOAD -> exec_inst mc s m inst = Some (Next s1 m1) ->
  exists p x, word mc s (i_a inst) = Some p /\ mc_load mc (i_type inst) p m = Some x /\
    define_result mc s inst (Some (Value x None)) = Some s1.
Proof.
  intros Op E. rewrite exec_is_plain in E by (by rewrite Op). destruct (words _ _ _); [|done]. cbn [mbind option_bind] in E.
  unfold exec_plain, result in E. rewrite Op in E. cbn [is_integer_op] in E. destruct (word mc s (i_a inst)) as [p|]; [|done].
  cbn [mbind option_bind] in E. destruct (mc_load mc (i_type inst) p m) as [x|] eqn:El; [|done]. cbn [mbind option_bind] in E. exists p, x.
  do 2 (split; [done|]). destruct (define_result _ _ _ _); [|done]. by injection E as ->.
Qed.

Lemma store_result s m inst s1 m1 : i_op inst = IR_STORE -> exec_inst mc s m inst = Some (Next s1 m1) ->
  exists p x, word mc s (i_a inst) = Some x /\ word mc s (i_b inst) = Some p /\ mc_store mc (i_type inst) p x m = Some m1 /\ s1 = s.
Proof.
  intros Op E. unfold exec_inst in E. destruct (words _ _ _); [|done]. cbn [mbind option_bind] in E. unfold exec_op in E. rewrite Op in E.
  destruct (word mc s (i_a inst)) as [x|]; [|done]. destruct (word mc s (i_b inst)) as [p|]; [|done]. cbn [mbind option_bind] in E.
  destruct (mc_store mc (i_type inst) p x m) as [m2|] eqn:Es; [|done]. cbn [mbind option_bind] in E. exists p, x.
  unfold define_result in E. destruct (i_result inst); [done|]. cbn [mbind option_bind] in E. injection E as <- <-. done.
Qed.

Lemma step_unchanged before h inst h2 :
  forward_inst f before h inst = (None, h2) -> kept (before, h) -> typed inst -> held_typed h2 ->
  (ad_known (hd_at h2) = true -> address_typed (hd_at h2)) ->
  (forall s m s1 m1, keeps (before, h) s m -> exec_inst mc s m inst = Some (Next s1 m1) -> held_holds h2 s1 m1) ->
  let k' := forward_step (before, h) inst in typed k'.1 /\ kept k'.2 /\ step_below mc types keeps (before, h) inst k'.1 k'.2.
Proof.
  intros E (Hb & _ & _) Ht Hty Had Hh. unfold forward_step. cbn [fst snd]. rewrite E. cbn. split; [done|].
  split; [split; [apply Forall_app; split; [done|by constructor]|done]|].
  intros s m o HI Eo. split; [exists o; split; [done|apply le_outcome_refl]|]. destruct o as [s1 m1| |]; try done. split; cbn.
  - by apply (addresses_step before s m inst s1 m1); [|apply HI|].
  - by apply (Hh s m).
Qed.

(** An instruction that the pass passes by. *)
Lemma step_other before h inst : kept (before, h) -> typed inst -> i_op inst <> IR_LOAD -> i_op inst <> IR_STORE ->
  let k' := forward_step (before, h) inst in typed k'.1 /\ kept k'.2 /\ step_below mc types keeps (before, h) inst k'.1 k'.2.
Proof.
  intros Hk Ht Hl Hs. pose proof Hk as (_ & Hty & Had). destruct (written_typed h inst Hty Had) as [Hwt Hwa].
  assert (Hpass : (forall s m s1 m1, exec_inst mc s m inst = Some (Next s1 m1) -> forall type p x, mc_load mc type p m = Some x -> mc_load mc type p m1 = Some x) ->
    forward_inst f before h inst = (None, written h inst) ->
    let k' := forward_step (before, h) inst in typed k'.1 /\ kept k'.2 /\ step_below mc types keeps (before, h) inst k'.1 k'.2).
  { intros Hm E. apply (step_unchanged before h inst (written h inst)); try done. intros s m s1 m1 [_ Hh] Ex.
    destruct (exec_next mc s m inst s1 m1 Ex) as (v & Ed & _). by apply (written_holds h s m inst v s1 m1 Ed); [apply (Hm s m s1)|]. }
  assert (Hforget : forward_inst f before h inst = (None, forget (written h inst)) ->
    let k' := forward_step (before, h) inst in typed k'.1 /\ kept k'.2 /\ step_below mc types keeps (before, h) inst k'.1 k'.2).
  { intros E. by apply (step_unchanged before h inst (forget (written h inst))). }
  unfold forward_inst in Hpass, Hforget. fold (written h inst) in Hpass, Hforget. pose proof (plain_memory) as Hplain.
  destruct (i_op inst) eqn:Op; try done; try (apply Hforget; reflexivity);
    apply Hpass; try reflexivity; intros s m s1 m1 Ex type p x Hx;
    first [rewrite (plain_memory s m inst s1 m1) by (by rewrite ?Op); done
          |exfalso; apply (exec_terminates mc s m inst s1 m1); [by rewrite Op|exact Ex]
          |idtac].
  - (* a new slot *)
    unfold exec_inst in Ex. destruct (words _ _ _) as [xs|] eqn:Ew; [|done]. cbn [mbind option_bind] in Ex. unfold exec_op in Ex.
    rewrite Op in Ex. cbn [has_effect] in Ex. unfold exec_effect in Ex. rewrite Ew in Ex. cbn [mbind option_bind] in Ex.
    destruct (mc_effect mc (shape inst) xs m) as [[z m2]|] eqn:Em; [|done]. destruct (define_result _ _ _ _); [|done]. injection Ex as _ <-.
    by apply (slot_keeps (shape inst) xs m z m2 Op Em).
Qed.

Lemma step_load before h inst : kept (before, h) -> typed inst -> i_op inst = IR_LOAD ->
  let k' := forward_step (before, h) inst in typed k'.1 /\ kept k'.2 /\ step_below mc types keeps (before, h) inst k'.1 k'.2.
Proof.
  intros Hk Ht Op. pose proof Hk as (Hb & Hty & Had). destruct (written_typed h inst Hty Had) as [Hwt Hwa].
  pose proof (it_op _ _ _ Ht) as Hop. unfold op_typed in Hop. rewrite Op in Hop. rename Hop into Hptr.
  destruct (it_named _ _ _ Ht) as [r Hr]; [by rewrite Op|].
  pose proof (address_of_typed before (i_a inst) Hb Hptr) as Hat.
  destruct (forward_inst f before h inst) as [copy h2] eqn:Ef. pose proof Ef as Ef'. unfold forward_inst in Ef'. rewrite Op in Ef'.
  fold (written h inst) in Ef'. destruct (ad_known (hd_at (written h inst)) && _ && _) eqn:Em.
  - (* the value is known *)
    injection Ef' as <- <-. apply andb_true_iff in Em as [[Ekn Esame]%andb_true_iff Ety%bool_decide_eq_true].
    unfold forward_step. cbn [fst snd]. rewrite Ef. cbn [fst snd].
    change (default inst (Some (make_copy inst (hd_value (written h inst))))) with (make_copy inst (hd_value (written h inst))).
    assert (Htc : typed (make_copy inst (hd_value (written h inst)))).
    { apply copy_typed; [apply Ht|by exists r|apply Hwt|]. destruct Hwt as [_ Hwt]. congruence. }
    split; [done|]. split; [split; [apply Forall_app; split; [done|by constructor]|done]|].
    intros s m o [HA HH] Eo. destruct (exec_goes_on mc s m inst o) as (s1 & m1 & ->); [by rewrite Op|done|].
    pose proof (written_before h s m inst HH) as HW.
    assert (m1 = m) as -> by (apply (plain_memory s m inst s1 m1); [by rewrite Op|done]).
    destruct (load_result s m inst s1 m Op Eo) as (p & x & Ep & El & Ed).
    destruct (HW Ekn) as (q & x' & v & Hn & Hl & Hv & Ex).
    assert (ad_known (address_of before (i_a inst)) = true) as Hka.
    { unfold same_address in Esame. by apply andb_true_iff in Esame as [[[_ ?]%andb_true_iff _]%andb_true_iff _]. }
    pose proof (HA (i_a inst) p Hptr Hka Ep) as Hp. pose proof (same_address_names s _ _ q Esame (Hwa Ekn) Hat Hn) as Hq.
    assert (q = p) as -> by (by apply (names_unique s (address_of before (i_a inst)))). rewrite Ety, El in Hl. injection Hl as <-.
    destruct (define_below mc types s inst (Value x None) v s1) as (s2 & Ed2 & Ls); [apply Ht| |done|].
    { split; [cbn; rewrite <- Ety, Ex; destruct Hwt as [_ <-]; symmetry; by apply (read_value_type mc s)|done]. }
    split.
    + exists (Next s2 m). rewrite exec_copy, Hv. cbn [mbind option_bind]. by rewrite Ed2.
    + split; cbn.
      * pose proof (addresses_step before s m inst s1 m Ht HA Eo) as HA1. intros o p' Ho. specialize (HA1 o p' Ho).
        rewrite !address_of_last in *. unfold address_after in *. cbn [i_result i_op make_copy]. rewrite Op in HA1.
        rewrite (bool_decide_false (IR_LOAD = IR_PTRADD)) in HA1 by done. by rewrite (bool_decide_false (IR_COPY = IR_PTRADD)) by done.
      * by apply (written_holds h s m inst (Some (Value x None)) s1 m).
  - (* a new value *)
    assert (copy = None) as -> by (by destruct (names_result _ _ || _) in Ef'; injection Ef' as <- _).
    destruct (names_result (ad_base (address_of before (i_a inst))) _ || _) eqn:En; injection Ef' as <-.
    + by apply (step_unchanged before h inst (forget (written h inst))).
    + apply orb_false_iff in En as [Hnb Hno]. apply (step_unchanged before h inst _ Ef); try done.
      * pose proof (it_result _ _ _ Ht r Hr) as Htr. rewrite Hr. unfold held_typed, operand_typed, ir_temp_op. cbn. unfold types in *.
        by rewrite Htr.
      * intros s m s1 m1 [HA HH] Ex Hkn. cbn [hd_at hd_type hd_value] in *. destruct (load_result s m inst s1 m1 Op Ex) as (p & x & Ep & El & Ed).
        assert (m1 = m) as -> by (apply (plain_memory s m inst s1 m1); [by rewrite Op|done]).
        exists p, x, (Value (trim mc (i_type inst) x) None). split; [|split; [done|split; [|done]]].
        -- apply (names_other s inst (Some (Value x None)) s1); try done. by apply HA.
        -- rewrite Hr. unfold read_value, read, ir_temp_op. cbn. unfold define_result in Ed. rewrite Hr in Ed. injection Ed as <-.
           rewrite lookup_insert_eq. cbn. unfold trim_value. cbn. pose proof (it_result _ _ _ Ht r Hr) as Htr. unfold types in Htr. rewrite Htr. cbn.
           by rewrite trim_trim.
Qed.

Lemma step_store before h inst : kept (before, h) -> typed inst -> i_op inst = IR_STORE ->
  let k' := forward_step (before, h) inst in typed k'.1 /\ kept k'.2 /\ step_below mc types keeps (before, h) inst k'.1 k'.2.
Proof.
  intros Hk Ht Op. pose proof Hk as (Hb & Hty & Had). destruct (written_typed h inst Hty Had) as [Hwt Hwa].
  pose proof (it_op _ _ _ Ht) as Hop. unfold op_typed in Hop. rewrite Op in Hop. destruct Hop as [Hta Hptr].
  pose proof (address_of_typed before (i_b inst) Hb Hptr) as Hat. destruct (typed_operands mc types inst Ht) as (Ta & _).
  destruct (forward_inst f before h inst) as [copy h2] eqn:Ef. pose proof Ef as Ef'. unfold forward_inst in Ef'. rewrite Op in Ef'.
  fold (written h inst) in Ef'. injection Ef' as <- Eh. destruct (ad_known (address_of before (i_b inst))) eqn:Ek.
  - subst h2. apply (step_unchanged before h inst _ Ef); try done. intros s m s1 m1 [HA HH] Ex _. cbn [hd_at hd_type hd_value].
    destruct (store_result s m inst s1 m1 Op Ex) as (p & x & Ex1 & Ep & Es & ->). unfold word in Ex1.
    destruct (read_value mc s (i_a inst)) as [v|] eqn:Ev; [|done]. injection Ex1 as <-.
    exists p, (wrap (mc_bits mc (i_type inst)) (v_word v)), v. split; [by apply HA|]. split; [by apply load_stored in Es|]. split; [done|].
    change (wrap (mc_bits mc (i_type inst)) (v_word v)) with (trim mc (i_type inst) (v_word v)). rewrite trim_trim by done. rewrite <- Hta.
    by apply (read_value_type mc s).
  - assert (h2 = forget (written h inst)) as ->; [|by apply (step_unchanged before h inst (forget (written h inst)))].
    subst h2. unfold same_address. by rewrite Ek, andb_false_r, orb_true_r.
Qed.

Lemma step_forward k inst : kept k -> typed inst ->
  typed (forward_step k inst).1 /\ kept (forward_step k inst).2 /\
  step_below mc types keeps k inst (forward_step k inst).1 (forward_step k inst).2.
Proof.
  destruct k as [before h]. intros Hk Ht. destruct (decide (i_op inst = IR_LOAD)); [by apply step_load|].
  destruct (decide (i_op inst = IR_STORE)); [by apply step_store|by apply step_other].
Qed.

Lemma forward_rewrites before h insts : (forward_block f before h insts).1 = rewrite_all forward_step (before, h) insts.
Proof.
  revert before h. induction insts as [|inst insts IH]; intros before h; [done|]. cbn [forward_block rewrite_all].
  destruct (forward_inst f before h inst) as [copy h2] eqn:E.
  assert (forward_step (before, h) inst = (default inst copy, (before ++ [default inst copy], h2))) as ->.
  { unfold forward_step. cbn [fst snd]. by rewrite E. }
  cbn [fst snd]. rewrite <- IH. by destruct (forward_block f _ h2 insts).
Qed.
End Function.

Lemma forward_stores_refines f : well_formed mc f -> well_formed mc (forward_stores f).1 /\ refines mc f (forward_stores f).1.
Proof.
  intros Hf. unfold forward_stores. cbn [fst]. rewrite map_map.
  apply (map_blocks_refines mc (fun insts => (forward_block f [] (Held no_address IR_VOID none) insts).1)); [done|done|].
  intros insts _ Ht He. rewrite forward_rewrites.
  assert (Hk : kept f ([], Held no_address IR_VOID none)) by done.
  split; [|split].
  - by apply (rewrite_all_typed mc (fn_temps f) (kept f) keeps _ (step_forward f)).
  - apply (ends_rewritten insts); [done| |].
    + generalize ([] : list ir_inst, Held no_address IR_VOID none). clear. induction insts as [|inst insts IH]; intros k; cbn; [done|]. by rewrite IH.
    + clear Ht He Hk. generalize ([] : list ir_inst, Held no_address IR_VOID none).
      induction insts as [|inst insts IH]; intros known [|k] i i'; cbn; try done; [|apply IH].
      intros [= <-] [= <-]. unfold forward_step. destruct (forward_inst f known.1 known.2 inst) as [[copy|] h2] eqn:E; cbn; [|done].
      unfold forward_inst in E. destruct (i_op inst); try done. destruct (_ && _); [by injection E as <- _|by destruct (_ || _)].
  - intros s m out E.
    destruct (rewrite_all_below mc (fn_temps f) (kept f) keeps _ (step_forward f) ([], Held no_address IR_VOID none) insts s m out)
      as (out' & E' & L & _); try done; [|by exists out'].
    split; [|done]. intros o p Hty Hkn Hw. cbn [fst] in *. unfold address_of in *. destruct (temp_of o); [by apply own_address|done].
Qed.
End Memory.
