(* ===== verification/OptimizeDead.v ===== *)
(** * OptimizeDead: the removal of unused results

    An operation without effect goes when nothing uses its result, or when its block
    defines the temporary again before any use. *)

From S2P Require Import Prelude Arith Ir IrFold IrVerify IrDefinitions IrSem FloatSem Optimize IrSim OptimizeLocal OptimizeBlock OptimizeCounts.

(** A function whose locals are all in temporaries. *)
Definition no_slots (f : ir_function) : Prop := Forall (Forall (fun inst => i_op inst <> IR_SLOT)) (fn_blocks f).

Section Dead.
Context {M : Type} (mc : machine M) `{!Lawful mc} `{!IeeeFloats mc}.

(** ** Unused results *)

Section Unused.
Context (f : ir_function) (Hf : well_formed mc f) (Hslots : no_slots f).
Let types := fn_temps f.
Let c := count f.
Notation typed := (inst_typed mc types).

Definition unused (t : nat) : Prop := uses c t = O.

Lemma read_used inst t : inst ∈ all_insts f -> t ∈ reads inst -> ~ unused t.
Proof.
  intros Hin (o & Ho & Ht)%list_elem_of_omap Hu. unfold unused, c in Hu. cbn [uses count] in Hu.
  assert (is_temp o t = false) as H.
  { apply (proj1 (times_zero _ _) Hu). apply list_elem_of_bind. by exists inst. }
  unfold is_temp in H. destruct (o_kind o); simplify_eq. by rewrite Nat.eqb_refl in H.
Qed.

(** What the block does not need of the state before [rest]. *)
Definition idle (rest : list ir_inst) (t : nat) : Prop := unused t \/ overwritten t rest = true.

Lemma reads_operands inst t : existsb (fun o => is_temp o t) (operands inst) = true <-> t ∈ reads inst.
Proof.
  unfold reads. rewrite existsb_exists, list_elem_of_omap. split.
  - intros (o & Ho & Ht). exists o. rewrite list_elem_of_In. split; [done|]. unfold is_temp in Ht. destruct (o_kind o); try done.
    by apply Nat.eqb_eq in Ht as ->.
  - intros (o & Ho & Ht). exists o. rewrite <- list_elem_of_In. split; [done|]. unfold is_temp. destruct (o_kind o); simplify_eq.
    apply Nat.eqb_refl.
Qed.

Lemma idle_reads inst rest t : inst ∈ all_insts f -> t ∈ reads inst -> ~ idle (inst :: rest) t.
Proof.
  intros Hin Hr [Hu|Ho]; [by apply (read_used inst t)|]. cbn [overwritten] in Ho. apply reads_operands in Hr. by rewrite Hr in Ho.
Qed.

(** A dead instruction changes nothing but its result. *)
Lemma dead_step inst rest s m o : typed inst -> i_op inst <> IR_SLOT -> dead c inst rest = true -> exec_inst mc s m inst = Some o ->
  exists t v, o = Next (<[t := v]> s) m /\ idle rest t.
Proof.
  intros Ht Hns Hd E. unfold dead in Hd. destruct (i_result inst) as [t|] eqn:Er; [|done].
  apply andb_true_iff in Hd as [Hp Hd]. pose proof (it_op _ _ _ Ht) as Hop. unfold op_typed in Hop.
  assert (is_plain (i_op inst) = true) as Hpl by (destruct (i_op inst); try done; congruence).
  rewrite exec_is_plain in E by done. destruct (words _ _ _); [|done]. cbn [mbind option_bind] in E. unfold exec_plain in E.
  destruct (result mc s m inst) as [v|]; [|done]. cbn [mbind option_bind] in E. unfold define_result in E. rewrite Er in E.
  cbn [mbind option_bind] in E. injection E as <-. eexists t, _. split; [done|]. apply orb_true_iff in Hd as [Hd%Nat.eqb_eq|Hd]; [by left|by right].
Qed.

Lemma remove_unused_block insts : Forall typed insts -> (forall inst, inst ∈ insts -> inst ∈ all_insts f /\ i_op inst <> IR_SLOT) -> ends insts ->
  forall s s' m out, le mc types (idle (remove_unused c insts)) s s' -> exec_block mc s m insts = Some out ->
  exists out', exec_block mc s' m (remove_unused c insts) = Some out' /\ le_outcome mc types unused out out'.
Proof.
  intros Ht. induction Ht as [|inst insts Hi Hrest IH]; intros Hin He s s' m out L E; [done|]. cbn [remove_unused exec_block] in *.
  destruct (exec_inst mc s m inst) as [o|] eqn:Eo; [|done]. destruct (Hin inst ltac:(by left)) as [Hf1 Hns].
  assert (He' : ends insts).
  { intros k i Hk Hti. specialize (He (S k) i Hk Hti). cbn in He. lia. }
  specialize (IH (fun i H => Hin i (list_elem_of_further _ _ _ H)) He').
  destruct (dead c inst (remove_unused c insts)) eqn:Ed.
  - destruct (dead_step inst (remove_unused c insts) s m o Hi Hns Ed Eo) as (t & v & -> & Hidle). apply (IH (<[t:=v]> s) s' m out); [|done].
    intros u w Hu Hw. apply L; [done|]. rewrite lookup_insert_ne in Hw; [done|]. intros <-. by apply Hu.
  - cbn [exec_block]. destruct (exec_inst_mono mc types (idle (inst :: remove_unused c insts)) inst s s' m o Hi) as (o' & -> & Ho);
      [intros t Hr; by apply idle_reads|done|done|].
    destruct o as [s1 m1|b s1 m1|x m1], o' as [s2 m2|b2 s2 m2|x2 m2]; try done.
    + destruct Ho as [<- Ls]. apply (IH s1 s2 m1 out); [|done]. intros u w Hu Hw. apply Ls; [|done]. intros [[Hun|Hov] Hne].
      * apply Hu. by left.
      * apply Hu. right. cbn [overwritten] in Hov. destruct (existsb _ _); [done|]. destruct (defines u inst) eqn:Edef; [|done].
        by apply defines_spec in Edef.
    + injection E as <-. destruct Ho as (<- & <- & -> & ->). eexists. split; [done|]. cbn. do 2 (split; [done|]).
      eapply le_weaken; [|exact L]. intros t [Hu|Hov]; [done|]. exfalso.
      assert (is_terminator (i_op inst) = true) as Hti.
      { destruct (is_terminator (i_op inst)) eqn:Eti; [done|]. by destruct (exec_goes_on mc s m inst _ Eti Eo) as (? & ? & ?). }
      pose proof (He O inst eq_refl Hti) as Hl. cbn in Hl. destruct insts; [|done]. cbn [remove_unused overwritten] in Hov.
      destruct (existsb _ _); [done|]. unfold defines in Hov. pose proof (it_op _ _ _ Hi) as Hop. unfold op_typed in Hop.
      assert (i_result inst = None) as En by (destruct (i_op inst); try discriminate Hti; tauto). by rewrite En in Hov.
    + injection E as <-. destruct Ho as [<- <-]. by eexists.
Qed.

Lemma remove_unused_elem insts inst : inst ∈ remove_unused c insts -> inst ∈ insts.
Proof.
  induction insts as [|i insts IH]; [done|]. cbn [remove_unused]. destruct (dead c i _); rewrite ?elem_of_cons; tauto.
Qed.

Lemma remove_unused_ends insts : ends insts -> ends (remove_unused c insts).
Proof.
  induction insts as [|i insts IH]; intros He; [done|]. cbn [remove_unused].
  assert (He' : ends insts) by (intros k j Hk Hti; specialize (He (S k) j Hk Hti); cbn in He; lia). specialize (IH He').
  destruct (dead c i _); [done|]. intros [|k] j Hk Hti; cbn in *; [|f_equal; by apply (IH k j)].
  injection Hk as ->. pose proof (He O j eq_refl Hti) as Hl. cbn in Hl. by destruct insts.
Qed.

Lemma remove_unused_refines : well_formed mc (remove_unused_results f).1 /\ refines mc f (remove_unused_results f).1.
Proof.
  unfold remove_unused_results. cbn [fst]. fold c. pose proof Hf as [Ht Hp He]. split.
  - split; [|done|]; apply Forall_fmap.
    + eapply Forall_impl; [exact Ht|]. intros insts Hi. apply Forall_forall. intros i Hin%remove_unused_elem. rewrite Forall_forall in Hi. by apply Hi.
    + eapply Forall_impl; [exact He|]. intros insts. apply remove_unused_ends.
  - apply (lockstep mc types unused); [done|]. intros b. rewrite body_map by done. intros s s' m out L E. unfold body in *.
    destruct (fn_blocks f !! b) as [insts|] eqn:Eb; [|done]. change (default [] (Some insts)) with insts in *.
    apply (remove_unused_block insts) with (s := s); [by eapply Forall_lookup_1 in Ht| |by eapply Forall_lookup_1 in He| |done].
    + intros i Hi. split; [apply concat_elem; exists insts; split; [by eapply list_elem_of_lookup_2|done]|].
      pose proof (Forall_lookup_1 _ _ _ _ Hslots Eb) as Hns. rewrite Forall_forall in Hns. by apply Hns.
    + eapply le_weaken; [|exact L]. by left.
Qed.
End Unused.
End Dead.
