(* ===== verification/OptimizeGraph.v ===== *)
(** * OptimizeGraph: the blocks that a function keeps

    The search for the blocks that a path from the entry reaches, and the removal of the
    others, which gives those that stay new numbers. *)

From S2P Require Import Prelude Arith Ir IrFold IrVerify IrDefinitions IrSem Optimize IrSim OptimizeLocal OptimizeBlock OptimizeCopies OptimizeCounts.

(** ** The search *)

Section Mark.
Context (f : ir_function).
Let n := length (fn_blocks f).

Definition is_reached (reached : list bool) (b : nat) : Prop := reached !! b = Some true.

(** The next blocks of [b] are marked where they exist. *)
Definition closed_at (reached : list bool) (b : nat) : Prop := forall t, t ∈ next_blocks (block f b) -> is_reached reached t \/ (n <= t)%nat.

Lemma push_all bs reached pending reached' pending' : length reached = n -> fold_left push_next bs (reached, pending) = (reached', pending') ->
  length reached' = n /\ (times negb reached' + length pending' = times negb reached + length pending)%nat /\
  (forall b, is_reached reached b -> is_reached reached' b) /\
  (forall b, b ∈ bs -> is_reached reached' b \/ (n <= b)%nat) /\
  (forall b, b ∈ pending -> b ∈ pending') /\
  (forall b, is_reached reached' b -> is_reached reached b \/ b ∈ pending').
Proof.
  revert reached pending. induction bs as [|b bs IH]; intros reached pending Hl; cbn [fold_left].
  - intros [= <- <-]. repeat split; auto. by intros b ?%elem_of_nil.
  - unfold push_next at 2. destruct (reached !! b) as [[|]|] eqn:E; cbn [from_option id]; intros H.
    + destruct (IH _ _ Hl H) as (H1 & H2 & H3 & H4 & H5 & H6). do 3 (split; [done|]). split; [|done].
      intros x [->|Hx]%elem_of_cons; [left; by apply H3|by apply H4].
    + destruct (IH _ _ ltac:(by rewrite length_insert) H) as (H1 & H2 & H3 & H4 & H5 & H6).
      assert (Hb : is_reached (<[b := true]> reached) b) by (apply list_lookup_insert_eq; by eapply lookup_lt_Some).
      assert (Hk : forall x, is_reached reached x -> is_reached (<[b := true]> reached) x).
      { intros x Hx. destruct (decide (x = b)) as [->|]; [done|]. unfold is_reached. by rewrite list_lookup_insert_ne. }
      split; [done|]. split; [pose proof (times_update negb reached b _ true E) as Hn; cbn [negb] in Hn; cbn in H2; lia|]. split; [by intros x Hx; apply H3, Hk|].
      split; [intros x [->|Hx]%elem_of_cons; [left; by apply H3|by apply H4]|]. split; [intros x Hx; apply H5; by right|].
      intros x Hx. destruct (H6 x Hx) as [Hr|]; [|by right]. destruct (decide (x = b)) as [->|]; [right; apply H5; by left|].
      left. unfold is_reached in *. by rewrite list_lookup_insert_ne in Hr.
    + destruct (IH _ _ Hl H) as (H1 & H2 & H3 & H4 & H5 & H6). do 3 (split; [done|]). split; [|done].
      intros x [->|Hx]%elem_of_cons; [right; rewrite <- Hl; by apply lookup_ge_None|by apply H4].
Qed.

Lemma mark_loop_spec fuel reached pending :
  length reached = n -> (times negb reached + length pending <= fuel)%nat ->
  (forall b, is_reached reached b -> b ∈ pending \/ closed_at reached b) ->
  exists reached', mark_loop fuel f reached pending = Some reached' /\ length reached' = n /\
    (forall b, is_reached reached b -> is_reached reached' b) /\ forall b, is_reached reached' b -> closed_at reached' b.
Proof.
  revert reached pending. induction fuel as [|fuel IH]; intros reached [|b pending] Hl Hfuel Hc; cbn [mark_loop]; cbn [length] in Hfuel; try lia.
  1,2: (exists reached; repeat split; [done|done|]; intros b Hb; by destruct (Hc b Hb) as [?%elem_of_nil|]).
  destruct (fold_left push_next (next_blocks (block f b)) (reached, pending)) as [r1 p1] eqn:E.
  destruct (push_all _ _ _ _ _ Hl E) as (H1 & H2 & H3 & H4 & H5 & H6).
  destruct (IH r1 p1) as (r2 & E2 & L2 & K2 & C2); [done|lia| |].
  - intros x Hx. destruct (H6 x Hx) as [Hr|]; [|by left]. destruct (Hc x Hr) as [[->|Hp]%elem_of_cons|Hcl]; [by right|left; by apply H5|].
    right. intros t Ht. destruct (Hcl t Ht); [left; by apply H3|by right].
  - exists r2. split; [done|]. split; [done|]. split; [intros x Hx; by apply K2, H3|done].
Qed.

(** The search ends, and it marks the entry and what a marked block goes to. *)
Lemma mark_reachable_spec : exists reached, mark_reachable f = Some reached /\ length reached = n /\
  ((0 < n)%nat -> is_reached reached 0) /\ forall b, is_reached reached b -> closed_at reached b.
Proof.
  unfold mark_reachable. fold n. destruct n as [|k] eqn:En; [exists []; repeat split; [lia|by intros b Hb]|].
  destruct (mark_loop_spec (S k) (<[0%nat := true]> (replicate (S k) false)) [0%nat]) as (r & E & L & K & C).
  - by rewrite length_insert, length_replicate.
  - change (<[0%nat := true]> (replicate (S k) false)) with (true :: replicate k false). rewrite count_cons. cbn [negb length].
    assert (times negb (replicate k false) = k) as ->; [|lia]. clear. induction k as [|k IH]; [done|]. cbn [replicate].
    rewrite count_cons. cbn. by f_equal.
  - intros b Hb. left. destruct b as [|b]; [by left|]. unfold is_reached in Hb. cbn in Hb. by apply lookup_replicate in Hb as [Hb _].
  - rewrite En in L. exists r. split; [done|]. split; [done|]. split; [|done]. intros _. apply K. done.
Qed.
End Mark.

(** ** The numbers of the blocks *)

Lemma new_number_S x l b : new_number (x :: l) (S b) = ((if x : bool then 1 else 0) + new_number l b)%nat.
Proof. unfold new_number. cbn [take]. rewrite count_cons. by destruct x. Qed.

Lemma marked_lookup {A} reached (l : list A) b x : length reached = length l -> is_reached reached b -> l !! b = Some x ->
  marked reached l !! new_number reached b = Some x.
Proof.
  revert l b. induction reached as [|r reached IH]; intros [|y l] b; try done. cbn [length]. intros [= Hl]. destruct b as [|b].
  - intros [= ->] [= ->]. done.
  - intros Hr Hx. rewrite new_number_S. unfold marked. cbn [zip zip_with List.filter fst]. specialize (IH l b Hl Hr Hx).
    unfold marked in IH. by destruct r.
Qed.

Lemma marked_elem {A} reached (l : list A) x : x ∈ marked reached l -> x ∈ l.
Proof.
  revert l. induction reached as [|r reached IH]; intros [|y l]; try (by intros ?%elem_of_nil). unfold marked. cbn [zip zip_with List.filter fst].
  destruct r; cbn [map snd].
  - intros [->|H]%elem_of_cons; [by left|right; by apply IH].
  - intros H. right. by apply IH.
Qed.

Lemma marked_all {A} reached (l : list A) : length reached = length l -> length (marked reached l) = length l -> marked reached l = l /\ forall b, (b < length l)%nat -> is_reached reached b.
Proof.
  revert l. induction reached as [|r reached IH]; intros [|y l]; try done; [by split; [|cbn; lia]|]. cbn [length]. intros [= Hl].
  assert (length (marked reached l) <= length l)%nat as Hle.
  { clear. revert l. induction reached as [|r reached IH]; intros [|y l]; cbn; try lia. unfold marked in *. cbn [zip zip_with List.filter fst].
    specialize (IH l). destruct r; cbn; lia. }
  unfold marked in *. cbn [zip zip_with List.filter fst]. destruct r; cbn [map snd length]; [|lia]. intros [= Hm].
  destruct (IH l Hl Hm) as [-> Hall]. split; [done|]. intros [|b] Hb; [done|]. apply (Hall b). lia.
Qed.

(** ** Blocks under other numbers *)

Lemma goes_operand {M} (s : gmap nat value) (m : M) o b s1 m1 : goes_to_block o s m = Some (Goes b s1 m1) -> block_of o = Some b.
Proof. unfold goes_to_block, block_of. destruct (o_kind o); try done. by intros [= -> _ _]. Qed.

Section Move.
Context {M : Type} (mc : machine M) `{!Lawful mc}.

Lemma exec_goes_next s m inst b s1 m1 : exec_inst mc s m inst = Some (Goes b s1 m1) -> b ∈ next_blocks [inst] /\ is_terminator (i_op inst) = true.
Proof.
  intros E. assert (Ht : is_terminator (i_op inst) = true).
  { destruct (is_terminator (i_op inst)) eqn:Ht; [done|]. by destruct (exec_goes_on mc s m inst _ Ht E) as (? & ? & ?). }
  split; [|done]. unfold exec_inst in E. destruct (words mc s (operands inst)); [|done]. cbn [mbind option_bind] in E.
  unfold next_blocks. cbn [last]. unfold exec_op in E. destruct (i_op inst); try discriminate Ht.
  - apply goes_operand in E as ->. by left.
  - destruct (word mc s (i_a inst)); [|done]. cbn [mbind option_bind] in E. apply goes_operand in E.
    apply elem_of_app. destruct (negb _); rewrite E; [right|left]; by left.
  - destruct (read_value mc s (i_a inst)) as [v|]; [|done]. cbn [mbind option_bind] in E. destruct (v_flags v); [|done].
    cbn [mbind option_bind] in E. apply goes_operand in E. apply elem_of_app. destruct (Z.testbit _ _); rewrite E; [right|left]; by left.
  - by destruct (read mc s (i_a inst)).
  - done.
Qed.

(** A block goes to one of its next blocks. *)
Lemma goes_next insts s m b s1 m1 : ends insts -> exec_block mc s m insts = Some (Goes b s1 m1) -> b ∈ next_blocks insts.
Proof.
  intros He. revert s m. induction insts as [|inst insts IH]; intros s m; [done|]. cbn [exec_block].
  destruct (exec_inst mc s m inst) as [[s2 m2|b2 s2 m2|x m2]|] eqn:E; try done.
  - intros H. assert (He' : ends insts) by (intros k i Hk Hti; specialize (He (S k) i Hk Hti); cbn in He; lia).
    specialize (IH He' _ _ H). destruct insts; [done|]. exact IH.
  - intros [= <- _ _]. destruct (exec_goes_next _ _ _ _ _ _ E) as [H Ht]. specialize (He O inst eq_refl Ht). cbn in He.
    by destruct insts.
Qed.

Section Types.
Context (types : list ir_type) (move : nat -> nat).
Notation typed := (inst_typed mc types).
Notation nowhere := (fun _ : nat => False).

(** The same outcome, with the block moved. *)
Definition le_moved (out out' : @outcome M) : Prop :=
  match out, out' with
  | Goes b s m, Goes b' s' m' => b' = move b /\ m = m' /\ le mc types nowhere s s'
  | _, _ => le_outcome mc types nowhere out out'
  end.

Lemma renumber_block_typed o : operand_typed mc types o -> operand_typed mc types (renumber_block move o).
Proof. unfold operand_typed, renumber_block. by destruct (o_kind o) eqn:K; rewrite ?K. Qed.

Lemma renumber_block_type o : o_type (renumber_block move o) = o_type o.
Proof. unfold renumber_block. by destruct (o_kind o). Qed.

Lemma renumber_targets_typed inst : typed inst -> typed (renumber_targets move inst).
Proof.
  intros [Ho Hr Hop Hn]. split; [|done| |done].
  - unfold operands in *. rewrite !Forall_cons in *. cbn. destruct Ho as (? & ? & ? & ?). auto using renumber_block_typed.
  - unfold op_typed in *. cbn. rewrite !renumber_block_type. done.
Qed.

Lemma renumber_block_le s s' o : operand_typed mc types o -> le mc types nowhere s s' -> read_le mc s s' o (renumber_block move o).
Proof.
  intros Ho L. split; [by rewrite renumber_block_type|]. pose proof (read_below mc types nowhere s s' o Ho ltac:(auto) L) as [_ H].
  unfold renumber_block. destruct (o_kind o) eqn:K; try exact H. unfold read. rewrite K. intros x [= <-]. by exists None.
Qed.

Lemma renumber_alike s s' inst : typed inst -> le mc types nowhere s s' -> alike mc move s s' inst (renumber_targets move inst).
Proof.
  intros [Ho _ _ _] L. split; try done.
  - unfold operands in *. cbn. rewrite !Forall_cons in Ho. destruct Ho as (Ha & Hb & Hc & Hargs).
    repeat (constructor; [by apply renumber_block_le|]). apply Forall2_same_length_lookup. split; [done|]. intros i o o' Hi Hi'. simplify_eq.
    apply (read_below mc types nowhere); [by eapply Forall_lookup_1|auto|done].
  - intros _ b. cbn. unfold renumber_block. repeat split; intros K; by rewrite K.
Qed.

Lemma renumber_block_below insts : Forall typed insts -> forall s s' m out, le mc types nowhere s s' -> exec_block mc s m insts = Some out ->
  exists out', exec_block mc s' m (map (renumber_targets move) insts) = Some out' /\ le_moved out out'.
Proof.
  intros Ht. induction Ht as [|inst insts Hi _ IH]; intros s s' m out L; [done|]. cbn [map exec_block].
  destruct (exec_inst mc s m inst) as [o|] eqn:E; [|done].
  pose proof (exec_inst_alike mc _ _ _ _ _ _ _ (renumber_alike s s' inst Hi L) E) as H. destruct o as [s1 m1|b s1 m1|x m1]; unfold outcome_alike in H.
  - destruct H as (v & v' & s1' & E1 & Lv & E2 & ->). apply IH.
    eapply le_weaken; [|eapply (define_alike mc types nowhere s s' inst (renumber_targets move inst)); [done|done|apply Hi|exact Lv|done|done|done]].
    by intros t [].
  - destruct H as (-> & -> & ->). intros [= <-]. by eexists.
  - rewrite H. intros [= <-]. by eexists.
Qed.
End Types.

(** ** The removal of the blocks that nothing reaches *)

Context (f : ir_function) (Hf : well_formed mc f).

Lemma next_renumber number insts : next_blocks (map (renumber_targets number) insts) = map number (next_blocks insts).
Proof.
  unfold next_blocks. rewrite fmap_last. destruct (last insts) as [inst|]; [|done]. cbn.
  assert (forall o, option_list (block_of (renumber_block number o)) = map number (option_list (block_of o))) as H.
  { intros o. unfold renumber_block, block_of. by destruct (o_kind o) eqn:K; cbn; rewrite ?K. }
  by destruct (i_op inst); rewrite ?H, ?map_app.
Qed.

Lemma unreachable_typed reached number : well_formed mc (with_blocks f (map (map (renumber_targets number)) (marked reached (fn_blocks f)))).
Proof.
  destruct Hf as [Ht Hp He]. split; [|done|]; apply Forall_fmap, Forall_forall; intros insts Hin%marked_elem.
  - rewrite Forall_forall in Ht. specialize (Ht _ Hin). apply Forall_fmap. eapply Forall_impl; [exact Ht|]. intros i. apply renumber_targets_typed.
  - rewrite Forall_forall in He. specialize (He _ Hin). intros k i Hk Hti. rewrite list_lookup_fmap in Hk. rewrite length_fmap.
    destruct (insts !! k) as [j|] eqn:E; [|done]. injection Hk as <-. by apply (He k j).
Qed.

(** The points of the two functions: a reached block and its new number, or no block at all. *)
Definition at_moved (reached : list bool) (_ : nat) (p q : @point M) : Prop :=
  pt_memory p = pt_memory q /\ le mc (fn_temps f) (fun _ => False) (pt_temps p) (pt_temps q) /\
  ((length (fn_blocks f) <= pt_block p)%nat \/ (is_reached reached (pt_block p) /\ pt_block q = new_number reached (pt_block p))).

Lemma remove_unreachable_refines : exists g changed, remove_unreachable_blocks f = Some (g, changed) /\ well_formed mc g /\ refines mc f g.
Proof.
  destruct (mark_reachable_spec f) as (reached & E & L & H0 & Hc). unfold remove_unreachable_blocks. rewrite E. cbn [mbind option_bind]. cbv zeta.
  do 2 eexists. split; [reflexivity|]. destruct (length (marked reached (fn_blocks f)) =? length (fn_blocks f))%nat eqn:El; cbn [negb].
  - apply Nat.eqb_eq in El. destruct (marked_all reached (fn_blocks f) L El) as [-> _]. destruct f. split; [done|apply refines_refl].
  - clear El. split; [apply unreachable_typed|].
    apply (simulation_refines mc f _ (at_moved reached)); [|done|].
    + intros k [b s m] [b' s' m'] out (Em & Ls & Hb) Ef. cbn [pt_temps pt_memory pt_block] in Em, Ls, Hb. subst m'. unfold at_point in *. cbn [pt_temps pt_memory pt_block] in *.
      unfold body in Ef. destruct (fn_blocks f !! b) as [insts|] eqn:Eb; [|done]. change (default [] (Some insts)) with insts in Ef.
      destruct Hb as [Hb|[Hb ->]]; [apply lookup_ge_None in Hb; congruence|].
      pose proof Hf as [Ht _ He]. pose proof (Forall_lookup_1 _ _ _ _ Ht Eb) as Hti. pose proof (Forall_lookup_1 _ _ _ _ He Eb) as Hei.
      destruct (renumber_block_below (fn_temps f) (new_number reached) insts Hti s s' m out Ls Ef) as (out' & Eg & Lo).
      assert (Hbody : body (with_blocks f (map (map (renumber_targets (new_number reached))) (marked reached (fn_blocks f)))) (new_number reached b)
        = map (renumber_targets (new_number reached)) insts).
      { unfold body. cbn. rewrite list_lookup_fmap. by rewrite (marked_lookup reached (fn_blocks f) b insts L Hb Eb). }
      rewrite Hbody, Eg. destruct out as [s1 m1|b1 s1 m1|x m1], out' as [s2 m2|b2 s2 m2|y m2]; cbn in Lo; try done.
      * destruct Lo as (-> & <- & L1). left. exists O, (new_number reached b1), s2, m1. split; [done|]. split; [done|]. split; [done|]. cbn.
        pose proof (goes_next insts _ _ _ _ _ Hei Ef) as Hn. specialize (Hc b Hb b1). unfold block in Hc. rewrite Eb in Hc.
        destruct (Hc Hn); [right|left]; done.
      * by destruct Lo as [<- <-].
    + intros args m _. exists O. split; [done|]. split; [apply le_refl|]. cbn. destruct (fn_blocks f) eqn:En; [left; cbn; lia|].
      right. split; [apply H0; cbn; lia|done].
Qed.
End Move.
