(* ===== verification/OptimizeMerge.v ===== *)
(** * OptimizeMerge: the merging of blocks

    A block that ends with the only jump to another takes over its instructions. Each
    merge is a simulation where the old function takes one step more, and the loop of
    [merge_blocks] always has fuel enough. *)

From S2P Require Import Prelude Arith Ir IrFold IrVerify IrDefinitions IrSem Optimize IrSim OptimizeLocal OptimizeBlock OptimizeCounts OptimizeGraph.

(** ** Counting the predecessors *)

Definition named_by (f : ir_function) (t : nat) : nat := times (Nat.eqb t) (fn_blocks f ≫= next_blocks).

Lemma predecessors_at f t : (t < length (fn_blocks f))%nat -> predecessors f !! t = Some (named_by f t).
Proof.
  intros [insts H]%lookup_lt_is_Some. unfold predecessors. rewrite list_lookup_imap, H. done.
Qed.

Lemma predecessors_above f t : (length (fn_blocks f) <= t)%nat -> predecessors f !! t = None.
Proof. intros H. apply lookup_ge_None. unfold predecessors. by rewrite length_imap. Qed.

Lemma bind_insert {A} (p : A -> bool) (g : list ir_inst -> list A) l b x y : l !! b = Some x ->
  (times p (<[b := y]> l ≫= g) + times p (g x) = times p (l ≫= g) + times p (g y))%nat.
Proof.
  revert b. induction l as [|z l IH]; intros [|b]; try done.
  - intros [= ->]. change (<[0%nat := y]> (x :: l)) with (y :: l). rewrite !bind_cons, !times_app. lia.
  - change ((z :: l) !! S b) with (l !! b). intros H. change (<[S b := y]> (z :: l)) with (z :: <[b := y]> l).
    rewrite !bind_cons, !times_app. specialize (IH b H). lia.
Qed.

(** A block named once is named by one block only. *)
Lemma named_once f t b c insts insts' : named_by f t = 1%nat -> fn_blocks f !! b = Some insts -> fn_blocks f !! c = Some insts' ->
  next_blocks insts = [t] -> t ∈ next_blocks insts' -> c = b.
Proof.
  unfold named_by. intros Hn Hb Hc Eb Hin. destruct (decide (c = b)) as [|Hne]; [done|].
  pose proof (bind_insert (Nat.eqb t) next_blocks _ _ _ [] Hb) as H. rewrite Eb, Hn, count_cons, Nat.eqb_refl in H.
  assert (1 <= times (Nat.eqb t) (<[b := []]> (fn_blocks f) ≫= next_blocks))%nat; [|cbn in H; lia].
  apply (times_some _ _ t); [|apply Nat.eqb_refl]. apply list_elem_of_bind. exists insts'. split; [done|].
  apply (list_elem_of_lookup_2 _ c). by rewrite list_lookup_insert_ne.
Qed.

(** Block [b] is [rest] and a jump, the only one, to block [t]. *)
Record merging (f : ir_function) (b t : nat) (rest : list ir_inst) (jump : ir_inst) : Prop := {
  mg_block : fn_blocks f !! b = Some (rest ++ [jump]);
  mg_op : i_op jump = IR_JUMP;
  mg_target : block_of (i_a jump) = Some t;
  mg_other : t <> b;
  mg_entry : t <> O;
  mg_single : named_by f t = 1%nat;
  mg_taken : exists insts, fn_blocks f !! t = Some insts /\ insts <> []
}.

Lemma merges_spec f b t : merges f (predecessors f) b = Some t -> exists rest jump, merging f b t rest jump.
Proof.
  unfold merges, block. destruct (fn_blocks f !! b) as [insts|] eqn:Eb; [|done]. change (default [] (Some insts)) with insts.
  destruct (last insts) as [jump|] eqn:El; [|done]. apply last_Some in El as [rest ->].
  destruct (bool_decide (i_op jump = IR_JUMP)) eqn:Eo; [|done]. apply bool_decide_eq_true in Eo.
  destruct (block_of (i_a jump)) as [t'|] eqn:Et; [|done].
  destruct (t' =? b)%nat eqn:E1; [done|]. destruct (t' =? 0)%nat eqn:E2; [done|].
  destruct (default 0 (predecessors f !! t') =? 1)%nat eqn:E3; [|done]. cbn [orb negb].
  destruct (decide (t' < length (fn_blocks f))%nat) as [Hlt|]; [|by rewrite predecessors_above in E3 by lia].
  rewrite predecessors_at in E3 by done. apply Nat.eqb_neq in E1, E2. apply Nat.eqb_eq in E3.
  destruct (fn_blocks f !! t') as [insts|] eqn:Ei; [|done]. change (default [] (Some insts)) with insts.
  destruct insts as [|first insts]; [done|]. intros [= <-]. exists rest, jump. split; try done. by exists (first :: insts).
Qed.

Lemma merge_blocks_eq f b t rest jump insts : merging f b t rest jump -> fn_blocks f !! t = Some insts ->
  merge f b t = with_blocks f (<[t := []]> (<[b := rest ++ insts]> (fn_blocks f))).
Proof.
  intros [Hb _ _ _ _ _ _] Ht. unfold merge, set_block, block. rewrite Hb, Ht. change (default [] (Some insts)) with insts.
  change (default [] (Some (rest ++ [jump]))) with (rest ++ [jump]). by rewrite removelast_last.
Qed.

Lemma next_last l inst : next_blocks (l ++ [inst]) = next_blocks [inst].
Proof. unfold next_blocks. by rewrite last_snoc. Qed.

Lemma next_jump rest jump t : i_op jump = IR_JUMP -> block_of (i_a jump) = Some t -> next_blocks (rest ++ [jump]) = [t].
Proof. intros Ho Ht. rewrite next_last. unfold next_blocks. cbn [last]. by rewrite Ho, Ht. Qed.

Lemma next_app l insts : insts <> [] -> next_blocks (l ++ insts) = next_blocks insts.
Proof. intros H. destruct (exists_last H) as (insts' & i & ->). by rewrite app_assoc, !next_last. Qed.

(** A merge takes the name of the block away, and no other. *)
Lemma merge_named f b t rest jump u : merging f b t rest jump ->
  named_by (merge f b t) u = (if decide (u = t) then O else named_by f u).
Proof.
  intros H. pose proof H as [Hb Ho Ht Hne _ Hs (insts & Hi & Hno)]. rewrite (merge_blocks_eq f b t rest jump insts H Hi).
  pose proof (bind_insert (Nat.eqb u) next_blocks _ _ _ (rest ++ insts) Hb) as E1.
  assert (Hi' : <[b := rest ++ insts]> (fn_blocks f) !! t = Some insts) by (by rewrite list_lookup_insert_ne).
  pose proof (bind_insert (Nat.eqb u) next_blocks _ _ _ [] Hi') as E2. rewrite (next_jump rest jump t Ho Ht), next_app in E1 by done.
  unfold named_by in *. cbn [fn_blocks with_blocks with_body]. change (next_blocks []) with (@nil nat) in E2. rewrite count_cons in E1.
  change (times (Nat.eqb u) []) with O in E1, E2. rewrite !Nat.add_0_r in E1, E2.
  destruct (decide (u = t)) as [->|Hu]; [rewrite Nat.eqb_refl in E1|rewrite (proj2 (Nat.eqb_neq u t) Hu) in E1]; lia.
Qed.

(** So the counts of the loop stay those of the function. *)
Lemma merge_predecessors f b t rest jump : merging f b t rest jump -> predecessors (merge f b t) = <[t := O]> (predecessors f).
Proof.
  intros H. pose proof H as [Hb _ _ _ _ _ (insts & Hi & _)].
  assert (Hl : length (fn_blocks (merge f b t)) = length (fn_blocks f)).
  { rewrite (merge_blocks_eq f b t rest jump insts H Hi). cbn. by rewrite !length_insert. }
  apply list_eq. intros u. destruct (decide (u < length (fn_blocks f))%nat) as [Hu|Hu].
  - rewrite predecessors_at by lia. rewrite (merge_named f b t rest jump u H). destruct (decide (u = t)) as [->|Hne].
    + rewrite list_lookup_insert_eq; [done|]. unfold predecessors. by rewrite length_imap.
    + by rewrite list_lookup_insert_ne, predecessors_at.
  - rewrite predecessors_above by lia. symmetry. apply lookup_ge_None. rewrite length_insert. unfold predecessors. rewrite length_imap. lia.
Qed.

(** ** One merge *)

Section Merge.
Context {M : Type} (mc : machine M) `{!Lawful mc}.

(** The instructions before a terminator run to its end. *)
Lemma exec_prefix pre s m post out : Forall (fun i => is_terminator (i_op i) = false) pre -> exec_block mc s m (pre ++ post) = Some out ->
  exists s1 m1, forall post', exec_block mc s m (pre ++ post') = exec_block mc s1 m1 post'.
Proof.
  intros Hp. revert s m. induction Hp as [|inst pre Hi _ IH]; intros s m; [by exists s, m|]. cbn [app exec_block].
  destruct (exec_inst mc s m inst) as [o|] eqn:E; [|done]. destruct (exec_goes_on mc s m inst o Hi E) as (s1 & m1 & ->). apply IH.
Qed.

Lemma ends_prefix pre post : ends (pre ++ post) -> post <> [] -> Forall (fun i => is_terminator (i_op i) = false) pre.
Proof.
  intros He Hp. apply Forall_lookup. intros k inst Hk. destruct (is_terminator (i_op inst)) eqn:E; [|done].
  specialize (He k inst (lookup_app_l_Some _ _ _ _ Hk) E). rewrite length_app in He. apply lookup_lt_Some in Hk. destruct post; cbn in *; [done|lia].
Qed.

Lemma ends_app pre post : Forall (fun i => is_terminator (i_op i) = false) pre -> ends post -> ends (pre ++ post).
Proof.
  intros Hp He k inst. rewrite lookup_app_Some, length_app. intros [Hk|[Hl Hk]] Ht.
  - by rewrite (Forall_lookup_1 _ _ _ _ Hp Hk) in Ht.
  - specialize (He _ _ Hk Ht). lia.
Qed.

Section One.
Context (f : ir_function) (b t : nat) (rest : list ir_inst) (jump : ir_inst) (insts : list ir_inst).
Context (Hf : well_formed mc f) (H : merging f b t rest jump) (Hi : fn_blocks f !! t = Some insts).

Lemma merge_rest : Forall (fun i => is_terminator (i_op i) = false) rest.
Proof. destruct Hf as [_ _ He]. apply (ends_prefix rest [jump]); [|done]. exact (Forall_lookup_1 _ _ _ _ He (mg_block _ _ _ _ _ H)). Qed.

Lemma merge_well_formed : well_formed mc (merge f b t).
Proof.
  destruct Hf as [Ht Hp He]. pose proof (Forall_lookup_1 _ _ _ _ Ht (mg_block _ _ _ _ _ H)) as Hb. apply Forall_app in Hb as [Hb _].
  pose proof merge_rest as Hr. rewrite (merge_blocks_eq f b t rest jump insts H Hi).
  split; [|done|]; cbn [fn_blocks fn_temps with_blocks with_body]; repeat apply Forall_insert; try done; try constructor.
  - apply Forall_app. split; [done|]. by apply (Forall_lookup_1 _ _ _ _ Ht Hi).
  - apply ends_app; [done|]. by apply (Forall_lookup_1 _ _ _ _ He Hi).
Qed.

(** At the same point, or the old function is at the block taken over, and the new one
    has the instructions before it still to run. *)
Definition at_merged (k : nat) (p q : @point M) : Prop :=
  (k = 1%nat /\ p = q /\ pt_block p <> t) \/
  (k = O /\ pt_block p = t /\ pt_block q = b /\ forall post, exec_block mc (pt_temps q) (pt_memory q) (rest ++ post) = exec_block mc (pt_temps p) (pt_memory p) post).

(** No other block goes to the block taken over. *)
Lemma goes_elsewhere c s m u s1 m1 : c <> b -> exec_block mc s m (body f c) = Some (Goes u s1 m1) -> u <> t.
Proof.
  intros Hc E ->. unfold body in E. destruct (fn_blocks f !! c) as [l|] eqn:El; [|done]. change (default [] (Some l)) with l in E.
  destruct Hf as [_ _ He]. pose proof (goes_next mc l _ _ _ _ _ (Forall_lookup_1 _ _ _ _ He El) E) as Hn.
  destruct H as [Hb Ho Ht _ _ Hs _]. apply Hc. apply (named_once f t b c _ _ Hs Hb El); [|done]. by apply next_jump.
Qed.

Lemma merge_refines : refines mc f (merge f b t).
Proof.
  pose proof H as [Hb Ho Ht Hne H0 _ _]. rewrite (merge_blocks_eq f b t rest jump insts H Hi).
  set (g := with_blocks f _).
  assert (Gb : body g b = rest ++ insts).
  { unfold body, g. cbn. rewrite list_lookup_insert_ne by done. rewrite list_lookup_insert_eq; [done|]. by eapply lookup_lt_Some. }
  assert (Gc : forall c, c <> b -> c <> t -> body g c = body f c).
  { intros c Hc1 Hc2. unfold body, g. cbn. by rewrite !list_lookup_insert_ne by done. }
  assert (Fb : body f b = rest ++ [jump]) by (unfold body; by rewrite Hb).
  assert (Ft : body f t = insts) by (unfold body; by rewrite Hi).
  apply (simulation_refines mc f g at_merged); [|done|].
  - intros k p q out [(-> & <- & Hp)|(-> & Ep & Eq & Ex)] E; unfold at_point in *.
    + destruct (decide (pt_block p = b)) as [Eb|Hpb].
      * rewrite Eb, Fb in E. destruct (exec_prefix rest _ _ [jump] out merge_rest E) as (s1 & m1 & Hpre). rewrite Hpre in E. cbn [exec_block] in E.
        destruct (exec_inst mc s1 m1 jump) as [o|] eqn:Ej; [|done].
        unfold exec_inst in Ej. destruct (words mc s1 (operands jump)); [|done]. cbn [mbind option_bind] in Ej. unfold exec_op in Ej.
        rewrite Ho in Ej. unfold goes_to_block in Ej. unfold block_of in Ht. destruct (o_kind (i_a jump)); try done.
        injection Ht as ->. injection Ej as <-. injection E as <-. right. exists O. split; [lia|]. right. by repeat split.
      * rewrite Gc by done. destruct out as [s1 m1|u s1 m1|x m1]; [done| |done]. left. exists 1%nat, u, s1, m1. split; [done|]. left.
        do 2 (split; [done|]). by apply (goes_elsewhere (pt_block p) _ _ _ _ _ Hpb E).
    + rewrite Ep, Ft in E. rewrite Eq, Gb, Ex, E. destruct out as [s1 m1|u s1 m1|x m1]; [done| |done]. left. exists 1%nat, u, s1, m1. split; [done|]. left.
      do 2 (split; [done|]). apply (goes_elsewhere t (pt_temps p) (pt_memory p) u s1 m1 Hne). by rewrite Ft.
  - intros args m _. exists 1%nat. left. do 2 (split; [done|]). cbn. congruence.
Qed.
End One.

(** ** The loop *)

Definition taken (f : ir_function) : nat := times (fun insts => negb (no_issue insts)) (fn_blocks f).

Lemma taken_insert (l : list (list ir_inst)) k x y : l !! k = Some x ->
  (times (fun insts => negb (no_issue insts)) (<[k := y]> l) + (if no_issue x then 0 else 1) =
   times (fun insts => negb (no_issue insts)) l + (if no_issue y then 0 else 1))%nat.
Proof.
  revert k. induction l as [|z l IH]; intros [|k]; try done.
  - intros [= ->]. change (<[0%nat := y]> (x :: l)) with (y :: l). rewrite !count_cons. destruct (no_issue x), (no_issue y); cbn; lia.
  - change ((z :: l) !! S k) with (l !! k). intros E. change (<[S k := y]> (z :: l)) with (z :: <[k := y]> l). rewrite !count_cons. specialize (IH k E). lia.
Qed.

Lemma merge_taken f b t rest jump : merging f b t rest jump -> (taken (merge f b t) < taken f)%nat /\ length (fn_blocks (merge f b t)) = length (fn_blocks f).
Proof.
  intros H. pose proof H as [Hb _ _ Hne _ _ (insts & Hi & Hno)]. rewrite (merge_blocks_eq f b t rest jump insts H Hi). unfold taken. cbn [fn_blocks with_blocks with_body].
  assert (Hi' : <[b := rest ++ insts]> (fn_blocks f) !! t = Some insts) by (by rewrite list_lookup_insert_ne).
  pose proof (taken_insert _ _ _ (rest ++ insts) Hb) as E1. pose proof (taken_insert _ _ _ [] Hi') as E2. split; [|by rewrite !length_insert].
  destruct insts; [done|]. destruct rest; cbn [no_issue app] in *; lia.
Qed.

Lemma merge_loop_refines fuel f b changed : well_formed mc f -> (taken f + (length (fn_blocks f) - b) <= fuel)%nat ->
  exists g changed', merge_loop fuel f (predecessors f) b changed = Some (g, changed') /\ well_formed mc g /\ refines mc f g.
Proof.
  revert f b changed. induction fuel as [|fuel IH]; intros f b changed Hf Hn; cbn [merge_loop];
    (destruct (length (fn_blocks f) <=? b)%nat eqn:El; [exists f, changed; split; [done|]; split; [done|apply refines_refl]|apply Nat.leb_gt in El]); [lia|].
  destruct (merges f (predecessors f) b) as [t|] eqn:Em.
  - destruct (merges_spec f b t Em) as (rest & jump & H). destruct (mg_taken _ _ _ _ _ H) as (insts & Hi & _).
    rewrite <- (merge_predecessors f b t rest jump H). destruct (merge_taken f b t rest jump H) as [Hlt Hl].
    destruct (IH (merge f b t) b true) as (g & c & E & Hg & R); [by eapply merge_well_formed|rewrite Hl; lia|]. exists g, c. split; [done|]. split; [done|].
    eapply refines_trans; [|exact R]. by eapply merge_refines.
  - apply IH; [done|lia].
Qed.

Lemma times_length {A} (p : A -> bool) l : (times p l <= length l)%nat.
Proof. induction l as [|x l IH]; [done|]. rewrite count_cons. cbn. destruct (p x); lia. Qed.

Lemma merge_blocks_refines f : well_formed mc f -> exists g changed, merge_blocks f = Some (g, changed) /\ well_formed mc g /\ refines mc f g.
Proof. intros Hf. apply merge_loop_refines; [done|]. pose proof (times_length (fun insts => negb (no_issue insts)) (fn_blocks f)) as H. unfold taken. lia. Qed.
End Merge.
