(* ===== verification/OptimizePeephole.v ===== *)
(** * OptimizePeephole: the peephole rules

    The rules rewrite one block at a time. Each rule is a step from one text of the
    block to the next that keeps the function well formed, uses no temporary more often
    and refines: the simplification of an instruction, the removal of a copy to itself,
    the fusion of an operation with the copy of its result, and the retargeting of a
    jump over blocks that only jump on. *)

From S2P Require Import Prelude Arith Ir IrFold IrVerify IrDefinitions IrSem FloatSem Optimize IrSim OptimizeLocal OptimizeBlock OptimizeCounts OptimizeGraph OptimizeMerge.

(** ** Uses *)

Definition uses_in (t : nat) (insts : list ir_inst) : nat := times (fun o => is_temp o t) (insts ≫= operands).

Lemma uses_in_cons t inst insts : uses_in t (inst :: insts) = (times (fun o => is_temp o t) (operands inst) + uses_in t insts)%nat.
Proof. unfold uses_in. by rewrite bind_cons, times_app. Qed.

Lemma uses_in_app t a b : uses_in t (a ++ b) = (uses_in t a + uses_in t b)%nat.
Proof. unfold uses_in. by rewrite bind_app, times_app. Qed.

Lemma uses_count f t : uses (count f) t = uses_in t (all_insts f).
Proof. done. Qed.

Lemma uses_concat t l b x y : l !! b = Some x -> (uses_in t (concat (<[b := y]> l)) + uses_in t x = uses_in t (concat l) + uses_in t y)%nat.
Proof.
  revert b. induction l as [|z l IH]; intros [|b]; try done.
  - intros [= ->]. change (<[0%nat := y]> (x :: l)) with (y :: l). cbn [concat]. rewrite !uses_in_app. lia.
  - change ((z :: l) !! S b) with (l !! b). intros H. change (<[S b := y]> (z :: l)) with (z :: <[b := y]> l).
    cbn [concat]. rewrite !uses_in_app. specialize (IH b H). lia.
Qed.

(** A temporary that instructions read is used there. *)
Lemma reads_used t inst : t ∈ reads inst -> (1 <= times (fun o => is_temp o t) (operands inst))%nat.
Proof.
  intros (o & Ho & Ht)%list_elem_of_omap. apply (times_some _ _ o Ho). unfold temp_of, is_temp in *.
  destruct (o_kind o); try done. injection Ht as ->. apply Nat.eqb_refl.
Qed.

Lemma unused_reads t insts : uses_in t insts = O -> forall inst u, inst ∈ insts -> u ∈ reads inst -> u <> t.
Proof.
  intros H inst u Hin Hu ->. induction Hin as [inst insts|inst i insts Hin IH]; rewrite uses_in_cons in H.
  - pose proof (reads_used t inst Hu). lia.
  - apply IH; [lia|done].
Qed.

(** ** The uses of a rewritten instruction *)

Lemma simplify_uses inst inst' t : simplify inst = Some inst' ->
  (times (fun o => is_temp o t) (operands inst') <= times (fun o => is_temp o t) (operands inst))%nat.
Proof.
  assert (Hint : forall ty v, is_temp (ir_int_op ty v) t = false) by (by intros [] v).
  unfold simplify. destruct (_ && _ && _); [intros [= <-]; unfold operands; cbn [i_a i_b i_c i_args with_ops]; rewrite !count_cons; lia|].
  repeat match goal with
  | |- (if ?x then _ else _) = Some _ -> _ => destruct x
  | |- match ?x with _ => _ end = Some _ -> _ => destruct x
  end; intros H; try discriminate H; injection H as <-; unfold operands;
    cbn [i_a i_b i_c i_args with_ops with_field make_copy]; rewrite !count_cons, ?Hint; change (is_temp none t) with false; cbn [times List.filter length]; lia.
Qed.

Lemma retarget_temp f o t : is_temp (retarget f o).1 t = is_temp o t.
Proof. unfold retarget, block_of, is_temp. destruct (o_kind o) eqn:K; try (cbn [fst]; by rewrite ?K). destruct (_ =? _)%nat; cbn; by rewrite ?K. Qed.

Lemma retarget_inst_uses f inst t :
  times (fun o => is_temp o t) (operands (retarget_inst f inst).1) = times (fun o => is_temp o t) (operands inst).
Proof.
  pose proof (fun o => retarget_temp f o t) as H. unfold retarget_inst. destruct (i_op inst); try done.
  - specialize (H (i_a inst)). destruct (retarget f (i_a inst)) as [a moved]. unfold operands. cbn [fst i_a i_b i_c i_args with_ops] in *. by rewrite !count_cons, H.
  - pose proof (H (i_b inst)) as Hb. pose proof (H (i_c inst)) as Hc. destruct (retarget f (i_b inst)), (retarget f (i_c inst)).
    unfold operands. cbn [fst i_a i_b i_c i_args with_ops] in *. by rewrite !count_cons, Hb, Hc.
  - pose proof (H (i_b inst)) as Hb. pose proof (H (i_c inst)) as Hc. destruct (retarget f (i_b inst)), (retarget f (i_c inst)).
    unfold operands. cbn [fst i_a i_b i_c i_args with_ops] in *. by rewrite !count_cons, Hb, Hc.
Qed.

(** ** Ends of blocks *)

Lemma ends_replace pre inst inst' post : ends (pre ++ inst :: post) -> (is_terminator (i_op inst') = true -> is_terminator (i_op inst) = true) ->
  ends (pre ++ inst' :: post).
Proof.
  intros He Ht k i Hk Hi. rewrite length_app. cbn [length]. specialize (He k). rewrite length_app in He. cbn [length] in He.
  destruct (decide (k = length pre)) as [->|Hne].
  - rewrite list_lookup_middle in Hk by done. injection Hk as ->. apply (He inst); [by rewrite list_lookup_middle|by apply Ht].
  - apply (He i); [|done]. destruct (decide (k < length pre)%nat); [by rewrite lookup_app_l in * by done|].
    rewrite lookup_app_r in * by lia. destruct (k - length pre)%nat eqn:E; [lia|done].
Qed.

Lemma ends_delete pre inst post : ends (pre ++ inst :: post) -> is_terminator (i_op inst) = false -> ends (pre ++ post).
Proof.
  intros He Ht k i Hk Hi. rewrite length_app. destruct (decide (k < length pre)%nat).
  - rewrite lookup_app_l in Hk by done. specialize (He k i). rewrite lookup_app_l, length_app in He by done. specialize (He Hk Hi). cbn [length] in He. lia.
  - rewrite lookup_app_r in Hk by lia. specialize (He (S k) i). rewrite lookup_app_r, length_app in He by lia. cbn [length] in He.
    replace (S k - length pre)%nat with (S (k - length pre)) in He by lia. cbn in He. specialize (He Hk Hi). lia.
Qed.

Section Peephole.
Context {M : Type} (mc : machine M) `{!Lawful mc} `{!IeeeFloats mc}.

(** ** Blocks in two states *)

Lemma block_below_app types D pre insts insts' :
  Forall (inst_typed mc types) pre -> (forall inst t, inst ∈ pre -> t ∈ reads inst -> ~ D t) ->
  block_below mc types D insts insts' -> block_below mc types D (pre ++ insts) (pre ++ insts').
Proof.
  intros Ht Hd H. induction Ht as [|inst pre Hi _ IH]; [done|]. intros s s' m out L. cbn [app exec_block].
  destruct (exec_inst mc s m inst) as [o|] eqn:E; [|done].
  destruct (exec_inst_mono mc types D inst s s' m o Hi) as (o' & E' & Ho); [intros t; apply Hd; by left|done|done|]. rewrite E'.
  destruct o as [s1 m1|b s1 m1|x m1], o' as [s2 m2|b2 s2 m2|x2 m2]; try done.
  - destruct Ho as [<- L1]. apply IH; [intros i t Hin; apply Hd; by right|]. eapply le_weaken; [|exact L1]. by intros t [].
  - intros [= <-]. destruct Ho as (<- & <- & -> & ->). eexists. by split.
  - intros [= <-]. destruct Ho as [<- <-]. eexists. by split.
Qed.

(** The rest of a block after an instruction that does at least as much. *)
Lemma below_block types inst inst' rest : Forall (inst_typed mc types) (inst' :: rest) -> below mc types inst inst' ->
  block_below mc types (fun _ => False) (inst :: rest) (inst' :: rest).
Proof.
  intros Ht H. apply block_below_same; [done|]. intros s m out. cbn [exec_block].
  destruct (exec_inst mc s m inst) as [o|] eqn:E; [|done]. destruct (H s m o E) as (o' & -> & L).
  apply Forall_cons in Ht as [_ Ht].
  destruct o as [s1 m1|b s1 m1|x m1], o' as [s2 m2|b2 s2 m2|x2 m2]; try done.
  - destruct L as [<- L]. intros Eo. by apply (block_mono mc types (fun _ => False) rest Ht (fun _ _ _ _ H => H) s1 s2 m1 out L).
  - intros [= <-]. by eexists.
  - intros [= <-]. by eexists.
Qed.

Section Block.
Context (f : ir_function) (b : nat) (Hb : (b < length (fn_blocks f))%nat) (c : counts).
Notation types := (fn_temps f).
Notation typed := (inst_typed mc types).

Definition text (insts : list ir_inst) : ir_function := set_block f b insts.

Record fine (insts : list ir_inst) : Prop := {
  fi_formed : well_formed mc (text insts);
  fi_uses : forall t, (uses (count (text insts)) t <= uses c t)%nat
}.

(** A rule. *)
Definition steps_to (x y : list ir_inst) : Prop := fine x -> fine y /\ refines mc (text x) (text y).

Lemma steps_refl x : steps_to x x.
Proof. split; [done|apply refines_refl]. Qed.

Lemma steps_trans x y z : steps_to x y -> steps_to y z -> steps_to x z.
Proof. intros H1 H2 Hx. destruct (H1 Hx) as [Hy R1]. destruct (H2 Hy) as [Hz R2]. split; [done|]. by eapply refines_trans. Qed.

Lemma text_here insts : body (text insts) b = insts.
Proof. unfold body, text. cbn. by rewrite list_lookup_insert_eq. Qed.

Lemma text_there x y d : d <> b -> body (text x) d = body (text y) d.
Proof. intros H. unfold body, text. cbn. by rewrite !list_lookup_insert_ne by done. Qed.

Lemma text_blocks insts : fn_blocks (text insts) !! b = Some insts.
Proof. unfold text. cbn. by apply list_lookup_insert_eq. Qed.

Lemma fine_typed insts : fine insts -> Forall typed insts.
Proof. intros [[H _ _] _]. exact (Forall_lookup_1 _ _ _ _ H (text_blocks insts)). Qed.

Lemma fine_ends insts : fine insts -> ends insts.
Proof. intros [[_ _ H] _]. exact (Forall_lookup_1 _ _ _ _ H (text_blocks insts)). Qed.

Lemma fine_block insts d : fine insts -> Forall typed (body (text insts) d).
Proof. intros [H _]. exact (typed_block mc _ d H). Qed.

Lemma text_text x y : text y = set_block (text x) b y.
Proof. unfold text, set_block, with_blocks, with_body. cbn. by rewrite list_insert_insert_eq. Qed.

Lemma text_uses x y t : (uses (count (text y)) t + uses_in t x = uses (count (text x)) t + uses_in t y)%nat.
Proof.
  rewrite !uses_count, (text_text x y). unfold all_insts. apply uses_concat. apply text_blocks.
Qed.

Lemma fine_step x y : fine x -> Forall typed y -> ends y -> (forall t, (uses_in t y <= uses_in t x)%nat) -> fine y.
Proof.
  intros [[Ht Hp He] Hu] Hty Hey H. split.
  - rewrite (text_text x y). split; [|done|]; cbn; by apply Forall_insert.
  - intros t. pose proof (text_uses x y t). specialize (Hu t). specialize (H t). lia.
Qed.

(** A rule that no other block can tell. *)
Lemma steps_below D x y : Forall typed y -> ends y -> (forall t, (uses_in t y <= uses_in t x)%nat) ->
  (fine x -> block_below mc types D x y /\ forall d inst t, d <> b -> inst ∈ body (text x) d -> t ∈ reads inst -> ~ D t) -> steps_to x y.
Proof.
  intros Ht He Hu H Hx. destruct (H Hx) as [Hbelow Hd]. split; [by apply (fine_step x)|]. apply (lockstep mc types D); [done|]. intros d.
  destruct (decide (d = b)) as [->|Hne]; [by rewrite !text_here|]. rewrite (text_there y x d Hne).
  apply block_mono; [by apply fine_block|]. intros inst t Hin. by apply (Hd d).
Qed.

(** ** The rules on one instruction *)

Lemma simplify_terminator inst inst' : simplify inst = Some inst' -> is_terminator (i_op inst') = true -> is_terminator (i_op inst) = true.
Proof.
  unfold simplify. destruct (_ && _ && _); [by intros [= <-]|].
  repeat match goal with
  | |- (if ?x then _ else _) = Some _ -> _ => destruct x
  | |- match ?x with _ => _ end = Some _ -> _ => destruct x
  end; intros H; try discriminate H; injection H as <-; done.
Qed.

Lemma simplify_step pre inst post : steps_to (pre ++ inst :: post) (pre ++ default inst (simplify inst) :: post).
Proof.
  destruct (simplify inst) as [inst'|] eqn:E; [|apply steps_refl]. change (default inst (Some inst')) with inst'. intros Hx.
  pose proof (fine_typed _ Hx) as Ht. pose proof (fine_ends _ Hx) as He. apply Forall_app in Ht as [Htp [Hti Htr]%Forall_cons]. destruct (simplify_below mc types inst inst' Hti E) as [Hbelow Hti'].
  assert (Hall : Forall typed (inst' :: post)) by (by constructor).
  revert Hx. apply (steps_below (fun _ => False)).
  - by apply Forall_app.
  - apply (ends_replace pre inst); [done|]. by apply simplify_terminator.
  - intros t. rewrite !uses_in_app, !uses_in_cons. pose proof (simplify_uses inst inst' t E). lia.
  - intros _. split; [|intros; by intros []]. apply block_below_app; [done|intros; by intros []|]. by apply below_block.
Qed.

(** A copy gives its operand and keeps the memory. *)
Lemma exec_copy_next s m inst o : i_op inst = IR_COPY -> exec_inst mc s m inst = Some o ->
  exists w s1, read_value mc s (i_a inst) = Some w /\ define_result mc s inst (Some w) = Some s1 /\ o = Next s1 m.
Proof.
  intros Op. rewrite exec_is_plain by (by rewrite Op). destruct (words mc s (operands inst)); [|done]. cbn [mbind option_bind].
  unfold exec_plain, result. rewrite Op. cbn [is_integer_op]. destruct (read_value mc s (i_a inst)) as [w|]; [|done]. cbn [mbind option_bind].
  destruct (define_result mc s inst (Some w)) as [s1|] eqn:Ed; [|done]. intros [= <-]. by exists w, s1.
Qed.

Lemma read_temp s t ty w : read_value mc s (Operand (IR_TEMP t) ty) = Some w -> exists v, s !! t = Some v /\ w = trim_value mc ty v.
Proof. unfold read_value, read. cbn [o_kind o_type]. destruct (s !! t) as [v|]; [|done]. intros [= <-]. by exists v. Qed.

Lemma trim_value_trim ty v : trim_value mc ty (trim_value mc ty v) = trim_value mc ty v.
Proof. unfold trim_value. cbn. by rewrite trim_trim. Qed.

Lemma is_temp_operand o t : is_temp o t = true -> o = Operand (IR_TEMP t) (o_type o).
Proof. destruct o as [k ty]. unfold is_temp. cbn. destruct k; try done. by intros ->%Nat.eqb_eq. Qed.

Lemma copy_types inst t : typed inst -> i_op inst = IR_COPY -> is_temp (i_a inst) t = true -> types !! t = Some (i_type inst).
Proof.
  intros Ht Op Ha%is_temp_operand. pose proof (it_op _ _ _ Ht) as Hop. unfold op_typed in Hop. rewrite Op in Hop.
  destruct (typed_operands mc types inst Ht) as (Ta & _). rewrite Ha in Ta. unfold operand_typed in Ta. cbn in Ta. congruence.
Qed.

Lemma self_copy_step pre inst post : i_op inst = IR_COPY -> is_result (i_a inst) (i_result inst) = true -> steps_to (pre ++ inst :: post) (pre ++ post).
Proof.
  intros Op Ha Hx. destruct (i_result inst) as [x|] eqn:Er; [|done]. cbn [is_result] in Ha. pose proof (fine_typed _ Hx) as Ht. pose proof (fine_ends _ Hx) as He.
  apply Forall_app in Ht as [Htp [Hti Htr]%Forall_cons]. revert Hx. apply (steps_below (fun _ => False)).
  - by apply Forall_app.
  - apply (ends_delete pre inst); [done|by rewrite Op].
  - intros t. rewrite !uses_in_app, uses_in_cons. lia.
  - intros _. split; [|intros; by intros []]. apply block_below_app; [done|intros; by intros []|]. intros s s' m out L. cbn [exec_block].
    destruct (exec_inst mc s m inst) as [o|] eqn:E; [|done]. destruct (exec_copy_next s m inst o Op E) as (w & s1 & Ew & Ed & ->).
    pose proof (copy_types inst x Hti Op Ha) as Hty. pose proof (it_op _ _ _ Hti) as Hop. unfold op_typed in Hop. rewrite Op in Hop.
    rewrite (is_temp_operand _ _ Ha), Hop in Ew. destruct (read_temp _ _ _ _ Ew) as (v & Ev & ->).
    unfold define_result in Ed. rewrite Er in Ed. injection Ed as <-. apply (block_mono mc types (fun _ => False)); [done|intros; by intros []|].
    intros t w Hd Hw. destruct (decide (t = x)) as [->|Hne].
    + rewrite lookup_insert_eq in Hw. injection Hw as <-. destruct (L x v Hd Ev) as (v' & Ev' & Lv). exists v'. split; [done|].
      unfold type_at in *. rewrite Hty in *. change (default IR_VOID (Some (i_type inst))) with (i_type inst) in *. by rewrite !trim_value_trim.
    + rewrite lookup_insert_ne in Hw by done. by apply L.
Qed.

(** ** The fusion *)

Lemma fuse_typed inst next t : typed inst -> typed next -> i_op next = IR_COPY -> is_temp (i_a next) t = true -> i_result inst = Some t ->
  typed (with_result inst (i_result next)).
Proof.
  intros Hi Hn Op Ha Er. pose proof (copy_types next t Hn Op Ha) as Hty. pose proof (it_result _ _ _ Hi t Er) as Hty'. rewrite Hty in Hty'.
  injection Hty' as Ety. pose proof (it_op _ _ _ Hi) as Hop. split; cbn.
  - apply Hi.
  - rewrite <- Ety. apply Hn.
  - unfold op_typed in *. cbn. rewrite Er in Hop. destruct (i_op inst); try done. by destruct Hop.
  - intros _. apply (it_named _ _ _ Hn). by rewrite Op.
Qed.

Lemma fuse_below inst next t post :
  Forall typed (inst :: next :: post) -> i_op next = IR_COPY -> is_temp (i_a next) t = true -> i_result inst = Some t ->
  (uses_in t (inst :: next :: post) <= 1)%nat -> block_below mc types (fun u => u = t) (inst :: next :: post) (with_result inst (i_result next) :: post).
Proof.
  intros [Hi [Hn Hpost]%Forall_cons]%Forall_cons Op Ha Er Hu. rewrite !uses_in_cons in Hu.
  assert (H1 : (1 <= times (fun o => is_temp o t) (operands next))%nat) by (apply (times_some _ _ (i_a next)); [by left|done]).
  assert (Hinst : forall u, u ∈ reads inst -> u <> t) by (intros u Hr ->; apply reads_used in Hr; lia).
  assert (Hrest : forall i u, i ∈ post -> u ∈ reads i -> u <> t) by (apply unused_reads; lia).
  destruct (it_named _ _ _ Hn) as [x Ex]; [by rewrite Op|]. rewrite Ex. pose proof (it_result _ _ _ Hn x Ex) as Hxt.
  pose proof (copy_types next t Hn Op Ha) as Hty. pose proof (it_result _ _ _ Hi t Er) as Hti. rewrite Hty in Hti. injection Hti as Ety.
  intros s s' m out L. cbn [exec_block]. destruct (exec_inst mc s m inst) as [o|] eqn:E; [|done].
  assert (A : alike mc (fun b => b) s s' inst (with_result inst (Some x))).
  { split; try done. exact (al_reads mc _ _ _ _ _ (alike_refl mc types (fun u => u = t) s s' inst Hi Hinst L)). }
  destruct (exec_goes_on mc s m inst o) as (s1 & m1 & ->); [|done|].
  { pose proof (it_op _ _ _ Hi) as Hop. unfold op_typed in Hop. rewrite Er in Hop. destruct (i_op inst); try done. by destruct Hop. }
  pose proof (exec_inst_alike mc _ _ _ _ _ _ _ A E) as (v & v' & s1' & Ed & Lv & Ed' & ->).
  destruct (exec_inst mc s1 m1 next) as [o|] eqn:En; [|done]. destruct (exec_copy_next s1 m1 next o Op En) as (w & s2 & Ew & Edn & ->).
  apply (block_mono mc types (fun u => u = t)); [done|by intros i u Hin Hr ->; eapply Hrest|].
  unfold define_result in Ed, Ed', Edn. rewrite Er in Ed. cbn [with_result i_result i_type] in Ed'. rewrite Ex in Edn.
  destruct v as [v|], v' as [v'|]; try done. cbn [mbind option_bind] in *. injection Ed as <-. injection Ed' as <-. injection Edn as <-.
  pose proof (it_op _ _ _ Hn) as Hop. unfold op_typed in Hop. rewrite Op in Hop.
  rewrite (is_temp_operand _ _ Ha), Hop in Ew. destruct (read_temp _ _ _ _ Ew) as (v1 & Ev & ->). rewrite lookup_insert_eq in Ev. injection Ev as <-.
  rewrite <- Ety, !trim_value_trim. intros u z Hd Hz. destruct (decide (u = x)) as [->|Hne].
  - rewrite lookup_insert_eq in *. injection Hz as <-. eexists. split; [done|]. unfold type_at. rewrite Hxt.
    change (default IR_VOID (Some (i_type next))) with (i_type next). rewrite !trim_value_trim. destruct Lv as [E1 E2]. split; [cbn; by rewrite E1|done].
  - rewrite !lookup_insert_ne in * by done. by apply L.
Qed.

Lemma fuse_step pre inst next post : fuses f c inst next = true -> steps_to (pre ++ inst :: next :: post) (pre ++ with_result inst (i_result next) :: post).
Proof.
  unfold fuses. destruct (i_result inst) as [t|] eqn:Er; [|done]. intros H. apply andb_true_iff in H as [H _].
  apply andb_true_iff in H as [H Hu%Nat.eqb_eq]. apply andb_true_iff in H as [H _]. apply andb_true_iff in H as [Op%bool_decide_eq_true Ha].
  intros Hx. pose proof (fine_typed _ Hx) as Ht. pose proof (fine_ends _ Hx) as He. apply Forall_app in Ht as [Htp Htr]. pose proof Htr as [Hti [Htn Hpost]%Forall_cons]%Forall_cons.
  assert (H1 : (1 <= times (fun o => is_temp o t) (operands next))%nat) by (apply (times_some _ _ (i_a next)); [by left|done]).
  pose proof (fi_uses _ Hx t) as Hut. rewrite Hu, uses_count in Hut. pose proof (uses_concat t _ b _ [] (text_blocks (pre ++ inst :: next :: post))) as Hc.
  fold (all_insts (text (pre ++ inst :: next :: post))) in Hc. change (uses_in t []) with O in Hc. rewrite uses_in_app in Hc.
  assert (Hbl : (uses_in t (inst :: next :: post) <= 1)%nat) by lia. rewrite !uses_in_cons in Hc.
  revert Hx. apply (steps_below (fun u => u = t)).
  - apply Forall_app. split; [done|]. constructor; [|done]. by apply (fuse_typed inst next t).
  - change (inst :: next :: post) with ([inst] ++ next :: post) in He. rewrite app_assoc in He.
    apply ends_delete in He; [|by rewrite Op]. rewrite <- app_assoc in He. by apply (ends_replace pre inst).
  - intros u. rewrite !uses_in_app, !uses_in_cons. cbn [operands with_result i_a i_b i_c i_args]. unfold operands. cbn [with_result i_a i_b i_c i_args]. lia.
  - intros Hx. split.
    + apply block_below_app; [done| |by apply (fuse_below inst next t)].
      intros i u Hin Hr ->. assert (uses_in t pre = O) as H0 by lia. by apply (unused_reads t pre H0 i t).
    + intros d i u Hd Hin Hr ->. revert Hr. rewrite (text_there _ [] d Hd) in Hin.
      assert (H0 : uses_in t (all_insts (text [])) = O).
      { change (all_insts (text [])) with (concat (fn_blocks (text []))). rewrite (text_text (pre ++ inst :: next :: post) []).
        cbn [set_block with_blocks with_body fn_blocks]. lia. }
      intros Hr. apply (unused_reads t _ H0 i t); [|done|done]. apply concat_elem. unfold body in Hin.
      destruct (fn_blocks (text []) !! d) as [l|] eqn:El; [|by apply elem_of_nil in Hin]. exists l. split; [by eapply list_elem_of_lookup_2|done].
Qed.
End Block.
End Peephole.
