(* ===== verification/OptimizeRetarget.v ===== *)
(** * OptimizeRetarget: jumps over jumps, and the peephole loop

    A block with nothing but a jump is passed over: the terminators that name it name
    the end of its chain of jumps. With that rule the loop of [apply_peephole_rules] is
    a sequence of the rules of OptimizePeephole.v. *)

From S2P Require Import Prelude Arith Ir IrFold IrVerify IrDefinitions IrSem FloatSem Optimize IrSim OptimizeLocal OptimizeBlock OptimizeCounts OptimizeGraph OptimizeMerge OptimizePeephole.

(** ** Chains of jumps *)

(** [k] blocks with one jump each lead from block [p] to block [q]. *)
Fixpoint hops (g : ir_function) (k p q : nat) : Prop :=
  match k with
  | O => p = q
  | S k => exists n, jumps_to g p = Some n /\ hops g k n q
  end.

Lemma hops_snoc g k p q n : hops g k p q -> jumps_to g q = Some n -> hops g (S k) p n.
Proof.
  revert p. induction k as [|k IH]; intros p; cbn.
  - intros -> H. by exists n.
  - intros (u & Hu & Hk) H. exists u. split; [done|]. by apply IH.
Qed.

Lemma final_from_hops g steps p target k : hops g k p target -> exists k', hops g k' p (final_from g steps p target).
Proof.
  revert target k. induction steps as [|steps IH]; intros target k H; cbn [final_from]; [by exists O|].
  destruct (jumps_to g target) as [n|] eqn:E; [|by exists k]. apply (IH n (S k)). by apply (hops_snoc g k p target).
Qed.

(** Where a block may be passed over, the search ends at the end of a chain. *)
Lemma final_target_hops g p : exists k, hops g k p (final_target g p).
Proof. by apply (final_from_hops g _ p p O). Qed.

Lemma retarget_block g o u : block_of o = Some u -> exists k u', block_of (retarget g o).1 = Some u' /\ hops g k u u'.
Proof.
  intros H. unfold retarget. rewrite H. destruct (final_target_hops g u) as [k Hk]. destruct (_ =? _)%nat eqn:E; cbn [fst].
  - apply Nat.eqb_eq in E. exists O, u. by split.
  - by exists k, (final_target g u).
Qed.

Lemma retarget_other g o : block_of o = None -> (retarget g o).1 = o.
Proof. intros H. unfold retarget. by rewrite H. Qed.

Lemma retarget_type g o : o_type (retarget g o).1 = o_type o.
Proof. unfold retarget. destruct (block_of o); [|done]. by destruct (_ =? _)%nat. Qed.

Lemma block_of_kind o u : block_of o = Some u <-> o_kind o = IR_BLOCK u.
Proof. unfold block_of. by destruct (o_kind o); split; intros [= ->]. Qed.

Section Retarget.
Context {M : Type} (mc : machine M) `{!Lawful mc} `{!IeeeFloats mc}.

Lemma retarget_operand_typed g types o : operand_typed mc types o -> operand_typed mc types (retarget g o).1.
Proof.
  destruct (block_of o) as [u|] eqn:E; [|by rewrite retarget_other]. intros _. destruct (retarget_block g o u E) as (k & u' & K%block_of_kind & _).
  unfold operand_typed. by rewrite K.
Qed.

Lemma read_block (s : gmap nat value) o u : block_of o = Some u -> read mc s o = Some None.
Proof. intros K%block_of_kind. unfold read. by rewrite K. Qed.

Lemma retarget_read g (s : gmap nat value) o : read mc s (retarget g o).1 = read mc s o.
Proof.
  destruct (block_of o) as [u|] eqn:E; [|by rewrite retarget_other]. destruct (retarget_block g o u E) as (k & u' & K & _).
  by rewrite (read_block s o u), (read_block s _ u').
Qed.

Lemma retarget_goes g (s : gmap nat value) (m : M) o out : goes_to_block o s m = Some out ->
  exists u k u', out = Goes u s m /\ goes_to_block (retarget g o).1 s m = Some (Goes u' s m) /\ hops g k u u'.
Proof.
  intros H. assert (exists u, block_of o = Some u /\ out = Goes u s m) as (u & E & ->).
  { unfold goes_to_block, block_of in *. destruct (o_kind o); try done. injection H as <-. by eexists. }
  destruct (retarget_block g o u E) as (k & u' & K & Hk). exists u, k, u'. split; [done|]. split; [|done]. apply block_of_kind in K. unfold goes_to_block. by rewrite K.
Qed.

(** The instruction with its targets moved. *)
Lemma retarget_inst_eq g inst : (retarget_inst g inst).1 = match i_op inst with
  | IR_JUMP => with_ops inst (i_op inst) (retarget g (i_a inst)).1 (i_b inst) (i_c inst)
  | IR_BRANCH | IR_BRANCH_OV => with_ops inst (i_op inst) (i_a inst) (retarget g (i_b inst)).1 (retarget g (i_c inst)).1
  | _ => inst
  end.
Proof.
  unfold retarget_inst. destruct (i_op inst); try done; [by destruct (retarget g (i_a inst))|..];
    by destruct (retarget g (i_b inst)), (retarget g (i_c inst)).
Qed.

Lemma retarget_inst_op g inst : i_op (retarget_inst g inst).1 = i_op inst.
Proof. rewrite retarget_inst_eq. by destruct (i_op inst) eqn:Op. Qed.

Lemma retarget_inst_typed g types inst : inst_typed mc types inst -> inst_typed mc types (retarget_inst g inst).1.
Proof.
  intros Ht. destruct (typed_operands mc types inst Ht) as (Ta & Tb & Tc). pose proof Ht as [Ho Hr Hop Hn]. rewrite retarget_inst_eq.
  unfold operands in Ho. rewrite !Forall_cons in Ho. destruct Ho as (_ & _ & _ & Hargs). unfold op_typed in Hop.
  destruct (i_op inst) eqn:Op; try exact Ht; split; try done; unfold operands; cbn [i_a i_b i_c i_args with_ops];
    rewrite !Forall_cons; auto using retarget_operand_typed.
Qed.

Lemma retarget_words g s inst xs : words mc s (operands inst) = Some xs -> is_Some (words mc s (operands (retarget_inst g inst).1)).
Proof.
  intros H. pose proof (words_operands mc s inst xs H) as (Ra & Rb & Rc & Rargs). rewrite retarget_inst_eq.
  destruct (i_op inst); try (by exists xs); apply operands_words; cbn [i_a i_b i_c i_args with_ops]; rewrite ?retarget_read; done.
Qed.

(** It goes to the end of a chain from where the instruction went. *)
Lemma exec_retarget g s m inst o : exec_inst mc s m inst = Some o ->
  match o with
  | Goes u s1 m1 => exists k u', exec_inst mc s m (retarget_inst g inst).1 = Some (Goes u' s1 m1) /\ hops g k u u'
  | _ => exec_inst mc s m (retarget_inst g inst).1 = Some o
  end.
Proof.
  intros E. unfold exec_inst in *. destruct (words mc s (operands inst)) as [xs|] eqn:Ew; [|done]. cbn [mbind option_bind] in E.
  destruct (retarget_words g s inst xs Ew) as [ys ->]. cbn [mbind option_bind]. rewrite retarget_inst_eq.
  assert (Hsame : forall inst', inst' = inst -> match o with
    | Goes u s1 m1 => exists k u', exec_op mc s m inst' = Some (Goes u' s1 m1) /\ hops g k u u' | _ => exec_op mc s m inst' = Some o end).
  { intros i ->. destruct o; try done. by eexists O, _. }
  destruct (i_op inst) eqn:Op; try (by apply Hsame); unfold exec_op in E |- *; rewrite Op in E; cbn [i_op with_ops i_a i_b i_c].
  - destruct (retarget_goes g _ _ _ _ E) as (u & k & u' & -> & ? & ?). by exists k, u'.
  - destruct (word mc s (i_a inst)); [|done]. cbn [mbind option_bind] in *.
    destruct (negb _); destruct (retarget_goes g _ _ _ _ E) as (u & k & u' & -> & ? & ?); by exists k, u'.
  - destruct (read_value mc s (i_a inst)) as [v|]; [|done]. cbn [mbind option_bind] in *. destruct (v_flags v) as [fl|]; [|done].
    cbn [mbind option_bind] in *. destruct (Z.testbit fl 0); destruct (retarget_goes g _ _ _ _ E) as (u & k & u' & -> & ? & ?); by exists k, u'.
Qed.

(** A block with one jump. *)
Lemma exec_jumps_to g p n s m out : jumps_to g p = Some n -> exec_block mc s m (body g p) = Some out -> out = Goes n s m.
Proof.
  unfold jumps_to, block, body. destruct (default [] (fn_blocks g !! p)) as [|inst [|]]; try done. case_bool_decide as Op; [|done].
  intros Hn. cbn [exec_block]. unfold exec_inst. destruct (words mc s (operands inst)); [|done]. cbn [mbind option_bind]. unfold exec_op. rewrite Op.
  apply block_of_kind in Hn. unfold goes_to_block. rewrite Hn. by intros [= <-].
Qed.

(** ** The rule *)

Section Block.
Context (f : ir_function) (b : nat) (Hb : (b < length (fn_blocks f))%nat) (c : counts).
Notation typed := (inst_typed mc (fn_temps f)).
Notation text := (text f b).
Notation steps_to := (steps_to mc f b c).

Definition at_target (g : ir_function) (k : nat) (p q : @point M) : Prop :=
  pt_temps p = pt_temps q /\ pt_memory p = pt_memory q /\ hops g k (pt_block p) (pt_block q).

Lemma retarget_step pre inst post : steps_to (pre ++ inst :: post) (pre ++ (retarget_inst (text (pre ++ inst :: post)) inst).1 :: post).
Proof.
  set (g := text (pre ++ inst :: post)). destruct (is_terminator (i_op inst)) eqn:Hterm.
  2: { rewrite retarget_inst_eq. destruct (i_op inst); try discriminate Hterm; apply steps_refl. }
  intros Hx. pose proof (fine_typed mc f b Hb c _ Hx) as Ht. pose proof (fine_ends mc f b Hb c _ Hx) as He.
  apply Forall_app in Ht as [Htp [Hti Htr]%Forall_cons].
  pose proof (ends_prefix pre (inst :: post) He ltac:(done)) as Hpre. split.
  - apply (fine_step mc f b Hb c (pre ++ inst :: post)); [done| | |].
    + apply Forall_app. split; [done|]. constructor; [by apply retarget_inst_typed|done].
    + apply (ends_replace pre inst); [done|by rewrite retarget_inst_op].
    + intros t. rewrite !uses_in_app, !uses_in_cons, retarget_inst_uses. lia.
  - apply (simulation_refines mc _ _ (at_target g)); [|done|intros args m _; exists O; done].
    intros [|k] [p s m] [q s' m'] out (E1 & E2 & Hk) E; cbn [pt_block pt_temps pt_memory] in E1, E2, Hk; subst s' m';
      unfold at_point in *; cbn [pt_block pt_temps pt_memory] in *.
    + cbn [hops] in Hk. subst q. destruct (decide (p = b)) as [->|Hne].
      * rewrite text_here in * by done. destruct (exec_prefix mc pre s m (inst :: post) out Hpre E) as (s1 & m1 & Hs). rewrite Hs in *.
        cbn [exec_block] in *. destruct (exec_inst mc s1 m1 inst) as [o|] eqn:Eo; [|done]. pose proof (exec_retarget g s1 m1 inst o Eo) as H.
        destruct o as [s2 m2|u s2 m2|x m2]; [by apply exec_terminates in Eo| |]; injection E as <-.
        -- destruct H as (k & u' & -> & Hk). left. exists k, u', s2, m2. by repeat split.
        -- by rewrite H.
      * rewrite (text_there f b _ (pre ++ inst :: post) p Hne), E. destruct out as [|u s2 m2|]; [done| |done].
        left. exists O, u, s2, m2. by repeat split.
    + cbn [hops] in Hk. destruct Hk as (n & Hn & Hk). rewrite (exec_jumps_to _ _ n s m out Hn E). right. exists k. split; [lia|]. by repeat split.
Qed.

(** ** The loop over a block *)

Lemma text_done (pre rest : list ir_inst) : set_block f b (pre ++ rest) = text (pre ++ rest).
Proof. done. Qed.

Lemma peephole_block_steps n pre rest : (length rest <= n)%nat -> steps_to (pre ++ rest) (peephole_block c f b pre rest).1.
Proof.
  revert pre rest. induction n as [|n IH]; intros pre [|inst after] Hn; cbn [length] in Hn; [|lia| |];
    [cbn; rewrite app_nil_r; apply steps_refl..|]. cbn [peephole_block].
  eapply steps_trans; [apply simplify_step; done|]. generalize (bool_decide (is_Some (simplify inst))). generalize (default inst (simplify inst)).
  clear inst. intros inst simpler. destruct (bool_decide (i_op inst = IR_COPY) && is_result (i_a inst) (i_result inst)) eqn:Eself.
  { apply andb_true_iff in Eself as [Op%bool_decide_eq_true Ha]. eapply steps_trans; [by apply self_copy_step|].
    specialize (IH pre after ltac:(lia)). by destruct (peephole_block c f b pre after). }
  assert (Hgo : steps_to (pre ++ inst :: after) (let '(inst', moved) := retarget_inst (set_block f b (pre ++ inst :: after)) inst in
    let '(insts, more) := peephole_block c f b (pre ++ [inst']) after in (insts, simpler || moved || more)).1).
  { eapply steps_trans; [apply retarget_step|]. unfold text. destruct (retarget_inst _ inst) as [inst' moved]. cbn [fst].
    specialize (IH (pre ++ [inst']) after ltac:(lia)). rewrite <- app_assoc in IH. by destruct (peephole_block c f b (pre ++ [inst']) after). }
  destruct after as [|next after]; [exact Hgo|]. destruct (fuses f c inst next) eqn:Ef; [|exact Hgo].
  eapply steps_trans; [by apply fuse_step|]. cbn [length] in Hn. specialize (IH (pre ++ [with_result inst (i_result next)]) after ltac:(lia)).
  rewrite <- app_assoc in IH. by destruct (peephole_block c f b _ after).
Qed.
End Block.

(** ** The pass *)

Lemma set_block_id f b : set_block f b (block f b) = f.
Proof.
  unfold set_block, with_blocks, with_body, block. destruct (fn_blocks f !! b) as [insts|] eqn:E.
  - change (default [] (Some insts)) with insts. rewrite list_insert_id by done. by destruct f.
  - rewrite list_insert_ge by (by apply lookup_ge_None). by destruct f.
Qed.

Lemma apply_peephole_refines f : well_formed mc f -> well_formed mc (apply_peephole_rules f).1 /\ refines mc f (apply_peephole_rules f).1.
Proof.
  intros Hf. unfold apply_peephole_rules. set (c := count f).
  assert (H : forall bs g changed, Forall (fun b => b < length (fn_blocks f))%nat bs -> length (fn_blocks g) = length (fn_blocks f) ->
    well_formed mc g -> (forall t, (uses (count g) t <= uses c t)%nat) ->
    well_formed mc (fold_left (peephole_at c) bs (g, changed)).1 /\ refines mc g (fold_left (peephole_at c) bs (g, changed)).1).
  { intros bs. induction bs as [|b bs IH]; intros g changed Hbs Hl Hg Hu; [split; [done|apply refines_refl]|].
    apply Forall_cons in Hbs as [Hb Hbs]. cbn [fold_left]. unfold peephole_at at 2 4.
    pose proof (peephole_block_steps g b ltac:(lia) c (length (block g b)) [] (block g b) ltac:(done)) as Hs. cbn [app] in Hs.
    destruct (peephole_block c g b [] (block g b)) as [insts more]. cbn [fst] in Hs.
    assert (Hfine : fine mc g b c (block g b)) by (split; unfold text; by rewrite set_block_id).
    destruct (Hs Hfine) as [[Hg' Hu'] R]. unfold text in Hg', Hu', R. rewrite set_block_id in R.
    destruct (IH (set_block g b insts) (more || changed)) as [H1 H2]; [done|cbn; by rewrite length_insert|done|done|].
    split; [done|]. by eapply refines_trans. }
  apply H; [|done|done|done]. apply Forall_forall. intros b Hb%elem_of_seq. lia.
Qed.
End Retarget.
