(* ===== verification/OptimizeRenumber.v ===== *)
(** * OptimizeRenumber: the numbers of the temporaries

    [renumber_temps] gives the parameters and then the other temporaries the next
    numbers, in the order of their first appearance. The numbering is one to one and
    keeps the types, so that the function does the same under the new names. *)

From S2P Require Import Prelude Arith Ir IrFold IrVerify IrDefinitions IrSem Optimize IrSim OptimizeLocal OptimizeBlock OptimizeCounts.

(** ** The numbering *)

Section Numbers.
Context (f : ir_function).

(** Different temporaries have different numbers, and a number the type of its temporary. *)
Record numbering (st : gmap nat nat * list ir_type) : Prop := {
  nb_types : forall t k, st.1 !! t = Some k -> st.2 !! k = Some (default IR_VOID (fn_temps f !! t));
  nb_distinct : forall t u k, st.1 !! t = Some k -> st.1 !! u = Some k -> t = u
}.

Lemma numbering_below st t k : numbering st -> st.1 !! t = Some k -> (k < length st.2)%nat.
Proof. intros [H _] Hk. by eapply lookup_lt_Some, H. Qed.

(** The next number for a temporary. *)
Lemma numbering_next numbers types t : numbering (numbers, types) ->
  numbering (<[t := length types]> numbers, types ++ [default IR_VOID (fn_temps f !! t)]).
Proof.
  intros H. assert (Hlt : forall u k, numbers !! u = Some k -> (k < length types)%nat) by (intros u k; apply (numbering_below _ u k H)).
  destruct H as [Ht Hd]. cbn in *. split; cbn.
  - intros u k. destruct (decide (u = t)) as [->|Hne].
    + rewrite lookup_insert_eq. intros [= <-]. by apply list_lookup_middle.
    + rewrite lookup_insert_ne by done. intros Hk. rewrite lookup_app_l by (by eapply Hlt). by apply Ht.
  - intros u w k. destruct (decide (u = t)) as [->|Hu], (decide (w = t)) as [->|Hw];
      rewrite ?lookup_insert_eq, ?lookup_insert_ne by done; try done.
    + intros [= <-] Hk%Hlt. lia.
    + intros Hk%Hlt [= <-]. lia.
    + by apply Hd.
Qed.

Lemma numbering_start : numbering (∅, []).
Proof. split; cbn; intros t; [intros k|intros u k]; by rewrite lookup_empty. Qed.

Lemma number_params ps st : numbering st -> map pr_temp ps = seq (length st.2) (length ps) ->
  let st' := fold_left (number_param f) ps st in
  numbering st' /\ length st'.2 = (length st.2 + length ps)%nat /\
  (forall t, (t < length st.2)%nat -> st.1 !! t = Some t -> st'.1 !! t = Some t) /\
  (forall t, (length st.2 <= t < length st.2 + length ps)%nat -> st'.1 !! t = Some t).
Proof.
  revert st. induction ps as [|p ps IH]; intros [numbers types] Hn; cbn [fst snd map length fold_left].
  - intros _. split; [done|]. split; [lia|]. split; [done|lia].
  - cbn [seq]. intros [= Ep Eps]. cbn [number_param]. destruct (IH _ (numbering_next numbers types (pr_temp p) Hn)) as (H1 & H2 & H3 & H4).
    { cbn. rewrite length_app. cbn. by replace (length types + 1)%nat with (S (length types)) by lia. }
    cbn [fst snd] in *. rewrite length_app in H2, H3, H4. cbn [length] in H2, H3, H4. split; [done|]. split; [lia|].
    rewrite Ep in *. assert (H0 : forall t, (t <= length types)%nat -> <[length types := length types]> numbers !! t = Some t ->
      (fold_left (number_param f) ps (<[length types := length types]> numbers, types ++ [default IR_VOID (fn_temps f !! length types)])).1 !! t = Some t).
    { intros t Ht. apply H3. lia. }
    split; intros t Ht.
    + intros Hk. apply H0; [lia|]. by rewrite lookup_insert_ne by lia.
    + destruct (decide (t = length types)) as [->|Hne]; [apply H0; [done|apply lookup_insert_eq]|apply H4; lia].
Qed.

Lemma number_all ts st : numbering st ->
  let st' := fold_left (number_temp f) ts st in
  numbering st' /\ (forall t k, st.1 !! t = Some k -> st'.1 !! t = Some k) /\ forall t, t ∈ ts -> is_Some (st'.1 !! t).
Proof.
  revert st. induction ts as [|t ts IH]; intros st Hn; cbn [fold_left]; [split; [done|]; split; [done|]; by intros t ?%elem_of_nil|].
  assert (H : numbering (number_temp f st t) /\ (forall u k, st.1 !! u = Some k -> (number_temp f st t).1 !! u = Some k) /\ is_Some ((number_temp f st t).1 !! t)).
  { destruct st as [numbers types]. cbn [number_temp]. destruct (numbers !! t) as [k|] eqn:E; [split; [done|]; split; [done|by exists k]|].
    split; [by apply numbering_next|]. cbn. split; [|rewrite lookup_insert_eq; by eexists].
    intros u k Hk. rewrite lookup_insert_ne; [done|]. by intros ->; congruence. }
  destruct H as (H1 & H2 & [k H3]). destruct (IH _ H1) as (H4 & H5 & H6). split; [done|]. split; [by intros u j Hj; apply H5, H2|].
  intros u [->|Hu]%elem_of_cons; [exists k; by apply H5|by apply H6].
Qed.

Definition numbered : gmap nat nat * list ir_type :=
  fold_left (number_temp f) (all_insts f ≫= inst_temps) (fold_left (number_param f) (fn_params f) (∅, [])).

Lemma renumber_temps_eq : let number t := default O (numbered.1 !! t) in
  renumber_temps f = with_body f (map (fun p => with_temp p (number (pr_temp p))) (fn_params f))
    (map (map (renumber_inst number)) (fn_blocks f)) numbered.2.
Proof. unfold renumber_temps. fold numbered. by destruct numbered. Qed.

Lemma numbered_spec : map pr_temp (fn_params f) = seq 0 (length (fn_params f)) ->
  numbering numbered /\ (forall t, (t < length (fn_params f))%nat -> numbered.1 !! t = Some t) /\
  forall inst t, inst ∈ all_insts f -> t ∈ inst_temps inst -> is_Some (numbered.1 !! t).
Proof.
  intros Hp. destruct (number_params (fn_params f) (∅, []) numbering_start Hp) as (H1 & H2 & _ & H3).
  destruct (number_all (all_insts f ≫= inst_temps) _ H1) as (H4 & H5 & H6). split; [done|]. split.
  - intros t Ht. apply H5, H3. cbn. lia.
  - intros inst t Hi Ht. apply H6. apply list_elem_of_bind. by exists inst.
Qed.
End Numbers.

(** ** The function under the new names *)

Section Rename.
Context {M : Type} (mc : machine M) `{!Lawful mc} (f : ir_function) (Hf : well_formed mc f).
Notation types := (fn_temps f).
Notation number := (fun t => default O ((numbered f).1 !! t)).

Definition is_numbered (t : nat) : Prop := is_Some ((numbered f).1 !! t).

Lemma number_distinct t u : is_numbered t -> is_numbered u -> number t = number u -> t = u.
Proof.
  intros [k Hk] [j Hj]. rewrite Hk, Hj. cbn. intros <-. destruct (numbered_spec f) as ([_ Hd] & _); [apply Hf|]. by eapply Hd.
Qed.

Lemma number_type t ty : is_numbered t -> types !! t = Some ty -> (numbered f).2 !! number t = Some ty.
Proof.
  intros [k Hk] Ht. rewrite Hk. change (default O (Some k)) with k. destruct (numbered_spec f) as ([H _] & _); [apply Hf|]. rewrite (H t k Hk). by rewrite Ht.
Qed.

Lemma renumber_operand_type o : o_type (renumber_operand number o) = o_type o.
Proof. unfold renumber_operand. by destruct (o_kind o). Qed.

Lemma renumber_operand_typed o : operand_typed mc types o -> (forall t, temp_of o = Some t -> is_numbered t) ->
  operand_typed mc (numbered f).2 (renumber_operand number o).
Proof.
  unfold operand_typed, renumber_operand, temp_of. destruct (o_kind o) eqn:K; rewrite ?K; try done. cbn. intros Ht H.
  apply number_type; [by apply H|done].
Qed.

(** The instructions name numbered temporaries. *)
Definition all_numbered (inst : ir_inst) : Prop := forall t, t ∈ inst_temps inst -> is_numbered t.

Lemma numbered_result inst r : all_numbered inst -> i_result inst = Some r -> is_numbered r.
Proof. intros H Hr. apply H. unfold inst_temps. rewrite Hr. by left. Qed.

Lemma numbered_operand inst o t : all_numbered inst -> o ∈ operands inst -> temp_of o = Some t -> is_numbered t.
Proof. intros H Ho Ht. apply H. unfold inst_temps. apply elem_of_app. right. apply list_elem_of_omap. by exists o. Qed.

Lemma renumber_inst_operands inst : operands (renumber_inst number inst) = map (renumber_operand number) (operands inst).
Proof. done. Qed.

Lemma renumber_inst_typed inst : all_numbered inst -> inst_typed mc types inst -> inst_typed mc (numbered f).2 (renumber_inst number inst).
Proof.
  intros Hn [Ho Hr Hop Hname]. split.
  - rewrite renumber_inst_operands. apply Forall_fmap, Forall_forall. intros o Hin. rewrite Forall_forall in Ho.
    apply renumber_operand_typed; [by apply Ho|]. intros t. by apply (numbered_operand inst).
  - cbn. intros r'. destruct (i_result inst) as [r|] eqn:Er; [|done]. intros [= <-]. apply number_type; [by eapply numbered_result|by apply Hr].
  - unfold op_typed in *. cbn [i_op i_type i_a i_b i_result renumber_inst with_result map_operands]. rewrite !renumber_operand_type.
    destruct (i_op inst); try done; try (by rewrite Hop); by destruct Hop as [-> ->].
  - cbn. intros H. destruct (Hname H) as [r ->]. by eexists.
Qed.

Definition le_renamed (s s' : temps) : Prop := forall t v, is_numbered t -> s !! t = Some v ->
  exists v', s' !! number t = Some v' /\ le_value (trim_value mc (type_at types t) v) (trim_value mc (type_at types t) v').

Lemma renamed_read s s' o : operand_typed mc types o -> (forall t, temp_of o = Some t -> is_numbered t) -> le_renamed s s' ->
  read_le mc s s' o (renumber_operand number o).
Proof.
  intros Ho Hn L. split; [by rewrite renumber_operand_type|]. unfold read, renumber_operand, operand_typed, temp_of in *.
  destruct (o_kind o) as [|t| | | | | |] eqn:K; rewrite ?K; intros x; try (intros [= <-]; eexists; by split). cbn [o_kind o_type].
  destruct (s !! t) as [v|] eqn:E; [|done]. cbn. intros [= <-]. destruct (L t v (Hn t eq_refl) E) as (v' & -> & Hl).
  eexists. split; [done|]. unfold type_at in Hl. by rewrite Ho in Hl.
Qed.

Lemma renamed_alike s s' inst : all_numbered inst -> inst_typed mc types inst -> le_renamed s s' -> alike mc (fun b => b) s s' inst (renumber_inst number inst).
Proof.
  intros Hn [Ho _ _ _] L. split; try done.
  - cbn. destruct (i_result inst); cbn; split; intros [? ?]; by eexists.
  - rewrite renumber_inst_operands. apply Forall2_fmap_r, Forall_Forall2_diag. apply Forall_forall. intros o Hin. rewrite Forall_forall in Ho.
    apply renamed_read; [by apply Ho| |done]. intros t. by apply (numbered_operand inst).
  - intros _ b. cbn. unfold renumber_operand. repeat split; intros K; by rewrite K.
Qed.

Lemma renamed_define s s' inst v v' s1 s1' : all_numbered inst -> inst_typed mc types inst -> le_renamed s s' -> le_opt v v' ->
  define_result mc s inst v = Some s1 -> define_result mc s' (renumber_inst number inst) v' = Some s1' -> le_renamed s1 s1'.
Proof.
  intros Hn Ht L Lv. unfold define_result. cbn [i_result i_type renumber_inst with_result map_operands]. destruct (i_result inst) as [r|] eqn:Er; cbn.
  - destruct v as [v|], v' as [v'|]; try done. intros [= <-] [= <-] t w Htn. pose proof (numbered_result inst r Hn Er) as Hrn.
    destruct (decide (t = r)) as [->|Hne].
    + rewrite !lookup_insert_eq. intros [= <-]. eexists. split; [done|]. unfold type_at. rewrite (it_result _ _ _ Ht r Er). cbn.
      destruct Lv as [E1 E2]. split; [cbn; by rewrite E1|done].
    + rewrite !lookup_insert_ne; [by apply L| |done]. intros E. apply Hne. symmetry. by apply number_distinct.
  - by intros [= <-] [= <-].
Qed.

Lemma renamed_block insts : Forall (inst_typed mc types) insts -> Forall all_numbered insts -> forall s s' m out, le_renamed s s' ->
  exec_block mc s m insts = Some out -> exists out', exec_block mc s' m (map (renumber_inst number) insts) = Some out' /\
    match out, out' with
    | Goes b s1 m1, Goes b' s1' m1' => b = b' /\ m1 = m1' /\ le_renamed s1 s1'
    | Returns x m1, Returns x' m1' => x = x' /\ m1 = m1'
    | _, _ => False
    end.
Proof.
  intros Ht. induction Ht as [|inst insts Hi _ IH]; intros Hall s s' m out L; [done|]. apply Forall_cons in Hall as [Hn Hall].
  cbn [map exec_block]. destruct (exec_inst mc s m inst) as [o|] eqn:E; [|done].
  pose proof (exec_inst_alike mc _ _ _ _ _ _ _ (renamed_alike s s' inst Hn Hi L) E) as H. destruct o as [s1 m1|b s1 m1|x m1]; unfold outcome_alike in H.
  - destruct H as (v & v' & s1' & E1 & Lv & E2 & ->). apply IH; [done|]. by eapply renamed_define.
  - destruct H as (-> & -> & ->). intros [= <-]. by eexists.
  - rewrite H. intros [= <-]. by eexists.
Qed.

Lemma numbered_insts insts : insts ∈ fn_blocks f -> Forall all_numbered insts.
Proof.
  intros Hin. apply Forall_forall. intros inst Hi t Ht. destruct (numbered_spec f) as (_ & _ & H); [apply Hf|].
  apply (H inst); [|done]. apply concat_elem. by exists insts.
Qed.

Lemma renamed_params : map pr_temp (fn_params (renumber_temps f)) = map pr_temp (fn_params f).
Proof.
  rewrite renumber_temps_eq. cbn [fn_params with_body]. rewrite map_map. cbn [pr_temp with_temp].
  rewrite <- (map_map pr_temp (fun t => default O ((numbered f).1 !! t))). destruct Hf as [_ Hp _]. rewrite Hp.
  destruct (numbered_spec f Hp) as (_ & H & _). rewrite <- (map_id (seq _ _)) at 2. apply map_ext_in. intros t Ht%in_seq. by rewrite H by lia.
Qed.

Lemma renumber_temps_refines : well_formed mc (renumber_temps f) /\ refines mc f (renumber_temps f).
Proof.
  pose proof renamed_params as Hpar. pose proof Hf as [Ht Hp He].
  assert (Hlen : length (fn_params (renumber_temps f)) = length (fn_params f)).
  { apply (f_equal length) in Hpar. by rewrite !length_map in Hpar. }
  split.
  - split; [|by rewrite Hlen, Hpar|]; rewrite renumber_temps_eq; cbn [fn_blocks fn_temps with_body]; apply Forall_fmap, Forall_forall; intros insts Hin.
    + apply Forall_fmap, Forall_forall. intros inst Hi. rewrite Forall_forall in Ht. specialize (Ht insts Hin). rewrite Forall_forall in Ht.
      pose proof (numbered_insts insts Hin) as Hn. rewrite Forall_forall in Hn. apply renumber_inst_typed; auto.
    + rewrite Forall_forall in He. specialize (He insts Hin). intros k i Hk Hti. rewrite list_lookup_fmap in Hk. rewrite length_fmap.
      destruct (insts !! k) as [j|] eqn:E; [|done]. injection Hk as <-. by apply (He k j).
  - apply (simulation_refines mc _ _ (fun _ p q => pt_block p = pt_block q /\ pt_memory p = pt_memory q /\ le_renamed (pt_temps p) (pt_temps q))); [|done|].
    + intros k [b s m] [b' s' m'] out (E1 & E2 & L) E. cbn [pt_block pt_memory pt_temps] in E1, E2, L. subst b' m'.
      unfold at_point in *. cbn [pt_block pt_memory pt_temps] in *. unfold body in E. destruct (fn_blocks f !! b) as [insts|] eqn:Eb; [|done].
      assert (body (renumber_temps f) b = map (renumber_inst number) insts) as ->.
      { unfold body. rewrite renumber_temps_eq. cbn [fn_blocks with_body]. by rewrite list_lookup_fmap, Eb. }
      destruct (renamed_block insts (Forall_lookup_1 _ _ _ _ Ht Eb) (numbered_insts _ (list_elem_of_lookup_2 _ _ _ Eb)) s s' m out L E) as (out' & E' & Lo).
      rewrite E'. destruct out as [|u s1 m1|x m1], out' as [|u' s1' m1'|x' m1']; try done.
      * destruct Lo as (<- & <- & Lo). left. exists O, u, s1', m1. by repeat split.
      * by destruct Lo as [<- <-].
    + intros args m Hargs. exists O. split; [done|]. split; [done|]. unfold start. cbn [pt_temps]. rewrite Hpar. intros t v [k Hk] Hv. exists v.
      split; [|apply le_value_refl]. rewrite Hk. change (default O (Some k)) with k.
      assert (t ∈ seq 0 (length (fn_params f))) as Hin%elem_of_seq.
      { rewrite <- Hp. apply elem_of_list_to_map_2 in Hv. apply elem_of_zip_l in Hv. done. }
      destruct (numbered_spec f Hp) as (_ & H & _). rewrite H in Hk by lia. injection Hk as <-. done.
Qed.
End Rename.
