(* ===== verification/OptimizeMeasure.v ===== *)
(** * OptimizeMeasure: what the rounds of the optimizer lessen

    [optimize_function] runs its passes until none of them changes the function. Five
    numbers, the first of them first, get less with every change: the instructions and
    blocks, the weight of the operations, how late in their blocks the operands are
    defined, the targets that name a block with nothing but a jump, and the operations
    with a constant on the left. *)

From S2P Require Import Prelude Arith Ir IrFold IrVerify IrDefinitions Optimize OptimizeCounts.

(** ** The order *)

(** The first numbers decide, then the rest. *)
Definition lex {A} (R : A -> A -> Prop) (x y : nat * A) : Prop := (x.1 < y.1)%nat \/ (x.1 = y.1 /\ R x.2 y.2).

Lemma wf_lex {A} (R : A -> A -> Prop) : well_founded R -> well_founded (lex R).
Proof.
  intros HR [n a]. revert a. induction (lt_wf n) as [n _ IHn]. intros a. induction (HR a) as [a _ IHa].
  constructor. intros [m c] [Hlt|[Heq Hr]]; cbn in *; [by apply IHn|]. subst m. by apply IHa.
Qed.

Lemma lex_trans {A} (R : A -> A -> Prop) : (forall x y z, R x y -> R y z -> R x z) -> forall x y z, lex R x y -> lex R y z -> lex R x z.
Proof.
  intros HR [n a] [m c] [k d]. unfold lex. cbn. intros [H1|[-> H1]] [H2|[-> H2]]; [left; lia|by left|by left|right]. split; [done|]. by eapply HR.
Qed.

Definition measure : Type := nat * (nat * (nat * (nat * nat))).
Definition less : measure -> measure -> Prop := lex (lex (lex (lex lt))).

Lemma measure_wf : well_founded less.
Proof. repeat apply wf_lex. exact lt_wf. Qed.

Lemma less_trans x y z : less x y -> less y z -> less x z.
Proof. repeat apply lex_trans. exact Nat.lt_trans. Qed.

(** ** The numbers *)

Definition size (f : ir_function) : nat := list_sum (map (fun insts => S (length insts)) (fn_blocks f)).

Definition weight (inst : ir_inst) : nat :=
  match i_op inst with
  | IR_COPY | IR_JUMP => 0
  | IR_MUL | IR_UDIV | IR_UREM => 2
  | _ => 1
  end.

Definition block_weight (insts : list ir_inst) : nat := list_sum (map weight insts).

(** The blocks that a terminator names. *)
Definition inst_targets (inst : ir_inst) : list nat :=
  match i_op inst with
  | IR_JUMP => option_list (block_of (i_a inst))
  | IR_BRANCH | IR_BRANCH_OV => option_list (block_of (i_b inst)) ++ option_list (block_of (i_c inst))
  | _ => []
  end.

Definition passed_over (f : ir_function) (b : nat) : bool := match jumps_to f b with Some _ => true | None => false end.
Definition block_loose (f : ir_function) (insts : list ir_inst) : nat := times (passed_over f) (insts ≫= inst_targets).

(** [last t] is 0 for a temporary that the block has not defined yet, and the number of
    the instructions up to its last definition otherwise. *)
Definition operand_rank (last : nat -> nat) (o : ir_operand) : nat := match o_kind o with IR_TEMP t => S (last t) | _ => O end.
Definition last_after (last : nat -> nat) (i : nat) (inst : ir_inst) : nat -> nat := fun t => if defines t inst then S i else last t.
Definition inst_rank (last : nat -> nat) (inst : ir_inst) : nat := list_sum (map (operand_rank last) (operands inst)).

Fixpoint block_rank (last : nat -> nat) (i : nat) (insts : list ir_inst) : nat :=
  match insts with
  | [] => O
  | inst :: rest => (inst_rank last inst + block_rank (last_after last i inst) (S i) rest)%nat
  end.

Definition swappable (inst : ir_inst) : bool := is_commutative (i_op inst) && is_constant (i_a inst) && negb (is_constant (i_b inst)).

Definition total (g : list ir_inst -> nat) (f : ir_function) : nat := list_sum (map g (fn_blocks f)).

Definition measure_of (f : ir_function) : measure :=
  (size f, (total block_weight f, (total (block_rank (fun _ => O) O) f, (total (block_loose f) f, total (times swappable) f)))).

(** A pass that changes the function lessens the measure, and its flag tells. *)
Definition better (f : ir_function) (st : ir_function * bool) : Prop :=
  if st.2 then less (measure_of st.1) (measure_of f) else st.1 = f.

(** ** Sums over the blocks *)

Lemma list_total_insert {A} (g : A -> nat) l b x y : l !! b = Some x -> (list_sum (map g (<[b := y]> l)) + g x = list_sum (map g l) + g y)%nat.
Proof.
  revert b. induction l as [|z l IH]; intros [|b]; try done.
  - intros [= ->]. change (<[0%nat := y]> (x :: l)) with (y :: l). cbn. lia.
  - change ((z :: l) !! S b) with (l !! b). intros H. change (<[S b := y]> (z :: l)) with (z :: <[b := y]> l).
    specialize (IH b H). change (list_sum (map g (z :: l))) with (g z + list_sum (map g l))%nat.
    change (list_sum (map g (z :: <[b := y]> l))) with (g z + list_sum (map g (<[b := y]> l)))%nat. lia.
Qed.

Lemma sum_le {A} (g h : A -> nat) l : (forall x, x ∈ l -> g x <= h x)%nat -> (list_sum (map g l) <= list_sum (map h l))%nat.
Proof.
  induction l as [|x l IH]; intros H; [done|]. change (g x + list_sum (map g l) <= h x + list_sum (map h l))%nat.
  pose proof (H x ltac:(by left)). specialize (IH (fun y Hy => H y ltac:(by right))). lia.
Qed.

Lemma sum_lt {A} (g h : A -> nat) l x : (forall x, x ∈ l -> g x <= h x)%nat -> x ∈ l -> (g x < h x)%nat -> (list_sum (map g l) < list_sum (map h l))%nat.
Proof.
  intros H Hx. revert H. induction Hx as [x l|x y l _ IH]; intros H Hlt;
    [change (g x + list_sum (map g l) < h x + list_sum (map h l))%nat|change (g y + list_sum (map g l) < h y + list_sum (map h l))%nat].
  - pose proof (sum_le g h l (fun y Hy => H y ltac:(by right))). lia.
  - pose proof (H y ltac:(by left)). specialize (IH (fun z Hz => H z ltac:(by right)) Hlt). lia.
Qed.

Lemma sum_ext {A} (g h : A -> nat) l : (forall x, x ∈ l -> g x = h x) -> list_sum (map g l) = list_sum (map h l).
Proof. intros H. f_equal. apply map_ext_in. intros x Hx%list_elem_of_In. by apply H. Qed.

Lemma sum_app l l' : list_sum (l ++ l') = (list_sum l + list_sum l')%nat.
Proof. apply list_sum_app. Qed.

(** ** Blocks that keep their size *)

Lemma block_rank_replace last i pre inst inst' post : i_result inst' = i_result inst -> (forall l, inst_rank l inst' = inst_rank l inst) ->
  block_rank last i (pre ++ inst' :: post) = block_rank last i (pre ++ inst :: post).
Proof.
  intros Er H. revert last i. induction pre as [|p pre IH]; intros last i; cbn [app block_rank]; [|by rewrite IH].
  rewrite H. f_equal. unfold last_after, defines. by rewrite Er.
Qed.

Lemma block_weight_app a b : block_weight (a ++ b) = (block_weight a + block_weight b)%nat.
Proof. unfold block_weight. by rewrite map_app, sum_app. Qed.

Lemma block_weight_cons inst l : block_weight (inst :: l) = (weight inst + block_weight l)%nat.
Proof. done. Qed.
