(* ===== verification/OptimizeEnds.v ===== *)
(** * OptimizeEnds: every change lessens the measure

    The passes one by one: a pass that reports a change has lessened the measure of
    OptimizeMeasure.v, and one that reports none has left the function as it was. The
    propagation of copies from block to block lessens it together with the removal of
    the copy that nothing uses any more. *)

From S2P Require Import Prelude Arith Ir IrFold IrVerify IrDefinitions IrSem Optimize IrSim OptimizeLocal OptimizeBlock OptimizeCounts OptimizeGraph OptimizeMerge OptimizePeephole OptimizeRetarget OptimizeMeasure.

(** ** Passes that lessen the weight *)

Lemma less_weight f g : size g = size f -> (total block_weight g < total block_weight f)%nat -> less (measure_of g) (measure_of f).
Proof. intros Hs Hw. right. split; [done|]. by left. Qed.

(** A pass that maps the blocks and gives each its flag. *)
Lemma map_blocks_better f (g : list ir_inst -> list ir_inst * bool) :
  (forall insts, length (g insts).1 = length insts /\ if (g insts).2 then (block_weight (g insts).1 < block_weight insts)%nat else (g insts).1 = insts) ->
  better f (with_blocks f (map fst (map g (fn_blocks f))), existsb snd (map g (fn_blocks f))).
Proof.
  intros H. unfold better. cbn [fst snd]. destruct (existsb snd (map g (fn_blocks f))) eqn:E.
  - apply existsb_exists in E as (p & (insts & <- & Hin%list_elem_of_In)%in_map_iff & Ep). apply less_weight; unfold size, total; cbn [fn_blocks with_blocks with_body]; rewrite !map_map.
    + apply sum_ext. intros x _. by destruct (H x) as [-> _].
    + apply (sum_lt _ _ _ insts); [|done|destruct (H insts) as [_ Hi]; by rewrite Ep in Hi].
      intros x _. destruct (H x) as [_ Hx]. destruct (g x).2; [lia|by rewrite Hx].
  - destruct f. unfold with_blocks, with_body. cbn in *. f_equal. rewrite map_map. induction fn_blocks as [|x l IH]; [done|]. cbn in *.
    apply orb_false_iff in E as [Ex El]. rewrite (IH El). destruct (H x) as [_ Hx]. rewrite Ex in Hx. by rewrite Hx.
Qed.

Lemma fold_constant_weight inst inst' : fold_constant inst = Some inst' -> (weight inst' < weight inst)%nat.
Proof.
  assert (Hf : forall o, fold_inst inst = Some o -> (0 < weight inst)%nat).
  { intros o H%fold_kinds. unfold weight. destruct (i_op inst); try lia; by destruct H as [|[|]]. }
  assert (Hc : make_copy inst <$> fold_inst inst = Some inst' -> (weight inst' < weight inst)%nat).
  { destruct (fold_inst inst) as [o|] eqn:E; [|done]. intros [= <-]. exact (Hf o eq_refl). }
  unfold fold_constant. destruct (i_op inst) eqn:Op; try exact Hc. destruct (o_kind (i_a inst)); try exact Hc.
  intros H. apply (inj Some) in H. subst inst'. unfold weight. rewrite Op. cbn. lia.
Qed.

Lemma rewrite_insts_better g f : (forall inst inst', g inst = Some inst' -> (weight inst' < weight inst)%nat) -> better f (rewrite_insts g f).
Proof.
  intros H. assert (E : rewrite_insts g f = (with_blocks f (map fst (map (fun insts => (map (fun inst => default inst (g inst)) insts, existsb (fun inst => bool_decide (is_Some (g inst))) insts)) (fn_blocks f))),
    existsb snd (map (fun insts => (map (fun inst => default inst (g inst)) insts, existsb (fun inst => bool_decide (is_Some (g inst))) insts)) (fn_blocks f)))).
  { unfold rewrite_insts. rewrite !map_map. f_equal. unfold all_insts. induction (fn_blocks f) as [|x l IH]; [done|]. cbn. by rewrite existsb_app, IH. }
  rewrite E. apply map_blocks_better. clear E. intros insts. cbn [fst snd]. split; [by rewrite length_map|].
  destruct (existsb _ insts) eqn:E.
  - apply existsb_exists in E as (inst & Hin%list_elem_of_In & [inst' Hi]%bool_decide_eq_true). unfold block_weight. rewrite map_map.
    apply (sum_lt _ _ _ inst); [|done|]; [intros x _; destruct (g x) as [x'|] eqn:Ex; [apply H in Ex; cbn; lia|done]|].
    rewrite Hi. by apply H.
  - induction insts as [|inst insts IH]; [done|]. cbn in *. apply orb_false_iff in E as [Ei El]. rewrite (IH El).
    apply bool_decide_eq_false in Ei. destruct (g inst); [|done]. destruct Ei. by eexists.
Qed.

Lemma fold_constants_better f : better f (fold_constants f).
Proof. apply rewrite_insts_better. exact fold_constant_weight. Qed.

Lemma forward_inst_weight f before h inst inst' h' : forward_inst f before h inst = (Some inst', h') -> (weight inst' < weight inst)%nat.
Proof.
  assert (Hl : i_op inst = IR_LOAD -> forall v, (weight (make_copy inst v) < weight inst)%nat) by (intros Op v; unfold weight; rewrite Op; cbn; lia).
  unfold forward_inst. destruct (i_op inst) eqn:Op; try (by intros [= ]).
  specialize (Hl eq_refl). destruct (_ && _ && _); [intros [= <- _]; apply Hl|]. by destruct (_ || _).
Qed.

Lemma forward_block_weight f before h insts : length (forward_block f before h insts).1 = length insts /\
  if (forward_block f before h insts).2 then (block_weight (forward_block f before h insts).1 < block_weight insts)%nat else (forward_block f before h insts).1 = insts.
Proof.
  revert before h. induction insts as [|inst insts IH]; intros before h; [done|]. cbn [forward_block].
  destruct (forward_inst f before h inst) as [copy h'] eqn:E. specialize (IH (before ++ [default inst copy]) h').
  destruct (forward_block f _ h' insts) as [rest more]. cbn [fst snd] in *. destruct IH as [Hl IH]. split; [cbn [length]; by rewrite Hl|]. rewrite !block_weight_cons.
  destruct copy as [inst'|].
  - apply forward_inst_weight in E. cbn. destruct more; [lia|subst; lia].
  - change (default inst None) with inst. rewrite bool_decide_false by (by intros []). cbn [orb]. destruct more; [lia|by subst].
Qed.

Lemma forward_stores_better f : better f (forward_stores f).
Proof. apply map_blocks_better. intros insts. apply forward_block_weight. Qed.

(** ** The peephole rules *)

Lemma simplify_progress inst inst' : simplify inst = Some inst' ->
  (weight inst' < weight inst)%nat \/ (swappable inst = true /\ inst' = with_ops inst (i_op inst) (i_b inst) (i_a inst) (i_c inst)).
Proof.
  unfold simplify. fold (swappable inst). destruct (swappable inst); [intros [= <-]; by right|]. intros H. left. revert H. unfold weight.
  destruct (i_op inst) eqn:Op; try (by intros [=]);
  rewrite ?(bool_decide_false (IR_SDIV = IR_UDIV)) by done; cbn [andb];
  repeat match goal with
  | |- (if ?x then _ else _) = Some _ -> _ => destruct x
  | |- match ?x with _ => _ end = Some _ -> _ => destruct x
  end; intros H; try discriminate H; injection H as <-; cbn; lia.
Qed.

Section Text.
Context (f : ir_function) (b : nat) (Hb : (b < length (fn_blocks f))%nat).
Notation text := (text f b).

Lemma text_total g x y : (total g (text y) + g x = total g (text x) + g y)%nat.
Proof.
  unfold total. rewrite (text_text f b x y). cbn [fn_blocks set_block with_blocks with_body]. apply list_total_insert. by apply text_blocks.
Qed.

Lemma text_size x y : (size (text y) + length x = size (text x) + length y)%nat.
Proof. pose proof (text_total (fun insts => S (length insts)) x y) as H. unfold size, total in *. lia. Qed.

Lemma shorter_less x y : (length y < length x)%nat -> less (measure_of (text y)) (measure_of (text x)).
Proof. intros H. left. pose proof (text_size x y). cbn [measure_of fst]. lia. Qed.

Lemma lighter_less x y : length y = length x -> (block_weight y < block_weight x)%nat -> less (measure_of (text y)) (measure_of (text x)).
Proof. intros Hl H. pose proof (text_size x y). pose proof (text_total block_weight x y). apply less_weight; lia. Qed.

(** The blocks with one jump stay what they are where a terminator stays one. *)
Lemma passed_over_text x y u : (jumps_to (text x) b = None <-> jumps_to (text y) b = None) -> passed_over (text y) u = passed_over (text x) u.
Proof.
  unfold passed_over. intros H. destruct (decide (u = b)) as [->|Hne].
  - destruct (jumps_to (text x) b), (jumps_to (text y) b); naive_solver.
  - assert (jumps_to (text y) u = jumps_to (text x) u) as ->; [|done].
    pose proof (text_there f b y x u Hne) as E. unfold jumps_to, block. unfold body in E. by rewrite E.
Qed.

Lemma text_loose x y : (jumps_to (text x) b = None <-> jumps_to (text y) b = None) ->
  (total (block_loose (text y)) (text y) + block_loose (text x) x = total (block_loose (text x)) (text x) + block_loose (text x) y)%nat.
Proof.
  intros H. rewrite <- (text_total (block_loose (text x)) x y). f_equal. unfold total. apply sum_ext. intros insts _.
  unfold block_loose, times. f_equal. apply filter_ext. intros u. by apply passed_over_text.
Qed.

Lemma jumps_to_here x : jumps_to (text x) b = match x with [inst] => if bool_decide (i_op inst = IR_JUMP) then block_of (i_a inst) else None | _ => None end.
Proof. unfold jumps_to. pose proof (text_here f b Hb x) as E. unfold body in E. unfold block. by rewrite E. Qed.

(** A swap changes nothing but the place of the constant. *)
Lemma swap_less pre inst post : swappable inst = true ->
  less (measure_of (text (pre ++ with_ops inst (i_op inst) (i_b inst) (i_a inst) (i_c inst) :: post))) (measure_of (text (pre ++ inst :: post))).
Proof.
  set (inst' := with_ops _ _ _ _ _). intros Hs. set (x := pre ++ inst :: post). set (y := pre ++ inst' :: post).
  assert (Ht : inst_targets inst' = [] /\ inst_targets inst = []).
  { unfold swappable in Hs. apply andb_true_iff in Hs as [[Hc _]%andb_true_iff _]. unfold inst_targets, inst'. cbn. by destruct (i_op inst). }
  assert (Hj : jumps_to (text x) b = None <-> jumps_to (text y) b = None).
  { rewrite !jumps_to_here. unfold x, y. unfold swappable in Hs. apply andb_true_iff in Hs as [[Hc _]%andb_true_iff _].
    destruct pre as [|? [|]], post; cbn [app]; try done. cbn [inst' with_ops i_op]. destruct (i_op inst); done. }
  right. cbn [fst snd measure_of]. split.
  { pose proof (text_size x y) as H. unfold x, y in *. rewrite !length_app in H. cbn [length] in H. lia. }
  right. cbn [fst snd]. split.
  { pose proof (text_total block_weight x y) as H. unfold x, y in *. rewrite !block_weight_app, !block_weight_cons in H. change (weight inst') with (weight inst) in H. lia. }
  right. cbn [fst snd]. split.
  { pose proof (text_total (block_rank (fun _ => O) O) x y) as H. unfold x, y in *.
    rewrite (block_rank_replace _ _ pre inst inst' post) in H; [lia|done|]. intros l. unfold inst_rank, operands, inst'. cbn. lia. }
  right. cbn [fst snd]. split.
  { pose proof (text_loose x y Hj) as H. unfold x, y in *. unfold block_loose in *. rewrite !bind_app, !bind_cons, (proj1 Ht), (proj2 Ht) in H. lia. }
  pose proof (text_total (times swappable) x y) as H. unfold x, y in *. rewrite !times_app, !count_cons, Hs in H.
  assert (swappable inst' = false) as E; [|rewrite E in H; lia]. unfold swappable, inst' in *. cbn.
  apply andb_true_iff in Hs as [[-> Ha]%andb_true_iff Hb'%negb_true_iff]. by rewrite Ha, Hb'.
Qed.

Lemma simplify_less pre inst inst' post : simplify inst = Some inst' -> less (measure_of (text (pre ++ inst' :: post))) (measure_of (text (pre ++ inst :: post))).
Proof.
  intros [Hw|[Hs ->]]%simplify_progress; [|by apply swap_less]. apply lighter_less; [by rewrite !length_app|].
  rewrite !block_weight_app, !block_weight_cons. lia.
Qed.

(** A target moves from a block with one jump to a block without. *)
Lemma final_from_stops g steps p target : final_from g steps p target = p \/ jumps_to g (final_from g steps p target) = None.
Proof.
  revert target. induction steps as [|steps IH]; intros target; cbn [final_from]; [by left|]. destruct (jumps_to g target) eqn:E; [apply IH|by right].
Qed.

Lemma retarget_moved g o : if (retarget g o).2
  then exists u t, block_of o = Some u /\ block_of (retarget g o).1 = Some t /\ passed_over g u = true /\ passed_over g t = false
  else (retarget g o).1 = o.
Proof.
  unfold retarget. destruct (block_of o) as [u|]; [|done]. destruct (final_target g u =? u)%nat eqn:E; cbn [fst snd]; [done|].
  apply Nat.eqb_neq in E. exists u, (final_target g u). do 2 (split; [done|]). unfold passed_over. split.
  - destruct (jumps_to g u) eqn:Ej; [done|]. destruct E. unfold final_target. cbn [final_from]. by rewrite Ej.
  - unfold final_target in *. by destruct (final_from_stops g (S (length (fn_blocks g))) u u) as [Hs|Hs]; [|rewrite Hs].
Qed.

Lemma retarget_loose g o : (times (passed_over g) (option_list (block_of (retarget g o).1)) + (if (retarget g o).2 then 1 else 0) =
  times (passed_over g) (option_list (block_of o)))%nat.
Proof.
  pose proof (retarget_moved g o) as H. destruct (retarget g o) as [o' [|]]; cbn [fst snd] in *; [|subst; lia].
  destruct H as (u & t & -> & -> & Hu & Ht). change (option_list (Some t)) with [t]. change (option_list (Some u)) with [u]. by rewrite !count_cons, Hu, Ht.
Qed.

Lemma retarget_inst_loose g inst : if (retarget_inst g inst).2
  then (times (passed_over g) (inst_targets (retarget_inst g inst).1) < times (passed_over g) (inst_targets inst))%nat
  else (retarget_inst g inst).1 = inst.
Proof.
  unfold retarget_inst. destruct (i_op inst) eqn:Op; try done.
  - pose proof (retarget_loose g (i_a inst)) as H. pose proof (retarget_moved g (i_a inst)) as Hm. destruct (retarget g (i_a inst)) as [a [|]]; cbn [fst snd] in *.
    + unfold inst_targets. cbn [with_ops i_op i_a]. rewrite Op. lia.
    + subst a. rewrite <- Op. by destruct inst.
  - pose proof (retarget_loose g (i_b inst)) as H. pose proof (retarget_moved g (i_b inst)) as Hm.
    pose proof (retarget_loose g (i_c inst)) as H'. pose proof (retarget_moved g (i_c inst)) as Hm'.
    destruct (retarget g (i_b inst)) as [b' mb], (retarget g (i_c inst)) as [c' mc]; cbn [fst snd] in *.
    destruct (mb || mc) eqn:E; [unfold inst_targets; cbn [with_ops i_op i_b i_c]; rewrite Op, !times_app; destruct mb, mc; try done; lia|].
    apply orb_false_iff in E as [-> ->]. subst b' c'. rewrite <- Op. by destruct inst.
  - pose proof (retarget_loose g (i_b inst)) as H. pose proof (retarget_moved g (i_b inst)) as Hm.
    pose proof (retarget_loose g (i_c inst)) as H'. pose proof (retarget_moved g (i_c inst)) as Hm'.
    destruct (retarget g (i_b inst)) as [b' mb], (retarget g (i_c inst)) as [c' mc]; cbn [fst snd] in *.
    destruct (mb || mc) eqn:E; [unfold inst_targets; cbn [with_ops i_op i_b i_c]; rewrite Op, !times_app; destruct mb, mc; try done; lia|].
    apply orb_false_iff in E as [-> ->]. subst b' c'. rewrite <- Op. by destruct inst.
Qed.

Lemma retarget_rank g l o : operand_rank l (retarget g o).1 = operand_rank l o.
Proof.
  destruct (block_of o) as [u|] eqn:E; [|by rewrite retarget_other]. destruct (retarget_block g o u E) as (k & u' & K%block_of_kind & _).
  apply block_of_kind in E. unfold operand_rank. by rewrite K, E.
Qed.

Lemma retarget_inst_rank g l inst : inst_rank l (retarget_inst g inst).1 = inst_rank l inst.
Proof.
  rewrite retarget_inst_eq. destruct (i_op inst); try done; unfold inst_rank, operands; cbn; by rewrite !retarget_rank.
Qed.

Lemma retarget_less pre inst post : let r := retarget_inst (text (pre ++ inst :: post)) inst in
  if r.2 then less (measure_of (text (pre ++ r.1 :: post))) (measure_of (text (pre ++ inst :: post))) else r.1 = inst.
Proof.
  set (x := pre ++ inst :: post). cbv zeta. pose proof (retarget_inst_loose (text x) inst) as H.
  pose proof (retarget_inst_op (text x) inst) as Op. pose proof (retarget_inst_eq (text x) inst) as Eq.
  pose proof (fun l => retarget_inst_rank (text x) l inst) as Er.
  destruct (retarget_inst (text x) inst) as [inst' [|]]; cbn [fst snd] in *; [|done]. set (y := pre ++ inst' :: post).
  assert (Hj : jumps_to (text x) b = None <-> jumps_to (text y) b = None).
  { rewrite !jumps_to_here. unfold x, y. destruct pre as [|? [|]], post; cbn [app]; try done. rewrite Op. case_bool_decide as E; [|done].
    rewrite Eq, E. cbn [with_ops i_a]. destruct (block_of (i_a inst)) as [u|] eqn:Eu; [|by rewrite retarget_other, Eu].
    destruct (retarget_block (text x) (i_a inst) u Eu) as (k & u' & Eu' & _). by rewrite Eu'. }
  right. cbn [fst snd measure_of]. split.
  { pose proof (text_size x y) as Hs. unfold x, y in *. rewrite !length_app in Hs. cbn [length] in Hs. lia. }
  right. cbn [fst snd]. split.
  { pose proof (text_total block_weight x y) as Hw. unfold x, y in *. rewrite !block_weight_app, !block_weight_cons in Hw.
    assert (weight inst' = weight inst) as E by (unfold weight; by rewrite Op). lia. }
  right. cbn [fst snd]. split.
  { pose proof (text_total (block_rank (fun _ => O) O) x y) as Hr. unfold x, y in *.
    rewrite (block_rank_replace _ _ pre inst inst' post) in Hr; [lia| |]; [rewrite Eq; by destruct (i_op inst)|]. exact Er. }
  left. cbn [fst]. pose proof (text_loose x y Hj) as Hl.
  assert (block_loose (text x) y < block_loose (text x) x)%nat; [|lia].
  clear -H. revert H. generalize (text x) as g. intros g H. unfold block_loose, x, y. rewrite !bind_app, !bind_cons, !times_app. lia.
Qed.

(** ** The peephole loop *)

Definition block_better (x : list ir_inst) (r : list ir_inst * bool) : Prop :=
  if r.2 then less (measure_of (text r.1)) (measure_of (text x)) else r.1 = x.

(** A step that lessens the measure, before the rest of the loop. *)
Lemma better_after x y r : less (measure_of (text y)) (measure_of (text x)) -> block_better y r -> less (measure_of (text r.1)) (measure_of (text x)).
Proof. intros H. unfold block_better. destruct r.2; [intros H'; by eapply less_trans|by intros ->]. Qed.

Lemma peephole_block_better c n pre rest : (length rest <= n)%nat -> block_better (pre ++ rest) (peephole_block c f b pre rest).
Proof.
  revert pre rest. induction n as [|n IH]; intros pre [|inst after] Hn; cbn [length] in Hn; [|lia| |];
    [unfold block_better; cbn; by rewrite app_nil_r..|]. cbn [peephole_block].
  set (x := pre ++ inst :: after).
  assert (Hs : if bool_decide (is_Some (simplify inst)) then less (measure_of (text (pre ++ default inst (simplify inst) :: after))) (measure_of (text x)) else default inst (simplify inst) = inst).
  { destruct (simplify inst) as [inst'|] eqn:E; [rewrite bool_decide_true by (by eexists)|by rewrite bool_decide_false by (by intros [])]. by apply simplify_less. }
  revert Hs. generalize (bool_decide (is_Some (simplify inst))) as simpler. generalize (default inst (simplify inst)) as inst1. intros inst1 simpler Hs.
  assert (Hle : forall z, less (measure_of (text z)) (measure_of (text (pre ++ inst1 :: after))) -> less (measure_of (text z)) (measure_of (text x))).
  { intros z Hz. destruct simpler; [by eapply less_trans|]. by subst inst1. }
  destruct (bool_decide (i_op inst1 = IR_COPY) && is_result (i_a inst1) (i_result inst1)).
  { specialize (IH pre after ltac:(lia)). destruct (peephole_block c f b pre after) as [insts more]. cbn.
    apply Hle, (better_after _ _ _ (shorter_less (pre ++ inst1 :: after) (pre ++ after) ltac:(rewrite !length_app; cbn; lia)) IH). }
  assert (Hgo : block_better x (let '(inst', moved) := retarget_inst (set_block f b (pre ++ inst1 :: after)) inst1 in
    let '(insts, more) := peephole_block c f b (pre ++ [inst']) after in (insts, simpler || moved || more))).
  { pose proof (retarget_less pre inst1 after) as Hr. cbv zeta in Hr. unfold text in Hr at 1 2 4. destruct (retarget_inst _ inst1) as [inst' moved]. cbn [fst snd] in Hr.
    specialize (IH (pre ++ [inst']) after ltac:(lia)). rewrite <- app_assoc in IH. cbn [app] in IH. destruct (peephole_block c f b (pre ++ [inst']) after) as [insts more].
    unfold block_better in *. cbn [fst snd] in *. destruct moved.
    - rewrite orb_true_r. cbn [orb]. apply Hle. destruct more; [by eapply less_trans|by subst].
    - subst inst'. rewrite orb_false_r. destruct simpler; cbn [orb]; [destruct more; [by eapply less_trans|by subst]|]. subst inst1. by destruct more. }
  destruct after as [|next after]; [exact Hgo|]. destruct (fuses f c inst1 next); [|exact Hgo]. cbn [length] in Hn.
  specialize (IH (pre ++ [with_result inst1 (i_result next)]) after ltac:(lia)). rewrite <- app_assoc in IH. destruct (peephole_block c f b _ after) as [insts more]. cbn.
  apply Hle. refine (better_after _ _ _ (shorter_less _ _ _) IH). rewrite !length_app. cbn. lia.
Qed.
End Text.

Lemma better_trans f g g' changed changed' : better f (g, changed) -> better g (g', changed') -> better f (g', changed' || changed).
Proof.
  unfold better. cbn [fst snd]. destruct changed, changed'; cbn [orb]; try (by intros H ->); try (by intros ->).
  intros H H'. by eapply less_trans.
Qed.

Lemma apply_peephole_better f : better f (apply_peephole_rules f).
Proof.
  unfold apply_peephole_rules. generalize (count f). intros c.
  assert (H : forall bs g changed, Forall (fun b => b < length (fn_blocks f))%nat bs -> length (fn_blocks g) = length (fn_blocks f) ->
    better f (g, changed) -> better f (fold_left (peephole_at c) bs (g, changed))).
  { intros bs. induction bs as [|b bs IH]; intros g changed Hbs Hl Hg; [done|]. apply Forall_cons in Hbs as [Hb Hbs]. cbn [fold_left]. unfold peephole_at at 2.
    pose proof (peephole_block_better g b ltac:(lia) c (length (block g b)) [] (block g b) ltac:(done)) as Hs. cbn [app] in Hs.
    destruct (peephole_block c g b [] (block g b)) as [insts more]. apply IH; [done|cbn; by rewrite length_insert|].
    apply (better_trans f g); [done|]. unfold block_better, text in Hs. cbn [fst snd] in Hs. unfold better. cbn [fst snd].
    destruct more; [by rewrite set_block_id in Hs|]. subst insts. apply set_block_id. }
  apply H; [|done|done]. apply Forall_forall. intros b Hb%elem_of_seq. lia.
Qed.
