(* ===== verification/OptimizeRounds.v ===== *)
(** * OptimizeRounds: the rounds of the optimizer come to an end

    The propagation of copies and the removal of dead code lessen the measure together:
    a copy that has gone into all the uses of its result is removed in the same round.
    So every round that changes the function lessens the measure, and
    [optimize_function] has a result. *)

From S2P Require Import Prelude Arith Ir IrFold IrVerify IrDefinitions IrSem Optimize IrSim OptimizeLocal OptimizeBlock OptimizeCounts OptimizeSingle OptimizeGraph OptimizeMerge OptimizePeephole OptimizeRetarget OptimizeMeasure OptimizeEnds.

(** ** The propagation inside a block *)

(** What is known is defined before the copy. *)
Definition known_before (last : nat -> nat) (known : gmap nat ir_operand) : Prop :=
  forall t v, known !! t = Some v -> (operand_rank last v < S (last t))%nat.

Definition replaced (known : gmap nat ir_operand) (o : ir_operand) : ir_operand := default o (known_at known o).

Lemma replaced_rank last known o : known_before last known ->
  (operand_rank last (replaced known o) + (if bool_decide (is_Some (known_at known o)) then 1 else 0) <= operand_rank last o)%nat.
Proof.
  intros H. unfold replaced, known_at. destruct (o_kind o) as [|t| | | | | |] eqn:K; try (rewrite bool_decide_false by (by intros []); cbn; lia).
  destruct (known !! t) as [v|] eqn:E; [rewrite bool_decide_true by (by eexists)|rewrite bool_decide_false by (by intros []); cbn; lia].
  specialize (H t v E). unfold operand_rank at 2. rewrite K. cbn. lia.
Qed.

Lemma replaced_ranks last known os : known_before last known ->
  (list_sum (map (operand_rank last) (map (replaced known) os)) + (if existsb (fun o => bool_decide (is_Some (known_at known o))) os then 1 else 0)
   <= list_sum (map (operand_rank last) os))%nat.
Proof.
  intros H. induction os as [|o os IH]; [done|]. pose proof (replaced_rank last known o H) as Ho. cbn.
  destruct (bool_decide _), (existsb _ os); cbn in *; unfold list_sum in *; lia.
Qed.

Lemma known_before_after last known i inst : known_before last known -> (forall t, (last t <= i)%nat) ->
  known_before (last_after last i inst) (known_after known inst) /\ forall t, (last_after last i inst t <= S i)%nat.
Proof.
  intros H Hl. split.
  2: { intros t. unfold last_after. destruct (defines t inst); [done|]. specialize (Hl t). lia. }
  unfold known_after, last_after, defines. destruct (i_result inst) as [r|] eqn:Er.
  2: { intros t v Hv. specialize (H t v Hv). unfold operand_rank in *. destruct (o_kind v); by rewrite ?bool_decide_false by done. }
  set (kept := filter _ known).
  assert (Hkept : known_before (fun t => if bool_decide (Some r = Some t) then S i else last t) kept).
  { intros t v [Hv [Hne Hvr]]%map_lookup_filter_Some. specialize (H t v Hv). rewrite bool_decide_false by congruence.
    unfold operand_rank, is_temp in *. destruct (o_kind v) as [|u| | | | | |]; try done. apply Nat.eqb_neq in Hvr. by rewrite bool_decide_false by congruence. }
  destruct (bool_decide (i_op inst = IR_COPY) && _ && _) eqn:Ec; [|done]. intros t v. destruct (decide (t = r)) as [->|Hne].
  - rewrite lookup_insert_eq. intros [= <-]. rewrite bool_decide_true by done.
    apply andb_true_iff in Ec as [[_ Hnt%negb_true_iff]%andb_true_iff _]. unfold operand_rank, is_temp in *.
    destruct (o_kind (i_a inst)) as [|u| | | | | |]; try lia. apply Nat.eqb_neq in Hnt. rewrite bool_decide_false by congruence. specialize (Hl u). lia.
  - rewrite lookup_insert_ne by done. apply Hkept.
Qed.

Lemma propagate_rank known last i insts : known_before last known -> (forall t, (last t <= i)%nat) ->
  (block_rank last i (propagate_in_block known insts).1 + (if (propagate_in_block known insts).2 then 1 else 0) <= block_rank last i insts)%nat.
Proof.
  revert known last i. induction insts as [|inst insts IH]; intros known last i Hk Hl; [done|]. cbn [propagate_in_block].
  set (inst' := map_operands _ inst).
  pose proof (replaced_ranks last known (operands inst) Hk) as Hi. change (map (replaced known) (operands inst)) with (operands inst') in Hi.
  destruct (known_before_after last known i inst' Hk Hl) as [Hk' Hl']. specialize (IH _ _ _ Hk' Hl').
  change (last_after last i inst') with (last_after last i inst) in IH.
  destruct (propagate_in_block (known_after known inst') insts) as [rest more]. cbn [fst snd block_rank] in *.
  change (last_after last i inst') with (last_after last i inst). fold (inst_rank last inst') in Hi. fold (inst_rank last inst) in Hi.
  destruct (existsb _ (operands inst)), more; cbn [orb]; lia.
Qed.

Lemma propagate_shape known insts : length (propagate_in_block known insts).1 = length insts /\
  block_weight (propagate_in_block known insts).1 = block_weight insts /\
  ((propagate_in_block known insts).2 = false -> (propagate_in_block known insts).1 = insts).
Proof.
  revert known. induction insts as [|inst insts IH]; intros known; [done|]. cbn [propagate_in_block]. set (inst' := map_operands _ inst).
  destruct (IH (known_after known inst')) as (H1 & H2 & H3). destruct (propagate_in_block _ insts) as [rest more]. cbn [fst snd] in *.
  rewrite !block_weight_cons, H2. split; [cbn; by rewrite H1|]. split; [done|]. intros [E ->]%orb_false_iff. rewrite (H3 eq_refl). f_equal.
  assert (forall o, o ∈ operands inst -> default o (known_at known o) = o) as Ho.
  { intros o Hin. destruct (known_at known o) as [v|] eqn:Ek; [|done].
    assert (existsb (fun o => bool_decide (is_Some (known_at known o))) (operands inst) = true); [|congruence].
    apply existsb_exists. exists o. split; [by apply list_elem_of_In|]. apply bool_decide_eq_true. by exists v. }
  unfold inst'. destruct inst as [op ty r a b c0 of_ fld mem args]. unfold map_operands, operands in *. cbn in *.
  rewrite (Ho a), (Ho b), (Ho c0) by set_solver. f_equal. rewrite <- (map_id args) at 2. apply map_ext_in. intros o Hin%list_elem_of_In. apply Ho. set_solver.
Qed.

Definition propagate_blocks (f : ir_function) : ir_function * bool :=
  (with_blocks f (map fst (map (propagate_in_block ∅) (fn_blocks f))), existsb snd (map (propagate_in_block ∅) (fn_blocks f))).

Lemma propagate_blocks_better f : better f (propagate_blocks f) /\ size (propagate_blocks f).1 = size f /\
  total block_weight (propagate_blocks f).1 = total block_weight f.
Proof.
  set (last := fun _ : nat => O). assert (Hk : known_before last ∅) by (intros t v; by rewrite lookup_empty).
  pose proof (fun insts => propagate_rank ∅ last O insts Hk (fun t => le_n O)) as Hr.
  assert (Hs : size (propagate_blocks f).1 = size f).
  { unfold size, propagate_blocks. cbn [fst fn_blocks with_blocks with_body]. rewrite !map_map. apply sum_ext. intros x _. by destruct (propagate_shape ∅ x) as [-> _]. }
  assert (Hw : total block_weight (propagate_blocks f).1 = total block_weight f).
  { unfold total, propagate_blocks. cbn [fst fn_blocks with_blocks with_body]. rewrite !map_map. apply sum_ext. intros x _. by destruct (propagate_shape ∅ x) as (_ & -> & _). }
  split; [|done]. unfold better. destruct (propagate_blocks f).2 eqn:E.
  - right. split; [done|]. right. split; [done|]. left. cbn [fst snd measure_of]. fold last.
    unfold total, propagate_blocks in *. cbn [fst snd fn_blocks with_blocks with_body] in *. rewrite !map_map.
    apply existsb_exists in E as (p & (insts & <- & Hin%list_elem_of_In)%in_map_iff & Ep). apply (sum_lt _ _ _ insts); [|done|].
    + intros x _. specialize (Hr x). lia.
    + specialize (Hr insts). rewrite Ep in Hr. lia.
  - clear Hs Hw Hr. destruct f. unfold propagate_blocks, with_blocks, with_body in *. cbn in *. f_equal. rewrite map_map. induction fn_blocks as [|x l IH]; [done|].
    cbn in *. apply orb_false_iff in E as [Ex El]. rewrite (IH El). by rewrite (proj2 (proj2 (propagate_shape ∅ x)) Ex).
Qed.

(** ** The propagation from block to block *)

(** A copy with a result that nothing uses. *)
Definition spent (f : ir_function) : Prop :=
  exists inst x, inst ∈ all_insts f /\ i_op inst = IR_COPY /\ i_result inst = Some x /\ uses (count f) x = O.

Lemma unused_operand f x : uses (count f) x = O <-> forall inst o, inst ∈ all_insts f -> o ∈ operands inst -> is_temp o x = false.
Proof.
  cbn [uses count]. rewrite times_zero. split.
  - intros H inst o Hi Ho. apply H. apply list_elem_of_bind. by exists inst.
  - intros H o (inst & Ho & Hi)%list_elem_of_bind. by apply (H inst).
Qed.

Lemma replace_all_insts f t v : all_insts (replace_uses f t v).1 = map (map_operands (replace_operand t v)) (all_insts f).
Proof. unfold all_insts, replace_uses. cbn. by rewrite concat_map. Qed.

Lemma replaced_operand f t v inst o : inst ∈ all_insts (replace_uses f t v).1 -> o ∈ operands inst ->
  exists inst' o', inst' ∈ all_insts f /\ o' ∈ operands inst' /\ o = replace_operand t v o'.
Proof.
  rewrite replace_all_insts. intros (i & -> & Hi)%list_elem_of_fmap Ho. change (operands (map_operands (replace_operand t v) i)) with (map (replace_operand t v) (operands i)) in Ho.
  apply list_elem_of_fmap in Ho as (o' & -> & Ho). by exists i, o'.
Qed.

(** The replaced temporary has no uses left, and another without uses gets none. *)
Lemma replaced_unused f t v : is_temp v t = false -> uses (count (replace_uses f t v).1) t = O.
Proof.
  intros Hv. apply unused_operand. intros inst o Hi Ho. destruct (replaced_operand _ _ _ _ _ Hi Ho) as (i & o' & _ & _ & ->).
  unfold replace_operand. by destruct (is_temp o' t) eqn:E.
Qed.

Lemma replaced_spent f t v inst : inst ∈ all_insts f -> v ∈ operands inst -> spent f -> spent (replace_uses f t v).1.
Proof.
  intros Hin Hv (i & x & Hi & Op & Er & Hx). exists (map_operands (replace_operand t v) i), x. split; [|split; [done|split; [done|]]].
  - rewrite replace_all_insts. by apply list_elem_of_fmap_2.
  - rewrite unused_operand in *. intros j o Hj Ho. destruct (replaced_operand _ _ _ _ _ Hj Ho) as (i' & o' & Hi' & Ho' & ->).
    unfold replace_operand. destruct (is_temp o' t); [by apply (Hx inst)|by apply (Hx i')].
Qed.

Lemma replace_same f t v : (replace_uses f t v).2 = false -> (replace_uses f t v).1 = f.
Proof.
  intros H. unfold replace_uses in *. cbn [fst snd] in *. destruct f. unfold with_blocks, with_body, all_insts in *. cbn in *. f_equal.
  assert (Ho : forall inst o, inst ∈ concat fn_blocks -> o ∈ operands inst -> replace_operand t v o = o).
  { intros inst o Hi Hin. unfold replace_operand. destruct (is_temp o t) eqn:E; [|done].
    assert (existsb (fun o => is_temp o t) (concat fn_blocks ≫= operands) = true); [|congruence].
    apply existsb_exists. exists o. split; [|done]. apply list_elem_of_In, list_elem_of_bind. by exists inst. }
  rewrite <- (map_id fn_blocks) at 2. apply map_ext_in. intros insts Hl%list_elem_of_In. rewrite <- (map_id insts) at 2. apply map_ext_in. intros inst Hi%list_elem_of_In.
  assert (inst ∈ concat fn_blocks) as Hin by (apply concat_elem; by exists insts). specialize (Ho inst). destruct inst as [op ty r a b c0 of_ fld mem args].
  unfold map_operands, operands in *. cbn in *. rewrite (Ho a), (Ho b), (Ho c0) by set_solver. f_equal. rewrite <- (map_id args) at 2.
  apply map_ext_in. intros o Hargs%list_elem_of_In. apply Ho; [done|set_solver].
Qed.

Lemma replace_size f t v : size (replace_uses f t v).1 = size f.
Proof.
  unfold size, replace_uses. cbn [fst fn_blocks with_blocks with_body]. rewrite map_map. apply sum_ext. intros x _. by rewrite length_map.
Qed.

(** After a step the function is as it was, or it has a copy that nothing uses. *)
Lemma propagate_at_spent c st at_ : size (propagate_at c st at_).1 = size st.1 /\
  (propagate_at c st at_ = st \/ ((propagate_at c st at_).2 = true /\ spent (propagate_at c st at_).1)) /\
  (spent st.1 -> spent (propagate_at c st at_).1).
Proof.
  destruct st as [f changed], at_ as [b i]. cbn [propagate_at fst snd]. destruct (inst_at f b i) as [inst|] eqn:Ei; [|by auto].
  destruct (i_result inst) as [x|] eqn:Er; [|by auto]. destruct (negb (bool_decide (i_op inst = IR_COPY)) || _ || _) eqn:Ec; [by auto|].
  apply orb_false_iff in Ec as [[Op%negb_false_iff _]%orb_false_iff Ex]. apply bool_decide_eq_true in Op.
  destruct (exact_copy f c b i (i_a inst)); [|by auto]. pose proof (inst_at_elem _ _ _ _ Ei) as Hin.
  assert (Ha : i_a inst ∈ operands inst) by by left.
  pose proof (replace_size f x (i_a inst)) as Hs. pose proof (replace_same f x (i_a inst)) as Hsame. pose proof (replaced_unused f x (i_a inst) Ex) as Hu.
  pose proof (replaced_spent f x (i_a inst) inst Hin Ha) as Hsp. pose proof (replace_all_insts f x (i_a inst)) as Hall.
  destruct (replace_uses f x (i_a inst)) as [g [|]]; cbn [fst snd orb] in *; [|rewrite Hsame by done; by auto].
  split; [done|]. split; [|done]. right. split; [done|]. exists (map_operands (replace_operand x (i_a inst)) inst), x.
  split; [|by repeat split]. rewrite Hall. by apply list_elem_of_fmap_2.
Qed.

Lemma propagate_all_spent c ats st : let st' := fold_left (propagate_at c) ats st in
  size st'.1 = size st.1 /\ (spent st.1 -> spent st'.1) /\ (st' = st \/ (st'.2 = true /\ spent st'.1)).
Proof.
  revert st. induction ats as [|a ats IH]; intros st; cbn [fold_left]; [by auto|]. destruct (propagate_at_spent c st a) as (H1 & H2 & H3).
  destruct (IH (propagate_at c st a)) as (H4 & H5 & H6). split; [congruence|]. split; [by auto|]. destruct H6 as [E|H6]; [|by right]. rewrite E. exact H2.
Qed.

Lemma propagate_copies_eq f : propagate_copies f = fold_left (propagate_at (count (propagate_blocks f).1)) (positions (propagate_blocks f).1) (propagate_blocks f).
Proof. done. Qed.

(** A change of the pass lessens the measure or leaves a copy that nothing uses. *)
Lemma propagate_copies_better f : size (propagate_copies f).1 = size f /\
  (better f (propagate_copies f) \/ ((propagate_copies f).2 = true /\ spent (propagate_copies f).1)).
Proof.
  rewrite propagate_copies_eq. destruct (propagate_blocks_better f) as (H1 & H2 & H3).
  destruct (propagate_all_spent (count (propagate_blocks f).1) (positions (propagate_blocks f).1) (propagate_blocks f)) as (H4 & _ & H5).
  split; [by rewrite H4|]. destruct H5 as [-> |H5]; [by left|by right].
Qed.

(** ** The removal of dead code *)

Lemma remove_unused_shorter c insts : remove_unused c insts = insts \/ (length (remove_unused c insts) < length insts)%nat.
Proof.
  induction insts as [|inst insts IH]; [by left|]. cbn [remove_unused]. assert (length (remove_unused c insts) <= length insts)%nat by (destruct IH as [-> |]; lia).
  destruct (dead c inst (remove_unused c insts)); [right; cbn; lia|]. destruct IH as [-> |]; [by left|right; cbn; lia].
Qed.

Lemma remove_unused_dead c insts inst : inst ∈ insts -> (forall rest, dead c inst rest = true) -> (length (remove_unused c insts) < length insts)%nat.
Proof.
  intros Hin Hd. induction Hin as [inst insts|inst i insts _ IH]; cbn [remove_unused].
  - rewrite Hd. destruct (remove_unused_shorter c insts) as [-> |]; cbn; lia.
  - specialize (IH Hd). destruct (dead c i _); cbn; lia.
Qed.

Lemma size_all f : size f = (length (all_insts f) + length (fn_blocks f))%nat.
Proof.
  unfold size, all_insts. induction (fn_blocks f) as [|x l IH]; [done|]. cbn [concat map length]. rewrite length_app.
  change (list_sum (S (length x) :: map (fun insts => S (length insts)) l)) with (S (length x) + list_sum (map (fun insts => S (length insts)) l))%nat. lia.
Qed.

Lemma with_blocks_id f : with_blocks f (fn_blocks f) = f.
Proof. by destruct f. Qed.

(** A removal makes the function smaller, and its flag tells. *)
Definition smaller (f : ir_function) (st : ir_function * bool) : Prop := if st.2 then (size st.1 < size f)%nat else st.1 = f.

Lemma smaller_le f st : smaller f st -> (size st.1 <= size f)%nat.
Proof. unfold smaller. destruct st.2; [lia|by intros ->]. Qed.

Lemma remove_unused_results_smaller f : smaller f (remove_unused_results f) /\ (spent f -> (size (remove_unused_results f).1 < size f)%nat).
Proof.
  assert (Hle : forall x, (S (length (remove_unused (count f) x)) <= S (length x))%nat) by (intros x; destruct (remove_unused_shorter (count f) x) as [-> |]; lia).
  assert (Hs : size (remove_unused_results f).1 = list_sum (map (fun x => S (length (remove_unused (count f) x))) (fn_blocks f))).
  { unfold size, remove_unused_results. cbn [fst fn_blocks with_blocks with_body]. by rewrite map_map. }
  split.
  - unfold smaller. destruct (remove_unused_results f).2 eqn:E.
    + pose proof (sum_le _ _ (fn_blocks f) (fun x _ => Hle x)) as H. fold (size f) in H. rewrite <- Hs in H.
      assert (size (remove_unused_results f).1 <> size f); [|lia]. rewrite !size_all. unfold remove_unused_results in *. cbn [fst snd] in *.
      apply negb_true_iff, Nat.eqb_neq in E. cbn [fn_blocks with_blocks with_body] in *. rewrite length_map. lia.
    + unfold remove_unused_results in E. cbn [snd] in E. apply negb_false_iff, Nat.eqb_eq in E.
      assert (Hl : size (remove_unused_results f).1 = size f).
      { rewrite !size_all. unfold remove_unused_results. cbn [fst fn_blocks with_blocks with_body] in *. rewrite length_map. lia. }
      rewrite Hs in Hl. unfold remove_unused_results. cbn [fst]. transitivity (with_blocks f (fn_blocks f)); [|apply with_blocks_id]. f_equal.
      transitivity (map id (fn_blocks f)); [|apply map_id]. apply map_ext_in. intros x Hx%list_elem_of_In. destruct (remove_unused_shorter (count f) x) as [|Hlt]; [done|].
      pose proof (sum_lt _ (fun insts => S (length insts)) (fn_blocks f) x (fun y _ => Hle y) Hx) as Hsum. unfold size in Hl. cbn in Hsum. lia.
  - intros (inst & x & (insts & Hb & Hi)%concat_elem & Op & Er & Hu). rewrite Hs. unfold size. apply (sum_lt _ _ _ insts); [intros y _; apply Hle|done|].
    assert (length (remove_unused (count f) insts) < length insts)%nat; [|lia]. apply (remove_unused_dead _ _ inst); [done|]. intros rest. unfold dead. by rewrite Er, Op, Hu.
Qed.

Lemma marked_sum (reached : list bool) (l : list (list ir_inst)) :
  (list_sum (map (fun x => S (length x)) (marked reached l)) + length l <= list_sum (map (fun x => S (length x)) l) + length (marked reached l))%nat.
Proof.
  revert l. induction reached as [|r reached IH]; intros [|x l]; try (cbn; lia).
  - assert (forall l : list (list ir_inst), length l <= list_sum (map (fun x => S (length x)) l))%nat as H.
    { intros l'. induction l' as [|y l' IHl]; [done|]. cbn [length map]. change (S (length l') <= S (length y) + list_sum (map (fun x => S (length x)) l'))%nat. lia. }
    unfold marked. cbn [zip zip_with List.filter map]. specialize (H (x :: l)). cbn [map length] in *. change (list_sum []) with O. lia.
  - specialize (IH l). unfold marked in *. cbn [zip zip_with List.filter fst]. destruct r; cbn; unfold list_sum in *; cbn in *; lia.
Qed.

Lemma remove_unreachable_smaller f st : remove_unreachable_blocks f = Some st -> smaller f st.
Proof.
  destruct (mark_reachable_spec f) as (reached & E & L & _). unfold remove_unreachable_blocks. rewrite E. cbn [mbind option_bind]. cbv zeta.
  intros [= <-]. unfold smaller. cbn [fst snd]. destruct (length (marked reached (fn_blocks f)) =? length (fn_blocks f))%nat eqn:El; cbn [negb].
  - apply Nat.eqb_eq in El. destruct (marked_all reached (fn_blocks f) L El) as [-> _]. by destruct f.
  - apply Nat.eqb_neq in El. pose proof (marked_sum reached (fn_blocks f)) as H.
    assert (length (marked reached (fn_blocks f)) <= length (fn_blocks f))%nat.
    { unfold marked. rewrite length_map. etransitivity; [apply filter_length_le|]. rewrite length_zip. lia. }
    unfold size. cbn [fn_blocks with_blocks with_body]. rewrite map_map.
    erewrite (sum_ext _ (fun x => S (length x))) by (intros x _; by rewrite length_map). lia.
Qed.

Lemma merge_size f b t rest jump : merging f b t rest jump -> (size (merge f b t) < size f)%nat.
Proof.
  intros H. pose proof H as [Hb _ _ Hne _ _ (insts & Hi & _)]. rewrite (merge_blocks_eq f b t rest jump insts H Hi). unfold size. cbn [fn_blocks with_blocks with_body].
  pose proof (list_total_insert (fun x => S (length x)) _ _ _ (rest ++ insts) Hb) as E1.
  assert (Hi' : <[b := rest ++ insts]> (fn_blocks f) !! t = Some insts) by (by rewrite list_lookup_insert_ne).
  pose proof (list_total_insert (fun x => S (length x)) _ _ _ [] Hi') as E2. cbv beta in E1, E2. rewrite !length_app in E1. cbn [length] in *. lia.
Qed.

Lemma merge_loop_smaller fuel f b changed st : merge_loop fuel f (predecessors f) b changed = Some st ->
  st = (f, changed) \/ (st.2 = true /\ (size st.1 < size f)%nat).
Proof.
  revert f b changed. induction fuel as [|fuel IH]; intros f b changed; cbn [merge_loop]; (destruct (_ <=? b)%nat; [intros [= <-]; by left|]); [done|].
  destruct (merges f (predecessors f) b) as [t|] eqn:Em; [|apply IH]. destruct (merges_spec f b t Em) as (rest & jump & H).
  rewrite <- (merge_predecessors f b t rest jump H). pose proof (merge_size f b t rest jump H) as Hs. intros E. right.
  destruct (IH _ _ _ E) as [-> |[? ?]]; [done|]. split; [done|lia].
Qed.

Lemma remove_dead_code_smaller f st : remove_dead_code f = Some st -> smaller f st /\ (spent f -> st.2 = true).
Proof.
  unfold remove_dead_code. destruct (remove_unused_results_smaller f) as [H1 Hsp]. destruct (remove_unused_results f) as [f1 changed].
  destruct (remove_unreachable_blocks f1) as [[f2 removed]|] eqn:E2; [|done]. apply remove_unreachable_smaller in E2. cbn [mbind option_bind].
  destruct (merge_blocks f2) as [[f3 merged]|] eqn:E3; [|done]. apply merge_loop_smaller in E3. cbn [mbind option_bind fst snd] in *.
  pose proof (smaller_le _ _ H1) as L1. pose proof (smaller_le _ _ E2) as L2. cbn [fst] in L1, L2.
  destruct E3 as [[= -> ->]|[Em H3]].
  - intros [= <-]. unfold smaller in *. cbn [fst snd] in *. split.
    + destruct changed, removed; cbn [orb]; try lia; by subst.
    + intros Hs. specialize (Hsp Hs). destruct changed; [by rewrite orb_true_r|]. subst f1. lia.
  - cbn [snd] in Em. subst merged. destruct (remove_unreachable_blocks f3) as [[f4 removed']|] eqn:E4; [|done].
    apply remove_unreachable_smaller, smaller_le in E4. cbn [mbind option_bind fst] in *. intros [= <-]. split; [|done]. unfold smaller. cbn [fst snd]. lia.
Qed.
