(* ===== verification/OptimizeOperands.v ===== *)
(** * OptimizeOperands: the operands that the passes leave

    The passes make no operand but constants, temporaries and blocks: every other one
    of the function they leave was there before, and so was every slot. What holds of
    all operands of a function without slots, and of those, holds after each pass. *)

From S2P Require Import Prelude Arith Ir IrFold IrVerify IrSem Optimize IrSim OptimizeLocal OptimizeBlock OptimizeCopies OptimizeDead OptimizeGraph OptimizeMerge OptimizePeephole OptimizeRetarget OptimizeRounds.

(** An operand that names no function and no datum. *)
Definition names_nothing (o : ir_operand) : Prop := match o_kind o with IR_GLOBAL _ | IR_FUNC _ => False | _ => True end.

Lemma none_nothing : names_nothing none.
Proof. done. Qed.

Lemma int_op_nothing type v : names_nothing (ir_int_op type v).
Proof. by destruct type. Qed.

Lemma block_nothing b type : names_nothing (Operand (IR_BLOCK b) type).
Proof. done. Qed.

Lemma fold_inst_nothing inst o : fold_inst inst = Some o -> names_nothing o.
Proof.
  unfold fold_inst. destruct (_ || _ || _); [done|].
  assert (forall a b, fold_float (i_op inst) (o_type (i_a inst)) a b = Some o -> names_nothing o) as Hf.
  { intros a b H. apply fold_float_cases in H. destruct (is_float_compare _); destruct H as [x ->]; [apply int_op_nothing|done]. }
  assert (fold_conversion inst = Some o -> names_nothing o) as Hc.
  { unfold fold_conversion. intros H. assert ((exists x t, o = Operand (IR_FLOAT x) t) \/ exists t v, o = ir_int_op t v) as [(x & t & ->)|(t & v & ->)]; [|done|apply int_op_nothing].
    destruct (i_op inst); try discriminate H; try (destruct (_ && _); [|discriminate H]); apply (inj Some) in H; subst o;
      first [left; do 2 eexists; reflexivity|right; do 2 eexists; reflexivity]. }
  destruct (i_op inst) eqn:Op; try discriminate; try (destruct (is_constant (i_a inst)); [exact Hc|discriminate]);
    destruct (o_kind (i_a inst)); try discriminate; try (destruct (o_kind (i_b inst)); try discriminate; try exact (Hf _ _));
    try (destruct (ir_fold_int _ _ _ _); try discriminate); intros H; apply (inj Some) in H; subst o; first [exact (int_op_nothing _ _)|exact I].
Qed.

Section Operands.
Context (P : ir_operand -> Prop) (Hnothing : forall o, names_nothing o -> P o).

(** No slot, and operands with the property. *)
Record plain (inst : ir_inst) : Prop := {
  pn_op : i_op inst <> IR_SLOT;
  pn_a : P (i_a inst);
  pn_b : P (i_b inst);
  pn_c : P (i_c inst);
  pn_args : Forall P (i_args inst)
}.

Definition plain_block (insts : list ir_inst) : Prop := Forall plain insts.
Definition plain_function (f : ir_function) : Prop := Forall plain_block (fn_blocks f).

Hint Resolve Hnothing none_nothing int_op_nothing block_nothing : core.

Lemma plain_map g f : plain_function f -> (forall insts, plain_block insts -> plain_block (g insts)) -> plain_function (with_blocks f (map g (fn_blocks f))).
Proof. intros H Hg. apply Forall_fmap. eapply Forall_impl; [exact H|exact Hg]. Qed.

Lemma plain_block_map g insts : (forall inst, plain inst -> plain (g inst)) -> plain_block insts -> plain_block (map g insts).
Proof. intros Hg H. apply Forall_fmap. eapply Forall_impl; [exact H|exact Hg]. Qed.

Lemma plain_set f b insts : plain_function f -> plain_block insts -> plain_function (set_block f b insts).
Proof. intros H Hi. by apply Forall_insert. Qed.

Lemma plain_at f b : plain_function f -> plain_block (block f b).
Proof. intros H. unfold block. destruct (fn_blocks f !! b) as [insts|] eqn:E; [by apply (Forall_lookup_1 _ _ _ _ H E)|constructor]. Qed.

Lemma plain_copy inst o : P o -> plain (make_copy inst o).
Proof. intros H. split; cbn; auto. Qed.

Lemma plain_ops inst op a b c : plain inst -> op <> IR_SLOT -> P a -> P b -> P c -> plain (with_ops inst op a b c).
Proof. intros [_ _ _ _ H] ? ? ? ?. by split. Qed.

Lemma plain_operands g inst : (forall o, P o -> P (g o)) -> plain inst -> plain (map_operands g inst).
Proof. intros Hg [H1 H2 H3 H4 H5]. split; cbn; auto. apply Forall_fmap. eapply Forall_impl; [exact H5|exact Hg]. Qed.

Lemma fold_constants_plain f : plain_function f -> plain_function (fold_constants f).1.
Proof.
  intros H. apply plain_map; [done|]. intros insts. apply plain_block_map. intros inst Hi.
  destruct (fold_constant inst) as [inst'|] eqn:E; [|done]. change (default inst (Some inst')) with inst'. revert E. unfold fold_constant.
  assert (Hc : make_copy inst <$> fold_inst inst = Some inst' -> plain inst').
  { destruct (fold_inst inst) as [o|] eqn:Ef; [|done]. intros [= <-]. apply plain_copy, Hnothing. by eapply fold_inst_nothing. }
  destruct (i_op inst); try exact Hc. destruct (o_kind (i_a inst)); try exact Hc. intros [= <-]. apply plain_ops; auto.
  destruct (negb _); apply Hi.
Qed.

Lemma simplify_plain inst : plain inst -> plain (default inst (simplify inst)).
Proof.
  intros H. pose proof H as [Ho Ha Hb Hc Hr]. destruct (simplify inst) as [inst'|] eqn:E; [|done]. change (default inst (Some inst')) with inst'. revert E. unfold simplify.
  destruct (_ && _ && _); [intros [= <-]; by apply plain_ops|].
  repeat match goal with
  | |- (if ?x then _ else _) = Some _ -> _ => destruct x
  | |- match ?x with _ => _ end = Some _ -> _ => destruct x eqn:?
  end; intros E; try discriminate E; injection E as <-; first [apply plain_copy; done|apply plain_ops; by auto|idtac].
  split; cbn; auto.
Qed.

Lemma retarget_plain f inst : plain inst -> plain (retarget_inst f inst).1.
Proof.
  intros H. pose proof H as [Ho Ha Hb Hc Hr]. assert (forall o, P o -> P (retarget f o).1) as Ht.
  { intros o Hp. unfold retarget. destruct (block_of o); [|done]. destruct (_ =? _)%nat; [done|]. apply Hnothing. done. }
  unfold retarget_inst. destruct (i_op inst) eqn:Op; try done.
  - specialize (Ht (i_a inst) Ha). destruct (retarget f (i_a inst)). by apply plain_ops.
  - pose proof (Ht (i_b inst) Hb) as H1. pose proof (Ht (i_c inst) Hc) as H2. destruct (retarget f (i_b inst)), (retarget f (i_c inst)). by apply plain_ops.
  - pose proof (Ht (i_b inst) Hb) as H1. pose proof (Ht (i_c inst) Hc) as H2. destruct (retarget f (i_b inst)), (retarget f (i_c inst)). by apply plain_ops.
Qed.

Lemma peephole_block_plain c f b n pre rest : (length rest <= n)%nat -> plain_block pre -> plain_block rest -> plain_block (peephole_block c f b pre rest).1.
Proof.
  revert pre rest. induction n as [|n IH]; intros pre [|inst after] Hn Hp Hr; cbn [length] in Hn; [done|lia|done|]. cbn [peephole_block].
  apply Forall_cons in Hr as [Hi Hr]. apply simplify_plain in Hi. revert Hi. generalize (default inst (simplify inst)) as inst1. intros inst1 Hi.
  destruct (_ && _).
  { specialize (IH pre after ltac:(lia) Hp Hr). by destruct (peephole_block c f b pre after). }
  assert (Hgo : plain_block (let '(inst', moved) := retarget_inst (set_block f b (pre ++ inst1 :: after)) inst1 in
    let '(insts, more) := peephole_block c f b (pre ++ [inst']) after in (insts, bool_decide (is_Some (simplify inst)) || moved || more)).1).
  { pose proof (retarget_plain (set_block f b (pre ++ inst1 :: after)) inst1 Hi) as Hp'. destruct (retarget_inst _ inst1) as [inst' moved]. cbn [fst] in Hp'.
    specialize (IH (pre ++ [inst']) after ltac:(lia)). destruct (peephole_block c f b (pre ++ [inst']) after). apply IH; [|done].
    apply Forall_app. split; [done|]. by constructor. }
  destruct after as [|next after]; [exact Hgo|]. destruct (fuses f c inst1 next); [|exact Hgo]. cbn [length] in Hn. apply Forall_cons in Hr as [_ Hr].
  specialize (IH (pre ++ [with_result inst1 (i_result next)]) after ltac:(lia)). destruct (peephole_block c f b _ after). apply IH; [|done].
  apply Forall_app. split; [done|]. constructor; [|done]. by destruct Hi; split.
Qed.

Lemma apply_peephole_plain f : plain_function f -> plain_function (apply_peephole_rules f).1.
Proof.
  unfold apply_peephole_rules. generalize (count f), (seq 0 (length (fn_blocks f))), false. intros c bs. revert f. induction bs as [|b bs IH]; intros f changed H; [done|].
  cbn [fold_left]. unfold peephole_at at 2. pose proof (peephole_block_plain c f b _ [] (block f b) (le_n _) ltac:(constructor) (plain_at f b H)) as Hb.
  destruct (peephole_block c f b [] (block f b)) as [insts more]. apply IH. by apply plain_set.
Qed.

Lemma forward_inst_plain f before h inst : plain inst -> P (hd_value h) ->
  plain (default inst (forward_inst f before h inst).1) /\ P (hd_value (forward_inst f before h inst).2).
Proof.
  intros Hi Hh. unfold forward_inst. set (h1 := if _ || _ || _ then forget h else h).
  assert (forall h, P (hd_value h) -> P (hd_value (forget h))) as Hforget by (intros h2 H2; exact H2 || by apply Hnothing).
  assert (P (hd_value h1)) as H1 by (unfold h1; destruct (_ || _ || _); auto). destruct (i_op inst) eqn:Op; try (split; [done|by cbn; auto]); clearbody h1.
  - destruct (_ && _ && _); [split; [by apply plain_copy|done]|]. destruct (_ || _); [split; [done|cbn; auto]|]. split; [done|].
    cbn. destruct (i_result inst); by apply Hnothing.
  - cbn [fst snd]. split; [done|]. destruct (ad_known (address_of before (i_b inst))); [exact (pn_a _ Hi)|]. destruct (_ || _); auto.
Qed.

Lemma forward_stores_plain f : plain_function f -> plain_function (forward_stores f).1.
Proof.
  intros H. unfold forward_stores. cbn [fst]. rewrite map_map. apply plain_map; [done|]. intros insts.
  assert (P (hd_value (Held no_address IR_VOID none))) as Hh by by apply Hnothing. revert Hh. generalize ([] : list ir_inst), (Held no_address IR_VOID none).
  induction insts as [|inst insts IH]; intros before h Hh Hi; [done|]. apply Forall_cons in Hi as [Hp Hi]. cbn [forward_block].
  destruct (forward_inst_plain f before h inst Hp Hh) as [H1 H2]. destruct (forward_inst f before h inst) as [copy h']. specialize (IH (before ++ [default inst copy]) h' H2 Hi).
  destruct (forward_block f _ h' insts). by constructor.
Qed.

(** What a block knows of its temporaries has the property. *)
Definition plain_known (known : gmap nat ir_operand) : Prop := forall t o, known !! t = Some o -> P o.

Lemma known_after_plain known inst : plain_known known -> plain inst -> plain_known (known_after known inst).
Proof.
  intros Hk Hi t o. unfold known_after. destruct (i_result inst) as [r|]; [|apply Hk].
  assert (forall t o, filter (fun '(t, v) => t <> r /\ is_temp v r = false) known !! t = Some o -> P o) as Hf by (intros t' o' [E _]%map_lookup_filter_Some; by eapply Hk).
  destruct (_ && _ && _); [|apply Hf]. destruct (decide (t = r)) as [->|]; [rewrite lookup_insert_eq; intros [= <-]; apply Hi|rewrite lookup_insert_ne by done; apply Hf].
Qed.

Lemma propagate_blocks_plain f : plain_function f -> plain_function (propagate_blocks f).1.
Proof.
  intros H. unfold propagate_blocks. cbn [fst]. rewrite map_map. apply plain_map; [done|]. intros insts.
  assert (plain_known ∅) as Hk by (intros t o; by rewrite lookup_empty). revert Hk. generalize (∅ : gmap nat ir_operand).
  induction insts as [|inst insts IH]; intros known Hk Hi; [done|]. apply Forall_cons in Hi as [Hp Hi]. cbn [propagate_in_block].
  assert (plain (map_operands (fun o => default o (known_at known o)) inst)) as Hp'.
  { apply plain_operands; [|done]. intros o Ho. unfold known_at. destruct (o_kind o) as [|t| | | | | |]; try done. destruct (known !! t) as [v|] eqn:E; [by eapply Hk|done]. }
  specialize (IH _ (known_after_plain known _ Hk Hp') Hi). destruct (propagate_in_block _ insts). by constructor.
Qed.

Lemma propagate_copies_plain f : plain_function f -> plain_function (propagate_copies f).1.
Proof.
  intros H. rewrite propagate_copies_eq. generalize (positions (propagate_blocks f).1), (count (propagate_blocks f).1). intros ps c.
  pose proof (propagate_blocks_plain f H) as H1. revert H1. generalize (propagate_blocks f). induction ps as [|[b i] ps IH]; intros [g changed] Hg; [done|]. cbn [fold_left]. apply IH. cbn [propagate_at].
  destruct (inst_at g b i) as [inst|] eqn:Ei; [|done]. destruct (i_result inst) as [x|]; [|done]. destruct (_ || _ || _); [done|]. destruct (exact_copy _ _ _ _ _); [|done].
  assert (plain inst) as Hi by (by apply (Forall_lookup_1 _ _ _ _ (plain_at g b Hg) Ei)).
  apply plain_map; [done|]. intros insts. apply plain_block_map. intros inst1. apply plain_operands. intros o Ho. unfold replace_operand. destruct (is_temp o x); [apply Hi|done].
Qed.

Lemma remove_unused_plain f : plain_function f -> plain_function (remove_unused_results f).1.
Proof.
  intros H. apply plain_map; [done|]. intros insts Hi. apply Forall_forall. intros inst Hin%remove_unused_elem. unfold plain_block in Hi. rewrite Forall_forall in Hi. by apply Hi.
Qed.

Lemma remove_unreachable_plain f st : remove_unreachable_blocks f = Some st -> plain_function f -> plain_function st.1.
Proof.
  unfold remove_unreachable_blocks. destruct (mark_reachable f) as [reached|]; [|done]. cbn [mbind option_bind]. cbv zeta. intros [= <-] H. cbn [fst].
  assert (Hm : Forall plain_block (marked reached (fn_blocks f))).
  { apply Forall_forall. intros insts Hin%marked_elem. unfold plain_function in H. rewrite Forall_forall in H. by apply H. }
  destruct (negb _); [|done]. apply Forall_fmap. eapply Forall_impl; [exact Hm|]. intros insts. apply plain_block_map. intros inst [H1 H2 H3 H4 H5].
  assert (forall number o, P o -> P (renumber_block number o)) as Hn by (intros number o Ho; unfold renumber_block; destruct (o_kind o); try done; by apply Hnothing).
  split; cbn; auto.
Qed.

Lemma merge_loop_plain fuel f preds b changed st : merge_loop fuel f preds b changed = Some st -> plain_function f -> plain_function st.1.
Proof.
  revert f preds b changed. induction fuel as [|fuel IH]; intros f preds b changed; cbn [merge_loop]; (destruct (_ <=? b)%nat; [by intros [= <-]|]); [done|].
  destruct (merges f preds b) as [t|]; intros E H; apply IH in E; try done. apply plain_set; [|constructor]. apply plain_set; [done|].
  apply Forall_app. split; [|by apply plain_at]. pose proof (plain_at f b H) as Hb. destruct (block f b) as [|i l] eqn:El; [constructor|].
  rewrite (app_removelast_last i (l := i :: l)) in Hb by done. by apply Forall_app in Hb as [Hb _].
Qed.

Lemma remove_dead_code_plain f st : remove_dead_code f = Some st -> plain_function f -> plain_function st.1.
Proof.
  unfold remove_dead_code. intros E H. apply remove_unused_plain in H. destruct (remove_unused_results f) as [f1 b1].
  destruct (remove_unreachable_blocks f1) as [[f2 b2]|] eqn:E2; [|done]. apply remove_unreachable_plain in E2; [|done]. cbn [mbind option_bind] in E.
  destruct (merge_blocks f2) as [[f3 b3]|] eqn:E3; [|done]. apply merge_loop_plain in E3; [|done]. cbn [mbind option_bind] in E.
  destruct b3; [|by injection E as <-]. destruct (remove_unreachable_blocks f3) as [[f4 b4]|] eqn:E4; [|done]. apply remove_unreachable_plain in E4; [|done].
  by injection E as <-.
Qed.

Lemma renumber_plain f : plain_function f -> plain_function (renumber_temps f).
Proof.
  intros H. unfold renumber_temps. destruct (fold_left _ _ _) as [numbers types]. apply Forall_fmap. eapply Forall_impl; [exact H|]. intros insts. apply plain_block_map. intros inst Hi.
  apply (plain_operands (renumber_operand (fun t => default O (numbers !! t)))) in Hi; [by destruct Hi; split|]. intros o Ho. unfold renumber_operand. destruct (o_kind o); try done. by apply Hnothing.
Qed.
End Operands.

(** Functions without slots. *)
Lemma no_slots_plain f : no_slots f <-> plain_function (fun _ => True) f.
Proof.
  unfold no_slots, plain_function, plain_block. split; intros H; (eapply Forall_impl; [exact H|]); intros insts Hi; (eapply Forall_impl; [exact Hi|]); intros inst Ho.
  - split; try done. by apply Forall_forall.
  - apply Ho.
Qed.

(** A property of operands that every plain function has lacks no slots. *)
Lemma plain_no_slots P f : plain_function P f -> no_slots f.
Proof. intros H. eapply Forall_impl; [exact H|]. intros insts Hi. eapply Forall_impl; [exact Hi|]. by intros inst []. Qed.
