(* ===== verification/OptimizeFunction.v ===== *)
(** * OptimizeFunction: the whole of optimize_function

    A round keeps the function well formed and without slots, refines it, and lessens
    the measure where it changes something. So the rounds end, and the function that
    [optimize_function] leaves behind stands for the one it was given. *)

From S2P Require Import Prelude Arith Ir IrFold IrVerify IrDefinitions IrSem FloatSem Optimize IrSim OptimizeLocal OptimizeBlock OptimizeCopies OptimizeCounts OptimizeSingle OptimizeMemory OptimizeDead OptimizeGraph OptimizeMerge OptimizePeephole OptimizeRetarget OptimizeRenumber OptimizeMeasure OptimizeEnds OptimizeRounds OptimizeOperands.

(** ** Functions without slots *)

Lemma fold_constants_slots f : no_slots f -> no_slots (fold_constants f).1.
Proof. rewrite !no_slots_plain. by apply fold_constants_plain. Qed.

Lemma apply_peephole_slots f : no_slots f -> no_slots (apply_peephole_rules f).1.
Proof. rewrite !no_slots_plain. by apply apply_peephole_plain. Qed.

Lemma forward_stores_slots f : no_slots f -> no_slots (forward_stores f).1.
Proof. rewrite !no_slots_plain. by apply forward_stores_plain. Qed.

Lemma propagate_copies_slots f : no_slots f -> no_slots (propagate_copies f).1.
Proof. rewrite !no_slots_plain. by apply propagate_copies_plain. Qed.

Lemma remove_unused_slots f : no_slots f -> no_slots (remove_unused_results f).1.
Proof. rewrite !no_slots_plain. by apply remove_unused_plain. Qed.

Lemma remove_unreachable_slots f st : remove_unreachable_blocks f = Some st -> no_slots f -> no_slots st.1.
Proof. rewrite !no_slots_plain. by apply remove_unreachable_plain. Qed.

Lemma merge_loop_slots fuel f preds b changed st : merge_loop fuel f preds b changed = Some st -> no_slots f -> no_slots st.1.
Proof. rewrite !no_slots_plain. by apply merge_loop_plain. Qed.

(** ** One round *)

Section Rounds.
Context {M : Type} (mc : machine M) `{!Lawful mc} `{!IeeeFloats mc}.

(** What every pass keeps. *)
Definition proper (f : ir_function) : Prop := well_formed mc f /\ no_slots f.

(** A pass that keeps it and refines. *)
Definition sound (f g : ir_function) : Prop := proper g /\ refines mc f g.

Lemma sound_trans f g h : sound f g -> sound g h -> sound f h.
Proof. intros [_ R1] [H R2]. split; [done|]. by eapply refines_trans. Qed.

Lemma fold_constants_sound f : proper f -> sound f (fold_constants f).1.
Proof. intros [Hf Hs]. destruct (fold_constants_refines mc f Hf). split; [split; [done|by apply fold_constants_slots]|done]. Qed.

Lemma apply_peephole_sound f : proper f -> sound f (apply_peephole_rules f).1.
Proof. intros [Hf Hs]. destruct (apply_peephole_refines mc f Hf). split; [split; [done|by apply apply_peephole_slots]|done]. Qed.

Lemma forward_stores_sound f : proper f -> sound f (forward_stores f).1.
Proof. intros [Hf Hs]. destruct (forward_stores_refines mc f Hf). split; [split; [done|by apply forward_stores_slots]|done]. Qed.

Lemma propagate_copies_sound f : proper f -> sound f (propagate_copies f).1.
Proof. intros [Hf Hs]. destruct (propagate_copies_refines mc f Hf). split; [split; [done|by apply propagate_copies_slots]|done]. Qed.

Lemma remove_unused_sound f : proper f -> sound f (remove_unused_results f).1.
Proof. intros [Hf Hs]. destruct (remove_unused_refines mc f Hf Hs). split; [split; [done|by apply remove_unused_slots]|done]. Qed.

Lemma remove_unreachable_sound f : proper f -> exists st, remove_unreachable_blocks f = Some st /\ sound f st.1.
Proof.
  intros [Hf Hs]. destruct (remove_unreachable_refines mc f Hf) as (g & changed & E & Hg & R). exists (g, changed). split; [done|].
  split; [split; [done|by apply (remove_unreachable_slots f _ E)]|done].
Qed.

Lemma merge_blocks_sound f : proper f -> exists st, merge_blocks f = Some st /\ sound f st.1.
Proof.
  intros [Hf Hs]. destruct (merge_blocks_refines mc f Hf) as (g & changed & E & Hg & R). exists (g, changed). split; [done|].
  split; [split; [done|by apply (merge_loop_slots _ _ _ _ _ _ E)]|done].
Qed.

Lemma remove_dead_code_sound f : proper f -> exists st, remove_dead_code f = Some st /\ sound f st.1.
Proof.
  intros Hf. unfold remove_dead_code. pose proof (remove_unused_sound f Hf) as S1. destruct (remove_unused_results f) as [f1 changed]. cbn [fst] in S1.
  destruct (remove_unreachable_sound f1 (proj1 S1)) as ([f2 removed] & -> & S2). cbn [mbind option_bind fst] in *.
  destruct (merge_blocks_sound f2 (proj1 S2)) as ([f3 merged] & -> & S3). cbn [mbind option_bind fst] in *.
  pose proof (sound_trans _ _ _ (sound_trans _ _ _ S1 S2) S3) as S. destruct merged; [|by eexists].
  destruct (remove_unreachable_sound f3 (proj1 S3)) as ([f4 removed'] & -> & S4). cbn [mbind option_bind fst] in *. eexists. split; [done|]. by eapply sound_trans.
Qed.

(** Nothing to split. *)
Lemma split_block_none n f b i changed : no_slots f -> split_block n f b i changed = (f, changed).
Proof.
  intros H. revert i. induction n as [|n IH]; intros i; cbn [split_block]; [done|]. destruct (_ <=? i)%nat; [done|].
  assert (split_at f b i = (f, false)) as ->; [|apply IH]. unfold split_at. destruct (inst_at f b i) as [inst|] eqn:E; [|done].
  destruct (i_result inst); [|done]. rewrite (bool_decide_false (i_op inst = IR_SLOT)); [done|].
  apply inst_at_spec in E as (insts & Hb & Hi). exact (Forall_lookup_1 _ _ _ _ (Forall_lookup_1 _ _ _ _ H Hb) Hi).
Qed.

Lemma split_slots_none f : no_slots f -> split_slots f = (f, false).
Proof.
  intros H. unfold split_slots. generalize (seq 0 (length (fn_blocks f))). intros bs. induction bs as [|b bs IH]; [done|].
  cbn [fold_left fst snd]. by rewrite split_block_none.
Qed.

(** The propagation with the removal of dead code after it. *)
Lemma propagate_remove_better f changed st : remove_dead_code (propagate_copies f).1 = Some st -> changed = (propagate_copies f).2 ->
  better f (st.1, st.2 || changed).
Proof.
  intros E ->. destruct (remove_dead_code_smaller _ _ E) as [Hs Hsp]. destruct (propagate_copies_better f) as [Hsize [Hb|[Hc Hspent]]].
  - apply (better_trans f (propagate_copies f).1); [by destruct (propagate_copies f)|]. unfold better, smaller in *. cbn [fst snd]. destruct st.2; [by left|done].
  - specialize (Hsp Hspent). unfold smaller, better in *. rewrite Hsp in *. cbn [fst snd orb]. left. cbn [fst measure_of]. by rewrite <- Hsize.
Qed.

Lemma optimize_round_sound f : proper f -> exists st, optimize_round f = Some st /\ sound f st.1 /\ better f st.
Proof.
  intros Hf. unfold optimize_round. pose proof (fold_constants_sound f Hf) as S1. pose proof (fold_constants_better f) as B1.
  destruct (fold_constants f) as [f1 folded]. cbn [fst] in S1.
  pose proof (apply_peephole_sound f1 (proj1 S1)) as S2. pose proof (apply_peephole_better f1) as B2. destruct (apply_peephole_rules f1) as [f2 simpler]. cbn [fst] in S2.
  rewrite split_slots_none by apply (proj1 S2).
  pose proof (forward_stores_sound f2 (proj1 S2)) as S3. pose proof (forward_stores_better f2) as B3. destruct (forward_stores f2) as [f3 forwarded]. cbn [fst] in S3.
  pose proof (propagate_copies_sound f3 (proj1 S3)) as S4. pose proof (propagate_remove_better f3) as B4. destruct (propagate_copies f3) as [f4 propagated]. cbn [fst snd] in *.
  destruct (remove_dead_code_sound f4 (proj1 S4)) as ([f5 removed] & E & S5). specialize (B4 propagated _ E eq_refl). rewrite E. cbn [mbind option_bind fst snd] in *.
  eexists. split; [done|]. split; [cbn [fst]; repeat (eapply sound_trans; [eassumption|]); split; [apply S5|apply refines_refl]|].
  rewrite !orb_false_r. pose proof (better_trans _ _ _ _ _ (better_trans _ _ _ _ _ (better_trans _ _ _ _ _ B1 B2) B3) B4) as B. by rewrite !orb_assoc in *.
Qed.

(** ** All rounds *)

Lemma optimize_loop_sound f : proper f -> exists n g, (forall fuel, (n <= fuel)%nat -> optimize_loop fuel f = Some g) /\ sound f g.
Proof.
  remember (measure_of f) as k eqn:Ek. revert f Ek. induction (measure_wf k) as [k _ IH]. intros f -> Hf.
  destruct (optimize_round_sound f Hf) as ([g [|]] & E & Sg & B).
  - destruct (IH (measure_of g) B g eq_refl (proj1 Sg)) as (n & h & Hn & Sh). exists (S n), h. split; [|by eapply sound_trans].
    intros [|fuel] Hfuel; [lia|]. cbn [optimize_loop]. rewrite E. cbn [mbind option_bind]. apply Hn. lia.
  - exists 1%nat, g. split; [|done]. intros [|fuel] Hfuel; [lia|]. cbn [optimize_loop]. by rewrite E.
Qed.

Lemma optimize_function_sound f : proper f ->
  exists n g, (forall fuel, (n <= fuel)%nat -> optimize_function fuel f = Some g) /\ well_formed mc g /\ refines mc f g.
Proof.
  intros Hf. destruct (remove_dead_code_sound f Hf) as ([f1 changed] & E & S1). cbn [fst] in S1.
  destruct (optimize_loop_sound f1 (proj1 S1)) as (n & g & Hn & S2). destruct (renumber_temps_refines mc g (proj1 (proj1 S2))) as [Hg R].
  exists n, (renumber_temps g). split; [|split; [done|]].
  - intros fuel Hfuel. unfold optimize_function. rewrite E. cbn [mbind option_bind]. by rewrite Hn.
  - eapply refines_trans; [apply S1|]. eapply refines_trans; [apply S2|done].
Qed.
End Rounds.

(** ** The operands that are left *)

Section Plain.
Context (P : ir_operand -> Prop) (Hnothing : forall o, names_nothing o -> P o).

Lemma round_plain f st : optimize_round f = Some st -> plain_function P f -> plain_function P st.1.
Proof.
  unfold optimize_round. intros E H. apply (fold_constants_plain P Hnothing) in H. destruct (fold_constants f) as [f1 b1]. cbn [fst] in H. apply (apply_peephole_plain P Hnothing) in H.
  destruct (apply_peephole_rules f1) as [f2 b2]. cbn [fst] in H. rewrite (split_slots_none f2 (plain_no_slots P f2 H)) in E. apply (forward_stores_plain P Hnothing) in H.
  destruct (forward_stores f2) as [f3 b3]. cbn [fst] in H. apply (propagate_copies_plain P) in H. destruct (propagate_copies f3) as [f4 b4]. cbn [fst] in H.
  destruct (remove_dead_code f4) as [[f5 b5]|] eqn:E5; [|done]. apply (remove_dead_code_plain P Hnothing) in E5; [|done]. by injection E as <-.
Qed.

Lemma loop_plain fuel f g : optimize_loop fuel f = Some g -> plain_function P f -> plain_function P g.
Proof.
  revert f. induction fuel as [|fuel IH]; intros f; [done|]. cbn [optimize_loop]. destruct (optimize_round f) as [[h changed]|] eqn:E; [|done].
  cbn [mbind option_bind]. intros El H. apply (round_plain _ _ E) in H. destruct changed; [by apply (IH h)|by injection El as <-].
Qed.

Lemma optimize_plain fuel f g : optimize_function fuel f = Some g -> plain_function P f -> plain_function P g.
Proof.
  unfold optimize_function. destruct (remove_dead_code f) as [[f1 changed]|] eqn:E; [|done]. cbn [mbind option_bind]. destruct (optimize_loop fuel f1) as [h|] eqn:El; [|done].
  cbn [mbind option_bind]. intros [= <-] H. apply (renumber_plain P Hnothing). apply (loop_plain _ _ _ El). by apply (remove_dead_code_plain P Hnothing _ _ E).
Qed.
End Plain.

Lemma remove_dead_code_slots f st : remove_dead_code f = Some st -> no_slots f -> no_slots st.1.
Proof. rewrite !no_slots_plain. by apply remove_dead_code_plain. Qed.

Lemma round_slots f st : optimize_round f = Some st -> no_slots f -> no_slots st.1.
Proof. rewrite !no_slots_plain. by apply round_plain. Qed.
