(* ===== verification/OptimizeSettled.v ===== *)
(** * OptimizeSettled: when no pass has anything to do

    A round of [optimize_function] that changes nothing. [split_slots] adds types of
    temporaries for the fields of a slot that it then leaves as it is, and no pass reads
    more of these types than those of the temporaries that the instructions name. *)

From S2P Require Import Prelude Arith Ir IrFold IrVerify IrDefinitions IrSem Optimize IrSim OptimizeCounts OptimizeSingle OptimizeGraph OptimizeMerge OptimizePeephole OptimizeMeasure OptimizeEnds OptimizeRounds.

(** The function with other types of its temporaries. *)
Definition with_temps (f : ir_function) (types : list ir_type) : ir_function := with_body f (fn_params f) (fn_blocks f) types.

Lemma with_temps_id f : with_temps f (fn_temps f) = f.
Proof. by destruct f. Qed.

Lemma with_temps_twice f ts ts' : with_temps (with_temps f ts) ts' = with_temps f ts'.
Proof. done. Qed.

(** ** Folding and the peephole rules *)

Lemma fold_constants_temps f ts : fold_constants f = (f, false) -> fold_constants (with_temps f ts) = (with_temps f ts, false).
Proof.
  unfold fold_constants, rewrite_insts. cbn [with_temps with_body fn_blocks fn_temps with_blocks]. intros [= Hb Hc].
  change (all_insts (with_temps f ts)) with (all_insts f). rewrite Hc. f_equal. unfold with_blocks, with_temps, with_body. cbn. f_equal.
  by apply (f_equal fn_blocks) in Hb.
Qed.

Lemma peephole_block_temps c f ts b before rest : peephole_block c (with_temps f ts) b before rest = peephole_block c f b before rest.
Proof.
  remember (length rest) as n eqn:En. assert (length rest <= n)%nat as H by lia. clear En. revert before rest H.
  assert (Hr : forall l inst, retarget_inst (set_block (with_temps f ts) b l) inst = retarget_inst (set_block f b l) inst).
  { intros l inst. assert (forall steps x t, final_from (set_block (with_temps f ts) b l) steps x t = final_from (set_block f b l) steps x t) as Hf.
    { intros steps. induction steps as [|steps IH]; intros x t; [done|]. cbn [final_from].
      change (jumps_to (set_block (with_temps f ts) b l) t) with (jumps_to (set_block f b l) t). by destruct (jumps_to _ t). }
    assert (forall o, retarget (set_block (with_temps f ts) b l) o = retarget (set_block f b l) o) as Ho.
    { intros o. unfold retarget. destruct (block_of o); [|done]. unfold final_target. rewrite Hf. done. }
    unfold retarget_inst. by rewrite !Ho. }
  induction n as [|n IH]; intros before [|inst after] H; cbn [length] in H; try lia; try done. cbn [peephole_block].
  destruct after as [|next after'].
  - rewrite Hr. destruct (bool_decide _ && _); [by rewrite IH by (cbn; lia)|]. by destruct (retarget_inst _ _).
  - rewrite Hr. change (fuses (with_temps f ts) c) with (fuses f c). cbn [length] in H.
    destruct (bool_decide _ && _); [by rewrite IH by (cbn [length]; lia)|]. destruct (fuses f c _ next); [by rewrite IH by lia|].
    destruct (retarget_inst _ _). by rewrite IH by (cbn [length]; lia).
Qed.

Lemma apply_peephole_temps f ts :
  apply_peephole_rules (with_temps f ts) = (with_temps (apply_peephole_rules f).1 ts, (apply_peephole_rules f).2).
Proof.
  unfold apply_peephole_rules. change (count (with_temps f ts)) with (count f). change (fn_blocks (with_temps f ts)) with (fn_blocks f).
  assert (forall bs g changed, fold_left (peephole_at (count f)) bs (with_temps g ts, changed) =
    (with_temps (fold_left (peephole_at (count f)) bs (g, changed)).1 ts, (fold_left (peephole_at (count f)) bs (g, changed)).2)) as H; [|apply H].
  induction bs as [|b bs IH]; intros g changed; [done|]. cbn [fold_left].
  assert (peephole_at (count f) (with_temps g ts, changed) b = (with_temps (peephole_at (count f) (g, changed) b).1 ts, (peephole_at (count f) (g, changed) b).2)) as ->.
  { unfold peephole_at. rewrite peephole_block_temps. change (block (with_temps g ts) b) with (block g b). by destruct (peephole_block _ _ _ _ _). }
  destruct (peephole_at (count f) (g, changed) b) as [h c]. apply IH.
Qed.

(** ** Slots *)

(** The fields found, but for their temporaries. *)
Definition alike (st st' : found) : Prop :=
  map (fun s => (sf_offset s, sf_type s)) (fst st) = map (fun s => (sf_offset s, sf_type s)) (fst st').

Lemma find_alike o l l' : map (fun s => (sf_offset s, sf_type s)) l = map (fun s => (sf_offset s, sf_type s)) l' ->
  sf_type <$> List.find (fun s => same_operand (sf_offset s) o) l = sf_type <$> List.find (fun s => same_operand (sf_offset s) o) l'.
Proof.
  revert l'. induction l as [|s l IH]; intros [|s' l']; try done. intros [= Eo Et H]. cbn [List.find]. rewrite Eo.
  destruct (same_operand (sf_offset s') o); [cbn; by rewrite Et|by apply IH].
Qed.

Lemma field_at_alike st st' o t : alike st st' ->
  match field_at st o t, field_at st' o t with Some s, Some s' => alike s s' | None, None => True | _, _ => False end.
Proof.
  destruct st as [l ts], st' as [l' ts']. intros H. unfold field_at. pose proof (find_alike o l l' H) as Hf.
  destruct (List.find _ l) as [s|], (List.find _ l') as [s'|]; try discriminate Hf.
  - injection Hf as ->. by destruct (bool_decide _).
  - assert (length l = length l') as -> by (apply (f_equal length) in H; cbn in H; by rewrite !length_map in H).
    destruct (_ <=? _)%nat; [done|]. unfold alike in *. cbn in *. by rewrite !map_app, H.
Qed.

(** A loop that treats fields alike in the same way. *)
Definition same_way {A} (step : found -> A -> bool * found) : Prop :=
  forall st st' x, alike st st' -> (step st x).1 = (step st' x).1 /\ alike (step st x).2 (step st' x).2.

Lemma while_ok_alike {A} (step : found -> A -> bool * found) l st st' : same_way step -> alike st st' ->
  (while_ok step l st).1 = (while_ok step l st').1 /\ alike (while_ok step l st).2 (while_ok step l st').2.
Proof.
  intros Hs. revert st st'. induction l as [|x l IH]; intros st st' H; [done|]. cbn [while_ok].
  destruct (Hs st st' x H) as [E1 E2]. destruct (step st x) as [ok s], (step st' x) as [ok' s']. cbn [fst snd] in *. subst ok'.
  destruct ok; [by apply IH|done].
Qed.

Lemma add_field_alike st st' o t : alike st st' -> (add_field st o t).1 = (add_field st' o t).1 /\ alike (add_field st o t).2 (add_field st' o t).2.
Proof. intros H. unfold add_field. pose proof (field_at_alike st st' o t H). by destruct (field_at st o t), (field_at st' o t). Qed.

Lemma ptradd_fields_alike f p use st st' : alike st st' ->
  (ptradd_fields f p use st).1 = (ptradd_fields f p use st').1 /\ alike (ptradd_fields f p use st).2 (ptradd_fields f p use st').2.
Proof.
  intros H. unfold ptradd_fields. destruct (i_result use) as [r|]; [|done]. apply while_ok_alike; [|done].
  intros s s' [q inst] Hs. destruct (_ || _); [done|]. destruct (accesses inst r); [by apply add_field_alike|done].
Qed.

Lemma slot_fields_alike f p base st st' : alike st st' ->
  (slot_fields f p base st).1 = (slot_fields f p base st').1 /\ alike (slot_fields f p base st).2 (slot_fields f p base st').2.
Proof.
  intros H. apply while_ok_alike; [|done]. intros s s' [q use] Hs. destruct (escapes_in use base); [done|].
  destruct (accesses use base); [by apply add_field_alike|]. destruct (bool_decide _ && _); [|done].
  destruct (_ || _); [done|]. by apply ptradd_fields_alike.
Qed.

(** Whether the slot at a position goes, which the types of the temporaries have no part in. *)
Definition splits (f : ir_function) (b i : nat) : bool := (split_at f b i).2.

Lemma split_at_stays f b i : splits f b i = false -> exists ts, split_at f b i = (with_temps f ts, false).
Proof.
  unfold splits, split_at. destruct (inst_at f b i) as [inst|]; [|exists (fn_temps f); by rewrite with_temps_id].
  destruct (i_result inst) as [base|]; [|exists (fn_temps f); by rewrite with_temps_id].
  destruct (bool_decide _ && _ && _); [|exists (fn_temps f); by rewrite with_temps_id].
  destruct (slot_fields f (b, i) base _) as [ok [fields temps]]. destruct (negb ok || no_issue fields); [|done]. by exists temps.
Qed.

Lemma splits_temps f ts b i : splits (with_temps f ts) b i = splits f b i.
Proof.
  unfold splits, split_at. change (inst_at (with_temps f ts) b i) with (inst_at f b i). destruct (inst_at f b i) as [inst|]; [|done].
  destruct (i_result inst) as [base|]; [|done]. change (written_again (with_temps f ts)) with (written_again f).
  destruct (bool_decide _ && _ && _); [|done]. change (slot_fields (with_temps f ts)) with (slot_fields f).
  destruct (slot_fields_alike f (b, i) base ([], fn_temps (with_temps f ts)) ([], fn_temps f) eq_refl) as [E1 E2].
  destruct (slot_fields f (b, i) base ([], fn_temps (with_temps f ts))) as [ok [fields temps]], (slot_fields f (b, i) base ([], fn_temps f)) as [ok' [fields' temps']].
  unfold alike in E2. cbn [fst snd] in *. subst ok'. assert (no_issue fields = no_issue fields') as -> by (by destruct fields, fields').
  by destruct (negb ok || _).
Qed.

Lemma split_block_changed n f b i : (split_block n f b i true).2 = true.
Proof. revert f i. induction n as [|n IH]; intros f i; [done|]. cbn [split_block]. destruct (_ <=? i)%nat; [done|]. destruct (split_at f b i) as [g []]; apply IH. Qed.

(** A block where nothing goes stays as it is, whatever the types of the temporaries. *)
Lemma split_block_stays n f b i : (split_block n f b i false).2 = false ->
  forall ts, exists ts', split_block n (with_temps f ts) b i false = (with_temps f ts', false).
Proof.
  revert f i. induction n as [|n IH]; intros f i H ts; [by exists ts|]. cbn [split_block] in *. change (block (with_temps f ts) b) with (block f b).
  destruct (_ <=? i)%nat; [by exists ts|]. destruct (splits f b i) eqn:E.
  - exfalso. unfold splits in E. destruct (split_at f b i) as [g []]; [|done]. by rewrite split_block_changed in H.
  - destruct (split_at_stays f b i E) as [ts1 E1]. rewrite E1 in H. rewrite <- (splits_temps f ts) in E.
    destruct (split_at_stays _ b i E) as [ts2 ->]. rewrite with_temps_twice. by apply (IH (with_temps f ts1)) with (ts := ts2) in H.
Qed.

Lemma split_slots_stays f : (split_slots f).2 = false -> forall ts, exists ts', split_slots (with_temps f ts) = (with_temps f ts', false).
Proof.
  set (step := fun (st : ir_function * bool) b => split_block (length (block (fst st) b)) (fst st) b 0 (snd st)).
  assert (Heq : forall ts, split_slots (with_temps f ts) = fold_left step (seq 0 (length (fn_blocks f))) (with_temps f ts, false)) by done.
  rewrite <- (with_temps_id f) at 1. generalize (fn_temps f) as ts0. intros ts0 H ts. rewrite Heq in H |- *. clear Heq. revert ts0 H ts.
  generalize (seq 0 (length (fn_blocks f))). intros bs.
  assert (Htrue : forall bs g, (fold_left step bs (g, true)).2 = true).
  { clear bs. induction bs as [|b bs IH]; intros g; [done|]. cbn [fold_left]. unfold step at 2. cbn [fst snd].
    pose proof (split_block_changed (length (block g b)) g b 0) as E. destruct (split_block _ _ _ _ _) as [h c]. cbn in E. subst c. apply IH. }
  induction bs as [|b bs IH]; intros ts0 H ts; [by exists ts|].
  cbn [fold_left] in *. unfold step at 2 in H. unfold step at 2. cbn [fst snd] in *.
  change (block (with_temps f ts)) with (block f). change (block (with_temps f ts0)) with (block f) in H.
  destruct (split_block (length (block f b)) (with_temps f ts0) b 0 false) as [g [|]] eqn:E; [by rewrite Htrue in H|].
  assert (Hs : (split_block (length (block f b)) (with_temps f ts0) b 0 false).2 = false) by (by rewrite E).
  pose proof (split_block_stays _ _ _ _ Hs) as Hb. destruct (Hb ts0) as [ts1 E1]. rewrite with_temps_twice, E in E1. injection E1 as ->.
  destruct (Hb ts) as [ts2 E2]. rewrite with_temps_twice in E2. rewrite E2. apply (IH ts1 H ts2).
Qed.
