(* ===== verification/Program.v ===== *)
(** * Program: the functions and the data of a whole program

    What the passes over a whole program know of a function and of a global beside its
    code and its bytes (src/antic/ir.h): the names it is linked by, and the flags that
    say who may reach it. A name is its bytes without the final 0. *)

From S2P Require Import Prelude Ir.

(** The module is [None] for a function of C and for data without a module, the unit
    [None] where the module itself defines the object. *)
Record linkage := Linkage {
  ln_module : option (list Z);
  ln_name : list Z;
  ln_unit : option (list Z);
  ln_exported : bool
}.

Record program_function := Program_function { pf_link : linkage; pf_code : ir_function }.

(** [pg_bytes]: the pointer to the bytes is not NULL. *)
Record program_global := Program_global {
  pg_link : linkage;
  pg_data : ir_global;
  pg_bytes : bool;
  pg_mutable : bool;
  pg_extern : bool;
  pg_dropped : bool
}.

(** The parts of an [ir_module] that these passes read and write. *)
Record program := Program {
  p_functions : list program_function;
  p_globals : list program_global;
  p_classes : list ir_class;
  p_hosts : bool
}.

(** "main", "patterns.start" and "anti.rt". *)
Definition main_name : list Z := [109; 97; 105; 110].
Definition IR_PATTERNS_START : list Z := [112; 97; 116; 116; 101; 114; 110; 115; 46; 115; 116; 97; 114; 116].
Definition RUNTIME_MODULE : list Z := [97; 110; 116; 105; 46; 114; 116].

(** [strcmp] with 0 as its result. *)
Definition same_name (a b : list Z) : bool := bool_decide (a = b).

Definition ir_in_unit (module unit : option (list Z)) (entry : list Z) : bool :=
  match unit with
  | Some unit => same_name unit entry
  | None => match module with Some module => same_name module entry | None => false end
  end.

Definition is_some {A} (x : option A) : bool := match x with Some _ => true | None => false end.

Definition ir_is_main_of (f : program_function) (module : list Z) : bool :=
  negb (fn_is_extern (pf_code f)) && is_some (ln_module (pf_link f)) &&
  ir_in_unit (ln_module (pf_link f)) (ln_unit (pf_link f)) module && same_name (ln_name (pf_link f)) main_name.

Definition ir_is_patterns_start (f : program_function) : bool :=
  negb (fn_is_extern (pf_code f)) && is_some (ln_module (pf_link f)) && same_name (ln_name (pf_link f)) IR_PATTERNS_START.

(** ** Hashes of names *)

Definition IR_HASH_START : Z := 0xcbf29ce484222325.

Definition ir_hash_bytes (h : Z) (bytes : list Z) : Z := fold_left (fun h b => u64 (Z.lxor h b * 0x100000001b3)) bytes h.

Definition ir_hash_name (module : option (list Z)) (name : list Z) : Z :=
  let h := match module with Some module => ir_hash_bytes IR_HASH_START module | None => IR_HASH_START end in
  ir_hash_bytes (ir_hash_bytes h [0xff]) name.

(** ** Loops that may fail *)

Definition each {A S} (step : A -> S -> option S) : list A -> S -> option S :=
  fix loop xs s := match xs with [] => Some s | x :: xs => s ← step x s; loop xs s end.

Lemma each_one {A S} (step : A -> S -> option S) x s : each step [x] s = step x s.
Proof. cbn. by destruct (step x s). Qed.

Lemma each_app {A S} (step : A -> S -> option S) xs ys s : each step (xs ++ ys) s = s ← each step xs s; each step ys s.
Proof. revert s. induction xs as [|x xs IH]; intros s; [done|]. cbn. destruct (step x s); [apply IH|done]. Qed.

Lemma each_bind {A B S} (step : B -> S -> option S) (g : A -> list B) xs s : each step (xs ≫= g) s = each (fun x => each step (g x)) xs s.
Proof. revert s. induction xs as [|x xs IH]; intros s; [done|]. cbn [mbind list_bind]. rewrite each_app. cbn. destruct (each step (g x) s); [apply IH|done]. Qed.

Lemma each_ext {A S} (step step' : A -> S -> option S) xs s : (forall x s, x ∈ xs -> step x s = step' x s) -> each step xs s = each step' xs s.
Proof.
  revert s. induction xs as [|x xs IH]; intros s H; [done|]. cbn. rewrite H by by left. destruct (step' x s); [|done]. apply IH. intros. apply H. by right.
Qed.
