(* ===== verification/Reach.v ===== *)
(** * Reach: what the entries of a program reach

    Models src/antic/reach.c: the entries, the walk over the functions and the data that
    they name, and the table by which a declaration of data finds its definition. An
    access outside an array is [None], as is a search that finds no end. The work list
    is a stack, with its top first. *)

From S2P Require Import Prelude Ir IrVerify PtrSet Probe Program.

(** ** The walk *)

Record walk := Walk { w_functions : list bool; w_globals : list bool; w_work : list nat }.

Definition reach_function (f : nat) (w : walk) : option walk :=
  reached ← w_functions w !! f;
  Some (if reached : bool then w else Walk (<[f := true]> (w_functions w)) (w_globals w) (f :: w_work w)).

Section Walk.
Context (p : program).

Definition reach_global (g : nat) (w : walk) : option walk :=
  reached ← w_globals w !! g;
  Some (if reached : bool then w
        else Walk (w_functions w) (<[g := true]> (w_globals w)) (length (p_functions p) + g :: w_work w)%nat).

Fixpoint reach_const (c : ir_const) (w : walk) : option walk :=
  match c_kind c with
  | IR_CONST_ADDR => reach_global (c_global c) w
  | IR_CONST_FUNC => reach_function (c_global c) w
  | IR_CONST_AGG => each reach_const (c_items c) w
  | _ => Some w
  end.

Definition reach_operand (o : ir_operand) (w : walk) : option walk :=
  match o_kind o with
  | IR_FUNC f => reach_function f w
  | IR_GLOBAL g => reach_global g w
  | _ => Some w
  end.

Definition walk_function (f : program_function) : walk -> option walk :=
  each (fun insts => each (fun inst => each reach_operand (operands inst)) insts) (fn_blocks (pf_code f)).

Definition reach_reloc (r : ir_reloc) : walk -> option walk :=
  if rl_fn r then reach_function (rl_global r) else reach_global (rl_global r).

(** [defined] holds [None] where the source has [IR_NO_INDEX]. *)
Definition walk_global (defined : list (option nat)) (index : nat) (w : walk) : option walk :=
  g ← p_globals p !! index;
  w ← match g_value (pg_data g) with Some c => reach_const c w | None => Some w end;
  w ← each reach_reloc (g_relocs (pg_data g)) w;
  d ← defined !! index;
  match d with Some d => reach_global d w | None => Some w end.

(** ** The definitions of the data declared *)

(** The loop that doubles the capacity, which ends after at most as many rounds as there are globals. *)
Fixpoint capacity_from (fuel capacity : nat) : nat :=
  match fuel with
  | O => capacity
  | S fuel => if (capacity <? 2 * length (p_globals p) + 2)%nat then capacity_from fuel (capacity * 2)%nat else capacity
  end.

Definition table_capacity : nat := capacity_from (2 * length (p_globals p) + 2) 1.

Definition name_slot (l : linkage) (capacity : nat) : nat :=
  Z.to_nat (Z.land (ir_hash_name (ln_module l) (ln_name l)) (Z.of_nat capacity - 1)).

Definition is_free_slot (slot : option nat) : bool := negb (is_some slot).

(** One turn of the first loop of [definitions_of]. *)
Definition place_definition (item : nat * program_global) (table : list (option nat)) : option (list (option nat)) :=
  let '(i, g) := item in
  if pg_extern g || negb (is_some (ln_module (pg_link g))) then Some table
  else
    slot ← scan is_free_slot (length table) table (name_slot (pg_link g) (length table));
    Some (<[slot := Some i]> table).

Definition same_link (a b : linkage) : bool := bool_decide (ln_module a = ln_module b) && same_name (ln_name a) (ln_name b).

(** A search for [l] stops at a free slot and at a definition of that name. *)
Definition ends_search (l : linkage) (slot : option nat) : bool :=
  match slot with
  | None => true
  | Some d => match p_globals p !! d with Some d => same_link (pg_link d) l | None => false end
  end.

(** One turn of the second loop. *)
Definition find_definition (table : list (option nat)) (g : program_global) : option (option nat) :=
  if negb (pg_extern g) || negb (is_some (ln_module (pg_link g))) then Some None
  else
    slot ← scan (ends_search (pg_link g)) (length table) table (name_slot (pg_link g) (length table));
    table !! slot.

Definition numbered_globals : list (nat * program_global) := imap pair (p_globals p).

Definition definitions_of : option (list (option nat)) :=
  table ← each place_definition numbered_globals (replicate table_capacity None);
  mapM (find_definition table) (p_globals p).

(** ** The entries *)

Section Entry.
Context (entry : option (list Z)) (all : bool).

Definition has_main : bool :=
  match entry with Some entry => negb all && existsb (fun f => ir_is_main_of f entry) (p_functions p) | None => false end.

Definition is_entry_function (f : program_function) : bool :=
  negb (fn_is_extern (pf_code f)) &&
  match entry with
  | None => true
  | Some entry =>
      p_hosts p || ln_exported (pf_link f) || ir_is_patterns_start f ||
      (ir_in_unit (ln_module (pf_link f)) (ln_unit (pf_link f)) entry && (negb has_main || ir_is_main_of f entry))
  end.

Definition is_entry_global (g : program_global) : bool :=
  ln_exported (pg_link g) || (p_hosts p && negb (pg_extern g) && negb (pg_dropped g)) ||
  match entry with
  | None => false
  | Some entry =>
      all && negb (pg_extern g) && negb (pg_dropped g) && is_some (ln_module (pg_link g)) &&
      ir_in_unit (ln_module (pg_link g)) (ln_unit (pg_link g)) entry
  end.

Definition reach_entries (w : walk) : option walk :=
  w ← each (fun '(i, f) w => if is_entry_function f then reach_function i w else Some w) (imap pair (p_functions p)) w;
  each (fun '(i, g) w => if is_entry_global g then reach_global i w else Some w) numbered_globals w.

(** One turn of the loop over the work list, with the item it takes. *)
Definition walk_item (defined : list (option nat)) (item : nat) (w : walk) : option walk :=
  if (item <? length (p_functions p))%nat then f ← p_functions p !! item; walk_function f w
  else walk_global defined (item - length (p_functions p)) w.

Fixpoint walk_loop (fuel : nat) (defined : list (option nat)) (w : walk) : option walk :=
  match w_work w with
  | [] => Some w
  | item :: work =>
      match fuel with
      | O => None
      | S fuel => w ← walk_item defined item (Walk (w_functions w) (w_globals w) work); walk_loop fuel defined w
      end
  end.

(** Every item is put on the list once, so that no more turns than items are needed. *)
Definition ir_reach : option (list bool * list bool) :=
  defined ← definitions_of;
  w ← reach_entries (Walk (replicate (length (p_functions p)) false) (replicate (length (p_globals p)) false) []);
  w ← walk_loop (length (p_functions p) + length (p_globals p)) defined w;
  Some (w_functions w, w_globals w).
End Entry.
End Walk.
