(* ===== verification/ReachSpec.v ===== *)
(** * ReachSpec: the walk marks exactly what a path from an entry reaches

    The table of definitions gives each declaration the first definition of its module
    and name, and the walk of Reach.v marks the items that are joined with an entry by a
    chain of mentions. *)

From S2P Require Import Prelude Ir IrVerify PtrSet Probe Optimize OptimizeCounts OptimizeGraph Program Reach.

(** ** Items and what they name *)

Inductive item := Fun (f : nat) | Data (g : nat).

#[export] Instance item_eq_dec : EqDecision item.
Proof. solve_decision. Defined.

Fixpoint const_names (c : ir_const) : list item :=
  match c_kind c with
  | IR_CONST_ADDR => [Data (c_global c)]
  | IR_CONST_FUNC => [Fun (c_global c)]
  | IR_CONST_AGG => c_items c ≫= const_names
  | _ => []
  end.

Definition operand_names (o : ir_operand) : list item :=
  match o_kind o with IR_FUNC f => [Fun f] | IR_GLOBAL g => [Data g] | _ => [] end.

Definition inst_names (inst : ir_inst) : list item := operands inst ≫= operand_names.
Definition function_names (f : program_function) : list item := fn_blocks (pf_code f) ≫= fun insts => insts ≫= inst_names.
Definition reloc_name (r : ir_reloc) : item := if rl_fn r then Fun (rl_global r) else Data (rl_global r).

(** What the value and the relocations of a datum name. *)
Definition data_names (g : ir_global) : list item :=
  (match g_value g with Some c => const_names c | None => [] end) ++ map reloc_name (g_relocs g).

Section Program.
Context (p : program).
Notation N := (length (p_functions p)).
Notation G := (length (p_globals p)).

Definition in_range (x : item) : Prop := match x with Fun f => (f < N)%nat | Data g => (g < G)%nat end.

(** Every name of the program is that of a function or a datum of it. *)
Record names_in_range : Prop := {
  functions_in_range : Forall (fun f => Forall in_range (function_names f)) (p_functions p);
  data_in_range : Forall (fun g => Forall in_range (data_names (pg_data g))) (p_globals p)
}.

Definition is_definition (g : program_global) : Prop := pg_extern g = false /\ is_Some (ln_module (pg_link g)).
Definition is_declaration (g : program_global) : Prop := pg_extern g = true /\ is_Some (ln_module (pg_link g)).

#[local] Instance is_definition_dec g : Decision (is_definition g).
Proof. unfold is_definition. apply _. Defined.
#[local] Instance is_declaration_dec g : Decision (is_declaration g).
Proof. unfold is_declaration. apply _. Defined.

Definition defines_name (l : linkage) (d : nat) : Prop :=
  exists g, p_globals p !! d = Some g /\ is_definition g /\ ln_module (pg_link g) = ln_module l /\ ln_name (pg_link g) = ln_name l.

Definition first_definition (l : linkage) (d : nat) : Prop := defines_name l d /\ forall d', (d' < d)%nat -> ~ defines_name l d'.

#[export] Instance defines_name_dec l d : Decision (defines_name l d).
Proof.
  destruct (p_globals p !! d) as [g|] eqn:E; [|right; intros (g & Hg & _); congruence].
  destruct (decide (is_definition g /\ ln_module (pg_link g) = ln_module l /\ ln_name (pg_link g) = ln_name l)) as [H|H].
  - left. by exists g.
  - right. intros (g' & Hg' & H'). replace g' with g in * by congruence. done.
Defined.

Lemma first_exists l d : defines_name l d -> exists d', first_definition l d'.
Proof.
  induction d as [d IH] using lt_wf_ind. intros Hd. destruct (decide (Exists (defines_name l) (seq 0 d))) as [H|H].
  - apply Exists_exists in H as (e & He%elem_of_seq & Hde). apply (IH e); [lia|done].
  - exists d. split; [done|]. intros e He Hde. apply H, Exists_exists. exists e. split; [apply elem_of_seq; lia|done].
Qed.

Inductive mentions : item -> item -> Prop :=
| function_mentions f pf x : p_functions p !! f = Some pf -> x ∈ function_names pf -> mentions (Fun f) x
| data_mentions g pg x : p_globals p !! g = Some pg -> x ∈ data_names (pg_data pg) -> mentions (Data g) x
| declaration_mentions g pg d : p_globals p !! g = Some pg -> is_declaration pg -> first_definition (pg_link pg) d -> mentions (Data g) (Data d).

(** ** The table of definitions *)

Lemma capacity_from_spec fuel k : (2 * G + 2 <= 2 ^ k + fuel)%nat ->
  exists j, capacity_from p fuel (2 ^ k) = (2 ^ j)%nat /\ (2 * G + 2 <= 2 ^ j)%nat.
Proof.
  revert k. induction fuel as [|fuel IH]; intros k H; cbn [capacity_from]; [exists k; split; [done|lia]|].
  destruct (Nat.ltb_spec (2 ^ k) (2 * G + 2)) as [Hlt|Hle]; [|by exists k].
  replace (2 ^ k * 2)%nat with (2 ^ S k)%nat by (cbn; lia). apply IH. pose proof (pow2_nonzero k). cbn [Nat.pow]. lia.
Qed.

Lemma table_capacity_spec : exists k, table_capacity p = (2 ^ k)%nat /\ (2 * G + 2 <= 2 ^ k)%nat.
Proof. apply (capacity_from_spec _ 0). cbn. lia. Qed.

Lemma same_link_true a b : same_link a b = true <-> ln_module a = ln_module b /\ ln_name a = ln_name b.
Proof. unfold same_link, same_name. by rewrite andb_true_iff, !bool_decide_eq_true. Qed.

Lemma name_slot_same a b cap : same_link a b = true -> name_slot a cap = name_slot b cap.
Proof. intros [Em En]%same_link_true. unfold name_slot. by rewrite Em, En. Qed.

Lemma not_placed g : pg_extern g || negb (is_some (ln_module (pg_link g))) = true <-> ~ is_definition g.
Proof.
  unfold is_definition, is_Some. destruct (pg_extern g), (ln_module (pg_link g)); cbn; split; try done; try (intros _ [? ?]; done); try (intros _ [_ [? ?]]; done); intros H; destruct H; eauto.
Qed.

Lemma not_declared g : negb (pg_extern g) || negb (is_some (ln_module (pg_link g))) = true <-> ~ is_declaration g.
Proof.
  unfold is_declaration, is_Some. destruct (pg_extern g), (ln_module (pg_link g)); cbn; split; try done; try (intros _ [? ?]; done); try (intros _ [_ [? ?]]; done); intros H; destruct H; eauto.
Qed.

Section Table.
Context (k : nat) (Hk : (2 * G + 2 <= 2 ^ k)%nat).
Notation cap := (2 ^ k)%nat.

(** The table with the definitions among the first [n] globals: each lies behind
    earlier ones only, on the way from the slot of its name. *)
Record placed (n : nat) (table : list (option nat)) : Prop := {
  pl_length : length table = cap;
  pl_slots at_ i : table !! at_ = Some (Some i) -> (i < n)%nat /\ exists g, p_globals p !! i = Some g /\ is_definition g;
  pl_way i g : (i < n)%nat -> p_globals p !! i = Some g -> is_definition g ->
    exists d, table !! pos cap (name_slot (pg_link g) cap) d = Some (Some i) /\
      forall d', (d' < d)%nat -> exists j, table !! pos cap (name_slot (pg_link g) cap) d' = Some (Some j) /\ (j < i)%nat;
  pl_count : (times is_some table <= n)%nat
}.

Lemma placed_nothing : placed 0 (replicate cap (None : option nat)).
Proof.
  split; [by rewrite length_replicate| |lia|].
  - intros at_ i [H _]%lookup_replicate. done.
  - clear. induction (2 ^ k)%nat as [|n IH]; [done|]. exact IH.
Qed.

Lemma slot_left n table : placed n table -> (n <= G)%nat -> exists s, stops_at is_free_slot table s.
Proof.
  intros H Hn. destruct (List.existsb is_free_slot table) eqn:E.
  - apply List.existsb_exists in E as (x & Hx%list_elem_of_In & Hf). apply list_elem_of_lookup in Hx as [s Hs]. exists s, x. done.
  - exfalso. pose proof (pl_count _ _ H) as Hc. pose proof (pl_length _ _ H) as Hl. assert (times is_some table = length table) as Et; [|lia].
    clear -E. induction table as [|x table IH]; [done|]. cbn [existsb] in E. apply orb_false_iff in E as [Ex E]. rewrite count_cons, IH by done.
    unfold is_free_slot in Ex. by destruct (is_some x).
Qed.

Lemma name_slot_lt l : (name_slot l cap < cap)%nat.
Proof. apply masked_lt. Qed.

Lemma place_definition_placed n g table : placed n table -> p_globals p !! n = Some g ->
  exists table', place_definition (n, g) table = Some table' /\ placed (S n) table'.
Proof.
  intros H Hg. cbn [place_definition]. pose proof (pl_length _ _ H) as Hl. destruct (_ || _) eqn:E.
  - apply not_placed in E. exists table. split; [done|]. split; [done| | |pose proof (pl_count _ _ H); lia].
    + intros s i Hs. destruct (pl_slots _ _ H s i Hs) as [? Hi]. split; [lia|done].
    + intros i g' Hi Hg' Hd. destruct (decide (i = n)) as [->|]; [congruence|]. apply (pl_way _ _ H); [lia|done..].
  - assert (is_definition g) as Hd by (destruct (not_placed g) as [_ Hn]; destruct (decide (is_definition g)) as [|Hx]; [done|rewrite (Hn Hx) in E; done]).
    destruct (slot_left n table H) as [e He]; [apply lookup_lt_Some in Hg; lia|]. rewrite Hl.
    destruct (scan_of_ends k table Hl is_free_slot (name_slot (pg_link g) cap) e (name_slot_lt _) He) as [s Hs].
    pose proof Hs as Hs'. unfold scan_of in Hs'. rewrite Hl in Hs'. rewrite Hs'. cbn [mbind option_bind]. eexists. split; [done|].
    apply (scan_of_Some k table Hl) in Hs as (d & Hdc & -> & (x & Hx & Hf) & Hmin); [|apply name_slot_lt].
    destruct x as [|]; [done|]. set (s := pos cap (name_slot (pg_link g) cap) d) in *.
    assert (forall t j, table !! t = Some (Some j) -> <[s := Some n]> table !! t = Some (Some j)) as Hkeep.
    { intros t j Ht. rewrite list_lookup_insert_ne; [done|]. intros ->. congruence. }
    split; [by rewrite length_insert| | |pose proof (times_update is_some table s _ (Some n) Hx) as Hu; cbn [is_some] in Hu; pose proof (pl_count _ _ H); lia].
    + intros t i Ht. destruct (decide (t = s)) as [->|Hne].
      * rewrite list_lookup_insert_eq in Ht by (apply lookup_lt_Some in Hx; lia). injection Ht as <-. split; [lia|by exists g].
      * rewrite list_lookup_insert_ne in Ht by done. destruct (pl_slots _ _ H t i Ht) as [? Hi]. split; [lia|done].
    + intros i g' Hi Hg' Hd'. destruct (decide (i = n)) as [->|].
      * rewrite Hg in Hg'. injection Hg' as <-. exists d. split; [rewrite list_lookup_insert_eq by (apply lookup_lt_Some in Hx; lia); done|].
        intros d' Hd1. assert (pos cap (name_slot (pg_link g) cap) d' < length table)%nat as Hlt by (rewrite Hl; apply pos_lt).
        apply lookup_lt_is_Some_2 in Hlt as [[j|] Hj].
        -- exists j. split; [by apply Hkeep|]. by apply (pl_slots _ _ H) in Hj as [? _].
        -- exfalso. apply (Hmin d' Hd1). by exists None.
      * destruct (pl_way _ _ H i g' ltac:(lia) Hg' Hd') as (d2 & H2 & H3). exists d2. split; [by apply Hkeep|].
        intros d' Hd2. destruct (H3 d' Hd2) as (j & Hj & ?). exists j. split; [by apply Hkeep|done].
Qed.

Lemma place_all n gs table : placed n table -> (forall i g, gs !! i = Some g -> p_globals p !! (n + i)%nat = Some g) ->
  exists table', each place_definition (imap (fun i g => ((n + i)%nat, g)) gs) table = Some table' /\ placed (n + length gs) table'.
Proof.
  revert n table. induction gs as [|g gs IH]; intros n table H Hgs; cbn [imap each length].
  - exists table. rewrite Nat.add_0_r. done.
  - destruct (place_definition_placed n g table H) as (table1 & E & H1); [rewrite <- (Nat.add_0_r n); by apply Hgs|].
    rewrite Nat.add_0_r, E. cbn [mbind option_bind]. destruct (IH (S n) table1 H1) as (table2 & E2 & H2).
    + intros i g' Hi. rewrite Nat.add_succ_comm. by apply Hgs.
    + exists table2. split; [|by rewrite Nat.add_succ_r]. rewrite <- E2. f_equal. apply imap_ext. intros i g' _. cbn. by rewrite Nat.add_succ_r.
Qed.

(** The search for a name ends at its first definition. *)
Lemma find_definition_spec table g : placed G table -> exists r, find_definition p table g = Some r /\
  forall d, r = Some d <-> is_declaration g /\ first_definition (pg_link g) d.
Proof.
  intros H. pose proof (pl_length _ _ H) as Hl. unfold find_definition. destruct (_ || _) eqn:E.
  { apply not_declared in E. exists None. split; [done|]. intros d. split; [done|]. by intros []. }
  assert (is_declaration g) as Hdecl by (destruct (not_declared g) as [_ Hn]; destruct (decide (is_declaration g)) as [|Hx]; [done|rewrite (Hn Hx) in E; done]).
  set (l := pg_link g) in *. destruct (slot_left G table H ltac:(lia)) as (e & x & He & Hf).
  assert (stops_at (ends_search p l) table e) as Hstop by (exists x; split; [done|]; by destruct x).
  rewrite Hl. destruct (scan_of_ends k table Hl _ (name_slot l cap) e (name_slot_lt _) Hstop) as [s Hs].
  pose proof Hs as Hs'. unfold scan_of in Hs'. rewrite Hl in Hs'. rewrite Hs'. cbn [mbind option_bind].
  apply (scan_of_Some k table Hl) in Hs as (d & Hd & -> & (r & Hr & Hend) & Hmin); [|apply name_slot_lt]. exists r. split; [done|].
  assert (forall i, defines_name l i -> exists di, table !! pos cap (name_slot l cap) di = Some (Some i) /\ (d <= di)%nat /\
            forall d', (d' < di)%nat -> exists j, table !! pos cap (name_slot l cap) d' = Some (Some j) /\ (j < i)%nat) as Hway.
  { intros i (gi & Hi & Hdi & Em & En). destruct (pl_way _ _ H i gi) as (di & Hti & Hj); [by apply lookup_lt_Some in Hi|done|done|].
    assert (same_link (pg_link gi) l = true) as Hsl by by apply same_link_true. rewrite (name_slot_same _ l cap Hsl) in Hti, Hj.
    exists di. split; [done|]. split; [|done]. destruct (decide (d <= di)%nat); [done|]. exfalso. apply (Hmin di ltac:(lia)).
    exists (Some i). split; [done|]. cbn [ends_search]. by rewrite Hi. }
  intros i. split.
  - intros ->. split; [done|]. destruct (pl_slots _ _ H _ _ Hr) as (_ & gi & Hi & Hdi). cbn [ends_search] in Hend. rewrite Hi in Hend.
    apply same_link_true in Hend as [Em En]. split; [by exists gi|]. intros i' Hlt Hdef. destruct (Hway i' Hdef) as (di & Hti & Hle & Hj).
    destruct (decide (d = di)) as [->|]; [rewrite Hr in Hti; injection Hti as ->; lia|]. destruct (Hj d ltac:(lia)) as (j & Htj & ?). rewrite Hr in Htj. injection Htj as ->. lia.
  - intros [_ [Hdef Hfirst]]. destruct (Hway i Hdef) as (di & Hti & Hle & Hj). destruct (decide (d = di)) as [->|]; [congruence|].
    destruct (Hj d ltac:(lia)) as (j & Htj & Hlt). rewrite Hr in Htj. injection Htj as ->. exfalso. apply (Hfirst j Hlt).
    destruct (pl_slots _ _ H _ _ Hr) as (_ & gi & Hi & Hdi). cbn [ends_search] in Hend. rewrite Hi in Hend.
    apply same_link_true in Hend as [Em En]. by exists gi.
Qed.
End Table.

(** Each declaration gets the first definition of its module and name. *)
Lemma definitions_of_spec : exists defined, definitions_of p = Some defined /\ length defined = G /\
  forall i g, p_globals p !! i = Some g -> exists r, defined !! i = Some r /\ forall d, r = Some d <-> is_declaration g /\ first_definition (pg_link g) d.
Proof.
  destruct table_capacity_spec as (k & Ek & Hk). unfold definitions_of. rewrite Ek.
  destruct (place_all k Hk 0 (p_globals p) (replicate (2 ^ k) (None : option nat)) (placed_nothing k Hk)) as (table & E & H); [done|].
  unfold numbered_globals. change (imap pair (p_globals p)) with (imap (fun i (g : program_global) => ((0 + i)%nat, g)) (p_globals p)).
  change (0 + G)%nat with G in H. rewrite E. cbn [mbind option_bind].
  assert (exists defined, mapM (find_definition p table) (p_globals p) = Some defined) as [defined Ed].
  { apply mapM_is_Some_2. apply Forall_forall. intros g _. destruct (find_definition_spec k Hk table g H) as (r & Hr & _). by exists r. }
  exists defined. split; [done|]. split; [symmetry; by eapply length_mapM|]. intros i g Hg. apply mapM_Some in Ed.
  destruct (Forall2_lookup_l _ _ _ _ _ Ed Hg) as (r & Hr & Ef). exists r. split; [done|].
  destruct (find_definition_spec k Hk table g H) as (r' & Ef' & Hd). rewrite Ef in Ef'. by injection Ef' as <-.
Qed.

(** ** The walk over items *)

Definition reach_item (x : item) : walk -> option walk := match x with Fun f => reach_function f | Data g => reach_global p g end.

Lemma reach_const_names c w : reach_const p c w = each reach_item (const_names c) w.
Proof.
  revert w. induction c as [kind type scalar integer floating sym global items IH] using ir_const_nested_ind. intros w.
  destruct kind; try done; [symmetry; exact (each_one reach_item (Data global) w)|symmetry; exact (each_one reach_item (Fun global) w)|].
  change (each (reach_const p) items w = each reach_item (items ≫= const_names) w). rewrite each_bind. apply each_ext. intros c w' Hc. rewrite Forall_forall in IH. by apply IH.
Qed.

Lemma reach_operand_names o w : reach_operand p o w = each reach_item (operand_names o) w.
Proof. unfold reach_operand, operand_names. destruct (o_kind o); try done; by rewrite each_one. Qed.

Lemma walk_function_names f w : walk_function p f w = each reach_item (function_names f) w.
Proof.
  unfold walk_function, function_names, inst_names. rewrite each_bind. apply each_ext. intros insts w1 _. rewrite each_bind. apply each_ext. intros inst w2 _.
  rewrite each_bind. apply each_ext. intros o w3 _. apply reach_operand_names.
Qed.

Lemma relocs_names rs w : each (reach_reloc p) rs w = each reach_item (map reloc_name rs) w.
Proof.
  revert w. induction rs as [|r rs IH]; intros w; [done|].
  change ((w' ← reach_reloc p r w; each (reach_reloc p) rs w') = (w' ← reach_item (reloc_name r) w; each reach_item (map reloc_name rs) w')).
  assert (reach_reloc p r w = reach_item (reloc_name r) w) as -> by (unfold reach_reloc, reloc_name; by destruct (rl_fn r)).
  destruct (reach_item (reloc_name r) w); [apply IH|done].
Qed.

Section Search.
Context (defined : list (option nat)).
Context (Hdefined : forall i g, p_globals p !! i = Some g -> exists r, defined !! i = Some r /\ forall d, r = Some d <-> is_declaration g /\ first_definition (pg_link g) d).
Context (Hp : names_in_range).

(** What an item names, its definition last. *)
Definition names_of (x : item) : list item :=
  match x with
  | Fun f => match p_functions p !! f with Some f => function_names f | None => [] end
  | Data g =>
      match p_globals p !! g with Some g => data_names (pg_data g) | None => [] end ++
      match defined !! g with Some (Some d) => [Data d] | _ => [] end
  end.

Lemma names_mentioned x y : in_range x -> y ∈ names_of x <-> mentions x y.
Proof.
  destruct x as [f|g]; cbn [in_range names_of]; intros [z Hz]%lookup_lt_is_Some_2; rewrite Hz.
  - split; [intros Hy; by eapply function_mentions|]. intros Hm. inversion Hm; subst. congruence.
  - destruct (Hdefined g z Hz) as (r & Hr & Hd). rewrite Hr, elem_of_app. split.
    + intros [Hy|Hy]; [by eapply data_mentions|]. destruct r as [d|]; [|by apply elem_of_nil in Hy]. apply list_elem_of_singleton in Hy as ->.
      destruct (Hd d) as [[? ?] _]; [done|]. by eapply declaration_mentions.
    + intros Hm. inversion Hm as [|? z' y' Hz' Hy|? z' d Hz' Hdec Hf]; subst; rewrite Hz in Hz'; injection Hz' as <-; [by left|]. right.
      destruct (Hd d) as [_ H]. rewrite H by done. by left.
Qed.

Lemma mentions_in_range x y : mentions x y -> in_range y.
Proof.
  destruct Hp as [Hf Hg]. rewrite Forall_forall in Hf. rewrite Forall_forall in Hg. intros H. inversion H as [f pf y' E Hy|g pg y' E Hy|g pg d E Hdec [(g' & E' & _) _]]; subst.
  - specialize (Hf _ (list_elem_of_lookup_2 _ _ _ E)). rewrite Forall_forall in Hf. by apply Hf.
  - specialize (Hg _ (list_elem_of_lookup_2 _ _ _ E)). rewrite Forall_forall in Hg. by apply Hg.
  - cbn. by apply lookup_lt_Some in E'.
Qed.

(** The number of an item on the work list. *)
Definition number (x : item) : nat := match x with Fun f => f | Data g => (N + g)%nat end.

Lemma walk_item_names x w : in_range x -> walk_item p defined (number x) w = each reach_item (names_of x) w.
Proof.
  intros Hx. pose proof Hx as Hlt. unfold walk_item. destruct x as [f|g]; cbn [number in_range names_of] in *; apply lookup_lt_is_Some_2 in Hlt as [z Hz].
  - destruct (Nat.ltb_spec f N) as [_|]; [|lia]. rewrite Hz. cbn [mbind option_bind]. apply walk_function_names.
  - destruct (Nat.ltb_spec (N + g) N) as [|_]; [lia|]. replace (N + g - N)%nat with g by lia. unfold walk_global. rewrite Hz. cbn [mbind option_bind].
    destruct (Hdefined g z Hz) as (r & Hr & _). rewrite Hr. unfold data_names. rewrite !each_app.
    assert (match g_value (pg_data z) with Some c => reach_const p c w | None => Some w end =
            each reach_item match g_value (pg_data z) with Some c => const_names c | None => [] end w) as -> by (destruct (g_value (pg_data z)); [apply reach_const_names|done]).
    destruct (each reach_item _ w) as [w1|]; [|done]. cbn [mbind option_bind]. rewrite <- relocs_names. destruct (each (reach_reloc p) _ w1) as [w2|]; [|done]. cbn [mbind option_bind].
    destruct r as [d|]; [|done]. by rewrite each_one.
Qed.

(** *** What is marked *)

Definition marks (w : walk) (x : item) : Prop := match x with Fun f => w_functions w !! f = Some true | Data g => w_globals w !! g = Some true end.

(** The arrays have their lengths, and the list holds the numbers of [pending]. *)
Record lists (w : walk) (pending : list item) : Prop := {
  li_functions : length (w_functions w) = N;
  li_globals : length (w_globals w) = G;
  li_work : w_work w = map number pending;
  li_pending : Forall (fun x => in_range x /\ marks w x) pending
}.

Definition unmarked (w : walk) : nat := (times negb (w_functions w) + times negb (w_globals w))%nat.

Lemma reach_item_spec x w pending : lists w pending -> in_range x -> exists w' new, reach_item x w = Some w' /\ lists w' (new ++ pending) /\
  (forall y, marks w' y <-> marks w y \/ y = x) /\ (forall y, marks w' y -> marks w y \/ y ∈ new) /\ (unmarked w' + length new = unmarked w)%nat.
Proof.
  intros [Hf Hg Hw Hpend] Hx. destruct x as [f|g]; cbn [reach_item in_range] in *; unfold reach_function, reach_global.
  - rewrite <- Hf in Hx. destruct (lookup_lt_is_Some_2 _ _ Hx) as [[|] Hl]; rewrite Hl; cbn [mbind option_bind].
    + exists w, []. split; [done|]. split; [done|]. split; [intros y; split; [by left|by intros [?| ->]]|]. split; [by left|]. cbn. lia.
    + eexists _, [Fun f]. split; [done|].
      assert (forall y, marks (Walk (<[f:=true]> (w_functions w)) (w_globals w) (f :: w_work w)) y <-> marks w y \/ y = Fun f) as Hm.
      { intros [f'|g']; cbn; [|by intuition congruence]. destruct (decide (f = f')) as [<-|Hne]; [rewrite list_lookup_insert_eq by done; intuition congruence|].
        rewrite list_lookup_insert_ne by done. intuition congruence. }
      split; [|split; [done|split]].
      * split; [by cbn; rewrite length_insert|done|by cbn; rewrite Hw|]. constructor; [split; [cbn; lia|apply Hm; by right]|].
        eapply Forall_impl; [done|]. intros y [? ?]. split; [done|]. apply Hm. by left.
      * intros y [?| ->]%Hm; [by left|]. right. by left.
      * pose proof (times_update negb _ _ _ true Hl) as Hu. unfold unmarked. cbn [w_functions w_globals length]. cbn [negb] in Hu. lia.
  - rewrite <- Hg in Hx. destruct (lookup_lt_is_Some_2 _ _ Hx) as [[|] Hl]; rewrite Hl; cbn [mbind option_bind].
    + exists w, []. split; [done|]. split; [done|]. split; [intros y; split; [by left|by intros [?| ->]]|]. split; [by left|]. cbn. lia.
    + eexists _, [Data g]. split; [done|].
      assert (forall y, marks (Walk (w_functions w) (<[g:=true]> (w_globals w)) ((N + g)%nat :: w_work w)) y <-> marks w y \/ y = Data g) as Hm.
      { intros [f'|g']; cbn; [by intuition congruence|]. destruct (decide (g = g')) as [<-|Hne]; [rewrite list_lookup_insert_eq by done; intuition congruence|].
        rewrite list_lookup_insert_ne by done. intuition congruence. }
      split; [|split; [done|split]].
      * split; [done|by cbn; rewrite length_insert|by cbn; rewrite Hw|]. constructor; [split; [cbn; lia|apply Hm; by right]|].
        eapply Forall_impl; [done|]. intros y [? ?]. split; [done|]. apply Hm. by left.
      * intros y [?| ->]%Hm; [by left|]. right. by left.
      * pose proof (times_update negb _ _ _ true Hl) as Hu. unfold unmarked. cbn [w_functions w_globals length]. cbn [negb] in Hu. lia.
Qed.

Lemma reach_all_spec xs w pending : lists w pending -> Forall in_range xs -> exists w' new, each reach_item xs w = Some w' /\ lists w' (new ++ pending) /\
  (forall y, marks w' y <-> marks w y \/ y ∈ xs) /\ (forall y, marks w' y -> marks w y \/ y ∈ new) /\ (unmarked w' + length new = unmarked w)%nat.
Proof.
  intros Hl H. revert w pending Hl. induction H as [|x xs Hx _ IH]; intros w pending Hl.
  - exists w, []. split; [done|]. split; [done|]. split; [intros y; rewrite elem_of_nil; tauto|]. split; [by left|]. cbn. lia.
  - cbn [each]. destruct (reach_item_spec x w pending Hl Hx) as (w1 & n1 & -> & H1 & M1 & W1 & U1). cbn [mbind option_bind].
    destruct (IH w1 _ H1) as (w2 & n2 & -> & H2 & M2 & W2 & U2). exists w2, (n2 ++ n1). split; [done|]. split; [by rewrite <- app_assoc|].
    split; [intros y; rewrite M2, M1, elem_of_cons; tauto|]. split; [|rewrite length_app; lia].
    intros y Hy. rewrite elem_of_app. destruct (W2 y Hy) as [Hy1|]; [destruct (W1 y Hy1)|]; tauto.
Qed.

Lemma walk_loop_spec fuel w pending : lists w pending -> (unmarked w + length pending <= fuel)%nat ->
  (forall x, marks w x -> x ∈ pending \/ forall y, mentions x y -> marks w y) ->
  exists w', walk_loop p fuel defined w = Some w' /\ lists w' [] /\ (forall x, marks w x -> marks w' x) /\
    (forall x y, marks w' x -> mentions x y -> marks w' y) /\ forall x, marks w' x -> exists e, marks w e /\ rtc mentions e x.
Proof.
  revert w pending. induction fuel as [|fuel IH]; intros w [|x pending] Hl Hfuel Hclosed; pose proof (li_work _ _ Hl) as Hw; cbn [length map] in *; try lia.
  1, 2: exists w; cbn [walk_loop]; rewrite Hw; split; [done|]; split; [done|]; split; [done|]; split; [|intros x Hx; by exists x];
    intros x y Hx Hm; destruct (Hclosed x Hx) as [Hn|Hc]; [by apply elem_of_nil in Hn|by apply Hc].
  cbn [walk_loop]. rewrite Hw. destruct Hl as [Hf Hg _ Hpend]. apply Forall_cons in Hpend as [[Hx Hmx] Hpend].
  rewrite walk_item_names by done. set (w0 := Walk (w_functions w) (w_globals w) (map number pending)).
  destruct (reach_all_spec (names_of x) w0 pending) as (w1 & new & -> & H1 & M1 & W1 & U1); [by split| |].
  { apply Forall_forall. intros y Hy. eapply mentions_in_range. by apply names_mentioned. }
  cbn [mbind option_bind]. assert (forall y, marks w0 y <-> marks w y) as M0 by (by intros []).
  destruct (IH w1 (new ++ pending) H1) as (w2 & E & H2 & Hup & Hc & Hr).
  - rewrite length_app. change (unmarked w0) with (unmarked w) in U1. lia.
  - intros y Hy. rewrite elem_of_app. destruct (W1 y Hy) as [Hy0|]; [|tauto]. apply M0 in Hy0. destruct (decide (y = x)) as [->|Hne].
    + right. intros z Hz. apply M1. right. by apply names_mentioned.
    + destruct (Hclosed y Hy0) as [[->|Hin]%elem_of_cons|Hyc]; [done|tauto|]. right. intros z Hz. apply M1. left. apply M0. by apply Hyc.
  - exists w2. split; [done|]. split; [done|]. split; [intros y Hy; apply Hup, M1; left; by apply M0|]. split; [done|].
    intros y Hy. destruct (Hr y Hy) as (e & He & Hey). apply M1 in He as [He|He]; [exists e; split; [by apply M0|done]|].
    exists x. split; [done|]. eapply rtc_l; [|done]. by apply names_mentioned.
Qed.
End Search.

(** ** The entries *)

Section Entry.
Context (entry : option (list Z)) (all : bool).

Definition is_entry (x : item) : Prop :=
  match x with
  | Fun f => exists pf, p_functions p !! f = Some pf /\ is_entry_function p entry all pf = true
  | Data g => exists pg, p_globals p !! g = Some pg /\ is_entry_global p entry all pg = true
  end.

(** An entry, or what a chain of mentions from an entry names. *)
Definition reachable (x : item) : Prop := exists e, is_entry e /\ rtc mentions e x.

(** The entries among the functions, or among the data, from number [n] on. *)
Lemma entries_reached {A} (test : A -> bool) (name : nat -> item) (xs : list A) n w pending : lists w pending ->
  (forall i, (i < length xs)%nat -> in_range (name (n + i)%nat)) ->
  exists w' new, each (fun '(i, x) w => if test x then reach_item (name i) w else Some w) (imap (fun i x => ((n + i)%nat, x)) xs) w = Some w' /\
    lists w' (new ++ pending) /\
    (forall y, marks w' y <-> marks w y \/ exists i x, xs !! i = Some x /\ test x = true /\ y = name (n + i)%nat) /\
    (forall y, marks w' y -> marks w y \/ y ∈ new) /\ (unmarked w' + length new = unmarked w)%nat.
Proof.
  revert n w pending. induction xs as [|x xs IH]; intros n w pending Hl Hin; cbn [imap each].
  - exists w, []. split; [done|]. split; [done|]. split; [|split; [by left|cbn; lia]]. intros y. split; [by left|]. by intros [|(i & x & Hi & _)].
  - rewrite Nat.add_0_r. assert (exists w1 n1, (if test x then reach_item (name n) w else Some w) = Some w1 /\ lists w1 (n1 ++ pending) /\
      (forall y, marks w1 y <-> marks w y \/ (test x = true /\ y = name n)) /\ (forall y, marks w1 y -> marks w y \/ y ∈ n1) /\ (unmarked w1 + length n1 = unmarked w)%nat)
      as (w1 & n1 & -> & H1 & M1 & W1 & U1).
    { destruct (test x).
      - destruct (reach_item_spec (name n) w pending Hl) as (w1 & n1 & E1 & L1 & M1 & WU); [rewrite <- (Nat.add_0_r n); apply Hin; cbn; lia|].
        exists w1, n1. split; [done|]. split; [done|]. split; [|done]. intros y. rewrite M1. intuition.
      - exists w, []. split; [done|]. split; [done|]. split; [intros y; split; [by left|by intros [|[]]]|]. split; [by left|cbn; lia]. }
    cbn [mbind option_bind]. destruct (IH (S n) w1 _ H1) as (w2 & n2 & E & H2 & M2 & W2 & U2).
    { intros i Hi. rewrite Nat.add_succ_comm. apply Hin. cbn. lia. }
    exists w2, (n2 ++ n1). split; [|split; [by rewrite <- app_assoc|split; [|split; [|rewrite length_app; lia]]]].
    + rewrite <- E. f_equal. apply imap_ext. intros i y _. cbn. by rewrite Nat.add_succ_r.
    + intros y. rewrite M2, M1. split.
      * intros [[|[Ht ->]]|(i & z & Hi & Ht & ->)]; [by left|right; exists O, x; by rewrite Nat.add_0_r|right; exists (S i), z; by rewrite Nat.add_succ_r].
      * intros [|([|i] & z & Hi & Ht & ->)]; [tauto| |].
        -- injection Hi as ->. rewrite Nat.add_0_r. tauto.
        -- right. exists i, z. by rewrite Nat.add_succ_comm.
    + intros y Hy. rewrite elem_of_app. destruct (W2 y Hy) as [Hy1|]; [destruct (W1 y Hy1)|]; tauto.
Qed.

Lemma nothing_marked : let w := Walk (replicate N false) (replicate G false) [] in lists w [] /\ (forall x, ~ marks w x) /\ unmarked w = (N + G)%nat.
Proof.
  split; [split; cbn; try done; by rewrite length_replicate|]. split.
  - intros [f|g]; cbn; intros [H _]%lookup_replicate; done.
  - unfold unmarked. cbn [w_functions w_globals]. assert (forall n, times negb (replicate n false) = n) as H by (induction n as [|n IH]; [done|]; cbn [replicate]; rewrite count_cons, IH; done).
    by rewrite !H.
Qed.

(** The entries are marked, and all of them are on the work list. *)
Lemma reach_entries_spec : exists w pending, reach_entries p entry all (Walk (replicate N false) (replicate G false) []) = Some w /\ lists w pending /\
  (forall x, marks w x <-> is_entry x) /\ (forall x, marks w x -> x ∈ pending) /\ (unmarked w + length pending = N + G)%nat.
Proof.
  destruct nothing_marked as (H0 & M0 & U0). unfold reach_entries.
  destruct (entries_reached (is_entry_function p entry all) Fun (p_functions p) 0 _ [] H0) as (w1 & n1 & E1 & H1 & M1 & W1 & U1); [done|].
  cbn [Nat.add] in E1. change (imap (fun i (x : program_function) => (i, x)) (p_functions p)) with (imap pair (p_functions p)) in E1.
  change (fun '(i, x) w => if is_entry_function p entry all x then reach_item (Fun i) w else Some w) with
    (fun '(i, f) w => if is_entry_function p entry all f then reach_function i w else Some w) in E1. rewrite E1. cbn [mbind option_bind].
  destruct (entries_reached (is_entry_global p entry all) Data (p_globals p) 0 w1 _ H1) as (w2 & n2 & E2 & H2 & M2 & W2 & U2); [done|].
  exists w2, (n2 ++ n1 ++ []). split; [exact E2|]. split; [done|]. split; [|split; [|rewrite !length_app; cbn; lia]].
  - intros x. rewrite M2, M1. split.
    + intros [[Hx|(i & f & Hi & Ht & ->)]|(i & g & Hi & Ht & ->)]; [by destruct (M0 x)|by exists f|by exists g].
    + destruct x as [f|g]; [intros (pf & Hf & Ht); left; right; by exists f, pf|intros (pg & Hg & Ht); right; by exists g, pg].
  - intros x Hx. rewrite !elem_of_app. destruct (W2 x Hx) as [Hx1|]; [|tauto]. destruct (W1 x Hx1) as [Hx0|]; [by destruct (M0 x)|tauto].
Qed.

(** What the walk returns. *)
Lemma ir_reach_spec : names_in_range -> exists fs gs, ir_reach p entry all = Some (fs, gs) /\ length fs = N /\ length gs = G /\
  (forall f, fs !! f = Some true <-> reachable (Fun f)) /\ (forall g, gs !! g = Some true <-> reachable (Data g)).
Proof.
  intros Hp. destruct definitions_of_spec as (defined & Ed & _ & Hd). destruct reach_entries_spec as (w & pending & Ee & H & M & P & U).
  unfold ir_reach. rewrite Ed. cbn [mbind option_bind]. rewrite Ee. cbn [mbind option_bind].
  destruct (walk_loop_spec defined Hd Hp (N + G) w pending H) as (w' & El & H' & Hup & Hc & Hr); [lia|by left; apply P|].
  rewrite El. cbn [mbind option_bind]. exists (w_functions w'), (w_globals w'). destruct H' as [Hf Hg _ _]. split; [done|]. split; [done|]. split; [done|].
  assert (forall x, marks w' x <-> reachable x) as Hm.
  { intros x. split; [intros Hx; destruct (Hr x Hx) as (e & He & Hex); exists e; split; [by apply M|done]|].
    intros (e & He & Hex). apply M, Hup in He. induction Hex as [|e y x Hey _ IH]; [done|]. apply IH. by eapply Hc. }
  split; intros i; [apply (Hm (Fun i))|apply (Hm (Data i))].
Qed.
End Entry.
End Program.
