(* ===== verification/OptimizeProgram.v ===== *)
(** * OptimizeProgram: the optimizer over a whole program

    Models the end of src/antic/optimize.c: the functions and the data that no entry
    reaches go and the others move to the front, a module keeps the bodies that its
    object holds, and the checks of a kind go with the blocks where they fail. The kind
    of every block is an argument, since these passes alone read it. The index that a
    function or a datum keeps of itself is its place. *)

From S2P Require Import Prelude Ir IrVerify Optimize Program Reach.

(** ** What nothing reaches *)

(** The new number of each item kept, and 0 for the others. *)
Fixpoint numbers (n : nat) (live : list bool) : list nat :=
  match live with
  | [] => []
  | true :: live => n :: numbers (S n) live
  | false :: live => O :: numbers n live
  end.

(** A number outside the array stays out: [ir_reach] has no result on a program with one. *)
Definition moved (map : list nat) (i : nat) : nat := default O (map !! i).

Section Remap.
Context (map function_map : list nat).

Fixpoint remap_const (c : ir_const) : ir_const :=
  let with_parts (global : nat) (items : list ir_const) :=
    Const (c_kind c) (c_type c) (c_scalar c) (c_integer c) (c_floating c) (c_sym c) global items in
  match c_kind c with
  | IR_CONST_ADDR => with_parts (moved map (c_global c)) (c_items c)
  | IR_CONST_FUNC => with_parts (moved function_map (c_global c)) (c_items c)
  | IR_CONST_AGG => with_parts (c_global c) (List.map remap_const (c_items c))
  | _ => c
  end.

Definition remap_reloc (r : ir_reloc) : ir_reloc :=
  Reloc (rl_offset r) (if rl_fn r then moved function_map (rl_global r) else moved map (rl_global r)) (rl_fn r).

Definition remap_data (g : ir_global) : ir_global :=
  Global (g_bytes g) (g_size g) (g_align g) (List.map remap_reloc (g_relocs g)) (remap_const <$> g_value g).

Definition remap_operand (o : ir_operand) : ir_operand :=
  match o_kind o with
  | IR_FUNC f => Operand (IR_FUNC (moved function_map f)) (o_type o)
  | IR_GLOBAL g => Operand (IR_GLOBAL (moved map g)) (o_type o)
  | _ => o
  end.

Definition remap_operands (f : ir_function) : ir_function :=
  with_blocks f (List.map (List.map (map_operands remap_operand)) (fn_blocks f)).

Definition remap_function (f : program_function) : program_function := Program_function (pf_link f) (remap_operands (pf_code f)).

Definition remap_global (g : program_global) : program_global :=
  Program_global (pg_link g) (remap_data (pg_data g)) (pg_bytes g) (pg_mutable g) (pg_extern g) (pg_dropped g).
End Remap.

Definition remove_unused_functions (p : program) (entry : option (list Z)) (all : bool) : option program :=
  '(live, live_globals) ← ir_reach p entry all;
  let map := numbers 0 live in
  let global_map := numbers 0 live_globals in
  Some (Program (List.map (remap_function global_map map) (marked live (p_functions p)))
                (List.map (remap_global global_map map) (marked live_globals (p_globals p))) [] (p_hosts p)).

(** ** A program, or one module of it *)

Definition with_code (f : program_function) (code : ir_function) : program_function := Program_function (pf_link f) code.

(** The rounds of the optimizer as fuel, as in Optimize.v. *)
Definition optimize_defined (fuel : nat) (f : program_function) : option program_function :=
  if fn_is_extern (pf_code f) then Some f else with_code f <$> optimize_function fuel (pf_code f).

Definition optimize_program (fuel : nat) (p : program) (entry : option (list Z)) : option program :=
  fs ← mapM (optimize_defined fuel) (p_functions p);
  remove_unused_functions (Program fs (p_globals p) (p_classes p) (p_hosts p)) entry false.

Definition IR_NO_RESULT : nat := Z.to_nat UINT32_MAX.

Definition without_temp (p : ir_param) : ir_param :=
  {| pr_type := pr_type p; pr_ext := pr_ext p; pr_agg := pr_agg p; pr_temp := IR_NO_RESULT;
     pr_nonnull := pr_nonnull p; pr_own := pr_own p; pr_deref_size := pr_deref_size p |}.

Definition drop_body (f : ir_function) : ir_function :=
  {| fn_params := map without_temp (fn_params f); fn_result := fn_result f; fn_result_agg := fn_result_agg f;
     fn_result_ext := fn_result_ext f; fn_allocates := fn_allocates f; fn_result_range := fn_result_range f;
     fn_is_extern := true; fn_variadic := fn_variadic f; fn_never_returns := fn_never_returns f;
     fn_blocks := []; fn_temps := [] |}.

Definition drop_data (g : program_global) : program_global :=
  Program_global (pg_link g) (Global [] 0 (g_align (pg_data g)) [] None) false (pg_mutable g) true (pg_dropped g).

(** Whether the object of [module] holds what is linked as [l]; [strcmp] of a module
    that is NULL has no value. *)
Definition belongs_to (module : list Z) (l : linkage) : option bool :=
  if ir_in_unit (ln_module l) (ln_unit l) module then Some true
  else own ← ln_module l; Some (same_name own RUNTIME_MODULE).

Definition optimize_of_module (fuel : nat) (module : list Z) (f : program_function) : option program_function :=
  if fn_is_extern (pf_code f) then Some f
  else
    own ← belongs_to module (pf_link f);
    if own : bool then optimize_defined fuel f else Some (with_code f (drop_body (pf_code f))).

Definition data_of_module (module : list Z) (g : program_global) : program_global :=
  if negb (pg_extern g) && is_some (ln_module (pg_link g)) && negb (default true (belongs_to module (pg_link g))) then drop_data g else g.

Definition optimize_module (fuel : nat) (p : program) (module : list Z) : option program :=
  fs ← mapM (optimize_of_module fuel module) (p_functions p);
  remove_unused_functions (Program fs (map (data_of_module module) (p_globals p)) (p_classes p) (p_hosts p)) (Some module) true.

(** ** The blocks of a failure *)

Inductive ir_fail := IR_FAIL_NONE | IR_FAIL_ASSERT | IR_FAIL_CHECK | IR_FAIL_GUARD.

#[export] Instance ir_fail_eq_dec : EqDecision ir_fail.
Proof. solve_decision. Defined.

Definition without_overflow (op : ir_op) : ir_op :=
  match op with IR_ADD_OV => IR_ADD | IR_SUB_OV => IR_SUB | _ => IR_MUL end.

(** A literal is named by a number. *)
Definition is_literal (g : program_global) : bool :=
  pg_bytes g && negb (ln_exported (pg_link g)) && negb (pg_mutable g) &&
  match g_relocs (pg_data g) with [] => true | _ => false end &&
  match ln_name (pg_link g) with c :: _ => (48 <=? c) && (c <=? 57) | [] => false end.

Definition mark_dropped (g : program_global) : program_global :=
  Program_global (pg_link g) (pg_data g) (pg_bytes g) (pg_mutable g) (pg_extern g) true.

Definition drop_literal (o : ir_operand) (globals : list program_global) : option (list program_global) :=
  match o_kind o with
  | IR_GLOBAL i => g ← globals !! i; Some (if is_literal g then <[i := mark_dropped g]> globals else globals)
  | _ => Some globals
  end.

Definition drop_literals (insts : list ir_inst) : list program_global -> option (list program_global) :=
  each (fun inst => each drop_literal (operands inst)) insts.

Section Failures.
Context (kind : ir_fail).

Definition plain_overflow (inst : ir_inst) : ir_inst :=
  if is_overflow (i_op inst)
  then with_field (with_ops inst (without_overflow (i_op inst)) (i_a inst) (i_b inst) (i_c inst)) 0 else inst.

(** The kind of the block that an operand names. *)
Definition fails_of (fails : list ir_fail) (o : ir_operand) : option ir_fail :=
  match o_kind o with IR_BLOCK b => fails !! b | _ => None end.

(** The arm that does not fail becomes the only one. *)
Definition drop_branch (fails : list ir_fail) (last : ir_inst) : option ir_inst :=
  match i_op last with
  | IR_BRANCH | IR_BRANCH_OV =>
      c ← fails_of fails (i_c last);
      if bool_decide (c = kind) then Some (with_ops last IR_JUMP (i_b last) none none)
      else
        b ← fails_of fails (i_b last);
        Some (if bool_decide (b = kind) then with_ops last IR_JUMP (i_c last) none none else last)
  | _ => Some last
  end.

Definition drop_checks (insts : list ir_inst) : list ir_inst :=
  if bool_decide (kind = IR_FAIL_CHECK) then map plain_overflow insts else insts.

Definition drop_last (fails : list ir_fail) (insts : list ir_inst) : option (list ir_inst) :=
  match last insts with
  | None => Some insts
  | Some l => l' ← drop_branch fails l; Some (<[length insts - 1 := l']>%nat insts)
  end.

(** One block of a function whose blocks fail as [fails] says. *)
Definition drop_in_block (fails : list ir_fail) (fail : ir_fail) (insts : list ir_inst) (globals : list program_global) :
    option (list ir_inst * list program_global) :=
  globals ← (if bool_decide (fail = kind) then drop_literals insts globals else Some globals);
  insts ← drop_last fails (drop_checks insts);
  Some (insts, globals).

Fixpoint drop_in_blocks (fails rest : list ir_fail) (blocks : list (list ir_inst)) (globals : list program_global) :
    option (list (list ir_inst) * list program_global) :=
  match blocks, rest with
  | insts :: blocks, fail :: rest =>
      '(insts, globals) ← drop_in_block fails fail insts globals;
      '(blocks, globals) ← drop_in_blocks fails rest blocks globals;
      Some (insts :: blocks, globals)
  | [], [] => Some ([], globals)
  | _, _ => None
  end.

Fixpoint drop_in_functions (fails : list (list ir_fail)) (fs : list program_function) (globals : list program_global) :
    option (list program_function * list program_global) :=
  match fs, fails with
  | f :: fs, ks :: fails =>
      '(blocks, globals) ← drop_in_blocks ks ks (fn_blocks (pf_code f)) globals;
      '(fs, globals) ← drop_in_functions fails fs globals;
      Some (with_code f (with_blocks (pf_code f) blocks) :: fs, globals)
  | [], [] => Some ([], globals)
  | _, _ => None
  end.

(** [fails] has the kind of each block of each function. *)
Definition optimize_drop_failures (p : program) (fails : list (list ir_fail)) : option program :=
  '(fs, globals) ← drop_in_functions fails (p_functions p) (p_globals p);
  Some (Program fs globals (p_classes p) (p_hosts p)).
End Failures.
