(* ===== verification/OptimizeUnused.v ===== *)
(** * OptimizeUnused: the removal of what nothing reaches

    What the entries reach stays in its order, every name in it follows the item it
    names, and in the program that is left everything is reached. *)

From S2P Require Import Prelude Ir IrVerify PtrSet Probe Optimize OptimizeCounts OptimizeGraph Program Reach ReachSpec OptimizeProgram.

(** ** New numbers *)

Lemma moved_number live n i : live !! i = Some true -> moved (numbers n live) i = (n + new_number live i)%nat.
Proof.
  revert n i. induction live as [|[|] live IH]; intros n [|i]; unfold moved; cbn [numbers]; try discriminate; [intros _; change (n = n + 0)%nat; lia| |].
  - intros H. change ((n :: numbers (S n) live) !! S i) with (numbers (S n) live !! i). specialize (IH (S n) i H). unfold moved in IH. rewrite IH, new_number_S. lia.
  - intros H. change ((O :: numbers n live) !! S i) with (numbers n live !! i). specialize (IH n i H). unfold moved in IH. rewrite IH, new_number_S. lia.
Qed.

Lemma marked_inv {A} live (l : list A) j x : length live = length l -> marked live l !! j = Some x ->
  exists i, live !! i = Some true /\ l !! i = Some x /\ new_number live i = j.
Proof.
  revert l j. induction live as [|b live IH]; intros [|y l] j; try done. intros [= Hl]. unfold marked. cbn [zip zip_with List.filter fst]. destruct b; cbn [map snd].
  - destruct j as [|j]; [intros [= ->]; by exists O|]. intros H. destruct (IH l j Hl H) as (i & H1 & H2 & H3). exists (S i). rewrite new_number_S. by rewrite H3.
  - intros H. destruct (IH l j Hl H) as (i & H1 & H2 & H3). exists (S i). rewrite new_number_S. by rewrite H3.
Qed.

Lemma new_number_lt live i j : live !! i = Some true -> (i < j)%nat -> (new_number live i < new_number live j)%nat.
Proof.
  revert i j. induction live as [|b live IH]; intros [|i] [|j] H Hlt; try done; try lia.
  - injection H as ->. rewrite (new_number_S true). cbn. lia.
  - rewrite !new_number_S. specialize (IH i j H ltac:(lia)). lia.
Qed.

Lemma new_number_below {A} live (l : list A) i : length live = length l -> live !! i = Some true -> (new_number live i < length (marked live l))%nat.
Proof.
  intros Hl Hi. destruct (lookup_lt_is_Some_2 l i) as [x Hx]; [rewrite <- Hl; by eapply lookup_lt_Some|].
  eapply lookup_lt_Some. by apply (marked_lookup live l i x).
Qed.

(** ** What the renumbered program names *)

Section Shift.
Context (map_ function_map : list nat).

Definition shift (x : item) : item := match x with Fun f => Fun (moved function_map f) | Data g => Data (moved map_ g) end.

Lemma map_bind {A B C} (h : B -> C) (g : A -> list B) l : map h (l ≫= g) = l ≫= fun x => map h (g x).
Proof. induction l as [|x l IH]; [done|]. cbn [mbind list_bind]. by rewrite map_app, IH. Qed.

Lemma bind_map {A B C} (h : A -> B) (g : B -> list C) l : map h l ≫= g = l ≫= fun x => g (h x).
Proof. induction l as [|x l IH]; [done|]. cbn [map mbind list_bind]. by rewrite IH. Qed.

Lemma bind_ext_in {A B} (g h : A -> list B) l : (forall x, x ∈ l -> g x = h x) -> l ≫= g = l ≫= h.
Proof. intros H. induction l as [|x l IH]; [done|]. cbn [mbind list_bind]. rewrite H by by left. f_equal. apply IH. intros y Hy. apply H. by right. Qed.

Lemma remap_const_names c : const_names (remap_const map_ function_map c) = map shift (const_names c).
Proof.
  induction c as [kind type scalar integer floating sym global items IH] using ir_const_nested_ind. destruct kind; try done.
  change (map (remap_const map_ function_map) items ≫= const_names = map shift (items ≫= const_names)).
  rewrite bind_map, map_bind. apply bind_ext_in. intros c Hc. rewrite Forall_forall in IH. by apply IH.
Qed.

Lemma remap_operand_names o : operand_names (remap_operand map_ function_map o) = map shift (operand_names o).
Proof. unfold remap_operand, operand_names. by destruct (o_kind o) eqn:E; rewrite ?E. Qed.

Lemma remap_function_names f : function_names (remap_function map_ function_map f) = map shift (function_names f).
Proof.
  unfold function_names, remap_function, remap_operands. cbn [pf_code fn_blocks with_blocks with_body]. rewrite bind_map, map_bind.
  apply bind_ext_in. intros insts _. rewrite bind_map, map_bind. apply bind_ext_in. intros inst _. unfold inst_names. rewrite map_bind.
  change (operands (map_operands (remap_operand map_ function_map) inst)) with (map (remap_operand map_ function_map) (operands inst)).
  rewrite bind_map. apply bind_ext_in. intros o _. apply remap_operand_names.
Qed.

Lemma remap_data_names g : data_names (remap_data map_ function_map g) = map shift (data_names g).
Proof.
  unfold data_names, remap_data. cbn [g_value g_relocs]. rewrite map_app. f_equal; [destruct (g_value g); [apply remap_const_names|done]|].
  rewrite !map_map. apply map_ext. intros r. unfold reloc_name, remap_reloc. cbn [rl_fn rl_global]. by destruct (rl_fn r).
Qed.
End Shift.

(** *** Numbers that stay *)

Section Still.
Context (map_ function_map : list nat).
Notation still := (fun x => shift map_ function_map x = x).

Lemma still_const c : Forall still (const_names c) -> remap_const map_ function_map c = c.
Proof.
  induction c as [kind type scalar integer floating sym global items IH] using ir_const_nested_ind.
  destruct kind; try done; cbn [const_names c_kind c_global c_items remap_const c_type c_scalar c_integer c_floating c_sym].
  - intros [H _]%Forall_cons. injection H as H. by rewrite H.
  - intros [H _]%Forall_cons. injection H as H. by rewrite H.
  - change (Forall still (items ≫= const_names) -> Const IR_CONST_AGG type scalar integer floating sym global (map (remap_const map_ function_map) items) = Const IR_CONST_AGG type scalar integer floating sym global items).
    intros H. f_equal. induction items as [|c items IHi]; [done|]. apply Forall_cons in IH as [Hc IH]. cbn [mbind list_bind] in H. apply Forall_app in H as [H1 H2].
    cbn [map]. by rewrite Hc, IHi.
Qed.

Lemma still_operand o : Forall still (operand_names o) -> remap_operand map_ function_map o = o.
Proof.
  unfold operand_names, remap_operand. destruct o as [[] type]; cbn [o_kind o_type]; try done; intros [H _]%Forall_cons; injection H as H; by rewrite H.
Qed.

Lemma map_still {A} (g : A -> A) (names : A -> list item) l : (forall x, Forall still (names x) -> g x = x) -> Forall still (l ≫= names) -> map g l = l.
Proof. intros Hg. induction l as [|x l IH]; [done|]. cbn [mbind list_bind map]. intros [H1 H2]%Forall_app. by rewrite Hg, IH. Qed.

Lemma still_function f : Forall still (function_names f) -> remap_function map_ function_map f = f.
Proof.
  intros H. destruct f as [link code]. unfold remap_function, remap_operands. cbn [pf_link pf_code]. f_equal.
  assert (map (map (map_operands (remap_operand map_ function_map))) (fn_blocks code) = fn_blocks code) as ->; [|by destruct code].
  eapply map_still; [|exact H]. intros insts. apply map_still. intros inst Hi.
  assert (map (remap_operand map_ function_map) (operands inst) = operands inst) as E by (eapply map_still; [apply still_operand|exact Hi]).
  destruct inst as [op type result a b c of_ field member args]. unfold map_operands, operands in *. cbn [i_op i_type i_result i_a i_b i_c i_of i_field i_member i_args map] in *.
  injection E as Ea Eb Ec Ed. by rewrite Ea, Eb, Ec, Ed.
Qed.

Lemma still_global g : Forall still (data_names (pg_data g)) -> remap_global map_ function_map g = g.
Proof.
  destruct g as [link [bytes size align relocs value] has mutable extern dropped]. unfold remap_global, remap_data, data_names. cbn [pg_data pg_link pg_bytes pg_mutable pg_extern pg_dropped g_bytes g_size g_align g_relocs g_value].
  intros [Hv Hr]%Forall_app. f_equal. f_equal.
  - apply Forall_map in Hr. induction Hr as [|r relocs H _ IH]; [done|]. cbn [map]. rewrite IH. f_equal. destruct r as [offset global fn]. unfold reloc_name in H. unfold remap_reloc.
    cbn [rl_fn rl_global rl_offset] in *. destruct fn; injection H as H; by rewrite H.
  - destruct value as [c|]; [|done]. cbn. f_equal. by apply still_const.
Qed.
End Still.

(** ** What is kept *)

Section Kept.
Context (p : program) (entry : option (list Z)) (all : bool) (Hp : names_in_range p).
Context (fs gs : list bool) (Hfs : length fs = length (p_functions p)) (Hgs : length gs = length (p_globals p)).
Notation kept := (reachable p entry all).
Context (Hf : forall f, fs !! f = Some true <-> kept (Fun f)) (Hg : forall g, gs !! g = Some true <-> kept (Data g)).

Let fm := numbers 0 fs.
Let gm := numbers 0 gs.
Let q := Program (map (remap_function gm fm) (marked fs (p_functions p))) (map (remap_global gm fm) (marked gs (p_globals p))) [] (p_hosts p).
Notation place := (shift gm fm).

Lemma kept_step x y : kept x -> mentions p x y -> kept y.
Proof. intros (e & He & Hx) Hy. exists e. split; [done|]. by eapply rtc_r. Qed.

Lemma kept_function f pf : kept (Fun f) -> p_functions p !! f = Some pf -> p_functions q !! moved fm f = Some (remap_function gm fm pf).
Proof.
  intros Hk Hpf. apply Hf in Hk. unfold fm at 1. rewrite moved_number by done. cbn [p_functions q Nat.add]. rewrite list_lookup_fmap.
  by rewrite (marked_lookup fs _ f pf Hfs Hk Hpf).
Qed.

Lemma kept_global g pg : kept (Data g) -> p_globals p !! g = Some pg -> p_globals q !! moved gm g = Some (remap_global gm fm pg).
Proof.
  intros Hk Hpg. apply Hg in Hk. unfold gm at 1. rewrite moved_number by done. cbn [p_globals q Nat.add]. rewrite list_lookup_fmap.
  by rewrite (marked_lookup gs _ g pg Hgs Hk Hpg).
Qed.

Lemma function_from i qf : p_functions q !! i = Some qf -> exists f pf, kept (Fun f) /\ p_functions p !! f = Some pf /\ i = moved fm f /\ qf = remap_function gm fm pf.
Proof.
  cbn [p_functions q]. rewrite list_lookup_fmap. intros (pf & H & ->)%fmap_Some. destruct (marked_inv fs _ i pf Hfs H) as (f & Hk & Hpf & <-).
  exists f, pf. split; [by apply Hf|]. split; [done|]. split; [|done]. unfold fm. by rewrite moved_number.
Qed.

Lemma global_from i qg : p_globals q !! i = Some qg -> exists g pg, kept (Data g) /\ p_globals p !! g = Some pg /\ i = moved gm g /\ qg = remap_global gm fm pg.
Proof.
  cbn [p_globals q]. rewrite list_lookup_fmap. intros (pg & H & ->)%fmap_Some. destruct (marked_inv gs _ i pg Hgs H) as (g & Hk & Hpg & <-).
  exists g, pg. split; [by apply Hg|]. split; [done|]. split; [|done]. unfold gm. by rewrite moved_number.
Qed.

Lemma kept_in_range x : kept x -> in_range p x.
Proof. destruct x as [f|g]; intros H; [apply Hf in H|apply Hg in H]; cbn; [rewrite <- Hfs|rewrite <- Hgs]; by eapply lookup_lt_Some. Qed.

Lemma kept_item_in_range x : kept x -> in_range q (place x).
Proof.
  intros H. pose proof (kept_in_range x H) as Hr. destruct x as [f|g]; cbn [in_range shift] in *; apply lookup_lt_is_Some_2 in Hr as [z Hz].
  - eapply lookup_lt_Some. by apply kept_function.
  - eapply lookup_lt_Some. by apply kept_global.
Qed.

Lemma place_from z : in_range q z -> exists x, kept x /\ z = place x.
Proof.
  destruct z as [i|i]; cbn [in_range]; intros [y Hy]%lookup_lt_is_Some_2.
  - destruct (function_from i y Hy) as (f & _ & Hk & _ & -> & _). by exists (Fun f).
  - destruct (global_from i y Hy) as (g & _ & Hk & _ & -> & _). by exists (Data g).
Qed.

Lemma data_order g g' : kept (Data g) -> kept (Data g') -> (moved gm g < moved gm g')%nat <-> (g < g')%nat.
Proof.
  intros H%Hg H'%Hg. unfold gm. rewrite !moved_number by done. cbn [Nat.add]. split; [|by apply new_number_lt]. intros Hlt.
  destruct (Nat.lt_total g g') as [|[->|Hgt]]; [done|lia|]. pose proof (new_number_lt gs g' g H' Hgt). lia.
Qed.

Lemma function_order f f' : kept (Fun f) -> kept (Fun f') -> (moved fm f < moved fm f')%nat <-> (f < f')%nat.
Proof.
  intros H%Hf H'%Hf. unfold fm. rewrite !moved_number by done. cbn [Nat.add]. split; [|by apply new_number_lt]. intros Hlt.
  destruct (Nat.lt_total f f') as [|[->|Hgt]]; [done|lia|]. pose proof (new_number_lt fs f' f H' Hgt). lia.
Qed.

(** *** Definitions *)

Lemma defines_place l d : kept (Data d) -> defines_name q l (moved gm d) <-> defines_name p l d.
Proof.
  intros Hk. pose proof (kept_in_range _ Hk) as [pg Hpg]%lookup_lt_is_Some_2. pose proof (kept_global d pg Hk Hpg) as Hq. unfold defines_name. rewrite Hpg, Hq.
  split; intros (g & [= <-] & H); eexists; (split; [reflexivity|exact H]).
Qed.

(** A name of a declaration that is kept has the same first definition. *)
Lemma first_place g pg d : kept (Data g) -> p_globals p !! g = Some pg -> is_declaration pg ->
  first_definition q (pg_link pg) d <-> exists d', first_definition p (pg_link pg) d' /\ d = moved gm d'.
Proof.
  intros Hk Hpg Hdec. assert (forall d', first_definition p (pg_link pg) d' -> kept (Data d')) as Hkd.
  { intros d' Hd'. apply (kept_step _ _ Hk). by eapply declaration_mentions. }
  assert (forall d', first_definition p (pg_link pg) d' -> first_definition q (pg_link pg) (moved gm d')) as Hfirst.
  { intros d' Hd'. pose proof (Hkd d' Hd') as Hk'. destruct Hd' as [Hd' Hmin]. split; [by apply defines_place|]. intros e He Hdef.
    pose proof Hdef as (qg & Hqg & _). destruct (global_from e qg Hqg) as (g' & pg' & Hk'' & _ & -> & _).
    pose proof (proj1 (data_order g' d' Hk'' Hk') He) as Hlt. apply (Hmin g' Hlt). by apply defines_place. }
  assert (forall d1 d2, first_definition q (pg_link pg) d1 -> first_definition q (pg_link pg) d2 -> d1 = d2) as Huniq.
  { intros d1 d2 [H1 M1] [H2 M2]. destruct (Nat.lt_total d1 d2) as [Hlt|[|Hlt]]; [by destruct (M2 d1 Hlt)|done|by destruct (M1 d2 Hlt)]. }
  split; [|intros (d' & Hd' & ->); by apply Hfirst]. intros Hd. pose proof Hd as [(qg & Hqg & Hdef) _].
  destruct (global_from d qg Hqg) as (g' & pg' & Hk' & Hpg' & -> & ->). destruct (first_exists p (pg_link pg) g') as (d' & Hd'); [by exists pg'|].
  exists d'. split; [done|]. apply Huniq; [done|by apply Hfirst].
Qed.

(** *** Mentions and entries *)

Lemma place_mentions x y : kept x -> mentions p x y -> mentions q (place x) (place y).
Proof.
  intros Hk Hm. inversion Hm as [f pf y' E Hy|g pg y' E Hy|g pg d E Hdec Hfirst]; subst.
  - apply (function_mentions q _ (remap_function gm fm pf)); [by apply kept_function|]. rewrite remap_function_names. by apply list_elem_of_fmap_2.
  - apply (data_mentions q _ (remap_global gm fm pg)); [by apply kept_global|]. cbn [pg_data remap_global]. rewrite remap_data_names. by apply list_elem_of_fmap_2.
  - apply (declaration_mentions q _ (remap_global gm fm pg)); [by apply kept_global|exact Hdec|]. cbn [pg_link remap_global].
    apply (first_place g); [done..|]. by exists d.
Qed.

Lemma mentions_from x z : kept x -> mentions q (place x) z -> exists y, mentions p x y /\ z = place y.
Proof.
  intros Hk. pose proof (kept_in_range x Hk) as Hr. destruct x as [f|g]; cbn [shift in_range] in *; apply lookup_lt_is_Some_2 in Hr as [w Hw]; intros Hm.
  - inversion Hm as [f' pf y' E Hy| |]; subst. rewrite (kept_function f w Hk Hw) in E. injection E as <-. rewrite remap_function_names in Hy.
    apply list_elem_of_fmap in Hy as (y & -> & Hy). exists y. split; [by eapply function_mentions|done].
  - inversion Hm as [|g' pg y' E Hy|g' pg d E Hdec Hfirst]; subst; rewrite (kept_global g w Hk Hw) in E; injection E as <-.
    + cbn [pg_data remap_global] in Hy. rewrite remap_data_names in Hy. apply list_elem_of_fmap in Hy as (y & -> & Hy). exists y. split; [by eapply data_mentions|done].
    + cbn [pg_link remap_global] in Hfirst. apply (first_place g w) in Hfirst as (d' & Hd' & ->); [|done..]. exists (Data d'). split; [|done]. by eapply declaration_mentions.
Qed.

Lemma same_main : has_main q entry all = has_main p entry all.
Proof.
  assert (forall e, entry = Some e -> existsb (fun f => ir_is_main_of f e) (p_functions q) = existsb (fun f => ir_is_main_of f e) (p_functions p)) as H.
  2: { unfold has_main. revert H. destruct entry as [e|]; [|done]. intros ->; done. }
  intros e Ee. apply eq_true_iff_eq. rewrite !existsb_exists. split.
  - intros (qf & Hq & Hm). apply list_elem_of_In, list_elem_of_lookup in Hq as [i Hi]. destruct (function_from i qf Hi) as (f & pf & _ & Hpf & _ & ->).
    exists pf. split; [|exact Hm]. apply list_elem_of_In. by eapply list_elem_of_lookup_2.
  - intros (pf & Hpf & Hm). apply list_elem_of_In, list_elem_of_lookup in Hpf as [f Hpf]. exists (remap_function gm fm pf). split; [|exact Hm].
    apply list_elem_of_In. apply (list_elem_of_lookup_2 _ (moved fm f)). apply kept_function; [|done].
    exists (Fun f). split; [|done]. exists pf. split; [done|]. unfold is_entry_function. pose proof Hm as Hm'. unfold ir_is_main_of in Hm'.
    apply andb_true_iff in Hm' as [Hm' _]. apply andb_true_iff in Hm' as [Hm' Hu]. apply andb_true_iff in Hm' as [He _].
    rewrite He, Ee, Hm, Hu. by rewrite !orb_true_r.
Qed.

Lemma place_entry x : kept x -> is_entry p entry all x -> is_entry q entry all (place x).
Proof.
  intros Hk. destruct x as [f|g]; cbn [shift is_entry]; intros (z & Hz & He).
  - exists (remap_function gm fm z). split; [by apply kept_function|]. unfold is_entry_function in *. by rewrite same_main.
  - exists (remap_global gm fm z). split; [by apply kept_global|]. exact He.
Qed.

Lemma all_kept z : in_range q z -> reachable q entry all z.
Proof.
  intros Hz. destruct (place_from z Hz) as (x & (e & He & Hx) & ->). exists (place e). split.
  - apply place_entry; [by exists e|done].
  - assert (kept e) as Hke by (by exists e). clear Hz He. induction Hx as [e|e y x Hey _ IH]; [done|]. eapply rtc_l; [by apply place_mentions|]. apply IH. by eapply kept_step.
Qed.

Lemma left_in_range : names_in_range q.
Proof.
  assert (forall x z, in_range q x -> mentions q x z -> in_range q z) as H.
  { intros x z Hx Hm. destruct (place_from x Hx) as (x' & Hk & ->). destruct (mentions_from x' z Hk Hm) as (y & Hy & ->). apply kept_item_in_range. by eapply kept_step. }
  split; apply Forall_forall; intros w Hw; apply list_elem_of_lookup in Hw as [i Hi]; apply Forall_forall; intros y Hy.
  - apply (H (Fun i)); [by eapply lookup_lt_Some|by eapply function_mentions].
  - apply (H (Data i)); [by eapply lookup_lt_Some|by eapply data_mentions].
Qed.
End Kept.

(** ** A program where all is reached *)

Lemma map_id_ext {A} (g : A -> A) l : (forall x, x ∈ l -> g x = x) -> map g l = l.
Proof. intros H. induction l as [|x l IH]; [done|]. cbn [map]. rewrite H by by left. f_equal. apply IH. intros y Hy. apply H. by right. Qed.

Lemma all_true (live : list bool) : (forall i, (i < length live)%nat -> live !! i = Some true) -> live = replicate (length live) true.
Proof.
  induction live as [|b live IH]; intros H; [done|]. cbn [length replicate]. pose proof (H O ltac:(cbn; lia)) as [= ->]. f_equal.
  apply IH. intros i Hi. apply (H (S i)). cbn. lia.
Qed.

Lemma numbers_all k n i : (i < n)%nat -> moved (numbers k (replicate n true)) i = (k + i)%nat.
Proof.
  intros H. rewrite moved_number by (by apply lookup_replicate). f_equal. unfold new_number. rewrite take_replicate, Nat.min_l by lia.
  clear. induction i as [|i IH]; [done|]. cbn [replicate]. by rewrite count_cons, IH.
Qed.

Lemma marked_everything {A} (l : list A) : marked (replicate (length l) true) l = l.
Proof. induction l as [|x l IH]; [done|]. unfold marked in *. cbn [length replicate zip zip_with List.filter fst map snd]. f_equal. exact IH. Qed.

Lemma nothing_unused p entry all : names_in_range p -> (forall x, in_range p x -> reachable p entry all x) ->
  remove_unused_functions p entry all = Some (Program (p_functions p) (p_globals p) [] (p_hosts p)).
Proof.
  intros Hp Hall. destruct (ir_reach_spec p entry all Hp) as (fs & gs & E & Hfs & Hgs & Hf & Hg). unfold remove_unused_functions. rewrite E. cbn [mbind option_bind].
  rewrite (all_true fs), (all_true gs), Hfs, Hgs, !marked_everything.
  2: intros i Hi; apply Hg, Hall; cbn; lia. 2: intros i Hi; apply Hf, Hall; cbn; lia.
  set (fm := numbers 0 (replicate (length (p_functions p)) true)). set (gm := numbers 0 (replicate (length (p_globals p)) true)). destruct Hp as [Hpf Hpg].
  assert (forall x, in_range p x -> shift gm fm x = x) as Hstill by (intros [f|g] Hx; cbn [shift]; f_equal; [exact (numbers_all 0 _ f Hx)|exact (numbers_all 0 _ g Hx)]).
  f_equal. f_equal; apply map_id_ext; intros x Hx.
  - rewrite Forall_forall in Hpf. apply still_function. eapply Forall_impl; [by apply Hpf|exact Hstill].
  - rewrite Forall_forall in Hpg. apply still_global. eapply Forall_impl; [by apply Hpg|exact Hstill].
Qed.

Lemma unused_kept p entry all : names_in_range p -> exists q, remove_unused_functions p entry all = Some q.
Proof.
  intros Hp. destruct (ir_reach_spec p entry all Hp) as (fs & gs & E & _). unfold remove_unused_functions. rewrite E. by eexists.
Qed.
