(* ===== verification/OptimizeFailures.v ===== *)
(** * OptimizeFailures: the checks of a kind go

    A run that never enters a block of the kind dropped does the same in the function
    that is left. Where the checks of overflow go, an operation that left a flag becomes
    plain arithmetic, with the same word and no flag. *)

From S2P Require Import Prelude Arith Ir IrFold IrVerify IrSem Optimize OptimizeCounts IrSim OptimizeLocal OptimizeBlock Program Reach ReachSpec OptimizeProgram.

(** The number that an operation with a check stands for. *)
Definition exact_result (op : ir_op) (x y : Z) : Z :=
  match op with IR_ADD_OV => x + y | IR_SUB_OV => x - y | _ => x * y end.

(** An operation that leaves a flag for an overflow gives the wrapped result. *)
Class Overflows {M} (mc : machine M) : Prop := {
  overflow_word inst xs m v : is_overflow (i_op inst) = true -> mc_other mc (shape inst) xs m = Some v ->
    exists x y rest, xs = Some x :: Some y :: rest /\ trim mc (i_type inst) (v_word v) = trim mc (i_type inst) (exact_result (i_op inst) x y)
}.

Section Failures.
Context {M : Type} (mc : machine M) `{!Lawful mc} `{!Overflows mc}.

(** ** States with the same words *)

Section States.
Context (D : nat -> Prop).

(** The temporaries in [D] may have lost their flags. *)
Definition same_value (t : nat) (v v' : value) : Prop := v_word v = v_word v' /\ (~ D t -> v_flags v = v_flags v').

Definition same_words (s s' : temps) : Prop :=
  forall t, match s !! t, s' !! t with Some v, Some v' => same_value t v v' | None, None => True | _, _ => False end.

Lemma same_words_refl s : same_words s s.
Proof. intros t. by destruct (s !! t). Qed.

Lemma read_same s s' o : same_words s s' -> option_map (option_map v_word) (read mc s o) = option_map (option_map v_word) (read mc s' o).
Proof.
  intros H. unfold read. destruct (o_kind o) as [|t| | | | | |]; try done. specialize (H t). destruct (s !! t), (s' !! t); try done.
  destruct H as [E _]. cbn. by rewrite E.
Qed.

Lemma words_same s s' os : same_words s s' -> words mc s os = words mc s' os.
Proof.
  intros H. induction os as [|o os IH]; [done|]. cbn [words]. rewrite <- IH. pose proof (read_same s s' o H) as E.
  destruct (read mc s o) as [x|], (read mc s' o) as [x'|]; try done. cbn in *. injection E as E. by rewrite E.
Qed.

Lemma word_same s s' o : same_words s s' -> word mc s o = word mc s' o.
Proof.
  intros H. unfold word, read_value. pose proof (read_same s s' o H) as E.
  destruct (read mc s o) as [[x|]|], (read mc s' o) as [[x'|]|]; try done. cbn in *. by injection E as ->.
Qed.

(** The flags of an operand whose temporary has kept them. *)
Lemma flags_same s s' o v : same_words s s' -> (forall t, o_kind o = IR_TEMP t -> ~ D t) -> read_value mc s o = Some v -> read_value mc s' o = Some v.
Proof.
  intros H Hd. unfold read_value, read. destruct (o_kind o) as [|t| | | | | |]; try done. specialize (H t). destruct (s !! t) as [w|], (s' !! t) as [w'|]; try done.
  destruct H as [E F]. specialize (F (Hd t eq_refl)). destruct w, w'. cbn in *. by subst.
Qed.

Definition same_outcome (o o' : @outcome M) : Prop :=
  match o, o' with
  | Next s m, Next s' m' => same_words s s' /\ m = m'
  | Goes b s m, Goes b' s' m' => b = b' /\ same_words s s' /\ m = m'
  | Returns x m, Returns x' m' => x = x' /\ m = m'
  | _, _ => False
  end.

Lemma same_insert s s' r type v v' : same_words s s' -> same_value r v v' -> same_words (<[r := trim_value mc type v]> s) (<[r := trim_value mc type v']> s').
Proof.
  intros H [E F] t. destruct (decide (r = t)) as [<-|Hne]; [rewrite !lookup_insert_eq|rewrite !lookup_insert_ne by done; apply H].
  unfold same_value, trim_value. cbn. by rewrite E.
Qed.

Lemma define_same s s' inst v s1 : same_words s s' -> define_result mc s inst v = Some s1 ->
  exists s1', define_result mc s' inst v = Some s1' /\ same_words s1 s1'.
Proof.
  intros H. unfold define_result. destruct (i_result inst) as [r|]; [|intros [= <-]; by exists s'].
  destruct v as [v|]; [|done]. cbn. intros [= <-]. eexists. split; [done|]. by apply same_insert.
Qed.

(** What an instruction asks of the temporaries without flags. *)
Definition reads_no_flag (inst : ir_inst) : Prop :=
  (i_op inst = IR_FLAG \/ i_op inst = IR_BRANCH_OV -> forall t, o_kind (i_a inst) = IR_TEMP t -> ~ D t) /\
  (i_op inst = IR_COPY -> forall t, i_result inst = Some t -> D t \/ forall t', ~ D t').

Lemma result_same s s' m inst v : same_words s s' -> reads_no_flag inst -> result mc s m inst = Some v ->
  exists v', result mc s' m inst = Some v' /\ forall r, i_result inst = Some r -> same_value r v v'.
Proof.
  intros H [Hf Hc]. assert (forall w, Some w = Some v -> exists v', Some w = Some v' /\ forall r, i_result inst = Some r -> same_value r v v') as Hsame.
  { intros w [= ->]. exists v. by split. }
  unfold result. rewrite !(word_same s s') by done. rewrite (words_same s s') by done. destruct (is_integer_op (i_op inst)); [intros E; rewrite E; exact (Hsame v eq_refl)|].
  destruct (i_op inst) eqn:Op; try (intros E; rewrite E; exact (Hsame v eq_refl)).
  - intros E. pose proof (read_same s s' (i_a inst) H) as R. unfold read_value in *. destruct (read mc s (i_a inst)) as [[x|]|] eqn:Ex, (read mc s' (i_a inst)) as [[x'|]|] eqn:Ex'; try done.
    cbn in *. injection E as ->. injection R as R. exists x'. split; [done|]. intros r Hr. split; [done|]. intros Hd.
    destruct (Hc eq_refl r Hr) as [|Hnone]; [done|]. pose proof (flags_same s s' (i_a inst) v H (fun t _ => Hnone t)) as F. unfold read_value in F. rewrite Ex, Ex' in F. cbn in F. by injection (F eq_refl) as ->.
  - intros E. destruct (read_value mc s (i_a inst)) as [x|] eqn:Ex; [|done]. rewrite (flags_same s s' (i_a inst) x H (Hf (or_introl eq_refl)) Ex). rewrite E. exact (Hsame v eq_refl).
Qed.

Lemma exec_same s s' m inst o : same_words s s' -> reads_no_flag inst -> exec_inst mc s m inst = Some o ->
  exists o', exec_inst mc s' m inst = Some o' /\ same_outcome o o'.
Proof.
  intros H Hr. unfold exec_inst. rewrite (words_same s s') by done. destruct (words mc s' (operands inst)) as [xs|] eqn:Exs; [|done]. cbn [mbind option_bind].
  assert (forall o1 b, goes_to_block b s m = Some o1 -> exists o', goes_to_block b s' m = Some o' /\ same_outcome o1 o') as Hgoes.
  { intros o1 b. unfold goes_to_block. destruct (o_kind b); try done. intros [= <-]. by eexists. }
  assert (exec_effect mc s m inst = Some o -> exists o', exec_effect mc s' m inst = Some o' /\ same_outcome o o') as Heffect.
  { unfold exec_effect. rewrite (words_same s s') by done. rewrite Exs. cbn [mbind option_bind]. destruct (mc_effect mc (shape inst) xs m) as [[x m']|]; [|done].
    destruct (define_result mc s inst _) as [s1|] eqn:Ed; [|done]. cbn [mbind option_bind]. intros [= <-]. destruct (define_same s s' inst _ s1 H Ed) as (s1' & -> & L). by eexists. }
  assert (exec_plain mc s m inst = Some o -> exists o', exec_plain mc s' m inst = Some o' /\ same_outcome o o') as Hplain.
  { unfold exec_plain. destruct (result mc s m inst) as [v|] eqn:Ev; [|done]. destruct (result_same s s' m inst v H Hr Ev) as (v' & -> & Hv). cbn [mbind option_bind].
    unfold define_result. destruct (i_result inst) as [r|]; cbn; intros [= <-]; eexists; (split; [done|]); [|by split]. split; [|done]. apply same_insert; [done|by apply Hv]. }
  unfold exec_op. destruct (i_op inst) eqn:Op; cbn [has_effect]; try exact Hplain; try exact Heffect; try done.
  - rewrite !(word_same s s') by done. destruct (word mc s' (i_a inst)); [|done]. cbn [mbind option_bind]. destruct (word mc s' (i_b inst)); [|done]. cbn [mbind option_bind].
    destruct (mc_store _ _ _ _ _); [|done]. cbn [mbind option_bind]. destruct (define_result mc s inst None) as [s1|] eqn:Ed; [|done]. cbn [mbind option_bind]. intros [= <-].
    destruct (define_same s s' inst _ s1 H Ed) as (s1' & -> & L). by eexists.
  - apply Hgoes.
  - rewrite (word_same s s') by done. destruct (word mc s' (i_a inst)); [|done]. apply Hgoes.
  - destruct (read_value mc s (i_a inst)) as [x|] eqn:Ex; [|done]. rewrite (flags_same s s' (i_a inst) x H) by (try done; apply (proj1 Hr); by right).
    cbn [mbind option_bind]. destruct (v_flags x); [|done]. apply Hgoes.
  - pose proof (read_same s s' (i_a inst) H) as R. destruct (read mc s (i_a inst)) as [x|], (read mc s' (i_a inst)) as [x'|]; try done. cbn in *. injection R as R. intros [= <-].
    eexists. split; [done|]. by split.
Qed.

(** An operation that loses its flag. *)
Lemma plain_result op n x y : is_overflow op = true -> integer_result (without_overflow op) n x y = Some (wrap n (exact_result op x y)).
Proof. unfold integer_result. destruct op; try done; intros _; cbn [without_overflow meaning exact_result]; by autorewrite with wrap. Qed.

Lemma words_two s inst x y rest : words mc s (operands inst) = Some (Some x :: Some y :: rest) -> word mc s (i_a inst) = Some x /\ word mc s (i_b inst) = Some y.
Proof.
  unfold operands. cbn [words]. unfold word, read_value. destruct (read mc s (i_a inst)) as [a|]; [|done]. destruct (read mc s (i_b inst)) as [b|]; [|done].
  cbn [mbind option_bind]. destruct (read mc s (i_c inst)); [|done]. cbn [mbind option_bind]. destruct (words mc s (i_args inst)); [|done]. cbn [mbind option_bind].
  intros [= Ea Eb _]. destruct a, b; cbn in *; by simplify_eq.
Qed.

Lemma overflow_same s s' m inst o : same_words s s' -> is_overflow (i_op inst) = true -> o_type (i_a inst) = i_type inst -> (forall r, i_result inst = Some r -> D r) ->
  exec_inst mc s m inst = Some o -> exists o', exec_inst mc s' m (plain_overflow inst) = Some o' /\ same_outcome o o'.
Proof.
  intros H Ho Et Hd. unfold plain_overflow. rewrite Ho. rewrite exec_is_plain by (by destruct (i_op inst)). rewrite exec_is_plain by (by cbn; destruct (i_op inst)).
  change (operands (with_field (with_ops inst (without_overflow (i_op inst)) (i_a inst) (i_b inst) (i_c inst)) 0)) with (operands inst).
  rewrite (words_same s s') by done. destruct (words mc s' (operands inst)) as [xs|] eqn:Exs; [|done]. cbn [mbind option_bind]. unfold exec_plain.
  assert (result mc s m inst = mc_other mc (shape inst) xs m) as -> by (unfold result; rewrite (words_same s s'), Exs by done; by destruct (i_op inst)).
  destruct (mc_other mc (shape inst) xs m) as [v|] eqn:Ev; [|done]. cbn [mbind option_bind].
  destruct (overflow_word inst xs m v Ho Ev) as (x & y & rest & -> & Ew). destruct (words_two s' inst x y rest Exs) as [Ea Eb].
  assert (forall op, is_overflow op = true -> is_integer_op (without_overflow op) = true) as Hint by (by intros []).
  unfold result. cbn [i_op i_a i_b with_field with_ops]. rewrite Hint by done. rewrite Ea. cbn [mbind option_bind]. rewrite Eb. cbn [mbind option_bind]. rewrite plain_result by done. cbn [mbind option_bind]. rewrite Et.
  unfold define_result. cbn [i_result with_field with_ops i_type]. destruct (i_result inst) as [r|]; cbn; intros [= <-]; eexists; (split; [done|]); [|by split].
  split; [|done]. unfold trim_value. cbn [v_word v_flags]. change (wrap (mc_bits mc (i_type inst))) with (trim mc (i_type inst)). rewrite (trim_trim mc), Ew.
  intros t. destruct (decide (r = t)) as [<-|Hne]; [rewrite !lookup_insert_eq|rewrite !lookup_insert_ne by done; apply H].
  split; [done|]. intros Hn. by destruct (Hn (Hd r eq_refl)).
Qed.
End States.

(** ** Blocks *)

Section Function.
Context (kind : ir_fail) (f : ir_function) (fails : list ir_fail).

(** The temporaries whose flags go, with those that are copies. *)
Definition loses (t : nat) : Prop :=
  kind = IR_FAIL_CHECK /\ exists inst, inst ∈ all_insts f /\ i_result inst = Some t /\ (is_overflow (i_op inst) = true \/ i_op inst = IR_COPY).

(** How the lowering uses the operations with a check: the branch on the flag is to a
    block of the checks, no flag is read elsewhere, and the operands have the type of
    the result. *)
Record checks_apart : Prop := {
  ca_flag inst t : inst ∈ all_insts f -> i_op inst = IR_FLAG -> o_kind (i_a inst) = IR_TEMP t -> ~ loses t;
  ca_branch inst : inst ∈ all_insts f -> i_op inst = IR_BRANCH_OV -> fails_of fails (i_c inst) = Some IR_FAIL_CHECK \/ fails_of fails (i_b inst) = Some IR_FAIL_CHECK;
  ca_last insts inst rest : insts ∈ fn_blocks f -> insts = rest ++ [inst] -> forall i, i ∈ rest -> i_op i <> IR_BRANCH_OV;
  ca_typed inst : inst ∈ all_insts f -> is_overflow (i_op inst) = true -> o_type (i_a inst) = i_type inst
}.

Context (Hchecks : kind = IR_FAIL_CHECK -> checks_apart).

Lemma block_insts insts inst : insts ∈ fn_blocks f -> inst ∈ insts -> inst ∈ all_insts f.
Proof. intros Hi Hin. apply concat_elem. by exists insts. Qed.

Lemma no_flag_read insts inst rest i : insts ∈ fn_blocks f -> insts = rest ++ [inst] -> i ∈ rest -> reads_no_flag loses i.
Proof.
  intros Hb -> Hi. assert (i ∈ all_insts f) as Hall by (eapply block_insts; [exact Hb|apply elem_of_app; by left]). split.
  - intros [Op|Op] t Ht Hl; destruct (Hchecks (proj1 Hl)) as [Hflag Hbranch Hlast _]; [by apply (Hflag i t)|by apply (Hlast _ inst rest Hb eq_refl i)].
  - intros Op t Ht. destruct (decide (kind = IR_FAIL_CHECK)) as [Hk|Hk]; [left; split; [done|]; exists i; by eauto|right; by intros t' [? _]].
Qed.

(** One instruction before the last. *)
Lemma exec_kept s s' m i o : i ∈ all_insts f -> reads_no_flag loses i -> same_words loses s s' -> exec_inst mc s m i = Some o ->
  exists o', exec_inst mc s' m (if bool_decide (kind = IR_FAIL_CHECK) then plain_overflow i else i) = Some o' /\ same_outcome loses o o'.
Proof.
  intros Hi Hr H E. case_bool_decide as Hk; [|by eapply exec_same]. destruct (is_overflow (i_op i)) eqn:Ho.
  - eapply overflow_same; [done|done| |intros r Er; split; [done|]; exists i; by eauto|done]. by eapply ca_typed; [apply Hchecks|..].
  - unfold plain_overflow. rewrite Ho. by eapply exec_same.
Qed.

(** A branch whose failing arm is not taken. *)
Lemma exec_arm s s' m l arm o b1 s1 m1 : same_words loses s s' -> is_Some (words mc s (operands l)) -> goes_to_block arm s m = Some o -> o = Goes b1 s1 m1 ->
  exists o', exec_inst mc s' m (with_ops l IR_JUMP arm none none) = Some o' /\ same_outcome loses o o'.
Proof.
  intros H Hw Hg ->. rewrite (words_same loses s s') in Hw by done. destruct Hw as [xs Hw]. apply words_operands in Hw as (_ & _ & _ & Hargs).
  unfold goes_to_block in Hg. destruct (o_kind arm) as [| | | | | |b|] eqn:Ek; try done. injection Hg as <- <- <-. unfold exec_inst.
  destruct (operands_words mc s' (with_ops l IR_JUMP arm none none)) as [ys ->]; cbn [i_a i_b i_c i_args with_ops]; [unfold read; rewrite Ek; by eexists|by eexists|by eexists|done|].
  cbn [mbind option_bind]. unfold exec_op. cbn [i_op with_ops i_a]. unfold goes_to_block. rewrite Ek. by eexists.
Qed.

Lemma exec_last s s' m insts rest l l' o : insts ∈ fn_blocks f -> insts = rest ++ [l] -> same_words loses s s' ->
  drop_branch kind fails (if bool_decide (kind = IR_FAIL_CHECK) then plain_overflow l else l) = Some l' ->
  (forall b s1 m1, o = Goes b s1 m1 -> fails !! b <> Some kind) ->
  exec_inst mc s m l = Some o -> exists o', exec_inst mc s' m l' = Some o' /\ same_outcome loses o o'.
Proof.
  intros Hb Er H Ed Hav E. assert (l ∈ all_insts f) as Hl by (eapply block_insts; [done|rewrite Er; apply elem_of_app; right; by left]).
  assert (i_op l <> IR_BRANCH_OV \/ kind <> IR_FAIL_CHECK -> reads_no_flag loses l) as Hr.
  { intros Hno. split.
    - intros [Op|Op] t Ht Hlo; destruct (Hchecks (proj1 Hlo)) as [Hflag _ _ _]; [by apply (Hflag l t)|]. destruct Hno as [|Hno]; [done|]. by destruct Hlo.
    - intros Op t Ht. destruct (decide (kind = IR_FAIL_CHECK)) as [Hk|Hk]; [left; split; [done|]; exists l; by eauto|right; by intros t' [? _]]. }
  destruct (decide (i_op l = IR_BRANCH \/ i_op l = IR_BRANCH_OV)) as [Op|Op].
  2: { assert (drop_branch kind fails (if bool_decide (kind = IR_FAIL_CHECK) then plain_overflow l else l) =
               Some (if bool_decide (kind = IR_FAIL_CHECK) then plain_overflow l else l)) as E2.
       { case_bool_decide; unfold plain_overflow, drop_branch; destruct (i_op l) eqn:Ol; cbn [is_overflow without_overflow i_op with_field with_ops]; rewrite ?Ol; try done; by destruct Op; auto. }
       rewrite E2 in Ed. injection Ed as <-. apply (exec_kept s s' m l o Hl); [apply Hr; left; tauto|done|done]. }
  assert ((if bool_decide (kind = IR_FAIL_CHECK) then plain_overflow l else l) = l) as El by (case_bool_decide; [|done]; unfold plain_overflow; by destruct Op as [-> | ->]).
  rewrite El in Ed. clear El. assert (is_Some (words mc s (operands l))) as Hw by (unfold exec_inst in E; destruct (words mc s (operands l)); [by eexists|done]).
  assert (exists taken : bool, goes_to_block (if taken then i_b l else i_c l) s m = Some o) as [taken Hg].
  { unfold exec_inst in E. destruct Hw as [xs Hw]. rewrite Hw in E. cbn [mbind option_bind] in E. unfold exec_op in E. destruct Op as [Op|Op]; rewrite Op in E.
    - destruct (word mc s (i_a l)) as [x|]; [|done]. by exists (negb (x =? 0)).
    - destruct (read_value mc s (i_a l)) as [v|]; [|done]. cbn [mbind option_bind] in E. destruct (v_flags v) as [fl|]; [|done]. by exists (Z.testbit fl 0). }
  assert (exists b, o = Goes b s m /\ o_kind (if taken then i_b l else i_c l) = IR_BLOCK b) as (b & -> & Ek).
  { unfold goes_to_block in Hg. destruct (o_kind (if taken then i_b l else i_c l)) as [| | | | | |b|]; try done. injection Hg as <-. by exists b. }
  specialize (Hav b s m eq_refl). assert (drop_branch kind fails l = (c ← fails_of fails (i_c l);
      if bool_decide (c = kind) then Some (with_ops l IR_JUMP (i_b l) none none)
      else b ← fails_of fails (i_b l); Some (if bool_decide (b = kind) then with_ops l IR_JUMP (i_c l) none none else l))) as E2 by (unfold drop_branch; by destruct Op as [-> | ->]).
  rewrite E2 in Ed. clear E2. destruct (fails_of fails (i_c l)) as [c|] eqn:Ec; [|done]. cbn [mbind option_bind] in Ed. case_bool_decide as Hc.
  - subst c. injection Ed as <-. destruct taken; [by eapply exec_arm|]. exfalso. unfold fails_of in Ec. rewrite Ek in Ec. done.
  - destruct (fails_of fails (i_b l)) as [c'|] eqn:Eb; [|done]. cbn [mbind option_bind] in Ed. injection Ed as <-. case_bool_decide as Hc'.
    + subst c'. destruct taken; [|by eapply exec_arm]. exfalso. unfold fails_of in Eb. rewrite Ek in Eb. done.
    + apply (exec_same loses s s' m l _ H); [|done]. apply Hr. destruct (decide (kind = IR_FAIL_CHECK)) as [Hk|]; [|by right].
      left. intros Ob. destruct (ca_branch (Hchecks Hk) l Hl Ob) as [Hx|Hx]; congruence.
Qed.

Lemma exec_dropped insts insts' s s' m out : insts ∈ fn_blocks f -> drop_last kind fails (drop_checks kind insts) = Some insts' ->
  same_words loses s s' -> (forall b s1 m1, out = Goes b s1 m1 -> fails !! b <> Some kind) -> exec_block mc s m insts = Some out ->
  exists out', exec_block mc s' m insts' = Some out' /\ same_outcome loses out out'.
Proof.
  intros Hb Ed H Hav E. destruct (last insts) as [l|] eqn:El; [|apply last_None in El; by subst]. apply last_Some in El as [rest Er].
  set (h := fun i => if bool_decide (kind = IR_FAIL_CHECK) then plain_overflow i else i).
  assert (drop_checks kind insts = map h rest ++ [h l]) as Ec by (unfold drop_checks, h; subst insts; case_bool_decide; rewrite ?map_app; [done|by rewrite map_id]).
  unfold drop_last in Ed. rewrite Ec, last_snoc in Ed. destruct (drop_branch kind fails (h l)) as [l'|] eqn:Ed'; [|done]. cbn [mbind option_bind] in Ed. injection Ed as <-.
  rewrite length_app, insert_app_r_alt by (cbn; lia). replace (length (map h rest) + length [h l] - 1 - length (map h rest))%nat with O by (cbn; lia).
  change (<[O:=l']> [h l]) with [l'].
  assert (forall i, i ∈ rest -> i ∈ all_insts f /\ reads_no_flag loses i) as Hrest.
  { intros i Hi. split; [eapply block_insts; [done|rewrite Er; apply elem_of_app; by left]|by eapply no_flag_read]. }
  assert (forall s s' m o, same_words loses s s' -> (forall b s1 m1, o = Goes b s1 m1 -> fails !! b <> Some kind) -> exec_inst mc s m l = Some o ->
    exists o', exec_inst mc s' m l' = Some o' /\ same_outcome loses o o') as Hlast by (intros; by eapply exec_last).
  clear Hb Ec Ed'. subst insts. revert s s' m H E. induction rest as [|i rest IH]; intros s s' m H; cbn [app map exec_block].
  - destruct (exec_inst mc s m l) as [o|] eqn:Eo; [|done]. destruct o as [s1 m1|b s1 m1|x m1]; [done|..]; intros [= <-];
      destruct (Hlast s s' m _ H Hav Eo) as (o' & -> & L); destruct o'; try done; by eexists.
  - destruct (Hrest i ltac:(by left)) as [Hi Hri]. destruct (exec_inst mc s m i) as [o|] eqn:Eo; [|done].
    destruct (exec_kept s s' m i o Hi Hri H Eo) as (o' & Eo' & L). unfold h at 1. rewrite Eo'. destruct o as [s1 m1|b s1 m1|x m1], o' as [s2 m2|b2 s2 m2|x2 m2]; try done.
    + destruct L as [L ->]. apply IH; [|done]. intros j Hj. apply Hrest. by right.
    + intros [= <-]. by eexists.
    + intros [= <-]. by eexists.
Qed.

(** ** Runs *)

(** The run from [p] on never comes to a block of the kind. *)
Definition avoids (p : @point M) : Prop := forall n q, blocks_from mc f n p = More q -> fails !! pt_block q <> Some kind.

Definition same_result (r r' : @run_result M) : Prop :=
  match r with
  | Done x m => r' = Done x m
  | Wrong => True
  | More q => exists q', r' = More q' /\ pt_block q' = pt_block q /\ pt_memory q' = pt_memory q /\ same_words loses (pt_temps q) (pt_temps q')
  end.

Lemma runs_dropped g n p p' : (forall b insts, fn_blocks f !! b = Some insts -> exists insts', fn_blocks g !! b = Some insts' /\ drop_last kind fails (drop_checks kind insts) = Some insts') ->
  avoids p -> pt_block p' = pt_block p -> pt_memory p' = pt_memory p -> same_words loses (pt_temps p) (pt_temps p') ->
  same_result (blocks_from mc f n p) (blocks_from mc g n p').
Proof.
  intros Hg. revert p p'. induction n as [|n IH]; intros [b s m] [b' s' m'] Hav; cbn [pt_block pt_memory pt_temps]; intros -> -> H; cbn [blocks_from pt_block pt_memory pt_temps].
  { exists (Point b s' m). done. }
  destruct (exec_block mc s m (body f b)) as [out|] eqn:E; [|done]. destruct (fn_blocks f !! b) as [insts|] eqn:Eb.
  2: { unfold body in E. by rewrite Eb in E. }
  destruct (Hg b insts Eb) as (insts' & Eb' & Ed). unfold body in E. rewrite Eb in E. cbn in E.
  assert (forall b1 s1 m1, out = Goes b1 s1 m1 -> avoids (Point b1 s1 m1)) as Hnext.
  { intros b1 s1 m1 -> k q Hq. apply (Hav (S k)). cbn [blocks_from pt_block pt_memory pt_temps]. unfold body. rewrite Eb. cbn. by rewrite E. }
  destruct (exec_dropped insts insts' s s' m out) as (out' & E' & L); [by eapply list_elem_of_lookup_2|done|done| |done|].
  { intros b1 s1 m1 Ho. apply (Hnext b1 s1 m1 Ho O (Point b1 s1 m1)). done. }
  unfold body. rewrite Eb'. cbn [default from_option id]. rewrite E'. destruct out as [s1 m1|b1 s1 m1|x m1], out' as [s2 m2|b2 s2 m2|x2 m2]; try done.
  - destruct L as (<- & L & <-). apply IH; [by apply Hnext|done..].
  - destruct L as [<- <-]. done.
Qed.
End Function.
End Failures.

(** ** The passes over the lists *)

Section Lists.
Context (kind : ir_fail).

(** The branches of a block name blocks that exist. *)
Definition arms_exist (ks : list ir_fail) (insts : list ir_inst) : Prop :=
  forall l, last insts = Some l -> i_op l = IR_BRANCH \/ i_op l = IR_BRANCH_OV -> is_Some (fails_of ks (i_b l)) /\ is_Some (fails_of ks (i_c l)).

(** No branch of a block goes to a block of the kind. *)
Definition no_failing_arm (ks : list ir_fail) (insts : list ir_inst) : Prop :=
  forall l, last insts = Some l -> i_op l = IR_BRANCH \/ i_op l = IR_BRANCH_OV -> fails_of ks (i_b l) <> Some kind /\ fails_of ks (i_c l) <> Some kind.

(** What the blocks of the kind name. *)
Definition failing_names (ks : list ir_fail) (blocks : list (list ir_inst)) : list item :=
  zip ks blocks ≫= fun '(k, insts) => if bool_decide (k = kind) then insts ≫= inst_names else [].

(** [gs'] is [gs] with the literals among [names] marked. *)
Definition dropped_in (names : list item) (gs gs' : list program_global) : Prop :=
  length gs' = length gs /\
  forall i g, gs !! i = Some g -> gs' !! i = Some (if is_literal g && bool_decide (Data i ∈ names) then mark_dropped g else g).

Lemma dropped_nothing gs : dropped_in [] gs gs.
Proof. split; [done|]. intros i g Hg. rewrite bool_decide_false by apply not_elem_of_nil. by rewrite andb_false_r. Qed.

Lemma dropped_app names names' gs gs1 gs2 : dropped_in names gs gs1 -> dropped_in names' gs1 gs2 -> dropped_in (names ++ names') gs gs2.
Proof.
  intros [L1 H1] [L2 H2]. split; [congruence|]. intros i g Hg. rewrite (H2 i _ (H1 i g Hg)).
  assert (is_literal (if is_literal g && bool_decide (Data i ∈ names) then mark_dropped g else g) = is_literal g) as -> by (by destruct (is_literal g && _)).
  rewrite (bool_decide_ext (Data i ∈ names ++ names') (Data i ∈ names \/ Data i ∈ names')), bool_decide_or by apply elem_of_app.
  destruct (is_literal g), (bool_decide (Data i ∈ names)), (bool_decide (Data i ∈ names')); done.
Qed.

Definition data_below (gs : list program_global) (names : list item) : Prop := forall i, Data i ∈ names -> (i < length gs)%nat.

Lemma drop_literal_spec o gs : data_below gs (operand_names o) -> exists gs', drop_literal o gs = Some gs' /\ dropped_in (operand_names o) gs gs'.
Proof.
  unfold drop_literal, operand_names, data_below. destruct (o_kind o) as [| | | |i|j| |]; intros H; try (exists gs; split; [done|]; apply dropped_nothing).
  - destruct (lookup_lt_is_Some_2 gs i) as [g Hg]; [apply H; by left|]. rewrite Hg. cbn [mbind option_bind]. eexists. split; [done|]. split; [by destruct (is_literal g); rewrite ?length_insert|].
    intros k w Hw. destruct (decide (k = i)) as [->|Hne].
    + rewrite bool_decide_true by by left. rewrite andb_true_r. replace w with g by congruence. destruct (is_literal g); [|done].
      rewrite list_lookup_insert_eq; [done|by eapply lookup_lt_Some].
    + rewrite bool_decide_false by (intros [=]%list_elem_of_singleton; done). rewrite andb_false_r. destruct (is_literal g); [|done]. by rewrite list_lookup_insert_ne.
Qed.

Lemma each_dropped {A} (step : A -> list program_global -> option (list program_global)) (names : A -> list item) xs gs :
  (forall x gs, data_below gs (names x) -> exists gs', step x gs = Some gs' /\ dropped_in (names x) gs gs') ->
  data_below gs (xs ≫= names) -> exists gs', each step xs gs = Some gs' /\ dropped_in (xs ≫= names) gs gs'.
Proof.
  intros Hs. revert gs. induction xs as [|x xs IH]; intros gs H; [exists gs; split; [done|apply dropped_nothing]|]. cbn [mbind list_bind] in H.
  destruct (Hs x gs) as (gs1 & E1 & D1); [intros i Hi; apply H, elem_of_app; by left|]. destruct (IH gs1) as (gs2 & E2 & D2).
  { intros i Hi. rewrite (proj1 D1). apply H, elem_of_app. by right. }
  exists gs2. split; [cbn; by rewrite E1|]. cbn [mbind list_bind]. by eapply dropped_app.
Qed.

Lemma drop_literals_spec insts gs : data_below gs (insts ≫= inst_names) -> exists gs', drop_literals insts gs = Some gs' /\ dropped_in (insts ≫= inst_names) gs gs'.
Proof. apply each_dropped. intros inst gs1. apply each_dropped. apply drop_literal_spec. Qed.

(** ** A block, a function, a program *)

Lemma drop_branch_spec ks l : (i_op l = IR_BRANCH \/ i_op l = IR_BRANCH_OV -> is_Some (fails_of ks (i_b l)) /\ is_Some (fails_of ks (i_c l))) ->
  exists l', drop_branch kind ks l = Some l' /\
    (i_op l' = IR_BRANCH \/ i_op l' = IR_BRANCH_OV -> fails_of ks (i_b l') <> Some kind /\ fails_of ks (i_c l') <> Some kind).
Proof.
  intros H. destruct (decide (i_op l = IR_BRANCH \/ i_op l = IR_BRANCH_OV)) as [Op|Op].
  - destruct (H Op) as [[b Hb] [c Hc]]. unfold drop_branch. rewrite Hb, Hc. cbn [mbind option_bind].
    assert (forall arm, i_op (with_ops l IR_JUMP arm none none) = IR_BRANCH \/ i_op (with_ops l IR_JUMP arm none none) = IR_BRANCH_OV -> False) as Hj by (intros arm [?|?]; done).
    destruct (bool_decide (c = kind)) eqn:Ec; [destruct Op as [-> | ->]; eexists; (split; [done|]); by intros ?%Hj|].
    destruct (bool_decide (b = kind)) eqn:Eb; [destruct Op as [-> | ->]; eexists; (split; [done|]); by intros ?%Hj|].
    apply bool_decide_eq_false in Ec, Eb. exists l. split; [by destruct Op as [-> | ->]|]. intros _. rewrite Hb, Hc. split; congruence.
  - exists l. split; [unfold drop_branch; destruct (i_op l); try done; destruct Op; auto|]. by intros ?%Op.
Qed.

Lemma last_snoc_insert {A} (l : list A) x y : last l = Some x -> last (<[length l - 1 := y]>%nat l) = Some y.
Proof.
  intros [rest ->]%last_Some. rewrite length_app, insert_app_r_alt by (cbn; lia). replace (length rest + length [x] - 1 - length rest)%nat with O by (cbn; lia). apply last_snoc.
Qed.

Lemma plain_overflow_arms inst : i_op (plain_overflow inst) = IR_BRANCH \/ i_op (plain_overflow inst) = IR_BRANCH_OV -> plain_overflow inst = inst.
Proof. unfold plain_overflow. destruct (is_overflow (i_op inst)) eqn:E; [|done]. cbn. destruct (i_op inst); try done; by intros [?|?]. Qed.

Lemma drop_last_spec ks insts : arms_exist ks insts -> exists insts', drop_last kind ks (drop_checks kind insts) = Some insts' /\ no_failing_arm ks insts'.
Proof.
  intros H. unfold drop_last. destruct (last (drop_checks kind insts)) as [l|] eqn:El.
  - destruct (drop_branch_spec ks l) as (l' & -> & Hl').
    + intros Op. unfold drop_checks in El. case_bool_decide; [|by apply H]. rewrite fmap_last in El. apply fmap_Some in El as (i & Hi & ->).
      rewrite plain_overflow_arms in Op |- * by done. by apply H.
    + eexists. split; [done|]. intros k Hk. erewrite last_snoc_insert in Hk by done. by injection Hk as <-.
  - eexists. split; [done|]. intros k Hk. congruence.
Qed.

Definition drops (ks : list ir_fail) (insts insts' : list ir_inst) : Prop :=
  drop_last kind ks (drop_checks kind insts) = Some insts' /\ no_failing_arm ks insts'.

Lemma drop_in_blocks_spec ks rest blocks gs : length rest = length blocks -> Forall (arms_exist ks) blocks -> data_below gs (failing_names rest blocks) ->
  exists blocks' gs', drop_in_blocks kind ks rest blocks gs = Some (blocks', gs') /\ Forall2 (drops ks) blocks blocks' /\ dropped_in (failing_names rest blocks) gs gs'.
Proof.
  revert rest gs. induction blocks as [|insts blocks IH]; intros [|k rest] gs; try done.
  - intros _ _ _. exists [], gs. split; [done|]. split; [constructor|apply dropped_nothing].
  - intros [= Hl] [Ha Has]%Forall_cons Hd. cbn [drop_in_blocks]. unfold drop_in_block. change (failing_names (k :: rest) (insts :: blocks)) with
      ((if bool_decide (k = kind) then insts ≫= inst_names else []) ++ failing_names rest blocks) in *.
    assert (exists gs1, (if bool_decide (k = kind) then drop_literals insts gs else Some gs) = Some gs1 /\ dropped_in (if bool_decide (k = kind) then insts ≫= inst_names else []) gs gs1)
      as (gs1 & E1 & D1).
    { case_bool_decide; [|exists gs; split; [done|apply dropped_nothing]]. apply drop_literals_spec. intros i Hi. apply Hd, elem_of_app. by left. }
    rewrite E1. cbn [mbind option_bind]. destruct (drop_last_spec ks insts Ha) as (insts' & E2 & N2). rewrite E2. cbn [mbind option_bind].
    destruct (IH rest gs1 Hl Has) as (blocks' & gs2 & E3 & F3 & D3); [intros i Hi; rewrite (proj1 D1); apply Hd, elem_of_app; by right|].
    rewrite E3. cbn [mbind option_bind]. do 2 eexists. split; [done|]. split; [by constructor|by eapply dropped_app].
Qed.

Definition program_names (fails : list (list ir_fail)) (fs : list program_function) : list item :=
  zip fails fs ≫= fun '(ks, f) => failing_names ks (fn_blocks (pf_code f)).

(** The kinds of the blocks of a function. *)
Definition kinds_of (f : program_function) (ks : list ir_fail) : Prop :=
  length ks = length (fn_blocks (pf_code f)) /\ Forall (arms_exist ks) (fn_blocks (pf_code f)).

Definition drops_function (ks : list ir_fail) (f g : program_function) : Prop :=
  exists blocks, g = with_code f (with_blocks (pf_code f) blocks) /\ Forall2 (drops ks) (fn_blocks (pf_code f)) blocks.

Lemma drop_in_functions_spec fails fs gs : Forall2 kinds_of fs fails -> data_below gs (program_names fails fs) ->
  exists fs' gs', drop_in_functions kind fails fs gs = Some (fs', gs') /\ dropped_in (program_names fails fs) gs gs' /\ length fs' = length fs /\
    forall i f ks, fs !! i = Some f -> fails !! i = Some ks -> exists g, fs' !! i = Some g /\ drops_function ks f g.
Proof.
  intros H. revert gs. induction H as [|f ks fs fails [Hl Ha] _ IH]; intros gs Hd.
  - exists [], gs. split; [done|]. split; [apply dropped_nothing|]. split; [done|]. intros i f ks Hi. done.
  - cbn [drop_in_functions]. change (program_names (ks :: fails) (f :: fs)) with (failing_names ks (fn_blocks (pf_code f)) ++ program_names fails fs) in *.
    destruct (drop_in_blocks_spec ks ks (fn_blocks (pf_code f)) gs Hl Ha) as (blocks & gs1 & E1 & F1 & D1); [intros i Hi; apply Hd, elem_of_app; by left|].
    rewrite E1. cbn [mbind option_bind]. destruct (IH gs1) as (fs' & gs2 & E2 & D2 & L2 & H2); [intros i Hi; rewrite (proj1 D1); apply Hd, elem_of_app; by right|].
    rewrite E2. cbn [mbind option_bind]. do 2 eexists. split; [done|]. split; [by eapply dropped_app|]. split; [by cbn; rewrite L2|].
    intros [|i] f' ks' Hf Hk; [|by apply (H2 i)]. injection Hf as <-. injection Hk as <-. eexists. split; [done|]. by exists blocks.
Qed.

Lemma failing_names_in ks blocks x : x ∈ failing_names ks blocks -> x ∈ (blocks ≫= fun insts => insts ≫= inst_names).
Proof.
  unfold failing_names. revert ks. induction blocks as [|insts blocks IH]; intros [|k ks]; cbn [zip zip_with mbind list_bind]; try done; try (by intros ?%elem_of_nil).
  rewrite !elem_of_app. intros [H|H]; [|right; by eapply IH]. left. case_bool_decide; [done|by apply elem_of_nil in H].
Qed.

Lemma program_names_below p fails fs : Forall (fun f => Forall (in_range p) (function_names f)) fs -> data_below (p_globals p) (program_names fails fs).
Proof.
  intros H. unfold program_names. revert fails. induction H as [|f fs Hf _ IH]; intros [|ks fails] i; cbn [zip zip_with mbind list_bind]; try (by intros ?%elem_of_nil).
  rewrite elem_of_app. intros [Hi|Hi]; [|by eapply IH]. apply failing_names_in in Hi. rewrite Forall_forall in Hf. exact (Hf _ Hi).
Qed.
End Lists.
