(* ===== verification/OptimizeSpec.v ===== *)
(** * OptimizeSpec: what the optimizer promises

    The theorems on src/antic/optimize.c: [optimize_function] ends with a function that
    stands for the one it got, each pass keeps what a function does, the result leaves
    nothing for the passes to do, and the blocks kept are those that a path reaches.
    A machine with a memory of bits shows that the laws the proofs ask for can hold. *)

From Stdlib Require Import Floats.SpecFloat.
From S2P Require Import Prelude Arith Double FloatBits Ir IrFold IrVerify IrDefinitions IrSem FloatSem Optimize IrSim OptimizeLocal OptimizeBlock OptimizeCopies OptimizeCounts OptimizeSingle OptimizeMemory OptimizeDead OptimizeGraph OptimizeMerge OptimizePeephole OptimizeRetarget OptimizeRenumber OptimizeMeasure OptimizeEnds OptimizeRounds OptimizeFunction OptimizeSettled OptimizeProgram OptimizeFailures.

(** ** A machine *)

(** The order of the operands of the commutative operations on floats. *)
Lemma add_swaps prec emax x y : SFadd prec emax x y = SFadd prec emax y x.
Proof.
  destruct x as [sx|sx| |sx mx ex], y as [sy|sy| |sy my ey]; cbn; try done; try (by destruct sx, sy).
  by rewrite Z.add_comm, Z.min_comm.
Qed.

Lemma mul_swaps prec emax x y : SFmul prec emax x y = SFmul prec emax y x.
Proof.
  destruct x as [sx|sx| |sx mx ex], y as [sy|sy| |sy my ey]; cbn; try done; try (by rewrite xorb_comm).
  by rewrite xorb_comm, Pos.mul_comm, Z.add_comm.
Qed.

Lemma eqb_swaps x y : SFeqb x y = SFeqb y x.
Proof.
  unfold SFeqb. destruct x as [sx|sx| |sx mx ex], y as [sy|sy| |sy my ey]; cbn; try done; try (by destruct sx); try (by destruct sy); try (by destruct sx, sy).
  destruct sx, sy; cbn; try done; rewrite (Z.compare_antisym ey ex); destruct (ey ?= ex); cbn; try done;
    change (Pos.compare_cont Eq mx my) with (mx ?= my)%positive; change (Pos.compare_cont Eq my mx) with (my ?= mx)%positive;
    rewrite (Pos.compare_antisym mx my); by destruct (mx ?= my)%positive.
Qed.

#[local] Opaque SFadd SFmul SFeqb.

(** A float operation on its words. *)
Definition word_other (bits : ir_type -> Z) (inst : ir_inst) (xs : list (option Z)) : option value :=
  match xs with
  | Some x :: y :: _ => (fun w => Value w None) <$> float_op bits inst x y
  | _ => None
  end.

(** An operation that leaves a flag: the exact result, and whether it leaves the type. *)
Definition word_overflow (inst : ir_inst) (xs : list (option Z)) : option value :=
  match xs with
  | Some x :: Some y :: _ =>
      let n := ir_fold_bits (i_type inst) in
      let z := exact_result (i_op inst) (sint n x) (sint n y) in
      Some (Value (exact_result (i_op inst) x y) (Some (b2u (negb (sint n z =? z)))))
  | _ => None
  end.

(** A memory is the number that its bits write. *)
Definition bits_of_type (type : ir_type) : Z := if target_sized type then 32 else ir_fold_bits type.
Definition load_bits (n p m : Z) : Z := wrap n (Z.shiftr m (8 * p)).
Definition store_bits (n p x m : Z) : Z := Z.lor (Z.ldiff m (Z.shiftl (Z.ones n) (8 * p))) (Z.shiftl (wrap n x) (8 * p)).

(** A machine with this memory, where every symbol is 4 and calls do nothing. *)
Definition word_machine : machine Z := {|
  mc_bits := bits_of_type;
  mc_named _ := 4;
  mc_load type p m := if p <? 0 then None else Some (load_bits (bits_of_type type) p m);
  mc_store type p x m := if p <? 0 then None else Some (store_bits (bits_of_type type) p x m);
  mc_other inst xs _ := if is_overflow (i_op inst) then word_overflow inst xs else word_other bits_of_type inst xs;
  mc_effect _ _ m := Some (Some 0, m)
|}.

Lemma wrap_bit n x i : 0 <= n -> 0 <= i -> Z.testbit (wrap n x) i = (i <? n) && Z.testbit x i.
Proof.
  intros Hn Hi. unfold wrap. destruct (Z.ltb_spec i n); [by rewrite Z.mod_pow2_bits_low by lia|by rewrite Z.mod_pow2_bits_high by lia].
Qed.

Lemma load_store_bits n p x m : 0 <= n -> 0 <= p -> load_bits n p (store_bits n p x m) = wrap n x.
Proof.
  intros Hn Hp. unfold load_bits, store_bits. apply Z.bits_inj'. intros i Hi. rewrite !wrap_bit by lia. destruct (Z.ltb_spec i n); [|done].
  rewrite !andb_true_l, Z.shiftr_spec, Z.lor_spec, Z.ldiff_spec, !Z.shiftl_spec by lia.
  replace (i + 8 * p - 8 * p) with i by lia. rewrite Z.ones_spec_low by lia. rewrite andb_false_r, orb_false_l, wrap_bit by lia. by destruct (Z.ltb_spec i n); [|lia].
Qed.

#[export] Instance word_machine_lawful : Lawful word_machine.
Proof.
  split.
  - intros type H. cbn. unfold bits_of_type. by rewrite H.
  - intros type. cbn. by destruct type.
  - intros type p v m m'. cbn [mc_store mc_load mc_bits word_machine]. destruct (Z.ltb_spec p 0); [done|]. intros [= <-].
    rewrite load_store_bits; [done| |lia]. unfold bits_of_type. by destruct type.
  - intros inst xs m x m' _ [= _ <-]. done.
Qed.

#[export] Instance word_machine_overflows : Overflows word_machine.
Proof.
  split. intros inst xs m v Ho. cbn [mc_other word_machine shape i_op]. rewrite Ho. destruct xs as [|[x|] [|[y|] rest]]; try done.
  cbn [word_overflow]. intros [= <-]. exists x, y, rest. split; [done|]. reflexivity.
Qed.

#[export] Instance word_machine_floats : IeeeFloats word_machine.
Proof.
  assert (forall op, is_float_op op = true -> is_overflow op = false) as Hno by (by intros []).
  split.
  - intros inst x y xs m w Ho _ _ Hw. cbn [mc_other word_machine shape i_op]. rewrite Hno by done. unfold word_other.
    change (float_op bits_of_type (shape inst) x y) with (float_op (mc_bits word_machine) inst x y). by rewrite Hw.
  - intros inst x y xs m Hc Et. cbn [mc_other word_machine shape i_op]. rewrite Hno by (by destruct (i_op inst)).
    unfold word_other, float_op, float_arith. cbn [shape i_op i_a i_b o_type hole].
    destruct (i_op inst); try discriminate Hc; destruct x as [x|], y as [y|]; try done; cbn [mbind option_bind];
      rewrite ?Et, ?(add_swaps _ _ (rounded _ _ (double x))), ?(mul_swaps _ _ (rounded _ _ (double x))), ?(add_swaps _ _ (double x)),
        ?(mul_swaps _ _ (double x)), ?(eqb_swaps (double x)); done.
Qed.

(** ** The blocks that a path reaches *)

(** Block [a] may go to block [b]. *)
Definition leads (f : ir_function) (a b : nat) : Prop := b ∈ next_blocks (block f a) /\ (b < length (fn_blocks f))%nat.

Definition path (f : ir_function) (b : nat) : Prop := (b < length (fn_blocks f))%nat /\ rtc (leads f) 0%nat b.

Lemma pushed_named bs reached pending : let st := fold_left push_next bs (reached, pending) in length st.1 = length reached /\
  (forall b, is_reached st.1 b -> is_reached reached b \/ b ∈ bs) /\ forall b, b ∈ st.2 -> b ∈ pending \/ (b ∈ bs /\ (b < length reached)%nat).
Proof.
  revert reached pending. induction bs as [|c bs IH]; intros reached pending; cbn [fold_left]; [by auto|]. unfold push_next at 2 4 6.
  destruct (reached !! c) as [[|]|] eqn:E; cbn [from_option id].
  - destruct (IH reached pending) as (H0 & H1 & H2). split; [done|]. split; intros b Hb; [destruct (H1 b Hb)|destruct (H2 b Hb) as [|[]]]; rewrite ?elem_of_cons; auto.
  - destruct (IH (<[c := true]> reached) (c :: pending)) as (H0 & H1 & H2). rewrite length_insert in H0, H2. split; [done|].
    pose proof (lookup_lt_Some _ _ _ E) as Hc. split; intros b Hb; rewrite ?elem_of_cons.
    + destruct (H1 b Hb) as [Hr|]; [|by auto]. destruct (decide (b = c)) as [->|Hne]; [by auto|]. left. unfold is_reached in *. by rewrite list_lookup_insert_ne in Hr.
    + destruct (H2 b Hb) as [[->|]%elem_of_cons|[]]; auto.
  - destruct (IH reached pending) as (H0 & H1 & H2). split; [done|]. split; intros b Hb; [destruct (H1 b Hb)|destruct (H2 b Hb) as [|[]]]; rewrite ?elem_of_cons; auto.
Qed.

Lemma mark_loop_paths fuel f reached pending reached' : mark_loop fuel f reached pending = Some reached' -> length reached = length (fn_blocks f) ->
  (forall b, is_reached reached b -> path f b) -> (forall b, b ∈ pending -> path f b) -> forall b, is_reached reached' b -> path f b.
Proof.
  revert reached pending. induction fuel as [|fuel IH]; intros reached [|c pending]; cbn [mark_loop]; try done; try (by intros [= ->]).
  pose proof (pushed_named (next_blocks (block f c)) reached pending) as Hp. destruct (fold_left push_next _ (reached, pending)) as [r p]. destruct Hp as (Hl & H1 & H2).
  cbn [fst snd] in *. intros E L Hr Hpend. assert (Hc : path f c) by (apply Hpend; by left).
  assert (Hnext : forall b, b ∈ next_blocks (block f c) -> (b < length (fn_blocks f))%nat -> path f b).
  { intros b Hb Hlt. split; [done|]. eapply rtc_r; [apply Hc|]. by split. }
  apply (IH r p); [done|congruence| |].
  - intros b Hb. destruct (H1 b Hb) as [|Hn]; [by apply Hr|]. apply Hnext; [done|]. rewrite <- L, <- Hl. by eapply lookup_lt_Some.
  - intros b Hb. destruct (H2 b Hb) as [|[Hn Hlt]]; [apply Hpend; by right|]. apply Hnext; [done|lia].
Qed.

(** The search marks the blocks with a path from the entry. *)
Lemma mark_reachable_exact f : exists reached, mark_reachable f = Some reached /\ length reached = length (fn_blocks f) /\
  forall b, is_reached reached b <-> path f b.
Proof.
  destruct (mark_reachable_spec f) as (reached & E & L & H0 & Hc). exists reached. split; [done|]. split; [done|]. intros b. split.
  - unfold mark_reachable in E. destruct (length (fn_blocks f)) as [|n] eqn:En; [injection E as <-; done|].
    revert b. apply (mark_loop_paths _ _ _ _ _ E); [by rewrite length_insert, length_replicate, En| |].
    + intros b Hb. destruct b as [|b]; [split; [lia|done]|]. unfold is_reached in Hb. cbn in Hb. by apply lookup_replicate in Hb as [Hb _].
    + intros b ->%list_elem_of_singleton. split; [lia|done].
  - intros [Hlt Hp]. assert (Hr0 : is_reached reached 0) by (apply H0; lia). clear Hlt.
    remember 0%nat as a eqn:Ea. clear Ea H0. induction Hp as [a|a c b [Hn Hlt] _ IH]; [done|]. apply IH. destruct (Hc a Hr0 c Hn); [done|lia].
Qed.

Lemma marked_length {A} (reached : list bool) (l : list A) : length reached = length l -> length (marked reached l) = times id reached.
Proof.
  revert l. induction reached as [|r reached IH]; intros [|x l]; try done. cbn [length]. intros [= Hl]. unfold marked in *. cbn [zip zip_with List.filter fst].
  rewrite count_cons. destruct r; cbn; by rewrite <- (IH l Hl).
Qed.

Lemma all_reached (reached : list bool) : times id reached = length reached <-> forall b, (b < length reached)%nat -> is_reached reached b.
Proof.
  unfold is_reached. induction reached as [|r reached IH]; [split; [intros _ b Hb; cbn in Hb; lia|done]|]. rewrite count_cons. pose proof (times_length id reached) as Hle. cbn [length]. split.
  - destruct r; cbn [id]; [|lia]. intros [= H] [|b] Hb; [done|]. apply IH; [done|lia].
  - intros H. pose proof (H O ltac:(lia)) as [= ->]. cbn [id]. f_equal. apply IH. intros b Hb. apply (H (S b)). lia.
Qed.

(** The removal of blocks keeps exactly those that a path from the entry reaches,
    in their order: it has a result on every function, the number of a reached block is
    the count of those before it, its instructions stay but for the numbers of the
    blocks they name, and the function stays as it is when every block is reached. *)
Lemma reachable_blocks_kept f : exists g changed reached, remove_unreachable_blocks f = Some (g, changed) /\
  (forall b, reached !! b = Some true <-> path f b) /\ length (fn_blocks g) = times id reached /\
  (forall b, path f b -> fn_blocks g !! new_number reached b =
    map (fun inst => if changed then renumber_targets (new_number reached) inst else inst) <$> fn_blocks f !! b) /\
  (changed = false <-> forall b, (b < length (fn_blocks f))%nat -> path f b) /\ (changed = false -> g = f).
Proof.
  destruct (mark_reachable_exact f) as (reached & E & L & Hr). unfold remove_unreachable_blocks. rewrite E. cbn [mbind option_bind]. cbv zeta.
  pose proof (marked_length reached (fn_blocks f) L) as Hm.
  do 2 eexists. exists reached. split; [reflexivity|]. split; [exact Hr|]. destruct (length (marked reached (fn_blocks f)) =? length (fn_blocks f))%nat eqn:El; cbn [negb].
  - apply Nat.eqb_eq in El. destruct (marked_all reached (fn_blocks f) L El) as [Ef Hall]. cbn [fn_blocks with_blocks with_body]. rewrite Ef.
    split; [by rewrite <- Hm, Ef|]. split; [|split; [split; [intros _ b Hb; by apply Hr, Hall|done]|intros _; apply with_blocks_id]].
    intros b [Hb Hp]. destruct (lookup_lt_is_Some_2 _ _ Hb) as [insts Ei]. pose proof (marked_lookup reached (fn_blocks f) b insts L ltac:(by apply Hr) Ei) as H.
    rewrite Ef in H. rewrite H, Ei. cbn. by rewrite map_id.
  - apply Nat.eqb_neq in El. cbn [fn_blocks with_blocks with_body]. split; [by rewrite length_map|]. split; [|split; [split; [done|]|done]].
    + intros b [Hb Hp]. destruct (lookup_lt_is_Some_2 _ _ Hb) as [insts Ei]. rewrite list_lookup_fmap.
      by rewrite (marked_lookup reached (fn_blocks f) b insts L ltac:(by apply Hr) Ei), Ei.
    + intros Hall. destruct El. rewrite Hm, <- L. apply all_reached. intros b Hb. apply Hr, Hall. by rewrite <- L.
Qed.

(** ** The passes *)

Section Passes.
Context {M : Type} (mc : machine M) `{!Lawful mc} `{!IeeeFloats mc}.

(** C1. On every well-formed function without slots the optimizer ends, and the
    function it leaves stands for the one it got: it returns the same and leaves the
    same memory where that one returns, and runs for ever where that one does. The
    number of rounds that are enough depends on the function alone. *)
Theorem optimize_function_correct f : well_formed mc f -> no_slots f ->
  exists n g, (forall fuel, (n <= fuel)%nat -> optimize_function fuel f = Some g) /\ well_formed mc g /\ refines mc f g.
Proof. intros Hf Hs. by apply optimize_function_sound. Qed.

(** C2. Each pass but the splitting of slots and the removal of unused results keeps
    what a function does also with slots: folding, the peephole rules, the forwarding of
    stores, the propagation of copies, the removal of blocks, their merging and the
    numbering of the temporaries, each with a result that is well formed again. *)
Theorem passes_keep_behaviour f : well_formed mc f ->
  (well_formed mc (fold_constants f).1 /\ refines mc f (fold_constants f).1) /\
  (well_formed mc (apply_peephole_rules f).1 /\ refines mc f (apply_peephole_rules f).1) /\
  (well_formed mc (forward_stores f).1 /\ refines mc f (forward_stores f).1) /\
  (well_formed mc (propagate_copies f).1 /\ refines mc f (propagate_copies f).1) /\
  (exists g changed, remove_unreachable_blocks f = Some (g, changed) /\ well_formed mc g /\ refines mc f g) /\
  (exists g changed, merge_blocks f = Some (g, changed) /\ well_formed mc g /\ refines mc f g) /\
  (well_formed mc (renumber_temps f) /\ refines mc f (renumber_temps f)).
Proof.
  intros Hf. split; [by apply fold_constants_refines|]. split; [by apply apply_peephole_refines|]. split; [by apply forward_stores_refines|].
  split; [by apply propagate_copies_refines|]. split; [by apply remove_unreachable_refines|]. split; [by apply merge_blocks_refines|].
  by apply renumber_temps_refines.
Qed.
End Passes.

(** ** What is left *)

Lemma better_still f g : better f (g, false) -> g = f.
Proof. done. Qed.

(** No pass has anything to do. The look at a slot that stays may leave types of
    temporaries that nothing names. *)
Definition settled (f : ir_function) : Prop :=
  fold_constants f = (f, false) /\ apply_peephole_rules f = (f, false) /\ (exists types, split_slots f = (with_temps f types, false)) /\
  forward_stores f = (f, false) /\ propagate_copies f = (f, false) /\ remove_dead_code f = Some (f, false).

Lemma propagate_still f g : propagate_copies f = (g, false) -> g = f.
Proof. intros E. destruct (propagate_copies_better f) as [_ [H|[H _]]]; rewrite E in H; done. Qed.

Lemma round_settled f g : optimize_round f = Some (g, false) -> settled g.
Proof.
  unfold optimize_round. pose proof (fold_constants_better f) as B1. destruct (fold_constants f) as [f1 b1] eqn:E1.
  pose proof (apply_peephole_better f1) as B2. destruct (apply_peephole_rules f1) as [f2 b2] eqn:E2. destruct (split_slots f2) as [f3 b3] eqn:E3.
  pose proof (forward_stores_better f3) as B4. destruct (forward_stores f3) as [f4 b4] eqn:E4. destruct (propagate_copies f4) as [f5 b5] eqn:E5.
  destruct (remove_dead_code f5) as [[f6 b6]|] eqn:E6; [|done]. cbn [mbind option_bind]. intros [= -> Hb].
  repeat (apply orb_false_iff in Hb as [Hb ?]). subst. apply better_still in B1 as ->. apply better_still in B2 as ->.
  pose proof (split_slots_stays f) as Hs. rewrite E3 in Hs. specialize (Hs eq_refl). destruct (Hs (fn_temps f)) as [types Et].
  rewrite with_temps_id, E3 in Et. injection Et as ->.
  apply better_still in B4 as ->. apply propagate_still in E5 as E5'. subst f5.
  apply remove_dead_code_smaller in E6 as H6. destruct H6 as [H6 _]. unfold smaller in H6. cbn in H6. subst g.
  split; [by apply fold_constants_temps|]. split; [by rewrite apply_peephole_temps, E2|]. split; [|done].
  destruct (Hs types) as [types' E']. by exists types'.
Qed.

Lemma loop_settled fuel f g : optimize_loop fuel f = Some g -> settled g.
Proof.
  revert f. induction fuel as [|fuel IH]; intros f; [done|]. cbn [optimize_loop]. destruct (optimize_round f) as [[h [|]]|] eqn:E; [| |done]; cbn [mbind option_bind].
  - apply IH.
  - intros [= <-]. by apply (round_settled f).
Qed.

(** C8. The optimizer stops only when there is nothing left to do: up to the numbers of
    its temporaries its result is a function that no pass changes, with slots as without:
    the split of slots leaves every instruction and may add types of temporaries that
    nothing names. *)
Theorem optimized_settled fuel f g : optimize_function fuel f = Some g -> exists h, g = renumber_temps h /\ settled h.
Proof.
  unfold optimize_function. destruct (remove_dead_code f) as [[f1 changed]|]; [|done]. cbn [mbind option_bind fst] in *.
  destruct (optimize_loop fuel f1) as [h|] eqn:El; [|done]. cbn [mbind option_bind]. intros [= <-]. exists h. split; [done|]. by apply (loop_settled fuel f1).
Qed.

(** ** An example *)

Module Sample.
Definition temp (t : nat) : ir_operand := Operand (IR_TEMP t) IR_I32.
Definition label (b : nat) : ir_operand := Operand (IR_BLOCK b) IR_VOID.
Definition inst (op : ir_op) (type : ir_type) (result : option nat) (a b c : ir_operand) : ir_inst := Inst op type result a b c (ir_scalar IR_VOID) 0 0 [].

Definition with_code (blocks : list (list ir_inst)) (temps : list ir_type) : ir_function := {|
  fn_params := [{| pr_type := default IR_I32 (head temps); pr_ext := IR_EXT_NONE; pr_agg := 0; pr_temp := 0; pr_nonnull := false; pr_own := false; pr_deref_size := None |}];
  fn_result := IR_I32; fn_result_agg := 0; fn_result_ext := IR_EXT_NONE; fn_allocates := false; fn_result_range := None;
  fn_is_extern := false; fn_variadic := false; fn_never_returns := false; fn_blocks := blocks; fn_temps := temps |}.

(** A product with 8, a copy of it, a jump over a jump and a block that nothing reaches. *)
Definition code : ir_function := with_code
  [[inst IR_MUL IR_I32 (Some 1%nat) (temp 0) (ir_int_op IR_I32 8) none; inst IR_COPY IR_I32 (Some 2%nat) (temp 1) none none; inst IR_JUMP IR_VOID None (label 1) none none];
   [inst IR_JUMP IR_VOID None (label 2) none none];
   [inst IR_RET IR_VOID None (temp 2) none none];
   [inst IR_RET IR_VOID None (temp 0) none none]] [IR_I32; IR_I32; IR_I32].

(** A shift and a return. *)
Definition better_code : ir_function := with_code
  [[inst IR_SHL IR_I32 (Some 1%nat) (temp 0) (ir_int_op IR_I32 3) none; inst IR_RET IR_VOID None (temp 1) none none]] [IR_I32; IR_I32].

(** [u.whole = x; return u.parts.hi] of a union of a word with a struct of two halves:
    the half lies at an offset that is symbolic, the word at the start. *)
Definition union_agg : ir_vtype := {| vt_type := IR_AGG; vt_agg := 0 |}.
Definition overlap : ir_function := with_code
  [[Inst IR_SLOT IR_PTR (Some 1%nat) none none none union_agg 0 0 [];
    inst IR_STORE IR_I64 None (Operand (IR_TEMP 0) IR_I64) (Operand (IR_TEMP 1) IR_PTR) none;
    inst IR_PTRADD IR_PTR (Some 2%nat) (Operand (IR_TEMP 1) IR_PTR) (Operand (IR_SYM 0) IR_I64) none;
    inst IR_LOAD IR_I32 (Some 3%nat) (Operand (IR_TEMP 2) IR_PTR) none none;
    inst IR_RET IR_VOID None (temp 3) none none]] [IR_I64; IR_PTR; IR_PTR; IR_I32].

(** The store and the load have become copies of two temporaries that have nothing to do with each other. *)
Example overlap_split : fn_blocks (split_slots overlap).1 =
  [[inst IR_COPY IR_I64 (Some 4%nat) (Operand (IR_TEMP 0) IR_I64) none none; inst IR_COPY IR_I32 (Some 3%nat) (temp 5) none none; inst IR_RET IR_VOID None (temp 3) none none]].
Proof. vm_compute. reflexivity. Qed.

Example code_optimized : optimize_function 4 code = Some better_code.
Proof. vm_compute. reflexivity. Qed.

(** C38. The splitting of slots tells overlapping fields apart by their offsets as
    operands. A union written through the word at its start and read through the second
    half of a struct at a symbolic offset is split into two temporaries: the function
    returned the upper half of the word, 7 for 7 * 2^32 + 5, and after the pass it reads
    a temporary that nothing defines, so that it returns nothing. *)
Theorem overlapping_fields_split : well_formed word_machine overlap /\ (split_slots overlap).2 = true /\
  (exists m, terminates word_machine overlap (start overlap [7 * 2 ^ 32 + 5] 0) (Some 7) m) /\
  ~ exists y m, terminates word_machine (split_slots overlap).1 (start (split_slots overlap).1 [7 * 2 ^ 32 + 5] 0) y m.
Proof.
  split; [|split; [by vm_compute|split]].
  - split; [repeat constructor; try done; try (by intros r [= <-]); by eexists|done|].
    repeat constructor. intros [|[|[|[|[|k]]]]] i; cbn; intros [= <-]; done.
  - exists (7 * 2 ^ 32 + 5), 1%nat. vm_compute. reflexivity.
  - intros (y & m & [|n] & H); [done|]. rewrite (blocks_from_step word_machine) in H.
    assert (at_point word_machine (split_slots overlap).1 (start (split_slots overlap).1 [7 * 2 ^ 32 + 5] 0) = None) as E by (vm_compute; reflexivity).
    by rewrite E in H.
Qed.

Lemma code_well_formed : well_formed word_machine code /\ no_slots code.
Proof.
  split; [|by repeat constructor]. split; [|done|].
  - repeat constructor; try done; try (by intros r [= <-]); by eexists.
  - repeat constructor; intros [|[|[|k]]] i; cbn; intros [= <-]; done.
Qed.

Lemma optimize_function_correct_witness : (well_formed word_machine code /\ no_slots code) /\
  exists n g, (forall fuel, (n <= fuel)%nat -> optimize_function fuel code = Some g) /\ well_formed word_machine g /\ refines word_machine code g.
Proof. split; [exact code_well_formed|]. apply (optimize_function_correct word_machine); apply code_well_formed. Defined.

Lemma passes_keep_behaviour_witness : well_formed word_machine code /\ refines word_machine code (apply_peephole_rules code).1.
Proof.
  split; [apply code_well_formed|]. destruct (passes_keep_behaviour word_machine code (proj1 code_well_formed)) as (_ & [_ H] & _). exact H.
Defined.

(** A slot that stays: its address goes to a store. *)
Definition kept_slot : ir_function := with_code
  [[Inst IR_SLOT IR_PTR (Some 1%nat) none none none union_agg 0 0 [];
    inst IR_STORE IR_I32 None (temp 0) (Operand (IR_TEMP 1) IR_PTR) none;
    inst IR_STORE IR_PTR None (Operand (IR_TEMP 1) IR_PTR) (Operand (IR_TEMP 1) IR_PTR) none;
    inst IR_RET IR_VOID None (temp 0) none none]] [IR_I32; IR_PTR].

Example kept_slot_types : split_slots kept_slot = (with_temps kept_slot [IR_I32; IR_PTR; IR_I32], false).
Proof. reflexivity. Qed.

Example kept_slot_optimized : optimize_function 2 kept_slot = Some kept_slot.
Proof. vm_compute. reflexivity. Qed.

Lemma optimized_settled_witness : optimize_function 2 kept_slot = Some kept_slot /\ exists h, kept_slot = renumber_temps h /\ settled h.
Proof. split; [exact kept_slot_optimized|]. exact (optimized_settled 2 kept_slot kept_slot kept_slot_optimized). Defined.
End Sample.
