(* ===== verification/OptimizeProgramSpec.v ===== *)
(** * OptimizeProgramSpec: what the optimizer promises of a whole program

    The theorems on src/antic/reach.c and on the end of src/antic/optimize.c: the walk
    marks what the entries reach and nothing else, the removal of the rest keeps what
    the items are and whom they name, the optimizer ends on every function of a program,
    and dropping the checks of a kind changes no run in which they hold. *)

From S2P Require Import Prelude Ir IrFold IrVerify IrSem FloatSem Optimize IrSim OptimizeLocal OptimizeBlock OptimizeDead OptimizeGraph OptimizeOperands OptimizeFunction Program Reach ReachSpec OptimizeProgram OptimizeUnused OptimizeFailures OptimizeSpec.

(** ** What is reached *)

(** C4. On a program whose names are those of its items the walk ends and marks exactly
    the functions and data that a chain of mentions joins with an entry: an operand, a
    constant or a relocation names an item, and a declaration of a datum the first
    definition of its module and name, which the table of definitions finds. *)
Theorem ir_reach_exact p entry all : names_in_range p ->
  (exists fs gs, ir_reach p entry all = Some (fs, gs) /\ length fs = length (p_functions p) /\ length gs = length (p_globals p) /\
    (forall f, fs !! f = Some true <-> reachable p entry all (Fun f)) /\ (forall g, gs !! g = Some true <-> reachable p entry all (Data g))) /\
  exists defined, definitions_of p = Some defined /\
    forall i g, p_globals p !! i = Some g -> exists r, defined !! i = Some r /\ forall d, r = Some d <-> is_declaration g /\ first_definition p (pg_link g) d.
Proof.
  intros Hp. split; [by apply ir_reach_spec|]. destruct (definitions_of_spec p) as (defined & E & _ & H). by exists defined.
Qed.

(** C3. The removal of what nothing reaches keeps the reached functions and data in their
    order, each as it was but for the numbers of the items it names, which follow those
    items: what an item mentions is what it mentioned before, and no name leaves the
    program. In the program that is left everything is reached, and a second removal
    changes nothing. *)
Theorem unused_removed p entry all : names_in_range p -> exists q gm fm,
  remove_unused_functions p entry all = Some q /\
  (forall f pf, reachable p entry all (Fun f) -> p_functions p !! f = Some pf -> p_functions q !! moved fm f = Some (remap_function gm fm pf)) /\
  (forall g pg, reachable p entry all (Data g) -> p_globals p !! g = Some pg -> p_globals q !! moved gm g = Some (remap_global gm fm pg)) /\
  (forall z, in_range q z <-> exists x, reachable p entry all x /\ z = shift gm fm x) /\
  (forall f f', reachable p entry all (Fun f) -> reachable p entry all (Fun f') -> (moved fm f < moved fm f')%nat <-> (f < f')%nat) /\
  (forall g g', reachable p entry all (Data g) -> reachable p entry all (Data g') -> (moved gm g < moved gm g')%nat <-> (g < g')%nat) /\
  (forall x z, reachable p entry all x -> mentions q (shift gm fm x) z <-> exists y, mentions p x y /\ z = shift gm fm y) /\
  names_in_range q /\ (forall z, in_range q z -> reachable q entry all z) /\ remove_unused_functions q entry all = Some q.
Proof.
  intros Hp. destruct (ir_reach_spec p entry all Hp) as (fs & gs & E & Hfs & Hgs & Hf & Hg). unfold remove_unused_functions at 1. rewrite E. cbn [mbind option_bind].
  set (fm := numbers 0 fs). set (gm := numbers 0 gs). set (q := Program _ _ _ _). exists q, gm, fm. split; [done|].
  split; [intros; by eapply kept_function|]. split; [intros; by eapply kept_global|].
  split; [intros z; split; [intros Hz; by eapply place_from|intros (x & Hx & ->); by eapply kept_item_in_range]|].
  split; [intros; by eapply function_order|]. split; [intros; by eapply data_order|].
  split; [intros x z Hx; split; [intros Hm; by eapply mentions_from|intros (y & Hm & ->); by eapply place_mentions]|].
  assert (names_in_range q) as Hq by by eapply left_in_range. assert (forall z, in_range q z -> reachable q entry all z) as Hall by (intros z Hz; by eapply all_kept).
  split; [done|]. split; [done|]. by rewrite nothing_unused.
Qed.

(** ** The functions of a program *)

Section Functions.
Context {M : Type} (mc : machine M) `{!Lawful mc} `{!IeeeFloats mc}.

(** A function that the optimizer may be given: a declaration, or a definition that is
    well formed and without slots. *)
Definition optimizable (f : program_function) : Prop := fn_is_extern (pf_code f) = false -> well_formed mc (pf_code f) /\ no_slots (pf_code f).

(** What the optimizer makes of it. *)
Definition stands_for (f g : program_function) : Prop :=
  pf_link g = pf_link f /\ (fn_is_extern (pf_code f) = true -> g = f) /\
  (fn_is_extern (pf_code f) = false -> well_formed mc (pf_code g) /\ refines mc (pf_code f) (pf_code g)).

Lemma function_plain p f : Forall (in_range p) (function_names f) -> no_slots (pf_code f) ->
  plain_function (fun o => Forall (in_range p) (operand_names o)) (pf_code f).
Proof.
  unfold function_names, no_slots, plain_function. intros H Hs. induction Hs as [|insts blocks Hi _ IH]; [constructor|]. cbn [mbind list_bind] in H.
  apply Forall_app in H as [H1 H2]. constructor; [|by apply IH]. clear IH H2. induction Hi as [|inst insts Ho _ IH]; [constructor|]. cbn [mbind list_bind] in H1.
  apply Forall_app in H1 as [H1 H2]. constructor; [|by apply IH]. unfold inst_names, operands in H1. cbn [mbind list_bind] in H1. rewrite !Forall_app in H1.
  destruct H1 as (Ha & Hb & Hc & Hr). split; try done. clear -Hr. induction (i_args inst) as [|o os IH]; [constructor|]. cbn [mbind list_bind] in Hr. apply Forall_app in Hr as [H1 H2].
  constructor; [done|by apply IH].
Qed.

Lemma plain_names p f : plain_function (fun o => Forall (in_range p) (operand_names o)) (pf_code f) -> Forall (in_range p) (function_names f).
Proof.
  unfold function_names, plain_function. intros H. induction H as [|insts blocks Hi _ IH]; [constructor|]. cbn [mbind list_bind]. apply Forall_app. split; [|done].
  clear IH. induction Hi as [|inst insts [_ Ha Hb Hc Hr] _ IH]; [constructor|]. cbn [mbind list_bind]. apply Forall_app. split; [|done]. unfold inst_names, operands. cbn [mbind list_bind].
  rewrite !Forall_app. do 3 (split; [done|]). clear -Hr. induction Hr as [|o os Ho _ IH]; [constructor|]. cbn [mbind list_bind]. apply Forall_app. by split.
Qed.

Lemma nothing_in_range p o : names_nothing o -> Forall (in_range p) (operand_names o).
Proof. unfold names_nothing, operand_names. by destruct (o_kind o). Qed.

(** Some fuel is enough for one function, and any more gives the same. *)
Lemma optimize_defined_sound p f : optimizable f -> Forall (in_range p) (function_names f) ->
  exists n g, (forall fuel, (n <= fuel)%nat -> optimize_defined fuel f = Some g) /\ stands_for f g /\ Forall (in_range p) (function_names g).
Proof.
  intros Ho Hn. unfold optimize_defined, stands_for. destruct (fn_is_extern (pf_code f)) eqn:Ex; [exists O, f; done|].
  destruct (Ho Ex) as [Hf Hs]. destruct (optimize_function_sound mc (pf_code f) (conj Hf Hs)) as (n & g & E & Hg & R). exists n, (with_code f g).
  split; [intros fuel Hfuel; by rewrite (E fuel Hfuel)|]. split; [done|]. apply plain_names. cbn [pf_code with_code].
  apply (optimize_plain _ (nothing_in_range p) n (pf_code f)); [by apply E|]. by apply function_plain.
Qed.

(** The same for a list of functions, each by its own step. *)
Lemma mapM_enough {A B} (step : nat -> A -> option B) (R : A -> B -> Prop) xs :
  Forall (fun x => exists n y, (forall fuel, (n <= fuel)%nat -> step fuel x = Some y) /\ R x y) xs ->
  exists n ys, (forall fuel, (n <= fuel)%nat -> mapM (step fuel) xs = Some ys) /\ Forall2 R xs ys.
Proof.
  intros H. induction H as [|x xs (n & y & E & Hy) _ (n' & ys & E' & Hys)]; [by exists O, []|].
  exists (n + n')%nat, (y :: ys). split; [|by constructor]. intros fuel Hfuel. cbn. rewrite E by lia. cbn. by rewrite E' by lia.
Qed.

(** A program with other functions of the same names. *)
Lemma same_range p fs gs : length fs = length (p_functions p) -> length gs = length (p_globals p) ->
  forall x, in_range (Program fs gs (p_classes p) (p_hosts p)) x <-> in_range p x.
Proof. intros Hf Hg [f|g]; cbn; lia. Qed.

(** C6. On a program whose names are those of its items, and whose definitions are well
    formed and without slots, the optimizer ends: every function it defines becomes one
    that stands for it, declarations stay, and of the program with these functions it
    leaves what the entries reach. The rounds that are enough depend on the program
    alone. *)
Theorem program_optimized p entry : names_in_range p -> Forall optimizable (p_functions p) ->
  exists n r q, (forall fuel, (n <= fuel)%nat -> optimize_program fuel p entry = Some q) /\
    Forall2 stands_for (p_functions p) (p_functions r) /\ p_globals r = p_globals p /\ p_hosts r = p_hosts p /\
    names_in_range r /\ remove_unused_functions r entry false = Some q.
Proof.
  intros [Hf Hg] Ho. destruct (mapM_enough optimize_defined (fun f g => stands_for f g /\ Forall (in_range p) (function_names g)) (p_functions p)) as (n & fs & E & H).
  { apply Forall_forall. intros f Hin. rewrite Forall_forall in Hf, Ho. by apply optimize_defined_sound; [apply Ho|apply Hf]. }
  assert (Forall2 stands_for (p_functions p) fs) as Hs by (eapply Forall2_impl; [exact H|by intros ? ? []]).
  assert (Forall2 (fun _ g => Forall (in_range p) (function_names g)) (p_functions p) fs) as Hn by (eapply Forall2_impl; [exact H|by intros ? ? []]).
  assert (length fs = length (p_functions p)) as Hl by (symmetry; by eapply Forall2_length).
  set (r := Program fs (p_globals p) (p_classes p) (p_hosts p)). assert (names_in_range r) as Hr.
  { split; cbn [p_functions p_globals r].
    - apply Forall_forall. intros g [i Hi]%list_elem_of_lookup. destruct (Forall2_lookup_r _ _ _ _ _ Hn Hi) as (f & _ & Hgn). eapply Forall_impl; [exact Hgn|].
      intros x. by apply same_range.
    - eapply Forall_impl; [exact Hg|]. intros g Hgn. eapply Forall_impl; [exact Hgn|]. intros x. by apply same_range. }
  destruct (unused_kept r entry false Hr) as [q Hq]. exists n, r, q. split; [|done]. intros fuel Hfuel. unfold optimize_program. by rewrite (E fuel Hfuel).
Qed.

(** The object of [module] holds what the module or its unit defines, and the runtime. *)
Definition in_object (module : list Z) (l : linkage) : Prop :=
  ln_unit l = Some module \/ (ln_unit l = None /\ ln_module l = Some module) \/ ln_module l = Some RUNTIME_MODULE.

Lemma belongs_to_spec module l :
  (in_object module l -> belongs_to module l = Some true) /\
  (~ in_object module l -> is_Some (ln_module l) -> belongs_to module l = Some false).
Proof.
  unfold in_object, belongs_to, ir_in_unit, same_name. destruct (ln_unit l) as [u|], (ln_module l) as [m|]; cbn [mbind option_bind].
  - destruct (bool_decide_reflect (u = module)) as [->|Hu]; [by split; [|intros []; left]|].
    destruct (bool_decide_reflect (m = RUNTIME_MODULE)) as [->|Hm]; [by split; [|intros []; right; right]|]. split; [naive_solver|done].
  - destruct (bool_decide_reflect (u = module)) as [->|Hu]; [by split; [|intros []; left]|]. split; [naive_solver|by intros _ []].
  - destruct (bool_decide_reflect (m = module)) as [->|Hu]; [by split; [|intros []; right; left]|].
    destruct (bool_decide_reflect (m = RUNTIME_MODULE)) as [->|Hm]; [by split; [|intros []; right; right]|]. split; [naive_solver|done].
  - split; [naive_solver|by intros _ []].
Qed.

Lemma in_object_dec module l : in_object module l \/ ~ in_object module l.
Proof.
  unfold in_object. destruct (decide (ln_unit l = Some module)); [by left; left|]. destruct (decide (ln_module l = Some RUNTIME_MODULE)); [by left; right; right|].
  destruct (decide (ln_unit l = None)), (decide (ln_module l = Some module)); naive_solver.
Qed.

(** What a caller sees of a parameter. *)
Definition signature (f : ir_function) : list (ir_type * ir_ext * nat * bool * bool * option nat) :=
  map (fun p => (pr_type p, pr_ext p, pr_agg p, pr_nonnull p, pr_own p, pr_deref_size p)) (fn_params f).

(** [g] declares what [f] defines: no body, and all that a call follows. *)
Record declares (f g : ir_function) : Prop := {
  de_extern : fn_is_extern g = true;
  de_body : fn_blocks g = [] /\ fn_temps g = [];
  de_params : signature g = signature f /\ Forall (fun p => pr_temp p = IR_NO_RESULT) (fn_params g);
  de_result : (fn_result g, fn_result_agg g, fn_result_ext g, fn_allocates g, fn_result_range g, fn_variadic g, fn_never_returns g) =
              (fn_result f, fn_result_agg f, fn_result_ext f, fn_allocates f, fn_result_range f, fn_variadic f, fn_never_returns f)
}.

(** What the object of one module gets: the functions of the module and of the runtime as
    definitions, those of other modules as declarations. *)
Definition own_or_declared (module : list Z) (f g : program_function) : Prop :=
  pf_link g = pf_link f /\ (fn_is_extern (pf_code f) = true -> g = f) /\
  (fn_is_extern (pf_code f) = false -> in_object module (pf_link f) -> well_formed mc (pf_code g) /\ refines mc (pf_code f) (pf_code g)) /\
  (fn_is_extern (pf_code f) = false -> ~ in_object module (pf_link f) -> declares (pf_code f) (pf_code g)).

(** Data that another module defines: a declaration has neither bytes nor value and
    names nothing. Data without a module belong to the object that links. *)
Definition data_or_declared (module : list Z) (g g' : program_global) : Prop :=
  (pg_extern g = true \/ ln_module (pg_link g) = None \/ in_object module (pg_link g) -> g' = g) /\
  (pg_extern g = false -> is_Some (ln_module (pg_link g)) -> ~ in_object module (pg_link g) ->
   pg_link g' = pg_link g /\ pg_extern g' = true /\ pg_bytes g' = false /\ pg_mutable g' = pg_mutable g /\ pg_dropped g' = pg_dropped g /\
   g_bytes (pg_data g') = [] /\ g_size (pg_data g') = 0 /\ g_relocs (pg_data g') = [] /\ g_value (pg_data g') = None /\
   g_align (pg_data g') = g_align (pg_data g)).

Lemma drop_body_declares f : declares f (drop_body f).
Proof. split; try done. cbn [drop_body fn_params]. split; [unfold signature; cbn [drop_body fn_params]; by rewrite map_map|]. by apply Forall_fmap, Forall_true. Qed.

Lemma data_of_module_declared module g : data_or_declared module g (data_of_module module g).
Proof.
  unfold data_or_declared, data_of_module. destruct (belongs_to_spec module (pg_link g)) as [H1 H2]. split.
  - intros [H|[H|H]]; [by rewrite H|by rewrite H, andb_false_r|]. rewrite (H1 H). by rewrite andb_false_r.
  - intros He [m Hm] Hn. rewrite (H2 Hn ltac:(by eexists)), He, Hm. done.
Qed.

Lemma optimize_of_module_sound p module f :
  (fn_is_extern (pf_code f) = false -> in_object module (pf_link f) \/ is_Some (ln_module (pf_link f))) ->
  (in_object module (pf_link f) -> optimizable f) -> Forall (in_range p) (function_names f) ->
  exists n g, (forall fuel, (n <= fuel)%nat -> optimize_of_module fuel module f = Some g) /\ own_or_declared module f g /\ Forall (in_range p) (function_names g).
Proof.
  intros Hb Ho Hn. unfold optimize_of_module, own_or_declared. destruct (fn_is_extern (pf_code f)) eqn:Ex; [by exists O, f|].
  destruct (belongs_to_spec module (pf_link f)) as [H1 H2]. destruct (in_object_dec module (pf_link f)) as [Hin|Hout].
  - rewrite (H1 Hin). destruct (optimize_defined_sound p f (Ho Hin) Hn) as (n & g & Eg & (Hl & _ & Hg) & Hng). exists n, g. split; [exact Eg|]. split; [|done].
    split; [done|]. split; [done|]. split; [intros _ _; by apply Hg|done].
  - destruct (Hb eq_refl) as [|Hm]; [done|]. rewrite (H2 Hout Hm). exists O, (with_code f (drop_body (pf_code f))). split; [done|]. split; [|constructor].
    do 3 (split; [done|]). intros _ _. apply drop_body_declares.
Qed.

End Functions.

(** ** The checks of a kind *)

Section Failures.
Context {M : Type} (mc : machine M) `{!Lawful mc} `{!Overflows mc}.

(** C5. The checks of a kind go: the pass has a result on every program whose branches
    name blocks that exist; a run that never enters a block of the kind returns the same
    and leaves the same memory, or runs for ever, as before, where for the checks of
    overflow the arithmetic wraps to the same word; no branch leads to a block of the
    kind any more, and exactly the literals that those blocks name are marked. *)
Theorem failures_dropped kind p fails : names_in_range p -> Forall2 kinds_of (p_functions p) fails ->
  exists q, optimize_drop_failures kind p fails = Some q /\ length (p_functions q) = length (p_functions p) /\
    dropped_in (program_names kind fails (p_functions p)) (p_globals p) (p_globals q) /\
    forall i f ks, p_functions p !! i = Some f -> fails !! i = Some ks -> exists g, p_functions q !! i = Some g /\ pf_link g = pf_link f /\
      Forall (no_failing_arm kind ks) (fn_blocks (pf_code g)) /\
      ((kind = IR_FAIL_CHECK -> checks_apart kind (pf_code f) ks) ->
       forall args m, length args = length (fn_params (pf_code f)) -> avoids mc kind (pf_code f) ks (start (pf_code f) args m) ->
         (forall x m', terminates mc (pf_code f) (start (pf_code f) args m) x m' -> terminates mc (pf_code g) (start (pf_code g) args m) x m') /\
         (diverges mc (pf_code f) (start (pf_code f) args m) -> diverges mc (pf_code g) (start (pf_code g) args m))).
Proof.
  intros Hp Hk. destruct (drop_in_functions_spec kind fails (p_functions p) (p_globals p) Hk (program_names_below kind p fails (p_functions p) (functions_in_range _ Hp))) as (fs & gs & E & D & Hl & H).
  exists (Program fs gs (p_classes p) (p_hosts p)). split; [unfold optimize_drop_failures; by rewrite E|]. split; [done|]. split; [done|].
  intros i f ks Hf Hks. destruct (H i f ks Hf Hks) as (g & Hg & blocks & -> & Hb). exists (with_code f (with_blocks (pf_code f) blocks)). split; [done|]. split; [done|].
  split; [cbn; by eapply Forall2_Forall_r; [exact Hb|]; apply Forall_true; by intros ? ? []|].
  intros Hc args m Hargs Hav. cbn [pf_code with_code]. change (start (with_blocks (pf_code f) blocks) args m) with (start (M := M) (pf_code f) args m).
  assert (forall n, same_result kind (pf_code f) (blocks_from mc (pf_code f) n (start (pf_code f) args m)) (blocks_from mc (with_blocks (pf_code f) blocks) n (start (pf_code f) args m))) as Hrun.
  { intros n. apply (runs_dropped mc kind (pf_code f) ks Hc); [|done|done|done|apply same_words_refl]. intros b insts Hi.
    destruct (Forall2_lookup_l _ _ _ _ _ Hb Hi) as (insts' & Hi' & Hd & _). by exists insts'. }
  split.
  - intros x m' [n Hn]. exists n. specialize (Hrun n). by rewrite Hn in Hrun.
  - intros Hd n. destruct (Hd n) as [q Hq]. specialize (Hrun n). rewrite Hq in Hrun. destruct Hrun as (q' & Hq' & _). by exists q'.
Qed.
End Failures.

(** ** An example *)

Module Sample.
Import OptimizeSpec.Sample.

(** The modules "a" and "b", and names of one letter. *)
Definition own (name : list Z) : linkage := Linkage (Some [97]) name None false.
Definition other (name : list Z) : linkage := Linkage (Some [98]) name None false.

Definition body_of (blocks : list (list ir_inst)) : ir_function := with_code blocks [IR_I32; IR_I32; IR_PTR; IR_PTR].

(** [main] names the function after the next and the datum after the next. *)
Definition main_code : ir_function := body_of
  [[inst IR_COPY IR_PTR (Some 2%nat) (Operand (IR_FUNC 2) IR_PTR) none none;
    inst IR_COPY IR_PTR (Some 3%nat) (Operand (IR_GLOBAL 1) IR_PTR) none none;
    inst IR_LOAD IR_I32 (Some 1%nat) (Operand (IR_TEMP 3) IR_PTR) none none;
    inst IR_RET IR_VOID None (temp 1) none none]].

Definition plain_code : ir_function := body_of [[inst IR_RET IR_VOID None (temp 0) none none]].

Definition datum (l : linkage) (relocs : list ir_reloc) (extern : bool) : program_global :=
  Program_global l (Global [0; 0; 0; 0] 4 4 relocs None) (negb extern) false extern false.

(** The datum that [main] names is a declaration of the last one, whose relocation names the first function. *)
Definition sample : program := Program
  [Program_function (own main_name) main_code; Program_function (own [120]) plain_code; Program_function (own [121]) plain_code]
  [datum (own [122]) [] false; datum (other [119]) [] true; datum (other [119]) [Reloc 0 0 true] false] [] false.

Example sample_reached : ir_reach sample (Some [97]) false = Some ([true; false; true], [false; true; true]).
Proof. vm_compute. reflexivity. Qed.

Example sample_left : (fun q => (map pf_link (p_functions q), map (fun g => (ln_name (pg_link g), g_relocs (pg_data g))) (p_globals q))) <$>
  remove_unused_functions sample (Some [97]) false = Some ([own main_name; own [121]], [([119], []); ([119], [Reloc 0 0 true])]).
Proof. vm_compute. reflexivity. Qed.

Lemma sample_names : names_in_range sample.
Proof. split; repeat constructor; cbn; lia. Qed.

Lemma ir_reach_exact_witness : names_in_range sample /\
  exists fs gs, ir_reach sample (Some [97]) false = Some (fs, gs) /\ forall f, fs !! f = Some true <-> reachable sample (Some [97]) false (Fun f).
Proof.
  split; [exact sample_names|]. destruct (ir_reach_exact sample (Some [97]) false sample_names) as [(fs & gs & E & _ & _ & Hf & _) _]. exists fs, gs. exact (conj E Hf).
Defined.

Lemma unused_removed_witness : names_in_range sample /\
  exists q, remove_unused_functions sample (Some [97]) false = Some q /\ names_in_range q /\ remove_unused_functions q (Some [97]) false = Some q.
Proof.
  split; [exact sample_names|]. destruct (unused_removed sample (Some [97]) false sample_names) as (q & gm & fm & E & _ & _ & _ & _ & _ & _ & Hq & _ & E2). exists q. exact (conj E (conj Hq E2)).
Defined.

Lemma sample_code : well_formed word_machine main_code /\ no_slots main_code /\ well_formed word_machine plain_code /\ no_slots plain_code.
Proof.
  split; [|split; [by repeat constructor|split; [|by repeat constructor]]].
  - split; [repeat constructor; try done; try (by intros r [= <-]); by eexists|done|repeat constructor; intros [|[|[|[|k]]]] i; cbn; intros [= <-]; done].
  - split; [repeat constructor; try done; try (by intros r [= <-]); by eexists|done|repeat constructor; intros [|k] i; cbn; intros [= <-]; done].
Qed.

Lemma sample_optimizable : Forall (optimizable word_machine) (p_functions sample).
Proof. destruct sample_code as (H1 & H2 & H3 & H4). apply Forall_cons. split; [by intros _|]. apply Forall_cons. split; [by intros _|]. apply Forall_singleton. by intros _. Qed.

Lemma program_optimized_witness : (names_in_range sample /\ Forall (optimizable word_machine) (p_functions sample)) /\
  exists n q, forall fuel, (n <= fuel)%nat -> optimize_program fuel sample (Some [97]) = Some q.
Proof.
  split; [split; [exact sample_names|exact sample_optimizable]|].
  destruct (program_optimized word_machine sample (Some [97]) sample_names sample_optimizable) as (n & r & q & E & _). exists n, q. exact E.
Defined.

(** The same, where another module defines the second function. *)
Definition two_modules : program := Program
  [Program_function (own main_name) main_code; Program_function (other [120]) plain_code; Program_function (own [121]) plain_code]
  (p_globals sample) [] false.

Lemma two_modules_names : names_in_range two_modules.
Proof. split; repeat constructor; cbn; lia. Qed.

Lemma two_modules_belong : Forall (fun f => (fn_is_extern (pf_code f) = false -> in_object [97] (pf_link f) \/ is_Some (ln_module (pf_link f))) /\
  (in_object [97] (pf_link f) -> optimizable word_machine f)) (p_functions two_modules).
Proof.
  destruct sample_code as (H1 & H2 & H3 & H4). apply Forall_cons. split; [split; [right; by eexists|by intros _ _]|].
  apply Forall_cons. split; [split; [right; by eexists|by intros _ _]|]. apply Forall_singleton. split; [right; by eexists|by intros _ _].
Qed.


(** *** A check of overflow *)

(** [return x + 1] with its check: the literal "0" is the text of the failure. *)
Definition checked_code : ir_function := with_code
  [[inst IR_ADD_OV IR_I32 (Some 1%nat) (temp 0) (ir_int_op IR_I32 1) none; inst IR_BRANCH_OV IR_VOID None (temp 1) (label 1) (label 2)];
   [inst IR_COPY IR_PTR (Some 2%nat) (Operand (IR_GLOBAL 0) IR_PTR) none none; inst IR_UNREACHABLE IR_VOID None none none none];
   [inst IR_RET IR_VOID None (temp 1) none none]] [IR_I32; IR_I32; IR_PTR].

Definition checked : program := Program [Program_function (own main_name) checked_code] [datum (own [48]) [] false] [] false.
Definition kinds : list (list ir_fail) := [[IR_FAIL_NONE; IR_FAIL_CHECK; IR_FAIL_NONE]].

Example checked_dropped : (fun q => (map (fun f => fn_blocks (pf_code f)) (p_functions q), map pg_dropped (p_globals q))) <$> optimize_drop_failures IR_FAIL_CHECK checked kinds =
  Some ([[[inst IR_ADD IR_I32 (Some 1%nat) (temp 0) (ir_int_op IR_I32 1) none; inst IR_JUMP IR_VOID None (label 2) none none];
          [inst IR_COPY IR_PTR (Some 2%nat) (Operand (IR_GLOBAL 0) IR_PTR) none none; inst IR_UNREACHABLE IR_VOID None none none none];
          [inst IR_RET IR_VOID None (temp 1) none none]]], [true]).
Proof. vm_compute. reflexivity. Qed.

Lemma checked_names : names_in_range checked.
Proof. split; repeat constructor; cbn; lia. Qed.

Lemma checked_kinds : Forall2 kinds_of (p_functions checked) kinds.
Proof.
  apply Forall2_cons. split; [|done]. split; [done|]. cbn [fn_blocks pf_code checked_code with_code].
  apply Forall_cons; split; [|apply Forall_cons; split; [|apply Forall_singleton]]; intros l [= <-] [?|?]; try done; split; by eexists.
Qed.

Lemma checked_avoids : avoids word_machine IR_FAIL_CHECK checked_code [IR_FAIL_NONE; IR_FAIL_CHECK; IR_FAIL_NONE] (start checked_code [6] 0).
Proof. intros [|[|n]] q; vm_compute; intros [= <-]; done. Qed.

Lemma checked_apart : checks_apart IR_FAIL_CHECK checked_code [IR_FAIL_NONE; IR_FAIL_CHECK; IR_FAIL_NONE].
Proof.
  assert (forall inst0, inst0 ∈ all_insts checked_code -> i_op inst0 <> IR_FLAG /\
    (i_op inst0 = IR_BRANCH_OV -> fails_of [IR_FAIL_NONE; IR_FAIL_CHECK; IR_FAIL_NONE] (i_b inst0) = Some IR_FAIL_CHECK) /\
    (is_overflow (i_op inst0) = true -> o_type (i_a inst0) = i_type inst0)) as H by (apply Forall_forall; repeat constructor; by intros).
  split.
  - intros inst0 t Hi Op. by destruct (H inst0 Hi).
  - intros inst0 Hi Op. right. by apply H.
  - intros insts inst0 rest Hb Er i Hi. revert insts Hb inst0 rest Er i Hi. apply (Forall_forall (fun insts => forall inst0 rest, insts = rest ++ [inst0] -> forall i, i ∈ rest -> i_op i <> IR_BRANCH_OV)).
    apply Forall_cons; split; [|apply Forall_cons; split; [|apply Forall_singleton]]; intros inst0 rest Er i Hi;
      (destruct rest as [|i1 [|i2 [|i3 rest]]]; cbn in Er; try discriminate Er); first [by apply elem_of_nil in Hi|injection Er as <-; apply list_elem_of_singleton in Hi as ->; done].
  - intros inst0 Hi. by apply H.
Qed.

Lemma failures_dropped_witness : (names_in_range checked /\ Forall2 kinds_of (p_functions checked) kinds) /\
  exists q g, optimize_drop_failures IR_FAIL_CHECK checked kinds = Some q /\ p_functions q !! 0%nat = Some g /\
    forall x m', terminates word_machine checked_code (start checked_code [6] 0) x m' -> terminates word_machine (pf_code g) (start (pf_code g) [6] 0) x m'.
Proof.
  split; [split; [exact checked_names|exact checked_kinds]|].
  destruct (failures_dropped word_machine IR_FAIL_CHECK checked kinds checked_names checked_kinds) as (q & E & _ & _ & H).
  destruct (H 0%nat (Program_function (own main_name) checked_code) [IR_FAIL_NONE; IR_FAIL_CHECK; IR_FAIL_NONE] eq_refl eq_refl) as (g & Hg & _ & _ & Hr).
  exists q, g. split; [exact E|]. split; [exact Hg|]. exact (proj1 (Hr (fun _ => checked_apart) [6] 0 eq_refl checked_avoids)).
Defined.
End Sample.
